(* ===== verification/_CoqProject ===== *)
-Q . S2P
Prelude.v
Words.v
Cache.v
CacheSpec.v
Cfg.v
OrderTree.v
MemoryAnalysis.v
MemorySpec.v
Capi.v
CapiSpec.v
Accounting.v
Sendable.v
Allocation.v
Channel.v
ChannelSpec.v
Spsc.v
Branch.v
PerfRecords.v
PerfRecordsSpec.v
Spe.v
SpeSpec.v
Text.v
Artifacts.v
ArtifactsSpec.v
Plan.v
PlanSpec.v
Loops.v
LoopsReach.v
LoopsScc.v
LoopsSpec.v
Formula.v
FormulaSpec.v
Names.v
Collector.v
CollectorSpec.v
CollectorShutdown.v
CollectorRuns.v
AllocationSource.v
AllocationSourceSpec.v
Lifetimes.v
LifetimesSpec.v
LifetimesTimeline.v
AllocationTrace.v
AllocationTraceSpec.v
MemSamples.v
MemSamplesSpec.v
Regions.v
RegionsSpec.v
RegionsNest.v
RegionsTree.v
Floats.v
CallTree.v
CallTreeSpec.v
ProfileAnalysis.v
ProfileAnalysisSpec.v
FunctionAnalysis.v
FunctionAnalysisSpec.v
Timelines.v
TimelinesSpec.v
LanesSpec.v
TextInput.v
TextInputSpec.v
Classify.v
ClassifySpec.v
EventTimer.v
EventTimerSpec.v
ProcessTree.v
ProcessTreeSpec.v
Dispatcher.v
DispatcherSpec.v
Shim.v
ShimSpec.v
SampleTables.v
SampleTablesSpec.v
MemoryReport.v
MemoryReportSpec.v
LoopArtifact.v
LoopArtifactSpec.v
RooflineReport.v
RooflineReportSpec.v
