(* ===== verification/Prelude.v ===== *)
(** * miniperf: a verification library for the profiler's measurement core

    [miniperf] profiles programs.  Its kernel-facing half samples hardware counters and
    reads the records the kernel leaves in shared rings; its instrumentation half runs a
    program under a translator that reports every executed block and memory operand, and
    computes operation counts, modelled DRAM traffic and locality from them; a shim in the
    program and a collector record allocator calls and regions, which travel through a
    shared-memory channel.  A dispatcher stores all of it, post-processing turns it into
    tables, and the views analyse those.  This library models the parts in which a mistake
    silently falsifies a measurement, and proves what they promise.

    ** Parts of the program and where they are modelled

    The instrumentation session ([utils/roofline-core/src]):
    - [Cache.v], [CacheSpec.v]: the last-level cache model of [cache.rs].
    - [Cfg.v]: the dynamic control-flow graph of [cfg.rs].
    - [OrderTree.v], [MemoryAnalysis.v], [MemorySpec.v]: footprints, reuse distances,
      strides and working sets of [memory.rs].
    - [Capi.v], [CapiSpec.v], [Accounting.v]: the session behind the C interface of
      [capi.rs], which drives the three above from single events and from batches.
    - [Classify.v], [ClassifySpec.v]: instruction text to operation counts and control
      flow ([classify.rs], and [rc_classify], [rc_flow_kind] of [capi.rs]), and the
      generation of the table it searches ([tmdl_spec.rs]).
    - [Text.v], [Artifacts.v], [ArtifactsSpec.v]: the files a session writes
      ([artifacts.rs]) and their parsers and cross-check in the reporting tool
      ([mperf/src/roofline/qemu.rs]).
    - [Loops.v], [LoopsReach.v], [LoopsScc.v], [LoopsSpec.v]: dominators, natural loops and
      irreducible cycles of the recorded graph ([mperf/src/roofline/loops.rs]).

    The shared-memory channel ([shmem/src]) and what travels through it:
    - [Sendable.v], [Channel.v], [ChannelSpec.v], [Spsc.v]: [proc_channel.rs], first as
      whole operations, then as two processes that touch the memory one access at a time.
    - [Allocation.v]: the protocol of [allocation.rs].
    - [Shim.v], [ShimSpec.v]: the interposed allocator functions of
      [shims/libc/src/lib.rs], run by any number of threads.
    - [Collector.v], [CollectorSpec.v], [CollectorShutdown.v], [CollectorRuns.v]: buffers,
      producers, writer and shutdown of [collector-core/src].
    - [AllocationSource.v], [AllocationSourceSpec.v]: the receiving worker and its verdict
      ([libprof/src/source/allocations.rs], [libprof/src/allocation.rs]).

    Counters, samples and processes ([libprof/src]):
    - [Branch.v]: call stacks from branch records ([driver/perf/branch.rs]).
    - [PerfRecords.v], [PerfRecordsSpec.v]: the ring iterator and the record parsers of
      [driver/perf/mmap.rs].
    - [Spe.v], [SpeSpec.v]: the packet stream decoder of [driver/perf/spe.rs].
    - [Plan.v], [PlanSpec.v]: the packing of counters into groups of [driver/perf/plan.rs].
    - [EventTimer.v], [EventTimerSpec.v]: scoped measurements and the lock-free read of the
      kernel's page ([event_timer.rs]).
    - [ProcessTree.v], [ProcessTreeSpec.v]: [/proc] and the running totals over the process
      tree ([platform/linux.rs], [source/procfs.rs]).
    - [Formula.v], [FormulaSpec.v]: the parser of metric formulas
      ([pmu-data/src/arith_parser.rs]).

    Recording and post-processing ([mperf/src]):
    - [Dispatcher.v], [DispatcherSpec.v]: the worker that stores what the sources send
      ([event_dispatcher.rs]), the allocation tables ([event_dispatcher/allocations.rs]) and
      the shared interner, over rolling table files ([store/writer/src/writer.rs]).
    - [SampleTables.v], [SampleTablesSpec.v]: the pass over the stored samples
      ([postprocess/samples.rs]) with the choice of stacks ([libprof/src/unwind.rs]).
    - [Lifetimes.v], [LifetimesSpec.v], [LifetimesTimeline.v]: lifetimes of allocations and
      the timeline of live bytes ([postprocess/allocations.rs]).
    - [AllocationTrace.v], [AllocationTraceSpec.v], [MemoryReport.v], [MemoryReportSpec.v]:
      the tables of the memory mode ([postprocess/memory.rs]).
    - [LoopArtifact.v], [LoopArtifactSpec.v]: the work of the loops of an accounting run
      ([write_loop_artifact] of [roofline/qemu.rs]).
    - [RooflineReport.v], [RooflineReportSpec.v]: time and work of the loops of a recording
      ([postprocess/roofline.rs]).
    - [MemSamples.v], [MemSamplesSpec.v]: precise memory samples and their join with
      allocations ([mperf-data/src/mem.rs], [postprocess/mem_samples.rs]).
    - [Names.v]: function names ([symbolize/src/function_name.rs]).

    The views ([mperf-gui/src]):
    - [Regions.v], [RegionsSpec.v], [RegionsNest.v], [RegionsTree.v]: named regions, their
      nesting and times ([regions.rs]).
    - [CallTree.v], [ProfileAnalysis.v], [FunctionAnalysis.v], [Timelines.v], and beside them
      [CallTreeSpec.v], [ProfileAnalysisSpec.v], [FunctionAnalysisSpec.v],
      [TimelinesSpec.v], [LanesSpec.v]: the analyses of
      [profile_analysis.rs] over the profile of [profile.rs].
    - [TextInput.v], [TextInputSpec.v]: the text editor of [ui/text_input.rs].

    [Words.v] has the machine integers, [Floats.v] the double-precision numbers and this
    file the panics, vectors and list lemmas that all of them share.

    ** How code is represented

    Structs are records and enums inductive types with the names of the source; a method
    that changes its receiver is a function from the old state to the new one, with what
    it returns beside it.  [u64] and [usize] are integers with the wrapping, saturating
    and checked operations written out; where the source uses plain [+] the release
    build's wrapping is modelled.  [f64] is [spec_float] at 53 bits, executable, with the
    additions in the order of the source.  Indexing, slicing and unwrapping that would panic
    give [Panicked], and so does a raw read outside its buffer; error results are values of
    [option] or of a result type with the errors as constructors.  Ordered maps that are
    only looked up are [gmap]; where their order is visible it is restored by sorting, and
    where the order of a hash map is visible it is an argument.  Threads are transition
    systems whose steps are the accesses to shared state.

    Loops that are not structural carry fuel, and the theorems show that it is never
    exhausted: copies, decoders and digits take the number of bytes or bits left; reading the
    perf ring one unit per eight bytes; the graph algorithms bounds in the number of
    nodes and edges; the formula parser eight units per character and five more; the process
    walk one per process and one more; a binary search the length of its table and one more;
    ancestors and layout of a call tree the number of its nodes; the search for a free depth
    the depths in use; powers of ten twenty.

    ** What the theorems show

    - Cache: an access implements least-recently-used stacks per set with write-back and
      write-allocate traffic; the hit filter and the shift arithmetic change nothing.
    - Graph: run-length recording is repeated recording; a call with any nested activation
      is summarised by one edge and restores the stack; block counts are thread sums.
    - Memory: reuse distances are the stack distances of the trace and working sets its
      distinct lines; the miss-ratio curve drawn from them is that of fully associative
      least-recently-used caches run on the same references.
    - Session: a batch of records has the effect of its events one by one, in any
      division into batches; in every reachable session the counters are the sums over
      the blocks; what it writes is parsed back exactly and passes the cross-check, whenever
      the calls name no block that did not run ([Accounting.Traces] relates the graph to a
      ledger of the calls); the class of a line of disassembly is the one the instructions of
      the specification with that mnemonic and mask agree on.
    - Loops: the analysis ends with the natural loops of the dominance relation, nested as
      they contain each other, and the irreducible cycles.
    - Channel: a refinement of a bounded queue with counted drops; under every
      interleaving of the two sides messages arrive whole and in order, and neither side
      gets stuck; the allocation protocol decodes exactly what it encodes.
    - Shim and collector: however threads interleave, every address alternates between
      beginning and ending in the recorded rows and, when the calls have returned, their
      replay holds what the program holds; a shutdown can always be completed and delivers
      every accepted record once, a thread's in order while its thread-local variables live
      (later ones go through a shared slot and may overtake); the source calls a recording
      complete exactly when every operation reached it.
    - Perf: records are read in order and whole across the end of the ring, samples in
      the kernel's layout are recovered field by field, reading any content ends; branch
      histories give back the stack of open calls.
    - Profiling stream: packets in the architecture's encodings are read back, every
      sampled access is reported once with its own record's values, and polling in pieces
      reports what decoding in one piece does.
    - Planner and measurements: the events of a formula share a group, every event opens
      once, groups keep to the stated capacity; the lock-free reader returns the values of one
      instant; counts and times are exact within the documented widths.
    - Process tree: the walk finds exactly the descendants of the root, parents first; totals
      are those of the processes seen, and one that goes missing and comes back is counted a
      second time.
    - Formulas: the parser is total and inverts printing.
    - Dispatcher: every row is stored once and in the order sent, allocation rows with the
      numbers of their stacks; a batch is lost exactly when its own write or the close of its
      file fails, and no capture table vouches for allocation rows that were not stored.
    - Post-processing: the tables of samples are those of plain definitions on runs of one
      group; lifetimes, live bytes and the join of samples with allocations are those of
      the history; live mapped bytes are the addresses mapped and not unmapped.
    - Roofline: inclusive work of a loop is its own plus that of the loops inside it, no
      block is counted twice or lost; a loop's time is that of exactly the samples in its
      blocks, across load addresses, overlapping windows counted once; regions of
      instrumented loops are read exactly or refused with the first event at fault.
    - Views: call trees, function counts, lanes, tracks and regions show the sums over their
      samples and spans; regions form a forest that follows the nesting of the spans, and
      parents enclose children; the text input refines an abstract editor.

    Where the code departs from its comments or fails, theorems record it:
    [composition_selects_past_end], [missed_scan_counts_again], [raw_segments_order],
    [one_byte_lines_hit_sentinel], [empty_operand_diverges], [read_values_bounds],
    [losses_accounted] and [fold_period_exceeds_second].

    ** Interfaces and parameters

    The channel is proved against the classes [SendableLaws] (what a message type
    promises) and [SemaphoreLaws] (what the operating system's semaphores promise); the
    packets of the allocation protocol, the copyable types and a counting semaphore
    discharge them.  The numbers of the kernel interface are the classes [BranchAbi] and
    [RecordAbi] with their Linux values as instances.  Parameters are what is not in the
    sources: the memory layout of copyable types ([Repr]), the lossy decoding of file
    names, clock readings, the generated CPU families, the rounding of
    decimals, the demangler, the hash of the store, the unwinding library, the symbols of an
    address, the answers of the real allocator and of the file system.

    ** What is not modelled

    System calls (opening events, mapping memory, starting threads and processes), the
    macOS driver, host telemetry, the translators' own plugins, the shims of other
    libraries, the mapping and thread functions of the libc shim, the SQL over the store
    and the columnar files, the processing that is SQL ([postprocess/snapshot.rs], the
    roofline chart), process orchestration, painting of the terminal and graphical
    interfaces, build tools, and libraries the sources only call: input and output, glue or
    code that is not in the repository.  Weak memory orders are not modelled: threads
    interleave atomic accesses.  Of the artifacts the JSON file is left out, of [tmdl_spec.rs]
    the classification of a single instruction's behaviour, which is an input, of the dispatcher
    the channel in front of it, of the libc shim the calls before the real functions are
    found (only the arena they use is modelled), of [spe.rs] and
    [event_timer.rs] the opening of the events, of the collector its start and its control
    socket. *)

From stdpp Require Export base tactics numbers list list_numbers gmap option strings sorting.
From Stdlib Require Export ZArith Lia.

#[global] Set Default Goal Selector "!".

(** ** Panics

    A Rust operation that indexes out of range, unwraps an absent value or slices
    past the end of a buffer panics.  [outcome A] is the result of such an
    operation: it either finishes with a value or panics. *)
Inductive outcome (A : Type) : Type :=
| Done (a : A)
| Panicked.
Arguments Done {A} _.
Arguments Panicked {A}.

#[export] Instance outcome_ret : MRet outcome := λ A a, Done a.
#[export] Instance outcome_bind : MBind outcome := λ A B f m,
  match m with Done a => f a | Panicked => Panicked end.
#[export] Instance outcome_fmap : FMap outcome := λ A B f m,
  match m with Done a => Done (f a) | Panicked => Panicked end.

(** [unwrap o] is [Option::unwrap], [slice[i]] and the like: [None] panics. *)
Definition unwrap {A} (o : option A) : outcome A :=
  match o with Some a => Done a | None => Panicked end.

(** A loop whose body may panic: the state is threaded from left to right. *)
Fixpoint fold_outcome {S A} (f : S → A → outcome S) (xs : list A) (s : S) : outcome S :=
  match xs with
  | [] => Done s
  | x :: xs => match f s x with Done s' => fold_outcome f xs s' | Panicked => Panicked end
  end.

Lemma fold_outcome_app {S A} (f : S → A → outcome S) xs ys s :
  fold_outcome f (xs ++ ys) s =
  match fold_outcome f xs s with Done s' => fold_outcome f ys s' | Panicked => Panicked end.
Proof.
  revert s; induction xs as [|x xs IH]; intros s; simpl; [done|].
  destruct (f s x); [apply IH|done].
Qed.

(** The induction principle for such loops: an invariant kept by every iteration
    holds at the end, and an iteration that keeps it never panics. *)
Lemma fold_outcome_inv {S A} (I : S → Prop) (f : S → A → outcome S) xs s :
  I s → (∀ s x, x ∈ xs → I s → ∃ s', f s x = Done s' ∧ I s') →
  ∃ s', fold_outcome f xs s = Done s' ∧ I s'.
Proof.
  revert s; induction xs as [|x xs IH]; intros s HI Hf; simpl; [eauto|].
  destruct (Hf s x) as (s' & -> & HI'); [set_solver|done|].
  apply IH; [done|]. intros ? y Hy; apply Hf; set_solver.
Qed.

(** Two loops over the same elements that keep a relation between their states. *)
Lemma fold_outcome_sim {S T A} (R : S → T → Prop)
    (f : S → A → outcome S) (g : T → A → outcome T) xs s t :
  R s t →
  (∀ s t x, x ∈ xs → R s t → ∃ s' t', f s x = Done s' ∧ g t x = Done t' ∧ R s' t') →
  ∃ s' t', fold_outcome f xs s = Done s' ∧ fold_outcome g xs t = Done t' ∧ R s' t'.
Proof.
  revert s t; induction xs as [|x xs IH]; intros s t HR Hf; simpl; [eauto|].
  destruct (Hf s t x) as (s' & t' & -> & -> & HR'); [set_solver|done|].
  apply IH; [done|]. intros ?? y Hy; apply Hf; set_solver.
Qed.

(** ** Vectors

    A Rust [Vec] is a list; [push] appends and [pop] takes the last element. *)
Definition vec_push {A} (v : list A) (x : A) : list A := v ++ [x].
Definition vec_pop {A} (v : list A) : option A * list A :=
  match last v with Some x => (Some x, take (length v - 1) v) | None => (None, v) end.

Lemma vec_pop_push {A} (v : list A) x : vec_pop (vec_push v x) = (Some x, v).
Proof.
  unfold vec_pop, vec_push. rewrite last_snoc, length_app. simpl.
  f_equal. replace (length v + 1 - 1)%nat with (length v) by lia.
  by rewrite take_app_length.
Qed.

(** [v.resize(n, d)] where it only grows the vector. *)
Definition vec_grow {A} (d : A) (n : nat) (v : list A) : list A :=
  v ++ replicate (n - length v) d.

Lemma vec_grow_id {A} (d : A) n v : (n ≤ length v)%nat → vec_grow d n v = v.
Proof.
  intros H. unfold vec_grow. replace (n - length v)%nat with 0%nat by lia.
  by rewrite app_nil_r.
Qed.

Lemma length_vec_grow {A} (d : A) n v : length (vec_grow d n v) = max n (length v).
Proof. unfold vec_grow. rewrite length_app, length_replicate. lia. Qed.

(** [iter().position(p)]. *)
Fixpoint position {A} (p : A → bool) (l : list A) : option nat :=
  match l with
  | [] => None
  | x :: l => if p x then Some 0%nat else S <$> position p l
  end.

Lemma position_Some {A} (p : A → bool) l i :
  position p l = Some i ↔
  ∃ x, l !! i = Some x ∧ p x = true ∧ ∀ j y, (j < i)%nat → l !! j = Some y → p y = false.
Proof.
  revert i; induction l as [|x l IH]; intros i; simpl; [split; [done|by intros (? & ? & _)]|].
  destruct (p x) eqn:Hp.
  - split.
    + intros [= <-]. exists x. repeat split; [done..|lia].
    + intros (y & Hy & Hpy & Hlt). destruct i as [|i]; [done|].
      specialize (Hlt 0%nat x ltac:(lia) eq_refl). congruence.
  - rewrite fmap_Some. split.
    + intros (k & (y & Hy & Hpy & Hlt)%IH & ->). exists y. repeat split; [done..|].
      intros [|j] z Hj; simpl; [congruence|]. apply Hlt; lia.
    + intros (y & Hy & Hpy & Hlt). destruct i as [|i]; [simpl in *; congruence|].
      exists i. split; [|done]. apply IH. exists y. repeat split; [done..|].
      intros j z Hj Hz. apply (Hlt (S j) z); [lia|done].
Qed.

Lemma position_None {A} (p : A → bool) l :
  position p l = None ↔ ∀ i x, l !! i = Some x → p x = false.
Proof.
  induction l as [|x l IH]; simpl; [naive_solver|].
  destruct (p x) eqn:Hp.
  - split; [done|]. intros H. specialize (H 0%nat x eq_refl). congruence.
  - rewrite fmap_None, IH. split.
    + intros H [|i] y Hy; simpl in *; [congruence|]. by apply (H i).
    + intros H i y Hy. by apply (H (S i)).
Qed.

Lemma position_lt {A} (p : A → bool) l i : position p l = Some i → (i < length l)%nat.
Proof. intros (x & Hx & _)%position_Some. by apply lookup_lt_Some in Hx. Qed.

(** [&v[base..base + n]]: [None] when the range leaves the vector. *)
Definition slice {A} (base n : nat) (v : list A) : option (list A) :=
  if decide (base + n ≤ length v)%nat then Some (take n (drop base v)) else None.

Lemma slice_lookup {A} base n (v s : list A) i :
  slice base n v = Some s → (i < n)%nat → s !! i = v !! (base + i)%nat.
Proof.
  unfold slice. case_decide; intros [= <-] Hi.
  by rewrite lookup_take_lt, lookup_drop by lia.
Qed.

Lemma slice_length {A} base n (v s : list A) : slice base n v = Some s → length s = n.
Proof. unfold slice. case_decide; intros [= <-]. rewrite length_take, length_drop. lia. Qed.

(** ** Permutations and sorted lists *)

(** Updating one position of a list exchanges that element in its multiset. *)
Lemma insert_perm {A} (l : list A) i x :
  l !! i = Some x → ∃ r, l ≡ₚ x :: r ∧ ∀ y, <[i := y]> l ≡ₚ y :: r.
Proof.
  revert i; induction l as [|z l IH]; intros i; [done|].
  destruct i as [|i]; simpl.
  - intros [= ->]. exists l. split; [done|]. intros y. done.
  - intros (r & Hr & Hy)%IH. exists (z :: r). split.
    + rewrite Hr. apply Permutation_swap.
    + intros y. simpl. rewrite Hy. apply Permutation_swap.
Qed.

Lemma filter_perm {A} (p : A → bool) (l k : list A) :
  l ≡ₚ k → List.filter p l ≡ₚ List.filter p k.
Proof.
  induction 1 as [|x l k _ IH|x y l|l1 l2 l3 _ IH1 _ IH2]; simpl.
  - done.
  - destruct (p x); [by rewrite IH|done].
  - destruct (p x), (p y); try done. apply Permutation_swap.
  - by rewrite IH1.
Qed.

Lemma filter_all {A} (p : A → bool) (l : list A) :
  (∀ x, x ∈ l → p x = true) → List.filter p l = l.
Proof.
  induction l as [|x l IH]; intros H; simpl; [done|].
  rewrite (H x) by set_solver. f_equal. apply IH. set_solver.
Qed.

Lemma filter_none {A} (p : A → bool) (l : list A) :
  (∀ x, x ∈ l → p x = false) → List.filter p l = [].
Proof.
  induction l as [|x l IH]; intros H; simpl; [done|].
  rewrite (H x) by set_solver. apply IH. set_solver.
Qed.

Lemma StronglySorted_remove {A} (R : relation A) l1 x l2 :
  StronglySorted R (l1 ++ x :: l2) → StronglySorted R (l1 ++ l2).
Proof.
  induction l1 as [|y l1 IH]; simpl; inversion_clear 1 as [|? ? HS HF]; [done|].
  constructor; [auto|]. rewrite Forall_app in *. destruct HF as [? HF].
  split; [done|]. by inversion HF.
Qed.

(** In a strictly decreasing list the last element is below every other. *)
Lemma StronglySorted_last {A} (R : relation A) l x y :
  StronglySorted R (l ++ [x]) → y ∈ l → R y x.
Proof.
  induction l as [|z l IH]; simpl; [set_solver|].
  inversion_clear 1 as [|? ? HS HF]. intros [->|Hy]%elem_of_cons; [|auto].
  rewrite Forall_app in HF. destruct HF as [_ HF]. by inversion HF.
Qed.

Lemma StronglySorted_lookup {A} (R : relation A) l i j x y :
  StronglySorted R l → (i < j)%nat → l !! i = Some x → l !! j = Some y → R x y.
Proof.
  intros Hs Hij Hx Hy. apply list_elem_of_split_length in Hx as (l1 & l2 & -> & ->).
  rewrite lookup_app_r in Hy by lia. apply StronglySorted_app_1_r, StronglySorted_inv in Hs as [_ Hf].
  rewrite Forall_forall in Hf. apply Hf. replace (j - length l1)%nat with (S (j - length l1 - 1)) in Hy by lia.
  cbn in Hy. by eapply list_elem_of_lookup_2.
Qed.

Lemma list_snoc_inv {A} (l : list A) : l ≠ [] → ∃ k x, l = k ++ [x].
Proof. induction l as [|x k _] using rev_ind; [done|eauto]. Qed.

Lemma find_fst_Some {V} (k : Z) (l : list (Z * V)) v :
  NoDup l.*1 → (k, v) ∈ l → List.find (λ e, Z.eqb e.1 k) l = Some (k, v).
Proof.
  induction l as [|[k' v'] l IH]; simpl; [set_solver|].
  intros [Hn HN]%NoDup_cons [[= <- <-]|Hin]%elem_of_cons; [by rewrite Z.eqb_refl|].
  destruct (Z.eqb_spec k' k) as [->|]; [|auto].
  exfalso. apply Hn. apply list_elem_of_fmap. by exists (k, v).
Qed.

(** ** Interleavings *)

(** [m] is a shuffle of [l] and [k] that keeps the order of each. *)
Inductive interleaved {A} : list A → list A → list A → Prop :=
| interleaved_nil : interleaved [] [] []
| interleaved_l x l k m : interleaved l k m → interleaved (x :: l) k (x :: m)
| interleaved_r x l k m : interleaved l k m → interleaved l (x :: k) (x :: m).

Lemma interleaved_nil_r {A} (l m : list A) : interleaved l [] m → m = l.
Proof.
  remember [] as k eqn:Ek. induction 1 as [|x l k m _ IH|]; [done|by rewrite IH|done].
Qed.

Lemma interleaved_perm {A} (l k m : list A) : interleaved l k m → m ≡ₚ l ++ k.
Proof.
  induction 1 as [|x l k m _ IH|x l k m _ IH]; simpl; [done|by rewrite IH|].
  rewrite IH. apply Permutation_middle.
Qed.

(** A list is a shuffle of the elements that pass a test and of those that do not. *)
Lemma interleaved_filter {A} (p : A → bool) l :
  interleaved (List.filter p l) (List.filter (λ x, negb (p x)) l) l.
Proof. induction l as [|x l IH]; simpl; [constructor|]. destruct (p x); simpl; by constructor. Qed.

Lemma interleaved_swap {A} (l k m : list A) : interleaved l k m → interleaved k l m.
Proof. induction 1; by constructor. Qed.

Lemma interleaved_fmap {A B} (f : A → B) l k m : interleaved l k m → interleaved (f <$> l) (f <$> k) (f <$> m).
Proof. induction 1; csimpl; by constructor. Qed.

(** ** Updates seen through a slice *)

Lemma slice_insert_in {A} base n w (v s : list A) x :
  slice base n v = Some s → (w < n)%nat →
  slice base n (<[(base + w)%nat := x]> v) = Some (<[w := x]> s).
Proof.
  unfold slice. rewrite length_insert. case_decide; intros [= <-] Hw. f_equal.
  rewrite drop_insert_ge by lia. replace (base + w - base)%nat with w by lia.
  by rewrite take_insert_lt.
Qed.

Lemma slice_insert_out {A} base n i (v : list A) x :
  (i < base ∨ base + n ≤ i)%nat → slice base n (<[i := x]> v) = slice base n v.
Proof.
  unfold slice. rewrite length_insert. intros Hi. case_decide; [|done]. f_equal.
  destruct Hi as [Hi|Hi]; [by rewrite drop_insert_lt by lia|].
  rewrite drop_insert_ge by lia. by rewrite take_insert_ge by lia.
Qed.
