(* ===== verification/Words.v ===== *)
(** * Machine integers

    [u64] and (64-bit) [usize] values are integers of type [Z] kept in
    [0 .. 2^64).  This file has the operations of the Rust standard library the
    sources use on them (wrapping, saturating and checked arithmetic, bit counts,
    little-endian byte conversion) and the lemmas the components share. *)

From S2P Require Import Prelude.
Open Scope Z_scope.

Create HintDb words.
Create Rewrite HintDb words.

Definition u64_max : Z := 2 ^ 64 - 1.
Definition u32_max : Z := 2 ^ 32 - 1.

Definition in_u64 (x : Z) : Prop := 0 ≤ x ≤ u64_max.
Definition in_u32 (x : Z) : Prop := 0 ≤ x ≤ u32_max.

(** [lia] does not compute [2 ^ 64]; these equations let it see the constants. *)
Lemma u64_max_val : u64_max = 18446744073709551615.
Proof. reflexivity. Qed.
Lemma u32_max_val : u32_max = 4294967295.
Proof. reflexivity. Qed.

(** ** Arithmetic *)

(** Release-mode [+] and [*], and [wrapping_*]. *)
Definition wrap64 (x : Z) : Z := x mod 2 ^ 64.
Definition wrapping_add (a b : Z) : Z := wrap64 (a + b).
Definition wrapping_sub (a b : Z) : Z := wrap64 (a - b).
Definition wrapping_mul (a b : Z) : Z := wrap64 (a * b).

Definition saturating_add (a b : Z) : Z := Z.min (a + b) u64_max.
Definition saturating_sub (a b : Z) : Z := Z.max (a - b) 0.
Definition saturating_mul (a b : Z) : Z := Z.min (a * b) u64_max.

Definition checked_add (a b : Z) : option Z :=
  if a + b <=? u64_max then Some (a + b) else None.
Definition checked_mul (a b : Z) : option Z :=
  if a * b <=? u64_max then Some (a * b) else None.

(** [x as u32]. *)
Definition as_u32 (x : Z) : Z := x mod 2 ^ 32.
(** [x as i64] of a [u64]. *)
Definition as_i64 (x : Z) : Z := if x <? 2 ^ 63 then x else x - 2 ^ 64.

Ltac unfold_words :=
  unfold in_u64, in_u32, wrapping_add, wrapping_sub, wrapping_mul, wrap64,
    saturating_add, saturating_sub, saturating_mul, as_u32 in *;
  rewrite ?u64_max_val, ?u32_max_val in *;
  change (2 ^ 64) with 18446744073709551616 in *;
  change (2 ^ 32) with 4294967296 in *.

(** [word_lia]: linear arithmetic over the operations above. *)
Ltac word_lia := unfold_words; lia.

Lemma wrap64_small x : in_u64 x → wrap64 x = x.
Proof. intros H. unfold wrap64. apply Z.mod_small. word_lia. Qed.

Lemma wrap64_range x : in_u64 (wrap64 x).
Proof. unfold wrap64, in_u64, u64_max. pose proof (Z.mod_pos_bound x (2 ^ 64)). lia. Qed.

Lemma as_i64_wrap x : - 2 ^ 63 ≤ x < 2 ^ 63 → as_i64 (wrap64 x) = x.
Proof.
  intros H. unfold as_i64, wrap64. destruct (Z_lt_le_dec x 0) as [Hn|Hn].
  - rewrite <-(Z.mod_add x 1) by lia. rewrite Z.mod_small by lia.
    rewrite (proj2 (Z.ltb_ge _ _)) by lia. lia.
  - rewrite Z.mod_small by lia. by rewrite (proj2 (Z.ltb_lt _ _)) by lia.
Qed.

Lemma wrap64_add_l a b : wrap64 (wrap64 a + b) = wrap64 (a + b).
Proof. apply Zplus_mod_idemp_l. Qed.

Lemma wrap64_add_r a b : wrap64 (a + wrap64 b) = wrap64 (a + b).
Proof. apply Zplus_mod_idemp_r. Qed.

Lemma wrap64_sub_wrap a b : wrap64 (wrap64 a - wrap64 b) = wrap64 (a - b).
Proof. unfold wrap64. symmetry. apply Zminus_mod. Qed.

Lemma as_u32_small x : in_u32 x → as_u32 x = x.
Proof. intros H. unfold as_u32. apply Z.mod_small. word_lia. Qed.

Lemma saturating_add_range a b : in_u64 a → in_u64 b → in_u64 (saturating_add a b).
Proof. word_lia. Qed.

Lemma saturating_mul_range a b : in_u64 a → in_u64 b → in_u64 (saturating_mul a b).
Proof. unfold_words. intros. nia. Qed.

Lemma saturating_add_0_r a : in_u64 a → saturating_add a 0 = a.
Proof. word_lia. Qed.

Lemma saturating_add_0_l a : in_u64 a → saturating_add 0 a = a.
Proof. word_lia. Qed.

Lemma saturating_add_assoc a b c :
  in_u64 a → in_u64 b → in_u64 c →
  saturating_add (saturating_add a b) c = saturating_add a (saturating_add b c).
Proof. word_lia. Qed.

Lemma saturating_add_comm a b : saturating_add a b = saturating_add b a.
Proof. word_lia. Qed.

(** Adding [x] to a saturated multiple of [x] gives the next multiple. *)
Lemma saturating_mul_succ x n :
  0 ≤ x → 0 ≤ n →
  saturating_add (saturating_mul x n) x = saturating_mul x (n + 1).
Proof. intros. unfold saturating_add, saturating_mul, u64_max. nia. Qed.

Lemma saturating_mul_1 x : in_u64 x → saturating_mul x 1 = x.
Proof. word_lia. Qed.

#[export] Hint Resolve wrap64_range saturating_add_range saturating_mul_range : words.

(** ** Bit counts *)

Fixpoint pos_ones (p : positive) : Z :=
  match p with xH => 1 | xO p => pos_ones p | xI p => 1 + pos_ones p end.

(** [u64::count_ones]. *)
Definition count_ones (x : Z) : Z := match x with Zpos p => pos_ones p | _ => 0 end.

(** [u64::is_power_of_two]. *)
Definition is_power_of_two (x : Z) : bool := count_ones x =? 1.

Fixpoint pos_tz (p : positive) : Z :=
  match p with xO p => 1 + pos_tz p | _ => 0 end.

(** [u64::trailing_zeros]. *)
Definition trailing_zeros (x : Z) : Z := match x with Zpos p => pos_tz p | _ => 64 end.

(** [u64::leading_zeros]. *)
Definition leading_zeros (x : Z) : Z := if x =? 0 then 64 else 63 - Z.log2 x.

Lemma pos_ones_ge_1 p : 1 ≤ pos_ones p.
Proof. induction p; simpl; lia. Qed.

Lemma pos_tz_nonneg p : 0 ≤ pos_tz p.
Proof. induction p; cbn [pos_tz]; lia. Qed.

Lemma pos_ones_1 p : pos_ones p = 1 → Zpos p = 2 ^ pos_tz p.
Proof.
  induction p as [p IH|p IH|]; cbn [pos_ones pos_tz]; intros H.
  - pose proof (pos_ones_ge_1 p). lia.
  - rewrite Z.pow_add_r by (try apply pos_tz_nonneg; lia). rewrite <-IH by done. lia.
  - done.
Qed.

(** A power of two is [2] to the number of its trailing zeros. *)
Lemma is_power_of_two_spec x :
  is_power_of_two x = true → 0 ≤ trailing_zeros x ∧ x = 2 ^ trailing_zeros x.
Proof.
  unfold is_power_of_two. rewrite Z.eqb_eq. destruct x as [|p|p]; simpl; [done| |done].
  intros H. split; [apply pos_tz_nonneg|]. by apply pos_ones_1.
Qed.

Lemma is_power_of_two_pos x : is_power_of_two x = true → 0 < x.
Proof. unfold is_power_of_two. rewrite Z.eqb_eq. by destruct x. Qed.

(** [x & (2^k - 1)] and [x >> k] are remainder and quotient. *)
Lemma land_mask x k : 0 ≤ k → Z.land x (Z.shiftl 1 k - 1) = x mod 2 ^ k.
Proof.
  intros Hk. rewrite <-Z.land_ones by done.
  by rewrite Z.ones_equiv, Z.shiftl_1_l, Z.sub_1_r.
Qed.

Lemma land_pow2_mask x n :
  is_power_of_two n = true → Z.land x (n - 1) = x mod n.
Proof.
  intros [Hk Hn]%is_power_of_two_spec. rewrite Hn at 1 2.
  rewrite <-Z.land_ones by done. by rewrite Z.ones_equiv, Z.sub_1_r.
Qed.

Lemma pow2_divides_u64 n :
  is_power_of_two n = true → n ≤ 2 ^ 64 → (n | 2 ^ 64).
Proof.
  intros [Hk Hn]%is_power_of_two_spec Hle. rewrite Hn in Hle |- *.
  apply Z.pow_le_mono_r_iff in Hle; [|lia..].
  exists (2 ^ (64 - trailing_zeros n)). rewrite <-Z.pow_add_r by lia. f_equal; lia.
Qed.

(** ** Little-endian bytes

    A byte is an integer in [0 .. 256).  The supported targets (x86-64, AArch64,
    RISC-V) are little-endian, so [to_ne_bytes] is [to_le_bytes]. *)

Definition is_byte (b : Z) : Prop := 0 ≤ b < 256.

Fixpoint le_bytes (n : nat) (x : Z) : list Z :=
  match n with O => [] | S n => x mod 256 :: le_bytes n (x / 256) end.

Fixpoint le_value (bs : list Z) : Z :=
  match bs with [] => 0 | b :: bs => b + 256 * le_value bs end.

(** [u64::to_le_bytes] and [u64::from_le_bytes]. *)
Definition to_le_bytes (x : Z) : list Z := le_bytes 8 x.
Definition from_le_bytes (bs : list Z) : Z := le_value bs.

Lemma length_le_bytes n x : length (le_bytes n x) = n.
Proof. revert x; induction n; intros; simpl; auto. Qed.

Lemma le_bytes_bytes n x : Forall is_byte (le_bytes n x).
Proof.
  revert x; induction n; intros; simpl; constructor; [|done].
  unfold is_byte. by apply Z.mod_pos_bound.
Qed.

Lemma le_value_bytes n x : le_value (le_bytes n x) = x mod 256 ^ Z.of_nat n.
Proof.
  revert x; induction n as [|n IH]; intros x; cbn [le_bytes le_value].
  - by rewrite Z.mod_1_r.
  - rewrite IH, Nat2Z.inj_succ, Z.pow_succ_r by lia.
    by rewrite Z.rem_mul_r by lia.
Qed.

Lemma le_bytes_value bs : Forall is_byte bs → le_bytes (length bs) (le_value bs) = bs.
Proof.
  induction 1 as [|b bs Hb Hbs IH]; [done|]. cbn [length le_bytes le_value].
  unfold is_byte in Hb. rewrite (Z.mul_comm 256), Z.mod_add, Z.mod_small by lia.
  by rewrite Z.div_add, Z.div_small, Z.add_0_l, IH by lia.
Qed.

Lemma le_value_range bs : Forall is_byte bs → 0 ≤ le_value bs < 256 ^ Z.of_nat (length bs).
Proof.
  intros H. rewrite <-(le_bytes_value bs H) at 1 2. rewrite le_value_bytes.
  apply Z.mod_pos_bound. lia.
Qed.

(** [from_le_bytes (to_le_bytes x) = x] on [u64]. *)
Lemma from_to_le_bytes x : in_u64 x → from_le_bytes (to_le_bytes x) = x.
Proof.
  intros H. unfold from_le_bytes, to_le_bytes. rewrite le_value_bytes.
  apply Z.mod_small. unfold in_u64, u64_max in H. simpl. lia.
Qed.

Lemma to_from_le_bytes bs :
  length bs = 8%nat → Forall is_byte bs → to_le_bytes (from_le_bytes bs) = bs.
Proof. intros Hl Hb. unfold to_le_bytes. rewrite <-Hl. by apply le_bytes_value. Qed.

Lemma from_le_bytes_range bs :
  length bs = 8%nat → Forall is_byte bs → in_u64 (from_le_bytes bs).
Proof.
  intros Hl Hb. pose proof (le_value_range bs Hb) as H. rewrite Hl in H.
  unfold in_u64, u64_max, from_le_bytes. simpl in H. lia.
Qed.

Lemma length_to_le_bytes x : length (to_le_bytes x) = 8%nat.
Proof. apply length_le_bytes. Qed.

Lemma to_le_bytes_bytes x : Forall is_byte (to_le_bytes x).
Proof. apply le_bytes_bytes. Qed.

#[export] Hint Resolve to_le_bytes_bytes from_le_bytes_range : words.
#[export] Hint Rewrite @length_to_le_bytes : words.

(** The operations on byte strings stay folded in the components' proofs. *)
#[global] Arguments le_bytes : simpl never.
#[global] Arguments to_le_bytes : simpl never.
#[global] Arguments from_le_bytes : simpl never.
#[global] Arguments u64_max : simpl never.
#[global] Arguments u32_max : simpl never.
