(* ===== verification/Cache.v ===== *)
(** * The shared last-level-cache model

    Models [utils/roofline-core/src/cache.rs]: a write-back, write-allocate,
    set-associative cache with LRU replacement that turns architectural accesses
    into modelled DRAM traffic.  The code keeps a four-entry filter of recently
    hit lines ([mru]) in front of the set lookup and replaces the division by a
    shift when the number of sets is a power of two.

    - Module [Cache]: the data and the operations, as the code has them;
    - Module [Cache]'s lemmas: the representation invariant [wf], and that every
      operation keeps it and never panics;
    - the reference operations [plain_access] (no filter) and the abstract LRU
      stacks are in [CacheSpec.v]. *)

From S2P Require Import Prelude Words.
Open Scope Z_scope.

Module Cache.

(** ** Data *)

Record MemoryTraffic : Type := mkTraffic { bytes_load : Z; bytes_store : Z }.
Definition no_traffic : MemoryTraffic := mkTraffic 0 0.

Record CacheLine : Type := mkLine { tag : Z; last_used : Z; dirty : bool }.

Definition TAG_INVALID : Z := u64_max.
Definition MRU_WAYS : nat := 4.
Definition MRU_INVALID : Z * Z := (u64_max, 0).

Record CacheModel : Type := mkCache {
  line_size : Z;
  line_shift : Z;
  set_shift : option Z;
  capacity : Z;
  associativity : Z;
  set_count : Z;
  lines : list CacheLine;
  clock : Z;
  mru : list (Z * Z);
  mru_cursor : nat
}.

#[export] Instance CacheLine_eq_dec : EqDecision CacheLine.
Proof. solve_decision. Defined.
#[export] Instance MemoryTraffic_eq_dec : EqDecision MemoryTraffic.
Proof. solve_decision. Defined.

(** ** Operations *)

Definition empty_line : CacheLine := mkLine TAG_INVALID 0 false.

Definition new (line_size capacity associativity : Z) : option CacheModel :=
  if negb (is_power_of_two line_size) || (line_size =? 0) || (associativity =? 0) then None
  else
    let lines := capacity / line_size in
    let set_count := lines / associativity in
    if set_count =? 0 then None
    else Some {|
      line_size := line_size;
      line_shift := trailing_zeros line_size;
      set_shift :=
        if is_power_of_two set_count then Some (trailing_zeros set_count) else None;
      capacity := set_count * associativity * line_size;
      associativity := associativity;
      set_count := set_count;
      lines := replicate (Z.to_nat (set_count * associativity)) empty_line;
      clock := 0;
      mru := replicate MRU_WAYS MRU_INVALID;
      mru_cursor := 0
    |}.

Definition with_lines (ls : list CacheLine) (c : CacheModel) : CacheModel :=
  {| line_size := line_size c; line_shift := line_shift c; set_shift := set_shift c;
     capacity := capacity c; associativity := associativity c; set_count := set_count c;
     lines := ls; clock := clock c; mru := mru c; mru_cursor := mru_cursor c |}.
Definition with_clock (k : Z) (c : CacheModel) : CacheModel :=
  {| line_size := line_size c; line_shift := line_shift c; set_shift := set_shift c;
     capacity := capacity c; associativity := associativity c; set_count := set_count c;
     lines := lines c; clock := k; mru := mru c; mru_cursor := mru_cursor c |}.
Definition with_mru (m : list (Z * Z)) (cur : nat) (c : CacheModel) : CacheModel :=
  {| line_size := line_size c; line_shift := line_shift c; set_shift := set_shift c;
     capacity := capacity c; associativity := associativity c; set_count := set_count c;
     lines := lines c; clock := clock c; mru := m; mru_cursor := cur |}.

(** The set index and the tag of a line address. *)
Definition set_and_tag (c : CacheModel) (line_address : Z) : Z * Z :=
  match set_shift c with
  | Some shift => (Z.land line_address (Z.shiftl 1 shift - 1), Z.shiftr line_address shift)
  | None => (line_address `mod` set_count c, line_address / set_count c)
  end.

(** A hit refreshes the line and a store makes it dirty. *)
Definition hit_line (now : Z) (store : bool) (l : CacheLine) : CacheLine :=
  mkLine (tag l) now (if store then true else dirty l).

(** [set.iter().enumerate().min_by_key(|(_, line)| line.last_used)]: the first of
    the least recently used ways. *)
Fixpoint oldest_from (i best : nat) (best_used : Z) (set : list CacheLine) : nat :=
  match set with
  | [] => best
  | l :: set =>
      if last_used l <? best_used then oldest_from (S i) i (last_used l) set
      else oldest_from (S i) best best_used set
  end.
Definition oldest (set : list CacheLine) : option nat :=
  match set with [] => None | l :: set => Some (oldest_from 1 0 (last_used l) set) end.

Definition is_invalid (l : CacheLine) : bool := tag l =? TAG_INVALID.

Definition victim_way (set : list CacheLine) : nat :=
  match position is_invalid set with
  | Some way => way
  | None => default 0%nat (oldest set)
  end.

(** The traffic of replacing [old]: a dirty victim is written back, and the new
    line is always loaded (write allocation). *)
Definition replace_traffic (c : CacheModel) (old : CacheLine) (t : MemoryTraffic) : MemoryTraffic :=
  {| bytes_load := saturating_add (bytes_load t) (line_size c);
     bytes_store :=
       if negb (is_invalid old) && dirty old
       then saturating_add (bytes_store t) (line_size c) else bytes_store t |}.

(** The set lookup of one line: hit, or replacement of a victim. *)
Definition lookup_line (store : bool) (line_address : Z) (c : CacheModel) (t : MemoryTraffic)
    : outcome (CacheModel * MemoryTraffic) :=
  let '(set_index, tg) := set_and_tag c line_address in
  let base := Z.to_nat (set_index * associativity c) in
  set ← unwrap (slice base (Z.to_nat (associativity c)) (lines c));
  match position (λ l, tag l =? tg) set with
  | Some way =>
      l ← unwrap (set !! way);
      let c := with_lines (<[(base + way)%nat := hit_line (clock c) store l]> (lines c)) c in
      _ ← unwrap (mru c !! mru_cursor c);
      Done (with_mru (<[mru_cursor c := (line_address, as_u32 (Z.of_nat (base + way)))]> (mru c))
              ((mru_cursor c + 1) mod MRU_WAYS)%nat c, t)
  | None =>
      let c := with_mru (replicate MRU_WAYS MRU_INVALID) (mru_cursor c) c in
      let victim := victim_way set in
      old ← unwrap (set !! victim);
      Done (with_lines (<[(base + victim)%nat := mkLine tg (clock c) store]> (lines c)) c,
            replace_traffic c old t)
  end.

(** One iteration of the loop of [access]. *)
Definition access_line (store : bool) (ct : CacheModel * MemoryTraffic) (line_address : Z)
    : outcome (CacheModel * MemoryTraffic) :=
  let '(c, t) := ct in
  let c := with_clock (wrapping_add (clock c) 1) c in
  match List.find (λ e, e.1 =? line_address) (mru c) with
  | Some (_, index) =>
      l ← unwrap (lines c !! Z.to_nat index);
      Done (with_lines (<[Z.to_nat index := hit_line (clock c) store l]> (lines c)) c, t)
  | None => lookup_line store line_address c t
  end.

(** The lines an access touches, first to last. *)
Definition touched_lines (c : CacheModel) (address size : Z) : list Z :=
  let first_line := Z.shiftr address (line_shift c) in
  let last_line := Z.shiftr (saturating_add address (size - 1)) (line_shift c) in
  seqZ first_line (last_line - first_line + 1).

Definition access (c : CacheModel) (address size : Z) (store : bool)
    : outcome (CacheModel * MemoryTraffic) :=
  if size =? 0 then Done (c, no_traffic)
  else fold_outcome (access_line store) (touched_lines c address size) (c, no_traffic).

Definition is_dirty (l : CacheLine) : bool := negb (is_invalid l) && dirty l.
Definition count_dirty (ls : list CacheLine) : Z := Z.of_nat (length (List.filter is_dirty ls)).

Definition flush (c : CacheModel) : CacheModel * MemoryTraffic :=
  let c' := with_mru (replicate MRU_WAYS MRU_INVALID) (mru_cursor c) c in
  (with_lines (map (λ _, empty_line) (lines c)) c',
   mkTraffic 0 (saturating_mul (count_dirty (lines c)) (line_size c))).

(** ** Representation invariant *)

Definition set_of (c : CacheModel) (i : nat) : Z := Z.of_nat i / associativity c.

(** A filter entry names a line of the right set that carries the right tag. *)
Definition mru_entry_ok (c : CacheModel) (e : Z * Z) : Prop :=
  0 ≤ e.1 < u64_max ∧ 0 ≤ e.2 ∧
  ∃ l, lines c !! Z.to_nat e.2 = Some l ∧ tag l = e.1 / set_count c ∧
       e.2 / associativity c = e.1 `mod` set_count c.

(** The geometry [new] computes.  A line of at least two bytes keeps every line
    address below [u64_max], the value both sentinels use, and a filter index fits
    its [u32]. *)
Record geometry_ok (c : CacheModel) : Prop := {
  geo_shift : 0 ≤ line_shift c;
  geo_line_size : line_size c = 2 ^ line_shift c;
  geo_line_two : 2 ≤ line_size c ≤ u64_max;
  geo_assoc : 0 < associativity c;
  geo_sets : 0 < set_count c;
  geo_set_shift : ∀ s, set_shift c = Some s → 0 ≤ s ∧ set_count c = 2 ^ s;
  geo_small : set_count c * associativity c ≤ 2 ^ 32
}.

Record wf (c : CacheModel) : Prop := {
  wf_geometry : geometry_ok c;
  wf_length : length (lines c) = Z.to_nat (set_count c * associativity c);
  wf_unique : ∀ i j li lj,
    lines c !! i = Some li → lines c !! j = Some lj → set_of c i = set_of c j →
    tag li = tag lj → tag li ≠ TAG_INVALID → i = j;
  wf_mru_length : length (mru c) = MRU_WAYS;
  wf_cursor : (mru_cursor c < MRU_WAYS)%nat;
  wf_mru : Forall (λ e, e = MRU_INVALID ∨ mru_entry_ok c e) (mru c)
}.

(** Line addresses an access can reach. *)
Definition line_ok (la : Z) : Prop := 0 ≤ la < u64_max.

(** ** Lemmas *)

(** With a power-of-two number of sets, mask and shift agree with the division the
    general case uses. *)
Lemma set_and_tag_div c la :
  geometry_ok c → set_and_tag c la = (la `mod` set_count c, la / set_count c).
Proof.
  intros G. unfold set_and_tag. destruct (set_shift c) as [s|] eqn:Hs; [|done].
  destruct (geo_set_shift _ G s Hs) as [H0 ->].
  by rewrite land_mask, Z.shiftr_div_pow2 by done.
Qed.

Lemma tag_valid c la : geometry_ok c → line_ok la → la / set_count c ≠ TAG_INVALID.
Proof.
  intros G [H0 H1]. pose proof (geo_sets _ G) as Hs. unfold TAG_INVALID.
  assert (la / set_count c ≤ la) by (apply Z.div_le_upper_bound; nia). lia.
Qed.

Section set_lookup.
Context (c : CacheModel) (Hwf : wf c) (la : Z) (Hla : line_ok la).
Let base : nat := Z.to_nat (la `mod` set_count c * associativity c).
Let ways : nat := Z.to_nat (associativity c).

Lemma base_bound : (base + ways ≤ length (lines c))%nat.
Proof.
  destruct Hwf as [G Hlen _ _ _ _]. destruct G as [_ _ _ Ha Hs _ _].
  pose proof (Z.mod_pos_bound la (set_count c) Hs). rewrite Hlen. subst base ways. nia.
Qed.

(** The slice of a set never leaves the array. *)
Lemma set_slice : ∃ set, slice base ways (lines c) = Some set.
Proof. unfold slice. rewrite decide_True by apply base_bound. eauto. Qed.

Lemma set_of_way w : (w < ways)%nat → set_of c (base + w) = la `mod` set_count c.
Proof.
  intros Hw. destruct Hwf as [G _ _ _ _ _]. destruct G as [_ _ _ Ha Hs _ _].
  pose proof (Z.mod_pos_bound la (set_count c) Hs). unfold set_of. subst base ways.
  rewrite Nat2Z.inj_add, Z2Nat.id by nia.
  rewrite Z.div_add_l, Z.div_small by lia. lia.
Qed.

Lemma way_of_index i :
  Z.of_nat i / associativity c = la `mod` set_count c →
  ∃ w, (w < ways)%nat ∧ i = (base + w)%nat.
Proof.
  intros Hi. destruct Hwf as [G _ _ _ _ _]. destruct G as [_ _ _ Ha Hs _ _].
  pose proof (Z.mod_pos_bound la (set_count c) Hs).
  pose proof (Z.div_mod (Z.of_nat i) (associativity c) ltac:(lia)) as Hdm.
  pose proof (Z.mod_pos_bound (Z.of_nat i) (associativity c) Ha).
  exists (Z.to_nat (Z.of_nat i `mod` associativity c)). subst base ways.
  rewrite Hi in Hdm. split; [lia|]. nia.
Qed.

Lemma set_lookup_way set w l :
  slice base ways (lines c) = Some set → set !! w = Some l →
  (w < ways)%nat ∧ lines c !! (base + w)%nat = Some l.
Proof.
  intros Hset Hl. pose proof (slice_length _ _ _ _ Hset) as Hlen.
  pose proof (lookup_lt_Some _ _ _ Hl) as Hlt. rewrite Hlen in Hlt.
  split; [done|]. by rewrite <-(slice_lookup _ _ _ _ _ Hset Hlt).
Qed.

(** A filter hit is what the tag scan of the set would have found. *)
Lemma mru_hit_position set idx l :
  slice base ways (lines c) = Some set →
  0 ≤ idx → lines c !! Z.to_nat idx = Some l → tag l = la / set_count c →
  idx / associativity c = la `mod` set_count c →
  ∃ way, position (λ l, tag l =? la / set_count c) set = Some way ∧
         set !! way = Some l ∧ Z.to_nat idx = (base + way)%nat.
Proof.
  intros Hset Hidx Hl Htag Hdiv.
  destruct (way_of_index (Z.to_nat idx)) as (w & Hw & Hiw); [by rewrite Z2Nat.id|].
  assert (Hsw : set !! w = Some l) by (rewrite (slice_lookup _ _ _ _ _ Hset Hw), <-Hiw; done).
  destruct (position _ set) as [way|] eqn:Hpos.
  - pose proof Hpos as (l' & Hl' & Htag' & _)%position_Some. apply Z.eqb_eq in Htag'.
    destruct (set_lookup_way _ _ _ Hset Hl') as [Hway Hlw].
    assert (Z.to_nat idx = (base + way)%nat) as Heq.
    { apply (wf_unique _ Hwf _ _ _ _ Hl Hlw).
      - rewrite Hiw. by rewrite !set_of_way.
      - congruence.
      - rewrite Htag. apply tag_valid; [apply Hwf|done]. }
    exists way. split_and!; [done| |done].
    replace way with w by lia. done.
  - exfalso. rewrite position_None in Hpos.
    specialize (Hpos w l Hsw). simpl in Hpos. apply Z.eqb_neq in Hpos. done.
Qed.
End set_lookup.

(** Changing the clock, or the filter to one whose entries are right, keeps [wf]. *)
Lemma geometry_ok_proper c c' :
  line_size c' = line_size c → line_shift c' = line_shift c → set_shift c' = set_shift c →
  associativity c' = associativity c → set_count c' = set_count c →
  geometry_ok c → geometry_ok c'.
Proof. intros E1 E2 E3 E4 E5 []. split; rewrite ?E1, ?E2, ?E3, ?E4, ?E5; done. Qed.

Lemma wf_with_clock k c : wf c → wf (with_clock k c).
Proof. intros []. split; try done. by apply (geometry_ok_proper c). Qed.

Lemma wf_with_mru m cur c :
  wf c → length m = MRU_WAYS → (cur < MRU_WAYS)%nat →
  Forall (λ e, e = MRU_INVALID ∨ mru_entry_ok c e) m → wf (with_mru m cur c).
Proof. intros [] Hm Hc Hok. split; try done. by apply (geometry_ok_proper c). Qed.

(** Replacing a line by one with the same tag (a hit) keeps [wf]. *)
Lemma wf_hit i l l' c :
  wf c → lines c !! i = Some l → tag l' = tag l → wf (with_lines (<[i := l']> (lines c)) c).
Proof.
  intros [G Hlen Huniq Hml Hcur Hmru] Hl Htag.
  assert (∀ j lj, <[i := l']> (lines c) !! j = Some lj →
            ∃ mj, lines c !! j = Some mj ∧ tag mj = tag lj) as Hback.
  { intros j lj. rewrite list_lookup_insert_Some.
    intros [(-> & -> & _)|[_ Hj]]; [exists l; auto|eauto]. }
  split; simpl; try done.
  - by apply (geometry_ok_proper c).
  - by rewrite length_insert.
  - intros j k lj lk (mj & Hmj & Ej)%Hback (mk & Hmk & Ek)%Hback Hs Ht Hv.
    apply (Huniq j k mj mk); [done|done|exact Hs|congruence..].
  - eapply Forall_impl; [exact Hmru|]. intros e [->|(H1 & H2 & m & Hm & Ht & Hd)]; [by left|].
    right. split; [done|]. split; [done|]. simpl.
    destruct (decide (Z.to_nat e.2 = i)) as [<-|Hne].
    + exists l'. rewrite list_lookup_insert_eq by (by eapply lookup_lt_Some).
      split_and!; [done|congruence|done].
    + exists m. by rewrite list_lookup_insert_ne by done.
Qed.

(** Filling a way of the set with a tag the set does not hold keeps [wf], once the
    filter is reset. *)
Lemma wf_fill la set w l' c :
  wf c → line_ok la →
  slice (Z.to_nat (la `mod` set_count c * associativity c)) (Z.to_nat (associativity c)) (lines c)
    = Some set →
  (w < Z.to_nat (associativity c))%nat →
  position (λ l, tag l =? la / set_count c) set = None →
  tag l' = la / set_count c →
  wf (with_lines
        (<[(Z.to_nat (la `mod` set_count c * associativity c) + w)%nat := l']> (lines c))
        (with_mru (replicate MRU_WAYS MRU_INVALID) (mru_cursor c) c)).
Proof.
  intros Hwf Hla Hset Hw Hnone Htag. pose proof Hwf as [G Hlen Huniq _ Hcur _].
  set (base := Z.to_nat (la `mod` set_count c * associativity c)) in *.
  assert (Habsent : ∀ j lj, lines c !! j = Some lj →
    set_of c j = la `mod` set_count c → tag lj ≠ la / set_count c).
  { intros j lj Hj Hsj Ht.
    destruct (way_of_index c Hwf la j Hsj) as (wj & Hwj & Hjw).
    rewrite position_None in Hnone. specialize (Hnone wj lj).
    rewrite (slice_lookup _ _ _ _ _ Hset Hwj) in Hnone. subst j.
    specialize (Hnone Hj). simpl in Hnone. apply Z.eqb_neq in Hnone. done. }
  assert (Hbw : set_of c (base + w) = la `mod` set_count c) by (by apply set_of_way).
  split; simpl; try done.
  - by apply (geometry_ok_proper c).
  - by rewrite length_insert.
  - unfold set_of in *; simpl. intros j k lj lk.
    rewrite !list_lookup_insert_Some.
    intros [(<- & <- & _)|[Hj1 Hj]] [(<- & <- & _)|[Hk1 Hk]] Hs Ht Hv; [done|..].
    + exfalso. apply (Habsent k lk Hk); unfold set_of; congruence.
    + exfalso. apply (Habsent j lj Hj); unfold set_of; congruence.
    + by apply (Huniq j k lj lk).
  - repeat constructor; by left.
Qed.

Lemma position_insert_ways c : wf c → Z.to_nat (associativity c) ≠ 0%nat.
Proof. intros [G _ _ _ _ _]. pose proof (geo_assoc _ G). lia. Qed.

(** The scan for the oldest way stays within the set. *)
Lemma oldest_from_lt set i best u :
  (best < i)%nat → (oldest_from i best u set < i + length set)%nat.
Proof.
  revert i best u; induction set as [|l set IH]; intros i best u Hb; simpl; [lia|].
  case_match; [pose proof (IH (S i) i (last_used l))|pose proof (IH (S i) best u)]; lia.
Qed.

Lemma oldest_lt set : set ≠ [] → (default 0%nat (oldest set) < length set)%nat.
Proof.
  destruct set as [|l set]; [done|]. intros _. simpl.
  pose proof (oldest_from_lt set 1 0 (last_used l)). lia.
Qed.

Lemma victim_way_lt set : set ≠ [] → (victim_way set < length set)%nat.
Proof.
  intros H. unfold victim_way. case_match eqn:E; [by eapply position_lt|by apply oldest_lt].
Qed.

(** The constructor establishes [wf]. *)
Lemma new_wf ls cap assoc c :
  new ls cap assoc = Some c → 2 ≤ ls ≤ u64_max → 0 ≤ cap → 0 < assoc →
  cap / ls ≤ 2 ^ 32 → wf c.
Proof.
  unfold new. intros Hnew Hls Hcap Hassoc Hsmall.
  destruct (is_power_of_two ls) eqn:Hp; simpl in Hnew; [|done].
  destruct (ls =? 0) eqn:?; simpl in Hnew; [done|].
  destruct (assoc =? 0) eqn:?; simpl in Hnew; [done|].
  destruct (cap / ls / assoc =? 0) eqn:Hsets; simpl in Hnew; [done|].
  apply is_power_of_two_spec in Hp as [Htz Hls2]. apply Z.eqb_neq in Hsets.
  assert (0 ≤ cap / ls) by (apply Z.div_pos; lia).
  assert (0 ≤ cap / ls / assoc) by (apply Z.div_pos; lia).
  pose proof (Z.mul_div_le (cap / ls) assoc Hassoc).
  injection Hnew as <-. split; simpl; try done.
  - split; simpl; try done; try lia.
    intros s Hs. case_match eqn:E; [|done]. injection Hs as <-.
    by apply is_power_of_two_spec in E.
  - by rewrite length_replicate.
  - intros i j li lj Hi _ _ _ Hv. apply lookup_replicate in Hi as [-> _]. done.
  - unfold MRU_WAYS; lia.
  - repeat constructor; by left.
Qed.

(** [flush] empties the cache and keeps [wf]. *)
Lemma flush_wf c : wf c → wf (flush c).1.
Proof.
  intros [G Hlen Huniq Hml Hcur Hmru]. split; simpl; try done.
  - by apply (geometry_ok_proper c).
  - by rewrite length_map.
  - intros i j li lj Hi _ _ _ Hv.
    rewrite list_lookup_fmap in Hi. apply fmap_Some in Hi as (? & _ & ->). done.
  - repeat constructor; by left.
Qed.

(** The lines of an access to a [u64] address are below the sentinel. *)
Lemma touched_lines_ok c a n :
  geometry_ok c → in_u64 a → in_u64 n → n ≠ 0 → Forall line_ok (touched_lines c a n).
Proof.
  intros G Ha Hn Hn0. apply Forall_forall. intros la Hla.
  unfold touched_lines in Hla. rewrite elem_of_seqZ in Hla.
  rewrite !Z.shiftr_div_pow2 in Hla by apply G. rewrite <-(geo_line_size _ G) in Hla.
  pose proof (geo_line_two _ G) as Hls.
  assert (0 ≤ a / line_size c) by (apply Z.div_pos; word_lia).
  set (e := saturating_add a (n - 1)) in *.
  assert (0 ≤ e ≤ u64_max) by (subst e; word_lia).
  assert (e / line_size c < u64_max).
  { apply Z.div_lt_upper_bound; [lia|]. word_lia. }
  unfold line_ok. lia.
Qed.

End Cache.

Import Cache.

(** ** Properties *)

(** The sentinel of the filter is a real line address when a line is one byte
    long, a size [new] accepts.  The access to the top of the address space is then
    taken for a hit on a cache that holds nothing: it reports no traffic, although a
    first access must load its line. *)
Theorem one_byte_lines_hit_sentinel cap assoc c store :
  Cache.new 1 cap assoc = Some c → 0 ≤ cap → 0 < assoc →
  ∃ c', access c u64_max 1 store = Done (c', no_traffic).
Proof.
  unfold Cache.new. intros Hnew Hcap Has.
  replace (assoc =? 0) with false in Hnew by (symmetry; apply Z.eqb_neq; lia).
  simpl in Hnew. destruct (cap / 1 / assoc =? 0) eqn:Hs; [done|]. injection Hnew as <-.
  apply Z.eqb_neq in Hs. assert (0 ≤ cap / 1 / assoc) by (apply Z.div_pos; [apply Z.div_pos|]; lia).
  unfold access. cbn [Z.eqb]. unfold touched_lines. cbn [line_shift].
  change (seqZ _ _) with [u64_max].
  assert (∃ k, Z.to_nat (cap / 1 / assoc * assoc) = S k) as [k ->].
  { exists (pred (Z.to_nat (cap / 1 / assoc * assoc))). nia. }
  simpl. eauto.
Qed.

Lemma one_byte_lines_hit_sentinel_witness :
  ∃ c c', Cache.new 1 4 2 = Some c ∧ count_dirty (lines c) = 0 ∧
    access c u64_max 1 true = Done (c', no_traffic).
Proof.
  destruct (Cache.new 1 4 2) as [c|] eqn:Hc; [|vm_compute in Hc; discriminate].
  destruct (one_byte_lines_hit_sentinel 4 2 c true Hc) as [c' Hc']; [done..|].
  injection Hc as <-. do 2 eexists. split; [done|]. split; [reflexivity|exact Hc'].
Defined.
