(* ===== verification/CacheSpec.v ===== *)
(** * Correctness of the cache model

    Two reference models of [Cache.access] and the theorems that relate them:

    - Module [Plain]: the same cache without the filter of recent hits and
      without the shift shortcut.  [Cache.access] computes the same lines, clock
      and traffic ([access_matches_plain]);
    - Module [Lru]: the abstract specification, one stack of (tag, dirty) pairs per
      set, most recently used first.  [Cache.access] implements it
      ([access_refines_lru]).

    Then: a whole run never writes back more than it loaded. *)

From S2P Require Import Prelude Words Cache.
Open Scope Z_scope.
Import Cache.

(** ** The reference cache without the filter *)
Module Plain.

Record geometry : Type := mkGeometry { g_line : Z; g_sets : Z; g_ways : Z }.
Definition geometry_of (c : CacheModel) : geometry :=
  mkGeometry (line_size c) (set_count c) (associativity c).

Definition replaced (g : geometry) (old : CacheLine) (t : MemoryTraffic) : MemoryTraffic :=
  mkTraffic (saturating_add (bytes_load t) (g_line g))
    (if is_dirty old then saturating_add (bytes_store t) (g_line g) else bytes_store t).

Definition plain_line (g : geometry) (store : bool)
    (s : list CacheLine * Z * MemoryTraffic) (la : Z) : outcome (list CacheLine * Z * MemoryTraffic) :=
  let '(ls, now, t) := s in
  let now := wrapping_add now 1 in
  let base := Z.to_nat (la `mod` g_sets g * g_ways g) in
  let tg := la / g_sets g in
  set ← unwrap (slice base (Z.to_nat (g_ways g)) ls);
  match position (λ l, tag l =? tg) set with
  | Some way =>
      l ← unwrap (set !! way);
      Done (<[(base + way)%nat := hit_line now store l]> ls, now, t)
  | None =>
      old ← unwrap (set !! victim_way set);
      Done (<[(base + victim_way set)%nat := mkLine tg now store]> ls, now, replaced g old t)
  end.

Definition plain_access (c : CacheModel) (address size : Z) (store : bool)
    : outcome (list CacheLine * Z * MemoryTraffic) :=
  if size =? 0 then Done (lines c, clock c, no_traffic)
  else fold_outcome (plain_line (geometry_of c) store) (touched_lines c address size)
         (lines c, clock c, no_traffic).

(** The simulation relation: the cached state is well formed and shows the same
    lines, clock and traffic. *)
Definition same (g : geometry) (ct : CacheModel * MemoryTraffic)
    (s : list CacheLine * Z * MemoryTraffic) : Prop :=
  wf ct.1 ∧ geometry_of ct.1 = g ∧ s = (lines ct.1, clock ct.1, ct.2).

Lemma lookup_line_same store la c t :
  wf c → line_ok la →
  ∃ ct' s',
    lookup_line store la (with_clock (wrapping_add (clock c) 1) c) t = Done ct' ∧
    plain_line (geometry_of c) store (lines c, clock c, t) la = Done s' ∧
    same (geometry_of c) ct' s'.
Proof.
  intros Hwf0 Hla. set (c1 := with_clock (wrapping_add (clock c) 1) c).
  assert (Hwf : wf c1) by (by apply wf_with_clock). clear Hwf0.
  unfold lookup_line, plain_line. rewrite set_and_tag_div by apply Hwf.
  change (g_sets (geometry_of c)) with (set_count c1).
  change (g_ways (geometry_of c)) with (associativity c1).
  change (wrapping_add (clock c) 1) with (clock c1).
  change (lines c) with (lines c1).
  destruct (set_slice c1 Hwf la) as [set Hset]. rewrite Hset. cbn [unwrap mbind outcome_bind].
  pose proof (slice_length _ _ _ _ Hset) as Hlen.
  destruct (position _ set) as [way|] eqn:Hpos.
  - pose proof Hpos as (l & Hl & Htag & _)%position_Some. rewrite Hl. cbn [unwrap mbind outcome_bind].
    destruct (set_lookup_way c1 la set way l Hset Hl) as [Hway Hlw].
    assert (Hwf' := wf_hit _ _ (hit_line (clock c1) store l) _ Hwf Hlw eq_refl).
    destruct (lookup_lt_is_Some_2 (mru c) (mru_cursor c)) as [e He].
    { change (mru c) with (mru c1). rewrite (wf_mru_length _ Hwf). apply Hwf. }
    simpl. rewrite He. simpl. eexists _, _; split_and!; [done..|].
    split; [|done]. simpl. apply wf_with_mru; [done|..].
    + rewrite length_insert. apply Hwf.
    + unfold MRU_WAYS; lia.
    + apply Forall_insert; [apply Hwf'|]. right. unfold mru_entry_ok; simpl.
      set (base := Z.to_nat _) in *. apply Z.eqb_eq in Htag.
      assert (Hb : (base + way < length (lines c1))%nat) by (by eapply lookup_lt_Some).
      assert (as_u32 (Z.of_nat (base + way)) = Z.of_nat (base + way)) as ->.
      { apply as_u32_small. rewrite (wf_length _ Hwf) in Hb.
        pose proof (geo_small _ (wf_geometry _ Hwf)). word_lia. }
      split; [exact Hla|]. split; [lia|]. rewrite Nat2Z.id.
      exists (hit_line (clock c1) store l). split_and!.
      * by apply list_lookup_insert_eq.
      * exact Htag.
      * by apply (set_of_way c1 Hwf la way).
  - assert (Hv : (victim_way set < length set)%nat).
    { apply victim_way_lt. intros Hnil. rewrite Hnil in Hlen. cbn [length] in Hlen.
      pose proof (geo_assoc _ (wf_geometry _ Hwf)). lia. }
    destruct (lookup_lt_is_Some_2 _ _ Hv) as [old Hold]. rewrite Hold. simpl.
    eexists _, _; split_and!; [done..|]. split; [|split; [done|by destruct (is_dirty old)]].
    rewrite Hlen in Hv. simpl. by apply (wf_fill la set (victim_way set) _ c1).
Qed.

Lemma access_line_same g store ct s la :
  line_ok la → same g ct s →
  ∃ ct' s', access_line store ct la = Done ct' ∧ plain_line g store s la = Done s' ∧ same g ct' s'.
Proof.
  destruct ct as [c t]. intros Hla (Hwf & <- & ->). simpl in *.
  destruct (List.find _ (mru c)) as [[h idx]|] eqn:Hfind; [|by apply lookup_line_same].
  apply List.find_some in Hfind as [Hin Hh]. apply Z.eqb_eq in Hh. simpl in Hh. subst h.
  apply list_elem_of_In in Hin. pose proof (wf_mru _ Hwf) as Hm. rewrite Forall_forall in Hm.
  destruct (Hm _ Hin) as [[= -> _]|(_ & Hidx & l & Hl & Htag & Hdiv)]; simpl in *.
  { unfold line_ok in Hla. lia. }
  rewrite Hl. cbn [unwrap mbind outcome_bind].
  destruct (set_slice c Hwf la) as [set Hset].
  destruct (mru_hit_position c Hwf la Hla set idx l Hset Hidx Hl Htag Hdiv) as (way & Hpos & Hsl & Hiw).
  rewrite Hset. cbn [unwrap mbind outcome_bind]. rewrite Hpos, Hsl. cbn [unwrap mbind outcome_bind].
  eexists _, _; split_and!; [done..|]. rewrite <-Hiw. split; [|done]. simpl.
  apply (wf_hit _ l _ (with_clock (wrapping_add (clock c) 1) c)); [by apply wf_with_clock|done..].
Qed.

Lemma access_same c a n store :
  wf c → in_u64 a → in_u64 n →
  ∃ ct' s', access c a n store = Done ct' ∧ plain_access c a n store = Done s' ∧
    same (geometry_of c) ct' s'.
Proof.
  intros Hwf Ha Hn. unfold access, plain_access. destruct (n =? 0) eqn:Hn0.
  { by eexists _, _. }
  apply Z.eqb_neq in Hn0. apply fold_outcome_sim; [by split|].
  intros ct s la Hin HR. apply access_line_same; [|done].
  pose proof (touched_lines_ok c a n (wf_geometry _ Hwf) Ha Hn Hn0) as HF.
  rewrite Forall_forall in HF. by apply HF.
Qed.

End Plain.

(** ** The abstract LRU specification *)
Module Lru.

(** One access to a set that holds at most [ways] lines: the new stack, whether the
    line was loaded and whether a line was written back. *)
Definition lru_access (ways : nat) (tg : Z) (store : bool) (st : list (Z * bool))
    : list (Z * bool) * bool * bool :=
  match List.find (λ e, e.1 =? tg) st with
  | Some (_, d) => ((tg, store || d) :: List.filter (λ e, negb (e.1 =? tg)) st, false, false)
  | None =>
      if (length st <? ways)%nat then ((tg, store) :: st, true, false)
      else ((tg, store) :: removelast st, true,
            match last st with Some (_, d) => d | None => false end)
  end.

Definition lru_line (g : Plain.geometry) (store : bool)
    (s : gmap Z (list (Z * bool)) * MemoryTraffic) (la : Z)
    : gmap Z (list (Z * bool)) * MemoryTraffic :=
  let '(m, t) := s in
  let si := la `mod` Plain.g_sets g in
  let '(st, loaded, written) :=
    lru_access (Z.to_nat (Plain.g_ways g)) (la / Plain.g_sets g) store (default [] (m !! si)) in
  (<[si := st]> m,
   mkTraffic
     (if loaded then saturating_add (bytes_load t) (Plain.g_line g) else bytes_load t)
     (if written then saturating_add (bytes_store t) (Plain.g_line g) else bytes_store t)).

(** The lines of the byte range [address .. address + size), cut at the top of the
    address space. *)
Definition lru_run (g : Plain.geometry) (m : gmap Z (list (Z * bool))) (address size : Z) (store : bool)
    : gmap Z (list (Z * bool)) * MemoryTraffic :=
  if size =? 0 then (m, no_traffic)
  else
    let first := address / Plain.g_line g in
    let last := Z.min (address + (size - 1)) u64_max / Plain.g_line g in
    fold_left (lru_line g store) (seqZ first (last - first + 1)) (m, no_traffic).

(** *** One set against its stack *)

Definition valid (l : CacheLine) : bool := negb (is_invalid l).
Definition entry (l : CacheLine) : Z * bool := (tag l, dirty l).
Definition newer (a b : CacheLine) : Prop := last_used b < last_used a.

(** The stack lists the valid lines of the set by recency. *)
Definition set_rel (now : Z) (set : list CacheLine) (st : list (Z * bool)) : Prop :=
  ∃ ls, ls ≡ₚ List.filter valid set ∧ StronglySorted newer ls ∧
        Forall (λ l, last_used l ≤ now) ls ∧ st = entry <$> ls ∧ NoDup (tag <$> ls).

Lemma entry_fst (ls : list CacheLine) : (entry <$> ls).*1 = tag <$> ls.
Proof. by rewrite <-list_fmap_compose. Qed.

Lemma filter_other tg (ls : list CacheLine) :
  tg ∉ tag <$> ls → List.filter (λ e, negb (e.1 =? tg)) (entry <$> ls) = entry <$> ls.
Proof.
  intros Hn. apply filter_all. intros [t d] (l & [= -> ->] & Hl)%list_elem_of_fmap. simpl.
  apply negb_true_iff, Z.eqb_neq. intros <-. apply Hn. apply list_elem_of_fmap. eauto.
Qed.

Lemma set_rel_cons now now' ls set' l' :
  now < now' → last_used l' = now' → Forall (λ l, last_used l ≤ now) ls →
  StronglySorted newer ls → NoDup (tag <$> ls) → tag l' ∉ tag <$> ls →
  l' :: ls ≡ₚ List.filter valid set' → set_rel now' set' (entry l' :: (entry <$> ls)).
Proof.
  intros Hn Hl Hall HS HN Ht Hp. exists (l' :: ls). split_and!; [done|..].
  - constructor; [done|]. eapply Forall_impl; [exact Hall|]. unfold newer. simpl. lia.
  - constructor; [lia|]. eapply Forall_impl; [exact Hall|]. simpl. lia.
  - done.
  - by constructor.
Qed.

Lemma hit_rel ways now now' set st w l store :
  set_rel now set st → now < now' → set !! w = Some l → tag l ≠ TAG_INVALID →
  ∃ st', lru_access ways (tag l) store st = (st', false, false) ∧
         set_rel now' (<[w := hit_line now' store l]> set) st'.
Proof.
  intros (ls & Hp & HS & Hall & -> & HN) Hnow Hl Hv.
  assert (Hvalid : valid l = true).
  { unfold valid, is_invalid. by apply negb_true_iff, Z.eqb_neq. }
  destruct (insert_perm set w l Hl) as (r & Hset & Hins).
  apply (filter_perm valid) in Hset. simpl in Hset. rewrite Hvalid in Hset.
  assert (Hin : l ∈ ls) by (rewrite Hp, Hset; left).
  apply list_elem_of_split in Hin as (l1 & l2 & ->).
  assert (Hr : l1 ++ l2 ≡ₚ List.filter valid r).
  { apply (Permutation_cons_inv (a := l)). rewrite <-Hset, <-Hp. by apply Permutation_middle. }
  rewrite fmap_app, fmap_cons in HN. apply NoDup_app in HN as (HN1 & Hd & [Hl2 HN2]%NoDup_cons).
  assert (Hl1 : tag l ∉ tag <$> l1) by (intros Hc; apply (Hd _ Hc); left).
  exists (entry (hit_line now' store l) :: (entry <$> l1 ++ l2)). split.
  - unfold lru_access. rewrite (find_fst_Some (tag l) _ (dirty l)).
    + rewrite fmap_app, fmap_cons, List.filter_app. simpl. rewrite Z.eqb_refl. simpl.
      rewrite !filter_other by done. unfold entry at 1, hit_line; simpl.
      rewrite fmap_app. by destruct store.
    + rewrite entry_fst, fmap_app, fmap_cons. apply NoDup_app. split_and!; [done..|].
      by constructor.
    + rewrite fmap_app. apply elem_of_app. right. left.
  - apply (set_rel_cons now); try done.
    + rewrite Forall_app in Hall |- *. destruct Hall as [? Hall]. split; [done|]. by inversion Hall.
    + by apply StronglySorted_remove in HS.
    + rewrite fmap_app. apply NoDup_app. split_and!; [done| |done].
      intros x Hx Hx2. apply (Hd x Hx). by right.
    + rewrite fmap_app. intros [?|?]%elem_of_app; done.
    + rewrite (filter_perm valid _ _ (Hins _)). simpl.
      change (valid (hit_line now' store l)) with (valid l). rewrite Hvalid. by rewrite Hr.
Qed.

Lemma oldest_from_spec set pre i best u b :
  length pre = i → (pre ++ set) !! best = Some b → last_used b = u →
  (∀ x, x ∈ pre → u ≤ last_used x) →
  ∃ l, (pre ++ set) !! oldest_from i best u set = Some l ∧
       ∀ x, x ∈ pre ++ set → last_used l ≤ last_used x.
Proof.
  revert pre i best u b; induction set as [|y set IH]; intros pre i best u b Hi Hb Hu Hpre; simpl.
  - exists b. split; [done|]. intros x. rewrite app_nil_r in *. rewrite Hu. auto.
  - replace (pre ++ y :: set) with ((pre ++ [y]) ++ set) in * by (by rewrite <-app_assoc).
    destruct (last_used y <? u) eqn:Hlt.
    + apply Z.ltb_lt in Hlt. apply (IH (pre ++ [y]) _ _ _ y).
      * rewrite length_app. simpl. lia.
      * rewrite <-app_assoc, <-Hi. by rewrite lookup_app_r, Nat.sub_diag by lia.
      * done.
      * intros x [Hx|Hx%list_elem_of_singleton]%elem_of_app; [apply Hpre in Hx; lia|subst; lia].
    + apply Z.ltb_ge in Hlt. apply (IH (pre ++ [y]) _ _ _ b); [|done..|].
      * rewrite length_app. simpl. lia.
      * intros x [Hx|Hx%list_elem_of_singleton]%elem_of_app; subst; auto.
Qed.

(** The replacement victim of a full set is a least recently used line. *)
Lemma oldest_spec set :
  set ≠ [] → ∃ l, set !! default 0%nat (oldest set) = Some l ∧
                  ∀ x, x ∈ set → last_used l ≤ last_used x.
Proof.
  destruct set as [|y set]; [done|]. intros _. simpl.
  apply (oldest_from_spec set [y] 1 0 (last_used y) y); [done..|].
  intros x Hx%list_elem_of_singleton. by subst.
Qed.

Lemma lru_miss_access ways tg store (ls : list CacheLine) :
  tg ∉ tag <$> ls →
  lru_access ways tg store (entry <$> ls) =
  if (length ls <? ways)%nat then ((tg, store) :: (entry <$> ls), true, false)
  else ((tg, store) :: removelast (entry <$> ls), true,
        match last (entry <$> ls) with Some (_, d) => d | None => false end).
Proof.
  intros Hn. unfold lru_access. rewrite length_fmap.
  destruct (List.find _ _) as [[t d]|] eqn:E; [|done].
  apply List.find_some in E as [Hin Ht]. apply Z.eqb_eq in Ht. simpl in Ht. subst t.
  apply list_elem_of_In, list_elem_of_fmap in Hin as (l & [= -> _] & Hl).
  exfalso. apply Hn, list_elem_of_fmap. eauto.
Qed.

Lemma absent_tag set ls tg :
  ls ≡ₚ List.filter valid set → position (λ l, tag l =? tg) set = None → tg ∉ tag <$> ls.
Proof.
  intros Hp Hnone (l & -> & Hl)%list_elem_of_fmap. rewrite Hp in Hl.
  apply list_elem_of_In, List.filter_In in Hl as [Hl _].
  apply list_elem_of_In, list_elem_of_lookup in Hl as [i Hi].
  rewrite position_None in Hnone. apply Hnone in Hi. by rewrite Z.eqb_refl in Hi.
Qed.

Lemma fill_invalid_rel ways now now' set st tg store w :
  set_rel now set st → now < now' → tg ≠ TAG_INVALID → length set = ways →
  position (λ l, tag l =? tg) set = None → position is_invalid set = Some w →
  ∃ st', lru_access ways tg store st = (st', true, false) ∧
         set_rel now' (<[w := mkLine tg now' store]> set) st'.
Proof.
  intros (ls & Hp & HS & Hall & -> & HN) Hnow Htg Hlen Hnone (l & Hl & Hinv & _)%position_Some.
  pose proof (absent_tag _ _ _ Hp Hnone) as Habs.
  destruct (insert_perm set w l Hl) as (r & Hset & Hins).
  pose proof (filter_perm valid _ _ Hset) as Hf. simpl in Hf.
  unfold valid in Hf at 2. rewrite Hinv in Hf. simpl in Hf.
  exists ((tg, store) :: (entry <$> ls)). split.
  - rewrite lru_miss_access by done. case_match eqn:E; [done|]. apply Nat.ltb_ge in E.
    pose proof (Permutation_length Hp) as Hl1. pose proof (Permutation_length Hf) as Hl2.
    pose proof (Permutation_length Hset) as Hl3. simpl in Hl3.
    pose proof (List.filter_length_le valid r). lia.
  - apply (set_rel_cons now now' ls _ (mkLine tg now' store)); try done.
    rewrite (filter_perm valid _ _ (Hins _)). simpl. unfold valid at 1, is_invalid; simpl.
    rewrite (proj2 (Z.eqb_neq _ _) Htg). simpl. by rewrite Hp, Hf.
Qed.

Lemma evict_rel ways now now' set st tg store old :
  set_rel now set st → now < now' → tg ≠ TAG_INVALID → length set = ways → (0 < ways)%nat →
  position (λ l, tag l =? tg) set = None → position is_invalid set = None →
  set !! default 0%nat (oldest set) = Some old →
  ∃ st', lru_access ways tg store st = (st', true, is_dirty old) ∧
         set_rel now' (<[default 0%nat (oldest set) := mkLine tg now' store]> set) st'.
Proof.
  intros (ls & Hp & HS & Hall & -> & HN) Hnow Htg Hlen Hways Hnone Hfull Hold.
  pose proof (absent_tag _ _ _ Hp Hnone) as Habs.
  assert (Hval : ∀ x, x ∈ set → valid x = true).
  { intros x [i Hi]%list_elem_of_lookup. rewrite position_None in Hfull.
    unfold valid. by rewrite (Hfull i x Hi). }
  rewrite (filter_all valid set Hval) in Hp.
  destruct (oldest_spec set) as (l & Hl & Hmin). { intros ->. simpl in Hlen. lia. }
  rewrite Hold in Hl. injection Hl as <-.
  destruct (list_snoc_inv ls) as (k & z & ->).
  { intros ->. apply Permutation_nil_l in Hp. subst set. simpl in Hlen. lia. }
  assert (Hz : old = z).
  { assert (Hin : old ∈ k ++ [z]) by (rewrite Hp; by eapply list_elem_of_lookup_2).
    apply elem_of_app in Hin as [Hk|Hk%list_elem_of_singleton]; [|done].
    pose proof (StronglySorted_last _ _ _ _ HS Hk) as Hnew. unfold newer in Hnew.
    assert (last_used old ≤ last_used z); [|lia]. apply Hmin. rewrite <-Hp. set_solver. }
  subst z. destruct (insert_perm set _ old Hold) as (r & Hset & Hins).
  assert (Hr : k ≡ₚ r).
  { apply (Permutation_cons_inv (a := old)). by rewrite <-Hset, <-Hp, Permutation_cons_append. }
  rewrite fmap_app in HN, Habs. apply NoDup_app in HN as (HN & _ & _).
  exists ((tg, store) :: (entry <$> k)). split.
  - rewrite lru_miss_access by (by rewrite fmap_app). rewrite (Permutation_length Hp), Hlen.
    rewrite Nat.ltb_irrefl, fmap_app. simpl. rewrite removelast_last, last_snoc.
    unfold is_dirty. f_equal. specialize (Hval old ltac:(by eapply list_elem_of_lookup_2)).
    unfold valid in Hval. by rewrite Hval.
  - apply (set_rel_cons now now' k _ (mkLine tg now' store)); try done.
    + by apply Forall_app in Hall as [? _].
    + rewrite <-(app_nil_r k). by apply StronglySorted_remove in HS.
    + intros Hc. apply Habs. apply elem_of_app. by left.
    + assert (Hval' : ∀ x, x ∈ r → valid x = true).
      { intros x Hx. apply Hval. rewrite Hset. by right. }
      rewrite (filter_perm valid _ _ (Hins _)). simpl. unfold valid at 1, is_invalid; simpl.
      rewrite (proj2 (Z.eqb_neq _ _) Htg). simpl. by rewrite (filter_all valid r Hval'), Hr.
Qed.

(** *** The whole cache against its stacks *)

Definition cache_rel (c : CacheModel) (m : gmap Z (list (Z * bool))) : Prop :=
  ∀ si set, 0 ≤ si < set_count c →
    slice (Z.to_nat (si * associativity c)) (Z.to_nat (associativity c)) (lines c) = Some set →
    set_rel (clock c) set (default [] (m !! si)).

Lemma set_rel_later now now' set st : set_rel now set st → now ≤ now' → set_rel now' set st.
Proof.
  intros (ls & Hp & HS & Hall & Hst & HN) Hle. exists ls. split_and!; [done..| |done|done].
  eapply Forall_impl; [exact Hall|]. simpl. lia.
Qed.

(** An update of one set at a later time keeps the relation when the updated set has
    the updated stack. *)
Lemma cache_rel_update c c' m la w l' set st' :
  cache_rel c m → wf c → set_count c' = set_count c → associativity c' = associativity c →
  clock c ≤ clock c' →
  slice (Z.to_nat (la `mod` set_count c * associativity c)) (Z.to_nat (associativity c)) (lines c)
    = Some set →
  (w < Z.to_nat (associativity c))%nat →
  lines c' = <[(Z.to_nat (la `mod` set_count c * associativity c) + w)%nat := l']> (lines c) →
  set_rel (clock c') (<[w := l']> set) st' →
  cache_rel c' (<[la `mod` set_count c := st']> m).
Proof.
  intros Hrel Hwf Es Ea Hck Hset Hw Hls Hst si set' Hsi Hset'. rewrite Es, Ea, Hls in *.
  pose proof (geo_assoc _ (wf_geometry _ Hwf)) as Ha.
  pose proof (Z.mod_pos_bound la _ (geo_sets _ (wf_geometry _ Hwf))) as Hm.
  destruct (decide (si = la `mod` set_count c)) as [->|Hne].
  - rewrite lookup_insert_eq. simpl. rewrite (slice_insert_in _ _ _ _ _ _ Hset Hw) in Hset'.
    by injection Hset' as <-.
  - rewrite lookup_insert_ne by done. rewrite slice_insert_out in Hset'.
    + apply (set_rel_later (clock c)); [|done]. by apply Hrel.
    + destruct (Z.lt_total si (la `mod` set_count c)) as [?|[?|?]]; [right|done|left]; nia.
Qed.

(** A miss fills the victim way, invalid or least recently used. *)
Lemma miss_rel ways now now' set st tg store old :
  set_rel now set st → now < now' → tg ≠ TAG_INVALID → length set = ways → (0 < ways)%nat →
  position (λ l, tag l =? tg) set = None → set !! victim_way set = Some old →
  ∃ st', lru_access ways tg store st = (st', true, is_dirty old) ∧
         set_rel now' (<[victim_way set := mkLine tg now' store]> set) st'.
Proof.
  intros Hst Hnow Htg Hlen Hways Hnone Hold. unfold victim_way in *.
  destruct (position is_invalid set) as [w|] eqn:Hinv; [|by eapply evict_rel].
  pose proof Hinv as (x & Hx & Hi & _)%position_Some.
  assert (is_dirty old = false) as ->.
  { unfold is_dirty. assert (x = old) as -> by congruence. by rewrite Hi. }
  by eapply fill_invalid_rel.
Qed.

Lemma access_line_lru store c t m la :
  wf c → cache_rel c m → line_ok la → 0 ≤ clock c < u64_max →
  ∃ c' t' m', access_line store (c, t) la = Done (c', t') ∧
    lru_line (Plain.geometry_of c) store (m, t) la = (m', t') ∧
    wf c' ∧ cache_rel c' m' ∧ Plain.geometry_of c' = Plain.geometry_of c ∧ clock c' = clock c + 1.
Proof.
  intros Hwf Hrel Hla Hck.
  destruct (Plain.access_line_same (Plain.geometry_of c) store (c, t) (lines c, clock c, t) la)
    as ([c' t'] & s' & Ha & Hs & Hwf' & Hg & ->); [done..|]. simpl in *.
  rewrite Ha. exists c', t'. unfold lru_line. simpl.
  destruct (set_slice c Hwf la) as [set Hset].
  set (si := la `mod` set_count c) in *. set (tg := la / set_count c) in *.
  rewrite Hset in Hs. simpl in Hs.
  assert (Hsi : 0 ≤ si < set_count c) by (apply Z.mod_pos_bound, Hwf).
  pose proof (Hrel si set Hsi Hset) as Hsr.
  assert (Hnow : wrapping_add (clock c) 1 = clock c + 1).
  { unfold wrapping_add. apply wrap64_small. word_lia. }
  rewrite Hnow in Hs. pose proof (slice_length _ _ _ _ Hset) as Hlen.
  assert (Hsc : set_count c' = set_count c ∧ associativity c' = associativity c).
  { unfold Plain.geometry_of in Hg. by injection Hg. }
  destruct Hsc as [Hsc Hac].
  destruct (position _ set) as [way|] eqn:Hpos.
  - pose proof Hpos as (l & Hl & Ht & _)%position_Some. apply Z.eqb_eq in Ht.
    destruct (set_lookup_way c la set way l Hset Hl) as [Hway _].
    rewrite Hl in Hs. simpl in Hs. injection Hs as Hls Hcl Htr.
    destruct (hit_rel (Z.to_nat (associativity c)) (clock c) (clock c + 1) set
                (default [] (m !! si)) way l store) as (st' & Hacc & Hst');
      [done|lia|done|rewrite Ht; apply tag_valid; [apply Hwf|done]|].
    rewrite Ht in Hacc. rewrite Hacc. eexists. split_and!; [done|by destruct t; rewrite <-Htr|done|..].
    + eapply (cache_rel_update c c' m la way); [done|done|done|done|lia|done|done|symmetry; exact Hls|].
      by rewrite <-Hcl.
    + done.
    + done.
  - assert (Hways : (0 < Z.to_nat (associativity c))%nat).
    { pose proof (geo_assoc _ (wf_geometry _ Hwf)). lia. }
    assert (Hv : (victim_way set < length set)%nat).
    { apply victim_way_lt. intros ->. simpl in Hlen. lia. }
    destruct (lookup_lt_is_Some_2 _ _ Hv) as [old Hold].
    rewrite Hold in Hs. simpl in Hs. injection Hs as Hls Hcl Htr.
    destruct (miss_rel (Z.to_nat (associativity c)) (clock c) (clock c + 1) set
                (default [] (m !! si)) tg store old) as (st' & Hacc & Hst');
      [done|lia|apply tag_valid; [apply Hwf|done]|done..|].
    rewrite Hacc. eexists. split_and!; [done| |done|..].
    + by rewrite <-Htr.
    + rewrite Hlen in Hv.
      eapply (cache_rel_update c c' m la (victim_way set)); [done|done|done|done|lia|done|done|symmetry; exact Hls|].
      by rewrite <-Hcl.
    + done.
    + done.
Qed.

Lemma fold_access_lru store las : ∀ c t m,
  wf c → cache_rel c m → Forall line_ok las → 0 ≤ clock c →
  clock c + Z.of_nat (length las) ≤ u64_max →
  ∃ c' t' m', fold_outcome (access_line store) las (c, t) = Done (c', t') ∧
    fold_left (lru_line (Plain.geometry_of c) store) las (m, t) = (m', t') ∧
    wf c' ∧ cache_rel c' m' ∧ Plain.geometry_of c' = Plain.geometry_of c ∧
    clock c' = clock c + Z.of_nat (length las).
Proof.
  induction las as [|la las IH]; intros c t m Hwf Hrel Hok H0 Hck.
  - exists c, t, m. simpl. split_and!; [done..|lia].
  - inversion_clear Hok as [|? ? Hla Hlas]. simpl in Hck.
    destruct (access_line_lru store c t m la) as (c1 & t1 & m1 & Ha & Hl & Hwf1 & Hrel1 & Hg1 & Hc1);
      [done..|lia|].
    destruct (IH c1 t1 m1) as (c2 & t2 & m2 & Hf & Hl2 & Hwf2 & Hrel2 & Hg2 & Hc2); [done..|lia|lia|].
    exists c2, t2, m2. cbn [fold_outcome fold_left]. rewrite Ha, Hl, <-Hg1. rewrite Hg2, Hg1 in *.
    split_and!; [done..|]. rewrite Hc2, Hc1. simpl. lia.
Qed.

Lemma new_cache_rel ls cap assoc c : Cache.new ls cap assoc = Some c → cache_rel c ∅.
Proof.
  unfold Cache.new. case_match; [done|]. case_match; [done|]. intros [= <-].
  intros si set Hsi Hset. simpl in *. rewrite lookup_empty. simpl.
  assert (List.filter valid set = []) as Hf.
  { apply filter_none. intros x [i Hi]%list_elem_of_lookup.
    pose proof (lookup_lt_Some _ _ _ Hi) as Hlt. rewrite (slice_length _ _ _ _ Hset) in Hlt.
    rewrite (slice_lookup _ _ _ _ _ Hset Hlt) in Hi.
    by apply lookup_replicate in Hi as [-> _]. }
  exists []. rewrite Hf. split_and!; [done|constructor..|done|constructor].
Qed.

Lemma touched_lines_div c a n :
  geometry_ok c →
  touched_lines c a n =
  let first := a / line_size c in
  let last := Z.min (a + (n - 1)) u64_max / line_size c in
  seqZ first (last - first + 1).
Proof.
  intros G. unfold touched_lines. rewrite !Z.shiftr_div_pow2 by apply G.
  by rewrite <-(geo_line_size _ G).
Qed.

End Lru.

(** ** Properties *)

(** On a well-formed cache, [access] with its filter of recent hits and its
    shift shortcut never panics, and leaves exactly the lines, the clock and the
    traffic of the plain set-associative cache that looks every line up by division
    and tag scan; the invariant is kept. *)
Theorem access_matches_plain c a n store :
  wf c → in_u64 a → in_u64 n →
  ∃ c' t, access c a n store = Done (c', t) ∧
          Plain.plain_access c a n store = Done (lines c', clock c', t) ∧
          wf c' ∧ Plain.geometry_of c' = Plain.geometry_of c.
Proof.
  intros Hwf Ha Hn.
  destruct (Plain.access_same c a n store) as ([c' t] & s & H1 & H2 & Hwf' & Hg & ->); eauto 10.
Qed.

Lemma access_matches_plain_witness :
  ∃ c c' t, Cache.new 64 256 2 = Some c ∧ access c 100 60 true = Done (c', t) ∧
    Plain.plain_access c 100 60 true = Done (lines c', clock c', t).
Proof.
  destruct (Cache.new 64 256 2) as [c|] eqn:Hc; [|vm_compute in Hc; discriminate].
  assert (Hwf : wf c).
  { apply (new_wf 64 256 2 c Hc); [unfold u64_max|..]; vm_compute; try split; congruence. }
  destruct (access_matches_plain c 100 60 true Hwf) as (c' & t & H1 & H2 & _);
    [vm_compute; split; congruence..|]. eauto 10.
Defined.

(** C3: [access] implements the LRU specification.  If the sets of the cache show
    the stacks [m], the access returns the traffic the stacks give and the new sets
    show the new stacks: hits cost nothing, a miss loads one line, and a line is
    written back exactly when the least recently used entry of a full set is dirty.
    The bound excludes a wrap of the 64-bit access clock. *)
Theorem access_refines_lru c m a n store :
  wf c → Lru.cache_rel c m → in_u64 a → in_u64 n → 0 ≤ clock c →
  clock c + Z.of_nat (length (touched_lines c a n)) ≤ u64_max →
  ∃ c' t m', access c a n store = Done (c', t) ∧
    Lru.lru_run (Plain.geometry_of c) m a n store = (m', t) ∧
    wf c' ∧ Lru.cache_rel c' m'.
Proof.
  intros Hwf Hrel Ha Hn H0 Hck. unfold access, Lru.lru_run.
  destruct (n =? 0) eqn:Hn0; [by exists c, no_traffic, m|]. apply Z.eqb_neq in Hn0.
  destruct (Lru.fold_access_lru store (touched_lines c a n) c no_traffic m)
    as (c' & t' & m' & Hf & Hl & Hwf' & Hrel' & _ & _); [done..| |done|done|].
  { apply touched_lines_ok; [apply Hwf|done..]. }
  exists c', t', m'. split; [done|]. split; [|done].
  rewrite Lru.touched_lines_div in Hl by apply Hwf. exact Hl.
Qed.

Lemma access_refines_lru_witness :
  ∃ c c' t m', Cache.new 64 256 2 = Some c ∧ access c 100 60 true = Done (c', t) ∧
    Lru.lru_run (Plain.geometry_of c) ∅ 100 60 true = (m', t).
Proof.
  destruct (Cache.new 64 256 2) as [c|] eqn:Hc; [|vm_compute in Hc; discriminate].
  assert (Hwf : wf c).
  { apply (new_wf 64 256 2 c Hc); [unfold u64_max|..]; vm_compute; try split; congruence. }
  pose proof (Lru.new_cache_rel 64 256 2 c Hc) as Hrel. injection Hc as <-.
  destruct (access_refines_lru _ ∅ 100 60 true Hwf Hrel) as (c' & t & m' & H1 & H2 & _);
    [vm_compute; first [split; congruence|congruence]..|]. eauto 10.
Defined.

(** ** Write-back conservation *)

Definition count_valid (ls : list CacheLine) : Z :=
  Z.of_nat (length (List.filter Lru.valid ls)).

Lemma count_dirty_valid ls : 0 ≤ count_dirty ls ≤ count_valid ls.
Proof.
  unfold count_dirty, count_valid. split; [lia|]. apply inj_le.
  induction ls as [|l ls IH]; simpl; [done|].
  unfold is_dirty at 1, Lru.valid at 1. destruct (is_invalid l), (dirty l); simpl; lia.
Qed.

Lemma count_valid_update ls i l l' :
  ls !! i = Some l →
  count_valid (<[i := l']> ls) =
  count_valid ls + (if Lru.valid l' then 1 else 0) - (if Lru.valid l then 1 else 0).
Proof.
  intros (r & Hr & Hins)%insert_perm. unfold count_valid.
  rewrite (Permutation_length (filter_perm Lru.valid _ _ Hr)).
  rewrite (Permutation_length (filter_perm Lru.valid _ _ (Hins l'))).
  simpl. destruct (Lru.valid l), (Lru.valid l'); simpl; lia.
Qed.

(** Resident lines and write-backs are paid for by loads. *)
Definition paid (ls : list CacheLine) (size : Z) (t : MemoryTraffic) : Z :=
  bytes_load t - bytes_store t - count_valid ls * size.

Lemma plain_line_paid g store ls now t la ls' now' t' :
  Plain.plain_line g store (ls, now, t) la = Done (ls', now', t') →
  0 ≤ Plain.g_line g → la / Plain.g_sets g ≠ TAG_INVALID →
  bytes_load t + Plain.g_line g ≤ u64_max → bytes_store t + Plain.g_line g ≤ u64_max →
  paid ls (Plain.g_line g) t ≤ paid ls' (Plain.g_line g) t' ∧
  bytes_load t' ≤ bytes_load t + Plain.g_line g ∧
  bytes_store t' ≤ bytes_store t + Plain.g_line g.
Proof.
  unfold Plain.plain_line. intros H Hg Hla Hl Hs.
  destruct (slice _ _ ls) as [set|] eqn:Hset; simpl in H; [|done].
  destruct (position _ set) as [way|] eqn:Hpos; simpl in H.
  - destruct (set !! way) as [l|] eqn:Hway; simpl in H; [|done]. injection H as <- _ <-.
    assert (Hlw := Hway). rewrite (slice_lookup _ _ _ _ _ Hset) in Hlw
      by (rewrite <-(slice_length _ _ _ _ Hset); by eapply lookup_lt_Some).
    unfold paid. rewrite (count_valid_update _ _ _ _ Hlw).
    change (Lru.valid (hit_line _ _ l)) with (Lru.valid l). lia.
  - destruct (set !! victim_way set) as [old|] eqn:Hold; simpl in H; [|done]. injection H as <- _ <-.
    assert (Hlw := Hold). rewrite (slice_lookup _ _ _ _ _ Hset) in Hlw
      by (rewrite <-(slice_length _ _ _ _ Hset); by eapply lookup_lt_Some).
    unfold paid. rewrite (count_valid_update _ _ _ _ Hlw). simpl.
    unfold Lru.valid, is_invalid at 1; simpl. rewrite (proj2 (Z.eqb_neq _ _) Hla). simpl.
    unfold is_dirty, saturating_add. destruct (is_invalid old), (dirty old); simpl; nia.
Qed.

Lemma fold_paid store las : ∀ c t,
  wf c → Forall line_ok las →
  bytes_load t + Z.of_nat (length las) * line_size c ≤ u64_max →
  bytes_store t + Z.of_nat (length las) * line_size c ≤ u64_max →
  ∃ c' t', fold_outcome (access_line store) las (c, t) = Done (c', t') ∧ wf c' ∧
    line_size c' = line_size c ∧
    paid (lines c) (line_size c) t ≤ paid (lines c') (line_size c) t'.
Proof.
  induction las as [|la las IH]; intros c t Hwf Hok Hl Hs; [by exists c, t|].
  inversion_clear Hok as [|? ? Hla Hlas]. cbn [length] in *.
  pose proof (geo_line_two _ (wf_geometry _ Hwf)) as H2.
  destruct (Plain.access_line_same (Plain.geometry_of c) store (c, t) (lines c, clock c, t) la)
    as ([c1 t1] & s1 & Ha & Hp & Hwf1 & Hg & ->); [done..|]. cbn [fst snd] in *.
  apply plain_line_paid in Hp as (Hpaid & Hl1 & Hs1);
    [|simpl; lia|apply tag_valid; [apply Hwf|done]|simpl; nia..].
  cbn [Plain.geometry_of Plain.g_line fold_outcome] in *.
  assert (line_size c1 = line_size c) as Hsz by (unfold Plain.geometry_of in Hg; by injection Hg).
  destruct (IH c1 t1) as (c2 & t2 & Hf & Hwf2 & Hsz2 & Hpaid2); [done|done|nia..|].
  rewrite Ha. rewrite Hsz in *. exists c2, t2. split_and!; [done..|lia].
Qed.

(** A run of accesses, adding up the traffic each one reports. *)
Definition run_access (s : CacheModel * Z * Z) (op : Z * Z * bool) : outcome (CacheModel * Z * Z) :=
  let '(c, loaded, stored) := s in
  let '(address, size, store) := op in
  '(c, t) ← access c address size store;
  Done (c, loaded + bytes_load t, stored + bytes_store t).

Definition op_ok (ls : Z) (op : Z * Z * bool) : Prop :=
  let '(a, n, _) := op in
  in_u64 a ∧ in_u64 n ∧ n + 2 * ls ≤ u64_max.

Lemma touched_lines_bytes c a n :
  geometry_ok c → in_u64 a → in_u64 n → n ≠ 0 →
  Z.of_nat (length (touched_lines c a n)) * line_size c ≤ n + 2 * line_size c.
Proof.
  intros G Ha Hn Hn0. rewrite Lru.touched_lines_div by done. cbv zeta. rewrite length_seqZ.
  pose proof (geo_line_two _ G) as Hls. set (s := line_size c) in *.
  set (e := Z.min (a + (n - 1)) u64_max).
  pose proof (Z.mul_div_le e s ltac:(lia)). pose proof (Z.mul_succ_div_gt a s ltac:(lia)).
  assert (e ≤ a + n - 1) by lia. set (k := e / s - a / s + 1).
  assert (k * s = s * (e / s) - s * (a / s) + s) by (subst k; ring).
  destruct (Z.le_gt_cases 0 k); [rewrite Z2Nat.id by done; lia|]. replace (Z.to_nat k) with 0%nat by lia. word_lia.
Qed.

Lemma run_access_paid ls s op :
  wf s.1.1 ∧ line_size s.1.1 = ls ∧ s.2 + count_valid (lines s.1.1) * ls ≤ s.1.2 →
  op_ok ls op →
  ∃ s', run_access s op = Done s' ∧
    wf s'.1.1 ∧ line_size s'.1.1 = ls ∧ s'.2 + count_valid (lines s'.1.1) * ls ≤ s'.1.2.
Proof.
  destruct s as [[c loaded] stored], op as [[a n] store]. simpl.
  intros (Hwf & <- & Hinv) (Ha & Hn & Hbig). unfold access.
  destruct (n =? 0) eqn:Hn0.
  { exists (c, loaded + 0, stored + 0). simpl. split_and!; [done..|lia]. }
  apply Z.eqb_neq in Hn0.
  pose proof (touched_lines_bytes c a n (wf_geometry _ Hwf) Ha Hn Hn0) as Hb.
  destruct (fold_paid store (touched_lines c a n) c no_traffic) as (c' & t' & -> & Hwf' & Hsz & Hp);
    [done|by apply touched_lines_ok; [apply Hwf|..]|simpl; lia..|].
  unfold paid in Hp. simpl in Hp. eexists; split; [done|]. simpl. split_and!; [done..|lia].
Qed.

(** Over any run from a new cache, ended by [flush], the bytes written back to
    memory are at most the bytes loaded from it: every line written back was first
    filled. *)
Theorem writebacks_bounded_by_loads ls cap assoc c ops :
  Cache.new ls cap assoc = Some c → 2 ≤ ls ≤ u64_max → 0 ≤ cap → 0 < assoc →
  cap / ls ≤ 2 ^ 32 → Forall (op_ok ls) ops →
  ∃ c' loaded stored, fold_outcome run_access ops (c, 0, 0) = Done (c', loaded, stored) ∧
    stored + bytes_store (flush c').2 ≤ loaded.
Proof.
  intros Hnew Hls Hcap Has Hsmall Hops. pose proof (new_wf _ _ _ _ Hnew Hls Hcap Has Hsmall) as Hwf.
  destruct (fold_outcome_inv
    (λ s, wf s.1.1 ∧ line_size s.1.1 = ls ∧ s.2 + count_valid (lines s.1.1) * ls ≤ s.1.2)
    run_access ops (c, 0, 0)) as ([[c' loaded] stored] & Hrun & Hwf' & Hsz & Hinv).
  - simpl. unfold Cache.new in Hnew. case_match; [done|]. case_match; [done|].
    injection Hnew as <-. split_and!; [done..|]. simpl. unfold count_valid.
    rewrite filter_none; [done|]. by intros x [-> _]%elem_of_replicate.
  - intros s op Hop HI. rewrite Forall_forall in Hops. apply run_access_paid; auto.
  - exists c', loaded, stored. split; [done|]. simpl in *. rewrite Hsz.
    pose proof (count_dirty_valid (lines c')). unfold saturating_mul. nia.
Qed.

Lemma writebacks_bounded_by_loads_witness :
  ∃ c c' loaded stored, Cache.new 64 256 2 = Some c ∧
    fold_outcome run_access [(0, 8, true); (512, 8, true); (1024, 100, false)] (c, 0, 0)
      = Done (c', loaded, stored) ∧ stored + bytes_store (flush c').2 ≤ loaded.
Proof.
  destruct (Cache.new 64 256 2) as [c|] eqn:Hc; [|vm_compute in Hc; discriminate].
  destruct (writebacks_bounded_by_loads 64 256 2 c
    [(0, 8, true); (512, 8, true); (1024, 100, false)] Hc) as (c' & l & s & H1 & H2);
    [vm_compute; split; congruence|done|done|vm_compute; congruence
    |repeat constructor; vm_compute; congruence|]. eauto 10.
Defined.
