(* ===== verification/Cfg.v ===== *)
(** * Dynamic control-flow graph accounting

    Models [utils/roofline-core/src/cfg.rs] and the block descriptors of
    [classify.rs] it uses: the instrumentation backends report executed blocks per
    virtual CPU, and [DynamicCfg] keeps the intraprocedural edges between them
    (calls are summarised as an edge from the call block to its continuation), the
    function entries and the cost counters per block.

    - [record_block], [record_repeats], [record_counted_block], [attribute_*]: the
      operations, one definition each;
    - [counts_ok] / [cfg_ok]: the counters are [u64] values;
    - [record_repeats_iter]: the run-length shortcut is the repeated operation;
    - call stacks: a balanced call leaves the caller's stack and adds the summary
      edge. *)

From S2P Require Import Prelude Words.
Open Scope Z_scope.

Module Cfg.

(** ** Data *)

Inductive FlowKind : Type := Normal | Call | Return.
#[export] Instance FlowKind_eq_dec : EqDecision FlowKind.
Proof. solve_decision. Defined.

Record BlockCost : Type := mkCost {
  vaddr : Z;
  end_vaddr : Z;
  flow : FlowKind;
  c_scalar_int : Z;
  c_scalar_float : Z;
  c_scalar_double : Z;
  c_vector_int : Z;
  c_vector_float : Z;
  c_vector_double : Z;
  instructions : Z
}.

Record DynamicBlockCounts : Type := mkCounts {
  b_end_vaddr : Z;
  executions : Z;
  scalar_int : Z;
  scalar_float : Z;
  scalar_double : Z;
  vector_int : Z;
  vector_float : Z;
  vector_double : Z;
  bytes_load : Z;
  bytes_store : Z;
  arch_bytes_load : Z;
  arch_bytes_store : Z;
  unclassified : Z;
  threads : list (Z * Z)
}.

Definition default_counts : DynamicBlockCounts := mkCounts 0 0 0 0 0 0 0 0 0 0 0 0 0 [].

Inductive VectorClass : Type := Integer | Float | Double.

Record DynamicCfg : Type := mkCfg {
  last_blocks : list (option (Z * FlowKind));
  call_stacks : list (list Z);
  entries : gset Z;
  edges : gmap (Z * Z) Z;
  blocks : gmap Z DynamicBlockCounts
}.

Definition new : DynamicCfg := mkCfg [] [] ∅ ∅ ∅.

(** ** Operations *)

(** [add_thread_executions]: the first entry of the thread grows, or one is added. *)
Fixpoint add_thread (thread count : Z) (ts : list (Z * Z)) : list (Z * Z) :=
  match ts with
  | [] => [(thread, count)]
  | (candidate, executions) :: ts =>
      if candidate =? thread then (candidate, saturating_add executions count) :: ts
      else (candidate, executions) :: add_thread thread count ts
  end.

(** The six operation counters of a block, charged for [n] executions of [cost]. *)
Definition charge (cost : BlockCost) (n : Z) (b : DynamicBlockCounts) : DynamicBlockCounts :=
  mkCounts (b_end_vaddr b) (executions b)
    (saturating_add (scalar_int b) (saturating_mul (c_scalar_int cost) n))
    (saturating_add (scalar_float b) (saturating_mul (c_scalar_float cost) n))
    (saturating_add (scalar_double b) (saturating_mul (c_scalar_double cost) n))
    (saturating_add (vector_int b) (saturating_mul (c_vector_int cost) n))
    (saturating_add (vector_float b) (saturating_mul (c_vector_float cost) n))
    (saturating_add (vector_double b) (saturating_mul (c_vector_double cost) n))
    (bytes_load b) (bytes_store b) (arch_bytes_load b) (arch_bytes_store b)
    (unclassified b) (threads b).

Definition set_end (e : Z) (b : DynamicBlockCounts) : DynamicBlockCounts :=
  mkCounts e (executions b) (scalar_int b) (scalar_float b) (scalar_double b)
    (vector_int b) (vector_float b) (vector_double b) (bytes_load b) (bytes_store b)
    (arch_bytes_load b) (arch_bytes_store b) (unclassified b) (threads b).

Definition count_executions (n : Z) (b : DynamicBlockCounts) : DynamicBlockCounts :=
  mkCounts (b_end_vaddr b) (saturating_add (executions b) n) (scalar_int b) (scalar_float b)
    (scalar_double b) (vector_int b) (vector_float b) (vector_double b) (bytes_load b)
    (bytes_store b) (arch_bytes_load b) (arch_bytes_store b) (unclassified b) (threads b).

Definition count_thread (thread n : Z) (b : DynamicBlockCounts) : DynamicBlockCounts :=
  mkCounts (b_end_vaddr b) (executions b) (scalar_int b) (scalar_float b)
    (scalar_double b) (vector_int b) (vector_float b) (vector_double b) (bytes_load b)
    (bytes_store b) (arch_bytes_load b) (arch_bytes_store b) (unclassified b)
    (add_thread thread n (threads b)).

(** [self.blocks.entry(a).or_default()] followed by an update. *)
Definition with_block (a : Z) (f : DynamicBlockCounts → DynamicBlockCounts) (g : DynamicCfg)
    : DynamicCfg :=
  mkCfg (last_blocks g) (call_stacks g) (entries g) (edges g)
    (<[a := f (default default_counts (blocks g !! a))]> (blocks g)).

(** [*self.edges.entry(e).or_default() += n], with release-mode addition. *)
Definition add_edge (e : Z * Z) (n : Z) (g : DynamicCfg) : DynamicCfg :=
  mkCfg (last_blocks g) (call_stacks g) (entries g)
    (<[e := wrapping_add (default 0 (edges g !! e)) n]> (edges g)) (blocks g).

Definition add_entry (a : Z) (g : DynamicCfg) : DynamicCfg :=
  mkCfg (last_blocks g) (call_stacks g) ({[a]} ∪ entries g) (edges g) (blocks g).

Definition set_stack (vcpu : nat) (st : list Z) (g : DynamicCfg) : DynamicCfg :=
  mkCfg (last_blocks g) (<[vcpu := st]> (call_stacks g)) (entries g) (edges g) (blocks g).

Definition set_last (vcpu : nat) (b : option (Z * FlowKind)) (g : DynamicCfg) : DynamicCfg :=
  mkCfg (<[vcpu := b]> (last_blocks g)) (call_stacks g) (entries g) (edges g) (blocks g).

(** The per-CPU vectors grow to hold [vcpu]. *)
Definition grow (vcpu : nat) (g : DynamicCfg) : DynamicCfg :=
  mkCfg (vec_grow None (vcpu + 1) (last_blocks g)) (vec_grow [] (vcpu + 1) (call_stacks g))
    (entries g) (edges g) (blocks g).

(** The edge, entry or call-stack update caused by reaching [target] after the block
    that ran last on this CPU. *)
Definition follow (vcpu : nat) (target : Z) (g : DynamicCfg) : DynamicCfg :=
  match last_blocks g !! vcpu with
  | Some (Some (previous, Normal)) => add_edge (previous, target) 1 g
  | Some (Some (previous, Call)) =>
      set_stack vcpu (vec_push (default [] (call_stacks g !! vcpu)) previous) (add_entry target g)
  | Some (Some (_, Return)) =>
      match vec_pop (default [] (call_stacks g !! vcpu)) with
      | (Some caller, rest) => add_edge (caller, target) 1 (set_stack vcpu rest g)
      | (None, _) => add_entry target g
      end
  | _ => add_entry target g
  end.

(** The end address of a block after one more execution of [cost]. *)
Definition merge_end (cost : BlockCost) (b : DynamicBlockCounts) : DynamicBlockCounts :=
  if b_end_vaddr b =? 0 then set_end (end_vaddr cost) b
  else if negb (b_end_vaddr b =? end_vaddr cost)
       then set_end (Z.max (b_end_vaddr b) (end_vaddr cost)) b else b.

(** The per-block part of one execution; [saturating_add(cost.scalar_int)] is the
    charge for one execution. *)
Definition execute (thread : Z) (cost : BlockCost) (b : DynamicBlockCounts) : DynamicBlockCounts :=
  let b := merge_end cost b in
  let b := count_executions 1 b in
  let b := count_thread thread 1 b in
  mkCounts (b_end_vaddr b) (executions b)
    (saturating_add (scalar_int b) (c_scalar_int cost))
    (saturating_add (scalar_float b) (c_scalar_float cost))
    (saturating_add (scalar_double b) (c_scalar_double cost))
    (saturating_add (vector_int b) (c_vector_int cost))
    (saturating_add (vector_float b) (c_vector_float cost))
    (saturating_add (vector_double b) (c_vector_double cost))
    (bytes_load b) (bytes_store b) (arch_bytes_load b) (arch_bytes_store b)
    (unclassified b) (threads b).

Definition record_block (vcpu : nat) (cost : BlockCost) (g : DynamicCfg) : DynamicCfg :=
  let g := grow vcpu g in
  let g := follow vcpu (vaddr cost) g in
  let g := set_last vcpu (Some (vaddr cost, flow cost)) g in
  with_block (vaddr cost) (execute (as_u32 (Z.of_nat vcpu)) cost) g.

Definition record_repeats (vcpu : nat) (cost : BlockCost) (count : Z) (g : DynamicCfg) : DynamicCfg :=
  if count =? 0 then g
  else
    let g := add_edge (vaddr cost, vaddr cost) count g in
    with_block (vaddr cost)
      (λ b, charge cost count
              (count_thread (as_u32 (Z.of_nat vcpu)) count (count_executions count b))) g.

Definition add_successor (cost : BlockCost) (count : Z) (g : DynamicCfg) (successor : Z) : DynamicCfg :=
  let edge_count := if successor =? vaddr cost then saturating_sub count 1 else count in
  if edge_count =? 0 then g else add_edge (vaddr cost, successor) edge_count g.

Definition record_counted_block (cost : BlockCost) (count : Z) (successors : list Z)
    (g : DynamicCfg) : DynamicCfg :=
  if count =? 0 then g
  else
    let g := with_block (vaddr cost)
      (λ b, charge cost count (count_executions count
              (set_end (Z.max (b_end_vaddr b) (end_vaddr cost)) b))) g in
    fold_left (add_successor cost count) successors g.

Definition attribute_unclassified (a : Z) : DynamicCfg → DynamicCfg :=
  with_block a (λ b,
    mkCounts (b_end_vaddr b) (executions b) (scalar_int b) (scalar_float b)
      (scalar_double b) (vector_int b) (vector_float b) (vector_double b) (bytes_load b)
      (bytes_store b) (arch_bytes_load b) (arch_bytes_store b)
      (saturating_add (unclassified b) 1) (threads b)).

Definition attribute_memory (a arch_load arch_store dram_load dram_store : Z)
    : DynamicCfg → DynamicCfg :=
  with_block a (λ b,
    mkCounts (b_end_vaddr b) (executions b) (scalar_int b) (scalar_float b)
      (scalar_double b) (vector_int b) (vector_float b) (vector_double b)
      (saturating_add (bytes_load b) dram_load) (saturating_add (bytes_store b) dram_store)
      (saturating_add (arch_bytes_load b) arch_load)
      (saturating_add (arch_bytes_store b) arch_store)
      (unclassified b) (threads b)).

Definition attribute_vector (a : Z) (class : VectorClass) (operations : Z)
    : DynamicCfg → DynamicCfg :=
  with_block a (λ b,
    mkCounts (b_end_vaddr b) (executions b) (scalar_int b) (scalar_float b) (scalar_double b)
      (match class with
       | Integer => saturating_add (vector_int b) operations | _ => vector_int b end)
      (match class with
       | Float => saturating_add (vector_float b) operations | _ => vector_float b end)
      (match class with
       | Double => saturating_add (vector_double b) operations | _ => vector_double b end)
      (bytes_load b) (bytes_store b) (arch_bytes_load b) (arch_bytes_store b)
      (unclassified b) (threads b)).

(** ** Well-formedness: every counter is a [u64] *)

Record cost_ok (c : BlockCost) : Prop := {
  ok_vaddr : in_u64 (vaddr c);
  ok_end : in_u64 (end_vaddr c);
  ok_c_si : in_u64 (c_scalar_int c);
  ok_c_sf : in_u64 (c_scalar_float c);
  ok_c_sd : in_u64 (c_scalar_double c);
  ok_c_vi : in_u64 (c_vector_int c);
  ok_c_vf : in_u64 (c_vector_float c);
  ok_c_vd : in_u64 (c_vector_double c)
}.

Record counts_ok (b : DynamicBlockCounts) : Prop := {
  ok_b_end : in_u64 (b_end_vaddr b);
  ok_exec : in_u64 (executions b);
  ok_si : in_u64 (scalar_int b);
  ok_sf : in_u64 (scalar_float b);
  ok_sd : in_u64 (scalar_double b);
  ok_vi : in_u64 (vector_int b);
  ok_vf : in_u64 (vector_float b);
  ok_vd : in_u64 (vector_double b);
  ok_bl : in_u64 (bytes_load b);
  ok_bs : in_u64 (bytes_store b);
  ok_al : in_u64 (arch_bytes_load b);
  ok_as : in_u64 (arch_bytes_store b);
  ok_un : in_u64 (unclassified b);
  ok_threads : Forall (λ te, in_u64 te.2) (threads b)
}.

Definition cfg_ok (g : DynamicCfg) : Prop :=
  map_Forall (λ _ b, counts_ok b) (blocks g) ∧ map_Forall (λ _ n, in_u64 n) (edges g).

Create HintDb cfg.
#[local] Hint Resolve ok_vaddr ok_end ok_c_si ok_c_sf ok_c_sd ok_c_vi ok_c_vf ok_c_vd
  ok_b_end ok_exec ok_si ok_sf ok_sd ok_vi ok_vf ok_vd ok_bl ok_bs ok_al ok_as ok_un ok_threads : cfg.
#[local] Hint Resolve saturating_add_range saturating_mul_range wrap64_range : cfg.

Lemma in_u64_0 : in_u64 0.
Proof. word_lia. Qed.
Lemma in_u64_1 : in_u64 1.
Proof. word_lia. Qed.
Lemma in_u64_max x y : in_u64 x → in_u64 y → in_u64 (Z.max x y).
Proof. word_lia. Qed.
#[local] Hint Resolve in_u64_0 in_u64_1 in_u64_max : cfg.

Lemma default_counts_ok : counts_ok default_counts.
Proof. split; simpl; auto with cfg. Qed.

Lemma block_ok g a : cfg_ok g → counts_ok (default default_counts (blocks g !! a)).
Proof.
  intros [Hb _]. destruct (blocks g !! a) as [b|] eqn:E; simpl; [|apply default_counts_ok].
  by apply (Hb a).
Qed.

Lemma add_thread_ok t n ts :
  in_u64 n → Forall (λ te : Z * Z, in_u64 te.2) ts →
  Forall (λ te : Z * Z, in_u64 te.2) (add_thread t n ts).
Proof.
  intros Hn. induction 1 as [|[c e] ts He Hts IH]; simpl; [by constructor|].
  case_match; constructor; simpl in *; auto with cfg.
Qed.
#[local] Hint Resolve add_thread_ok : cfg.

Lemma execute_ok t c b : cost_ok c → counts_ok b → counts_ok (execute t c b).
Proof.
  intros Hc Hb. unfold execute, merge_end. repeat case_match; split; simpl; auto 6 with cfg.
Qed.

Lemma charge_ok c n b : cost_ok c → in_u64 n → counts_ok b → counts_ok (charge c n b).
Proof. intros Hc Hn Hb. split; simpl; auto 6 with cfg. Qed.

Lemma count_thread_ok t n b : in_u64 n → counts_ok b → counts_ok (count_thread t n b).
Proof. intros Hn Hb. split; simpl; auto with cfg. Qed.

Lemma count_executions_ok n b : in_u64 n → counts_ok b → counts_ok (count_executions n b).
Proof. intros Hn Hb. split; simpl; auto with cfg. Qed.

Lemma with_block_ok a f g :
  cfg_ok g → (∀ b, counts_ok b → counts_ok (f b)) → cfg_ok (with_block a f g).
Proof.
  intros Hg Hf. split; simpl; [|apply Hg].
  apply map_Forall_insert_2; [|apply Hg]. by apply Hf, block_ok.
Qed.

Lemma add_edge_ok e n g : cfg_ok g → cfg_ok (add_edge e n g).
Proof.
  intros [Hb He]. split; simpl; [done|]. apply map_Forall_insert_2; [apply wrap64_range|done].
Qed.

Lemma follow_ok v a g : cfg_ok g → cfg_ok (follow v a g).
Proof.
  intros Hg. unfold follow. repeat case_match; try done; by apply add_edge_ok.
Qed.

Lemma record_block_ok v c g : cost_ok c → cfg_ok g → cfg_ok (record_block v c g).
Proof.
  intros Hc Hg. unfold record_block. apply with_block_ok; [|by intros; apply execute_ok].
  apply (follow_ok v (vaddr c) (grow v g)) in Hg. exact Hg.
Qed.

Lemma record_repeats_ok v c n g :
  cost_ok c → in_u64 n → cfg_ok g → cfg_ok (record_repeats v c n g).
Proof.
  intros Hc Hn Hg. unfold record_repeats. case_match; [done|].
  apply with_block_ok; [by apply add_edge_ok|]. intros b Hb.
  auto using charge_ok, count_thread_ok, count_executions_ok.
Qed.

Lemma attribute_memory_ok a al as_ dl ds g :
  in_u64 al → in_u64 as_ → in_u64 dl → in_u64 ds → cfg_ok g →
  cfg_ok (attribute_memory a al as_ dl ds g).
Proof.
  intros H1 H2 H3 H4 Hg. apply with_block_ok; [done|]. intros b Hb. split; simpl; auto with cfg.
Qed.

Lemma attribute_unclassified_ok a g : cfg_ok g → cfg_ok (attribute_unclassified a g).
Proof.
  intros Hg. apply with_block_ok; [done|]. intros b Hb. split; simpl; auto with cfg.
Qed.

Lemma attribute_vector_ok a k n g : in_u64 n → cfg_ok g → cfg_ok (attribute_vector a k n g).
Proof.
  intros Hn Hg. apply with_block_ok; [done|]. intros b Hb.
  destruct k; split; simpl; auto with cfg.
Qed.

Lemma record_counted_block_ok c n ss g :
  cost_ok c → in_u64 n → cfg_ok g → cfg_ok (record_counted_block c n ss g).
Proof.
  intros Hc Hn Hg. unfold record_counted_block. case_match; [done|].
  set (g1 := with_block _ _ g). assert (Hg1 : cfg_ok g1).
  { apply with_block_ok; [done|]. intros b Hb.
    apply charge_ok; [done..|]. apply count_executions_ok; [done|]. split; simpl; auto with cfg. }
  clearbody g1. revert g1 Hg1. induction ss as [|s ss IH]; intros g1 Hg1; simpl; [done|].
  apply IH. unfold add_successor. repeat case_match; try done; by apply add_edge_ok.
Qed.

(** ** Algebra of the updates *)

Lemma with_block_twice a f h g :
  with_block a f (with_block a h g) = with_block a (f ∘ h) g.
Proof. unfold with_block; simpl. by rewrite lookup_insert_eq, insert_insert_eq. Qed.

Lemma with_block_commute a1 a2 f1 f2 g :
  (∀ b, f1 (f2 b) = f2 (f1 b)) →
  with_block a1 f1 (with_block a2 f2 g) = with_block a2 f2 (with_block a1 f1 g).
Proof.
  intros Hc. destruct (decide (a1 = a2)) as [->|Hne].
  - rewrite !with_block_twice. unfold with_block. do 2 f_equal. apply Hc.
  - unfold with_block; simpl. f_equal.
    by rewrite !lookup_insert_ne, insert_insert_ne by done.
Qed.

Lemma with_block_ext a f1 f2 g :
  f1 (default default_counts (blocks g !! a)) = f2 (default default_counts (blocks g !! a)) →
  with_block a f1 g = with_block a f2 g.
Proof. intros H. unfold with_block. by rewrite H. Qed.

Lemma add_edge_twice e j k g : add_edge e k (add_edge e j g) = add_edge e (j + k) g.
Proof.
  unfold add_edge; simpl. f_equal. rewrite lookup_insert_eq, insert_insert_eq. simpl.
  f_equal. unfold wrapping_add. rewrite wrap64_add_l. f_equal. lia.
Qed.

Lemma sat_add_add x j k :
  0 ≤ k → saturating_add (saturating_add x j) k = saturating_add x (j + k).
Proof. word_lia. Qed.

Lemma sat_charge_add x c j k :
  0 ≤ x → 0 ≤ c → 0 ≤ j → 0 ≤ k →
  saturating_add (saturating_add x (saturating_mul c j)) (saturating_mul c k) =
  saturating_add x (saturating_mul c (j + k)).
Proof.
  intros. unfold saturating_add, saturating_mul.
  assert (0 ≤ c * j ∧ 0 ≤ c * k ∧ c * (j + k) = c * j + c * k) as (?&?&->) by nia. word_lia.
Qed.

Lemma add_thread_twice t j k ts :
  0 ≤ j → 0 ≤ k → j + k ≤ u64_max →
  add_thread t k (add_thread t j ts) = add_thread t (j + k) ts.
Proof.
  intros. induction ts as [|[c e] ts IH]; simpl.
  - rewrite Z.eqb_refl. do 2 f_equal. word_lia.
  - destruct (c =? t) eqn:E; simpl; rewrite E; [|by rewrite IH].
    by rewrite sat_add_add.
Qed.

Definition repeat_block (thread : Z) (c : BlockCost) (n : Z) (b : DynamicBlockCounts) :=
  charge c n (count_thread thread n (count_executions n b)).

Lemma repeat_block_twice t c j k b :
  cost_ok c → counts_ok b → 0 ≤ j → 0 ≤ k → j + k ≤ u64_max →
  repeat_block t c k (repeat_block t c j b) = repeat_block t c (j + k) b.
Proof.
  intros Hc Hb Hj Hk Hjk. unfold repeat_block, charge, count_thread, count_executions; simpl.
  rewrite sat_add_add by done. rewrite add_thread_twice by done.
  rewrite !sat_charge_add; first [done | lia | apply Hc | apply Hb].
Qed.

(** Two runs of repeats in a row are one run. *)
Lemma record_repeats_add v c j k g :
  cost_ok c → cfg_ok g → 0 ≤ j → 0 ≤ k → j + k ≤ u64_max →
  record_repeats v c k (record_repeats v c j g) = record_repeats v c (j + k) g.
Proof.
  intros Hc Hg Hj Hk Hjk. unfold record_repeats.
  destruct (j =? 0) eqn:Ej; [apply Z.eqb_eq in Ej; subst; by rewrite Z.add_0_l|].
  destruct (k =? 0) eqn:Ek; [apply Z.eqb_eq in Ek; subst; by rewrite Z.add_0_r, Ej|].
  replace (j + k =? 0) with false by (symmetry; apply Z.eqb_neq; lia).
  change (add_edge ?e ?n (with_block ?a ?f ?g)) with (with_block a f (add_edge e n g)).
  rewrite with_block_twice, add_edge_twice. apply with_block_ext.
  apply repeat_block_twice; try done. by apply (block_ok (add_edge _ _ g)), add_edge_ok.
Qed.

(** ** The run-length shortcut *)

(** [cost] is the block that ran last on [vcpu], with fall-through flow, and its
    recorded end address is settled. *)
Definition just_ran (vcpu : nat) (c : BlockCost) (g : DynamicCfg) : Prop :=
  flow c = Normal ∧ (vcpu < length (call_stacks g))%nat ∧
  last_blocks g !! vcpu = Some (Some (vaddr c, Normal)) ∧
  ∃ b, blocks g !! vaddr c = Some b ∧ merge_end c b = b.

Lemma merge_end_idem c b : merge_end c (merge_end c b) = merge_end c b.
Proof.
  destruct b as [e]; unfold merge_end, set_end; simpl.
  destruct (Z.eqb_spec e 0) as [->|]; simpl.
  - destruct (Z.eqb_spec (end_vaddr c) 0) as [E|]; simpl; [by rewrite E|]. by rewrite Z.eqb_refl.
  - destruct (Z.eqb_spec e (end_vaddr c)) as [E|]; simpl.
    + rewrite (proj2 (Z.eqb_neq _ _)) by done. subst e. by rewrite Z.eqb_refl.
    + destruct (Z.eqb_spec (Z.max e (end_vaddr c)) 0) as [E|]; simpl.
      * f_equal. lia.
      * destruct (Z.eqb_spec (Z.max e (end_vaddr c)) (end_vaddr c)); simpl; [done|].
        f_equal. lia.
Qed.

(** The end address [merge_end] leaves depends on the old one only. *)
Lemma merge_end_local c b b' :
  b_end_vaddr b = b_end_vaddr b' → merge_end c b = b → merge_end c b' = b'.
Proof.
  destruct b as [e], b' as [e']. simpl. intros <-. unfold merge_end, set_end; simpl.
  repeat case_match; congruence.
Qed.

Lemma follow_last v a g : last_blocks (follow v a g) = last_blocks g.
Proof. unfold follow. by repeat case_match. Qed.

Lemma follow_blocks v a g : blocks (follow v a g) = blocks g.
Proof. unfold follow. by repeat case_match. Qed.

Lemma length_follow v a g : length (call_stacks (follow v a g)) = length (call_stacks g).
Proof. unfold follow. repeat case_match; simpl; rewrite ?length_insert; done. Qed.

Lemma record_block_just_ran v c g :
  flow c = Normal → just_ran v c (record_block v c g).
Proof.
  intros Hf. unfold just_ran, record_block; simpl. rewrite follow_last, length_follow, Hf. simpl.
  rewrite !length_vec_grow. split_and!; [done|lia| |].
  - apply list_lookup_insert_eq. rewrite length_vec_grow. lia.
  - rewrite lookup_insert_eq. eexists; split; [done|].
    set (b := default _ _). apply (merge_end_local c (merge_end c b)); [done|].
    apply merge_end_idem.
Qed.

(** Updates that keep the end address of a block keep [just_ran]. *)
Lemma just_ran_with_block v c a f g :
  (∀ b, b_end_vaddr (f b) = b_end_vaddr b) → just_ran v c g → just_ran v c (with_block a f g).
Proof.
  intros Hf (Hn & Hl & Hlast & b & Hb & Hm). split_and!; [done..|]. simpl.
  destruct (decide (a = vaddr c)) as [->|Hne].
  - rewrite lookup_insert_eq, Hb. simpl. eexists; split; [done|].
    by apply (merge_end_local c b).
  - rewrite lookup_insert_ne by done. eauto.
Qed.

Lemma just_ran_repeats v c n g : just_ran v c g → just_ran v c (record_repeats v c n g).
Proof.
  intros H. unfold record_repeats. case_match; [done|]. by apply just_ran_with_block.
Qed.

(** One more execution of the block that just ran is a run of length one. *)
Lemma record_block_repeat v c g :
  cost_ok c → just_ran v c g → record_block v c g = record_repeats v c 1 g.
Proof.
  intros Hc (Hn & Hl & Hlast & b & Hb & Hm). unfold record_block, record_repeats.
  pose proof (lookup_lt_Some _ _ _ Hlast) as Hlt.
  assert (grow v g = g) as ->.
  { unfold grow. rewrite !vec_grow_id by lia. by destruct g. }
  assert (follow v (vaddr c) g = add_edge (vaddr c, vaddr c) 1 g) as -> by (unfold follow; by rewrite Hlast).
  assert (set_last v (Some (vaddr c, flow c)) (add_edge (vaddr c, vaddr c) 1 g)
          = add_edge (vaddr c, vaddr c) 1 g) as ->.
  { unfold set_last; simpl. rewrite Hn, list_insert_id by done. done. }
  apply with_block_ext. simpl. rewrite Hb. simpl. unfold execute. rewrite Hm.
  unfold charge; simpl. by rewrite !saturating_mul_1 by apply Hc.
Qed.

Lemma record_repeats_just_ran_iter v c n g :
  cost_ok c → cfg_ok g → just_ran v c g → Z.of_nat n ≤ u64_max →
  record_repeats v c (Z.of_nat n) g = Nat.iter n (record_block v c) g.
Proof.
  intros Hc Hg Hj. induction n as [|n IH]; intros Hn; [done|]. simpl Nat.iter.
  rewrite <-IH by lia. rewrite record_block_repeat; [|done|by apply just_ran_repeats].
  rewrite record_repeats_add by (try done; lia). f_equal. lia.
Qed.

(** Repeats commute with the attributions that arrive between them. *)
Lemma record_repeats_attribute_memory v c n a al as_ dl ds g :
  record_repeats v c n (attribute_memory a al as_ dl ds g) =
  attribute_memory a al as_ dl ds (record_repeats v c n g).
Proof.
  unfold record_repeats, attribute_memory. case_match; [done|].
  change (add_edge ?e ?n (with_block ?a ?f ?g)) with (with_block a f (add_edge e n g)).
  by apply with_block_commute.
Qed.

Lemma record_repeats_attribute_unclassified v c n a g :
  record_repeats v c n (attribute_unclassified a g) =
  attribute_unclassified a (record_repeats v c n g).
Proof.
  unfold record_repeats, attribute_unclassified. case_match; [done|].
  change (add_edge ?e ?n (with_block ?a ?f ?g)) with (with_block a f (add_edge e n g)).
  by apply with_block_commute.
Qed.

(** ** Calls and returns *)

Definition run_blocks (vcpu : nat) (bs : list BlockCost) (g : DynamicCfg) : DynamicCfg :=
  fold_left (λ g b, record_block vcpu b g) bs g.

(** The blocks of one function activation, nested activations included, up to its
    return. *)
Inductive activation : list BlockCost → Prop :=
| activation_return r : flow r = Return → activation [r]
| activation_normal b bs : flow b = Normal → activation bs → activation (b :: bs)
| activation_call b callee bs :
    flow b = Call → activation callee → activation bs → activation (b :: callee ++ bs).

(** The call stack of [vcpu] once its next block is reached. *)
Definition next_stack (g : DynamicCfg) (v : nat) : option (list Z) :=
  match last_blocks g !! v, call_stacks g !! v with
  | Some (Some (_, Normal)), Some st => Some st
  | Some (Some (p, Call)), Some st => Some (vec_push st p)
  | Some (Some (_, Return)), Some st => Some (vec_pop st).2
  | _, _ => None
  end.

Lemma record_block_stack v c g st :
  next_stack g v = Some st →
  call_stacks (record_block v c g) !! v = Some st ∧
  last_blocks (record_block v c g) !! v = Some (Some (vaddr c, flow c)).
Proof.
  unfold next_stack. intros H.
  destruct (last_blocks g !! v) as [[[p f]|]|] eqn:Hlast; [|done..].
  destruct (call_stacks g !! v) as [st0|] eqn:Hst; [|by destruct f].
  pose proof (lookup_lt_Some _ _ _ Hlast). pose proof (lookup_lt_Some _ _ _ Hst).
  unfold record_block. assert (grow v g = g) as ->.
  { unfold grow. rewrite !vec_grow_id by lia. by destruct g. }
  simpl. rewrite follow_last, list_lookup_insert_eq by done. split; [|done].
  unfold follow. rewrite Hlast. destruct f; injection H as <-; simpl.
  - done.
  - rewrite Hst. by apply list_lookup_insert_eq.
  - rewrite Hst. simpl. destruct (vec_pop st0) as [[caller|] rest] eqn:Hpop; simpl.
    + by apply list_lookup_insert_eq.
    + unfold vec_pop in Hpop. rewrite Hst. case_match; congruence.
Qed.

Lemma activation_stack v bs : activation bs → ∀ g st,
  next_stack g v = Some st →
  ∃ p, last_blocks (run_blocks v bs g) !! v = Some (Some (p, Return)) ∧
       call_stacks (run_blocks v bs g) !! v = Some st.
Proof.
  induction 1 as [r Hr|b bs Hb _ IH|b callee bs Hb _ IH1 _ IH2]; intros g st Hst;
    unfold run_blocks; cbn [fold_left].
  - destruct (record_block_stack v r g st Hst) as [? ->]. rewrite Hr. eauto.
  - destruct (record_block_stack v b g st Hst) as [H1 H2]. apply IH.
    unfold next_stack. by rewrite H1, H2, Hb.
  - destruct (record_block_stack v b g st Hst) as [H1 H2].
    rewrite fold_left_app.
    destruct (IH1 (record_block v b g) (vec_push st (vaddr b))) as (p & H3 & H4).
    { unfold next_stack. by rewrite H1, H2, Hb. }
    apply IH2. unfold next_stack, run_blocks in *. rewrite H3, H4. by rewrite vec_pop_push.
Qed.

(** ** Executions per thread *)

Fixpoint thread_sum (ts : list (Z * Z)) : Z :=
  match ts with [] => 0 | (_, e) :: ts => e + thread_sum ts end.

(** The thread entries are distinct and add up to the executions, saturated. *)
Definition threads_ok (b : DynamicBlockCounts) : Prop :=
  NoDup (threads b).*1 ∧ Forall (λ te, 0 ≤ te.2) (threads b) ∧
  executions b = Z.min (thread_sum (threads b)) u64_max.

Lemma add_thread_fst t n ts : (add_thread t n ts).*1 = if decide (t ∈ ts.*1) then ts.*1 else ts.*1 ++ [t].
Proof.
  induction ts as [|[c e] ts IH]; csimpl; [done|].
  destruct (Z.eqb_spec c t) as [->|Hne]; csimpl.
  - rewrite decide_True by left. done.
  - rewrite IH. destruct (decide (t ∈ ts.*1)); [rewrite decide_True by (by right)|rewrite decide_False]; [done| |set_solver].
    done.
Qed.

Lemma add_thread_sum t n ts :
  0 ≤ n ≤ u64_max → Forall (λ te : Z * Z, 0 ≤ te.2) ts →
  Forall (λ te : Z * Z, 0 ≤ te.2) (add_thread t n ts) ∧
  Z.min (thread_sum (add_thread t n ts)) u64_max = Z.min (thread_sum ts + n) u64_max.
Proof.
  intros Hn Hts.
  assert (Hpos : ∀ l, Forall (λ te : Z * Z, 0 ≤ te.2) l → 0 ≤ thread_sum l).
  { induction 1 as [|[? ?] ? ? _ ?]; simpl in *; lia. }
  induction Hts as [|[c e] ts He Hts IH]; simpl.
  - split; [constructor; [simpl; lia|constructor]|]. lia.
  - destruct IH as [IH1 IH2]. pose proof (Hpos _ Hts). simpl in He.
    case_match; simpl; (split; [constructor; simpl; [word_lia|done]|]); [word_lia|].
    pose proof (Hpos _ IH1). lia.
Qed.

Lemma threads_ok_count t n b b' :
  0 ≤ n ≤ u64_max → threads_ok b →
  threads b' = add_thread t n (threads b) → executions b' = saturating_add (executions b) n →
  threads_ok b'.
Proof.
  intros Hn (HN & HF & He) Ht Hx. destruct (add_thread_sum t n _ Hn HF) as [HF' Hs].
  unfold threads_ok. rewrite Ht, Hx, He. split_and!; [|done|word_lia].
  rewrite add_thread_fst. case_decide; [done|]. apply NoDup_app. split_and!; [done| |apply NoDup_singleton].
  set_solver.
Qed.

(** The operations that carry a thread identity, and the attributions. *)
Inductive traced : DynamicCfg → Prop :=
| traced_new : traced new
| traced_block v c g : traced g → traced (record_block v c g)
| traced_repeats v c n g : 0 ≤ n ≤ u64_max → traced g → traced (record_repeats v c n g)
| traced_memory a al as_ dl ds g : traced g → traced (attribute_memory a al as_ dl ds g)
| traced_unclassified a g : traced g → traced (attribute_unclassified a g)
| traced_vector a k n g : traced g → traced (attribute_vector a k n g).

Lemma with_block_threads a f g :
  (∀ b, threads_ok b → threads_ok (f b)) →
  map_Forall (λ _, threads_ok) (blocks g) → map_Forall (λ _, threads_ok) (blocks (with_block a f g)).
Proof.
  intros Hf Hg. simpl. apply map_Forall_insert_2; [|done]. apply Hf.
  destruct (blocks g !! a) as [b|] eqn:E; simpl; [by apply (Hg a)|].
  split_and!; [constructor|constructor|done].
Qed.

Lemma traced_threads g : traced g → map_Forall (λ _, threads_ok) (blocks g).
Proof.
  induction 1 as [|v c g _ IH|v c n g Hn _ IH| | |a k n g _ IH].
  - apply map_Forall_empty.
  - unfold record_block. apply with_block_threads; [|simpl; by rewrite follow_blocks].
    intros b Hb. unfold execute, merge_end. simpl.
    repeat case_match; (eapply (threads_ok_count (as_u32 (Z.of_nat v)) 1); [word_lia|exact Hb|done..]).
  - unfold record_repeats. case_match; [done|]. apply with_block_threads; [|done].
    intros b Hb. by eapply (threads_ok_count (as_u32 (Z.of_nat v)) n).
  - by apply with_block_threads.
  - by apply with_block_threads.
  - destruct k; by apply with_block_threads.
Qed.

End Cfg.

Import Cfg.

(** ** Properties *)

(** [record_repeats] with count [n] after [record_block] of a fall-through block is
    exactly [n] more calls of [record_block] on the same virtual CPU, as its comment
    promises: same edges, same executions per thread and same saturating counters. *)
Theorem record_repeats_is_iterated v c n g :
  flow c = Normal → cost_ok c → cfg_ok g → Z.of_nat n ≤ u64_max →
  record_repeats v c (Z.of_nat n) (record_block v c g) = Nat.iter (S n) (record_block v c) g.
Proof.
  intros Hf Hc Hg Hn. rewrite record_repeats_just_ran_iter.
  - by rewrite Nat.iter_succ_r.
  - done.
  - by apply record_block_ok.
  - by apply record_block_just_ran.
  - done.
Qed.

Definition sample_cost (a : Z) (f : FlowKind) : BlockCost := mkCost a (a + 16) f 2 0 1 0 0 8 5.

Lemma sample_cost_ok a f : in_u64 a → in_u64 (a + 16) → cost_ok (sample_cost a f).
Proof. intros H1 H2. split; simpl; try done; word_lia. Qed.

Lemma new_cfg_ok : cfg_ok Cfg.new.
Proof. split; apply map_Forall_empty. Qed.

Lemma record_repeats_is_iterated_witness :
  flow (sample_cost 256 Normal) = Normal ∧
  record_repeats 1 (sample_cost 256 Normal) 9 (record_block 1 (sample_cost 256 Normal) Cfg.new) =
  Nat.iter 10 (record_block 1 (sample_cost 256 Normal)) Cfg.new.
Proof.
  split; [reflexivity|].
  apply (record_repeats_is_iterated 1 (sample_cost 256 Normal) 9 Cfg.new);
    [reflexivity|apply sample_cost_ok; word_lia|apply new_cfg_ok|vm_compute; congruence].
Defined.

(** A call is summarised as one intraprocedural edge.  When a call block [a] ran last
    on [v] with call stack [st], then a whole activation of the callee (nested calls and
    returns included) followed by the continuation [k] leaves the call stack at [st] and
    adds exactly one to the edge from [a] to [k]; no edge leaves the returning block. *)
Theorem call_returns_to_continuation v a st g bs k :
  last_blocks g !! v = Some (Some (a, Call)) → call_stacks g !! v = Some st → activation bs →
  let h := run_blocks v bs g in
  call_stacks (record_block v k h) !! v = Some st ∧
  edges (record_block v k h) =
    <[(a, vaddr k) := wrapping_add (default 0 (edges h !! (a, vaddr k))) 1]> (edges h).
Proof.
  intros Hl Hs Hbs h.
  destruct (activation_stack v bs Hbs g (vec_push st a)) as (p & H1 & H2).
  { unfold next_stack. by rewrite Hl, Hs. }
  fold h in H1, H2. split.
  - apply (record_block_stack v k h). unfold next_stack. rewrite H1, H2. by rewrite vec_pop_push.
  - unfold record_block. assert (grow v h = h) as ->.
    { pose proof (lookup_lt_Some _ _ _ H1). pose proof (lookup_lt_Some _ _ _ H2).
      unfold grow. rewrite !vec_grow_id by lia. by destruct h. }
    simpl. unfold follow. rewrite H1, H2. simpl. by rewrite vec_pop_push.
Qed.

Lemma call_returns_to_continuation_witness :
  let g := record_block 0 (sample_cost 256 Call) Cfg.new in
  let bs := [sample_cost 512 Call; sample_cost 768 Return; sample_cost 520 Return] in
  let k := sample_cost 272 Normal in
  call_stacks (record_block 0 k (run_blocks 0 bs g)) !! 0%nat = Some [] ∧
  edges (record_block 0 k (run_blocks 0 bs g)) !! (256, 272) = Some 1.
Proof.
  intros g bs k.
  destruct (call_returns_to_continuation 0 256 [] g bs k) as [H1 H2]; [reflexivity..| |].
  - apply (activation_call _ [sample_cost 768 Return] [sample_cost 520 Return]);
      [reflexivity|by constructor|by constructor].
  - split; [exact H1|]. rewrite H2. vm_compute. reflexivity.
Defined.

(** In every graph built from block executions, repeats and attributions, each block
    lists a thread at most once and its execution count is the saturated sum of the
    executions of its threads. *)
Theorem executions_are_thread_sum g a b :
  traced g → blocks g !! a = Some b →
  NoDup (threads b).*1 ∧ executions b = Z.min (thread_sum (threads b)) u64_max.
Proof. intros Hg Hb. by destruct (traced_threads g Hg a b Hb) as (? & _ & ?). Qed.

Lemma executions_are_thread_sum_witness :
  let c := sample_cost 256 Normal in
  let g := record_block 0 c (record_repeats 1 c 9 (record_block 1 c (record_block 0 c Cfg.new))) in
  ∃ b, blocks g !! 256 = Some b ∧ executions b = 12 ∧ threads b = [(0, 2); (1, 10)] ∧
    NoDup (threads b).*1.
Proof.
  intros c g. destruct (blocks g !! 256) as [b|] eqn:Hb; [|vm_compute in Hb; discriminate].
  destruct (executions_are_thread_sum g 256 b) as [HN _]; [|done|].
  - repeat constructor; vm_compute; congruence.
  - exists b. split; [done|]. vm_compute in Hb. injection Hb as <-. split_and!; done.
Defined.
