(* ===== verification/OrderTree.v ===== *)
(** * The order-statistic treap

    Models the tree of [utils/roofline-core/src/memory.rs] that holds one node per
    live cache line, keyed by the time of its last reference.  A node knows the size
    of its subtree, so that removing a key also tells how many keys are newer.

    The tree is specified by its in-order key list [keys]: [split] cuts it, [merge]
    concatenates, [insert] and [remove_and_retain] are insertion into and removal
    from the sorted list, and [remove_and_retain] counts the keys above. *)

From S2P Require Import Prelude Words.
Open Scope Z_scope.

Module OrderTree.

(** ** Data: [Option<Box<OrderNode>>] *)
Inductive tree : Type :=
| TNone
| TSome (key priority size : Z) (left right : tree).

#[export] Instance tree_eq_dec : EqDecision tree.
Proof. solve_decision. Defined.

(** ** Operations *)

Definition node_size (t : tree) : Z :=
  match t with TNone => 0 | TSome _ _ s _ _ => s end.

Definition refresh (t : tree) : tree :=
  match t with
  | TNone => TNone
  | TSome k p _ l r => TSome k p (1 + node_size l + node_size r) l r
  end.

Fixpoint split (root : tree) (key : Z) : tree * tree :=
  match root with
  | TNone => (TNone, TNone)
  | TSome k p s l r =>
      if k <? key then
        let '(lo, hi) := split r key in (refresh (TSome k p s l lo), hi)
      else
        let '(lo, hi) := split l key in (lo, refresh (TSome k p s hi r))
  end.

Fixpoint merge (lo : tree) : tree → tree :=
  fix merge_left (hi : tree) : tree :=
    match lo, hi with
    | TNone, _ => hi
    | _, TNone => lo
    | TSome lk lp ls ll lr, TSome rk rp rs rl rr =>
        if rp <=? lp then refresh (TSome lk lp ls ll (merge lr hi))
        else refresh (TSome rk rp rs (merge_left rl) rr)
    end.

Definition insert (root node : tree) : tree :=
  match node with
  | TNone => root
  | TSome key _ _ _ _ =>
      let '(lo, hi) := split root key in merge (merge lo node) hi
  end.

(** The tree without [key], the removed node and the number of newer keys. *)
Fixpoint remove_and_retain (root : tree) (key : Z) : tree * tree * Z :=
  match root with
  | TNone => (TNone, TNone, 0)
  | TSome k p s l r =>
      if k =? key then (merge l r, TSome k p 1 TNone TNone, node_size r)
      else if key <? k then
        let '(l', found, below) := remove_and_retain l key in
        (refresh (TSome k p s l' r), found,
         saturating_add (saturating_add below 1) (node_size r))
      else
        let '(r', found, below) := remove_and_retain r key in
        (refresh (TSome k p s l r'), found, below)
  end.

(** The splitmix64 finaliser that spreads consecutive keys. *)
Definition priority (key : Z) : Z :=
  let value := wrapping_add key 0x9e3779b97f4a7c15 in
  let value := wrapping_mul (Z.lxor value (Z.shiftr value 30)) 0xbf58476d1ce4e5b9 in
  let value := wrapping_mul (Z.lxor value (Z.shiftr value 27)) 0x94d049bb133111eb in
  Z.lxor value (Z.shiftr value 31).

(** A node on its own, as [access] prepares it. *)
Definition leaf_node (key : Z) : tree := TSome key (priority key) 1 TNone TNone.

(** ** Specification *)

Fixpoint keys (t : tree) : list Z :=
  match t with TNone => [] | TSome k _ _ l r => keys l ++ k :: keys r end.

Fixpoint sizes_ok (t : tree) : Prop :=
  match t with
  | TNone => True
  | TSome _ _ s l r => s = 1 + node_size l + node_size r ∧ sizes_ok l ∧ sizes_ok r
  end.

Definition bst (t : tree) : Prop := StronglySorted Z.lt (keys t).

(** Priorities do not increase from the root down. *)
Definition below (p : Z) (t : tree) : Prop :=
  match t with TNone => True | TSome _ q _ _ _ => q ≤ p end.
Fixpoint heap (t : tree) : Prop :=
  match t with
  | TNone => True
  | TSome _ p _ l r => below p l ∧ below p r ∧ heap l ∧ heap r
  end.

Record treap_ok (t : tree) : Prop := {
  treap_sizes : sizes_ok t; treap_bst : bst t; treap_heap : heap t
}.

(** Keys above [k]. *)
Definition greater (k : Z) (l : list Z) : list Z := List.filter (λ x, k <? x) l.
Definition without (k : Z) (l : list Z) : list Z := List.filter (λ x, negb (x =? k)) l.

(** ** Lemmas *)

Lemma node_size_keys t : sizes_ok t → node_size t = Z.of_nat (length (keys t)).
Proof.
  induction t as [|k p s l IHl r IHr]; simpl; [done|]. intros (-> & Hl & Hr).
  rewrite length_app, IHl, IHr by done. simpl. lia.
Qed.

Lemma refresh_keys t : keys (refresh t) = keys t.
Proof. by destruct t. Qed.

Lemma refresh_sizes k p s l r : sizes_ok l → sizes_ok r → sizes_ok (refresh (TSome k p s l r)).
Proof. simpl. auto. Qed.

Lemma merge_TNone_r t : merge t TNone = t.
Proof. by destruct t. Qed.

Lemma merge_TNone_l t : merge TNone t = t.
Proof. by destruct t. Qed.

Lemma merge_keys l r : keys (merge l r) = keys l ++ keys r.
Proof.
  revert r; induction l as [|lk lp ls ll IHll lr IHlr]; intros r; [by rewrite merge_TNone_l|].
  induction r as [|rk rp rs rl IHrl rr IHrr]; [by rewrite merge_TNone_r, app_nil_r|].
  cbn [merge]. case_match; rewrite refresh_keys; cbn [keys].
  - rewrite IHlr. cbn [keys]. by rewrite <-!app_assoc.
  - change ((fix merge_left (hi : tree) : tree := _) rl) with (merge (TSome lk lp ls ll lr) rl).
    rewrite IHrl. cbn [keys]. by rewrite <-!app_assoc.
Qed.

Lemma merge_sizes l r : sizes_ok l → sizes_ok r → sizes_ok (merge l r).
Proof.
  revert r; induction l as [|lk lp ls ll IHll lr IHlr]; intros r Hl Hr; [by rewrite merge_TNone_l|].
  induction r as [|rk rp rs rl IHrl rr IHrr]; [done|].
  cbn [merge]. pose proof Hl as (_ & Hll & Hlr). pose proof Hr as (_ & Hrl & Hrr).
  case_match; apply refresh_sizes; [done|by apply IHlr|by apply IHrl|done].
Qed.

Lemma below_merge p l r : below p l → below p r → below p (merge l r).
Proof. destruct l, r; cbn [merge]; try done. by case_match. Qed.

Lemma merge_heap l r : heap l → heap r → heap (merge l r).
Proof.
  revert r; induction l as [|lk lp ls ll IHll lr IHlr]; intros r Hl Hr; [by rewrite merge_TNone_l|].
  induction r as [|rk rp rs rl IHrl rr IHrr]; [done|].
  cbn [merge]. pose proof Hl as (? & ? & ? & ?). pose proof Hr as (? & ? & ? & ?).
  case_match eqn:E; simpl.
  - apply Z.leb_le in E. split_and!; [done|by apply below_merge|done|by apply IHlr].
  - apply Z.leb_gt in E.
    change ((fix merge_left (hi : tree) : tree := _) rl) with (merge (TSome lk lp ls ll lr) rl).
    split_and!; [|done|by apply IHrl|done]. apply below_merge; [simpl; lia|done].
Qed.

Lemma StronglySorted_app_iff (l1 l2 : list Z) :
  StronglySorted Z.lt (l1 ++ l2) ↔
  StronglySorted Z.lt l1 ∧ StronglySorted Z.lt l2 ∧ ∀ x y, x ∈ l1 → y ∈ l2 → x < y.
Proof.
  induction l1 as [|z l1 IH]; simpl.
  - split; [intros; split_and!; [constructor|done|set_solver]|by intros (_ & ? & _)].
  - split.
    + intros H. inversion_clear H as [|? ? HS HF]. apply IH in HS as (H1 & H2 & H3).
      rewrite Forall_app in HF. destruct HF as [HF1 HF2]. rewrite Forall_forall in HF2.
      split_and!; [by constructor|done|]. intros x y [->|Hx]%elem_of_cons; auto.
    + intros (H1 & H2 & H3). inversion_clear H1 as [|? ? HS HF].
      constructor; [apply IH; split_and!; [done..|]; intros; apply H3; [by right|done]|].
      rewrite Forall_app. split; [done|]. apply Forall_forall. intros y Hy. apply H3; [left|done].
Qed.

Lemma bst_node k p s l r :
  bst (TSome k p s l r) ↔
  bst l ∧ bst r ∧ (∀ x, x ∈ keys l → x < k) ∧ (∀ x, x ∈ keys r → k < x).
Proof.
  unfold bst. cbn [keys]. rewrite StronglySorted_app_iff. split.
  - intros (H1 & H2 & H3). inversion_clear H2 as [|? ? HS HF]. rewrite Forall_forall in HF.
    split_and!; [done..| |done]. intros x Hx. apply H3; [done|left].
  - intros (H1 & H2 & H3 & H4). split_and!; [done|constructor; [done|by apply Forall_forall]|].
    intros x y Hx [->|Hy]%elem_of_cons; [auto|]. apply H3 in Hx. apply H4 in Hy. lia.
Qed.

(** [split] cuts the key list at [key]. *)
Lemma split_spec t key lo hi :
  split t key = (lo, hi) →
  keys t = keys lo ++ keys hi ∧ (sizes_ok t → sizes_ok lo ∧ sizes_ok hi) ∧
  (∀ p, below p t → heap t → below p lo ∧ below p hi) ∧ (heap t → heap lo ∧ heap hi) ∧
  (bst t → (∀ x, x ∈ keys lo → x < key) ∧ (∀ x, x ∈ keys hi → key ≤ x)).
Proof.
  revert lo hi; induction t as [|k p s l IHl r IHr]; intros lo hi; simpl.
  { intros [= <- <-]. simpl. split_and!; try done. split; set_solver. }
  destruct (k <? key) eqn:Hk.
  - destruct (split r key) as [lo' hi']. intros [= <- <-].
    destruct (IHr lo' hi' eq_refl) as (Hkeys & Hsz & Hb & Hh & Hbst). apply Z.ltb_lt in Hk.
    split_and!.
    + rewrite Hkeys. simpl. by rewrite <-app_assoc.
    + intros (_ & ? & [? ?]%Hsz). simpl. auto.
    + intros q Hq (H1 & H2 & H3 & H4). split; [done|]. simpl in Hq.
      apply (Hb q); [destruct r; simpl in *; [done|lia]|done].
    + intros (H1 & H2 & H3 & H4). destruct (Hh H4). simpl. destruct (Hb p H2 H4). auto.
    + intros (_ & Hr & Hl & _)%bst_node. destruct (Hbst Hr) as [Hlo Hhi]. split; [|done].
      simpl. intros x. rewrite elem_of_app, elem_of_cons.
      intros [Hx|[->|Hx]]; [apply Hl in Hx; lia|done|auto].
  - destruct (split l key) as [lo' hi']. intros [= <- <-].
    destruct (IHl lo' hi' eq_refl) as (Hkeys & Hsz & Hb & Hh & Hbst). apply Z.ltb_ge in Hk.
    split_and!.
    + rewrite Hkeys. simpl. by rewrite <-app_assoc.
    + intros (_ & [? ?]%Hsz & ?). simpl. auto.
    + intros q Hq (H1 & H2 & H3 & H4). split; [|done]. simpl in Hq.
      apply (Hb q); [destruct l; simpl in *; [done|lia]|done].
    + intros (H1 & H2 & H3 & H4). destruct (Hh H3). simpl. destruct (Hb p H1 H3). auto.
    + intros (Hl & _ & _ & Hr)%bst_node. destruct (Hbst Hl) as [Hlo Hhi]. split; [done|].
      simpl. intros x. rewrite elem_of_app, elem_of_cons.
      intros [Hx|[->|Hx]]; [auto|done|apply Hr in Hx; lia].
Qed.

Lemma insert_spec t k :
  treap_ok t → k ∉ keys t →
  treap_ok (insert t (leaf_node k)) ∧
  ∃ l1 l2, keys t = l1 ++ l2 ∧ keys (insert t (leaf_node k)) = l1 ++ k :: l2 ∧
    (∀ x, x ∈ l1 → x < k) ∧ (∀ x, x ∈ l2 → k < x).
Proof.
  intros [Hs Hb Hh] Hk. unfold insert, leaf_node. destruct (split t k) as [lo hi] eqn:E.
  apply split_spec in E as (Hkeys & Hsz & _ & Hheap & Hbst).
  destruct (Hsz Hs), (Hheap Hh), (Hbst Hb) as [Hlo Hhi].
  assert (Hhi' : ∀ x, x ∈ keys hi → k < x).
  { intros x Hx. pose proof (Hhi x Hx). assert (x ≠ k); [|lia].
    intros ->. apply Hk. rewrite Hkeys. set_solver. }
  assert (Hins : keys (merge (merge lo (TSome k (priority k) 1 TNone TNone)) hi) = keys lo ++ k :: keys hi).
  { rewrite !merge_keys. simpl. by rewrite <-app_assoc. }
  split; [split|].
  - apply merge_sizes; [|done]. apply merge_sizes; [done|]. simpl. split_and!; [lia|done..].
  - unfold bst in *. rewrite Hins. rewrite Hkeys, StronglySorted_app_iff in Hb.
    destruct Hb as (H1' & H2' & H3'). apply StronglySorted_app_iff. split_and!; [done| |].
    + constructor; [done|]. by apply Forall_forall.
    + intros x y Hx [->|Hy]%elem_of_cons; auto.
  - apply merge_heap; [|done]. by apply merge_heap.
  - exists (keys lo), (keys hi). auto.
Qed.

Lemma without_fresh k l : k ∉ l → without k l = l.
Proof.
  intros H. apply filter_all. intros x Hx. apply negb_true_iff, Z.eqb_neq. by intros ->.
Qed.

Lemma greater_all k l : (∀ x, x ∈ l → k < x) → greater k l = l.
Proof. intros H. apply filter_all. intros x Hx. apply Z.ltb_lt. auto. Qed.

Lemma greater_none k l : (∀ x, x ∈ l → x ≤ k) → greater k l = [].
Proof. intros H. apply filter_none. intros x Hx. apply Z.ltb_ge. auto. Qed.

Lemma treap_node k p s l r : treap_ok (TSome k p s l r) → treap_ok l ∧ treap_ok r.
Proof. by intros [(? & ? & ?) (? & ? & _)%bst_node (? & ? & ? & ?)]. Qed.

Lemma below_le p q t : below p t → p ≤ q → below q t.
Proof. destruct t; simpl; [done|lia]. Qed.

Lemma elem_of_without k l x : x ∈ without k l → x ∈ l.
Proof. unfold without. rewrite !list_elem_of_In, List.filter_In. by intros [??]. Qed.

(** The keys of a node [l ++ r :: rt] around its root [r], without [k] and above [k]. *)
Section node_keys.
Context (k r : Z) (l rt : list Z).
Context (Hl : ∀ x, x ∈ l → x < r) (Hr : ∀ x, x ∈ rt → r < x).

Lemma without_root : k = r → without k (l ++ r :: rt) = l ++ rt.
Proof.
  intros ->. unfold without. rewrite List.filter_app. simpl. rewrite Z.eqb_refl. simpl.
  fold (without r l) (without r rt).
  rewrite !without_fresh; [done|intros H%Hr; lia|intros H%Hl; lia].
Qed.

Lemma without_left : k < r → without k (l ++ r :: rt) = without k l ++ r :: rt.
Proof.
  intros Hk. unfold without. rewrite List.filter_app. simpl.
  rewrite (proj2 (Z.eqb_neq r k)) by lia. simpl. do 2 f_equal.
  apply without_fresh. intros H%Hr. lia.
Qed.

Lemma without_right : r < k → without k (l ++ r :: rt) = l ++ r :: without k rt.
Proof.
  intros Hk. unfold without. rewrite List.filter_app. simpl.
  rewrite (proj2 (Z.eqb_neq r k)) by lia. simpl. f_equal.
  apply without_fresh. intros H%Hl. lia.
Qed.

Lemma greater_root : k = r → greater k (l ++ r :: rt) = rt.
Proof.
  intros ->. unfold greater. rewrite List.filter_app. simpl. rewrite Z.ltb_irrefl.
  fold (greater r l) (greater r rt).
  by rewrite greater_none, greater_all; [|auto|intros x Hx%Hl; lia].
Qed.

Lemma greater_left : k < r → greater k (l ++ r :: rt) = greater k l ++ r :: rt.
Proof.
  intros Hk. unfold greater. rewrite List.filter_app. simpl. rewrite (proj2 (Z.ltb_lt _ _) Hk).
  do 2 f_equal. apply greater_all. intros x Hx%Hr. lia.
Qed.

Lemma greater_right : r < k → greater k (l ++ r :: rt) = greater k rt.
Proof.
  intros Hk. unfold greater. rewrite List.filter_app. simpl. rewrite (proj2 (Z.ltb_ge k r)) by lia.
  fold (greater k l) (greater k rt). by rewrite (greater_none k l) by (intros x Hx%Hl; lia).
Qed.
End node_keys.

(** What removing [k] from [t] gives: the keys without [k], the retained node, and
    the rank of [k] from above. *)
Record removed (k : Z) (t t' found : tree) (n : Z) : Prop := {
  removed_ok : treap_ok t';
  removed_below : ∀ p, below p t → below p t';
  removed_keys : keys t' = without k (keys t);
  removed_rank : n = Z.of_nat (length (greater k (keys t)));
  removed_in : k ∈ keys t → ∃ p, found = TSome k p 1 TNone TNone;
  removed_out : k ∉ keys t → found = TNone
}.

Section remove_node.
Context (k r p s : Z) (l rt : tree).
Context (Hok : treap_ok (TSome r p s l rt)).
Context (Hlen : Z.of_nat (length (keys l ++ r :: keys rt)) ≤ u64_max).

Lemma remove_root :
  k = r → removed k (TSome r p s l rt) (merge l rt) (TSome r p 1 TNone TNone) (node_size rt).
Proof.
  destruct Hok as [(Hs & Hsl & Hsr) (Hbl & Hbr & Hlt & Hgt)%bst_node (Hp1 & Hp2 & Hhl & Hhr)].
  intros ->. split.
  - split; [by apply merge_sizes| |by apply merge_heap].
    unfold bst. rewrite merge_keys. apply StronglySorted_app_iff. split_and!; [done..|].
    intros x y Hx Hy. apply Hlt in Hx. apply Hgt in Hy. lia.
  - intros q Hq. simpl in Hq. apply below_merge; eapply below_le; eauto.
  - simpl. by rewrite merge_keys, without_root.
  - simpl. rewrite greater_root by done. by apply node_size_keys.
  - eauto.
  - intros []. apply elem_of_app. right. left.
Qed.

Lemma remove_left l' found n :
  k < r → removed k l l' found n →
  removed k (TSome r p s l rt) (refresh (TSome r p s l' rt)) found
    (saturating_add (saturating_add n 1) (node_size rt)).
Proof.
  destruct Hok as [(Hs & Hsl & Hsr) (Hbl & Hbr & Hlt & Hgt)%bst_node (Hp1 & Hp2 & Hhl & Hhr)].
  intros Hk [[Hs' Hb' Hh'] Hbel Hkeys Hn Hin Hout].
  assert (Hnr : k ∉ keys rt) by (intros H%Hgt; lia). split; simpl.
  - split; [by apply refresh_sizes| |simpl; auto]. apply bst_node. split_and!; [done..| |done].
    intros x. rewrite Hkeys. intros Hx%elem_of_without. auto.
  - done.
  - by rewrite without_left, Hkeys.
  - rewrite greater_left, Hn, (node_size_keys rt), length_app by done. simpl.
    rewrite length_app in Hlen. simpl in Hlen.
    pose proof (List.filter_length_le (λ x, k <? x) (keys l)). unfold greater. word_lia.
  - rewrite elem_of_app, elem_of_cons. intros [H|[->|H]]; [auto|lia|done].
  - intros H. apply Hout. set_solver.
Qed.

Lemma remove_right r' found n :
  r < k → removed k rt r' found n →
  removed k (TSome r p s l rt) (refresh (TSome r p s l r')) found n.
Proof.
  destruct Hok as [(Hs & Hsl & Hsr) (Hbl & Hbr & Hlt & Hgt)%bst_node (Hp1 & Hp2 & Hhl & Hhr)].
  intros Hk [[Hs' Hb' Hh'] Hbel Hkeys Hn Hin Hout].
  assert (Hnl : k ∉ keys l) by (intros H%Hlt; lia). split; simpl.
  - split; [by apply refresh_sizes| |simpl; auto]. apply bst_node. split_and!; [done..|].
    intros x. rewrite Hkeys. intros Hx%elem_of_without. auto.
  - done.
  - by rewrite without_right, Hkeys.
  - by rewrite greater_right.
  - rewrite elem_of_app, elem_of_cons. intros [H|[->|H]]; [done|lia|auto].
  - intros H. apply Hout. set_solver.
Qed.
End remove_node.

Lemma remove_spec t k t' found n :
  remove_and_retain t k = (t', found, n) → treap_ok t →
  Z.of_nat (length (keys t)) ≤ u64_max → removed k t t' found n.
Proof.
  revert t' found n; induction t as [|r p s l IHl rt IHr]; intros t' found n; cbn [remove_and_retain keys].
  { intros [= <- <- <-] H _. split; try done. set_solver. }
  intros Hrem Hok Hlen.
  destruct (treap_node _ _ _ _ _ Hok) as [Hokl Hokr].
  pose proof Hlen as Hlen'. rewrite length_app in Hlen'. simpl in Hlen'.
  destruct (Z.eqb_spec r k) as [->|Hne]; [injection Hrem as <- <- <-; by apply remove_root|].
  destruct (Z.ltb_spec k r).
  - destruct (remove_and_retain l k) as [[l' f'] n']. injection Hrem as <- <- <-.
    apply remove_left; [done..|]. apply IHl; [done..|lia].
  - destruct (remove_and_retain rt k) as [[r' f'] n']. injection Hrem as <- <- <-.
    apply remove_right; [done|done|lia|]. apply IHr; [done..|lia].
Qed.

End OrderTree.

Import OrderTree.

(** ** Properties *)

(** Removing a key from the order-statistic treap leaves the other keys in order,
    keeps sizes, search order and heap order, hands back the node of the key, and counts
    the keys above it; inserting the next key puts it in its place. *)
Theorem treap_remove_insert t k k' :
  treap_ok t → Z.of_nat (length (keys t)) ≤ u64_max → k ∈ keys t →
  k' ∉ without k (keys t) →
  ∃ t' p, remove_and_retain t k =
      (t', TSome k p 1 TNone TNone, Z.of_nat (length (greater k (keys t)))) ∧
    treap_ok (OrderTree.insert t' (leaf_node k')) ∧
    keys (OrderTree.insert t' (leaf_node k')) ≡ₚ k' :: without k (keys t).
Proof.
  intros Hok Hlen Hk Hk'. destruct (remove_and_retain t k) as [[t' f] n] eqn:E.
  apply remove_spec in E as [Hok' _ Hkeys -> Hin _]; [|done..].
  destruct (Hin Hk) as [p ->]. exists t', p. split; [done|].
  destruct (insert_spec t' k' Hok') as (Hok2 & l1 & l2 & E1 & E2 & _); [by rewrite Hkeys|].
  split; [done|]. rewrite E2, <-Hkeys, E1. by rewrite Permutation_middle.
Qed.

Lemma treap_remove_insert_witness :
  let t := foldr (λ k t, OrderTree.insert t (leaf_node k)) TNone [40; 30; 20; 10] in
  ∃ t' p, remove_and_retain t 20 = (t', TSome 20 p 1 TNone TNone, 2) ∧
    keys (OrderTree.insert t' (leaf_node 50)) ≡ₚ [50; 10; 30; 40].
Proof.
  intros t. assert (Hkeys : keys t = [10; 20; 30; 40]) by (vm_compute; reflexivity).
  assert (Hok : treap_ok t).
  { split; [vm_compute; tauto| |vm_compute; repeat split; congruence].
    unfold bst. rewrite Hkeys. repeat constructor. }
  destruct (treap_remove_insert t 20 50 Hok) as (t' & p & H1 & _ & H3).
  - rewrite Hkeys. vm_compute. congruence.
  - rewrite Hkeys. apply (bool_decide_unpack _). vm_compute. exact I.
  - rewrite Hkeys. apply (bool_decide_unpack _). vm_compute. exact I.
  - rewrite Hkeys in H1, H3. exists t', p. split; [exact H1|exact H3].
Defined.
