(* ===== verification/MemorySpec.v ===== *)
(** * Exactness of the memory analysis

    Module [TraceSpec] defines reuse distances, working-set sizes and reference
    counts from the list of line references of a run (most recent first).  The
    lemmas show that the incremental state of [MemoryAnalysis] carries them:
    times of last reference, the treap of live times, the histogram of distances,
    the open window of every accumulator. *)

From S2P Require Import Prelude Words OrderTree MemoryAnalysis.
Open Scope Z_scope.
Import OrderTree MemoryAnalysis.

Module TraceSpec.

(** The time of the last reference to [l]: references are numbered from one. *)
Fixpoint time_of (past : list Z) (l : Z) : option Z :=
  match past with
  | [] => None
  | x :: past' => if x =? l then Some (Z.of_nat (length past)) else time_of past' l
  end.

(** The references after the last one to [l]. *)
Fixpoint since (past : list Z) (l : Z) : option (list Z) :=
  match past with
  | [] => None
  | x :: past' => if x =? l then Some [] else (x ::.) <$> since past' l
  end.

Definition distinct (refs : list Z) : Z := Z.of_nat (length (remove_dups refs)).

(** The LRU stack distance: distinct lines referenced since the last reference. *)
Definition stack_distance (past : list Z) (l : Z) : option Z := distinct <$> since past l.

(** The histogram of stack distances of a whole run. *)
Fixpoint distance_histogram (past : list Z) : list Z :=
  match past with
  | [] => replicate 65 0
  | l :: past' =>
      match stack_distance past' l with
      | Some d => bump (distance_bucket d) (distance_histogram past')
      | None => distance_histogram past'
      end
  end.

(** *** Times *)

Lemma time_of_Some past l : l ∈ past ↔ is_Some (time_of past l).
Proof.
  induction past as [|x past IH]; simpl; [split; [set_solver|by intros [? ?]]|].
  rewrite elem_of_cons, IH. destruct (Z.eqb_spec x l) as [->|]; [split; eauto|naive_solver].
Qed.

Lemma time_of_None past l : l ∉ past ↔ time_of past l = None.
Proof. rewrite time_of_Some, eq_None_not_Some. done. Qed.

Lemma time_of_range past l k : time_of past l = Some k → 1 ≤ k ≤ Z.of_nat (length past).
Proof.
  induction past as [|x past IH]; simpl; [done|].
  case_match; [intros [= <-]; lia|]. intros ?%IH. lia.
Qed.

Lemma time_of_inj past x y k :
  time_of past x = Some k → time_of past y = Some k → x = y.
Proof.
  induction past as [|z past IH]; simpl; [done|].
  destruct (Z.eqb_spec z x), (Z.eqb_spec z y); intros Hx Hy; [congruence| | |auto].
  - apply time_of_range in Hy. simplify_eq. lia.
  - apply time_of_range in Hx. simplify_eq. lia.
Qed.

Lemma since_time past l s p :
  since past l = Some s → time_of past l = Some p →
  ∀ x, x ∈ s ↔ ∃ k, time_of past x = Some k ∧ p < k.
Proof.
  revert s; induction past as [|z past IH]; simpl; intros s Hs Hp x; [done|].
  destruct (Z.eqb_spec z l) as [->|Hne].
  - simplify_eq. split; [set_solver|]. intros (k & Hk & Hlt). exfalso.
    destruct (Z.eqb_spec l x); [simplify_eq; lia|]. apply time_of_range in Hk. lia.
  - apply fmap_Some in Hs as (s' & Hs' & ->). rewrite elem_of_cons, (IH s' Hs' Hp).
    destruct (Z.eqb_spec z x) as [->|Hzx].
    + split; [|by left]. intros _. eexists; split; [done|]. apply time_of_range in Hp. lia.
    + split; [intros [->|?]; [done|done]|by right].
Qed.

Lemma since_is_Some past l : is_Some (since past l) ↔ l ∈ past.
Proof.
  induction past as [|x past IH]; simpl; [split; [by intros [? ?]|set_solver]|].
  rewrite elem_of_cons, <-IH. destruct (Z.eqb_spec x l) as [->|]; [split; eauto|].
  rewrite fmap_is_Some. naive_solver.
Qed.

(** Distinct lines and distinct times are as many. *)
Lemma count_times past (ks ls : list Z) :
  NoDup ks → (∀ k, k ∈ ks ↔ ∃ l, l ∈ ls ∧ time_of past l = Some k) →
  (∀ l, l ∈ ls → is_Some (time_of past l)) →
  Z.of_nat (length ks) = distinct ls.
Proof.
  intros HN Hks Hls. set (f := λ l, default 0 (time_of past l)). unfold distinct. f_equal.
  rewrite <-(length_fmap f (remove_dups ls)). apply Permutation_length.
  apply NoDup_Permutation; [done| |].
  - apply NoDup_fmap_2_strong; [|apply NoDup_remove_dups].
    intros x y Hx Hy. rewrite elem_of_remove_dups in Hx, Hy.
    destruct (Hls x Hx) as [kx Ex], (Hls y Hy) as [ky Ey]. unfold f. rewrite Ex, Ey. simpl.
    intros ->. by eapply time_of_inj.
  - intros k. rewrite Hks, list_elem_of_fmap. split.
    + intros (l & Hl & Ht). exists l. rewrite elem_of_remove_dups. unfold f. by rewrite Ht.
    + intros (l & -> & Hl). rewrite elem_of_remove_dups in Hl. exists l. split; [done|].
      destruct (Hls l Hl) as [k Hk]. unfold f. by rewrite Hk.
Qed.

Lemma sorted_NoDup (l : list Z) : StronglySorted Z.lt l → NoDup l.
Proof.
  induction 1 as [|x l _ IH HF]; constructor; [|done].
  rewrite Forall_forall in HF. intros Hx. specialize (HF x Hx). lia.
Qed.

(** *** The treap of times *)

Definition tree_times (past : list Z) (t : tree) : Prop :=
  treap_ok t ∧ ∀ k, k ∈ keys t ↔ ∃ l, time_of past l = Some k.

Lemma tree_times_length past t :
  tree_times past t → Z.of_nat (length (keys t)) = distinct past.
Proof.
  intros [[_ Hb _] Hk]. apply (count_times past); [by apply sorted_NoDup| |].
  - intros k. rewrite Hk. split.
    + intros [l Hl]. exists l. split; [|done]. apply time_of_Some. eauto.
    + intros (l & _ & Hl). eauto.
  - intros l Hl. by apply time_of_Some.
Qed.

Lemma length_remove_dups_le (l : list Z) : (length (remove_dups l) ≤ length l)%nat.
Proof. induction l as [|x l IH]; simpl; [lia|]. case_match; simpl; lia. Qed.

(** The number of newer keys is the stack distance. *)
Lemma newer_is_distance past t l p :
  tree_times past t → time_of past l = Some p →
  stack_distance past l = Some (Z.of_nat (length (greater p (keys t)))).
Proof.
  intros [[_ Hb _] Hk] Hp. unfold stack_distance.
  destruct (proj2 (since_is_Some past l)) as [s Hs]; [apply time_of_Some; eauto|].
  rewrite Hs. simpl. f_equal. symmetry. pose proof (since_time past l s p Hs Hp) as Hst.
  assert (Hg : ∀ k, k ∈ greater p (keys t) ↔ k ∈ keys t ∧ p < k).
  { intros k. unfold greater. rewrite !list_elem_of_In, List.filter_In, Z.ltb_lt. done. }
  apply (count_times past).
  - apply sorted_NoDup in Hb. apply NoDup_ListNoDup. apply List.NoDup_filter. by apply NoDup_ListNoDup.
  - intros k. rewrite Hg, Hk. split.
    + intros [[x Hx] Hlt]. exists x. split; [|done]. apply Hst. eauto.
    + intros (x & (k' & Hk' & Hlt)%Hst & Hx). simplify_eq. eauto.
  - intros x (k & Hk' & _)%Hst. eauto.
Qed.

(** Re-keying a line to the present: [rest] holds the times of the other lines. *)
Lemma tree_times_insert past l rest :
  treap_ok rest → (∀ k, k ∈ keys rest ↔ ∃ x, x ≠ l ∧ time_of past x = Some k) →
  tree_times (l :: past) (OrderTree.insert rest (leaf_node (Z.of_nat (S (length past))))).
Proof.
  intros Hok Hk. set (now := Z.of_nat (S (length past))).
  assert (Hfresh : now ∉ keys rest).
  { intros (x & _ & Hx%time_of_range)%Hk. subst now. lia. }
  destruct (insert_spec rest now Hok Hfresh) as (Hok' & l1 & l2 & E1 & E2 & _).
  split; [done|]. intros k. rewrite E2. simpl.
  assert (k ∈ l1 ++ now :: l2 ↔ k = now ∨ k ∈ keys rest) as ->.
  { rewrite E1, !elem_of_app, elem_of_cons. tauto. }
  rewrite Hk. split.
  - intros [->|(x & Hx & Hxk)]; [exists l; by rewrite Z.eqb_refl|].
    exists x. by rewrite (proj2 (Z.eqb_neq l x)).
  - intros [x Hx]. destruct (Z.eqb_spec l x) as [->|]; simplify_eq; eauto.
Qed.

Lemma touch_last_touch o n ls fp : last_touch (touch o n ls fp) = last_touch fp.
Proof. unfold touch. by case_match. Qed.

(** *** Working-set windows *)

(** Working-set sizes of the completed windows, oldest first: every [width]
    references close a window, and the first million windows are kept. *)
Fixpoint window_samples (width : Z) (past : list Z) : list Z :=
  match past with
  | [] => []
  | _ :: past' =>
      let before := window_samples width past' in
      if Z.of_nat (length past) `mod` width =? 0 then
        if Z.of_nat (length before) <? MAX_SAMPLES
        then vec_push before (distinct (take (Z.to_nat width) past)) else before
      else before
  end.

Record window_inv (past : list Z) (w : WindowAccumulator) : Prop := {
  win_width : 0 < width w ≤ u64_max;
  win_refs : w_references w = Z.of_nat (length past) `mod` width w;
  win_unique : unique_lines w = distinct (take (Z.to_nat (w_references w)) past);
  win_start : w_references w ≠ 0 → window_start w = Z.of_nat (length past) - w_references w + 1;
  win_samples : samples w = window_samples (width w) past
}.

Lemma recent_time past l r :
  l ∈ take r past ↔ ∃ k, time_of past l = Some k ∧ Z.of_nat (length past) - Z.of_nat r < k.
Proof.
  revert r; induction past as [|x past IH]; intros r; simpl.
  { rewrite take_nil. split; [set_solver|by intros (? & ? & _)]. }
  destruct r as [|r]; simpl.
  - split; [set_solver|]. intros (k & Hk & Hlt).
    assert (1 ≤ k ≤ Z.of_nat (S (length past))); [|lia].
    apply (time_of_range (x :: past) l). exact Hk.
  - rewrite elem_of_cons, IH. destruct (Z.eqb_spec x l) as [->|Hne].
    + split; [|by left]. intros _. eexists; split; [done|]. lia.
    + split; [intros [->|(k & Hk & ?)]; [done|]|intros (k & Hk & ?); right];
        exists k; (split; [done|lia]).
Qed.

Lemma distinct_cons l refs :
  distinct (l :: refs) = if decide (l ∈ refs) then distinct refs else distinct refs + 1.
Proof.
  unfold distinct. simpl. destruct (decide_rel elem_of l refs) as [H|H].
  - by rewrite decide_True.
  - rewrite decide_False by done. cbn [length]. lia.
Qed.

Lemma distinct_range refs : 0 ≤ distinct refs ≤ Z.of_nat (length refs).
Proof. unfold distinct. pose proof (length_remove_dups_le refs). lia. Qed.

Lemma observe_inv past l w :
  window_inv past w → Z.of_nat (length past) < u64_max →
  window_inv (l :: past)
    (observe (default 0 (time_of past l)) (Z.of_nat (S (length past))) w).
Proof.
  intros [Hw Hr Hu Hs Hsam] HN. set (N := Z.of_nat (length past)) in *.
  set (r := w_references w) in *.
  assert (Hr0 : 0 ≤ r < width w) by (rewrite Hr; apply Z.mod_pos_bound; lia).
  assert (HrN : r ≤ N) by (rewrite Hr; apply Z.mod_le; lia).
  assert (HSN : Z.of_nat (S (length past)) = N + 1) by lia.
  assert (Hstart : (if r =? 0 then N + 1 else window_start w) = N - r + 1).
  { destruct (Z.eqb_spec r 0) as [->|]; [lia|]. by apply Hs. }
  assert (Hnew : (if default 0 (time_of past l) <? N - r + 1
                  then wrapping_add (unique_lines w) 1 else unique_lines w)
                 = distinct (l :: take (Z.to_nat r) past)).
  { rewrite distinct_cons, <-Hu. pose proof (recent_time past l (Z.to_nat r)) as Hrt.
    pose proof (distinct_range (take (Z.to_nat r) past)) as Hd. rewrite length_take in Hd.
    destruct (decide _) as [Hin|Hout].
    - destruct (proj1 Hrt Hin) as (k & -> & Hlt). simpl.
      rewrite (proj2 (Z.ltb_ge _ _)) by lia. done.
    - rewrite (proj2 (Z.ltb_lt _ _)).
      + rewrite <-Hu in Hd. unfold wrapping_add. apply wrap64_small. word_lia.
      + destruct (time_of past l) as [k|] eqn:Hk; simpl; [|lia].
        destruct (Z.lt_ge_cases k (N - r + 1)); [done|]. exfalso. apply Hout, Hrt.
        exists k. split; [done|]. fold N. lia. }
  assert (Hwrap : wrapping_add r 1 = r + 1) by (apply wrap64_small; word_lia).
  unfold observe. fold r. rewrite HSN, Hstart, Hnew, Hwrap. clear Hnew Hstart Hwrap.
  pose proof (Z.div_mod N (width w) ltac:(lia)) as Hdm. rewrite <-Hr in Hdm.
  destruct (Z.eqb_spec (r + 1) (width w)) as [Hfull|Hopen].
  - assert (Hmod : (N + 1) `mod` width w = 0).
    { symmetry. apply (Z.mod_unique_pos _ _ (N / width w + 1)); lia. }
    split; cbn [width w_references unique_lines window_start samples length]; [done| |done|done|].
    + by rewrite HSN.
    + cbn [window_samples length]. rewrite HSN, Hmod. simpl. rewrite <-Hsam.
      replace (Z.to_nat (width w)) with (S (Z.to_nat r)) by lia. done.
  - assert (Hmod : (N + 1) `mod` width w = r + 1).
    { symmetry. apply (Z.mod_unique_pos _ _ (N / width w)); lia. }
    split; cbn [width w_references unique_lines window_start samples length]; [done|..].
    + by rewrite HSN.
    + replace (Z.to_nat (r + 1)) with (S (Z.to_nat r)) by lia. done.
    + rewrite HSN. lia.
    + cbn [window_samples length]. rewrite HSN, Hmod.
      rewrite (proj2 (Z.eqb_neq (r + 1) 0)) by lia. done.
Qed.

(** *** The whole state *)

Record analysis_inv (past : list Z) (a : MemoryAnalysis) : Prop := {
  inv_refs : references a = Z.of_nat (length past);
  inv_touch : ∀ l, last_touch <$> footprints a !! l = time_of past l;
  inv_tree : tree_times past (recency a);
  inv_hist : reuse_distance a = distance_histogram past;
  inv_cold : cold_references a = distinct past;
  inv_windows : Forall (window_inv past) (windows a)
}.

Lemma new_inv ls : analysis_inv [] (MemoryAnalysis.new ls).
Proof.
  split; simpl; try done.
  - split; [split; simpl; [done|constructor|done]|]. simpl. intros k. split; [set_solver|by intros [? ?]].
  - repeat constructor; simpl; try done; rewrite u64_max_val; lia.
Qed.

(** The removal of the line from the treap, and what it adds to the statistics. *)
Lemma reuse_inv past a l :
  analysis_inv past a → Z.of_nat (length past) < u64_max →
  ∃ rest, reuse (default 0 (time_of past l)) a =
      (rest, distance_histogram (l :: past), distinct (l :: past)) ∧
    treap_ok rest ∧ ∀ k, k ∈ keys rest ↔ ∃ x, x ≠ l ∧ time_of past x = Some k.
Proof.
  intros Ha HN. pose proof (inv_tree _ _ Ha) as Ht. pose proof Ht as [Hok Hk].
  pose proof (distinct_range past) as Hd. unfold reuse. rewrite distinct_cons.
  cbn [distance_histogram]. destruct (time_of past l) as [p|] eqn:Hp; simpl.
  - pose proof (time_of_range _ _ _ Hp) as Hpr. rewrite (proj2 (Z.eqb_neq p 0)) by lia. simpl.
    destruct (remove_and_retain (recency a) p) as [[rest found] n] eqn:Hrem.
    apply remove_spec in Hrem as [Hok' _ Hkeys -> _ _]; [|done|].
    2: { rewrite (tree_times_length _ _ Ht). lia. }
    rewrite (newer_is_distance past _ l p Ht Hp), (inv_hist _ _ Ha), (inv_cold _ _ Ha).
    rewrite decide_True by (apply time_of_Some; eauto).
    exists rest. split; [done|]. split; [done|]. intros k. rewrite Hkeys. unfold without.
    rewrite list_elem_of_In, List.filter_In, <-list_elem_of_In, negb_true_iff, Z.eqb_neq, Hk.
    split.
    + intros [[x Hx] Hne]. exists x. split; [|done]. intros ->. congruence.
    + intros (x & Hne & Hx). split; [eauto|]. intros ->. apply Hne. by eapply time_of_inj.
  - assert (Hout : l ∉ past) by (by apply time_of_None). rewrite decide_False by done.
    assert (since past l = None) as Hs.
    { apply eq_None_not_Some. by rewrite since_is_Some. }
    unfold stack_distance. rewrite Hs. simpl.
    rewrite (inv_hist _ _ Ha), (inv_cold _ _ Ha). unfold wrapping_add.
    rewrite wrap64_small by word_lia. exists (recency a). split; [done|]. split; [done|].
    intros k. rewrite Hk. split; [|by intros (x & _ & ?); eauto].
    intros [x Hx]. exists x. split; [|done]. intros ->. congruence.
Qed.

Lemma access_line_inv past a v addr sz l :
  analysis_inv past a → Z.of_nat (length past) < u64_max →
  analysis_inv (l :: past) (access_line v addr sz a l).
Proof.
  intros Ha HN. unfold access_line. rewrite touch_last_touch.
  assert (Hprev : last_touch (default default_footprint (footprints a !! l))
                  = default 0 (time_of past l)).
  { rewrite <-(inv_touch _ _ Ha). by destruct (footprints a !! l). }
  rewrite Hprev. destruct (reuse_inv past a l Ha HN) as (rest & -> & Hok & Hk).
  destruct (stride v l a) as [lst str].
  assert (Hnow : saturating_add (references a) 1 = Z.of_nat (S (length past))).
  { rewrite (inv_refs _ _ Ha). word_lia. }
  rewrite Hnow. split; simpl.
  - done.
  - intros x. rewrite lookup_insert. case_decide as Hx.
    + subst x. by rewrite Z.eqb_refl.
    + rewrite (proj2 (Z.eqb_neq l x)) by done. apply Ha.
  - by apply tree_times_insert.
  - done.
  - done.
  - apply Forall_fmap. eapply Forall_impl; [apply Ha|]. intros w Hw. by apply observe_inv.
Qed.
End TraceSpec.

Import TraceSpec.

(** ** Runs *)

(** One instrumented access: virtual CPU, address, size, direction. *)
Definition op : Type := nat * Z * Z * bool.

Definition apply_op (a : MemoryAnalysis) (o : op) : MemoryAnalysis :=
  let '(v, address, size, store) := o in MemoryAnalysis.access v address size store a.

Definition run (ls : Z) (ops : list op) : MemoryAnalysis :=
  fold_left apply_op ops (MemoryAnalysis.new ls).

(** The line references of a run, most recent first. *)
Definition op_lines (ls : Z) (o : op) : list Z :=
  let '(_, address, size, _) := o in
  if size =? 0 then []
  else seqZ (address / ls)
         (Z.min (address + (size - 1)) u64_max / ls - address / ls + 1).

Definition trace (ls : Z) (ops : list op) : list Z :=
  fold_left (λ past o, rev_append (op_lines ls o) past) ops [].

Lemma access_line_size v addr sz a l : line_size (access_line v addr sz a l) = line_size a.
Proof.
  unfold access_line. destruct (reuse _ _) as [[? ?] ?]. by destruct (stride _ _ _).
Qed.

Lemma fold_access_inv v addr sz lines : ∀ past a,
  analysis_inv past a → Z.of_nat (length (rev_append lines past)) ≤ u64_max →
  let a' := fold_left (access_line v addr sz) lines a in
  analysis_inv (rev_append lines past) a' ∧ line_size a' = line_size a.
Proof.
  induction lines as [|l lines IH]; intros past a Ha Hlen; simpl in *; [done|].
  assert (Z.of_nat (length past) < u64_max).
  { rewrite rev_append_rev, length_app in Hlen. simpl in Hlen. lia. }
  destruct (IH (l :: past) (access_line v addr sz a l)) as [H1 H2];
    [by apply access_line_inv|done|]. split; [done|]. by rewrite H2, access_line_size.
Qed.

Lemma count_bytes_inv past a sz st : analysis_inv past a → analysis_inv past (count_bytes sz st a).
Proof. by intros []. Qed.

Lemma apply_op_inv past a o :
  analysis_inv past a → Z.of_nat (length (rev_append (op_lines (line_size a) o) past)) ≤ u64_max →
  analysis_inv (rev_append (op_lines (line_size a) o) past) (apply_op a o) ∧
  line_size (apply_op a o) = line_size a.
Proof.
  destruct o as [[[v addr] sz] st]. simpl. intros Ha Hlen. unfold access.
  destruct (sz =? 0); [split; [by apply count_bytes_inv|done]|].
  destruct (fold_access_inv v addr sz (accessed_lines (count_bytes sz st a) addr sz) past
              (count_bytes sz st a)) as [H1 H2]; [by apply count_bytes_inv|done|done].
Qed.

Lemma trace_length_mono ls ops past :
  (length past ≤ length (fold_left (λ past o, rev_append (op_lines ls o) past) ops past))%nat.
Proof.
  revert past; induction ops as [|o ops IH]; intros past; simpl; [done|].
  specialize (IH (rev_append (op_lines ls o) past)). rewrite rev_append_rev, length_app in IH at 1. lia.
Qed.

Lemma run_inv ls ops :
  Z.of_nat (length (trace ls ops)) ≤ u64_max → analysis_inv (trace ls ops) (run ls ops).
Proof.
  unfold trace, run. intros Hlen. pose proof (new_inv ls) as Ha.
  assert (Hls : line_size (MemoryAnalysis.new ls) = ls) by done. revert Hlen Ha Hls.
  generalize (MemoryAnalysis.new ls) as a, (@nil Z) as past.
  induction ops as [|o ops IH]; intros a past Hlen Ha Hls; simpl in *; [done|].
  subst ls.
  destruct (apply_op_inv past a o Ha) as [H1 H2].
  { pose proof (trace_length_mono (line_size a) ops (rev_append (op_lines (line_size a) o) past)). lia. }
  by apply IH.
Qed.

(** *** Sums over the histogram *)

Definition total (h : list Z) : Z := foldr Z.add 0 h.

Lemma total_bump i h :
  (Z.to_nat i < length h)%nat → Forall (λ n, 0 ≤ n < u64_max) h → total (bump i h) = total h + 1.
Proof.
  unfold bump. generalize (Z.to_nat i) as k. intros k. revert k.
  induction h as [|n h IH]; intros k Hk HF; simpl in *; [lia|].
  inversion_clear HF as [|? ? Hn HF']. destruct k as [|k].
  - simpl. unfold wrapping_add. rewrite wrap64_small by word_lia. lia.
  - change (n + total (alter (λ n, wrapping_add n 1) k h) = n + total h + 1).
    rewrite IH; [lia|lia|done].
Qed.

Lemma bucket_range d : 0 ≤ d ≤ u64_max → 0 ≤ distance_bucket d ≤ 64.
Proof.
  intros Hd. unfold distance_bucket, leading_zeros. destruct (Z.eqb_spec d 0); [lia|].
  assert (0 ≤ Z.log2 d < 64); [|lia]. split; [apply Z.log2_nonneg|].
  apply Z.log2_lt_pow2; [lia|]. unfold u64_max in Hd. lia.
Qed.

Lemma histogram_total past :
  Z.of_nat (length past) ≤ u64_max →
  length (distance_histogram past) = 65%nat ∧
  Forall (λ n, 0 ≤ n ≤ Z.of_nat (length past)) (distance_histogram past) ∧
  total (distance_histogram past) + distinct past = Z.of_nat (length past).
Proof.
  induction past as [|l past IH]; intros Hlen.
  { split_and!; [done| |done]. by apply Forall_replicate. }
  cbn [distance_histogram length] in *. destruct IH as (H1 & H2 & H3); [lia|].
  rewrite distinct_cons. unfold stack_distance.
  destruct (since past l) as [s|] eqn:Hs; simpl.
  - assert (Hin : l ∈ past) by (apply since_is_Some; eauto). rewrite decide_True by done.
    assert (Hd : 0 ≤ distinct s ≤ u64_max).
    { pose proof (distinct_range s). assert (length s ≤ length past)%nat; [|lia].
      clear -Hs. revert s Hs. induction past as [|x past IH]; simpl; intros s Hs; [done|].
      case_match; [simplify_eq; simpl; lia|]. apply fmap_Some in Hs as (s' & Hs' & ->).
      simpl. specialize (IH s' Hs'). lia. }
    pose proof (bucket_range _ Hd). unfold bump at 1 2. rewrite length_alter. split_and!; [done| |].
    + apply Forall_alter.
      * eapply Forall_impl; [exact H2|]. simpl. lia.
      * intros x Hx _. simpl. rewrite Forall_forall in H2.
        pose proof (H2 x ltac:(by eapply list_elem_of_lookup_2)).
        unfold wrapping_add. rewrite wrap64_small; word_lia.
    + rewrite total_bump; [lia|lia|]. eapply Forall_impl; [exact H2|]. simpl. lia.
  - assert (Hout : l ∉ past) by (rewrite <-since_is_Some, Hs; by intros [? ?]).
    rewrite decide_False by done. split_and!; [done| |lia].
    eapply Forall_impl; [exact H2|]. simpl. lia.
Qed.

(** *** Footprint bits *)

(** Whether byte [b] of a line is marked. *)
Definition marked (fp : LineFootprint) (b : Z) : bool :=
  Z.testbit (default 0 (fp_bytes fp !! Z.to_nat (b / 64))) (b `mod` 64).

Lemma below_mask_bit k i :
  0 ≤ k ≤ 64 → 0 ≤ i < 64 →
  Z.testbit (if k =? 64 then u64_max else Z.shiftl 1 k - 1) i = (i <? k).
Proof.
  intros Hk Hi.
  assert ((if k =? 64 then u64_max else Z.shiftl 1 k - 1) = Z.ones k) as ->.
  { destruct (Z.eqb_spec k 64) as [->|]; [done|].
    by rewrite Z.ones_equiv, Z.shiftl_1_l, Z.sub_1_r. }
  destruct (Z.ltb_spec i k); [apply Z.ones_spec_low; lia|apply Z.ones_spec_high; lia].
Qed.

Lemma word_mask_bit s e w i :
  0 ≤ s → s < e ≤ 256 → 0 ≤ w < 4 → 0 ≤ i < 64 →
  Z.testbit (word_mask s e w) i = (s <=? 64 * w + i) && (64 * w + i <? e).
Proof.
  intros Hs He Hw Hi. unfold word_mask.
  assert (saturating_mul w 64 = 64 * w) as -> by word_lia.
  rewrite Z.land_spec, Z.lnot_spec by lia. unfold saturating_sub.
  rewrite below_mask_bit by lia.
  assert ((if Z.min (Z.max (s - 64 * w) 0) 64 =? 0 then 0
           else Z.shiftl 1 (Z.min (Z.max (s - 64 * w) 0) 64) - 1)
          = Z.ones (Z.min (Z.max (s - 64 * w) 0) 64)) as ->.
  { case_match eqn:E; [apply Z.eqb_eq in E; by rewrite E|].
    by rewrite Z.ones_equiv, Z.shiftl_1_l, Z.sub_1_r. }
  set (f := Z.min (Z.max (s - 64 * w) 0) 64).
  assert (Z.testbit (Z.ones f) i = (i <? f)) as ->.
  { destruct (Z.ltb_spec i f); [apply Z.ones_spec_low; lia|apply Z.ones_spec_high; lia]. }
  subst f. destruct (Z.ltb_spec i (Z.min (Z.max (s - 64 * w) 0) 64)),
    (Z.leb_spec s (64 * w + i)), (Z.ltb_spec (64 * w + i) e),
    (Z.ltb_spec i (Z.min (Z.max (e - 64 * w) 0) 64)); simpl; try done; lia.
Qed.

Lemma fold_touch_word s e ws bytes k :
  NoDup ws → Forall (λ w, 0 ≤ w) ws → 0 ≤ k →
  fold_left (touch_word s e) ws bytes !! Z.to_nat k =
  (if decide (k ∈ ws) then λ b, Z.lor b (word_mask s e k) else id) <$> bytes !! Z.to_nat k.
Proof.
  intros HN HF Hk. revert bytes; induction ws as [|w ws IH]; intros bytes; simpl.
  { by rewrite option_fmap_id. }
  apply NoDup_cons in HN as [Hw HN]. inversion_clear HF as [|? ? Hw0 HF'].
  rewrite IH by done. unfold touch_word.
  destruct (decide (k = w)) as [->|Hne].
  - rewrite list_lookup_alter_eq. rewrite decide_False by done.
    rewrite decide_True by left. by rewrite option_fmap_id.
  - rewrite list_lookup_alter_ne by lia.
    destruct (decide (k ∈ ws)); [by rewrite decide_True by (by right)|].
    rewrite decide_False by set_solver. done.
Qed.

Lemma touch_marked o n ls fp b :
  0 ≤ o → 0 ≤ n → length (fp_bytes fp) = 4%nat → 0 ≤ b < 256 →
  marked (touch o n ls fp) b =
  marked fp b || ((o <=? b) && (b <? Z.min (saturating_add o n) ls)).
Proof.
  intros Ho Hn Hlen Hb. unfold touch.
  set (s := Z.min (Z.min o ls) 256). set (e := Z.min (Z.min (saturating_add o n) ls) 256).
  pose proof (Z.div_mod b 64 ltac:(lia)) as Hdm. pose proof (Z.mod_pos_bound b 64 ltac:(lia)) as Hm.
  destruct (Z.leb_spec e s) as [Hes|Hse].
  { assert ((o <=? b) && (b <? Z.min (saturating_add o n) ls) = false) as ->.
    { destruct (Z.leb_spec o b), (Z.ltb_spec b (Z.min (saturating_add o n) ls)); simpl; try done.
      exfalso. unfold s, e in Hes. lia. }
    by rewrite orb_false_r. }
  assert (Hs : s = o) by lia.
  assert (Hw : 0 ≤ b / 64 < 4) by (split; [apply Z.div_pos|apply Z.div_lt_upper_bound]; lia).
  destruct (lookup_lt_is_Some_2 (fp_bytes fp) (Z.to_nat (b / 64))) as [x Hx]; [lia|].
  unfold marked. simpl. rewrite fold_touch_word, Hx; [|apply NoDup_seqZ| |lia].
  2: { apply Forall_forall. intros w. rewrite elem_of_seqZ.
       assert (0 ≤ s / 64) by (apply Z.div_pos; lia). lia. }
  destruct (decide _) as [Hin|Hout]; simpl.
  - rewrite Z.lor_spec, word_mask_bit by lia. rewrite <-Hdm, Hs. f_equal. f_equal.
    destruct (Z.ltb_spec b e), (Z.ltb_spec b (Z.min (saturating_add o n) ls)); try done; lia.
  - rewrite elem_of_seqZ in Hout.
    assert ((o <=? b) && (b <? Z.min (saturating_add o n) ls) = false) as ->;
      [|by rewrite orb_false_r].
    destruct (Z.leb_spec o b), (Z.ltb_spec b (Z.min (saturating_add o n) ls)); simpl; try done.
    exfalso. apply Hout.
    assert (s / 64 ≤ b / 64) by (apply Z.div_le_mono; lia).
    assert (b / 64 ≤ (e - 1) / 64) by (apply Z.div_le_mono; lia). lia.
Qed.

(** ** Properties *)

(** C15: the reuse-distance histogram is exact.  After any run, bucket [i] counts the
    references whose LRU stack distance (distinct lines referenced since the previous
    reference to the same line) falls into it, a reference is cold exactly when the
    line is new, and the number of known lines is the number of distinct lines. *)
Theorem reuse_distances_exact ls ops :
  Z.of_nat (length (trace ls ops)) ≤ u64_max →
  reuse_distance (run ls ops) = distance_histogram (trace ls ops) ∧
  cold_references (run ls ops) = distinct (trace ls ops) ∧
  references (run ls ops) = Z.of_nat (length (trace ls ops)).
Proof. intros H. destruct (run_inv ls ops H). auto. Qed.

Definition sample_ops : list op :=
  [(0%nat, 0, 8, false); (0%nat, 64, 8, false); (0%nat, 128, 8, false);
   (0%nat, 0, 8, false); (1%nat, 60, 8, true)].

Lemma reuse_distances_exact_witness :
  Z.of_nat (length (trace 64 sample_ops)) ≤ u64_max ∧
  reuse_distance (run 64 sample_ops) = distance_histogram (trace 64 sample_ops) ∧
  cold_references (run 64 sample_ops) = 3.
Proof.
  assert (H : Z.of_nat (length (trace 64 sample_ops)) ≤ u64_max) by (vm_compute; congruence).
  destruct (reuse_distances_exact 64 sample_ops H) as (H1 & H2 & _).
  split_and!; [done|done|]. rewrite H2. vm_compute. reflexivity.
Defined.

(** Every reference is either cold or counted in exactly one distance bucket. *)
Theorem references_partitioned ls ops :
  Z.of_nat (length (trace ls ops)) ≤ u64_max →
  cold_references (run ls ops) + total (reuse_distance (run ls ops)) = references (run ls ops).
Proof.
  intros H. destruct (run_inv ls ops H) as [Hr _ _ Hh Hc _]. rewrite Hr, Hh, Hc.
  destruct (histogram_total _ H) as (_ & _ & Ht). lia.
Qed.

Lemma references_partitioned_witness :
  Z.of_nat (length (trace 64 sample_ops)) ≤ u64_max ∧
  cold_references (run 64 sample_ops) + total (reuse_distance (run 64 sample_ops)) = 6.
Proof.
  assert (H : Z.of_nat (length (trace 64 sample_ops)) ≤ u64_max) by (vm_compute; congruence).
  split; [done|]. rewrite (references_partitioned 64 sample_ops H). vm_compute. reflexivity.
Defined.

(** The working-set windows are exact without per-window sets.  Each accumulator has
    seen the references of the run modulo its width, its [unique_lines] is the number of
    distinct lines of the open window, and its samples are the numbers of distinct lines
    of the completed windows. *)
Theorem working_sets_exact ls ops w :
  Z.of_nat (length (trace ls ops)) ≤ u64_max → w ∈ windows (run ls ops) →
  w_references w = Z.of_nat (length (trace ls ops)) `mod` width w ∧
  unique_lines w = distinct (take (Z.to_nat (w_references w)) (trace ls ops)) ∧
  samples w = window_samples (width w) (trace ls ops).
Proof.
  intros H Hw. destruct (run_inv ls ops H) as [_ _ _ _ _ HF].
  rewrite Forall_forall in HF. destruct (HF w Hw). auto.
Qed.

Lemma working_sets_exact_witness :
  ∃ w, w ∈ windows (run 64 sample_ops) ∧ width w = 1024 ∧ w_references w = 6 ∧
    unique_lines w = distinct (take 6 (trace 64 sample_ops)).
Proof.
  destruct (windows (run 64 sample_ops)) as [|w ws] eqn:Hws; [vm_compute in Hws; discriminate|].
  destruct (working_sets_exact 64 sample_ops w) as (H1 & H2 & H3);
    [vm_compute; congruence|rewrite Hws; left|].
  assert (Hw : width w = 1024 ∧ w_references w = 6) by (vm_compute in Hws; injection Hws as <- _; done).
  destruct Hw as [Hw1 Hw2]. exists w. rewrite Hw2 in H2. split_and!; [left|done|done|exact H2].
Defined.

(** A touch marks exactly the bytes of its range, clipped to the line (and to the 256
    bytes a footprint holds), without a loop over the bytes. *)
Theorem touch_marks_range o n ls fp b :
  0 ≤ o → 0 ≤ n → length (fp_bytes fp) = 4%nat → 0 ≤ b < 256 →
  marked (touch o n ls fp) b = true ↔
  marked fp b = true ∨ (o ≤ b ∧ b < saturating_add o n ∧ b < ls).
Proof.
  intros Ho Hn Hlen Hb. rewrite touch_marked by done.
  rewrite orb_true_iff, andb_true_iff, Z.leb_le, Z.ltb_lt, Z.min_glb_lt_iff. tauto.
Qed.

Lemma touch_marks_range_witness :
  marked (touch 60 8 128 default_footprint) 64 = true ∧
  marked (touch 60 8 128 default_footprint) 68 = false.
Proof.
  split.
  - apply (touch_marks_range 60 8 128 default_footprint 64); [done|done|done|lia|].
    right. vm_compute. split_and!; congruence.
  - vm_compute. reflexivity.
Defined.
