(* ===== verification/Capi.v ===== *)
(** * The instrumentation session

    Models [utils/roofline-core/src/capi.rs]: the entry points the DynamoRIO client
    calls, on the state of one session (the [Inner] behind the mutex), with the
    counter snapshot and the descriptors of [artifacts.rs].

    A session pointer is an [option Inner], null being [None]; a call that panics
    while it holds the mutex is [Panicked].  The batched entry point
    [rc_process_batch] aggregates runs of one block and of one block's memory
    operands; [per_event] is the same record handled by the unbatched entry points,
    and [CapiSpec.v] proves that the two agree. *)

From S2P Require Import Prelude Words Cache Cfg OrderTree MemoryAnalysis.
Open Scope Z_scope.
Import Cfg.

Module Capi.

(** ** Data *)

Definition RC_FLOW_NORMAL : Z := 0.
Definition RC_FLOW_CALL : Z := 1.
Definition RC_FLOW_RETURN : Z := 2.

Definition RC_RECORD_BLOCK_EXEC : Z := 0.
Definition RC_RECORD_MEM : Z := 1.
Definition RC_RECORD_UNCLASSIFIED : Z := 2.

Record RcCost : Type := mkRcCost {
  rc_scalar_int : Z;
  rc_scalar_float : Z;
  rc_scalar_double : Z;
  rc_vector_int : Z;
  rc_vector_float : Z;
  rc_vector_double : Z
}.

Record RcRecord : Type := mkRecord { desc : Z; address : Z }.

Record RegisteredMem : Type := mkMem { m_block : Z; m_size : Z; m_store : bool }.

Record RegisteredBlock : Type := mkBlock {
  cost : BlockCost;
  arch_bytes_load : Z;
  arch_bytes_store : Z
}.

Record CounterSnapshot : Type := mkCounters {
  scalar_int_ops : Z;
  scalar_float_ops : Z;
  scalar_double_ops : Z;
  vector_int_ops : Z;
  vector_float_ops : Z;
  vector_double_ops : Z;
  bytes_load : Z;
  bytes_store : Z;
  dram_bytes_load : Z;
  dram_bytes_store : Z;
  rvv_state_errors : Z;
  unclassified_instructions : Z;
  instructions : Z;
  child_process_seen : bool
}.
Definition default_counters : CounterSnapshot := mkCounters 0 0 0 0 0 0 0 0 0 0 0 0 0 false.

Record CacheDescription : Type := mkCacheDescription {
  d_line_size : Z;
  d_capacity : Z;
  d_associativity : Z
}.
Record ImageInfo : Type := mkImage { i_start : Z; i_end : Z; i_entry : Z }.

Record Inner : Type := mkInner {
  counters : CounterSnapshot;
  cfg : DynamicCfg;
  cache : Cache.CacheModel;
  memory : option MemoryAnalysis.MemoryAnalysis;
  image : option ImageInfo;
  output : string;
  blocks : list RegisteredBlock;
  mems : list RegisteredMem
}.

Definition with_counters (f : CounterSnapshot → CounterSnapshot) (s : Inner) : Inner :=
  mkInner (f (counters s)) (cfg s) (cache s) (memory s) (image s) (output s) (blocks s) (mems s).
Definition with_cfg (f : DynamicCfg → DynamicCfg) (s : Inner) : Inner :=
  mkInner (counters s) (f (cfg s)) (cache s) (memory s) (image s) (output s) (blocks s) (mems s).
Definition with_cache (c : Cache.CacheModel) (s : Inner) : Inner :=
  mkInner (counters s) (cfg s) c (memory s) (image s) (output s) (blocks s) (mems s).
Definition with_memory (m : option MemoryAnalysis.MemoryAnalysis) (s : Inner) : Inner :=
  mkInner (counters s) (cfg s) (cache s) m (image s) (output s) (blocks s) (mems s).
Definition with_image (i : option ImageInfo) (s : Inner) : Inner :=
  mkInner (counters s) (cfg s) (cache s) (memory s) i (output s) (blocks s) (mems s).
Definition with_blocks (bs : list RegisteredBlock) (s : Inner) : Inner :=
  mkInner (counters s) (cfg s) (cache s) (memory s) (image s) (output s) bs (mems s).
Definition with_mems (ms : list RegisteredMem) (s : Inner) : Inner :=
  mkInner (counters s) (cfg s) (cache s) (memory s) (image s) (output s) (blocks s) ms.

(** ** Counters *)

Definition add_exec_counters (cost : BlockCost) (executions : Z) (c : CounterSnapshot)
    : CounterSnapshot :=
  mkCounters
    (saturating_add (scalar_int_ops c) (saturating_mul (c_scalar_int cost) executions))
    (saturating_add (scalar_float_ops c) (saturating_mul (c_scalar_float cost) executions))
    (saturating_add (scalar_double_ops c) (saturating_mul (c_scalar_double cost) executions))
    (saturating_add (vector_int_ops c) (saturating_mul (c_vector_int cost) executions))
    (saturating_add (vector_float_ops c) (saturating_mul (c_vector_float cost) executions))
    (saturating_add (vector_double_ops c) (saturating_mul (c_vector_double cost) executions))
    (bytes_load c) (bytes_store c) (dram_bytes_load c) (dram_bytes_store c)
    (rvv_state_errors c) (unclassified_instructions c)
    (saturating_add (instructions c) (saturating_mul (Cfg.instructions cost) executions))
    (child_process_seen c).

(** The architectural bytes: [bytes_load] and [bytes_store]. *)
Definition add_arch (load store : Z) (c : CounterSnapshot) : CounterSnapshot :=
  mkCounters (scalar_int_ops c) (scalar_float_ops c) (scalar_double_ops c) (vector_int_ops c)
    (vector_float_ops c) (vector_double_ops c)
    (saturating_add (bytes_load c) load) (saturating_add (bytes_store c) store)
    (dram_bytes_load c) (dram_bytes_store c) (rvv_state_errors c)
    (unclassified_instructions c) (instructions c) (child_process_seen c).

Definition set_arch (load store : Z) (c : CounterSnapshot) : CounterSnapshot :=
  mkCounters (scalar_int_ops c) (scalar_float_ops c) (scalar_double_ops c) (vector_int_ops c)
    (vector_float_ops c) (vector_double_ops c) load store (dram_bytes_load c)
    (dram_bytes_store c) (rvv_state_errors c) (unclassified_instructions c) (instructions c)
    (child_process_seen c).

(** A memory operand counts as loaded or as stored bytes. *)
Definition add_operand (size : Z) (store : bool) (c : CounterSnapshot) : CounterSnapshot :=
  if store then set_arch (bytes_load c) (saturating_add (bytes_store c) size) c
  else set_arch (saturating_add (bytes_load c) size) (bytes_store c) c.

Definition add_dram (t : Cache.MemoryTraffic) (c : CounterSnapshot) : CounterSnapshot :=
  mkCounters (scalar_int_ops c) (scalar_float_ops c) (scalar_double_ops c) (vector_int_ops c)
    (vector_float_ops c) (vector_double_ops c) (bytes_load c) (bytes_store c)
    (saturating_add (dram_bytes_load c) (Cache.bytes_load t))
    (saturating_add (dram_bytes_store c) (Cache.bytes_store t))
    (rvv_state_errors c) (unclassified_instructions c) (instructions c) (child_process_seen c).

Definition add_unclassified (c : CounterSnapshot) : CounterSnapshot :=
  mkCounters (scalar_int_ops c) (scalar_float_ops c) (scalar_double_ops c) (vector_int_ops c)
    (vector_float_ops c) (vector_double_ops c) (bytes_load c) (bytes_store c)
    (dram_bytes_load c) (dram_bytes_store c) (rvv_state_errors c)
    (saturating_add (unclassified_instructions c) 1) (instructions c) (child_process_seen c).

Definition add_state_error (c : CounterSnapshot) : CounterSnapshot :=
  mkCounters (scalar_int_ops c) (scalar_float_ops c) (scalar_double_ops c) (vector_int_ops c)
    (vector_float_ops c) (vector_double_ops c) (bytes_load c) (bytes_store c)
    (dram_bytes_load c) (dram_bytes_store c) (saturating_add (rvv_state_errors c) 1)
    (unclassified_instructions c) (instructions c) (child_process_seen c).

Definition add_vector (class : VectorClass) (operations : Z) (c : CounterSnapshot)
    : CounterSnapshot :=
  mkCounters (scalar_int_ops c) (scalar_float_ops c) (scalar_double_ops c)
    (match class with
     | Integer => saturating_add (vector_int_ops c) operations | _ => vector_int_ops c end)
    (match class with
     | Float => saturating_add (vector_float_ops c) operations | _ => vector_float_ops c end)
    (match class with
     | Double => saturating_add (vector_double_ops c) operations | _ => vector_double_ops c end)
    (bytes_load c) (bytes_store c) (dram_bytes_load c) (dram_bytes_store c)
    (rvv_state_errors c) (unclassified_instructions c) (instructions c) (child_process_seen c).

(** ** Sessions *)

Definition rc_session_new (output : option string)
    (cache_line llc_size llc_associativity memory_profile : Z) : option Inner :=
  match output with
  | None => None
  | Some path =>
      match Cache.new cache_line llc_size llc_associativity with
      | None => None
      | Some cache =>
          Some (mkInner default_counters Cfg.new cache
                  (if negb (memory_profile =? 0)
                   then Some (MemoryAnalysis.new (Cache.line_size cache)) else None)
                  None path [] [])
      end
  end.

Definition rc_session_set_image (session : option Inner) (start end_ entry : Z) : option Inner :=
  with_image (Some (mkImage start end_ entry)) <$> session.

(** [match flow { RC_FLOW_CALL => .., RC_FLOW_RETURN => .., _ => Normal }]. *)
Definition flow_from (flow : Z) : FlowKind :=
  if flow =? RC_FLOW_CALL then Call else if flow =? RC_FLOW_RETURN then Return else Normal.

Definition block_cost (vaddr end_vaddr flow : Z) (cost : RcCost) (instructions : Z) : BlockCost :=
  mkCost vaddr end_vaddr (flow_from flow) (rc_scalar_int cost) (rc_scalar_float cost)
    (rc_scalar_double cost) (rc_vector_int cost) (rc_vector_float cost)
    (rc_vector_double cost) instructions.

Definition exec_block (thread : nat) (block : BlockCost) (s : Inner) : Inner :=
  with_cfg (record_block thread block) (with_counters (add_exec_counters block 1) s).

Definition rc_block_exec (session : option Inner) (thread : nat) (vaddr end_vaddr flow : Z)
    (cost : option RcCost) (instructions : Z) : option Inner :=
  match session, cost with
  | Some s, Some cost => Some (exec_block thread (block_cost vaddr end_vaddr flow cost instructions) s)
  | _, _ => session
  end.

Definition HANDLE_LIMIT : Z := Z.shiftr u32_max 2.

Definition rc_register_block (session : option Inner) (vaddr end_vaddr flow : Z)
    (cost : option RcCost) (instructions arch_bytes_load arch_bytes_store : Z)
    : Z * option Inner :=
  match session, cost with
  | Some s, Some cost =>
      if HANDLE_LIMIT <=? Z.of_nat (length (blocks s)) then (u32_max, session)
      else
        let bs := vec_push (blocks s)
          (mkBlock (block_cost vaddr end_vaddr flow cost instructions)
             arch_bytes_load arch_bytes_store) in
        (as_u32 (Z.of_nat (length bs) - 1), Some (with_blocks bs s))
  | _, _ => (u32_max, session)
  end.

Definition rc_register_mem (session : option Inner) (block size is_store : Z) : Z * option Inner :=
  match session with
  | Some s =>
      if HANDLE_LIMIT <=? Z.of_nat (length (mems s)) then (u32_max, session)
      else
        let ms := vec_push (mems s) (mkMem block size (negb (is_store =? 0))) in
        (as_u32 (Z.of_nat (length ms) - 1), Some (with_mems ms s))
  | None => (u32_max, None)
  end.

Definition add_static_memory (block : RegisteredBlock) (executions : Z) (s : Inner) : Inner :=
  let bytes_load := saturating_mul (arch_bytes_load block) executions in
  let bytes_store := saturating_mul (arch_bytes_store block) executions in
  let s := with_counters (add_arch bytes_load bytes_store) s in
  if negb (bytes_load =? 0) || negb (bytes_store =? 0)
  then with_cfg (attribute_memory (vaddr (cost block)) bytes_load bytes_store 0 0) s
  else s.

Definition rc_counted_block (session : option Inner) (handle executions : Z)
    (successor_a successor_b successor_count : Z) : option Inner :=
  match session with
  | None => None
  | Some s =>
      if executions =? 0 then Some s
      else
        match blocks s !! Z.to_nat handle with
        | None => Some s
        | Some block =>
            let successors := [successor_a; successor_b] in
            let s := with_counters (add_exec_counters (cost block) executions) s in
            let s := with_cfg (record_counted_block (cost block) executions
                       (take (Nat.min (Z.to_nat successor_count) (length successors)) successors)) s in
            Some (add_static_memory block executions s)
        end
  end.

(** ** Batches *)

Record PendingMemory : Type := mkPending {
  p_block : Z;
  p_arch_load : Z;
  p_arch_store : Z;
  p_dram_load : Z;
  p_dram_store : Z
}.
Definition default_pending : PendingMemory := mkPending 0 0 0 0 0.

Definition pending_empty (p : PendingMemory) : bool :=
  (p_arch_load p =? 0) && (p_arch_store p =? 0) && (p_dram_load p =? 0) && (p_dram_store p =? 0).

Definition flush (p : PendingMemory) (g : DynamicCfg) : PendingMemory * DynamicCfg :=
  if pending_empty p then (p, g)
  else (mkPending (p_block p) 0 0 0 0,
        attribute_memory (p_block p) (p_arch_load p) (p_arch_store p) (p_dram_load p)
          (p_dram_store p) g).

Definition flush_repeats (thread : nat) (run_handle run_count : Z) (s : Inner) : Inner :=
  if run_count =? 0 then s
  else
    match blocks s !! Z.to_nat run_handle with
    | Some block =>
        add_static_memory block run_count
          (with_cfg (record_repeats thread (cost block) run_count)
             (with_counters (add_exec_counters (cost block) run_count) s))
    | None => s
    end.

(** The loop variables of [rc_process_batch]. *)
Record Batch : Type := mkBatch {
  inner : Inner;
  run_handle : Z;
  run_count : Z;
  pending : PendingMemory
}.

(** The accounting of one operand: analysis, architectural bytes, cache. *)
Definition access_memory (thread : nat) (address size : Z) (store : bool) (s : Inner) : Inner :=
  with_memory (MemoryAnalysis.access thread address size store <$> memory s) s.

(** Operands of another block flush what is pending for the last one. *)
Definition switch_block (block : Z) (p : PendingMemory) (g : DynamicCfg)
    : PendingMemory * DynamicCfg :=
  if negb (p_block p =? block) then
    let '(p, g) := flush p g in
    (mkPending block (p_arch_load p) (p_arch_store p) (p_dram_load p) (p_dram_store p), g)
  else (p, g).

(** The coalescing of operand traffic per block. *)
Definition add_pending (m : RegisteredMem) (t : Cache.MemoryTraffic) (p : PendingMemory)
    : PendingMemory :=
  mkPending (p_block p)
    (if m_store m then p_arch_load p else saturating_add (p_arch_load p) (m_size m))
    (if m_store m then saturating_add (p_arch_store p) (m_size m) else p_arch_store p)
    (saturating_add (p_dram_load p) (Cache.bytes_load t))
    (saturating_add (p_dram_store p) (Cache.bytes_store t)).

Definition batch_mem (thread : nat) (m : RegisteredMem) (address : Z) (b : Batch) : outcome Batch :=
  let s := access_memory thread address (m_size m) (m_store m) (inner b) in
  let s := with_counters (add_operand (m_size m) (m_store m)) s in
  '(c, traffic) ← Cache.access (cache s) address (m_size m) (m_store m);
  let s := with_cache c s in
  let s := if negb (Cache.bytes_load traffic =? 0) || negb (Cache.bytes_store traffic =? 0)
           then with_counters (add_dram traffic) s else s in
  let '(p, g) := switch_block (m_block m) (pending b) (cfg s) in
  let s := with_cfg (λ _, g) s in
  Done (mkBatch s (run_handle b) (run_count b) (add_pending m traffic p)).

Definition batch_exec (thread : nat) (handle : Z) (b : Batch) : Batch :=
  if as_u32 handle =? run_handle b
  then mkBatch (inner b) (run_handle b) (wrapping_add (run_count b) 1) (pending b)
  else
    let s := flush_repeats thread (run_handle b) (run_count b) (inner b) in
    match blocks s !! Z.to_nat handle with
    | None => mkBatch s u32_max 0 (pending b)
    | Some block =>
        let s := with_counters (add_exec_counters (cost block) 1) s in
        let s := with_cfg (record_block thread (cost block)) s in
        let s := add_static_memory block 1 s in
        mkBatch s (if decide (flow (cost block) = Normal) then as_u32 handle else u32_max) 0
          (pending b)
    end.

Definition batch_unclassified (handle : Z) (b : Batch) : Batch :=
  match blocks (inner b) !! Z.to_nat handle with
  | None => b
  | Some block =>
      let s := with_counters add_unclassified (inner b) in
      mkBatch (with_cfg (attribute_unclassified (vaddr (cost block))) s)
        (run_handle b) (run_count b) (pending b)
  end.

(** The body of the loop over the records. *)
Definition batch_step (thread : nat) (b : Batch) (r : RcRecord) : outcome Batch :=
  let kind := Z.land (desc r) 3 in
  let handle := Z.shiftr (desc r) 2 in
  if kind =? RC_RECORD_MEM then
    match mems (inner b) !! Z.to_nat handle with
    | None => Done b
    | Some m => batch_mem thread m (address r) b
    end
  else if kind =? RC_RECORD_BLOCK_EXEC then Done (batch_exec thread handle b)
  else if kind =? RC_RECORD_UNCLASSIFIED then Done (batch_unclassified handle b)
  else Done b.

(** What the end of the batch applies: the open run, then the pending traffic. *)
Definition settle (thread : nat) (b : Batch) : Inner :=
  let s := flush_repeats thread (run_handle b) (run_count b) (inner b) in
  with_cfg (λ g, (flush (pending b) g).2) s.

Definition process_records (thread : nat) (records : list RcRecord) (s : Inner) : outcome Inner :=
  b ← fold_outcome (batch_step thread) records (mkBatch s u32_max 0 default_pending);
  Done (settle thread b).

(** [records] is the buffer of [count] records, or null. *)
Definition rc_process_batch (session : option Inner) (thread : nat)
    (records : option (list RcRecord)) : outcome (option Inner) :=
  match session, records with
  | Some s, Some (r :: rs) => Some <$> process_records thread (r :: rs) s
  | _, _ => Done session
  end.

(** ** Single events *)

Definition mem_access (thread : nat) (block address size : Z) (store : bool) (s : Inner)
    : outcome Inner :=
  let s := access_memory thread address size store s in
  let s := with_counters (add_operand size store) s in
  '(c, traffic) ← Cache.access (cache s) address size store;
  let s := with_counters (add_dram traffic) (with_cache c s) in
  let '(arch_load, arch_store) := if store then (0, size) else (size, 0) in
  Done (with_cfg (attribute_memory block arch_load arch_store (Cache.bytes_load traffic)
                    (Cache.bytes_store traffic)) s).

Definition rc_mem_access (session : option Inner) (thread : nat)
    (block address size is_store : Z) : outcome (option Inner) :=
  match session with
  | None => Done None
  | Some s => Some <$> mem_access thread block address size (negb (is_store =? 0)) s
  end.

Definition rvv_class (is_float sew_bits : Z) : VectorClass :=
  if is_float =? 0 then Integer else if sew_bits =? 64 then Double else Float.

Definition rc_rvv_exec (session : option Inner) (block is_float sew_bits operations : Z)
    : option Inner :=
  let class := rvv_class is_float sew_bits in
  (λ s, with_cfg (attribute_vector block class operations)
          (with_counters (add_vector class operations) s)) <$> session.

Definition unclassified_exec (block : Z) (s : Inner) : Inner :=
  with_cfg (attribute_unclassified block) (with_counters add_unclassified s).
Definition rc_unclassified (session : option Inner) (block : Z) : option Inner :=
  unclassified_exec block <$> session.

Definition rc_rvv_state_error (session : option Inner) : option Inner :=
  with_counters add_state_error <$> session.

Definition rc_instruction_count (session : option Inner) : Z :=
  match session with None => 0 | Some s => instructions (counters s) end.

(** ** Vector state *)

Definition mask_bit (mask : list Z) (bit : Z) : bool :=
  Z.testbit (default 0 (mask !! Z.to_nat (bit / 8))) (bit mod 8).

(** [classify::active_elements]; the index is in range by the check before it. *)
Definition active_elements (start end_ : Z) (mask : option (list Z)) : option Z :=
  match mask with
  | None => Some (saturating_sub end_ start)
  | Some mask =>
      if Z.of_nat (length mask) * 8 <? end_ then None
      else Some (Z.of_nat (length (List.filter (mask_bit mask) (seqZ start (end_ - start)))))
  end.

(** [u64 as i64]. *)
Definition as_i64 (x : Z) : Z := if x <? 2 ^ 63 then x else x - 2 ^ 64.

Definition rc_active_elements (vstart vl : Z) (mask : option (list Z)) : Z :=
  match active_elements vstart vl mask with Some elements => as_i64 elements | None => -1 end.

Definition rvv_sew (vtype xlen : Z) : option Z :=
  if (xlen =? 0) || (64 <? xlen) || Z.testbit vtype (xlen - 1) then None
  else Some (Z.shiftl 8 (Z.land (Z.shiftr vtype 3) 7)).

Definition rc_rvv_sew (vtype xlen : Z) : Z :=
  match rvv_sew vtype xlen with Some sew => as_i64 sew | None => -1 end.

(** ** Finalisation *)

(** What [rc_finalize] hands to the three artifact writers. *)
Record Finalized : Type := mkFinalized {
  f_output : string;
  f_counters : CounterSnapshot;
  f_cache : CacheDescription;
  f_image : option ImageInfo;
  f_cfg : DynamicCfg;
  f_memory : option MemoryAnalysis.MemoryArtifact
}.

Definition finalize (s : Inner) : Finalized :=
  let '(c, t) := Cache.flush (cache s) in
  let s := with_counters (add_dram t) (with_cache c s) in
  mkFinalized (output s) (counters s)
    (mkCacheDescription (Cache.line_size (cache s)) (Cache.capacity (cache s))
       (Cache.associativity (cache s)))
    (image s) (cfg s) (MemoryAnalysis.artifact <$> memory s).

Definition rc_finalize (session : option Inner) : Z * option Finalized :=
  match session with None => (-1, None) | Some s => (0, Some (finalize s)) end.

(** ** The record of a batch handled by the single-event entry points *)

Definition per_event (thread : nat) (s : Inner) (r : RcRecord) : outcome Inner :=
  let kind := Z.land (desc r) 3 in
  let handle := Z.to_nat (Z.shiftr (desc r) 2) in
  if kind =? RC_RECORD_MEM then
    match mems s !! handle with
    | None => Done s
    | Some m => mem_access thread (m_block m) (address r) (m_size m) (m_store m) s
    end
  else if kind =? RC_RECORD_BLOCK_EXEC then
    match blocks s !! handle with
    | None => Done s
    | Some b => Done (add_static_memory b 1 (exec_block thread (cost b) s))
    end
  else if kind =? RC_RECORD_UNCLASSIFIED then
    match blocks s !! handle with
    | None => Done s
    | Some b => Done (unclassified_exec (vaddr (cost b)) s)
    end
  else Done s.

(** A handle and a kind packed into a descriptor. *)
Lemma descriptor_fields h k :
  0 ≤ h → 0 ≤ k < 4 →
  Z.lor (Z.shiftl h 2) k = 4 * h + k ∧ Z.land (Z.lor (Z.shiftl h 2) k) 3 = k ∧
  Z.shiftr (Z.lor (Z.shiftl h 2) k) 2 = h.
Proof.
  intros Hh Hk. assert (E : Z.lor (Z.shiftl h 2) k = 4 * h + k).
  { pose proof (Z.add_lor_land (Z.shiftl h 2) k) as Ha.
    rewrite Z.shiftl_mul_pow2 in * by lia.
    assert (Z.land (h * 2 ^ 2) k = 0); [|lia].
    apply Z.bits_inj'. intros i Hi. rewrite Z.land_spec, Z.bits_0.
    destruct (Z.lt_ge_cases i 2) as [Hi2|Hi2]; [by rewrite Z.mul_pow2_bits_low|].
    rewrite (Z.bits_above_log2 k), andb_false_r; [done|lia|].
    destruct (Z.eq_dec k 0) as [->|]; [simpl; lia|]. apply Z.log2_lt_pow2; [lia|].
    apply Z.lt_le_trans with (2 ^ 2); [lia|]. apply Z.pow_le_mono_r; lia. }
  rewrite E. split_and!; [done| |].
  - change 3 with (Z.ones 2). rewrite Z.land_ones by lia. change (2 ^ 2) with 4.
    rewrite Z.add_comm, Z.mul_comm, Z.mod_add by lia. apply Z.mod_small. lia.
  - rewrite Z.shiftr_div_pow2 by lia. change (2 ^ 2) with 4.
    rewrite Z.add_comm, Z.mul_comm, Z.div_add, Z.div_small by lia. lia.
Qed.

End Capi.

Import Capi.

(** ** Properties *)

(** A session with a fall-through block, a call and two operands. *)
Definition sample_session : option Inner :=
  let s := rc_session_new (Some "run.counts") 64 4096 2 1 in
  let s := (rc_register_block s 1024 1056 RC_FLOW_NORMAL (Some (mkRcCost 2 0 1 0 0 0)) 5 8 0).2 in
  let s := (rc_register_block s 1280 1296 RC_FLOW_CALL (Some (mkRcCost 0 3 0 0 0 0)) 3 0 0).2 in
  let s := (rc_register_mem s 1024 8 0).2 in
  (rc_register_mem s 1024 8 1).2.

Definition sample_inner : Inner := default (mkInner default_counters Cfg.new
  (default (Cache.mkCache 0 0 None 0 0 0 [] 0 [] 0) (Cache.new 64 4096 2)) None None "" [] []) sample_session.

(** A handle survives its trip through a record.  A successful registration returns a
    handle below [u32::MAX >> 2] that names the block just described and leaves every
    earlier handle as it was; packed as [handle << 2 | kind] it fits the 32-bit
    descriptor and the batch loop unpacks the same handle and kind.  A refused
    registration (null cost, full table) returns [u32::MAX] and changes nothing. *)
Theorem register_block_handle s v e f c i al as_ k :
  0 ≤ k < 4 →
  let '(h, s') := rc_register_block (Some s) v e f c i al as_ in
  (h = u32_max ∧ s' = Some s) ∨
  (∃ cost s1, c = Some cost ∧ s' = Some s1 ∧ 0 ≤ h < HANDLE_LIMIT ∧
    blocks s1 !! Z.to_nat h = Some (mkBlock (block_cost v e f cost i) al as_) ∧
    (∀ j b, blocks s !! j = Some b → blocks s1 !! j = Some b) ∧
    in_u32 (Z.lor (Z.shiftl h 2) k) ∧
    Z.land (Z.lor (Z.shiftl h 2) k) 3 = k ∧ Z.shiftr (Z.lor (Z.shiftl h 2) k) 2 = h).
Proof.
  intros Hk. unfold rc_register_block. destruct c as [cost|]; [|by left].
  destruct (Z.leb_spec HANDLE_LIMIT (Z.of_nat (length (blocks s)))) as [Hl|Hl]; [by left|right].
  unfold vec_push. rewrite length_app. cbn [length].
  replace (Z.of_nat (length (blocks s) + 1) - 1) with (Z.of_nat (length (blocks s))) by lia.
  assert (Hlim : HANDLE_LIMIT = 1073741823) by done.
  rewrite as_u32_small by word_lia.
  destruct (descriptor_fields (Z.of_nat (length (blocks s))) k) as (E1 & E2 & E3); [lia|done|].
  exists cost. eexists; split_and!; try done; try lia; simpl.
  - rewrite Nat2Z.id. by apply list_lookup_middle.
  - intros j b Hj. by apply lookup_app_l_Some.
  - rewrite E1. word_lia.
Qed.

Lemma register_block_handle_witness :
  let r := rc_register_block (Some sample_inner) 2048 2064 RC_FLOW_RETURN (Some (mkRcCost 0 0 0 0 0 9)) 4 0 16 in
  r.1 = 2 ∧ ∃ s1, r.2 = Some s1 ∧
    blocks s1 !! 2%nat = Some (mkBlock (block_cost 2048 2064 RC_FLOW_RETURN (mkRcCost 0 0 0 0 0 9) 4) 0 16) ∧
    Z.shiftr (Z.lor (Z.shiftl 2 2) RC_RECORD_UNCLASSIFIED) 2 = 2.
Proof.
  intros r.
  destruct (register_block_handle sample_inner 2048 2064 RC_FLOW_RETURN (Some (mkRcCost 0 0 0 0 0 9)) 4 0 16
    RC_RECORD_UNCLASSIFIED ltac:(vm_compute; intuition congruence)) as [[H _]|H].
  - discriminate H.
  - destruct H as (cost & s1 & Hc & Hs & _ & Hb & _ & _ & _ & Hh). injection Hc as <-.
    split; [reflexivity|]. exists s1. split; [exact Hs|]. split; [exact Hb|exact Hh].
Defined.

(** An empty operand is where the two paths part.  For a registered operand of size
    zero whose block has no entry yet, the batch leaves the graph as it is, while
    [rc_mem_access] creates an entry of zeros for the block, which the [cfg] artifact then
    lists. *)
Theorem empty_operand_diverges t s h m a :
  mems s !! h = Some m → m_size m = 0 → Z.of_nat h < HANDLE_LIMIT →
  Cfg.blocks (cfg s) !! m_block m = None →
  ∃ s1 s2,
    process_records t [mkRecord (Z.lor (Z.shiftl (Z.of_nat h) 2) RC_RECORD_MEM) a] s = Done s1 ∧
    rc_mem_access (Some s) t (m_block m) a (m_size m) (if m_store m then 1 else 0) = Done (Some s2) ∧
    Cfg.blocks (cfg s1) !! m_block m = None ∧
    Cfg.blocks (cfg s2) !! m_block m = Some default_counts.
Proof.
  intros Hm Hz Hh Hb.
  destruct (descriptor_fields (Z.of_nat h) RC_RECORD_MEM) as (_ & E1 & E2); [lia|done|].
  unfold process_records, batch_step. cbn [fold_outcome desc address inner].
  rewrite E1, E2, Nat2Z.id, Hm. cbn [Z.eqb RC_RECORD_MEM Pos.eqb].
  unfold batch_mem, rc_mem_access, mem_access, Cache.access. rewrite Hz. cbn [Z.eqb].
  cbn [mbind outcome_bind].
  assert (Hsw : switch_block (m_block m) default_pending (cfg s) = (mkPending (m_block m) 0 0 0 0, cfg s)).
  { unfold switch_block, default_pending; simpl. by destruct (m_block m). }
  destruct (m_store m) eqn:Hst; simpl; rewrite Hsw; simpl;
    (eexists _, _; split; [reflexivity|]; split; [reflexivity|]; simpl).
  all: rewrite lookup_insert_eq, Hb; split; [|done].
  all: unfold add_pending, flush, pending_empty; simpl; by rewrite Hst, Hz.
Qed.

(** [sample_inner] with an operand of size zero. *)
Definition empty_operand_inner : Inner :=
  default sample_inner (rc_register_mem (Some sample_inner) 4096 0 0).2.

Lemma empty_operand_diverges_witness :
  ∃ s1 s2, process_records 0 [mkRecord 9 64] empty_operand_inner = Done s1 ∧
    rc_mem_access (Some empty_operand_inner) 0 4096 64 0 0 = Done (Some s2) ∧ cfg s1 ≠ cfg s2.
Proof.
  destruct (empty_operand_diverges 0 empty_operand_inner 2 (mkMem 4096 0 false) 64)
    as (s1 & s2 & H1 & H2 & H3 & H4); [reflexivity..|].
  exists s1, s2. split; [exact H1|]. split; [exact H2|]. intros E. simpl in H3, H4. congruence.
Defined.
