(* ===== verification/CapiSpec.v ===== *)
(** * Batched and single-event accounting agree

    The theorems about [Capi.v]: the invariant of a session, the equality of
    [rc_process_batch] with the single-event entry points, handles, and the
    accounting laws of a session. *)

From S2P Require Import Prelude Words Cache CacheSpec Cfg OrderTree MemoryAnalysis Capi.
Open Scope Z_scope.
Import Cfg Capi.

Module CapiSpec.

(** ** The invariant of a session *)

Record counters_ok (c : CounterSnapshot) : Prop := {
  ok_scalar_int : in_u64 (scalar_int_ops c);
  ok_scalar_float : in_u64 (scalar_float_ops c);
  ok_scalar_double : in_u64 (scalar_double_ops c);
  ok_vector_int : in_u64 (vector_int_ops c);
  ok_vector_float : in_u64 (vector_float_ops c);
  ok_vector_double : in_u64 (vector_double_ops c);
  ok_load : in_u64 (bytes_load c);
  ok_store : in_u64 (bytes_store c);
  ok_dram_load : in_u64 (dram_bytes_load c);
  ok_dram_store : in_u64 (dram_bytes_store c);
  ok_errors : in_u64 (rvv_state_errors c);
  ok_unclassified : in_u64 (unclassified_instructions c);
  ok_instructions : in_u64 (instructions c)
}.

Record block_ok (b : RegisteredBlock) : Prop := {
  ok_cost : cost_ok (cost b);
  ok_cost_instructions : in_u64 (Cfg.instructions (cost b));
  ok_arch_load : in_u64 (arch_bytes_load b);
  ok_arch_store : in_u64 (arch_bytes_store b)
}.

Definition mem_ok (m : RegisteredMem) : Prop := in_u64 (m_block m) ∧ in_u64 (m_size m).
Definition traffic_ok (t : Cache.MemoryTraffic) : Prop :=
  in_u64 (Cache.bytes_load t) ∧ in_u64 (Cache.bytes_store t).

Record session_ok (s : Inner) : Prop := {
  ok_counters : counters_ok (counters s);
  ok_cfg : cfg_ok (cfg s);
  ok_cache : Cache.wf (cache s);
  ok_blocks : Forall block_ok (blocks s);
  ok_mems : Forall mem_ok (mems s)
}.

Record pending_ok (p : PendingMemory) : Prop := {
  ok_p_al : in_u64 (p_arch_load p);
  ok_p_as : in_u64 (p_arch_store p);
  ok_p_dl : in_u64 (p_dram_load p);
  ok_p_ds : in_u64 (p_dram_store p)
}.

Create HintDb session.
#[local] Hint Resolve ok_scalar_int ok_scalar_float ok_scalar_double ok_vector_int ok_vector_float
  ok_vector_double ok_load ok_store ok_dram_load ok_dram_store ok_errors ok_unclassified
  ok_instructions ok_cost ok_cost_instructions ok_arch_load ok_arch_store
  ok_c_si ok_c_sf ok_c_sd ok_c_vi ok_c_vf ok_c_vd ok_p_al ok_p_as ok_p_dl ok_p_ds
  saturating_add_range saturating_mul_range in_u64_0 in_u64_1 : session.

Ltac session_auto := split; simpl; auto 7 with session.

(** ** Counters *)

Lemma sat_swap x a b :
  0 ≤ a → 0 ≤ b →
  saturating_add (saturating_add x a) b = saturating_add (saturating_add x b) a.
Proof. word_lia. Qed.

Lemma u64_nonneg x : in_u64 x → 0 ≤ x.
Proof. word_lia. Qed.
#[local] Hint Resolve sat_swap u64_nonneg : session.

Lemma add_exec_counters_ok c n k :
  cost_ok c → in_u64 (Cfg.instructions c) → in_u64 n → counters_ok k →
  counters_ok (add_exec_counters c n k).
Proof. intros. session_auto. Qed.

Lemma add_arch_ok l s k : in_u64 l → in_u64 s → counters_ok k → counters_ok (add_arch l s k).
Proof. intros. session_auto. Qed.

Lemma add_operand_ok n st k : in_u64 n → counters_ok k → counters_ok (add_operand n st k).
Proof. intros. destruct st; session_auto. Qed.

Lemma add_dram_ok t k : traffic_ok t → counters_ok k → counters_ok (add_dram t k).
Proof. intros []. session_auto. Qed.

Lemma add_unclassified_ok k : counters_ok k → counters_ok (add_unclassified k).
Proof. session_auto. Qed.

(** Two updates of the counters in either order, when both add non-negative amounts. *)
Ltac counters_commute := unfold add_exec_counters, add_arch, add_operand, set_arch, add_dram; simpl;
  f_equal; auto 8 with session.

Lemma add_operand_exec n st c k m :
  cost_ok c → in_u64 (Cfg.instructions c) → in_u64 k →
  add_exec_counters c k (add_operand n st m) = add_operand n st (add_exec_counters c k m).
Proof. intros. by destruct st. Qed.

Lemma add_operand_arch n st l s m :
  in_u64 n → in_u64 l → in_u64 s →
  add_arch l s (add_operand n st m) = add_operand n st (add_arch l s m).
Proof. intros. destruct st; counters_commute. Qed.

(** Adding no traffic changes nothing, so the batch may skip it. *)
Lemma add_dram_skip t m :
  counters_ok m →
  (if negb (Cache.bytes_load t =? 0) || negb (Cache.bytes_store t =? 0)
   then add_dram t m else m) = add_dram t m.
Proof.
  intros Hm. destruct t as [l s]; simpl.
  destruct (Z.eqb_spec l 0) as [->|]; simpl; [|done].
  destruct (Z.eqb_spec s 0) as [->|]; simpl; [|done].
  unfold add_dram; simpl. rewrite !saturating_add_0_r by apply Hm. by destruct m.
Qed.

(** ** Attributions *)

Definition attr (p : PendingMemory) (g : DynamicCfg) : DynamicCfg := (flush p g).2.

(** The traffic of one operand as a pending entry. *)
Definition operand (m : RegisteredMem) (t : Cache.MemoryTraffic) : PendingMemory :=
  mkPending (m_block m) (if m_store m then 0 else m_size m) (if m_store m then m_size m else 0)
    (Cache.bytes_load t) (Cache.bytes_store t).

(** The static bytes of [n] executions of a block as a pending entry. *)
Definition static (b : RegisteredBlock) (n : Z) : PendingMemory :=
  mkPending (vaddr (cost b)) (saturating_mul (arch_bytes_load b) n)
    (saturating_mul (arch_bytes_store b) n) 0 0.

Definition pending_add (p q : PendingMemory) : PendingMemory :=
  mkPending (p_block p) (saturating_add (p_arch_load p) (p_arch_load q))
    (saturating_add (p_arch_store p) (p_arch_store q))
    (saturating_add (p_dram_load p) (p_dram_load q))
    (saturating_add (p_dram_store p) (p_dram_store q)).

Lemma pending_empty_spec p :
  pending_empty p = true ↔
  p_arch_load p = 0 ∧ p_arch_store p = 0 ∧ p_dram_load p = 0 ∧ p_dram_store p = 0.
Proof. unfold pending_empty. rewrite !andb_true_iff, !Z.eqb_eq. tauto. Qed.

(** [attr p] is the attribution of [p], or nothing. *)
Lemma attr_cases p :
  (pending_empty p = true ∧ ∀ g, attr p g = g) ∨
  (pending_empty p = false ∧ ∀ g, attr p g =
     attribute_memory (p_block p) (p_arch_load p) (p_arch_store p) (p_dram_load p)
       (p_dram_store p) g).
Proof. unfold attr, flush. destruct (pending_empty p); [left|right]; done. Qed.

Ltac attr_cases p := let H := fresh "Hattr" in destruct (attr_cases p) as [[_ H]|[_ H]]; rewrite !H.

Lemma attr_ok p g : pending_ok p → cfg_ok g → cfg_ok (attr p g).
Proof. intros [] Hg. attr_cases p; [done|]. by apply attribute_memory_ok. Qed.

Lemma attr_commute p q g : pending_ok p → pending_ok q → attr p (attr q g) = attr q (attr p g).
Proof.
  intros [] []. attr_cases p; [done|]. attr_cases q; [done|]. apply with_block_commute.
  intros b; simpl. f_equal; auto with session.
Qed.

Lemma attr_unclassified p a g :
  attr p (attribute_unclassified a g) = attribute_unclassified a (attr p g).
Proof. attr_cases p; [done|]. by apply with_block_commute. Qed.

Lemma attr_repeats p v c n g : record_repeats v c n (attr p g) = attr p (record_repeats v c n g).
Proof. attr_cases p; [done|]. apply record_repeats_attribute_memory. Qed.

Lemma record_block_with_block v c a f g :
  (∀ b, execute (as_u32 (Z.of_nat v)) c (f b) = f (execute (as_u32 (Z.of_nat v)) c b)) →
  record_block v c (with_block a f g) = with_block a f (record_block v c g).
Proof.
  intros Hf. unfold record_block.
  rewrite <-with_block_commute by done. f_equal.
  unfold grow, follow, set_last, with_block; simpl. repeat (case_match; simpl; try done).
Qed.

Lemma attr_record_block p v c g : record_block v c (attr p g) = attr p (record_block v c g).
Proof.
  attr_cases p; [done|]. apply record_block_with_block. intros b.
  unfold execute, merge_end; simpl. by repeat case_match.
Qed.

Lemma attr_just_ran p v c g : just_ran v c g → just_ran v c (attr p g).
Proof. intros. attr_cases p; [done|]. by apply just_ran_with_block. Qed.

Lemma attribute_merge a l1 s1 d1 e1 l2 s2 d2 e2 g :
  cfg_ok g → in_u64 l1 → in_u64 s1 → in_u64 d1 → in_u64 e1 → in_u64 l2 → in_u64 s2 → in_u64 d2 → in_u64 e2 →
  attribute_memory a l2 s2 d2 e2 (attribute_memory a l1 s1 d1 e1 g) =
  attribute_memory a (saturating_add l1 l2) (saturating_add s1 s2) (saturating_add d1 d2)
    (saturating_add e1 e2) g.
Proof.
  intros Hg. intros. unfold attribute_memory. rewrite with_block_twice. apply with_block_ext. simpl.
  destruct (Cfg.block_ok g a Hg). f_equal; word_lia.
Qed.

(** Consecutive attributions to one block are one attribution. *)
Lemma attr_merge p q g :
  cfg_ok g → pending_ok p → pending_ok q → p_block p = p_block q →
  attr q (attr p g) = attr (pending_add p q) g.
Proof.
  intros Hg Hp Hq Hb.
  destruct (attr_cases p) as [[Ep Hap]|[Ep Hap]]; rewrite Hap.
  - apply pending_empty_spec in Ep as (E1 & E2 & E3 & E4). f_equal.
    destruct p, q; simpl in *; subst. unfold pending_add; simpl.
    f_equal; rewrite saturating_add_0_l; try done; apply Hq.
  - destruct (attr_cases q) as [[Eq Haq]|[Eq Haq]]; rewrite Haq.
    + rewrite <-Hap. apply pending_empty_spec in Eq as (E1 & E2 & E3 & E4). f_equal.
      destruct p, q; simpl in *; subst. unfold pending_add; simpl.
      f_equal; rewrite saturating_add_0_r; try done; apply Hp.
    + destruct (attr_cases (pending_add p q)) as [[E _]|[_ Ha]].
      * exfalso. apply not_true_iff_false in Ep. apply Ep, pending_empty_spec.
        apply pending_empty_spec in E as (E1 & E2 & E3 & E4). destruct Hp, Hq.
        unfold pending_add in *; simpl in *. split_and!; word_lia.
      * rewrite Ha, <-Hb. simpl. destruct Hp, Hq. by apply attribute_merge.
Qed.

(** ** Static memory and runs *)

Lemma add_static_memory_eq b n s :
  add_static_memory b n s =
  with_cfg (attr (static b n))
    (with_counters (add_arch (saturating_mul (arch_bytes_load b) n)
                      (saturating_mul (arch_bytes_store b) n)) s).
Proof.
  unfold add_static_memory, attr, flush, pending_empty; simpl.
  destruct (_ =? 0), (_ =? 0); done.
Qed.

Lemma static_ok b n : block_ok b → in_u64 n → pending_ok (static b n).
Proof. intros. session_auto. Qed.

Lemma sat_mul_add c j k :
  0 ≤ c → 0 ≤ j → 0 ≤ k →
  saturating_add (saturating_mul c j) (saturating_mul c k) = saturating_mul c (j + k).
Proof.
  intros. unfold saturating_add, saturating_mul. rewrite Z.mul_add_distr_l.
  assert (0 ≤ c * j ∧ 0 ≤ c * k) as [] by nia. word_lia.
Qed.

Lemma static_add b j k :
  block_ok b → 0 ≤ j → 0 ≤ k → pending_add (static b j) (static b k) = static b (j + k).
Proof.
  intros Hb Hj Hk. unfold pending_add, static; simpl.
  f_equal; apply sat_mul_add; auto with session.
Qed.

(** What a run of [n] more executions of [b] does to the counters and to the graph. *)
Definition run_counters (b : RegisteredBlock) (n : Z) (k : CounterSnapshot) : CounterSnapshot :=
  add_arch (saturating_mul (arch_bytes_load b) n) (saturating_mul (arch_bytes_store b) n)
    (add_exec_counters (cost b) n k).
Definition run_cfg (v : nat) (b : RegisteredBlock) (n : Z) (g : DynamicCfg) : DynamicCfg :=
  attr (static b n) (record_repeats v (cost b) n g).

Lemma run_counters_ok b n k :
  block_ok b → in_u64 n → counters_ok k → counters_ok (run_counters b n k).
Proof. intros. apply add_arch_ok; auto with session. apply add_exec_counters_ok; auto with session. Qed.

Lemma run_counters_zero b k : counters_ok k → run_counters b 0 k = k.
Proof.
  intros Hk. unfold run_counters, add_arch, add_exec_counters; simpl.
  unfold saturating_mul. rewrite !Z.mul_0_r. change (0 `min` u64_max) with 0.
  rewrite !saturating_add_0_r by apply Hk. by destruct k.
Qed.

Lemma run_counters_add b j k c :
  block_ok b → counters_ok c → 0 ≤ j → 0 ≤ k →
  run_counters b k (run_counters b j c) = run_counters b (j + k) c.
Proof.
  intros Hb Hc Hj Hk. unfold run_counters, add_arch, add_exec_counters; simpl.
  f_equal; apply sat_charge_add; auto with session.
Qed.

Lemma run_counters_operand b k n st c :
  block_ok b → in_u64 k → in_u64 n →
  run_counters b k (add_operand n st c) = add_operand n st (run_counters b k c).
Proof.
  intros. unfold run_counters. rewrite add_operand_exec by auto with session.
  apply add_operand_arch; auto with session.
Qed.

Lemma run_cfg_ok v b n g : block_ok b → in_u64 n → cfg_ok g → cfg_ok (run_cfg v b n g).
Proof.
  intros Hb Hn Hg. apply attr_ok; [by apply static_ok|]. apply record_repeats_ok; auto with session.
Qed.

Lemma run_cfg_zero v b g : run_cfg v b 0 g = g.
Proof.
  unfold run_cfg, static, saturating_mul. rewrite !Z.mul_0_r. done.
Qed.

Lemma run_cfg_attr v b n p g :
  block_ok b → in_u64 n → pending_ok p → run_cfg v b n (attr p g) = attr p (run_cfg v b n g).
Proof.
  intros. unfold run_cfg. rewrite attr_repeats. apply attr_commute; [by apply static_ok|done].
Qed.

Lemma run_cfg_unclassified v b n a g :
  run_cfg v b n (attribute_unclassified a g) = attribute_unclassified a (run_cfg v b n g).
Proof. unfold run_cfg. by rewrite record_repeats_attribute_unclassified, attr_unclassified. Qed.

(** A run grown by one execution is the run followed by that execution. *)
Lemma run_cfg_add v b j k g :
  block_ok b → cfg_ok g → 0 ≤ j → 0 ≤ k → j + k ≤ u64_max →
  run_cfg v b k (run_cfg v b j g) = run_cfg v b (j + k) g.
Proof.
  intros Hb Hg Hj Hk Hjk. unfold run_cfg. rewrite attr_repeats, attr_merge, static_add; try done.
  - f_equal. apply record_repeats_add; auto with session.
  - repeat apply record_repeats_ok; auto with session; word_lia.
  - apply static_ok; [done|word_lia].
  - apply static_ok; [done|word_lia].
Qed.

Lemma run_cfg_once v b g :
  block_ok b → just_ran v (cost b) g →
  attr (static b 1) (record_block v (cost b) g) = run_cfg v b 1 g.
Proof. intros. unfold run_cfg. rewrite record_block_repeat; auto with session. Qed.

Lemma run_cfg_just_ran v b n c g : just_ran v c g → just_ran v c (run_cfg v b n g).
Proof.
  intros. apply attr_just_ran. unfold record_repeats. case_match; [done|].
  by apply just_ran_with_block.
Qed.


(** ** The cache inside a session *)

Lemma access_line_traffic store ct la ct' :
  in_u64 (Cache.line_size ct.1) → traffic_ok ct.2 → Cache.access_line store ct la = Done ct' →
  Cache.line_size ct'.1 = Cache.line_size ct.1 ∧ traffic_ok ct'.2.
Proof.
  destruct ct as [c t]. intros Hl [Ht1 Ht2] H. simpl in *.
  destruct (List.find _ _) as [[? idx]|].
  - destruct (Cache.lines c !! _); simpl in H; [|done]. injection H as <-. done.
  - unfold Cache.lookup_line in H. destruct (Cache.set_and_tag _ _) as [si tg].
    destruct (slice _ _ _) as [set|]; simpl in H; [|done].
    destruct (position _ set) as [way|]; simpl in H.
    + destruct (set !! way); simpl in H; [|done].
      destruct (Cache.mru c !! _); simpl in H; [|done]. injection H as <-. done.
    + destruct (set !! _) as [old|]; simpl in H; [|done]. injection H as <-. simpl.
      split; [done|]. split; simpl; [by apply saturating_add_range|].
      destruct (_ && _); [by apply saturating_add_range|done].
Qed.

Lemma cache_access_ok c a n store :
  Cache.wf c → in_u64 a → in_u64 n →
  ∃ c' t, Cache.access c a n store = Done (c', t) ∧ Cache.wf c' ∧ traffic_ok t.
Proof.
  intros Hwf Ha Hn.
  destruct (Plain.access_same c a n store Hwf Ha Hn) as ([c' t] & s' & H & _ & (Hwf' & _ & _)).
  exists c', t. split_and!; [done..|]. unfold Cache.access in H.
  destruct (n =? 0). { injection H as <- <-. split; simpl; word_lia. }
  assert (Hl : in_u64 (Cache.line_size c)).
  { pose proof (Cache.geo_line_two _ (Cache.wf_geometry _ Hwf)). word_lia. }
  revert H. generalize (Cache.touched_lines c a n). intros las.
  assert (Ht0 : traffic_ok Cache.no_traffic) by (split; simpl; word_lia).
  revert Ht0 Hl. clear. generalize Cache.no_traffic. revert c.
  induction las as [|la las IH]; intros c t0 Ht Hl H; cbn [fold_outcome] in H; [by injection H as <- <-|].
  destruct (Cache.access_line _ _ _) as [[c1 t1]|] eqn:E; [|done].
  destruct (access_line_traffic store (c, t0) la (c1, t1)) as [E1 E2]; [done..|]. simpl in *.
  apply (IH c1 t1); [done|by rewrite E1|done].
Qed.

(** ** The open run of a batch *)

(** The effect of the open run on the counters and on the graph: it commutes with the
    records that may arrive while it is open. *)
Record run_effect (C : CounterSnapshot → CounterSnapshot) (G : DynamicCfg → DynamicCfg) : Prop := {
  run_C_ok c : counters_ok c → counters_ok (C c);
  run_C_operand n st c : in_u64 n → C (add_operand n st c) = add_operand n st (C c);
  run_C_dram t c : C (add_dram t c) = add_dram t (C c);
  run_C_unclassified c : C (add_unclassified c) = add_unclassified (C c);
  run_G_ok g : cfg_ok g → cfg_ok (G g);
  run_G_attr p g : pending_ok p → G (attr p g) = attr p (G g);
  run_G_unclassified a g : G (attribute_unclassified a g) = attribute_unclassified a (G g)
}.

Lemma run_effect_id : run_effect id id.
Proof. by split. Qed.

Lemma run_effect_run v b n : block_ok b → in_u64 n → run_effect (run_counters b n) (run_cfg v b n).
Proof.
  intros Hb Hn. split; intros.
  - by apply run_counters_ok.
  - by apply run_counters_operand.
  - done.
  - done.
  - by apply run_cfg_ok.
  - by apply run_cfg_attr.
  - apply run_cfg_unclassified.
Qed.

(** Either no run is open, or the block of the open run is the one that ran last. *)
Definition run_ok (t : nat) (b : Batch) : Prop :=
  (run_handle b = u32_max ∧ run_count b = 0) ∨
  ∃ blk, 0 ≤ run_handle b < u32_max ∧ blocks (inner b) !! Z.to_nat (run_handle b) = Some blk ∧
         just_ran t (cost blk) (cfg (inner b)).

Record batch_inv (t : nat) (n : Z) (b : Batch) : Prop := {
  inv_session : session_ok (inner b);
  inv_pending : pending_ok (pending b);
  inv_count : 0 ≤ run_count b ≤ n;
  inv_run : run_ok t b
}.

Lemma session_block s h b : session_ok s → blocks s !! h = Some b → block_ok b.
Proof. intros Hs Hb. by eapply (Forall_lookup_1 _ _ _ _ (ok_blocks _ Hs)). Qed.
Lemma session_mem s h m : session_ok s → mems s !! h = Some m → mem_ok m.
Proof. intros Hs Hm. by eapply (Forall_lookup_1 _ _ _ _ (ok_mems _ Hs)). Qed.

Lemma inner_eta s c g :
  c = counters s → g = cfg s → mkInner c g (cache s) (memory s) (image s) (output s) (blocks s) (mems s) = s.
Proof. intros -> ->. by destruct s. Qed.

Lemma flush_repeats_run t blk h n s :
  blocks s !! Z.to_nat h = Some blk → counters_ok (counters s) →
  flush_repeats t h n s = with_cfg (run_cfg t blk n) (with_counters (run_counters blk n) s).
Proof.
  intros Hblk Hc. unfold flush_repeats. destruct (Z.eqb_spec n 0) as [->|].
  - unfold with_cfg, with_counters; simpl. rewrite run_cfg_zero, run_counters_zero by done.
    by destruct s.
  - rewrite Hblk, add_static_memory_eq. done.
Qed.

(** The open run of [b] has an effect, the same on every session with [b]'s blocks. *)
Lemma flush_repeats_effect t n b :
  batch_inv t n b → n ≤ u64_max →
  ∃ C G, run_effect C G ∧ ∀ s, blocks s = blocks (inner b) → counters_ok (counters s) →
    flush_repeats t (run_handle b) (run_count b) s = with_cfg G (with_counters C s).
Proof.
  intros [Hs Hp Hn [[Hh Hc]|(blk & Hh & Hblk & Hj)]] Hmax.
  - exists id, id. split; [apply run_effect_id|]. intros s _ _. rewrite Hc. by destruct s.
  - exists (run_counters blk (run_count b)), (run_cfg t blk (run_count b)).
    split; [apply run_effect_run; [by eapply session_block|word_lia]|].
    intros s Hbs Hk. apply flush_repeats_run; [by rewrite Hbs|done].
Qed.

(** ** One record *)

Lemma settle_eq t b C G :
  flush_repeats t (run_handle b) (run_count b) (inner b) =
    with_cfg G (with_counters C (inner b)) →
  settle t b = with_cfg (λ g, attr (pending b) (G g)) (with_counters C (inner b)).
Proof. intros H. unfold settle. by rewrite H. Qed.

Lemma operand_ok m tr : mem_ok m → traffic_ok tr → pending_ok (operand m tr).
Proof. intros [] []. destruct m as [? ? []]; session_auto. Qed.

(** A non-empty operand is never skipped. *)
Lemma attr_operand m tr g :
  mem_ok m → m_size m ≠ 0 →
  attr (operand m tr) g =
  (let '(arch_load, arch_store) := if m_store m then (0, m_size m) else (m_size m, 0) in
   attribute_memory (m_block m) arch_load arch_store (Cache.bytes_load tr) (Cache.bytes_store tr) g).
Proof.
  intros Hm Hn. destruct (attr_cases (operand m tr)) as [[E _]|[_ ->]].
  - apply pending_empty_spec in E as (E1 & E2 & _). destruct m as [? ? []]; simpl in *; done.
  - by destruct m as [? ? []].
Qed.

Lemma add_pending_eq m tr p :
  pending_ok p → p_block p = m_block m → add_pending m tr p = pending_add p (operand m tr).
Proof.
  intros Hp Hb. destruct m as [? ? []]; unfold add_pending, pending_add; simpl; f_equal;
    symmetry; apply saturating_add_0_r; apply Hp.
Qed.

Lemma pending_add_ok p q : pending_ok p → pending_ok q → pending_ok (pending_add p q).
Proof. intros. session_auto. Qed.

(** Coalescing: where the pending entry goes, and that it loses nothing. *)
Lemma coalesce m tr p g (G : DynamicCfg → DynamicCfg) :
  mem_ok m → traffic_ok tr → pending_ok p →
  cfg_ok g → (∀ g, cfg_ok g → cfg_ok (G g)) → (∀ q g, pending_ok q → G (attr q g) = attr q (G g)) →
  let '(p', g') := switch_block (m_block m) p g in
  pending_ok (add_pending m tr p') ∧ (g' = g ∨ g' = attr p g) ∧
  attr (add_pending m tr p') (G g') = attr (operand m tr) (attr p (G g)).
Proof.
  intros Hm Ht Hp Hg HG Hc. pose proof (operand_ok m tr Hm Ht) as Ho.
  unfold switch_block.
  destruct (Z.eqb_spec (p_block p) (m_block m)) as [E|E]; simpl.
  - rewrite add_pending_eq by done. split_and!; [by apply pending_add_ok|by left|].
    symmetry. by apply attr_merge; [apply HG|..].
  - assert (Hf : flush p g = (mkPending (p_block p) 0 0 0 0, attr p g)).
    { unfold attr, flush. destruct (pending_empty p) eqn:Ep; [|done].
      apply pending_empty_spec in Ep. destruct p; simpl in *. by destruct Ep as (-> & -> & -> & ->). }
    rewrite Hf. simpl.
    assert (Hz : pending_ok (mkPending (m_block m) 0 0 0 0)) by session_auto.
    rewrite add_pending_eq by done. split_and!; [by apply pending_add_ok|by right|].
    rewrite <-attr_merge, Hc; [done|done|..]; try done. by apply HG, attr_ok.
Qed.

(** The batch after an operand, in terms of the traffic of its cache access. *)
Lemma batch_mem_eq t m a b c' tr :
  counters_ok (counters (inner b)) → mem_ok m →
  Cache.access (cache (inner b)) a (m_size m) (m_store m) = Done (c', tr) →
  batch_mem t m a b = Done (
    let s := inner b in
    let '(p, g) := switch_block (m_block m) (pending b) (cfg s) in
    mkBatch (mkInner (add_dram tr (add_operand (m_size m) (m_store m) (counters s))) g c'
               (MemoryAnalysis.access t a (m_size m) (m_store m) <$> memory s) (image s) (output s)
               (blocks s) (mems s))
      (run_handle b) (run_count b) (add_pending m tr p)).
Proof.
  intros Hk Hm Hacc. unfold batch_mem. simpl cache. rewrite Hacc. cbn [mbind outcome_bind].
  rewrite <-(add_dram_skip tr (add_operand _ _ _)) by (apply add_operand_ok; [apply Hm|done]).
  destruct (negb (Cache.bytes_load tr =? 0) || negb (Cache.bytes_store tr =? 0));
    cbn [cfg with_cfg with_counters with_cache access_memory with_memory];
    by destruct (switch_block _ _ _).
Qed.

Lemma batch_mem_sim t n m a b :
  batch_inv t n b → n ≤ u64_max → mem_ok m → m_size m ≠ 0 → in_u64 a →
  ∃ b', batch_mem t m a b = Done b' ∧ batch_inv t n b' ∧ mems (inner b') = mems (inner b) ∧
    mem_access t (m_block m) a (m_size m) (m_store m) (settle t b) = Done (settle t b').
Proof.
  intros HI Hn Hm Hsz Ha. destruct (flush_repeats_effect t n b HI Hn) as (C & G & HE & HF).
  destruct HI as [Hs Hp Hcnt Hrun].
  rewrite (settle_eq t b C G) by (apply HF; [done|apply Hs]).
  destruct (cache_access_ok (cache (inner b)) a (m_size m) (m_store m)) as (c' & tr & Hacc & Hwf & Htr);
    [apply Hs|done|apply Hm|].
  rewrite (batch_mem_eq t m a b c' tr (ok_counters _ Hs) Hm Hacc).
  pose proof (coalesce m tr (pending b) (cfg (inner b)) G Hm Htr Hp (ok_cfg _ Hs) (run_G_ok _ _ HE)
    (run_G_attr _ _ HE)) as Hco. cbv zeta.
  destruct (switch_block _ _ _) as [p' g']. destruct Hco as (Hp' & Hg' & Hattr).
  eexists; split; [done|]. cbn [inner mems].
  assert (Hk : counters_ok (add_dram tr (add_operand (m_size m) (m_store m) (counters (inner b)))))
    by (apply add_dram_ok, add_operand_ok; [done|apply Hm|apply Hs]).
  split_and!; [|done|].
  - destruct Hs as [? Hcfg ? ? ?]. split; [split; try done|done|done|]; cbn [inner cfg] in *.
    + destruct Hg' as [->| ->]; [done|by apply attr_ok].
    + destruct Hrun as [?|(blk & ? & ? & ?)]; [by left|right]. exists blk. split; [done|split; [done|]].
      cbn [inner cfg]. destruct Hg' as [->| ->]; [done|by apply attr_just_ran].
  - rewrite (settle_eq t (mkBatch _ _ _ _) C G) by (apply HF; [done|exact Hk]).
    unfold mem_access. cbn [cache with_cfg with_counters access_memory with_memory].
    rewrite Hacc. cbn [mbind outcome_bind]. 
    pose proof (attr_operand m tr (attr (pending b) (G (cfg (inner b)))) Hm Hsz) as Hop.
    rewrite <-Hattr in Hop.
    destruct (if m_store m then _ else _) as [al as_]. f_equal.
    unfold with_cfg, with_counters, with_cache, with_memory; simpl. rewrite Hop.
    by rewrite (run_C_dram _ _ HE), (run_C_operand _ _ HE) by apply Hm.
Qed.

Lemma flush_repeats_blocks t h n s :
  blocks (flush_repeats t h n s) = blocks s ∧ mems (flush_repeats t h n s) = mems s.
Proof. unfold flush_repeats, add_static_memory. repeat case_match; done. Qed.

Lemma flush_repeats_ok t n b :
  batch_inv t n b → n ≤ u64_max →
  session_ok (flush_repeats t (run_handle b) (run_count b) (inner b)).
Proof.
  intros HI Hn. destruct (flush_repeats_effect t n b HI Hn) as (C & G & HE & HF).
  destruct HI as [Hs _ _ _]. rewrite HF by (try done; apply Hs).
  destruct Hs. split; simpl; [by apply HE|by apply HE|done..].
Qed.

(** One more execution of a block, outside a run. *)
Lemma exec_once_ok t blk s :
  session_ok s → block_ok blk → session_ok (add_static_memory blk 1 (exec_block t (cost blk) s)).
Proof.
  intros [] Hb. rewrite add_static_memory_eq. split; simpl; try done.
  - apply add_arch_ok; auto with session. apply add_exec_counters_ok; auto with session.
  - apply attr_ok; [apply static_ok; auto with session|]. apply record_block_ok; auto with session.
Qed.

Lemma as_u32_handle d : in_u32 d → as_u32 (Z.shiftr d 2) = Z.shiftr d 2 ∧ 0 ≤ Z.shiftr d 2 < u32_max.
Proof.
  intros Hd. rewrite Z.shiftr_div_pow2 by lia. change (2 ^ 2) with 4.
  pose proof (Z.div_mod d 4 ltac:(lia)). pose proof (Z.mod_pos_bound d 4 ltac:(lia)).
  rewrite as_u32_small; word_lia.
Qed.

(** A block that continues the open run. *)
Lemma exec_run_sim t n blk b :
  batch_inv t n b → n < u64_max → blocks (inner b) !! Z.to_nat (run_handle b) = Some blk →
  just_ran t (cost blk) (cfg (inner b)) →
  settle t (mkBatch (inner b) (run_handle b) (run_count b + 1) (pending b)) =
  add_static_memory blk 1 (exec_block t (cost blk) (settle t b)).
Proof.
  intros [Hs Hp Hcnt Hrun] Hn Hblk Hj. pose proof (session_block _ _ _ Hs Hblk) as Hb.
  rewrite (settle_eq t b _ _ (flush_repeats_run t blk _ _ _ Hblk (ok_counters _ Hs))).
  rewrite (settle_eq t (mkBatch _ _ _ _) _ _
    (flush_repeats_run t blk _ (run_count b + 1) _ Hblk (ok_counters _ Hs))).
  rewrite add_static_memory_eq. unfold exec_block, with_cfg, with_counters.
  cbn [counters cfg cache memory image output blocks mems inner run_count run_handle pending]. f_equal.
  - rewrite <-run_counters_add; [done|done|apply Hs|lia|lia].
  - rewrite attr_record_block, (attr_commute (static blk 1)), run_cfg_once; try done.
    + rewrite run_cfg_add; [done|done|apply Hs|lia|lia|lia].
    + by apply run_cfg_just_ran.
    + apply static_ok; auto with session.
Qed.

(** A block that starts a new run, or none. *)
Lemma exec_new_sim t blk b h :
  pending_ok (pending b) → block_ok blk →
  settle t (mkBatch (add_static_memory blk 1 (exec_block t (cost blk)
              (flush_repeats t (run_handle b) (run_count b) (inner b)))) h 0 (pending b)) =
  add_static_memory blk 1 (exec_block t (cost blk) (settle t b)).
Proof.
  intros Hp Hb. unfold settle. cbn [run_handle run_count inner pending].
  generalize (flush_repeats t (run_handle b) (run_count b) (inner b)) as s. intros s.
  change (flush_repeats t h 0 ?s) with s.
  rewrite !add_static_memory_eq.
  unfold exec_block, with_cfg, with_counters; simpl. f_equal.
  change (flush (pending b) ?g).2 with (attr (pending b) g).
  rewrite attr_record_block. apply attr_commute; [done|apply static_ok; auto with session].
Qed.

Lemma batch_exec_sim t n h b :
  batch_inv t n b → n < u64_max → as_u32 h = h → 0 ≤ h < u32_max →
  batch_inv t (n + 1) (batch_exec t h b) ∧
  match blocks (inner b) !! Z.to_nat h with
  | None => settle t b
  | Some blk => add_static_memory blk 1 (exec_block t (cost blk) (settle t b))
  end = settle t (batch_exec t h b).
Proof.
  intros HI Hn Hh Hr. unfold batch_exec. rewrite Hh.
  destruct (Z.eqb_spec h (run_handle b)) as [->|Hne].
  - destruct (inv_run _ _ _ HI) as [[E _]|(blk & _ & Hblk & Hj)]; [lia|]. rewrite Hblk.
    pose proof (inv_count _ _ _ HI) as Hc.
    assert (wrapping_add (run_count b) 1 = run_count b + 1) as -> by (apply wrap64_small; word_lia).
    split; [|symmetry; by eapply exec_run_sim].
    destruct HI as [Hs Hp _ Hrun]. split; simpl; [done|done|lia|].
    right. by exists blk.
  - pose proof (flush_repeats_ok t n b HI ltac:(lia)) as Hok.
    destruct (flush_repeats_blocks t (run_handle b) (run_count b) (inner b)) as [E _]. rewrite E.
    destruct HI as [Hs Hp Hcnt Hrun].
    destruct (blocks (inner b) !! Z.to_nat h) as [blk|] eqn:Hblk.
    + pose proof (session_block _ _ _ Hs Hblk) as Hb.
      split; [|symmetry; by apply exec_new_sim].
      split; cbn [inner pending run_count]; [by apply exec_once_ok|done|lia|].
      case_decide as Hf; [right|by left]. exists blk. cbn [run_handle inner]. split; [done|].
      rewrite add_static_memory_eq. split; [simpl; by rewrite E|]. simpl.
      apply attr_just_ran. by apply record_block_just_ran.
    + split; [split; simpl; [done|done|lia|by left]|]. done.
Qed.

Lemma batch_unclassified_sim t n h b :
  batch_inv t n b → n ≤ u64_max →
  batch_inv t n (batch_unclassified h b) ∧
  match blocks (inner b) !! Z.to_nat h with
  | None => settle t b
  | Some blk => unclassified_exec (vaddr (cost blk)) (settle t b)
  end = settle t (batch_unclassified h b).
Proof.
  intros HI Hn. unfold batch_unclassified.
  destruct (blocks (inner b) !! Z.to_nat h) as [blk|] eqn:Hblk; [|done].
  destruct (flush_repeats_effect t n b HI Hn) as (C & G & HE & HF).
  destruct HI as [Hs Hp Hcnt Hrun].
  assert (Hk : counters_ok (add_unclassified (counters (inner b)))) by (apply add_unclassified_ok, Hs).
  split.
  - destruct Hs. split; [split; try done|done|done|].
    + by apply attribute_unclassified_ok.
    + destruct Hrun as [?|(b' & ? & ? & ?)]; [by left|right]. exists b'. split; [done|split; [done|]].
      by apply just_ran_with_block.
  - rewrite !(settle_eq t _ C G) by (apply HF; [done|first [exact Hk|apply Hs]]).
    unfold unclassified_exec, with_cfg, with_counters; simpl.
    by rewrite (run_C_unclassified _ _ HE), (run_G_unclassified _ _ HE), attr_unclassified.
Qed.

(** ** Whole batches *)

Definition record_ok (r : RcRecord) : Prop := in_u32 (desc r) ∧ in_u64 (address r).
Definition operands_nonempty (s : Inner) : Prop := Forall (λ m, m_size m ≠ 0) (mems s).

Lemma batch_exec_mems t h b : mems (inner (batch_exec t h b)) = mems (inner b).
Proof.
  unfold batch_exec. case_match; [done|].
  pose proof (proj2 (flush_repeats_blocks t (run_handle b) (run_count b) (inner b))) as <-.
  case_match; [|done]. cbn [inner]. unfold add_static_memory. by case_match.
Qed.

Lemma batch_unclassified_mems h b : mems (inner (batch_unclassified h b)) = mems (inner b).
Proof. unfold batch_unclassified. by case_match. Qed.

(** One record: the batch stays well formed, and settling it after the record is
    settling it before and handling the record alone. *)
Lemma batch_step_sim t n b r :
  batch_inv t n b → n < u64_max → record_ok r → operands_nonempty (inner b) →
  ∃ b', batch_step t b r = Done b' ∧ batch_inv t (n + 1) b' ∧ operands_nonempty (inner b') ∧
    per_event t (settle t b) r = Done (settle t b').
Proof.
  intros HI Hn [Hd Ha] Hne. unfold batch_step, per_event.
  assert (Hmono : ∀ b', batch_inv t n b' → batch_inv t (n + 1) b').
  { intros b' []. split; try done. lia. }
  assert (Hb : blocks (settle t b) = blocks (inner b) ∧ mems (settle t b) = mems (inner b)).
  { unfold settle; simpl. apply flush_repeats_blocks. }
  destruct Hb as [-> ->]. destruct (as_u32_handle (desc r) Hd) as [Hh1 Hh2].
  destruct (_ =? RC_RECORD_MEM).
  { destruct (mems (inner b) !! _) as [m|] eqn:Hm; [|by exists b; auto].
    destruct (batch_mem_sim t n m (address r) b) as (b' & H1 & H2 & H3 & H4);
      [done|lia| |by eapply (Forall_lookup_1 _ _ _ _ Hne)|done|].
    { by eapply session_mem; [apply HI|]. }
    exists b'. unfold operands_nonempty. rewrite H3. auto. }
  destruct (_ =? RC_RECORD_BLOCK_EXEC).
  { destruct (batch_exec_sim t n (Z.shiftr (desc r) 2) b) as [H1 H2]; [done..|].
    eexists; split_and!; [done|done| |by rewrite <-H2; case_match].
    unfold operands_nonempty. by rewrite batch_exec_mems. }
  destruct (_ =? RC_RECORD_UNCLASSIFIED); [|by exists b; auto].
  destruct (batch_unclassified_sim t n (Z.shiftr (desc r) 2) b) as [H1 H2]; [done|lia|].
  eexists; split_and!; [done|by auto| |by rewrite <-H2; case_match].
  unfold operands_nonempty. by rewrite batch_unclassified_mems.
Qed.

Lemma fold_batch_sim t rs : ∀ n b,
  batch_inv t n b → 0 ≤ n → n + Z.of_nat (length rs) ≤ u64_max → Forall record_ok rs →
  operands_nonempty (inner b) →
  ∃ b', fold_outcome (batch_step t) rs b = Done b' ∧
    batch_inv t (n + Z.of_nat (length rs)) b' ∧ operands_nonempty (inner b') ∧
    fold_outcome (per_event t) rs (settle t b) = Done (settle t b').
Proof.
  induction rs as [|r rs IH]; intros n b HI Hn Hmax Hrs Hne; cbn [fold_outcome length] in *.
  { exists b. by rewrite Z.add_0_r. }
  apply Forall_cons in Hrs as [Hr Hrs].
  destruct (batch_step_sim t n b r) as (b1 & -> & H2 & H3 & ->); [done|lia|done..|].
  destruct (IH (n + 1) b1) as (b' & -> & H5 & H6 & ->); [done|lia|lia|done..|].
  exists b'. replace (n + Z.of_nat (S (length rs))) with (n + 1 + Z.of_nat (length rs)) by lia. done.
Qed.

Lemma start_inv t s : session_ok s → batch_inv t 0 (mkBatch s u32_max 0 default_pending).
Proof. intros. split; simpl; [done|session_auto|lia|by left]. Qed.

Lemma settle_start t s : settle t (mkBatch s u32_max 0 default_pending) = s.
Proof. by destruct s. Qed.

Lemma settle_ok t n b : batch_inv t n b → n ≤ u64_max → session_ok (settle t b).
Proof.
  intros HI Hn. pose proof (flush_repeats_ok t n b HI Hn) as [].
  split; try done. simpl. by apply attr_ok; [apply HI|].
Qed.

Lemma process_records_events t rs s :
  session_ok s → operands_nonempty s → Forall record_ok rs → Z.of_nat (length rs) ≤ u64_max →
  ∃ s', process_records t rs s = Done s' ∧ fold_outcome (per_event t) rs s = Done s' ∧
    session_ok s' ∧ operands_nonempty s'.
Proof.
  intros Hs Hne Hrs Hlen.
  destruct (fold_batch_sim t rs 0 _ (start_inv t s Hs)) as (b' & H1 & H2 & H3 & H4); [lia|lia|done..|].
  exists (settle t b'). unfold process_records. rewrite H1. rewrite settle_start in H4.
  split_and!; [done|done|by eapply settle_ok|].
  unfold operands_nonempty, settle; simpl. by rewrite (proj2 (flush_repeats_blocks _ _ _ _)).
Qed.

End CapiSpec.

Import CapiSpec.

(** ** Properties *)

(** C1: the batched path of the DynamoRIO client is an optimisation only.  On a well
    formed session whose registered operands are not empty, [rc_process_batch] (run
    aggregation of self loops, coalesced memory attribution, skipped zero traffic) ends
    without panicking in exactly the session that handling its records one by one with
    the single-event entry points produces, and that session is well formed again. *)
Theorem batch_matches_single_events t rs s :
  session_ok s → operands_nonempty s → Forall record_ok rs → Z.of_nat (length rs) ≤ u64_max →
  ∃ s', rc_process_batch (Some s) t (Some rs) = Done (Some s') ∧
    fold_outcome (per_event t) rs s = Done s' ∧ session_ok s'.
Proof.
  intros Hs Hne Hrs Hlen. destruct (process_records_events t rs s) as (s' & H1 & H2 & H3 & _); [done..|].
  exists s'. split_and!; [|done|done]. destruct rs; [by injection H2 as ->|]. simpl in *. by rewrite H1.
Qed.

Lemma sample_inner_ok : session_ok sample_inner ∧ operands_nonempty sample_inner.
Proof.
  split; [split|].
  - split; vm_compute; split; congruence.
  - split; apply map_Forall_empty.
  - eapply (Cache.new_wf 64 4096 2); [vm_compute; reflexivity|vm_compute; intuition congruence..].
  - repeat constructor; vm_compute; congruence.
  - repeat constructor; vm_compute; congruence.
  - repeat constructor; vm_compute; congruence.
Qed.

(** A self loop with two operands per iteration, then the call. *)
Definition sample_records : list RcRecord :=
  [mkRecord 0 0; mkRecord 1 4096; mkRecord 5 8192; mkRecord 0 0; mkRecord 1 4160; mkRecord 5 8256;
   mkRecord 0 0; mkRecord 1 4224; mkRecord 4 0; mkRecord 6 0].

Lemma sample_records_ok : Forall record_ok sample_records.
Proof. repeat constructor; vm_compute; congruence. Qed.

Lemma batch_matches_single_events_witness :
  ∃ s', rc_process_batch (Some sample_inner) 0 (Some sample_records) = Done (Some s') ∧
    rc_instruction_count (Some s') = 18 ∧ bytes_load (counters s') = 48 ∧
    fold_outcome (per_event 0) sample_records sample_inner = Done s'.
Proof.
  destruct (batch_matches_single_events 0 sample_records sample_inner) as (s' & H1 & H2 & _);
    [apply sample_inner_ok|apply sample_inner_ok|apply sample_records_ok|vm_compute; congruence|].
  exists s'. split; [done|].
  assert (E : (λ s, (rc_instruction_count (Some s), bytes_load (counters s)))
    <$> fold_outcome (per_event 0) sample_records sample_inner = Done (18, 48)) by (vm_compute; reflexivity).
  rewrite H2 in E. injection E as E1 E2. split_and!; [exact E1|exact E2|exact H2].
Defined.

(** Where a buffer is cut does not matter.  A sequence of records handed over as two
    batches leaves the same session as one batch, although the run counter and the
    pending memory traffic live only within a call. *)
Theorem batch_split t rs1 rs2 s :
  session_ok s → operands_nonempty s → Forall record_ok (rs1 ++ rs2) →
  Z.of_nat (length (rs1 ++ rs2)) ≤ u64_max →
  rc_process_batch (Some s) t (Some (rs1 ++ rs2)) =
  (s1 ← rc_process_batch (Some s) t (Some rs1); rc_process_batch s1 t (Some rs2)).
Proof.
  intros Hs Hne Hrs Hlen.
  assert (Hb : ∀ rs s, session_ok s → operands_nonempty s → Forall record_ok rs →
    Z.of_nat (length rs) ≤ u64_max →
    rc_process_batch (Some s) t (Some rs) = Some <$> process_records t rs s).
  { intros [|r rs'] s0; [by destruct s0|done]. }
  pose proof Hrs as Hrs'. apply Forall_app in Hrs' as [H1 H2]. rewrite length_app in Hlen.
  rewrite !Hb by (try done; rewrite ?length_app; lia).
  destruct (process_records_events t rs1 s) as (s1 & E1 & F1 & Hs1 & Hne1); [done..|lia|].
  destruct (process_records_events t (rs1 ++ rs2) s) as (s2 & E2 & F2 & _); [done..|rewrite length_app; lia|].
  destruct (process_records_events t rs2 s1) as (s3 & E3 & F3 & _); [done..|lia|].
  rewrite E1, E2. cbn [fmap outcome_fmap mbind outcome_bind]. rewrite Hb, E3 by (done || lia).
  rewrite fold_outcome_app, F1, F3 in F2. by injection F2 as ->.
Qed.

Lemma batch_split_witness :
  rc_process_batch (Some sample_inner) 0 (Some (take 4 sample_records ++ drop 4 sample_records)) =
  (s1 ← rc_process_batch (Some sample_inner) 0 (Some (take 4 sample_records));
   rc_process_batch s1 0 (Some (drop 4 sample_records))).
Proof.
  apply (batch_split 0 (take 4 sample_records) (drop 4 sample_records) sample_inner);
    [apply sample_inner_ok|apply sample_inner_ok|rewrite take_drop; apply sample_records_ok
    |vm_compute; congruence].
Defined.
