(* ===== verification/Accounting.v ===== *)
(** * Every counted byte and operation belongs to a block

    The counters of a session and the blocks of its graph are updated by separate
    statements throughout [capi.rs].  This file shows that they never drift apart: in
    every session reachable through the entry points, each counter that is also kept per
    block is the saturated sum over the blocks. *)

From S2P Require Import Prelude Words Cache Cfg OrderTree MemoryAnalysis Capi CapiSpec.
Open Scope Z_scope.
Import Cfg Capi CapiSpec.

Module Accounting.

(** ** Totals over the blocks *)

Definition total (f : DynamicBlockCounts → Z) (g : DynamicCfg) : Z :=
  map_fold (λ _ b acc, f b + acc) 0 (Cfg.blocks g).

(** A counter of the session and the block counter it corresponds to. *)
Record view : Type := mkView {
  of_counters : CounterSnapshot → Z;
  of_block : DynamicBlockCounts → Z
}.

Definition views : list view :=
  [mkView scalar_int_ops scalar_int; mkView scalar_float_ops scalar_float;
   mkView scalar_double_ops scalar_double; mkView vector_int_ops vector_int;
   mkView vector_float_ops vector_float; mkView vector_double_ops vector_double;
   mkView bytes_load Cfg.arch_bytes_load; mkView bytes_store Cfg.arch_bytes_store;
   mkView dram_bytes_load Cfg.bytes_load; mkView dram_bytes_store Cfg.bytes_store;
   mkView unclassified_instructions unclassified].

Definition balanced_view (k : CounterSnapshot) (g : DynamicCfg) (v : view) : Prop :=
  of_counters v k = Z.min (total (of_block v) g) u64_max.

Definition balanced (k : CounterSnapshot) (g : DynamicCfg) : Prop := Forall (balanced_view k g) views.

(** A block counter of the views: zero in a new entry, never negative. *)
Definition block_counter (f : DynamicBlockCounts → Z) : Prop :=
  f default_counts = 0 ∧ ∀ b, counts_ok b → 0 ≤ f b.

Ltac block_counter := split; [done|intros ? []; by apply u64_nonneg].

Lemma total_insert f (m : gmap Z DynamicBlockCounts) a b :
  m !! a = None →
  map_fold (λ _ b acc, f b + acc) 0 (<[a := b]> m) = f b + map_fold (λ _ b acc, f b + acc) 0 m.
Proof. intros Ha. rewrite map_fold_insert_L; [done| |done]. intros; lia. Qed.

Lemma total_with_block f a u g :
  f default_counts = 0 →
  total f (with_block a u g) =
  total f g - f (default default_counts (Cfg.blocks g !! a)) +
    f (u (default default_counts (Cfg.blocks g !! a))).
Proof.
  intros Hf. unfold total; simpl. destruct (Cfg.blocks g !! a) as [b|] eqn:E; simpl.
  - rewrite <-insert_delete_eq, total_insert by apply lookup_delete_eq.
    rewrite <-(insert_delete_id (Cfg.blocks g) a b) at 2 by done.
    rewrite total_insert by apply lookup_delete_eq. lia.
  - rewrite total_insert by done. lia.
Qed.

Lemma total_bound f g a :
  block_counter f → cfg_ok g →
  0 ≤ f (default default_counts (Cfg.blocks g !! a)) ≤ total f g.
Proof.
  intros [H0 Hf] [Hb _].
  assert (Hpos : ∀ m : gmap Z DynamicBlockCounts, map_Forall (λ _ b, counts_ok b) m →
    0 ≤ map_fold (λ _ b acc, f b + acc) 0 m).
  { intros m. induction m as [|i b m Hi IH] using map_ind; intros Hm; [done|].
    rewrite total_insert by done. apply map_Forall_insert in Hm as [Hb' Hm]; [|done].
    specialize (Hf b Hb'). specialize (IH Hm). lia. }
  unfold total. destruct (Cfg.blocks g !! a) as [b|] eqn:E; simpl.
  - rewrite <-(insert_delete_id (Cfg.blocks g) a b) by done.
    rewrite total_insert by apply lookup_delete_eq.
    specialize (Hf b (Hb a b E)). specialize (Hpos (delete a (Cfg.blocks g)) (map_Forall_delete _ _ _ Hb)). lia.
  - rewrite H0. specialize (Hpos _ Hb). lia.
Qed.

(** The same amount charged to a block and to the counter keeps a view balanced. *)
Lemma balanced_charge v k k' a u g x :
  block_counter (of_block v) → cfg_ok g → 0 ≤ x → balanced_view k g v →
  of_counters v k' = saturating_add (of_counters v k) x →
  of_block v (u (default default_counts (Cfg.blocks g !! a))) =
    saturating_add (of_block v (default default_counts (Cfg.blocks g !! a))) x →
  balanced_view k' (with_block a u g) v.
Proof.
  intros Hc Hg Hx Hbal Hk Hu.
  pose proof (total_bound _ g a Hc Hg). unfold balanced_view in *.
  rewrite Hk, Hbal, total_with_block, Hu by apply Hc. word_lia.
Qed.

(** A view that neither side touches. *)
Lemma balanced_same v k k' a u g :
  block_counter (of_block v) → balanced_view k g v → of_counters v k' = of_counters v k →
  of_block v (u (default default_counts (Cfg.blocks g !! a))) =
    of_block v (default default_counts (Cfg.blocks g !! a)) →
  balanced_view k' (with_block a u g) v.
Proof.
  intros Hv Hbal Hk Hu. unfold balanced_view in *.
  rewrite Hk, Hbal, total_with_block, Hu by apply Hv. f_equal. lia.
Qed.

Lemma balanced_blocks k g g' : Cfg.blocks g' = Cfg.blocks g → balanced k g → balanced k g'.
Proof. intros E. unfold balanced, balanced_view, total. by rewrite E. Qed.

Create HintDb accounting.
#[local] Hint Resolve saturating_mul_range in_u64_1 ok_c_si ok_c_sf ok_c_sd ok_c_vi ok_c_vf ok_c_vd
  u64_nonneg ok_arch_load ok_arch_store ok_cost : accounting.

(** All views at once, each charged or left alone; [tac] shows what the block update
    does to one counter. *)
Ltac balance_with H tac :=
  unfold balanced, views in H |- *; rewrite !Forall_cons in H;
  destruct H as (? & ? & ? & ? & ? & ? & ? & ? & ? & ? & ? & _);
  repeat (apply Forall_cons; split); [..|by apply Forall_nil];
  first [ eapply balanced_same; [block_counter|eassumption|done|solve [tac]]
        | eapply balanced_charge;
          [block_counter|done| |eassumption|cbn; reflexivity|solve [tac]];
          solve [auto with accounting] ].
Ltac balance H := balance_with H ltac:(reflexivity).

Lemma balanced_attribute_memory k g a al as_ dl ds :
  in_u64 al → in_u64 as_ → in_u64 dl → in_u64 ds → cfg_ok g → balanced k g →
  balanced (add_dram (Cache.mkTraffic dl ds) (add_arch al as_ k)) (attribute_memory a al as_ dl ds g).
Proof. intros ? ? ? ? Hg H. balance H. Qed.

Lemma balanced_unclassified k g a :
  cfg_ok g → balanced k g → balanced (add_unclassified k) (attribute_unclassified a g).
Proof. intros Hg H. balance H. Qed.

Lemma balanced_vector k g a class n :
  in_u64 n → cfg_ok g → balanced k g → balanced (add_vector class n k) (attribute_vector a class n g).
Proof. intros Hn Hg H. destruct class; balance H. Qed.

Lemma balanced_record_block k g t c :
  cost_ok c → cfg_ok g → balanced k g → balanced (add_exec_counters c 1 k) (record_block t c g).
Proof.
  intros Hc Hg H. unfold record_block. set (h := set_last _ _ _).
  assert (Hh : cfg_ok h). { pose proof (follow_ok t (vaddr c) (grow t g) Hg). done. }
  apply (balanced_blocks k g h) in H; [|subst h; simpl; by rewrite follow_blocks].
  clearbody h. unfold add_exec_counters. rewrite (saturating_mul_1 (c_scalar_int c)),
    (saturating_mul_1 (c_scalar_float c)), (saturating_mul_1 (c_scalar_double c)),
    (saturating_mul_1 (c_vector_int c)), (saturating_mul_1 (c_vector_float c)),
    (saturating_mul_1 (c_vector_double c)) by apply Hc.
  balance_with H ltac:(unfold execute, merge_end; simpl; repeat case_match; reflexivity).
Qed.

Lemma balanced_counted k g c n ss :
  cost_ok c → in_u64 n → n ≠ 0 → cfg_ok g → balanced k g →
  balanced (add_exec_counters c n k) (record_counted_block c n ss g).
Proof.
  intros Hc Hn Hz Hg H. unfold record_counted_block. rewrite (proj2 (Z.eqb_neq _ _) Hz).
  set (h := with_block _ _ _).
  assert (Hh : balanced (add_exec_counters c n k) h) by (subst h; balance H).
  clearbody h. clear H. revert h Hh. induction ss as [|x ss IH]; intros h Hh; [done|].
  apply IH. unfold add_successor. by repeat case_match.
Qed.

(** ** Entry points *)

Lemma add_operand_eq n st k :
  counters_ok k → add_operand n st k = add_arch (if st then 0 else n) (if st then n else 0) k.
Proof.
  intros Hk. destruct st; unfold add_operand, add_arch, set_arch; f_equal; symmetry;
    apply saturating_add_0_r; apply Hk.
Qed.

Lemma add_dram_zero k : counters_ok k → add_dram (Cache.mkTraffic 0 0) k = k.
Proof. intros Hk. by rewrite <-add_dram_skip. Qed.

Lemma balanced_static b n k g :
  block_ok b → in_u64 n → counters_ok k → cfg_ok g → balanced k g →
  balanced (add_arch (saturating_mul (arch_bytes_load b) n) (saturating_mul (arch_bytes_store b) n) k)
    (attr (static b n) g).
Proof.
  intros Hb Hn Hk Hg H.
  assert (Ha : counters_ok (add_arch (saturating_mul (arch_bytes_load b) n)
    (saturating_mul (arch_bytes_store b) n) k)) by (apply add_arch_ok; auto with accounting).
  destruct (attr_cases (static b n)) as [[E ->]|[_ ->]].
  - apply pending_empty_spec in E as (E1 & E2 & _). simpl in E1, E2. rewrite E1, E2.
    assert (add_arch 0 0 k = k) as ->; [|done].
    unfold add_arch. rewrite !saturating_add_0_r by apply Hk. by destruct k.
  - rewrite <-(add_dram_zero _ Ha).
    destruct (static_ok b n Hb Hn). by apply balanced_attribute_memory.
Qed.

(** The invariant of a run: well formed, non-empty operands, balanced. *)
Record accounted (s : Inner) : Prop := {
  acc_ok : session_ok s;
  acc_operands : operands_nonempty s;
  acc_balanced : balanced (counters s) (cfg s)
}.

Lemma accounted_exec t c s :
  cost_ok c → in_u64 (Cfg.instructions c) → accounted s → accounted (exec_block t c s).
Proof.
  intros Hc Hi [[] ? ?]. split; [split|..]; simpl; try done.
  - by apply add_exec_counters_ok; [..|apply in_u64_1|].
  - by apply record_block_ok.
  - by apply balanced_record_block.
Qed.

Lemma accounted_static b n s :
  block_ok b → in_u64 n → accounted s → accounted (add_static_memory b n s).
Proof.
  intros Hb Hn [[] ? ?]. rewrite add_static_memory_eq. split; [split|..]; simpl; try done.
  - apply add_arch_ok; auto with accounting.
  - apply attr_ok; [by apply static_ok|done].
  - by apply balanced_static.
Qed.

Lemma accounted_unclassified a s : accounted s → accounted (unclassified_exec a s).
Proof.
  intros [[] ? ?]. split; [split|..]; simpl; try done.
  - by apply add_unclassified_ok.
  - by apply attribute_unclassified_ok.
  - by apply balanced_unclassified.
Qed.

Lemma accounted_mem t blk a n st s s' :
  in_u64 a → in_u64 n → accounted s → mem_access t blk a n st s = Done s' → accounted s'.
Proof.
  intros Ha Hn [[Hk Hg Hw Hb Hm] Hne Hbal] H. unfold mem_access in H.
  destruct (cache_access_ok (cache s) a n st Hw Ha Hn) as (c' & [dl ds] & Hacc & Hw' & [Hdl Hds]).
  simpl cache in H. rewrite Hacc in H. cbn [mbind outcome_bind] in H. simpl in Hdl, Hds.
  assert (Hal : in_u64 (if st then 0 else n) ∧ in_u64 (if st then n else 0))
    by (destruct st; split; done || apply in_u64_0).
  assert (E : s' = with_cfg (attribute_memory blk (if st then 0 else n) (if st then n else 0) dl ds)
     (with_counters (λ k, add_dram (Cache.mkTraffic dl ds) (add_operand n st k))
       (with_cache c' (access_memory t a n st s)))).
  { destruct st; injection H as <-; done. }
  subst s'. clear H. destruct Hal. split; [split|..]; simpl; try done.
  - by apply add_dram_ok, add_operand_ok.
  - by apply attribute_memory_ok.
  - rewrite add_operand_eq by done. by apply balanced_attribute_memory.
Qed.

Lemma accounted_event t r s s' :
  record_ok r → accounted s → per_event t s r = Done s' → accounted s'.
Proof.
  intros [_ Ha] Hs H. unfold per_event in H. destruct (_ =? RC_RECORD_MEM).
  { destruct (mems s !! _) as [m|] eqn:Hm; [|by injection H as <-].
    eapply accounted_mem; [done| |done|done]. by eapply session_mem; [apply Hs|]. }
  destruct (_ =? RC_RECORD_BLOCK_EXEC); [|destruct (_ =? RC_RECORD_UNCLASSIFIED)];
    [| |by injection H as <-]; (destruct (blocks s !! _) as [b|] eqn:Hb; injection H as <-; [|done]).
  - pose proof (session_block _ _ _ (acc_ok _ Hs) Hb) as Hok.
    apply accounted_static; [done|apply in_u64_1|]. apply accounted_exec; [apply Hok..|done].
  - by apply accounted_unclassified.
Qed.

Lemma accounted_events t rs : ∀ s s',
  Forall record_ok rs → accounted s → fold_outcome (per_event t) rs s = Done s' → accounted s'.
Proof.
  induction rs as [|r rs IH]; intros s s' Hrs Hs H; cbn [fold_outcome] in H; [by injection H as <-|].
  apply Forall_cons in Hrs as [Hr Hrs]. destruct (per_event t s r) as [s1|] eqn:E; [|done].
  eapply (IH s1); [done| |done]. by eapply accounted_event.
Qed.

(** Sessions the entry points can reach; the arguments are the machine words of the C
    interface, the cache has lines of at least two bytes and fewer than [2^32] of them,
    and registered operands are not empty. *)
Definition cost_words (c : RcCost) : Prop :=
  Forall in_u64 [rc_scalar_int c; rc_scalar_float c; rc_scalar_double c; rc_vector_int c;
                 rc_vector_float c; rc_vector_double c].

Inductive reachable : Inner → Prop :=
| reach_new out line size assoc mp s :
    2 ≤ line ≤ u64_max → 0 ≤ size → 0 < assoc → size / line ≤ 2 ^ 32 →
    rc_session_new (Some out) line size assoc mp = Some s → reachable s
| reach_image s a b c s' :
    reachable s → rc_session_set_image (Some s) a b c = Some s' → reachable s'
| reach_block s t v e f c i s' :
    reachable s → Forall in_u64 [v; e; i] → cost_words c →
    rc_block_exec (Some s) t v e f (Some c) i = Some s' → reachable s'
| reach_register_block s v e f c i al as_ s' :
    reachable s → Forall in_u64 [v; e; i; al; as_] → cost_words c →
    (rc_register_block (Some s) v e f (Some c) i al as_).2 = Some s' → reachable s'
| reach_register_mem s b n st s' :
    reachable s → Forall in_u64 [b; n] → n ≠ 0 →
    (rc_register_mem (Some s) b n st).2 = Some s' → reachable s'
| reach_counted s h n a b k s' :
    reachable s → in_u64 n → rc_counted_block (Some s) h n a b k = Some s' → reachable s'
| reach_batch s t rs s' :
    reachable s → Forall record_ok rs → Z.of_nat (length rs) ≤ u64_max →
    rc_process_batch (Some s) t (Some rs) = Done (Some s') → reachable s'
| reach_mem s t b a n st s' :
    reachable s → Forall in_u64 [b; a; n] →
    rc_mem_access (Some s) t b a n st = Done (Some s') → reachable s'
| reach_rvv s b fl sew n s' :
    reachable s → in_u64 n → rc_rvv_exec (Some s) b fl sew n = Some s' → reachable s'
| reach_unclassified s b s' :
    reachable s → rc_unclassified (Some s) b = Some s' → reachable s'
| reach_error s s' :
    reachable s → rc_rvv_state_error (Some s) = Some s' → reachable s'.

Lemma block_cost_ok v e f c i :
  Forall in_u64 [v; e; i] → cost_words c →
  cost_ok (block_cost v e f c i) ∧ in_u64 (Cfg.instructions (block_cost v e f c i)).
Proof.
  unfold cost_words. rewrite !Forall_cons. intros (? & ? & ? & _) (? & ? & ? & ? & ? & ? & _).
  by split; [split|].
Qed.

Lemma accounted_new out line size assoc mp s :
  2 ≤ line ≤ u64_max → 0 ≤ size → 0 < assoc → size / line ≤ 2 ^ 32 →
  rc_session_new (Some out) line size assoc mp = Some s → accounted s.
Proof.
  intros Hl Hs Ha Hd H. simpl in H. destruct (Cache.new line size assoc) as [c|] eqn:Hc; [|done].
  injection H as <-. split; [split|..]; simpl.
  - split; simpl; apply in_u64_0.
  - apply new_cfg_ok.
  - by eapply Cache.new_wf.
  - constructor.
  - constructor.
  - constructor.
  - repeat constructor.
Qed.

Lemma accounted_register_block s v e f c i al as_ s' :
  accounted s → Forall in_u64 [v; e; i; al; as_] → cost_words c →
  (rc_register_block (Some s) v e f (Some c) i al as_).2 = Some s' → accounted s'.
Proof.
  intros Hs Hw Hc H. simpl in H. destruct (_ <=? _); simpl in H; injection H as <-; [done|].
  destruct Hs as [[] ? ?]. rewrite !Forall_cons in Hw. destruct Hw as (? & ? & ? & ? & ? & _).
  destruct (block_cost_ok v e f c i) as [? ?]; [by rewrite !Forall_cons|done|].
  split; [split|..]; simpl; try done. apply Forall_app. split; [done|]. apply Forall_singleton. by split.
Qed.

Lemma accounted_register_mem s b n st s' :
  accounted s → Forall in_u64 [b; n] → n ≠ 0 →
  (rc_register_mem (Some s) b n st).2 = Some s' → accounted s'.
Proof.
  intros Hs Hw Hn H. simpl in H. destruct (_ <=? _); simpl in H; injection H as <-; [done|].
  destruct Hs as [[] ? ?]. rewrite !Forall_cons in Hw. destruct Hw as (? & ? & _).
  split; [split|..]; simpl; try done; apply Forall_app; (split; [done|]); by apply Forall_singleton.
Qed.

Lemma accounted_counted s h n a b k s' :
  accounted s → in_u64 n → rc_counted_block (Some s) h n a b k = Some s' → accounted s'.
Proof.
  intros Hs Hn H. simpl in H. destruct (Z.eqb_spec n 0); [by injection H as <-|].
  destruct (blocks s !! _) as [blk|] eqn:Hb; [|by injection H as <-]. injection H as <-.
  pose proof (session_block _ _ _ (acc_ok _ Hs) Hb) as Hok.
  apply accounted_static; [done|done|]. destruct Hs as [[] ? ?]. split; [split|..]; simpl; try done.
  - by apply add_exec_counters_ok; [apply Hok..| |].
  - by apply record_counted_block_ok; [apply Hok| |].
  - by apply balanced_counted; [apply Hok|..].
Qed.

Lemma accounted_rvv s b fl sew n s' :
  accounted s → in_u64 n → rc_rvv_exec (Some s) b fl sew n = Some s' → accounted s'.
Proof.
  intros [[] ? ?] Hn H. injection H as <-. split; [split|..]; simpl; try done.
  - destruct (rvv_class fl sew); split; simpl; try apply saturating_add_range; try done;
      by apply ok_counters.
  - by apply attribute_vector_ok.
  - by apply balanced_vector.
Qed.

Lemma reachable_accounted s : reachable s → accounted s.
Proof.
  induction 1 as [? ? ? ? ? ? ? ? ? ? H|s a b c s' _ IH H|s t v e f c i s' _ IH Hw Hc H| | |
    |s t rs s' _ IH Hr Hl H|s t b a n st s' _ IH Hw H| |s b s' _ IH H|s s' _ IH H].
  - by eapply accounted_new.
  - injection H as <-. by destruct IH as [[] ? ?].
  - injection H as <-. by apply accounted_exec; [apply block_cost_ok..|].
  - by eapply accounted_register_block.
  - by eapply accounted_register_mem.
  - by eapply accounted_counted.
  - destruct (process_records_events t rs s (acc_ok _ IH) (acc_operands _ IH) Hr Hl)
      as (s1 & E & F & _). eapply accounted_events; [done|done|]. rewrite F. f_equal.
    destruct rs; [by injection H as <-; injection F as <-|]. unfold rc_process_batch in H. rewrite E in H. by injection H as ->.
  - simpl in H. destruct (mem_access _ _ _ _ _ _) as [s1|] eqn:E; [|done]. injection H as <-.
    rewrite !Forall_cons in Hw. destruct Hw as (_ & Ha & Hn & _).
    exact (accounted_mem _ _ _ _ _ _ _ Ha Hn IH E).
  - by eapply accounted_rvv.
  - injection H as <-. by apply accounted_unclassified.
  - injection H as <-. destruct IH as [[Hk] ? Hbal].
    split; [split; try done|done|unfold balanced, views in *; rewrite !Forall_cons, Forall_nil in *; exact Hbal].
    destruct Hk. split; simpl; try done. apply saturating_add_range; [done|apply in_u64_1].
Qed.

End Accounting.

(** ** What the calls said

    The graph against a ledger of the calls: the blocks that were reported to run, the
    blocks that operands, vector operations, unclassified instructions and counted
    successors named, and the number of executions reported. *)
Module Traces.
Import Accounting.

Record Ledger : Type := mkLedger { executed : gset Z; mentioned : gset Z; runs : Z }.

Definition ran (a n : Z) (l : Ledger) : Ledger := mkLedger ({[a]} ∪ executed l) (mentioned l) (runs l + n).
Definition named (a : Z) (l : Ledger) : Ledger := mkLedger (executed l) ({[a]} ∪ mentioned l) (runs l).

(** *** Edges, entries, last blocks and call stacks *)
Record flow_inv (E T : gset Z) (B : Z) (g : DynamicCfg) : Prop := {
  fl_entries a : a ∈ entries g → a ∈ E;
  fl_edges f t n : edges g !! (f, t) = Some n → 0 < n ≤ B ∧ f ∈ E ∧ t ∈ T;
  fl_last (v : nat) a k : last_blocks g !! v = Some (Some (a, k)) → a ∈ E;
  fl_stack (v : nat) st a : call_stacks g !! v = Some st → a ∈ st → a ∈ E
}.

Lemma flow_mono E E' T T' B B' g : E ⊆ E' → T ⊆ T' → B ≤ B' → flow_inv E T B g → flow_inv E' T' B' g.
Proof.
  intros HE HT HB [H1 H2 H3 H4]. split.
  - intros a Ha. apply HE. auto.
  - intros f t n He. destruct (H2 f t n He) as (? & ? & ?). split_and!; [lia|lia|auto|auto].
  - intros v a k Hv. apply HE. eauto.
  - intros v st a Hv Ha. apply HE. eauto.
Qed.

Lemma flow_edge E T B g f t k :
  f ∈ E → t ∈ T → 0 < k → 0 ≤ B → B + k ≤ u64_max → flow_inv E T B g → flow_inv E T (B + k) (add_edge (f, t) k g).
Proof.
  intros Hf Ht Hk HB Hm [H1 H2 H3 H4]. split; [done| |done|done].
  intros f' t' n He. simpl in He. apply lookup_insert_Some in He as [[[= <- <-] <-]|[_ He]].
  - split; [|done]. assert (0 ≤ default 0 (edges g !! (f, t)) ≤ B).
    { destruct (edges g !! (f, t)) as [n|] eqn:En; simpl; [destruct (H2 f t n En); lia|lia]. }
    unfold wrapping_add. rewrite wrap64_small; [lia|]. unfold in_u64. lia.
  - destruct (H2 f' t' n He) as (? & ? & ?). split_and!; [lia|lia|done|done].
Qed.

Lemma flow_entry E T B g a : a ∈ E → flow_inv E T B g → flow_inv E T B (add_entry a g).
Proof. intros Ha [H1 H2 H3 H4]. split; [|done..]. simpl. intros b Hb. set_solver. Qed.

Lemma flow_set_stack E T B g v st : (∀ a, a ∈ st → a ∈ E) → flow_inv E T B g → flow_inv E T B (set_stack v st g).
Proof.
  intros Hs [H1 H2 H3 H4]. split; [done..|]. simpl. intros w st' a Hw Ha.
  apply list_lookup_insert_Some in Hw as [(_ & -> & _)|[_ Hw]]; [auto|eauto].
Qed.

Lemma flow_set_last E T B g v a k : a ∈ E → flow_inv E T B g → flow_inv E T B (set_last v (Some (a, k)) g).
Proof.
  intros Ha [H1 H2 H3 H4]. split; [done..| |done]. simpl. intros w b k' Hw.
  apply list_lookup_insert_Some in Hw as [(_ & [= <- _] & _)|[_ Hw]]; [done|eauto].
Qed.

Lemma flow_grow E T B g v : flow_inv E T B g → flow_inv E T B (grow v g).
Proof.
  intros [H1 H2 H3 H4]. split; [done|done|..]; simpl; unfold vec_grow.
  - intros w a k [Hw|[_ Hw]]%lookup_app_Some; [eauto|]. by apply lookup_replicate in Hw as [? _].
  - intros w st a [Hw|[_ Hw]]%lookup_app_Some Ha; [eauto|]. apply lookup_replicate in Hw as [-> _]. set_solver.
Qed.

Lemma vec_pop_elem {A} (l : list A) x k : vec_pop l = (Some x, k) → x ∈ l ∧ ∀ y, y ∈ k → y ∈ l.
Proof.
  unfold vec_pop. destruct (last l) as [y|] eqn:El; [|done]. intros [= <- <-]. split.
  - rewrite last_lookup in El. by eapply list_elem_of_lookup_2.
  - intros z [i Hi]%list_elem_of_lookup. apply lookup_take_Some in Hi as [Hi _]. by eapply list_elem_of_lookup_2.
Qed.

Lemma flow_follow E T B g v a :
  a ∈ E → E ⊆ T → 0 ≤ B → B + 1 ≤ u64_max → flow_inv E T B g → flow_inv E T (B + 1) (follow v a g).
Proof.
  intros Ha HET HB Hm H. assert (Hst : ∀ b, b ∈ default [] (call_stacks g !! v) → b ∈ E).
  { intros b. destruct (call_stacks g !! v) as [st|] eqn:Es; simpl; [by eapply fl_stack|set_solver]. }
  assert (Hmono : ∀ g', flow_inv E T B g' → flow_inv E T (B + 1) g') by (intros g'; apply flow_mono; [done|done|lia]).
  unfold follow. destruct (last_blocks g !! v) as [[[p []]|]|] eqn:El; try (by apply Hmono, flow_entry).
  - apply flow_edge; [by eapply fl_last|by apply HET|lia..|done].
  - apply Hmono, flow_set_stack; [|by apply flow_entry]. unfold vec_push. intros b [Hb| ->%list_elem_of_singleton]%elem_of_app; [auto|].
    by eapply fl_last.
  - destruct (vec_pop _) as [[caller|] rest] eqn:Ep; [|by apply Hmono, flow_entry].
    apply vec_pop_elem in Ep as [Hc Hr]. apply flow_edge; [auto|by apply HET|lia..|].
    apply flow_set_stack; [auto|done].
Qed.

(** *** Blocks *)
Definition threads_fine (b : DynamicBlockCounts) : Prop :=
  NoDup (threads b).*1 ∧ Forall (λ t, in_u32 t.1 ∧ 0 < t.2) (threads b) ∧ thread_sum (threads b) ≤ executions b.

Record block_inv (E M : gset Z) (R : Z) (g : DynamicCfg) : Prop := {
  bi_known a b : Cfg.blocks g !! a = Some b → a ∈ E ∨ a ∈ M;
  bi_exec a : a ∈ E → in_u64 a ∧ ∃ b, Cfg.blocks g !! a = Some b ∧ 0 < executions b ∧ a < b_end_vaddr b;
  bi_threads a b : Cfg.blocks g !! a = Some b → 0 ≤ executions b ≤ R ∧ threads_fine b
}.

Lemma block_default E M R g a :
  0 ≤ R → block_inv E M R g →
  0 ≤ executions (default default_counts (Cfg.blocks g !! a)) ≤ R ∧ threads_fine (default default_counts (Cfg.blocks g !! a)).
Proof.
  intros HR H. destruct (Cfg.blocks g !! a) as [b|] eqn:Eb; simpl; [by eapply bi_threads|].
  split; [lia|]. split; [constructor|]. split; [constructor|]. simpl. lia.
Qed.

(** An attribution names a block. *)
Lemma block_attr E M R g a f :
  (∀ b, b_end_vaddr (f b) = b_end_vaddr b ∧ executions (f b) = executions b ∧ threads (f b) = threads b) →
  0 ≤ R → block_inv E M R g → block_inv E ({[a]} ∪ M) R (with_block a f g).
Proof.
  intros Hf HR H. pose proof (block_default E M R g a HR H) as Hd. destruct H as [H1 H2 H3]. split; simpl.
  - intros a' b [[<- _]|[_ Hb]]%lookup_insert_Some; [set_solver|]. destruct (H1 a' b Hb); set_solver.
  - intros a' Ha'. destruct (H2 a' Ha') as (Hu & b & Hb & He & Hr). split; [done|]. destruct (decide (a' = a)) as [->|Hne].
    + rewrite lookup_insert_eq, Hb. simpl. eexists. split; [done|]. destruct (Hf b) as (-> & -> & _). done.
    + rewrite lookup_insert_ne by done. by exists b.
  - intros a' b [[<- <-]|[_ Hb]]%lookup_insert_Some; [|by apply (H3 a')].
    destruct (Hf (default default_counts (Cfg.blocks g !! a))) as (_ & E1 & E2). unfold threads_fine. by rewrite E1, E2.
Qed.

Lemma add_thread_fine t n ts :
  in_u32 t → 0 < n ≤ u64_max → Forall (λ t, in_u32 t.1 ∧ 0 < t.2) ts → NoDup ts.*1 →
  NoDup (add_thread t n ts).*1 ∧ Forall (λ t, in_u32 t.1 ∧ 0 < t.2) (add_thread t n ts) ∧
  thread_sum (add_thread t n ts) ≤ thread_sum ts + n.
Proof.
  intros Ht Hn Hts Hnd. split.
  { rewrite add_thread_fst. case_decide; [done|]. apply NoDup_app. split_and!; [done| |apply NoDup_singleton]. set_solver. }
  clear Hnd. induction Hts as [|[c e] ts [Hc He] Hts [IH1 IH2]]; simpl; [split; [apply Forall_singleton; split; [done|simpl; lia]|lia]|].
  simpl in Hc, He. destruct (c =? t); simpl.
  - split; [constructor; [split; [done|]; simpl; word_lia|done]|word_lia].
  - split; [by constructor|lia].
Qed.

(** The block of an execution. *)
Lemma block_run E M R g a n f :
  in_u64 a → 0 < n → 0 ≤ R → R + n ≤ u64_max → block_inv E M R g →
  (∀ b, executions (f b) = saturating_add (executions b) n) → (∀ b, a < b_end_vaddr (f b)) →
  (∀ b, threads (f b) = threads b ∨ ∃ t, in_u32 t ∧ threads (f b) = add_thread t n (threads b)) →
  block_inv ({[a]} ∪ E) M (R + n) (with_block a f g).
Proof.
  intros Ha Hn HR Hm H He Hend Ht. pose proof (block_default E M R g a HR H) as [Hd1 (Hd2 & Hd3 & Hd4)].
  set (b0 := default default_counts (Cfg.blocks g !! a)) in *. destruct H as [H1 H2 H3].
  assert (He0 : executions (f b0) = executions b0 + n) by (rewrite He; word_lia).
  split; simpl; fold b0.
  - intros a' b [[<- _]|[_ Hb]]%lookup_insert_Some; [set_solver|]. destruct (H1 a' b Hb); set_solver.
  - intros a' Ha'. destruct (decide (a' = a)) as [->|Hne].
    + split; [done|]. exists (f b0). rewrite lookup_insert_eq. split_and!; [done|lia|apply Hend].
    + destruct (H2 a') as (Hu & b & Hb & ? & ?); [set_solver|]. split; [done|]. exists b. by rewrite lookup_insert_ne.
  - intros a' b [[<- <-]|[_ Hb]]%lookup_insert_Some.
    + split; [lia|]. unfold threads_fine. rewrite He0. destruct (Ht b0) as [-> | (t & Hu & ->)].
      * split_and!; [done|done|lia].
      * destruct (add_thread_fine t n (threads b0)) as (? & ? & ?); [done|word_lia|done|done|]. split_and!; [done|done|lia].
    + destruct (H3 a' b Hb). split; [lia|done].
Qed.

Record graph_inv (l : Ledger) (g : DynamicCfg) : Prop := {
  gi_runs : 0 ≤ runs l;
  gi_flow : flow_inv (executed l) (executed l ∪ mentioned l) (2 * runs l) g;
  gi_block : block_inv (executed l) (mentioned l) (runs l) g
}.

Lemma flow_ext E T B g g' :
  entries g' = entries g → edges g' = edges g → last_blocks g' = last_blocks g → call_stacks g' = call_stacks g →
  flow_inv E T B g → flow_inv E T B g'.
Proof. intros H1 H2 H3 H4 []. split; rewrite ?H1, ?H2, ?H3, ?H4; done. Qed.

Lemma block_ext E M R g g' : Cfg.blocks g' = Cfg.blocks g → block_inv E M R g → block_inv E M R g'.
Proof. intros H []. split; rewrite H; done. Qed.

Lemma graph_attr l g a f :
  (∀ b, b_end_vaddr (f b) = b_end_vaddr b ∧ executions (f b) = executions b ∧ threads (f b) = threads b) →
  graph_inv l g → graph_inv (named a l) (with_block a f g).
Proof.
  intros Hf [Hr H1 H2]. split; [done| |by apply block_attr].
  apply (flow_ext _ _ _ g); [done..|]. eapply flow_mono; [..|exact H1]; simpl; set_solver by lia.
Qed.

(** An attribution to a block that ran names nothing new. *)
Lemma graph_attr_own l g a f :
  a ∈ executed l →
  (∀ b, b_end_vaddr (f b) = b_end_vaddr b ∧ executions (f b) = executions b ∧ threads (f b) = threads b) →
  graph_inv l g → graph_inv l (with_block a f g).
Proof.
  intros Ha Hf Hg. destruct (graph_attr l g a f Hf Hg) as [Hr H1 H2]. split; [done| |].
  - eapply flow_mono; [..|exact H1]; simpl; set_solver by lia.
  - destruct H2 as [K1 K2 K3]. split; [|done|done]. intros a' b Hb. destruct (K1 a' b Hb); set_solver.
Qed.

Lemma as_u32_bounds x : in_u32 (as_u32 x).
Proof. unfold in_u32, as_u32, u32_max. pose proof (Z.mod_pos_bound x (2 ^ 32) eq_refl). lia. Qed.

Lemma graph_record l g v c :
  cost_ok c → vaddr c < end_vaddr c → 2 * (runs l + 1) ≤ u64_max → graph_inv l g →
  graph_inv (ran (vaddr c) 1 l) (record_block v c g).
Proof.
  intros Hc Hend Hm [Hr H1 H2]. unfold record_block. split; [simpl; lia| |].
  - apply (flow_ext _ _ _ (set_last v (Some (vaddr c, flow c)) (follow v (vaddr c) (grow v g)))); [done..|].
    apply flow_set_last; [simpl; set_solver|]. simpl.
    apply (flow_mono ({[vaddr c]} ∪ executed l) _ ({[vaddr c]} ∪ executed l ∪ mentioned l) _ (2 * runs l + 1)); [done|done|lia|].
    apply flow_follow; [set_solver|set_solver|lia|lia|]. apply flow_grow.
    eapply flow_mono; [..|exact H1]; simpl; set_solver by lia.
  - simpl. apply block_run; [apply Hc|lia|done|lia| |..].
    + apply (block_ext _ _ _ g); [|done]. simpl. by rewrite follow_blocks.
    + intros b. unfold execute, merge_end. simpl. by repeat case_match.
    + intros b. unfold execute, merge_end. simpl. repeat case_match; simpl in *; lia.
    + intros b. right. exists (as_u32 (Z.of_nat v)). split; [apply as_u32_bounds|].
      unfold execute, merge_end. simpl. by repeat case_match.
Qed.

Lemma flow_successors E T B g c n ss :
  vaddr c ∈ E → (∀ a, a ∈ ss → a ∈ T) → 0 < n → 0 ≤ B → B + Z.of_nat (length ss) * n ≤ u64_max → flow_inv E T B g →
  flow_inv E T (B + Z.of_nat (length ss) * n) (fold_left (add_successor c n) ss g).
Proof.
  revert B g. induction ss as [|a ss IH]; intros B g Hc Ht Hn HB Hm H; [simpl; by rewrite Z.add_0_r|].
  cbn [fold_left]. change (length (a :: ss)) with (S (length ss)) in *. rewrite Nat2Z.inj_succ in *.
  replace (B + Z.succ (Z.of_nat (length ss)) * n) with ((B + n) + Z.of_nat (length ss) * n) in * by lia.
  apply IH; [done|intros b Hb; apply Ht; by right|done|lia|done|]. unfold add_successor.
  set (k := if a =? vaddr c then saturating_sub n 1 else n). assert (Hk : 0 ≤ k ≤ n) by (unfold k, saturating_sub; case_match; lia).
  destruct (Z.eqb_spec k 0) as [E0|E0]; [eapply flow_mono; [..|exact H]; done || lia|].
  apply (flow_mono E E T T (B + k)); [done|done|lia|].
  apply flow_edge; [done|apply Ht; set_solver|lia|lia|nia|done].
Qed.

Lemma successors_blocks c n ss g : Cfg.blocks (fold_left (add_successor c n) ss g) = Cfg.blocks g.
Proof.
  revert g. induction ss as [|a ss IH]; intros g; [done|]. simpl. rewrite IH. unfold add_successor. by case_match.
Qed.

Lemma named_all l ss :
  foldr named l ss = mkLedger (executed l) (list_to_set ss ∪ mentioned l) (runs l).
Proof.
  induction ss as [|a ss IH]; cbn [foldr]; [destruct l; simpl; f_equal; set_solver|]. rewrite IH. unfold named. simpl.
  f_equal. set_solver.
Qed.

Lemma graph_counted l g c n ss :
  cost_ok c → vaddr c < end_vaddr c → 0 < n → (length ss ≤ 2)%nat → 2 * (runs l + n) ≤ u64_max → graph_inv l g →
  graph_inv (foldr named (ran (vaddr c) n l) ss) (record_counted_block c n ss g).
Proof.
  intros Hc Hend Hn Hss Hm [Hr H1 H2]. rewrite named_all. unfold record_counted_block.
  rewrite (proj2 (Z.eqb_neq n 0)) by lia. set (g1 := with_block _ _ g).
  assert (Hb : block_inv ({[vaddr c]} ∪ executed l) (mentioned l) (runs l + n) g1).
  { apply block_run; [apply Hc|done|done|lia|done|done| |].
    - intros b. simpl. lia.
    - intros b. by left. }
  split; [simpl; lia| |].
  - simpl. apply (flow_mono ({[vaddr c]} ∪ executed l) _ ({[vaddr c]} ∪ executed l ∪ (list_to_set ss ∪ mentioned l)) _
      (2 * runs l + Z.of_nat (length ss) * n)); [done|done|nia|].
    apply flow_successors; [set_solver|set_solver|done|lia|nia|].
    apply (flow_ext _ _ _ g); [done..|]. eapply flow_mono; [..|exact H1]; set_solver by lia.
  - apply (block_ext _ _ _ g1); [apply successors_blocks|]. simpl. destruct Hb as [K1 K2 K3].
    split; [|done|done]. intros a b Hab. destruct (K1 a b Hab); set_solver.
Qed.

(** *** The cache keeps the geometry it was built with *)
Definition shape (c : Cache.CacheModel) : Z * Z * Z := (Cache.line_size c, Cache.capacity c, Cache.associativity c).

Lemma lookup_line_shape st la c t c' t' :
  Cache.lookup_line st la c t = Done (c', t') → shape c' = shape c.
Proof.
  unfold Cache.lookup_line. destruct (Cache.set_and_tag c la) as [si tg].
  destruct (slice _ _ _) as [set|]; [|done]. cbn [unwrap mbind outcome_bind].
  destruct (position _ set) as [w|].
  - destruct (set !! w) as [l|]; [|done]. cbn [unwrap mbind outcome_bind].
    destruct (Cache.mru _ !! _); [|done]. cbn [unwrap mbind outcome_bind]. by intros [= <- <-].
  - destruct (set !! _); [|done]. cbn [unwrap mbind outcome_bind]. by intros [= <- <-].
Qed.

Lemma access_line_shape st c t la c' t' :
  Cache.access_line st (c, t) la = Done (c', t') → shape c' = shape c.
Proof.
  unfold Cache.access_line. destruct (List.find _ _) as [[a i]|].
  - destruct (Cache.lines _ !! _); [|done]. cbn [unwrap mbind outcome_bind]. by intros [= <- <-].
  - intros H. by rewrite (lookup_line_shape _ _ _ _ _ _ H).
Qed.

Lemma access_shape c a n st c' t : Cache.access c a n st = Done (c', t) → shape c' = shape c.
Proof.
  unfold Cache.access. destruct (n =? 0); [by intros [= <- <-]|].
  generalize (Cache.touched_lines c a n), Cache.no_traffic. intros ls. revert c.
  induction ls as [|la ls IH]; intros c t0; cbn [fold_outcome]; [by intros [= <- <-]|].
  destruct (Cache.access_line st (c, t0) la) as [[c1 t1]|] eqn:E; [|done].
  intros H. rewrite (IH _ _ H). by eapply access_line_shape.
Qed.

(** What the graph file says of the cache. *)
Definition described (c : Cache.CacheModel) : Prop :=
  is_power_of_two (Cache.line_size c) = true ∧ 0 < Cache.associativity c ∧
  Cache.line_size c * Cache.associativity c ≤ Cache.capacity c ≤ u64_max.

Lemma described_shape c c' : shape c' = shape c → described c → described c'.
Proof. unfold shape, described. by intros [= -> -> ->]. Qed.

Lemma new_described line size assoc c :
  2 ≤ line → 0 ≤ size ≤ u64_max → 0 < assoc → Cache.new line size assoc = Some c → described c.
Proof.
  intros Hl Hs Ha. unfold Cache.new. destruct (is_power_of_two line) eqn:Hp; [|done].
  destruct (_ || _); [done|]. cbn zeta. destruct (Z.eqb_spec (size / line / assoc) 0) as [|Hz]; [done|].
  intros [= <-]. unfold described. simpl.
  pose proof (Z.div_pos size line ltac:(lia) ltac:(lia)).
  pose proof (Z.div_pos (size / line) assoc ltac:(lia) ltac:(lia)).
  pose proof (Z.mul_div_le size line ltac:(lia)). pose proof (Z.mul_div_le (size / line) assoc ltac:(lia)).
  split; [done|]. split; [done|]. nia.
Qed.

(** *** Sessions with their ledger

    The calls of [reachable], with what the instrumentation of a program guarantees of
    its arguments: a block ends after it starts, the image is not empty and the cache size
    is a machine word. *)
Definition event (s : Inner) (l : Ledger) (r : RcRecord) : Ledger :=
  let kind := Z.land (desc r) 3 in
  let handle := Z.to_nat (Z.shiftr (desc r) 2) in
  if kind =? RC_RECORD_MEM then
    match mems s !! handle with Some m => named (m_block m) l | None => l end
  else if kind =? RC_RECORD_BLOCK_EXEC then
    match blocks s !! handle with Some b => ran (vaddr (cost b)) 1 l | None => l end
  else if kind =? RC_RECORD_UNCLASSIFIED then
    match blocks s !! handle with Some b => named (vaddr (cost b)) l | None => l end
  else l.

Definition counted (s : Inner) (h n a b k : Z) (l : Ledger) : Ledger :=
  match blocks s !! Z.to_nat h with
  | Some blk => if n =? 0 then l else foldr named (ran (vaddr (cost blk)) n l) (take (Nat.min (Z.to_nat k) 2) [a; b])
  | None => l
  end.

Inductive session : Inner → Ledger → Prop :=
| ses_new out line size assoc mp s :
    2 ≤ line ≤ u64_max → 0 ≤ size ≤ u64_max → 0 < assoc → size / line ≤ 2 ^ 32 →
    rc_session_new (Some out) line size assoc mp = Some s → session s (mkLedger ∅ ∅ 0)
| ses_image s l a b c s' :
    session s l → Forall in_u64 [a; b; c] → a < b →
    rc_session_set_image (Some s) a b c = Some s' → session s' l
| ses_block s l t v e f c i s' :
    session s l → Forall in_u64 [v; e; i] → cost_words c → v < e →
    rc_block_exec (Some s) t v e f (Some c) i = Some s' → session s' (ran v 1 l)
| ses_register_block s l v e f c i al as_ s' :
    session s l → Forall in_u64 [v; e; i; al; as_] → cost_words c → v < e →
    (rc_register_block (Some s) v e f (Some c) i al as_).2 = Some s' → session s' l
| ses_register_mem s l b n st s' :
    session s l → Forall in_u64 [b; n] → n ≠ 0 →
    (rc_register_mem (Some s) b n st).2 = Some s' → session s' l
| ses_counted s l h n a b k s' :
    session s l → in_u64 n → rc_counted_block (Some s) h n a b k = Some s' →
    session s' (counted s h n a b k l)
| ses_batch s l t rs s' :
    session s l → Forall record_ok rs → Z.of_nat (length rs) ≤ u64_max →
    rc_process_batch (Some s) t (Some rs) = Done (Some s') → session s' (fold_left (event s) rs l)
| ses_mem s l t b a n st s' :
    session s l → Forall in_u64 [b; a; n] →
    rc_mem_access (Some s) t b a n st = Done (Some s') → session s' (named b l)
| ses_rvv s l b fl sew n s' :
    session s l → in_u64 n → rc_rvv_exec (Some s) b fl sew n = Some s' → session s' (named b l)
| ses_unclassified s l b s' :
    session s l → rc_unclassified (Some s) b = Some s' → session s' (named b l)
| ses_error s l s' :
    session s l → rc_rvv_state_error (Some s) = Some s' → session s' l.

Lemma session_reachable s l : session s l → reachable s.
Proof.
  induction 1 as [? ? ? ? ? ? ? [? ?]| | | | | | | | | |];
    [eapply reach_new|eapply reach_image|eapply reach_block|eapply reach_register_block|eapply reach_register_mem
    |eapply reach_counted|eapply reach_batch|eapply reach_mem|eapply reach_rvv|eapply reach_unclassified
    |eapply reach_error]; eassumption.
Qed.

Record traced (s : Inner) (l : Ledger) : Prop := {
  tr_runs : 0 ≤ runs l;
  tr_graph : 2 * runs l ≤ u64_max → graph_inv l (cfg s);
  tr_blocks : Forall (λ b, block_ok b ∧ vaddr (cost b) < end_vaddr (cost b)) (blocks s);
  tr_image i : image s = Some i → Forall in_u64 [i_start i; i_end i; i_entry i] ∧ i_start i < i_end i;
  tr_cache : described (cache s)
}.

Lemma traced_block s l h b :
  traced s l → blocks s !! h = Some b → block_ok b ∧ vaddr (cost b) < end_vaddr (cost b).
Proof. intros H Hb. exact (proj1 (Forall_lookup _ _) (tr_blocks _ _ H) _ _ Hb). Qed.

(** A call that changes the counters and attributes to a block it names. *)
Lemma traced_attr s s' l a f :
  (∀ b, b_end_vaddr (f b) = b_end_vaddr b ∧ executions (f b) = executions b ∧ threads (f b) = threads b) →
  cfg s' = with_block a f (cfg s) → blocks s' = blocks s → image s' = image s → shape (cache s') = shape (cache s) →
  traced s l → traced s' (named a l).
Proof.
  intros Hf Hg Hb Hi Hc []. split; rewrite ?Hg, ?Hb, ?Hi; [done| |done|done|by eapply described_shape].
  intros Hr. apply graph_attr; auto.
Qed.

Lemma traced_static b n s l :
  vaddr (cost b) ∈ executed l → traced s l → traced (add_static_memory b n s) l.
Proof.
  intros Hx H. unfold add_static_memory. destruct H. destruct (_ || _); split; simpl; try done.
  intros Hr. apply graph_attr_own; auto.
Qed.

Lemma traced_exec t c s l :
  cost_ok c → vaddr c < end_vaddr c → traced s l → traced (exec_block t c s) (ran (vaddr c) 1 l).
Proof.
  intros Hc Hend []. split; simpl; try done; [lia|]. intros Hr. apply graph_record; [done..| |]; [lia|].
  apply tr_graph0. lia.
Qed.

Lemma traced_mem t blk a n st s s' l :
  mem_access t blk a n st s = Done s' → traced s l → traced s' (named blk l).
Proof.
  unfold mem_access. destruct (Cache.access _ _ _ _) as [[c tr]|] eqn:E; [|done].
  apply access_shape in E. cbn [mbind outcome_bind].
  destruct (if st then (0, n) else (n, 0)) as [al as_]. intros [= <-].
  eapply (traced_attr s); [|reflexivity|reflexivity|reflexivity|exact E]. done.
Qed.

Lemma traced_event t r s s' l :
  per_event t s r = Done s' → traced s l →
  traced s' (event s l r) ∧ blocks s' = blocks s ∧ mems s' = mems s.
Proof.
  intros H Hs. unfold per_event in H. unfold event. destruct (_ =? RC_RECORD_MEM).
  { destruct (mems s !! _) as [m|]; [|by injection H as <-]. split; [by eapply traced_mem|].
    unfold mem_access in H. destruct (Cache.access _ _ _ _) as [[c tr]|]; [|done]. cbn [mbind outcome_bind] in H.
    destruct (if m_store m then _ else _) in H. by injection H as <-. }
  destruct (_ =? RC_RECORD_BLOCK_EXEC); [|destruct (_ =? RC_RECORD_UNCLASSIFIED)];
    [| |by injection H as <-]; (destruct (blocks s !! _) as [b|] eqn:Hb; injection H as <-; [|done]).
  - destruct (traced_block _ _ _ _ Hs Hb) as [Hok Hend]. split.
    + apply traced_static; [simpl; set_solver|]. by apply traced_exec; [apply Hok| |].
    + unfold add_static_memory. by destruct (_ || _).
  - split; [|done]. eapply (traced_attr s); [|reflexivity..|done]. done.
Qed.

Lemma traced_events t rs s0 : ∀ s s' l,
  blocks s = blocks s0 → mems s = mems s0 → fold_outcome (per_event t) rs s = Done s' → traced s l →
  traced s' (fold_left (event s0) rs l).
Proof.
  induction rs as [|r rs IH]; intros s s' l Hb Hm H Hs; cbn [fold_outcome fold_left] in *; [by injection H as <-|].
  destruct (per_event t s r) as [s1|] eqn:E; [|done]. destruct (traced_event t r s s1 l E Hs) as (H1 & Hb1 & Hm1).
  assert (event s l r = event s0 l r) as <- by (unfold event; by rewrite Hb, Hm).
  apply (IH s1); congruence || done.
Qed.

Lemma traced_counted s l h n a b k s' :
  in_u64 n → rc_counted_block (Some s) h n a b k = Some s' → traced s l → traced s' (counted s h n a b k l).
Proof.
  intros Hn H Hs. simpl in H. unfold counted. destruct (Z.eqb_spec n 0) as [|Hz].
  { injection H as <-. by destruct (blocks s !! _). }
  destruct (blocks s !! _) as [blk|] eqn:Hb; [|by injection H as <-]. injection H as <-.
  destruct (traced_block _ _ _ _ Hs Hb) as [Hok Hend]. set (ss := take _ _).
  apply traced_static; [rewrite named_all; simpl; set_solver|]. destruct Hs.
  assert (0 < n) by (destruct Hn; lia).
  assert (Hruns : runs (foldr named (ran (vaddr (cost blk)) n l) ss) = runs l + n) by (by rewrite named_all).
  split; rewrite ?Hruns; [lia| |done|done|done]. intros Hr.
  apply graph_counted; [apply Hok|done|done| |done|apply tr_graph0; lia].
  subst ss. rewrite length_take. simpl. lia.
Qed.

Lemma traced_new out line size assoc mp s :
  2 ≤ line ≤ u64_max → 0 ≤ size ≤ u64_max → 0 < assoc →
  rc_session_new (Some out) line size assoc mp = Some s → traced s (mkLedger ∅ ∅ 0).
Proof.
  intros Hl Hs Ha H. simpl in H. destruct (Cache.new line size assoc) as [c|] eqn:Hc; [|done].
  injection H as <-. split; simpl; [done| |by apply Forall_nil|done|by eapply (new_described line size assoc); try done; lia].
  intros _. split; simpl; [done|split; simpl|split; simpl]; set_solver.
Qed.

Lemma traced_register_block s l v e f c i al as_ s' :
  Forall in_u64 [v; e; i; al; as_] → cost_words c → v < e →
  (rc_register_block (Some s) v e f (Some c) i al as_).2 = Some s' → traced s l → traced s' l.
Proof.
  intros Hw Hc Hv H []. simpl in H. destruct (_ <=? _); simpl in H; injection H as <-; split; simpl; try done.
  rewrite !Forall_cons in Hw. destruct Hw as (? & ? & ? & ? & ? & _).
  destruct (block_cost_ok v e f c i) as [? ?]; [by rewrite !Forall_cons|done|].
  apply Forall_app. split; [done|]. apply Forall_singleton. split; [by split|done].
Qed.

Lemma session_traced s l : session s l → traced s l.
Proof.
  induction 1 as [? ? ? ? ? ? ? ? ? ? H|s l a b c s' _ IH Hw Hab H|s l t v e f c i s' _ IH Hw Hc Hv H|
    |s l b n st s' _ IH Hw Hn H| |s l t rs s' Hs IH Hr Hl H|s l t b a n st s' _ IH Hw H|s l b fl sew n s' _ IH Hn H
    |s l b s' _ IH H|s l s' _ IH H].
  - by eapply traced_new.
  - injection H as <-. destruct IH. split; simpl; try done. by intros i [= <-].
  - injection H as <-. apply (traced_exec t (block_cost v e f c i)); [by apply block_cost_ok|done|done].
  - by eapply traced_register_block.
  - simpl in H. destruct (_ <=? _); simpl in H; injection H as <-; [done|]. by destruct IH.
  - by eapply traced_counted.
  - destruct (reachable_accounted _ (session_reachable _ _ Hs)) as [Hok Hne _].
    destruct (process_records_events t rs s Hok Hne Hr Hl) as (s1 & E & F & _).
    apply (traced_events t rs s s); [done|done| |done]. rewrite F. f_equal.
    destruct rs; [by injection H as <-; injection F as <-|]. unfold rc_process_batch in H. rewrite E in H. by injection H as ->.
  - simpl in H. destruct (mem_access _ _ _ _ _ _) as [s1|] eqn:E; [|done]. injection H as <-. by eapply traced_mem.
  - injection H as <-. eapply (traced_attr s); [|reflexivity..|done]. intros blk. by destruct (rvv_class fl sew).
  - injection H as <-. eapply (traced_attr s); [|reflexivity..|done]. done.
  - injection H as <-. by destruct IH.
Qed.

End Traces.

Import Accounting.

(** ** Properties *)

(** C25: in every session the entry points can reach, each operation counter, the
    architectural and DRAM byte counters and the count of unclassified instructions are
    the saturated sums of the corresponding block counters of the graph: nothing is
    counted without being attributed to a block, and nothing twice. *)
Theorem counters_are_block_sums s v :
  reachable s → v ∈ views → of_counters v (counters s) = Z.min (total (of_block v) (cfg s)) u64_max.
Proof.
  intros Hs Hv. exact (proj1 (Forall_forall _ _) (acc_balanced _ (reachable_accounted s Hs)) v Hv).
Qed.

(** A session after a batch of three block executions and two operands. *)
Definition accounted_sample : Inner :=
  match rc_process_batch sample_session 3 (Some sample_records) with
  | Done (Some s) => s
  | _ => sample_inner
  end.

(** The registrations that lead to [sample_inner]. *)
Definition sample_new : Inner := default sample_inner (rc_session_new (Some "run.counts") 64 4096 2 1).
Definition sample_b1 : Inner := default sample_inner
  (rc_register_block (Some sample_new) 1024 1056 RC_FLOW_NORMAL (Some (mkRcCost 2 0 1 0 0 0)) 5 8 0).2.
Definition sample_b2 : Inner := default sample_inner
  (rc_register_block (Some sample_b1) 1280 1296 RC_FLOW_CALL (Some (mkRcCost 0 3 0 0 0 0)) 3 0 0).2.
Definition sample_m1 : Inner := default sample_inner (rc_register_mem (Some sample_b2) 1024 8 0).2.

Ltac words := repeat constructor; vm_compute; congruence.

Lemma counters_are_block_sums_witness :
  dram_bytes_load (counters accounted_sample) = 320 ∧
  dram_bytes_load (counters accounted_sample) = total Cfg.bytes_load (cfg accounted_sample).
Proof.
  assert (H : dram_bytes_load (counters accounted_sample) =
    Z.min (total Cfg.bytes_load (cfg accounted_sample)) u64_max).
  { apply (counters_are_block_sums accounted_sample (mkView dram_bytes_load Cfg.bytes_load)).
    - apply (reach_batch sample_inner 3 sample_records);
        [|apply sample_records_ok|vm_compute; congruence|vm_compute; reflexivity].
      apply (reach_register_mem sample_m1 1024 8 1); [|words|discriminate|vm_compute; reflexivity].
      apply (reach_register_mem sample_b2 1024 8 0); [|words|discriminate|vm_compute; reflexivity].
      apply (reach_register_block sample_b1 1280 1296 RC_FLOW_CALL (mkRcCost 0 3 0 0 0 0) 3 0 0);
        [|words|words|vm_compute; reflexivity].
      apply (reach_register_block sample_new 1024 1056 RC_FLOW_NORMAL (mkRcCost 2 0 1 0 0 0) 5 8 0);
        [|words|words|vm_compute; reflexivity].
      apply (reach_new "run.counts" 64 4096 2 1); [vm_compute; intuition congruence..|vm_compute; reflexivity].
    - unfold views. do 8 right. left. }
  split; [vm_compute; reflexivity|]. etransitivity; [exact H|]. vm_compute. reflexivity.
Defined.
