(* ===== verification/Sendable.v ===== *)
(** * Messages of the shared-memory channel

    Models the trait [Sendable] of [shmem/src/proc_channel.rs]: what a message type
    promises to the channel, and the blanket implementation for plain copyable types.
    The channel of [Channel.v] is proved against the class [SendableLaws]; the packets of
    [Allocation.v] and the copyable types discharge it. *)

From S2P Require Import Prelude Words.
Open Scope Z_scope.

(** [from_raw_bytes] may panic (the assertion of the copyable types). *)
Class Sendable (T : Type) : Type := {
  as_raw_bytes : T → list Z;
  from_raw_bytes : list Z → outcome T
}.

(** A message is read back from exactly the bytes it was sent as. *)
Class SendableLaws (T : Type) `{Sendable T} : Prop := {
  from_as_raw_bytes (x : T) : from_raw_bytes (as_raw_bytes x) = Done x
}.

(** ** Copyable types *)

(** The memory representation of a [Copy] type: [size_of] bytes that determine the
    value.  The layout is the compiler's, so it is a parameter. *)
Class Repr (T : Type) : Type := {
  size_of : nat;
  repr : T → list Z;
  unrepr : list Z → T;
  length_repr (x : T) : length (repr x) = size_of;
  unrepr_repr (x : T) : unrepr (repr x) = x
}.

(** [assert!(bytes.len() >= size_of::<T>())], then a copy of the first bytes. *)
Definition copy_from_raw_bytes {T} `{Repr T} (bytes : list Z) : outcome T :=
  if decide (size_of ≤ length bytes)%nat then Done (unrepr (take size_of bytes)) else Panicked.

#[export] Instance copy_sendable {T} `{Repr T} : Sendable T := {
  as_raw_bytes := repr;
  from_raw_bytes := copy_from_raw_bytes
}.

#[export] Instance copy_sendable_laws {T} `{Repr T} : SendableLaws T.
Proof.
  split; intros x. simpl. unfold copy_from_raw_bytes.
  rewrite decide_True by (by rewrite length_repr). rewrite take_ge by (by rewrite length_repr).
  by rewrite unrepr_repr.
Qed.

(** ** Fixed-size pieces of a byte string

    [as_chunks::<n>()] without its remainder. *)
Definition chunks (n : nat) (bs : list Z) : list (list Z) :=
  (λ i, take n (drop (i * n) bs)) <$> seq 0 (length bs / n).

Lemma chunks_app n bs rest :
  n ≠ 0%nat → length bs = n → chunks n (bs ++ rest) = bs :: chunks n rest.
Proof.
  intros Hn Hl. unfold chunks. rewrite length_app, Hl.
  replace (n + length rest)%nat with (length rest + 1 * n)%nat by lia.
  rewrite Nat.div_add by done. rewrite Nat.add_1_r. cbn [seq fmap list_fmap].
  f_equal.
  - rewrite Nat.mul_0_l, drop_0, take_app_length' by done. done.
  - rewrite <-fmap_S_seq, <-list_fmap_compose. apply list_fmap_ext. intros i x _. simpl.
    rewrite (drop_app_ge bs) by lia. do 2 f_equal. lia.
Qed.

Lemma chunks_concat n ls :
  n ≠ 0%nat → Forall (λ l, length l = n) ls → chunks n (concat ls) = ls.
Proof.
  intros Hn. induction 1 as [|l ls Hl _ IH]; simpl.
  - unfold chunks. by rewrite Nat.Div0.div_0_l.
  - by rewrite chunks_app, IH.
Qed.

Lemma concat_chunks n k bs :
  n ≠ 0%nat → length bs = (k * n)%nat →
  concat (chunks n bs) = bs ∧ Forall (λ l, length l = n) (chunks n bs) ∧ length (chunks n bs) = k.
Proof.
  intros Hn. revert bs. induction k as [|k IH]; intros bs Hl; simpl in Hl.
  { destruct bs; [|done]. unfold chunks. simpl. by rewrite Nat.Div0.div_0_l. }
  rewrite <-(take_drop n bs).
  assert (Ht : length (take n bs) = n) by (rewrite length_take; lia).
  destruct (IH (drop n bs)) as (H1 & H2 & H3); [rewrite length_drop; lia|].
  rewrite chunks_app by done. simpl. rewrite H1, H3. split_and!; [done| |done]. by constructor.
Qed.

(** The [i]-th little-endian word of a byte string, [from_le_bytes(bytes[8i..8i+8])]. *)
Definition word (bs : list Z) (i : nat) : Z := from_le_bytes (take 8 (drop (i * 8) bs)).

(** A list of words laid out one after the other, [as_flattened]. *)
Definition flatten (ws : list Z) : list Z := concat (to_le_bytes <$> ws).

Lemma length_flatten ws : length (flatten ws) = (length ws * 8)%nat.
Proof.
  induction ws as [|w ws IH]; [done|].
  change (flatten (w :: ws)) with (to_le_bytes w ++ flatten ws). by rewrite length_app, IH.
Qed.

Lemma flatten_bytes ws : Forall is_byte (flatten ws).
Proof.
  induction ws as [|w ws IH]; [constructor|]. apply Forall_app. split; [apply to_le_bytes_bytes|done].
Qed.

Lemma word_flatten ws rest i x :
  Forall in_u64 ws → ws !! i = Some x → word (flatten ws ++ rest) i = x.
Proof.
  revert i; induction ws as [|w ws IH]; intros i Hws Hi; [done|].
  apply Forall_cons in Hws as [Hw Hws]. change (flatten (w :: ws)) with (to_le_bytes w ++ flatten ws). unfold word in *.
  destruct i as [|i]; simpl in Hi.
  - injection Hi as ->. rewrite Nat.mul_0_l, drop_0, <-app_assoc, take_app_length' by done.
    by apply from_to_le_bytes.
  - rewrite <-app_assoc, drop_app_ge by (rewrite length_to_le_bytes; lia).
    rewrite length_to_le_bytes. replace (S i * 8 - 8)%nat with (i * 8)%nat by lia. by apply IH.
Qed.

Lemma flatten_words k bs :
  length bs = (k * 8)%nat → Forall is_byte bs → flatten (word bs <$> seq 0 k) = bs.
Proof.
  intros Hl Hb. unfold flatten. rewrite <-list_fmap_compose.
  destruct (concat_chunks 8 k bs) as (Hc & HF & Hlen); [done|done|].
  rewrite <-Hc at 2. f_equal. unfold chunks. rewrite Hl, Nat.div_mul by done.
  apply list_fmap_ext. intros j i Hj. simpl. apply lookup_seq in Hj as [-> Hj].
  unfold word. apply to_from_le_bytes.
  - rewrite length_take, length_drop. lia.
  - by apply Forall_take, Forall_drop.
Qed.

Lemma word_take n bs i : (i * 8 + 8 ≤ n)%nat → word (take n bs) i = word bs i.
Proof.
  intros Hi. unfold word. rewrite skipn_firstn_comm, take_take. do 2 f_equal. lia.
Qed.

Lemma word_range bs i : Forall is_byte bs → in_u64 (word bs i).
Proof.
  intros Hb. unfold word, from_le_bytes.
  pose proof (le_value_range (take 8 (drop (i * 8) bs)) ltac:(by apply Forall_take, Forall_drop)) as Hr.
  assert (256 ^ Z.of_nat (length (take 8 (drop (i * 8) bs))) ≤ 256 ^ 8).
  { apply Z.pow_le_mono_r; [lia|]. rewrite length_take. lia. }
  change (256 ^ 8) with (2 ^ 64) in *. word_lia.
Qed.

#[global] Arguments flatten : simpl never.
#[global] Arguments word : simpl never.
#[global] Arguments chunks : simpl never.
