(* ===== verification/Allocation.v ===== *)
(** * The allocation lifecycle protocol

    Models [shmem/src/allocation.rs]: the records of allocator operations and the batches
    the collector sends to the source, as bytes.

    - [Module Allocation]: data, [encode] and [decode] of a record, [encode_batch] and
      [decode_batch], the packet type;
    - the theorems: decoding accepts exactly the encodings of well-formed values, so both
      directions of the round trip hold and no other byte string is accepted. *)

From S2P Require Import Prelude Words Sendable.
Open Scope Z_scope.

Module Allocation.

(** ** Data *)

Definition MAX_FRAMES : nat := 32.
Definition RECORD_BYTES : nat := 104 + MAX_FRAMES * 8.
(** [b"MPALLOC1"]. *)
Definition MAGIC : list Z := [77; 80; 65; 76; 76; 79; 67; 49].

Inductive Operation : Type := Allocated | Freed | ReallocBegin | ReallocEnd.
#[export] Instance Operation_eq_dec : EqDecision Operation.
Proof. solve_decision. Defined.

(** [operation as u64]. *)
Definition op_code (o : Operation) : Z :=
  match o with Allocated => 1 | Freed => 2 | ReallocBegin => 3 | ReallocEnd => 4 end.

(** [Operation::try_from]. *)
Definition try_from (value : Z) : option Operation :=
  if value =? 1 then Some Allocated
  else if value =? 2 then Some Freed
  else if value =? 3 then Some ReallocBegin
  else if value =? 4 then Some ReallocEnd
  else None.

Record Allocation : Type := mkAllocation {
  pid : Z;
  process_epoch : Z;
  sequence : Z;
  timestamp_ns : Z;
  tid : Z;
  operation : Operation;
  operation_id : Z;
  old_address : Z;
  address : Z;
  requested_bytes : Z;
  retires_old : bool;
  stack_status : Z;
  frame_count : Z;
  frames : list Z
}.

Record Batch : Type := mkBatch {
  b_sequence : Z;
  produced : Z;
  producer_dropped : Z;
  channel_dropped_operations : Z;
  paused : Z;
  footer : bool;
  records : list Allocation
}.

Record Packet : Type := mkPacket { packet_bytes : list Z }.

(** ** Records *)

(** The 13 words of the header. *)
Definition header (a : Allocation) : list Z :=
  [pid a; process_epoch a; sequence a; timestamp_ns a; tid a; op_code (operation a);
   operation_id a; old_address a; address a; requested_bytes a; Z.b2z (retires_old a);
   frame_count a; stack_status a].

Definition encode (a : Allocation) (bytes : list Z) : list Z :=
  bytes ++ flatten (header a) ++ flatten (frames a).

Definition decode (bytes : list Z) : option Allocation :=
  if negb (length bytes =? RECORD_BYTES)%nat then None
  else
    let word := word bytes in
    if (u32_max <? word 0%nat) || (u32_max <? word 4%nat) then None
    else
      operation ← try_from (word 5%nat);
      let frame_count := word 11%nat in
      if (Z.of_nat MAX_FRAMES <? frame_count) || (1 <? word 10%nat) || (4 <? word 12%nat) then None
      else Some {|
        pid := word 0%nat;
        process_epoch := word 1%nat;
        sequence := word 2%nat;
        timestamp_ns := word 3%nat;
        tid := word 4%nat;
        operation := operation;
        operation_id := word 6%nat;
        old_address := word 7%nat;
        address := word 8%nat;
        requested_bytes := word 9%nat;
        retires_old := word 10%nat =? 1;
        stack_status := word 12%nat;
        frame_count := frame_count;
        frames := (λ i, word (13 + i)%nat) <$> seq 0 MAX_FRAMES
      |}.

(** ** Batches *)

Definition encode_batch (b : Batch) : Packet :=
  let bytes := MAGIC ++ flatten
    [b_sequence b; produced b; producer_dropped b; channel_dropped_operations b; paused b;
     Z.b2z (footer b); Z.of_nat (length (records b))] in
  mkPacket (fold_left (λ bytes record, encode record bytes) (records b) bytes).

(** [word(i)] of a batch starts after the magic. *)
Definition decode_batch (packet : Packet) : option Batch :=
  let bytes := packet_bytes packet in
  if (length bytes <? 64)%nat || negb (bool_decide (take 8 bytes = MAGIC)) then None
  else
    let word := word (drop 8 bytes) in
    let count := word 6%nat in
    if 1 <? word 5%nat then None
    else
      product ← checked_mul count (Z.of_nat RECORD_BYTES);
      total ← checked_add 64 product;
      if negb (Z.of_nat (length bytes) =? total) then None
      else
        records ← mapM decode (chunks RECORD_BYTES (drop 64 bytes));
        Some {|
          b_sequence := word 0%nat;
          produced := word 1%nat;
          producer_dropped := word 2%nat;
          channel_dropped_operations := word 3%nat;
          paused := word 4%nat;
          footer := word 5%nat =? 1;
          records := records
        |}.

#[export] Instance packet_sendable : Sendable Packet := {
  as_raw_bytes := packet_bytes;
  from_raw_bytes := λ bytes, Done (mkPacket bytes)
}.

(** ** Well-formed values: what the Rust types and the protocol bounds allow *)

Record allocation_ok (a : Allocation) : Prop := {
  ok_pid : in_u32 (pid a);
  ok_tid : in_u32 (tid a);
  ok_header : Forall in_u64 (header a);
  ok_status : stack_status a ≤ 4;
  ok_frame_count : frame_count a ≤ Z.of_nat MAX_FRAMES;
  ok_frames : Forall in_u64 (frames a);
  ok_length : length (frames a) = MAX_FRAMES
}.

Record batch_ok (b : Batch) : Prop := {
  ok_words : Forall in_u64 [b_sequence b; produced b; producer_dropped b;
               channel_dropped_operations b; paused b];
  ok_records : Forall allocation_ok (records b);
  ok_size : 64 + Z.of_nat (length (records b)) * Z.of_nat RECORD_BYTES ≤ u64_max
}.

Definition record_bytes (a : Allocation) : list Z := flatten (header a ++ frames a).

#[global] Arguments record_bytes : simpl never.
#[global] Arguments decode : simpl never.

Lemma flatten_app ws vs : flatten (ws ++ vs) = flatten ws ++ flatten vs.
Proof. unfold flatten. by rewrite fmap_app, concat_app. Qed.

Lemma encode_eq a bytes : encode a bytes = bytes ++ record_bytes a.
Proof. unfold encode, record_bytes. by rewrite flatten_app. Qed.

Lemma length_record_bytes a : allocation_ok a → length (record_bytes a) = RECORD_BYTES.
Proof. intros Ha. unfold record_bytes. rewrite length_flatten, length_app, (ok_length _ Ha). done. Qed.

Lemma try_from_code o : try_from (op_code o) = Some o.
Proof. by destruct o. Qed.

Lemma try_from_Some w o : try_from w = Some o → op_code o = w.
Proof.
  unfold try_from. intros H.
  repeat (case_match eqn:E; [apply Z.eqb_eq in E; injection H as <-; by subst|clear E]). done.
Qed.

(** ** Round trips of a record *)

Lemma decode_record_bytes a : allocation_ok a → decode (record_bytes a) = Some a.
Proof.
  intros Ha. pose proof (length_record_bytes a Ha) as Hl. unfold decode.
  rewrite Hl, Nat.eqb_refl. cbn [negb].
  assert (Hws : Forall in_u64 (header a ++ frames a)) by (apply Forall_app; split; apply Ha).
  assert (Hw : ∀ i x, (header a ++ frames a) !! i = Some x → word (record_bytes a) i = x).
  { intros i x Hi. unfold record_bytes. rewrite <-(app_nil_r (flatten _)). by apply word_flatten. }
  rewrite (Hw 0%nat _ eq_refl), (Hw 1%nat _ eq_refl), (Hw 2%nat _ eq_refl), (Hw 3%nat _ eq_refl), (Hw 4%nat _ eq_refl), (Hw 5%nat _ eq_refl), (Hw 6%nat _ eq_refl),
    (Hw 7%nat _ eq_refl), (Hw 8%nat _ eq_refl), (Hw 9%nat _ eq_refl), (Hw 10%nat _ eq_refl), (Hw 11%nat _ eq_refl), (Hw 12%nat _ eq_refl).
  destruct Ha as [[? Hp] [? Ht] Hh Hs Hf HF Hlf].
  repeat rewrite (proj2 (Z.ltb_ge _ _)) by first [done | destruct (retires_old a); simpl; lia].
  cbn [orb]. rewrite try_from_code. cbn [mbind option_bind].
  assert (E : (λ i, word (record_bytes a) (13 + i)) <$> seq 0 MAX_FRAMES = frames a).
  { apply list_eq. intros i. rewrite list_lookup_fmap.
    destruct (decide (i < MAX_FRAMES)%nat) as [Hi|Hi].
    - rewrite lookup_seq_lt by done. simpl.
      destruct (lookup_lt_is_Some_2 (frames a) i) as [x Hx]; [lia|]. rewrite Hx. f_equal.
      apply Hw. rewrite lookup_app_r by (simpl; lia). rewrite <-Hx. f_equal. simpl. lia.
    - rewrite lookup_seq_ge by lia. symmetry. apply lookup_ge_None. lia. }
  rewrite E. destruct a as [? ? ? ? ? ? ? ? ? ? [] ? ? ?]; done.
Qed.

Lemma decode_inv bytes a :
  Forall is_byte bytes → decode bytes = Some a → allocation_ok a ∧ record_bytes a = bytes.
Proof.
  intros Hb. unfold decode. destruct (Nat.eqb_spec (length bytes) RECORD_BYTES) as [Hl|]; [|done].
  cbn [negb]. assert (Hw : ∀ i, in_u64 (word bytes i)) by (intros; by apply word_range).
  destruct (Z.ltb_spec u32_max (word bytes 0)) as [|H0]; [done|].
  destruct (Z.ltb_spec u32_max (word bytes 4)) as [|H4]; [done|]. cbn [orb].
  destruct (try_from (word bytes 5)) as [o|] eqn:Ho; cbn [mbind option_bind]; [|done]. apply try_from_Some in Ho.
  destruct (Z.ltb_spec (Z.of_nat MAX_FRAMES) (word bytes 11)) as [|H11]; [done|].
  destruct (Z.ltb_spec 1 (word bytes 10)) as [|H10]; [done|].
  destruct (Z.ltb_spec 4 (word bytes 12)) as [|H12]; [done|]. intros [= <-].
  assert (Hr : Z.b2z (word bytes 10 =? 1) = word bytes 10).
  { specialize (Hw 10%nat). destruct (Z.eqb_spec (word bytes 10) 1); simpl; word_lia. }
  split.
  - split; simpl; try done.
    + split; [apply Hw|done].
    + split; [apply Hw|done].
    + unfold header; simpl. rewrite Hr, Ho. by repeat (apply Forall_cons; split; [apply Hw|]).
    + by repeat (apply Forall_cons; split; [apply Hw|]).
  - unfold record_bytes, header; cbn [pid process_epoch sequence timestamp_ns tid operation
      operation_id old_address address requested_bytes retires_old stack_status frame_count frames].
    rewrite Hr, Ho. transitivity (flatten (word bytes <$> seq 0 45)); [done|by apply flatten_words].
Qed.

(** ** Round trips of a batch *)

Lemma fold_encode rs bytes :
  fold_left (λ bytes r, encode r bytes) rs bytes = bytes ++ concat (record_bytes <$> rs).
Proof.
  revert bytes; induction rs as [|r rs IH]; intros bytes; simpl; [by rewrite app_nil_r|].
  by rewrite IH, encode_eq, <-app_assoc.
Qed.

Definition batch_words (b : Batch) : list Z :=
  [b_sequence b; produced b; producer_dropped b; channel_dropped_operations b; paused b;
   Z.b2z (footer b); Z.of_nat (length (records b))].

Lemma encode_batch_eq b :
  packet_bytes (encode_batch b) = MAGIC ++ flatten (batch_words b) ++ concat (record_bytes <$> records b).
Proof. unfold encode_batch; cbn [packet_bytes]. by rewrite fold_encode, <-app_assoc. Qed.

Lemma length_records rs :
  Forall allocation_ok rs → length (concat (record_bytes <$> rs)) = (length rs * RECORD_BYTES)%nat.
Proof.
  induction 1 as [|r rs Hr _ IH]; [done|].
  change (concat (record_bytes <$> r :: rs)) with (record_bytes r ++ concat (record_bytes <$> rs)).
  rewrite length_app, length_record_bytes, IH by done. simpl. lia.
Qed.

Lemma mapM_decode rs : Forall allocation_ok rs → mapM decode (record_bytes <$> rs) = Some rs.
Proof.
  induction 1 as [|r rs Hr _ IH]; [done|].
  change (record_bytes <$> r :: rs) with (record_bytes r :: (record_bytes <$> rs)).
  cbn [mapM]. by rewrite decode_record_bytes, IH.
Qed.

Lemma mapM_decode_inv cs rs :
  Forall (Forall is_byte) cs → mapM decode cs = Some rs → Forall allocation_ok rs ∧ record_bytes <$> rs = cs.
Proof.
  revert rs; induction cs as [|c cs IH]; intros rs Hcs H; cbn [mapM] in H.
  { injection H as <-. split; [constructor|done]. }
  apply Forall_cons in Hcs as [Hc Hcs]. destruct (decode c) as [r|] eqn:Hr; simpl in H; [|done].
  destruct (mapM decode cs) as [rs'|] eqn:Hrs; simpl in H; [|done]. injection H as <-.
  destruct (IH rs' Hcs eq_refl) as [IH1 IH2]. apply decode_inv in Hr as [Hok <-]; [|done].
  split; [by constructor|]. csimpl. by rewrite IH2.
Qed.

Lemma length_flatten_words b : length (flatten (batch_words b)) = 56%nat.
Proof. by rewrite length_flatten. Qed.

Lemma batch_words_ok b : batch_ok b → Forall in_u64 (batch_words b).
Proof.
  intros [Hw _ Hs]. unfold batch_words.
  rewrite !Forall_cons, Forall_nil in Hw. destruct Hw as (? & ? & ? & ? & ? & _).
  change (Z.of_nat RECORD_BYTES) with 360 in Hs.
  repeat (apply Forall_cons; split); [done..| | |by apply Forall_nil].
  - destruct (footer b); simpl; word_lia.
  - word_lia.
Qed.

Lemma decode_encode_batch b : batch_ok b → decode_batch (encode_batch b) = Some b.
Proof.
  intros Hb. unfold decode_batch. rewrite encode_batch_eq.
  pose proof (batch_words_ok b Hb) as Hws. destruct Hb as [Hw Hr Hs].
  assert (Hlen : length (MAGIC ++ flatten (batch_words b) ++ concat (record_bytes <$> records b)) =
                 (64 + length (records b) * RECORD_BYTES)%nat).
  { rewrite !length_app, length_flatten_words, length_records by done. done. }
  rewrite Hlen, take_app_length' by done. rewrite bool_decide_true by done.
  rewrite (proj2 (Nat.ltb_ge _ _)) by lia. cbn [orb negb].
  rewrite drop_app_length' by done.
  pose proof (λ i x, word_flatten (batch_words b) (concat (record_bytes <$> records b)) i x Hws) as Hword.
  rewrite (Hword 0%nat _ eq_refl), (Hword 1%nat _ eq_refl), (Hword 2%nat _ eq_refl),
    (Hword 3%nat _ eq_refl), (Hword 4%nat _ eq_refl), (Hword 5%nat _ eq_refl), (Hword 6%nat _ eq_refl).
  rewrite (proj2 (Z.ltb_ge _ _)) by (destruct (footer b); simpl; lia).
  unfold checked_mul, checked_add. rewrite (proj2 (Z.leb_le _ _)) by lia.
  cbn [mbind option_bind]. rewrite (proj2 (Z.leb_le _ _)) by lia. cbn [mbind option_bind].
  rewrite (proj2 (Z.eqb_eq _ _)) by lia. cbn [negb].
  assert (Hd : drop 64 (MAGIC ++ flatten (batch_words b) ++ concat (record_bytes <$> records b)) =
               concat (record_bytes <$> records b)).
  { rewrite app_assoc. apply drop_app_length'. by rewrite length_app, length_flatten_words. }
  rewrite Hd, chunks_concat, mapM_decode; [|done|done|].
  - cbn [mbind option_bind]. destruct b as [? ? ? ? ? [] ?]; done.
  - apply Forall_fmap. eapply Forall_impl; [exact Hr|]. intros r Hok. by apply length_record_bytes.
Qed.

Lemma chunks_bytes n bs : Forall is_byte bs → Forall (Forall is_byte) (chunks n bs).
Proof.
  intros Hb. unfold chunks. apply Forall_fmap, Forall_true. intros i. by apply Forall_take, Forall_drop.
Qed.

Lemma checked_mul_Some a b x : checked_mul a b = Some x → x = a * b ∧ a * b ≤ u64_max.
Proof. unfold checked_mul. case_match eqn:E; [|done]. apply Z.leb_le in E. intros [= <-]. lia. Qed.
Lemma checked_add_Some a b x : checked_add a b = Some x → x = a + b ∧ a + b ≤ u64_max.
Proof. unfold checked_add. case_match eqn:E; [|done]. apply Z.leb_le in E. intros [= <-]. lia. Qed.

Lemma decode_batch_inv bytes b :
  Forall is_byte bytes → decode_batch (mkPacket bytes) = Some b →
  batch_ok b ∧ encode_batch b = mkPacket bytes.
Proof.
  intros Hb. unfold decode_batch. cbn [packet_bytes].
  destruct (Nat.ltb_spec (length bytes) 64) as [|Hl]; [done|].
  case_bool_decide as Hm; cbn [negb orb]; [|done].
  set (body := drop 8 bytes). assert (Hbody : Forall is_byte body) by by apply Forall_drop.
  assert (Hw : ∀ i, in_u64 (word body i)) by (intros; by apply word_range).
  destruct (Z.ltb_spec 1 (word body 5)) as [|H5]; [done|].
  destruct (checked_mul _ _) as [p|] eqn:Hp; cbn [mbind option_bind]; [|done].
  apply checked_mul_Some in Hp as [-> Hp].
  destruct (checked_add _ _) as [t|] eqn:Ht; cbn [mbind option_bind]; [|done].
  apply checked_add_Some in Ht as [-> Ht].
  destruct (Z.eqb_spec (Z.of_nat (length bytes)) (64 + word body 6 * Z.of_nat RECORD_BYTES)) as [Hlen|]; [|done].
  cbn [negb]. destruct (mapM decode _) as [rs|] eqn:Hrs; cbn [mbind option_bind]; [|done]. intros [= <-].
  assert (Hl64 : length (drop 64 bytes) = (Z.to_nat (word body 6) * RECORD_BYTES)%nat).
  { rewrite length_drop. specialize (Hw 6%nat). unfold in_u64 in Hw. lia. }
  destruct (concat_chunks RECORD_BYTES _ _ ltac:(done) Hl64) as (Hc1 & _ & Hc3).
  apply mapM_decode_inv in Hrs as [Hok Hrs]; [|by apply chunks_bytes, Forall_drop].
  assert (Hcount : Z.of_nat (length rs) = word body 6).
  { rewrite <-Hrs, length_fmap in Hc3. specialize (Hw 6%nat). unfold in_u64 in Hw. lia. }
  assert (Hf : Z.b2z (word body 5 =? 1) = word body 5).
  { specialize (Hw 5%nat). destruct (Z.eqb_spec (word body 5) 1); simpl; word_lia. }
  split; [split; cbn [b_sequence produced producer_dropped channel_dropped_operations paused records]|].
  - by repeat (apply Forall_cons; split; [apply Hw|]).
  - done.
  - rewrite Hcount. lia.
  - destruct (encode_batch _) as [bs] eqn:E. f_equal.
    change bs with (packet_bytes (mkPacket bs)). rewrite <-E, encode_batch_eq. unfold batch_words.
    cbn [b_sequence produced producer_dropped channel_dropped_operations paused footer records].
    rewrite Hf, Hcount, Hrs, Hc1.
    rewrite <-(take_drop 8 bytes) at 2. rewrite Hm. fold body. f_equal.
    rewrite <-(take_drop 56 body) at 8. f_equal; [|by unfold body; rewrite drop_drop].
    rewrite <-(flatten_words 7 (take 56 body)); [|..|by apply Forall_take].
    + cbn [seq fmap list_fmap]. by rewrite !word_take by lia.
    + unfold body. rewrite length_take, length_drop. lia.
Qed.

End Allocation.

Import Allocation.

#[export] Instance packet_sendable_laws : SendableLaws Packet.
Proof. split. by intros []. Qed.

(** ** Properties *)

(** A record's decoder accepts exactly the encodings of well-formed records.  On any
    byte string, [decode] returns [a] if and only if [a] respects the protocol's bounds
    (32-bit pid and tid, a known operation, at most 32 frames, a stack status up to 4)
    and the bytes are those [encode] writes for it: encoding then decoding is the
    identity, and no second byte string decodes to the same record. *)
Theorem allocation_codec_exact bytes a :
  Forall is_byte bytes → decode bytes = Some a ↔ allocation_ok a ∧ encode a [] = bytes.
Proof.
  intros Hb. rewrite encode_eq. simpl. split.
  - by apply decode_inv.
  - intros [Ha <-]. by apply decode_record_bytes.
Qed.

Definition sample_allocation (k : Z) : Allocation :=
  mkAllocation 4242 1 k (1000 * k) 4243 ReallocEnd 77 4096 8192 128 true 1 2
    ([65536; 131072] ++ replicate 30 0).

Lemma sample_allocation_ok k : 0 ≤ k ≤ 1000 → allocation_ok (sample_allocation k).
Proof.
  intros Hk. split; simpl; try word_lia; try done.
  - repeat (apply Forall_cons; split; [simpl; word_lia|]). by apply Forall_nil.
  - repeat (apply Forall_cons; split; [word_lia|]). by apply Forall_nil.
Qed.

Lemma allocation_codec_exact_witness :
  length (encode (sample_allocation 5) []) = RECORD_BYTES ∧
  decode (encode (sample_allocation 5) []) = Some (sample_allocation 5).
Proof.
  split; [vm_compute; reflexivity|].
  apply (allocation_codec_exact (encode (sample_allocation 5) []) (sample_allocation 5)).
  - rewrite encode_eq. apply flatten_bytes.
  - split; [apply sample_allocation_ok; lia|reflexivity].
Defined.

(** The same for whole batches.  [decode_batch] returns [b] exactly on the packet
    [encode_batch] builds for it, for every batch of well-formed records whose size fits
    the address space: the magic, the word order, the record count and the length check
    leave no other packet that decodes to [b], and the checked arithmetic never rejects
    a packet that was encoded. *)
Theorem batch_codec_exact bytes b :
  Forall is_byte bytes →
  decode_batch (mkPacket bytes) = Some b ↔ batch_ok b ∧ encode_batch b = mkPacket bytes.
Proof.
  intros Hb. split; [by apply decode_batch_inv|].
  intros [Hok <-]. by apply decode_encode_batch.
Qed.

Definition sample_batch : Batch :=
  mkBatch 3 10 1 0 0 true [sample_allocation 5; sample_allocation 6].

Lemma batch_codec_exact_witness :
  length (packet_bytes (encode_batch sample_batch)) = 784%nat ∧
  decode_batch (encode_batch sample_batch) = Some sample_batch.
Proof.
  split; [vm_compute; reflexivity|].
  apply (batch_codec_exact (packet_bytes (encode_batch sample_batch)) sample_batch).
  - apply (bool_decide_unpack _). vm_compute. exact I.
  - split; [split|destruct (encode_batch sample_batch); reflexivity].
    + repeat (apply Forall_cons; split; [vm_compute; split; congruence|]). by apply Forall_nil.
    + repeat (apply Forall_cons; split; [apply sample_allocation_ok; lia|]). by apply Forall_nil.
    + vm_compute. congruence.
Defined.
