(* ===== verification/Channel.v ===== *)
(** * The shared-memory channel

    Models [shmem/src/proc_channel.rs]: a ring of bytes in shared memory between one
    sender and one receiver, with free-running 64-bit positions [head] and [tail], a
    counter of dropped messages and two semaphores.  The semaphores are the operating
    system's and stand behind the class [Semaphore].

    - the classes [Semaphore] and [SemaphoreLaws], with a counting instance;
    - [Module Channel]: the shared state and the operations.

    [ChannelSpec.v] proves that the channel is a bounded first-in first-out queue, also
    when sender and receiver interleave. *)

From S2P Require Import Prelude Words Sendable.
Open Scope Z_scope.

(** ** Semaphores *)

(** The outcome of [sem_wait] and [sem_trywait]: the count was positive, it was zero (the
    first blocks, the second fails with [EAGAIN]), or the call failed. *)
Inductive waited (S : Type) : Type :=
| Acquired (s : S)
| Exhausted
| Failed.
Arguments Acquired {S} _.
Arguments Exhausted {S}.
Arguments Failed {S}.

Class Semaphore (S : Type) : Type := {
  sem_create : S;
  sem_post : S → option S;
  sem_wait : S → waited S;
  sem_counter : S → Z
}.

(** The documented behaviour of POSIX semaphores the channel relies on. *)
Class SemaphoreLaws (S : Type) `{Semaphore S} : Prop := {
  counter_create : sem_counter sem_create = 0;
  counter_nonneg s : 0 ≤ sem_counter s;
  counter_post s s' : sem_post s = Some s' → sem_counter s' = sem_counter s + 1;
  counter_wait s s' : sem_wait s = Acquired s' → sem_counter s' = sem_counter s - 1;
  wait_exhausted s : sem_wait s = Exhausted → sem_counter s = 0
}.

(** A counting semaphore without failures. *)
#[export] Instance nat_semaphore : Semaphore nat := {
  sem_create := 0%nat;
  sem_post := λ n, Some (S n);
  sem_wait := λ n, match n with O => Exhausted | S n => Acquired n end;
  sem_counter := Z.of_nat
}.
#[export] Instance nat_semaphore_laws : SemaphoreLaws nat.
Proof.
  split; simpl.
  - done.
  - lia.
  - intros s s' [= <-]. lia.
  - intros [|s] s'; [done|]. intros [= <-]. lia.
  - by intros [|s].
Qed.

Module Channel.

(** ** The shared state *)

Record Shared (S : Type) : Type := mkShared {
  data : list Z;
  head : Z;
  tail : Z;
  dropped : Z;
  sem : S;
  finish_sem : S
}.
Arguments mkShared {S}.
Arguments data {S}.
Arguments head {S}.
Arguments tail {S}.
Arguments dropped {S}.
Arguments sem {S}.
Arguments finish_sem {S}.

Definition WORD : Z := 8.

(** A call that may have to wait. *)
Inductive received (T : Type) : Type :=
| Waiting
| Returned (message : option T).
Arguments Waiting {T}.
Arguments Returned {T} _.

Section channel.
Context {S : Type} `{Semaphore S}.

Definition with_data (d : list Z) (r : Shared S) : Shared S :=
  mkShared d (head r) (tail r) (dropped r) (sem r) (finish_sem r).
Definition with_head (h : Z) (r : Shared S) : Shared S :=
  mkShared (data r) h (tail r) (dropped r) (sem r) (finish_sem r).
Definition with_tail (t : Z) (r : Shared S) : Shared S :=
  mkShared (data r) (head r) t (dropped r) (sem r) (finish_sem r).
Definition with_sem (s : S) (r : Shared S) : Shared S :=
  mkShared (data r) (head r) (tail r) (dropped r) s (finish_sem r).
Definition with_finish (s : S) (r : Shared S) : Shared S :=
  mkShared (data r) (head r) (tail r) (dropped r) (sem r) s.
(** [dropped.fetch_add(1)]. *)
Definition drop_message (r : Shared S) : Shared S :=
  mkShared (data r) (head r) (tail r) (wrapping_add (dropped r) 1) (sem r) (finish_sem r).

(** [Inner::new] on a mapping whose ring part is [mapped]: refused, created or attached. *)
Definition inner_new (mapped : Shared S) (data_size : Z) (init : bool) : option (Shared S) :=
  if negb (is_power_of_two data_size) || (data_size <? 2 * WORD) then None
  else if init then Some (mkShared (data mapped) 0 0 0 sem_create sem_create)
  else Some mapped.

(** ** Wrapped copies

    [copy_nonoverlapping] into or out of the mapping; a copy that leaves the mapping has
    no defined result. *)
Definition copy_in (d : list Z) (offset : Z) (bytes : list Z) : outcome (list Z) :=
  if offset + Z.of_nat (length bytes) <=? Z.of_nat (length d)
  then Done (list_inserts (Z.to_nat offset) bytes d) else Panicked.
Definition copy_out (d : list Z) (offset n : Z) : outcome (list Z) :=
  unwrap (slice (Z.to_nat offset) (Z.to_nat n) d).

Definition write_wrapped (size : Z) (d : list Z) (position : Z) (bytes : list Z) : outcome (list Z) :=
  let offset := Z.land position (size - 1) in
  let first := Z.min (Z.of_nat (length bytes)) (size - offset) in
  d ← copy_in d offset (take (Z.to_nat first) bytes);
  if first <? Z.of_nat (length bytes) then copy_in d 0 (drop (Z.to_nat first) bytes) else Done d.

Definition read_wrapped (size : Z) (d : list Z) (position n : Z) : outcome (list Z) :=
  let offset := Z.land position (size - 1) in
  let first := Z.min n (size - offset) in
  part ← copy_out d offset first;
  if first <? n then rest ← copy_out d 0 (n - first); Done (part ++ rest) else Done part.

(** ** Sending *)

(** The length of a record: a word for the size and the data, padded to words. *)
Definition record_length (len : Z) : option Z :=
  padded ← (λ l, Z.land l (Z.lnot (WORD - 1))) <$> checked_add len (WORD - 1);
  checked_add padded WORD.

(** [sem.post()] as the last statement: the error of the semaphore is returned. *)
Definition post_sem (r : Shared S) : bool * Shared S :=
  match sem_post (sem r) with Some s => (true, with_sem s r) | None => (false, r) end.

Definition send_bytes (size : Z) (bytes : list Z) (r : Shared S) : outcome (bool * Shared S) :=
  let len := Z.of_nat (length bytes) in
  match record_length len with
  | None => Done (true, drop_message r)
  | Some record_len =>
      let tail := tail r in
      let head := head r in
      if (size <? record_len) || (size - record_len <? wrapping_sub tail head)
      then Done (true, drop_message r)
      else
        d ← write_wrapped size (data r) tail (to_le_bytes len);
        d ← write_wrapped size d (wrapping_add tail WORD) bytes;
        Done (post_sem (with_tail (wrapping_add tail record_len) (with_data d r)))
  end.

Definition send_sync {T} `{Sendable T} (size : Z) (object : T) (r : Shared S)
    : outcome (bool * Shared S) := send_bytes size (as_raw_bytes object) r.

Definition close (r : Shared S) : bool * Shared S :=
  match sem_post (finish_sem r) with
  | Some s => post_sem (with_finish s r)
  | None => (false, r)
  end.

(** ** Receiving *)

Definition empty (r : Shared S) : bool := head r =? tail r.

(** [read_one] before the message is rebuilt from its bytes. *)
Definition read_bytes (size : Z) (r : Shared S) : outcome (option (list Z) * Shared S) :=
  let head := head r in
  let tail := tail r in
  if head =? tail then Done (None, r)
  else
    size_bytes ← read_wrapped size (data r) head WORD;
    let len := from_le_bytes size_bytes in
    match record_length len with
    | None => Done (None, r)
    | Some record_len =>
        if (wrapping_sub tail head <? record_len) || (size <? record_len) then Done (None, r)
        else
          bytes ← read_wrapped size (data r) (wrapping_add head WORD) len;
          Done (Some bytes, with_head (wrapping_add head record_len) r)
    end.

Definition read_one {T} `{Sendable T} (size : Z) (r : Shared S) : outcome (option T * Shared S) :=
  '(bytes, r) ← read_bytes size r;
  match bytes with
  | None => Done (None, r)
  | Some bytes => message ← from_raw_bytes bytes; Done (Some message, r)
  end.

Definition try_recv {T} `{Sendable T} (size : Z) (r : Shared S) : outcome (option T * Shared S) :=
  if empty r then Done (None, r)
  else
    let r := match sem_wait (sem r) with Acquired s => with_sem s r | _ => r end in
    read_one size r.

Definition recv_sync {T} `{Sendable T} (size : Z) (r : Shared S)
    : outcome (received T * Shared S) :=
  match sem_wait (sem r) with
  | Acquired s => '(m, r) ← read_one size (with_sem s r); Done (Returned m, r)
  | Exhausted => Done (Waiting, r)
  | Failed => Done (Returned None, r)
  end.

(** One poll of the future [recv] awaits. *)
Definition recv_poll {T} `{Sendable T} (size : Z) (r : Shared S)
    : outcome (received T * Shared S) :=
  match sem_wait (sem r) with
  | Acquired s => '(m, r) ← read_one size (with_sem s r); Done (Returned m, r)
  | Exhausted =>
      if 0 <? sem_counter (finish_sem r)
      then '(m, r) ← read_one size r; Done (Returned m, r)
      else Done (Waiting, r)
  | Failed => Done (Returned None, r)
  end.

Definition dropped_count (r : Shared S) : Z := dropped r.

End channel.
End Channel.
