(* ===== verification/ChannelSpec.v ===== *)
(** * The channel is a bounded first-in first-out queue

    The theorems about [Channel.v].

    - [Module Ring]: the wrapped copies, byte by byte, at free-running positions; the
      layout of the queued records in the ring;
    - [Module Fifo]: the abstract queue, and that each operation implements it.

    [Module Queue] lifts this to whole sequences of operations; the sender and
    the receiver as two interleaved processes are the subject of [Spsc.v]. *)

From S2P Require Import Prelude Words Sendable Channel.
Open Scope Z_scope.
Import Channel.

Module Ring.

(** The index of position [p] in the ring. *)
Definition at_ (size p : Z) : nat := Z.to_nat (p `mod` size).

(** The capacity [inner_new] accepts. *)
Record size_ok (size : Z) : Prop := {
  size_pow2 : is_power_of_two size = true;
  size_min : 16 ≤ size;
  size_max : size ≤ u64_max
}.

Lemma size_half size : size_ok size → size ≤ 2 ^ 63.
Proof.
  intros [Hp _ Hm]. apply is_power_of_two_spec in Hp as [H0 Hp]. rewrite Hp in Hm |- *.
  apply Z.pow_le_mono_r; [lia|]. assert (trailing_zeros size < 64); [|lia].
  apply Z.nle_gt. intros H64. pose proof (Z.pow_le_mono_r 2 64 (trailing_zeros size) ltac:(lia) H64).
  word_lia.
Qed.

(** The offset of a wrapped position is the free-running position modulo the size. *)
Lemma offset_mod size p :
  size_ok size → Z.land (wrap64 p) (size - 1) = p `mod` size.
Proof.
  intros [Hp Hm HM]. rewrite land_pow2_mask by done.
  unfold wrap64. apply Z.mod_mod_divide. apply pow2_divides_u64; [done|word_lia].
Qed.

(** ** Bytes at a position *)

(** [bs] lies in the ring from position [p] on. *)
Definition bytes_at (size : Z) (d : list Z) (p : Z) (bs : list Z) : Prop :=
  ∀ i b, bs !! i = Some b → d !! at_ size (p + Z.of_nat i) = Some b.

(** [write_bytes] is the store of [bs] from position [p] on, a byte at a time. *)
Fixpoint write_bytes (size : Z) (p : Z) (bs : list Z) (d : list Z) : list Z :=
  match bs with
  | [] => d
  | b :: bs => write_bytes size (p + 1) bs (<[at_ size p := b]> d)
  end.

Lemma at_inj size p q :
  0 < size → 0 ≤ q - p < size → at_ size p = at_ size q → p = q.
Proof.
  intros Hs Hd Heq. unfold at_ in Heq.
  pose proof (Z.mod_pos_bound p size Hs). pose proof (Z.mod_pos_bound q size Hs).
  assert (Hm : (q - p) `mod` size = 0).
  { rewrite Zminus_mod. replace (q `mod` size) with (p `mod` size) by lia.
    by rewrite Z.sub_diag, Z.mod_0_l by lia. }
  rewrite Z.mod_small in Hm; lia.
Qed.

Lemma at_lt size p : 0 < size → (at_ size p < Z.to_nat size)%nat.
Proof. intros Hs. unfold at_. pose proof (Z.mod_pos_bound p size Hs). lia. Qed.

Lemma length_write_bytes size p bs d : length (write_bytes size p bs d) = length d.
Proof.
  revert p d; induction bs as [|b bs IH]; intros p d; simpl; [done|]. by rewrite IH, length_insert.
Qed.

(** A store leaves the other positions of the window alone. *)
Lemma write_bytes_other size p bs d q :
  0 < size → q < p → p + Z.of_nat (length bs) ≤ q + size →
  write_bytes size p bs d !! at_ size q = d !! at_ size q.
Proof.
  intros Hs. revert p d; induction bs as [|b bs IH]; intros p d Hq Hw; simpl; [done|].
  simpl in Hw. rewrite IH by lia. apply list_lookup_insert_ne.
  intros E. symmetry in E. apply at_inj in E; lia.
Qed.

Lemma write_bytes_at size p bs d :
  0 < size → length d = Z.to_nat size → Z.of_nat (length bs) ≤ size →
  bytes_at size (write_bytes size p bs d) p bs.
Proof.
  intros Hs. revert p d; induction bs as [|b bs IH]; intros p d Hd Hl i x Hi; [done|].
  simpl in *. destruct i as [|i]; simpl in Hi.
  - injection Hi as ->. rewrite Z.add_0_r. destruct (decide (bs = [])) as [->|Hne].
    + simpl. apply list_lookup_insert_eq. rewrite Hd. by apply at_lt.
    + rewrite write_bytes_other; [|done|lia|lia]. apply list_lookup_insert_eq. rewrite Hd. by apply at_lt.
  - replace (p + Z.of_nat (S i)) with (p + 1 + Z.of_nat i) by lia. apply IH; [|lia|done].
    by rewrite length_insert.
Qed.

(** Bytes outside the stored range stay, within one turn of the ring. *)
Lemma bytes_at_write size d p bs q cs :
  0 < size → bytes_at size d q cs → q + Z.of_nat (length cs) ≤ p →
  p + Z.of_nat (length bs) ≤ q + size →
  bytes_at size (write_bytes size p bs d) q cs.
Proof.
  intros Hs Hat H1 H2 i b Hi. pose proof (lookup_lt_Some _ _ _ Hi).
  rewrite write_bytes_other by lia. by apply Hat.
Qed.

Lemma bytes_at_app size d p bs cs :
  bytes_at size d p (bs ++ cs) ↔ bytes_at size d p bs ∧ bytes_at size d (p + Z.of_nat (length bs)) cs.
Proof.
  split.
  - intros H. split; intros i b Hi.
    + apply H. by apply lookup_app_l_Some.
    + replace (p + Z.of_nat (length bs) + Z.of_nat i) with (p + Z.of_nat (length bs + i)) by lia.
      apply H. rewrite lookup_app_r by lia. rewrite <-Hi. f_equal. lia.
  - intros [H1 H2] i b Hi. apply lookup_app_Some in Hi as [Hi|[Hl Hi]]; [by apply H1|].
    apply H2 in Hi. rewrite <-Hi. do 2 f_equal. lia.
Qed.

(** ** The wrapped copies, byte by byte *)

Lemma write_bytes_app size p bs cs d :
  write_bytes size p (bs ++ cs) d = write_bytes size (p + Z.of_nat (length bs)) cs (write_bytes size p bs d).
Proof.
  revert p d; induction bs as [|b bs IH]; intros p d; simpl; [by rewrite Z.add_0_r|].
  rewrite IH. f_equal. lia.
Qed.

(** A store that does not wrap is the insertion of a block. *)
Lemma write_bytes_inserts size p bs d :
  0 < size → p `mod` size + Z.of_nat (length bs) ≤ size →
  write_bytes size p bs d = list_inserts (at_ size p) bs d.
Proof.
  intros Hs. revert p d; induction bs as [|b bs IH]; intros p d Hl; cbn [write_bytes list_inserts length] in *; [done|].
  destruct bs as [|b' bs']; [done|].
  assert (Hp : (p + 1) `mod` size = p `mod` size + 1).
  { pose proof (Z.mod_pos_bound p size Hs). cbn [length] in Hl.
    rewrite Zplus_mod, (Z.mod_small 1) by lia. apply Z.mod_small. lia. }
  rewrite IH by (rewrite Hp; lia).
  assert (at_ size (p + 1) = S (at_ size p)) as ->.
  { unfold at_. rewrite Hp. pose proof (Z.mod_pos_bound p size Hs). lia. }
  symmetry. apply list_insert_inserts_lt. lia.
Qed.

(** The end of the ring is its start. *)
Lemma turn_mod size p : 0 < size → (p + (size - p `mod` size)) `mod` size = 0.
Proof.
  intros Hs. replace (p + (size - p `mod` size)) with ((p - p `mod` size) + 1 * size) by lia.
  rewrite Z.mod_add, Zminus_mod, Z.mod_mod, Z.sub_diag by lia. by apply Z.mod_0_l; lia.
Qed.

(** [write_wrapped] stores exactly its bytes, in one or two blocks, inside the mapping. *)
Lemma write_wrapped_bytes size d p bs :
  size_ok size → length d = Z.to_nat size → Z.of_nat (length bs) ≤ size →
  write_wrapped size d (wrap64 p) bs = Done (write_bytes size p bs d).
Proof.
  intros Hs Hd Hl. pose proof (size_min _ Hs) as Hm. unfold write_wrapped, copy_in.
  rewrite offset_mod by done. pose proof (Z.mod_pos_bound p size ltac:(lia)) as Hp.
  set (f := Z.min _ _). assert (Hf : 0 ≤ f ≤ Z.of_nat (length bs) ∧ f ≤ size - p `mod` size) by lia.
  assert (Htake : length (take (Z.to_nat f) bs) = Z.to_nat f) by (rewrite length_take; lia).
  rewrite Htake, (proj2 (Z.leb_le _ _)) by lia. cbn [mbind outcome_bind].
  change (Z.to_nat (p `mod` size)) with (at_ size p).
  rewrite <-write_bytes_inserts by lia.
  destruct (Z.ltb_spec f (Z.of_nat (length bs))) as [Hlt|Hge].
  - assert (Hfe : f = size - p `mod` size) by lia.
    assert (Hz : (p + f) `mod` size = 0) by (rewrite Hfe; apply turn_mod; lia).
    rewrite length_drop, length_write_bytes, (proj2 (Z.leb_le _ _)) by lia.
    rewrite <-(take_drop (Z.to_nat f) bs) at 3. rewrite write_bytes_app, Htake, Z2Nat.id by lia.
    rewrite (write_bytes_inserts size (p + f)).
    + assert (at_ size (p + f) = 0%nat) as -> by (unfold at_; by rewrite Hz). done.
    + lia.
    + rewrite Hz, length_drop. lia.
  - by rewrite take_ge by lia.
Qed.

Lemma bytes_at_slice size d p bs :
  0 < size → length d = Z.to_nat size → bytes_at size d p bs →
  p `mod` size + Z.of_nat (length bs) ≤ size → slice (at_ size p) (length bs) d = Some bs.
Proof.
  intros Hs Hd Hat Hl. pose proof (Z.mod_pos_bound p size Hs) as Hp.
  unfold slice. rewrite decide_True by (rewrite Hd; unfold at_; lia). f_equal.
  apply list_eq. intros i. destruct (decide (i < length bs)%nat) as [Hi|Hi].
  - destruct (lookup_lt_is_Some_2 bs i Hi) as [b Hb]. rewrite Hb, lookup_take_lt, lookup_drop by done.
    rewrite <-(Hat i b Hb). f_equal. unfold at_.
    rewrite Zplus_mod, (Z.mod_small (Z.of_nat i)), (Z.mod_small (_ + _)) by lia. lia.
  - rewrite (proj2 (lookup_ge_None bs i)) by lia. apply lookup_take_ge. lia.
Qed.

(** [read_wrapped] returns exactly the bytes at its position. *)
Lemma read_wrapped_bytes size d p bs :
  size_ok size → length d = Z.to_nat size → Z.of_nat (length bs) ≤ size → bytes_at size d p bs →
  read_wrapped size d (wrap64 p) (Z.of_nat (length bs)) = Done bs.
Proof.
  intros Hs Hd Hl Hat. pose proof (size_min _ Hs) as Hm. unfold read_wrapped, copy_out.
  rewrite offset_mod by done. pose proof (Z.mod_pos_bound p size ltac:(lia)) as Hp.
  set (f := Z.min _ _). assert (Hf : 0 ≤ f ≤ Z.of_nat (length bs) ∧ f ≤ size - p `mod` size) by lia.
  assert (Htake : length (take (Z.to_nat f) bs) = Z.to_nat f) by (rewrite length_take; lia).
  rewrite <-(take_drop (Z.to_nat f) bs) in Hat. apply bytes_at_app in Hat as [Hat1 Hat2].
  rewrite Htake, Z2Nat.id in Hat2 by lia.
  change (Z.to_nat (p `mod` size)) with (at_ size p).
  pose proof (bytes_at_slice size d p _ ltac:(lia) Hd Hat1 ltac:(lia)) as Hsl. rewrite Htake in Hsl.
  rewrite Hsl. cbn [unwrap mbind outcome_bind].
  destruct (Z.ltb_spec f (Z.of_nat (length bs))) as [Hlt|Hge]; [|by rewrite take_ge by lia].
  assert (Hfe : f = size - p `mod` size) by lia.
  assert (Hz : (p + f) `mod` size = 0) by (rewrite Hfe; apply turn_mod; lia).
  assert (Hdl : length (drop (Z.to_nat f) bs) = Z.to_nat (Z.of_nat (length bs) - f)) by (rewrite length_drop; lia).
  pose proof (bytes_at_slice size d (p + f) _ ltac:(lia) Hd Hat2) as Hsl2. rewrite Hz, Hdl in Hsl2.
  unfold at_ in Hsl2. rewrite Hz in Hsl2. rewrite Hsl2 by lia. cbn [unwrap mbind outcome_bind].
  by rewrite take_drop.
Qed.

#[global] Arguments write_bytes : simpl never.

End Ring.

Import Ring.

Module Fifo.

(** ** Records *)

(** The bytes a record writes, and the space it takes. *)
Definition stream (m : list Z) : list Z := to_le_bytes (Z.of_nat (length m)) ++ m.
Definition reclen (m : list Z) : Z := 8 + 8 * ((Z.of_nat (length m) + 7) / 8).

Lemma length_stream m : length (stream m) = (8 + length m)%nat.
Proof. unfold stream. by rewrite length_app, length_to_le_bytes. Qed.

Lemma reclen_bounds m : Z.of_nat (length (stream m)) ≤ reclen m < Z.of_nat (length (stream m)) + 8.
Proof.
  rewrite length_stream. unfold reclen.
  pose proof (Z.div_mod (Z.of_nat (length m) + 7) 8 ltac:(lia)).
  pose proof (Z.mod_pos_bound (Z.of_nat (length m) + 7) 8 ltac:(lia)). lia.
Qed.

Lemma round_up len : Z.land (len + 7) (Z.lnot (WORD - 1)) = 8 * ((len + 7) / 8).
Proof.
  change (WORD - 1) with (Z.ones 3). rewrite <-Z.ldiff_land, Z.ldiff_ones_r by lia.
  rewrite Z.shiftl_mul_pow2, Z.shiftr_div_pow2 by lia. change (2 ^ 3) with 8. lia.
Qed.

Lemma record_length_Some m :
  Z.of_nat (length m) + 15 ≤ u64_max → record_length (Z.of_nat (length m)) = Some (reclen m).
Proof.
  intros Hm. unfold record_length, checked_add. change (WORD - 1) with 7 at 1.
  rewrite (proj2 (Z.leb_le _ _)) by (change (WORD - 1) with 7; lia).
  change (WORD - 1) with 7 at 1. cbn [fmap option_fmap option_map mbind option_bind].
  pose proof (reclen_bounds m) as Hr. rewrite length_stream in Hr. unfold reclen in *.
  change (Z.of_nat (length m) + (WORD - 1)) with (Z.of_nat (length m) + 7).
  rewrite round_up. unfold WORD. rewrite (proj2 (Z.leb_le _ _)) by lia. f_equal. lia.
Qed.

(** A message too long to have a record is too long for the ring. *)
Lemma record_length_long size m :
  size_ok size → size < reclen m ∨ record_length (Z.of_nat (length m)) = Some (reclen m).
Proof.
  intros Hs. destruct (Z.le_gt_cases (Z.of_nat (length m) + 15) u64_max); [right; by apply record_length_Some|].
  left. pose proof (size_half _ Hs). pose proof (reclen_bounds m) as Hr. rewrite length_stream in Hr.
  word_lia.
Qed.

Lemma record_length_inv len x :
  0 ≤ len → record_length len = Some x → x = 8 + 8 * ((len + 7) / 8).
Proof.
  intros Hl. unfold record_length, checked_add. change (len + (WORD - 1)) with (len + 7).
  case_match; [|done]. cbn [fmap option_fmap option_map mbind option_bind]. rewrite round_up.
  case_match; [|done]. intros [= <-]. unfold WORD. lia.
Qed.

(** ** The layout of the queue *)

Fixpoint queue_at (size : Z) (d : list Z) (p : Z) (q : list (list Z)) (t : Z) : Prop :=
  match q with
  | [] => p = t
  | m :: q => bytes_at size d p (stream m) ∧ queue_at size d (p + reclen m) q t
  end.

Fixpoint used (q : list (list Z)) : Z :=
  match q with [] => 0 | m :: q => reclen m + used q end.

Lemma used_app q1 q2 : used (q1 ++ q2) = used q1 + used q2.
Proof. induction q1 as [|m q1 IH]; simpl; [done|]. rewrite IH. lia. Qed.

Lemma reclen_pos m : 8 ≤ reclen m.
Proof. pose proof (reclen_bounds m) as H. rewrite length_stream in H. lia. Qed.

Lemma used_nonneg q : 0 ≤ used q.
Proof. induction q as [|m q IH]; simpl; [done|]. pose proof (reclen_pos m). lia. Qed.

Lemma queue_at_used size d p q t : queue_at size d p q t → t = p + used q.
Proof.
  revert p; induction q as [|m q IH]; intros p; simpl; [lia|]. intros [_ Hq]. apply IH in Hq. lia.
Qed.

Lemma queue_at_app size d p q1 q2 t :
  queue_at size d p (q1 ++ q2) t ↔ queue_at size d p q1 (p + used q1) ∧ queue_at size d (p + used q1) q2 t.
Proof.
  revert p; induction q1 as [|m q1 IH]; intros p; simpl.
  - rewrite Z.add_0_r. naive_solver.
  - rewrite IH. rewrite Z.add_assoc. tauto.
Qed.

(** A store in the free part of the ring leaves the queue alone. *)
Lemma queue_at_write size d h p q t w bs :
  0 < size → queue_at size d p q t → h ≤ p → t ≤ w → w + Z.of_nat (length bs) ≤ h + size →
  queue_at size (write_bytes size w bs d) p q t.
Proof.
  intros Hs. revert p; induction q as [|m q IH]; intros p Hq Hp Ht Hw; simpl in *; [done|].
  destruct Hq as [Hm Hq]. pose proof (queue_at_used _ _ _ _ _ Hq). pose proof (used_nonneg q).
  pose proof (reclen_bounds m). pose proof (reclen_pos m). split; [|apply IH; [done|lia|lia|lia]].
  apply bytes_at_write; [done|done|lia|lia].
Qed.

(** [r] holds the messages [q] between the free-running positions [h] and [t]. *)
Record holds {S} (size : Z) (r : Shared S) (h t : Z) (q : list (list Z)) : Prop := {
  h_size : size_ok size;
  h_length : length (data r) = Z.to_nat size;
  h_head : head r = wrap64 h;
  h_tail : tail r = wrap64 t;
  h_room : h ≤ t ≤ h + size;
  h_queue : queue_at size (data r) h q t
}.

Lemma distance size h t :
  size_ok size → h ≤ t ≤ h + size → wrapping_sub (wrap64 t) (wrap64 h) = t - h.
Proof.
  intros Hs Hr. pose proof (size_half _ Hs). unfold wrapping_sub. rewrite wrap64_sub_wrap.
  apply wrap64_small. word_lia.
Qed.

Lemma wrapping_add_wrap a b : wrapping_add (wrap64 a) b = wrap64 (a + b).
Proof. unfold wrapping_add. apply wrap64_add_l. Qed.

Lemma wrap64_eq size h t :
  size_ok size → h ≤ t ≤ h + size → wrap64 h = wrap64 t → h = t.
Proof.
  intros Hs Hr Heq. pose proof (distance size h t Hs Hr) as Hd. rewrite Heq in Hd.
  unfold wrapping_sub in Hd. rewrite Z.sub_diag in Hd. change (wrap64 0) with 0 in Hd. lia.
Qed.

(** ** The operations on the layout *)

Section operations.
Context {S : Type} `{Semaphore S}.

Lemma holds_post size (r : Shared S) h t q : holds size r h t q → holds size (post_sem r).2 h t q.
Proof. intros []. unfold post_sem. by case_match. Qed.

Lemma dropped_post (r : Shared S) : dropped (post_sem r).2 = dropped r.
Proof. unfold post_sem. by case_match. Qed.

(** A message that fits is appended. *)
Lemma send_fits size (r : Shared S) h t q m :
  holds size r h t q → t - h + reclen m ≤ size →
  ∃ ok r', send_bytes size m r = Done (ok, r') ∧ holds size r' h (t + reclen m) (q ++ [m]) ∧
    dropped r' = dropped r ∧
    ∃ r1, r' = (post_sem r1).2 ∧ sem r1 = sem r ∧ finish_sem r1 = finish_sem r.
Proof.
  intros [Hs Hl Hh Ht Hr Hq] Hfit. unfold send_bytes.
  pose proof (reclen_bounds m) as Hb. pose proof (reclen_pos m). pose proof (size_min _ Hs).
  destruct (record_length_long size m Hs) as [Hlong|Hrl]; [lia|]. rewrite Hrl, Hh, Ht.
  rewrite (distance size) by done.
  rewrite (proj2 (Z.ltb_ge _ _)), (proj2 (Z.ltb_ge _ _)) by lia. cbn [orb].
  rewrite length_stream in Hb.
  rewrite write_wrapped_bytes by (try done; rewrite ?length_to_le_bytes; lia). cbn [mbind outcome_bind].
  unfold WORD. rewrite !wrapping_add_wrap.
  rewrite write_wrapped_bytes by (try done; rewrite ?length_write_bytes; lia). cbn [mbind outcome_bind].
  eexists _, _. split; [by rewrite <-surjective_pairing|]. split; [|split; [by rewrite dropped_post|by eexists]].
  apply holds_post. split; simpl; try done.
  - by rewrite !length_write_bytes.
  - lia.
  - change (t + 8) with (t + Z.of_nat (length (to_le_bytes (Z.of_nat (length m))))).
    rewrite <-write_bytes_app. fold (stream m).
    apply queue_at_app. rewrite <-(queue_at_used _ _ _ _ _ Hq). split; [|split].
    + eapply (queue_at_write size _ h); [lia|done|lia|lia|]. rewrite length_stream. lia.
    + apply write_bytes_at; [lia|done|]. rewrite length_stream. lia.
    + done.
Qed.

(** A message that does not fit is dropped and counted. *)
Lemma send_drops size (r : Shared S) h t q m :
  holds size r h t q → size < t - h + reclen m → send_bytes size m r = Done (true, drop_message r).
Proof.
  intros [Hs Hl Hh Ht Hr Hq] Hfit. unfold send_bytes.
  destruct (record_length_long size m Hs) as [Hlong|Hrl].
  - destruct (record_length _) as [x|] eqn:Hx; [|done]. apply record_length_inv in Hx; [|lia].
    change (8 + 8 * ((Z.of_nat (length m) + 7) / 8)) with (reclen m) in Hx. subst x.
    by rewrite (proj2 (Z.ltb_lt _ _)).
  - rewrite Hrl, Hh, Ht, (distance size) by done.
    destruct (size <? reclen m); [done|]. by rewrite (proj2 (Z.ltb_lt _ _)) by lia.
Qed.

Lemma holds_empty size (r : Shared S) h t q : holds size r h t q → empty r = bool_decide (q = []).
Proof.
  intros [Hs Hl Hh Ht Hr Hq]. unfold empty. rewrite Hh, Ht. pose proof (queue_at_used _ _ _ _ _ Hq).
  destruct q as [|m q]; cbn [used] in *.
  - rewrite bool_decide_true by done. apply Z.eqb_eq. f_equal. lia.
  - rewrite bool_decide_false by done. apply Z.eqb_neq. intros E.
    apply (wrap64_eq size) in E; [|done..]. pose proof (reclen_pos m). pose proof (used_nonneg q). lia.
Qed.

(** Reading takes the oldest message. *)
Lemma read_oldest size (r : Shared S) h t m q :
  holds size r h t (m :: q) →
  ∃ r', read_bytes size r = Done (Some m, r') ∧ holds size r' (h + reclen m) t q ∧
    dropped r' = dropped r ∧ sem r' = sem r ∧ finish_sem r' = finish_sem r.
Proof.
  intros Hold. pose proof (holds_empty _ _ _ _ _ Hold) as He. rewrite bool_decide_false in He by done.
  destruct Hold as [Hs Hl Hh Ht Hr [Hm Hq]]. unfold read_bytes. unfold empty in He. rewrite He.
  pose proof (queue_at_used _ _ _ _ _ Hq). pose proof (used_nonneg q). pose proof (reclen_pos m).
  pose proof (reclen_bounds m) as Hb. rewrite length_stream in Hb. pose proof (size_half _ Hs).
  apply bytes_at_app in Hm as [Hm1 Hm2]. rewrite length_to_le_bytes in Hm2.
  rewrite Hh, Ht.
  pose proof (read_wrapped_bytes size (data r) h _ Hs Hl ltac:(rewrite length_to_le_bytes; lia) Hm1) as E.
  rewrite length_to_le_bytes in E. change (Z.of_nat 8) with WORD in E. rewrite E. clear E.
  cbn [mbind outcome_bind]. rewrite from_to_le_bytes by word_lia.
  rewrite record_length_Some by word_lia. rewrite (distance size) by done.
  rewrite (proj2 (Z.ltb_ge _ _)), (proj2 (Z.ltb_ge _ _)) by lia. cbn [orb].
  unfold WORD. rewrite !wrapping_add_wrap. change (Z.of_nat 8) with 8 in Hm2.
  rewrite read_wrapped_bytes by (try done; lia). cbn [mbind outcome_bind].
  eexists. split; [done|]. split; [|done]. split; simpl; try done. lia.
Qed.

Lemma read_empty size (r : Shared S) h t : holds size r h t [] → read_bytes size r = Done (None, r).
Proof.
  intros Hold. pose proof (holds_empty _ _ _ _ _ Hold) as He. rewrite bool_decide_true in He by done.
  unfold read_bytes. unfold empty in He. by rewrite He.
Qed.

End operations.

End Fifo.

Import Fifo.

Module Queue.

(** ** The abstract channel

    A queue of messages, the number of messages lost to backpressure, the wake-ups of
    [close] that no receive has consumed, and the number of [close] calls. *)
Record queue_state (T : Type) : Type := mkQueue {
  queue : list T;
  lost : Z;
  wakeups : nat;
  closes : nat
}.
Arguments mkQueue {T}.
Arguments queue {T}.
Arguments lost {T}.
Arguments wakeups {T}.
Arguments closes {T}.

Inductive op (T : Type) : Type :=
| Send (x : T)
| Close
| TryRecv
| RecvSync
| RecvPoll.
Arguments Send {T} _.
Arguments Close {T}.
Arguments TryRecv {T}.
Arguments RecvSync {T}.
Arguments RecvPoll {T}.

(** What an operation returns: nothing for [send_sync] and [close]. *)
Inductive output (T : Type) : Type :=
| Quiet
| Tried (m : option T)
| Waited (m : received T).
Arguments Quiet {T}.
Arguments Tried {T} _.
Arguments Waited {T} _.

Section queue.
Context {T : Type} `{Sendable T} `{!SendableLaws T}.

Definition bytes_of (q : list T) : list (list Z) := as_raw_bytes <$> q.

(** Every message is delivered once, in order; a full ring loses the new message; an
    empty queue makes a receiver wait until [close]. *)
Definition queue_step (size : Z) (s : queue_state T) (o : op T) : output T * queue_state T :=
  match o with
  | Send x =>
      (Quiet, if used (bytes_of (queue s)) + reclen (as_raw_bytes x) <=? size
              then mkQueue (queue s ++ [x]) (lost s) (wakeups s) (closes s)
              else mkQueue (queue s) (wrapping_add (lost s) 1) (wakeups s) (closes s))
  | Close => (Quiet, mkQueue (queue s) (lost s) (S (wakeups s)) (S (closes s)))
  | TryRecv =>
      match queue s with
      | [] => (Tried None, s)
      | x :: q => (Tried (Some x), mkQueue q (lost s) (wakeups s) (closes s))
      end
  | RecvSync =>
      match queue s, wakeups s with
      | x :: q, _ => (Waited (Returned (Some x)), mkQueue q (lost s) (wakeups s) (closes s))
      | [], S n => (Waited (Returned None), mkQueue [] (lost s) n (closes s))
      | [], O => (Waited Waiting, s)
      end
  | RecvPoll =>
      match queue s, wakeups s, closes s with
      | x :: q, _, _ => (Waited (Returned (Some x)), mkQueue q (lost s) (wakeups s) (closes s))
      | [], S n, _ => (Waited (Returned None), mkQueue [] (lost s) n (closes s))
      | [], O, S _ => (Waited (Returned None), s)
      | [], O, O => (Waited Waiting, s)
      end
  end.

Fixpoint queue_run (size : Z) (ops : list (op T)) (s : queue_state T)
    : list (output T) * queue_state T :=
  match ops with
  | [] => ([], s)
  | o :: ops =>
      let '(out, s) := queue_step size s o in
      let '(outs, s) := queue_run size ops s in (out :: outs, s)
  end.

Definition empty_queue : queue_state T := mkQueue [] 0 0 0.

Section implementation.
Context {S : Type} `{Semaphore S} `{!SemaphoreLaws S}.

(** The same operations on the shared memory. *)
Definition channel_step (size : Z) (r : Shared S) (o : op T) : outcome (output T * Shared S) :=
  match o with
  | Send x => '(_, r) ← send_sync size x r; Done (Quiet, r)
  | Close => Done (Quiet, (close r).2)
  | TryRecv => '(m, r) ← try_recv size r; Done (Tried m, r)
  | RecvSync => '(m, r) ← recv_sync size r; Done (Waited m, r)
  | RecvPoll => '(m, r) ← recv_poll size r; Done (Waited m, r)
  end.

(** Semaphore calls succeed: no overflow of the count, no interrupted wait. *)
Definition reliable : Prop :=
  (∀ s : S, is_Some (sem_post s)) ∧ (∀ s : S, sem_wait s ≠ Failed) ∧
  (∀ s : S, 0 < sem_counter s → sem_wait s ≠ Exhausted).

Record represents (size : Z) (r : Shared S) (s : queue_state T) : Prop := {
  rep_holds : ∃ h t, holds size r h t (bytes_of (queue s));
  rep_lost : dropped r = lost s;
  rep_sem : sem_counter (sem r) = Z.of_nat (length (queue s) + wakeups s);
  rep_finish : sem_counter (finish_sem r) = Z.of_nat (closes s)
}.

Lemma post_counter (r : Shared S) :
  reliable → sem_counter (sem (post_sem r).2) = sem_counter (sem r) + 1 ∧
  finish_sem (post_sem r).2 = finish_sem r.
Proof.
  intros (Hp & _). unfold post_sem. destruct (Hp (sem r)) as [s' Hs]. rewrite Hs. simpl.
  split; [by apply counter_post|done].
Qed.

(** A wait succeeds exactly when the count is positive. *)
Lemma wait_cases (s : S) :
  reliable →
  (∃ s', sem_wait s = Acquired s' ∧ sem_counter s' = sem_counter s - 1 ∧ 0 < sem_counter s) ∨
  (sem_wait s = Exhausted ∧ sem_counter s = 0).
Proof.
  intros (_ & Hf & Hx). destruct (sem_wait s) as [s'| |] eqn:E.
  - left. pose proof (counter_wait _ _ E). pose proof (counter_nonneg s').
    exists s'. split_and!; [done|done|lia].
  - right. split; [done|]. by apply wait_exhausted.
  - by destruct (Hf s).
Qed.

Lemma read_one_oldest size (r : Shared S) h t x q :
  holds size r h t (bytes_of (x :: q)) →
  ∃ r', read_one size r = Done (Some x, r') ∧ holds size r' (h + reclen (as_raw_bytes x)) t (bytes_of q) ∧
    dropped r' = dropped r ∧ sem r' = sem r ∧ finish_sem r' = finish_sem r.
Proof.
  intros Hh. destruct (read_oldest size r h t (as_raw_bytes x) (bytes_of q) Hh) as (r' & E & Hh' & Hd & Hs & Hf).
  exists r'. unfold read_one. rewrite E. cbn [mbind outcome_bind]. rewrite from_as_raw_bytes.
  done.
Qed.

Lemma read_one_empty size (r : Shared S) h t :
  holds size r h t [] → read_one size r = Done (@None T, r).
Proof. intros Hh. unfold read_one. by rewrite (read_empty _ _ _ _ Hh). Qed.

Lemma holds_with_sem size (r : Shared S) s h t q : holds size r h t q → holds size (with_sem s r) h t q.
Proof. by intros []. Qed.

(** ** Each operation implements the abstract one *)

Lemma send_step size (r : Shared S) s x :
  reliable → represents size r s →
  ∃ r', channel_step size r (Send x) = Done (Quiet, r') ∧
    represents size r' (queue_step size s (Send x)).2.
Proof.
  intros HR [(h & t & Hh) Hl Hs Hf]. simpl.
  pose proof (queue_at_used _ _ _ _ _ (h_queue _ _ _ _ _ Hh)) as Hu.
  destruct (Z.leb_spec (used (bytes_of (queue s)) + reclen (as_raw_bytes x)) size) as [Hfit|Hfull].
  - destruct (send_fits size r h t _ (as_raw_bytes x) Hh) as (ok & r' & E & Hh' & Hd & r1 & -> & E1 & E2); [lia|].
    unfold send_sync. rewrite E. eexists. split; [done|].
    destruct (post_counter r1 HR) as [P1 P2]. split; simpl.
    + exists h, (t + reclen (as_raw_bytes x)). unfold bytes_of. by rewrite fmap_app.
    + by rewrite Hd.
    + rewrite P1, E1, Hs, length_app. simpl. lia.
    + by rewrite P2, E2.
  - unfold send_sync. rewrite (send_drops size r h t _ _ Hh) by lia.
    eexists. split; [done|]. split; simpl; [|by rewrite Hl|done|done]. exists h, t.
    destruct Hh. by split.
Qed.

Lemma close_step size (r : Shared S) s :
  reliable → represents size r s →
  represents size (close r).2 (queue_step size s Close).2.
Proof.
  intros HR [(h & t & Hh) Hl Hs Hf]. unfold close.
  destruct (proj1 HR (finish_sem r)) as [f Hpost]. rewrite Hpost.
  destruct (post_counter (with_finish f r) HR) as [P1 P2]. split; simpl.
  - exists h, t. apply holds_post. by destruct Hh.
  - by rewrite dropped_post.
  - rewrite P1. simpl. lia.
  - rewrite P2. simpl. rewrite (counter_post _ _ Hpost). lia.
Qed.

(** A receive that found a token: the oldest message, or the wake-up of a close. *)
Lemma token_step size (r : Shared S) s s' :
  represents size r s → sem_counter s' = sem_counter (sem r) - 1 → 0 < sem_counter (sem r) →
  ∃ m r' q w, read_one size (with_sem s' r) = Done (m, r') ∧
    represents size r' (mkQueue q (lost s) w (closes s)) ∧
    match queue s, wakeups s with
    | x :: q0, _ => m = Some x ∧ q = q0 ∧ w = wakeups s
    | [], n => m = None ∧ q = [] ∧ n = Datatypes.S w
    end.
Proof.
  intros [(h & t & Hh) Hl Hs Hf] Hc Hpos. destruct (queue s) as [|x q] eqn:Hq.
  - simpl in Hs. destruct (wakeups s) as [|w]; [lia|].
    apply (holds_with_sem _ _ s') in Hh. pose proof (read_one_empty _ _ _ _ Hh) as E.
    exists None, (with_sem s' r), [], w. split; [done|]. split; [|done].
    split; simpl; [by exists h, t|done|lia|done].
  - apply (holds_with_sem _ _ s') in Hh.
    destruct (read_one_oldest _ _ _ _ _ _ Hh) as (r' & E & Hh' & E1 & E2 & E3).
    exists (Some x), r', q, (wakeups s). split; [done|]. split; [|done].
    split; simpl; [by eexists _, _|by rewrite E1|rewrite E2; simpl in *; lia|by rewrite E3].
Qed.

Lemma try_step size (r : Shared S) s :
  reliable → represents size r s →
  ∃ o r', channel_step size r TryRecv = Done (o, r') ∧ (queue_step size s TryRecv).1 = o ∧
    represents size r' (queue_step size s TryRecv).2.
Proof.
  intros HR Hrep. pose proof Hrep as [(h & t & Hh) Hl Hs Hf]. simpl. unfold try_recv.
  rewrite (holds_empty _ _ _ _ _ Hh). destruct (queue s) as [|x q] eqn:Hq.
  - cbn. by eexists _, _.
  - cbn [bytes_of fmap list_fmap]. rewrite bool_decide_false by done.
    destruct (wait_cases (sem r) HR) as [(s' & -> & Hc & Hpos)|[_ Hz]]; [|simpl in Hs; lia].
    destruct (token_step size r s s' Hrep Hc Hpos) as (m & r' & q' & w & E & Hrep' & Hm).
    rewrite Hq in Hm. destruct Hm as (-> & -> & ->). rewrite E. by eexists _, _.
Qed.

Lemma sync_step size (r : Shared S) s :
  reliable → represents size r s →
  ∃ o r', channel_step size r RecvSync = Done (o, r') ∧ (queue_step size s RecvSync).1 = o ∧
    represents size r' (queue_step size s RecvSync).2.
Proof.
  intros HR Hrep. pose proof Hrep as [(h & t & Hh) Hl Hs Hf]. simpl. unfold recv_sync.
  destruct (wait_cases (sem r) HR) as [(s' & -> & Hc & Hpos)|[-> Hz]].
  - destruct (token_step size r s s' Hrep Hc Hpos) as (m & r' & q' & w & E & Hrep' & Hm). rewrite E.
    cbn [mbind outcome_bind]. destruct (queue s) as [|x q]; simpl in *.
    + destruct Hm as (-> & -> & Hw). rewrite Hw. by eexists _, _.
    + destruct Hm as (-> & -> & ->). by eexists _, _.
  - destruct (queue s) as [|x q]; [|simpl in Hs; lia]. destruct (wakeups s); [|simpl in Hs; lia].
    by eexists _, _.
Qed.

Lemma poll_step size (r : Shared S) s :
  reliable → represents size r s →
  ∃ o r', channel_step size r RecvPoll = Done (o, r') ∧ (queue_step size s RecvPoll).1 = o ∧
    represents size r' (queue_step size s RecvPoll).2.
Proof.
  intros HR Hrep. pose proof Hrep as [(h & t & Hh) Hl Hs Hf]. simpl. unfold recv_poll.
  destruct (wait_cases (sem r) HR) as [(s' & -> & Hc & Hpos)|[-> Hz]].
  - destruct (token_step size r s s' Hrep Hc Hpos) as (m & r' & q' & w & E & Hrep' & Hm). rewrite E.
    cbn [mbind outcome_bind]. destruct (queue s) as [|x q]; simpl in *.
    + destruct Hm as (-> & -> & Hw). rewrite Hw. by eexists _, _.
    + destruct Hm as (-> & -> & ->). by eexists _, _.
  - destruct (queue s) as [|x q] eqn:Hq; [|simpl in Hs; lia]. destruct (wakeups s); [|simpl in Hs; lia].
    rewrite Hf. destruct (closes s); simpl; [by eexists _, _|].
    rewrite (read_one_empty _ _ _ _ Hh). by eexists _, _.
Qed.

Lemma step_refines size (r : Shared S) s o :
  reliable → represents size r s →
  ∃ out r', channel_step size r o = Done (out, r') ∧ (queue_step size s o).1 = out ∧
    represents size r' (queue_step size s o).2.
Proof.
  intros HR Hrep. destruct o as [x| | | |].
  - destruct (send_step size r s x HR Hrep) as (r' & E & Hr'). by eexists _, _.
  - eexists _, _. split; [done|]. split; [done|]. by apply close_step.
  - by apply try_step.
  - by apply sync_step.
  - by apply poll_step.
Qed.

(** A sequence of operations, with the outputs in order. *)
Fixpoint channel_run (size : Z) (ops : list (op T)) (r : Shared S) : outcome (list (output T) * Shared S) :=
  match ops with
  | [] => Done ([], r)
  | o :: ops =>
      '(out, r) ← channel_step size r o;
      '(outs, r) ← channel_run size ops r;
      Done (out :: outs, r)
  end.

Lemma run_refines size ops : ∀ (r : Shared S) s,
  reliable → represents size r s →
  ∃ outs r' s', channel_run size ops r = Done (outs, r') ∧
    queue_run size ops s = (outs, s') ∧ represents size r' s'.
Proof.
  induction ops as [|o ops IH]; intros r s HR Hrep; cbn [channel_run queue_run]; [by eexists _, _, _|].
  destruct (step_refines size r s o HR Hrep) as (out & r1 & -> & E & Hrep1).
  cbn [mbind outcome_bind]. destruct (queue_step size s o) as [out' s1]. simpl in *. subst out'.
  destruct (IH r1 s1 HR Hrep1) as (outs & r' & s' & -> & -> & Hrep'). by eexists _, _, _.
Qed.

(** A created channel is empty. *)
Lemma new_represents (mapped r : Shared S) size :
  inner_new mapped size true = Some r → length (data mapped) = Z.to_nat size → size ≤ u64_max →
  represents size r empty_queue.
Proof.
  unfold inner_new. change (2 * WORD) with 16. intros Hnew Hl Hs.
  destruct (is_power_of_two size) eqn:Hp; [|done]. cbn [negb orb] in Hnew.
  destruct (Z.ltb_spec size 16) as [|Hm]; [done|]. injection Hnew as <-.
  split; simpl; [|done|by rewrite counter_create..]. exists 0, 0. split; simpl; try done. lia.
Qed.

End implementation.
End queue.
End Queue.

Import Queue.

(** ** Properties *)

(** C2: the channel is a bounded first-in first-out queue of typed messages.  From a
    channel created on any mapping, every sequence of sends, closes and receives
    (blocking, polling and non-blocking) gives, output by output, what the abstract queue
    gives: messages arrive complete, once and in order; a message is lost exactly when
    its padded record does not fit, and is counted; a blocking receive waits exactly on
    an empty open queue and ends the stream only after a close.  No copy leaves the
    mapping, however often the 64-bit positions and the ring wrap around. *)
Theorem channel_refines_queue {T} `{SendableLaws T} {S} `{SemaphoreLaws S}
    (mapped r : Shared S) size (ops : list (op T)) :
  @reliable S _ → inner_new mapped size true = Some r → length (data mapped) = Z.to_nat size →
  size ≤ u64_max →
  ∃ outs r' s', channel_run size ops r = Done (outs, r') ∧
    queue_run size ops empty_queue = (outs, s') ∧
    dropped_count r' = lost s' ∧ empty r' = bool_decide (queue s' = []).
Proof.
  intros HR Hnew Hl Hs. pose proof (new_represents (T := T) mapped r size Hnew Hl Hs) as Hrep.
  destruct (run_refines size ops r empty_queue HR Hrep) as (outs & r' & s' & E1 & E2 & [(h & t & Hh) Hlost _ _]).
  exists outs, r', s'. split_and!; [done..|]. rewrite (holds_empty _ _ _ _ _ Hh).
  apply bool_decide_ext. unfold bytes_of. destruct (queue s'); naive_solver.
Qed.

(** Byte strings as messages. *)
#[export] Instance u8_list_sendable : Sendable (list Z) := {
  as_raw_bytes := λ bytes, bytes;
  from_raw_bytes := λ bytes, Done bytes
}.
#[export] Instance u8_list_sendable_laws : SendableLaws (list Z).
Proof. by split. Qed.

Lemma nat_reliable : @reliable nat _.
Proof. split_and!; [by eexists|by intros []|]. intros [|n]; [done|]. done. Qed.

Definition sample_ops : list (op (list Z)) :=
  [RecvSync; Send [1; 2; 3]; Send [4; 5; 6; 7; 8; 9; 10; 11; 12]; Send [13]; TryRecv; Send [14];
   RecvSync; Close; RecvPoll; RecvPoll; RecvPoll].

Lemma channel_refines_queue_witness :
  ∃ r outs r', inner_new (mkShared (replicate 48 0 ++ replicate 16 7) 9 9 9 0%nat 0%nat) 64 true = Some r ∧
    channel_run 64 sample_ops r = Done (outs, r') ∧ dropped_count r' = 0 ∧
    outs = [Waited Waiting; Quiet; Quiet; Quiet; Tried (Some [1; 2; 3]); Quiet;
            Waited (Returned (Some [4; 5; 6; 7; 8; 9; 10; 11; 12])); Quiet;
            Waited (Returned (Some [13])); Waited (Returned (Some [14])); Waited (Returned None)].
Proof.
  destruct (inner_new (mkShared (replicate 48 0 ++ replicate 16 7) 9 9 9 0%nat 0%nat) 64 true)
    as [r|] eqn:Hr; [|vm_compute in Hr; discriminate].
  destruct (channel_refines_queue (T := list Z) _ r 64 sample_ops nat_reliable Hr) as (outs & r' & s' & H1 & H2 & H3 & _);
    [reflexivity|vm_compute; congruence|].
  vm_compute in H2. injection H2 as H2 H4. exists r, outs, r'.
  split; [reflexivity|]. split; [exact H1|]. split; [by rewrite H3, <-H4|by symmetry].
Defined.
