(* ===== verification/Spsc.v ===== *)
(** * Sender and receiver running concurrently

    The operations of [Channel.v] as two processes that share the ring and interleave at
    every access to shared memory: the loads and stores of [head] and [tail], and each
    byte of the copies.  The sender decides with a head that may already be out of date,
    the receiver works from a tail that may already be out of date.  The release stores
    and acquire loads of [proc_channel.rs] order the byte copies before the positions that
    publish them; the interleaving below has those orders.

    The invariant of every reachable state: what was published is what was received
    followed by what lies in the ring, and neither process touches the bytes the other
    is using. *)

From S2P Require Import Prelude Words Sendable Channel ChannelSpec.
Open Scope Z_scope.
Import Channel Ring Fifo.

Module Spsc.

#[local] Arguments record_length : simpl never.
#[local] Arguments stream : simpl never.

(** ** The two processes *)

(** The sender is between messages, has stored [k] bytes of the record of [m] at the tail
    it loaded, or has published and still has to post the semaphore. *)
Inductive sender_pc : Type :=
| SIdle
| SWriting (m : list Z) (tail record_len : Z) (k : nat)
| SPosting.

(** The receiver is between messages, reads the size word of the record at the head it
    loaded, or reads the bytes of the message. *)
Inductive receiver_pc : Type :=
| RIdle
| RSize (head tail : Z) (acc : list Z)
| RData (head record_len len : Z) (acc : list Z).

(** [published] and [received] are the messages so far; [corrupt] records that a receive
    gave up on a record it had begun to read. *)
Record state (S : Type) : Type := mkState {
  shared : Shared S;
  sender : sender_pc;
  receiver : receiver_pc;
  published : list (list Z);
  received : list (list Z);
  corrupt : bool
}.
Arguments mkState {S}.
Arguments shared {S}.
Arguments sender {S}.
Arguments receiver {S}.
Arguments published {S}.
Arguments received {S}.
Arguments corrupt {S}.

(** Byte [i] of a wrapped copy at [position]. *)
Definition slot (size position i : Z) : nat :=
  Z.to_nat ((Z.land position (size - 1) + i) `mod` size).

(** Where byte [k] of a record at [tail] goes: the size word, then the message. *)
Definition record_slot (size tail k : Z) : nat :=
  if k <? WORD then slot size tail k else slot size (wrapping_add tail WORD) (k - WORD).

Section steps.
Context {S : Type} `{Semaphore S} (size : Z).

Definition fits (r : Shared S) (record_len : Z) : bool :=
  negb ((size <? record_len) || (size - record_len <? wrapping_sub (tail r) (head r))).

(** [send_sync], access by access. *)
Inductive sender_step : state S → state S → Prop :=
| send_drop (m : list Z) r rp p v c :
    match record_length (Z.of_nat (length m)) with Some l => fits r l = false | None => True end →
    sender_step (mkState r SIdle rp p v c) (mkState (drop_message r) SIdle rp p v c)
| send_start (m : list Z) l r rp p v c :
    record_length (Z.of_nat (length m)) = Some l → fits r l = true →
    sender_step (mkState r SIdle rp p v c) (mkState r (SWriting m (tail r) l 0) rp p v c)
| send_store m t l k b r rp p v c :
    stream m !! k = Some b → (record_slot size t (Z.of_nat k) < length (data r))%nat →
    sender_step (mkState r (SWriting m t l k) rp p v c)
      (mkState (with_data (<[record_slot size t (Z.of_nat k) := b]> (data r)) r)
         (SWriting m t l (Datatypes.S k)) rp p v c)
| send_publish m t l r rp p v c :
    sender_step (mkState r (SWriting m t l (length (stream m))) rp p v c)
      (mkState (with_tail (wrapping_add t l) r) SPosting rp (p ++ [m]) v c)
| send_post r rp p v c :
    sender_step (mkState r SPosting rp p v c) (mkState (post_sem r).2 SIdle rp p v c).

(** [read_one], access by access. *)
Inductive receiver_step : state S → state S → Prop :=
| recv_empty r sp p v c :
    head r = tail r → receiver_step (mkState r sp RIdle p v c) (mkState r sp RIdle p v c)
| recv_start r sp p v c :
    head r ≠ tail r →
    receiver_step (mkState r sp RIdle p v c) (mkState r sp (RSize (head r) (tail r) []) p v c)
| recv_load_size h t acc b r sp p v c :
    Z.of_nat (length acc) < WORD → data r !! slot size h (Z.of_nat (length acc)) = Some b →
    receiver_step (mkState r sp (RSize h t acc) p v c) (mkState r sp (RSize h t (acc ++ [b])) p v c)
| recv_bad h t acc r sp p v c :
    Z.of_nat (length acc) = WORD →
    match record_length (from_le_bytes acc) with
    | Some l => (wrapping_sub t h <? l) || (size <? l) = true
    | None => True
    end →
    receiver_step (mkState r sp (RSize h t acc) p v c) (mkState r sp RIdle p v true)
| recv_size h t acc l r sp p v c :
    Z.of_nat (length acc) = WORD → record_length (from_le_bytes acc) = Some l →
    (wrapping_sub t h <? l) || (size <? l) = false →
    receiver_step (mkState r sp (RSize h t acc) p v c)
      (mkState r sp (RData h l (from_le_bytes acc) []) p v c)
| recv_load_data h l len acc b r sp p v c :
    Z.of_nat (length acc) < len →
    data r !! slot size (wrapping_add h WORD) (Z.of_nat (length acc)) = Some b →
    receiver_step (mkState r sp (RData h l len acc) p v c) (mkState r sp (RData h l len (acc ++ [b])) p v c)
| recv_finish h l len acc r sp p v c :
    Z.of_nat (length acc) = len →
    receiver_step (mkState r sp (RData h l len acc) p v c)
      (mkState (with_head (wrapping_add h l) r) sp RIdle p (v ++ [acc]) c).

Definition step (s s' : state S) : Prop := sender_step s s' ∨ receiver_step s s'.

Inductive reachable (r : Shared S) : state S → Prop :=
| reach_init : reachable r (mkState r SIdle RIdle [] [] false)
| reach_step s s' : reachable r s → step s s' → reachable r s'.

(** ** The invariant *)

Definition sender_inv (r : Shared S) (h t : Z) (sp : sender_pc) : Prop :=
  match sp with
  | SIdle | SPosting => True
  | SWriting m tl l k =>
      tl = wrap64 t ∧ l = reclen m ∧ t + reclen m ≤ h + size ∧ (k ≤ length (stream m))%nat ∧
      bytes_at size (data r) t (take k (stream m))
  end.

Definition receiver_inv (h : Z) (q : list (list Z)) (rp : receiver_pc) : Prop :=
  match rp with
  | RIdle => True
  | RSize hd tl acc =>
      hd = wrap64 h ∧ ∃ m q1 q2, q = m :: q1 ++ q2 ∧ tl = wrap64 (h + used (m :: q1)) ∧
      acc = take (length acc) (to_le_bytes (Z.of_nat (length m)))
  | RData hd l len acc =>
      hd = wrap64 h ∧ ∃ m q', q = m :: q' ∧ l = reclen m ∧ len = Z.of_nat (length m) ∧
      acc = take (length acc) m
  end.

Record inv (s : state S) (h t : Z) (q : list (list Z)) : Prop := {
  inv_holds : holds size (shared s) h t q;
  inv_order : published s = received s ++ q;
  inv_clean : corrupt s = false;
  inv_sender : sender_inv (shared s) h t (sender s);
  inv_receiver : receiver_inv h q (receiver s)
}.

Lemma slot_at p i : size_ok size → slot size (wrap64 p) i = at_ size (p + i).
Proof.
  intros Hs. unfold slot, at_. rewrite offset_mod by done. f_equal. by rewrite Zplus_mod_idemp_l.
Qed.

Lemma record_slot_at p k : size_ok size → record_slot size (wrap64 p) k = at_ size (p + k).
Proof.
  intros Hs. unfold record_slot. case_match; [by apply slot_at|].
  rewrite wrapping_add_wrap, slot_at by done. f_equal. lia.
Qed.

(** ** The sender keeps the invariant *)

Lemma fits_room (r : Shared S) h t q l : holds size r h t q → fits r l = true → t - h + l ≤ size.
Proof.
  intros Hh Hf. unfold fits in Hf. rewrite (h_head _ _ _ _ _ Hh), (h_tail _ _ _ _ _ Hh) in Hf.
  rewrite (distance size) in Hf by apply Hh.
  destruct (Z.ltb_spec size l); [done|]. simpl in Hf.
  destruct (Z.ltb_spec (size - l) (t - h)); [done|]. lia.
Qed.

Lemma store_holds (r : Shared S) h t q m k b :
  holds size r h t q → stream m !! k = Some b → t + reclen m ≤ h + size →
  bytes_at size (data r) t (take k (stream m)) →
  let r' := with_data (<[at_ size (t + Z.of_nat k) := b]> (data r)) r in
  holds size r' h t q ∧ bytes_at size (data r') t (take (Datatypes.S k) (stream m)).
Proof.
  intros [Hs Hl Hh Ht Hr Hq] Hb Hroom Hat. pose proof (size_min _ Hs). cbv zeta. cbn [data with_data].
  pose proof (lookup_lt_Some _ _ _ Hb) as Hk. pose proof (reclen_bounds m).
  change (<[at_ size (t + Z.of_nat k) := b]> (data r)) with (write_bytes size (t + Z.of_nat k) [b] (data r)).
  split.
  - split; simpl; try done; [by rewrite length_write_bytes|].
    eapply (queue_at_write size _ h); [lia|done|lia|lia|simpl; lia].
  - rewrite (take_S_r _ _ _ Hb). apply bytes_at_app; cbn [data]. rewrite length_take_le by lia. split.
    + apply bytes_at_write; [lia|done|rewrite length_take; lia|simpl; lia].
    + apply write_bytes_at; [lia|done|simpl; lia].
Qed.

Lemma sender_step_inv s s' h t q :
  inv s h t q → sender_step s s' → ∃ t' q', inv s' h t' q'.
Proof.
  intros [Hh Ho Hc Hsi Hri] Hstep.
  destruct Hstep as [m r rp p v c _|m l r rp p v c Hl Hf|m tl l k b r rp p v c Hb _
    |m tl l r rp p v c|r rp p v c]; simpl in *.
  - exists t, q. split; simpl; try done. by destruct Hh.
  - exists t, q. pose proof (fits_room _ _ _ _ _ Hh Hf) as Hroom.
    apply record_length_inv in Hl; [|lia].
    change (8 + 8 * ((Z.of_nat (length m) + 7) / 8)) with (reclen m) in Hl. subst l.
    split; simpl; try done. split_and!; [apply Hh|done|lia|lia|]. intros i b Hi. by rewrite lookup_nil in Hi.
  - exists t, q. destruct Hsi as (-> & -> & Hroom & Hk & Hat).
    rewrite record_slot_at by apply Hh.
    destruct (store_holds r h t q m k b Hh Hb Hroom Hat) as [Hh' Hat'].
    split; try done. cbn [sender shared sender_inv]. split_and!; [done..| |done].
    by apply lookup_lt_Some in Hb.
  - destruct Hsi as (-> & -> & Hroom & _ & Hat). rewrite take_ge in Hat by lia.
    exists (t + reclen m), (q ++ [m]). destruct Hh as [Hs Hl Hhd Htl Hr Hq].
    pose proof (reclen_pos m). split; simpl; try done.
    + split; simpl; try done; [by rewrite wrapping_add_wrap|lia|].
      apply queue_at_app. rewrite <-(queue_at_used _ _ _ _ _ Hq). by split.
    + by rewrite app_assoc, Ho.
    + destruct rp as [|hd tl acc|hd l len acc]; simpl in *; [done| |].
      * destruct Hri as (Hhd' & m' & q1 & q2 & -> & Htl' & Hacc). split; [done|].
        exists m', q1, (q2 ++ [m]). split_and!; [|done|done]. by rewrite app_assoc.
      * destruct Hri as (Hhd' & m' & q' & -> & Hrest). split; [done|]. by exists m', (q' ++ [m]).
  - exists t, q. split; simpl; try done. by apply holds_post.
Qed.

(** ** The receiver keeps the invariant *)

Lemma lookup_take_next {A} (l : list A) acc b :
  acc = take (length acc) l → l !! length acc = Some b → acc ++ [b] = take (length (acc ++ [b])) l.
Proof.
  intros Hacc Hb. rewrite length_app, Nat.add_1_r. rewrite (take_S_r _ _ _ Hb). by rewrite <-Hacc.
Qed.

(** A receiver that saw the tail move sees at least one whole message. *)
Lemma receive_start_inv (r : Shared S) h t q :
  holds size r h t q → head r ≠ tail r → ∃ m q', q = m :: q' ∧ tail r = wrap64 (h + used (m :: q')).
Proof.
  intros Hh Hne. pose proof (queue_at_used _ _ _ _ _ (h_queue _ _ _ _ _ Hh)) as Ht.
  rewrite (h_head _ _ _ _ _ Hh), (h_tail _ _ _ _ _ Hh) in *. subst t.
  destruct q as [|m q]; [|by exists m, q]. destruct Hne. f_equal. simpl. lia.
Qed.

(** The size word of the oldest message passes every check, with the tail of any moment
    since the receive began. *)
Lemma size_word (r : Shared S) h t m q1 q2 :
  holds size r h t (m :: q1 ++ q2) →
  let acc := to_le_bytes (Z.of_nat (length m)) in
  from_le_bytes acc = Z.of_nat (length m) ∧ record_length (from_le_bytes acc) = Some (reclen m) ∧
  (wrapping_sub (wrap64 (h + used (m :: q1))) (wrap64 h) <? reclen m) || (size <? reclen m) = false.
Proof.
  intros [Hs Hl Hh Ht Hr Hq]. pose proof (queue_at_used _ _ _ _ _ Hq) as Hu.
  pose proof (size_half _ Hs). pose proof (reclen_bounds m) as Hb. rewrite length_stream in Hb.
  pose proof (used_nonneg q1). pose proof (used_nonneg q2). simpl in Hu. rewrite used_app in Hu.
  cbv zeta. rewrite from_to_le_bytes by word_lia. split; [done|]. split; [apply record_length_Some; word_lia|].
  rewrite (distance size) by (try done; simpl; lia). simpl.
  rewrite (proj2 (Z.ltb_ge _ _)), (proj2 (Z.ltb_ge _ _)) by lia. done.
Qed.

(** A full size word is the size of the oldest message. *)
Lemma full_size acc (m : list Z) :
  Z.of_nat (length acc) = WORD → acc = take (length acc) (to_le_bytes (Z.of_nat (length m))) →
  acc = to_le_bytes (Z.of_nat (length m)).
Proof.
  intros Hl Hacc. rewrite Hacc. apply take_ge. rewrite length_to_le_bytes. unfold WORD in Hl. lia.
Qed.

Lemma size_byte (r : Shared S) h t m q acc b :
  holds size r h t (m :: q) → acc = take (length acc) (to_le_bytes (Z.of_nat (length m))) →
  Z.of_nat (length acc) < WORD → data r !! slot size (wrap64 h) (Z.of_nat (length acc)) = Some b →
  acc ++ [b] = take (length (acc ++ [b])) (to_le_bytes (Z.of_nat (length m))).
Proof.
  intros Hh Hacc Ha Hb. apply lookup_take_next; [done|]. rewrite slot_at in Hb by apply Hh.
  destruct (h_queue _ _ _ _ _ Hh) as [Hm _]. apply bytes_at_app in Hm as [Hm _].
  destruct (lookup_lt_is_Some_2 (to_le_bytes (Z.of_nat (length m))) (length acc)) as [b' Hb'].
  { rewrite length_to_le_bytes. unfold WORD in Ha. lia. }
  pose proof (Hm _ _ Hb'). congruence.
Qed.

Lemma data_byte (r : Shared S) h t m q acc b :
  holds size r h t (m :: q) → acc = take (length acc) m → Z.of_nat (length acc) < Z.of_nat (length m) →
  data r !! slot size (wrapping_add (wrap64 h) WORD) (Z.of_nat (length acc)) = Some b →
  acc ++ [b] = take (length (acc ++ [b])) m.
Proof.
  intros Hh Hacc Ha Hb. apply lookup_take_next; [done|].
  rewrite wrapping_add_wrap, slot_at in Hb by apply Hh.
  destruct (h_queue _ _ _ _ _ Hh) as [Hm _]. apply bytes_at_app in Hm as [_ Hm].
  destruct (lookup_lt_is_Some_2 m (length acc)) as [b' Hb']; [lia|].
  pose proof (Hm _ _ Hb') as E. rewrite length_to_le_bytes in E.
  change (Z.of_nat 8) with WORD in E. congruence.
Qed.

Lemma finish_inv (r : Shared S) sp h t m q :
  holds size r h t (m :: q) → sender_inv r h t sp →
  holds size (with_head (wrapping_add (wrap64 h) (reclen m)) r) (h + reclen m) t q ∧
  sender_inv (with_head (wrapping_add (wrap64 h) (reclen m)) r) (h + reclen m) t sp.
Proof.
  intros [Hs Hl Hh Ht Hr [Hm Hq]] Hsi. pose proof (queue_at_used _ _ _ _ _ Hq).
  pose proof (used_nonneg q). pose proof (reclen_pos m). split.
  - split; simpl; try done; [by rewrite wrapping_add_wrap|lia].
  - destruct sp as [|m' tl l k|]; simpl in *; [done| |done].
    destruct Hsi as (? & ? & ? & ? & ?). split_and!; try done. lia.
Qed.

Lemma receiver_step_inv s s' h t q :
  inv s h t q → receiver_step s s' → ∃ h' q', inv s' h' t q'.
Proof.
  intros [Hh Ho Hc Hsi Hri] Hstep.
  destruct Hstep as [r sp p v c _|r sp p v c Hne|hd tl acc b r sp p v c Ha Hb|hd tl acc r sp p v c Ha Hbad
    |hd tl acc l r sp p v c Ha Hl Hok|hd l len acc b r sp p v c Ha Hb|hd l len acc r sp p v c Ha]; simpl in *.
  - by exists h, q.
  - destruct (receive_start_inv r h t q Hh Hne) as (m & q' & -> & Ht). exists h, (m :: q').
    split; simpl; try done. split; [apply Hh|]. exists m, q', []. by rewrite app_nil_r.
  - destruct Hri as (-> & m & q1 & q2 & -> & -> & Hacc). exists h, (m :: q1 ++ q2).
    split; simpl; try done. split; [done|]. exists m, q1, q2. split_and!; [done..|].
    by eapply size_byte.
  - destruct Hri as (-> & m & q1 & q2 & -> & -> & Hacc). apply full_size in Hacc; [|done]. subst acc.
    destruct (size_word r h t m q1 q2 Hh) as (_ & Hrl & Hg). rewrite Hrl in Hbad.
    cbn [used] in Hg, Hbad. congruence.
  - destruct Hri as (-> & m & q1 & q2 & -> & -> & Hacc). apply full_size in Hacc; [|done]. subst acc.
    destruct (size_word r h t m q1 q2 Hh) as (E & Hrl & _). exists h, (m :: q1 ++ q2).
    split; simpl; try done. split; [done|]. exists m, (q1 ++ q2). split_and!; [done|congruence|done|done].
  - destruct Hri as (-> & m & q' & -> & -> & -> & Hacc). exists h, (m :: q').
    split; simpl; try done. split; [done|]. exists m, q'. split_and!; [done..|]. by eapply data_byte.
  - destruct Hri as (-> & m & q' & -> & -> & -> & Hacc). exists (h + reclen m), q'.
    destruct (finish_inv r sp h t m q' Hh Hsi) as [Hh' Hsi']. split; simpl; try done.
    rewrite Ho, <-app_assoc. rewrite Hacc, take_ge by lia. done.
Qed.

Lemma reachable_inv r s :
  holds size r 0 0 [] → reachable r s → ∃ h t q, inv s h t q.
Proof.
  intros Hr. induction 1 as [|s s' _ (h & t & q & IH) [Hs|Hs]].
  - exists 0, 0, []. by split.
  - destruct (sender_step_inv _ _ _ _ _ IH Hs) as (t' & q' & ?). by eexists _, _, _.
  - destruct (receiver_step_inv _ _ _ _ _ IH Hs) as (h' & q' & ?). by eexists _, _, _.
Qed.

(** ** Progress: a process in the middle of an operation is never stuck *)

Lemma slot_lt p i : size_ok size → (slot size p i < Z.to_nat size)%nat.
Proof.
  intros Hs. pose proof (size_min _ Hs). unfold slot.
  pose proof (Z.mod_pos_bound (Z.land p (size - 1) + i) size ltac:(lia)). lia.
Qed.

Lemma sender_progress s h t q : inv s h t q → sender s ≠ SIdle → ∃ s', sender_step s s'.
Proof.
  intros [Hh _ _ Hsi _] Hne. destruct s as [r sp rp p v c]; simpl in *.
  destruct sp as [|m tl l k|]; [done| |by eexists; constructor].
  destruct Hsi as (-> & -> & _ & Hk & _).
  destruct (decide (k = length (stream m))) as [->|Hlt]; [by eexists; constructor|].
  destruct (lookup_lt_is_Some_2 (stream m) k) as [b Hb]; [lia|]. eexists. econstructor; [done|].
  rewrite (h_length _ _ _ _ _ Hh). unfold record_slot. case_match; by apply slot_lt, Hh.
Qed.

Lemma receiver_progress s h t q : inv s h t q → receiver s ≠ RIdle → ∃ s', receiver_step s s'.
Proof.
  intros [Hh _ _ _ Hri] Hne. destruct s as [r sp rp p v c]; simpl in *.
  assert (Hload : ∀ pos i, is_Some (data r !! slot size pos i)).
  { intros. apply lookup_lt_is_Some_2. rewrite (h_length _ _ _ _ _ Hh). by apply slot_lt, Hh. }
  destruct rp as [|hd tl acc|hd l len acc]; simpl in *; [done| |].
  - destruct Hri as (-> & m & q1 & q2 & -> & -> & Hacc).
    destruct (decide (Z.of_nat (length acc) < WORD)) as [Hlt|Hge].
    + destruct (Hload (wrap64 h) (Z.of_nat (length acc))) as [b Hb]. eexists. by eapply recv_load_size.
    + assert (Hw : Z.of_nat (length acc) = WORD).
      { apply (f_equal length) in Hacc. rewrite length_take, length_to_le_bytes in Hacc.
        unfold WORD in *. lia. }
      apply full_size in Hacc; [|done]. subst acc.
      destruct (size_word r h t m q1 q2 Hh) as (_ & Hrl & Hg). eexists. by eapply recv_size.
  - destruct Hri as (-> & m & q' & -> & -> & -> & Hacc).
    destruct (decide (Z.of_nat (length acc) < Z.of_nat (length m))) as [Hlt|Hge].
    + destruct (Hload (wrapping_add (wrap64 h) WORD) (Z.of_nat (length acc))) as [b Hb].
      eexists. by eapply recv_load_data.
    + eexists. eapply recv_finish. apply (f_equal length) in Hacc. rewrite length_take in Hacc. lia.
Qed.

End steps.
End Spsc.

Import Spsc.

(** A created channel holds nothing. *)
Lemma new_holds {S} `{Semaphore S} (mapped r : Shared S) size :
  inner_new mapped size true = Some r → length (data mapped) = Z.to_nat size → size ≤ u64_max →
  holds size r 0 0 [].
Proof.
  unfold inner_new. change (2 * WORD) with 16. intros Hnew Hl Hs.
  destruct (is_power_of_two size) eqn:Hp; [|done]. cbn [negb orb] in Hnew.
  destruct (Z.ltb_spec size 16) as [|Hm]; [done|]. injection Hnew as <-. split; simpl; try done. lia.
Qed.

(** ** Properties *)

(** C12: one sender and one receiver need no lock.  In every state that any interleaving of
    their accesses to the shared memory can reach, the messages received are a prefix of
    the messages published (complete, in order, none twice), what is missing lies in the
    ring and takes at most [size] bytes, no receive ever meets a half-written or damaged
    record, and when the ring is empty between two receives everything published has
    been received. *)
Theorem spsc_in_order {S} `{Semaphore S} (mapped r : Shared S) size (s : state S) :
  inner_new mapped size true = Some r → length (data mapped) = Z.to_nat size → size ≤ u64_max →
  reachable size r s →
  ∃ q, published s = received s ++ q ∧ used q ≤ size ∧ corrupt s = false ∧
    (empty (shared s) = true → received s = published s).
Proof.
  intros Hnew Hl Hs Hr. pose proof (new_holds mapped r size Hnew Hl Hs) as Hh.
  destruct (reachable_inv size r s Hh Hr) as (h & t & q & [Hhold Ho Hc _ _]).
  exists q. pose proof (queue_at_used _ _ _ _ _ (h_queue _ _ _ _ _ Hhold)).
  pose proof (h_room _ _ _ _ _ Hhold). split_and!; [done|lia|done|].
  rewrite (holds_empty _ _ _ _ _ Hhold). intros ->%bool_decide_eq_true. by rewrite Ho, app_nil_r.
Qed.

(** Neither side waits for the other inside an operation.  In every reachable state a
    sender in the middle of a send, and a receiver in the middle of a receive, can take
    their next step whatever the other does; in particular every byte access stays inside
    the mapped ring. *)
Theorem spsc_progress {S} `{Semaphore S} (mapped r : Shared S) size (s : state S) :
  inner_new mapped size true = Some r → length (data mapped) = Z.to_nat size → size ≤ u64_max →
  reachable size r s →
  (sender s ≠ SIdle → ∃ s', sender_step size s s') ∧
  (receiver s ≠ RIdle → ∃ s', receiver_step size s s').
Proof.
  intros Hnew Hl Hs Hr. pose proof (new_holds mapped r size Hnew Hl Hs) as Hh.
  destruct (reachable_inv size r s Hh Hr) as (h & t & q & Hinv).
  split; intros Hne; [by eapply sender_progress|by eapply receiver_progress].
Qed.

(** A ring of 16 bytes after the first byte of a message's record. *)
Definition sample_mapped : Shared nat := mkShared (replicate 16 0) 0 0 0 0%nat 0%nat.
Definition sample_state : state nat :=
  mkState (with_data (2 :: replicate 15 0) sample_mapped) (SWriting [5; 6] 0 16 1) RIdle [] [] false.

Lemma sample_reachable : reachable 16 sample_mapped sample_state.
Proof.
  eapply reach_step; [eapply reach_step; [apply reach_init|]|].
  - left. by apply (send_start _ [5; 6] 16).
  - left. apply (send_store 16 [5; 6] 0 16 0 2 sample_mapped); [reflexivity|vm_compute; lia].
Qed.

Lemma spsc_in_order_witness :
  ∃ q, published sample_state = received sample_state ++ q ∧ used q ≤ 16 ∧
    corrupt sample_state = false.
Proof.
  destruct (spsc_in_order sample_mapped sample_mapped 16 sample_state) as (q & H1 & H2 & H3 & _);
    [reflexivity|reflexivity|vm_compute; congruence|apply sample_reachable|].
  exists q. split; [exact H1|]. split; [exact H2|exact H3].
Defined.

Lemma spsc_progress_witness : ∃ s', sender_step 16 sample_state s'.
Proof.
  destruct (spsc_progress sample_mapped sample_mapped 16 sample_state) as [H _];
    [reflexivity|reflexivity|vm_compute; congruence|apply sample_reachable|].
  apply H. discriminate.
Defined.
