(* ===== verification/Branch.v ===== *)
(** * Call stacks from branch records

    Models [libprof/src/driver/perf/branch.rs]: the call stack of a sample rebuilt from
    the branch records the hardware kept, in the three modes.  The branch-type codes are
    the kernel's and stand behind the class [BranchAbi]. *)

From S2P Require Import Prelude Words.
Open Scope Z_scope.

(** The branch types of the kernel interface the code tells apart. *)
Class BranchAbi : Type := {
  PERF_BR_CALL : Z;
  PERF_BR_IND_CALL : Z;
  PERF_BR_COND_CALL : Z;
  PERF_BR_RET : Z;
  PERF_BR_COND_RET : Z;
  branch_codes_distinct :
    NoDup [PERF_BR_CALL; PERF_BR_IND_CALL; PERF_BR_COND_CALL; PERF_BR_RET; PERF_BR_COND_RET];
  branch_codes_small :
    Forall (λ c, 0 ≤ c < 16) [PERF_BR_CALL; PERF_BR_IND_CALL; PERF_BR_COND_CALL; PERF_BR_RET; PERF_BR_COND_RET]
}.

(** The values of the Linux user interface. *)
#[export, refine] Instance linux_branch_abi : BranchAbi := {
  PERF_BR_CALL := 4;
  PERF_BR_IND_CALL := 5;
  PERF_BR_COND_CALL := 9;
  PERF_BR_RET := 6;
  PERF_BR_COND_RET := 10
}.
Proof.
  - apply (bool_decide_unpack _). vm_compute. exact I.
  - apply (bool_decide_unpack _). vm_compute. exact I.
Defined.

Module Branch.

Inductive BranchMode : Type := CallStack | Calls | All.

Record BranchRecord : Type := mkBranch { from : Z; flags : Z }.

Inductive BranchKind : Type := Call | Return | Other.
#[export] Instance BranchKind_eq_dec : EqDecision BranchKind.
Proof. solve_decision. Defined.

Section frames.
Context `{BranchAbi}.

Definition kind (r : BranchRecord) : BranchKind :=
  let code := Z.land (Z.shiftr (flags r) 20) 15 in
  if (code =? PERF_BR_CALL) || (code =? PERF_BR_IND_CALL) || (code =? PERF_BR_COND_CALL) then Call
  else if (code =? PERF_BR_RET) || (code =? PERF_BR_COND_RET) then Return
  else Other.

(** The call-stack and calls modes: every new call site. *)
Definition push_frame (frames : list Z) (entry : BranchRecord) : list Z :=
  if negb (from entry =? 0) && negb (bool_decide (last frames = Some (from entry)))
  then vec_push frames (from entry) else frames.

(** The replay of a branch history. *)
Definition replay_entry (stack : list Z) (entry : BranchRecord) : list Z :=
  match kind entry with
  | Call => if negb (from entry =? 0) then vec_push stack (from entry) else stack
  | Return => (vec_pop stack).2
  | Other => stack
  end.

Definition frames (mode : BranchMode) (ip : Z) (entries : list BranchRecord) : list Z :=
  match mode with
  | CallStack | Calls => fold_left push_frame entries [ip]
  | All => [ip] ++ reverse (fold_left replay_entry (reverse entries) [])
  end.

(** ** What a history means *)

(** Branches that leave the call depth where it was: other branches, and calls with
    everything up to their return. *)
Inductive balanced : list BranchRecord → Prop :=
| balanced_nil : balanced []
| balanced_other e es : kind e = Other → balanced es → balanced (e :: es)
| balanced_call c es r es' :
    kind c = Call → from c ≠ 0 → kind r = Return → balanced es → balanced es' →
    balanced (c :: es ++ r :: es').

(** A recorded history, oldest branch first, whose open calls were made from [sites]: it
    may begin inside a function whose call was not recorded. *)
Inductive history : list BranchRecord → list Z → Prop :=
| history_start es : balanced es → history es []
| history_return es r bs :
    history es [] → kind r = Return → balanced bs → history (es ++ r :: bs) []
| history_call es sites c bs :
    history es sites → kind c = Call → from c ≠ 0 → balanced bs →
    history (es ++ c :: bs) (sites ++ [from c]).

Lemma balanced_replay es : balanced es → ∀ stack, fold_left replay_entry es stack = stack.
Proof.
  induction 1 as [|e es He _ IH|c es r es' Hc Hf Hr _ IH1 _ IH2]; intros stack; [done| |].
  - simpl. unfold replay_entry at 2. rewrite He. apply IH.
  - simpl. rewrite fold_left_app. simpl. rewrite IH1, IH2.
    unfold replay_entry. rewrite Hr, Hc. rewrite (proj2 (Z.eqb_neq _ _)) by done. simpl.
    by rewrite vec_pop_push.
Qed.

Lemma history_replay es sites : history es sites → fold_left replay_entry es [] = sites.
Proof.
  induction 1 as [es Hes|es r bs _ IH Hr Hbs|es sites c bs _ IH Hc Hf Hbs].
  - by apply balanced_replay.
  - rewrite fold_left_app. simpl. rewrite IH, balanced_replay by done.
    unfold replay_entry. by rewrite Hr.
  - rewrite fold_left_app. simpl. rewrite IH, balanced_replay by done.
    unfold replay_entry. rewrite Hc, (proj2 (Z.eqb_neq _ _)) by done. done.
Qed.

(** Adjacent repetitions and zeros removed. *)
Fixpoint destutter (previous : Z) (l : list Z) : list Z :=
  match l with
  | [] => []
  | x :: l => if (x =? 0) || (x =? previous) then destutter previous l else x :: destutter x l
  end.

Lemma push_frames_destutter entries : ∀ frames previous,
  last frames = Some previous →
  fold_left push_frame entries frames = frames ++ destutter previous (from <$> entries).
Proof.
  induction entries as [|e es IH]; intros frames previous Hl; simpl; [by rewrite app_nil_r|].
  unfold push_frame at 2. rewrite Hl. destruct (Z.eqb_spec (from e) 0); simpl; [by apply IH|].
  destruct (Z.eqb_spec (from e) previous) as [->|Hne].
  - rewrite bool_decide_true by done. simpl. by apply IH.
  - rewrite bool_decide_false by congruence. simpl. rewrite (IH _ (from e)) by apply last_snoc.
    unfold vec_push. by rewrite <-app_assoc.
Qed.

End frames.
End Branch.

Import Branch.

(** ** Properties *)

(** Replaying a full branch history rebuilds the call stack.  For a history, given most
    recent first as the hardware keeps it, in which every return belongs to the innermost
    open call (or to a call older than the history), [frames] in the all-branches mode is
    the sample address followed by the sites of the calls still open, innermost first. *)
Theorem replay_rebuilds_stack `{BranchAbi} ip hist sites :
  history hist sites → frames All ip (reverse hist) = ip :: reverse sites.
Proof.
  intros Hh. unfold frames. rewrite reverse_involutive. simpl. by rewrite (history_replay hist sites).
Qed.

(** A history that starts with a return, calls twice and returns once. *)
Definition sample_call (a : Z) : BranchRecord := mkBranch a (Z.shiftl 4 20 + 3).
Definition sample_return (a : Z) : BranchRecord := mkBranch a (Z.shiftl 6 20 + 1).

Lemma replay_rebuilds_stack_witness :
  frames All 5000 (reverse [sample_return 100; sample_call 200; sample_call 300; sample_return 310;
                            sample_call 220]) = [5000; 220; 200].
Proof.
  apply (replay_rebuilds_stack 5000 _ [200; 220]).
  apply (history_call [sample_return 100; sample_call 200; sample_call 300; sample_return 310] [200]
           (sample_call 220) []); [|reflexivity|discriminate|constructor].
  apply (history_call [sample_return 100] [] (sample_call 200) [sample_call 300; sample_return 310]);
    [|reflexivity|discriminate|].
  - apply (history_return [] (sample_return 100) []); [|reflexivity|constructor].
    apply history_start. constructor.
  - apply (balanced_call (sample_call 300) [] (sample_return 310) []);
      [reflexivity|discriminate|reflexivity|constructor|constructor].
Defined.

(** In the call-stack and calls modes the stack is the sample address followed by the
    recorded call sites with zero entries and adjacent repetitions removed, in the order
    of the records. *)
Theorem call_frames_destutter `{BranchAbi} mode ip entries :
  mode ≠ All → frames mode ip entries = ip :: destutter ip (from <$> entries).
Proof.
  intros Hm. destruct mode; [| |done]; unfold frames; by rewrite (push_frames_destutter _ _ ip).
Qed.

Lemma call_frames_destutter_witness :
  frames Calls 70 (mkBranch 70 0 :: mkBranch 0 0 :: mkBranch 80 0 :: mkBranch 80 0 :: [mkBranch 70 0]) =
  [70; 80; 70].
Proof.
  rewrite (call_frames_destutter Calls 70); [reflexivity|discriminate].
Defined.
