(* ===== verification/PerfRecords.v ===== *)
(** * Records of the perf ring buffer

    Models [libprof/src/driver/perf/mmap.rs]: the iterator over the ring the kernel
    fills, and the parsers of sample, precise-memory sample, mapping and lost records.
    Arithmetic on [usize] wraps as in release builds; a slice outside the record or a raw
    read past its end is [Panicked].  The record types are the kernel's and stand behind
    the class [RecordAbi]; the lossy decoding of a file name is a parameter. *)

From S2P Require Import Prelude Words Sendable Branch.
Open Scope Z_scope.
Import Branch.

(** The record types of the kernel interface. *)
Class RecordAbi : Type := {
  PERF_RECORD_SAMPLE : Z;
  PERF_RECORD_MMAP : Z;
  PERF_RECORD_LOST : Z;
  record_types_distinct : NoDup [PERF_RECORD_SAMPLE; PERF_RECORD_MMAP; PERF_RECORD_LOST];
  record_types_words : Forall in_u32 [PERF_RECORD_SAMPLE; PERF_RECORD_MMAP; PERF_RECORD_LOST]
}.

#[export, refine] Instance linux_record_abi : RecordAbi := {
  PERF_RECORD_SAMPLE := 9;
  PERF_RECORD_MMAP := 1;
  PERF_RECORD_LOST := 2
}.
Proof.
  - apply (bool_decide_unpack _). vm_compute. exact I.
  - repeat constructor; vm_compute; congruence.
Defined.

Module PerfRecords.

(** ** Data *)

Record UserRegs : Type := mkRegs { abi : Z; mask : Z; reg_values : list Z }.

(** A counter value and the identifier of its event. *)
Record EventValue : Type := mkValue { value : Z; ev_id : Z }.

Inductive MmapRecord : Type :=
| Sample (ip pid tid cpu time time_enabled time_running : Z) (values : list EventValue)
    (callstack lbr_callstack : list Z) (user_regs : option UserRegs) (user_stack : list Z)
| MemSample (ip pid tid cpu time data_addr latency data_src : Z)
    (callstack lbr_callstack : list Z) (user_regs : option UserRegs) (user_stack : list Z)
| Address (pid start len offset : Z) (filename : string)
| Lost (count : Z)
| Unknown.

(** The fixed part of a sample record. *)
Record SampleFormat : Type := mkFormat {
  f_ip : Z;
  f_pid : Z;
  f_tid : Z;
  f_time : Z;
  f_id : Z;
  f_cpu : Z;
  f_nr : Z;
  f_time_enabled : Z;
  f_time_running : Z
}.

(** [size_of] of the [repr(C)] structs. *)
Definition HEADER_SIZE : Z := 8.
Definition SAMPLE_SIZE : Z := 72.
Definition VALUE_SIZE : Z := 16.
Definition BRANCH_SIZE : Z := 24.
Definition MMAP_SIZE : Z := 40.
Definition LOST_SIZE : Z := 24.

(** ** Reading *)

Definition len (bytes : list Z) : Z := Z.of_nat (length bytes).

(** [bytes[start..end]]. *)
Definition range (bytes : list Z) (start end_ : Z) : outcome (list Z) :=
  if (start <=? end_) && (end_ <=? len bytes)
  then Done (take (Z.to_nat (end_ - start)) (drop (Z.to_nat start) bytes)) else Panicked.

Definition read_u64 (bytes : list Z) (offset : Z) : option Z :=
  end_ ← checked_add offset 8;
  if end_ <=? len bytes then Some (from_le_bytes (take 8 (drop (Z.to_nat offset) bytes))) else None.

(** A field of [n] bytes of a struct read in place. *)
Definition field (bytes : list Z) (n offset : nat) : Z := le_value (take n (drop offset bytes)).

(** [from_raw_parts(record + offset, count)] as elements of [size] bytes. *)
Definition raw_parts (record : list Z) (offset count size : Z) : outcome (list (list Z)) :=
  if offset + count * size <=? len record
  then Done ((λ i, take (Z.to_nat size) (drop (Z.to_nat (offset + Z.of_nat i * size)) record))
               <$> seq 0 (Z.to_nat count))
  else Panicked.

Definition read_from_bytes (bytes : list Z) : option SampleFormat :=
  if len bytes <? SAMPLE_SIZE then None
  else Some {|
    f_ip := field bytes 8 8;
    f_pid := field bytes 4 16;
    f_tid := field bytes 4 20;
    f_time := field bytes 8 24;
    f_id := field bytes 8 32;
    f_cpu := field bytes 4 40;
    f_nr := field bytes 8 48;
    f_time_enabled := field bytes 8 56;
    f_time_running := field bytes 8 64
  |}.

Definition event_value (bytes : list Z) : EventValue := mkValue (field bytes 8 0) (field bytes 8 8).

Definition read_values (fmt : SampleFormat) (record : list Z) : outcome (list EventValue) :=
  let values_offset := SAMPLE_SIZE in
  let count := f_nr fmt in
  let values_end := wrapping_add values_offset (saturating_mul count VALUE_SIZE) in
  if len record <? values_end then Done []
  else
    parts ← raw_parts record values_offset count VALUE_SIZE;
    Done (map event_value parts).

Definition read_callchain (fmt : SampleFormat) (record : list Z) : outcome (list Z) :=
  let values_size := wrapping_mul (f_nr fmt) VALUE_SIZE in
  let base_offset := wrapping_add SAMPLE_SIZE values_size in
  if len record <? wrapping_add base_offset 8 then Done []
  else
    len_bytes ← range record base_offset (wrapping_add base_offset 8);
    let nr_callchain := from_le_bytes len_bytes in
    let callchain_offset := wrapping_add base_offset 8 in
    let callchain_end := wrapping_add callchain_offset (saturating_mul nr_callchain 8) in
    if len record <? callchain_end then Done []
    else
      parts ← raw_parts record callchain_offset nr_callchain 8;
      let slice := map from_le_bytes parts in
      Done (if (1 <? length slice)%nat then drop 1 slice else slice).

Definition callchain_end (fmt : SampleFormat) (record : list Z) : option Z :=
  size ← checked_mul (f_nr fmt) VALUE_SIZE;
  base ← checked_add SAMPLE_SIZE size;
  nr ← read_u64 record base;
  start ← checked_add base 8;
  bytes ← checked_mul nr 8;
  end_ ← checked_add start bytes;
  if end_ <=? len record then Some end_ else None.

Definition branch_stack_end (fmt : SampleFormat) (record : list Z) : option Z :=
  base ← callchain_end fmt record;
  nr ← read_u64 record base;
  start ← checked_add base 8;
  bytes ← checked_mul nr BRANCH_SIZE;
  end_ ← checked_add start bytes;
  if end_ <=? len record then Some end_ else None.

(** [branch_records(record, start, end)]: one entry every 24 bytes. *)
Definition branch_records (record : list Z) (start end_ : Z) : list BranchRecord :=
  (λ i, let offset := start + Z.of_nat i * BRANCH_SIZE in
        mkBranch (default 0 (read_u64 record offset)) (default 0 (read_u64 record (offset + 16))))
    <$> seq 0 (Z.to_nat ((end_ - start + BRANCH_SIZE - 1) / BRANCH_SIZE)).

Section records.
Context `{BranchAbi} `{RecordAbi} (lossy : list Z → string).

Definition read_branch_callstack (fmt : SampleFormat) (record : list Z) (mode : BranchMode) : list Z :=
  match callchain_end fmt record, branch_stack_end fmt record with
  | Some base, Some end_ => frames mode (f_ip fmt) (branch_records record (base + 8) end_)
  | _, _ => []
  end.

(** The register values from [offset] on. *)
Definition register_values (record : list Z) (offset : Z) (count : nat) : list Z :=
  (λ i, default 0 (read_u64 record (offset + Z.of_nat i * 8))) <$> seq 0 count.

(** The stack bytes after the registers, cut to the size the kernel filled. *)
Definition read_user_stack (record : list Z) (offset : Z) : outcome (list Z) :=
  match read_u64 record offset with
  | None => Done []
  | Some stack_size =>
      let offset := offset + 8 in
      match checked_add offset stack_size with
      | None => Done []
      | Some stack_end =>
          if len record <? stack_end then Done []
          else
            stack ← range record offset stack_end;
            let dynamic_size := default stack_size (read_u64 record stack_end) in
            let dynamic_size := Z.min dynamic_size (len stack) in
            Done (take (Z.to_nat dynamic_size) stack)
      end
  end.

Definition read_user_state (fmt : SampleFormat) (record : list Z) (mask : Z)
    (sample_branch_stack : bool) : outcome (option UserRegs * list Z) :=
  if mask =? 0 then Done (None, [])
  else
    match (if sample_branch_stack then branch_stack_end fmt record else callchain_end fmt record) with
    | None => Done (None, [])
    | Some offset =>
        match read_u64 record offset with
        | None => Done (None, [])
        | Some abi =>
            let offset := offset + 8 in
            let value_count := if abi =? 0 then 0 else count_ones mask in
            match checked_add offset (saturating_mul value_count 8) with
            | None => Done (None, [])
            | Some values_end =>
                if len record <? values_end then Done (None, [])
                else
                  let values := register_values record offset (Z.to_nat value_count) in
                  let regs := if negb (abi =? 0) then Some (mkRegs abi mask values) else None in
                  stack ← read_user_stack record values_end;
                  Done (regs, stack)
            end
        end
    end.

(** ** Precise-memory samples *)

Record MemFields : Type := mkFields {
  m_ip : Z;
  m_pid : Z;
  m_tid : Z;
  m_cpu : Z;
  m_time : Z;
  m_data_addr : Z;
  m_callstack : list Z;
  m_lbr_callstack : list Z;
  m_user_regs : option UserRegs;
  m_user_stack : list Z
}.

Definition finish (fields : MemFields) (record : list Z) (offset : Z) : MmapRecord :=
  let latency := Z.land (default 0 (read_u64 record offset)) 4294967295 in
  let data_src := default 0 (read_u64 record (offset + 8)) in
  MemSample (m_ip fields) (m_pid fields) (m_tid fields) (m_cpu fields) (m_time fields)
    (m_data_addr fields) latency data_src (m_callstack fields) (m_lbr_callstack fields)
    (m_user_regs fields) (m_user_stack fields).

(** The call chain: its values without the context marker, and the offset after it. *)
Definition mem_callchain (record : list Z) (offset : Z) : option (list Z * Z) :=
  nr ← read_u64 record offset;
  let offset := offset + 8 in
  size ← checked_mul nr 8;
  end_ ← checked_add offset size;
  if len record <? end_ then None
  else
    callstack ← mapM (λ i, read_u64 record (offset + Z.of_nat i * 8)) (seq 0 (Z.to_nat nr));
    Some (if (1 <? length callstack)%nat then drop 1 callstack else callstack, end_).

(** The branch stack, when it is sampled. *)
Definition mem_branches (ip : Z) (mode : option BranchMode) (record : list Z) (offset : Z)
    : option (list Z * Z) :=
  match mode with
  | None => Some ([], offset)
  | Some mode =>
      entries ← read_u64 record offset;
      let entries_offset := offset + 8 in
      size ← checked_mul entries BRANCH_SIZE;
      entries_end ← checked_add entries_offset size;
      if len record <? entries_end then None
      else Some (frames mode ip (branch_records record entries_offset entries_end), entries_end)
  end.

(** The registers and the stack, when they are sampled. *)
Definition mem_user (mask : Z) (record : list Z) (offset : Z)
    : option (option UserRegs * list Z * Z) :=
  if mask =? 0 then Some (None, [], offset)
  else
    abi ← read_u64 record offset;
    let offset := offset + 8 in
    let count := if abi =? 0 then 0 else count_ones mask in
    size ← checked_mul count 8;
    values_end ← checked_add offset size;
    if len record <? values_end then None
    else
      let values := register_values record offset (Z.to_nat count) in
      let regs := if negb (abi =? 0) then Some (mkRegs abi mask values) else None in
      size ← read_u64 record values_end;
      let offset := values_end + 8 in
      if negb (size =? 0) then
        stack_end ← checked_add offset size;
        if len record <? stack_end then None
        else
          dyn ← read_u64 record stack_end;
          let dynamic_size := Z.min dyn size in
          let stack := take (Z.to_nat dynamic_size) (drop (Z.to_nat offset) record) in
          Some (regs, stack, stack_end + 8)
      else Some (regs, [], offset).

Definition parse_mem (record : list Z) (regs_mask : Z) (branch_mode : option BranchMode)
    : option MmapRecord :=
  ip ← read_u64 record 8;
  ids ← read_u64 record 16;
  time ← read_u64 record 24;
  data_addr ← read_u64 record 32;
  cpu ← read_u64 record 48;
  '(callstack, offset) ← mem_callchain record 64;
  '(lbr_callstack, offset) ← mem_branches ip branch_mode record offset;
  '(user_regs, user_stack, offset) ← mem_user regs_mask record offset;
  Some (finish (mkFields ip (as_u32 ids) (as_u32 (Z.shiftr ids 32)) (as_u32 cpu) time data_addr
          callstack lbr_callstack user_regs user_stack) record offset).

(** ** Mapping and lost records *)

(** [CStr::from_bytes_until_nul]. *)
Fixpoint until_nul (bytes : list Z) : option (list Z) :=
  match bytes with
  | [] => None
  | b :: bytes => if b =? 0 then Some [] else cons b <$> until_nul bytes
  end.

Definition filename (bytes : list Z) : string :=
  if len bytes <=? MMAP_SIZE then ""
  else match until_nul (drop 40 bytes) with Some name => lossy name | None => "" end.

Definition parse_mmap (record : list Z) : MmapRecord :=
  if len record <? MMAP_SIZE then Unknown
  else Address (field record 4 8) (field record 8 16) (field record 8 24) (field record 8 32)
         (filename record).

Definition parse_lost (record : list Z) : MmapRecord :=
  if len record <? LOST_SIZE then Unknown else Lost (field record 8 16).

(** ** Records *)

Definition parse_sample (record : list Z) (mask : Z) (branch_mode : option BranchMode)
    : outcome MmapRecord :=
  match read_from_bytes record with
  | None => Done Unknown
  | Some fmt =>
      values ← read_values fmt record;
      callstack ← read_callchain fmt record;
      let lbr_callstack :=
        match branch_mode with Some mode => read_branch_callstack fmt record mode | None => [] end in
      '(user_regs, user_stack) ← read_user_state fmt record mask (bool_decide (is_Some branch_mode));
      Done (Sample (f_ip fmt) (f_pid fmt) (f_tid fmt) (f_cpu fmt) (f_time fmt) (f_time_enabled fmt)
              (f_time_running fmt) values callstack lbr_callstack user_regs user_stack)
  end.

(** The memory mapping: the metadata page's positions and the data area, with the layout
    the events were opened with. *)
Record Records : Type := mkRecords {
  data : list Z;
  data_head : Z;
  data_tail : Z;
  sample_regs_user : Z;
  branch_mode : option BranchMode;
  memory_layout : bool
}.

Definition data_size (r : Records) : Z := len (data r).

(** [fetch_add] on the tail. *)
Definition update_tail (offset : Z) (r : Records) : Records :=
  mkRecords (data r) (data_head r) (wrapping_add (data_tail r) offset) (sample_regs_user r)
    (branch_mode r) (memory_layout r).

(** The copy loop, with the number of bytes still wanted as its measure. *)
Fixpoint copy_loop (fuel : nat) (d : list Z) (abs_offset remaining : Z) : outcome (list Z) :=
  if remaining <=? 0 then Done []
  else
    match fuel with
    | O => Panicked
    | S fuel =>
        let start := abs_offset `mod` len d in
        let chunk := Z.min remaining (len d - start) in
        part ← range d start (start + chunk);
        rest ← copy_loop fuel d (wrapping_add abs_offset chunk) (remaining - chunk);
        Done (part ++ rest)
    end.

Definition copy_from_ring (r : Records) (absolute_offset n : Z) : outcome (list Z) :=
  copy_loop (Z.to_nat n) (data r) absolute_offset n.

(** The dispatch on the record type. *)
Definition parse_record (r : Records) (type_ : Z) (record : list Z) : outcome MmapRecord :=
  if type_ =? PERF_RECORD_SAMPLE then
    if memory_layout r
    then Done (default Unknown (parse_mem record (sample_regs_user r) (branch_mode r)))
    else parse_sample record (sample_regs_user r) (branch_mode r)
  else if type_ =? PERF_RECORD_MMAP then Done (parse_mmap record)
  else if type_ =? PERF_RECORD_LOST then Done (parse_lost record)
  else Done Unknown.

(** [Iterator::next]. *)
Definition next (r : Records) : outcome (option MmapRecord * Records) :=
  if data_tail r =? data_head r then Done (None, r)
  else
    let available := saturating_sub (data_head r) (data_tail r) in
    if available <? HEADER_SIZE then Done (None, r)
    else
      header_buf ← copy_from_ring r (data_tail r) HEADER_SIZE;
      let type_ := field header_buf 4 0 in
      let size := field header_buf 2 6 in
      if (size =? 0) || (size <? HEADER_SIZE) || (data_size r <? size)
      then Done (Some Unknown, update_tail HEADER_SIZE r)
      else if available <? size then Done (None, r)
      else
        record_buf ← copy_from_ring r (data_tail r) size;
        let r := update_tail size r in
        record ← parse_record r type_ record_buf;
        Done (Some record, r).

End records.
End PerfRecords.
