(* ===== verification/PerfRecordsSpec.v ===== *)
(** * The perf ring is read record by record, and samples are read as written

    The theorems about [PerfRecords.v].

    - the ring: the copy loop, order and progress of the iterator;
    - [Module Layout]: the sample layouts of the kernel interface as encoders, and that the
      parsers invert them;
    - the bounds checks: where they hold, and the counts for which [read_values] leaves its
      record. *)

From S2P Require Import Prelude Words Sendable Branch Channel ChannelSpec PerfRecords.
Open Scope Z_scope.
Import Branch PerfRecords.
Import Ring.

(** ** Words and fields *)

Lemma le_bytes_split n m x :
  le_bytes (n + m) x = le_bytes n x ++ le_bytes m (x / 256 ^ Z.of_nat n).
Proof.
  revert x; induction n as [|n IH]; intros x.
  - change (256 ^ Z.of_nat 0) with 1. by rewrite Z.div_1_r.
  - change (le_bytes (S n + m) x) with (x `mod` 256 :: le_bytes (n + m) (x / 256)).
    change (le_bytes (S n) x) with (x `mod` 256 :: le_bytes n (x / 256)).
    rewrite IH. cbn [app]. do 3 f_equal. rewrite Z.div_div by lia. f_equal.
    rewrite Nat2Z.inj_succ, Z.pow_succ_r by lia. lia.
Qed.

(** Wrapped sums that do not wrap, innermost first. *)
Ltac unwrap64 := repeat match goal with
  | |- context [wrap64 ?x] =>
      lazymatch x with context [wrap64 _] => fail | _ => rewrite (wrap64_small x) by word_lia end
  end.

Module Layout.

Lemma len_app a b : len (a ++ b) = len a + len b.
Proof. unfold len. rewrite length_app. lia. Qed.

Lemma len_flatten ws : len (flatten ws) = 8 * Z.of_nat (length ws).
Proof. unfold len. rewrite length_flatten. lia. Qed.

(** [read_u64] at a word boundary of a record laid out in words. *)
Lemma read_word ws rest i x :
  Forall in_u64 ws → ws !! i = Some x → len (flatten ws ++ rest) ≤ u64_max →
  read_u64 (flatten ws ++ rest) (8 * Z.of_nat i) = Some x.
Proof.
  intros Hws Hi Hl. pose proof (lookup_lt_Some _ _ _ Hi). rewrite len_app, len_flatten in Hl.
  assert (0 ≤ len rest) by (unfold len; lia).
  unfold read_u64, checked_add. rewrite (proj2 (Z.leb_le _ _)) by lia. cbn [mbind option_bind].
  rewrite len_app, len_flatten, (proj2 (Z.leb_le _ _)) by lia. f_equal.
  rewrite <-(word_flatten ws rest i x Hws Hi). unfold word. do 3 f_equal. lia.
Qed.

Lemma read_at a x b :
  in_u64 x → len (a ++ to_le_bytes x ++ b) ≤ u64_max → read_u64 (a ++ to_le_bytes x ++ b) (len a) = Some x.
Proof.
  intros Hx Hl. rewrite !len_app in Hl. change (len (to_le_bytes x)) with 8 in Hl.
  assert (0 ≤ len b) by (unfold len; lia).
  unfold read_u64, checked_add. rewrite (proj2 (Z.leb_le _ _)) by lia. cbn [mbind option_bind].
  rewrite !len_app. change (len (to_le_bytes x)) with 8. rewrite (proj2 (Z.leb_le _ _)) by lia. f_equal.
  unfold len. rewrite Nat2Z.id, drop_app_length, take_app_length' by done. by apply from_to_le_bytes.
Qed.

(** The two halves of a word. *)
Lemma field_low lo hi : in_u32 lo → in_u32 hi →
  le_value (take 4 (to_le_bytes (lo + 2 ^ 32 * hi))) = lo.
Proof.
  intros Hlo Hhi. unfold to_le_bytes. change 8%nat with (4 + 4)%nat. rewrite le_bytes_split.
  rewrite take_app_length' by done. rewrite le_value_bytes.
  change (256 ^ Z.of_nat 4) with (2 ^ 32). rewrite (Z.mul_comm (2 ^ 32)), Z.mod_add by lia.
  apply Z.mod_small. word_lia.
Qed.

Lemma field_high lo hi : in_u32 lo → in_u32 hi →
  le_value (drop 4 (to_le_bytes (lo + 2 ^ 32 * hi))) = hi.
Proof.
  intros Hlo Hhi. unfold to_le_bytes. change 8%nat with (4 + 4)%nat. rewrite le_bytes_split.
  rewrite drop_app_length' by done. rewrite le_value_bytes.
  change (256 ^ Z.of_nat 4) with (2 ^ 32). rewrite (Z.mul_comm (2 ^ 32)), Z.div_add by lia.
  rewrite (Z.div_small lo) by word_lia. rewrite Z.add_0_l. apply Z.mod_small. word_lia.
Qed.

Lemma drop_flatten ws rest i x :
  ws !! i = Some x → take 8 (drop (i * 8) (flatten ws ++ rest)) = to_le_bytes x.
Proof.
  intros Hi. rewrite <-(take_drop_middle ws i x Hi). pose proof (lookup_lt_Some _ _ _ Hi).
  unfold flatten. rewrite fmap_app, concat_app. cbn [fmap list_fmap concat].
  fold (flatten (take i ws)). rewrite <-!app_assoc.
  rewrite drop_app_length' by (rewrite length_flatten, length_take; lia).
  by rewrite take_app_length' by done.
Qed.

(** A struct field that is a whole word, its low half or its high half. *)
Lemma field_word ws rest i x o :
  Forall in_u64 ws → ws !! i = Some x → o = (i * 8)%nat → field (flatten ws ++ rest) 8 o = x.
Proof.
  intros Hws Hi ->. unfold field. rewrite (drop_flatten _ _ _ _ Hi).
  apply (from_to_le_bytes x). by eapply (Forall_lookup_1 _ _ _ _ Hws).
Qed.

Lemma field_low_word ws rest i lo hi o :
  ws !! i = Some (lo + 2 ^ 32 * hi) → in_u32 lo → in_u32 hi → o = (i * 8)%nat →
  field (flatten ws ++ rest) 4 o = lo.
Proof.
  intros Hi Hlo Hhi ->. unfold field. etransitivity; [|exact (field_low lo hi Hlo Hhi)].
  rewrite <-(drop_flatten ws rest i _ Hi), take_take. done.
Qed.

Lemma field_high_word ws rest i lo hi o :
  ws !! i = Some (lo + 2 ^ 32 * hi) → in_u32 lo → in_u32 hi → o = (i * 8 + 4)%nat →
  field (flatten ws ++ rest) 4 o = hi.
Proof.
  intros Hi Hlo Hhi ->. unfold field. etransitivity; [|exact (field_high lo hi Hlo Hhi)].
  rewrite <-(drop_flatten ws rest i _ Hi), skipn_firstn_comm, drop_drop. do 2 f_equal.
Qed.

(** ** Arrays of words inside a record *)

Section arrays.
Context (ws rest : list Z) (Hws : Forall in_u64 ws) (Hlen : len (flatten ws ++ rest) ≤ u64_max).
Let record := flatten ws ++ rest.

Lemma array_lookup pre l post i x :
  ws = pre ++ l ++ post → l !! i = Some x → ws !! (length pre + i)%nat = Some x.
Proof.
  intros -> Hi. rewrite lookup_app_r by lia. replace (length pre + i - length pre)%nat with i by lia.
  by apply lookup_app_l_Some.
Qed.

Lemma array_read pre l post i x :
  ws = pre ++ l ++ post → l !! i = Some x →
  read_u64 record (8 * Z.of_nat (length pre) + Z.of_nat i * 8) = Some x.
Proof.
  intros E Hi. replace (8 * Z.of_nat (length pre) + Z.of_nat i * 8) with (8 * Z.of_nat (length pre + i)) by lia.
  apply read_word; [done| |done]. by eapply array_lookup.
Qed.

Lemma array_head pre x post :
  ws = pre ++ x :: post → read_u64 record (8 * Z.of_nat (length pre)) = Some x.
Proof.
  intros E. rewrite <-(Z.add_0_r (8 * _)). apply (array_read pre [x] post 0); [done|done].
Qed.

(** A loop over the indices of an array. *)
Lemma map_seq_lookup {A} (f : nat → A) (l : list A) :
  (∀ i x, l !! i = Some x → f i = x) → f <$> seq 0 (length l) = l.
Proof.
  intros Hf. apply list_eq. intros i. rewrite list_lookup_fmap.
  destruct (decide (i < length l)%nat) as [Hi|Hi].
  - rewrite lookup_seq_lt by done. simpl. destruct (lookup_lt_is_Some_2 l i Hi) as [x Hx].
    rewrite Hx. f_equal. by apply Hf.
  - rewrite lookup_seq_ge by lia. symmetry. apply lookup_ge_None. lia.
Qed.

Lemma array_values pre l post :
  ws = pre ++ l ++ post →
  register_values record (8 * Z.of_nat (length pre)) (length l) = l.
Proof.
  intros E. unfold register_values. apply map_seq_lookup. intros i x Hi.
  by rewrite (array_read pre l post i x).
Qed.

Lemma array_mapM pre l post :
  ws = pre ++ l ++ post →
  mapM (λ i, read_u64 record (8 * Z.of_nat (length pre) + Z.of_nat i * 8)) (seq 0 (length l)) = Some l.
Proof.
  intros E. apply mapM_Some. apply Forall2_same_length_lookup. split; [by rewrite length_seq|].
  intros i k x Hk Hx. apply lookup_seq in Hk as [-> _]. by eapply array_read.
Qed.

Lemma array_end pre l post : ws = pre ++ l ++ post →
  8 * Z.of_nat (length pre) + 8 * Z.of_nat (length l) ≤ len record.
Proof. intros E. unfold record. rewrite len_app, len_flatten, E, !length_app. unfold len. lia. Qed.

Lemma array_raw pre l post :
  ws = pre ++ l ++ post →
  ∃ parts, raw_parts record (8 * Z.of_nat (length pre)) (Z.of_nat (length l)) 8 = Done parts ∧
    map from_le_bytes parts = l.
Proof.
  intros E. pose proof (array_end _ _ _ E). unfold raw_parts.
  rewrite (proj2 (Z.leb_le _ _)) by lia. eexists; split; [done|].
  change (map from_le_bytes) with (fmap (M := list) from_le_bytes). rewrite <-list_fmap_compose, Nat2Z.id.
  apply map_seq_lookup. intros i x Hi. simpl.
  replace (Z.to_nat (8 * Z.of_nat (length pre) + Z.of_nat i * 8)) with ((length pre + i) * 8)%nat by lia.
  change (Z.to_nat 8) with 8%nat. unfold record.
  rewrite (drop_flatten ws rest _ x) by (by eapply array_lookup).
  apply from_to_le_bytes. eapply (Forall_lookup_1 _ _ _ _ Hws). by eapply array_lookup.
Qed.

(** Counter values: two words each. *)
Definition value_words (vs : list EventValue) : list Z := concat ((λ v, [value v; ev_id v]) <$> vs).

Lemma value_words_lookup vs i v :
  vs !! i = Some v → value_words vs !! (2 * i)%nat = Some (value v) ∧ value_words vs !! (2 * i + 1)%nat = Some (ev_id v).
Proof.
  revert i; induction vs as [|w vs IH]; intros [|i] Hi; try done.
  - by injection Hi as ->.
  - replace (2 * S i)%nat with (S (S (2 * i))) by lia. apply IH in Hi. exact Hi.
Qed.

Lemma length_value_words vs : length (value_words vs) = (2 * length vs)%nat.
Proof. induction vs as [|v vs IH]; [done|]. cbn [length]. change (value_words (v :: vs)) with
  ([value v; ev_id v] ++ value_words vs). rewrite length_app, IH. simpl. lia. Qed.

Lemma take_16 (l : list Z) (n : nat) :
  field (take 16 (drop (n * 8) l)) 8 0 = le_value (take 8 (drop (n * 8) l)) ∧
  field (take 16 (drop (n * 8) l)) 8 8 = le_value (take 8 (drop ((n + 1) * 8) l)).
Proof.
  unfold field. split.
  - by rewrite drop_0, take_take.
  - rewrite skipn_firstn_comm, take_take, drop_drop. do 3 f_equal. lia.
Qed.

Lemma array_raw_values pre vs post :
  ws = pre ++ value_words vs ++ post →
  ∃ parts, raw_parts record (8 * Z.of_nat (length pre)) (Z.of_nat (length vs)) VALUE_SIZE = Done parts ∧
    map event_value parts = vs.
Proof.
  intros E. pose proof (array_end _ _ _ E) as He. rewrite length_value_words in He.
  unfold raw_parts, VALUE_SIZE. rewrite (proj2 (Z.leb_le _ _)) by lia. eexists; split; [done|].
  change (map event_value) with (fmap (M := list) event_value). rewrite <-list_fmap_compose, Nat2Z.id.
  apply map_seq_lookup. intros i v Hi. simpl. destruct (value_words_lookup _ _ _ Hi) as [H1 H2].
  apply (array_lookup pre _ post) in H1; [|done]. apply (array_lookup pre _ post) in H2; [|done].
  replace (Z.to_nat (8 * Z.of_nat (length pre) + Z.of_nat i * 16)) with ((length pre + 2 * i) * 8)%nat by lia.
  change (Z.to_nat 16) with 16%nat. unfold event_value.
  destruct (take_16 record (length pre + 2 * i)) as [-> ->].
  replace (length pre + 2 * i + 1)%nat with (length pre + (2 * i + 1))%nat by lia. unfold record.
  rewrite (drop_flatten _ _ _ _ H1), (drop_flatten _ _ _ _ H2). destruct v as [a b]; simpl in *. f_equal.
  - apply from_to_le_bytes. by eapply (Forall_lookup_1 _ _ _ _ Hws).
  - apply from_to_le_bytes. by eapply (Forall_lookup_1 _ _ _ _ Hws).
Qed.

(** Branch entries: three words each. *)
Definition branch_words (bs : list (Z * Z * Z)) : list Z := concat ((λ '(f, t, fl), [f; t; fl]) <$> bs).
Definition branch_record (b : Z * Z * Z) : BranchRecord := let '(f, _, fl) := b in mkBranch f fl.

Lemma branch_words_lookup bs i f t fl :
  bs !! i = Some (f, t, fl) →
  branch_words bs !! (3 * i)%nat = Some f ∧ branch_words bs !! (3 * i + 2)%nat = Some fl.
Proof.
  revert i; induction bs as [|[[f' t'] fl'] bs IH]; intros [|i] Hi; try done.
  - by injection Hi as -> -> ->.
  - replace (3 * S i)%nat with (S (S (S (3 * i)))) by lia. apply IH in Hi. exact Hi.
Qed.

Lemma length_branch_words bs : length (branch_words bs) = (3 * length bs)%nat.
Proof.
  induction bs as [|[[f t] fl] bs IH]; [done|].
  change (branch_words ((f, t, fl) :: bs)) with ([f; t; fl] ++ branch_words bs).
  rewrite length_app, IH. simpl. lia.
Qed.

Lemma array_branches pre bs post :
  ws = pre ++ branch_words bs ++ post →
  branch_records record (8 * Z.of_nat (length pre))
    (8 * Z.of_nat (length pre) + Z.of_nat (length bs) * BRANCH_SIZE) = branch_record <$> bs.
Proof.
  intros E. unfold branch_records, BRANCH_SIZE.
  replace (Z.to_nat _) with (length (branch_record <$> bs)).
  - apply map_seq_lookup. intros i r Hr. rewrite list_lookup_fmap in Hr.
    apply fmap_Some in Hr as ([[f t] fl] & Hi & ->). destruct (branch_words_lookup _ _ _ _ _ Hi) as [H1 H2].
    replace (8 * Z.of_nat (length pre) + Z.of_nat i * 24)
      with (8 * Z.of_nat (length pre) + Z.of_nat (3 * i) * 8) by lia.
    rewrite (array_read _ _ _ _ _ E H1).
    replace (8 * Z.of_nat (length pre) + Z.of_nat (3 * i) * 8 + 16)
      with (8 * Z.of_nat (length pre) + Z.of_nat (3 * i + 2) * 8) by lia.
    by rewrite (array_read _ _ _ _ _ E H2).
  - rewrite length_fmap.
    replace (8 * Z.of_nat (length pre) + Z.of_nat (length bs) * 24 - 8 * Z.of_nat (length pre) + 24 - 1)
      with (23 + Z.of_nat (length bs) * 24) by lia.
    rewrite Z.div_add by lia. change (23 / 24) with 0. lia.
Qed.

End arrays.

(** ** The sample layout of the kernel interface

    [PERF_SAMPLE_IP | TID | TIME | ID | CPU | READ | CALLCHAIN] with grouped counter reads,
    then the branch stack, the user registers and the user stack where they are asked
    for. *)
Record user_part : Type := mkUser {
  u_abi : Z;
  u_regs : list Z;
  u_stack : list Z;
  u_dyn : Z
}.

Record sample : Type := mkSample {
  s_misc : Z;
  s_ip : Z;
  s_pid : Z;
  s_tid : Z;
  s_time : Z;
  s_id : Z;
  s_cpu : Z;
  s_res : Z;
  s_enabled : Z;
  s_running : Z;
  s_values : list EventValue;
  s_chain : list Z;
  s_branches : option (list (Z * Z * Z));
  s_user : option user_part
}.

Definition counted (l : list Z) : list Z := Z.of_nat (length l) :: l.

Definition opt_branches (o : option (list (Z * Z * Z))) : list Z :=
  match o with None => [] | Some bs => Z.of_nat (length bs) :: branch_words bs end.
Definition opt_user (o : option user_part) : list Z :=
  match o with None => [] | Some u => u_abi u :: u_regs u ++ [Z.of_nat (length (u_stack u))] end.
Definition opt_stack (o : option user_part) : list Z :=
  match o with
  | Some u => u_stack u ++ (if bool_decide (u_stack u = []) then [] else to_le_bytes (u_dyn u))
  | None => []
  end.

(** The header word is type, misc and size. *)
Definition fixed_words (type_ size : Z) (s : sample) : list Z :=
  [type_ + 2 ^ 32 * (s_misc s + 2 ^ 16 * size); s_ip s; s_pid s + 2 ^ 32 * s_tid s; s_time s; s_id s;
   s_cpu s + 2 ^ 32 * s_res s; Z.of_nat (length (s_values s)); s_enabled s; s_running s].

Definition sample_words (type_ size : Z) (s : sample) : list Z :=
  (((fixed_words type_ size s ++ value_words (s_values s)) ++ counted (s_chain s)) ++
   opt_branches (s_branches s)) ++ opt_user (s_user s).

Definition sample_bytes (type_ size : Z) (s : sample) : list Z :=
  flatten (sample_words type_ size s) ++ opt_stack (s_user s).

(** What a profile keeps of the sample. *)
Definition strip_marker (chain : list Z) : list Z :=
  if (1 <? length chain)%nat then drop 1 chain else chain.
Definition user_regs (mask : Z) (u : user_part) : option UserRegs :=
  if u_abi u =? 0 then None else Some (mkRegs (u_abi u) mask (u_regs u)).
Definition user_stack (u : user_part) : list Z := take (Z.to_nat (u_dyn u)) (u_stack u).

(** A sample as the kernel writes it for an event with the given mask. *)
Record sample_ok (type_ size mask : Z) (mode : option BranchMode) (s : sample) : Prop := {
  so_words : Forall in_u64 (sample_words type_ size s);
  so_halves : Forall in_u32 [s_pid s; s_tid s; s_cpu s; s_res s];
  so_small : len (sample_bytes type_ size s) ≤ 65535;
  so_branches : is_Some mode ↔ is_Some (s_branches s);
  so_user : mask = 0 ↔ s_user s = None;
  so_regs u : s_user s = Some u →
    Z.of_nat (length (u_regs u)) = if u_abi u =? 0 then 0 else count_ones mask;
  so_dyn u : s_user s = Some u → in_u64 (u_dyn u)
}.

Section parse.
Context `{BranchAbi} (type_ size mask : Z) (mode : option BranchMode) (s : sample).
Context (Hok : sample_ok type_ size mask mode s).

Let ws := sample_words type_ size s.
Let rest := opt_stack (s_user s).
Let record := sample_bytes type_ size s.
Let fmt := mkFormat (s_ip s) (s_pid s) (s_tid s) (s_time s) (s_id s) (s_cpu s)
  (Z.of_nat (length (s_values s))) (s_enabled s) (s_running s).

(** The words before the call chain, before the branches, before the user part. *)
Let w1 := fixed_words type_ size s ++ value_words (s_values s).
Let w2 := w1 ++ counted (s_chain s).
Let w3 := w2 ++ opt_branches (s_branches s).

Lemma words_ok : Forall in_u64 ws.
Proof. apply Hok. Qed.

Lemma record_len : len record ≤ u64_max ∧ len record ≤ 65535.
Proof. pose proof (so_small _ _ _ _ _ Hok). unfold record. word_lia. Qed.

Lemma record_words : Z.of_nat (length ws) * 8 ≤ len record.
Proof.
  unfold record, sample_bytes. rewrite len_app, len_flatten. fold ws. unfold len. lia.
Qed.

Lemma length_w1 : 8 * Z.of_nat (length w1) = 72 + 16 * Z.of_nat (length (s_values s)).
Proof. unfold w1. rewrite length_app, length_value_words. simpl. lia. Qed.

Lemma length_w2 : 8 * Z.of_nat (length w2) = 8 * Z.of_nat (length w1) + 8 + 8 * Z.of_nat (length (s_chain s)).
Proof. unfold w2, counted. rewrite length_app. simpl. lia. Qed.

Lemma w2_le : 8 * Z.of_nat (length w2) ≤ len record.
Proof.
  pose proof record_words as Hr. unfold ws, sample_words in Hr. fold w1 in Hr. fold w2 in Hr.
  rewrite !length_app in Hr. lia.
Qed.

Lemma parse_fixed : read_from_bytes record = Some fmt.
Proof.
  unfold read_from_bytes. pose proof w2_le. rewrite length_w2, length_w1 in *.
  unfold SAMPLE_SIZE. rewrite (proj2 (Z.ltb_ge _ _)) by lia. unfold fmt, record, sample_bytes. fold ws rest.
  pose proof (so_halves _ _ _ _ _ Hok) as Hh. rewrite !Forall_cons in Hh. destruct Hh as (? & ? & ? & ? & _).
  rewrite (field_word ws rest 1 (s_ip s)), (field_word ws rest 3 (s_time s)),
    (field_word ws rest 4 (s_id s)), (field_word ws rest 6 (Z.of_nat (length (s_values s)))),
    (field_word ws rest 7 (s_enabled s)), (field_word ws rest 8 (s_running s)) by (done || apply words_ok).
  rewrite (field_low_word ws rest 2 (s_pid s) (s_tid s)), (field_high_word ws rest 2 (s_pid s) (s_tid s)),
    (field_low_word ws rest 5 (s_cpu s) (s_res s)) by done. done.
Qed.

Lemma parse_values : read_values fmt record = Done (s_values s).
Proof.
  unfold read_values. pose proof w2_le. rewrite length_w2, length_w1 in *. pose proof record_len.
  unfold SAMPLE_SIZE, VALUE_SIZE. cbn [f_nr fmt].
  assert (saturating_mul (Z.of_nat (length (s_values s))) 16 = 16 * Z.of_nat (length (s_values s)))
    as -> by word_lia.
  unfold wrapping_add. rewrite wrap64_small by word_lia. rewrite (proj2 (Z.ltb_ge _ _)) by lia.
  destruct (array_raw_values ws rest words_ok (proj1 record_len) (fixed_words type_ size s) (s_values s)
    (counted (s_chain s) ++ opt_branches (s_branches s) ++ opt_user (s_user s))) as (parts & E & Hp).
  { unfold ws, sample_words. by rewrite <-!app_assoc. }
  change (8 * Z.of_nat (length (fixed_words type_ size s))) with 72 in E.
  unfold record, sample_bytes. fold ws rest. unfold VALUE_SIZE in E. rewrite E. cbn [mbind outcome_bind].
  by rewrite Hp.
Qed.

Lemma chain_split : ws = w1 ++ Z.of_nat (length (s_chain s)) :: s_chain s ++ opt_branches (s_branches s) ++ opt_user (s_user s).
Proof. unfold ws, sample_words. fold w1. unfold counted. by rewrite <-!app_assoc. Qed.

Lemma chain_split2 : ws = (w1 ++ [Z.of_nat (length (s_chain s))]) ++ s_chain s ++ opt_branches (s_branches s) ++ opt_user (s_user s).
Proof. rewrite chain_split. by rewrite <-!app_assoc. Qed.

Lemma parse_callchain : read_callchain fmt record = Done (strip_marker (s_chain s)).
Proof.
  unfold read_callchain. pose proof w2_le as Hw2. rewrite length_w2 in Hw2. pose proof record_len as Hl.
  unfold SAMPLE_SIZE, VALUE_SIZE, wrapping_mul, wrapping_add. cbn [f_nr fmt].
  pose proof length_w1 as Hw1.
  unwrap64.
  replace (72 + Z.of_nat (length (s_values s)) * 16) with (8 * Z.of_nat (length w1)) by lia.
  rewrite (proj2 (Z.ltb_ge _ _)) by lia. unfold range.
  rewrite (proj2 (Z.leb_le _ _)), (proj2 (Z.leb_le _ _)) by lia. cbn [andb mbind outcome_bind].
  replace (8 * Z.of_nat (length w1) + 8 - 8 * Z.of_nat (length w1)) with 8 by lia. change (Z.to_nat 8) with 8%nat.
  replace (Z.to_nat (8 * Z.of_nat (length w1))) with (length w1 * 8)%nat by lia.
  assert (Hn : take 8 (drop (length w1 * 8) record) = to_le_bytes (Z.of_nat (length (s_chain s)))).
  { unfold record, sample_bytes. fold ws. apply drop_flatten. rewrite chain_split. by apply list_lookup_middle. }
  rewrite Hn, from_to_le_bytes by word_lia.
  assert (saturating_mul (Z.of_nat (length (s_chain s))) 8 = 8 * Z.of_nat (length (s_chain s))) as -> by word_lia.
  unwrap64. rewrite (proj2 (Z.ltb_ge _ _)) by lia.
  destruct (array_raw ws rest words_ok (proj1 record_len) _ _ _ chain_split2) as (parts & E & Hp).
  rewrite length_app in E. cbn [length] in E.
  replace (8 * Z.of_nat (length w1 + 1)) with (8 * Z.of_nat (length w1) + 8) in E by lia.
  unfold record, sample_bytes. fold ws rest. rewrite E. cbn [mbind outcome_bind]. by rewrite Hp.
Qed.

Lemma checked_add_ok a b : a + b ≤ u64_max → checked_add a b = Some (a + b).
Proof. intros E. unfold checked_add. by rewrite (proj2 (Z.leb_le _ _)). Qed.
Lemma checked_mul_ok a b : a * b ≤ u64_max → checked_mul a b = Some (a * b).
Proof. intros E. unfold checked_mul. by rewrite (proj2 (Z.leb_le _ _)). Qed.

Lemma parse_callchain_end : callchain_end fmt record = Some (8 * Z.of_nat (length w2)).
Proof.
  pose proof w2_le as Hw2. pose proof record_len as Hl. pose proof length_w2 as H2. pose proof length_w1 as H1.
  unfold callchain_end, SAMPLE_SIZE, VALUE_SIZE. cbn [f_nr fmt].
  rewrite checked_mul_ok by word_lia. cbn [mbind option_bind].
  rewrite checked_add_ok by word_lia. cbn [mbind option_bind].
  replace (72 + Z.of_nat (length (s_values s)) * 16) with (8 * Z.of_nat (length w1)) by lia.
  unfold record, sample_bytes. fold ws rest.
  rewrite (array_head ws rest words_ok (proj1 record_len) _ _ _ chain_split). cbn [mbind option_bind].
  rewrite checked_add_ok by word_lia. cbn [mbind option_bind].
  rewrite checked_mul_ok by word_lia. cbn [mbind option_bind].
  rewrite checked_add_ok by word_lia. cbn [mbind option_bind].
  change (flatten ws ++ rest) with record. rewrite (proj2 (Z.leb_le _ _)) by lia. f_equal. lia.
Qed.

Lemma w3_le : 8 * Z.of_nat (length w3) ≤ len record.
Proof.
  pose proof record_words as Hr. unfold ws, sample_words in Hr. fold w1 in Hr. fold w2 in Hr.
  fold w3 in Hr. rewrite length_app in Hr. lia.
Qed.

Lemma branch_split bs :
  s_branches s = Some bs →
  ws = w2 ++ Z.of_nat (length bs) :: branch_words bs ++ opt_user (s_user s) ∧
  ws = (w2 ++ [Z.of_nat (length bs)]) ++ branch_words bs ++ opt_user (s_user s) ∧
  8 * Z.of_nat (length w3) = 8 * Z.of_nat (length w2) + 8 + Z.of_nat (length bs) * 24.
Proof.
  intros E. unfold ws, sample_words, w3. fold w1. fold w2. rewrite E. cbn [opt_branches].
  split_and!; [by rewrite <-!app_assoc..|]. rewrite length_app. cbn [length].
  rewrite length_branch_words. lia.
Qed.

Lemma parse_branch_end bs :
  s_branches s = Some bs → branch_stack_end fmt record = Some (8 * Z.of_nat (length w3)).
Proof.
  intros Hb. destruct (branch_split bs Hb) as (E1 & _ & E3). pose proof w3_le as Hw. pose proof record_len.
  unfold branch_stack_end. rewrite parse_callchain_end. cbn [mbind option_bind].
  unfold record, sample_bytes. fold ws rest.
  rewrite (array_head ws rest words_ok (proj1 record_len) _ _ _ E1). cbn [mbind option_bind].
  unfold BRANCH_SIZE. rewrite checked_add_ok by word_lia. cbn [mbind option_bind].
  rewrite checked_mul_ok by word_lia. cbn [mbind option_bind].
  rewrite checked_add_ok by word_lia. cbn [mbind option_bind].
  change (flatten ws ++ rest) with record. rewrite (proj2 (Z.leb_le _ _)) by lia. f_equal. lia.
Qed.

Lemma parse_branches bs m :
  s_branches s = Some bs →
  read_branch_callstack fmt record m = frames m (s_ip s) (branch_record <$> bs).
Proof.
  intros Hb. destruct (branch_split bs Hb) as (_ & E2 & E3). unfold read_branch_callstack.
  rewrite parse_callchain_end, (parse_branch_end bs Hb). cbn [f_ip fmt]. f_equal.
  pose proof (array_branches ws rest words_ok (proj1 record_len) _ _ _ E2) as E.
  rewrite length_app in E. cbn [length] in E. unfold BRANCH_SIZE in E.
  replace (8 * Z.of_nat (length w2 + 1)) with (8 * Z.of_nat (length w2) + 8) in E by lia.
  rewrite E3. exact E.
Qed.

Lemma user_split u :
  s_user s = Some u →
  ws = w3 ++ u_abi u :: u_regs u ++ [Z.of_nat (length (u_stack u))] ∧
  ws = (w3 ++ [u_abi u]) ++ u_regs u ++ [Z.of_nat (length (u_stack u))] ∧
  ws = (w3 ++ u_abi u :: u_regs u) ++ [Z.of_nat (length (u_stack u))] ∧
  8 * Z.of_nat (length ws) = 8 * Z.of_nat (length w3) + 16 + 8 * Z.of_nat (length (u_regs u)).
Proof.
  intros E. unfold ws, sample_words. fold w1. fold w2. fold w3. rewrite E. cbn [opt_user].
  split_and!; [done|by rewrite <-!app_assoc|by rewrite <-!app_assoc|].
  rewrite length_app. cbn [length]. rewrite length_app. simpl. lia.
Qed.

(** The stack follows the words, and its filled size follows the stack. *)
Lemma parse_stack u :
  s_user s = Some u →
  read_user_stack record (8 * Z.of_nat (length ws) - 8) = Done (user_stack u).
Proof.
  intros Hu. destruct (user_split u Hu) as (_ & _ & E3 & E4). pose proof record_len as Hl.
  assert (Hlen : len record = 8 * Z.of_nat (length ws) + len rest).
  { unfold record, sample_bytes. fold ws rest. by rewrite len_app, len_flatten. }
  assert (Hrest : rest = u_stack u ++ (if bool_decide (u_stack u = []) then [] else to_le_bytes (u_dyn u)))
    by (unfold rest; by rewrite Hu).
  assert (Hs : len (u_stack u) ≤ len rest) by (rewrite Hrest, len_app; unfold len; lia).
  unfold read_user_stack.
  assert (Hread : read_u64 record (8 * Z.of_nat (length ws) - 8) = Some (Z.of_nat (length (u_stack u)))).
  { pose proof (array_head ws rest words_ok (proj1 record_len) _ _ _ E3) as E.
    rewrite E3 at 1. rewrite length_app. cbn [length].
    replace (8 * Z.of_nat (length (w3 ++ u_abi u :: u_regs u) + 1) - 8)
      with (8 * Z.of_nat (length (w3 ++ u_abi u :: u_regs u))) by lia. exact E. }
  rewrite Hread. replace (8 * Z.of_nat (length ws) - 8 + 8) with (8 * Z.of_nat (length ws)) by lia.
  fold (len (u_stack u)). rewrite checked_add_ok by lia. rewrite (proj2 (Z.ltb_ge _ _)) by lia.
  unfold range. rewrite (proj2 (Z.leb_le _ _)), (proj2 (Z.leb_le _ _)) by (unfold len in *; lia).
  cbn [andb mbind outcome_bind].
  replace (8 * Z.of_nat (length ws) + len (u_stack u) - 8 * Z.of_nat (length ws)) with (len (u_stack u)) by lia.
  replace (Z.to_nat (8 * Z.of_nat (length ws))) with (length (flatten ws)) by (rewrite length_flatten; lia).
  assert (Hst : take (Z.to_nat (len (u_stack u))) (drop (length (flatten ws)) record) = u_stack u).
  { unfold record, sample_bytes. fold ws rest. rewrite drop_app_length, Hrest.
    apply take_app_length'. unfold len. lia. }
  rewrite Hst. f_equal. unfold user_stack. destruct (decide (u_stack u = [])) as [->|Hne]; [by rewrite !take_nil|].
  assert (Hdyn : read_u64 record (8 * Z.of_nat (length ws) + len (u_stack u)) = Some (u_dyn u)).
  { replace (8 * Z.of_nat (length ws) + len (u_stack u)) with (len (flatten ws ++ u_stack u))
      by (rewrite len_app, len_flatten; done).
    rewrite bool_decide_false in Hrest by done. unfold record, sample_bytes. fold ws rest.
    rewrite Hrest, app_assoc. rewrite <-(app_nil_r (to_le_bytes _)). apply read_at.
    - by apply (so_dyn _ _ _ _ _ Hok).
    - rewrite <-app_assoc, app_nil_r, <-Hrest. apply record_len. }
  rewrite Hdyn. change (default _ (Some ?x)) with x. apply list_eq. intros i.
  pose proof (so_dyn _ _ _ _ _ Hok u Hu) as Hd. unfold in_u64 in Hd. unfold len.
  destruct (decide (i < Z.to_nat (u_dyn u))%nat).
  - rewrite (lookup_take_lt _ (Z.to_nat (u_dyn u))) by done.
    destruct (decide (i < length (u_stack u))%nat).
    + by rewrite lookup_take_lt by lia.
    + rewrite lookup_take_ge by lia. symmetry. apply lookup_ge_None. lia.
  - by rewrite !lookup_take_ge by lia.
Qed.

(** The user state starts where the branch stack, or else the call chain, ends. *)
Lemma user_offset :
  (if bool_decide (is_Some mode) then branch_stack_end fmt record else callchain_end fmt record) =
  Some (8 * Z.of_nat (length w3)).
Proof.
  pose proof (so_branches _ _ _ _ _ Hok) as Hiff. case_bool_decide as Hmode.
  - destruct (proj1 Hiff Hmode) as [bs Hbs]. exact (parse_branch_end bs Hbs).
  - assert (s_branches s = None) as Hn by (apply eq_None_not_Some; by rewrite <-Hiff).
    rewrite parse_callchain_end. unfold w3. rewrite Hn. cbn [opt_branches]. by rewrite app_nil_r.
Qed.

Lemma parse_user_some u :
  s_user s = Some u →
  read_user_state fmt record mask (bool_decide (is_Some mode)) = Done (user_regs mask u, user_stack u).
Proof.
  intros Hu. unfold read_user_state.
  assert (Hm : mask ≠ 0) by (intros E; by rewrite (proj1 (so_user _ _ _ _ _ Hok) E) in Hu).
  rewrite (proj2 (Z.eqb_neq _ _)) by done. rewrite user_offset.
  destruct (user_split u Hu) as (E1 & E2 & _ & E4).
  pose proof record_len as Hl. pose proof record_words as Hw. pose proof (so_regs _ _ _ _ _ Hok u Hu) as Hregs.
  unfold record at 1, sample_bytes. fold ws rest.
  rewrite (array_head ws rest words_ok (proj1 record_len) _ _ _ E1).
  rewrite <-Hregs.
  assert (saturating_mul (Z.of_nat (length (u_regs u))) 8 = 8 * Z.of_nat (length (u_regs u))) as -> by word_lia.
  rewrite checked_add_ok by lia. rewrite (proj2 (Z.ltb_ge _ _)) by lia. rewrite Nat2Z.id.
  replace (8 * Z.of_nat (length w3) + 8) with (8 * Z.of_nat (length (w3 ++ [u_abi u])))
    by (rewrite length_app; simpl; lia).
  change record with (flatten ws ++ rest) at 1.
  rewrite (array_values ws rest words_ok (proj1 record_len) _ _ _ E2).
  replace (8 * Z.of_nat (length (w3 ++ [u_abi u])) + 8 * Z.of_nat (length (u_regs u)))
    with (8 * Z.of_nat (length ws) - 8) by (rewrite length_app; cbn [length]; lia).
  rewrite (parse_stack u Hu). cbn [mbind outcome_bind]. unfold user_regs.
  by destruct (u_abi u =? 0).
Qed.

Lemma parse_user_none :
  s_user s = None → read_user_state fmt record mask (bool_decide (is_Some mode)) = Done (None, []).
Proof.
  intros Hu. unfold read_user_state. by rewrite (proj2 (so_user _ _ _ _ _ Hok) Hu).
Qed.

End parse.

(** The fields a profile keeps of the sample. *)
Definition profile_sample (mask : Z) (mode : option BranchMode) `{BranchAbi} (s : sample) : MmapRecord :=
  Sample (s_ip s) (s_pid s) (s_tid s) (s_cpu s) (s_time s) (s_enabled s) (s_running s) (s_values s)
    (strip_marker (s_chain s))
    (match mode, s_branches s with
     | Some m, Some bs => frames m (s_ip s) (branch_record <$> bs)
     | _, _ => []
     end)
    (u ← s_user s; user_regs mask u) (match s_user s with Some u => user_stack u | None => [] end).

(** C27: Samples are read as the kernel lays them out.  For every sample in the layout of
    the kernel interface, with any number of counter values and call-chain entries, with
    or without a branch stack, user registers and a user stack, [parse_sample] returns
    exactly its fields: the counter values with their identifiers, the call chain without
    its context marker, the branch frames, the registers the mask selects and the part of
    the stack the kernel filled. *)
Theorem sample_roundtrip `{BranchAbi} (type_ size mask : Z) (mode : option BranchMode) (s : sample) :
  sample_ok type_ size mask mode s →
  parse_sample (sample_bytes type_ size s) mask mode = Done (profile_sample mask mode s).
Proof.
  intros Hok. unfold parse_sample. rewrite (parse_fixed type_ size mask mode s Hok).
  rewrite (parse_values type_ size mask mode s Hok). cbn [mbind outcome_bind].
  rewrite (parse_callchain type_ size mask mode s Hok). cbn [mbind outcome_bind].
  assert (Hl : (match mode with
    | Some m => read_branch_callstack (mkFormat (s_ip s) (s_pid s) (s_tid s) (s_time s) (s_id s) (s_cpu s)
        (Z.of_nat (length (s_values s))) (s_enabled s) (s_running s)) (sample_bytes type_ size s) m
    | None => [] end) = match mode, s_branches s with
     | Some m, Some bs => frames m (s_ip s) (branch_record <$> bs)
     | _, _ => [] end).
  { destruct mode as [m|] eqn:Em; [|done].
    destruct (proj1 (so_branches _ _ _ _ _ Hok) ltac:(done)) as [bs Hbs]. rewrite Hbs.
    exact (parse_branches type_ size mask (Some m) s Hok bs m Hbs). }
  rewrite Hl. unfold profile_sample. destruct (s_user s) as [u|] eqn:Hu.
  - by rewrite (parse_user_some type_ size mask mode s Hok u Hu).
  - by rewrite (parse_user_none type_ size mask mode s Hok Hu).
Qed.

(** A sample with two counters, a marked call chain, a branch and a partly filled stack. *)
Definition example_sample : sample :=
  mkSample 2 4198400 100 101 12345 7 3 0 900 450 [mkValue 11 1; mkValue 22 2] [18446744073709551104; 4198400; 4199000]
    (Some [(4198300, 4198390, 0)]) (Some (mkUser 2 [7; 8] [1; 2; 3; 4; 5; 6; 7; 8] 5)).

Lemma sample_roundtrip_witness :
  sample_ok 9 232 3 (Some CallStack) example_sample ∧
  parse_sample (sample_bytes 9 232 example_sample) 3 (Some CallStack) =
  Done (Sample 4198400 100 101 3 12345 900 450 [mkValue 11 1; mkValue 22 2] [4198400; 4199000]
    (frames CallStack 4198400 [mkBranch 4198300 0]) (Some (mkRegs 2 3 [7; 8])) [1; 2; 3; 4; 5]).
Proof.
  assert (Hok : sample_ok 9 232 3 (Some CallStack) example_sample).
  { split.
    - repeat constructor; vm_compute; congruence.
    - repeat constructor; vm_compute; congruence.
    - vm_compute. congruence.
    - split; intros _; eexists; reflexivity.
    - split; intros E; discriminate E.
    - intros u [= <-]. reflexivity.
    - intros u [= <-]. vm_compute. split; congruence. }
  split; [exact Hok|]. exact (sample_roundtrip 9 232 3 (Some CallStack) example_sample Hok).
Defined.

End Layout.

(** ** The ring *)

Module Ring_reader.

Lemma range_slice d start n part :
  slice start n d = Some part → range d (Z.of_nat start) (Z.of_nat start + Z.of_nat n) = Done part.
Proof.
  unfold slice, range, len. intros E. case_decide as Hd; [|done]. injection E as <-.
  rewrite (proj2 (Z.leb_le _ _)), (proj2 (Z.leb_le _ _)) by lia. cbn [andb]. do 2 f_equal; [lia|f_equal; lia].
Qed.

(** The copy loop returns the bytes at its position, in chunks that do not wrap. *)
Lemma copy_loop_bytes fuel d p bs :
  0 < len d → 0 ≤ p → p + len bs ≤ u64_max → len bs ≤ Z.of_nat fuel → bytes_at (len d) d p bs →
  copy_loop fuel d p (len bs) = Done bs.
Proof.
  revert p bs; induction fuel as [|fuel IH]; intros p bs Hd Hp Hw Hf Hat; cbn [copy_loop].
  { destruct bs; [done|]. unfold len in Hf. cbn [length] in Hf. lia. }
  destruct (Z.leb_spec (len bs) 0) as [H0|H0].
  { destruct bs; [done|]. unfold len in H0. cbn [length] in H0. lia. }
  pose proof (Z.mod_pos_bound p (len d) Hd) as Hm.
  set (chunk := Z.min _ _). assert (Hc : 0 < chunk ≤ len bs ∧ chunk ≤ len d - p `mod` len d) by lia.
  assert (Hlt : length (take (Z.to_nat chunk) bs) = Z.to_nat chunk) by (rewrite length_take; unfold len in *; lia).
  rewrite <-(take_drop (Z.to_nat chunk) bs) in Hat. apply bytes_at_app in Hat as [Hat1 Hat2].
  rewrite Hlt, Z2Nat.id in Hat2 by lia.
  apply bytes_at_slice in Hat1; [|done|unfold len; lia|lia].
  apply range_slice in Hat1. rewrite Hlt in Hat1. unfold at_ in Hat1. rewrite !Z2Nat.id in Hat1 by lia.
  rewrite Hat1. cbn [mbind outcome_bind].
  assert (Hdrop : len (drop (Z.to_nat chunk) bs) = len bs - chunk) by (unfold len in *; rewrite length_drop; lia).
  unfold wrapping_add. rewrite wrap64_small by word_lia. rewrite <-Hdrop, IH by (done || lia).
  cbn [mbind outcome_bind]. by rewrite take_drop.
Qed.

(** Whatever the ring holds, a copy of at most the whole ring stays inside it. *)
Definition window (d : list Z) (p n : Z) : list Z :=
  (λ i, d !!! at_ (len d) (p + Z.of_nat i)) <$> seq 0 (Z.to_nat n).

Lemma window_at d p n : 0 < len d → bytes_at (len d) d p (window d p n).
Proof.
  intros Hd i b Hi. unfold window in Hi. rewrite list_lookup_fmap in Hi.
  apply fmap_Some in Hi as (k & Hk & ->). apply lookup_seq in Hk as [-> _]. simpl.
  apply list_lookup_lookup_total_lt. pose proof (at_lt (len d) (p + Z.of_nat i) Hd). unfold len in *. lia.
Qed.

Lemma len_window d p n : 0 ≤ n → len (window d p n) = n.
Proof. intros Hn. unfold len, window. rewrite length_fmap, length_seq. lia. Qed.

Lemma copy_window r p n :
  0 < data_size r → 0 ≤ p → 0 ≤ n → p + n ≤ u64_max → copy_from_ring r p n = Done (window (data r) p n).
Proof.
  intros Hd Hp Hn Hw. unfold copy_from_ring. rewrite <-(len_window (data r) p n Hn) at 2.
  apply copy_loop_bytes; rewrite ?len_window by done; [exact Hd|done|done|lia|]. by apply window_at.
Qed.

(** ** The iterator *)

(** Positions run freely and the kernel's is ahead. *)
Record ring_ok (r : Records) : Prop := {
  ro_data : 0 < data_size r;
  ro_order : 0 ≤ data_tail r ≤ data_head r;
  ro_word : data_head r ≤ u64_max
}.

Section iterator.
Context `{BranchAbi} `{RecordAbi} (lossy : list Z → string).

Definition moved (r : Records) (tail : Z) : Records :=
  mkRecords (data r) (data_head r) tail (sample_regs_user r) (branch_mode r) (memory_layout r).

Lemma update_tail_moved r n :
  ring_ok r → 0 ≤ n → data_tail r + n ≤ data_head r → update_tail n r = moved r (data_tail r + n).
Proof.
  intros [_ Ho Hw] Hn Hle. unfold update_tail, moved, wrapping_add. rewrite wrap64_small by word_lia. done.
Qed.

Lemma moved_ok r tail : ring_ok r → 0 ≤ tail ≤ data_head r → ring_ok (moved r tail).
Proof. intros [Hd _ Hw] Ht. by split. Qed.

Lemma moved_same r : moved r (data_tail r) = r.
Proof. by destruct r. Qed.

Lemma saturating_sub_ge a b : b ≤ a → saturating_sub a b = a - b.
Proof. intros. unfold saturating_sub. lia. Qed.


Inductive next_result (r : Records) : option MmapRecord → Records → Prop :=
| next_empty : data_head r - data_tail r < HEADER_SIZE → next_result r None r
| next_partial size : data_head r - data_tail r < size → size = field (window (data r) (data_tail r) 8) 2 6 →
    next_result r None r
| next_skip size : size = field (window (data r) (data_tail r) 8) 2 6 →
    size < HEADER_SIZE ∨ data_size r < size → data_tail r + HEADER_SIZE ≤ data_head r →
    next_result r (Some Unknown) (moved r (data_tail r + HEADER_SIZE))
| next_record size m : size = field (window (data r) (data_tail r) 8) 2 6 →
    HEADER_SIZE ≤ size ≤ data_size r → data_tail r + size ≤ data_head r →
    parse_record lossy r (field (window (data r) (data_tail r) 8) 4 0) (window (data r) (data_tail r) size) = Done m →
    next_result r (Some m) (moved r (data_tail r + size)).

Lemma next_cases r :
  ring_ok r →
  (∃ o r', next lossy r = Done (o, r') ∧ next_result r o r') ∨
  (∃ size, size = field (window (data r) (data_tail r) 8) 2 6 ∧ HEADER_SIZE ≤ size ≤ data_size r ∧
     data_tail r + size ≤ data_head r ∧
     parse_record lossy r (field (window (data r) (data_tail r) 8) 4 0)
       (window (data r) (data_tail r) size) = Panicked ∧ next lossy r = Panicked).
Proof.
  intros Hr. pose proof Hr as [Hd Ho Hw]. unfold next. rewrite saturating_sub_ge by lia. unfold HEADER_SIZE in *.
  destruct (Z.eqb_spec (data_tail r) (data_head r)) as [E|Hne].
  { left. do 2 eexists; split; [done|]. apply next_empty. unfold HEADER_SIZE. lia. }
  destruct (Z.ltb_spec (data_head r - data_tail r) 8) as [Hlt|Hge].
  { left. do 2 eexists; split; [done|]. by apply next_empty. }
  rewrite copy_window by lia. cbn [mbind outcome_bind].
  set (hdr := window (data r) (data_tail r) 8).
  destruct ((field hdr 2 6 =? 0) || (field hdr 2 6 <? 8) || (data_size r <? field hdr 2 6)) eqn:Eskip.
  { left. rewrite update_tail_moved by (done || lia). do 2 eexists; split; [done|].
    apply (next_skip r (field hdr 2 6)); [done| |unfold HEADER_SIZE; lia]. rewrite !orb_true_iff, Z.eqb_eq, !Z.ltb_lt in Eskip. unfold HEADER_SIZE. lia. }
  rewrite !orb_false_iff, Z.eqb_neq, !Z.ltb_ge in Eskip. destruct Eskip as [[Hz H8] Hs].
  destruct (Z.ltb_spec (data_head r - data_tail r) (field hdr 2 6)) as [Hp|Hp].
  { left. do 2 eexists; split; [done|]. by apply (next_partial r (field hdr 2 6)). }
  rewrite copy_window by lia. cbn [mbind outcome_bind].
  change (parse_record lossy (update_tail (field hdr 2 6) r)) with (parse_record lossy r).
  destruct (parse_record lossy r (field hdr 4 0) _) as [m|] eqn:Em; cbn [mbind outcome_bind].
  - left. rewrite update_tail_moved by (done || lia). do 2 eexists; split; [done|].
    by apply (next_record r (field hdr 2 6)); [|unfold HEADER_SIZE|lia|].
  - right. exists (field hdr 2 6). split_and!; done || lia.
Qed.

(** A consumer takes records until the iterator has none. *)
Fixpoint drain (fuel : nat) (r : Records) : outcome (list MmapRecord * Records) :=
  match fuel with
  | O => Panicked
  | S fuel =>
      '(o, r') ← next lossy r;
      match o with
      | None => Done ([], r')
      | Some m => '(ms, r'') ← drain fuel r'; Done (m :: ms, r'')
      end
  end.

(** A record whose header carries its length. *)
Definition framed (size : Z) (b : list Z) : Prop :=
  field b 2 6 = len b ∧ HEADER_SIZE ≤ len b ≤ size.

Lemma window_bytes d p bs : 0 < len d → bytes_at (len d) d p bs → window d p (len bs) = bs.
Proof.
  intros Hd Hat. unfold window, len. rewrite Nat2Z.id. apply Layout.map_seq_lookup. intros i x Hi.
  apply Hat in Hi. by apply list_lookup_total_correct.
Qed.

Lemma window_header d p bs :
  0 < len d → HEADER_SIZE ≤ len bs → bytes_at (len d) d p bs → window d p 8 = take 8 bs.
Proof.
  intros Hd Hl Hat. rewrite <-(take_drop 8 bs) in Hat. apply bytes_at_app in Hat as [Hat _].
  apply window_bytes in Hat; [|done]. rewrite <-Hat at 1. f_equal. unfold HEADER_SIZE, len in *.
  rewrite length_take. lia.
Qed.

Lemma field_header b : field (take 8 b) 2 6 = field b 2 6 ∧ field (take 8 b) 4 0 = field b 4 0.
Proof.
  unfold field. split; f_equal.
  - rewrite skipn_firstn_comm, take_take. done.
  - by rewrite !drop_0, take_take.
Qed.

Lemma next_framed r b m :
  ring_ok r → framed (data_size r) b → bytes_at (data_size r) (data r) (data_tail r) b →
  data_tail r + len b ≤ data_head r → parse_record lossy r (field b 4 0) b = Done m →
  next lossy r = Done (Some m, moved r (data_tail r + len b)).
Proof.
  intros Hr [Hf Hl] Hat Hh Hp. pose proof (ro_data _ Hr) as Hd.
  pose proof (window_header _ _ _ Hd (proj1 Hl) Hat) as Ehdr.
  pose proof (window_bytes _ _ _ Hd Hat) as Ewin. destruct (field_header b) as [E2 E4].
  destruct (next_cases r Hr) as [(o & r' & -> & Hc)|(size & Hs & _ & _ & Hpanic & _)].
  - destruct Hc as [Hc|size Hc Hs|size Hs Hc Hle|size m' Hs Hc Hle Hm];
      try rewrite Ehdr, E2, Hf in Hs; subst; [lia|lia|lia|].
    rewrite Ehdr, E4, Ewin in Hm. congruence.
  - rewrite Ehdr, E2, Hf in Hs. subst. rewrite Ehdr, E4, Ewin in Hpanic. congruence.
Qed.

(** C28: The ring is read record by record.  When the kernel has written framed records one
    after the other between tail and head, wrapping at the end of the data area wherever
    that falls, the iterator yields the parse of each record, in order, each read whole,
    and ends with the tail at the head. *)
Theorem drain_in_order (r : Records) (bs : list (list Z)) (ms : list MmapRecord) (fuel : nat) :
  ring_ok r →
  Forall (framed (data_size r)) bs →
  bytes_at (data_size r) (data r) (data_tail r) (concat bs) →
  data_head r = data_tail r + len (concat bs) →
  Forall2 (λ b m, parse_record lossy r (field b 4 0) b = Done m) bs ms →
  (length bs < fuel)%nat →
  drain fuel r = Done (ms, moved r (data_head r)).
Proof.
  revert r ms fuel; induction bs as [|b bs IH]; intros r ms fuel Hr Hf Hat Hh Hp Hfuel.
  - apply Forall2_nil_inv_l in Hp as ->. destruct fuel as [|fuel]; [simpl in Hfuel; lia|]. cbn [drain].
    unfold len in Hh. cbn [concat length] in Hh. rewrite Z.add_0_r in Hh.
    rewrite Hh, moved_same. unfold next. rewrite Hh, Z.eqb_refl. done.
  - apply Forall2_cons_inv_l in Hp as (m & ms' & Hm & Hms & ->).
    apply Forall_cons in Hf as [Hb Hf]. cbn [concat] in Hat, Hh. rewrite Layout.len_app in Hh.
    apply bytes_at_app in Hat as [Hat Hat']. fold (len b) in Hat'.
    destruct fuel as [|fuel]; [simpl in Hfuel; lia|]. cbn [drain].
    assert (0 ≤ len (concat bs) ∧ 0 ≤ len b) as [? ?] by (unfold len; lia). pose proof (ro_order _ Hr).
    rewrite (next_framed r b m) by (done || lia). cbn [mbind outcome_bind].
    rewrite (IH (moved r (data_tail r + len b)) ms'); [done|by apply moved_ok; [|lia]|done|done| |done|simpl in Hfuel; lia].
    cbn [data_head data_tail moved]. lia.
Qed.

(** Draining has come to an end, with [ms] taken. *)
Definition drained (fuel : nat) (r : Records) : Prop :=
  ∃ ms tail, drain fuel r = Done (ms, moved r tail) ∧ data_tail r ≤ tail ≤ data_head r ∧
    HEADER_SIZE * Z.of_nat (length ms) ≤ tail - data_tail r ∧
    next lossy (moved r tail) = Done (None, moved r tail).

Lemma drain_done r fuel : ring_ok r → next lossy r = Done (None, r) → drained (S fuel) r.
Proof.
  intros Hr E. pose proof (ro_order _ Hr). exists [], (data_tail r). cbn [drain]. rewrite moved_same, E.
  cbn [mbind outcome_bind length]. split_and!; done || lia.
Qed.

Lemma drain_more r fuel n m :
  (∀ r', ring_ok r' → memory_layout r' = true → (data_head r' - data_tail r') / HEADER_SIZE < Z.of_nat fuel →
     drained fuel r') →
  ring_ok r → memory_layout r = true → (data_head r - data_tail r) / HEADER_SIZE < Z.of_nat (S fuel) →
  next lossy r = Done (Some m, moved r (data_tail r + n)) → data_tail r + n ≤ data_head r → HEADER_SIZE ≤ n →
  drained (S fuel) r.
Proof.
  intros IH Hr Hmem Hfuel En Hle Hn. pose proof (ro_order _ Hr). unfold HEADER_SIZE in *.
  destruct (IH (moved r (data_tail r + n))) as (ms & tail & Ed & Ht & Hl & Hnext).
  - apply moved_ok; [done|lia].
  - done.
  - cbn [data_head data_tail moved].
    assert (Hq : (data_head r - (data_tail r + n)) / 8 ≤ (data_head r - data_tail r + (-1) * 8) / 8)
      by (apply Z.div_le_mono; lia).
    rewrite Z.div_add in Hq by lia. lia.
  - exists (m :: ms), tail. cbn [drain]. rewrite En. cbn [mbind outcome_bind]. rewrite Ed.
    cbn [mbind outcome_bind]. cbn [data_head data_tail moved] in Ht, Hl. cbn [length].
    unfold HEADER_SIZE in *. split_and!; [done|lia|lia|lia|exact Hnext].
Qed.

(** Reading makes progress on any ring content.  Whatever bytes lie between tail and
    head, taking records from a ring opened with the precise-memory layout comes to an end
    after at most a record every eight bytes, never reads outside the data area, leaves
    the tail between its old position and the head, and leaves the iterator with nothing
    more to yield. *)
Theorem drain_terminates (r : Records) (fuel : nat) :
  ring_ok r → memory_layout r = true → (data_head r - data_tail r) / HEADER_SIZE < Z.of_nat fuel →
  ∃ ms tail, drain fuel r = Done (ms, moved r tail) ∧ data_tail r ≤ tail ≤ data_head r ∧
    HEADER_SIZE * Z.of_nat (length ms) ≤ tail - data_tail r ∧
    next lossy (moved r tail) = Done (None, moved r tail).
Proof.
  revert r; induction fuel as [|fuel IH]; intros r Hr Hmem Hfuel.
  { pose proof (ro_order _ Hr). pose proof (Z.div_pos (data_head r - data_tail r) HEADER_SIZE).
    unfold HEADER_SIZE in *. lia. }
  pose proof (ro_order _ Hr) as Ho.
  destruct (next_cases r Hr) as [(o & r' & E & Hc)|(size & _ & _ & _ & Hpanic & _)].
  - destruct Hc as [Hc|size Hc Hs|size Hs Hc Hle|size m' Hs Hc Hle Hm].
    + by apply drain_done.
    + by apply drain_done.
    + by apply (drain_more r fuel HEADER_SIZE Unknown).
    + by apply (drain_more r fuel size m'); [..|lia].
  - exfalso. revert Hpanic. unfold parse_record. rewrite Hmem. by repeat case_match.
Qed.

End iterator.

(** A ring of 64 bytes with a lost record and a mapping record that wraps. *)
Definition example_lost : list Z := flatten [2 + 2 ^ 48 * 24; 5; 17].
Definition example_mmap : list Z := flatten [1 + 2 ^ 48 * 40; 100 + 2 ^ 32 * 101; 4096; 8192; 0].
Definition example_ring (tail : Z) : Records :=
  mkRecords (drop 16 example_mmap ++ example_lost ++ take 16 example_mmap) 152 tail 0 None true.

Lemma drain_in_order_witness :
  ring_ok (example_ring 88) ∧
  drain (λ _, "f"%string) 3 (example_ring 88) =
  Done ([Lost 17; Address 100 4096 8192 0 ""], example_ring 152).
Proof.
  assert (Hr : ring_ok (example_ring 88)) by (split; vm_compute; try split; congruence).
  split; [exact Hr|].
  apply (drain_in_order (λ _, "f"%string) (example_ring 88) [example_lost; example_mmap] _ 3 Hr).
  - repeat constructor; vm_compute; congruence.
  - assert (Hlt : ∀ i b, concat [example_lost; example_mmap] !! i = Some b →
      (i < 64)%nat) by (intros i b Hi; apply lookup_lt_Some in Hi; exact Hi).
    intros i b Hi. pose proof (Hlt i b Hi) as Hi'. clear Hlt. revert Hi.
    do 64 (destruct i as [|i]; [intros Hi; vm_compute in Hi |- *; exact Hi|]). lia.
  - reflexivity.
  - repeat constructor.
  - cbn. lia.
Defined.

Lemma drain_terminates_witness :
  ring_ok (example_ring 96) ∧
  ∃ ms tail, drain (λ _, "f"%string) 8 (example_ring 96) = Done (ms, moved (example_ring 96) tail) ∧
    96 ≤ tail ≤ 152.
Proof.
  assert (Hr : ring_ok (example_ring 96)) by (split; vm_compute; try split; congruence).
  split; [exact Hr|].
  destruct (drain_terminates (λ _, "f"%string) (example_ring 96) 8 Hr eq_refl ltac:(vm_compute; reflexivity))
    as (ms & tail & E & Ht & _). exists ms, tail. split; [exact E|exact Ht].
Defined.

End Ring_reader.

(** ** Counter values *)

Module Bounds.

(** The record has room for the values its header announces. *)
Definition room (fmt : SampleFormat) (record : list Z) : Prop :=
  SAMPLE_SIZE + f_nr fmt * VALUE_SIZE ≤ len record.

(** The bounds check of the counter values.  In a release build the end of the values
    is computed with a wrapping addition: for every count below [2^60 - 4] the check is
    exact, so that values are read when the record has room for them and none otherwise;
    for the counts from [2^60 - 4] on the sum wraps past zero, the check passes and the
    values are read beyond the record. *)
Theorem read_values_bounds (fmt : SampleFormat) (record : list Z) :
  in_u64 (f_nr fmt) → SAMPLE_SIZE ≤ len record ≤ 65535 →
  (f_nr fmt < 2 ^ 60 - 4 → room fmt record →
    ∃ values, read_values fmt record = Done values ∧ Z.of_nat (length values) = f_nr fmt) ∧
  (f_nr fmt < 2 ^ 60 - 4 → ¬ room fmt record → read_values fmt record = Done []) ∧
  (2 ^ 60 - 4 ≤ f_nr fmt → read_values fmt record = Panicked).
Proof.
  unfold in_u64, room, read_values, SAMPLE_SIZE, VALUE_SIZE. intros Hn Hl. split_and!; intros Hnr.
  - intros Hroom. assert (saturating_mul (f_nr fmt) 16 = f_nr fmt * 16) as -> by word_lia.
    unfold wrapping_add. rewrite wrap64_small by word_lia. rewrite (proj2 (Z.ltb_ge _ _)) by lia.
    unfold raw_parts. rewrite (proj2 (Z.leb_le _ _)) by lia. cbn [mbind outcome_bind].
    eexists; split; [done|]. rewrite length_map, length_fmap, length_seq. lia.
  - intros Hroom. assert (saturating_mul (f_nr fmt) 16 = f_nr fmt * 16) as -> by word_lia.
    unfold wrapping_add. rewrite wrap64_small by word_lia. by rewrite (proj2 (Z.ltb_lt _ _)) by lia.
  - assert (Hw : wrapping_add 72 (saturating_mul (f_nr fmt) 16) ≤ 71).
    { unfold wrapping_add, saturating_mul, wrap64.
      replace (72 + _) with (72 + Z.min (f_nr fmt * 16) u64_max - 2 ^ 64 + 1 * 2 ^ 64) by lia.
      rewrite Z.mod_add by lia. rewrite Z.mod_small; word_lia. }
    rewrite (proj2 (Z.ltb_ge _ _)) by lia. unfold raw_parts. by rewrite (proj2 (Z.leb_gt _ _)) by lia.
Qed.

Definition example_format (nr : Z) : SampleFormat := mkFormat 0 0 0 0 0 0 nr 0 0.

Lemma read_values_bounds_witness :
  (∃ values, read_values (example_format 1) (replicate 88 0) = Done values ∧ Z.of_nat (length values) = 1) ∧
  read_values (example_format 2) (replicate 88 0) = Done [] ∧
  read_values (example_format (2 ^ 60 - 4)) (replicate 88 0) = Panicked.
Proof.
  split; [|split].
  - apply (read_values_bounds (example_format 1) (replicate 88 0)); vm_compute; try split; congruence.
  - apply (read_values_bounds (example_format 2) (replicate 88 0)); vm_compute; try split; congruence.
  - apply (read_values_bounds (example_format (2 ^ 60 - 4)) (replicate 88 0)); vm_compute; try split; congruence.
Defined.

End Bounds.
