(* ===== verification/Spe.v ===== *)
(** * The statistical profiling packet stream

    Models [libprof/src/driver/perf/spe.rs]: one CPU's AUX byte stream is drained from
    the kernel's ring into a carry buffer, decoded packet by packet, and every sampled
    load or store is reported as a memory sample.

    - packets: [next_packet];
    - records: [SpeRecord], [apply], [finish], [data_src];
    - the stream: [drain] of the AUX ring, [consume_data_ring], [decode], and [poll], the
      body of the worker loop for one stream.

    The clock readings of the operating system and the timer registers are parameters. *)

From S2P Require Import Prelude Words Sendable Branch PerfRecords.
Open Scope Z_scope.
Import PerfRecords.

Module Spe.

Definition PERF_RECORD_AUX : Z := 11.
Definition PERF_AUX_FLAG_TRUNCATED : Z := 1.

Definition EV_L1D_ACCESS : Z := Z.shiftl 1 2.
Definition EV_L1D_REFILL : Z := Z.shiftl 1 3.
Definition EV_TLB_ACCESS : Z := Z.shiftl 1 4.
Definition EV_TLB_WALK : Z := Z.shiftl 1 5.
Definition EV_LLC_ACCESS : Z := Z.shiftl 1 8.
Definition EV_LLC_MISS : Z := Z.shiftl 1 9.
Definition EV_REMOTE_ACCESS : Z := Z.shiftl 1 10.

(** ** Packets *)

Inductive SpePacket : Type :=
| Pad
| End_
| Timestamp (payload : Z)
| Events (payload : Z)
| DataSource
| Context
| OpType (class payload : Z)
| Address (index payload : Z)
| Counter (index payload : Z)
| Bad.
#[export] Instance SpePacket_eq_dec : EqDecision SpePacket.
Proof. solve_decision. Defined.

Definition payload_len (hdr : Z) : Z := Z.shiftl 1 (Z.land (Z.shiftr hdr 4) 3).

(** The loop [value |= byte << (8 * index)] from [index] on. *)
Fixpoint or_bytes (index : Z) (bytes : list Z) (value : Z) : Z :=
  match bytes with
  | [] => value
  | byte :: bytes => or_bytes (index + 1) bytes (Z.lor value (Z.shiftl byte (8 * index)))
  end.

Definition payload (buf : list Z) (skip n : Z) : option Z :=
  if skip + n <=? len buf
  then Some (or_bytes 0 (take (Z.to_nat n) (drop (Z.to_nat skip) buf)) 0)
  else None.

(** A packet with its payload [skip] bytes in; incomplete, it consumes nothing. *)
Definition with_payload (buf : list Z) (skip n : Z) (packet : Z → SpePacket) : SpePacket * Z :=
  match payload buf skip n with
  | Some value => (packet value, skip + n)
  | None => (Bad, 0)
  end.

Definition short (buf : list Z) (header : Z) (packet : Z → SpePacket) : SpePacket * Z :=
  with_payload buf 1 (payload_len header) packet.

(** Addresses, counters and unknown headers, once the extended header is resolved. *)
Definition indexed_packet (buf : list Z) (effective index skip : Z) : SpePacket * Z :=
  let n := payload_len effective in
  let kind := Z.land effective 248 in
  if (kind =? 176) || (kind =? 152)
  then with_payload buf skip n (λ value, if kind =? 176 then Address index value else Counter index value)
  else (Bad, 1).

(** Headers [0x20..0x23]: an alignment packet or the first byte of an extended header. *)
Definition extended_packet (buf : list Z) (header absolute : Z) : SpePacket * Z :=
  match buf !! 1%nat with
  | None => (Bad, 0)
  | Some header1 =>
      if header1 =? 0 then
        let alignment := Z.shiftl 1 (Z.land header 15 + 1) in
        let consumed := alignment - Z.land absolute (alignment - 1) in
        if len buf <? consumed then (Bad, 0) else (Pad, consumed)
      else indexed_packet buf header1 (Z.lor (Z.shiftl (Z.land header 3) 3) (Z.land header1 7)) 2
  end.

Definition next_packet (buf : list Z) (absolute : Z) : outcome (SpePacket * Z) :=
  header ← unwrap (buf !! 0%nat);
  Done (
    if header =? 0 then (Pad, 1)
    else if header =? 1 then (End_, 1)
    else if header =? 113 then short buf header Timestamp
    else if Z.land header 207 =? 66 then short buf header Events
    else if Z.land header 207 =? 67 then short buf header (λ _, DataSource)
    else if Z.land header 252 =? 100 then short buf header (λ _, Context)
    else if Z.land header 252 =? 72 then short buf header (OpType (Z.land header 3))
    else if Z.land header 252 =? 32 then extended_packet buf header absolute
    else indexed_packet buf header (Z.land header 7) 1).

(** ** Records *)

Definition instruction_address (payload : Z) : Z :=
  let ns := Z.land (Z.shiftr payload 63) 1 in
  let el := Z.land (Z.shiftr payload 61) 3 in
  let address := Z.land payload (Z.shiftl 1 56 - 1) in
  if negb (ns =? 0) && ((el =? 1) || (el =? 2)) then Z.lor address (Z.shiftl 255 56) else address.

Definition data_address (payload : Z) : Z :=
  let address := Z.land payload (Z.shiftl 1 56 - 1) in
  if Z.land (Z.shiftr address 48) 240 =? 240 then Z.lor address (Z.shiftl 255 56) else address.

Record SpeRecord : Type := mkRecord {
  pc : Z;
  data_addr : Z;
  has_data_addr : bool;
  latency : Z;
  events : Z;
  is_load_store : bool;
  is_store : bool;
  timestamp : Z
}.

Definition default_record : SpeRecord := mkRecord 0 0 false 0 0 false false 0.

(** [mem::take] leaves an empty record behind. *)
Definition finish (r : SpeRecord) : option SpeRecord * SpeRecord :=
  (if is_load_store r && has_data_addr r then Some r else None, default_record).

Definition apply (packet : SpePacket) (r : SpeRecord) : option SpeRecord * SpeRecord :=
  match packet with
  | Address index payload =>
      if index =? 0 then
        (None, mkRecord (instruction_address payload) (data_addr r) (has_data_addr r) (latency r)
           (events r) (is_load_store r) (is_store r) (timestamp r))
      else if index =? 2 then
        (None, mkRecord (pc r) (data_address payload) true (latency r)
           (events r) (is_load_store r) (is_store r) (timestamp r))
      else (None, r)
  | Counter index payload =>
      if index =? 0 then
        (None, mkRecord (pc r) (data_addr r) (has_data_addr r) payload
           (events r) (is_load_store r) (is_store r) (timestamp r))
      else (None, r)
  | Events payload =>
      (None, mkRecord (pc r) (data_addr r) (has_data_addr r) (latency r)
         payload (is_load_store r) (is_store r) (timestamp r))
  | OpType class payload =>
      (None, mkRecord (pc r) (data_addr r) (has_data_addr r) (latency r) (events r)
         (class =? 1) ((class =? 1) && negb (Z.land payload 1 =? 0)) (timestamp r))
  | Timestamp payload =>
      finish (mkRecord (pc r) (data_addr r) (has_data_addr r) (latency r)
        (events r) (is_load_store r) (is_store r) payload)
  | End_ => finish r
  | Pad | Context | DataSource | Bad => (None, r)
  end.

(** [events & mask != 0]. *)
Definition has_event (r : SpeRecord) (mask : Z) : bool := negb (Z.land (events r) mask =? 0).

Definition memory_level (r : SpeRecord) : Z :=
  if has_event r EV_LLC_MISS then Z.lor 4 128
  else if has_event r EV_LLC_ACCESS && has_event r EV_L1D_REFILL then Z.lor 2 64
  else if has_event r EV_L1D_REFILL then Z.lor 4 8
  else if has_event r EV_L1D_ACCESS then Z.lor 2 8
  else 0.

Definition tlb_level (r : SpeRecord) : Z :=
  if has_event r EV_TLB_WALK then Z.lor 4 32
  else if has_event r EV_TLB_ACCESS then Z.lor 2 8
  else 0.

Definition data_src (r : SpeRecord) : Z :=
  let op := if is_store r then 4 else 2 in
  let remote := Z.b2z (has_event r EV_REMOTE_ACCESS) in
  Z.lor (Z.lor (Z.lor op (Z.shiftl (memory_level r) 5)) (Z.shiftl (tlb_level r) 26)) (Z.shiftl remote 37).

(** ** Time *)

Record TimerCalibration : Type := mkCalibration {
  counter_origin : Z;
  monotonic_origin : Z;
  frequency : Z
}.

(** [x as i64] of a [u64]. *)
Definition as_i64 (x : Z) : Z := if x <? 2 ^ 63 then x else x - 2 ^ 64.

Definition to_monotonic (c : TimerCalibration) (timestamp : Z) : Z :=
  let delta := as_i64 (wrapping_sub timestamp (counter_origin c)) in
  let nanoseconds := Z.quot (delta * 1000000000) (frequency c) in
  wrap64 (Z.max (monotonic_origin c + nanoseconds) 0).

(** ** The stream *)

(** A sample as it is handed to the sink; call stacks, registers and user stack are
    empty. *)
Record MemSample : Type := mkMemSample {
  ms_ip : Z;
  ms_pid : Z;
  ms_tid : Z;
  ms_cpu : Z;
  ms_time : Z;
  ms_data_addr : Z;
  ms_latency : Z;
  ms_data_src : Z
}.

(** The AUX ring and the data ring of the kernel mapping, and the decoder state that
    survives across drains.  [clock_reads] counts the readings of the clock so far. *)
Record SpeStream : Type := mkStream {
  aux : list Z;
  aux_head : Z;
  aux_tail : Z;
  ring : list Z;
  ring_head : Z;
  ring_tail : Z;
  cpu : Z;
  carry : list Z;
  carry_offset : Z;
  decoder : SpeRecord;
  event_histogram : gmap Z Z;
  debug : bool;
  clock_reads : nat
}.

Definition aux_len (s : SpeStream) : Z := len (aux s).

Definition with_aux_tail (t : Z) (c : list Z) (s : SpeStream) : SpeStream :=
  mkStream (aux s) (aux_head s) t (ring s) (ring_head s) (ring_tail s) (cpu s) c
    (carry_offset s) (decoder s) (event_histogram s) (debug s) (clock_reads s).
Definition with_ring_tail (t : Z) (s : SpeStream) : SpeStream :=
  mkStream (aux s) (aux_head s) (aux_tail s) (ring s) (ring_head s) t (cpu s) (carry s)
    (carry_offset s) (decoder s) (event_histogram s) (debug s) (clock_reads s).
Definition with_decoder (d : SpeRecord) (h : gmap Z Z) (n : nat) (s : SpeStream) : SpeStream :=
  mkStream (aux s) (aux_head s) (aux_tail s) (ring s) (ring_head s) (ring_tail s) (cpu s)
    (carry s) (carry_offset s) d h (debug s) n.
Definition with_carry (c : list Z) (o : Z) (s : SpeStream) : SpeStream :=
  mkStream (aux s) (aux_head s) (aux_tail s) (ring s) (ring_head s) (ring_tail s) (cpu s)
    c o (decoder s) (event_histogram s) (debug s) (clock_reads s).

(** The copy loop of [drain], from [copied] on; every turn copies a byte at least. *)
Fixpoint copy_aux (fuel : nat) (a : list Z) (tail length copied : Z) : outcome (list Z) :=
  if copied <? length then
    match fuel with
    | O => Panicked
    | S fuel =>
        let ring_pos := wrapping_add tail copied `mod` len a in
        let chunk := Z.min (length - copied) (len a - ring_pos) in
        part ← range a ring_pos (ring_pos + chunk);
        rest ← copy_aux fuel a tail length (copied + chunk);
        Done (part ++ rest)
    end
  else Done [].

(** The bytes of the data ring from [offset] on. *)
Definition ring_at (d : list Z) (offset : Z) (n : nat) : outcome (list Z) :=
  unwrap (mapM (λ i, d !! Z.to_nat ((wrapping_add offset (Z.of_nat i)) `mod` len d)) (seq 0 n)).

(** The scan of the data ring: the tail it stops at, and the truncations it met. *)
Fixpoint scan_ring (fuel : nat) (d : list Z) (head tail : Z) : outcome (Z * Z) :=
  if wrapping_add tail HEADER_SIZE <=? head then
    match fuel with
    | O => Panicked
    | S fuel =>
        header ← ring_at d tail 8;
        let type_ := field header 4 0 in
        let size := field header 2 6 in
        if (size =? 0) || (head <? wrapping_add tail size) then Done (tail, 0)
        else
          lost ←
            (if (type_ =? PERF_RECORD_AUX) && (8 + 24 <=? size) then
               body ← ring_at d (wrapping_add tail 8) 24;
               let flags := field body 8 16 in
               Done (if negb (Z.land flags PERF_AUX_FLAG_TRUNCATED =? 0) then 1 else 0)
             else Done 0);
          '(tail, more) ← scan_ring fuel d head (wrapping_add tail size);
          Done (tail, lost + more)
    end
  else Done (tail, 0).

Definition consume_data_ring (s : SpeStream) (lost_samples : Z) : outcome (SpeStream * Z) :=
  '(tail, lost) ← scan_ring (Z.to_nat (ring_head s - ring_tail s)) (ring s) (ring_head s) (ring_tail s);
  Done (with_ring_tail tail s, wrapping_add lost_samples lost).

Definition drain (s : SpeStream) (lost_samples bytes_drained : Z) : outcome (SpeStream * Z * Z) :=
  '(s, bytes_drained) ←
    (if aux_tail s <? aux_head s then
       let length := aux_head s - aux_tail s in
       bytes ← copy_aux (Z.to_nat length) (aux s) (aux_tail s) length 0;
       Done (with_aux_tail (aux_head s) (carry s ++ bytes) s, wrapping_add bytes_drained length)
     else Done (s, bytes_drained));
  '(s, lost_samples) ← consume_data_ring s lost_samples;
  Done (s, lost_samples, bytes_drained).

Section decode.
(** The clock reading of call [n], the calibration and the sampled process. *)
Context (monotonic_now : nat → Z) (clock : TimerCalibration) (pid : Z).

Definition sample_of (cpu : Z) (reads : nat) (sample : SpeRecord) : MemSample * nat :=
  let '(time, reads) :=
    if negb (timestamp sample =? 0) then (to_monotonic clock (timestamp sample), reads)
    else (monotonic_now reads, S reads) in
  (mkMemSample (pc sample) pid pid cpu time (data_addr sample) (latency sample) (data_src sample), reads).

(** One packet: the histogram of the debug mode, the record, the finished sample. *)
Definition decode_packet (s : SpeStream) (packet : SpePacket) : SpeStream * list MemSample :=
  let h := match packet with
           | Events mask => if debug s
               then <[mask := wrapping_add (default 0 (event_histogram s !! mask)) 1]> (event_histogram s)
               else event_histogram s
           | _ => event_histogram s
           end in
  let '(finished, d) := apply packet (decoder s) in
  match finished with
  | None => (with_decoder d h (clock_reads s) s, [])
  | Some sample =>
      let '(out, reads) := sample_of (cpu s) (clock_reads s) sample in
      (with_decoder d h reads s, [out])
  end.

(** The loop of [decode] at [cursor]; every turn consumes a byte at least. *)
Fixpoint decode_loop (fuel : nat) (s : SpeStream) (cursor : Z) : outcome (Z * SpeStream * list MemSample) :=
  buf ← range (carry s) cursor (len (carry s));
  match buf with
  | [] => Done (cursor, s, [])
  | _ :: _ =>
      match fuel with
      | O => Panicked
      | S fuel =>
          let absolute := wrapping_add (carry_offset s) cursor in
          '(packet, consumed) ← next_packet buf absolute;
          if consumed =? 0 then Done (cursor, s, [])
          else
            let '(s, out) := decode_packet s packet in
            '(cursor, s, more) ← decode_loop fuel s (cursor + consumed);
            Done (cursor, s, out ++ more)
      end
  end.

Definition decode (s : SpeStream) : outcome (SpeStream * list MemSample) :=
  '(cursor, s, out) ← decode_loop (length (carry s)) s 0;
  rest ← range (carry s) cursor (len (carry s));
  Done (with_carry rest (wrapping_add (carry_offset s) cursor) s, out).

(** The worker's turn over one stream. *)
Definition poll (s : SpeStream) (lost_samples bytes_drained : Z)
    : outcome (SpeStream * Z * Z * list MemSample) :=
  '(s, lost_samples, bytes_drained) ← drain s lost_samples bytes_drained;
  '(s, out) ← decode s;
  Done (s, lost_samples, bytes_drained, out).

End decode.

(** [start]: the stream before anything was drained. *)
Definition new_stream (a : list Z) (d : list Z) (cpu : Z) (debug : bool) : SpeStream :=
  mkStream a 0 0 d 0 0 cpu [] 0 default_record ∅ debug 0.

End Spe.
