(* ===== verification/SpeSpec.v ===== *)
(** * The profiling stream is decoded once, whatever its pieces

    The theorems about [Spe.v].

    - [Module Lex]: the tokens of a byte stream, independent of the record state; a stream
      that arrives in pieces has the tokens of the whole;
    - [Module Worker]: the polling worker beside the kernel that fills the rings;
    - [Module Wire]: the packet encodings of the architecture, read back by
      [next_packet], and whole records as samples. *)

From S2P Require Import Prelude Words Sendable Branch Channel ChannelSpec PerfRecords PerfRecordsSpec Spe.
Open Scope Z_scope.
Import PerfRecords Spe.
Import Ring.

Module Lex.

(** ** Single packets *)

(** A property of all bytes is checked byte by byte. *)
Lemma byte_forallb (f : Z → bool) b :
  forallb f (Z.of_nat <$> seq 0 256) = true → is_byte b → f b = true.
Proof.
  intros Hf Hb. rewrite forallb_forall in Hf. apply Hf. apply list_elem_of_In.
  apply list_elem_of_fmap. exists (Z.to_nat b). unfold is_byte in Hb. split; [lia|].
  apply elem_of_seq. lia.
Qed.

Lemma bytes_check l : forallb (λ b, (0 <=? b) && (b <? 256)) l = true → Forall is_byte l.
Proof.
  intros H. apply Forall_forall. intros b Hb. rewrite forallb_forall in H.
  apply list_elem_of_In, H in Hb. unfold is_byte. lia.
Qed.

Lemma payload_len_range hdr : 1 ≤ payload_len hdr ≤ 8.
Proof.
  unfold payload_len. assert (H : 0 ≤ Z.land (Z.shiftr hdr 4) 3 < 4).
  { change 3 with (Z.ones 2). rewrite Z.land_ones by lia. by apply Z.mod_pos_bound. }
  rewrite Z.shiftl_1_l. set (k := Z.land _ _) in *.
  assert (k = 0 ∨ k = 1 ∨ k = 2 ∨ k = 3) as [-> | [-> | [-> | ->]]] by lia; simpl; lia.
Qed.

(** What a packet decoder does on a buffer: it takes some bytes and would take the same
    in a longer buffer, or it waits, and then the buffer is short. *)
Record lexed (f : list Z → SpePacket * Z) (buf : list Z) : Prop := {
  lx_range : 0 ≤ (f buf).2 ≤ len buf;
  lx_more m : (f buf).2 ≠ 0 → f (buf ++ m) = f buf;
  lx_wait : (f buf).2 = 0 → len buf ≤ 15
}.

Lemma payload_app buf m skip n v :
  0 ≤ skip → 0 ≤ n → payload buf skip n = Some v → payload (buf ++ m) skip n = Some v.
Proof.
  unfold payload. intros Hs Hn. destruct (Z.leb_spec (skip + n) (len buf)) as [Hl|]; [|done].
  intros [= <-]. rewrite Layout.len_app. rewrite (proj2 (Z.leb_le _ _)) by (unfold len in *; lia).
  do 2 f_equal. unfold len in Hl. rewrite drop_app_le by lia. apply take_app_le. rewrite length_drop. lia.
Qed.

Lemma with_payload_lexed skip n packet buf :
  1 ≤ skip ≤ 2 → 1 ≤ n ≤ 8 → lexed (λ b, with_payload b skip n packet) buf.
Proof.
  intros Hs Hn. unfold with_payload. destruct (payload buf skip n) as [v|] eqn:E.
  - assert (Hle : skip + n ≤ len buf).
    { unfold payload in E. by destruct (Z.leb_spec (skip + n) (len buf)). }
    split; rewrite E; cbn; [lia| |lia]. intros m _. by rewrite (payload_app buf m skip n v) by (done || lia).
  - assert (Hlt : len buf < skip + n).
    { unfold payload in E. by destruct (Z.leb_spec (skip + n) (len buf)). }
    split; rewrite E; cbn; [unfold len; lia|done|lia].
Qed.

Lemma const_lexed p n buf : 1 ≤ n ≤ len buf → lexed (λ _, (p, n)) buf.
Proof. intros H. split; cbn; [lia|done|lia]. Qed.

Lemma indexed_lexed effective index skip buf :
  buf ≠ [] → 1 ≤ skip ≤ 2 → lexed (λ b, indexed_packet b effective index skip) buf.
Proof.
  intros Hne Hs. pose proof (payload_len_range effective). unfold indexed_packet. case_match.
  - by apply with_payload_lexed.
  - apply const_lexed. destruct buf; [done|]. unfold len. cbn [length]. lia.
Qed.

(** The bytes an alignment packet takes. *)
Lemma align_range k absolute :
  0 ≤ k → 1 ≤ Z.shiftl 1 k - Z.land absolute (Z.shiftl 1 k - 1) ≤ Z.shiftl 1 k.
Proof.
  intros Hk. rewrite land_mask, Z.shiftl_1_l by done.
  pose proof (Z.mod_pos_bound absolute (2 ^ k) ltac:(lia)). lia.
Qed.

Lemma extended_header header :
  is_byte header → Z.land header 252 = 32 → 1 ≤ Z.shiftl 1 (Z.land header 15 + 1) ≤ 16.
Proof.
  intros Hb. pose proof (byte_forallb
    (λ h, negb (Z.land h 252 =? 32) || (Z.shiftl 1 (Z.land h 15 + 1) <=? 16)) header eq_refl Hb) as H.
  intros E. cbv beta in H. rewrite E in H. change (negb (32 =? 32)) with false in H.
  cbn [orb] in H. apply Z.leb_le in H. split; [|done].
  assert (0 ≤ Z.land header 15) by (apply Z.land_nonneg; lia).
  rewrite Z.shiftl_1_l. assert (0 < 2 ^ (Z.land header 15 + 1)) by (apply Z.pow_pos_nonneg; lia). lia.
Qed.

Lemma extended_align header absolute b0 l :
  extended_packet (b0 :: 0 :: l) header absolute =
  let alignment := Z.shiftl 1 (Z.land header 15 + 1) in
  let consumed := alignment - Z.land absolute (alignment - 1) in
  if len (b0 :: 0 :: l) <? consumed then (Bad, 0) else (Pad, consumed).
Proof. done. Qed.

Lemma extended_indexed header absolute b0 header1 l :
  header1 ≠ 0 → extended_packet (b0 :: header1 :: l) header absolute =
  indexed_packet (b0 :: header1 :: l) header1 (Z.lor (Z.shiftl (Z.land header 3) 3) (Z.land header1 7)) 2.
Proof. intros H. unfold extended_packet. cbn [lookup list_lookup]. by rewrite (proj2 (Z.eqb_neq _ _)). Qed.

Lemma extended_lexed header absolute buf :
  is_byte header → Z.land header 252 = 32 → buf ≠ [] →
  lexed (λ b, extended_packet b header absolute) buf.
Proof.
  intros Hb He Hne. pose proof (extended_header header Hb He) as Ha.
  destruct buf as [|b0 [|header1 buf]]; [done| |].
  { split; unfold extended_packet, len; cbn; [lia|done|lia]. }
  destruct (decide (header1 = 0)) as [->|Hz].
  - assert (Hk : 0 ≤ Z.land header 15 + 1) by (pose proof (proj2 (Z.land_nonneg header 15)); lia).
    pose proof (align_range _ absolute Hk) as Hc.
    split; cbv beta; cbn [app]; rewrite ?extended_align; cbv zeta;
      set (c := Z.shiftl 1 (Z.land header 15 + 1) - _) in *; set (buf2 := b0 :: 0 :: buf).
    + destruct (Z.ltb_spec (len buf2) c); cbn [snd]; unfold len in *; lia.
    + intros m. rewrite extended_align. cbv zeta. fold c.
      assert (len buf2 ≤ len (b0 :: 0 :: buf ++ m)) by (unfold len; simpl; rewrite length_app; lia).
      destruct (Z.ltb_spec (len buf2) c); cbn [snd]; [done|]. by rewrite (proj2 (Z.ltb_ge _ _)) by lia.
    + destruct (Z.ltb_spec (len buf2) c); cbn [snd]; lia.
  - pose proof (indexed_lexed header1 (Z.lor (Z.shiftl (Z.land header 3) 3) (Z.land header1 7)) 2
      (b0 :: header1 :: buf) Hne ltac:(lia)) as [H1 H2 H3].
    split; cbv beta; cbn [app]; rewrite ?(extended_indexed _ _ _ _ _ Hz); [exact H1| |exact H3].
    intros m. rewrite (extended_indexed _ _ _ _ _ Hz). exact (H2 m).
Qed.

(** The decoder after its header byte. *)
Definition packet_after (header absolute : Z) (buf : list Z) : SpePacket * Z :=
  match next_packet (header :: drop 1 buf) absolute with Done r => r | Panicked => (Bad, 0) end.

Lemma next_packet_after header absolute buf :
  next_packet (header :: buf) absolute = Done (packet_after header absolute (header :: buf)).
Proof. done. Qed.

Lemma packet_lexed header absolute buf :
  is_byte header → lexed (packet_after header absolute) (header :: buf).
Proof.
  intros Hb. assert (H1 : 1 ≤ 1 ≤ len (header :: buf)) by (unfold len; cbn [length]; lia).
  pose proof (payload_len_range header) as Hp.
  assert (Hext : ∀ f, (∀ l, packet_after header absolute (header :: l) = f (header :: l)) →
    lexed f (header :: buf) → lexed (packet_after header absolute) (header :: buf)).
  { intros f Hf [L1 L2 L3]. split; rewrite ?Hf; [done| |done]. intros m. cbn [app] in L2 |- *.
    rewrite Hf. exact (L2 m). }
  unfold packet_after, next_packet in *. cbn [lookup list_lookup unwrap mbind outcome_bind drop] in *.
  destruct (header =? 0). { apply (Hext (λ _, (Pad, 1))); [done|by apply const_lexed]. }
  destruct (header =? 1). { apply (Hext (λ _, (End_, 1))); [done|by apply const_lexed]. }
  destruct (header =? 113). { apply (Hext (λ b, short b header Timestamp)); [done|by apply with_payload_lexed]. }
  destruct (Z.land header 207 =? 66). { apply (Hext (λ b, short b header Events)); [done|by apply with_payload_lexed]. }
  destruct (Z.land header 207 =? 67). { apply (Hext (λ b, short b header (λ _, DataSource))); [done|by apply with_payload_lexed]. }
  destruct (Z.land header 252 =? 100). { apply (Hext (λ b, short b header (λ _, Context))); [done|by apply with_payload_lexed]. }
  destruct (Z.land header 252 =? 72). { apply (Hext (λ b, short b header (OpType (Z.land header 3)))); [done|by apply with_payload_lexed]. }
  destruct (Z.land header 252 =? 32) eqn:E32.
  { apply (Hext (λ b, extended_packet b header absolute)); [done|]. apply extended_lexed; [done|by apply Z.eqb_eq|done]. }
  apply (Hext (λ b, indexed_packet b header (Z.land header 7) 1)); [done|by apply indexed_lexed].
Qed.

Lemma next_packet_total header buf absolute :
  is_byte header → ∃ p n, next_packet (header :: buf) absolute = Done (p, n) ∧
    0 ≤ n ≤ len (header :: buf) ∧ (n = 0 → len (header :: buf) ≤ 15) ∧
    (n ≠ 0 → ∀ m, next_packet (header :: buf ++ m) absolute = Done (p, n)).
Proof.
  intros Hb. destruct (packet_lexed header absolute buf Hb) as [L1 L2 L3].
  rewrite next_packet_after. destruct (packet_after header absolute (header :: buf)) as [p n] eqn:E.
  exists p, n. cbn [snd] in *. split_and!; [done|lia|lia|done|]. intros Hn m.
  rewrite next_packet_after. by rewrite <-(L2 m Hn).
Qed.

(** ** Token streams *)

(** [lexes absolute buf ps rest]: the buffer at stream position [absolute] holds the packets
    [ps] and then [rest], which waits for more bytes. *)
Inductive lexes : Z → list Z → list SpePacket → list Z → Prop :=
| lex_empty absolute : lexes absolute [] [] []
| lex_wait absolute buf p :
    buf ≠ [] → next_packet buf absolute = Done (p, 0) → lexes absolute buf [] buf
| lex_step absolute buf p n ps rest :
    buf ≠ [] → next_packet buf absolute = Done (p, n) → 0 < n ≤ len buf →
    lexes (absolute + n) (drop (Z.to_nat n) buf) ps rest → lexes absolute buf (p :: ps) rest.

Lemma lexes_total n absolute buf :
  (length buf ≤ n)%nat → Forall is_byte buf → ∃ ps rest, lexes absolute buf ps rest.
Proof.
  revert absolute buf; induction n as [|n IH]; intros absolute buf Hn Hb.
  { destruct buf; [|simpl in Hn; lia]. exists [], []. constructor. }
  destruct buf as [|h buf]; [exists [], []; constructor|].
  destruct (next_packet_total h buf absolute) as (p & k & E & Hk & _); [by apply Forall_cons in Hb as [? _]|].
  destruct (decide (k = 0)) as [->|Hk0]; [exists [], (h :: buf); by eapply lex_wait|].
  destruct (IH (absolute + k) (drop (Z.to_nat k) (h :: buf))) as (ps & rest & Hl).
  - rewrite length_drop. unfold len in Hk. lia.
  - by apply Forall_drop.
  - exists (p :: ps), rest. by eapply lex_step; [done|done|lia|].
Qed.

Lemma lexes_det absolute buf ps rest ps' rest' :
  lexes absolute buf ps rest → lexes absolute buf ps' rest' → ps = ps' ∧ rest = rest'.
Proof.
  intros H; revert ps' rest'.
  induction H as [a|a buf p Hne E|a buf p n ps rest Hne E Hn Hl IH]; intros ps' rest' H'.
  - by inversion H'; subst.
  - inversion H'; subst; try done. rewrite E in *. simplify_eq. lia.
  - inversion H'; subst; try done; rewrite E in *; simplify_eq; [lia|].
    by destruct (IH _ _ ltac:(eassumption)) as [-> ->].
Qed.

(** The rest is a suffix, short enough to be one incomplete packet. *)
Lemma lexes_rest absolute buf ps rest :
  Forall is_byte buf → lexes absolute buf ps rest →
  (∃ n, rest = drop n buf ∧ (n ≤ length buf)%nat) ∧ len rest ≤ 15.
Proof.
  intros Hb H; induction H as [a|a buf p Hne E|a buf p n ps rest Hne E Hn Hl IH].
  - split; [by exists 0%nat|]. unfold len. simpl. lia.
  - split; [exists 0%nat; split; [done|lia]|]. destruct buf as [|h buf]; [done|].
    destruct (next_packet_total h buf a) as (p' & k & E' & _ & Hw & _); [by apply Forall_cons in Hb as [? _]|].
    rewrite E in E'. injection E' as -> <-. by apply Hw.
  - destruct IH as [(k & -> & Hk) Hlen]; [by apply Forall_drop|]. split; [|done].
    exists (Z.to_nat n + k)%nat. rewrite length_drop in Hk. rewrite drop_drop. unfold len in Hn. split; [done|lia].
Qed.

(** A stream in two pieces has the packets of the whole. *)
Lemma lexes_app absolute a b ps rest ps' rest' :
  Forall is_byte a → lexes absolute a ps rest →
  lexes (absolute + len a - len rest) (rest ++ b) ps' rest' → lexes absolute (a ++ b) (ps ++ ps') rest'.
Proof.
  intros Hb H; induction H as [x|x buf p Hne E|x buf p n ps rest Hne E Hn Hl IH]; intros H'.
  - change (len []) with 0 in H'. replace (x + 0 - 0) with x in H' by lia. exact H'.
  - replace (x + len buf - len buf) with x in H' by lia. exact H'.
  - cbn [app]. destruct buf as [|h buf]; [done|].
    destruct (next_packet_total h buf x) as (p' & k & E' & _ & _ & Hm); [by apply Forall_cons in Hb as [? _]|].
    rewrite E in E'. injection E' as <- <-. apply (lex_step x _ p n); [done|by apply Hm; lia| |].
    + rewrite Layout.len_app. unfold len in *. lia.
    + unfold len in Hn. rewrite drop_app_le by lia. apply IH; [by apply Forall_drop|].
      replace (x + n + len (drop (Z.to_nat n) (h :: buf)) - len rest) with (x + len (h :: buf) - len rest); [done|].
      unfold len. rewrite length_drop. lia.
Qed.

End Lex.

Module Worker.
Import Lex.

Section worker.
Context (now : nat → Z) (clock : TimerCalibration) (pid : Z).

(** ** Decoding is lexing, then feeding the packets to the record state *)

Fixpoint feed (s : SpeStream) (ps : list SpePacket) : SpeStream * list MemSample :=
  match ps with
  | [] => (s, [])
  | p :: ps =>
      let '(s1, out) := decode_packet now clock pid s p in
      let '(s2, more) := feed s1 ps in
      (s2, out ++ more)
  end.

(** The part of the state that packets read and change. *)
Definition core (s : SpeStream) : Z * SpeRecord * gmap Z Z * bool * nat :=
  (cpu s, decoder s, event_histogram s, debug s, clock_reads s).
Definition rings (s : SpeStream) : list Z * Z * Z * list Z * Z * Z * list Z * Z :=
  (aux s, aux_head s, aux_tail s, ring s, ring_head s, ring_tail s, carry s, carry_offset s).

Lemma stream_eq s s' : core s = core s' → rings s = rings s' → s = s'.
Proof. destruct s, s'. unfold core, rings. cbn. intros. by simplify_eq. Qed.

Lemma decode_packet_rings s p : rings (decode_packet now clock pid s p).1 = rings s.
Proof.
  unfold decode_packet. destruct (apply p (decoder s)) as [[r|] d]; [|done].
  by destruct (sample_of now clock pid (cpu s) (clock_reads s) r).
Qed.

Lemma decode_packet_core s s' p :
  core s = core s' →
  core (decode_packet now clock pid s p).1 = core (decode_packet now clock pid s' p).1 ∧
  (decode_packet now clock pid s p).2 = (decode_packet now clock pid s' p).2.
Proof.
  unfold core. intros E. injection E as E1 E2 E3 E4 E5. unfold decode_packet. rewrite E1, E2, E3, E4, E5.
  destruct (apply p (decoder s')) as [[r|] d]; [|by cbn; rewrite E1, E4].
  destruct (sample_of now clock pid (cpu s') (clock_reads s') r). cbn. by rewrite E1, E4.
Qed.

Lemma feed_cons s p ps :
  feed s (p :: ps) =
  ((feed (decode_packet now clock pid s p).1 ps).1,
   (decode_packet now clock pid s p).2 ++ (feed (decode_packet now clock pid s p).1 ps).2).
Proof. cbn. destruct (decode_packet _ _ _ s p) as [s1 o1]. cbn. by destruct (feed s1 ps). Qed.

Lemma feed_rings s ps : rings (feed s ps).1 = rings s.
Proof.
  revert s; induction ps as [|p ps IH]; intros s; [done|]. rewrite feed_cons. cbn [fst].
  by rewrite IH, decode_packet_rings.
Qed.

Lemma feed_core s s' ps :
  core s = core s' → core (feed s ps).1 = core (feed s' ps).1 ∧ (feed s ps).2 = (feed s' ps).2.
Proof.
  revert s s'; induction ps as [|p ps IH]; intros s s' E; [done|]. rewrite !feed_cons. cbn [fst snd].
  destruct (decode_packet_core s s' p E) as [Ec ->]. destruct (IH _ _ Ec) as [? ->]. done.
Qed.

Lemma feed_app s ps qs :
  feed s (ps ++ qs) = ((feed (feed s ps).1 qs).1, (feed s ps).2 ++ (feed (feed s ps).1 qs).2).
Proof.
  revert s; induction ps as [|p ps IH]; intros s; [by cbn; destruct (feed s qs)|].
  cbn [app]. rewrite !feed_cons, IH. cbn [fst snd]. by rewrite app_assoc.
Qed.

Lemma range_all l cursor : 0 ≤ cursor ≤ len l → range l cursor (len l) = Done (drop (Z.to_nat cursor) l).
Proof.
  intros H. unfold range. rewrite (proj2 (Z.leb_le _ _)), (proj2 (Z.leb_le _ _)) by lia. cbn [andb].
  rewrite take_ge; [done|]. rewrite length_drop. unfold len in *. lia.
Qed.

Lemma rings_carry s s' : rings s = rings s' → carry s = carry s' ∧ carry_offset s = carry_offset s'.
Proof. unfold rings. intros. by simplify_eq. Qed.

Lemma decode_loop_lexes absolute buf ps rest :
  lexes absolute buf ps rest → ∀ fuel s cursor,
  absolute = carry_offset s + cursor → buf = drop (Z.to_nat cursor) (carry s) →
  0 ≤ carry_offset s → 0 ≤ cursor ≤ len (carry s) → len (carry s) - cursor ≤ Z.of_nat fuel →
  carry_offset s + len (carry s) ≤ u64_max →
  ∃ c, decode_loop now clock pid fuel s cursor = Done (c, (feed s ps).1, (feed s ps).2) ∧
    rest = drop (Z.to_nat c) (carry s) ∧ cursor ≤ c ≤ len (carry s).
Proof.
  induction 1 as [x|x buf p Hne E|x buf p n ps rest Hne E Hn Hl IH];
    intros fuel s cursor Hx Hbuf Ho Hc Hf Hw.
  - exists cursor. split_and!; [|done|lia|lia].
    destruct fuel; cbn [decode_loop]; by rewrite range_all, <-Hbuf by done.
  - assert (len buf = len (carry s) - cursor) by (rewrite Hbuf; unfold len in *; rewrite length_drop; lia).
    assert (0 < len buf) by (destruct buf; [done|unfold len; simpl; lia]).
    exists cursor. split_and!; [|done|lia|lia]. destruct fuel as [|fuel]; [lia|]. cbn [decode_loop].
    rewrite range_all, <-Hbuf by done. cbn [mbind outcome_bind]. destruct buf as [|h buf]; [done|].
    unfold wrapping_add. rewrite wrap64_small by word_lia. rewrite <-Hx, E. cbn [mbind outcome_bind]. done.
  - assert (Hlen : len buf = len (carry s) - cursor) by (rewrite Hbuf; unfold len in *; rewrite length_drop; lia).
    destruct fuel as [|fuel]; [lia|].
    destruct (rings_carry _ _ (decode_packet_rings s p)) as [Ec Eo].
    destruct (IH fuel (decode_packet now clock pid s p).1 (cursor + n)) as (c & Ed & Er & Hcr);
      rewrite ?Ec, ?Eo; [lia| |lia|lia|lia|lia|].
    { rewrite Hbuf, drop_drop. f_equal. lia. }
    exists c. rewrite Ec in Er, Hcr. split_and!; [|done|lia|lia]. cbn [decode_loop].
    rewrite range_all, <-Hbuf by done. cbn [mbind outcome_bind].
    destruct buf as [|h buf]; [done|]. unfold wrapping_add. rewrite wrap64_small by word_lia.
    rewrite <-Hx, E. cbn [mbind outcome_bind]. rewrite (proj2 (Z.eqb_neq _ _)) by lia.
    rewrite feed_cons. destruct (decode_packet now clock pid s p) as [s1 o1]. cbn [fst snd] in *.
    rewrite Ed. done.
Qed.

Lemma decode_lexes s ps rest :
  lexes (carry_offset s) (carry s) ps rest → 0 ≤ carry_offset s →
  carry_offset s + len (carry s) ≤ u64_max →
  decode now clock pid s =
  Done (with_carry rest (carry_offset s + len (carry s) - len rest) (feed s ps).1, (feed s ps).2).
Proof.
  intros Hl Ho Hw. destruct (decode_loop_lexes _ _ _ _ Hl (length (carry s)) s 0) as (c & E & Er & Hc);
    [lia|by rewrite drop_0|lia|unfold len; lia|unfold len; lia|lia|].
  unfold decode. rewrite E. cbn [mbind outcome_bind].
  destruct (rings_carry _ _ (feed_rings s ps)) as [Ec Eo]. rewrite Ec, Eo, range_all by done.
  cbn [mbind outcome_bind]. rewrite <-Er. unfold wrapping_add. rewrite wrap64_small by word_lia.
  do 3 f_equal. rewrite Er. unfold len. rewrite length_drop. unfold len in Hc. lia.
Qed.

(** ** Draining the rings *)

Lemma copy_aux_loop fuel a tail length copied :
  0 < len a → 0 ≤ tail → 0 ≤ copied ≤ length → tail + length ≤ u64_max →
  copy_aux fuel a tail length copied = copy_loop fuel a (tail + copied) (length - copied).
Proof.
  intros Ha Ht. revert copied; induction fuel as [|fuel IH]; intros copied Hc Hw; cbn [copy_aux copy_loop].
  { destruct (Z.ltb_spec copied length), (Z.leb_spec (length - copied) 0); (done || lia). }
  destruct (Z.ltb_spec copied length), (Z.leb_spec (length - copied) 0); try (done || lia).
  pose proof (Z.mod_pos_bound (tail + copied) (len a) Ha).
  unfold wrapping_add. rewrite (wrap64_small (tail + copied)) by word_lia.
  set (pos := (tail + copied) `mod` len a) in *. set (chunk := Z.min _ _).
  destruct (range a pos (pos + chunk)) as [part|]; [|done]. cbn [mbind outcome_bind].
  rewrite IH by lia. rewrite wrap64_small by word_lia.
  replace (tail + (copied + chunk)) with (tail + copied + chunk) by lia.
  by replace (length - (copied + chunk)) with (length - copied - chunk) by lia.
Qed.

Lemma field_bound bytes n o : Forall is_byte bytes → 0 ≤ field bytes n o < 256 ^ Z.of_nat n.
Proof.
  intros Hb. unfold field. pose proof (le_value_range (take n (drop o bytes))) as H.
  destruct H as [H1 H2]; [by apply Forall_take, Forall_drop|]. split; [done|].
  eapply Z.lt_le_trans; [exact H2|]. apply Z.pow_le_mono_r; [lia|]. rewrite length_take. lia.
Qed.

Lemma ring_at_total d offset n :
  0 < len d → Forall is_byte d → ∃ bytes, ring_at d offset n = Done bytes ∧ Forall is_byte bytes.
Proof.
  intros Hd Hb. unfold ring_at. set (f := λ i : nat, d !! _).
  assert (Hf : ∀ i, ∃ x, f i = Some x ∧ is_byte x).
  { intros i. pose proof (Z.mod_pos_bound (wrapping_add offset (Z.of_nat i)) (len d) Hd).
    destruct (lookup_lt_is_Some_2 d (Z.to_nat (wrapping_add offset (Z.of_nat i) `mod` len d))) as [x Hx].
    { unfold len in *. lia. }
    exists x. split; [exact Hx|]. by apply (Forall_lookup_1 _ _ _ _ Hb Hx). }
  induction (seq 0 n) as [|i js IH]; [by exists []|].
  destruct IH as (bs & E & Hbs). destruct (Hf i) as (x & Hx & Hxb). exists (x :: bs).
  cbn [mapM]. rewrite Hx. cbn [mbind option_bind]. destruct (mapM f js) as [l|]; [|done].
  injection E as ->. split; [done|by constructor].
Qed.

Lemma scan_ring_total fuel d head tail :
  0 < len d → Forall is_byte d → 0 ≤ tail ≤ head → head + 65535 ≤ u64_max → head - tail ≤ Z.of_nat fuel →
  ∃ tail' lost, scan_ring fuel d head tail = Done (tail', lost) ∧ tail ≤ tail' ≤ head.
Proof.
  intros Hd Hb. revert tail; induction fuel as [|fuel IH]; intros tail Ht Hw Hf; cbn [scan_ring];
    unfold HEADER_SIZE; unfold wrapping_add at 1; rewrite wrap64_small by word_lia;
    (destruct (Z.leb_spec (tail + 8) head); [|by exists tail, 0; split; [|lia]]); [lia|].
  destruct (ring_at_total d tail 8 Hd Hb) as (header & -> & Hh). cbn [mbind outcome_bind].
  pose proof (field_bound header 2 6 Hh) as Hs. change (256 ^ Z.of_nat 2) with 65536 in Hs.
  set (size := field header 2 6) in *. unfold wrapping_add. rewrite (wrap64_small (tail + size)) by word_lia.
  destruct (Z.eqb_spec size 0); [by exists tail, 0; split; [|lia]|].
  destruct (Z.ltb_spec head (tail + size)); [by exists tail, 0; split; [|lia]|]. cbn [orb].
  destruct (IH (tail + size)) as (tail' & lost & E & Ht'); [lia|lia|lia|].
  destruct (ring_at_total d (wrap64 (tail + 8)) 24 Hd Hb) as (body & Eb & _).
  case_match; [rewrite Eb|]; cbn [mbind outcome_bind]; rewrite E; cbn [mbind outcome_bind];
    eexists _, _; (split; [done|lia]).
Qed.

(** ** The worker beside the kernel

    [bytes] is the whole stream the hardware writes; the kernel makes it available piece by
    piece in the AUX ring, and overwrites what the worker has released. *)
Context (bytes : list Z) (Hbytes : Forall is_byte bytes) (Hlen : len bytes ≤ u64_max).

Definition piece (from to : Z) : list Z := take (Z.to_nat (to - from)) (drop (Z.to_nat from) bytes).

Record kernel_ok (s : SpeStream) : Prop := {
  ko_aux : 0 < aux_len s;
  ko_order : 0 ≤ aux_tail s ≤ aux_head s ∧ aux_head s ≤ len bytes;
  ko_data : bytes_at (aux_len s) (aux s) (aux_tail s) (piece (aux_tail s) (aux_head s));
  ko_ring : 0 < len (ring s);
  ko_ring_bytes : Forall is_byte (ring s);
  ko_ring_order : 0 ≤ ring_tail s ≤ ring_head s;
  ko_ring_word : ring_head s + 65535 ≤ u64_max
}.

(** The kernel's side: new ring contents and heads. *)
Definition kernel_write (a : list Z) (h : Z) (d : list Z) (dh : Z) (s : SpeStream) : SpeStream :=
  mkStream a h (aux_tail s) d dh (ring_tail s) (cpu s) (carry s) (carry_offset s) (decoder s)
    (event_histogram s) (debug s) (clock_reads s).

Inductive worker : SpeStream → list MemSample → Prop :=
| worker_start a d c dbg : 0 < len a → 0 < len d → Forall is_byte d → worker (new_stream a d c dbg) []
| worker_kernel s out a h d dh :
    worker s out → kernel_ok (kernel_write a h d dh s) → worker (kernel_write a h d dh s) out
| worker_poll s out lost drained s' lost' drained' more :
    worker s out → poll now clock pid s lost drained = Done (s', lost', drained', more) →
    worker s' (out ++ more).

Lemma length_piece from to : 0 ≤ from ≤ to → to ≤ len bytes → len (piece from to) = to - from.
Proof. intros H Hb. unfold piece, len in *. rewrite length_take, length_drop. lia. Qed.

Lemma piece_app from mid to :
  0 ≤ from ≤ mid → mid ≤ to → to ≤ len bytes → piece from mid ++ piece mid to = piece from to.
Proof.
  intros H1 H2 Hb. unfold piece, len in *.
  replace (Z.to_nat (to - from)) with (Z.to_nat (mid - from) + Z.to_nat (to - mid))%nat by lia.
  rewrite <-take_take_drop, drop_drop. do 3 f_equal. lia.
Qed.

Lemma drain_total s lost drained :
  kernel_ok s → ∃ rt lost' drained', drain s lost drained =
    Done (with_ring_tail rt (with_aux_tail (aux_head s) (carry s ++ piece (aux_tail s) (aux_head s)) s),
      lost', drained') ∧ ring_tail s ≤ rt ≤ ring_head s.
Proof.
  intros [Ha [Ho Hl] Hd Hr Hrb Hro Hrw].
  destruct (scan_ring_total (Z.to_nat (ring_head s - ring_tail s)) (ring s) (ring_head s) (ring_tail s))
    as (rt & n & E & Hrt); [done|done|done|done|lia|].
  unfold drain, consume_data_ring. destruct (Z.ltb_spec (aux_tail s) (aux_head s)) as [Hlt|Hge].
  - pose proof (length_piece (aux_tail s) (aux_head s) ltac:(lia) Hl) as Hp.
    rewrite copy_aux_loop by (done || lia). rewrite Z.add_0_r, Z.sub_0_r.
    pose proof (Ring_reader.copy_loop_bytes (Z.to_nat (aux_head s - aux_tail s)) (aux s) (aux_tail s)
      (piece (aux_tail s) (aux_head s))) as Hc. rewrite Hp in Hc. unfold aux_len in *.
    rewrite Hc by (done || lia). cbn [mbind outcome_bind with_aux_tail ring ring_head ring_tail]. rewrite E.
    cbn [mbind outcome_bind]. by eexists _, _, _.
  - cbn [mbind outcome_bind]. rewrite E. cbn [mbind outcome_bind].
    assert (aux_head s = aux_tail s) as Eh by lia. eexists rt, _, _. split; [|done]. do 3 f_equal.
    unfold with_aux_tail, piece. rewrite Eh, Z.sub_diag, app_nil_r. by destruct s; cbn in Eh |- *; subst.
Qed.

(** The worker has the tokens of everything it released, and nothing else. *)
Record inv (s : SpeStream) (out : list MemSample) : Prop := {
  iv_kernel : kernel_ok s;
  iv_offset : carry_offset s + len (carry s) = aux_tail s ∧ 0 ≤ carry_offset s;
  iv_lexed : ∃ ps, lexes 0 (piece 0 (aux_tail s)) ps (carry s) ∧
    core s = core (feed (new_stream [] [] (cpu s) (debug s)) ps).1 ∧
    out = (feed (new_stream [] [] (cpu s) (debug s)) ps).2
}.

Lemma piece_bytes from to : Forall is_byte (piece from to).
Proof. by apply Forall_take, Forall_drop. Qed.

Lemma carry_bytes s out : inv s out → Forall is_byte (carry s).
Proof.
  intros [_ _ (ps & Hl & _)]. destruct (lexes_rest _ _ _ _ (piece_bytes _ _) Hl) as [(n & -> & _) _].
  apply Forall_drop, piece_bytes.
Qed.

Lemma feed_fixed s ps : cpu (feed s ps).1 = cpu s ∧ debug (feed s ps).1 = debug s.
Proof.
  revert s; induction ps as [|p ps IH]; intros s; [done|]. rewrite feed_cons. cbn [fst].
  destruct (IH (decode_packet now clock pid s p).1) as [-> ->]. unfold decode_packet.
  destruct (apply p (decoder s)) as [[r|] d]; [|done].
  by destruct (sample_of now clock pid (cpu s) (clock_reads s) r).
Qed.

(** The state after a drain and a decode of the tokens [ps]. *)
Lemma decoded_inv s out rt ps rest :
  inv s out → ring_tail s ≤ rt ≤ ring_head s →
  let buf := carry s ++ piece (aux_tail s) (aux_head s) in
  let s1 := with_ring_tail rt (with_aux_tail (aux_head s) buf s) in
  lexes (carry_offset s) buf ps rest →
  inv (with_carry rest (carry_offset s + len buf - len rest) (feed s1 ps).1) (out ++ (feed s1 ps).2).
Proof.
  intros Hinv Hrt buf s1 Hl'. pose proof Hinv as [[Ha [Hord Hle] Hd Hr Hrb Hro Hrw] [Hoff Ho] (ps0 & Hl & Hcore & Hout)].
  assert (Hnew : len buf = len (carry s) + (aux_head s - aux_tail s)).
  { unfold buf. rewrite Layout.len_app, length_piece; lia. }
  assert (Hbuf : Forall is_byte buf) by (apply Forall_app; split; [by eapply carry_bytes|apply piece_bytes]).
  pose proof (feed_rings s1 ps) as Hrings. unfold rings in Hrings. injection Hrings as R1 R2 R3 R4 R5 R6 R7 R8.
  destruct (feed_fixed s1 ps) as [F1 F2].
  destruct (lexes_rest _ _ _ _ Hbuf Hl') as [(k & Hk & Hkl) _].
  assert (Hrest : 0 ≤ len rest ≤ len buf) by (rewrite Hk; unfold len; rewrite length_drop; lia).
  split.
  - split; unfold aux_len; cbn; rewrite ?R1, ?R2, ?R3, ?R4, ?R5, ?R6; cbn; try done || lia.
    intros i b Hi. unfold piece in Hi. by rewrite Z.sub_diag in Hi.
  - cbn. rewrite R3. cbn. lia.
  - cbn [with_carry aux_tail carry cpu debug]. rewrite R3, F1, F2. cbn [aux_tail s1 with_ring_tail with_aux_tail cpu debug].
    exists (ps0 ++ ps). rewrite feed_app. cbn [fst snd].
    destruct (feed_core s1 (feed (new_stream [] [] (cpu s) (debug s)) ps0).1 ps Hcore) as [Fc ->].
    rewrite <-Hout. split_and!; [|exact Fc|done].
    rewrite <-(piece_app 0 (aux_tail s)) by lia. eapply lexes_app; [apply piece_bytes|exact Hl|].
    rewrite length_piece by lia. replace (0 + (aux_tail s - 0) - len (carry s)) with (carry_offset s) by lia. exact Hl'.
Qed.

Lemma poll_inv s out lost drained :
  inv s out → ∃ s' lost' drained' more,
    poll now clock pid s lost drained = Done (s', lost', drained', more) ∧
    aux_tail s' = aux_head s ∧ inv s' (out ++ more).
Proof.
  intros Hinv. pose proof Hinv as [Hk [Hoff Ho] _]. pose proof (ko_order _ Hk) as [Hord Hle].
  destruct (drain_total s lost drained Hk) as (rt & lost' & drained' & Ed & Hrt).
  set (buf := carry s ++ _) in Ed. set (s1 := with_ring_tail rt _) in Ed.
  assert (Hbuf : Forall is_byte buf) by (apply Forall_app; split; [by eapply carry_bytes|apply piece_bytes]).
  destruct (lexes_total (length buf) (carry_offset s) buf) as (ps & rest & Hl); [done|done|].
  exists (with_carry rest (carry_offset s + len buf - len rest) (feed s1 ps).1), lost', drained', (feed s1 ps).2.
  split_and!.
  - unfold poll. rewrite Ed. cbn [mbind outcome_bind]. rewrite (decode_lexes s1 ps rest Hl); [done|exact Ho|].
    change (carry_offset s + len buf ≤ u64_max). unfold buf. rewrite Layout.len_app, length_piece; lia.
  - pose proof (feed_rings s1 ps) as Hrings. unfold rings in Hrings. by injection Hrings as _ _ R3 _ _ _ _ _.
  - by apply decoded_inv.
Qed.

Lemma worker_inv s out : worker s out → inv s out.
Proof.
  induction 1 as [a d c dbg Ha Hd Hb|s out a h d dh Hw IH Hk|s out lost drained s' lost' drained' more Hw IH Hp].
  - split.
    + split; unfold aux_len; cbn; try (done || (unfold len; lia) || word_lia).
    + done.
    + exists []. split_and!; [|done|done]. unfold piece. apply lex_empty.
  - destruct IH as [_ Ho Hl]. split; [done|exact Ho|exact Hl].
  - destruct (poll_inv s out lost drained IH) as (s1 & l1 & d1 & more1 & E & _ & Hi).
    rewrite Hp in E. injection E as -> _ _ ->. exact Hi.
Qed.

(** C11: Polling decodes the stream once, whatever its pieces.  However the kernel makes the
    byte stream of a CPU available and whenever the worker polls, wherever the AUX ring
    wraps and packets straddle two drains, the samples reported so far are exactly those
    of decoding the released bytes in one piece, with the same record in progress; the
    undecoded rest is shorter than one packet, and the next poll neither panics nor leaves
    a byte behind. *)
Theorem worker_decodes_once (s : SpeStream) (out : list MemSample) :
  worker s out →
  (∃ whole, decode now clock pid (with_carry (piece 0 (aux_tail s)) 0 (new_stream [] [] (cpu s) (debug s))) =
     Done (whole, out) ∧ carry whole = carry s ∧ core whole = core s) ∧
  len (carry s) ≤ 15 ∧
  ∀ lost drained, ∃ s' lost' drained' more,
    poll now clock pid s lost drained = Done (s', lost', drained', more) ∧ aux_tail s' = aux_head s.
Proof.
  intros Hw. pose proof (worker_inv s out Hw) as Hinv. pose proof Hinv as [Hk [Hoff Ho] (ps & Hl & Hcore & ->)].
  pose proof (ko_order _ Hk) as [Hord Hle]. split_and!.
  - set (s0 := with_carry _ 0 _).
    destruct (feed_core s0 (new_stream [] [] (cpu s) (debug s)) ps eq_refl) as [Fc Fo].
    exists (with_carry (carry s) (0 + len (piece 0 (aux_tail s)) - len (carry s)) (feed s0 ps).1). split_and!.
    + rewrite (decode_lexes s0 ps (carry s) Hl); [by rewrite Fo|cbn; lia|].
      cbn [carry carry_offset s0 with_carry]. rewrite length_piece; lia.
    + done.
    + rewrite Hcore. exact Fc.
  - apply (lexes_rest _ _ _ _ (piece_bytes _ _) Hl).
  - intros lost drained. destruct (poll_inv s _ lost drained Hinv) as (s' & l & d & more & E & Ht & _).
    by exists s', l, d, more.
Qed.

End worker.
End Worker.

Module Wire.
Import Lex Worker.

(** ** The packet encodings of the architecture *)

Inductive wire : Type :=
| WPad
| WAlign (k : nat)
| WEnd
| WTimestamp (v : Z)
| WEvents (sz : nat) (v : Z)
| WDataSource (sz : nat) (v : Z)
| WContext (idx : nat) (v : Z)
| WOpType (class : nat) (v : Z)
| WAddress (idx : nat) (v : Z)
| WCounter (idx : nat) (v : Z).

(** Indices from 8 on need the extended header. *)
Definition index_header (kind : Z) (idx : nat) : list Z :=
  if (idx <? 8)%nat then [kind + Z.of_nat idx]
  else [32 + Z.of_nat (idx / 8); kind + Z.of_nat (idx mod 8)].

(** The bytes up to the next multiple of [2^(k+1)]. *)
Definition align_len (k : nat) (absolute : Z) : Z :=
  let a := 2 ^ (Z.of_nat k + 1) in a - absolute `mod` a.

Definition wire_bytes (absolute : Z) (w : wire) : list Z :=
  match w with
  | WPad => [0]
  | WAlign k => 32 + Z.of_nat k :: replicate (Z.to_nat (align_len k absolute - 1)) 0
  | WEnd => [1]
  | WTimestamp v => [113] ++ le_bytes 8 v
  | WEvents sz v => [66 + 16 * Z.of_nat sz] ++ le_bytes (2 ^ sz) v
  | WDataSource sz v => [67 + 16 * Z.of_nat sz] ++ le_bytes (2 ^ sz) v
  | WContext idx v => [100 + Z.of_nat idx] ++ le_bytes 4 v
  | WOpType class v => [72 + Z.of_nat class] ++ le_bytes 1 v
  | WAddress idx v => index_header 176 idx ++ le_bytes 8 v
  | WCounter idx v => index_header 152 idx ++ le_bytes 2 v
  end.

Definition fits (n : nat) (v : Z) : Prop := 0 ≤ v < 256 ^ Z.of_nat n.

Definition wire_ok (absolute : Z) (w : wire) : Prop :=
  match w with
  | WPad | WEnd => True
  | WAlign k => (k < 4)%nat ∧ 2 ≤ align_len k absolute
  | WTimestamp v => fits 8 v
  | WEvents sz v | WDataSource sz v => (sz < 4)%nat ∧ fits (2 ^ sz) v
  | WContext idx v => (idx < 4)%nat ∧ fits 4 v
  | WOpType class v => (class < 4)%nat ∧ fits 1 v
  | WAddress idx v => (idx < 32)%nat ∧ fits 8 v
  | WCounter idx v => (idx < 32)%nat ∧ fits 2 v
  end.

Definition packet_of (w : wire) : SpePacket :=
  match w with
  | WPad | WAlign _ => Pad
  | WEnd => End_
  | WTimestamp v => Timestamp v
  | WEvents _ v => Events v
  | WDataSource _ _ => DataSource
  | WContext _ _ => Context
  | WOpType class v => OpType (Z.of_nat class) v
  | WAddress idx v => Address (Z.of_nat idx) v
  | WCounter idx v => Counter (Z.of_nat idx) v
  end.

(** Or-ing shifted bytes is the little-endian value. *)
Lemma or_bytes_value bytes index value :
  Forall is_byte bytes → 0 ≤ index → 0 ≤ value < 2 ^ (8 * index) →
  or_bytes index bytes value = value + 2 ^ (8 * index) * le_value bytes.
Proof.
  intros Hb; revert index value; induction Hb as [|b bytes Hb Hbs IH]; intros index value Hi Hv; cbn [or_bytes le_value].
  { lia. }
  assert (Hp : 2 ^ (8 * (index + 1)) = 2 ^ (8 * index) * 256).
  { replace (8 * (index + 1)) with (8 * index + 8) by lia. by rewrite Z.pow_add_r by lia. }
  assert (Hor : Z.lor value (Z.shiftl b (8 * index)) = value + b * 2 ^ (8 * index)).
  { rewrite Z.shiftl_mul_pow2 by lia.
    assert (Hland : Z.land value (b * 2 ^ (8 * index)) = 0).
    { apply Z.bits_inj'; intros n Hn; rewrite Z.land_spec, Z.bits_0.
      destruct (Z.lt_ge_cases n (8 * index)); [by rewrite Z.mul_pow2_bits_low, andb_false_r|].
      assert (value = value `mod` 2 ^ (8 * index)) as -> by (symmetry; by apply Z.mod_small).
      by rewrite Z.mod_pow2_bits_high by lia. }
    rewrite Z.add_nocarry_lxor by done. symmetry. by apply Z.lxor_lor. }
  rewrite Hor, IH; unfold is_byte in Hb; [rewrite Hp; lia|lia|]. rewrite Hp. nia.
Qed.

Lemma wire_payload hd n v rest packet :
  fits n v → with_payload (hd ++ le_bytes n v ++ rest) (len hd) (Z.of_nat n) packet = (packet v, len hd + Z.of_nat n).
Proof.
  intros Hv. unfold with_payload, payload. rewrite !Layout.len_app.
  rewrite (proj2 (Z.leb_le _ _)) by (unfold len; rewrite length_le_bytes; lia).
  rewrite Nat2Z.id. unfold len at 1. rewrite Nat2Z.id, drop_app_length, take_app_length' by (by rewrite length_le_bytes).
  rewrite or_bytes_value by (apply le_bytes_bytes || (cbn; lia)). rewrite le_value_bytes.
  unfold fits in Hv. rewrite Z.mod_small by done. cbn [Z.mul]. do 2 f_equal. lia.
Qed.

Lemma next_payload h buf absolute hd n v rest packet :
  h :: buf = hd ++ le_bytes n v ++ rest → fits n v →
  next_packet (h :: buf) absolute = Done (with_payload (hd ++ le_bytes n v ++ rest) (len hd) (Z.of_nat n) packet) →
  next_packet (hd ++ le_bytes n v ++ rest) absolute = Done (packet v, len (hd ++ le_bytes n v)).
Proof.
  intros E Hv Hn. rewrite <-E, Hn, wire_payload by done. do 2 f_equal.
  rewrite Layout.len_app. unfold len. by rewrite length_le_bytes.
Qed.

Lemma align_packet k absolute rest :
  (k < 4)%nat → 2 ≤ align_len k absolute →
  next_packet (wire_bytes absolute (WAlign k) ++ rest) absolute = Done (Pad, len (wire_bytes absolute (WAlign k))).
Proof.
  intros Hk Ha. cbn [wire_bytes].
  assert (Hlen : len (32 + Z.of_nat k :: replicate (Z.to_nat (align_len k absolute - 1)) 0) = align_len k absolute).
  { unfold len. cbn [length]. rewrite length_replicate. lia. }
  rewrite Hlen. destruct (Z.to_nat (align_len k absolute - 1)) as [|m] eqn:Em; [lia|]. cbn [replicate app].
  assert (Hext : next_packet (32 + Z.of_nat k :: 0 :: replicate m 0 ++ rest) absolute =
    Done (extended_packet (32 + Z.of_nat k :: 0 :: replicate m 0 ++ rest) (32 + Z.of_nat k) absolute)).
  { do 4 (destruct k as [|k]; [done|]). lia. }
  rewrite Hext, extended_align. cbv zeta.
  assert (Hal : Z.shiftl 1 (Z.land (32 + Z.of_nat k) 15 + 1) = 2 ^ (Z.of_nat k + 1))
    by (do 4 (destruct k as [|k]; [done|]); lia).
  rewrite land_mask by (pose proof (proj2 (Z.land_nonneg (32 + Z.of_nat k) 15)); lia).
  rewrite <-(Z.shiftl_1_l (Z.land _ _ + 1)), Hal. fold (align_len k absolute).
  rewrite (proj2 (Z.ltb_ge _ _)); [done|]. rewrite <-Hlen, !app_comm_cons, Layout.len_app. unfold len.
  cbn [length replicate]. lia.
Qed.

Lemma next_packet_wire (absolute : Z) (w : wire) (rest : list Z) :
  wire_ok absolute w →
  next_packet (wire_bytes absolute w ++ rest) absolute = Done (packet_of w, len (wire_bytes absolute w)).
Proof.
  destruct w as [|k| |v|sz v|sz v|idx v|class v|idx v|idx v]; cbn [wire_ok]; intros Hok.
  - done.
  - destruct Hok. by apply align_packet.
  - done.
  - cbn [wire_bytes]. rewrite <-app_assoc. by eapply (next_payload _ _ _ [113] 8 v rest Timestamp).
  - destruct Hok as [Hs Hv]. cbn [wire_bytes packet_of]. rewrite <-app_assoc.
    do 4 (destruct sz as [|sz]; [by eapply (next_payload _ _ _ [_] _ v rest Events)|]). lia.
  - destruct Hok as [Hs Hv]. cbn [wire_bytes packet_of]. rewrite <-app_assoc.
    do 4 (destruct sz as [|sz]; [by eapply (next_payload _ _ _ [_] _ v rest (λ _, DataSource))|]). lia.
  - destruct Hok as [Hs Hv]. cbn [wire_bytes packet_of]. rewrite <-app_assoc.
    do 4 (destruct idx as [|idx]; [by eapply (next_payload _ _ _ [_] _ v rest (λ _, Context))|]). lia.
  - destruct Hok as [Hs Hv]. cbn [wire_bytes packet_of]. rewrite <-app_assoc.
    do 4 (destruct class as [|class]; [by eapply (next_payload _ _ _ [_] _ v rest (OpType _))|]). lia.
  - destruct Hok as [Hs Hv]. cbn [wire_bytes packet_of]. rewrite <-app_assoc.
    do 8 (destruct idx as [|idx]; [by eapply (next_payload _ _ _ [_] _ v rest (Address _))|]).
    do 24 (destruct idx as [|idx]; [by eapply (next_payload _ _ _ [_; _] _ v rest (Address _))|]). lia.
  - destruct Hok as [Hs Hv]. cbn [wire_bytes packet_of]. rewrite <-app_assoc.
    do 8 (destruct idx as [|idx]; [by eapply (next_payload _ _ _ [_] _ v rest (Counter _))|]).
    do 24 (destruct idx as [|idx]; [by eapply (next_payload _ _ _ [_; _] _ v rest (Counter _))|]). lia.
Qed.

(** ** Records *)

Fixpoint stream_bytes (absolute : Z) (ws : list wire) : list Z :=
  match ws with
  | [] => []
  | w :: ws => wire_bytes absolute w ++ stream_bytes (absolute + len (wire_bytes absolute w)) ws
  end.

Fixpoint stream_ok (absolute : Z) (ws : list wire) : Prop :=
  match ws with
  | [] => True
  | w :: ws => wire_ok absolute w ∧ stream_ok (absolute + len (wire_bytes absolute w)) ws
  end.

Lemma wire_bytes_pos absolute w : 0 < len (wire_bytes absolute w).
Proof. destruct w; cbn; unfold len, index_header; try case_match; simpl; lia. Qed.

Lemma lexes_stream absolute ws :
  stream_ok absolute ws → lexes absolute (stream_bytes absolute ws) (packet_of <$> ws) [].
Proof.
  revert absolute; induction ws as [|w ws IH]; intros absolute Hok; [constructor|].
  destruct Hok as [Hw Hok]. cbn [stream_bytes fmap list_fmap]. pose proof (wire_bytes_pos absolute w) as Hp.
  apply (lex_step _ _ _ (len (wire_bytes absolute w))).
  - destruct (wire_bytes absolute w); [unfold len in Hp; simpl in Hp; lia|done].
  - by apply next_packet_wire.
  - rewrite Layout.len_app. unfold len in *. lia.
  - unfold len at 2. rewrite Nat2Z.id, drop_app_length. by apply IH.
Qed.

(** A profiling record as the hardware writes it: program counter, operation, events,
    latency and data address where it has them, padding or contexts in between, and a
    timestamp or an end packet. *)
Record profile : Type := mkProfile {
  r_pc : option Z;
  r_op : option (nat * Z);
  r_events : option Z;
  r_latency : option Z;
  r_data : option Z;
  r_filler : list wire;
  r_time : option Z
}.

Definition opt_wire {A} (f : A → wire) (o : option A) : list wire :=
  match o with Some x => [f x] | None => [] end.

Definition profile_wires (r : profile) : list wire :=
  opt_wire (WAddress 0) (r_pc r) ++ opt_wire (λ '(c, v), WOpType c v) (r_op r) ++
  opt_wire (WEvents 3) (r_events r) ++ opt_wire (WCounter 0) (r_latency r) ++
  opt_wire (WAddress 2) (r_data r) ++ r_filler r ++
  [match r_time r with Some v => WTimestamp v | None => WEnd end].

Definition is_filler (w : wire) : bool :=
  match w with
  | WPad | WAlign _ | WContext _ _ | WDataSource _ _ => true
  | WCounter (S _) _ => true
  | WAddress (S O) _ | WAddress (S (S (S _))) _ => true
  | _ => false
  end.

(** What the record says, its missing fields zero. *)
Definition profile_record (r : profile) : SpeRecord :=
  mkRecord (from_option instruction_address 0 (r_pc r)) (from_option data_address 0 (r_data r))
    (bool_decide (is_Some (r_data r))) (default 0 (r_latency r)) (default 0 (r_events r))
    (match r_op r with Some (c, _) => (c =? 1)%nat | None => false end)
    (match r_op r with Some (c, v) => (c =? 1)%nat && Z.odd v | None => false end)
    (default 0 (r_time r)).

(** A sampled load or store. *)
Definition is_access (r : profile) : bool :=
  match r_op r with Some (c, _) => (c =? 1)%nat | None => false end && bool_decide (is_Some (r_data r)).

Section samples.
Context (now : nat → Z) (clock : TimerCalibration) (pid : Z).

(** One sample for each access, in order. *)
Fixpoint samples (cpu : Z) (reads : nat) (rs : list profile) : list MemSample :=
  match rs with
  | [] => []
  | r :: rs =>
      if is_access r then
        let '(m, reads) := sample_of now clock pid cpu reads (profile_record r) in
        m :: samples cpu reads rs
      else samples cpu reads rs
  end.

(** The record state after a list of packets, without finishing it. *)
Definition after (ps : list SpePacket) (d : SpeRecord) : SpeRecord := fold_left (λ d p, (apply p d).2) ps d.
Definition quiet (ps : list SpePacket) : Prop := ∀ p d, p ∈ ps → (apply p d).1 = None.

Lemma feed_quiet s ps :
  quiet ps → ∃ h, feed now clock pid s ps = (with_decoder (after ps (decoder s)) h (clock_reads s) s, []).
Proof.
  revert s; induction ps as [|p ps IH]; intros s Hq.
  { exists (event_histogram s). by destruct s. }
  cbn [feed]. unfold decode_packet. pose proof (Hq p (decoder s) ltac:(left)) as Hp.
  destruct (apply p (decoder s)) as [o d] eqn:E. cbn in Hp. subst o. set (h := match p with Events _ => _ | _ => _ end).
  destruct (IH (with_decoder d h (clock_reads s) s)) as [h' ->]; [intros q d' Hin; apply Hq; by right|].
  exists h'. cbn [after fold_left]. unfold after. by rewrite E.
Qed.

Lemma filler_skip ws d : forallb is_filler ws = true → after (packet_of <$> ws) d = d.
Proof.
  revert d; induction ws as [|w ws IH]; intros d; [done|]. cbn [forallb]. rewrite andb_true_iff. intros [Hw Hf].
  cbn [fmap list_fmap after fold_left]. change (after (packet_of <$> ws) (apply (packet_of w) d).2 = d).
  assert ((apply (packet_of w) d).2 = d) as ->; [|by apply IH].
  destruct w as [|k| |v|sz v|sz v|idx v|class v|[|[|[|idx]]] v|[|idx] v]; try done.
  all: cbn [packet_of apply]; by rewrite !(proj2 (Z.eqb_neq _ _)) by lia.
Qed.

Definition body_wires (r : profile) : list wire :=
  opt_wire (WAddress 0) (r_pc r) ++ opt_wire (λ '(c, v), WOpType c v) (r_op r) ++
  opt_wire (WEvents 3) (r_events r) ++ opt_wire (WCounter 0) (r_latency r) ++ opt_wire (WAddress 2) (r_data r).

Lemma body_quiet r : forallb is_filler (r_filler r) = true → quiet (packet_of <$> (body_wires r ++ r_filler r)).
Proof.
  intros Hf p d Hp. apply list_elem_of_fmap in Hp as (w & -> & Hw). apply elem_of_app in Hw as [Hw|Hw].
  - unfold body_wires, opt_wire in Hw. rewrite !elem_of_app in Hw.
    destruct Hw as [Hw|[Hw|[Hw|[Hw|Hw]]]]; repeat case_match; apply list_elem_of_In in Hw; try done; destruct Hw as [<-|[]]; done.
  - rewrite forallb_forall in Hf. specialize (Hf w). rewrite <-list_elem_of_In in Hf. specialize (Hf Hw).
    destruct w as [|k| |v|sz v|sz v|idx v|class v|idx v|idx v]; try done; cbn; by repeat case_match.
Qed.

Lemma body_after r :
  forallb is_filler (r_filler r) = true →
  after (packet_of <$> (body_wires r ++ r_filler r)) default_record =
  mkRecord (pc (profile_record r)) (data_addr (profile_record r)) (has_data_addr (profile_record r))
    (latency (profile_record r)) (events (profile_record r)) (is_load_store (profile_record r))
    (is_store (profile_record r)) 0.
Proof.
  intros Hf. rewrite fmap_app. unfold after. rewrite fold_left_app. fold (after (packet_of <$> r_filler r)).
  change (fold_left _ (packet_of <$> r_filler r) ?d) with (after (packet_of <$> r_filler r) d).
  rewrite filler_skip by done.
  assert (Hop : ∀ c : nat, (Z.of_nat c =? 1) = (c =? 1)%nat).
  { intros c. destruct (Z.eqb_spec (Z.of_nat c) 1), (Nat.eqb_spec c 1); (done || lia). }
  assert (Hodd : ∀ v, negb (Z.land v 1 =? 0) = Z.odd v).
  { intros v. change 1 with (Z.ones 1). rewrite Z.land_ones, Zmod_odd by lia. by destruct (Z.odd v). }
  destruct r as [[?|] [[c v]|] [?|] [?|] [?|] fl t]; cbn; rewrite ?Hop, ?Hodd; done.
Qed.

Lemma feed_profile s r :
  forallb is_filler (r_filler r) = true → decoder s = default_record →
  ∃ h, feed now clock pid s (packet_of <$> profile_wires r) =
    if is_access r
    then (with_decoder default_record h (sample_of now clock pid (cpu s) (clock_reads s) (profile_record r)).2 s,
          [(sample_of now clock pid (cpu s) (clock_reads s) (profile_record r)).1])
    else (with_decoder default_record h (clock_reads s) s, []).
Proof.
  intros Hf Hd. assert (Ew : profile_wires r = (body_wires r ++ r_filler r) ++
    [match r_time r with Some v => WTimestamp v | None => WEnd end])
    by (unfold profile_wires, body_wires; by rewrite <-!app_assoc).
  rewrite Ew, fmap_app, feed_app. destruct (feed_quiet s _ (body_quiet r Hf)) as [h ->]. cbn [fst snd app].
  rewrite Hd, body_after by done. exists h. set (s1 := with_decoder _ _ _ _).
  assert (E : apply (packet_of (match r_time r with Some v => WTimestamp v | None => WEnd end)) (decoder s1) =
    (if is_access r then Some (profile_record r) else None, default_record)).
  { unfold is_access. destruct r as [? op ? ? ? ? [v|]]; cbn; by destruct op as [[??]|]. }
  cbn [fmap list_fmap feed]. unfold decode_packet. rewrite E. cbn [cpu s1 with_decoder clock_reads].
  assert (Eh : (match packet_of (match r_time r with Some v => WTimestamp v | None => WEnd end) with
    | Events mask => if debug s1 then <[mask := wrapping_add (default 0 (event_histogram s1 !! mask)) 1]> (event_histogram s1)
        else event_histogram s1
    | _ => event_histogram s1 end) = h) by by destruct (r_time r).
  rewrite Eh. destruct (is_access r); [|done].
  by destruct (sample_of now clock pid (cpu s) (clock_reads s) (profile_record r)).
Qed.

Lemma feed_profiles s rs :
  Forall (λ r, forallb is_filler (r_filler r) = true) rs → decoder s = default_record →
  ∃ s', feed now clock pid s (packet_of <$> concat (profile_wires <$> rs)) = (s', samples (cpu s) (clock_reads s) rs) ∧
    decoder s' = default_record.
Proof.
  intros Hf; revert s; induction Hf as [|r rs Hr Hf IH]; intros s Hd; [by exists s|].
  cbn [fmap list_fmap concat]. rewrite fmap_app, feed_app. destruct (feed_profile s r Hr Hd) as [h ->].
  cbn [samples]. destruct (is_access r).
  - destruct (sample_of now clock pid (cpu s) (clock_reads s) (profile_record r)) as [m reads]. cbn [fst snd].
    destruct (IH (with_decoder default_record h reads s) eq_refl) as (s' & E & Hd'). rewrite E. by exists s'.
  - cbn [fst snd]. destruct (IH (with_decoder default_record h (clock_reads s) s) eq_refl) as (s' & E & Hd').
    rewrite E. by exists s'.
Qed.

(** Packets are read as the architecture encodes them.  For every packet kind, payload
    and index, with short or extended header, [next_packet] on its encoding followed by
    any other bytes returns that packet and its exact length; an alignment packet is
    skipped up to the next boundary of the stream position. *)
Theorem packet_roundtrip (absolute : Z) (w : wire) (rest : list Z) :
  wire_ok absolute w →
  next_packet (wire_bytes absolute w ++ rest) absolute = Done (packet_of w, len (wire_bytes absolute w)).
Proof. apply next_packet_wire. Qed.

(** Each sampled access is reported once, with its own record's values.  When the stream
    holds the encodings of a sequence of profiling records, decoding consumes all of it
    and reports one sample per record that is a load or store with a data address, in
    order, with the program counter, address, latency, data source and time of that record
    alone: fields missing in a record are zero and never left over from an earlier one. *)
Theorem records_reported (s : SpeStream) (rs : list profile) :
  decoder s = default_record → 0 ≤ carry_offset s →
  Forall (λ r, forallb is_filler (r_filler r) = true) rs →
  carry s = stream_bytes (carry_offset s) (concat (profile_wires <$> rs)) →
  stream_ok (carry_offset s) (concat (profile_wires <$> rs)) →
  carry_offset s + len (carry s) ≤ u64_max →
  ∃ s', decode now clock pid s = Done (s', samples (cpu s) (clock_reads s) rs) ∧
    carry s' = [] ∧ decoder s' = default_record.
Proof.
  intros Hd Ho Hf Hc Hok Hw. pose proof (lexes_stream _ _ Hok) as Hl. rewrite <-Hc in Hl.
  destruct (feed_profiles s rs Hf Hd) as (s' & E & Hd').
  exists (with_carry [] (carry_offset s + len (carry s) - len []) s'). split_and!; [|done|done].
  by rewrite (decode_lexes now clock pid s _ _ Hl Ho Hw), E.
Qed.

End samples.

Lemma packet_roundtrip_witness :
  wire_ok 5 (WAddress 12 4660) ∧
  next_packet (wire_bytes 5 (WAddress 12 4660) ++ [1; 2]) 5 = Done (Address 12 4660, 10).
Proof.
  assert (Hok : wire_ok 5 (WAddress 12 4660)) by (cbn; unfold fits; cbn; lia).
  split; [exact Hok|]. exact (packet_roundtrip 5 (WAddress 12 4660) [1; 2] Hok).
Defined.

(** A load with a timestamp, a branch, and a store without one. *)
Definition example_profiles : list profile :=
  [mkProfile (Some 4198400) (Some (1%nat, 0)) (Some 6) (Some 30) (Some 140000) [WPad; WContext 1 77] (Some 5000);
   mkProfile (Some 4198404) (Some (2%nat, 0)) (Some 2) None None [] None;
   mkProfile (Some 4198408) (Some (1%nat, 1)) None None (Some 140008) [WAlign 2] None].
Definition example_clock : TimerCalibration := mkCalibration 1000 2000 1000000000.
Definition example_bytes : list Z := stream_bytes 0 (concat (profile_wires <$> example_profiles)).
Definition example_now (n : nat) : Z := 9000 + Z.of_nat n.

Lemma example_ok : stream_ok 0 (concat (profile_wires <$> example_profiles)).
Proof. cbn. unfold fits, align_len. vm_compute. repeat split; congruence || lia. Qed.

Lemma records_reported_witness :
  ∃ s', decode example_now example_clock 42 (with_carry example_bytes 0 (new_stream [] [] 3 false)) =
    Done (s', [mkMemSample 4198400 42 42 3 6000 140000 30 (2 + 32 * 10);
               mkMemSample 4198408 42 42 3 9000 140008 0 4]) ∧ carry s' = [].
Proof.
  destruct (records_reported example_now example_clock 42
    (with_carry example_bytes 0 (new_stream [] [] 3 false)) example_profiles) as (s' & E & Hc & _).
  - reflexivity.
  - cbn. lia.
  - repeat constructor.
  - reflexivity.
  - exact example_ok.
  - vm_compute. congruence.
  - exists s'. split; [exact E|exact Hc].
Defined.

End Wire.

(** ** The worker on an example *)

Module Example.
Import Lex Worker Wire.

Definition ring0 : list Z := replicate 32 0.
Definition aux1 : list Z := write_bytes 32 0 (piece example_bytes 0 20) ring0.
Definition aux2 : list Z := write_bytes 32 20 (piece example_bytes 20 45) aux1.
Definition start_stream : SpeStream := new_stream ring0 [0] 3 false.
Definition poll_result (s : SpeStream) : SpeStream * list MemSample :=
  match poll example_now example_clock 42 s 0 0 with Done (s, _, _, out) => (s, out) | Panicked => (s, []) end.
Definition stream1 : SpeStream := kernel_write aux1 20 [0] 0 start_stream.
Definition stream2 : SpeStream := kernel_write aux2 45 [0] 0 (poll_result stream1).1.
Definition stream3 : SpeStream := (poll_result stream2).1.

Lemma example_bytes_ok : Forall is_byte example_bytes.
Proof. apply bytes_check. vm_compute. reflexivity. Qed.

Lemma kernel_ok_concrete s a h :
  aux s = write_bytes 32 (aux_tail s) (piece example_bytes (aux_tail s) h) a → length a = 32%nat →
  aux_head s = h → 0 ≤ aux_tail s ≤ h → h ≤ len example_bytes → h - aux_tail s ≤ 32 →
  ring s = [0] → ring_head s = 0 → ring_tail s = 0 → kernel_ok example_bytes s.
Proof.
  intros E Ha Hh Ht Hl Hs Er Erh Ert.
  assert (Hlen : aux_len s = 32) by (unfold aux_len, len; rewrite E, length_write_bytes, Ha; done).
  split; rewrite ?Hlen, ?Hh, ?Er, ?Erh, ?Ert; try (done || lia).
  - rewrite E. apply write_bytes_at; [lia|by rewrite Ha|].
    pose proof (length_piece example_bytes (aux_tail s) h Ht Hl). unfold len in *. lia.
  - repeat constructor; lia.
Qed.

Lemma worker_example : worker example_now example_clock 42 example_bytes stream3
  (((poll_result stream1).2) ++ (poll_result stream2).2).
Proof.
  apply (worker_poll _ _ _ _ stream2 _ 0 0 _ 0 25); [|vm_compute; reflexivity].
  apply worker_kernel; [|apply (kernel_ok_concrete stream2 aux1 45); vm_compute; (reflexivity || (try split; congruence))].
  apply (worker_poll _ _ _ _ stream1 [] 0 0 _ 0 20); [|vm_compute; reflexivity].
  apply worker_kernel; [|apply (kernel_ok_concrete stream1 ring0 20); vm_compute; (reflexivity || (try split; congruence))].
  apply worker_start; [vm_compute; reflexivity..|]. repeat constructor; lia.
Qed.

Lemma worker_decodes_once_witness :
  worker example_now example_clock 42 example_bytes stream3
    (((poll_result stream1).2) ++ (poll_result stream2).2) ∧ len (carry stream3) ≤ 15.
Proof.
  split; [exact worker_example|].
  apply (worker_decodes_once example_now example_clock 42 example_bytes example_bytes_ok
    ltac:(vm_compute; congruence) stream3 _ worker_example).
Defined.

End Example.
