(* ===== verification/Text.v ===== *)
(** * Text

    The operations of the Rust standard library on strings that the artifact writers and
    parsers use.  A [str] is the list of its Unicode scalar values, as integers.

    - characters and literals, white space, [trim], [lines], [split_whitespace],
      [split_once], [strip_prefix];
    - [u64] printed in decimal and hexadecimal, and [from_str_radix];
    - the lemmas that printing and splitting are undone by joining and parsing. *)

From Stdlib Require Import Ascii String.
From S2P Require Import Prelude Words.
Open Scope Z_scope.

(** The characters of a literal. *)
Fixpoint chars (s : string) : list Z :=
  match s with
  | EmptyString => []
  | String c s => Z.of_nat (nat_of_ascii c) :: chars s
  end.

(** [char::is_whitespace]: the Unicode property White_Space. *)
Definition is_whitespace (c : Z) : bool :=
  ((9 <=? c) && (c <=? 13)) || (c =? 32) || (c =? 133) || (c =? 160) || (c =? 5760) ||
  ((8192 <=? c) && (c <=? 8202)) || (c =? 8232) || (c =? 8233) || (c =? 8239) || (c =? 8287) ||
  (c =? 12288).

Fixpoint trim_start (s : list Z) : list Z :=
  match s with
  | [] => []
  | c :: s' => if is_whitespace c then trim_start s' else s
  end.
Definition trim (s : list Z) : list Z := reverse (trim_start (reverse (trim_start s))).

(** The word in progress, when it has a character. *)
Definition flush_word (cur : list Z) : list (list Z) := if bool_decide (cur = []) then [] else [cur].

Fixpoint split_words (cur : list Z) (s : list Z) : list (list Z) :=
  match s with
  | [] => flush_word cur
  | c :: s => if is_whitespace c then flush_word cur ++ split_words [] s else split_words (cur ++ [c]) s
  end.
Definition split_whitespace (s : list Z) : list (list Z) := split_words [] s.

(** A terminated line loses a carriage return before its newline. *)
Definition strip_cr (l : list Z) : list Z :=
  match last l with Some c => if c =? 13 then removelast l else l | None => l end.

Fixpoint lines_from (cur : list Z) (s : list Z) : list (list Z) :=
  match s with
  | [] => flush_word cur
  | c :: s => if c =? 10 then strip_cr cur :: lines_from [] s else lines_from (cur ++ [c]) s
  end.
Definition lines (s : list Z) : list (list Z) := lines_from [] s.

Fixpoint split_once (d : Z) (s : list Z) : option (list Z * list Z) :=
  match s with
  | [] => None
  | c :: s => if c =? d then Some ([], s) else '(a, b) ← split_once d s; Some (c :: a, b)
  end.

Fixpoint strip_prefix (p s : list Z) : option (list Z) :=
  match p, s with
  | [], _ => Some s
  | c :: p, d :: s => if c =? d then strip_prefix p s else None
  | _, [] => None
  end.

(** [str::contains]. *)
Fixpoint str_contains (pattern s : list Z) : bool :=
  match strip_prefix pattern s with
  | Some _ => true
  | None => match s with [] => false | _ :: s => str_contains pattern s end
  end.

(** ** Numbers *)

Definition to_digit (radix c : Z) : option Z :=
  let d := if (48 <=? c) && (c <=? 57) then c - 48
           else if (97 <=? c) && (c <=? 122) then c - 87
           else if (65 <=? c) && (c <=? 90) then c - 55
           else radix in
  if d <? radix then Some d else None.

Fixpoint parse_digits (radix acc : Z) (s : list Z) : option Z :=
  match s with
  | [] => Some acc
  | c :: s =>
      d ← to_digit radix c;
      product ← checked_mul acc radix;
      sum ← checked_add product d;
      parse_digits radix sum s
  end.

(** [u64::from_str_radix]: no digits is an error, a sign alone too; a plus may lead. *)
Definition from_str_radix (radix : Z) (s : list Z) : option Z :=
  match s with
  | [] => None
  | [c] => if (c =? 43) || (c =? 45) then None else parse_digits radix 0 s
  | c :: rest => if c =? 43 then parse_digits radix 0 rest else parse_digits radix 0 s
  end.

(** [str::parse::<u64>]. *)
Definition parse_u64 (s : list Z) : option Z := from_str_radix 10 s.

Definition digit_char (d : Z) : Z := if d <? 10 then 48 + d else 87 + d.

Fixpoint digits_of (fuel : nat) (radix n : Z) (acc : list Z) : list Z :=
  match fuel with
  | O => acc
  | S fuel =>
      let acc := digit_char (n `mod` radix) :: acc in
      if n / radix =? 0 then acc else digits_of fuel radix (n / radix) acc
  end.

(** [{}] and [{:#x}] of a [u64]: at most 20 decimal and 16 hexadecimal digits. *)
Definition show (n : Z) : list Z := digits_of 20 10 n [].
Definition show_hex (n : Z) : list Z := chars "0x" ++ digits_of 16 16 n [].

(** ** Lemmas: numbers *)

Lemma to_digit_char radix d : 2 ≤ radix ≤ 16 → 0 ≤ d < radix → to_digit radix (digit_char d) = Some d.
Proof.
  intros Hr Hd. unfold to_digit, digit_char. destruct (Z.ltb_spec d 10).
  - rewrite (proj2 (Z.leb_le 48 _)), (proj2 (Z.leb_le _ 57)) by lia. cbn [andb].
    replace (48 + d - 48) with d by lia. by rewrite (proj2 (Z.ltb_lt _ _)) by lia.
  - rewrite (proj2 (Z.leb_gt _ 57)), andb_false_r by lia.
    rewrite (proj2 (Z.leb_le 97 _)), (proj2 (Z.leb_le _ 122)) by lia. cbn [andb].
    replace (87 + d - 87) with d by lia. by rewrite (proj2 (Z.ltb_lt _ _)) by lia.
Qed.

Lemma digit_char_range d : 0 ≤ d < 16 → 48 ≤ digit_char d ≤ 57 ∨ 97 ≤ digit_char d ≤ 102.
Proof. intros Hd. unfold digit_char. destruct (Z.ltb_spec d 10); lia. Qed.

Lemma parse_digits_of fuel radix n acc :
  2 ≤ radix ≤ 16 → 0 ≤ n < radix ^ Z.of_nat fuel → n ≤ u64_max → (0 < fuel)%nat →
  parse_digits radix 0 (digits_of fuel radix n acc) = parse_digits radix n acc.
Proof.
  intros Hr. revert n acc; induction fuel as [|fuel IH]; intros n acc Hn Hm Hf; [lia|].
  cbn [digits_of]. pose proof (Z.mod_pos_bound n radix ltac:(lia)) as Hd.
  pose proof (Z.div_mod n radix ltac:(lia)) as E.
  assert (Hstep : parse_digits radix (n / radix) (digit_char (n `mod` radix) :: acc) = parse_digits radix n acc).
  { cbn [parse_digits]. rewrite to_digit_char by lia. cbn [mbind option_bind]. unfold checked_mul, checked_add.
    rewrite (proj2 (Z.leb_le (n / radix * radix) _)) by lia. cbn [mbind option_bind].
    rewrite (proj2 (Z.leb_le (n / radix * radix + _) _)) by lia. cbn [mbind option_bind]. f_equal. lia. }
  destruct (Z.eqb_spec (n / radix) 0) as [Hz|Hz]; [by rewrite <-Hstep, Hz|]. rewrite <-Hstep.
  assert (0 ≤ n / radix) by (apply Z.div_pos; lia).
  assert (n / radix ≤ n) by (apply Z.div_le_upper_bound; nia).
  apply IH; [|lia|].
  - split; [done|]. apply Z.div_lt_upper_bound; [lia|]. rewrite <-Z.pow_succ_r, <-Nat2Z.inj_succ by lia. apply Hn.
  - destruct fuel; [|lia]. change (radix ^ Z.of_nat 1) with (radix ^ 1) in Hn. rewrite Z.pow_1_r in Hn.
    exfalso. apply Hz. by apply Z.div_small.
Qed.

(** The characters of a printed number. *)
Definition is_digit_char (c : Z) : Prop := 48 ≤ c ≤ 57 ∨ 97 ≤ c ≤ 102.

Lemma digits_of_chars fuel radix n acc :
  2 ≤ radix ≤ 16 → Forall is_digit_char acc → Forall is_digit_char (digits_of fuel radix n acc).
Proof.
  intros Hr. revert n acc; induction fuel as [|fuel IH]; intros n acc Ha; [done|]. cbn [digits_of].
  pose proof (Z.mod_pos_bound n radix ltac:(lia)).
  assert (Forall is_digit_char (digit_char (n `mod` radix) :: acc))
    by (constructor; [apply digit_char_range; lia|done]).
  case_match; [done|]. by apply IH.
Qed.

Lemma digits_of_nonempty fuel radix n acc : (0 < fuel)%nat → digits_of fuel radix n acc ≠ [].
Proof.
  revert n acc; induction fuel as [|fuel IH]; intros n acc Hf; [lia|]. cbn [digits_of].
  case_match; [done|]. destruct fuel; [done|]. apply IH. lia.
Qed.

Lemma from_digits radix s : s ≠ [] → Forall is_digit_char s → from_str_radix radix s = parse_digits radix 0 s.
Proof.
  intros Hne Hs. destruct s as [|c [|d s]]; [done| |]; apply Forall_cons in Hs as [Hc _]; unfold is_digit_char in Hc;
    cbn [from_str_radix].
  - by rewrite (proj2 (Z.eqb_neq c 43)), (proj2 (Z.eqb_neq c 45)) by lia.
  - by rewrite (proj2 (Z.eqb_neq c 43)) by lia.
Qed.

Lemma parse_show n : in_u64 n → parse_u64 (show n) = Some n.
Proof.
  intros Hn. unfold parse_u64, show. rewrite from_digits.
  - rewrite parse_digits_of; [done|lia| |word_lia|lia]. change (Z.of_nat 20) with 20. word_lia.
  - apply digits_of_nonempty. lia.
  - by apply digits_of_chars; [lia|].
Qed.

Lemma parse_show_hex n : in_u64 n → from_str_radix 16 (digits_of 16 16 n []) = Some n.
Proof.
  intros Hn. rewrite from_digits.
  - rewrite parse_digits_of; [done|lia| |word_lia|lia]. change (16 ^ Z.of_nat 16) with (2 ^ 64). word_lia.
  - apply digits_of_nonempty. lia.
  - by apply digits_of_chars; [lia|].
Qed.

(** ** Lemmas: words and lines *)

(** Words joined by single spaces. *)
Fixpoint join (ws : list (list Z)) : list Z :=
  match ws with
  | [] => []
  | [w] => w
  | w :: ws => w ++ 32 :: join ws
  end.

Definition is_word (w : list Z) : Prop := w ≠ [] ∧ Forall (λ c, is_whitespace c = false) w.

Lemma split_words_word cur w s :
  Forall (λ c, is_whitespace c = false) w → split_words cur (w ++ s) = split_words (cur ++ w) s.
Proof.
  intros Hw; revert cur; induction Hw as [|c w Hc Hw IH]; intros cur; [by rewrite app_nil_r|].
  cbn [app split_words]. rewrite Hc, IH, <-app_assoc. done.
Qed.

Lemma split_join ws : Forall is_word ws → split_whitespace (join ws) = ws.
Proof.
  unfold split_whitespace. induction 1 as [|w ws [Hne Hw] Hws IH]; [done|]. destruct ws as [|w' ws].
  - cbn [join]. rewrite <-(app_nil_r w) at 1. rewrite split_words_word by done. cbn [split_words app].
    unfold flush_word. by rewrite bool_decide_false.
  - change (join (w :: w' :: ws)) with (w ++ 32 :: join (w' :: ws)). rewrite split_words_word by done.
    cbn [app split_words]. change (is_whitespace 32) with true. cbn iota.
    unfold flush_word at 1. rewrite bool_decide_false by done. cbn [app]. by rewrite IH.
Qed.

Lemma trim_id s :
  (∀ c, head s = Some c → is_whitespace c = false) → (∀ c, last s = Some c → is_whitespace c = false) →
  trim s = s.
Proof.
  intros Hh Hl. assert (Hs : ∀ l, (∀ c, head l = Some c → is_whitespace c = false) → trim_start l = l).
  { intros [|c l] H; [done|]. cbn [trim_start]. by rewrite (H c). }
  unfold trim. rewrite (Hs s Hh), Hs, reverse_involutive; [done|]. intros c. rewrite head_reverse. apply Hl.
Qed.

Lemma word_head w c : is_word w → head w = Some c → is_whitespace c = false.
Proof. intros [_ Hw] Hc. destruct w; [done|]. injection Hc as ->. by apply Forall_cons in Hw as [? _]. Qed.

Lemma word_last w c : is_word w → last w = Some c → is_whitespace c = false.
Proof. intros [_ Hw] Hc. apply last_Some in Hc as [l ->]. by apply Forall_app in Hw as [_ [? _]%Forall_cons]. Qed.

Lemma join_cons w ws : ws ≠ [] → join (w :: ws) = w ++ 32 :: join ws.
Proof. by destruct ws. Qed.

Lemma join_head ws c : Forall is_word ws → head (join ws) = Some c → is_whitespace c = false.
Proof.
  intros Hws Hc. destruct Hws as [|w ws Hw Hws]; [done|]. apply (word_head w); [done|].
  destruct ws as [|w' ws]; [done|]. rewrite join_cons in Hc by done. destruct Hw as [Hne _]. by destruct w.
Qed.

Lemma join_last ws c : Forall is_word ws → last (join ws) = Some c → is_whitespace c = false.
Proof.
  induction 1 as [|w ws Hw Hws IH]; [done|]. destruct ws as [|w' ws]; [by apply word_last|].
  rewrite join_cons by done. intros Hc. apply IH.
  rewrite last_app_cons in Hc. rewrite last_cons in Hc.
  destruct (last (join (w' :: ws))) as [c'|] eqn:E; [done|].
  apply last_None in E. destruct ws as [|w'' ws]; cbn [join] in E.
  - apply Forall_cons in Hws as [[? _] _]. done.
  - by destruct w'.
Qed.

Lemma trim_join ws : Forall is_word ws → trim (join ws) = join ws.
Proof. intros Hws. apply trim_id; intros c; [by apply join_head|by apply join_last]. Qed.

Lemma lines_from_line cur l s :
  10 ∉ l → lines_from cur (l ++ 10 :: s) = strip_cr (cur ++ l) :: lines s.
Proof.
  revert cur; induction l as [|c l IH]; intros cur Hl; cbn [app lines_from].
  - by rewrite app_nil_r.
  - rewrite not_elem_of_cons in Hl. destruct Hl as [Hc Hl]. rewrite (proj2 (Z.eqb_neq _ _)) by congruence.
    rewrite IH by exact Hl. by rewrite <-app_assoc.
Qed.

(** A line without newline that does not end in a carriage return. *)
Definition is_line (l : list Z) : Prop := (10 ∉ l) ∧ last l ≠ Some 13.

Lemma strip_cr_id l : last l ≠ Some 13 → strip_cr l = l.
Proof.
  intros Hl. unfold strip_cr. destruct (last l) as [c|]; [|done].
  by rewrite (proj2 (Z.eqb_neq _ _)) by (intros ->; by apply Hl).
Qed.

Definition unlines (ls : list (list Z)) : list Z := concat ((λ l, l ++ [10]) <$> ls).

Lemma lines_unlines ls : Forall is_line ls → lines (unlines ls) = ls.
Proof.
  induction 1 as [|l ls [Hn Hc] Hls IH]; [done|]. unfold unlines. cbn [fmap list_fmap concat].
  rewrite <-app_assoc. cbn [app]. unfold lines at 1. rewrite lines_from_line by done. cbn [app].
  rewrite strip_cr_id by done. f_equal. exact IH.
Qed.

Lemma join_line ws : Forall is_word ws → is_line (join ws).
Proof.
  intros Hws. split.
  - induction Hws as [|w ws [_ Hw] Hws IH]; [apply not_elem_of_nil|].
    assert (10 ∉ w) by (intros Hin; rewrite Forall_forall in Hw; by apply Hw in Hin).
    destruct ws as [|w' ws]; [done|]. rewrite join_cons by done.
    rewrite not_elem_of_app, not_elem_of_cons. done.
  - intros Hc. by apply join_last in Hc.
Qed.

Lemma digit_char_not_space c : is_digit_char c → is_whitespace c = false.
Proof. unfold is_digit_char, is_whitespace. intros Hc. lia. Qed.

Lemma digits_word fuel radix n : 2 ≤ radix ≤ 16 → (0 < fuel)%nat → is_word (digits_of fuel radix n []).
Proof.
  intros Hr Hf. split; [by apply digits_of_nonempty|].
  eapply Forall_impl; [by apply digits_of_chars|]. intros c. apply digit_char_not_space.
Qed.

Lemma show_word n : is_word (show n).
Proof. apply digits_word; lia. Qed.

Lemma show_hex_word n : is_word (show_hex n).
Proof.
  split; [done|]. apply Forall_app; split; [by repeat constructor|]. apply (digits_word 16 16 n); lia.
Qed.

#[export] Hint Resolve show_word show_hex_word : words.

(** Printed numbers stay folded. *)
#[global] Arguments chars : simpl never.
#[global] Arguments digits_of : simpl never.
#[global] Arguments show : simpl never.
#[global] Arguments show_hex : simpl never.
#[global] Arguments from_str_radix : simpl never.
