(* ===== verification/Artifacts.v ===== *)
(** * The artifact files between the instrumentation and the reports

    Models the text writers of [utils/roofline-core/src/artifacts.rs] and the parsers and
    the cross-check of [mperf/src/roofline/qemu.rs].  The writers run in the instrumented
    process, the parsers in the reporting tool; the two meet only through these files.

    The error messages of the parsers are the constructors of [ParseError]. *)

From S2P Require Import Prelude Words Text Cache Cfg OrderTree MemoryAnalysis Capi.
Open Scope Z_scope.

Module Artifacts.

(** ** Results *)

Inductive ParseError : Type :=
| InvalidCount (line : list Z)
| DuplicateCount (name : list Z)
| MissingCount (name : list Z)
| DuplicateVersion
| UnsupportedVersion (version : list Z)
| DuplicateCache
| InvalidCache (line : list Z)
| DuplicateImage
| InvalidImage (line : list Z)
| DuplicateEntry (address : Z)
| ZeroEdge (line : list Z)
| DuplicateEdge (from to : Z)
| ZeroBlock (line : list Z)
| InvalidBlockRange (line : list Z)
| DuplicateBlock (address : Z)
| ZeroThreadBlock (line : list Z)
| InvalidThread (line : list Z)
| InvalidLine (line : list Z)
| NotHexadecimal (value : list Z)
| InvalidAddress (value : list Z)
| NoVersion
| NoBlocks
| NoImage
| NoCache
| UnknownThreadBlock (address : Z)
| DuplicateThread (address thread : Z)
| ThreadExcess (address counted total : Z)
| UnknownBlock (address : Z)
| TotalsMismatch.

Inductive result (A : Type) : Type :=
| Ok (a : A)
| Err (e : ParseError).
#[global] Arguments Ok {A} _.
#[global] Arguments Err {A} _.

#[export] Instance result_ret : MRet result := λ A a, Ok a.
#[export] Instance result_bind : MBind result := λ A B f m,
  match m with Ok a => f a | Err e => Err e end.

(** [option.with_context(e)?]. *)
Definition or_err {A} (o : option A) (e : ParseError) : result A :=
  match o with Some a => Ok a | None => Err e end.

Fixpoint fold_result {S A} (f : S → A → result S) (xs : list A) (s : S) : result S :=
  match xs with
  | [] => Ok s
  | x :: xs => s ← f s x; fold_result f xs s
  end.

(** ** Writers *)

(** The order of a [BTreeMap] or [BTreeSet]. *)
Definition edge_le (a b : Z * Z) : Prop := a.1 < b.1 ∨ a.1 = b.1 ∧ a.2 ≤ b.2.
#[export] Instance edge_le_dec a b : Decision (edge_le a b).
Proof. unfold edge_le. apply _. Defined.

Definition key_le {A} (a b : Z * A) : Prop := a.1 ≤ b.1.
#[export] Instance key_le_dec {A} (a b : Z * A) : Decision (key_le a b).
Proof. unfold key_le. apply _. Defined.
Definition edge_key_le (a b : Z * Z * Z) : Prop := edge_le a.1 b.1.
#[export] Instance edge_key_le_dec a b : Decision (edge_key_le a b).
Proof. unfold edge_key_le. apply _. Defined.

Definition sorted_entries (s : gset Z) : list Z := merge_sort Z.le (elements s).
Definition sorted_edges (m : gmap (Z * Z) Z) : list (Z * Z * Z) :=
  merge_sort edge_key_le (map_to_list m).
Definition sorted_blocks (m : gmap Z Cfg.DynamicBlockCounts) : list (Z * Cfg.DynamicBlockCounts) :=
  merge_sort key_le (map_to_list m).

Definition count_values (c : Capi.CounterSnapshot) : list (list Z * Z) :=
  [(chars "scalar_int_ops", Capi.scalar_int_ops c);
   (chars "scalar_float_ops", Capi.scalar_float_ops c);
   (chars "scalar_double_ops", Capi.scalar_double_ops c);
   (chars "vector_int_ops", Capi.vector_int_ops c);
   (chars "vector_float_ops", Capi.vector_float_ops c);
   (chars "vector_double_ops", Capi.vector_double_ops c);
   (chars "bytes_load", Capi.bytes_load c);
   (chars "bytes_store", Capi.bytes_store c);
   (chars "dram_bytes_load", Capi.dram_bytes_load c);
   (chars "dram_bytes_store", Capi.dram_bytes_store c);
   (chars "rvv_state_errors", Capi.rvv_state_errors c);
   (chars "unclassified_instructions", Capi.unclassified_instructions c);
   (chars "instructions", Capi.instructions c);
   (chars "child_process_seen", Z.b2z (Capi.child_process_seen c))].

Definition count_line (v : list Z * Z) : list Z := v.1 ++ [61] ++ show v.2.

(** [write_counts]: the text of the file. *)
Definition write_counts (c : Capi.CounterSnapshot) : list Z := unlines (count_line <$> count_values c).

(** The lines of [write_cfg]; the format strings put one space between fields. *)
Definition cache_line (c : Capi.CacheDescription) : list Z :=
  join [chars "cache"; show (Capi.d_line_size c); show (Capi.d_capacity c);
        show (Capi.d_associativity c); chars "write-back-write-allocate"].
Definition image_line (i : Capi.ImageInfo) : list Z :=
  join [chars "image"; show_hex (Capi.i_start i); show_hex (Capi.i_end i); show_hex (Capi.i_entry i)].
Definition entry_line (a : Z) : list Z := join [chars "entry"; show_hex a].
Definition edge_line (e : Z * Z * Z) : list Z :=
  let '(from, to, executions) := e in join [chars "edge"; show_hex from; show_hex to; show executions].
Definition block_line (address : Z) (c : Cfg.DynamicBlockCounts) : list Z :=
  join [chars "block"; show_hex address; show_hex (Cfg.b_end_vaddr c); show (Cfg.executions c);
        show (Cfg.scalar_int c); show (Cfg.scalar_float c); show (Cfg.scalar_double c);
        show (Cfg.vector_int c); show (Cfg.vector_float c); show (Cfg.vector_double c);
        show (Cfg.bytes_load c); show (Cfg.bytes_store c); show (Cfg.arch_bytes_load c);
        show (Cfg.arch_bytes_store c); show (Cfg.unclassified c)].
Definition thread_line (address : Z) (t : Z * Z) : list Z :=
  join [chars "tblock"; show_hex address; show t.1; show t.2].
Definition block_lines (b : Z * Cfg.DynamicBlockCounts) : list (list Z) :=
  block_line b.1 b.2 :: (thread_line b.1 <$> Cfg.threads b.2).

Definition option_line {A} (f : A → list Z) (o : option A) : list (list Z) :=
  match o with Some a => [f a] | None => [] end.

(** [write_cfg]: the text of the file. *)
Definition write_cfg (cache : option Capi.CacheDescription) (image : option Capi.ImageInfo)
    (g : Cfg.DynamicCfg) : list Z :=
  unlines (
    [chars "miniperf-qemu-cfg=5"] ++ option_line cache_line cache ++ option_line image_line image ++
    (entry_line <$> sorted_entries (Cfg.entries g)) ++ (edge_line <$> sorted_edges (Cfg.edges g)) ++
    concat (block_lines <$> sorted_blocks (Cfg.blocks g))).

(** ** The reporting tool's data *)

Record Counts : Type := mkCounts {
  c_instructions : Z;
  c_scalar_int_ops : Z;
  c_scalar_float_ops : Z;
  c_scalar_double_ops : Z;
  c_vector_int_ops : Z;
  c_vector_float_ops : Z;
  c_vector_double_ops : Z;
  c_bytes_load : Z;
  c_bytes_store : Z;
  c_dram_bytes_load : Z;
  c_dram_bytes_store : Z;
  c_rvv_state_errors : Z;
  c_unclassified_instructions : Z;
  c_child_process_seen : Z
}.

Record BlockCounts : Type := mkBlock {
  end_ : Z;
  executions : Z;
  scalar_int_ops : Z;
  scalar_float_ops : Z;
  scalar_double_ops : Z;
  vector_int_ops : Z;
  vector_float_ops : Z;
  vector_double_ops : Z;
  bytes_load : Z;
  bytes_store : Z;
  arch_bytes_load : Z;
  arch_bytes_store : Z;
  unclassified_instructions : Z;
  threads : list (Z * Z)
}.
#[export] Instance BlockCounts_eq_dec : EqDecision BlockCounts.
Proof. solve_decision. Defined.
Definition default_block : BlockCounts := mkBlock 0 0 0 0 0 0 0 0 0 0 0 0 0 [].

Record CacheInfo : Type := mkCache { line_size : Z; capacity : Z; associativity : Z }.
Record ImageInfo : Type := mkImage { start : Z; image_end : Z; entry : Z }.

Record DynamicCfgCapture : Type := mkCapture {
  image : option ImageInfo;
  cache : option CacheInfo;
  entries : gset Z;
  edges : gmap (Z * Z) Z;
  blocks : gmap Z BlockCounts
}.
Definition default_capture : DynamicCfgCapture := mkCapture None None ∅ ∅ ∅.

(** ** Parsers *)

Definition parse_address (value : list Z) : result Z :=
  value' ← or_err (strip_prefix (chars "0x") value) (NotHexadecimal value);
  or_err (from_str_radix 16 value') (InvalidAddress value').

Definition parse_decimal (value line : list Z) : result Z := or_err (parse_u64 value) (InvalidCount line).

(** One line of the counts file, into the map of the values read so far. *)
Definition parse_count (values : gmap (list Z) Z) (line : list Z) : result (gmap (list Z) Z) :=
  '(name, value) ← or_err (split_once 61 line) (InvalidCount line);
  value ← or_err (parse_u64 value) (InvalidCount line);
  match values !! name with
  | Some _ => Err (DuplicateCount name)
  | None => Ok (<[name := value]> values)
  end.

Definition parse_counts (input : list Z) : result Counts :=
  values ← fold_result parse_count (filter (λ line, trim line ≠ []) (lines input)) (∅ : gmap (list Z) Z);
  let get name := or_err (values !! chars name) (MissingCount (chars name)) in
  scalar_int ← get "scalar_int_ops"%string;
  scalar_float ← get "scalar_float_ops"%string;
  scalar_double ← get "scalar_double_ops"%string;
  vector_int ← get "vector_int_ops"%string;
  vector_float ← get "vector_float_ops"%string;
  vector_double ← get "vector_double_ops"%string;
  load ← get "bytes_load"%string;
  store ← get "bytes_store"%string;
  dram_load ← get "dram_bytes_load"%string;
  dram_store ← get "dram_bytes_store"%string;
  rvv ← get "rvv_state_errors"%string;
  unclassified ← get "unclassified_instructions"%string;
  instructions ← get "instructions"%string;
  child ← get "child_process_seen"%string;
  Ok (mkCounts instructions scalar_int scalar_float scalar_double vector_int vector_float vector_double
        load store dram_load dram_store rvv unclassified child).

(** The state of the line loop of [parse_dynamic_cfg]. *)
Record CfgParse : Type := mkParse {
  capture : DynamicCfgCapture;
  version_seen : bool;
  thread_blocks : list (Z * Z * Z)
}.

Definition with_capture (c : DynamicCfgCapture) (p : CfgParse) : CfgParse :=
  mkParse c (version_seen p) (thread_blocks p).

Definition parse_version (version : list Z) (p : CfgParse) : result CfgParse :=
  if version_seen p then Err DuplicateVersion
  else if negb (bool_decide (version = chars "4")) && negb (bool_decide (version = chars "5"))
  then Err (UnsupportedVersion version)
  else Ok (mkParse (capture p) true (thread_blocks p)).

Definition parse_cache (line f1 f2 f3 : list Z) (p : CfgParse) : result CfgParse :=
  let c := capture p in
  if bool_decide (is_Some (cache c)) then Err DuplicateCache
  else
    line_size ← parse_decimal f1 line;
    capacity ← parse_decimal f2 line;
    associativity ← parse_decimal f3 line;
    if negb (is_power_of_two line_size) || (associativity =? 0) ||
       (capacity <? wrapping_mul line_size associativity)
    then Err (InvalidCache line)
    else Ok (with_capture (mkCapture (image c) (Some (mkCache line_size capacity associativity))
               (entries c) (edges c) (blocks c)) p).

Definition parse_image (line f1 f2 f3 : list Z) (p : CfgParse) : result CfgParse :=
  let c := capture p in
  if bool_decide (is_Some (image c)) then Err DuplicateImage
  else
    start ← parse_address f1;
    image_end ← parse_address f2;
    entry ← parse_address f3;
    if image_end <=? start then Err (InvalidImage line)
    else Ok (with_capture (mkCapture (Some (mkImage start image_end entry)) (cache c)
               (entries c) (edges c) (blocks c)) p).

Definition parse_entry (f1 : list Z) (p : CfgParse) : result CfgParse :=
  let c := capture p in
  address ← parse_address f1;
  if bool_decide (address ∈ entries c) then Err (DuplicateEntry address)
  else Ok (with_capture (mkCapture (image c) (cache c) ({[address]} ∪ entries c) (edges c) (blocks c)) p).

Definition parse_edge (line f1 f2 f3 : list Z) (p : CfgParse) : result CfgParse :=
  let c := capture p in
  from ← parse_address f1;
  to ← parse_address f2;
  executions ← parse_decimal f3 line;
  if executions =? 0 then Err (ZeroEdge line)
  else match edges c !! (from, to) with
       | Some _ => Err (DuplicateEdge from to)
       | None => Ok (with_capture (mkCapture (image c) (cache c) (entries c)
                       (<[(from, to) := executions]> (edges c)) (blocks c)) p)
       end.

Definition parse_block (line f1 f2 f3 f4 f5 f6 f7 f8 f9 f10 f11 f12 f13 f14 : list Z) (p : CfgParse)
    : result CfgParse :=
  let c := capture p in
  address ← parse_address f1;
  end_ ← parse_address f2;
  executions ← parse_decimal f3 line;
  scalar_int ← parse_decimal f4 line;
  scalar_float ← parse_decimal f5 line;
  scalar_double ← parse_decimal f6 line;
  vector_int ← parse_decimal f7 line;
  vector_float ← parse_decimal f8 line;
  vector_double ← parse_decimal f9 line;
  bytes_load ← parse_decimal f10 line;
  bytes_store ← parse_decimal f11 line;
  arch_bytes_load ← parse_decimal f12 line;
  arch_bytes_store ← parse_decimal f13 line;
  unclassified ← parse_decimal f14 line;
  if executions =? 0 then Err (ZeroBlock line)
  else if end_ <=? address then Err (InvalidBlockRange line)
  else match blocks c !! address with
       | Some _ => Err (DuplicateBlock address)
       | None =>
           let counts := mkBlock end_ executions scalar_int scalar_float scalar_double vector_int
             vector_float vector_double bytes_load bytes_store arch_bytes_load arch_bytes_store
             unclassified [] in
           Ok (with_capture (mkCapture (image c) (cache c) (entries c) (edges c)
                 (<[address := counts]> (blocks c))) p)
       end.

Definition parse_tblock (line f1 f2 f3 : list Z) (p : CfgParse) : result CfgParse :=
  executions ← parse_decimal f3 line;
  if executions =? 0 then Err (ZeroThreadBlock line)
  else
    address ← parse_address f1;
    thread ← parse_decimal f2 line;
    if u32_max <? thread then Err (InvalidThread line)
    else Ok (mkParse (capture p) (version_seen p) (thread_blocks p ++ [(address, thread, executions)])).

(** The match on the fields of a line. *)
Definition parse_fields (line : list Z) (fields : list (list Z)) (p : CfgParse) : result CfgParse :=
  match fields with
  | [k; f1; f2; f3; model] =>
      if bool_decide (k = chars "cache") &&
         (bool_decide (model = chars "write-back-no-rfo") ||
          bool_decide (model = chars "write-back-write-allocate"))
      then parse_cache line f1 f2 f3 p else Err (InvalidLine line)
  | [k; f1; f2; f3] =>
      if bool_decide (k = chars "image") then parse_image line f1 f2 f3 p
      else if bool_decide (k = chars "edge") then parse_edge line f1 f2 f3 p
      else if bool_decide (k = chars "tblock") then parse_tblock line f1 f2 f3 p
      else Err (InvalidLine line)
  | [k; f1] =>
      if bool_decide (k = chars "entry") then parse_entry f1 p else Err (InvalidLine line)
  | [k; f1; f2; f3; f4; f5; f6; f7; f8; f9; f10; f11; f12; f13; f14] =>
      if bool_decide (k = chars "block")
      then parse_block line f1 f2 f3 f4 f5 f6 f7 f8 f9 f10 f11 f12 f13 f14 p else Err (InvalidLine line)
  | _ => Err (InvalidLine line)
  end.

Definition parse_line (p : CfgParse) (line : list Z) : result CfgParse :=
  match strip_prefix (chars "miniperf-qemu-cfg=") line with
  | Some version => parse_version version p
  | None => parse_fields line (split_whitespace line) p
  end.

(** [iter().sum::<u64>()] in a release build. *)
Definition sum_u64 (xs : list Z) : Z := fold_left wrapping_add xs 0.

Definition with_threads (b : BlockCounts) (ts : list (Z * Z)) : BlockCounts :=
  mkBlock (end_ b) (executions b) (scalar_int_ops b) (scalar_float_ops b) (scalar_double_ops b)
    (vector_int_ops b) (vector_float_ops b) (vector_double_ops b) (bytes_load b) (bytes_store b)
    (arch_bytes_load b) (arch_bytes_store b) (unclassified_instructions b) ts.

(** One thread count, into the block it belongs to. *)
Definition attach_thread (m : gmap Z BlockCounts) (t : Z * Z * Z) : result (gmap Z BlockCounts) :=
  let '(address, thread, count) := t in
  block ← or_err (m !! address) (UnknownThreadBlock address);
  if existsb (λ c, c.1 =? thread) (threads block) then Err (DuplicateThread address thread)
  else
    let ts := threads block ++ [(thread, count)] in
    let counted := sum_u64 (snd <$> ts) in
    if executions block <? counted then Err (ThreadExcess address counted (executions block))
    else Ok (<[address := with_threads block ts]> m).

(** The first entry or edge end that is not a block. *)
Definition check_known (m : gmap Z BlockCounts) (address : Z) : result unit :=
  match m !! address with Some _ => Ok tt | None => Err (UnknownBlock address) end.

Definition referenced (c : DynamicCfgCapture) : list Z :=
  sorted_entries (entries c) ++ concat ((λ '(from, to, _), [from; to]) <$> sorted_edges (edges c)).

Definition parse_dynamic_cfg (input : list Z) : result DynamicCfgCapture :=
  let ls := filter (λ line, line ≠ []) (map trim (lines input)) in
  p ← fold_result parse_line ls (mkParse default_capture false []);
  if negb (version_seen p) then Err NoVersion
  else if bool_decide (blocks (capture p) = ∅) then Err NoBlocks
  else if negb (bool_decide (is_Some (image (capture p)))) then Err NoImage
  else if negb (bool_decide (is_Some (cache (capture p)))) then Err NoCache
  else
    bs ← fold_result attach_thread (thread_blocks p) (blocks (capture p));
    let c := mkCapture (image (capture p)) (cache (capture p)) (entries (capture p)) (edges (capture p)) bs in
    _ ← fold_result (λ _, check_known bs) (referenced c) tt;
    Ok c.

(** ** The cross-check *)

Definition add_block (total block : BlockCounts) : BlockCounts :=
  mkBlock (end_ total)
    (saturating_add (executions total) (executions block))
    (saturating_add (scalar_int_ops total) (scalar_int_ops block))
    (saturating_add (scalar_float_ops total) (scalar_float_ops block))
    (saturating_add (scalar_double_ops total) (scalar_double_ops block))
    (saturating_add (vector_int_ops total) (vector_int_ops block))
    (saturating_add (vector_float_ops total) (vector_float_ops block))
    (saturating_add (vector_double_ops total) (vector_double_ops block))
    (saturating_add (bytes_load total) (bytes_load block))
    (saturating_add (bytes_store total) (bytes_store block))
    (saturating_add (arch_bytes_load total) (arch_bytes_load block))
    (saturating_add (arch_bytes_store total) (arch_bytes_store block))
    (saturating_add (unclassified_instructions total) (unclassified_instructions block))
    (threads total).

Definition sum_blocks (bs : list BlockCounts) : BlockCounts := fold_left add_block bs default_block.

(** The values of a [BTreeMap], in key order. *)
Definition sorted_values (m : gmap Z BlockCounts) : list BlockCounts :=
  snd <$> merge_sort key_le (map_to_list m).

Definition validate_cfg_totals (c : DynamicCfgCapture) (counts : Counts) : result unit :=
  let totals := sum_blocks (sorted_values (blocks c)) in
  let expected := mkBlock 0 0 (c_scalar_int_ops counts) (c_scalar_float_ops counts)
    (c_scalar_double_ops counts) (c_vector_int_ops counts) (c_vector_float_ops counts)
    (c_vector_double_ops counts) (c_dram_bytes_load counts) (c_dram_bytes_store counts)
    (c_bytes_load counts) (c_bytes_store counts) (c_unclassified_instructions counts) [] in
  let stores_are_valid := bytes_store totals <=? bytes_store expected in
  let comparable := mkBlock (end_ totals) 0 (scalar_int_ops totals) (scalar_float_ops totals)
    (scalar_double_ops totals) (vector_int_ops totals) (vector_float_ops totals)
    (vector_double_ops totals) (bytes_load totals) (bytes_store expected) (arch_bytes_load totals)
    (arch_bytes_store totals) (unclassified_instructions totals) (threads totals) in
  if negb stores_are_valid || negb (bool_decide (comparable = expected)) then Err TotalsMismatch else Ok tt.

End Artifacts.
