(* ===== verification/ArtifactsSpec.v ===== *)
(** * What the instrumentation writes, the reports read

    The theorems about [Artifacts.v]: the parsers accept the files of the writers and
    recover the counters and the graph, and the cross-check of the reporting tool accepts
    what a session of the instrumentation leaves behind. *)

From S2P Require Import Prelude Words Text Cache Cfg OrderTree MemoryAnalysis Capi CapiSpec Accounting Artifacts.
Open Scope Z_scope.
Import Artifacts.

(** ** Words and numbers *)

Lemma parse_address_show n : in_u64 n → parse_address (show_hex n) = Ok n.
Proof.
  intros Hn. unfold parse_address.
  assert (strip_prefix (chars "0x") (show_hex n) = Some (digits_of 16 16 n [])) as -> by reflexivity.
  cbn [or_err mbind result_bind]. by rewrite parse_show_hex.
Qed.

Lemma parse_decimal_show n line : in_u64 n → parse_decimal (show n) line = Ok n.
Proof. intros Hn. unfold parse_decimal. by rewrite parse_show. Qed.

Lemma chars_word s : chars s ≠ [] → forallb (λ c, negb (is_whitespace c)) (chars s) = true → is_word (chars s).
Proof.
  intros Hne Hs. split; [done|]. apply Forall_forall. intros c Hc. rewrite forallb_forall in Hs.
  apply list_elem_of_In, Hs in Hc. by apply negb_true_iff.
Qed.

Lemma fold_result_app {S A} (f : S → A → result S) xs ys s :
  fold_result f (xs ++ ys) s = s' ← fold_result f xs s; fold_result f ys s'.
Proof.
  revert s; induction xs as [|x xs IH]; intros s; [done|]. cbn [app fold_result].
  destruct (f s x); cbn [mbind result_bind]; [apply IH|done].
Qed.

(** ** The counts file *)

Module Counts_file.

Definition counts_of (c : Capi.CounterSnapshot) : Counts :=
  mkCounts (Capi.instructions c) (Capi.scalar_int_ops c) (Capi.scalar_float_ops c)
    (Capi.scalar_double_ops c) (Capi.vector_int_ops c) (Capi.vector_float_ops c)
    (Capi.vector_double_ops c) (Capi.bytes_load c) (Capi.bytes_store c) (Capi.dram_bytes_load c)
    (Capi.dram_bytes_store c) (Capi.rvv_state_errors c) (Capi.unclassified_instructions c)
    (Z.b2z (Capi.child_process_seen c)).

Lemma split_once_app d a b : d ∉ a → split_once d (a ++ d :: b) = Some (a, b).
Proof.
  induction a as [|c a IH]; intros Ha; cbn [app split_once]; [by rewrite Z.eqb_refl|].
  rewrite not_elem_of_cons in Ha. destruct Ha as [Hc Ha]. rewrite (proj2 (Z.eqb_neq _ _)) by congruence.
  rewrite IH by done. done.
Qed.

(** A name of a count. *)
Definition is_name (n : list Z) : Prop := is_word n ∧ 61 ∉ n.

Lemma count_line_word v : is_name v.1 → is_word (count_line v).
Proof.
  intros [[Hne Hw] _]. unfold count_line. split; [by destruct v.1|].
  apply Forall_app; split; [done|]. constructor; [done|]. apply show_word.
Qed.

Lemma parse_count_line m v :
  is_name v.1 → in_u64 v.2 → m !! v.1 = None → parse_count m (count_line v) = Ok (<[v.1 := v.2]> m).
Proof.
  intros [_ Hn] Hv Hm. unfold parse_count, count_line. cbn [app]. rewrite split_once_app by done.
  cbn [or_err mbind result_bind]. rewrite parse_show by done. cbn [or_err mbind result_bind]. by rewrite Hm.
Qed.

Lemma parse_count_lines vs m :
  Forall (λ v, is_name v.1 ∧ in_u64 v.2) vs → NoDup (vs.*1) → (∀ k, k ∈ vs.*1 → m !! k = None) →
  ∃ m', fold_result parse_count (count_line <$> vs) m = Ok m' ∧
    (∀ k x, (k, x) ∈ vs → m' !! k = Some x) ∧ (∀ k, k ∉ vs.*1 → m' !! k = m !! k).
Proof.
  intros Hvs; revert m; induction Hvs as [|[n x] vs [Hn Hx] Hvs IH]; intros m Hnd Hm.
  { exists m. split; [done|]. split; [|done]. intros k x H. by apply not_elem_of_nil in H. }
  cbn [fmap list_fmap fold_result]. apply NoDup_cons in Hnd as [Hnin Hnd].
  rewrite parse_count_line by (done || apply Hm; left). cbn [mbind result_bind fst snd].
  destruct (IH (<[n := x]> m)) as (m' & E & H1 & H2); [done| |].
  { intros k Hk. rewrite lookup_insert_ne by (intros ->; done). apply Hm. by right. }
  exists m'. split; [exact E|]. split.
  - intros k y Hk. apply elem_of_cons in Hk as [[= -> ->]|Hk]; [|by apply H1].
    rewrite H2 by done. apply lookup_insert_eq.
  - intros k Hk. cbn [fmap list_fmap] in Hk. rewrite not_elem_of_cons in Hk. destruct Hk as [Hk1 Hk2].
    rewrite H2 by done. by apply lookup_insert_ne.
Qed.

Lemma filter_lines (vs : list (list Z * Z)) :
  Forall (λ v, is_name v.1 ∧ in_u64 v.2) vs →
  filter (λ line, trim line ≠ []) (lines (unlines (count_line <$> vs))) = count_line <$> vs.
Proof.
  intros Hvs. rewrite lines_unlines.
  - induction Hvs as [|v vs [Hn _] Hvs IH]; [done|]. cbn [fmap list_fmap]. rewrite filter_cons_True, IH; [done|].
    pose proof (count_line_word v Hn) as Hw. pose proof (trim_join [count_line v]) as Ht. cbn [join] in Ht.
    rewrite Ht by (by constructor). by destruct Hw.
  - apply Forall_fmap. eapply Forall_impl; [exact Hvs|]. intros v [Hn _].
    apply (join_line [count_line v]). constructor; [by apply count_line_word|constructor].
Qed.

Lemma name_check (l : list (list Z)) :
  forallb (λ n, negb (bool_decide (n = [])) && forallb (λ c, negb (is_whitespace c) && negb (c =? 61)) n) l = true →
  Forall is_name l.
Proof.
  intros H. rewrite forallb_forall in H. apply Forall_forall. intros n Hn. apply list_elem_of_In, H in Hn.
  rewrite andb_true_iff, negb_true_iff, bool_decide_eq_false, forallb_forall in Hn. destruct Hn as [Hne Hc].
  split; [split; [done|]|].
  - apply Forall_forall. intros c Hin. apply list_elem_of_In, Hc in Hin.
    rewrite andb_true_iff, !negb_true_iff in Hin. apply Hin.
  - intros Hin. apply list_elem_of_In, Hc in Hin. by rewrite andb_false_r in Hin.
Qed.

Lemma count_values_ok c : CapiSpec.counters_ok c → Forall (λ v, is_name v.1 ∧ in_u64 v.2) (count_values c).
Proof.
  intros [].
  assert (Hn : Forall is_name (count_values c).*1) by (apply name_check; vm_compute; reflexivity).
  assert (Hv : Forall in_u64 (count_values c).*2).
  { unfold count_values. cbn [fmap list_fmap snd]. repeat (constructor; [assumption|]). constructor; [|constructor].
    destruct (Capi.child_process_seen c); vm_compute; split; congruence. }
  rewrite Forall_fmap in Hn. rewrite Forall_fmap in Hv. apply Forall_and. by split.
Qed.

Lemma parse_counts_written (c : Capi.CounterSnapshot) :
  CapiSpec.counters_ok c → parse_counts (write_counts c) = Ok (counts_of c).
Proof.
  intros Hc. pose proof (count_values_ok c Hc) as Hv. unfold parse_counts, write_counts.
  rewrite filter_lines by done.
  destruct (parse_count_lines (count_values c) ∅ Hv) as (m & E & Hm & _).
  - apply (bool_decide_unpack _). vm_compute. exact I.
  - intros k _. apply lookup_empty.
  - rewrite E. cbn [mbind result_bind].
    assert (Hall : Forall (λ v, m !! v.1 = Some v.2) (count_values c)).
    { apply Forall_forall. intros [k x] Hk. by apply Hm. }
    unfold count_values in Hall. rewrite !Forall_cons in Hall. cbn [fst snd] in Hall.
    destruct Hall as (-> & -> & -> & -> & -> & -> & -> & -> & -> & -> & -> & -> & -> & -> & _). done.
Qed.

(** The counts file is read back as it was written.  For all counter values the
    parser of the reporting tool accepts the file [write_counts] produces and returns
    exactly its counters. *)
Theorem counts_roundtrip (c : Capi.CounterSnapshot) :
  CapiSpec.counters_ok c → parse_counts (write_counts c) = Ok (counts_of c).
Proof. apply parse_counts_written. Qed.

End Counts_file.

(** ** The graph file *)

Module Cfg_file.

(** A line of words. *)
Definition words_line (l : list Z) : Prop := ∃ ws, ws ≠ [] ∧ Forall is_word ws ∧ l = join ws.

Lemma join_nonempty ws : ws ≠ [] → Forall is_word ws → join ws ≠ [].
Proof.
  intros Hne Hws. destruct Hws as [|w ws [Hw _] Hws]; [done|]. destruct ws; [done|].
  rewrite join_cons by done. by destruct w.
Qed.

Lemma filter_trim_lines ls :
  Forall words_line ls → filter (λ line, line ≠ []) (map trim (lines (unlines ls))) = ls.
Proof.
  intros Hls. rewrite lines_unlines.
  - induction Hls as [|l ls (ws & Hne & Hws & ->) Hls IH]; [done|]. cbn [map].
    rewrite trim_join, filter_cons_True, IH by (done || by apply join_nonempty). done.
  - eapply Forall_impl; [exact Hls|]. intros l (ws & _ & Hws & ->). by apply join_line.
Qed.

(** A line whose first letter is not that of the version line. *)
Lemma parse_line_fields p k c ws :
  chars k = c :: tail (chars k) → c ≠ 109 → Forall is_word (chars k :: ws) →
  parse_line p (join (chars k :: ws)) = parse_fields (join (chars k :: ws)) (chars k :: ws) p.
Proof.
  intros Hk Hc Hws. unfold parse_line. rewrite split_join by done.
  assert (Hs : strip_prefix (chars "miniperf-qemu-cfg=") (join (chars k :: ws)) = None); [|by rewrite Hs].
  assert (Hj : ∃ l, join (chars k :: ws) = c :: l).
  { destruct ws; cbn [join]; rewrite Hk; by eexists. }
  destruct Hj as [l ->]. change (strip_prefix _ _) with (if 109 =? c then strip_prefix (tail (chars "miniperf-qemu-cfg=")) l else None).
  by rewrite (proj2 (Z.eqb_neq _ _)) by congruence.
Qed.

Lemma keyword_word k : (if decide (chars k = []) then false else forallb (λ c, negb (is_whitespace c)) (chars k)) = true → is_word (chars k).
Proof. intros H. case_decide; [done|]. by apply chars_word. Qed.

Ltac words := repeat (apply Forall_cons; split); try apply Forall_nil_2;
  try first [apply show_hex_word | apply show_word | apply keyword_word; vm_compute; reflexivity].

Ltac words_line := match goal with
  |- words_line ?l => unfold cache_line, image_line, entry_line, block_line, thread_line; eexists; split; [|split; [|reflexivity]]; [done|words]
  end.

(** ** Steps of the line loop *)

Definition set_entries (e : gset Z) (c : DynamicCfgCapture) : DynamicCfgCapture :=
  mkCapture (image c) (cache c) e (edges c) (blocks c).
Definition set_edges (e : gmap (Z * Z) Z) (c : DynamicCfgCapture) : DynamicCfgCapture :=
  mkCapture (image c) (cache c) (entries c) e (blocks c).
Definition set_blocks (b : gmap Z BlockCounts) (c : DynamicCfgCapture) : DynamicCfgCapture :=
  mkCapture (image c) (cache c) (entries c) (edges c) b.

Lemma entry_step p a :
  in_u64 a → a ∉ entries (capture p) →
  parse_line p (entry_line a) = Ok (with_capture (set_entries ({[a]} ∪ entries (capture p)) (capture p)) p).
Proof.
  intros Ha Hn. unfold entry_line. rewrite (parse_line_fields _ _ 101) by (done || words).
  unfold parse_fields. rewrite bool_decide_true by done. unfold parse_entry.
  rewrite parse_address_show by done. cbn [mbind result_bind]. by rewrite bool_decide_false.
Qed.

Lemma edge_step p f t n :
  in_u64 f → in_u64 t → in_u64 n → n ≠ 0 → edges (capture p) !! (f, t) = None →
  parse_line p (edge_line (f, t, n)) = Ok (with_capture (set_edges (<[(f, t) := n]> (edges (capture p))) (capture p)) p).
Proof.
  intros Hf Ht Hn Hz Hm. unfold edge_line. rewrite (parse_line_fields _ _ 101) by (done || words).
  unfold parse_fields. rewrite bool_decide_false, bool_decide_true by done. unfold parse_edge.
  rewrite !parse_address_show by done. cbn [mbind result_bind]. rewrite parse_decimal_show by done.
  cbn [mbind result_bind]. rewrite (proj2 (Z.eqb_neq _ _)) by done. by rewrite Hm.
Qed.

Lemma thread_step p a t n :
  in_u64 a → in_u32 t → in_u64 n → n ≠ 0 →
  parse_line p (thread_line a (t, n)) = Ok (mkParse (capture p) (version_seen p) (thread_blocks p ++ [(a, t, n)])).
Proof.
  intros Ha Ht Hn Hz. unfold thread_line. cbn [fst snd]. rewrite (parse_line_fields _ _ 116) by (done || words).
  unfold parse_fields. rewrite !bool_decide_false, bool_decide_true by done. unfold parse_tblock.
  rewrite (parse_decimal_show n) by done. cbn [mbind result_bind]. rewrite (proj2 (Z.eqb_neq _ _)) by done.
  rewrite parse_address_show by done. cbn [mbind result_bind]. rewrite parse_decimal_show by word_lia.
  cbn [mbind result_bind]. by rewrite (proj2 (Z.ltb_ge _ _)) by word_lia.
Qed.

(** A block as the reporting tool keeps it, with the given threads. *)
Definition block_with (ts : list (Z * Z)) (c : Cfg.DynamicBlockCounts) : BlockCounts :=
  mkBlock (Cfg.b_end_vaddr c) (Cfg.executions c) (Cfg.scalar_int c) (Cfg.scalar_float c)
    (Cfg.scalar_double c) (Cfg.vector_int c) (Cfg.vector_float c) (Cfg.vector_double c)
    (Cfg.bytes_load c) (Cfg.bytes_store c) (Cfg.arch_bytes_load c) (Cfg.arch_bytes_store c)
    (Cfg.unclassified c) ts.
Definition block_of (c : Cfg.DynamicBlockCounts) : BlockCounts := block_with (Cfg.threads c) c.

Lemma block_step p a c :
  in_u64 a → Cfg.counts_ok c → Cfg.executions c ≠ 0 → a < Cfg.b_end_vaddr c → blocks (capture p) !! a = None →
  parse_line p (block_line a c) = Ok (with_capture (set_blocks (<[a := block_with [] c]> (blocks (capture p))) (capture p)) p).
Proof.
  intros Ha [] Hx Hr Hm. unfold block_line. rewrite (parse_line_fields _ _ 98) by (done || words).
  unfold parse_fields. rewrite bool_decide_true by done. unfold parse_block.
  rewrite !parse_address_show by done. cbn [mbind result_bind].
  repeat (rewrite parse_decimal_show by done; cbn [mbind result_bind]).
  rewrite (proj2 (Z.eqb_neq _ _)), (proj2 (Z.leb_gt _ _)) by done. by rewrite Hm.
Qed.

(** ** Folds over the sections of the file *)

Lemma entries_fold l p :
  Forall in_u64 l → NoDup l → (∀ a, a ∈ l → a ∉ entries (capture p)) →
  fold_result parse_line (entry_line <$> l) p =
  Ok (with_capture (set_entries (list_to_set l ∪ entries (capture p)) (capture p)) p).
Proof.
  intros Hl; revert p; induction Hl as [|a l Ha Hl IH]; intros p Hnd Hd; cbn [fmap list_fmap fold_result list_to_set].
  { rewrite union_empty_l_L. by destruct p as [[] ? ?]. }
  apply NoDup_cons in Hnd as [Hn Hnd]. rewrite entry_step by (done || apply Hd; left).
  cbn [mbind result_bind]. rewrite IH; [|done|].
  - cbn -[list_to_set]. unfold set_entries. cbn -[list_to_set].
    by replace (list_to_set l ∪ ({[a]} ∪ entries (capture p)))
      with ({[a]} ∪ list_to_set l ∪ entries (capture p)) by set_solver.
  - intros b Hb. cbn. rewrite elem_of_union, elem_of_singleton. intros [->|Hin]; [done|]. by apply (Hd b); [right|].
Qed.

Lemma edges_fold l p :
  Forall (λ e, (in_u64 e.1.1 ∧ in_u64 e.1.2) ∧ in_u64 e.2 ∧ e.2 ≠ 0) l → NoDup l.*1 →
  (∀ k, k ∈ l.*1 → edges (capture p) !! k = None) →
  fold_result parse_line (edge_line <$> l) p =
  Ok (with_capture (set_edges (list_to_map l ∪ edges (capture p)) (capture p)) p).
Proof.
  intros Hl; revert p; induction Hl as [|[[f t] n] l [[Hf Ht] [Hn Hz]] Hl IH]; intros p Hnd Hd;
    cbn [fmap list_fmap fold_result list_to_map].
  { change (list_to_map []) with (∅ : gmap (Z * Z) Z). rewrite map_empty_union. by destruct p as [[] ? ?]. }
  cbn [fst snd] in *. apply NoDup_cons in Hnd as [Hnin Hnd]. rewrite edge_step by (done || apply Hd; left).
  cbn [mbind result_bind]. rewrite IH; [|done|].
  - cbn -[list_to_map]. unfold set_edges. cbn -[list_to_map].
    rewrite list_to_map_cons, <-insert_union_l, <-insert_union_r; [done|]. by apply not_elem_of_list_to_map_1.
  - intros k Hk. cbn. rewrite lookup_insert_ne by (intros <-; done). apply Hd. by right.
Qed.

Definition tagged (a : Z) (t : Z * Z) : Z * Z * Z := (a, t.1, t.2).

Lemma threads_fold a ts p :
  in_u64 a → Forall (λ t, in_u32 t.1 ∧ in_u64 t.2 ∧ t.2 ≠ 0) ts →
  fold_result parse_line (thread_line a <$> ts) p =
  Ok (mkParse (capture p) (version_seen p) (thread_blocks p ++ (tagged a <$> ts))).
Proof.
  intros Ha Hts; revert p; induction Hts as [|[t n] ts (Ht & Hn & Hz) Hts IH]; intros p; cbn [fmap list_fmap fold_result].
  { rewrite app_nil_r. by destruct p. }
  rewrite thread_step by done. cbn [mbind result_bind]. rewrite IH. cbn. by rewrite <-app_assoc.
Qed.

(** A block the parser accepts. *)
Record block_fine (a : Z) (c : Cfg.DynamicBlockCounts) : Prop := {
  bf_address : in_u64 a;
  bf_counts : Cfg.counts_ok c;
  bf_executed : Cfg.executions c ≠ 0;
  bf_range : a < Cfg.b_end_vaddr c;
  bf_threads : Forall (λ t, in_u32 t.1 ∧ in_u64 t.2 ∧ t.2 ≠ 0) (Cfg.threads c);
  bf_distinct : NoDup (Cfg.threads c).*1;
  bf_sum : Cfg.thread_sum (Cfg.threads c) ≤ Cfg.executions c
}.

Definition bare (b : Z * Cfg.DynamicBlockCounts) : Z * BlockCounts := (b.1, block_with [] b.2).
Definition block_threads (b : Z * Cfg.DynamicBlockCounts) : list (Z * Z * Z) := tagged b.1 <$> Cfg.threads b.2.

Lemma blocks_fold l p :
  Forall (λ b, block_fine b.1 b.2) l → NoDup l.*1 → (∀ a, a ∈ l.*1 → blocks (capture p) !! a = None) →
  fold_result parse_line (concat (block_lines <$> l)) p =
  Ok (mkParse (set_blocks (list_to_map (bare <$> l) ∪ blocks (capture p)) (capture p)) (version_seen p)
        (thread_blocks p ++ concat (block_threads <$> l))).
Proof.
  intros Hl; revert p; induction Hl as [|[a c] l Hb Hl IH]; intros p Hnd Hd; cbn [fmap list_fmap concat].
  { change (list_to_map []) with (∅ : gmap Z BlockCounts). rewrite map_empty_union, app_nil_r. by destruct p as [[] ? ?]. }
  cbn [fst snd] in *. apply NoDup_cons in Hnd as [Hnin Hnd]. destruct Hb.
  change (block_lines (a, c)) with (block_line a c :: (thread_line a <$> Cfg.threads c)).
  cbn [app fold_result]. rewrite block_step by (done || apply Hd; left). cbn [mbind result_bind].
  rewrite fold_result_app, threads_fold by done. cbn [mbind result_bind]. rewrite IH; [|done|].
  - cbn -[list_to_map]. unfold set_blocks. cbn -[list_to_map]. rewrite <-app_assoc.
    change (bare (a, c)) with (a, block_with [] c). rewrite list_to_map_cons, <-insert_union_l, <-insert_union_r; [done|]. apply not_elem_of_list_to_map_1.
    by rewrite <-list_fmap_compose.
  - intros b Hb. cbn. rewrite lookup_insert_ne by (intros <-; done). apply Hd. by right.
Qed.

(** ** The thread counts, attached to their blocks *)

Lemma thread_sum_app ts us : Cfg.thread_sum (ts ++ us) = Cfg.thread_sum ts + Cfg.thread_sum us.
Proof. induction ts as [|[t n] ts IH]; cbn [app Cfg.thread_sum]; [done|]. lia. Qed.

Lemma thread_sum_nonneg ts : Forall (λ t, in_u32 t.1 ∧ in_u64 t.2 ∧ t.2 ≠ 0) ts → 0 ≤ Cfg.thread_sum ts.
Proof.
  induction 1 as [|[t n] ts (_ & Hn & _) Hts IH]; cbn [Cfg.thread_sum]; [done|]. cbn in Hn. word_lia.
Qed.

Lemma sum_u64_threads ts acc :
  Forall (λ t, in_u32 t.1 ∧ in_u64 t.2 ∧ t.2 ≠ 0) ts → 0 ≤ acc → acc + Cfg.thread_sum ts ≤ u64_max →
  fold_left wrapping_add (snd <$> ts) acc = acc + Cfg.thread_sum ts.
Proof.
  intros Hts; revert acc; induction Hts as [|[t n] ts (Ht & Hn & Hz) Hts IH]; intros acc Ha Hs;
    cbn [fmap list_fmap fold_left Cfg.thread_sum] in *; [lia|].
  pose proof (thread_sum_nonneg ts Hts). cbn [snd fst] in *.
  assert (wrapping_add acc n = acc + n) as -> by (unfold wrapping_add; apply wrap64_small; word_lia).
  rewrite IH by word_lia. lia.
Qed.

Lemma attach_block a c pre post m :
  block_fine a c → Cfg.threads c = pre ++ post → m !! a = Some (block_with pre c) →
  fold_result attach_thread (tagged a <$> post) m = Ok (<[a := block_of c]> m).
Proof.
  intros Hb; revert pre m; induction post as [|[t n] post IH]; intros pre m Ht Hm; cbn [fmap list_fmap fold_result].
  { rewrite app_nil_r in Ht. unfold block_of. rewrite Ht. by rewrite insert_id. }
  pose proof Hb as [_ Hc _ _ Hts Hd Hsum]. rewrite Ht in Hts, Hd, Hsum. unfold attach_thread at 2. cbn [tagged fst snd].
  rewrite Hm. cbn [or_err mbind result_bind].
  assert (Hex : existsb (λ x, x.1 =? t) pre = false).
  { apply not_true_is_false. intros Hex. apply existsb_exists in Hex as ([t' n'] & Hin & E). cbn in E.
    apply Z.eqb_eq in E as ->. apply list_elem_of_In in Hin. rewrite fmap_app in Hd. apply NoDup_app in Hd as (_ & Hd & _).
    apply (Hd t); [|left]. by apply (list_elem_of_fmap_2 fst) in Hin. }
  cbn [threads block_with]. rewrite Hex. apply Forall_app in Hts as [Hpre Hpost].
  assert (Hpn : Forall (λ t, in_u32 t.1 ∧ in_u64 t.2 ∧ t.2 ≠ 0) (pre ++ [(t, n)])).
  { apply Forall_app. split; [done|]. apply Forall_cons in Hpost as [? _]. by constructor. }
  assert (Hle : Cfg.thread_sum (pre ++ [(t, n)]) ≤ Cfg.executions c).
  { apply Forall_cons in Hpost as [_ Hpost]. pose proof (thread_sum_nonneg post Hpost).
    rewrite thread_sum_app in *. cbn [Cfg.thread_sum] in *. lia. }
  pose proof (Cfg.ok_exec _ Hc) as Hx. unfold sum_u64.
  rewrite sum_u64_threads by (done || word_lia). cbn [executions block_with].
  rewrite (proj2 (Z.ltb_ge _ _)) by lia. cbn [mbind result_bind].
  rewrite (IH (pre ++ [(t, n)])).
  - by rewrite insert_insert_eq.
  - by rewrite <-app_assoc.
  - apply lookup_insert_eq.
Qed.

Lemma attach_blocks l m :
  Forall (λ b, block_fine b.1 b.2) l → NoDup l.*1 → (∀ a c, (a, c) ∈ l → m !! a = Some (block_with [] c)) →
  fold_result attach_thread (concat (block_threads <$> l)) m =
  Ok (list_to_map (prod_map id block_of <$> l) ∪ m).
Proof.
  intros Hl; revert m; induction Hl as [|[a c] l Hb Hl IH]; intros m Hnd Hm; cbn [fmap list_fmap concat].
  { change (list_to_map []) with (∅ : gmap Z BlockCounts). by rewrite map_empty_union. }
  cbn [fst snd] in *. apply NoDup_cons in Hnd as [Hnin Hnd]. rewrite fold_result_app.
  change (block_threads (a, c)) with (tagged a <$> Cfg.threads c).
  rewrite (attach_block a c []) by (done || apply Hm; left). cbn [mbind result_bind]. rewrite IH; [|done|].
  - f_equal. change (prod_map id block_of (a, c)) with (a, block_of c). rewrite list_to_map_cons, <-insert_union_l, <-insert_union_r; [done|].
    apply not_elem_of_list_to_map_1. by rewrite <-list_fmap_compose.
  - intros b d Hin. rewrite lookup_insert_ne; [apply Hm; by right|]. intros <-. apply Hnin.
    by apply (list_elem_of_fmap_2 fst) in Hin.
Qed.

(** ** The whole file *)

Record exportable (g : Cfg.DynamicCfg) : Prop := {
  ex_blocks : map_Forall block_fine (Cfg.blocks g);
  ex_some : Cfg.blocks g ≠ ∅;
  ex_entries a : a ∈ Cfg.entries g → is_Some (Cfg.blocks g !! a);
  ex_edges f t n : Cfg.edges g !! (f, t) = Some n →
    in_u64 n ∧ n ≠ 0 ∧ is_Some (Cfg.blocks g !! f) ∧ is_Some (Cfg.blocks g !! t)
}.

Record cache_fine (c : Capi.CacheDescription) : Prop := {
  cf_words : Forall in_u64 [Capi.d_line_size c; Capi.d_capacity c; Capi.d_associativity c];
  cf_power : is_power_of_two (Capi.d_line_size c) = true;
  cf_ways : Capi.d_associativity c ≠ 0;
  cf_capacity : Capi.d_line_size c * Capi.d_associativity c ≤ Capi.d_capacity c
}.

Record image_fine (i : Capi.ImageInfo) : Prop := {
  im_words : Forall in_u64 [Capi.i_start i; Capi.i_end i; Capi.i_entry i];
  im_range : Capi.i_start i < Capi.i_end i
}.

Definition cache_of (c : Capi.CacheDescription) : CacheInfo :=
  mkCache (Capi.d_line_size c) (Capi.d_capacity c) (Capi.d_associativity c).
Definition image_of (i : Capi.ImageInfo) : ImageInfo :=
  mkImage (Capi.i_start i) (Capi.i_end i) (Capi.i_entry i).
Definition capture_of (c : Capi.CacheDescription) (i : Capi.ImageInfo) (g : Cfg.DynamicCfg) : DynamicCfgCapture :=
  mkCapture (Some (image_of i)) (Some (cache_of c)) (Cfg.entries g) (Cfg.edges g) (block_of <$> Cfg.blocks g).

Lemma cache_step p c :
  cache_fine c → cache (capture p) = None →
  parse_line p (cache_line c) = Ok (with_capture (mkCapture (image (capture p)) (Some (cache_of c))
    (entries (capture p)) (edges (capture p)) (blocks (capture p))) p).
Proof.
  intros [Hw Hp Hz Hc] Hn. rewrite !Forall_cons in Hw. destruct Hw as (H1 & H2 & H3 & _).
  unfold cache_line. rewrite (parse_line_fields _ _ 99) by (done || words).
  unfold parse_fields. rewrite bool_decide_true by done. rewrite orb_comm, bool_decide_true by done. cbn [andb orb].
  unfold parse_cache. rewrite Hn, bool_decide_false by (by intros [? ?]).
  repeat (rewrite parse_decimal_show by done; cbn [mbind result_bind]). rewrite Hp.
  rewrite (proj2 (Z.eqb_neq _ _)) by done. unfold wrapping_mul. rewrite wrap64_small.
  - by rewrite (proj2 (Z.ltb_ge _ _)) by lia.
  - apply is_power_of_two_pos in Hp. unfold in_u64 in *. nia.
Qed.

Lemma image_step p i :
  image_fine i → image (capture p) = None →
  parse_line p (image_line i) = Ok (with_capture (mkCapture (Some (image_of i)) (cache (capture p))
    (entries (capture p)) (edges (capture p)) (blocks (capture p))) p).
Proof.
  intros [Hw Hr] Hn. rewrite !Forall_cons in Hw. destruct Hw as (H1 & H2 & H3 & _).
  unfold image_line. rewrite (parse_line_fields _ _ 105) by (done || words).
  unfold parse_fields. rewrite bool_decide_true by done. unfold parse_image.
  rewrite Hn, bool_decide_false by (by intros [? ?]). rewrite !parse_address_show by done. cbn [mbind result_bind].
  by rewrite (proj2 (Z.leb_gt _ _)) by done.
Qed.

Lemma version_step p :
  version_seen p = false → parse_line p (chars "miniperf-qemu-cfg=5") = Ok (mkParse (capture p) true (thread_blocks p)).
Proof.
  intros Hv. unfold parse_line. change (strip_prefix _ _) with (Some (chars "5")). cbn iota. unfold parse_version.
  rewrite Hv. by rewrite (bool_decide_true (chars "5" = chars "5")), andb_false_r by done.
Qed.

(** The sections of the file, sorted. *)
Lemma sorted_blocks_perm m : sorted_blocks m ≡ₚ map_to_list m.
Proof. apply merge_sort_Permutation. Qed.
Lemma sorted_edges_perm m : sorted_edges m ≡ₚ map_to_list m.
Proof. apply merge_sort_Permutation. Qed.
Lemma sorted_entries_perm s : sorted_entries s ≡ₚ elements s.
Proof. apply merge_sort_Permutation. Qed.

Lemma sorted_blocks_fmap {A} (f : Cfg.DynamicBlockCounts → A) m :
  list_to_map (prod_map id f <$> sorted_blocks m) =@{gmap Z A} f <$> m.
Proof.
  rewrite <-(list_to_map_to_list (f <$> m)). apply list_to_map_proper.
  - rewrite <-list_fmap_compose. erewrite list_fmap_ext; [|intros i [? ?] _; reflexivity].
    rewrite sorted_blocks_perm. apply NoDup_fst_map_to_list.
  - rewrite map_to_list_fmap. by rewrite sorted_blocks_perm.
Qed.

Lemma known_fold m l :
  (∀ a, a ∈ l → is_Some (m !! a)) → fold_result (λ _, check_known m) l tt = Ok tt.
Proof.
  induction l as [|a l IH]; intros Hl; [done|]. cbn [fold_result]. unfold check_known.
  destruct (Hl a ltac:(left)) as [b ->]. cbn [mbind result_bind]. apply IH. intros c Hc. apply Hl. by right.
Qed.

Lemma file_lines c i g :
  Forall words_line ([chars "miniperf-qemu-cfg=5"; cache_line c; image_line i] ++
    (entry_line <$> sorted_entries (Cfg.entries g)) ++ (edge_line <$> sorted_edges (Cfg.edges g)) ++
    concat (block_lines <$> sorted_blocks (Cfg.blocks g))).
Proof.
  repeat (apply Forall_app; split).
  - repeat (apply Forall_cons; split); try apply Forall_nil_2; try words_line.
    exists [chars "miniperf-qemu-cfg=5"]. split_and!; [done|words|done].
  - apply Forall_fmap, Forall_true. intros a. change (words_line (entry_line a)). words_line.
  - apply Forall_fmap, Forall_true. intros [[f t] n]. change (words_line (edge_line (f, t, n))). unfold edge_line.
    eexists; split_and!; [| |reflexivity]; [done|words].
  - apply Forall_concat, Forall_fmap, Forall_true. intros [a b]. change (Forall words_line (block_lines (a, b))).
    unfold block_lines. constructor; [words_line|].
    apply Forall_fmap, Forall_true. intros [t n]. change (words_line (thread_line a (t, n))). words_line.
Qed.

Lemma sections_fold c i g :
  cache_fine c → image_fine i → exportable g →
  fold_result parse_line ([chars "miniperf-qemu-cfg=5"; cache_line c; image_line i] ++
    (entry_line <$> sorted_entries (Cfg.entries g)) ++ (edge_line <$> sorted_edges (Cfg.edges g)) ++
    concat (block_lines <$> sorted_blocks (Cfg.blocks g))) (mkParse default_capture false []) =
  Ok (mkParse (mkCapture (Some (image_of i)) (Some (cache_of c)) (Cfg.entries g) (Cfg.edges g)
       (block_with [] <$> Cfg.blocks g)) true (concat (block_threads <$> sorted_blocks (Cfg.blocks g)))).
Proof.
  intros Hc Hi [Hb _ Hen Hed]. rewrite fold_result_app. cbn [fold_result].
  rewrite version_step by done. cbn [mbind result_bind]. rewrite cache_step by done. cbn [mbind result_bind].
  rewrite image_step by done. cbn [mbind result_bind].
  assert (Haddr : ∀ a, is_Some (Cfg.blocks g !! a) → in_u64 a) by (intros a [b E]; apply (bf_address _ _ (Hb a b E))).
  rewrite fold_result_app, entries_fold.
  2: { apply Forall_forall. intros a Ha. rewrite sorted_entries_perm, elem_of_elements in Ha. by apply Haddr, Hen. }
  2: { rewrite sorted_entries_perm. apply NoDup_elements. }
  2: { intros a _. cbn. set_solver. }
  cbn [mbind result_bind]. rewrite fold_result_app, edges_fold.
  2: { apply Forall_forall. intros [[f t] n] He. rewrite sorted_edges_perm in He. apply elem_of_map_to_list in He.
       destruct (Hed f t n He) as (Hn & Hz & Hf & Ht). cbn. split_and!; [by apply Haddr|by apply Haddr|done|done]. }
  2: { rewrite sorted_edges_perm. apply NoDup_fst_map_to_list. }
  2: { intros k _. cbn. apply lookup_empty. }
  cbn [mbind result_bind]. rewrite blocks_fold.
  2: { apply Forall_forall. intros [a b] He. rewrite sorted_blocks_perm in He. apply elem_of_map_to_list in He. by apply Hb. }
  2: { rewrite sorted_blocks_perm. apply NoDup_fst_map_to_list. }
  2: { intros a _. cbn. apply lookup_empty. }
  cbn -[list_to_map list_to_set sorted_entries sorted_edges sorted_blocks concat].
  unfold set_blocks, set_edges, set_entries. cbn -[list_to_map list_to_set sorted_entries sorted_edges sorted_blocks concat].
  rewrite !map_union_empty, union_empty_r_L.
  assert (list_to_set (sorted_entries (Cfg.entries g)) = Cfg.entries g) as ->.
  { apply set_eq. intros a. by rewrite elem_of_list_to_set, sorted_entries_perm, elem_of_elements. }
  assert (list_to_map (sorted_edges (Cfg.edges g)) = Cfg.edges g) as ->.
  { rewrite <-(list_to_map_to_list (Cfg.edges g)) at 2. apply list_to_map_proper; [|apply sorted_edges_perm].
    rewrite sorted_edges_perm. apply NoDup_fst_map_to_list. }
  assert (Hbare : bare <$> sorted_blocks (Cfg.blocks g) = prod_map id (block_with []) <$> sorted_blocks (Cfg.blocks g))
    by (apply list_fmap_ext; by intros ? [? ?] _).
  by rewrite Hbare, sorted_blocks_fmap.
Qed.

Lemma attached g :
  exportable g →
  fold_result attach_thread (concat (block_threads <$> sorted_blocks (Cfg.blocks g))) (block_with [] <$> Cfg.blocks g) =
  Ok (block_of <$> Cfg.blocks g).
Proof.
  intros [Hb _ _ _]. rewrite attach_blocks.
  - f_equal. rewrite sorted_blocks_fmap. apply map_eq. intros a. rewrite lookup_union, !lookup_fmap.
    by destruct (Cfg.blocks g !! a).
  - apply Forall_forall. intros [a b] He. rewrite sorted_blocks_perm in He. apply elem_of_map_to_list in He. by apply Hb.
  - rewrite sorted_blocks_perm. apply NoDup_fst_map_to_list.
  - intros a b He. rewrite sorted_blocks_perm in He. apply elem_of_map_to_list in He. by rewrite lookup_fmap, He.
Qed.

Lemma parse_written c i g :
  cache_fine c → image_fine i → exportable g →
  parse_dynamic_cfg (write_cfg (Some c) (Some i) g) = Ok (capture_of c i g).
Proof.
  intros Hc Hi Hg. unfold parse_dynamic_cfg, write_cfg.
  pose proof (filter_trim_lines _ (file_lines c i g)) as Hlines. pose proof (sections_fold c i g Hc Hi Hg) as Hs.
  cbn [app] in Hlines, Hs. cbn [app option_line]. rewrite Hlines, Hs.
  cbn [mbind result_bind version_seen capture blocks image cache thread_blocks negb entries edges].
  rewrite bool_decide_false by (rewrite fmap_empty_iff; apply Hg). cbn iota.
  rewrite attached by done. cbn [mbind result_bind]. rewrite known_fold; [done|].
  intros a Ha. rewrite lookup_fmap, fmap_is_Some. destruct Hg as [_ _ Hen Hed]. unfold referenced in Ha.
  cbn [entries edges] in Ha. apply elem_of_app in Ha as [Ha|Ha].
  - rewrite sorted_entries_perm, elem_of_elements in Ha. by apply Hen.
  - apply list_elem_of_In, in_concat in Ha as (l & Hl & Ha). apply list_elem_of_In, list_elem_of_fmap in Hl as ([[f t] n] & -> & He).
    rewrite sorted_edges_perm in He. apply elem_of_map_to_list in He. destruct (Hed f t n He) as (_ & _ & Hf & Ht).
    destruct Ha as [<-|[<-|[]]]; done.
Qed.

(** The graph file is read back as it was written.  For every graph in which each
    block ran, has a forward address range and per-thread counts that do not exceed its
    executions, and whose entries and edges end at blocks, the parser of the reporting
    tool accepts the file [write_cfg] produces and recovers the cache geometry, the image,
    the entries, the edges with their counts and every counter of every block. *)
Theorem cfg_roundtrip (c : Capi.CacheDescription) (i : Capi.ImageInfo) (g : Cfg.DynamicCfg) :
  cache_fine c → image_fine i → exportable g →
  parse_dynamic_cfg (write_cfg (Some c) (Some i) g) = Ok (capture_of c i g).
Proof. apply parse_written. Qed.

End Cfg_file.

(** ** From a session to the report *)

Module Pipeline.
Import Counts_file Cfg_file Traces.

(** Sums of a counter over blocks, saturating as they go or once at the end. *)
Definition sum_of (f : BlockCounts → Z) (bs : list BlockCounts) : Z := foldr (λ b acc, f b + acc) 0 bs.

(** A counter that [add_block] adds up. *)
Definition summed (f : BlockCounts → Z) : Prop :=
  f default_block = 0 ∧ ∀ t b, f (add_block t b) = saturating_add (f t) (f b).

Lemma sum_blocks_from f bs t :
  summed f → Forall (λ b, 0 ≤ f b) bs → 0 ≤ f t ≤ u64_max →
  f (fold_left add_block bs t) = Z.min (f t + sum_of f bs) u64_max.
Proof.
  intros [_ Hf] Hbs; revert t; induction Hbs as [|b bs Hb Hbs IH]; intros t Ht; cbn [fold_left sum_of foldr]; [lia|].
  change (foldr _ 0 bs) with (sum_of f bs).
  assert (0 ≤ sum_of f bs) by (clear -Hbs; induction Hbs; cbn [sum_of foldr]; [done|]; unfold sum_of in *; lia).
  rewrite IH; rewrite Hf; word_lia.
Qed.

Lemma sum_blocks_min f bs :
  summed f → Forall (λ b, 0 ≤ f b) bs → f (sum_blocks bs) = Z.min (sum_of f bs) u64_max.
Proof.
  intros Hf Hbs. unfold sum_blocks. rewrite sum_blocks_from; [by rewrite (proj1 Hf)|done|done|].
  rewrite (proj1 Hf). word_lia.
Qed.

Lemma sum_of_perm f l k : l ≡ₚ k → sum_of f l = sum_of f k.
Proof. intros H. induction H; cbn [sum_of foldr]; unfold sum_of in *; lia. Qed.

Lemma map_fold_sum (f : Cfg.DynamicBlockCounts → Z) (m : gmap Z Cfg.DynamicBlockCounts) :
  map_fold (λ _ b acc, f b + acc) 0 m = foldr (λ b acc, f b + acc) 0 (map_to_list m).*2.
Proof.
  rewrite map_fold_foldr. induction (map_to_list m) as [|[a b] l IH]; [done|]. cbn. by rewrite IH.
Qed.

Lemma sum_of_blocks (f : BlockCounts → Z) (h : Cfg.DynamicBlockCounts → Z) g :
  (∀ b, f (block_of b) = h b) → sum_of f (sorted_values (block_of <$> Cfg.blocks g)) = Accounting.total h g.
Proof.
  intros Hfh. unfold Accounting.total. rewrite map_fold_sum.
  assert (Hp : sorted_values (block_of <$> Cfg.blocks g) ≡ₚ block_of <$> (map_to_list (Cfg.blocks g)).*2).
  { unfold sorted_values. rewrite merge_sort_Permutation, map_to_list_fmap, <-!list_fmap_compose. done. }
  rewrite (sum_of_perm f _ _ Hp). clear Hp. induction (map_to_list (Cfg.blocks g)).*2 as [|b l IH]; [done|].
  change (f (block_of b) + sum_of f (block_of <$> l) = h b + foldr (λ b acc, h b + acc) 0 l). by rewrite Hfh, IH.
Qed.

Lemma summed_blocks (f : BlockCounts → Z) (h : Cfg.DynamicBlockCounts → Z) g :
  summed f → (∀ b, f (block_of b) = h b) → (∀ b, Cfg.counts_ok b → 0 ≤ h b) → Cfg.cfg_ok g →
  f (sum_blocks (sorted_values (block_of <$> Cfg.blocks g))) = Z.min (Accounting.total h g) u64_max.
Proof.
  intros Hf Hfh Hpos [Hg _]. rewrite sum_blocks_min; [by rewrite (sum_of_blocks f h)|done|].
  apply Forall_forall. intros b Hb. unfold sorted_values in Hb. rewrite merge_sort_Permutation in Hb.
  apply list_elem_of_fmap in Hb as ([a b'] & -> & Hb). apply elem_of_map_to_list in Hb.
  rewrite lookup_fmap in Hb. apply fmap_Some in Hb as (b0 & E & ->). cbn. rewrite Hfh. apply Hpos. exact (Hg _ _ E).
Qed.

Lemma sum_blocks_fixed bs : end_ (sum_blocks bs) = 0 ∧ threads (sum_blocks bs) = [].
Proof.
  unfold sum_blocks. assert (H : ∀ t, end_ (fold_left add_block bs t) = end_ t ∧
    threads (fold_left add_block bs t) = threads t); [|apply H].
  induction bs as [|b bs IH]; intros t; [done|]. cbn [fold_left]. destruct (IH (add_block t b)) as [-> ->]. done.
Qed.

Ltac block_field := intros ? []; unfold in_u64 in *; lia.

(** The totals of a balanced session pass the check. *)
Lemma validate_balanced k g c i dirty :
  Accounting.balanced k g → Cfg.cfg_ok g → 0 ≤ dirty →
  validate_cfg_totals (capture_of c i g)
    (counts_of (Capi.add_dram (Cache.mkTraffic 0 dirty) k)) = Ok tt.
Proof.
  intros Hb Hg Hd. unfold Accounting.balanced, Accounting.views in Hb. rewrite !Forall_cons in Hb.
  unfold Accounting.balanced_view in Hb. cbn [Accounting.of_counters Accounting.of_block] in Hb.
  destruct Hb as (B1 & B2 & B3 & B4 & B5 & B6 & B7 & B8 & B9 & B10 & B11 & _).
  set (bs := sorted_values (block_of <$> Cfg.blocks g)). destruct (sum_blocks_fixed bs) as [Hend Hthr].
  assert (Hsum : ∀ f h, summed f → (∀ b, f (block_of b) = h b) → (∀ b, Cfg.counts_ok b → 0 ≤ h b) →
    f (sum_blocks bs) = Z.min (Accounting.total h g) u64_max)
    by (intros f h Hf Hfh Hp; by apply summed_blocks).
  pose proof (Hsum bytes_store Cfg.bytes_store ltac:(done) ltac:(done) ltac:(block_field)) as Hst.
  unfold validate_cfg_totals. cbn [blocks capture_of]. fold bs.
  rewrite Hend, Hthr, (Hsum scalar_int_ops Cfg.scalar_int), (Hsum scalar_float_ops Cfg.scalar_float),
    (Hsum scalar_double_ops Cfg.scalar_double), (Hsum vector_int_ops Cfg.vector_int),
    (Hsum vector_float_ops Cfg.vector_float), (Hsum vector_double_ops Cfg.vector_double),
    (Hsum bytes_load Cfg.bytes_load), (Hsum arch_bytes_load Cfg.arch_bytes_load),
    (Hsum arch_bytes_store Cfg.arch_bytes_store), (Hsum unclassified_instructions Cfg.unclassified), Hst
    by (done || block_field).
  rewrite <-B1, <-B2, <-B3, <-B4, <-B5, <-B6, <-B7, <-B8, <-B9, <-B10, <-B11.
  unfold counts_of. cbn -[saturating_add].
  assert (saturating_add (Capi.dram_bytes_load k) 0 = Capi.dram_bytes_load k) as ->
    by (rewrite B9; unfold saturating_add; lia).
  rewrite bool_decide_true by done. rewrite (proj2 (Z.leb_le _ _)); [done|].
  unfold saturating_add. rewrite B10. lia.
Qed.

(** The graph of a session the calls of which name no block that did not run. *)
Lemma traced_exportable s l :
  Accounting.accounted s → Traces.traced s l → executed l ≠ ∅ → mentioned l ⊆ executed l → 2 * runs l ≤ u64_max →
  exportable (Capi.cfg s).
Proof.
  intros [Hok _ _] Ht Hne Hsub Hr. destruct (Traces.tr_graph _ _ Ht Hr) as [_ [Hen Hed _ _] [Hk Hx Hth]].
  assert (Hran : ∀ a, a ∈ executed l → is_Some (Cfg.blocks (Capi.cfg s) !! a)).
  { intros a Ha. destruct (Hx a Ha) as (_ & b & -> & _). by eexists. }
  split.
  - intros a b Hb. assert (Ha : a ∈ executed l) by (destruct (Hk a b Hb); set_solver).
    destruct (Hx a Ha) as (Hu & b' & Hb' & He & Hend). rewrite Hb in Hb'. injection Hb' as <-.
    destruct (Hth a b Hb) as [_ (Hnd & Hts & Hsum)]. pose proof (proj1 (CapiSpec.ok_cfg _ Hok) a b Hb) as Hc.
    split; [done|done|lia|done| |done|done].
    pose proof (Cfg.ok_threads _ Hc) as Hw. apply Forall_forall. intros t Hin.
    rewrite Forall_forall in Hts, Hw. destruct (Hts t Hin). specialize (Hw t Hin). split_and!; [done|done|lia].
  - intros E. destruct (set_choose_L _ Hne) as [a Ha]. destruct (Hran a Ha) as [b Hb]. by rewrite E, lookup_empty in Hb.
  - intros a Ha. by apply Hran, Hen.
  - intros f t n He. destruct (Hed f t n He) as (Hn & Hf & Htt). split_and!; [unfold in_u64; lia|lia|by apply Hran|].
    apply Hran. set_solver.
Qed.

Lemma traced_cache s l : Accounting.accounted s → Traces.traced s l → cache_fine (Capi.f_cache (Capi.finalize s)).
Proof.
  intros [Hok _ _] Ht. destruct (Traces.tr_cache _ _ Ht) as (Hp & Ha & Hlow & Hhigh).
  pose proof (Cache.geo_line_two _ (Cache.wf_geometry _ (CapiSpec.ok_cache _ Hok))).
  split; cbn; [|done|lia|done]. repeat (apply Forall_cons; split); [..|by apply Forall_nil]; unfold in_u64; nia.
Qed.

(** C14: What a session writes, the report accepts.  Take any sequence of the calls of the
    plugin interface, with blocks that end after they start, a non-empty image and a cache
    size that is a machine word, and at most [2^63 - 1] block executions.  If at least one block
    ran, and every block that an operand, a vector operation, an unclassified instruction or
    a counted successor named also ran, then the counts and the graph that [rc_finalize]
    writes are parsed without error, the parser recovers exactly the session's counters,
    cache geometry, image and graph, and they pass the cross-check of the reporting tool:
    the per-block counters add up to the process totals, with the dirty lines flushed at
    exit the only bytes no block owns. *)
Theorem artifacts_accepted (s : Capi.Inner) (l : Ledger) (i : Capi.ImageInfo) :
  session s l → executed l ≠ ∅ → mentioned l ⊆ executed l → 2 * runs l ≤ u64_max → Capi.image s = Some i →
  let f := Capi.finalize s in
  let counts := counts_of (Capi.f_counters f) in
  let capture := capture_of (Capi.f_cache f) i (Capi.cfg s) in
  parse_counts (write_counts (Capi.f_counters f)) = Ok counts ∧
  parse_dynamic_cfg (write_cfg (Some (Capi.f_cache f)) (Capi.f_image f) (Capi.f_cfg f)) = Ok capture ∧
  validate_cfg_totals capture counts = Ok tt.
Proof.
  intros Hs Hne Hsub Hr Hi f counts capture.
  pose proof (Accounting.reachable_accounted s (session_reachable s l Hs)) as Hacc.
  pose proof (session_traced s l Hs) as Ht. pose proof (traced_exportable s l Hacc Ht Hne Hsub Hr) as Hg.
  pose proof (traced_cache s l Hacc Ht) as Hc. destruct (tr_image _ _ Ht i Hi) as [Hw Hrng].
  destruct Hacc as [Hok _ Hbal].
  set (dirty := saturating_mul (Cache.count_dirty (Cache.lines (Capi.cache s))) (Cache.line_size (Capi.cache s))).
  assert (Hf : Capi.f_counters f = Capi.add_dram (Cache.mkTraffic 0 dirty) (Capi.counters s)) by done.
  assert (Hd : in_u64 dirty).
  { pose proof (Cache.geo_line_two _ (Cache.wf_geometry _ (CapiSpec.ok_cache _ Hok))).
    unfold dirty, Cache.count_dirty. word_lia || (unfold in_u64, saturating_mul; split; [|lia]; nia). }
  split_and!.
  - apply parse_counts_written. rewrite Hf. apply CapiSpec.add_dram_ok; [|apply Hok].
    by split; cbn; [word_lia|].
  - assert (Capi.f_image f = Some i) as -> by exact Hi. by apply parse_written.
  - unfold counts. rewrite Hf. apply validate_balanced; [done|apply Hok|apply Hd].
Qed.

(** ** An example session *)

Definition empty_session : Capi.Inner := Capi.sample_inner.
Definition session0 : Capi.Inner :=
  default empty_session (Capi.rc_session_new (Some "run.counts"%string) 64 4096 2 0).
Definition session1 : Capi.Inner := default empty_session
  (Capi.rc_block_exec (Some session0) 3 1024 1056 Capi.RC_FLOW_NORMAL (Some (Capi.mkRcCost 2 0 1 0 0 0)) 5).
Definition session2 : Capi.Inner := default empty_session
  (Capi.rc_session_set_image (Some session1) 1000 2000 1024).
Definition example_image : Capi.ImageInfo := Capi.mkImage 1000 2000 1024.
Definition example_block : Cfg.DynamicBlockCounts :=
  Cfg.mkCounts 1056 1 2 0 1 0 0 0 0 0 0 0 0 [(3, 1)].

Ltac in_words := repeat constructor; vm_compute; congruence.

Lemma example_exportable : exportable (Capi.cfg session2).
Proof.
  assert (Hb : Cfg.blocks (Capi.cfg session2) = {[1024 := example_block]}) by (vm_compute; reflexivity).
  assert (He : Cfg.edges (Capi.cfg session2) = ∅) by (vm_compute; reflexivity).
  assert (Hn : Cfg.entries (Capi.cfg session2) = {[1024]}) by (vm_compute; reflexivity).
  split; rewrite ?Hb.
  - apply map_Forall_singleton. split; cbn.
    + word_lia.
    + split; cbn; try word_lia. apply Forall_cons; split; [cbn; word_lia|constructor].
    + lia.
    + lia.
    + apply Forall_cons; split; [cbn; split_and!; [word_lia|word_lia|lia]|constructor].
    + apply NoDup_singleton.
    + lia.
  - apply insert_non_empty.
  - intros a. rewrite Hn, elem_of_singleton. intros ->. by rewrite lookup_singleton_eq.
  - intros f t n. by rewrite He, lookup_empty.
Qed.

Lemma example_image_fine : image_fine example_image.
Proof. split; [in_words|reflexivity]. Qed.

Lemma example_cache_fine : cache_fine (Capi.f_cache (Capi.finalize session2)).
Proof. split; [in_words|reflexivity|discriminate|vm_compute; congruence]. Qed.

(** A second run: a registered block with an operand, a batch of two executions with the
    operand's address, and three counted executions with a successor. *)
Definition run1 : Capi.Inner := default empty_session
  (Capi.rc_register_block (Some session2) 1280 1312 Capi.RC_FLOW_NORMAL (Some (Capi.mkRcCost 1 0 0 0 0 0)) 4 8 0).2.
Definition run2 : Capi.Inner := default empty_session (Capi.rc_register_mem (Some run1) 1280 8 1).2.
Definition run3 : Capi.Inner :=
  match Capi.rc_process_batch (Some run2) 3 (Some [Capi.mkRecord 0 0; Capi.mkRecord 1 4096; Capi.mkRecord 0 0]) with
  | Done (Some s) => s
  | _ => empty_session
  end.
Definition run4 : Capi.Inner := default empty_session (Capi.rc_counted_block (Some run3) 0 3 1024 0 1).
Definition run4_ledger : Ledger :=
  counted run3 0 3 1024 0 1
    (fold_left (event run2) [Capi.mkRecord 0 0; Capi.mkRecord 1 4096; Capi.mkRecord 0 0]
       (ran 1024 1 (mkLedger ∅ ∅ 0))).

Lemma run4_session : session run4 run4_ledger.
Proof.
  apply (ses_counted run3); [|in_words|vm_compute; reflexivity].
  apply (ses_batch run2 _ 3); [|in_words|vm_compute; congruence|vm_compute; reflexivity].
  apply (ses_register_mem run1 _ 1280 8 1); [|in_words|discriminate|vm_compute; reflexivity].
  apply (ses_register_block session2 _ 1280 1312 Capi.RC_FLOW_NORMAL (Capi.mkRcCost 1 0 0 0 0 0) 4 8 0);
    [|in_words|in_words|reflexivity|vm_compute; reflexivity].
  apply (ses_image session1 _ 1000 2000 1024); [|in_words|reflexivity|vm_compute; reflexivity].
  apply (ses_block session0 _ 3 1024 1056 Capi.RC_FLOW_NORMAL (Capi.mkRcCost 2 0 1 0 0 0) 5);
    [|in_words|in_words|reflexivity|vm_compute; reflexivity].
  apply (ses_new "run.counts" 64 4096 2 0); [vm_compute; intuition congruence..|vm_compute; reflexivity].
Qed.

Lemma artifacts_accepted_witness :
  let f := Capi.finalize run4 in
  let capture := capture_of (Capi.f_cache f) example_image (Capi.cfg run4) in
  edges capture = {[(1280, 1024) := 3; (1280, 1280) := 1; (1024, 1280) := 1]} ∧
  parse_dynamic_cfg (write_cfg (Some (Capi.f_cache f)) (Capi.f_image f) (Capi.f_cfg f)) = Ok capture ∧
  validate_cfg_totals capture (counts_of (Capi.f_counters f)) = Ok tt.
Proof.
  destruct (artifacts_accepted run4 run4_ledger example_image run4_session) as (_ & H1 & H2).
  - apply (bool_decide_unpack _). vm_compute. exact I.
  - apply (bool_decide_unpack _). vm_compute. exact I.
  - vm_compute. congruence.
  - reflexivity.
  - split; [vm_compute; reflexivity|]. split; [exact H1|exact H2].
Defined.

Lemma cfg_roundtrip_witness :
  parse_dynamic_cfg (write_cfg (Some (Capi.f_cache (Capi.finalize session2))) (Some example_image)
    (Capi.cfg session2)) =
  Ok (capture_of (Capi.f_cache (Capi.finalize session2)) example_image (Capi.cfg session2)).
Proof. exact (cfg_roundtrip _ _ _ example_cache_fine example_image_fine example_exportable). Defined.

Lemma counts_roundtrip_witness :
  parse_counts (write_counts (Capi.mkCounters 1 2 3 4 5 6 7 8 9 18446744073709551615 0 0 12 true)) =
  Ok (mkCounts 12 1 2 3 4 5 6 7 8 9 18446744073709551615 0 0 1).
Proof.
  apply (counts_roundtrip (Capi.mkCounters 1 2 3 4 5 6 7 8 9 18446744073709551615 0 0 12 true)).
  split; vm_compute; split; congruence.
Defined.

End Pipeline.
