(* ===== verification/Plan.v ===== *)
(** * Planning of the sampling groups

    Models [libprof/src/driver/perf/plan.rs]: the counters of a request are packed into
    perf groups for one PMU, by formula membership and PMU capacity, and the sampling
    frequency of a group; with the parts of [libprof/src/lib.rs] and
    [libprof/src/topdown.rs] it reads (counter names, the software counters, the
    top-down events).

    The CPU families are generated from event tables; the planner reads three fields of
    them, which are the record [CPUFamily]. *)

From S2P Require Import Prelude Words.
Open Scope nat_scope.

Module Plan.

(** ** Counters *)

Inductive Counter : Type :=
| Cycles
| Instructions
| LLCReferences
| LLCMisses
| BranchInstructions
| BranchMisses
| StalledCyclesFrontend
| StalledCyclesBackend
| CpuClock
| PageFaults
| ContextSwitches
| CpuMigrations
| Custom (name : string)
| Internal (name desc : string) (code : Z).
#[export] Instance Counter_eq_dec : EqDecision Counter.
Proof. solve_decision. Defined.

Definition counter_name (c : Counter) : string :=
  match c with
  | Cycles => "cycles"
  | Instructions => "instructions"
  | LLCReferences => "llc_references"
  | LLCMisses => "llc_misses"
  | BranchInstructions => "branches"
  | BranchMisses => "branch_misses"
  | StalledCyclesFrontend => "stalled_cycles_frontend"
  | StalledCyclesBackend => "stalled_cycles_backend"
  | CpuClock => "cpu_clock"
  | PageFaults => "page_faults"
  | ContextSwitches => "context_switches"
  | CpuMigrations => "cpu_migrations"
  | Custom name => name
  | Internal name _ _ => name
  end.

Definition is_software (c : Counter) : bool :=
  match c with CpuClock | PageFaults | ContextSwitches | CpuMigrations => true | _ => false end.

Definition GROUP_LEADER : string := "slots".
Definition is_perf_metrics_event (name : string) : bool := String.prefix "topdown_" name.

(** ** Inputs and outputs *)

Record CPUFamily : Type := mkFamily {
  max_counters : option nat;
  leader_event : option string;
  aliases : gmap string string
}.

Record Group : Type := mkGroup { events : list Counter; sampled : nat }.

Record TooWide : Type := mkTooWide { wide_events : list string; available : nat }.

(** ** Helpers of the planner *)

Definition resolved_event (family : option CPUFamily) (c : Counter) : string :=
  default (counter_name c) (family ≫= λ f, aliases f !! counter_name c).

Definition is_slots (c : Counter) : bool :=
  match c with Custom name => bool_decide (name = GROUP_LEADER) | _ => false end.

Definition is_fixed_topdown (c : Counter) : bool :=
  match c with
  | Custom name => bool_decide (name = GROUP_LEADER) || is_perf_metrics_event name
  | _ => false
  end.

(** The first counter of each PMU event: the filter with the set of events seen. *)
Fixpoint unique_events (family : option CPUFamily) (seen : gset string) (cs : list Counter) : list Counter :=
  match cs with
  | [] => []
  | c :: cs =>
      let e := resolved_event family c in
      if decide (e ∈ seen) then unique_events family seen cs
      else c :: unique_events family ({[e]} ∪ seen) cs
  end.

(** [events[..=k].rotate_right(1)]. *)
Definition rotate_to_front (k : nat) (cs : list Counter) : list Counter :=
  match cs !! k with Some c => c :: take k cs ++ drop (S k) cs | None => cs end.

(** [iter().position(p)]. *)
Fixpoint position_of (p : Counter → bool) (cs : list Counter) : option nat :=
  match cs with
  | [] => None
  | c :: cs => if p c then Some 0 else S <$> position_of p cs
  end.

Definition choose_leader (family : option CPUFamily) (unique : list Counter) : option Counter :=
  leader ← (family ≫= leader_event);
  let c := default (Custom leader) (head (filter (λ c, resolved_event family c = leader) unique)) in
  if decide (c = Cycles) then None else Some c.

Definition base_events (leader : option Counter) (unique : list Counter) : list Counter :=
  option_list leader ++ [Cycles] ++ (if bool_decide (Instructions ∈ unique) then [Instructions] else []).

Definition capacity_of (stated : option nat) (leader : option Counter) (reserved : nat) : nat :=
  Nat.max 1 (default (match leader with Some _ => 2 | None => 3 end) stated - reserved).

(** ** The sets of events formulas tie together *)

(** The indices of the members of a formula among the hardware events. *)
Definition member_indices (family : option CPUFamily) (hardware set : list Counter) : list nat :=
  omap (λ c, position_of (λ d, bool_decide (resolved_event family d = resolved_event family c)) hardware) set.

(** Every slot of the set [merged] joins the set [target]. *)
Definition merge_slot (target merged : nat) (set_of : list nat) : list nat :=
  (λ slot, if slot =? merged then target else slot) <$> set_of.

(** The loop over the members; each is read from the current state. *)
Fixpoint merge_members (target : nat) (members : list nat) (set_of : list nat) : outcome (list nat) :=
  match members with
  | [] => Done set_of
  | m :: members =>
      merged ← unwrap (set_of !! m);
      merge_members target members (merge_slot target merged set_of)
  end.

(** [iter().min()]. *)
Definition min_list (l : list nat) : option nat :=
  match l with [] => None | x :: l => Some (foldl Nat.min x l) end.

Definition union_set (family : option CPUFamily) (hardware set : list Counter) (set_of : list nat)
    : outcome (list nat) :=
  let members := member_indices family hardware set in
  slots ← unwrap (mapM (λ m, set_of !! m) members);
  match min_list slots with
  | None => Done set_of
  | Some target => merge_members target members set_of
  end.

Fixpoint union_sets (family : option CPUFamily) (hardware : list Counter) (co : list (list Counter))
    (set_of : list nat) : outcome (list nat) :=
  match co with
  | [] => Done set_of
  | set :: co => set_of ← union_set family hardware set set_of; union_sets family hardware co set_of
  end.

(** [Ok] or the set that is too wide. *)
Inductive planned (A : Type) : Type :=
| Planned (a : A)
| Refused (e : TooWide).
#[global] Arguments Planned {A} _.
#[global] Arguments Refused {A} _.

(** The members of the set with the lowest index [index]. *)
Definition set_members (set_of : list nat) (n index : nat) : list nat :=
  filter (λ m, set_of !! m = Some index) (seq index (n - index)).

(** Hardware counters a list of events takes. *)
Definition cost_of (cs : list Counter) : nat := length (filter (λ c, is_fixed_topdown c = false) cs).

Fixpoint make_sets (hardware : list Counter) (stated : option nat) (capacity : nat) (set_of : list nat)
    (indices : list nat) : outcome (planned (list (nat * list nat))) :=
  match indices with
  | [] => Done (Planned [])
  | index :: indices =>
      slot ← unwrap (set_of !! index);
      if negb (slot =? index) then make_sets hardware stated capacity set_of indices
      else
        let members := set_members set_of (length hardware) index in
        counters ← unwrap (mapM (λ m, hardware !! m) members);
        let cost := cost_of counters in
        if (capacity <? cost) && bool_decide (is_Some stated)
        then Done (Refused (mkTooWide (map counter_name counters) capacity))
        else
          rest ← make_sets hardware stated capacity set_of indices;
          Done (match rest with
                | Planned sets => Planned ((cost, members) :: sets)
                | Refused e => Refused e
                end)
  end.

(** [sort_by_key(Reverse(cost))], stable: an element goes before those that came later
    and do not cost more. *)
Fixpoint insert_set (x : nat * list nat) (l : list (nat * list nat)) : list (nat * list nat) :=
  match l with
  | [] => [x]
  | y :: l => if y.1 <=? x.1 then x :: y :: l else y :: insert_set x l
  end.
Definition sort_sets (l : list (nat * list nat)) : list (nat * list nat) := foldr insert_set [] l.

(** ** First fit *)

Fixpoint place (capacity : nat) (x : nat * list nat) (bins : list (nat * list nat)) : list (nat * list nat) :=
  match bins with
  | [] => [x]
  | (used, bin) :: bins =>
      if used + x.1 <=? capacity then (used + x.1, bin ++ x.2) :: bins
      else (used, bin) :: place capacity x bins
  end.

Definition pack (capacity : nat) (sets : list (nat * list nat)) : list (nat * list nat) :=
  let bins := foldl (λ bins x, place capacity x bins) [] sets in
  match bins with [] => [(0, [])] | _ => bins end.

(** ** Groups *)

Definition lead_with_slots (cs : list Counter) : Group :=
  match position_of is_slots cs with
  | Some slots =>
      let cs := rotate_to_front slots cs in
      mkGroup cs (default 0 (position_of (λ c, bool_decide (c = Cycles)) cs))
  | None => mkGroup cs 0
  end.

Definition make_group (base hardware : list Counter) (members : list nat) (software : list Counter)
    : outcome Group :=
  cs ← unwrap (mapM (λ m, hardware !! m) (merge_sort le members));
  Done (lead_with_slots (base ++ cs ++ software)).

(** The software events go to the first group. *)
Fixpoint make_groups (base hardware : list Counter) (bins : list (nat * list nat)) (software : list Counter)
    : outcome (list Group) :=
  match bins with
  | [] => Done []
  | (_, members) :: bins =>
      g ← make_group base hardware members software;
      gs ← make_groups base hardware bins [];
      Done (g :: gs)
  end.

Definition plan (family : option CPUFamily) (reserved : nat) (counters : list Counter)
    (co_scheduled : list (list Counter)) : outcome (planned (list Group)) :=
  let unique := unique_events family ∅ counters in
  if bool_decide (unique = []) then Done (Planned [])
  else if negb (bool_decide (Cycles ∈ unique)) then
    let cs := match position_of (λ c, bool_decide (c = CpuClock)) unique with
              | Some clock => rotate_to_front clock unique
              | None => unique
              end in
    Done (Planned [mkGroup cs 0])
  else
    let leader := choose_leader family unique in
    let base := base_events leader unique in
    let others := filter (λ c, c ∉ base) unique in
    let software := filter (λ c, is_software c = true) others in
    let hardware := filter (λ c, is_software c = false) others in
    let stated := family ≫= max_counters in
    let capacity := capacity_of stated leader reserved in
    set_of ← union_sets family hardware co_scheduled (seq 0 (length hardware));
    sets ← make_sets hardware stated capacity set_of (seq 0 (length hardware));
    match sets with
    | Refused e => Done (Refused e)
    | Planned sets =>
        groups ← make_groups base hardware (pack capacity (sort_sets sets)) software;
        Done (Planned groups)
    end.

(** [u64] arithmetic wraps in a release build. *)
Definition group_sample_freq (requested groups : Z) (max_rate : option Z) : Z :=
  match max_rate with
  | None => requested
  | Some max_rate =>
      let groups := Z.max groups 1 in
      let budget := Z.max (wrapping_mul max_rate 4 / 5 / groups) 1 in
      Z.min requested budget
  end.

End Plan.
