(* ===== verification/PlanSpec.v ===== *)
(** * The sampling plan keeps its rules

    The theorems about [Plan.v]: planning never fails but for a set the stated capacity
    cannot hold; every hardware event opens in exactly one group; the events of a formula
    share a group; groups respect the capacity; [slots] leads its group. *)

From S2P Require Import Prelude Words Plan.
Open Scope nat_scope.
Import Plan.

Module Sets.

(** ** Representatives

    Every event's slot is the lowest index of its set, and that index names itself. *)
Record reps (n : nat) (set_of : list nat) : Prop := {
  rp_length : length set_of = n;
  rp_le i r : set_of !! i = Some r → r ≤ i;
  rp_self i r : set_of !! i = Some r → set_of !! r = Some r
}.

Lemma reps_start n : reps n (seq 0 n).
Proof.
  split; [apply length_seq|..]; intros i r Hi; apply lookup_seq in Hi as [-> Hi]; [lia|].
  rewrite lookup_seq_lt by lia. f_equal; lia.
Qed.

Lemma merge_slot_lookup t m so i :
  merge_slot t m so !! i = (λ s, if s =? m then t else s) <$> so !! i.
Proof. apply list_lookup_fmap. Qed.

Lemma merge_slot_reps n t m so :
  reps n so → so !! t = Some t → t ≤ m → reps n (merge_slot t m so).
Proof.
  intros [Hl Hle Hs] Ht Htm. split; [by rewrite <-Hl; apply length_fmap|..]; intros i r;
    rewrite merge_slot_lookup, fmap_Some; intros (s & Hi & ->).
  - destruct (Nat.eqb_spec s m) as [->|]; [|by apply Hle]. apply Hle in Hi. lia.
  - rewrite merge_slot_lookup. destruct (Nat.eqb_spec s m) as [->|Hne].
    + rewrite Ht. cbn. destruct (Nat.eqb_spec t m); done.
    + rewrite (Hs _ _ Hi). cbn. by rewrite (proj2 (Nat.eqb_neq _ _)).
Qed.

(** Two events that share a slot still do after a merge. *)
Lemma merge_slot_same t m so i j :
  so !! i = so !! j → merge_slot t m so !! i = merge_slot t m so !! j.
Proof. intros E. by rewrite !merge_slot_lookup, E. Qed.

Lemma merge_members_spec n t ms so :
  reps n so → so !! t = Some t → (∀ m, m ∈ ms → ∃ r, so !! m = Some r ∧ t ≤ r) →
  ∃ so', merge_members t ms so = Done so' ∧ reps n so' ∧ (∀ m, m ∈ ms → so' !! m = Some t) ∧
    (∀ i j, so !! i = so !! j → so' !! i = so' !! j) ∧ (∀ i, so !! i = Some t → so' !! i = Some t).
Proof.
  revert so; induction ms as [|m ms IH]; intros so Hr Ht Hms; cbn [merge_members].
  { exists so. split_and!; [done|done| |done|done]. intros m Hm. by apply not_elem_of_nil in Hm. }
  destruct (Hms m ltac:(left)) as (r & Hm & Hle). rewrite Hm. cbn [unwrap mbind outcome_bind].
  assert (Hkeep : ∀ i, so !! i = Some t → merge_slot t r so !! i = Some t).
  { intros i Hi. rewrite merge_slot_lookup, Hi. cbn. by destruct (t =? r). }
  destruct (IH (merge_slot t r so)) as (so' & E & Hr' & Hin & Hsame & Hk).
  - by apply merge_slot_reps.
  - by apply Hkeep.
  - intros k Hk. destruct (Hms k ltac:(by right)) as (s & Hs & Hts). rewrite merge_slot_lookup, Hs. cbn.
    eexists; split; [done|]. destruct (s =? r); lia.
  - exists so'. split_and!; [done|done| | |].
    + intros k Hk'. apply elem_of_cons in Hk' as [->|Hk']; [|by apply Hin]. apply Hk.
      rewrite merge_slot_lookup, Hm. cbn. by rewrite Nat.eqb_refl.
    + intros i j Hij. apply Hsame. by apply merge_slot_same.
    + intros i Hi. by apply Hk, Hkeep.
Qed.

Lemma foldl_min_spec x l : foldl Nat.min x l ∈ x :: l ∧ ∀ y, y ∈ x :: l → foldl Nat.min x l ≤ y.
Proof.
  revert x; induction l as [|z l IH]; intros x; cbn [foldl].
  { split; [left|]. intros y Hy. apply elem_of_cons in Hy as [->|Hy]; [done|by apply not_elem_of_nil in Hy]. }
  destruct (IH (Nat.min x z)) as [Hin Hle]. split.
  - apply elem_of_cons in Hin as [->|Hin]; [|by do 2 right].
    destruct (Nat.min_spec x z) as [[_ ->]|[_ ->]]; [left|right; left].
  - intros y Hy. apply elem_of_cons in Hy as [->|Hy].
    + etransitivity; [apply Hle; left|]. lia.
    + apply elem_of_cons in Hy as [->|Hy].
      * etransitivity; [apply Hle; left|]. lia.
      * apply Hle. by right.
Qed.

Lemma mapM_lookup_total {A} (l : list A) ms :
  (∀ m, m ∈ ms → m < length l) → ∃ xs, mapM (λ m, l !! m) ms = Some xs ∧ Forall2 (λ m x, l !! m = Some x) ms xs.
Proof.
  induction ms as [|m ms IH]; intros Hms; [by exists []; split; [|constructor]|].
  destruct (lookup_lt_is_Some_2 l m (Hms m ltac:(left))) as [x Hx].
  destruct IH as (xs & E & Hxs); [intros k Hk; apply Hms; by right|].
  exists (x :: xs). cbn [mapM]. rewrite Hx. cbn [mbind option_bind]. rewrite E. split; [done|by constructor].
Qed.

(** ** A formula's events end in one set *)

Section formulas.
Context (family : option CPUFamily) (hardware : list Counter).
Let n := length hardware.

Lemma position_of_lt p cs i : position_of p cs = Some i → i < length cs.
Proof.
  revert i; induction cs as [|c cs IH]; intros i; cbn [position_of]; [done|]. destruct (p c).
  - intros [= <-]. cbn. lia.
  - intros (k & Hk & ->)%fmap_Some. apply IH in Hk. cbn. lia.
Qed.

Lemma member_lt set m : m ∈ member_indices family hardware set → m < n.
Proof. intros (c & _ & Hp)%list_elem_of_omap. by apply position_of_lt in Hp. Qed.

Lemma union_set_spec set so :
  reps n so → ∃ so', union_set family hardware set so = Done so' ∧ reps n so' ∧
    (∀ a b, a ∈ member_indices family hardware set → b ∈ member_indices family hardware set → so' !! a = so' !! b) ∧
    (∀ i j, so !! i = so !! j → so' !! i = so' !! j).
Proof.
  intros Hr. unfold union_set. set (ms := member_indices family hardware set).
  destruct (mapM_lookup_total so ms) as (slots & -> & Hslots).
  { intros m Hm. rewrite (rp_length _ _ Hr). by eapply member_lt. }
  cbn [unwrap mbind outcome_bind]. destruct slots as [|r slots].
  { apply Forall2_nil_inv_r in Hslots. exists so. split_and!; [done|done| |done].
    intros a b Ha. rewrite Hslots in Ha. by apply not_elem_of_nil in Ha. }
  cbn [min_list]. destruct (foldl_min_spec r slots) as [Hin Hle]. set (t := foldl Nat.min r slots) in *.
  assert (Ht : so !! t = Some t).
  { apply list_elem_of_lookup in Hin as [k Hk]. destruct (Forall2_lookup_r _ _ _ _ _ Hslots Hk) as (m0 & _ & Hm0).
    by apply (rp_self _ _ Hr) in Hm0. }
  destruct (merge_members_spec n t ms so Hr Ht) as (so' & E & Hr' & Hmem & Hsame & _).
  { intros k Hk. apply list_elem_of_lookup in Hk as [j Hj]. destruct (Forall2_lookup_l _ _ _ _ _ Hslots Hj) as (x & Hx & Hkx).
    exists x. split; [done|]. apply Hle. by eapply list_elem_of_lookup_2. }
  exists so'. split_and!; [done|done| |done]. intros a b Ha Hb. by rewrite (Hmem a Ha), (Hmem b Hb).
Qed.

Lemma union_sets_spec co so :
  reps n so → ∃ so', union_sets family hardware co so = Done so' ∧ reps n so' ∧
    (∀ set a b, set ∈ co → a ∈ member_indices family hardware set → b ∈ member_indices family hardware set →
       so' !! a = so' !! b) ∧
    (∀ i j, so !! i = so !! j → so' !! i = so' !! j).
Proof.
  revert so; induction co as [|set co IH]; intros so Hr; cbn [union_sets].
  { exists so. split_and!; [done|done| |done]. intros set a b Hs. by apply not_elem_of_nil in Hs. }
  destruct (union_set_spec set so Hr) as (so1 & -> & Hr1 & Hin1 & Hs1). cbn [mbind outcome_bind].
  destruct (IH so1 Hr1) as (so2 & E & Hr2 & Hin2 & Hs2). exists so2. split_and!; [done|done| |].
  - intros s a b Hs Ha Hb. apply elem_of_cons in Hs as [->|Hs]; [|by eapply Hin2]. by apply Hs2, Hin1.
  - intros i j Hij. by apply Hs2, Hs1.
Qed.

End formulas.
End Sets.

Module Packing.
Import Sets.

(** ** The sets partition the hardware events *)

Lemma partition_perm {A} (f : A → nat) (rs : list nat) (l : list A) :
  NoDup rs → (∀ x, x ∈ l → f x ∈ rs) → concat ((λ r, filter (λ x, f x = r) l) <$> rs) ≡ₚ l.
Proof.
  intros Hnd; revert l; induction Hnd as [|r rs Hr Hnd IH]; intros l Hl; cbn [fmap list_fmap concat].
  { destruct l as [|x l]; [done|]. specialize (Hl x ltac:(left)). by apply not_elem_of_nil in Hl. }
  assert (E : (λ r0, filter (λ x, f x = r0) l) <$> rs =
    (λ r0, filter (λ x, f x = r0) (filter (λ x, f x ≠ r) l)) <$> rs).
  { apply list_fmap_ext. intros k r0 Hk. rewrite list_filter_filter. apply list_filter_iff. intros x. split; [|tauto].
    intros <-. split; [done|]. intros E. apply Hr. rewrite <-E. by eapply list_elem_of_lookup_2. }
  rewrite E, IH.
  - clear. induction l as [|x l IH]; [done|]. rewrite !filter_cons. destruct (decide (f x = r)).
    + rewrite decide_False by tauto. cbn. by rewrite IH.
    + rewrite decide_True by done. by rewrite <-Permutation_middle, IH.
  - intros x Hx. apply list_elem_of_filter in Hx as [Hne Hx]. apply Hl in Hx. apply elem_of_cons in Hx as [?|?]; done.
Qed.

Lemma filter_ext_in {A} (P Q : A → Prop) `{∀ x, Decision (P x)} `{∀ x, Decision (Q x)} (l : list A) :
  (∀ x, x ∈ l → P x ↔ Q x) → filter P l = filter Q l.
Proof.
  induction l as [|x l IH]; intros HPQ; [done|]. rewrite !filter_cons, IH by (intros y Hy; apply HPQ; by right).
  apply decide_ext. apply HPQ. left.
Qed.

Lemma filter_empty {A} (P : A → Prop) `{∀ x, Decision (P x)} (l : list A) :
  (∀ x, x ∈ l → ¬ P x) → filter P l = [].
Proof.
  induction l as [|x l IH]; intros HP; [done|]. rewrite filter_cons_False by (apply HP; left).
  apply IH. intros y Hy. apply HP. by right.
Qed.

Definition leaders (n : nat) (so : list nat) : list nat := filter (λ i, so !! i = Some i) (seq 0 n).

Lemma set_members_all n so r :
  reps n so → r ≤ n → set_members so n r = filter (λ m, so !!! m = r) (seq 0 n).
Proof.
  intros [Hl Hle Hs] Hr. unfold set_members.
  assert (Hlk : ∀ m, m < n → so !! m = Some (so !!! m)) by (intros m Hm; apply list_lookup_lookup_total_lt; lia).
  replace (seq 0 n) with (seq 0 r ++ seq r (n - r)) by (rewrite <-seq_app; f_equal; lia).
  rewrite filter_app, (filter_empty _ (seq 0 r)); cbn [app].
  - apply filter_ext_in. intros m Hm. apply elem_of_seq in Hm. rewrite Hlk by lia. split; congruence.
  - intros m Hm E. apply elem_of_seq in Hm. pose proof (Hlk m ltac:(lia)) as Hm'. apply Hle in Hm'. lia.
Qed.

Lemma sets_partition n so :
  reps n so → concat (set_members so n <$> leaders n so) ≡ₚ seq 0 n.
Proof.
  intros Hr. etransitivity; [|apply (partition_perm (λ m, so !!! m) (leaders n so) (seq 0 n))].
  - apply Permutation_refl'. f_equal. apply list_fmap_ext. intros i r Hi. apply set_members_all; [done|].
    apply list_elem_of_lookup_2, list_elem_of_filter in Hi as [_ Hi]. apply elem_of_seq in Hi. lia.
  - apply NoDup_filter, NoDup_seq.
  - intros m Hm. apply elem_of_seq in Hm. pose proof Hr as [Hl Hle Hs].
    assert (E : so !! m = Some (so !!! m)) by (apply list_lookup_lookup_total_lt; lia).
    apply list_elem_of_filter. split; [by eapply Hs|]. apply elem_of_seq. apply Hle in E. lia.
Qed.

(** ** The cost of a set *)

Section hardware.
Context (hardware : list Counter).
Let n := length hardware.

Definition at_indices (ms : list nat) : list Counter := omap (λ m, hardware !! m) ms.

Lemma mapM_at ms : (∀ m, m ∈ ms → m < n) → mapM (λ m, hardware !! m) ms = Some (at_indices ms).
Proof.
  intros Hms. destruct (mapM_lookup_total hardware ms Hms) as (xs & -> & Hxs). f_equal. symmetry.
  unfold at_indices. induction Hxs as [|m x ms xs Hm Hxs IH]; [done|]. cbn. rewrite Hm. f_equal. apply IH.
  intros k Hk. apply Hms. by right.
Qed.

Lemma at_indices_perm ms ms' : ms ≡ₚ ms' → at_indices ms ≡ₚ at_indices ms'.
Proof. intros H. unfold at_indices. by rewrite H. Qed.

Lemma at_indices_app ms ms' : at_indices (ms ++ ms') = at_indices ms ++ at_indices ms'.
Proof. apply omap_app. Qed.

Lemma at_indices_concat mss : at_indices (concat mss) = concat (at_indices <$> mss).
Proof. induction mss as [|ms mss IH]; [done|]. cbn. by rewrite at_indices_app, IH. Qed.

Lemma at_indices_seq_from k l : l = drop k hardware → at_indices (seq k (length l)) = l.
Proof.
  revert k; induction l as [|c l IH]; intros k E; [done|]. cbn [length seq].
  assert (Hk : hardware !! k = Some c) by (rewrite <-(Nat.add_0_r k), <-lookup_drop, <-E; done).
  unfold at_indices. cbn. rewrite Hk. f_equal. apply IH. rewrite (drop_S _ _ _ Hk) in E. by injection E as <-.
Qed.

Lemma at_indices_all : at_indices (seq 0 n) = hardware.
Proof. by apply at_indices_seq_from. Qed.

Lemma cost_of_app a b : cost_of (a ++ b) = cost_of a + cost_of b.
Proof. unfold cost_of. by rewrite filter_app, length_app. Qed.

Lemma cost_of_perm a b : a ≡ₚ b → cost_of a = cost_of b.
Proof. intros H. unfold cost_of. by rewrite H. Qed.

(** A set of the plan: its members and their cost. *)
Definition costed (x : nat * list nat) : Prop := x.1 = cost_of (at_indices x.2) ∧ ∀ m, m ∈ x.2 → m < n.

Lemma set_members_lt so r m : m ∈ set_members so n r → m < n.
Proof. intros Hm. unfold set_members in Hm. apply list_elem_of_filter in Hm as [_ Hm]. apply elem_of_seq in Hm. lia. Qed.

Lemma make_sets_spec stated capacity so indices :
  reps n so → (∀ i, i ∈ indices → i < n) →
  (∃ sets, make_sets hardware stated capacity so indices = Done (Planned sets) ∧
    sets.*2 = set_members so n <$> filter (λ i, so !! i = Some i) indices ∧
    Forall costed sets ∧ (is_Some stated → Forall (λ x, x.1 ≤ capacity) sets)) ∨
  (∃ r, r ∈ indices ∧ is_Some stated ∧ capacity < cost_of (at_indices (set_members so n r)) ∧
    make_sets hardware stated capacity so indices =
    Done (Refused (mkTooWide (counter_name <$> at_indices (set_members so n r)) capacity))).
Proof.
  intros Hr; induction indices as [|i is' IH]; intros Hi; cbn [make_sets].
  { left. exists []. split_and!; [done|done|constructor|constructor]. }
  destruct IH as [(sets & E & Hs & Hc & Hcap)|(r & Hrin & Hst & Hw & E)]; [intros k Hk; apply Hi; by right|..];
    destruct (lookup_lt_is_Some_2 so i) as [s Hsi]; try (rewrite (rp_length _ _ Hr); apply Hi; left);
    rewrite Hsi; cbn [unwrap mbind outcome_bind].
  - destruct (Nat.eqb_spec s i) as [->|Hne]; cbn [negb].
    + fold n. rewrite mapM_at by (intros m; apply set_members_lt). cbn [unwrap mbind outcome_bind].
      destruct ((capacity <? cost_of (at_indices (set_members so n i))) && bool_decide (is_Some stated)) eqn:Ew.
      * right. apply andb_true_iff in Ew as [Ew Es]. apply Nat.ltb_lt in Ew. apply bool_decide_eq_true in Es.
        exists i. split_and!; [left|done|done|done].
      * left. rewrite E. cbn [mbind outcome_bind]. eexists. split; [done|]. split_and!.
        -- rewrite filter_cons_True by done. cbn. by rewrite Hs.
        -- constructor; [|done]. split; [done|]. intros m. apply set_members_lt.
        -- intros Hst. constructor; [|by apply Hcap]. cbn. rewrite bool_decide_true, andb_true_r in Ew by done.
           by apply Nat.ltb_ge in Ew.
    + left. exists sets. rewrite filter_cons_False by congruence. by split_and!.
  - right. destruct (Nat.eqb_spec s i) as [->|Hne]; cbn [negb].
    + fold n. rewrite mapM_at by (intros m; apply set_members_lt). cbn [unwrap mbind outcome_bind].
      destruct ((capacity <? cost_of (at_indices (set_members so n i))) && bool_decide (is_Some stated)) eqn:Ew.
      * apply andb_true_iff in Ew as [Ew Es]. apply Nat.ltb_lt in Ew. exists i. split_and!; [left|done|done|done].
      * exists r. rewrite E. split_and!; [by right|done|done|done].
    + exists r. split_and!; [by right|done|done|done].
Qed.

(** ** First fit *)

Lemma insert_set_perm x l : insert_set x l ≡ₚ x :: l.
Proof.
  induction l as [|y l IH]; [done|]. cbn [insert_set]. destruct (y.1 <=? x.1); [done|].
  rewrite IH. apply Permutation_swap.
Qed.

Lemma sort_sets_perm l : sort_sets l ≡ₚ l.
Proof. induction l as [|x l IH]; [done|]. unfold sort_sets in *. cbn [foldr]. by rewrite insert_set_perm, IH. Qed.

(** A bin is full up to the capacity, or one set too wide for it. *)
Definition bin_ok (capacity : nat) (sets : list (nat * list nat)) (b : nat * list nat) : Prop :=
  costed b ∧ (b.1 ≤ capacity ∨ b ∈ sets).

Lemma place_perm capacity x bins : concat (place capacity x bins).*2 ≡ₚ x.2 ++ concat bins.*2.
Proof.
  induction bins as [|[used bin] bins IH]; cbn [place].
  { cbn. by rewrite app_nil_r. }
  destruct (used + x.1 <=? capacity); cbn.
  - rewrite <-!app_assoc. by rewrite Permutation_app_swap_app.
  - rewrite IH. by rewrite Permutation_app_swap_app.
Qed.

Lemma place_holds capacity x bins (ms : list nat) :
  (∃ b, b ∈ bins ∧ ms ⊆ b.2) ∨ ms ⊆ x.2 → ∃ b, b ∈ place capacity x bins ∧ ms ⊆ b.2.
Proof.
  induction bins as [|[used bin] bins IH]; intros Hms; cbn [place].
  { destruct Hms as [(b & Hb & _)|Hms]; [by apply not_elem_of_nil in Hb|]. exists x. split; [left|done]. }
  destruct (used + x.1 <=? capacity) eqn:E.
  - destruct Hms as [(b & Hb & Hms)|Hms].
    + apply elem_of_cons in Hb as [->|Hb].
      * exists (used + x.1, bin ++ x.2). split; [left|]. cbn in *. set_solver.
      * exists b. split; [by right|done].
    + exists (used + x.1, bin ++ x.2). split; [left|]. cbn. set_solver.
  - destruct Hms as [(b & Hb & Hms)|Hms].
    + apply elem_of_cons in Hb as [->|Hb].
      * exists (used, bin). split; [left|done].
      * destruct IH as (b' & Hb' & Hms'); [left; by exists b|]. exists b'. split; [by right|done].
    + destruct IH as (b' & Hb' & Hms'); [by right|]. exists b'. split; [by right|done].
Qed.

Lemma place_ok capacity sets x bins :
  costed x → x ∈ sets → Forall (bin_ok capacity sets) bins → Forall (bin_ok capacity sets) (place capacity x bins).
Proof.
  intros Hx Hin Hb; induction Hb as [|[used bin] bins [[Hu Hl] Hb] Hbs IH]; cbn [place].
  { constructor; [|constructor]. split; [done|by right]. }
  destruct (Nat.leb_spec (used + x.1) capacity) as [Hle|_].
  - constructor; [|done]. split; [|by left]. destruct Hx as [Hx1 Hx2]. split; cbn [fst snd] in *.
    + by rewrite at_indices_app, cost_of_app, Hu, Hx1.
    + intros m Hm. apply elem_of_app in Hm as [Hm|Hm]; [by apply Hl|by apply Hx2].
  - constructor; [|done]. split; [done|done].
Qed.

Lemma pack_fold capacity sets done_ bins :
  Forall costed sets → Forall (bin_ok capacity (done_ ++ sets)) bins →
  concat bins.*2 ≡ₚ concat done_.*2 → (∀ x, x ∈ done_ → ∃ b, b ∈ bins ∧ x.2 ⊆ b.2) →
  let bins' := foldl (λ bins x, place capacity x bins) bins sets in
  Forall (bin_ok capacity (done_ ++ sets)) bins' ∧ concat bins'.*2 ≡ₚ concat (done_ ++ sets).*2 ∧
  ∀ x, x ∈ done_ ++ sets → ∃ b, b ∈ bins' ∧ x.2 ⊆ b.2.
Proof.
  intros Hc; revert done_ bins; induction Hc as [|x sets Hx Hc IH]; intros done_ bins Hb Hp Hh; cbn [foldl].
  { rewrite app_nil_r in *. done. }
  specialize (IH (done_ ++ [x]) (place capacity x bins)). rewrite <-app_assoc in IH. apply IH.
  - apply place_ok; [done|set_solver|done].
  - rewrite place_perm, Hp, fmap_app, concat_app. cbn. rewrite app_nil_r. apply Permutation_app_comm.
  - intros y Hy. apply place_holds. apply elem_of_app in Hy as [Hy|Hy].
    + left. by apply Hh.
    + right. apply list_elem_of_singleton in Hy as ->. done.
Qed.

Lemma pack_spec capacity sets :
  Forall costed sets →
  Forall (λ b, costed b ∧ (b.1 ≤ capacity ∨ b ∈ sets)) (pack capacity sets) ∧
  concat (pack capacity sets).*2 ≡ₚ concat sets.*2 ∧
  (∀ x, x ∈ sets → ∃ b, b ∈ pack capacity sets ∧ x.2 ⊆ b.2) ∧ pack capacity sets ≠ [].
Proof.
  intros Hc. destruct (pack_fold capacity sets [] [] Hc) as (H1 & H2 & H3); [constructor|done| |].
  { intros x Hx. by apply not_elem_of_nil in Hx. }
  cbn [app] in *. unfold pack. set (bins := foldl _ [] sets) in *. destruct bins as [|b bins]; [|by split_and!].
  split_and!.
  - constructor; [|constructor]. split; [split; [done|]|left; cbn; lia]. intros m Hm. by apply not_elem_of_nil in Hm.
  - cbn in H2 |- *. done.
  - intros x Hx. destruct (H3 x Hx) as (b & Hb & _). by apply not_elem_of_nil in Hb.
  - done.
Qed.

(** ** Groups *)

Lemma rotate_perm k cs : rotate_to_front k cs ≡ₚ cs.
Proof.
  unfold rotate_to_front. destruct (cs !! k) as [c|] eqn:E; [|done].
  rewrite <-(take_drop_middle cs k c E) at 3. by rewrite Permutation_middle.
Qed.

Lemma lead_perm cs : events (lead_with_slots cs) ≡ₚ cs.
Proof. unfold lead_with_slots. destruct (position_of is_slots cs); [apply rotate_perm|done]. Qed.

(** The events of group [i] are the base, its part of the hardware events and, in the first
    group, the software events. *)
Definition group_of (base software part : list Counter) (i : nat) (g : Group) : Prop :=
  ∃ cs, cs ≡ₚ base ++ part ++ (if decide (i = 0) then software else []) ∧ g = lead_with_slots cs ∧ take (length base) cs = base.

Lemma make_group_spec base ms software :
  (∀ m, m ∈ ms → m < n) →
  ∃ cs, make_group base hardware ms software = Done (lead_with_slots (base ++ cs ++ software)) ∧ cs ≡ₚ at_indices ms.
Proof.
  intros Hms. unfold make_group. pose proof (merge_sort_Permutation le ms) as Hp.
  rewrite mapM_at by (intros m; rewrite Hp; apply Hms). cbn [unwrap mbind outcome_bind].
  exists (at_indices (merge_sort le ms)). split; [done|]. by apply at_indices_perm.
Qed.

Lemma make_groups_spec base bins software :
  Forall costed bins →
  ∃ gs, make_groups base hardware bins software = Done gs ∧ length gs = length bins ∧
    ∀ i g b, gs !! i = Some g → bins !! i = Some b →
      group_of base software (at_indices b.2) i g.
Proof.
  intros Hb; revert software; induction Hb as [|[used ms] bins [_ Hms] Hb IH]; intros software; cbn [make_groups].
  { by exists []. }
  destruct (make_group_spec base ms software Hms) as (cs & -> & Hcs). cbn [mbind outcome_bind].
  destruct (IH []) as (gs & -> & Hl & Hgs). cbn [mbind outcome_bind]. eexists. split; [done|].
  split; [cbn; by rewrite Hl|]. intros [|i] g b Hg Hbi; cbn in Hg, Hbi.
  - injection Hg as <-. injection Hbi as <-. eexists. split_and!; [|done|by apply take_app_length].
    rewrite decide_True by done. cbn [snd]. by rewrite Hcs.
  - destruct (Hgs i g b Hg Hbi) as (cs' & Hp & E & Ht). exists cs'. split_and!; [|done|done].
    rewrite Hp. rewrite (decide_False (P := S i = 0)) by done. by destruct (decide (i = 0)).
Qed.

End hardware.
End Packing.

Module Rules.
Import Sets Packing.

(** ** The parts of a request *)

Section request.
Context (family : option CPUFamily) (reserved : nat) (counters : list Counter) (co : list (list Counter)).

Definition requested : list Counter := unique_events family ∅ counters.
Definition leader_of : option Counter := choose_leader family requested.
Definition base_of : list Counter := base_events leader_of requested.
Definition software_of : list Counter :=
  filter (λ c, is_software c = true) (filter (λ c, c ∉ base_of) requested).
Definition hardware_of : list Counter :=
  filter (λ c, is_software c = false) (filter (λ c, c ∉ base_of) requested).
Definition stated_of : option nat := family ≫= max_counters.
Definition room : nat := capacity_of stated_of leader_of reserved.

(** Two hardware events tied by a formula of the request. *)
Definition tied (c d : Counter) : Prop :=
  ∃ set, set ∈ co ∧ (∃ c', c' ∈ set ∧ resolved_event family c' = resolved_event family c) ∧
    (∃ d', d' ∈ set ∧ resolved_event family d' = resolved_event family d).

(** Requested events resolve to different PMU events. *)
Lemma unique_events_NoDup seen cs :
  NoDup (resolved_event family <$> unique_events family seen cs) ∧
  ∀ c, c ∈ unique_events family seen cs → resolved_event family c ∉ seen.
Proof.
  revert seen; induction cs as [|c cs IH]; intros seen; cbn [unique_events].
  { split; [constructor|]. intros c Hc. by apply not_elem_of_nil in Hc. }
  case_decide as Hd; [apply IH|]. destruct (IH ({[resolved_event family c]} ∪ seen)) as [Hnd Hs]. split.
  - cbn [fmap list_fmap]. constructor; [|done]. intros (d & E & Hin)%list_elem_of_fmap. apply Hs in Hin. set_solver.
  - intros d Hin. apply elem_of_cons in Hin as [->|Hin]; [done|]. apply Hs in Hin. set_solver.
Qed.

Lemma NoDup_fmap_filter {A B} (f : A → B) (P : A → Prop) `{∀ x, Decision (P x)} (l : list A) :
  NoDup (f <$> l) → NoDup (f <$> filter P l).
Proof.
  induction l as [|x l IH]; [done|]. cbn [fmap list_fmap]. intros [Hx Hl]%NoDup_cons. rewrite filter_cons.
  destruct (decide (P x)); [|by apply IH]. cbn [fmap list_fmap]. constructor; [|by apply IH].
  intros (y & E & Hy)%list_elem_of_fmap. apply Hx. rewrite E. apply list_elem_of_fmap_2.
  by apply list_elem_of_filter in Hy as [_ ?].
Qed.

Lemma hardware_NoDup : NoDup (resolved_event family <$> hardware_of).
Proof. apply NoDup_fmap_filter, NoDup_fmap_filter. apply unique_events_NoDup. Qed.

(** An event of the request is found at its index. *)
Lemma position_of_event hw i c e :
  NoDup (resolved_event family <$> hw) → hw !! i = Some c → resolved_event family c = e →
  position_of (λ d, bool_decide (resolved_event family d = e)) hw = Some i.
Proof.
  revert i; induction hw as [|d hw IH]; intros i Hnd Hi He; [done|]. cbn [fmap list_fmap] in Hnd.
  apply NoDup_cons in Hnd as [Hd Hnd]. cbn [position_of]. destruct i as [|i]; cbn in Hi.
  - injection Hi as ->. by rewrite bool_decide_true.
  - rewrite bool_decide_false.
    + by rewrite (IH i Hnd Hi He).
    + intros E. apply Hd. rewrite E, <-He. apply list_elem_of_fmap_2. by eapply list_elem_of_lookup_2.
Qed.

Lemma tied_members c d i j :
  tied c d → hardware_of !! i = Some c → hardware_of !! j = Some d →
  ∃ set, set ∈ co ∧ i ∈ member_indices family hardware_of set ∧ j ∈ member_indices family hardware_of set.
Proof.
  intros (set & Hset & (c' & Hc' & Ec) & (d' & Hd' & Ed)) Hi Hj. exists set. split; [done|]. unfold member_indices.
  split; apply list_elem_of_omap; [exists c'|exists d']; (split; [done|]);
    (eapply position_of_event; [apply hardware_NoDup|done|congruence]).
Qed.

(** ** The shape of a plan *)

(** The parts of the hardware events that the groups get. *)
Record plan_shape (groups : list Group) (parts : list (list Counter)) : Prop := {
  ps_length : length groups = length parts;
  ps_all : concat parts ≡ₚ hardware_of;
  ps_group i g part : groups !! i = Some g → parts !! i = Some part → group_of base_of software_of part i g;
  ps_room : is_Some stated_of → Forall (λ part, cost_of part ≤ room) parts;
  ps_tied c d : c ∈ hardware_of → d ∈ hardware_of → tied c d → ∃ part, part ∈ parts ∧ c ∈ part ∧ d ∈ part;
  ps_some : parts ≠ []
}.

Lemma tied_part so (sets bins : list (nat * list nat)) :
  let n := length hardware_of in
  reps n so →
  (∀ set a b, set ∈ co → a ∈ member_indices family hardware_of set → b ∈ member_indices family hardware_of set →
     so !! a = so !! b) →
  sets.*2 = set_members so n <$> filter (λ i, so !! i = Some i) (seq 0 n) →
  (∀ x, x ∈ sets → ∃ b, b ∈ bins ∧ x.2 ⊆ b.2) →
  ∀ c d, c ∈ hardware_of → d ∈ hardware_of → tied c d →
  ∃ part, part ∈ at_indices hardware_of <$> bins.*2 ∧ c ∈ part ∧ d ∈ part.
Proof.
  intros n Hr Htie Hs Hh c d Hci Hdi Htied.
  apply list_elem_of_lookup in Hci as [i Hi]. apply list_elem_of_lookup in Hdi as [j Hj].
  destruct (tied_members c d i j Htied Hi Hj) as (set & Hset & Him & Hjm).
  pose proof (Htie set i j Hset Him Hjm) as Eij.
  assert (Hin : i < n) by (by eapply lookup_lt_Some).
  destruct (lookup_lt_is_Some_2 so i) as [r Hir]; [by rewrite (rp_length _ _ Hr)|].
  assert (Hset2 : set_members so n r ∈ sets.*2).
  { rewrite Hs. apply list_elem_of_fmap_2, list_elem_of_filter. split; [by eapply (rp_self _ _ Hr)|].
    apply elem_of_seq. pose proof (rp_le _ _ Hr _ _ Hir). lia. }
  apply list_elem_of_fmap in Hset2 as (x & Ex & Hx).
  destruct (Hh x Hx) as (b & Hbin & Hsub). rewrite <-Ex in Hsub.
  assert (Hmem : ∀ k e, hardware_of !! k = Some e → so !! k = Some r → e ∈ at_indices hardware_of b.2).
  { intros k e Hk Hkr. apply list_elem_of_omap. exists k. split; [|done]. apply Hsub, list_elem_of_filter. split; [done|].
    apply elem_of_seq. pose proof (rp_le _ _ Hr _ _ Hkr). apply lookup_lt_Some in Hk. fold n in Hk. lia. }
  exists (at_indices hardware_of b.2). split; [by apply list_elem_of_fmap_2, list_elem_of_fmap_2|].
  split; [by apply (Hmem i)|]. apply (Hmem j); [done|congruence].
Qed.

Lemma plan_cases :
  Cycles ∈ requested →
  (∃ groups parts, plan family reserved counters co = Done (Planned groups) ∧ plan_shape groups parts) ∨
  (∃ wide, is_Some stated_of ∧ wide ⊆ hardware_of ∧ room < cost_of wide ∧
     plan family reserved counters co = Done (Refused (mkTooWide (counter_name <$> wide) room))).
Proof.
  intros Hcy. unfold plan. fold requested.
  rewrite bool_decide_false by (intros E; rewrite E in Hcy; by apply not_elem_of_nil in Hcy).
  rewrite (bool_decide_true (Cycles ∈ requested)) by done. cbn [negb].
  fold leader_of. fold base_of. fold software_of hardware_of stated_of. fold room. set (n := length hardware_of).
  destruct (union_sets_spec family hardware_of co (seq 0 n) (reps_start n)) as (so & -> & Hr & Htie & _).
  cbn [mbind outcome_bind].
  destruct (make_sets_spec hardware_of stated_of room so (seq 0 n) Hr) as
    [(sets & -> & Hs & Hc & Hcap)|(r & Hrin & Hst & Hw & ->)]; [intros i Hi; apply elem_of_seq in Hi; lia|..];
    cbn [mbind outcome_bind].
  - left. assert (Hc' : Forall (costed hardware_of) (sort_sets sets)) by (by rewrite sort_sets_perm).
    destruct (pack_spec hardware_of room (sort_sets sets) Hc') as (Hb & Hp & Hh & Hne).
    set (bins := pack room (sort_sets sets)) in *.
    assert (Hb' : Forall (costed hardware_of) bins) by (eapply Forall_impl; [exact Hb|by intros b [? _]]).
    destruct (make_groups_spec hardware_of base_of bins software_of Hb') as (gs & -> & Hl & Hgs).
    cbn [mbind outcome_bind]. exists gs, (at_indices hardware_of <$> bins.*2). split; [done|]. split.
    + by rewrite !length_fmap.
    + rewrite <-at_indices_concat. rewrite <-(at_indices_all hardware_of) at 2. apply at_indices_perm.
      rewrite Hp. rewrite sort_sets_perm, Hs. by apply sets_partition.
    + intros i g part Hg Hpart. rewrite list_lookup_fmap, fmap_Some in Hpart. destruct Hpart as (ms & Hms & ->).
      rewrite list_lookup_fmap, fmap_Some in Hms. destruct Hms as (b & Hbi & ->). by apply (Hgs i g b).
    + intros Hst. apply Forall_fmap, Forall_fmap. eapply Forall_impl; [exact Hb|]. intros b [[Hcost _] Hcases].
      cbn [compose]. rewrite <-Hcost. destruct Hcases as [?|Hin]; [done|]. rewrite sort_sets_perm in Hin.
      specialize (Hcap Hst). rewrite Forall_forall in Hcap. by apply Hcap.
    + intros c d. apply (tied_part so sets bins Hr Htie Hs). intros x Hx. apply Hh. by rewrite sort_sets_perm.
    + by destruct bins.
  - right. exists (at_indices hardware_of (set_members so n r)). split_and!; [done| |done|done].
    intros c (m & _ & Hm)%list_elem_of_omap. by eapply list_elem_of_lookup_2.
Qed.

Lemma position_of_Some p cs i : position_of p cs = Some i → ∃ c, cs !! i = Some c ∧ p c = true.
Proof.
  revert i; induction cs as [|c cs IH]; intros i; cbn [position_of]; [done|]. destruct (p c) eqn:E.
  - intros [= <-]. by exists c.
  - intros (k & Hk & ->)%fmap_Some. by apply IH.
Qed.

Lemma position_of_None p cs c : position_of p cs = None → c ∈ cs → p c = false.
Proof.
  induction cs as [|d cs IH]; cbn [position_of]; intros E Hc; [by apply not_elem_of_nil in Hc|].
  destruct (p d) eqn:Ed; [done|]. apply fmap_None in E. apply elem_of_cons in Hc as [->|Hc]; [done|by apply IH].
Qed.

Lemma lead_spec cs :
  Cycles ∈ cs →
  (Custom GROUP_LEADER ∈ cs → events (lead_with_slots cs) !! 0 = Some (Custom GROUP_LEADER) ∧
     events (lead_with_slots cs) !! sampled (lead_with_slots cs) = Some Cycles) ∧
  (Custom GROUP_LEADER ∉ cs → lead_with_slots cs = mkGroup cs 0).
Proof.
  intros Hcy. unfold lead_with_slots. destruct (position_of is_slots cs) as [k|] eqn:E.
  - destruct (position_of_Some _ _ _ E) as (c & Hk & Hc). unfold is_slots in Hc. destruct c as [| | | | | | | | | | | |name|]; try done.
    apply bool_decide_eq_true in Hc as ->. split; [|intros Hn; destruct Hn; by eapply list_elem_of_lookup_2].
    intros _. cbn [events sampled]. split; [unfold rotate_to_front; by rewrite Hk|].
    destruct (position_of _ (rotate_to_front k cs)) as [s|] eqn:Es.
    + cbn. destruct (position_of_Some _ _ _ Es) as (c & Hs & Hc). apply bool_decide_eq_true in Hc as ->. done.
    + apply (position_of_None _ _ Cycles) in Es; [by apply bool_decide_eq_false in Es|]. by rewrite rotate_perm.
  - split; [|done]. intros Hin. apply (position_of_None _ _ _ E) in Hin. by apply bool_decide_eq_false in Hin.
Qed.

(** Every event opens once.  With cycles in the request, a plan divides the hardware
    events among its groups, each in exactly one; every group has the leader, cycles and
    instructions, the first one the software events besides, and nothing else; and where
    the event table states a capacity no group takes more counters than it. *)
Theorem plan_opens_each_event_once (groups : list Group) :
  Cycles ∈ requested → plan family reserved counters co = Done (Planned groups) →
  ∃ parts, length groups = length parts ∧ concat parts ≡ₚ hardware_of ∧
    (∀ i g part, groups !! i = Some g → parts !! i = Some part →
       events g ≡ₚ base_of ++ part ++ (if decide (i = 0) then software_of else [])) ∧
    (is_Some stated_of → Forall (λ part, cost_of part ≤ room) parts).
Proof.
  intros Hcy E. destruct (plan_cases Hcy) as [(gs & parts & E' & [Hl Ha Hg Hr _ _])|(w & _ & _ & _ & E')];
    rewrite E in E'; [|done]. injection E' as <-. exists parts. split_and!; [done|done| |done].
  intros i g part Hgi Hp. destruct (Hg i g part Hgi Hp) as (cs & Hcs & -> & _). by rewrite lead_perm.
Qed.

(** C26: A formula is never split.  Two hardware events that some co-scheduled set of the
    request ties together are opened in the same group, so that the formula can be
    computed from one sample, also when the tie goes through aliases. *)
Theorem plan_keeps_formulas_together (groups : list Group) (c d : Counter) :
  Cycles ∈ requested → plan family reserved counters co = Done (Planned groups) →
  c ∈ hardware_of → d ∈ hardware_of → tied c d →
  ∃ g, g ∈ groups ∧ c ∈ events g ∧ d ∈ events g.
Proof.
  intros Hcy E Hc Hd Ht. destruct (plan_cases Hcy) as [(gs & parts & E' & [Hl Ha Hg Hr Htie _])|(w & _ & _ & _ & E')];
    rewrite E in E'; [|done]. injection E' as <-. destruct (Htie c d Hc Hd Ht) as (part & Hp & Hcp & Hdp).
  apply list_elem_of_lookup in Hp as [i Hi]. destruct (lookup_lt_is_Some_2 groups i) as [g Hgi].
  { rewrite Hl. by eapply lookup_lt_Some. }
  exists g. split; [by eapply list_elem_of_lookup_2|]. destruct (Hg i g part Hgi Hi) as (cs & Hcs & -> & _).
  rewrite !lead_perm, Hcs, !elem_of_app. tauto.
Qed.

(** Slots leads, and something that may sample samples.  A group that holds [slots]
    starts with it and is sampled by cycles; every other group starts with the leader
    event or cycles, which also samples it. *)
Theorem plan_group_leaders (groups : list Group) (g : Group) :
  Cycles ∈ requested → plan family reserved counters co = Done (Planned groups) → g ∈ groups →
  (Custom GROUP_LEADER ∈ events g →
     events g !! 0 = Some (Custom GROUP_LEADER) ∧ events g !! sampled g = Some Cycles) ∧
  (Custom GROUP_LEADER ∉ events g → sampled g = 0 ∧ events g !! 0 = base_of !! 0).
Proof.
  intros Hcy E Hgin. destruct (plan_cases Hcy) as [(gs & parts & E' & [Hl Ha Hg Hr _ _])|(w & _ & _ & _ & E')];
    rewrite E in E'; [|done]. injection E' as <-. apply list_elem_of_lookup in Hgin as [i Hgi].
  destruct (lookup_lt_is_Some_2 parts i) as [part Hp]; [rewrite <-Hl; by eapply lookup_lt_Some|].
  destruct (Hg i g part Hgi Hp) as (cs & Hcs & -> & Ht).
  assert (Hbase : Cycles ∈ base_of) by (unfold base_of, base_events; set_solver).
  destruct (lead_spec cs) as [H1 H2]; [rewrite Hcs; set_solver|].
  assert (Hperm : Custom GROUP_LEADER ∈ events (lead_with_slots cs) ↔ Custom GROUP_LEADER ∈ cs) by (by rewrite lead_perm).
  split; [by intros Hin; apply H1, Hperm|]. rewrite Hperm. intros Hn. rewrite (H2 Hn). split; [done|]. cbn [events]. rewrite <-Ht, lookup_take_lt; [done|].
  destruct base_of; [by apply not_elem_of_nil in Hbase|cbn; lia].
Qed.

(** Planning always answers, and refuses only what cannot fit.  No request makes the
    planner panic; without cycles it returns at most one group, and it refuses a request
    only when the event table states a capacity and the named hardware events, which
    formulas tie together, need more counters than it has. *)
Theorem plan_total :
  (∃ groups, plan family reserved counters co = Done (Planned groups)) ∨
  (∃ wide, is_Some stated_of ∧ wide ⊆ hardware_of ∧ room < cost_of wide ∧
     plan family reserved counters co = Done (Refused (mkTooWide (counter_name <$> wide) room))).
Proof.
  destruct (decide (Cycles ∈ requested)) as [Hcy|Hcy].
  - destruct (plan_cases Hcy) as [(gs & parts & E & _)|H]; [left; by exists gs|by right].
  - left. unfold plan. fold requested. case_bool_decide; [by eexists|].
    rewrite (bool_decide_false (Cycles ∈ requested)) by done. cbn [negb]. by eexists.
Qed.

End request.
(** The sampling budget.  With a kernel ceiling, the interrupts that all groups of a CPU
    ask for together stay within four fifths of it, or at one a second for each group
    where even that is not possible; no group asks for more than was requested. *)
Theorem sample_budget (requested groups max_rate : Z) :
  (1 ≤ requested ≤ u64_max)%Z → (0 ≤ groups)%Z → (0 ≤ max_rate)%Z → (max_rate * 4 ≤ u64_max)%Z →
  let freq := group_sample_freq requested groups (Some max_rate) in
  (1 ≤ freq ≤ requested)%Z ∧ (groups * freq ≤ Z.max groups (max_rate * 4 / 5))%Z.
Proof.
  intros Hr Hg Hm Hw freq. subst freq. unfold group_sample_freq, wrapping_mul.
  rewrite wrap64_small by word_lia. set (ceiling := (max_rate * 4 / 5)%Z).
  assert (Hc : (0 ≤ ceiling)%Z) by (apply Z.div_pos; lia).
  assert (Hb : (0 ≤ ceiling / Z.max groups 1)%Z) by (apply Z.div_pos; lia). split; [lia|].
  destruct (Z.le_gt_cases (ceiling / Z.max groups 1) 1) as [Hle|Hgt].
  - rewrite (Z.max_r _ 1) by lia. transitivity (groups * 1)%Z; [apply Z.mul_le_mono_nonneg_l; lia|lia].
  - rewrite (Z.max_l (ceiling / _) 1) by lia.
    pose proof (Z.mul_div_le ceiling (Z.max groups 1) ltac:(lia)) as Hd.
    transitivity (Z.max groups 1 * (ceiling / Z.max groups 1))%Z; [|lia]. apply Z.mul_le_mono_nonneg; lia.
Qed.

Lemma sample_budget_witness :
  (3 * group_sample_freq 1000 3 (Some 1000) ≤ Z.max 3 (1000 * 4 / 5))%Z.
Proof. apply (sample_budget 1000 3 1000); vm_compute; try split; congruence. Defined.

(** ** An example: two counters a group, and a formula over [a] and [b] *)

Definition example_family : option CPUFamily := Some (mkFamily (Some 2) None ∅).
Definition example_counters : list Counter :=
  [Cycles; Instructions; Custom "a"; Custom "x"; Custom "slots"; Custom "y"; Custom "b"; CpuClock].
Definition example_sets : list (list Counter) := [[Custom "a"; Custom "b"]].
Definition example_groups : list Group :=
  [mkGroup [Custom "slots"; Cycles; Instructions; Custom "a"; Custom "b"; CpuClock] 1;
   mkGroup [Cycles; Instructions; Custom "x"; Custom "y"] 0].

Lemma example_plan : plan example_family 0 example_counters example_sets = Done (Planned example_groups).
Proof. vm_compute. reflexivity. Qed.

Lemma example_cycles : Cycles ∈ requested example_family example_counters.
Proof. apply (bool_decide_unpack _). vm_compute. exact I. Qed.

Lemma plan_opens_each_event_once_witness :
  ∃ parts, length example_groups = length parts ∧ concat parts ≡ₚ hardware_of example_family example_counters ∧
    Forall (λ part, cost_of part ≤ room example_family 0 example_counters) parts.
Proof.
  destruct (plan_opens_each_event_once example_family 0 example_counters example_sets example_groups
    example_cycles example_plan) as (parts & Hl & Ha & _ & Hr).
  exists parts. split; [exact Hl|]. split; [exact Ha|]. apply Hr. vm_compute. eexists. reflexivity.
Defined.

Lemma plan_keeps_formulas_together_witness :
  ∃ g, g ∈ example_groups ∧ Custom "a" ∈ events g ∧ Custom "b" ∈ events g.
Proof.
  apply (plan_keeps_formulas_together example_family 0 example_counters example_sets example_groups
    (Custom "a") (Custom "b") example_cycles example_plan).
  - apply (bool_decide_unpack _). vm_compute. exact I.
  - apply (bool_decide_unpack _). vm_compute. exact I.
  - exists [Custom "a"; Custom "b"]. split; [left|].
    split; [exists (Custom "a")|exists (Custom "b")]; (split; [|reflexivity]); [left|right; left].
Defined.

Definition slots_group : Group :=
  mkGroup [Custom "slots"; Cycles; Instructions; Custom "a"; Custom "b"; CpuClock] 1.

Lemma plan_group_leaders_witness :
  events slots_group !! 0 = Some (Custom GROUP_LEADER) ∧ events slots_group !! sampled slots_group = Some Cycles.
Proof.
  apply (plan_group_leaders example_family 0 example_counters example_sets example_groups
    slots_group example_cycles example_plan); left.
Defined.

End Rules.
