(* ===== verification/Loops.v ===== *)
(** * Natural loops and irreducible cycles

    The control-flow graph of [mperf/src/roofline/loops.rs]: reachability from the
    entries, predecessors, the iterative dominator analysis, natural loops and their
    nesting, and the strongly connected components of Kosaraju's two passes.

    A [BTreeSet<u64>] is a [gset Z] and a [BTreeMap] a [gmap]; iteration is in
    ascending order ([asc]).  A [Vec] used as a stack is a list with its top first, so
    that [pending.extend(xs)] is [reverse xs ++ pending].  The loops of the source have
    no bound of their own: each gets fuel computed from the size of the graph, and the
    theorems of [LoopsSpec.v] show that it is never exhausted. *)

From S2P Require Import Prelude.
Open Scope Z_scope.

Module Loops.

(** [set.iter()] of a [BTreeSet]. *)
Definition asc (s : gset Z) : list Z := merge_sort Z.le (elements s).

(** [map.get(&n).into_iter().flatten()]. *)
Definition targets (m : gmap Z (gset Z)) (n : Z) : list Z := asc (default ∅ (m !! n)).

Record ControlFlowGraph := mkGraph {
  entries : gset Z;
  successors : gmap Z (gset Z)
}.

Record NaturalLoop := mkLoop {
  header : Z;
  latches : gset Z;
  blocks : gset Z;
  parent : option nat
}.

Record LoopAnalysis := mkAnalysis {
  natural_loops : list NaturalLoop;
  irreducible_cycles : list (gset Z)
}.

(** [map.entry(n).or_default()], left with the elements of [xs] inserted. *)
Definition or_default_extend (n : Z) (xs : gset Z) (m : gmap Z (gset Z)) : gmap Z (gset Z) :=
  <[n := default ∅ (m !! n) ∪ xs]> m.

Definition add_entry (block : Z) (g : ControlFlowGraph) : ControlFlowGraph :=
  mkGraph ({[block]} ∪ entries g) (or_default_extend block ∅ (successors g)).

Definition add_edge (from to : Z) (g : ControlFlowGraph) : ControlFlowGraph :=
  mkGraph (entries g)
    (or_default_extend to ∅ (or_default_extend from {[to]} (successors g))).

(** The number of edges of an adjacency map. *)
Definition edge_count (m : gmap Z (gset Z)) : nat := sum_list (size ∘ snd <$> map_to_list m).

(** The worklist of [reachable_nodes]. *)
Fixpoint flood (fuel : nat) (m : gmap Z (gset Z)) (pending : list Z) (reachable : gset Z)
    : outcome (gset Z) :=
  match pending, fuel with
  | [], _ => Done reachable
  | _, O => Panicked
  | block :: pending, S fuel =>
      if decide (block ∈ reachable) then flood fuel m pending reachable
      else flood fuel m (reverse (targets m block) ++ pending) ({[block]} ∪ reachable)
  end.

Definition reachable_nodes (g : ControlFlowGraph) : outcome (gset Z) :=
  flood (size (entries g) + edge_count (successors g))%nat (successors g) (reverse (asc (entries g))) ∅.

Definition add_predecessor (nodes : gset Z) (from : Z) (p : gmap Z (gset Z)) (to : Z)
    : gmap Z (gset Z) :=
  if decide (from ∈ nodes ∧ to ∈ nodes) then or_default_extend to {[from]} p else p.

Definition predecessors (nodes : gset Z) (successors : gmap Z (gset Z)) : gmap Z (gset Z) :=
  foldl (λ p from, foldl (add_predecessor nodes from) p (targets successors from))
    (gset_to_gmap ∅ nodes) (asc (dom successors)).

Section dominators.
Context (nodes entries : gset Z) (predecessors : gmap Z (gset Z)).

Definition roots : gset Z :=
  filter (λ n, n ∈ entries ∨ default ∅ (predecessors !! n) = ∅) nodes.

Definition initial : gmap Z (gset Z) :=
  list_to_map ((λ n, (n, if decide (n ∈ roots) then {[n]} else nodes)) <$> asc nodes).

(** The intersection of the sets of the predecessors, with the node itself. *)
Definition next_dominators (result : gmap Z (gset Z)) (node : Z) : gset Z :=
  let next :=
    match omap (λ p, result !! p) (targets predecessors node) with
    | [] => ∅
    | d :: incoming => foldl (∩) d incoming
    end in
  {[node]} ∪ next.

Definition dominators_step (st : gmap Z (gset Z) * bool) (node : Z) : gmap Z (gset Z) * bool :=
  let '(result, changed) := st in
  if decide (node ∈ roots) then (result, changed)
  else
    let next := next_dominators result node in
    if decide (result !! node = Some next) then (result, changed)
    else (<[node := next]> result, true).

Fixpoint dominators_loop (fuel : nat) (result : gmap Z (gset Z)) : outcome (gmap Z (gset Z)) :=
  match fuel with
  | O => Panicked
  | S fuel =>
      let '(result, changed) := foldl dominators_step (result, false) (asc nodes) in
      if negb changed then Done result else dominators_loop fuel result
  end.

(** Each pass but the last shrinks a set: [|nodes|^2] bounds their number. *)
Definition dominators : outcome (gmap Z (gset Z)) :=
  dominators_loop (S (size nodes * size nodes)%nat) initial.
End dominators.

Definition push_new (st : list Z * gset Z) (predecessor : Z) : list Z * gset Z :=
  let '(pending, blocks) := st in
  if decide (predecessor ∈ blocks) then (pending, blocks)
  else (predecessor :: pending, {[predecessor]} ∪ blocks).

Fixpoint loop_blocks (fuel : nat) (header : Z) (predecessors : gmap Z (gset Z))
    (pending : list Z) (blocks : gset Z) : outcome (gset Z) :=
  match pending, fuel with
  | [], _ => Done blocks
  | _, O => Panicked
  | block :: pending, S fuel =>
      if decide (block = header) then loop_blocks fuel header predecessors pending blocks
      else
        let '(pending, blocks) := foldl push_new (pending, blocks) (targets predecessors block) in
        loop_blocks fuel header predecessors pending blocks
  end.

Definition natural_loop_blocks (header latch : Z) (predecessors : gmap Z (gset Z))
    : outcome (gset Z) :=
  loop_blocks (S (size (dom predecessors))) header predecessors [latch] {[header; latch]}.

(** The first pass: depth-first search, [order] with the last finished node on top. *)
Fixpoint visit (fuel : nat) (m : gmap Z (gset Z)) (st : gset Z * list Z) (node : Z)
    : outcome (gset Z * list Z) :=
  match fuel with
  | O => Panicked
  | S fuel =>
      let '(visited, order) := st in
      if decide (node ∈ visited) then Done (visited, order)
      else
        '(visited, order) ← fold_outcome (visit fuel m) (targets m node) ({[node]} ∪ visited, order);
        Done (visited, node :: order)
  end.

(** The inner worklist of the second pass. *)
Fixpoint collect (fuel : nat) (m : gmap Z (gset Z)) (pending : list Z) (visited component : gset Z)
    : outcome (gset Z * gset Z) :=
  match pending, fuel with
  | [], _ => Done (visited, component)
  | _, O => Panicked
  | block :: pending, S fuel =>
      if decide (block ∈ visited) then collect fuel m pending visited component
      else collect fuel m (reverse (targets m block) ++ pending)
             ({[block]} ∪ visited) ({[block]} ∪ component)
  end.

Fixpoint components_loop (predecessors : gmap Z (gset Z)) (order : list Z) (visited : gset Z)
    (components : list (gset Z)) : outcome (list (gset Z)) :=
  match order with
  | [] => Done components
  | node :: order =>
      if decide (node ∈ visited) then components_loop predecessors order visited components
      else
        '(visited, component) ← collect (S (edge_count predecessors)) predecessors [node] visited ∅;
        components_loop predecessors order visited (components ++ [component])
  end.

Definition strongly_connected_components (nodes : gset Z) (successors : gmap Z (gset Z))
    : outcome (list (gset Z)) :=
  '(_, order) ← fold_outcome (visit (S (size nodes)) successors) (asc nodes) (∅, []);
  components_loop (predecessors nodes successors) order ∅ [].

Definition is_cycle (successors : gmap Z (gset Z)) (component : gset Z) : bool :=
  (1 <? size component)%nat ||
  existsb (λ node, bool_decide (node ∈ default ∅ (successors !! node))) (asc component).

(** [by_header.entry(header).or_insert_with(..)] and the two extensions. *)
Definition add_latch (h tail : Z) (bs : gset Z) (by_header : gmap Z NaturalLoop)
    : gmap Z NaturalLoop :=
  let l := default (mkLoop h ∅ ∅ None) (by_header !! h) in
  <[h := mkLoop (header l) ({[tail]} ∪ latches l) (blocks l ∪ bs) (parent l)]> by_header.

Definition dominated_by (dominators : gmap Z (gset Z)) (block h : Z) : bool :=
  match dominators !! block with Some d => bool_decide (h ∈ d) | None => false end.

Definition visit_edge (dominators predecessors : gmap Z (gset Z)) (tail : Z)
    (by_header : gmap Z NaturalLoop) (h : Z) : outcome (gmap Z NaturalLoop) :=
  if negb (dominated_by dominators tail h) then Done by_header
  else bs ← natural_loop_blocks h tail predecessors; Done (add_latch h tail bs by_header).

Definition visit_tail (nodes : gset Z) (successors dominators predecessors : gmap Z (gset Z))
    (by_header : gmap Z NaturalLoop) (tail : Z) : outcome (gmap Z NaturalLoop) :=
  if decide (tail ∉ nodes) then Done by_header
  else fold_outcome (visit_edge dominators predecessors tail) (targets successors tail) by_header.

Definition key_le (a b : Z * NaturalLoop) : Prop := a.1 ≤ b.1.
#[export] Instance key_le_dec : RelDecision key_le := λ a b, decide (a.1 ≤ b.1).

(** [sort_by_key(|l| (l.blocks.len(), l.header))]. *)
Definition loop_le (a b : NaturalLoop) : Prop :=
  (size (blocks a) < size (blocks b))%nat ∨
  size (blocks a) = size (blocks b) ∧ header a ≤ header b.
#[export] Instance loop_le_dec : RelDecision loop_le.
Proof. intros a b. unfold loop_le. apply _. Defined.

(** [Iterator::min_by_key]: the first of the least elements. *)
Definition min_by_key (f : nat → nat) (l : list nat) : option nat :=
  match l with
  | [] => None
  | x :: l => Some (foldl (λ best y, if (f y <? f best)%nat then y else best) x l)
  end.

Definition blocks_at (loops : list NaturalLoop) (i : nat) : gset Z :=
  match loops !! i with Some l => blocks l | None => ∅ end.

Definition is_parent (loops : list NaturalLoop) (child candidate : nat) : bool :=
  bool_decide (candidate ≠ child) &&
  bool_decide (blocks_at loops child ⊆ blocks_at loops candidate) &&
  bool_decide (blocks_at loops candidate ≠ blocks_at loops child).

Definition parent_of (loops : list NaturalLoop) (child : nat) : option nat :=
  min_by_key (λ c, size (blocks_at loops c))
    (List.filter (is_parent loops child) (seq 0 (length loops))).

Definition set_parents (loops : list NaturalLoop) : list NaturalLoop :=
  imap (λ child l, mkLoop (header l) (latches l) (blocks l) (parent_of loops child)) loops.

(** No block of the component dominates all of it. *)
Definition is_irreducible (dominators : gmap Z (gset Z)) (component : gset Z) : bool :=
  negb (existsb (λ h, bool_decide (h ∈ dom dominators) &&
                      forallb (λ block, dominated_by dominators block h) (asc component))
          (asc component)).

Definition analyze (g : ControlFlowGraph) : outcome LoopAnalysis :=
  nodes ← reachable_nodes g;
  if decide (nodes = ∅) then Done (mkAnalysis [] [])
  else
    let preds := predecessors nodes (successors g) in
    dominators ← dominators nodes (entries g) preds;
    by_header ← fold_outcome (visit_tail nodes (successors g) dominators preds)
                  (asc (dom (successors g))) ∅;
    let loops := merge_sort loop_le (snd <$> merge_sort key_le (map_to_list by_header)) in
    components ← strongly_connected_components nodes (successors g);
    Done (mkAnalysis (set_parents loops)
            (List.filter (is_irreducible dominators)
               (List.filter (is_cycle (successors g)) components))).

End Loops.
