(* ===== verification/LoopsReach.v ===== *)
(** * Reachability and dominators of the control-flow graph

    - [Module Reach]: paths that avoid a set of nodes, and that the worklists of
      [Loops.v] visit exactly what such paths reach, within their fuel;
    - [Module Dom]: the iterative dominator analysis terminates with the dominance
      relation. *)

From S2P Require Import Prelude Loops.
Open Scope Z_scope.
Import Loops.

(** ** Paths and worklists *)
Module Reach.

Lemma elem_of_asc s x : x ∈ asc s ↔ x ∈ s.
Proof. unfold asc. by rewrite merge_sort_Permutation, elem_of_elements. Qed.

Lemma NoDup_asc s : NoDup (asc s).
Proof. unfold asc. rewrite merge_sort_Permutation. apply NoDup_elements. Qed.

Lemma length_asc s : length (asc s) = size s.
Proof. unfold asc. by rewrite merge_sort_Permutation. Qed.

(** An edge whose target is not in [v]. *)
Definition step (m : gmap Z (gset Z)) (v : gset Z) (a b : Z) : Prop :=
  (b ∈ targets m a) ∧ (b ∉ v).

(** A path that avoids [v], its first node included. *)
Definition reach (m : gmap Z (gset Z)) (v : gset Z) (a b : Z) : Prop := (a ∉ v) ∧ rtc (step m v) a b.

Section paths.
Context (m : gmap Z (gset Z)).
Implicit Types v : gset Z.

Lemma reach_refl v a : a ∉ v → reach m v a a.
Proof. split; [done|reflexivity]. Qed.

Lemma reach_not v a b : reach m v a b → b ∉ v.
Proof. intros [Ha H]. apply rtc_inv_r in H as [->|(y & _ & _ & Hb)]; done. Qed.

Lemma reach_trans v a b c : reach m v a b → reach m v b c → reach m v a c.
Proof. intros [Ha H1] [_ H2]. split; [done|]. by transitivity b. Qed.

Lemma reach_snoc v a b c : reach m v a b → c ∈ targets m b → c ∉ v → reach m v a c.
Proof. intros [Ha H] Hc Hv. split; [done|]. eapply rtc_r; [done|by split]. Qed.

Lemma reach_weaken v v' a b : v ⊆ v' → reach m v' a b → reach m v a b.
Proof.
  intros Hv [Ha H]. split; [set_solver|].
  induction H as [x|x y z [Hxy Hy] _ IH]; [reflexivity|].
  eapply rtc_l; [split; [exact Hxy|]; set_solver|auto].
Qed.

(** A path avoids [n], or reaches [n] and goes on from there. *)
Lemma reach_through v n a b :
  reach m v a b → reach m ({[n]} ∪ v) a b ∨ reach m v a n ∧ reach m v n b.
Proof.
  intros [Ha H]. revert b H. apply rtc_ind_r; [|intros y z H [Hyz Hz] IH].
  - destruct (decide (a = n)) as [->|Hne]; [right|left; apply reach_refl; set_solver].
    split; by apply reach_refl.
  - assert (reach m v a z) by (apply (reach_snoc _ _ y); done).
    destruct (decide (z = n)) as [->|Hne].
    { right. split; [done|by apply reach_refl]. }
    destruct IH as [IH|[H1 H2]]; [left|right].
    + eapply reach_snoc; [done|done|set_solver].
    + split; [done|]. by eapply reach_snoc.
Qed.

(** After leaving [n] for the last time a path avoids it. *)
Lemma reach_leave v n b :
  reach m v n b → b = n ∨ ∃ t, t ∈ targets m n ∧ reach m ({[n]} ∪ v) t b.
Proof.
  intros [Hn H]. revert b H. apply rtc_ind_r; [by left|intros y z H [Hyz Hz] IH].
  destruct (decide (z = n)) as [->|Hne]; [by left|]. right.
  destruct IH as [->|(t & Ht & Hty)].
  - exists z. split; [done|]. apply reach_refl. set_solver.
  - exists t. split; [done|]. eapply reach_snoc; [done|done|set_solver].
Qed.

(** What a worklist still has to visit. *)
Definition todo (pending : list Z) (v : gset Z) (y : Z) : Prop :=
  ∃ x, x ∈ pending ∧ reach m v x y.

Lemma todo_step block pending v y :
  block ∉ v →
  (y ∈ v ∨ todo (block :: pending) v y) ↔
  (y ∈ {[block]} ∪ v ∨ todo (reverse (targets m block) ++ pending) ({[block]} ∪ v) y).
Proof.
  intros Hb. split.
  - intros [Hy|(x & Hx & Hr)]; [set_solver|].
    destruct (reach_through v block x y Hr) as [Hr'|[_ Hr']].
    + apply elem_of_cons in Hx as [->|Hx]; [destruct Hr'; set_solver|].
      right. exists x. split; [set_solver|done].
    + apply reach_leave in Hr' as [->|(t & Ht & Hty)]; [set_solver|].
      right. exists t. split; [|done]. rewrite elem_of_app, elem_of_reverse. by left.
  - intros [[->%elem_of_singleton|Hy]%elem_of_union|(x & Hx & Hr)]; [|by left|].
    + right. exists block. split; [left|by apply reach_refl].
    + right. rewrite elem_of_app, elem_of_reverse in Hx. destruct Hx as [Hx|Hx].
      * exists block. split; [left|]. apply (reach_trans _ _ x); [|by eapply reach_weaken, Hr; set_solver].
        apply (reach_snoc _ _ block); [by apply reach_refl|done|]. destruct Hr. set_solver.
      * exists x. split; [by right|]. eapply reach_weaken; [|done]. set_solver.
Qed.

(** The edges that leave the nodes outside [v]. *)
Definition open_edges (v : gset Z) : nat :=
  sum_list ((λ n, size (default ∅ (m !! n))) <$> elements (dom m ∖ v)).

Lemma open_edges_visit v n :
  n ∉ v → (length (targets m n) + open_edges ({[n]} ∪ v) ≤ open_edges v)%nat.
Proof.
  intros Hn. unfold open_edges, targets. rewrite length_asc.
  destruct (decide (n ∈ dom m)) as [Hd|Hd].
  - replace (dom m ∖ v) with ({[n]} ∪ (dom m ∖ ({[n]} ∪ v))).
    2: { apply set_eq. intros x. destruct (decide (x = n)); set_solver. }
    rewrite elements_disj_union by set_solver. rewrite elements_singleton. simpl. done.
  - apply not_elem_of_dom in Hd as Hm. rewrite Hm. change (size (default ∅ (@None (gset Z)))) with 0%nat.
    replace (dom m ∖ ({[n]} ∪ v)) with (dom m ∖ v); [lia|]. set_solver.
Qed.

Lemma flood_spec fuel pending v :
  (length pending + open_edges v ≤ fuel)%nat →
  ∃ v', flood fuel m pending v = Done v' ∧ ∀ y, y ∈ v' ↔ y ∈ v ∨ todo pending v y.
Proof.
  revert pending v; induction fuel as [|fuel IH]; intros [|block pending] v Hf; simpl in *; try lia;
    try (exists v; split; [done|]; intros y; split; [by left|intros [?|(x & Hx & _)]; [done|set_solver]]).
  destruct (decide (block ∈ v)) as [Hb|Hb].
  - destruct (IH pending v) as (v' & -> & Hv'); [lia|]. exists v'. split; [done|].
    intros y. rewrite Hv'. split; intros [?|(x & Hx & Hr)]; [by left|right|by left|].
    + exists x. split; [by right|done].
    + apply elem_of_cons in Hx as [->|Hx]; [by destruct Hr|]. right. by exists x.
  - pose proof (open_edges_visit v block Hb).
    destruct (IH (reverse (targets m block) ++ pending) ({[block]} ∪ v)) as (v' & -> & Hv').
    { rewrite length_app, length_reverse. lia. }
    exists v'. split; [done|]. intros y. by rewrite Hv', <-todo_step.
Qed.

Lemma flood_mono fuel pending v v' : flood fuel m pending v = Done v' → v ⊆ v'.
Proof.
  revert pending v; induction fuel as [|fuel IH]; intros [|block pending] v; simpl;
    try (by intros [= ->]). case_decide.
  - apply IH.
  - intros Hf%IH. set_solver.
Qed.

Lemma collect_flood fuel pending v v' c :
  flood fuel m pending v = Done v' → collect fuel m pending v c = Done (v', c ∪ (v' ∖ v)).
Proof.
  revert pending v c; induction fuel as [|fuel IH]; intros [|block pending] v c; simpl;
    try done; try (intros [= ->]; by rewrite difference_diag_L, (right_id_L ∅ (∪))).
  case_decide.
  - apply IH.
  - intros H'. rewrite (IH _ _ _ H'). apply flood_mono in H'. do 2 f_equal.
    apply set_eq. intros x. destruct (decide (x = block)); set_solver.
Qed.

Lemma open_edges_all : open_edges ∅ = edge_count m.
Proof.
  unfold open_edges, edge_count. rewrite difference_empty_L.
  induction m as [|n s m' Hn IH] using map_ind.
  - by rewrite dom_empty_L, elements_empty, map_to_list_empty.
  - rewrite map_to_list_insert, dom_insert_L, elements_disj_union by (done || by apply disjoint_singleton_l, not_elem_of_dom).
    rewrite elements_singleton. simpl. rewrite lookup_insert_eq. simpl. f_equal. etransitivity; [|exact IH].
    f_equal.
    apply list_fmap_ext. intros i x Hx%list_elem_of_lookup_2. apply elem_of_elements, elem_of_dom in Hx as [? Hx].
    rewrite lookup_insert_ne; [done|]. intros ->. congruence.
Qed.

Lemma open_edges_le v : (open_edges v ≤ edge_count m)%nat.
Proof.
  induction v as [|n v Hn IH] using set_ind_L.
  - by rewrite open_edges_all.
  - pose proof (open_edges_visit v n Hn). lia.
Qed.
End paths.

(** [n] is reachable from an entry. *)
Definition reachable (g : ControlFlowGraph) (n : Z) : Prop :=
  ∃ e, e ∈ entries g ∧ reach (successors g) ∅ e n.

Lemma reachable_nodes_spec g :
  ∃ nodes, reachable_nodes g = Done nodes ∧ ∀ n, n ∈ nodes ↔ reachable g n.
Proof.
  unfold reachable_nodes.
  destruct (flood_spec (successors g) (size (entries g) + edge_count (successors g))
              (reverse (asc (entries g))) ∅) as (v & -> & Hv).
  { rewrite length_reverse, length_asc, open_edges_all. lia. }
  exists v. split; [done|]. intros n. rewrite Hv. unfold todo, reachable.
  setoid_rewrite elem_of_reverse. setoid_rewrite elem_of_asc. set_solver.
Qed.

Lemma elem_of_targets m a b : b ∈ targets m a ↔ b ∈ default ∅ (m !! a).
Proof. apply elem_of_asc. Qed.

(** ** Predecessors *)
Lemma or_default_extend_spec m n xs k :
  default ∅ (or_default_extend n xs m !! k) = default ∅ (m !! k) ∪ (if decide (k = n) then xs else ∅).
Proof.
  unfold or_default_extend. case_decide; subst.
  - by rewrite lookup_insert_eq.
  - rewrite lookup_insert_ne by done. by rewrite (right_id_L ∅ (∪)).
Qed.

Lemma add_predecessors_spec nodes from ts p :
  (∀ a b, a ∈ default ∅ (foldl (add_predecessor nodes from) p ts !! b) ↔
    a ∈ default ∅ (p !! b) ∨ a = from ∧ b ∈ ts ∧ from ∈ nodes ∧ b ∈ nodes) ∧
  (dom p = nodes → dom (foldl (add_predecessor nodes from) p ts) = nodes).
Proof.
  revert p; induction ts as [|t ts IH]; intros p; simpl; [set_solver|].
  destruct (IH (add_predecessor nodes from p t)) as [H1 H2]. split.
  - intros a b. rewrite H1. unfold add_predecessor. case_decide as Hd; [|set_solver].
    rewrite or_default_extend_spec. case_decide; set_solver.
  - intros Hp. apply H2. unfold add_predecessor, or_default_extend. case_decide; [|done].
    rewrite dom_insert_L. set_solver.
Qed.

Lemma predecessors_spec nodes m :
  (∀ a b, a ∈ targets (predecessors nodes m) b ↔ b ∈ targets m a ∧ a ∈ nodes ∧ b ∈ nodes) ∧
  dom (predecessors nodes m) = nodes.
Proof.
  assert (∀ fs p, 
    (∀ a b, a ∈ default ∅ (foldl (λ p from, foldl (add_predecessor nodes from) p (targets m from)) p fs !! b) ↔
      a ∈ default ∅ (p !! b) ∨ a ∈ fs ∧ b ∈ targets m a ∧ a ∈ nodes ∧ b ∈ nodes) ∧
    (dom p = nodes → dom (foldl (λ p from, foldl (add_predecessor nodes from) p (targets m from)) p fs) = nodes)) as H.
  { induction fs as [|f fs IH]; intros p; simpl; [set_solver|].
    destruct (add_predecessors_spec nodes f (targets m f) p) as [Ha Hd].
    destruct (IH (foldl (add_predecessor nodes f) p (targets m f))) as [H1 H2]. split; [|auto].
    intros a b. rewrite H1, Ha. set_solver. }
  destruct (H (asc (dom m)) (gset_to_gmap ∅ nodes)) as [H1 H2]. split.
  - intros a b. rewrite elem_of_targets. unfold predecessors. rewrite H1, elem_of_asc.
    assert (default ∅ (gset_to_gmap (∅ : gset Z) nodes !! b) = ∅) as ->.
    { rewrite lookup_gset_to_gmap. by case_guard. }
    split; [by intros [[]%elem_of_empty|[_ ?]]|]. intros Hab. right. split; [|done].
    destruct Hab as [Hab _]. rewrite elem_of_targets in Hab. apply elem_of_dom.
    destruct (m !! a); [eauto|set_solver].
  - apply H2. apply dom_gset_to_gmap.
Qed.
End Reach.

(** ** Dominators *)
Module Dom.
Import Reach.

(** A path and the nodes it visits, both ends included. *)
Inductive path (m : gmap Z (gset Z)) (a : Z) : list Z → Z → Prop :=
| path_one : path m a [a] a
| path_snoc l b c : path m a l b → c ∈ targets m b → path m a (l ++ [c]) c.

(** [d] dominates [n]: every path from an entry to [n] visits [d]. *)
Definition dominates (g : ControlFlowGraph) (d n : Z) : Prop :=
  ∀ e l, e ∈ entries g → path (successors g) e l n → d ∈ l.

Lemma path_reach m v a l b : path m a l b → (∀ x, x ∈ l → x ∉ v) → reach m v a b.
Proof.
  induction 1 as [|l b c _ IH Hc]; intros Hl; [apply reach_refl, Hl; left|].
  eapply reach_snoc; [apply IH|done|apply Hl]; set_solver.
Qed.

Lemma reach_path m v a b : reach m v a b → ∃ l, path m a l b ∧ ∀ x, x ∈ l → x ∉ v.
Proof.
  intros [Ha H]. revert b H. apply rtc_ind_r.
  - exists [a]. split; [constructor|set_solver].
  - intros y z _ [Hz Hv] (l & Hl & Hlv). exists (l ++ [z]). split; [by econstructor|set_solver].
Qed.

Lemma dominates_reach g d n :
  dominates g d n ↔ ∀ e, e ∈ entries g → ¬ reach (successors g) {[d]} e n.
Proof.
  split.
  - intros H e He (l & Hl & Hd)%reach_path. specialize (H e l He Hl). set_solver.
  - intros H e l He Hl. destruct (decide (d ∈ l)) as [|Hd]; [done|]. exfalso.
    apply (H e He). eapply path_reach; [done|]. set_solver.
Qed.

Lemma dominates_refl g n : dominates g n n.
Proof. intros e l _ H. inversion H; set_solver. Qed.

Lemma elem_of_foldl_inter (ds : list (gset Z)) d x :
  x ∈ foldl (∩) d ds ↔ x ∈ d ∧ ∀ d', d' ∈ ds → x ∈ d'.
Proof. revert d; induction ds as [|d' ds IH]; intros d; simpl; [set_solver|rewrite IH; set_solver]. Qed.

Lemma edge_count_insert m n s d :
  m !! n = Some d → (edge_count (<[n := s]> m) + size d = edge_count m + size s)%nat.
Proof.
  intros Hn. unfold edge_count. rewrite <-(insert_delete_id m n d Hn) at 2.
  rewrite <-insert_delete_eq. rewrite !map_to_list_insert by apply lookup_delete_eq.
  simpl. lia.
Qed.

Lemma edge_count_bound m k :
  (∀ n d, m !! n = Some d → (size d ≤ k)%nat) → (edge_count m ≤ size (dom m) * k)%nat.
Proof.
  unfold edge_count. induction m as [|n s m Hn IH] using map_ind; intros Hk.
  - by rewrite map_to_list_empty.
  - rewrite map_to_list_insert, dom_insert_L by done. csimpl.
    rewrite size_union, size_singleton by (apply disjoint_singleton_l; by apply not_elem_of_dom).
    pose proof (Hk n s (lookup_insert_eq _ _ _)).
    assert (edge_count m ≤ size (dom m) * k)%nat; [|unfold edge_count in *; lia].
    apply IH. intros n' d Hd. apply (Hk n'). rewrite lookup_insert_ne; [done|congruence].
Qed.

Section analysis.
Context (g : ControlFlowGraph) (nodes : gset Z).
Context (Hnodes : ∀ n, n ∈ nodes ↔ reachable g n).
Local Notation P := (predecessors nodes (successors g)).
Local Notation roots := (roots nodes (entries g) P).
Local Notation next := (next_dominators P).

Lemma nodes_closed a b : a ∈ nodes → b ∈ targets (successors g) a → b ∈ nodes.
Proof.
  rewrite !Hnodes. intros (e & He & Hr) Hb. exists e. split; [done|]. eapply reach_snoc; [done..|set_solver].
Qed.

Lemma entries_nodes e : e ∈ entries g → e ∈ nodes.
Proof. rewrite Hnodes. exists e. split; [done|]. apply reach_refl. set_solver. Qed.

Lemma pred_edge a b : a ∈ targets P b ↔ b ∈ targets (successors g) a ∧ a ∈ nodes.
Proof.
  rewrite (proj1 (predecessors_spec _ _)). split; [by intros (? & ? & _)|].
  intros [??]. split_and!; [done|done|by eapply nodes_closed].
Qed.

Lemma elem_of_roots n : n ∈ roots ↔ n ∈ entries g.
Proof.
  unfold Loops.roots. rewrite elem_of_filter. split; [|intros; split; [by left|by apply entries_nodes]].
  intros [[?|He] Hn]; [done|]. apply Hnodes in Hn as (e & Hen & _ & Hr).
  apply rtc_inv_r in Hr as [->|(y & Hy & Ht & _)]; [done|]. exfalso.
  assert (y ∈ targets P n) as Hin.
  { apply pred_edge. split; [done|]. apply Hnodes. exists e. split; [done|split; [set_solver|done]]. }
  rewrite elem_of_targets, He in Hin. set_solver.
Qed.

Lemma next_spec result n x :
  dom result = nodes → n ∈ nodes → n ∉ entries g →
  x ∈ next result n ↔ x = n ∨ ∀ p d, p ∈ targets P n → result !! p = Some d → x ∈ d.
Proof.
  intros Hdom Hn Hne. unfold next_dominators. rewrite elem_of_union, elem_of_singleton.
  set (inc := omap (λ p, result !! p) (targets P n)).
  assert (Hinc : ∀ d, d ∈ inc ↔ ∃ p, p ∈ targets P n ∧ result !! p = Some d).
  { intros d. unfold inc. apply list_elem_of_omap. }
  assert (inc ≠ []) as Hnil.
  { assert (∃ p, p ∈ targets P n) as [p Hp].
    { assert (n ∉ roots) as H by by rewrite elem_of_roots.
      unfold Loops.roots in H. rewrite elem_of_filter in H.
      assert (default ∅ (P !! n) ≠ ∅) as [p Hp]%set_choose_L by tauto.
      exists p. by apply elem_of_targets. }
    assert (p ∈ dom result) as [d Hd]%elem_of_dom by (rewrite Hdom; by apply pred_edge in Hp as []).
    intros E. assert (d ∈ inc) by (apply Hinc; eauto). rewrite E in *. set_solver. }
  destruct inc as [|d0 inc']; [done|]. rewrite elem_of_foldl_inter.
  assert ((x ∈ d0 ∧ ∀ d', d' ∈ inc' → x ∈ d') ↔ ∀ d, d ∈ d0 :: inc' → x ∈ d) as -> by set_solver.
  setoid_rewrite Hinc. naive_solver.
Qed.

(** What every pass of the loop keeps. *)
Record inv (result : gmap Z (gset Z)) : Prop := {
  inv_dom : dom result = nodes;
  inv_entry e : e ∈ entries g → result !! e = Some {[e]};
  inv_sub n d : result !! n = Some d → d ⊆ nodes;
  inv_decr n d : n ∉ entries g → result !! n = Some d → next result n ⊆ d;
  inv_lower n d x : result !! n = Some d → dominates g x n → x ∈ d
}.

Lemma inv_nodes r n d : inv r → r !! n = Some d → n ∈ nodes.
Proof. intros Hi Hn. rewrite <-(inv_dom _ Hi). by eapply elem_of_dom_2. Qed.

Lemma next_lower r n x : inv r → n ∈ nodes → n ∉ entries g → dominates g x n → x ∈ next r n.
Proof.
  intros Hi Hn Hne Hx. apply next_spec; [apply Hi|done..|].
  destruct (decide (x = n)) as [|Hxn]; [by left|right]. intros p d Hp Hd.
  apply (inv_lower _ Hi p); [done|]. apply dominates_reach. intros e He Hr.
  apply (proj1 (dominates_reach g x n) Hx e He). apply pred_edge in Hp as [Hp _].
  eapply reach_snoc; [done|done|set_solver].
Qed.

Lemma inv_update r n d :
  inv r → n ∉ entries g → r !! n = Some d → inv (<[n := next r n]> r).
Proof.
  intros Hi Hne Hd. pose proof (inv_nodes _ _ _ Hi Hd) as Hn.
  pose proof (inv_decr _ Hi n d Hne Hd) as Hsub.
  assert (Hdom : dom (<[n := next r n]> r) = nodes).
  { rewrite dom_insert_L, (inv_dom _ Hi). set_solver. }
  assert (Hmono : ∀ k, k ∈ nodes → k ∉ entries g → next (<[n := next r n]> r) k ⊆ next r k).
  { intros k Hk Hke x. rewrite !next_spec by (done || apply Hi).
    intros [->|Hx]; [by left|right]. intros p d' Hp Hd'. destruct (decide (p = n)) as [->|Hpn].
    - assert (d' = d) as -> by congruence. apply Hsub. apply (Hx n); [done|apply lookup_insert_eq].
    - apply (Hx p); [done|]. by rewrite lookup_insert_ne. }
  split; [done|..].
  - intros e He. rewrite lookup_insert_ne by (intros ->; done). by apply Hi.
  - intros k d' Hk. destruct (decide (k = n)) as [->|Hkn].
    + rewrite lookup_insert_eq in Hk. injection Hk as <-. rewrite Hsub. by apply (inv_sub _ Hi n).
    + rewrite lookup_insert_ne in Hk by done. by apply (inv_sub _ Hi k).
  - intros k d' Hke Hk. destruct (decide (k = n)) as [->|Hkn].
    + rewrite lookup_insert_eq in Hk. injection Hk as <-. by apply Hmono.
    + rewrite lookup_insert_ne in Hk by done. rewrite Hmono; [by apply (inv_decr _ Hi)| |done].
      by eapply inv_nodes.
  - intros k d' x Hk Hx. destruct (decide (k = n)) as [->|Hkn].
    + rewrite lookup_insert_eq in Hk. injection Hk as <-. by apply next_lower.
    + rewrite lookup_insert_ne in Hk by done. by apply (inv_lower _ Hi k).
Qed.

(** [n] needs no further update. *)
Definition stable (r : gmap Z (gset Z)) (n : Z) : Prop := n ∈ entries g ∨ r !! n = Some (next r n).

Lemma step_spec r c n :
  inv r → n ∈ nodes →
  (dominators_step nodes (entries g) P (r, c) n = (r, c) ∧ stable r n) ∨
  ∃ r', dominators_step nodes (entries g) P (r, c) n = (r', true) ∧ inv r' ∧
    (edge_count r' < edge_count r)%nat.
Proof.
  intros Hi Hn. unfold dominators_step, stable. case_decide as Hr.
  { left. split; [done|]. left. by apply elem_of_roots. }
  rewrite elem_of_roots in Hr. case_decide as Hs; [by left; auto|]. right.
  assert (n ∈ dom r) as [d Hd]%elem_of_dom by by rewrite (inv_dom _ Hi).
  eexists. split; [done|]. split; [by eapply inv_update|].
  pose proof (inv_decr _ Hi n d Hr Hd) as Hsub. pose proof (edge_count_insert r n (next r n) d Hd).
  assert (size (next r n) < size d)%nat; [|lia].
  apply subset_size. split; [done|]. intros Hds. apply Hs. rewrite Hd. f_equal.
  apply set_eq. intros x. split; [apply Hds|apply Hsub].
Qed.

Lemma pass_spec ns r c :
  inv r → (∀ n, n ∈ ns → n ∈ nodes) →
  (foldl (dominators_step nodes (entries g) P) (r, c) ns = (r, c) ∧ ∀ n, n ∈ ns → stable r n) ∨
  ∃ r', foldl (dominators_step nodes (entries g) P) (r, c) ns = (r', true) ∧ inv r' ∧
    (edge_count r' < edge_count r)%nat.
Proof.
  revert r c; induction ns as [|n ns IH]; intros r c Hi Hns; cbn [foldl]; [left; set_solver|].
  destruct (step_spec r c n) as [[-> Hst]|(r' & -> & Hi' & Hlt)]; [done|set_solver|..].
  - destruct (IH r c) as [[-> Hall]|?]; [done|set_solver| |by right]. left. split; [done|set_solver].
  - right. destruct (IH r' true) as [[-> _]|(r'' & -> & Hi'' & Hlt')]; [done|set_solver|by eauto|].
    exists r''. split_and!; [done|done|lia].
Qed.

Lemma loop_spec fuel r :
  inv r → (edge_count r < fuel)%nat →
  ∃ r', dominators_loop nodes (entries g) P fuel r = Done r' ∧ inv r' ∧ ∀ n, n ∈ nodes → stable r' n.
Proof.
  revert r; induction fuel as [|fuel IH]; intros r Hi Hf; [lia|]. cbn [dominators_loop].
  destruct (pass_spec (asc nodes) r false) as [[-> Hall]|(r' & -> & Hi' & Hlt)].
  - done.
  - intros n. by rewrite elem_of_asc.
  - exists r. split_and!; [done|done|]. intros n Hn. apply Hall. by apply elem_of_asc.
  - apply IH; [done|lia].
Qed.
Lemma initial_lookup n :
  initial nodes (entries g) P !! n =
  if decide (n ∈ nodes) then Some (if decide (n ∈ roots) then {[n]} else nodes) else None.
Proof.
  unfold initial. set (f := λ n : Z, (n, if decide (n ∈ roots) then {[n]} else nodes)).
  assert (Hfst : (f <$> asc nodes).*1 = asc nodes).
  { rewrite <-list_fmap_compose. apply list_fmap_id. }
  case_decide as Hn.
  - apply elem_of_list_to_map_1; [rewrite Hfst; apply NoDup_asc|].
    change (n, if decide (n ∈ roots) then {[n]} else nodes) with (f n).
    apply list_elem_of_fmap_2. by apply elem_of_asc.
  - apply not_elem_of_list_to_map_1. by rewrite Hfst, elem_of_asc.
Qed.

Lemma initial_inv : inv (initial nodes (entries g) P).
Proof.
  assert (Hdom : dom (initial nodes (entries g) P) = nodes).
  { apply set_eq. intros n. rewrite elem_of_dom, initial_lookup. case_decide; [by eauto|].
    split; [by intros []|done]. }
  split; [done|..].
  - intros e He. rewrite initial_lookup, !decide_True; [done|by apply elem_of_roots|by apply entries_nodes].
  - intros n d. rewrite initial_lookup. repeat case_decide; intros [= <-]; set_solver.
  - intros n d Hne. rewrite initial_lookup. case_decide as Hn; [|done].
    rewrite decide_False by (by rewrite elem_of_roots). intros [= <-] x.
    rewrite next_spec by done. intros [->|Hx]; [done|].
    assert (n ∉ roots) as Hr by by rewrite elem_of_roots.
    unfold Loops.roots in Hr. rewrite elem_of_filter in Hr.
    assert (default ∅ (P !! n) ≠ ∅) as [p Hp]%set_choose_L by tauto.
    apply elem_of_targets in Hp. pose proof (proj2 (proj1 (pred_edge _ _) Hp)) as Hpn.
    specialize (Hx p _ Hp ltac:(rewrite initial_lookup, decide_True by done; reflexivity)).
    case_decide; set_solver.
  - intros n d x. rewrite initial_lookup. repeat case_decide; intros [= <-] Hx.
    + apply elem_of_singleton, list_elem_of_singleton.
      apply (Hx n); [by apply elem_of_roots|constructor].
    + apply Hnodes. assert (Hn : reachable g n) by by apply Hnodes. destruct Hn as (e & He & Hr).
      destruct (reach_through _ ∅ x e n Hr) as [Hr'|[Hr' _]]; [|by exists e].
      exfalso. rewrite dominates_reach in Hx. apply (Hx e He). by rewrite (right_id_L ∅ (∪)) in Hr'.
Qed.

Lemma stable_upper r e n d x :
  inv r → (∀ n, n ∈ nodes → stable r n) → e ∈ entries g → reach (successors g) {[x]} e n →
  r !! n = Some d → x ∉ d.
Proof.
  intros Hi Hst He [Hex Hr]. revert n Hr d. apply (rtc_ind_r (λ n, ∀ d, r !! n = Some d → x ∉ d)).
  - intros d. rewrite (inv_entry _ Hi e He). intros [= <-]. set_solver.
  - intros y z Hy [Hz Hzx] IH d Hd.
    destruct (Hst z) as [Hze|Hze]; [by eapply inv_nodes| |].
    + rewrite (inv_entry _ Hi z Hze) in Hd. injection Hd as <-. set_solver.
    + assert (y ∈ nodes) as Hyn.
      { apply Hnodes. exists e. split; [done|]. apply (reach_weaken _ _ {[x]}); [set_solver|by split]. }
      assert (y ∈ dom r) as [dy Hdy]%elem_of_dom by by rewrite (inv_dom _ Hi).
      destruct (decide (z ∈ entries g)) as [Hent|Hent].
      { rewrite (inv_entry _ Hi z Hent) in Hd. injection Hd as <-. set_solver. }
      rewrite Hze in Hd. injection Hd as <-. rewrite next_spec; [|apply Hi|by eapply nodes_closed|done].
      intros [->|Hx]; [set_solver|]. apply (IH dy Hdy). apply (Hx y); [|done]. by apply pred_edge.
Qed.

Lemma dominators_spec :
  ∃ r, dominators nodes (entries g) P = Done r ∧ dom r = nodes ∧
    ∀ n d, n ∈ nodes → d ∈ default ∅ (r !! n) ↔ dominates g d n.
Proof.
  destruct (loop_spec (S (size nodes * size nodes)) (initial nodes (entries g) P)) as (r & Hr & Hi & Hst).
  { apply initial_inv. }
  { pose proof (edge_count_bound (initial nodes (entries g) P) (size nodes)) as Hb.
    rewrite (inv_dom _ initial_inv) in Hb. apply Nat.lt_succ_r, Hb.
    intros n d Hd. apply subseteq_size. by apply (inv_sub _ initial_inv n). }
  exists r. split_and!; [done|apply Hi|]. intros n x Hn.
  assert (n ∈ dom r) as [d Hd]%elem_of_dom by by rewrite (inv_dom _ Hi).
  rewrite Hd. simpl. split; [|by apply (inv_lower _ Hi)].
  intros Hx. apply dominates_reach. intros e He Hre. by apply (stable_upper r e n d x).
Qed.
End analysis.
End Dom.

(** The dominator analysis of [analyze] terminates on every graph: the nodes it
    works on are exactly those reachable from an entry, and the set it computes for such
    a node holds exactly the blocks that every path from an entry to the node visits. *)
Theorem dominators_exact (g : ControlFlowGraph) :
  ∃ nodes doms,
    reachable_nodes g = Done nodes ∧
    dominators nodes (entries g) (predecessors nodes (successors g)) = Done doms ∧
    (∀ n, n ∈ nodes ↔ Reach.reachable g n) ∧ dom doms = nodes ∧
    ∀ n d, n ∈ nodes → d ∈ default ∅ (doms !! n) ↔ Dom.dominates g d n.
Proof.
  destruct (Reach.reachable_nodes_spec g) as (nodes & Hn & Hnodes).
  destruct (Dom.dominators_spec g nodes Hnodes) as (doms & Hd & Hdom & Hdoms). by exists nodes, doms.
Qed.
