(* ===== verification/LoopsScc.v ===== *)
(** * Strongly connected components

    Kosaraju's two passes of [Loops.v]: the order in which the depth-first search
    finishes nodes, and that collecting backwards in that order yields exactly the
    classes of mutually reachable nodes. *)

From S2P Require Import Prelude Loops LoopsReach.
Open Scope Z_scope.
Import Loops.

(** ** Strongly connected components *)
Module Scc.
Import Reach Dom.

(** [a] and [b] reach each other outside [v]. *)
Definition mutual (m : gmap Z (gset Z)) (v : gset Z) (a b : Z) : Prop :=
  reach m v a b ∧ reach m v b a.

(** [c] is in [l], no later than [y]. *)
Definition before (l : list Z) (c y : Z) : Prop := ∃ l1 l2, l = l1 ++ c :: l2 ∧ y ∈ c :: l2.

Lemma before_app_l l k c y : before l c y → before (l ++ k) c y.
Proof.
  intros (l1 & l2 & -> & Hy). exists l1, (l2 ++ k). split; [by rewrite <-app_assoc|].
  rewrite app_comm_cons. set_solver.
Qed.

Lemma before_app_r l k c y : before l c y → before (k ++ l) c y.
Proof. intros (l1 & l2 & -> & Hy). exists (k ++ l1), l2. split; [by rewrite <-app_assoc|done]. Qed.

Lemma before_cross l k c y : c ∈ l → y ∈ k → before (l ++ k) c y.
Proof.
  intros (l1 & l2 & ->)%list_elem_of_split Hy. exists l1, (l2 ++ k).
  split; [by rewrite <-app_assoc|]. set_solver.
Qed.

Lemma before_elem l c y : before l c y → c ∈ l ∧ y ∈ l.
Proof. intros (l1 & l2 & -> & Hy). set_solver. Qed.

(** The first occurrence in a duplicate-free list is where the list is split. *)
Lemma before_split l k c y : NoDup (l ++ y :: k) → before (l ++ y :: k) c y → c ∈ l ∨ c = y.
Proof.
  intros Hnd (l1 & l2 & E & Hy). apply app_eq_inv in E as [(k' & -> & E)|(k' & -> & E)].
  - destruct k' as [|z k']; simplify_eq/=; [by right|]. left. set_solver.
  - destruct k' as [|z k']; simplify_eq/=; [by right|]. exfalso.
    rewrite NoDup_app, NoDup_cons in Hnd. set_solver.
Qed.

Section first_pass.
Context (m : gmap Z (gset Z)).
Implicit Types v : gset Z.

Lemma mutual_sym v a b : mutual m v a b → mutual m v b a.
Proof. by intros [??]. Qed.

Lemma mutual_trans v a b c : mutual m v a b → mutual m v b c → mutual m v a c.
Proof. intros [??] [??]. split; by eapply reach_trans. Qed.

Lemma mutual_refl v a : a ∉ v → mutual m v a a.
Proof. split; by apply reach_refl. Qed.

Lemma mutual_weaken v v' a b : v ⊆ v' → mutual m v' a b → mutual m v a b.
Proof. intros ? []. split; by eapply reach_weaken. Qed.

(** [new] is what the search from [ns] outside [v] finishes, last finished first: every
    reachable node, each with a member of its component no later than all it reaches. *)
Record visits (v : gset Z) (ns new : list Z) : Prop := {
  visits_reach y : y ∈ new ↔ ∃ x, x ∈ ns ∧ reach m v x y;
  visits_order x y : x ∈ new → reach m v x y → ∃ c, mutual m v c x ∧ before new c y;
  visits_nodup : NoDup new
}.

Lemma visits_not v ns new y : visits v ns new → y ∈ new → y ∉ v.
Proof. intros H Hy. apply (visits_reach _ _ _ H) in Hy as (x & _ & Hr). by eapply reach_not. Qed.

Lemma visits_closed v ns new x y : visits v ns new → x ∈ new → reach m v x y → y ∈ new.
Proof.
  intros H Hx Hr. destruct (visits_order _ _ _ H x y Hx Hr) as (c & _ & [_ ?]%before_elem). done.
Qed.

(** A path stays outside a closed set or ends in it. *)
Lemma reach_closed v X a b :
  (∀ x y, x ∈ X → reach m v x y → y ∈ X) →
  reach m v a b → reach m (v ∪ X) a b ∨ b ∈ X.
Proof.
  intros HX [Ha H]. revert b H. apply rtc_ind_r.
  - destruct (decide (a ∈ X)); [by right|left]. apply reach_refl. set_solver.
  - intros y z Hy [Hz Hzv] [IH|IH].
    + destruct (decide (z ∈ X)); [by right|left]. eapply reach_snoc; [done|done|set_solver].
    + right. apply (HX y); [done|]. apply (reach_snoc _ _ _ y); [|done|done].
      apply reach_refl, (reach_not m v a). by split.
Qed.

Lemma visits_nil v : visits v [] [].
Proof. split; [set_solver|set_solver|constructor]. Qed.

Lemma visits_seen v n : n ∈ v → visits v [n] [].
Proof.
  intros Hn. split; [|set_solver|constructor]. intros y. split; [set_solver|].
  intros (x & ->%list_elem_of_singleton & Hx & _). done.
Qed.

Lemma visits_seq v n ns new1 new2 :
  visits v [n] new1 → visits (v ∪ list_to_set new1) ns new2 → visits v (n :: ns) (new2 ++ new1).
Proof.
  intros H1 H2.
  assert (Hcl : ∀ x y, x ∈ (list_to_set new1 : gset Z) → reach m v x y → y ∈ (list_to_set new1 : gset Z)).
  { intros x y. rewrite !elem_of_list_to_set. by apply (visits_closed _ _ _ _ _ H1). }
  assert (Hw : v ⊆ v ∪ list_to_set new1) by set_solver. split.
  - intros y. rewrite elem_of_app, (visits_reach _ _ _ H1), (visits_reach _ _ _ H2). split.
    + intros [(x & Hx & Hr)|(x & Hx & Hr)]; exists x; [|set_solver].
      split; [by right|]. by eapply reach_weaken.
    + intros (x & Hx & Hr). destruct (reach_closed v _ x y Hcl Hr) as [Hr'|Hy].
      * apply elem_of_cons in Hx as [->|Hx]; [right; exists n; set_solver|left; by exists x].
      * right. apply (visits_reach _ _ _ H1). by apply elem_of_list_to_set in Hy.
  - intros x y [Hx|Hx]%elem_of_app Hr.
    + destruct (reach_closed v _ x y Hcl Hr) as [Hr'|Hy%elem_of_list_to_set].
      * destruct (visits_order _ _ _ H2 x y Hx Hr') as (c & Hc & Hb).
        exists c. split; [by eapply mutual_weaken|by apply before_app_l].
      * destruct (visits_order _ _ _ H2 x x Hx) as (c & Hc & [Hb _]%before_elem).
        { apply reach_refl. by eapply visits_not. }
        exists c. split; [by eapply mutual_weaken|by apply before_cross].
    + destruct (visits_order _ _ _ H1 x y Hx Hr) as (c & Hc & Hb).
      exists c. split; [done|by apply before_app_r].
  - apply NoDup_app. split_and!; [by eapply visits_nodup| |by eapply visits_nodup].
    intros y Hy Hy'. apply (visits_not _ _ _ _ H2) in Hy. set_solver.
Qed.

Lemma visits_node v n new :
  n ∉ v → visits ({[n]} ∪ v) (targets m n) new → visits v [n] (n :: new).
Proof.
  intros Hn H. assert (Hw : v ⊆ {[n]} ∪ v) by set_solver.
  assert (Hfrom : ∀ y, y ∈ new → reach m v n y).
  { intros y (x & Hx & Hr)%(visits_reach _ _ _ H). apply (reach_trans _ _ _ x).
    - apply (reach_snoc _ _ _ n); [by apply reach_refl|done|]. destruct Hr. set_solver.
    - by eapply reach_weaken. }
  assert (Hto : ∀ y, reach m v n y → y ∈ n :: new).
  { intros y [->|(t & Ht & Hr)]%reach_leave; [left|right]. apply (visits_reach _ _ _ H). by exists t. }
  split.
  - intros y. split; [|by intros (x & ->%list_elem_of_singleton & ?); auto].
    intros Hy. exists n. split; [left|]. apply elem_of_cons in Hy as [->|Hy]; [by apply reach_refl|auto].
  - intros x y [->|Hx]%elem_of_cons Hr.
    + exists n. split; [by apply mutual_refl|]. exists [], new. split; [done|auto].
    + destruct (reach_through _ v n x y Hr) as [Hr'|[Hxn Hny]].
      * destruct (visits_order _ _ _ H x y Hx Hr') as (c & Hc & Hb).
        exists c. split; [by eapply mutual_weaken|]. by apply (before_app_r _ [n]).
      * exists n. split; [split; auto|]. exists [], new. split; [done|auto].
  - constructor; [|by eapply visits_nodup]. intros Hin%(visits_not _ _ _ _ H). set_solver.
Qed.

Lemma visit_list fuel (V : gset Z) :
  (∀ v order n, n ∈ V → (size (V ∖ v) < fuel)%nat →
    ∃ new, visit fuel m (v, order) n = Done (v ∪ list_to_set new, new ++ order) ∧ visits v [n] new) →
  ∀ ns v order, (∀ n, n ∈ ns → n ∈ V) → (size (V ∖ v) < fuel)%nat →
    ∃ new, fold_outcome (visit fuel m) ns (v, order) = Done (v ∪ list_to_set new, new ++ order) ∧
      visits v ns new.
Proof.
  intros Hvisit. induction ns as [|n ns IH]; intros v order Hns Hf; cbn [fold_outcome].
  { exists []. split; [|apply visits_nil]. simpl. by rewrite (right_id_L ∅ (∪)). }
  destruct (Hvisit v order n) as (new1 & -> & H1); [set_solver|done|].
  destruct (IH (v ∪ list_to_set new1) (new1 ++ order)) as (new2 & -> & H2); [set_solver| |].
  { eapply Nat.le_lt_trans; [|exact Hf]. apply subseteq_size. set_solver. }
  exists (new2 ++ new1). split; [|by eapply visits_seq]. rewrite <-app_assoc. do 2 f_equal. set_solver.
Qed.

Lemma visit_spec (V : gset Z) :
  (∀ a b, a ∈ V → b ∈ targets m a → b ∈ V) →
  ∀ fuel v order n, n ∈ V → (size (V ∖ v) < fuel)%nat →
    ∃ new, visit fuel m (v, order) n = Done (v ∪ list_to_set new, new ++ order) ∧ visits v [n] new.
Proof.
  intros HV. induction fuel as [|fuel IH]; intros v order n Hn Hf; [lia|]. cbn [visit].
  case_decide as Hv.
  { exists []. split; [|by apply visits_seen]. simpl. by rewrite (right_id_L ∅ (∪)). }
  destruct (visit_list fuel V IH (targets m n) ({[n]} ∪ v) order) as (new & -> & Hnew).
  { intros t. by apply HV. }
  { assert (size (V ∖ ({[n]} ∪ v)) < size (V ∖ v))%nat; [|lia]. apply subset_size. set_solver. }
  exists (n :: new). split; [|by apply visits_node]. simpl. do 2 f_equal. set_solver.
Qed.
End first_pass.

(** [c] is the component of [x]. *)
Definition component_of (m : gmap Z (gset Z)) (x : Z) (c : gset Z) : Prop :=
  ∀ y, y ∈ c ↔ mutual m ∅ x y.

Lemma component_unique m x y c c' :
  component_of m x c → component_of m y c' → mutual m ∅ x y → c = c'.
Proof.
  intros Hc Hc' Hxy. apply set_eq. intros z. rewrite (Hc z), (Hc' z).
  split; intros; eapply mutual_trans; eauto. by apply mutual_sym.
Qed.

Section second_pass.
Context (g : ControlFlowGraph) (nodes : gset Z).
Context (Hnodes : ∀ n, n ∈ nodes ↔ reachable g n).
Local Notation m := (successors g).
Local Notation P := (predecessors nodes (successors g)).

Lemma nodes_reach a b : a ∈ nodes → reach m ∅ a b → b ∈ nodes.
Proof. intros (e & He & Hr)%Hnodes Hab. apply Hnodes. exists e. split; [done|by eapply reach_trans]. Qed.

Lemma reach_back W a b : reach P W a b → reach m ∅ b a.
Proof.
  intros [_ H]. revert b H. apply rtc_ind_r; [apply reach_refl; set_solver|].
  intros y z _ [Hz _] IH. apply (pred_edge g nodes Hnodes) in Hz as [Hz _].
  eapply reach_trans; [|exact IH]. apply (reach_snoc _ _ _ z); [apply reach_refl; set_solver|done|set_solver].
Qed.

Section component.
Context (L1 rest : list Z) (n : Z) (W : gset Z).
Context (Hord : visits m ∅ (asc nodes) (L1 ++ n :: rest)).
Context (HW : ∀ y, y ∈ W ↔ ∃ x, x ∈ L1 ∧ mutual m ∅ x y).
Context (Hn : n ∈ nodes) (HnW : n ∉ W).

Lemma back_reach_mutual y : reach P W n y ↔ mutual m ∅ n y.
Proof.
  split.
  - intros Hr. pose proof (reach_not _ _ _ _ Hr) as HyW. apply reach_back in Hr as Hyn.
    assert (y ∈ L1 ++ n :: rest) as Hy.
    { destruct Hr as [_ Hr]. apply (visits_reach _ _ _ _ Hord). exists y.
      split; [|apply reach_refl; set_solver]. apply elem_of_asc.
      apply rtc_inv_r in Hr as [->|(z & _ & Hz & _)]; [done|].
      by apply (pred_edge g nodes Hnodes) in Hz as []. }
    destruct (visits_order _ _ _ _ Hord y n Hy Hyn) as (c & Hc & Hb).
    apply before_split in Hb as [HcL| ->]; [|done|by eapply visits_nodup].
    exfalso. apply HyW, HW. by exists c.
  - intros [Hny Hyn]. destruct Hyn as [_ Hyn]. induction Hyn as [n|y z n [Hyz _] Hzn IH].
    { by apply reach_refl. }
    assert (Hyn : reach m ∅ y n).
    { split; [set_solver|]. eapply rtc_l; [|done]. split; [done|set_solver]. }
    apply (reach_snoc _ _ _ z).
    + apply IH; try done. apply (reach_snoc _ _ _ y); [done|done|set_solver].
    + apply (pred_edge g nodes Hnodes). split; [done|]. by eapply nodes_reach.
    + intros (x & Hx & Hxy)%HW. apply HnW, HW. exists x. split; [done|].
      eapply mutual_trans; [done|]. by split.
Qed.

Lemma collect_component :
  ∃ c, collect (S (edge_count P)) P [n] W ∅ = Done (W ∪ c, c) ∧ component_of m n c.
Proof.
  destruct (flood_spec P (S (edge_count P)) [n] W) as (v & Hv & Hspec).
  { pose proof (open_edges_le P W). simpl. lia. }
  rewrite (collect_flood _ _ _ _ _ _ Hv). exists (v ∖ W).
  assert (Hc : ∀ y, y ∈ v ∖ W ↔ mutual m ∅ n y).
  { intros y. rewrite <-back_reach_mutual, elem_of_difference, Hspec. unfold todo. split.
    - intros [[?|(x & ->%list_elem_of_singleton & Hr)] Hy]; done.
    - intros Hr. split; [|by eapply reach_not]. right. exists n. split; [left|done]. }
  split; [|done]. apply flood_mono in Hv. do 2 f_equal; [|set_solver].
  apply set_eq. intros y. rewrite elem_of_union, elem_of_difference. destruct (decide (y ∈ W)); set_solver.
Qed.
End component.

(** The components found from the nodes [L1]. *)
Record found (L1 : list Z) (W : gset Z) (cs : list (gset Z)) : Prop := {
  found_visited y : y ∈ W ↔ ∃ x, x ∈ L1 ∧ mutual m ∅ x y;
  found_components c : c ∈ cs ↔ ∃ x, x ∈ L1 ∧ component_of m x c;
  found_nodup : NoDup cs
}.

Lemma found_seen L1 W cs n : found L1 W cs → n ∈ W → found (L1 ++ [n]) W cs.
Proof.
  intros Hf HnW. pose proof HnW as (x0 & Hx0 & Hx0n)%(found_visited _ _ _ Hf).
  split; [..|by eapply found_nodup].
  - intros y. rewrite (found_visited _ _ _ Hf). split; intros (x & Hx & Hxy); [set_solver|].
    apply elem_of_app in Hx as [Hx| ->%list_elem_of_singleton]; [by exists x|].
    exists x0. split; [done|by eapply mutual_trans].
  - intros c. rewrite (found_components _ _ _ Hf). split; intros (x & Hx & Hxc); [set_solver|].
    apply elem_of_app in Hx as [Hx| ->%list_elem_of_singleton]; [by exists x|].
    exists x0. split; [done|]. intros y. rewrite (Hxc y).
    split; intros; eapply mutual_trans; eauto. by apply mutual_sym.
Qed.

Lemma found_new L1 W cs n c :
  found L1 W cs → n ∉ W → component_of m n c → found (L1 ++ [n]) (W ∪ c) (cs ++ [c]).
Proof.
  intros Hf HnW Hc. split.
  - intros y. rewrite elem_of_union, (found_visited _ _ _ Hf), (Hc y). set_solver.
  - intros c'. rewrite elem_of_app, list_elem_of_singleton, (found_components _ _ _ Hf). split.
    + intros [(x & ? & ?)| ->]; [set_solver|]. exists n. set_solver.
    + intros (x & [Hx| ->%list_elem_of_singleton]%elem_of_app & Hxc); [left; by exists x|right].
      apply (component_unique m n n); [done..|]. apply mutual_refl. set_solver.
  - apply NoDup_app. split_and!; [by eapply found_nodup| |apply NoDup_singleton].
    intros c' Hc' ->%list_elem_of_singleton. apply HnW, (found_visited _ _ _ Hf).
    apply (found_components _ _ _ Hf) in Hc' as (x & Hx & Hxc). exists x. split; [done|].
    apply Hxc, Hc, mutual_refl. set_solver.
Qed.

Lemma components_loop_spec rest L1 W cs :
  visits m ∅ (asc nodes) (L1 ++ rest) → found L1 W cs →
  ∃ W' cs', components_loop P rest W cs = Done cs' ∧ found (L1 ++ rest) W' cs'.
Proof.
  revert L1 W cs; induction rest as [|n rest IH]; intros L1 W cs Hord Hf; cbn [components_loop].
  { exists W, cs. by rewrite app_nil_r. }
  assert (Hn : n ∈ nodes).
  { assert (n ∈ L1 ++ n :: rest) as (x & Hx & Hr)%(visits_reach _ _ _ _ Hord) by set_solver.
    rewrite elem_of_asc in Hx. by eapply nodes_reach. }
  rewrite (cons_middle n L1 rest), app_assoc. case_decide as HnW.
  - apply IH; [by rewrite <-app_assoc|by apply found_seen].
  - destruct (collect_component L1 rest n W Hord (found_visited _ _ _ Hf) Hn HnW) as (c & -> & Hc).
    apply IH; [by rewrite <-app_assoc|by apply found_new].
Qed.

Lemma scc_spec :
  ∃ cs, strongly_connected_components nodes m = Done cs ∧ NoDup cs ∧
    ∀ c, c ∈ cs ↔ ∃ x, x ∈ nodes ∧ component_of m x c.
Proof.
  unfold strongly_connected_components.
  destruct (visit_list m (S (size nodes)) nodes) with (ns := asc nodes) (v := (∅ : gset Z)) (order := @nil Z)
    as (order & -> & Hord).
  { apply visit_spec. intros a b. by apply (nodes_closed g nodes Hnodes). }
  { intros n. by rewrite elem_of_asc. }
  { apply Nat.lt_succ_r, subseteq_size. set_solver. }
  destruct (components_loop_spec order [] ∅ []) as (W & cs & Hcs & Hf).
  { done. }
  { split; [set_solver|set_solver|constructor]. }
  simpl. rewrite app_nil_r. exists cs. split_and!; [done|by eapply found_nodup|].
  intros c. rewrite (found_components _ _ _ Hf). simpl.
  assert (∀ x, x ∈ order ↔ x ∈ nodes) as Hx; [|by setoid_rewrite Hx].
  intros x. rewrite (visits_reach _ _ _ _ Hord). setoid_rewrite elem_of_asc.
  split; [intros (y & Hy & Hr); by eapply nodes_reach|]. intros Hx. exists x. split; [done|].
  apply reach_refl. set_solver.
Qed.

(** [is_cycle] on a component: some node of it reaches itself by at least one edge. *)
Lemma is_cycle_spec x c :
  component_of m x c →
  is_cycle m c = true ↔ ∃ a, a ∈ c ∧ tc (step m ∅) a a.
Proof.
  intros Hc. unfold is_cycle. rewrite orb_true_iff, Nat.ltb_lt, List.existsb_exists.
  setoid_rewrite <-list_elem_of_In. setoid_rewrite elem_of_asc. setoid_rewrite bool_decide_eq_true.
  assert (Hcm : ∀ a b, a ∈ c → b ∈ c → mutual m ∅ a b).
  { intros a b Ha%Hc Hb%Hc. eapply mutual_trans; [by apply mutual_sym|done]. }
  split.
  - intros [Hs|(a & Ha & Haa)].
    + destruct (size_pos_elem_of c) as [a Ha]; [lia|].
      assert (∃ b, b ∈ c ∧ b ≠ a) as (b & Hb & Hba).
      { destruct (set_choose_or_empty (c ∖ {[a]})) as [[b Hb]|He]; [exists b; set_solver|].
        exfalso. assert (c ⊆ {[a]}) as Hle by (intros z Hz; destruct (decide (z = a)); set_solver).
        apply subseteq_size in Hle. rewrite size_singleton in Hle. lia. }
      exists a. split; [done|]. destruct (Hcm a b Ha Hb) as [[_ Hab] [_ Hba']].
      apply rtc_inv in Hab as [->|(z & Hz & Hzb)]; [done|].
      eapply tc_rtc_r; [by eapply tc_rtc_r; [apply tc_once|]|done].
    + exists a. split; [done|]. apply tc_once. split; [by apply elem_of_targets|set_solver].
  - intros (a & Ha & Haa). destruct (decide (1 < size c)%nat) as [|Hs]; [by left|right].
    exists a. split; [done|]. rewrite <-elem_of_targets.
    assert (∀ b, b ∈ c → b = a) as Hone.
    { intros b Hb. destruct (decide (b = a)) as [|Hne]; [done|]. exfalso. apply Hs.
      assert ({[a; b]} ⊆ c) as Hle%subseteq_size by set_solver.
      rewrite size_union, !size_singleton in Hle by set_solver. lia. }
    assert (∃ b, step m ∅ a b ∧ rtc (step m ∅) b a) as (b & Hab & Hba).
    { inversion Haa; subst; [eexists; split; [done|reflexivity]|]. eexists. split; [done|by apply tc_rtc]. }
    assert (b ∈ c) as ->%Hone; [|apply Hab]. apply Hc. eapply mutual_trans; [by apply Hc|].
    split; [|split; [set_solver|done]]. split; [set_solver|by apply rtc_once].
Qed.

Lemma is_irreducible_spec doms c :
  dom doms = nodes → (∀ n d, n ∈ nodes → d ∈ default ∅ (doms !! n) ↔ dominates g d n) →
  c ⊆ nodes →
  is_irreducible doms c = true ↔ ¬ ∃ h, h ∈ c ∧ ∀ b, b ∈ c → dominates g h b.
Proof.
  intros Hdom Hd Hc. unfold is_irreducible. rewrite negb_true_iff, <-not_true_iff_false. f_equiv.
  rewrite List.existsb_exists. setoid_rewrite <-list_elem_of_In. setoid_rewrite elem_of_asc.
  setoid_rewrite andb_true_iff. setoid_rewrite bool_decide_eq_true. setoid_rewrite forallb_forall.
  setoid_rewrite <-list_elem_of_In. setoid_rewrite elem_of_asc. rewrite Hdom.
  assert (Hb : ∀ b h, b ∈ c → dominated_by doms b h = true ↔ dominates g h b).
  { intros b h Hb. rewrite <-Hd by auto. unfold dominated_by.
    destruct (doms !! b); simpl; [apply bool_decide_eq_true|set_solver]. }
  split.
  - intros (h & Hh & _ & Hall). exists h. split; [done|]. intros b Hbc. by apply Hb, Hall.
  - intros (h & Hh & Hall). exists h. split_and!; [done|auto|]. intros b Hbc. by apply Hb, Hall.
Qed.
End second_pass.
End Scc.
