(* ===== verification/LoopsSpec.v ===== *)
(** * The loop analysis finds exactly the loops of the graph

    The natural loops of back edges and their nesting, the irreducible cycles, and the
    theorems about [analyze] of [Loops.v], on the reachability and dominance of
    [LoopsReach.v] and the components of [LoopsScc.v]. *)

From S2P Require Import Prelude Loops LoopsReach LoopsScc.
Open Scope Z_scope.
Import Loops.

(** ** Natural loops *)
Module Natural.
Import Reach Dom.

(** Dominance between two nodes. *)
Lemma dominates_cases g d n :
  dominates g d n ∨ ∃ e, e ∈ entries g ∧ reach (successors g) {[d]} e n.
Proof.
  destruct (decide (n = d)) as [->|Hne]; [left; apply dominates_refl|].
  destruct (flood_spec (successors g) (length (asc (entries g)) + edge_count (successors g))
              (asc (entries g)) {[d]}) as (v & _ & Hv).
  { pose proof (open_edges_le (successors g) {[d]}). lia. }
  unfold todo in Hv. setoid_rewrite elem_of_asc in Hv.
  destruct (decide (n ∈ v)) as [Hn|Hn]; [right|left].
  - apply Hv in Hn as [?%elem_of_singleton|?]; done.
  - apply dominates_reach. intros e He Hr. apply Hn, Hv. right. by exists e.
Qed.

Section two_nodes.
Context (m : gmap Z (gset Z)) (a b : Z) (Hab : a ≠ b).

(** The first of [a] and [b] on a path is reached without the other. *)
Lemma first_of e n :
  reach m ∅ e n → reach m {[a; b]} e n ∨ reach m {[b]} e a ∨ reach m {[a]} e b.
Proof.
  intros [_ H]. revert n H. apply rtc_ind_r.
  - destruct (decide (e = a)) as [->|]; [right; left; apply reach_refl; set_solver|].
    destruct (decide (e = b)) as [->|]; [right; right; apply reach_refl; set_solver|].
    left. apply reach_refl. set_solver.
  - intros y z _ [Hz _] [IH|IH]; [|by right].
    destruct (decide (z = a)) as [->|]; [|destruct (decide (z = b)) as [->|]].
    + right; left. apply (reach_snoc _ _ _ y); [|done|set_solver]. eapply reach_weaken; [|done]. set_solver.
    + right; right. apply (reach_snoc _ _ _ y); [|done|set_solver]. eapply reach_weaken; [|done]. set_solver.
    + left. apply (reach_snoc _ _ _ y); [done|done|set_solver].
Qed.

(** From the last of [a] and [b] a path goes on without the other. *)
Lemma last_of e n :
  reach m ∅ e n → reach m {[a; b]} e n ∨ reach m {[b]} a n ∨ reach m {[a]} b n.
Proof.
  assert (Hend : ∀ z, z = a ∨ z = b → reach m {[b]} a z ∨ reach m {[a]} b z).
  { intros z [->| ->]; [left|right]; apply reach_refl; set_solver. }
  intros [_ H]. revert n H. apply rtc_ind_r.
  - destruct (decide (e = a ∨ e = b)) as [He|He]; [right; auto|left; apply reach_refl; set_solver].
  - intros y z _ [Hz _] IH. destruct (decide (z = a ∨ z = b)) as [He|He]; [right; auto|].
    destruct IH as [IH|[IH|IH]]; [left|right; left|right; right]; (eapply reach_snoc; [done|done|set_solver]).
Qed.
End two_nodes.

Lemma dominates_antisym g a b :
  reachable g a → dominates g a b → dominates g b a → a = b.
Proof.
  rewrite !dominates_reach. intros (e & He & Hr) Hab Hba.
  destruct (decide (a = b)) as [|Hne]; [done|exfalso].
  destruct (first_of _ a b Hne _ _ Hr) as [H|[H|H]]; [|by apply (Hba e)|by apply (Hab e)].
  apply reach_not in H. set_solver.
Qed.

(** Two nodes that dominate a third: one comes after the other. *)
Lemma dominates_after g a b n :
  reachable g n → a ≠ b → dominates g a n → dominates g b n → ¬ dominates g b a →
  reach (successors g) {[a]} b n.
Proof.
  intros (e & He & Hr) Hne Ha Hb Hba.
  destruct (last_of _ a b Hne _ _ Hr) as [H|[H|H]]; [| |done]; exfalso.
  - rewrite dominates_reach in Ha. apply (Ha e He). eapply reach_weaken; [|done]. set_solver.
  - destruct (dominates_cases g b a) as [|(e' & He' & Hr')]; [done|].
    rewrite dominates_reach in Hb. apply (Hb e' He'). by eapply reach_trans.
Qed.

Lemma dominates_total g a b n :
  reachable g n → dominates g a n → dominates g b n → dominates g a b ∨ dominates g b a.
Proof.
  intros Hn Ha Hb. destruct (decide (a = b)) as [->|Hne]; [left; apply dominates_refl|].
  destruct (dominates_cases g a b) as [|(e & He & Hr)]; [by left|].
  destruct (dominates_cases g b a) as [|(e' & He' & Hr')]; [by right|]. exfalso.
  assert (reach (successors g) {[a]} b n) as H.
  { apply dominates_after; [done..|]. rewrite dominates_reach. intros H. by apply (H e'). }
  rewrite dominates_reach in Ha. apply (Ha e He). by eapply reach_trans.
Qed.

(** The blocks of the natural loop of the back edge from [t] to [h]. *)
Definition in_loop (g : ControlFlowGraph) (h t x : Z) : Prop :=
  x = h ∨ reachable g x ∧ rtc (step (successors g) {[h]}) x t.

Lemma push_new_spec ps pending bs :
  ∃ new, foldl push_new (pending, bs) ps = (new ++ pending, list_to_set new ∪ bs) ∧
    NoDup new ∧ ∀ x, x ∈ new ↔ x ∈ ps ∧ x ∉ bs.
Proof.
  revert pending bs; induction ps as [|p ps IH]; intros pending bs; cbn [foldl].
  { exists []. split_and!; [simpl; by rewrite (left_id_L ∅ (∪))|constructor|set_solver]. }
  unfold push_new at 2. case_decide as Hp.
  - destruct (IH pending bs) as (new & -> & Hnd & Hnew). exists new. split_and!; [done..|set_solver].
  - destruct (IH (p :: pending) ({[p]} ∪ bs)) as (new & -> & Hnd & Hnew).
    exists (new ++ [p]). split_and!.
    + rewrite <-app_assoc. simpl. f_equal. set_solver.
    + apply NoDup_app. split_and!; [done|set_solver|apply NoDup_singleton].
    + intros x. rewrite elem_of_app, list_elem_of_singleton, Hnew. destruct (decide (x = p)); set_solver.
Qed.

Section one_loop.
Context (g : ControlFlowGraph) (nodes : gset Z).
Context (Hnodes : ∀ n, n ∈ nodes ↔ reachable g n).
Local Notation m := (successors g).
Local Notation P := (predecessors nodes (successors g)).
Context (h t : Z) (Ht : t ∈ nodes).

Record loop_inv (pending : list Z) (bs : gset Z) : Prop := {
  loop_header : h ∈ bs;
  loop_latch : t ∈ bs;
  loop_pending x : x ∈ pending → x ∈ bs;
  loop_sound x : x ∈ bs → in_loop g h t x;
  loop_todo x : x ∈ bs → x ≠ h → x ∈ pending ∨ ∀ p, p ∈ targets P x → p ∈ bs
}.

Lemma loop_inv_header pending bs : loop_inv (h :: pending) bs → loop_inv pending bs.
Proof. intros []. split; [done|done|set_solver|done|]. intros x Hx Hxh. destruct (loop_todo0 x Hx Hxh); set_solver. Qed.

Lemma loop_inv_expand pending bs b new :
  b ≠ h → loop_inv (b :: pending) bs → (∀ x, x ∈ new ↔ x ∈ targets P b ∧ x ∉ bs) →
  loop_inv (new ++ pending) (list_to_set new ∪ bs).
Proof.
  intros Hbh [Hh Hl Hp Hs Htd] Hnew. split; [set_solver|set_solver|..].
  - intros x. rewrite elem_of_app, elem_of_union, elem_of_list_to_set. intros [?|?]; [by left|right]. apply Hp. by right.
  - intros x. rewrite elem_of_union, elem_of_list_to_set. intros [[Hx _]%Hnew|Hx]; [|auto].
    apply (pred_edge g nodes Hnodes) in Hx as [Hx Hxn]. right. split; [by apply Hnodes|].
    destruct (Hs b) as [|[_ Hb]]; [apply Hp; left|done|]. eapply rtc_l; [|done]. split; [done|set_solver].
  - intros x. rewrite elem_of_union, elem_of_list_to_set, elem_of_app. intros [Hx|Hx] Hxh; [auto|].
    destruct (Htd x Hx Hxh) as [[->|Hx']%elem_of_cons|Hx']; [right|auto|right; set_solver].
    intros p Hpb. destruct (decide (p ∈ bs)); [set_solver|]. rewrite elem_of_union, elem_of_list_to_set.
    left. by apply Hnew.
Qed.

Lemma loop_blocks_spec fuel pending bs :
  loop_inv pending bs → (length pending + size (nodes ∖ bs) ≤ fuel)%nat →
  ∃ bs', loop_blocks fuel h P pending bs = Done bs' ∧ loop_inv [] bs'.
Proof.
  revert pending bs; induction fuel as [|fuel IH]; intros [|b pending] bs Hi Hf; cbn [loop_blocks];
    [by eauto|simpl in Hf; lia|by eauto|].
  case_decide as Hb; [subst; apply IH; [by apply loop_inv_header|simpl in Hf; lia]|].
  destruct (push_new_spec (targets P b) pending bs) as (new & -> & Hnd & Hnew).
  apply IH; [by eapply loop_inv_expand|]. rewrite length_app. simpl in Hf.
  assert (length new + size (nodes ∖ (list_to_set new ∪ bs)) ≤ size (nodes ∖ bs))%nat; [|lia].
  rewrite <-(size_list_to_set (C := gset Z) new Hnd), <-size_union by set_solver.
  apply subseteq_size. intros x. rewrite elem_of_union, elem_of_list_to_set.
  intros [[Hx ?]%Hnew|?]; [|set_solver]. apply (pred_edge g nodes Hnodes) in Hx as []. set_solver.
Qed.

Lemma natural_loop_blocks_spec :
  ∃ bs, natural_loop_blocks h t P = Done bs ∧ ∀ x, x ∈ bs ↔ in_loop g h t x.
Proof.
  unfold natural_loop_blocks.
  destruct (loop_blocks_spec (S (size (dom P))) [t] {[h; t]}) as (bs & -> & [Hh Hl _ Hs Htd]).
  - split; [set_solver|set_solver|set_solver|..].
    + intros x [->%elem_of_singleton| ->%elem_of_singleton]%elem_of_union; [by left|right].
      split; [by apply Hnodes|reflexivity].
    + intros x [->%elem_of_singleton| ->%elem_of_singleton]%elem_of_union ?; [done|left; left].
  - rewrite (proj2 (predecessors_spec _ _)). simpl. apply le_n_S, subseteq_size. set_solver.
  - exists bs. split; [done|]. intros x. split; [auto|]. intros [->|[Hx Hr]]; [done|].
    induction Hr as [|x y t [Hxy Hyh] Hyt IH]; [done|].
    assert (y ∈ bs) as Hy.
    { apply IH; try done. apply Hnodes. eapply nodes_closed; [done|by apply Hnodes|done]. }
    destruct (Htd y Hy) as [?|Hp]; [set_solver|set_solver|].
    apply Hp, (pred_edge g nodes Hnodes). split; [done|by apply Hnodes].
Qed.
End one_loop.

(** A back edge: its target dominates its source. *)
Definition back_edge (g : ControlFlowGraph) (t h : Z) : Prop :=
  reachable g t ∧ h ∈ targets (successors g) t ∧ dominates g h t.

(** [l] is the natural loop of its header: all its back edges, and their blocks. *)
Record is_loop (g : ControlFlowGraph) (l : NaturalLoop) : Prop := {
  is_loop_latch : latches l ≠ ∅;
  is_loop_latches t : t ∈ latches l ↔ back_edge g t (header l);
  is_loop_blocks x : x ∈ blocks l ↔ ∃ t, t ∈ latches l ∧ in_loop g (header l) t x
}.

Lemma insert_forall {A} (Q : Z → A → Prop) (M : gmap Z A) h a :
  Q h a → (∀ h' l, h' ≠ h → M !! h' = Some l → Q h' l) →
  ∀ h' l, <[h := a]> M !! h' = Some l → Q h' l.
Proof.
  intros Hh Ho h' l. destruct (decide (h' = h)) as [->|Hne].
  - rewrite lookup_insert_eq. by intros [= <-].
  - rewrite lookup_insert_ne by done. by apply Ho.
Qed.

Section loop_table.
Context (g : ControlFlowGraph) (nodes : gset Z) (doms : gmap Z (gset Z)).
Context (Hnodes : ∀ n, n ∈ nodes ↔ reachable g n).
Context (Hdoms : ∀ n d, n ∈ nodes → d ∈ default ∅ (doms !! n) ↔ dominates g d n).
Local Notation m := (successors g).
Local Notation P := (predecessors nodes (successors g)).

(** The table after the edges of [D] have been examined. *)
Record table (D : Z → Z → Prop) (M : gmap Z NaturalLoop) : Prop := {
  table_header h l : M !! h = Some l → header l = h;
  table_latch h l : M !! h = Some l → latches l ≠ ∅;
  table_latches h l t : M !! h = Some l → t ∈ latches l ↔ D t h ∧ back_edge g t h;
  table_blocks h l x : M !! h = Some l → x ∈ blocks l ↔ ∃ t, t ∈ latches l ∧ in_loop g h t x;
  table_complete h t : D t h → back_edge g t h → is_Some (M !! h)
}.

Lemma table_iff D D' M : (∀ t h, D t h ↔ D' t h) → table D M → table D' M.
Proof.
  intros HD [H1 H2 H3 H4 H5]. split; [done|done| |done|].
  - intros h l t Hl. rewrite (H3 h l t Hl). by rewrite HD.
  - intros h t. rewrite <-HD. apply H5.
Qed.

Lemma table_skip D M t h :
  ¬ back_edge g t h → table D M → table (λ t' h', D t' h' ∨ t' = t ∧ h' = h) M.
Proof.
  intros Hb [H1 H2 H3 H4 H5]. split; [done|done| |done|naive_solver].
  intros h' l t' Hl. rewrite (H3 h' l t' Hl). naive_solver.
Qed.

Lemma table_add D M t h bs :
  back_edge g t h → (∀ x, x ∈ bs ↔ in_loop g h t x) → table D M →
  table (λ t' h', D t' h' ∨ t' = t ∧ h' = h) (add_latch h t bs M).
Proof.
  intros Hb Hbs [H1 H2 H3 H4 H5]. unfold add_latch.
  set (l0 := default (mkLoop h ∅ ∅ None) (M !! h)). split.
  - apply (insert_forall (λ h l, header l = h)); [|eauto]. unfold l0. destruct (M !! h) eqn:E; simpl; eauto.
  - apply (insert_forall (λ _ l, latches l ≠ ∅)); [|eauto]. simpl. set_solver.
  - intros h' l t' Hl. revert h' l Hl t'.
    apply (insert_forall (λ h' l, ∀ t', t' ∈ latches l ↔ (D t' h' ∨ t' = t ∧ h' = h) ∧ back_edge g t' h')).
    + intros t'. simpl. rewrite elem_of_union, elem_of_singleton. unfold l0.
      destruct (M !! h) as [l|] eqn:E; simpl; [rewrite (H3 h l t' E); naive_solver|].
      split; [set_solver|]. intros [[HD|[-> _]] Hb']; [|by left].
      destruct (H5 h t' HD Hb'). congruence.
    + intros h' l Hne Hl t'. rewrite (H3 h' l t' Hl). naive_solver.
  - intros h' l x Hl. revert h' l Hl x.
    apply (insert_forall (λ h' l, ∀ x, x ∈ blocks l ↔ ∃ t, t ∈ latches l ∧ in_loop g h' t x)); [|eauto].
    intros x. simpl. rewrite elem_of_union, Hbs. unfold l0.
    destruct (M !! h) as [l|] eqn:E; simpl; [rewrite (H4 h l x E)|]; set_solver.
  - intros h' t' HD Hb'. destruct (decide (h' = h)) as [->|Hne]; [rewrite lookup_insert_eq; eauto|].
    rewrite lookup_insert_ne by done. apply (H5 h' t'); [naive_solver|done].
Qed.

Lemma visit_edge_spec D M t h :
  t ∈ nodes → h ∈ targets m t → table D M →
  ∃ M', visit_edge doms P t M h = Done M' ∧ table (λ t' h', D t' h' ∨ t' = t ∧ h' = h) M'.
Proof.
  intros Ht Hh HM. unfold visit_edge.
  assert (Hd : dominated_by doms t h = true ↔ dominates g h t).
  { rewrite <-Hdoms by done. unfold dominated_by.
    destruct (doms !! t); simpl; [apply bool_decide_eq_true|set_solver]. }
  destruct (dominated_by doms t h); simpl.
  - destruct (natural_loop_blocks_spec g nodes Hnodes h t Ht) as (bs & -> & Hbs).
    eexists. split; [done|]. apply table_add; [|done|done].
    split_and!; [by apply Hnodes|done|by apply Hd].
  - eexists. split; [done|]. apply table_skip; [|done]. intros (_ & _ & H%Hd). done.
Qed.

Lemma visit_edges_spec t hs D M :
  t ∈ nodes → (∀ h, h ∈ hs → h ∈ targets m t) → table D M →
  ∃ M', fold_outcome (visit_edge doms P t) hs M = Done M' ∧
    table (λ t' h', D t' h' ∨ t' = t ∧ h' ∈ hs) M'.
Proof.
  intros Ht. revert D M; induction hs as [|h hs IH]; intros D M Hhs HM; cbn [fold_outcome].
  { exists M. split; [done|]. eapply table_iff; [|exact HM]. set_solver. }
  destruct (visit_edge_spec D M t h) as (M1 & -> & H1); [done|set_solver|done|].
  destruct (IH _ M1 ltac:(set_solver) H1) as (M' & -> & H'). exists M'. split; [done|].
  eapply table_iff; [|exact H']. intros t' h'. simpl. rewrite elem_of_cons. naive_solver.
Qed.

Lemma visit_tails_spec ts D M :
  table D M →
  ∃ M', fold_outcome (visit_tail nodes m doms P) ts M = Done M' ∧
    table (λ t h, D t h ∨ t ∈ ts ∧ h ∈ targets m t) M'.
Proof.
  revert D M; induction ts as [|t ts IH]; intros D M HM; cbn [fold_outcome].
  { exists M. split; [done|]. eapply table_iff; [|exact HM]. set_solver. }
  unfold visit_tail at 1. case_decide as Ht.
  - destruct (IH D M HM) as (M' & -> & [H1 H2 H3 H4 H5]). exists M'. split; [done|].
    assert (Hno : ∀ h, ¬ back_edge g t h) by (intros h [Hr%Hnodes _]; done).
    split; [done|done| |done|].
    + intros h l t' Hl. rewrite (H3 h l t' Hl). set_solver.
    + intros h t' HD Hb. apply (H5 h t'); set_solver.
  - destruct (visit_edges_spec t (targets m t) D M) as (M1 & -> & H1); [done|done|done|].
    destruct (IH _ M1 H1) as (M' & -> & H'). exists M'. split; [done|].
    eapply table_iff; [|exact H']. set_solver.
Qed.

Lemma loops_table :
  ∃ M, fold_outcome (visit_tail nodes m doms P) (asc (dom m)) ∅ = Done M ∧
    table (λ t h, h ∈ targets m t) M.
Proof.
  destruct (visit_tails_spec (asc (dom m)) (λ _ _, False) ∅) as (M & -> & HM).
  { split; intros; by simplify_map_eq. }
  exists M. split; [done|]. eapply table_iff; [|exact HM]. intros t h. simpl.
  rewrite elem_of_asc, elem_of_dom.
  split; [naive_solver|]. intros Hh. right. split; [|done]. rewrite elem_of_targets in Hh.
  destruct (m !! t); [eauto|set_solver].
Qed.
End loop_table.

#[export] Instance loop_le_trans : Transitive loop_le.
Proof. unfold loop_le. intros a b c. lia. Qed.
#[export] Instance loop_le_total : Total loop_le.
Proof. unfold loop_le. intros a b. lia. Qed.

(** The list of the loops of a table. *)
Definition listed (M : gmap Z NaturalLoop) : list NaturalLoop :=
  merge_sort loop_le (snd <$> merge_sort key_le (map_to_list M)).

Lemma listed_perm M : listed M ≡ₚ (map_to_list M).*2.
Proof. unfold listed. rewrite merge_sort_Permutation. f_equiv. apply merge_sort_Permutation. Qed.

Lemma elem_of_listed M l : l ∈ listed M ↔ ∃ h, M !! h = Some l.
Proof.
  rewrite listed_perm, list_elem_of_fmap. split.
  - intros ([h l'] & -> & Hl%elem_of_map_to_list). eauto.
  - intros [h Hl]. exists (h, l). split; [done|by apply elem_of_map_to_list].
Qed.

Lemma listed_headers M :
  (∀ h l, M !! h = Some l → header l = h) → NoDup (header <$> listed M).
Proof.
  intros HM. rewrite listed_perm, <-list_fmap_compose.
  rewrite (list_fmap_ext _ fst (map_to_list M)); [apply NoDup_fst_map_to_list|].
  intros i [h l] Hi%list_elem_of_lookup_2%elem_of_map_to_list. by apply HM.
Qed.

(** The loops [analyze] lists before it sets their parents. *)
Record loops_ok (g : ControlFlowGraph) (loops : list NaturalLoop) : Prop := {
  loops_headers : NoDup (header <$> loops);
  loops_sound l : l ∈ loops → is_loop g l;
  loops_complete t h : back_edge g t h → ∃ l, l ∈ loops ∧ header l = h;
  loops_sorted : StronglySorted loop_le loops
}.

Lemma listed_ok g M : table g (λ t h, h ∈ targets (successors g) t) M → loops_ok g (listed M).
Proof.
  intros [H1 H2 H3 H4 H5]. split.
  - by apply listed_headers.
  - intros l (h & Hl)%elem_of_listed. pose proof (H1 h l Hl) as <-. split.
    + by eapply H2.
    + intros t. rewrite (H3 _ l t Hl). split; [by intros []|intros Hb; split; [apply Hb|done]].
    + intros x. by apply H4.
  - intros t h Hb. destruct (H5 h t) as [l Hl]; [apply Hb|done|].
    exists l. split; [apply elem_of_listed; eauto|by apply H1].
  - apply StronglySorted_merge_sort; apply _.
Qed.

(** A strongly connected component that is a cycle no block of which dominates it. *)
Definition irreducible (g : ControlFlowGraph) (c : gset Z) : Prop :=
  (∃ x, reachable g x ∧ Scc.component_of (successors g) x c) ∧
  (∃ a, a ∈ c ∧ tc (step (successors g) ∅) a a) ∧
  ¬ ∃ h, h ∈ c ∧ ∀ b, b ∈ c → dominates g h b.

Lemma analyze_empty g : (∀ n, ¬ reachable g n) → loops_ok g [] ∧ ∀ c, c ∈ [] ↔ irreducible g c.
Proof.
  intros Hno. split.
  - split; [constructor|set_solver| |constructor]. intros t h [Hr _]. by apply Hno in Hr.
  - intros c. split; [set_solver|]. intros ((x & Hx & _) & _). by apply Hno in Hx.
Qed.

Lemma analyze_spec g :
  ∃ loops cycles, analyze g = Done (mkAnalysis (set_parents loops) cycles) ∧
    loops_ok g loops ∧ NoDup cycles ∧ ∀ c, c ∈ cycles ↔ irreducible g c.
Proof.
  unfold analyze. destruct (reachable_nodes_spec g) as (nodes & -> & Hnodes). simpl. case_decide as He.
  { exists [], []. destruct (analyze_empty g) as [H1 H2]; [|by split_and!; [| |constructor|]].
    intros n Hn%Hnodes. set_solver. }
  destruct (dominators_spec g nodes Hnodes) as (doms & -> & Hdom & Hdoms). simpl.
  destruct (loops_table g nodes doms Hnodes Hdoms) as (M & -> & HM). simpl.
  destruct (Scc.scc_spec g nodes Hnodes) as (cs & -> & Hnd & Hcs). simpl.
  eexists (listed M), _. split; [done|]. split; [by apply listed_ok|]. split.
  { rewrite NoDup_ListNoDup in *. by do 2 apply List.NoDup_filter. }
  intros c. rewrite list_elem_of_In, !List.filter_In, <-list_elem_of_In, Hcs. unfold irreducible.
  setoid_rewrite <-Hnodes.
  assert (Hsub : ∀ x, x ∈ nodes → Scc.component_of (successors g) x c → c ⊆ nodes).
  { intros x Hx Hc y [Hy _]%Hc. by eapply Scc.nodes_reach. }
  split.
  - intros [[(x & Hx & Hc) Hcy] Hir]. split_and!; [by exists x|by eapply Scc.is_cycle_spec|].
    eapply Scc.is_irreducible_spec; eauto.
  - intros [(x & Hx & Hc) [Hcy Hir]]. split; [split; [by exists x|by eapply Scc.is_cycle_spec]|].
    eapply Scc.is_irreducible_spec; eauto.
Qed.

(** ** Nesting *)
Lemma loop_dominated g l x : is_loop g l → x ∈ blocks l → dominates g (header l) x.
Proof.
  intros Hl (t & Ht & [->|[_ Hx]])%(is_loop_blocks _ _ Hl); [apply dominates_refl|].
  apply (is_loop_latches _ _ Hl) in Ht as (_ & _ & Hd). rewrite dominates_reach in *.
  intros e He [Hh Hr]. apply (Hd e He). split; [done|by transitivity x].
Qed.

Lemma loop_header_in g l : is_loop g l → header l ∈ blocks l ∧ reachable g (header l).
Proof.
  intros Hl. destruct (set_choose_L _ (is_loop_latch _ _ Hl)) as [t Ht]. split.
  - apply (is_loop_blocks _ _ Hl). exists t. split; [done|by left].
  - apply (is_loop_latches _ _ Hl) in Ht as ((e & He & Hr) & Hh & _). exists e. split; [done|].
    eapply reach_snoc; [done|done|set_solver].
Qed.

Lemma loop_reachable g l x : is_loop g l → x ∈ blocks l → reachable g x.
Proof.
  intros Hl (t & _ & [->|[? _]])%(is_loop_blocks _ _ Hl); [|done]. by apply loop_header_in.
Qed.

(** A path to a latch of [k] that does not enter its header stays in [k]. *)
Lemma loop_avoids g k h x t :
  is_loop g k → h ∉ blocks k → t ∈ latches k → reachable g x →
  rtc (step (successors g) {[header k]}) x t → rtc (step (successors g) {[h]}) x t.
Proof.
  intros Hk Hh Ht Hx Hr. induction Hr as [|x y t [Hxy Hyk] Hyt IH]; [reflexivity|].
  assert (Hy : reachable g y).
  { destruct Hx as (e & He & Hex). exists e. split; [done|]. eapply reach_snoc; [done|done|set_solver]. }
  eapply rtc_l; [|by apply IH]. split; [done|]. intros ->%elem_of_singleton. apply Hh.
  apply (is_loop_blocks _ _ Hk). exists t. split; [done|right; done].
Qed.

(** Of two loops that share a block, the one whose header is dominated is inside. *)
Lemma loop_inside g l k x :
  is_loop g l → is_loop g k → header l ≠ header k → x ∈ blocks l → x ∈ blocks k →
  dominates g (header l) (header k) → blocks k ⊂ blocks l.
Proof.
  intros Hl Hk Hne Hxl Hxk Hd. destruct (loop_header_in _ _ Hl) as [Hhl Hrl].
  assert (Hnd : ¬ dominates g (header k) (header l)).
  { intros Hd'. by apply Hne, (dominates_antisym g). }
  assert (Hout : header l ∉ blocks k) by (intros H; by apply Hnd, loop_dominated).
  assert (Hkx : rtc (step (successors g) {[header l]}) (header k) x).
  { apply dominates_after; [by eapply loop_reachable|done|by apply loop_dominated..|done]. }
  apply (is_loop_blocks _ _ Hl) in Hxl as (t & Ht & [->|[_ Hxt]]); [done|].
  assert (Hhk : rtc (step (successors g) {[header l]}) (header k) t) by (by transitivity x).
  split; [|set_solver]. intros y Hy. apply (is_loop_blocks _ _ Hl). exists t. split; [done|right].
  split; [by eapply loop_reachable|]. pose proof Hy as Hy'.
  apply (is_loop_blocks _ _ Hk) in Hy' as (t' & Ht' & [->|[Hry Hyt]]); [done|].
  transitivity t'; [by eapply loop_avoids|]. eapply rtc_l; [|exact Hhk].
  apply (is_loop_latches _ _ Hk) in Ht' as (_ & Hedge & _). split; [done|set_solver].
Qed.

Lemma loops_nested g l k :
  is_loop g l → is_loop g k → header l ≠ header k →
  blocks l ## blocks k ∨ blocks k ⊂ blocks l ∨ blocks l ⊂ blocks k.
Proof.
  intros Hl Hk Hne. destruct (decide (blocks l ∩ blocks k = ∅)) as [He|[x [Hxl Hxk]%elem_of_intersection]%set_choose_L].
  { left. set_solver. }
  right. destruct (dominates_total g (header l) (header k) x) as [Hd|Hd];
    [by eapply loop_reachable|by apply loop_dominated..| |].
  - left. by eapply loop_inside.
  - right. by eapply loop_inside.
Qed.

Lemma min_by_key_spec f l :
  match min_by_key f l with
  | Some x => x ∈ l ∧ ∀ y, y ∈ l → (f x ≤ f y)%nat
  | None => l = []
  end.
Proof.
  destruct l as [|x l]; [done|]. cbn [min_by_key].
  assert (∀ l b, let r := foldl (λ best y, if (f y <? f best)%nat then y else best) b l in
            r ∈ b :: l ∧ ∀ y, y ∈ b :: l → (f r ≤ f y)%nat) as H; [|apply H].
  clear. induction l as [|z l IH]; intros b; cbn [foldl]; [set_solver|].
  destruct (IH (if (f z <? f b)%nat then z else b)) as [H1 H2]. split.
  - case_match; set_solver.
  - intros y. rewrite !elem_of_cons. destruct (f z <? f b)%nat eqn:E.
    + apply Nat.ltb_lt in E. pose proof (H2 z ltac:(left)). intros [->|[->|Hy]]; [lia|done|apply H2; by right].
    + apply Nat.ltb_ge in E. pose proof (H2 b ltac:(left)). intros [->|[->|Hy]]; [done|lia|apply H2; by right].
Qed.

Lemma is_parent_spec loops i l p :
  loops !! i = Some l →
  p ∈ List.filter (is_parent loops i) (seq 0 (length loops)) ↔
  ∃ k, loops !! p = Some k ∧ blocks l ⊂ blocks k.
Proof.
  intros Hi. rewrite list_elem_of_In, List.filter_In, List.in_seq. unfold is_parent, blocks_at.
  rewrite Hi, !andb_true_iff, !bool_decide_eq_true. split.
  - intros [[_ Hp] [[Hne Hsub] Hd]]. destruct (lookup_lt_is_Some_2 loops p Hp) as [k Hk].
    rewrite Hk in *. exists k. split; [done|]. split; [done|]. intros Hsup. apply Hd. set_solver.
  - intros (k & Hk & Hsub). rewrite Hk. apply lookup_lt_Some in Hk as Hlt.
    split_and!; [lia|lia| |set_solver|]; [intros ->; simplify_eq; set_solver|]. intros E. set_solver.
Qed.

(** [p] is the innermost loop around [l]. *)
Definition innermost (loops : list NaturalLoop) (l : NaturalLoop) (p : option nat) : Prop :=
  match p with
  | Some p => ∃ k, loops !! p = Some k ∧ blocks l ⊂ blocks k ∧
      ∀ k', k' ∈ loops → blocks l ⊂ blocks k' → blocks k ⊆ blocks k'
  | None => ∀ k', k' ∈ loops → ¬ blocks l ⊂ blocks k'
  end.

Lemma header_inj loops l k : NoDup (header <$> loops) → l ∈ loops → k ∈ loops → header l = header k → l = k.
Proof.
  intros Hnd [i Hi]%list_elem_of_lookup [j Hj]%list_elem_of_lookup Hh.
  assert (i = j) as ->; [|congruence]. eapply (NoDup_lookup _ _ _ (header l)); [done|..];
    rewrite list_lookup_fmap; [by rewrite Hi|by rewrite Hj, Hh].
Qed.

Lemma parent_innermost g loops i l :
  loops_ok g loops → loops !! i = Some l → innermost loops l (parent_of loops i).
Proof.
  intros [Hnd Hs _ _] Hi. unfold innermost, parent_of.
  pose proof (min_by_key_spec (λ c, size (blocks_at loops c))
    (List.filter (is_parent loops i) (seq 0 (length loops)))) as Hmin.
  destruct (min_by_key _ _) as [p|]; cycle 1.
  { intros k' [j Hj]%list_elem_of_lookup Hsub.
    assert (j ∈ List.filter (is_parent loops i) (seq 0 (length loops))) as Hin by (eapply is_parent_spec; eauto).
    rewrite Hmin in Hin. set_solver. }
  destruct Hmin as [Hp Hmin]. apply (is_parent_spec _ _ _ _ Hi) in Hp as (k & Hk & Hsub).
  exists k. split_and!; [done..|]. intros k' Hk' Hsub'.
  apply list_elem_of_lookup_2 in Hk as Hkin. pose proof Hk' as [j Hj]%list_elem_of_lookup.
  assert (size (blocks k) ≤ size (blocks k'))%nat as Hle.
  { specialize (Hmin j). unfold blocks_at in Hmin. rewrite Hk, Hj in Hmin. apply Hmin.
    eapply is_parent_spec; eauto. }
  destruct (decide (header k = header k')) as [E|Hne].
  { by rewrite (header_inj loops k k'). }
  destruct (loops_nested g k k') as [Hdis|[Hin|[Hin _]]]; [by apply Hs..|done| |by apply subset_size in Hin; lia|done].
  exfalso. apply list_elem_of_lookup_2 in Hi. apply Hs in Hi as Hl.
  destruct (loop_header_in _ _ Hl) as [Hh _]. set_solver.
Qed.

Lemma set_parents_lookup loops i :
  set_parents loops !! i =
  (λ l, mkLoop (header l) (latches l) (blocks l) (parent_of loops i)) <$> loops !! i.
Proof. unfold set_parents. by rewrite list_lookup_imap. Qed.

Lemma elem_of_set_parents loops l :
  l ∈ set_parents loops ↔ ∃ i l0, loops !! i = Some l0 ∧
    l = mkLoop (header l0) (latches l0) (blocks l0) (parent_of loops i).
Proof.
  rewrite list_elem_of_lookup. setoid_rewrite set_parents_lookup. setoid_rewrite fmap_Some. naive_solver.
Qed.

Lemma is_loop_parent g l p : is_loop g l → is_loop g (mkLoop (header l) (latches l) (blocks l) p).
Proof. by intros [H1 H2 H3]. Qed.

(** Parents do not matter for the order of the loops. *)
Lemma relabel_sorted (f : nat → option nat) loops :
  StronglySorted loop_le loops →
  StronglySorted loop_le (imap (λ i l, mkLoop (header l) (latches l) (blocks l) (f i)) loops).
Proof.
  intros Hso. revert f. induction Hso as [|l loops Hso IH Hall]; intros f; [constructor|].
  cbn [imap]. constructor; [apply (IH (f ∘ S))|].
  rewrite Forall_forall in *. intros x (i & l' & -> & Hl')%elem_of_lookup_imap.
  apply (Hall l'). by eapply list_elem_of_lookup_2.
Qed.

Lemma set_parents_ok g loops : loops_ok g loops → loops_ok g (set_parents loops).
Proof.
  intros [Hnd Hs Hc Hso].
  assert (Hh : header <$> set_parents loops = header <$> loops).
  { apply list_eq. intros i. rewrite !list_lookup_fmap, set_parents_lookup. by destruct (loops !! i). }
  split.
  - by rewrite Hh.
  - intros l (i & l0 & Hi & ->)%elem_of_set_parents. apply is_loop_parent, Hs. by eapply list_elem_of_lookup_2.
  - intros t h (l & [i Hi]%list_elem_of_lookup & <-)%Hc.
    exists (mkLoop (header l) (latches l) (blocks l) (parent_of loops i)). split; [|done].
    apply elem_of_set_parents. eauto.
  - by apply (relabel_sorted (parent_of loops)).
Qed.

Lemma set_parents_innermost g loops l :
  loops_ok g loops → l ∈ set_parents loops → innermost (set_parents loops) l (parent l).
Proof.
  intros Hok (i & l0 & Hi & ->)%elem_of_set_parents.
  pose proof (parent_innermost g loops i l0 Hok Hi) as Hin. cbn [parent].
  assert (Hall : ∀ Q : gset Z → Prop, (∀ k, k ∈ loops → Q (blocks k)) → ∀ k, k ∈ set_parents loops → Q (blocks k)).
  { intros Q HQ k (j & k0 & Hj & ->)%elem_of_set_parents. apply (HQ k0). by eapply list_elem_of_lookup_2. }
  unfold innermost in *. simpl. destruct (parent_of loops i) as [p|].
  - destruct Hin as (k & Hk & Hsub & Hmin). eexists. rewrite set_parents_lookup, Hk.
    split; [done|]. split; [done|]. by apply (Hall (λ b, blocks l0 ⊂ b → blocks k ⊆ b)).
  - by apply (Hall (λ b, ¬ blocks l0 ⊂ b)).
Qed.
End Natural.

(** ** The analysis *)

(** C13: [analyze] returns exactly the natural loops of the graph, one per header: the
    latches of a loop are the sources of the back edges to its header, its blocks are
    those from which a latch can be reached without entering the header, every back edge
    belongs to a loop, and the loops come by increasing size and header. *)
Theorem natural_loops_exact (g : ControlFlowGraph) :
  ∃ a, analyze g = Done a ∧ NoDup (header <$> natural_loops a) ∧
    (∀ l, l ∈ natural_loops a → Natural.is_loop g l) ∧
    (∀ t h, Natural.back_edge g t h → ∃ l, l ∈ natural_loops a ∧ header l = h ∧ t ∈ latches l) ∧
    StronglySorted loop_le (natural_loops a).
Proof.
  destruct (Natural.analyze_spec g) as (loops & cycles & Ha & Hok & _).
  apply Natural.set_parents_ok in Hok as [Hnd Hs Hc Hso]. eexists. split; [exact Ha|].
  split_and!; [done..| |done]. intros t h Hb. destruct (Hc t h Hb) as (l & Hl & <-).
  exists l. split_and!; [done..|]. by apply (Natural.is_loop_latches _ _ (Hs l Hl)).
Qed.

(** The loops [analyze] returns form a forest: the header of a loop dominates every
    block of it, two loops are disjoint or one is strictly inside the other, and [parent]
    is the innermost loop strictly around a loop, [None] exactly when there is none. *)
Theorem loop_nest (g : ControlFlowGraph) :
  ∃ a, analyze g = Done a ∧
    (∀ l x, l ∈ natural_loops a → x ∈ blocks l → Dom.dominates g (header l) x) ∧
    (∀ l k, l ∈ natural_loops a → k ∈ natural_loops a → l ≠ k →
       blocks l ## blocks k ∨ blocks k ⊂ blocks l ∨ blocks l ⊂ blocks k) ∧
    (∀ l, l ∈ natural_loops a → Natural.innermost (natural_loops a) l (parent l)).
Proof.
  destruct (Natural.analyze_spec g) as (loops & cycles & Ha & Hok & _). eexists. split; [exact Ha|].
  pose proof (Natural.set_parents_ok _ _ Hok) as [Hnd Hs _ _]. cbn [natural_loops]. split_and!.
  - intros l x Hl. by apply Natural.loop_dominated, Hs.
  - intros l k Hl Hk Hne. apply (Natural.loops_nested g); [by apply Hs..|].
    intros E. apply Hne. by apply (Natural.header_inj (set_parents loops)).
  - intros l. by apply (Natural.set_parents_innermost g).
Qed.

(** The irreducible cycles [analyze] reports are exactly the strongly connected
    components of the reachable graph that contain a cycle and have no block that
    dominates them, each reported once. *)
Theorem irreducible_cycles_exact (g : ControlFlowGraph) :
  ∃ a, analyze g = Done a ∧ NoDup (irreducible_cycles a) ∧
    ∀ c, c ∈ irreducible_cycles a ↔ Natural.irreducible g c.
Proof.
  destruct (Natural.analyze_spec g) as (loops & cycles & Ha & _ & Hnd & Hc).
  eexists. split; [exact Ha|]. done.
Qed.
