(* ===== verification/Formula.v ===== *)
(** * Metric formulas

    The recursive-descent parser of [pmu-data/src/arith_parser.rs].

    A string is the list of its characters, as code points.  The parser's state
    [Parser { input, offset }] is the suffix [input[offset..]] that is still to be
    read; the offset itself is [total] (the length of the input in bytes) less the
    bytes of that suffix.  A number becomes [nearest digits places], the [f64] nearest
    to [digits / 10^places]: the type of numbers and this rounding are parameters.

    The five functions of the source call each other without a bound: here each call
    spends one unit of fuel, [Stuck] is the result without fuel, and [FormulaSpec.v]
    shows that [try_parse_expr] gives enough. *)

From S2P Require Import Prelude Text.
Open Scope Z_scope.

Module Formula.

Inductive BinOp := Add | Sub | Mul | Div | Eq | Lt | Le | Gt | Ge.
#[export] Instance BinOp_eq_dec : EqDecision BinOp.
Proof. solve_decision. Defined.

Inductive Expr (F : Type) : Type :=
| Binary (op : BinOp) (lhs rhs : Expr F)
| Variable_ (name : list Z)
| Constant (name : list Z)
| Num (value : F)
| Call (name : list Z) (args : list (Expr F)).
Arguments Binary {F} _ _ _.
Arguments Variable_ {F} _.
Arguments Constant {F} _.
Arguments Num {F} _.
Arguments Call {F} _ _.

(** The error messages, with the byte offsets they report. *)
Inductive FormulaError :=
| Unexpected (character : Z) (at_ : Z)
| MissingClose (at_ : Z)
| UnexpectedEnd
| ExpectedCommaOrClose (at_ : Z)
| ExpectedIdentifier (at_ : Z)
| InvalidNumber (at_ : Z).

Inductive result (A : Type) : Type :=
| Ok (a : A)
| Err (e : FormulaError)
| Stuck.
Arguments Ok {A} _.
Arguments Err {A} _.
Arguments Stuck {A}.

#[export] Instance result_ret : MRet result := λ A a, Ok a.
#[export] Instance result_bind : MBind result := λ A B f m,
  match m with Ok a => f a | Err e => Err e | Stuck => Stuck end.

(** [char::is_whitespace]: the White_Space characters of Unicode. *)
Definition is_whitespace (c : Z) : bool :=
  ((9 <=? c) && (c <=? 13)) || (c =? 32) || (c =? 133) || (c =? 160) || (c =? 5760) ||
  ((8192 <=? c) && (c <=? 8202)) || (c =? 8232) || (c =? 8233) || (c =? 8239) ||
  (c =? 8287) || (c =? 12288).

Definition is_ascii_digit (c : Z) : bool := (48 <=? c) && (c <=? 57).

Definition is_ascii_alphabetic (c : Z) : bool :=
  ((65 <=? c) && (c <=? 90)) || ((97 <=? c) && (c <=? 122)).

(** The characters of an identifier and of a number. *)
Definition ident_char (c : Z) : bool :=
  is_ascii_alphabetic c || is_ascii_digit c || (c =? 95) || (c =? 46).
Definition number_char (c : Z) : bool := is_ascii_digit c || (c =? 46).

Definition len_utf8 (c : Z) : Z :=
  if c <? 128 then 1 else if c <? 2048 then 2 else if c <? 65536 then 3 else 4.

Fixpoint bytes (s : list Z) : Z :=
  match s with [] => 0 | c :: s => len_utf8 c + bytes s end.

Definition peek (s : list Z) : option Z := head s.

(** [self.consume(c)]. *)
Definition consume (c : Z) (s : list Z) : option (list Z) :=
  match s with d :: s => if d =? c then Some s else None | [] => None end.

Fixpoint whitespace (s : list Z) : list Z :=
  match s with c :: s' => if is_whitespace c then whitespace s' else s | [] => [] end.

(** The longest prefix of characters that satisfy [p], and the rest. *)
Fixpoint scan (p : Z → bool) (s : list Z) : list Z * list Z :=
  match s with
  | c :: s' => if p c then let '(a, b) := scan p s' in (c :: a, b) else ([], s)
  | [] => ([], [])
  end.

(** [str::parse::<f64>] on digits and dots: at most one dot, at least one digit. *)
Definition decimal (s : list Z) : option (Z * nat) :=
  let '(whole, rest) := scan is_ascii_digit s in
  match rest with
  | [] => if bool_decide (whole = []) then None
          else Some (foldl (λ n c, n * 10 + (c - 48)) 0 whole, 0%nat)
  | _ :: frac =>
      if forallb is_ascii_digit frac && negb (bool_decide (whole ++ frac = []))
      then Some (foldl (λ n c, n * 10 + (c - 48)) 0 (whole ++ frac), length frac)
      else None
  end.

Section parser.
Context {F : Type} (nearest : Z → nat → F) (total : Z).

(** [self.offset]. *)
Definition offset (s : list Z) : Z := total - bytes s.

Definition identifier (s : list Z) : result (list Z * list Z) :=
  let '(name, rest) := scan ident_char s in
  if bool_decide (name = []) || negb (existsb is_ascii_alphabetic name)
  then Err (ExpectedIdentifier (offset s))
  else Ok (name, rest).

Definition number (s : list Z) : result (F * list Z) :=
  let '(text, rest) := scan number_char s in
  match decimal text with
  | Some (digits, places) => Ok (nearest digits places, rest)
  | None => Err (InvalidNumber (offset s))
  end.

(** The comparison operator at the front, the two-character ones first. *)
Definition comparison_op (s : list Z) : option (BinOp * list Z) :=
  match s with
  | 62 :: 61 :: s => Some (Ge, s)
  | 60 :: 61 :: s => Some (Le, s)
  | 61 :: 61 :: s => Some (Eq, s)
  | 62 :: s => Some (Gt, s)
  | 60 :: s => Some (Lt, s)
  | _ => None
  end.

Definition sum_op (s : list Z) : option (BinOp * list Z) :=
  match consume 43 s with
  | Some s => Some (Add, s)
  | None => match consume 45 s with Some s => Some (Sub, s) | None => None end
  end.

Definition product_op (s : list Z) : option (BinOp * list Z) :=
  match consume 42 s with
  | Some s => Some (Mul, s)
  | None => match consume 47 s with Some s => Some (Div, s) | None => None end
  end.

Fixpoint comparison (fuel : nat) (s : list Z) : result (Expr F * list Z) :=
  match fuel with
  | O => Stuck
  | S fuel =>
      '(lhs, s) ← sum fuel s;
      let s := whitespace s in
      match comparison_op s with
      | Some (op, s) => '(rhs, s) ← sum fuel s; Ok (Binary op lhs rhs, s)
      | None => Ok (lhs, s)
      end
  end
with sum (fuel : nat) (s : list Z) : result (Expr F * list Z) :=
  match fuel with
  | O => Stuck
  | S fuel => '(lhs, s) ← product fuel s; sum_loop fuel lhs s
  end
with sum_loop (fuel : nat) (lhs : Expr F) (s : list Z) : result (Expr F * list Z) :=
  match fuel with
  | O => Stuck
  | S fuel =>
      let s := whitespace s in
      match sum_op s with
      | Some (op, s) => '(rhs, s) ← product fuel s; sum_loop fuel (Binary op lhs rhs) s
      | None => Ok (lhs, s)
      end
  end
with product (fuel : nat) (s : list Z) : result (Expr F * list Z) :=
  match fuel with
  | O => Stuck
  | S fuel => '(lhs, s) ← atom fuel s; product_loop fuel lhs s
  end
with product_loop (fuel : nat) (lhs : Expr F) (s : list Z) : result (Expr F * list Z) :=
  match fuel with
  | O => Stuck
  | S fuel =>
      let s := whitespace s in
      match product_op s with
      | Some (op, s) => '(rhs, s) ← atom fuel s; product_loop fuel (Binary op lhs rhs) s
      | None => Ok (lhs, s)
      end
  end
with atom (fuel : nat) (s : list Z) : result (Expr F * list Z) :=
  match fuel with
  | O => Stuck
  | S fuel =>
      let s := whitespace s in
      match consume 40 s with
      | Some s =>
          '(expression, s) ← sum fuel s;
          let s := whitespace s in
          match consume 41 s with
          | Some s => Ok (expression, s)
          | None => Err (MissingClose (offset s))
          end
      | None =>
          match consume 36 s with
          | Some s => '(name, s) ← identifier s; Ok (Constant name, s)
          | None =>
              match peek s with
              | None => Err UnexpectedEnd
              | Some character =>
                  if is_ascii_digit character || (character =? 46)
                  then '(value, s) ← number s; Ok (Num value, s)
                  else
                    '(name, s) ← identifier s;
                    let s := whitespace s in
                    match consume 40 s with
                    | None => Ok (Variable_ name, s)
                    | Some s =>
                        let s := whitespace s in
                        match consume 41 s with
                        | Some s => Ok (Call name [], s)
                        | None => '(args, s) ← arguments fuel s; Ok (Call name args, s)
                        end
                    end
              end
          end
      end
  end
with arguments (fuel : nat) (s : list Z) : result (list (Expr F) * list Z) :=
  match fuel with
  | O => Stuck
  | S fuel =>
      '(arg, s) ← comparison fuel s;
      let s := whitespace s in
      match consume 41 s with
      | Some s => Ok ([arg], s)
      | None =>
          match consume 44 s with
          | Some s => '(args, s) ← arguments fuel s; Ok (arg :: args, s)
          | None => Err (ExpectedCommaOrClose (offset s))
          end
      end
  end.

(** [Parser::parse]. *)
Definition parse (fuel : nat) (s : list Z) : result (Expr F) :=
  '(expression, s) ← comparison fuel s;
  let s := whitespace s in
  match peek s with
  | Some character => Err (Unexpected character (offset s))
  | None => Ok expression
  end.
End parser.

(** Eight calls per character are enough, and five for the end. *)
Definition try_parse_expr {F} (nearest : Z → nat → F) (expression : list Z) : result (Expr F) :=
  parse nearest (bytes expression) (8 * length expression + 5)%nat expression.

(** [parse_expr]: an invalid formula panics. *)
Definition parse_expr {F} (nearest : Z → nat → F) (expression : list Z) : outcome (Expr F) :=
  match try_parse_expr nearest expression with Ok e => Done e | _ => Panicked end.

End Formula.
