(* ===== verification/FormulaSpec.v ===== *)
(** * The formula parser is total and inverts printing

    The theorems about [Formula.v].

    - [Module Fuel]: the parser consumes its input from the front, never runs out of
      the fuel [try_parse_expr] gives it, and more fuel changes nothing; so the parsing
      functions satisfy the equations of the source without fuel;
    - [Module Print]: printing a syntax tree with the parentheses its operators need and
      any white space between tokens, and parsing it back. *)

From S2P Require Import Prelude Text Formula.
Open Scope Z_scope.
Import Formula.

(** ** Fuel *)
Module Fuel.

Lemma whitespace_suffix s : whitespace s `suffix_of` s.
Proof. induction s as [|c s IH]; simpl; [done|]. case_match; [by apply suffix_cons_r|done]. Qed.

Lemma whitespace_idemp s : whitespace (whitespace s) = whitespace s.
Proof. induction s as [|c s IH]; simpl; [done|]. case_match eqn:E; [done|]. simpl. by rewrite E. Qed.

Lemma whitespace_app w s :
  Forall (λ c, is_whitespace c = true) w → whitespace (w ++ s) = whitespace s.
Proof. induction 1 as [|c w Hc _ IH]; simpl; [done|]. by rewrite Hc. Qed.

Lemma scan_app p s a b : scan p s = (a, b) → s = a ++ b.
Proof.
  revert a b; induction s as [|c s IH]; intros a b; simpl; [by intros [= <- <-]|].
  case_match; [|by intros [= <- <-]]. destruct (scan p s) as [a' b']. intros [= <- <-].
  simpl. by rewrite <-(IH a' b').
Qed.

Lemma consume_app c s s' : consume c s = Some s' → s = c :: s'.
Proof. destruct s as [|d s]; simpl; [done|]. case_match eqn:E; [|done]. intros [= <-]. by apply Z.eqb_eq in E as ->. Qed.

Lemma comparison_op_app s op s' : comparison_op s = Some (op, s') → ∃ c k, s = c :: k ++ s'.
Proof.
  intros H. unfold comparison_op in H.
  repeat case_match; simplify_eq; first [by eexists _, []|by eexists _, [_]].
Qed.

Lemma sum_op_app s op s' : sum_op s = Some (op, s') → ∃ c, s = c :: s'.
Proof.
  unfold sum_op. destruct (consume 43 s) eqn:E1; [intros [= <- <-]; apply consume_app in E1; eauto|].
  destruct (consume 45 s) eqn:E2; [intros [= <- <-]; apply consume_app in E2; eauto|done].
Qed.

Lemma product_op_app s op s' : product_op s = Some (op, s') → ∃ c, s = c :: s'.
Proof.
  unfold product_op. destruct (consume 42 s) eqn:E1; [intros [= <- <-]; apply consume_app in E1; eauto|].
  destruct (consume 47 s) eqn:E2; [intros [= <- <-]; apply consume_app in E2; eauto|done].
Qed.

Lemma bytes_nonneg s : 0 ≤ bytes s.
Proof. induction s as [|c s IH]; simpl; [lia|]. unfold len_utf8. repeat case_match; lia. Qed.

Lemma bytes_suffix s' s : s' `suffix_of` s → bytes s' ≤ bytes s.
Proof.
  intros [k ->]. induction k as [|c k IH]; simpl; [lia|].
  unfold len_utf8. repeat case_match; lia.
Qed.

Section fuel.
Context {F : Type} (nearest : Z → nat → F) (total : Z).
Local Notation comparison := (comparison nearest total).
Local Notation sum := (sum nearest total).
Local Notation sum_loop := (sum_loop nearest total).
Local Notation product := (product nearest total).
Local Notation product_loop := (product_loop nearest total).
Local Notation atom := (atom nearest total).
Local Notation arguments := (arguments nearest total).

(** The offset an error reports lies in the input. *)
Definition error_ok (e : FormulaError) : Prop :=
  match e with
  | UnexpectedEnd => True
  | Unexpected _ o | MissingClose o | ExpectedCommaOrClose o | ExpectedIdentifier o | InvalidNumber o =>
      0 ≤ o ≤ total
  end.

(** A call on [s] that does not get stuck leaves a suffix of [s]. *)
Definition ok {A} (s : list Z) (r : result (A * list Z)) : Prop :=
  match r with
  | Ok (_, s') => s' `suffix_of` s
  | Err e => bytes s ≤ total → error_ok e
  | Stuck => False
  end.

Lemma ok_bind {A B} s s0 (r : result (A * list Z)) (k : A * list Z → result (B * list Z)) :
  s0 `suffix_of` s → ok s0 r → (∀ a s', s' `suffix_of` s0 → ok s (k (a, s'))) → ok s (r ≫= k).
Proof.
  intros Hs Hr Hk. destruct r as [[a s']|e|]; simpl in *; [|intros Hb; apply Hr; apply bytes_suffix in Hs; lia|done].
  by apply Hk.
Qed.

Lemma ok_suffix {A} s s0 (r : result (A * list Z)) : s0 `suffix_of` s → ok s0 r → ok s r.
Proof.
  intros Hs. destruct r as [[a s']|e|]; simpl; [by intros; etrans| |done].
  intros He Hb. apply He. apply bytes_suffix in Hs. lia.
Qed.

Lemma offset_ok s s0 : s0 `suffix_of` s → bytes s ≤ total → 0 ≤ offset total s0 ≤ total.
Proof. intros Hs%bytes_suffix Hb. pose proof (bytes_nonneg s0). unfold offset. lia. Qed.

Lemma identifier_ok s : ok s (identifier total s).
Proof.
  unfold identifier. destruct (scan ident_char s) as [a b] eqn:E. apply scan_app in E.
  case_match; simpl; [intros; by apply (offset_ok s)|]. by exists a.
Qed.

Lemma number_ok s : ok s (number nearest total s).
Proof.
  unfold number. destruct (scan number_char s) as [a b] eqn:E. apply scan_app in E.
  case_match; [|simpl; intros; by apply (offset_ok s)]. case_match. simpl. by exists a.
Qed.

Lemma suffix_length (s' s : list Z) : s' `suffix_of` s → (length s' ≤ length s)%nat.
Proof. intros [k ->]. rewrite length_app. lia. Qed.

Lemma consume_suffix c s s' : consume c s = Some s' → s' `suffix_of` s ∧ (length s' < length s)%nat.
Proof. intros ->%consume_app. split; [by exists [c]|simpl; lia]. Qed.

Lemma comparison_op_suffix s op s' :
  comparison_op s = Some (op, s') → s' `suffix_of` s ∧ (length s' < length s)%nat.
Proof.
  intros (c & k & ->)%comparison_op_app. split; [by exists (c :: k)|]. simpl. rewrite length_app. lia.
Qed.

(** The fuel each function needs on [s]: eight units per character, and its rank. *)
Definition enough (f : nat) : Prop := ∀ s,
  ((8 * length s + 4 ≤ f)%nat → ok s (comparison f s)) ∧
  ((8 * length s + 3 ≤ f)%nat → ok s (sum f s)) ∧
  (∀ lhs, (8 * length s + 1 ≤ f)%nat → ok s (sum_loop f lhs s)) ∧
  ((8 * length s + 2 ≤ f)%nat → ok s (product f s)) ∧
  (∀ lhs, (8 * length s + 1 ≤ f)%nat → ok s (product_loop f lhs s)) ∧
  ((8 * length s + 1 ≤ f)%nat → ok s (atom f s)) ∧
  ((8 * length s + 5 ≤ f)%nat → ok s (arguments f s)).

Ltac fuel_lia :=
  repeat match goal with H : _ `suffix_of` _ |- _ => apply suffix_length in H end;
  simpl in *; lia.

(** The recursive calls a function makes, on what is left of its input. *)
Lemma enough_loops f s lhs :
  enough f → (8 * length s + 1 ≤ S f)%nat →
  ok s (sum_loop (S f) lhs s) ∧ ok s (product_loop (S f) lhs s).
Proof.
  intros IH Hf. pose proof (whitespace_suffix s) as Hw. cbn [Formula.sum_loop Formula.product_loop]. split.
  - destruct (sum_op (whitespace s)) as [[op s1]|] eqn:E; [|done]. apply sum_op_app in E as [c E].
    rewrite E in Hw. assert (H1 : s1 `suffix_of` s) by (etrans; [|exact Hw]; by exists [c]).
    apply (ok_bind _ s1); [done|apply IH; fuel_lia|]. intros rhs s2 H2.
    apply (ok_suffix _ s2); [by etrans|apply IH; fuel_lia].
  - destruct (product_op (whitespace s)) as [[op s1]|] eqn:E; [|done]. apply product_op_app in E as [c E].
    rewrite E in Hw. assert (H1 : s1 `suffix_of` s) by (etrans; [|exact Hw]; by exists [c]).
    apply (ok_bind _ s1); [done|apply IH; fuel_lia|]. intros rhs s2 H2.
    apply (ok_suffix _ s2); [by etrans|apply IH; fuel_lia].
Qed.

Lemma enough_comparison f s :
  enough f → (8 * length s + 4 ≤ S f)%nat → ok s (comparison (S f) s).
Proof.
  intros IH Hf. cbn [Formula.comparison]. apply (ok_bind _ s); [done|apply IH; lia|].
  intros lhs s1 H1. pose proof (whitespace_suffix s1) as Hw.
  assert (H2 : whitespace s1 `suffix_of` s) by by etrans.
  destruct (comparison_op (whitespace s1)) as [[op s2]|] eqn:E; [|done].
  apply comparison_op_suffix in E as [E Hl]. assert (H3 : s2 `suffix_of` s) by by etrans.
  apply (ok_bind _ s2); [done|apply IH; fuel_lia|].
  intros rhs s3 H4. simpl. by etrans.
Qed.

Lemma enough_atom f s : enough f → (8 * length s + 1 ≤ S f)%nat → ok s (atom (S f) s).
Proof.
  intros IH Hf. cbn [Formula.atom]. pose proof (whitespace_suffix s) as Hw.
  destruct (consume 40 (whitespace s)) as [s1|] eqn:E1.
  { apply consume_suffix in E1 as [H1 Hl]. assert (H1' : s1 `suffix_of` s) by by etrans.
    apply (ok_bind _ s1); [done|apply IH; fuel_lia|]. intros e s2 H2.
    pose proof (whitespace_suffix s2) as Hw2. assert (H3 : whitespace s2 `suffix_of` s) by (do 2 (etrans; [done|]); done).
    destruct (consume 41 (whitespace s2)) as [s3|] eqn:E2; [|simpl; intros; by apply (offset_ok s)].
    apply consume_suffix in E2 as [H4 _]. simpl. by etrans. }
  destruct (consume 36 (whitespace s)) as [s1|] eqn:E2.
  { apply consume_suffix in E2 as [H1 _]. assert (H1' : s1 `suffix_of` s) by by etrans.
    apply (ok_bind _ s1); [done|apply identifier_ok|]. intros name s2 H2. simpl. by etrans. }
  destruct (peek (whitespace s)) as [c|]; [|done]. case_match.
  { apply (ok_bind _ (whitespace s)); [done|apply number_ok|]. intros v s1 H1. simpl. by etrans. }
  apply (ok_bind _ (whitespace s)); [done|apply identifier_ok|]. intros name s1 H1.
  pose proof (whitespace_suffix s1) as Hw1. assert (H2 : whitespace s1 `suffix_of` s) by (do 2 (etrans; [done|]); done).
  destruct (consume 40 (whitespace s1)) as [s2|] eqn:E3; [|done].
  apply consume_suffix in E3 as [H3 Hl]. assert (H4 : s2 `suffix_of` s) by by etrans.
  pose proof (whitespace_suffix s2) as Hw2. assert (H5 : whitespace s2 `suffix_of` s) by by etrans.
  destruct (consume 41 (whitespace s2)) as [s3|] eqn:E4.
  { apply consume_suffix in E4 as [H6 _]. simpl. by etrans. }
  apply (ok_bind _ (whitespace s2)); [done|apply IH; fuel_lia|]. intros args s3 H6. simpl. by etrans.
Qed.

Lemma enough_arguments f s :
  enough f → (8 * length s + 5 ≤ S f)%nat → ok s (arguments (S f) s).
Proof.
  intros IH Hf. cbn [Formula.arguments]. apply (ok_bind _ s); [done|apply IH; lia|]. intros arg s1 H1.
  pose proof (whitespace_suffix s1) as Hw. assert (H2 : whitespace s1 `suffix_of` s) by by etrans.
  destruct (consume 41 (whitespace s1)) as [s2|] eqn:E1.
  { apply consume_suffix in E1 as [H3 _]. simpl. by etrans. }
  destruct (consume 44 (whitespace s1)) as [s2|] eqn:E2; [|simpl; intros; by apply (offset_ok s)].
  apply consume_suffix in E2 as [H3 Hl]. assert (H4 : s2 `suffix_of` s) by by etrans.
  apply (ok_bind _ s2); [done|apply IH; fuel_lia|]. intros args s3 H5. simpl. by etrans.
Qed.

Lemma enough_all f : enough f.
Proof.
  induction f as [|f IH]; intros s; [split_and!; intros; lia|]. split_and!; intros.
  - by apply enough_comparison.
  - cbn [Formula.sum]. apply (ok_bind _ s); [done|apply IH; lia|]. intros lhs s1 H1.
    apply (ok_suffix _ s1); [done|apply IH; fuel_lia].
  - by apply enough_loops.
  - cbn [Formula.product]. apply (ok_bind _ s); [done|apply IH; lia|]. intros lhs s1 H1.
    apply (ok_suffix _ s1); [done|apply IH; fuel_lia].
  - by apply enough_loops.
  - by apply enough_atom.
  - by apply enough_arguments.
Qed.

(** More fuel changes only a stuck result. *)
Definition below {A} (r r' : result A) : Prop := r = Stuck ∨ r = r'.

Lemma below_refl {A} (r : result A) : below r r.
Proof. by right. Qed.

Lemma below_trans {A} (r1 r2 r3 : result A) : below r1 r2 → below r2 r3 → below r1 r3.
Proof. unfold below. naive_solver. Qed.

Lemma below_bind {A B} (r r' : result A) (k k' : A → result B) :
  below r r' → (∀ a, below (k a) (k' a)) → below (r ≫= k) (r' ≫= k').
Proof. intros [->| ->] Hk; [by left|]. destruct r'; [apply Hk|by right|by left]. Qed.

Lemma below_S f :
  (∀ s, below (comparison f s) (comparison (S f) s)) ∧ (∀ s, below (sum f s) (sum (S f) s)) ∧
  (∀ lhs s, below (sum_loop f lhs s) (sum_loop (S f) lhs s)) ∧
  (∀ s, below (product f s) (product (S f) s)) ∧
  (∀ lhs s, below (product_loop f lhs s) (product_loop (S f) lhs s)) ∧
  (∀ s, below (atom f s) (atom (S f) s)) ∧ (∀ s, below (arguments f s) (arguments (S f) s)).
Proof.
  induction f as [|f (IHc & IHs & IHsl & IHp & IHpl & IHa & IHg)]; [split_and!; intros; by left|].
  split_and!; intros.
  - cbn [Formula.comparison]. apply below_bind; [apply IHs|]. intros [l s1]. case_match; [|by right].
    case_match. apply below_bind; [apply IHs|]. intros [r s2]. by right.
  - cbn [Formula.sum]. apply below_bind; [apply IHp|]. intros [l s1]. apply IHsl.
  - cbn [Formula.sum_loop]. case_match; [|by right]. case_match.
    apply below_bind; [apply IHp|]. intros [r s2]. apply IHsl.
  - cbn [Formula.product]. apply below_bind; [apply IHa|]. intros [l s1]. apply IHpl.
  - cbn [Formula.product_loop]. case_match; [|by right]. case_match.
    apply below_bind; [apply IHa|]. intros [r s2]. apply IHpl.
  - cbn [Formula.atom]. destruct (consume 40 (whitespace s)) as [s1|].
    { apply below_bind; [apply IHs|]. intros [e s2]. by right. }
    destruct (consume 36 (whitespace s)) as [s1|]; [by right|].
    destruct (peek (whitespace s)); [|by right]. case_match; [by right|].
    apply below_bind; [by right|]. intros [name s1].
    destruct (consume 40 (whitespace s1)) as [s2|]; [|by right].
    destruct (consume 41 (whitespace s2)); [by right|].
    apply below_bind; [apply IHg|]. intros [args s3]. by right.
  - cbn [Formula.arguments]. apply below_bind; [apply IHc|]. intros [arg s1].
    destruct (consume 41 (whitespace s1)); [by right|]. destruct (consume 44 (whitespace s1)); [|by right].
    apply below_bind; [apply IHg|]. intros [args s3]. by right.
Qed.

Lemma canonical {A} (X : nat → result (A * list Z)) s need f f' :
  (∀ f, below (X f) (X (S f))) → (∀ f, (need ≤ f)%nat → ok s (X f)) →
  (need ≤ f)%nat → (need ≤ f')%nat → X f = X f'.
Proof.
  intros HS Hok Hf Hf'.
  assert (Hmono : ∀ n k, below (X n) (X (k + n)%nat)).
  { intros n. induction k as [|k IH]; [by right|]. eapply below_trans; [exact IH|apply HS]. }
  assert (Hneed : ∀ n, (need ≤ n)%nat → X n = X need).
  { intros n Hn. destruct (Hmono need (n - need)%nat) as [E|E].
    - pose proof (Hok need ltac:(lia)) as Hbad. by rewrite E in Hbad.
    - rewrite E. f_equal. lia. }
  by rewrite (Hneed f Hf), (Hneed f' Hf').
Qed.

(** The functions with the fuel they need, and the equations of the source. *)
Definition fuel_of (s : list Z) : nat := (8 * length s + 5)%nat.
Lemma fuel_S s : fuel_of s = S (8 * length s + 4)%nat.
Proof. unfold fuel_of. lia. Qed.
Definition cmp (s : list Z) := comparison (fuel_of s) s.
Definition sm (s : list Z) := sum (fuel_of s) s.
Definition sml (lhs : Expr F) (s : list Z) := sum_loop (fuel_of s) lhs s.
Definition prod_ (s : list Z) := product (fuel_of s) s.
Definition prodl (lhs : Expr F) (s : list Z) := product_loop (fuel_of s) lhs s.
Definition atm (s : list Z) := atom (fuel_of s) s.
Definition args_ (s : list Z) := arguments (fuel_of s) s.

Ltac by_canonical X s need :=
  intros; apply (canonical X s need);
    [intros; apply below_S|intros; by apply enough_all|done|unfold fuel_of; lia].

Lemma cmp_fuel f s : (8 * length s + 4 ≤ f)%nat → comparison f s = cmp s.
Proof. by_canonical (λ f, comparison f s) s (8 * length s + 4)%nat. Qed.
Lemma sm_fuel f s : (8 * length s + 3 ≤ f)%nat → sum f s = sm s.
Proof. by_canonical (λ f, sum f s) s (8 * length s + 3)%nat. Qed.
Lemma sml_fuel f lhs s : (8 * length s + 1 ≤ f)%nat → sum_loop f lhs s = sml lhs s.
Proof. by_canonical (λ f, sum_loop f lhs s) s (8 * length s + 1)%nat. Qed.
Lemma prod_fuel f s : (8 * length s + 2 ≤ f)%nat → product f s = prod_ s.
Proof. by_canonical (λ f, product f s) s (8 * length s + 2)%nat. Qed.
Lemma prodl_fuel f lhs s : (8 * length s + 1 ≤ f)%nat → product_loop f lhs s = prodl lhs s.
Proof. by_canonical (λ f, product_loop f lhs s) s (8 * length s + 1)%nat. Qed.
Lemma atm_fuel f s : (8 * length s + 1 ≤ f)%nat → atom f s = atm s.
Proof. by_canonical (λ f, atom f s) s (8 * length s + 1)%nat. Qed.
Lemma args_fuel f s : (8 * length s + 5 ≤ f)%nat → arguments f s = args_ s.
Proof. by_canonical (λ f, arguments f s) s (8 * length s + 5)%nat. Qed.

Lemma bind_ok {A B} s (r : result (A * list Z)) (k k' : A * list Z → result B) :
  ok s r → (∀ a s', s' `suffix_of` s → k (a, s') = k' (a, s')) → r ≫= k = r ≫= k'.
Proof. intros Hr Hk. destruct r as [[a s']|e|]; simpl in *; [by apply Hk|done|done]. Qed.

Lemma cmp_ok s : ok s (cmp s).
Proof. apply enough_all. unfold fuel_of. lia. Qed.
Lemma sm_ok s : ok s (sm s).
Proof. apply enough_all. unfold fuel_of. lia. Qed.
Lemma prod_ok s : ok s (prod_ s).
Proof. apply enough_all. unfold fuel_of. lia. Qed.
Lemma atm_ok s : ok s (atm s).
Proof. apply enough_all. unfold fuel_of. lia. Qed.

(** What [try_parse_expr] runs is one of these functions. *)
Lemma sm_eq s : sm s = '(lhs, s) ← prod_ s; sml lhs s.
Proof.
  unfold sm. rewrite fuel_S. cbn [Formula.sum]. rewrite prod_fuel by lia.
  apply (bind_ok s); [apply prod_ok|]. intros lhs s1 H1. apply sml_fuel. fuel_lia.
Qed.

Lemma prod_eq s : prod_ s = '(lhs, s) ← atm s; prodl lhs s.
Proof.
  unfold prod_. rewrite fuel_S. cbn [Formula.product]. rewrite atm_fuel by lia.
  apply (bind_ok s); [apply atm_ok|]. intros lhs s1 H1. apply prodl_fuel. fuel_lia.
Qed.

Lemma sml_eq lhs s :
  sml lhs s =
  match sum_op (whitespace s) with
  | Some (op, s) => '(rhs, s) ← prod_ s; sml (Binary op lhs rhs) s
  | None => Ok (lhs, whitespace s)
  end.
Proof.
  unfold sml at 1. rewrite fuel_S. cbn [Formula.sum_loop].
  pose proof (whitespace_suffix s) as Hw.
  destruct (sum_op (whitespace s)) as [[op s1]|] eqn:E; [|done].
  apply sum_op_app in E as [c E]. rewrite E in Hw. rewrite prod_fuel by fuel_lia.
  apply (bind_ok s1); [apply prod_ok|]. intros rhs s2 H2. apply sml_fuel. fuel_lia.
Qed.

Lemma prodl_eq lhs s :
  prodl lhs s =
  match product_op (whitespace s) with
  | Some (op, s) => '(rhs, s) ← atm s; prodl (Binary op lhs rhs) s
  | None => Ok (lhs, whitespace s)
  end.
Proof.
  unfold prodl at 1. rewrite fuel_S. cbn [Formula.product_loop].
  pose proof (whitespace_suffix s) as Hw.
  destruct (product_op (whitespace s)) as [[op s1]|] eqn:E; [|done].
  apply product_op_app in E as [c E]. rewrite E in Hw. rewrite atm_fuel by fuel_lia.
  apply (bind_ok s1); [apply atm_ok|]. intros rhs s2 H2. apply prodl_fuel. fuel_lia.
Qed.

Lemma cmp_eq s :
  cmp s =
  '(lhs, s) ← sm s;
  match comparison_op (whitespace s) with
  | Some (op, s) => '(rhs, s) ← sm s; Ok (Binary op lhs rhs, s)
  | None => Ok (lhs, whitespace s)
  end.
Proof.
  unfold cmp. rewrite fuel_S. cbn [Formula.comparison]. rewrite sm_fuel by lia.
  apply (bind_ok s); [apply sm_ok|]. intros lhs s1 H1. pose proof (whitespace_suffix s1) as Hw.
  destruct (comparison_op (whitespace s1)) as [[op s2]|] eqn:E; [|done].
  apply comparison_op_suffix in E as [E Hl]. by rewrite sm_fuel by fuel_lia.
Qed.

Lemma args_eq s :
  args_ s =
  '(arg, s) ← cmp s;
  match consume 41 (whitespace s) with
  | Some s => Ok ([arg], s)
  | None =>
      match consume 44 (whitespace s) with
      | Some s => '(args, s) ← args_ s; Ok (arg :: args, s)
      | None => Err (ExpectedCommaOrClose (offset total (whitespace s)))
      end
  end.
Proof.
  unfold args_ at 1. rewrite fuel_S. cbn [Formula.arguments]. rewrite cmp_fuel by lia.
  apply (bind_ok s); [apply cmp_ok|]. intros arg s1 H1. pose proof (whitespace_suffix s1) as Hw.
  destruct (consume 41 (whitespace s1)) as [s2|]; [done|].
  destruct (consume 44 (whitespace s1)) as [s2|] eqn:E; [|done].
  apply consume_suffix in E as [E Hl]. by rewrite args_fuel by fuel_lia.
Qed.

Lemma atm_eq s :
  atm s =
  match consume 40 (whitespace s) with
  | Some s =>
      '(e, s) ← sm s;
      match consume 41 (whitespace s) with
      | Some s => Ok (e, s)
      | None => Err (MissingClose (offset total (whitespace s)))
      end
  | None =>
      match consume 36 (whitespace s) with
      | Some s => '(name, s) ← identifier total s; Ok (Constant name, s)
      | None =>
          match peek (whitespace s) with
          | None => Err UnexpectedEnd
          | Some c =>
              if is_ascii_digit c || (c =? 46)
              then '(v, s) ← number nearest total (whitespace s); Ok (Num v, s)
              else
                '(name, s) ← identifier total (whitespace s);
                match consume 40 (whitespace s) with
                | None => Ok (Variable_ name, whitespace s)
                | Some s =>
                    match consume 41 (whitespace s) with
                    | Some s => Ok (Call name [], s)
                    | None => '(args, s) ← args_ (whitespace s); Ok (Call name args, s)
                    end
                end
          end
      end
  end.
Proof.
  unfold atm. rewrite fuel_S. cbn [Formula.atom].
  pose proof (whitespace_suffix s) as Hw. destruct (consume 40 (whitespace s)) as [s1|] eqn:E1.
  { apply consume_suffix in E1 as [E1 Hl]. by rewrite sm_fuel by fuel_lia. }
  destruct (consume 36 (whitespace s)); [done|]. destruct (peek (whitespace s)); [|done].
  case_match; [done|]. apply (bind_ok (whitespace s)); [apply identifier_ok|]. intros name s1 H1.
  pose proof (whitespace_suffix s1) as Hw1.
  destruct (consume 40 (whitespace s1)) as [s2|] eqn:E2; [|done].
  apply consume_suffix in E2 as [E2 Hl]. pose proof (whitespace_suffix s2) as Hw2.
  destruct (consume 41 (whitespace s2)); [done|]. by rewrite args_fuel by fuel_lia.
Qed.
End fuel.
End Fuel.

(** ** Printing *)
Module Print.
Import Fuel.

Section print.
Context {F : Type} (nearest : Z → nat → F) (total : Z) (w : list Z).
Context (Hw : Forall (λ c, is_whitespace c = true) w).
Local Notation cmp := (cmp nearest total).
Local Notation sm := (sm nearest total).
Local Notation sml := (sml nearest total).
Local Notation prod_ := (prod_ nearest total).
Local Notation prodl := (prodl nearest total).
Local Notation atm := (atm nearest total).
Local Notation args_ := (args_ nearest total).

(** The spelling of an operator and the level it is parsed at. *)
Definition spelling (op : BinOp) : list Z :=
  match op with
  | Add => [43] | Sub => [45] | Mul => [42] | Div => [47]
  | Eq => [61; 61] | Lt => [60] | Le => [60; 61] | Gt => [62] | Ge => [62; 61]
  end.
Definition level (op : BinOp) : nat :=
  match op with Mul | Div => 2 | Add | Sub => 1 | _ => 0 end.

(** White space and a token. *)
Definition tok (t : list Z) : list Z := w ++ t.

(** Numbers are printed as they are written: the trees carry their spelling. *)
Fixpoint print (lvl : nat) (e : Expr (list Z)) : list Z :=
  match e with
  | Binary op l r =>
      let body := print (max 1 (level op)) l ++ tok (spelling op) ++ print (S (level op)) r in
      if (lvl <=? level op)%nat then body else tok [40] ++ body ++ tok [41]
  | Variable_ name => tok name
  | Constant name => tok (36 :: name)
  | Num text => tok text
  | Call name args =>
      tok name ++ tok [40] ++
      match args with
      | [] => tok [41]
      | a :: args => print 0 a ++ concat (map (λ a, tok [44] ++ print 0 a) args) ++ tok [41]
      end
  end.

(** The tree the parser should return. *)
Definition value (text : list Z) : F :=
  match decimal text with Some (d, k) => nearest d k | None => nearest 0 0 end.
Fixpoint denote (e : Expr (list Z)) : Expr F :=
  match e with
  | Binary op l r => Binary op (denote l) (denote r)
  | Variable_ name => Variable_ name
  | Constant name => Constant name
  | Num text => Num (value text)
  | Call name args => Call name (map denote args)
  end.

Definition ident_ok (name : list Z) : bool :=
  forallb ident_char name && existsb is_ascii_alphabetic name.
Definition starts_name (name : list Z) : bool :=
  match name with c :: _ => negb (is_ascii_digit c || (c =? 46)) | [] => false end.

(** Trees of the grammar: comparisons only at the top and as arguments. *)
Fixpoint wf (top : bool) (e : Expr (list Z)) : bool :=
  match e with
  | Binary op l r => (top || (0 <? level op)%nat) && wf false l && wf false r
  | Variable_ name => ident_ok name && starts_name name
  | Constant name => ident_ok name
  | Num text =>
      forallb number_char text && negb (bool_decide (text = [])) &&
      match decimal text with Some _ => true | None => false end
  | Call name args => ident_ok name && starts_name name && forallb (wf true) args
  end.

Lemma whitespace_tok t rest : whitespace (tok t ++ rest) = whitespace (t ++ rest).
Proof. unfold tok. rewrite <-app_assoc. by apply whitespace_app. Qed.

(** The next token of [rest] is one of [cs], or there is none. *)
Definition next_in (cs : list Z) (rest : list Z) : Prop :=
  match whitespace rest with [] => True | c :: _ => c ∈ cs end.

Definition after_atom : list Z := [43; 45; 42; 47; 60; 61; 62; 41; 44].
Definition after_product : list Z := [43; 45; 60; 61; 62; 41; 44].
Definition after_sum : list Z := [60; 61; 62; 41; 44].
Definition after_comparison : list Z := [41; 44].

Lemma next_in_mono cs cs' rest : cs ⊆ cs' → next_in cs rest → next_in cs' rest.
Proof. unfold next_in. case_match; [done|]. set_solver. Qed.

Lemma next_in_tok cs t c rest :
  is_whitespace c = false → c ∈ cs → next_in cs (tok (c :: t) ++ rest).
Proof. intros Hc Hin. unfold next_in. rewrite whitespace_tok. simpl. by rewrite Hc. Qed.

Lemma ident_char_not_space c : ident_char c = true → is_whitespace c = false.
Proof.
  intros H. apply not_true_is_false. intros H'. unfold ident_char, is_ascii_alphabetic, is_ascii_digit, is_whitespace in *.
  rewrite ?orb_true_iff, ?andb_true_iff, ?Z.leb_le, ?Z.eqb_eq in *. lia.
Qed.

Lemma scan_exact p name rest :
  forallb p name = true → match rest with [] => True | c :: _ => p c = false end →
  scan p (name ++ rest) = (name, rest).
Proof.
  intros Hn Hr. induction name as [|c name IH]; simpl in *.
  - destruct rest as [|c rest]; simpl; [done|]. by rewrite Hr.
  - apply andb_true_iff in Hn as [-> Hn]. by rewrite IH.
Qed.

(** What may follow an atom does not extend a name or a number. *)
Lemma after_atom_stops rest :
  next_in after_atom rest → match rest with [] => True | c :: _ => ident_char c = false end.
Proof.
  unfold next_in. destruct rest as [|c rest]; [done|]. simpl. destruct (is_whitespace c) eqn:E.
  - intros _. apply not_true_is_false. intros H%ident_char_not_space. congruence.
  - intros H. unfold after_atom in H. rewrite !elem_of_cons in H.
    destruct H as [->|[->|[->|[->|[->|[->|[->|[->|[->|H]]]]]]]]]; try done. set_solver.
Qed.

Lemma identifier_exact name rest :
  ident_ok name = true → match rest with [] => True | c :: _ => ident_char c = false end →
  identifier total (name ++ rest) = Ok (name, rest).
Proof.
  unfold ident_ok, identifier. intros [H1 H2]%andb_true_iff Hr. rewrite scan_exact by done.
  rewrite H2. rewrite bool_decide_false; [done|]. by intros ->.
Qed.

(** Parsing a printed tree at each level: what the level's loop does after it. *)
Definition atom_ok (e : Expr (list Z)) : Prop := ∀ rest, next_in after_atom rest →
  ∃ s', atm (print 3 e ++ rest) = Ok (denote e, s') ∧ whitespace s' = whitespace rest.
Definition product_ok (e : Expr (list Z)) : Prop := ∀ rest, next_in after_atom rest →
  prod_ (print 2 e ++ rest) = prodl (denote e) rest.
Definition sum_ok (e : Expr (list Z)) : Prop := ∀ rest, next_in after_product rest →
  sm (print 1 e ++ rest) = sml (denote e) rest.
Definition comparison_ok (e : Expr (list Z)) : Prop := ∀ rest, next_in after_comparison rest →
  cmp (print 0 e ++ rest) = Ok (denote e, whitespace rest).

Lemma sml_ws l s s' : whitespace s = whitespace s' → sml l s = sml l s'.
Proof. intros E. by rewrite !sml_eq, E. Qed.
Lemma prodl_ws l s s' : whitespace s = whitespace s' → prodl l s = prodl l s'.
Proof. intros E. by rewrite !prodl_eq, E. Qed.

Ltac in_cases H := rewrite ?elem_of_cons in H; repeat destruct H as [->|H]; [..|set_solver].

Lemma prodl_stop l rest : next_in after_product rest → prodl l rest = Ok (l, whitespace rest).
Proof.
  intros H. rewrite prodl_eq. unfold next_in in H. destruct (whitespace rest) as [|c t]; [done|].
  unfold after_product in H. in_cases H; done.
Qed.

Lemma sml_stop l rest : next_in after_sum rest → sml l rest = Ok (l, whitespace rest).
Proof.
  intros H. rewrite sml_eq. unfold next_in in H. destruct (whitespace rest) as [|c t]; [done|].
  unfold after_sum in H. in_cases H; done.
Qed.

Lemma product_of_atom e : print 2 e = print 3 e → atom_ok e → product_ok e.
Proof.
  intros E H rest Hr. rewrite E, prod_eq. destruct (H rest Hr) as (s' & -> & Hs). simpl. by apply prodl_ws.
Qed.

Lemma sum_of_product e : print 1 e = print 2 e → product_ok e → sum_ok e.
Proof.
  intros E H rest Hr. rewrite E, sm_eq, H by (eapply next_in_mono; [|done]; set_solver).
  rewrite prodl_stop by done. simpl. apply sml_ws, whitespace_idemp.
Qed.

Lemma comparison_of_sum e : print 0 e = print 1 e → sum_ok e → comparison_ok e.
Proof.
  intros E H rest Hr. rewrite E, cmp_eq, H by (eapply next_in_mono; [|done]; set_solver).
  rewrite sml_stop by (eapply next_in_mono; [|done]; set_solver). simpl. rewrite whitespace_idemp.
  unfold next_in in Hr. destruct (whitespace rest) as [|c t]; [done|].
  unfold after_comparison in Hr. in_cases Hr; done.
Qed.

(** A tree that prints the same at all levels. *)
Lemma all_of_atom e :
  (∀ lvl, print lvl e = print 3 e) → atom_ok e →
  (atom_ok e ∧ product_ok e ∧ sum_ok e) ∧ comparison_ok e.
Proof.
  intros E H. assert (Hp : product_ok e) by (apply product_of_atom; [apply E|done]).
  assert (Hs : sum_ok e) by (apply sum_of_product; [by rewrite !E|done]).
  split; [done|]. apply comparison_of_sum; [by rewrite !E|done].
Qed.

Lemma constant_atom name : wf false (Constant name) = true → atom_ok (Constant name).
Proof.
  intros Hn rest Hr. rewrite atm_eq. cbn [print denote]. rewrite whitespace_tok. simpl.
  rewrite identifier_exact; [|done|by apply after_atom_stops]. simpl. eauto.
Qed.

Lemma number_atom text : wf false (Num text) = true → atom_ok (Num text).
Proof.
  cbn [wf]. rewrite !andb_true_iff, negb_true_iff, bool_decide_eq_false. intros [[Hc Hne] Hd] rest Hr.
  rewrite atm_eq. cbn [print denote]. rewrite whitespace_tok.
  destruct text as [|c text]; [done|]. assert (Hc' : number_char c = true) by (simpl in Hc; by apply andb_true_iff in Hc as []).
  assert (Hi : ident_char c = true).
  { unfold number_char, ident_char in *. apply orb_true_iff in Hc' as [->| ->]; by rewrite ?orb_true_r. }
  assert (Hne40 : c ≠ 40 ∧ c ≠ 36).
  { split; intros ->; vm_compute in Hi; done. }
  assert (E : whitespace ((c :: text) ++ rest) = (c :: text) ++ rest).
  { simpl. by rewrite (ident_char_not_space c Hi). }
  rewrite E. cbn [app consume peek head]. rewrite !(proj2 (Z.eqb_neq c _)) by apply Hne40.
  unfold number_char in Hc'. rewrite Hc'. change (c :: text ++ rest) with ((c :: text) ++ rest).
  unfold number. rewrite scan_exact; [|done|].
  - unfold value. destruct (decimal (c :: text)) as [[d k]|]; [simpl; eauto|done].
  - apply after_atom_stops in Hr. destruct rest as [|x rest]; [done|].
    unfold ident_char, number_char in *. rewrite !orb_false_iff in *. tauto.
Qed.

(** The name of a variable or a call, up to the parenthesis. *)
Lemma name_atom name rest :
  ident_ok name = true → starts_name name = true →
  match rest with [] => True | c :: _ => ident_char c = false end →
  atm (tok name ++ rest) =
  match consume 40 (whitespace rest) with
  | None => Ok (Variable_ name, whitespace rest)
  | Some s =>
      match consume 41 (whitespace s) with
      | Some s => Ok (Call name [], s)
      | None => '(args, s) ← args_ (whitespace s); Ok (Call name args, s)
      end
  end.
Proof.
  intros Hn Hs Hr. rewrite atm_eq, whitespace_tok. destruct name as [|c name]; [done|].
  assert (Hi : ident_char c = true).
  { unfold ident_ok in Hn. simpl in Hn. by repeat (apply andb_true_iff in Hn as [Hn _]). }
  assert (E : whitespace ((c :: name) ++ rest) = (c :: name) ++ rest).
  { simpl. by rewrite (ident_char_not_space c Hi). }
  assert (Hne40 : c ≠ 40 ∧ c ≠ 36).
  { split; intros ->; vm_compute in Hi; done. }
  rewrite E. cbn [app consume peek head]. rewrite !(proj2 (Z.eqb_neq c _)) by apply Hne40.
  simpl in Hs. apply negb_true_iff in Hs. rewrite Hs.
  change (c :: name ++ rest) with ((c :: name) ++ rest). by rewrite identifier_exact.
Qed.

Lemma variable_atom name : wf false (Variable_ name) = true → atom_ok (Variable_ name).
Proof.
  cbn [wf]. intros [Hn Hs]%andb_true_iff rest Hr. cbn [print denote].
  rewrite name_atom by (done || by apply after_atom_stops). exists (whitespace rest).
  split; [|apply whitespace_idemp]. unfold next_in in Hr. destruct (whitespace rest) as [|c t]; [done|].
  unfold after_atom in Hr. in_cases Hr; done.
Qed.

Lemma tok_stops t rest : match t with c :: _ => ident_char c = false | [] => False end →
  match tok t ++ rest with [] => True | c :: _ => ident_char c = false end.
Proof.
  intros Ht. unfold tok. destruct w as [|c w'] eqn:E; simpl.
  - by destruct t.
  - inversion Hw as [|?? Hc]; subst. apply not_true_is_false. intros Hi%ident_char_not_space. congruence.
Qed.

(** The arguments after the first, and the closing parenthesis. *)
Lemma arguments_ok a args rest :
  comparison_ok a → Forall comparison_ok args →
  args_ (print 0 a ++ concat (map (λ a, tok [44] ++ print 0 a) args) ++ tok [41] ++ rest) =
  Ok (denote a :: map denote args, rest).
Proof.
  intros Ha Hargs. revert a Ha. induction Hargs as [|b args Hb Hargs IH]; intros a Ha; rewrite args_eq.
  - simpl. rewrite Ha by (by apply next_in_tok; [|set_solver]). simpl.
    rewrite whitespace_idemp, whitespace_tok. done.
  - cbn [map concat]. rewrite <-!app_assoc.
    rewrite Ha by (by apply next_in_tok; [|set_solver]). simpl.
    rewrite whitespace_idemp, whitespace_tok. cbn [app consume whitespace]. simpl.
    by rewrite IH.
Qed.

Lemma atm_ws s : atm (whitespace s) = atm s.
Proof. by rewrite !atm_eq, whitespace_idemp. Qed.
Lemma args_ws s : args_ (whitespace s) = args_ s.
Proof. by rewrite !args_eq, !cmp_eq, !sm_eq, !prod_eq, atm_ws. Qed.

Lemma tok_first c t rest : is_whitespace c = false → whitespace (tok (c :: t) ++ rest) = c :: t ++ rest.
Proof. intros Hc. rewrite whitespace_tok. simpl. by rewrite Hc. Qed.

Lemma ident_first (p : Z → bool) name rest :
  (∀ c, p c = true → ident_char c = true) → forallb p name = true → name ≠ [] →
  ∃ c t, whitespace (tok name ++ rest) = c :: t ∧ c ≠ 41.
Proof.
  intros Hp Hn Hne. destruct name as [|c name]; [done|]. simpl in Hn. apply andb_true_iff in Hn as [Hc _].
  apply Hp in Hc. exists c, (name ++ rest). rewrite tok_first by by apply ident_char_not_space.
  split; [done|]. intros ->. by vm_compute in Hc.
Qed.

(** A printed tree does not start with a closing parenthesis. *)
Lemma print_first e top lvl rest :
  wf top e = true → ∃ c t, whitespace (print lvl e ++ rest) = c :: t ∧ c ≠ 41.
Proof.
  revert top lvl rest; induction e as [op l IHl r IHr|name|name|text|name args] using Expr_ind;
    intros top lvl rest; cbn [wf print].
  - rewrite !andb_true_iff. intros [[_ Hl] Hr]. case_match; rewrite <-?app_assoc; [by eapply IHl|].
    rewrite tok_first by done. by eexists _, _.
  - rewrite andb_true_iff. unfold ident_ok. rewrite andb_true_iff. intros [[H _] Hs].
    apply (ident_first ident_char); [done|done|by intros ->].
  - intros _. rewrite tok_first by done. by eexists _, _.
  - rewrite !andb_true_iff, negb_true_iff, bool_decide_eq_false. intros [[H Hne] _].
    apply (ident_first number_char); [|done|done].
    intros c. unfold number_char, ident_char. intros [->| ->]%orb_true_iff; by rewrite ?orb_true_r.
  - rewrite !andb_true_iff. unfold ident_ok. rewrite andb_true_iff. intros [[[H _] Hs] _].
    rewrite <-app_assoc. apply (ident_first ident_char); [done|done|by intros ->].
Qed.

Lemma call_atom name args :
  ident_ok name = true → starts_name name = true → forallb (wf true) args = true →
  Forall comparison_ok args → atom_ok (Call name args).
Proof.
  intros Hn Hs Hwf Hargs rest Hr. cbn [print denote]. rewrite <-app_assoc.
  rewrite name_atom; [|done|done|rewrite <-app_assoc; by apply tok_stops].
  rewrite <-app_assoc, tok_first by done. cbn [consume app]. rewrite Z.eqb_refl.
  destruct args as [|a args].
  - rewrite tok_first by done. simpl. eauto.
  - simpl in Hwf. apply andb_true_iff in Hwf as [Ha _].
    rewrite args_ws. rewrite <-!app_assoc.
    destruct (print_first a true 0 (concat (map (λ a, tok [44] ++ print 0 a) args) ++ tok [41] ++ rest) Ha)
      as (c & t & E & Hc). rewrite E. cbn [consume]. rewrite (proj2 (Z.eqb_neq _ _) Hc).
    inversion Hargs; subst. rewrite arguments_ok by done. simpl. eauto.
Qed.

(** A binary operator: the body between its operands, at the operator's own level. *)
Lemma sum_body op l r rest :
  level op = 1%nat → sum_ok l → product_ok r → next_in after_product rest →
  sm ((print 1 l ++ tok (spelling op) ++ print 2 r) ++ rest) = sml (Binary op (denote l) (denote r)) rest.
Proof.
  intros Hop Hl Hr Hn. rewrite <-!app_assoc.
  assert (Hstep : sml (denote l) (tok (spelling op) ++ print 2 r ++ rest) =
                  ('(rhs, s) ← prod_ (print 2 r ++ rest); sml (Binary op (denote l) rhs) s)).
  { rewrite sml_eq. by destruct op; try done; cbn [spelling]; rewrite tok_first. }
  rewrite Hl by (destruct op; try done; by apply next_in_tok; [|set_solver]).
  rewrite Hstep, Hr by (eapply next_in_mono; [|done]; set_solver).
  rewrite prodl_stop by done. simpl. apply sml_ws, whitespace_idemp.
Qed.

Lemma product_body op l r rest :
  level op = 2%nat → product_ok l → atom_ok r → next_in after_atom rest →
  prod_ ((print 2 l ++ tok (spelling op) ++ print 3 r) ++ rest) = prodl (Binary op (denote l) (denote r)) rest.
Proof.
  intros Hop Hl Hr Hn. rewrite <-!app_assoc.
  assert (Hstep : prodl (denote l) (tok (spelling op) ++ print 3 r ++ rest) =
                  ('(rhs, s) ← atm (print 3 r ++ rest); prodl (Binary op (denote l) rhs) s)).
  { rewrite prodl_eq. by destruct op; try done; cbn [spelling]; rewrite tok_first. }
  rewrite Hl by (destruct op; try done; by apply next_in_tok; [|set_solver]). rewrite Hstep.
  destruct (Hr rest Hn) as (s' & -> & Hs). simpl. by apply prodl_ws.
Qed.

(** A printed tree does not start with an equals sign either. *)
Lemma tok_head c t rest : c ≠ 61 → ∃ d u, tok (c :: t) ++ rest = d :: u ∧ d ≠ 61.
Proof.
  intros Hc. unfold tok. destruct w as [|d w'] eqn:E; simpl; [by eexists _, _|].
  eexists _, _. split; [done|]. inversion Hw as [|?? Hd]; subst. intros ->. by vm_compute in Hd.
Qed.

Lemma ident_head (p : Z → bool) name rest :
  (∀ c, p c = true → ident_char c = true) → forallb p name = true → name ≠ [] →
  ∃ c t, tok name ++ rest = c :: t ∧ c ≠ 61.
Proof.
  intros Hp Hn Hne. destruct name as [|c name]; [done|]. simpl in Hn. apply andb_true_iff in Hn as [Hc _].
  apply Hp in Hc. apply tok_head. intros ->. by vm_compute in Hc.
Qed.

Lemma print_head e top lvl rest :
  wf top e = true → ∃ c t, print lvl e ++ rest = c :: t ∧ c ≠ 61.
Proof.
  revert top lvl rest; induction e as [op l IHl r IHr|name|name|text|name args] using Expr_ind;
    intros top lvl rest; cbn [wf print].
  - rewrite !andb_true_iff. intros [[_ Hl] Hr]. case_match; rewrite <-?app_assoc; [by eapply IHl|by apply tok_head].
  - rewrite andb_true_iff. unfold ident_ok. rewrite andb_true_iff. intros [[H _] Hs].
    apply (ident_head ident_char); [done|done|by intros ->].
  - intros _. by apply tok_head.
  - rewrite !andb_true_iff, negb_true_iff, bool_decide_eq_false. intros [[H Hne] _].
    apply (ident_head number_char); [|done|done].
    intros c. unfold number_char, ident_char. intros [->| ->]%orb_true_iff; by rewrite ?orb_true_r.
  - rewrite !andb_true_iff. unfold ident_ok. rewrite andb_true_iff. intros [[[H _] Hs] _].
    rewrite <-app_assoc. apply (ident_head ident_char); [done|done|by intros ->].
Qed.

Lemma comparison_op_spelling op s :
  level op = 0%nat → match s with c :: _ => c ≠ 61 | [] => True end →
  comparison_op (whitespace (tok (spelling op) ++ s)) = Some (op, s).
Proof.
  intros Hop Hs. destruct op; try done; cbn [spelling]; rewrite tok_first by done; cbn [app]; try done;
    (destruct s as [|c s]; [done|]); cbn [comparison_op]; (destruct (decide (c = 61)) as [->|]; [done|]);
    by repeat case_match.
Qed.

Lemma comparison_body op l r :
  level op = 0%nat → wf false r = true → sum_ok l → sum_ok r → comparison_ok (Binary op l r).
Proof.
  intros Hop Hwf Hl Hr rest Hn. cbn [print denote]. rewrite Hop. cbn [Nat.leb max]. rewrite <-!app_assoc, cmp_eq.
  rewrite Hl by (destruct op; try done; by apply next_in_tok; [|set_solver]).
  rewrite sml_stop by (destruct op; try done; by apply next_in_tok; [|set_solver]).
  cbn [mbind result_bind]. rewrite whitespace_idemp, comparison_op_spelling; [|done|].
  - rewrite Hr by (eapply next_in_mono; [|done]; set_solver).
    by rewrite sml_stop by (eapply next_in_mono; [|done]; set_solver).
  - destruct (print_head r false 1 rest Hwf) as (c & t & -> & Hc). done.
Qed.

(** Parentheses around the body of an operator make an atom of it. *)
Lemma parens_atom body d rest :
  (∀ rest, next_in after_product rest → sm (body ++ rest) = sml d rest) →
  atm ((tok [40] ++ body ++ tok [41]) ++ rest) = Ok (d, rest).
Proof.
  intros Hb. rewrite atm_eq, <-!app_assoc, tok_first by done. cbn [app consume]. rewrite Z.eqb_refl.
  rewrite Hb, sml_stop by (by apply next_in_tok; [|set_solver]). cbn [mbind result_bind].
  by rewrite whitespace_idemp, tok_first.
Qed.

Lemma binary_ok op l r :
  wf false l = true → wf false r = true →
  (atom_ok l ∧ product_ok l ∧ sum_ok l) → (atom_ok r ∧ product_ok r ∧ sum_ok r) →
  (level op ≠ 0%nat → atom_ok (Binary op l r) ∧ product_ok (Binary op l r) ∧ sum_ok (Binary op l r)) ∧
  comparison_ok (Binary op l r).
Proof.
  intros Hwl Hwr (Hl1 & Hl2 & Hl3) (Hr1 & Hr2 & Hr3).
  assert (Hop : level op = 0%nat ∨ level op = 1%nat ∨ level op = 2%nat) by (destruct op; simpl; auto).
  destruct Hop as [Hop|[Hop|Hop]].
  - split; [done|]. by apply comparison_body.
  - assert (Hs : sum_ok (Binary op l r)).
    { intros rest Hn. cbn [print denote]. rewrite Hop. cbn [Nat.leb max]. by apply sum_body. }
    assert (Ha : atom_ok (Binary op l r)).
    { intros rest Hn. cbn [print denote]. rewrite Hop. cbn [Nat.leb max]. exists rest. split; [|done].
      apply parens_atom. intros. by apply sum_body. }
    split; [intros _; split_and!; [done| |done]|].
    + apply product_of_atom; [|done]. cbn [print]. by rewrite Hop.
    + apply comparison_of_sum; [|done]. cbn [print]. by rewrite Hop.
  - assert (Hp : product_ok (Binary op l r)).
    { intros rest Hn. cbn [print denote]. rewrite Hop. cbn [Nat.leb max]. by apply product_body. }
    assert (Hs : sum_ok (Binary op l r)).
    { apply sum_of_product; [|done]. cbn [print]. by rewrite Hop. }
    assert (Ha : atom_ok (Binary op l r)).
    { intros rest Hn. cbn [print denote]. rewrite Hop. cbn [Nat.leb max]. exists rest. split; [|done].
      apply parens_atom. intros rest' Hn'. specialize (Hs rest' Hn'). cbn [print denote] in Hs.
      rewrite Hop in Hs. exact Hs. }
    split; [done|]. apply comparison_of_sum; [|done]. cbn [print]. by rewrite Hop.
Qed.

(** Induction over a tree and the arguments of its calls. *)
Lemma Expr_nested_ind (Q : Expr (list Z) → Prop) :
  (∀ op l r, Q l → Q r → Q (Binary op l r)) → (∀ name, Q (Variable_ name)) →
  (∀ name, Q (Constant name)) → (∀ text, Q (Num text)) →
  (∀ name args, Forall Q args → Q (Call name args)) → ∀ e, Q e.
Proof.
  intros H1 H2 H3 H4 H5. fix IH 1. intros [op l r|name|name|text|name args].
  - apply H1; apply IH.
  - apply H2.
  - apply H3.
  - apply H4.
  - apply H5. induction args as [|a args IHargs]; constructor; [apply IH|apply IHargs].
Qed.

Lemma print_ok e :
  (wf false e = true → atom_ok e ∧ product_ok e ∧ sum_ok e) ∧ (wf true e = true → comparison_ok e).
Proof.
  induction e as [op l r [IHl _] [IHr _]|name|name|text|name args IH] using Expr_nested_ind.
  - split.
    + cbn [wf orb]. rewrite !andb_true_iff, Nat.ltb_lt. intros [[Hop Hl] Hr].
      destruct (binary_ok op l r) as [H _]; [auto..|]. apply H. lia.
    + cbn [wf orb]. rewrite !andb_true_iff. intros [[_ Hl] Hr].
      destruct (binary_ok op l r) as [_ H]; auto.
  - split; intros Hwf; eapply all_of_atom; try done; by apply variable_atom.
  - split; intros Hwf; eapply all_of_atom; try done; by apply constant_atom.
  - split; intros Hwf; eapply all_of_atom; try done; by apply number_atom.
  - assert (Ha : wf false (Call name args) = true → atom_ok (Call name args)).
    { cbn [wf]. rewrite !andb_true_iff. intros [[Hn Hs] Hargs]. apply call_atom; [done..|].
      rewrite Forall_forall in *. intros a Hin. apply IH; [done|].
      rewrite forallb_forall in Hargs. by apply Hargs, list_elem_of_In. }
    split; intros Hwf; eapply all_of_atom; try done; by apply Ha.
Qed.
End print.
End Print.

(** ** The parser *)

(** C16: Printing a syntax tree of the grammar (comparisons at the top and as arguments,
    every operator with the parentheses its level needs, any fixed white space before
    each token and at the end) and parsing the text gives the tree back: operators
    associate to the left, products bind tighter than sums and sums tighter than
    comparisons, and numbers take the value of their decimal spelling. *)
Theorem formula_roundtrip {F} (nearest : Z → nat → F) (w : list Z) (e : Expr (list Z)) :
  Forall (λ c, is_whitespace c = true) w → Print.wf true e = true →
  try_parse_expr nearest (Print.print w 0 e ++ w) = Ok (Print.denote nearest e).
Proof.
  intros Hw Hwf. unfold try_parse_expr, parse. rewrite Fuel.cmp_fuel by lia.
  assert (Hend : whitespace w = []) by (rewrite <-(app_nil_r w); by rewrite Fuel.whitespace_app).
  rewrite (proj2 (Print.print_ok nearest _ w Hw e) Hwf) by (unfold Print.next_in; by rewrite Hend).
  simpl. by rewrite Fuel.whitespace_idemp, Hend.
Qed.

(** [a >= max((b + c) * d, 1.5) ] *)
Definition sample_formula : Expr (list Z) :=
  Binary Ge (Variable_ (chars "a"))
    (Call (chars "max")
       [Binary Mul (Binary Add (Variable_ (chars "b")) (Constant (chars "c"))) (Variable_ (chars "d"));
        Num (chars "1.5")]).

Lemma formula_roundtrip_witness :
  Print.print (chars " ") 0 sample_formula = chars " a >= max ( ( b + $c ) * d , 1.5 )" ∧
  try_parse_expr pair (chars " a >= max ( ( b + $c ) * d , 1.5 ) ") =
    Ok (Binary Ge (Variable_ (chars "a"))
          (Call (chars "max")
             [Binary Mul (Binary Add (Variable_ (chars "b")) (Constant (chars "c"))) (Variable_ (chars "d"));
              Num (15, 1%nat)])).
Proof.
  split; [by vm_compute|].
  exact (formula_roundtrip pair (chars " ") sample_formula
           ltac:(repeat constructor) ltac:(by vm_compute)).
Defined.

(** C37: The parser terminates on every text: it returns a tree or an error, and the byte
    offset an error reports lies within the text. *)
Theorem formula_total {F} (nearest : Z → nat → F) (s : list Z) :
  match try_parse_expr nearest s with
  | Ok _ => True
  | Err e => Fuel.error_ok (bytes s) e
  | Stuck => False
  end.
Proof.
  unfold try_parse_expr, parse. rewrite Fuel.cmp_fuel by lia.
  pose proof (Fuel.cmp_ok nearest (bytes s) s) as H.
  destruct (Fuel.cmp nearest (bytes s) s) as [[e s1]|e|]; simpl in *; [|by apply H|done].
  pose proof (Fuel.whitespace_suffix s1) as Hw.
  destruct (peek (whitespace s1)); [|done]. simpl. apply (Fuel.offset_ok _ s); [by etrans|lia].
Qed.
