(* ===== verification/Names.v ===== *)
(** * Function names

    [symbolize/src/function_name.rs]: display labels of Rust names, and the encoding of
    names in folded stacks.  Strings are lists of characters (code points); a byte index
    of the source is a position in that list.  The demangler and the Unicode class
    [char::is_alphanumeric] are parameters. *)

From S2P Require Import Prelude Text.
Open Scope Z_scope.

Module Names.

(** ** Folded stacks *)

(** [str::replace] of a character. *)
Definition replace_char (c : Z) (by_ : list Z) (s : list Z) : list Z :=
  concat (map (λ d, if d =? c then by_ else [d]) s).

(** [str::replace] of a pattern: leftmost matches, left to right, without overlap. *)
Fixpoint replace_go (pat by_ : list Z) (skip : nat) (s : list Z) : list Z :=
  match s with
  | [] => []
  | c :: s' =>
      match skip with
      | S skip => replace_go pat by_ skip s'
      | O =>
          if bool_decide (take (length pat) s = pat)
          then by_ ++ replace_go pat by_ (length pat - 1) s'
          else c :: replace_go pat by_ 0 s'
      end
  end.
Definition replace (pat by_ s : list Z) : list Z := replace_go pat by_ 0 s.

Definition encode_folded_name (name : list Z) : list Z :=
  let name := replace_char 37 (chars "%25") name in
  let name := replace_char 59 (chars "%3B") name in
  let name := replace_char 10 (chars "%0A") name in
  replace_char 13 (chars "%0D") name.

Definition decode_folded_name (name : list Z) : list Z :=
  let name := replace (chars "%3B") [59] name in
  let name := replace (chars "%0A") [10] name in
  let name := replace (chars "%0D") [13] name in
  replace (chars "%25") [37] name.

(** ** Labels *)
Record FunctionName := mkName { full : list Z; friendly : list Z }.

Definition is_ascii_hexdigit (c : Z) : bool :=
  ((48 <=? c) && (c <=? 57)) || ((65 <=? c) && (c <=? 70)) || ((97 <=? c) && (c <=? 102)).

(** [s.split_once(c)] for a character. *)
Fixpoint split_once (c : Z) (s : list Z) : option (list Z * list Z) :=
  match s with
  | [] => None
  | d :: s => if d =? c then Some ([], s)
              else match split_once c s with Some (a, b) => Some (d :: a, b) | None => None end
  end.

Definition starts_with (pat s : list Z) : bool := bool_decide (take (length pat) s = pat).

(** [s.rsplit_once(pat)]: at the last occurrence. *)
Fixpoint rsplit_once (pat s : list Z) : option (list Z * list Z) :=
  match s with
  | [] => if bool_decide (pat = []) then Some ([], []) else None
  | c :: s' =>
      match rsplit_once pat s' with
      | Some (a, b) => Some (c :: a, b)
      | None => if starts_with pat s then Some ([], drop (length pat) s) else None
      end
  end.

Section labels.
Context (is_alphanumeric : Z → bool) (try_demangle : list Z → option (list Z)).

(** [has_disambiguator(name, index)] with [name] cut at the bracket: [before] is
    [name[..index]] and [after] is [name[index + 1..]]. *)
Definition has_disambiguator (before after : list Z) : bool :=
  match last before with Some ch => is_alphanumeric ch || (ch =? 95) | None => false end &&
  match split_once 93 after with
  | Some (hash, rest) =>
      (8 <=? length hash)%nat && forallb is_ascii_hexdigit hash && starts_with (chars "::") rest
  | None => false
  end.

(** The scan for the closing angle bracket: [prev] is the character before [s], [n] how
    many characters have been passed; the number of characters up to and with the
    bracket, and whether the bracket is a qualified path. *)
Fixpoint close_angle (prev : Z) (s : list Z) (n depth : nat) (qualified : bool)
    : option nat * bool :=
  match s with
  | [] => (None, qualified)
  | c :: s' =>
      if c =? 60 then close_angle c s' (S n) (S depth) qualified
      else if (c =? 62) && negb (prev =? 45) then
        if (depth =? 1)%nat then (Some (S n), qualified)
        else close_angle c s' (S n) (depth - 1) qualified
      else
        close_angle c s' (S n) depth
          (qualified || ((c =? 32) && (depth =? 1)%nat && starts_with (chars " as ") s))
  end.

(** The loop of [abbreviate]: [seen] is [name[..index]], [skip] counts the characters the
    inner loops have consumed. *)
Fixpoint abbreviate_go (seen s : list Z) (skip : nat) : list Z :=
  match s with
  | [] => []
  | ch :: s' =>
      match skip with
      | S skip => abbreviate_go (seen ++ [ch]) s' skip
      | O =>
          if (ch =? 91) && has_disambiguator seen s'
          then
            match split_once 93 s' with
            | Some (inner, _) => abbreviate_go (seen ++ [ch]) s' (S (length inner))
            | None => ch :: abbreviate_go (seen ++ [ch]) s' 0
            end
          else if ch =? 60 then
            match close_angle 60 s' 0 1 (bool_decide (seen = [])) with
            | (Some n, false) => [60; 8230; 62] ++ abbreviate_go (seen ++ [ch]) s' n
            | _ => ch :: abbreviate_go (seen ++ [ch]) s' 0
            end
          else ch :: abbreviate_go (seen ++ [ch]) s' 0
      end
  end.
Definition abbreviate (name : list Z) : list Z := abbreviate_go [] name 0.

(** [name.match_indices('[').any(|(index, _)| has_disambiguator(name, index))]. *)
Fixpoint any_disambiguator (seen s : list Z) : bool :=
  match s with
  | [] => false
  | ch :: s' => ((ch =? 91) && has_disambiguator seen s') || any_disambiguator (seen ++ [ch]) s'
  end.

Definition legacy_hash (name : list Z) : option (list Z * list Z) :=
  match rsplit_once (chars "::h") name with
  | Some (prefix, hash) =>
      if (length hash =? 16)%nat && forallb is_ascii_hexdigit hash then Some (prefix, hash) else None
  | None => None
  end.

Definition new (full : list Z) : FunctionName :=
  let demangled := try_demangle full in
  let name := default full demangled in
  let is_rust := bool_decide (is_Some demangled) || bool_decide (is_Some (legacy_hash name)) ||
                 any_disambiguator [] name in
  mkName full
    (if is_rust
     then abbreviate (match legacy_hash name with Some (prefix, _) => prefix | None => name end)
     else full).
End labels.

(** The table of the source's own test, with a demangler that knows no name. *)
Definition label (s : string) : list Z :=
  friendly (new (λ c, ((48 <=? c) && (c <=? 57)) || ((65 <=? c) && (c <=? 90)) || ((97 <=? c) && (c <=? 122)))
              (λ _, None) (chars s)).
Example labels :
  label "demo::work::<alloc::vec::Vec<u64>>::h0123456789abcdef" = chars "demo::work::<" ++ [8230] ++ chars ">" ∧
  label "<demo::Item<u64> as demo::Run>::run::h0123456789abcdef" =
    chars "<demo::Item<" ++ [8230] ++ chars "> as demo::Run>::run" ∧
  label "demo::work::<fn() -> u64>::h0123456789abcdef" = chars "demo::work::<" ++ [8230] ++ chars ">" ∧
  label "<[f64] as s::Sum>::total::h0123456789abcdef" = chars "<[f64] as s::Sum>::total" ∧
  label "<[f32]>::sort_by::h0123456789abcdef" = chars "<[f32]>::sort_by" ∧
  label "demo[01234567]::work" = chars "demo::work" ∧
  label "std::vector<int>::push_back(int)" = chars "std::vector<int>::push_back(int)" ∧
  label "broken::<thing" = chars "broken::<thing" ∧ label "a::h123" = chars "a::h123" ∧
  label "foo[abc]::bar" = chars "foo[abc]::bar" ∧ label "[abcdefab]::bar" = chars "[abcdefab]::bar".
Proof. vm_compute. repeat split. Qed.
End Names.

(** ** The encoding of folded names *)
Module Folded.
Import Names.

Lemma replace_char_concat c r bs :
  replace_char c r (concat bs) = concat (map (replace_char c r) bs).
Proof.
  induction bs as [|b bs IH]; [done|]. simpl. rewrite <-IH. unfold replace_char.
  by rewrite map_app, concat_app.
Qed.

(** What one character becomes. *)
Definition encode_char (c : Z) : list Z :=
  if c =? 37 then chars "%25" else if c =? 59 then chars "%3B"
  else if c =? 10 then chars "%0A" else if c =? 13 then chars "%0D" else [c].

Lemma encode_chars s : encode_folded_name s = concat (map encode_char s).
Proof.
  unfold encode_folded_name. unfold replace_char at 4. rewrite !replace_char_concat, !map_map. f_equal.
  apply map_ext. intros c. unfold encode_char.
  destruct (Z.eqb_spec c 37) as [->|H1]; [by vm_compute|]. unfold replace_char. simpl.
  destruct (Z.eqb_spec c 59) as [->|H2]; [by vm_compute|]. simpl.
  destruct (Z.eqb_spec c 10) as [->|H3]; [by vm_compute|]. simpl.
  by destruct (Z.eqb_spec c 13).
Qed.

(** A plain character, or an escape: a percent sign and two characters that are not. *)
Definition block (b : list Z) : Prop :=
  (∃ c, c ≠ 37 ∧ b = [c]) ∨ ∃ x y, x ≠ 37 ∧ y ≠ 37 ∧ b = [37; x; y].

Definition substitute (pat by_ b : list Z) : list Z := if bool_decide (b = pat) then by_ else b.

Lemma replace_blocks x y r bs :
  Forall block bs →
  replace [37; x; y] [r] (concat bs) = concat (map (substitute [37; x; y] [r]) bs).
Proof.
  unfold replace. induction 1 as [|b bs Hb _ IH]; [done|]. cbn [concat map]. rewrite <-IH. unfold substitute.
  destruct Hb as [(c & Hc & ->)|(x' & y' & Hx & Hy & ->)].
  - rewrite bool_decide_false by done. cbn [app replace_go]. rewrite bool_decide_false; [done|].
    cbn [length take]. congruence.
  - cbn [app replace_go length take]. rewrite take_0. case_bool_decide as E.
    + done.
    + rewrite !bool_decide_false by congruence. done.
Qed.

Lemma substitute_block x y r b : r ≠ 37 → block b → block (substitute [37; x; y] [r] b).
Proof. intros Hr Hb. unfold substitute. case_bool_decide; [left; eauto|done]. Qed.

Lemma encode_block c : block (encode_char c).
Proof.
  unfold encode_char. destruct (Z.eqb_spec c 37); [right; by exists 50, 53|].
  destruct (c =? 59); [right; by exists 51, 66|]. destruct (c =? 10); [right; by exists 48, 65|].
  destruct (c =? 13); [right; by exists 48, 68|]. left. eauto.
Qed.

Lemma substitute_blocks x y r bs :
  r ≠ 37 → Forall block bs → Forall block (map (substitute [37; x; y] [r]) bs).
Proof.
  intros Hr H. apply Forall_map. eapply Forall_impl; [exact H|]. intros b. by apply substitute_block.
Qed.

Lemma decode_encode_char c :
  substitute (chars "%25") [37] (substitute (chars "%0D") [13]
    (substitute (chars "%0A") [10] (substitute (chars "%3B") [59] (encode_char c)))) = [c].
Proof.
  unfold encode_char. destruct (Z.eqb_spec c 37) as [->|H1]; [by vm_compute|].
  destruct (Z.eqb_spec c 59) as [->|H2]; [by vm_compute|].
  destruct (Z.eqb_spec c 10) as [->|H3]; [by vm_compute|].
  destruct (Z.eqb_spec c 13) as [->|H4]; [by vm_compute|].
  change (substitute [37; 50; 53] [37] (substitute [37; 48; 68] [13]
    (substitute [37; 48; 65] [10] (substitute [37; 51; 66] [59] [c]))) = [c]).
  assert (H : ∀ x y r, substitute [37; x; y] [r] [c] = [c]).
  { intros. unfold substitute. by rewrite bool_decide_false. }
  by rewrite !H.
Qed.

Lemma encode_char_clean d c : c ∈ encode_char d → c ≠ 59 ∧ c ≠ 10 ∧ c ≠ 13.
Proof.
  unfold encode_char. destruct (Z.eqb_spec d 37); [|destruct (Z.eqb_spec d 59);
    [|destruct (Z.eqb_spec d 10); [|destruct (Z.eqb_spec d 13); [|by intros ->%list_elem_of_singleton]]]];
    intros Hc%list_elem_of_In; vm_compute in Hc; naive_solver.
Qed.
End Folded.

(** Encoding a name for a folded stack loses nothing and hides the delimiters:
    decoding gives the name back, percent signs included, and the encoded name has no
    semicolon and no line break. *)
Theorem folded_name_roundtrip (name : list Z) :
  Names.decode_folded_name (Names.encode_folded_name name) = name ∧
  ∀ c, c ∈ Names.encode_folded_name name → c ≠ 59 ∧ c ≠ 10 ∧ c ≠ 13.
Proof.
  rewrite Folded.encode_chars. split.
  - unfold Names.decode_folded_name. change (chars "%3B") with [37; 51; 66].
    change (chars "%0A") with [37; 48; 65]. change (chars "%0D") with [37; 48; 68].
    change (chars "%25") with [37; 50; 53].
    assert (Hb : Forall Folded.block (map Folded.encode_char name)).
    { apply Forall_map, Forall_true. apply Folded.encode_block. }
    rewrite !Folded.replace_blocks by (repeat apply Folded.substitute_blocks; done).
    rewrite !map_map. rewrite (map_ext _ (λ c, [c])) by apply Folded.decode_encode_char.
    induction name as [|c name IH]; simpl; [done|]. f_equal. apply IH. by inversion Hb.
  - intros c (b & Hb & Hc)%list_elem_of_In%in_concat. apply in_map_iff in Hb as (d & <- & _).
    apply list_elem_of_In in Hc. by eapply Folded.encode_char_clean.
Qed.
