(* ===== verification/Collector.v ===== *)
(** * The trace collector

    [collector-core]: the buffers producers fill ([buffer.rs]), the session that owns
    them and the writer that empties them ([session.rs]), the stack capture ([stack.rs])
    and the entry points of the C interface ([api.rs], [legacy.rs]).

    Each operation is a function of the collector's shared state and of the calling
    thread's thread-local state.  The hash [xxh3] of the hashing library, the clock and
    the captured program counters are parameters of the operations that use them.  The
    tables go to segment writers; here a written batch is appended to its table, and
    failing writes are left out.  The interleaving of producers with the shutdown is the
    subject of [CollectorShutdown.v]. *)

From S2P Require Import Prelude Words Sendable Allocation Channel Text.
Open Scope Z_scope.

Module Collector.

(** ** Buffers ([buffer.rs]) *)
Definition BUFFER_BYTES : Z := 256 * 1024.
Definition POOL_BUFFERS : nat := 64.

Record Buffer := mkBuffer { data : list Z; capacity : Z }.

Definition new_buffer : Buffer := mkBuffer [] BUFFER_BYTES.

Definition has_room (b : Buffer) (n : Z) : bool := Z.of_nat (length (data b)) + n <=? BUFFER_BYTES.

Record BufferQueue := mkQueue { full : list Buffer; pool : list Buffer; closing : bool }.

Definition new_queue : BufferQueue := mkQueue [] (replicate POOL_BUFFERS new_buffer) false.

Definition acquire (q : BufferQueue) : option Buffer * BufferQueue :=
  let '(b, pool) := vec_pop (pool q) in (b, mkQueue (full q) pool (closing q)).

Definition submit (b : Buffer) (q : BufferQueue) : BufferQueue :=
  mkQueue (full q ++ [b]) (pool q) (closing q).

Definition recycle (b : Buffer) (q : BufferQueue) : BufferQueue :=
  mkQueue (full q) (vec_push (pool q) (mkBuffer [] (capacity b))) (closing q).

(** One turn of the loop of [next_full]: a buffer, the end, or a wait. *)
Inductive Next := Ready (b : Buffer) | Closed | Wait.
Definition next_full (q : BufferQueue) : Next * BufferQueue :=
  match full q with
  | b :: rest => (Ready b, mkQueue rest (pool q) (closing q))
  | [] => if closing q then (Closed, q) else (Wait, q)
  end.

(** After the wait: an empty buffer when it timed out, another turn otherwise. *)
Definition after_wait (timed_out : bool) (q : BufferQueue) : Next * BufferQueue :=
  if timed_out && negb (closing q) then (Ready (mkBuffer [] 0), q) else next_full q.

Definition close (q : BufferQueue) : BufferQueue := mkQueue (full q) (pool q) true.

(** ** Records *)
Inductive TraceKind := Begin | End_ | Instant | Counter | Loss.
#[export] Instance TraceKind_eq_dec : EqDecision TraceKind.
Proof. solve_decision. Defined.

Definition kind_code (k : TraceKind) : Z :=
  match k with Begin => 0 | End_ => 1 | Instant => 2 | Counter => 3 | Loss => 4 end.

Record EventRecord := mkEvent {
  timestamp : Z; event_id : Z; instance : Z; parent : Z; flow : Z; value : Z;
  tid : Z; kind : Z; nframes : Z
}.

Definition RECORD_BYTES : nat := 56.
Definition ALLOCATION_BYTES : nat := Allocation.RECORD_BYTES.

(** The bytes of the [repr(C)] record, its padding zero. *)
Definition record_bytes (r : EventRecord) : list Z :=
  le_bytes 8 (timestamp r) ++ le_bytes 8 (event_id r) ++ le_bytes 8 (instance r) ++
  le_bytes 8 (parent r) ++ le_bytes 8 (flow r) ++ le_bytes 8 (wrap64 (value r)) ++
  le_bytes 4 (tid r) ++ [kind r; nframes r; 0; 0].

(** [ptr::read_unaligned] of a record. *)
Definition read_record (bs : list Z) : EventRecord :=
  let field n i := le_value (take n (drop i bs)) in
  mkEvent (field 8 0)%nat (field 8 8)%nat (field 8 16)%nat (field 8 24)%nat (field 8 32)%nat
    (as_i64 (field 8 40)%nat) (field 4 48)%nat (field 1 52)%nat (field 1 53)%nat.

Definition append (b : Buffer) (r : EventRecord) (frames : list Z) : Buffer :=
  mkBuffer (data b ++ [0] ++ record_bytes r ++ flatten frames) (capacity b).

Definition append_allocation (b : Buffer) (a : Allocation.Allocation) : Buffer :=
  mkBuffer (Allocation.encode a (data b ++ [1])) (capacity b).

(** ** The session *)
Record ThreadSlot := mkSlot { buffer : option Buffer; dropped : Z }.
Definition new_slot : ThreadSlot := mkSlot None 0.

Record Interner := mkInterner { i_seen : gset Z; i_rows : list (Z * list Z) }.

Record Payload := mkPayload {
  p_event_id : Z; p_name_id : Z; p_function_id : Z; p_file_id : Z; p_line : Z; p_column : Z
}.

Record Registry := mkRegistry { interner : Interner; payloads : list Payload; seen : gset Z }.

Record HandleData := mkHandle { h_event_id : Z; capture_stack : bool }.

Record Collector := mkCollector {
  pid : Z;
  epoch : Z;
  accepting : bool;
  allocation_sequence : Z;
  allocation_dropped : Z;
  allocation_paused : Z;
  queue : BufferQueue;
  registry : Registry;
  slots : list ThreadSlot;
  total_dropped : Z;
  paused : bool;
  rank : Z;
  clock_sync : list (Z * list Z * Z * Z * Z);
  device_clock : list (list Z * Z * Z * Z)
}.

(** The thread-local state.  Of the variables only [SLOT] and [CACHED_COLLECTOR] have
    destructors: [destroyed] once these have run.  The slot itself stays in the session's
    list, so [slot] keeps its place. *)
Record Thread := mkThread {
  thread_id : Z; slot : option nat; instance_counter : Z; internal : bool; destroyed : bool
}.

#[export] Instance Thread_eq_dec : EqDecision Thread.
Proof. solve_decision. Defined.

Definition with_queue (q : BufferQueue) (c : Collector) : Collector :=
  mkCollector (pid c) (epoch c) (accepting c) (allocation_sequence c) (allocation_dropped c)
    (allocation_paused c) q (registry c) (slots c) (total_dropped c) (paused c) (rank c)
    (clock_sync c) (device_clock c).
Definition with_slots (s : list ThreadSlot) (c : Collector) : Collector :=
  mkCollector (pid c) (epoch c) (accepting c) (allocation_sequence c) (allocation_dropped c)
    (allocation_paused c) (queue c) (registry c) s (total_dropped c) (paused c) (rank c)
    (clock_sync c) (device_clock c).
Definition with_registry (r : Registry) (c : Collector) : Collector :=
  mkCollector (pid c) (epoch c) (accepting c) (allocation_sequence c) (allocation_dropped c)
    (allocation_paused c) (queue c) r (slots c) (total_dropped c) (paused c) (rank c)
    (clock_sync c) (device_clock c).
Definition with_allocation (sequence dropped paused_ : Z) (c : Collector) : Collector :=
  mkCollector (pid c) (epoch c) (accepting c) sequence dropped paused_ (queue c) (registry c)
    (slots c) (total_dropped c) (paused c) (rank c) (clock_sync c) (device_clock c).
Definition with_accepting (a : bool) (c : Collector) : Collector :=
  mkCollector (pid c) (epoch c) a (allocation_sequence c) (allocation_dropped c)
    (allocation_paused c) (queue c) (registry c) (slots c) (total_dropped c) (paused c) (rank c)
    (clock_sync c) (device_clock c).
Definition count_dropped (c : Collector) : Collector :=
  mkCollector (pid c) (epoch c) (accepting c) (allocation_sequence c) (allocation_dropped c)
    (allocation_paused c) (queue c) (registry c) (slots c) (wrapping_add (total_dropped c) 1)
    (paused c) (rank c) (clock_sync c) (device_clock c).
Definition set_paused (p : bool) (c : Collector) : Collector :=
  mkCollector (pid c) (epoch c) (accepting c) (allocation_sequence c) (allocation_dropped c)
    (allocation_paused c) (queue c) (registry c) (slots c) (total_dropped c) p (rank c)
    (clock_sync c) (device_clock c).

Definition set_rank (r : Z) (c : Collector) : Collector :=
  mkCollector (pid c) (epoch c) (accepting c) (allocation_sequence c) (allocation_dropped c)
    (allocation_paused c) (queue c) (registry c) (slots c) (total_dropped c) (paused c) r
    (clock_sync c) (device_clock c).

Definition push_clock_sync (peer : Z) (phase : list Z) (local_ns peer_ns uncertainty_ns : Z)
    (c : Collector) : Collector :=
  mkCollector (pid c) (epoch c) (accepting c) (allocation_sequence c) (allocation_dropped c)
    (allocation_paused c) (queue c) (registry c) (slots c) (total_dropped c) (paused c) (rank c)
    (clock_sync c ++ [(peer, phase, local_ns, peer_ns, uncertainty_ns)]) (device_clock c).

Definition device_clock_pair (device : list Z) (host_before_ns device_ns host_after_ns : Z)
    (c : Collector) : Collector :=
  mkCollector (pid c) (epoch c) (accepting c) (allocation_sequence c) (allocation_dropped c)
    (allocation_paused c) (queue c) (registry c) (slots c) (total_dropped c) (paused c) (rank c)
    (clock_sync c) (device_clock c ++ [(device, host_before_ns, device_ns, host_after_ns)]).

(** [thread_slot]: the thread's slot, created on first use; the late slot (the first of
    the list) once the thread-local state is gone. *)
Definition thread_slot (c : Collector) (t : Thread) : nat * Collector * Thread :=
  if destroyed t then (0%nat, c, t)
  else
    match slot t with
    | Some i => (i, c, t)
    | None =>
        let i := length (slots c) in
        (i, with_slots (slots c ++ [new_slot]) c,
         mkThread (thread_id t) (Some i) (instance_counter t) (internal t) (destroyed t))
    end.

(** The room check both producers share: hand over a full buffer, take an empty one. *)
Definition make_room (s : ThreadSlot) (needed : Z) (c : Collector) : ThreadSlot * Collector :=
  if match buffer s with Some b => has_room b needed | None => false end then (s, c)
  else
    let q := match buffer s with Some b => submit b (queue c) | None => queue c end in
    let '(b, q) := acquire q in
    (mkSlot b (dropped s), with_queue q c).

Definition MAX_FRAMES : nat := 64.

Definition with_nframes (n : Z) (r : EventRecord) : EventRecord :=
  mkEvent (timestamp r) (event_id r) (instance r) (parent r) (flow r) (value r) (tid r) (kind r) n.

Definition loss_record (r : EventRecord) (dropped : Z) : EventRecord :=
  mkEvent (timestamp r) 0 0 0 0 (as_i64 dropped) (tid r) (kind_code Loss) 0.

(** The part of [record] under the slot's lock. *)
Definition record_locked (i : nat) (r : EventRecord) (frames : list Z) (c : Collector)
    : outcome Collector :=
  s ← unwrap (slots c !! i);
  let needed := 2 * (1 + Z.of_nat RECORD_BYTES) + nframes r * 8 in
  let '(s, c) := make_room s needed c in
  match buffer s with
  | None =>
      Done (count_dropped (with_slots (<[i := mkSlot None (wrapping_add (dropped s) 1)]> (slots c)) c))
  | Some b =>
      let b := if negb (dropped s =? 0) then append b (loss_record r (dropped s)) [] else b in
      let b := append b r (take (Z.to_nat (nframes r)) frames) in
      Done (with_slots (<[i := mkSlot (Some b) 0]> (slots c)) c)
  end.

(** [record] once it has seen that the collector accepts and is not paused. *)
Definition record_accepted (r : EventRecord) (frames : list Z) (c : Collector) (t : Thread)
    : outcome (Collector * Thread) :=
  let r := with_nframes (Z.of_nat (min (length frames) MAX_FRAMES)) r in
  let '(i, c, t) := thread_slot c t in
  c ← record_locked i r frames c;
  Done (c, t).

Definition record (r : EventRecord) (frames : list Z) (c : Collector) (t : Thread)
    : outcome (Collector * Thread) :=
  if negb (accepting c) || paused c then Done (c, t) else record_accepted r frames c t.

(** The part of [record_allocation] under the slot's lock. *)
Definition allocation_locked (i : nat) (a : Allocation.Allocation) (c : Collector) : outcome Collector :=
  s ← unwrap (slots c !! i);
  let '(s, c) := make_room s (1 + Z.of_nat ALLOCATION_BYTES) c in
  match buffer s with
  | Some b => Done (with_slots (<[i := mkSlot (Some (append_allocation b a)) (dropped s)]> (slots c)) c)
  | None =>
      let c := with_slots (<[i := s]> (slots c)) c in
      Done (with_allocation (allocation_sequence c) (wrapping_add (allocation_dropped c) 1)
              (allocation_paused c) c)
  end.

(** The fields the collector fills in. *)
Definition stamp (c : Collector) (t : Thread) (sequence now : Z) (a : Allocation.Allocation)
    : Allocation.Allocation :=
  Allocation.mkAllocation (pid c) (epoch c) sequence now (thread_id t)
    (Allocation.operation a) (Allocation.operation_id a) (Allocation.old_address a)
    (Allocation.address a) (Allocation.requested_bytes a) (Allocation.retires_old a)
    (Allocation.stack_status a) (Allocation.frame_count a) (Allocation.frames a).

(** [record_allocation] once it has seen that the collector accepts. *)
Definition allocation_accepted (now : Z) (a : Allocation.Allocation) (c : Collector) (t : Thread)
    : outcome (Z * Collector * Thread) :=
  let sequence := wrapping_add (allocation_sequence c) 1 in
  let c := with_allocation sequence (allocation_dropped c) (allocation_paused c) c in
  let a := stamp c t sequence now a in
  if paused c then
    Done (sequence,
          with_allocation sequence (allocation_dropped c) (wrapping_add (allocation_paused c) 1) c, t)
  else
    let '(i, c, t) := thread_slot c t in
    c ← allocation_locked i a c;
    Done (sequence, c, t).

Definition record_allocation (now : Z) (a : Allocation.Allocation) (c : Collector) (t : Thread)
    : outcome (Z * Collector * Thread) :=
  if negb (accepting c) then Done (0, c, t) else allocation_accepted now a c t.

(** [flush_slots] and the collection of [finish]: hand over the slots' buffers. *)
Definition flush_slot (s : ThreadSlot) (q : BufferQueue) : ThreadSlot * BufferQueue :=
  match buffer s with
  | Some b => if bool_decide (data b = []) then (s, q) else (mkSlot None (dropped s), submit b q)
  | None => (s, q)
  end.

Definition take_slot (s : ThreadSlot) (q : BufferQueue) : ThreadSlot * BufferQueue :=
  match buffer s with Some b => (mkSlot None (dropped s), submit b q) | None => (s, q) end.

Fixpoint each_slot (f : ThreadSlot → BufferQueue → ThreadSlot * BufferQueue)
    (ss : list ThreadSlot) (q : BufferQueue) : list ThreadSlot * BufferQueue :=
  match ss with
  | [] => ([], q)
  | s :: ss => let '(s, q) := f s q in let '(ss, q) := each_slot f ss q in (s :: ss, q)
  end.

Definition flush_slots (c : Collector) : Collector :=
  let '(ss, q) := each_slot flush_slot (slots c) (queue c) in with_queue q (with_slots ss c).

(** [finish]: first it stops accepting; when no producer is left it collects. *)
Definition stop_accepting (c : Collector) : Collector := with_accepting false c.
Definition finish_collect (c : Collector) : Collector :=
  let '(ss, q) := each_slot take_slot (slots c) (queue c) in
  with_queue (close q) (with_slots ss c).

(** ** Registration *)
Section hashing.
Context (xxh3 : list Z → Z).

(** [StringInterner::intern] of the store. *)
Definition intern (v : list Z) (i : Interner) : Z * Interner :=
  let id := xxh3 v in
  (id, if decide (id ∈ i_seen i) then i
       else mkInterner ({[id]} ∪ i_seen i) (i_rows i ++ [(id, v)])).

Definition payload_bytes (name function file : list Z) (line column : Z) : list Z :=
  name ++ [0] ++ function ++ [0] ++ file ++ [0] ++ le_bytes 4 line ++ le_bytes 4 column.

Definition register_payload (name function file : list Z) (line column : Z) (stack : bool)
    (c : Collector) : HandleData * Collector :=
  let id := xxh3 (payload_bytes name function file line column) in
  let r := registry c in
  let r :=
    if decide (id ∈ seen r) then r
    else
      let '(name_id, i) := intern name (interner r) in
      let '(function_id, i) := intern function i in
      let '(file_id, i) := intern file i in
      mkRegistry i (payloads r ++ [mkPayload id name_id function_id file_id line column])
        ({[id]} ∪ seen r) in
  (mkHandle id stack, with_registry r c).

Definition intern_string (v : list Z) (c : Collector) : Z * Collector :=
  let r := registry c in
  let '(id, i) := intern v (interner r) in
  (id, with_registry (mkRegistry i (payloads r) (seen r)) c).

Definition instance_bytes (pid tid counter : Z) : list Z :=
  le_bytes 4 pid ++ le_bytes 4 tid ++ le_bytes 8 counter.

Definition next_instance (c : Collector) (t : Thread) : Z * Thread :=
  let counter := wrapping_add (instance_counter t) 1 in
  (xxh3 (instance_bytes (pid c) (thread_id t) counter),
   mkThread (thread_id t) (slot t) counter (internal t) (destroyed t)).

(** [Collector::start] in process [pid_] at time [now]: the identity of the key under
    which stacks are recorded, and the session with its late slot. *)
Definition start (pid_ now : Z) : Z * Collector :=
  let '(stack_key_id, i) := intern (chars "stack_id") (mkInterner ∅ []) in
  (stack_key_id,
   mkCollector pid_ now true 0 0 0 new_queue (mkRegistry i [] ∅) [new_slot] 0 false (-1) [] []).

(** ** Stack capture ([stack.rs]) *)

(** The callback [frame] over the program counters the unwinder visits. *)
Fixpoint capture_loop (pcs : list Z) (count : nat) : list Z :=
  match pcs with
  | [] => []
  | pc :: pcs =>
      if pc =? 0 then capture_loop pcs count
      else if (count =? MAX_FRAMES)%nat then []
      else saturating_sub pc 1 :: capture_loop pcs (S count)
  end.
Definition capture (pcs : list Z) : list Z := capture_loop pcs 0.

(** ** The C interface ([api.rs]) *)

(** The environment of a call: the clock and what the unwinder would visit. *)
Record Env := mkEnv { now : Z; pcs : list Z; unwind_reason : Z }.

(** The result of an entry point: what it returns, and the two states. *)
Definition entry (A : Type) : Type := outcome (A * Collector * Thread).

(** [thread_is_internal] and [InternalGuard]: nothing happens on the collector's own
    threads, and nested calls of the body count as such.  The flag has no destructor, so it
    can be read until the thread ends. *)
Definition thread_is_internal (t : Thread) : bool := internal t.
Definition set_internal (b : bool) (t : Thread) : Thread :=
  mkThread (thread_id t) (slot t) (instance_counter t) b (destroyed t).
Definition guarded {A} (none : A) (body : Collector → Thread → entry A)
    (c : Collector) (t : Thread) : entry A :=
  if thread_is_internal t then Done (none, c, t)
  else
    '(a, c, t') ← body c (set_internal true t);
    Done (a, c, set_internal (internal t) t').

Definition MPERF_TRACE_FLAG_STACK : Z := 1.

Definition cstr (p : option (list Z)) : list Z := default [] p.

Record MperfTracePayload := mkTracePayload {
  tp_name : option (list Z); tp_function : option (list Z); tp_file : option (list Z);
  tp_line : Z; tp_column : Z; tp_flags : Z
}.

Definition mperf_trace_register (payload : option MperfTracePayload)
    : Collector → Thread → entry (option HandleData) :=
  guarded None (λ c t,
    match payload with
    | None => Done (None, c, t)
    | Some p =>
        let '(h, c) := register_payload (cstr (tp_name p)) (cstr (tp_function p)) (cstr (tp_file p))
                         (tp_line p) (tp_column p)
                         (negb (Z.land (tp_flags p) MPERF_TRACE_FLAG_STACK =? 0)) c in
        Done (Some h, c, t)
    end).

Definition event (env : Env) (t : Thread) (id inst parent_ flow_ value_ : Z) (k : TraceKind) : EventRecord :=
  mkEvent (now env) id inst parent_ flow_ value_ (thread_id t) (kind_code k) 0.

Definition emit (env : Env) (handle : option HandleData) (k : TraceKind) (inst parent_ value_ : Z)
    (c : Collector) (t : Thread) : outcome (Collector * Thread) :=
  match handle with
  | None => Done (c, t)
  | Some h =>
      let r := event env t (h_event_id h) inst parent_ 0 value_ k in
      record r (if capture_stack h && negb (bool_decide (k = End_)) then capture (pcs env) else []) c t
  end.

Definition mperf_trace_begin (env : Env) (handle : option HandleData) (parent_ : Z)
    : Collector → Thread → entry Z :=
  guarded 0 (λ c t,
    let '(inst, t) := next_instance c t in
    '(c, t) ← emit env handle Begin inst parent_ 0 c t;
    Done (inst, c, t)).

Definition mperf_trace_end (env : Env) (handle : option HandleData) (inst : Z)
    : Collector → Thread → entry unit :=
  guarded tt (λ c t,
    let '(new, t) := next_instance c t in
    let id := match handle with Some h => h_event_id h | None => 0 end in
    '(c, t) ← record (event env t id new 0 inst 0 End_) [] c t;
    Done (tt, c, t)).

Definition mperf_trace_value (k : TraceKind) (env : Env) (handle : option HandleData) (value_ : Z)
    : Collector → Thread → entry unit :=
  guarded tt (λ c t,
    let '(inst, t) := next_instance c t in
    '(c, t) ← emit env handle k inst 0 value_ c t;
    Done (tt, c, t)).
Definition mperf_trace_instant := mperf_trace_value Instant.
Definition mperf_trace_counter := mperf_trace_value Counter.

Definition kind_of (k : Z) : option TraceKind :=
  if k =? 0 then Some Begin else if k =? 1 then Some End_
  else if k =? 2 then Some Instant else if k =? 3 then Some Counter else None.

Definition mperf_trace_emit (env : Env) (handle : option HandleData) (k value_ parent_ flow_ stack : Z)
    : Collector → Thread → entry Z :=
  guarded 0 (λ c t,
    match handle with
    | None => Done (0, c, t)
    | Some h =>
        match kind_of k with
        | None => Done (0, c, t)
        | Some k =>
            let '(inst, t) := next_instance c t in
            let r := event env t (h_event_id h) inst parent_ flow_ value_ k in
            let frames := if negb (stack =? 0) || (capture_stack h && negb (bool_decide (k = End_)))
                          then capture (pcs env) else [] in
            '(c, t) ← record r frames c t;
            Done (inst, c, t)
        end
    end).

Definition mperf_trace_emit_at (env : Env) (handle : option HandleData)
    (k timestamp_ns value_ parent_ flow_ : Z) : Collector → Thread → entry Z :=
  guarded 0 (λ c t,
    match handle with
    | None => Done (0, c, t)
    | Some h =>
        match kind_of k with
        | None => Done (0, c, t)
        | Some k =>
            let '(inst, t) := next_instance c t in
            '(c, t) ← record (mkEvent (Z.max timestamp_ns 0) (h_event_id h) inst parent_ flow_ value_
                               (thread_id t) (kind_code k) 0) [] c t;
            Done (inst, c, t)
        end
    end).

Definition mperf_trace_set_rank (r : Z) : Collector → Thread → entry unit :=
  guarded tt (λ c t, Done (tt, set_rank r c, t)).

Definition mperf_trace_clock_sync (peer : Z) (phase : option (list Z)) (local_ns peer_ns uncertainty_ns : Z)
    : Collector → Thread → entry unit :=
  guarded tt (λ c t, Done (tt, push_clock_sync peer (cstr phase) local_ns peer_ns uncertainty_ns c, t)).

Definition mperf_trace_device_clock (device : option (list Z)) (host_before_ns device_ns host_after_ns : Z)
    : Collector → Thread → entry unit :=
  guarded tt (λ c t, Done (tt, device_clock_pair (cstr device) host_before_ns device_ns host_after_ns c, t)).

(** [mperf_trace_allocation]: the status of the captured stack, and the record. *)
Definition stack_fields (env : Env) (stack : Z) : Z * Z * list Z :=
  let none := replicate Allocation.MAX_FRAMES 0 in
  if stack =? 0 then (0, 0, none)
  else
    let frames := capture (pcs env) in
    let count := min (length frames) Allocation.MAX_FRAMES in
    let status :=
      if (count =? 0)%nat then 2
      else if (count =? Allocation.MAX_FRAMES)%nat then 3
      else if negb (unwind_reason env =? 5) then 4 else 1 in
    (status, Z.of_nat count, take count frames ++ drop count none).

Definition mperf_trace_allocation (env : Env)
    (k operation_id old_address address requested_bytes retires_old stack : Z)
    : Collector → Thread → entry Z :=
  guarded 0 (λ c t,
    match Allocation.try_from k with
    | None => Done (0, c, t)
    | Some operation =>
        let '(status, count, frames) := stack_fields env stack in
        record_allocation (now env)
          (Allocation.mkAllocation 0 0 0 0 0 operation operation_id old_address address requested_bytes
             (negb (retires_old =? 0)) status count frames) c t
    end).

(** ** Roofline loops ([legacy.rs]) *)
Record LoopInfo := mkLoopInfo { l_line : Z; l_filename : option (list Z); l_func_name : option (list Z) }.
Record LoopStats := mkLoopStats {
  trip_count : Z; bytes_load : Z; bytes_store : Z; scalar_int_ops : Z; scalar_float_ops : Z;
  scalar_double_ops : Z; vector_int_ops : Z; vector_float_ops : Z; vector_double_ops : Z
}.
Record LoopHandle := mkLoopHandle { lh_handle : HandleData; lh_instance : Z }.

Definition loop_begin (env : Env) (info : option LoopInfo) : Collector → Thread → entry (option LoopHandle) :=
  guarded None (λ c t,
    match info with
    | None => Done (None, c, t)
    | Some i =>
        let function := cstr (l_func_name i) in
        let '(h, c) := register_payload function function (cstr (l_filename i)) (l_line i) 0 false c in
        let '(inst, t) := next_instance c t in
        '(c, t) ← record (event env t (h_event_id h) inst 0 0 0 Begin) [] c t;
        Done (Some (mkLoopHandle h inst), c, t)
    end).

Definition loop_end (env : Env) (handle : option LoopHandle) : Collector → Thread → entry unit :=
  guarded tt (λ c t,
    match handle with
    | None => Done (tt, c, t)
    | Some h =>
        let '(inst, t) := next_instance c t in
        '(c, t) ← record (event env t (h_event_id (lh_handle h)) inst 0 (lh_instance h) 0 End_) [] c t;
        Done (tt, c, t)
    end).

Definition loop_counters (s : LoopStats) : list (list Z * Z) :=
  [(chars "roofline_bytes_load", bytes_load s); (chars "roofline_bytes_store", bytes_store s);
   (chars "roofline_scalar_int_ops", scalar_int_ops s);
   (chars "roofline_scalar_float_ops", scalar_float_ops s);
   (chars "roofline_scalar_double_ops", scalar_double_ops s);
   (chars "roofline_vector_int_ops", vector_int_ops s);
   (chars "roofline_vector_float_ops", vector_float_ops s);
   (chars "roofline_vector_double_ops", vector_double_ops s)].

Definition loop_counter (env : Env) (parent_ : Z) (ct : Collector * Thread) (nv : list Z * Z)
    : outcome (Collector * Thread) :=
  let '(c, t) := ct in
  let '(id, c) := intern_string nv.1 c in
  let '(inst, t) := next_instance c t in
  record (event env t id inst parent_ 0 (as_i64 nv.2) Counter) [] c t.

Definition loop_stats (env : Env) (handle : option LoopHandle) (stats : option LoopStats)
    : Collector → Thread → entry unit :=
  guarded tt (λ c t,
    match handle with
    | None => Done (tt, c, t)
    | Some h =>
        let stats := default (mkLoopStats 0 0 0 0 0 0 0 0 0) stats in
        '(c, t) ← fold_outcome (loop_counter env (lh_instance h)) (loop_counters stats) (c, t);
        Done (tt, c, t)
    end).
End hashing.

(** ** The writer *)
Inductive Item := EventItem (r : EventRecord) (frames : list Z) | AllocationItem (a : Allocation.Allocation).

(** Up to [n] frames; the loop stops where the buffer ends. *)
Fixpoint read_frames (n : nat) (bs : list Z) : list Z * list Z :=
  match n with
  | O => ([], bs)
  | S n =>
      if (length bs <? 8)%nat then ([], bs)
      else let '(fs, rest) := read_frames n (drop 8 bs) in (from_le_bytes (take 8 bs) :: fs, rest)
  end.

(** The inner loop of [writer_loop] over the data of a buffer. *)
Fixpoint decode_items (fuel : nat) (bs : list Z) : list Item :=
  match bs, fuel with
  | [], _ | _, O => []
  | tag :: bs, S fuel =>
      if tag =? 1 then
        if (length bs <? ALLOCATION_BYTES)%nat then []
        else
          match Allocation.decode (take ALLOCATION_BYTES bs) with
          | Some a => [AllocationItem a]
          | None => []
          end ++ decode_items fuel (drop ALLOCATION_BYTES bs)
      else if negb (tag =? 0) || (length bs <? RECORD_BYTES)%nat then []
      else
        let r := read_record (take RECORD_BYTES bs) in
        let '(frames, rest) := read_frames (Z.to_nat (nframes r)) (drop RECORD_BYTES bs) in
        EventItem r frames :: decode_items fuel rest
  end.
Definition decode_buffer (b : Buffer) : list Item := decode_items (length (data b)) (data b).

Record EventRow := mkRow { row_pid : Z; row_event : EventRecord }.
Record MetaRow := mkMeta { event_instance : Z; key_id : Z; value_int : Z }.

(** The writer thread's own state, and the tables it has written. *)
Record Writer := mkWriter {
  total_events : Z;
  events : list EventRow;
  events_table : list EventRow;
  meta : list MetaRow;
  stacks : list (Z * list Z);
  stacks_seen : gset Z;
  batch_sequence : Z;
  channel_dropped_operations : Z
}.

Section writer.
Context (xxh3 : list Z → Z).
Definition stack_hash (frames : list Z) : Z := xxh3 (flatten frames).

Definition write_item (c_pid stack_key_id : Z) (w : Writer) (i : Item) : Writer :=
  match i with
  | AllocationItem _ => w
  | EventItem r frames =>
      let events := events w ++ [mkRow c_pid r] in
      let total := wrapping_add (total_events w) 1 in
      if bool_decide (frames = [])
      then mkWriter total events (events_table w) (meta w) (stacks w) (stacks_seen w)
             (batch_sequence w) (channel_dropped_operations w)
      else
        let id := stack_hash frames in
        let '(stacks, seen) :=
          if decide (id ∈ stacks_seen w) then (stacks w, stacks_seen w)
          else (stacks w ++ [(id, frames)], {[id]} ∪ stacks_seen w) in
        mkWriter total events (events_table w)
          (meta w ++ [mkMeta (instance r) stack_key_id (as_i64 id)]) stacks seen
          (batch_sequence w) (channel_dropped_operations w)
  end.

(** [flush]: move the pending rows to their table. *)
Definition flush_events (w : Writer) : Writer :=
  mkWriter (total_events w) [] (events_table w ++ events w) (meta w) (stacks w) (stacks_seen w)
    (batch_sequence w) (channel_dropped_operations w).

Definition allocations_of (items : list Item) : list Allocation.Allocation :=
  omap (λ i, match i with AllocationItem a => Some a | _ => None end) items.

(** ** Allocation batches over the channel *)
#[local] Existing Instance Allocation.packet_sendable.

(** [slice.chunks(n)]: the last chunk may be shorter. *)
Definition slice_chunks {A} (n : nat) (l : list A) : list (list A) :=
  (λ i, take n (drop (i * n)%nat l)) <$> seq 0 ((length l + (n - 1)) / n)%nat.

Section batches.
Context {S : Type} `{Semaphore S}.

Definition batch_of (c : Collector) (w : Writer) (footer : bool)
    (records : list Allocation.Allocation) : Allocation.Batch :=
  Allocation.mkBatch (wrapping_add (batch_sequence w) 1) (allocation_sequence c) (allocation_dropped c)
    (channel_dropped_operations w) (allocation_paused c) footer records.

Definition send_batch (size : Z) (c : Collector) (wr : Writer * Channel.Shared S)
    (records : list Allocation.Allocation) : outcome (Writer * Channel.Shared S) :=
  let '(w, r) := wr in
  let before := Channel.dropped_count r in
  '(ok, r) ← Channel.send_sync size (Allocation.encode_batch (batch_of c w false records)) r;
  let lost := negb ok || negb (Channel.dropped_count r =? before) in
  Done (mkWriter (total_events w) (events w) (events_table w) (meta w) (stacks w) (stacks_seen w)
          (wrapping_add (batch_sequence w) 1)
          (if lost then wrapping_add (channel_dropped_operations w) (Z.of_nat (length records))
           else channel_dropped_operations w), r).

Definition send_footer (size : Z) (c : Collector) (wr : Writer * Channel.Shared S)
    : outcome (Writer * Channel.Shared S) :=
  let '(w, r) := wr in
  '(_, r) ← Channel.send_sync size (Allocation.encode_batch (batch_of c w true [])) r;
  Done (mkWriter (total_events w) (events w) (events_table w) (meta w) (stacks w) (stacks_seen w)
          (wrapping_add (batch_sequence w) 1) (channel_dropped_operations w), r).

Inductive ControlCommand := Pause | Resume | Flush.

Definition command (cw : Collector * Writer) (k : ControlCommand) : Collector * Writer :=
  let '(c, w) := cw in
  match k with
  | Pause => (set_paused true c, w)
  | Resume => (set_paused false c, w)
  | Flush => (flush_slots c, if bool_decide (events w = []) then w else flush_events w)
  end.

(** A pooled buffer goes back to the pool; after a time-out the slots are flushed. *)
Definition release (b : Buffer) (c : Collector) : Collector :=
  if negb (capacity b =? 0) then with_queue (recycle b (queue c)) c else flush_slots c.

(** One turn of [writer_loop] on a buffer, with the commands polled at its end. *)
Definition writer_turn (size stack_key_id : Z) (b : Buffer) (commands : list ControlCommand)
    (cws : Collector * Writer * option (Channel.Shared S))
    : outcome (Collector * Writer * option (Channel.Shared S)) :=
  let '(c, w, sender) := cws in
  let items := decode_buffer b in
  let w := foldl (write_item (pid c) stack_key_id) w items in
  '(w, sender) ←
    match sender with
    | None => Done (w, None)
    | Some r =>
        '(w, r) ← fold_outcome (send_batch size c) (slice_chunks 512 (allocations_of items)) (w, r);
        Done (w, Some r)
    end;
  let c := release b c in
  let w := if (8192 <=? Z.of_nat (length (events w))) then flush_events w else w in
  let '(c, w) := foldl command (c, w) commands in
  Done (c, w, sender).

(** The end of [writer_loop]: the footer, and the last rows. *)
Definition writer_end (size : Z) (cws : Collector * Writer * option (Channel.Shared S))
    : outcome (Writer * option (Channel.Shared S)) :=
  let '(c, w, sender) := cws in
  '(w, sender) ←
    match sender with
    | None => Done (w, None)
    | Some r => '(w, r) ← send_footer size c (w, r); Done (w, Some r)
    end;
  Done (if bool_decide (events w = []) then w else flush_events w, sender).
End batches.
End writer.
End Collector.
