(* ===== verification/CollectorSpec.v ===== *)
(** * Buffers of the collector

    - [Module Codec]: the bytes of the records in a buffer and that the writer reads back
      exactly the records that were appended;
    - [Module Room]: what a producer does to its slot: which records it appends, which it
      drops, and that buffers keep their bound and their number. *)

From S2P Require Import Prelude Words Sendable Allocation Channel Collector.
Open Scope Z_scope.
Import Collector.

(** ** Reading back a buffer *)
Module Codec.

Record event_ok (r : EventRecord) (frames : list Z) : Prop := {
  ok_timestamp : in_u64 (timestamp r);
  ok_event_id : in_u64 (event_id r);
  ok_instance : in_u64 (instance r);
  ok_parent : in_u64 (parent r);
  ok_flow : in_u64 (flow r);
  ok_value : - 2 ^ 63 ≤ value r < 2 ^ 63;
  ok_tid : in_u32 (tid r);
  ok_kind : 0 ≤ kind r ≤ 4;
  ok_nframes : nframes r = Z.of_nat (length frames);
  ok_count : (length frames ≤ MAX_FRAMES)%nat;
  ok_frames : Forall in_u64 frames
}.

Definition item_ok (i : Item) : Prop :=
  match i with EventItem r fs => event_ok r fs | AllocationItem a => Allocation.allocation_ok a end.

Definition item_bytes (i : Item) : list Z :=
  match i with
  | EventItem r fs => 0 :: record_bytes r ++ flatten fs
  | AllocationItem a => 1 :: Allocation.record_bytes a
  end.

Lemma le_value_fits n x : 0 ≤ x < 256 ^ Z.of_nat n → le_value (le_bytes n x) = x.
Proof. intros H. rewrite le_value_bytes. by apply Z.mod_small. Qed.

(** The bytes of one field among others. *)
Lemma concat_field (fs : list (list Z)) k f n i :
  fs !! k = Some f → length f = n → length (concat (take k fs)) = i → take n (drop i (concat fs)) = f.
Proof.
  intros Hk <- <-. rewrite <-(take_drop_middle fs k f Hk) at 2.
  rewrite concat_app, drop_app_length. simpl. apply take_app_length.
Qed.

Lemma length_event_bytes r : length (record_bytes r) = RECORD_BYTES.
Proof. unfold record_bytes. rewrite !length_app, !length_le_bytes. done. Qed.

Lemma le_value_byte b : is_byte b → le_value [b] = b.
Proof. intros Hb. simpl. lia. Qed.

Definition fields (r : EventRecord) : list (list Z) :=
  [le_bytes 8 (timestamp r); le_bytes 8 (event_id r); le_bytes 8 (instance r); le_bytes 8 (parent r);
   le_bytes 8 (flow r); le_bytes 8 (wrap64 (value r)); le_bytes 4 (tid r); [kind r]; [nframes r]; [0; 0]].

Lemma read_record_bytes r fs : event_ok r fs → read_record (record_bytes r) = r.
Proof.
  intros [Ht He Hi Hp Hf Hv Htid Hk Hn Hc _]. unfold read_record.
  assert (E : record_bytes r = concat (fields r)) by (unfold record_bytes; simpl; by rewrite ?app_nil_r).
  assert (F : ∀ k f n i, fields r !! k = Some f → length f = n → length (concat (take k (fields r))) = i →
                le_value (take n (drop i (record_bytes r))) = le_value f).
  { intros k f n i Hkf Hl Hi'. rewrite E. by rewrite (concat_field _ k f n i). }
  assert (L : ∀ k i, length (concat (take k (fields r))) = i ↔ list_sum (length <$> take k (fields r)) = i).
  { intros k i. by rewrite length_concat. }
  rewrite (F 0%nat _ 8%nat 0%nat eq_refl), (F 1%nat _ 8%nat 8%nat eq_refl), (F 2%nat _ 8%nat 16%nat eq_refl),
    (F 3%nat _ 8%nat 24%nat eq_refl), (F 4%nat _ 8%nat 32%nat eq_refl), (F 5%nat _ 8%nat 40%nat eq_refl),
    (F 6%nat _ 4%nat 48%nat eq_refl), (F 7%nat _ 1%nat 52%nat eq_refl), (F 8%nat _ 1%nat 53%nat eq_refl)
    by (rewrite ?L; simpl; by rewrite ?length_le_bytes).
  unfold MAX_FRAMES in Hc.
  rewrite !le_value_fits, as_i64_wrap, !le_value_byte
    by (unfold in_u64, in_u32, is_byte, wrap64 in *; rewrite ?u64_max_val, ?u32_max_val in *; simpl Z.of_nat in *;
        first [lia|pose proof (Z.mod_pos_bound (value r) (2 ^ 64)); lia]).
  by destruct r.
Qed.

Lemma read_frames_flatten fs rest :
  Forall in_u64 fs → read_frames (length fs) (flatten fs ++ rest) = (fs, rest).
Proof.
  induction 1 as [|f fs Hf _ IH]; [done|]. cbn [length read_frames].
  assert (E : flatten (f :: fs) ++ rest = to_le_bytes f ++ flatten fs ++ rest).
  { change (flatten (f :: fs)) with (to_le_bytes f ++ flatten fs). by rewrite <-app_assoc. }
  rewrite E, length_app, length_to_le_bytes. cbn [Nat.add Nat.ltb Nat.leb].
  rewrite <-(length_to_le_bytes f), drop_app_length, take_app_length, IH, from_to_le_bytes by done. done.
Qed.

Lemma decode_items_bytes items fuel :
  Forall item_ok items → (length items ≤ fuel)%nat →
  decode_items fuel (concat (map item_bytes items)) = items.
Proof.
  intros H. revert fuel. induction H as [|i items Hi _ IH]; intros fuel Hf; [by destruct fuel|].
  destruct fuel as [|fuel]; [simpl in Hf; lia|]. simpl in Hf. cbn [map concat].
  destruct i as [r fs|a]; cbn [item_bytes app decode_items].
  - cbn [Z.eqb negb orb]. rewrite <-app_assoc.
    rewrite length_app, length_event_bytes.
    rewrite (proj2 (Nat.ltb_ge _ _)) by (unfold RECORD_BYTES; lia).
    rewrite !(take_app_length' (record_bytes r)), !(drop_app_length' (record_bytes r))
      by (by rewrite length_event_bytes).
    rewrite !(read_record_bytes r fs Hi), (ok_nframes _ _ Hi), Nat2Z.id.
    rewrite read_frames_flatten by apply Hi. by rewrite IH by lia.
  - rewrite Z.eqb_refl. pose proof (Allocation.length_record_bytes a Hi) as Hl.
    rewrite length_app, Hl, (proj2 (Nat.ltb_ge _ _)) by (unfold ALLOCATION_BYTES; lia).
    unfold ALLOCATION_BYTES. rewrite <-Hl. rewrite take_app_length, drop_app_length.
    rewrite (Allocation.decode_record_bytes a Hi). simpl. by rewrite IH by lia.
Qed.

(** A buffer that holds [items]. *)
Record holds (b : Buffer) (items : list Item) : Prop := {
  holds_data : data b = concat (map item_bytes items);
  holds_ok : Forall item_ok items
}.

Lemma item_bytes_length i : (1 ≤ length (item_bytes i))%nat.
Proof. destruct i; simpl; lia. Qed.

Lemma decode_holds b items : holds b items → decode_buffer b = items.
Proof.
  intros [E H]. unfold decode_buffer. rewrite E. apply decode_items_bytes; [done|].
  clear. induction items as [|i items IH]; simpl; [lia|]. rewrite length_app.
  pose proof (item_bytes_length i). lia.
Qed.

Lemma holds_nil cap : holds (mkBuffer [] cap) [].
Proof. split; [done|constructor]. Qed.

Lemma holds_append b items r fs :
  holds b items → event_ok r fs → holds (append b r fs) (items ++ [EventItem r fs]).
Proof.
  intros [E H] Hr. split; [|apply Forall_app; split; [done|by constructor]].
  simpl. rewrite E, map_app, concat_app. simpl. by rewrite app_nil_r.
Qed.

Lemma holds_append_allocation b items a :
  holds b items → Allocation.allocation_ok a → holds (append_allocation b a) (items ++ [AllocationItem a]).
Proof.
  intros [E H] Ha. split; [|apply Forall_app; split; [done|by constructor]].
  unfold append_allocation. cbn [data]. rewrite Allocation.encode_eq, E, map_app, concat_app. simpl.
  by rewrite <-app_assoc, app_nil_r.
Qed.
End Codec.

(** ** Producers *)
Module Room.
Import Codec.

Definition buffer_ok (b : Buffer) : Prop :=
  holds b (decode_buffer b) ∧ Z.of_nat (length (data b)) ≤ BUFFER_BYTES ∧ capacity b = BUFFER_BYTES.

Definition empty_ok (b : Buffer) : Prop := data b = [] ∧ capacity b = BUFFER_BYTES.

Definition slot_ok (s : ThreadSlot) : Prop :=
  in_u64 (dropped s) ∧ match buffer s with Some b => buffer_ok b | None => True end.

(** What every operation keeps. *)
Record wf (c : Collector) : Prop := {
  wf_full : Forall buffer_ok (full (queue c));
  wf_pool : Forall empty_ok (pool (queue c));
  wf_slots : Forall slot_ok (slots c)
}.

Definition slot_items (s : ThreadSlot) : list Item :=
  match buffer s with Some b => decode_buffer b | None => [] end.
Definition queue_items (q : BufferQueue) : list Item := concat (map decode_buffer (full q)).

(** The buffers of the pool, the queue and the slots. *)
Definition held (s : ThreadSlot) : nat := match buffer s with Some _ => 1 | None => 0 end.
Definition count_buffers (c : Collector) : nat :=
  length (pool (queue c)) + length (full (queue c)) + sum_list (held <$> slots c).

(** The fields no producer touches. *)
Definition same_session (c c' : Collector) : Prop :=
  pid c' = pid c ∧ epoch c' = epoch c ∧ accepting c' = accepting c ∧ paused c' = paused c ∧
  closing (queue c') = closing (queue c).

Lemma empty_buffer_ok b : empty_ok b → buffer_ok b ∧ decode_buffer b = [].
Proof.
  intros [Hd Hc]. destruct b as [d k]; simpl in *; subst. assert (E : decode_buffer (mkBuffer [] BUFFER_BYTES) = []) by done.
  unfold buffer_ok. rewrite E. split_and!; [apply holds_nil|done|done|done].
Qed.

Lemma acquire_spec q b q' :
  acquire q = (b, q') →
  full q' = full q ∧ closing q' = closing q ∧
  match b with
  | Some b => ∃ p, pool q = p ++ [b] ∧ pool q' = p
  | None => pool q = [] ∧ pool q' = []
  end.
Proof.
  unfold acquire. destruct (decide (pool q = [])) as [E|Hne].
  - rewrite E. simpl. intros [= <- <-]. done.
  - destruct (list_snoc_inv _ Hne) as (p & x & E). rewrite E. change (p ++ [x]) with (vec_push p x).
    rewrite vec_pop_push. intros [= <- <-]. simpl. eauto.
Qed.

Definition bound (s : ThreadSlot) (needed : Z) : Prop :=
  match buffer s with Some b => has_room b needed = true | None => True end.

(** The room a producer makes: its buffer stays, or goes to the queue for an empty one. *)
Lemma make_room_spec s needed c s' c' :
  make_room s needed c = (s', c') → wf c → slot_ok s → 0 ≤ needed ≤ BUFFER_BYTES →
  ∃ moved, moved ++ slot_items s' = slot_items s ∧ (moved = [] ∨ moved = slot_items s) ∧
    queue_items (queue c') = queue_items (queue c) ++ moved ∧
    wf c' ∧ slot_ok s' ∧ dropped s' = dropped s ∧ bound s' needed ∧
    slots c' = slots c ∧ same_session c c' ∧ total_dropped c' = total_dropped c ∧
    (length (pool (queue c')) + length (full (queue c')) + held s' =
     length (pool (queue c)) + length (full (queue c)) + held s)%nat ∧
    c' = with_queue (queue c') c.
Proof.
  intros H [Hfull Hpool Hslots] [Hd Hs] Hn. unfold make_room in H.
  destruct (match buffer s with Some b => has_room b needed | None => false end) eqn:Hroom.
  { injection H as <- <-. exists []. rewrite app_nil_r. split_and!; [done|by left|done|done|done|done| |done|done|done|done|by destruct c].
    unfold bound. by destruct (buffer s). }
  destruct (acquire (match buffer s with Some b => submit b (queue c) | None => queue c end))
    as [b q] eqn:Ha. injection H as <- <-. apply acquire_spec in Ha as (Hf & Hcl & Hb).
  exists (slot_items s).
  assert (Hmatch : slot_items s ++ slot_items (mkSlot b (dropped s)) = slot_items s ∧
                   slot_ok (mkSlot b (dropped s)) ∧ bound (mkSlot b (dropped s)) needed ∧ Forall empty_ok (pool q)).
  { assert (Hp : pool (match buffer s with Some b => submit b (queue c) | None => queue c end) = pool (queue c))
      by by destruct (buffer s).
    rewrite Hp in Hb. destruct b as [b|].
    - destruct Hb as (p & E & ->). rewrite E, Forall_app, Forall_singleton in Hpool. destruct Hpool as [Hp1 Hp2].
      destruct (empty_buffer_ok b Hp2) as [Hb1 Hb2]. destruct Hp2 as [He _].
      unfold slot_items at 2, slot_ok, bound, has_room. simpl. rewrite Hb2, app_nil_r, He. split_and!; [done..| |done].
      simpl. apply Z.leb_le. lia.
    - destruct Hb as [_ ->]. unfold slot_items at 2. simpl. rewrite app_nil_r. done. }
  destruct Hmatch as (H1 & H2 & H3 & H4). split_and!; [done|by right| | |done|done|done|done| |done| |done].
  - unfold queue_items. simpl. rewrite Hf. unfold slot_items. destruct (buffer s) as [b0|]; simpl.
    + by rewrite map_app, concat_app; simpl; rewrite app_nil_r.
    + by rewrite app_nil_r.
  - split; [|done|done]. simpl. rewrite Hf. destruct (buffer s) as [b0|]; simpl; [|done].
    apply Forall_app. by split; [|apply Forall_singleton].
  - unfold same_session. simpl. rewrite Hcl. by destruct (buffer s).
  - simpl. rewrite Hf. unfold held. simpl. destruct (buffer s) as [b0|]; simpl in *.
    + rewrite length_app. simpl. destruct b; [destruct Hb as (p & -> & ->); rewrite length_app; simpl; lia|].
      destruct Hb as [-> ->]. simpl. lia.
    + destruct b; [destruct Hb as (p & -> & ->); rewrite length_app; simpl; lia|].
      destruct Hb as [-> ->]. simpl. lia.
Qed.

(** The effect of a producer on slot [i]: it appends [new] to the slot's items, of which
    those of a full buffer may have moved to the end of the queue. *)
Record effect (i : nat) (c c' : Collector) (s s' : ThreadSlot) (new : list Item) : Prop := {
  eff_wf : wf c';
  eff_session : same_session c c';
  eff_old : slots c !! i = Some s;
  eff_new : slots c' = <[i := s']> (slots c);
  eff_items : ∃ moved, moved ++ slot_items s' = slot_items s ++ new ∧
    (moved = [] ∨ moved = slot_items s) ∧
    queue_items (queue c') = queue_items (queue c) ++ moved;
  eff_count : count_buffers c' = count_buffers c
}.

Lemma sum_list_snoc l n : sum_list (l ++ [n]) = (sum_list l + n)%nat.
Proof. induction l as [|m l IH]; simpl; [lia|]. rewrite IH. lia. Qed.

Lemma sum_held_insert ss i s s' :
  ss !! i = Some s →
  (sum_list (held <$> <[i := s']> ss) + held s = sum_list (held <$> ss) + held s')%nat.
Proof.
  intros Hi. destruct (insert_perm ss i s Hi) as (k & E & Hins). specialize (Hins s').
  rewrite Hins, E. csimpl. lia.
Qed.

Lemma wf_with_slot c i s' :
  wf c → slot_ok s' → wf (with_slots (<[i := s']> (slots c)) c).
Proof. intros [H1 H2 H3] Hs. split; [done|done|]. simpl. by apply Forall_insert. Qed.

(** After [make_room], the slot is replaced by one with more items. *)
Lemma effect_room i c c1 s s1 s2 new needed :
  wf c → slots c !! i = Some s → make_room s needed c = (s1, c1) → 0 ≤ needed ≤ BUFFER_BYTES →
  slot_ok s2 → slot_items s2 = slot_items s1 ++ new → held s2 = held s1 →
  effect i c (with_slots (<[i := s2]> (slots c1)) c1) s s2 new.
Proof.
  intros Hwf Hi Hroom Hn Hs2 Hitems Hheld.
  assert (Hs : slot_ok s) by (eapply Forall_lookup_1; [apply Hwf|done]).
  destruct (make_room_spec _ _ _ _ _ Hroom Hwf Hs Hn) as
    (moved & Hm & Hmv & Hq & Hwf1 & Hs1 & _ & _ & Hsl & Hsame & _ & Hcnt & _).
  split.
  - by apply wf_with_slot.
  - done.
  - done.
  - by rewrite <-Hsl.
  - exists moved. split_and!; [|done|done]. by rewrite Hitems, app_assoc, Hm.
  - unfold count_buffers in *. simpl. rewrite Hsl.
    pose proof (sum_held_insert (slots c) i s s2 Hi). rewrite Hheld in *. lia.
Qed.

Definition loss_items (r : EventRecord) (d : Z) : list Item :=
  if d =? 0 then [] else [EventItem (loss_record r d) []].

Lemma loss_ok r fs d : event_ok r fs → in_u64 d → event_ok (loss_record r d) [].
Proof.
  intros [] Hd. unfold in_u64, loss_record in *. rewrite u64_max_val in *.
  split; simpl; try done; try (unfold in_u64; rewrite ?u64_max_val; lia).
  unfold as_i64. case_match eqn:E; [apply Z.ltb_lt in E|apply Z.ltb_ge in E]; lia.
Qed.

Lemma append_length b r fs :
  Z.of_nat (length (data (append b r fs))) =
  Z.of_nat (length (data b)) + 1 + Z.of_nat RECORD_BYTES + 8 * Z.of_nat (length fs).
Proof.
  unfold append. cbn [data]. rewrite !length_app, length_event_bytes, length_flatten. simpl length. lia.
Qed.

Lemma append_ok b r fs :
  buffer_ok b → event_ok r fs →
  Z.of_nat (length (data b)) + 1 + Z.of_nat RECORD_BYTES + 8 * Z.of_nat (length fs) ≤ BUFFER_BYTES →
  buffer_ok (append b r fs) ∧ decode_buffer (append b r fs) = decode_buffer b ++ [EventItem r fs].
Proof.
  intros (Hh & _ & Hc) Hr Hl. pose proof (holds_append _ _ _ _ Hh Hr) as Hh'.
  rewrite (decode_holds _ _ Hh'). split; [|done]. unfold buffer_ok. rewrite (decode_holds _ _ Hh'), append_length.
  split_and!; [done|lia|done].
Qed.

Lemma append_with_loss b r fs d :
  buffer_ok b → event_ok r fs → in_u64 d →
  Z.of_nat (length (data b)) + 2 * 57 + 8 * Z.of_nat (length fs) ≤ BUFFER_BYTES →
  let b1 := if negb (d =? 0) then append b (loss_record r d) [] else b in
  buffer_ok (append b1 r fs) ∧
  decode_buffer (append b1 r fs) = decode_buffer b ++ loss_items r d ++ [EventItem r fs].
Proof.
  intros Hb Hr Hd Hl b1.
  assert (H1 : buffer_ok b1 ∧ decode_buffer b1 = decode_buffer b ++ loss_items r d ∧
               Z.of_nat (length (data b1)) ≤ Z.of_nat (length (data b)) + 57).
  { unfold b1, loss_items. destruct (d =? 0); simpl negb; cbn iota.
    - rewrite app_nil_r. split_and!; [done|done|lia].
    - destruct (append_ok b (loss_record r d) []) as [? ?]; [done|by eapply loss_ok| |].
      + unfold RECORD_BYTES. simpl. lia.
      + rewrite append_length. unfold RECORD_BYTES. simpl length. split_and!; [done|done|lia]. }
  destruct H1 as (Hok1 & Hdec1 & Hlen1).
  destruct (append_ok b1 r fs) as [Hok2 Hdec2]; [done|done|unfold RECORD_BYTES; lia|].
  split; [done|]. by rewrite Hdec2, Hdec1, <-app_assoc.
Qed.

(** What [record_locked] and [allocation_locked] append. *)
Definition appended_event (i : nat) (r : EventRecord) (frames : list Z) (c : Collector) : list Item :=
  match slots c !! i with
  | Some s =>
      match buffer (make_room s (2 * (1 + Z.of_nat RECORD_BYTES) + nframes r * 8) c).1 with
      | Some _ => loss_items r (dropped s) ++ [EventItem r (take (Z.to_nat (nframes r)) frames)]
      | None => []
      end
  | None => []
  end.
Definition appended_allocation (i : nat) (a : Allocation.Allocation) (c : Collector) : list Item :=
  match slots c !! i with
  | Some s =>
      match buffer (make_room s (1 + Z.of_nat ALLOCATION_BYTES) c).1 with
      | Some _ => [AllocationItem a]
      | None => []
      end
  | None => []
  end.

(** [record]: the event is appended, after a loss row for what the slot has dropped, or
    dropped itself and counted. *)
Lemma record_locked_spec i r frames c s :
  wf c → slots c !! i = Some s → event_ok r (take (Z.to_nat (nframes r)) frames) →
  ∃ c' s' new, record_locked i r frames c = Done c' ∧ effect i c c' s s' new ∧
    new = appended_event i r frames c ∧
    allocation_sequence c' = allocation_sequence c ∧ allocation_dropped c' = allocation_dropped c ∧
    allocation_paused c' = allocation_paused c ∧
    ((new = [] ∧ dropped s' = wrapping_add (dropped s) 1 ∧
      total_dropped c' = wrapping_add (total_dropped c) 1) ∨
     (new = loss_items r (dropped s) ++ [EventItem r (take (Z.to_nat (nframes r)) frames)] ∧
      dropped s' = 0 ∧ total_dropped c' = total_dropped c)).
Proof.
  intros Hwf Hi Hr. set (fs := take _ frames) in *. unfold record_locked, appended_event. rewrite Hi. simpl.
  set (needed := 2 * 57 + nframes r * 8).
  assert (Hs : slot_ok s) by (eapply Forall_lookup_1; [apply Hwf|done]).
  assert (Hn : 0 ≤ needed ≤ BUFFER_BYTES).
  { unfold needed, BUFFER_BYTES. rewrite (ok_nframes _ _ Hr). pose proof (ok_count _ _ Hr).
    unfold MAX_FRAMES in *. lia. }
  change (2 * (1 + Z.of_nat RECORD_BYTES) + nframes r * 8) with needed.
  destruct (make_room s needed c) as [s1 c1] eqn:Hroom.
  destruct (make_room_spec _ _ _ _ _ Hroom Hwf Hs Hn) as
    (moved & _ & _ & _ & _ & [Hd1 Hb1] & Hd & Hbound & _ & _ & Htd & _ & Hc1).
  assert (Hal : allocation_sequence c1 = allocation_sequence c ∧
     allocation_dropped c1 = allocation_dropped c ∧ allocation_paused c1 = allocation_paused c)
    by (rewrite Hc1; done).
  destruct Hal as (Ha1 & Ha2 & Ha3). unfold bound in Hbound.
  simpl. destruct (buffer s1) as [b|] eqn:Eb; cycle 1.
  { exists (count_dropped (with_slots (<[i := mkSlot None (wrapping_add (dropped s1) 1)]> (slots c1)) c1)),
      (mkSlot None (wrapping_add (dropped s1) 1)), [].
    split; [done|]. split; [|simpl; rewrite Ha1, Ha2, Ha3, Htd, Hd; split_and!; [done..|by left]].
    assert (Heff : effect i c (with_slots (<[i := mkSlot None (wrapping_add (dropped s1) 1)]> (slots c1)) c1)
              s (mkSlot None (wrapping_add (dropped s1) 1)) []).
    { eapply effect_room; [done..|split; [apply wrap64_range|done]|by unfold slot_items; rewrite Eb|by unfold held; rewrite Eb]. }
    destruct Heff as [[? ? ?] ? ? ? ? ?]. by split. }
  unfold has_room in Hbound. apply Z.leb_le in Hbound. pose proof (ok_nframes _ _ Hr) as Hlen.
  destruct (append_with_loss b r fs (dropped s1)) as [Hok Hdec]; [done..|unfold needed in *; lia|].
  eexists _, (mkSlot (Some _) 0), _. split; [reflexivity|]. split; [|simpl; rewrite Ha1, Ha2, Ha3, Htd].
  - eapply effect_room; [done..| | |by unfold held; rewrite Eb].
    + split; [unfold in_u64; simpl; rewrite u64_max_val; lia|done].
    + unfold slot_items. rewrite Eb. simpl. exact Hdec.
  - rewrite Hd. split_and!; [done..|by right].
Qed.

(** [record_allocation]: the record is appended, or dropped and counted. *)
Lemma allocation_locked_spec i a c s :
  wf c → slots c !! i = Some s → Allocation.allocation_ok a →
  ∃ c' s' new, allocation_locked i a c = Done c' ∧ effect i c c' s s' new ∧
    new = appended_allocation i a c ∧
    dropped s' = dropped s ∧ total_dropped c' = total_dropped c ∧
    allocation_sequence c' = allocation_sequence c ∧ allocation_paused c' = allocation_paused c ∧
    ((new = [] ∧ allocation_dropped c' = wrapping_add (allocation_dropped c) 1) ∨
     (new = [AllocationItem a] ∧ allocation_dropped c' = allocation_dropped c)).
Proof.
  intros Hwf Hi Ha. unfold allocation_locked, appended_allocation. rewrite Hi. simpl.
  set (needed := 1 + Z.of_nat ALLOCATION_BYTES).
  assert (Hs : slot_ok s) by (eapply Forall_lookup_1; [apply Hwf|done]).
  assert (Hn : 0 ≤ needed ≤ BUFFER_BYTES) by (unfold needed, ALLOCATION_BYTES, BUFFER_BYTES; by vm_compute).
  destruct (make_room s needed c) as [s1 c1] eqn:Hroom.
  destruct (make_room_spec _ _ _ _ _ Hroom Hwf Hs Hn) as
    (moved & _ & _ & _ & _ & [Hd1 Hb1] & Hd & Hbound & _ & _ & Htd & _ & Hc1).
  assert (Hal : allocation_sequence c1 = allocation_sequence c ∧
     allocation_dropped c1 = allocation_dropped c ∧ allocation_paused c1 = allocation_paused c)
    by (rewrite Hc1; done).
  destruct Hal as (Ha1 & Ha2 & Ha3). unfold bound in Hbound.
  simpl. destruct (buffer s1) as [b|] eqn:Eb; cycle 1.
  { eexists _, s1, []. split; [reflexivity|]. split; [|simpl; rewrite Ha1, Ha2, Ha3, Htd, Hd; split_and!; [done..|by left]].
    assert (Heff : effect i c (with_slots (<[i := s1]> (slots c1)) c1) s s1 []).
    { eapply effect_room; [done..|split; [done|by rewrite Eb]|by rewrite app_nil_r|done]. }
    destruct Heff as [[? ? ?] ? ? ? ? ?]. by split. }
  unfold has_room in Hbound. apply Z.leb_le in Hbound. destruct Hb1 as (Hh & _ & Hcap).
  pose proof (holds_append_allocation _ _ _ Hh Ha) as Hh'.
  eexists _, (mkSlot (Some (append_allocation b a)) (dropped s1)), [AllocationItem a].
  split; [reflexivity|]. split; [|simpl; rewrite Ha1, Ha2, Ha3, Htd, Hd; split_and!; [done..|by right]].
  eapply effect_room; [done..| | |].
  - split; [done|]. simpl. unfold buffer_ok. rewrite (decode_holds _ _ Hh'). split_and!; [done| |done].
    unfold append_allocation. simpl. rewrite Allocation.encode_eq, !length_app, Allocation.length_record_bytes by done.
    unfold needed, ALLOCATION_BYTES in Hbound. simpl. lia.
  - unfold slot_items. rewrite Eb. simpl. by rewrite (decode_holds _ _ Hh').
  - unfold held. by rewrite Eb.
Qed.
End Room.

(** A buffer filled the way producers fill it. *)
Definition append_item (b : Buffer) (i : Item) : Buffer :=
  match i with EventItem r fs => append b r fs | AllocationItem a => append_allocation b a end.
Definition fill (items : list Item) : Buffer := foldl append_item new_buffer items.

Lemma fill_holds b items more :
  Codec.holds b items → Forall Codec.item_ok more → Codec.holds (foldl append_item b more) (items ++ more).
Proof.
  intros Hb Hok. revert b items Hb. induction Hok as [|i more Hi _ IH]; intros b items Hb; simpl.
  { by rewrite app_nil_r. }
  rewrite (cons_middle i items more), app_assoc. apply IH.
  destruct i; [by apply Codec.holds_append|by apply Codec.holds_append_allocation].
Qed.

(** The writer reads back from a buffer exactly the records producers appended to it,
    events with their stacks and allocations in any mixture, in order and field by field. *)
Theorem buffer_roundtrip items :
  Forall Codec.item_ok items → decode_buffer (fill items) = items.
Proof.
  intros H. apply Codec.decode_holds. apply (fill_holds new_buffer [] items); [apply Codec.holds_nil|done].
Qed.

Lemma buffer_roundtrip_witness :
  let r := mkEvent 10 20 30 0 0 (-5) 7 0 2 in
  decode_buffer (fill [EventItem r [64; 65]; EventItem (loss_record r 3) []]) =
  [EventItem r [64; 65]; EventItem (loss_record r 3) []].
Proof.
  intros r. apply (buffer_roundtrip [EventItem r [64; 65]; EventItem (loss_record r 3) []]).
  apply Forall_cons; split; [|apply Forall_singleton]; split; unfold in_u64, in_u32, MAX_FRAMES;
    rewrite ?u64_max_val, ?u32_max_val; simpl; try lia; by repeat (apply Forall_cons; split; [lia|]).
Defined.
