(* ===== verification/CollectorShutdown.v ===== *)
(** * Producers, the writer and the shutdown of the collector

    The threads of the collector as one transition system.  A producer announces itself
    ([ProducerGuard]), reads whether the collector accepts, works on its slot under the
    slot's lock, and leaves; [finish] stops accepting, waits until no producer is left
    and collects the slots; the writer takes the buffers one by one.  The accesses of
    different threads interleave between these steps.  A producer's work is one step, since
    it holds its slot's lock; the writer flushes the slots all at once or one at a time
    ([flush_one], which may happen whenever, so the turns of a flush interleave with the
    producers in every way).

    A thread's local variables may be destroyed between two calls ([destroy]): what it
    records afterwards, from the destructors that run later, goes to the late slot, which
    all such threads share.

    [log] is a ghost variable: the records in the order in which producers appended
    them, each with the slot it was appended to. *)

From S2P Require Import Prelude Words Sendable Allocation Channel Collector CollectorSpec.
Open Scope Z_scope.
Import Collector.

Module Shutdown.
Import Codec Room.

(** What a producer was called with. *)
Inductive Request :=
| Event (r : EventRecord) (frames : list Z)
| Alloc (now : Z) (a : Allocation.Allocation).

Inductive Pc := Idle | Entered (q : Request) | Working (q : Request) | Leaving.
Record Producer := mkProducer { thread : Thread; pc : Pc }.

Inductive Finisher := Running | Stopping | Collected.
Inductive WriterPc := Polling | Holding (b : Buffer) | Finished.

Record State := mkState {
  col : Collector;
  active : Z;
  producers : list Producer;
  fin : Finisher;
  wpc : WriterPc;
  delivered : list Item;
  log : list (nat * Item)
}.

(** Whether the reads at the start of [record] and [record_allocation] let it go on. *)
Definition admitted (q : Request) (c : Collector) : bool :=
  match q with
  | Event _ _ => accepting c && negb (paused c)
  | Alloc _ _ => accepting c
  end.

(** The rest of the call, and the records it appends. *)
Definition work (q : Request) (c : Collector) (t : Thread) : outcome (Collector * Thread) :=
  match q with
  | Event r frames => record_accepted r frames c t
  | Alloc now a => '(_, c, t) ← allocation_accepted now a c t; Done (c, t)
  end.

Definition framed (r : EventRecord) (frames : list Z) : EventRecord :=
  with_nframes (Z.of_nat (min (length frames) MAX_FRAMES)) r.

Definition appended (q : Request) (c : Collector) (t : Thread) : list Item :=
  match q with
  | Event r frames =>
      let '(i, c, _) := thread_slot c t in appended_event i (framed r frames) frames c
  | Alloc now a =>
      let sequence := wrapping_add (allocation_sequence c) 1 in
      let c := with_allocation sequence (allocation_dropped c) (allocation_paused c) c in
      if paused c then []
      else let '(i, c', _) := thread_slot c t in appended_allocation i (stamp c t sequence now a) c'
  end.

(** The fields of a request are values of their types; the record names its thread. *)
Definition request_ok (c : Collector) (t : Thread) (q : Request) : Prop :=
  match q with
  | Event r frames =>
      event_ok (framed r frames) (take (min (length frames) MAX_FRAMES) frames) ∧
      tid r = thread_id t ∧ kind r ≠ kind_code Loss
  | Alloc now a =>
      ∀ sequence, in_u64 sequence → Allocation.allocation_ok (stamp c t sequence now a)
  end.

(** The slot the call appends to. *)
Definition target (c : Collector) (t : Thread) : nat := (thread_slot c t).1.1.
Definition entries (q : Request) (c : Collector) (t : Thread) : list (nat * Item) :=
  pair (target c t) <$> appended q c t.

(** The thread-local variables with destructors are gone. *)
Definition destroy_locals (t : Thread) : Thread :=
  mkThread (thread_id t) (slot t) (instance_counter t) (internal t) true.

Definition set_pc (s : State) (i : nat) (p : Producer) (k : Pc) : list Producer :=
  <[i := mkProducer (thread p) k]> (producers s).

(** The turn of [flush_slots] on one slot, under that slot's lock. *)
Definition flush_at (k : nat) (x : ThreadSlot) (c : Collector) : Collector :=
  let '(x, q) := flush_slot x (queue c) in with_queue q (with_slots (<[k := x]> (slots c)) c).

Inductive step (s : State) : State → Prop :=
| enter i p q :
    producers s !! i = Some p → pc p = Idle → request_ok (col s) (thread p) q →
    step s (mkState (col s) (active s + 1) (set_pc s i p (Entered q)) (fin s) (wpc s)
              (delivered s) (log s))
| accept i p q :
    producers s !! i = Some p → pc p = Entered q → admitted q (col s) = true →
    step s (mkState (col s) (active s) (set_pc s i p (Working q)) (fin s) (wpc s)
              (delivered s) (log s))
| refuse i p q :
    producers s !! i = Some p → pc p = Entered q → admitted q (col s) = false →
    step s (mkState (col s) (active s) (set_pc s i p Leaving) (fin s) (wpc s)
              (delivered s) (log s))
| produce i p q c' t' :
    producers s !! i = Some p → pc p = Working q → work q (col s) (thread p) = Done (c', t') →
    step s (mkState c' (active s) (<[i := mkProducer t' Leaving]> (producers s)) (fin s) (wpc s)
              (delivered s) (log s ++ entries q (col s) (thread p)))
| leave i p :
    producers s !! i = Some p → pc p = Leaving →
    step s (mkState (col s) (active s - 1) (set_pc s i p Idle) (fin s) (wpc s)
              (delivered s) (log s))
| destroy i p :
    producers s !! i = Some p → pc p = Idle →
    step s (mkState (col s) (active s) (<[i := mkProducer (destroy_locals (thread p)) Idle]> (producers s))
              (fin s) (wpc s) (delivered s) (log s))
| stop :
    fin s = Running →
    step s (mkState (stop_accepting (col s)) (active s) (producers s) Stopping (wpc s)
              (delivered s) (log s))
| collect_ :
    fin s = Stopping → active s = 0 →
    step s (mkState (finish_collect (col s)) (active s) (producers s) Collected (wpc s)
              (delivered s) (log s))
| take_buffer b q :
    wpc s = Polling → next_full (queue (col s)) = (Ready b, q) →
    step s (mkState (with_queue q (col s)) (active s) (producers s) (fin s) (Holding b)
              (delivered s) (log s))
| time_out b q :
    wpc s = Polling → next_full (queue (col s)) = (Wait, queue (col s)) →
    after_wait true (queue (col s)) = (Ready b, q) →
    step s (mkState (with_queue q (col s)) (active s) (producers s) (fin s) (Holding b)
              (delivered s) (log s))
| deliver b :
    wpc s = Holding b →
    step s (mkState (release b (col s)) (active s) (producers s) (fin s) Polling
              (delivered s ++ decode_buffer b) (log s))
| control k :
    wpc s = Polling →
    step s (mkState (command (col s, mkWriter 0 [] [] [] [] ∅ 0 0) k).1 (active s) (producers s) (fin s)
              (wpc s) (delivered s) (log s))
| flush_one k x :
    slots (col s) !! k = Some x →
    step s (mkState (flush_at k x (col s)) (active s) (producers s) (fin s) (wpc s)
              (delivered s) (log s))
| finished :
    wpc s = Polling → next_full (queue (col s)) = (Closed, queue (col s)) →
    step s (mkState (col s) (active s) (producers s) (fin s) Finished (delivered s) (log s)).

(** A session that starts with idle threads of its own. *)
Record initial (s : State) : Prop := {
  init_collector : ∃ xxh3 pid_ now, in_u32 pid_ ∧ in_u64 now ∧ col s = (start xxh3 pid_ now).2;
  init_active : active s = 0;
  init_idle : Forall (λ p, pc p = Idle ∧ slot (thread p) = None) (producers s);
  init_threads : NoDup (thread_id ∘ thread <$> producers s);
  init_fin : fin s = Running;
  init_writer : wpc s = Polling;
  init_delivered : delivered s = [];
  init_log : log s = []
}.

Definition reachable (s : State) : Prop := ∃ s0, initial s0 ∧ rtc step s0 s.

(** ** The records of one thread *)
Definition item_tid (i : Item) : Z :=
  match i with EventItem r _ => tid r | AllocationItem a => Allocation.tid a end.
Definition of_thread (t : Z) (items : list Item) : list Item :=
  List.filter (λ i, item_tid i =? t) items.

Lemma of_thread_app t l k : of_thread t (l ++ k) = of_thread t l ++ of_thread t k.
Proof. apply List.filter_app. Qed.

(** What the writer has in hand. *)
Definition hand (w : WriterPc) : list Item := match w with Holding b => decode_buffer b | _ => [] end.

(** ** The records of one slot *)
Definition items_at (ss : list ThreadSlot) (k : nat) : list Item :=
  match ss !! k with Some s => slot_items s | None => [] end.
Definition at_slot (k : nat) (l : list (nat * Item)) : list Item :=
  snd <$> List.filter (λ e, (e.1 =? k)%nat) l.

Lemma at_slot_app k l l' : at_slot k (l ++ l') = at_slot k l ++ at_slot k l'.
Proof. unfold at_slot. by rewrite List.filter_app, fmap_app. Qed.

Lemma at_slot_same k l : at_slot k (pair k <$> l) = l.
Proof.
  unfold at_slot. rewrite filter_all, <-list_fmap_compose, list_fmap_id; [done|].
  intros e (x & -> & _)%list_elem_of_fmap. apply Nat.eqb_refl.
Qed.

Lemma at_slot_other k j l : j ≠ k → at_slot k (pair j <$> l) = [].
Proof.
  intros H. unfold at_slot. rewrite filter_none; [done|].
  intros e (x & -> & _)%list_elem_of_fmap. by apply Nat.eqb_neq.
Qed.

Lemma elem_of_at_slot k x l : x ∈ at_slot k l ↔ (k, x) ∈ l.
Proof.
  unfold at_slot. rewrite list_elem_of_fmap. split.
  - intros ([j y] & -> & [He Hk%Nat.eqb_eq]%list_elem_of_In%filter_In). simpl in *. subst. by apply list_elem_of_In.
  - intros H. exists (k, x). split; [done|]. apply list_elem_of_In, filter_In. split; [by apply list_elem_of_In|].
    apply Nat.eqb_refl.
Qed.

(** The snoc of what one slot hands over, or of what is appended to it. *)
Lemma at_slot_snoc k j l new : at_slot k (l ++ (pair j <$> new)) = at_slot k l ++ (if decide (k = j) then new else []).
Proof.
  rewrite at_slot_app. destruct (decide (k = j)) as [->|Hne]; [by rewrite at_slot_same|].
  by rewrite at_slot_other by done.
Qed.

Lemma tags_snoc (tags : list (nat * Item)) k new l :
  snd <$> tags = l → snd <$> (tags ++ (pair k <$> new)) = l ++ new.
Proof. intros <-. by rewrite fmap_app, <-list_fmap_compose, list_fmap_id. Qed.

(** ** Which slots the threads have *)
Record places (c : Collector) (ts : list Thread) : Prop := {
  pl_wf : wf c;
  pl_ids : NoDup (thread_id <$> ts);
  pl_late : (0 < length (slots c))%nat;
  pl_slot t k : t ∈ ts → slot t = Some k → (0 < k < length (slots c))%nat
}.

(** The records of each slot, delivered or on their way, in the order of the log. *)
Definition order (c : Collector) (front : list Item) (lg : list (nat * Item)) : Prop :=
  ∃ tags, snd <$> tags = front ++ queue_items (queue c) ∧
    ∀ k, at_slot k tags ++ items_at (slots c) k = at_slot k lg.

(** ** The records of one thread in the log *)
Definition entry_tid (t : Z) (e : nat * Item) : bool := item_tid e.2 =? t.
Definition late (e : nat * Item) : bool := (e.1 =? 0)%nat.
Definition own_part (t : Z) (lg : list (nat * Item)) : list (nat * Item) :=
  List.filter (λ e, negb (late e)) (List.filter (entry_tid t) lg).
Definition late_part (t : Z) (lg : list (nat * Item)) : list (nat * Item) :=
  List.filter late (List.filter (entry_tid t) lg).

(** A thread's records are those in its own slot and, once its local variables are
    destroyed, those in the late slot after them. *)
Record named (ts : list Thread) (lg : list (nat * Item)) : Prop := {
  nm_slot t e : t ∈ ts → e ∈ lg → entry_tid (thread_id t) e = true → late e = false → slot t = Some e.1;
  nm_late t : t ∈ ts → destroyed t = false → late_part (thread_id t) lg = [];
  nm_split t : t ∈ ts →
    List.filter (entry_tid (thread_id t)) lg = own_part (thread_id t) lg ++ late_part (thread_id t) lg
}.

Lemma thread_by_id ts t t' :
  NoDup (thread_id <$> ts) → t ∈ ts → t' ∈ ts → thread_id t = thread_id t' → t = t'.
Proof.
  intros Hnd [i Hi]%list_elem_of_lookup [j Hj]%list_elem_of_lookup Hid.
  assert (i = j) as ->; [|congruence]. eapply (NoDup_lookup _ _ _ (thread_id t)); [done|..];
    rewrite list_lookup_fmap; [by rewrite Hi|by rewrite Hj, Hid].
Qed.

(** A producer's effect on one slot. *)
Lemma effect_places c c' ts k s s' new : places c ts → effect k c c' s s' new → places c' ts.
Proof.
  intros Hp [Hwf _ Ho Hn _ _]. split; [done|apply Hp|..].
  - rewrite Hn, length_insert. apply Hp.
  - intros t j. rewrite Hn, length_insert. apply Hp.
Qed.

Lemma effect_order c c' k s s' new front lg :
  effect k c c' s s' new → order c front lg → order c' front (lg ++ (pair k <$> new)).
Proof.
  intros [_ _ Ho Hn (moved & Hm & _ & Hq) _] (tags & Htags & Hord).
  exists (tags ++ (pair k <$> moved)). split.
  - by rewrite Hq, app_assoc, (tags_snoc _ _ _ _ Htags).
  - intros j. specialize (Hord j). rewrite !at_slot_snoc, Hn. unfold items_at in *.
    destruct (decide (j = k)) as [->|Hne].
    + rewrite list_lookup_insert_eq by (by eapply lookup_lt_Some). rewrite Ho in Hord.
      by rewrite <-Hord, <-!app_assoc, Hm.
    + by rewrite list_lookup_insert_ne, !app_nil_r by done.
Qed.

(** A thread that changes without changing its identity. *)
Lemma replaced_in (ts : list Thread) (i : nat) t t1 x :
  NoDup (thread_id <$> ts) → ts !! i = Some t → x ∈ <[i := t1]> ts → x = t1 ∨ x ∈ ts ∧ thread_id x ≠ thread_id t.
Proof.
  intros Hnd Hi [j Hj]%list_elem_of_lookup. destruct (decide (j = i)) as [->|Hne].
  - rewrite list_lookup_insert_eq in Hj by (by eapply lookup_lt_Some). left. congruence.
  - rewrite list_lookup_insert_ne in Hj by done. right. split; [by eapply list_elem_of_lookup_2|].
    intros E. apply Hne. apply (NoDup_lookup (thread_id <$> ts) j i (thread_id t)); [done|..];
      rewrite list_lookup_fmap; [by rewrite Hj; simpl; rewrite E|by rewrite Hi].
Qed.

Lemma replaced_ids (ts : list Thread) (i : nat) t t1 :
  ts !! i = Some t → thread_id t1 = thread_id t → thread_id <$> <[i := t1]> ts = thread_id <$> ts.
Proof.
  intros Hi Hid. rewrite list_fmap_insert. apply list_insert_id. by rewrite list_lookup_fmap, Hi, Hid.
Qed.

(** The slot of a thread is made on first use; the late slot is there from the start. *)
Lemma thread_slot_spec c ts i t k c1 t1 front lg :
  places c ts → ts !! i = Some t → thread_slot c t = (k, c1, t1) → order c front lg →
  (if destroyed t then k = 0%nat ∧ t1 = t else slot t1 = Some k ∧ (0 < k)%nat ∧ (slot t = Some k ∨ slot t = None)) ∧
  destroyed t1 = destroyed t ∧ thread_id t1 = thread_id t ∧ (∃ s, slots c1 !! k = Some s) ∧
  places c1 (<[i := t1]> ts) ∧ order c1 front lg ∧
  same_session c c1 ∧ count_buffers c1 = count_buffers c ∧
  c1 = with_slots (slots c1) c ∧ (slots c1 = slots c ∨ slots c1 = slots c ++ [new_slot]).
Proof.
  intros Hp Hi H Hord. assert (Ht : t ∈ ts) by by eapply list_elem_of_lookup_2.
  unfold thread_slot in H. destruct (destroyed t) eqn:Hd.
  { injection H as <- <- <-. rewrite (list_insert_id ts i t Hi).
    split; [done|]. split_and!; [done|done|apply lookup_lt_is_Some_2, Hp|done|done|done|done|by destruct c|by left]. }
  destruct (slot t) as [k0|] eqn:Hk.
  { injection H as <- <- <-. rewrite (list_insert_id ts i t Hi).
    assert (Hlt : (0 < k0 < length (slots c))%nat) by by eapply pl_slot.
    split; [split_and!; [done|lia|by left]|].
    split_and!; [done|done|apply lookup_lt_is_Some_2; lia|done|done|done|done|by destruct c|by left]. }
  injection H as <- <- <-. set (t1 := mkThread _ _ _ _ _). pose proof Hp as [[Hw1 Hw2 Hw3] Hnd Hl Hsl].
  split; [split_and!; [done|done|by right]|].
  split_and!; [done|done|exists new_slot; simpl; by rewrite lookup_app_r, Nat.sub_diag by lia| | |done| |done|by right].
  - split.
    + split; [done|done|]. simpl. apply Forall_app. split; [done|]. apply Forall_singleton.
      split; [unfold in_u64; simpl; rewrite u64_max_val; lia|done].
    + by rewrite (replaced_ids ts i t).
    + simpl. rewrite length_app. lia.
    + intros x k Hx Hxk. simpl. rewrite length_app. simpl.
      apply (replaced_in ts i t t1 x Hnd Hi) in Hx as [->|[Hx _]];
        [simpl in Hxk; injection Hxk as <-; lia|apply Hsl in Hxk; [lia|done]].
  - destruct Hord as (tags & Htags & Hord). exists tags. split; [done|]. intros k. rewrite <-Hord. f_equal.
    unfold items_at. simpl. destruct (decide (k < length (slots c)))%nat as [Hlt|Hge].
    + by rewrite lookup_app_l.
    + rewrite lookup_app_r, (lookup_ge_None_2 (slots c)) by lia.
      destruct (k - length (slots c))%nat; [done|]. by rewrite lookup_ge_None_2 by (simpl; lia).
  - unfold count_buffers. simpl. rewrite fmap_app. cbn [fmap list_fmap]. rewrite sum_list_snoc.
    change (held new_slot) with 0%nat. lia.
Qed.

(** What a call appends names its thread and lies in that thread's slot. *)
Lemma named_snoc ts i t t1 k lg new :
  NoDup (thread_id <$> ts) → ts !! i = Some t → thread_id t1 = thread_id t → destroyed t1 = destroyed t →
  (if destroyed t then k = 0%nat ∧ t1 = t else slot t1 = Some k ∧ (0 < k)%nat ∧ (slot t = Some k ∨ slot t = None)) →
  (∀ x, x ∈ new → item_tid x = thread_id t) → named ts lg → named (<[i := t1]> ts) (lg ++ (pair k <$> new)).
Proof.
  intros Hnd Hi Hid Hdt Hk Hnew [Hs Hl Hsp]. assert (Ht : t ∈ ts) by by eapply list_elem_of_lookup_2.
  assert (Hother : ∀ x, thread_id x ≠ thread_id t → List.filter (entry_tid (thread_id x)) (pair k <$> new) = []).
  { intros x Hne. apply filter_none. intros e (y & -> & Hy)%list_elem_of_fmap. apply Z.eqb_neq. simpl.
    by rewrite (Hnew y Hy). }
  assert (Hown : List.filter (entry_tid (thread_id t)) (pair k <$> new) = pair k <$> new).
  { apply filter_all. intros e (y & -> & Hy)%list_elem_of_fmap. apply Z.eqb_eq. simpl. by rewrite (Hnew y Hy). }
  assert (Hlate : List.filter late (pair k <$> new) = if destroyed t then pair k <$> new else []).
  { destruct (destroyed t).
    - destruct Hk as [-> _]. apply filter_all. by intros e (y & -> & _)%list_elem_of_fmap.
    - apply filter_none. intros e (y & -> & _)%list_elem_of_fmap. apply Nat.eqb_neq. simpl. lia. }
  assert (Hearly : List.filter (λ e, negb (late e)) (pair k <$> new) = if destroyed t then [] else pair k <$> new).
  { destruct (destroyed t).
    - destruct Hk as [-> _]. apply filter_none. by intros e (y & -> & _)%list_elem_of_fmap.
    - apply filter_all. intros e (y & -> & _)%list_elem_of_fmap. apply negb_true_iff, Nat.eqb_neq. simpl. lia. }
  split.
  - intros x e Hx [He|(y & -> & Hy)%list_elem_of_fmap]%elem_of_app Hen Hle.
    + apply (replaced_in ts i t t1 x Hnd Hi) in Hx as [->|[Hx _]]; [|by apply Hs].
      rewrite Hid in Hen. pose proof (Hs t e Ht He Hen Hle) as Hst. destruct (destroyed t).
      * by destruct Hk as [_ ->].
      * destruct Hk as (-> & _ & [E|E]); congruence.
    + apply (replaced_in ts i t t1 x Hnd Hi) in Hx as [->|[_ Hne]].
      * simpl. unfold late in Hle. simpl in Hle. destruct (destroyed t); [|by destruct Hk as [-> _]].
        by destruct Hk as [-> _].
      * exfalso. apply Z.eqb_eq in Hen. simpl in Hen. rewrite (Hnew y Hy) in Hen. congruence.
  - intros x Hx Hd. unfold late_part. rewrite List.filter_app, List.filter_app.
    apply (replaced_in ts i t t1 x Hnd Hi) in Hx as [->|[Hx Hne]].
    + rewrite Hdt in Hd. rewrite Hid, Hown, Hlate, Hd, app_nil_r. by apply Hl.
    + rewrite Hother, app_nil_r by done. by apply Hl.
  - intros x Hx. unfold own_part, late_part. rewrite !List.filter_app.
    apply (replaced_in ts i t t1 x Hnd Hi) in Hx as [->|[Hx Hne]].
    + rewrite Hid, Hown, Hlate, Hearly. specialize (Hsp t Ht). unfold own_part, late_part in Hsp.
      destruct (destroyed t) eqn:Hd.
      * rewrite Hsp at 1. by rewrite app_nil_r, app_assoc.
      * specialize (Hl t Ht Hd). unfold late_part in Hl. rewrite Hl in *. rewrite app_nil_r in *. by rewrite Hsp at 1.
    + rewrite Hother, !app_nil_r by done. by apply Hsp.
Qed.

(** ** Handing over the slots *)

(** A slot is left alone or its buffer goes to the queue. *)
Definition hands_over (f : ThreadSlot → BufferQueue → ThreadSlot * BufferQueue) : Prop :=
  ∀ s q, f s q = (s, q) ∨
    ∃ b, buffer s = Some b ∧ f s q = (mkSlot None (dropped s), submit b q).

Lemma flush_slot_over : hands_over flush_slot.
Proof.
  intros s q. unfold flush_slot. destruct (buffer s) as [b|]; [|by left].
  case_bool_decide; [by left|right; eauto].
Qed.
Lemma take_slot_over : hands_over take_slot.
Proof. intros s q. unfold take_slot. destruct (buffer s) as [b|]; [right; eauto|by left]. Qed.

Lemma submit_items b q : queue_items (submit b q) = queue_items q ++ decode_buffer b.
Proof. unfold queue_items. simpl. by rewrite map_app, concat_app; simpl; rewrite app_nil_r. Qed.

Section each_slot.
Context (f : ThreadSlot → BufferQueue → ThreadSlot * BufferQueue) (Hf : hands_over f).

Lemma each_slot_length ss q ss' q' : each_slot f ss q = (ss', q') → length ss' = length ss.
Proof.
  revert q ss' q'; induction ss as [|s ss IH]; intros q ss' q'; simpl; [by intros [= <- <-]|].
  destruct (f s q) as [s1 q1], (each_slot f ss q1) as [ss1 q2] eqn:E. intros [= <- <-].
  simpl. f_equal. by eapply IH.
Qed.

(** One slot: its items end up in the queue, or stay. *)
Lemma one_slot_order s q s1 q1 :
  f s q = (s1, q1) → ∃ moved, queue_items q1 = queue_items q ++ moved ∧ moved ++ slot_items s1 = slot_items s.
Proof.
  intros E1. destruct (Hf s q) as [E|(b & Hb & E)]; rewrite E in E1; injection E1 as <- <-.
  - exists []. by rewrite app_nil_r.
  - exists (decode_buffer b). split; [apply submit_items|]. unfold slot_items. rewrite Hb. apply app_nil_r.
Qed.

Definition shift (tags : list (nat * Item)) : list (nat * Item) := (λ e, (S e.1, e.2)) <$> tags.

Lemma at_slot_shift k tags : at_slot (S k) (shift tags) = at_slot k tags.
Proof.
  unfold at_slot, shift. induction tags as [|[j x] tags IH]; [done|]. rewrite fmap_cons. simpl.
  destruct (j =? k)%nat; [|exact IH]. rewrite !fmap_cons. f_equal. exact IH.
Qed.
Lemma at_slot_shift_0 tags : at_slot 0 (shift tags) = [].
Proof. unfold at_slot. rewrite filter_none; [done|]. by intros e (y & -> & _)%list_elem_of_fmap. Qed.

Lemma each_slot_order ss q ss' q' :
  each_slot f ss q = (ss', q') →
  ∃ tags, queue_items q' = queue_items q ++ (snd <$> tags) ∧
    ∀ k, at_slot k tags ++ items_at ss' k = items_at ss k.
Proof.
  revert q ss' q'; induction ss as [|s ss IH]; intros q ss' q'; simpl.
  { intros [= <- <-]. exists []. by rewrite app_nil_r. }
  destruct (f s q) as [s1 q1] eqn:E1, (each_slot f ss q1) as [ss1 q2] eqn:E2. intros [= <- <-].
  apply one_slot_order in E1 as (moved & Hq & Hm). destruct (IH _ _ _ E2) as (tags & Hq' & Ht).
  exists ((pair 0%nat <$> moved) ++ shift tags). split.
  - rewrite Hq', Hq, fmap_app, <-app_assoc. unfold shift. rewrite <-!list_fmap_compose. f_equal. f_equal.
    by rewrite list_fmap_id.
  - intros [|k]; rewrite at_slot_app.
    + by rewrite at_slot_same, at_slot_shift_0, app_nil_r.
    + rewrite at_slot_other by done. rewrite at_slot_shift. apply Ht.
Qed.

Lemma each_slot_keeps ss q ss' q' :
  each_slot f ss q = (ss', q') → Forall slot_ok ss → Forall buffer_ok (full q) →
  Forall slot_ok ss' ∧ Forall buffer_ok (full q') ∧ pool q' = pool q ∧ closing q' = closing q ∧
  (length (full q') + sum_list (held <$> ss') = length (full q) + sum_list (held <$> ss))%nat ∧
  (dropped <$> ss') = (dropped <$> ss).
Proof.
  revert q ss' q'; induction ss as [|s ss IH]; intros q ss' q'; simpl.
  { by intros [= <- <-]. }
  destruct (f s q) as [s1 q1] eqn:E1, (each_slot f ss q1) as [ss1 q2] eqn:E2. intros [= <- <-].
  intros [Hs Hss]%Forall_cons Hfull.
  assert (H1 : slot_ok s1 ∧ Forall buffer_ok (full q1) ∧ pool q1 = pool q ∧ closing q1 = closing q ∧
     (length (full q1) + held s1 = length (full q) + held s)%nat ∧ dropped s1 = dropped s).
  { destruct (Hf s q) as [E|(b & Hb & E)]; rewrite E in E1; injection E1 as <- <-; [done|].
    destruct Hs as [Hd Hs]. rewrite Hb in Hs. unfold held. rewrite Hb. simpl. rewrite length_app. simpl.
    split_and!; [done|by apply Forall_app; split; [|apply Forall_singleton]|done|done|lia|done]. }
  destruct H1 as (H1 & H2 & H3 & H4 & H5 & H6).
  destruct (IH q1 ss1 q2 E2 Hss H2) as (G1 & G2 & G3 & G4 & G5 & G6). csimpl.
  split_and!; [by constructor|done|congruence|congruence|lia|congruence].
Qed.
End each_slot.

(** Flushing and the final collection, on the whole session. *)
Definition over (f : ThreadSlot → BufferQueue → ThreadSlot * BufferQueue) (c : Collector) : Collector :=
  let '(ss, q) := each_slot f (slots c) (queue c) in with_queue q (with_slots ss c).

Lemma over_spec f c ts front lg :
  hands_over f → places c ts → order c front lg →
  places (over f c) ts ∧ order (over f c) front lg ∧
  count_buffers (over f c) = count_buffers c ∧ same_session c (over f c) ∧
  (dropped <$> slots (over f c)) = (dropped <$> slots c).
Proof.
  intros Hf Hp (tags & Htags & Hord). unfold over. destruct (each_slot f (slots c) (queue c)) as [ss q] eqn:E.
  pose proof Hp as [[Hw1 Hw2 Hw3] Hnd Hl Hsl].
  pose proof (each_slot_keeps f Hf _ _ _ _ E Hw3 Hw1) as (G1 & G2 & G3 & G4 & G5 & G6).
  pose proof (each_slot_length f _ _ _ _ E) as Hlen. split_and!.
  - split; [|done|by simpl; rewrite Hlen|].
    + split; simpl; [done|by rewrite G3|done].
    + intros t k Ht Hk. simpl. rewrite Hlen. by eapply Hsl.
  - destruct (each_slot_order f Hf _ _ _ _ E) as (more & Hq & Hmore). exists (tags ++ more). simpl. split.
    + by rewrite fmap_app, Htags, Hq, app_assoc.
    + intros k. by rewrite at_slot_app, <-app_assoc, Hmore.
  - unfold count_buffers. simpl. rewrite G3. lia.
  - unfold same_session. simpl. by rewrite G4.
  - done.
Qed.

Lemma take_all ss q ss' q' : each_slot take_slot ss q = (ss', q') → Forall (λ s, buffer s = None) ss'.
Proof.
  revert q ss' q'; induction ss as [|s ss IH]; intros q ss' q'; simpl; [by intros [= <- <-]|].
  destruct (take_slot s q) as [s1 q1] eqn:E1, (each_slot take_slot ss q1) as [ss1 q2] eqn:E2.
  intros [= <- <-]. constructor; [|by eapply IH].
  unfold take_slot in E1. destruct (buffer s) eqn:Eb; injection E1 as <- <-; done.
Qed.

(** ** The producers' step *)
Lemma places_ext c c' ts : queue c' = queue c → slots c' = slots c → places c ts → places c' ts.
Proof.
  intros Hq Hs [[H1 H2 H3] H4 H5 H6]. split; [split|done|..]; rewrite ?Hq, ?Hs; done.
Qed.

Lemma order_ext c c' front lg :
  queue c' = queue c → slots c' = slots c → order c front lg → order c' front lg.
Proof. intros Hq Hs Hord. unfold order. by rewrite Hq, Hs. Qed.

Lemma same_session_trans c1 c2 c3 : same_session c1 c2 → same_session c2 c3 → same_session c1 c3.
Proof. unfold same_session. intuition congruence. Qed.

Lemma appended_event_tid k r frames c x :
  x ∈ appended_event k r frames c → item_tid x = tid r.
Proof.
  unfold appended_event, loss_items. repeat case_match; rewrite ?elem_of_app, ?list_elem_of_singleton; set_solver.
Qed.
Lemma appended_allocation_tid k a c x :
  x ∈ appended_allocation k a c → item_tid x = Allocation.tid a.
Proof. unfold appended_allocation. repeat case_match; rewrite ?list_elem_of_singleton; set_solver. Qed.

(** The outcome of a producer's work. *)
Record worked (c : Collector) (ts : list Thread) (i : nat) (t : Thread) (q : Request)
    (front : list Item) (lg : list (nat * Item)) (c' : Collector) (t' : Thread) : Prop := {
  wk_id : thread_id t' = thread_id t;
  wk_places : places c' (<[i := t']> ts);
  wk_order : order c' front (lg ++ entries q c t);
  wk_named : named ts lg → named (<[i := t']> ts) (lg ++ entries q c t);
  wk_session : same_session c c';
  wk_count : count_buffers c' = count_buffers c
}.

Lemma work_event c ts i t r frames front lg :
  places c ts → ts !! i = Some t → request_ok c t (Event r frames) → order c front lg →
  ∃ c' t', work (Event r frames) c t = Done (c', t') ∧ worked c ts i t (Event r frames) front lg c' t'.
Proof.
  intros Hp Hi (Hok & Htid & _) Hord. cbn [work]. unfold record_accepted.
  fold (framed r frames). destruct (thread_slot c t) as [[k c1] t1] eqn:Hts.
  destruct (thread_slot_spec _ _ _ _ _ _ _ _ _ Hp Hi Hts Hord)
    as (Hk & Hd & Hid & [s Hs] & Hp1 & Hord1 & Hss & Hcnt & _).
  assert (Hfr : take (Z.to_nat (nframes (framed r frames))) frames = take (min (length frames) MAX_FRAMES) frames).
  { unfold framed. simpl. by rewrite Nat2Z.id. }
  destruct (record_locked_spec k (framed r frames) frames c1 s) as (c' & s' & new & -> & Heff & -> & _);
    [apply Hp1|done|by rewrite Hfr|].
  assert (He : entries (Event r frames) c t = pair k <$> appended_event k (framed r frames) frames c1).
  { unfold entries, target. cbn [appended]. by rewrite Hts. }
  exists c', t1. split; [done|]. split; rewrite ?He; [done| | | | |].
  - by eapply effect_places.
  - by eapply effect_order.
  - apply (named_snoc ts i t); [apply Hp|done..|]. intros x Hx%appended_event_tid. by rewrite Hx.
  - eapply same_session_trans; [done|apply Heff].
  - by rewrite (eff_count _ _ _ _ _ _ Heff).
Qed.

Lemma work_alloc c ts i t now a front lg :
  places c ts → ts !! i = Some t → request_ok c t (Alloc now a) → order c front lg →
  ∃ c' t', work (Alloc now a) c t = Done (c', t') ∧ worked c ts i t (Alloc now a) front lg c' t'.
Proof.
  intros Hp Hi Hok Hord. cbn [work]. unfold allocation_accepted.
  set (sequence := wrapping_add (allocation_sequence c) 1).
  set (c0 := with_allocation sequence (allocation_dropped c) (allocation_paused c) c).
  assert (Hp0 : places c0 ts) by by apply (places_ext c).
  assert (Hord0 : order c0 front lg) by by apply (order_ext c).
  specialize (Hok sequence (wrap64_range _)). change (stamp c t) with (stamp c0 t) in Hok.
  destruct (paused c0) eqn:Hpaused.
  { assert (He : entries (Alloc now a) c t = []) by (unfold entries; cbn [appended]; fold sequence c0; by rewrite Hpaused).
    eexists _, t. split; [reflexivity|]. split; rewrite ?He, ?app_nil_r, ?(list_insert_id ts i t Hi);
      [done|by apply (places_ext c0)|by apply (order_ext c0)|done..]. }
  destruct (thread_slot c0 t) as [[k c1] t1] eqn:Hts.
  destruct (thread_slot_spec _ _ _ _ _ _ _ _ _ Hp0 Hi Hts Hord0)
    as (Hk & Hd & Hid & [s Hs] & Hp1 & Hord1 & Hss & Hcnt & _).
  destruct (allocation_locked_spec k (stamp c0 t sequence now a) c1 s) as (c' & s' & new & -> & Heff & -> & _);
    [apply Hp1|done|done|].
  assert (He : entries (Alloc now a) c t = pair k <$> appended_allocation k (stamp c0 t sequence now a) c1).
  { unfold entries. replace (target c t) with k by (unfold target; transitivity ((thread_slot c0 t).1.1); [by rewrite Hts|by unfold thread_slot; destruct (destroyed t), (slot t)]).
    cbn [appended]. fold sequence c0. by rewrite Hpaused, Hts. }
  exists c', t1. split; [done|]. split; rewrite ?He; [done| | | | |].
  - by eapply effect_places.
  - by eapply effect_order.
  - apply (named_snoc ts i t); [apply Hp|done..|]. by intros x Hx%appended_allocation_tid.
  - eapply same_session_trans; [|apply Heff]. exact Hss.
  - by rewrite (eff_count _ _ _ _ _ _ Heff).
Qed.

Lemma work_spec c ts i t q front lg :
  places c ts → ts !! i = Some t → request_ok c t q → order c front lg →
  ∃ c' t', work q c t = Done (c', t') ∧ worked c ts i t q front lg c' t'.
Proof. destruct q; [apply work_event|apply work_alloc]. Qed.

(** ** The invariant *)
Definition busy (p : Producer) : Z := match pc p with Idle => 0 | _ => 1 end.
Definition busy_count (ps : list Producer) : Z := foldr (λ p n, busy p + n) 0 ps.

Definition in_hand (w : WriterPc) : nat :=
  match w with Holding b => if capacity b =? 0 then 0 else 1 | _ => 0 end.

Record inv (s : State) : Prop := {
  i_places : places (col s) (thread <$> producers s);
  i_order : order (col s) (delivered s ++ hand (wpc s)) (log s);
  i_named : named (thread <$> producers s) (log s);
  i_active : active s = busy_count (producers s);
  i_accept : accepting (col s) = true ↔ fin s = Running;
  i_closing : closing (queue (col s)) = true ↔ fin s = Collected;
  i_working : fin s = Collected → ∀ p q, p ∈ producers s → pc p ≠ Working q;
  i_emptied : fin s = Collected → Forall (λ x, buffer x = None) (slots (col s));
  i_finished : wpc s = Finished → fin s = Collected ∧ full (queue (col s)) = [];
  i_requests p q : p ∈ producers s → pc p = Entered q ∨ pc p = Working q →
    request_ok (col s) (thread p) q;
  i_hand b : wpc s = Holding b → buffer_ok b ∨ b = mkBuffer [] 0;
  i_count : (count_buffers (col s) + in_hand (wpc s) = POOL_BUFFERS)%nat
}.

Lemma request_ok_ext c c' t t' q :
  pid c' = pid c → epoch c' = epoch c → thread_id t' = thread_id t →
  request_ok c t q → request_ok c' t' q.
Proof.
  intros Hp He Ht. destruct q as [r fs|now a]; cbn [request_ok]; [by rewrite Ht|].
  unfold stamp. by rewrite Hp, He, Ht.
Qed.

Lemma busy_count_insert ps i p p' :
  ps !! i = Some p → busy_count (<[i := p']> ps) = busy_count ps - busy p + busy p'.
Proof.
  revert i; induction ps as [|x ps IH]; intros [|i] Hi; simpl in *; [done|done| |].
  - injection Hi as ->. unfold busy_count. lia.
  - specialize (IH i Hi). unfold busy_count in *. lia.
Qed.

Lemma busy_count_nonneg ps : 0 ≤ busy_count ps.
Proof. induction ps as [|p ps IH]; simpl; [done|]. unfold busy. case_match; lia. Qed.

Lemma busy_count_zero ps p : busy_count ps = 0 → p ∈ ps → pc p = Idle.
Proof.
  intros H Hp. induction ps as [|x ps IH]; [set_solver|]. simpl in H.
  pose proof (busy_count_nonneg ps) as Hn. assert (Hx : 0 ≤ busy x) by (unfold busy; case_match; lia).
  apply elem_of_cons in Hp as [->|Hp]; [|apply IH; [lia|done]].
  assert (Hx0 : busy x = 0) by lia. unfold busy in Hx0. by destruct (pc x).
Qed.

Lemma threads_set_pc s i p k :
  producers s !! i = Some p → thread <$> set_pc s i p k = thread <$> producers s.
Proof.
  intros Hi. unfold set_pc. rewrite list_fmap_insert. apply list_insert_id. by rewrite list_lookup_fmap, Hi.
Qed.

Lemma elem_of_set_pc s i p k p' :
  p' ∈ set_pc s i p k → p' = mkProducer (thread p) k ∨ p' ∈ producers s.
Proof.
  intros [j Hj]%list_elem_of_lookup. unfold set_pc in Hj.
  apply list_lookup_insert_Some in Hj as [(-> & <- & _)|[_ Hj]]; [by left|right].
  by eapply list_elem_of_lookup_2.
Qed.
End Shutdown.
