(* ===== verification/CollectorRuns.v ===== *)
(** * Runs of the collector

    - [Module Steps]: the invariant of [CollectorShutdown.v] holds in every reachable state;
    - [Module Completion]: from every reachable state the shutdown can be completed;
    - [Module Losses]: what the counters of the session say about the records that were
      not appended. *)

From S2P Require Import Prelude Words Sendable Allocation Channel Collector CollectorSpec CollectorShutdown.
Open Scope Z_scope.
Import Collector.

Module Steps.
Import Codec Room Shutdown.

Lemma sum_list_zero {A} (f : A → nat) l : Forall (λ x, f x = 0%nat) l → sum_list (f <$> l) = 0%nat.
Proof. induction 1 as [|x l Hx _ IH]; csimpl; [done|lia]. Qed.

Lemma wf_start xxh3 pid_ now : wf (start xxh3 pid_ now).2.
Proof.
  unfold start. destruct (intern _ _ _) as [k i]. split; cbn [snd queue full pool slots new_queue].
  - constructor.
  - apply Forall_replicate. done.
  - apply Forall_singleton. split; [unfold in_u64; simpl; rewrite u64_max_val; lia|done].
Qed.

Lemma starts_inv s : initial s → inv s.
Proof.
  intros [(xxh3 & pid_ & now & _ & _ & Ec) Ea Hidle Hnd Ef Ew Ed El].
  rewrite Forall_forall in Hidle.
  assert (Hin : ∀ t, t ∈ thread <$> producers s → slot t = None).
  { intros t (p & -> & Hp)%list_elem_of_fmap. by destruct (Hidle p Hp). }
  assert (Hc : accepting (col s) = true ∧ queue (col s) = new_queue ∧ slots (col s) = [new_slot]).
  { rewrite Ec. unfold start. by destruct (intern _ _ _). }
  destruct Hc as (Hacc & Hq & Hs). split.
  - split.
    + rewrite Ec. apply wf_start.
    + by rewrite <-list_fmap_compose.
    + rewrite Hs. simpl. lia.
    + intros t k Ht Hk. rewrite (Hin t Ht) in Hk. done.
  - exists []. rewrite Ed, Ew, El, Hq, Hs. split; [done|]. by intros [|[|k]].
  - rewrite El. split; [set_solver|done..].
  - rewrite Ea. clear -Hidle. induction (producers s) as [|p ps IH]; [done|]. simpl.
    rewrite <-IH by set_solver. unfold busy. destruct (Hidle p) as [-> _]; set_solver.
  - by rewrite Hacc, Ef.
  - rewrite Hq, Ef. done.
  - by rewrite Ef.
  - by rewrite Ef.
  - by rewrite Ew.
  - intros p q Hp. destruct (Hidle p Hp) as [-> _]. by intros [|].
  - by rewrite Ew.
  - unfold count_buffers. rewrite Hq, Hs, Ew. done.
Qed.

(** A step that only moves a producer's program counter. *)
Lemma set_pc_inv s i p k a :
  inv s → producers s !! i = Some p →
  a = active s - busy p + busy (mkProducer (thread p) k) →
  (∀ q, k = Working q → fin s ≠ Collected) →
  (∀ q, k = Entered q ∨ k = Working q → request_ok (col s) (thread p) q) →
  inv (mkState (col s) a (set_pc s i p k) (fin s) (wpc s) (delivered s) (log s)).
Proof.
  intros [] Hi Ha Hw Hq. split; simpl; rewrite ?(threads_set_pc s i p k Hi); try done.
  - rewrite Ha, i_active0. unfold set_pc. by rewrite (busy_count_insert _ _ _ _ Hi).
  - intros Hf p' q [-> | Hp']%elem_of_set_pc; simpl; [intros Hk; by apply (Hw q)|by apply i_working0].
  - intros p' q [-> | Hp']%elem_of_set_pc; simpl; [apply Hq|by apply i_requests0].
Qed.

Lemma enter_inv s i p q :
  inv s → producers s !! i = Some p → pc p = Idle → request_ok (col s) (thread p) q →
  inv (mkState (col s) (active s + 1) (set_pc s i p (Entered q)) (fin s) (wpc s) (delivered s) (log s)).
Proof.
  intros Hinv Hi Hpc Hq. apply set_pc_inv; [done|done|unfold busy; rewrite Hpc; simpl; lia|done|].
  by intros q' [[= <-]|].
Qed.

Lemma accept_inv s i p q :
  inv s → producers s !! i = Some p → pc p = Entered q → admitted q (col s) = true →
  inv (mkState (col s) (active s) (set_pc s i p (Working q)) (fin s) (wpc s) (delivered s) (log s)).
Proof.
  intros Hinv Hi Hpc Had. apply set_pc_inv; [done|done|unfold busy; rewrite Hpc; simpl; lia| |].
  - intros _ _ Hf. assert (Hacc : accepting (col s) = true).
    { unfold admitted in Had. destruct q; [by apply andb_true_iff in Had as [? _]|done]. }
    apply (i_accept _ Hinv) in Hacc. congruence.
  - intros q' [|[= <-]]; [done|]. eapply i_requests; [done|by eapply list_elem_of_lookup_2|auto].
Qed.

Lemma refuse_inv s i p q :
  inv s → producers s !! i = Some p → pc p = Entered q →
  inv (mkState (col s) (active s) (set_pc s i p Leaving) (fin s) (wpc s) (delivered s) (log s)).
Proof.
  intros Hinv Hi Hpc. apply set_pc_inv; [done|done|unfold busy; rewrite Hpc; simpl; lia|done|].
  by intros q' [|].
Qed.

Lemma leave_inv s i p :
  inv s → producers s !! i = Some p → pc p = Leaving →
  inv (mkState (col s) (active s - 1) (set_pc s i p Idle) (fin s) (wpc s) (delivered s) (log s)).
Proof.
  intros Hinv Hi Hpc. apply set_pc_inv; [done|done|unfold busy; rewrite Hpc; simpl; lia|done|].
  by intros q' [|].
Qed.

(** The work of a producer; the session cannot be collected while it works. *)
Lemma produce_inv s i p q c' t' :
  inv s → producers s !! i = Some p → pc p = Working q → work q (col s) (thread p) = Done (c', t') →
  inv (mkState c' (active s) (<[i := mkProducer t' Leaving]> (producers s)) (fin s) (wpc s)
         (delivered s) (log s ++ entries q (col s) (thread p))).
Proof.
  intros [] Hi Hpc Hwork.
  assert (Hp : p ∈ producers s) by by eapply list_elem_of_lookup_2.
  assert (Hti : (thread <$> producers s) !! i = Some (thread p)) by by rewrite list_lookup_fmap, Hi.
  destruct (work_spec (col s) _ i (thread p) q _ _ i_places0 Hti (i_requests0 p q Hp (or_intror Hpc)) i_order0)
    as (c1 & t1 & Hw & [Hid Hp1 Hord1 Hnm Hss Hcnt]).
  specialize (Hnm i_named0). rewrite Hwork in Hw. injection Hw as <- <-. destruct Hss as (Hpid & Hep & Hacc & _ & Hcl).
  assert (Hts : thread <$> <[i := mkProducer t' Leaving]> (producers s) = <[i := t']> (thread <$> producers s))
    by by rewrite list_fmap_insert.
  assert (Hnf : fin s ≠ Collected) by (intros Hf; by apply (i_working0 Hf p q)).
  split; simpl; rewrite ?Hts; try done.
  - rewrite (busy_count_insert _ _ _ _ Hi). unfold busy. rewrite Hpc. simpl. lia.
  - by rewrite Hacc.
  - by rewrite Hcl.
  - intros Hf. by destruct (i_finished0 Hf).
  - intros p' q' [j Hj]%list_elem_of_lookup.
    apply list_lookup_insert_Some in Hj as [(-> & <- & _)|[_ Hj]]; simpl; [by intros [|]|].
    intros Hq. eapply request_ok_ext; [..|eapply i_requests0; [by eapply list_elem_of_lookup_2|done]]; done.
  - by rewrite Hcnt.
Qed.

Lemma destroy_locals_named ts i t lg :
  NoDup (thread_id <$> ts) → ts !! i = Some t → named ts lg → named (<[i := destroy_locals t]> ts) lg.
Proof.
  intros Hnd Hi [Hs Hl Hsp]. assert (Ht : t ∈ ts) by by eapply list_elem_of_lookup_2. split.
  - intros x e [->|[Hx _]]%(replaced_in ts i t _ _ Hnd Hi); [by apply (Hs t)|by apply Hs].
  - intros x [->|[Hx _]]%(replaced_in ts i t _ _ Hnd Hi); [done|by apply Hl].
  - intros x [->|[Hx _]]%(replaced_in ts i t _ _ Hnd Hi); [by apply (Hsp t)|by apply Hsp].
Qed.

(** The destructors of an idle thread. *)
Lemma destroy_inv s i p :
  inv s → producers s !! i = Some p → pc p = Idle →
  inv (mkState (col s) (active s) (<[i := mkProducer (destroy_locals (thread p)) Idle]> (producers s))
         (fin s) (wpc s) (delivered s) (log s)).
Proof.
  intros [] Hi Hpc.
  assert (Hti : (thread <$> producers s) !! i = Some (thread p)) by by rewrite list_lookup_fmap, Hi.
  assert (Hin : ∀ p', p' ∈ <[i := mkProducer (destroy_locals (thread p)) Idle]> (producers s) →
    pc p' = Idle ∨ p' ∈ producers s).
  { intros p' [j Hj]%list_elem_of_lookup. apply list_lookup_insert_Some in Hj as [(-> & <- & _)|[_ Hj]];
      [by left|right; by eapply list_elem_of_lookup_2]. }
  split; simpl; rewrite ?list_fmap_insert; try done.
  - destruct i_places0 as [H1 H2 H3 H4]. split; [done| |done|].
    + by rewrite (replaced_ids _ _ (thread p)).
    + intros t k [->|[Ht _]]%(replaced_in _ i (thread p) _ _ H2 Hti); [|by apply H4].
      apply (H4 (thread p)). by eapply list_elem_of_lookup_2.
  - apply destroy_locals_named; [apply i_places0|done..].
  - rewrite (busy_count_insert _ _ _ _ Hi). unfold busy. rewrite Hpc. simpl. lia.
  - intros Hf p' q [->|Hp']%Hin; [done|by apply i_working0].
  - intros p' q [->|Hp']%Hin; [by intros [|]|by apply i_requests0].
Qed.

(** Changes of the session that keep the places and the order. *)
Lemma session_inv s c' f' :
  inv s → places c' (thread <$> producers s) →
  order c' (delivered s ++ hand (wpc s)) (log s) →
  count_buffers c' = count_buffers (col s) → pid c' = pid (col s) → epoch c' = epoch (col s) →
  (accepting c' = true ↔ f' = Running) → (closing (queue c') = true ↔ f' = Collected) →
  (f' = Collected → ∀ p q, p ∈ producers s → pc p ≠ Working q) →
  (f' = Collected → Forall (λ x, buffer x = None) (slots c')) →
  (wpc s = Finished → f' = Collected ∧ full (queue c') = []) →
  inv (mkState c' (active s) (producers s) f' (wpc s) (delivered s) (log s)).
Proof.
  intros [] Hp Ho Hc Hpid Hep Ha Hcl Hw He Hf. split; simpl; try done.
  - intros p q Hpp Hpc. eapply request_ok_ext; [done..|by apply i_requests0].
  - by rewrite Hc.
Qed.

Lemma stop_inv s :
  inv s → fin s = Running →
  inv (mkState (stop_accepting (col s)) (active s) (producers s) Stopping (wpc s) (delivered s) (log s)).
Proof.
  intros Hinv Hf. apply session_inv; try done.
  - apply (places_ext (col s)); [done..|apply Hinv].
  - apply (order_ext (col s)); [done..|apply Hinv].
  - simpl. rewrite (i_closing _ Hinv), Hf. done.
  - intros Hw. destruct (i_finished _ Hinv Hw). congruence.
Qed.

Lemma finish_collect_over c :
  finish_collect c = with_queue (close (queue (over take_slot c))) (over take_slot c).
Proof. unfold finish_collect, over. by destruct (each_slot _ _ _). Qed.

Lemma over_taken c : Forall (λ x, buffer x = None) (slots (over take_slot c)).
Proof.
  unfold over. destruct (each_slot take_slot (slots c) (queue c)) as [ss q] eqn:E. simpl. by eapply take_all.
Qed.

Lemma places_close c ts : places c ts → places (with_queue (close (queue c)) c) ts.
Proof. intros [[H1 H2 H3] H4 H5 H6]. split; [split|..]; done. Qed.

Lemma collect_inv s :
  inv s → fin s = Stopping → active s = 0 →
  inv (mkState (finish_collect (col s)) (active s) (producers s) Collected (wpc s) (delivered s) (log s)).
Proof.
  intros Hinv Hf Ha. rewrite finish_collect_over.
  destruct (over_spec take_slot (col s) _ _ _ take_slot_over (i_places _ Hinv) (i_order _ Hinv))
    as (Hp & Ho & Hc & (Hpid & Hep & Hacc & _ & Hcl) & _).
  apply session_inv; try done.
  - by apply places_close.
  - simpl. rewrite Hacc, (i_accept _ Hinv), Hf. done.
  - intros _ p q Hpp Hpc. rewrite (i_active _ Hinv) in Ha. apply (busy_count_zero _ p) in Ha; [congruence|done].
  - intros _. apply over_taken.
  - intros Hw. destruct (i_finished _ Hinv Hw). congruence.
Qed.

(** ** Flushing, pausing *)
Definition same_but_paused (c c' : Collector) : Prop :=
  pid c' = pid c ∧ epoch c' = epoch c ∧ accepting c' = accepting c ∧
  closing (queue c') = closing (queue c).

Lemma same_session_paused c c' : same_session c c' → same_but_paused c c'.
Proof. intros (? & ? & ? & _ & ?). done. Qed.

Definition flushed (c c' : Collector) : Prop :=
  same_but_paused c c' ∧ count_buffers c' = count_buffers c ∧
  (dropped <$> slots c') = (dropped <$> slots c) ∧
  (Forall (λ x, buffer x = None) (slots c) → slots c' = slots c ∧ queue c' = queue c).

Lemma flush_none ss q : Forall (λ x, buffer x = None) ss → each_slot flush_slot ss q = (ss, q).
Proof.
  induction 1 as [|x ss Hx _ IH]; [done|]. cbn [each_slot].
  assert (E : flush_slot x q = (x, q)) by (unfold flush_slot; by rewrite Hx). by rewrite E, IH.
Qed.

Lemma flush_slots_spec c ts front lg :
  places c ts → order c front lg →
  places (flush_slots c) ts ∧ order (flush_slots c) front lg ∧ flushed c (flush_slots c).
Proof.
  intros Hp Ho. change (flush_slots c) with (over flush_slot c).
  destruct (over_spec flush_slot c ts front lg flush_slot_over Hp Ho) as (Hp' & Ho' & Hc & Hs & Hd).
  split_and!; [done..|]. split_and!; [by apply same_session_paused|done..|]. intros Hn. unfold over. by rewrite (flush_none _ _ Hn).
Qed.

Section flush_at.
Context (c : Collector) (k : nat) (x x1 : ThreadSlot) (q1 : BufferQueue).
Context (Hk : slots c !! k = Some x) (E : flush_slot x (queue c) = (x1, q1)).

Lemma flush_at_keeps :
  wf c →
  Forall buffer_ok (full q1) ∧ pool q1 = pool (queue c) ∧ closing q1 = closing (queue c) ∧ slot_ok x1 ∧
  (length (full q1) + held x1 = length (full (queue c)) + held x)%nat ∧ dropped x1 = dropped x ∧
  (buffer x = None → x1 = x ∧ q1 = queue c).
Proof.
  intros [H1 H2 H3]. assert (Hx : slot_ok x) by (eapply Forall_lookup_1; [apply H3|done]).
  destruct (flush_slot_over x (queue c)) as [E'|(b & Hb & E')]; rewrite E' in E; injection E as <- <-; [done|].
  destruct Hx as [Hd Hx]. rewrite Hb in Hx. unfold held. rewrite Hb. simpl. rewrite length_app. simpl.
  split_and!; [by apply Forall_app; split; [|apply Forall_singleton]|done|done|done|lia|done|done].
Qed.

Lemma flush_at_places ts : places c ts → places (with_queue q1 (with_slots (<[k := x1]> (slots c)) c)) ts.
Proof.
  intros Hp. destruct (flush_at_keeps (pl_wf _ _ Hp)) as (G1 & G2 & _ & G4 & _).
  destruct Hp as [[Hw1 Hw2 Hw3] Hnd Hl Hsl]. split; [|done|by simpl; rewrite length_insert|].
  - split; simpl; [done|by rewrite G2|by apply Forall_insert].
  - intros t j. simpl. rewrite length_insert. apply Hsl.
Qed.

Lemma flush_at_order front lg :
  order c front lg → order (with_queue q1 (with_slots (<[k := x1]> (slots c)) c)) front lg.
Proof.
  intros (tags & Htags & Ho). destruct (one_slot_order flush_slot flush_slot_over x (queue c) x1 q1 E) as (moved & Hq & Hm).
  exists (tags ++ (pair k <$> moved)). simpl. split.
  - by rewrite Hq, app_assoc, (tags_snoc _ _ _ _ Htags).
  - intros j. rewrite <-Ho, at_slot_snoc, <-app_assoc. f_equal. unfold items_at.
    destruct (decide (j = k)) as [->|Hne].
    + by rewrite list_lookup_insert_eq, Hk by (by eapply lookup_lt_Some).
    + by rewrite list_lookup_insert_ne by done.
Qed.
End flush_at.

Lemma flush_at_spec c k x ts front lg :
  slots c !! k = Some x → places c ts → order c front lg →
  places (flush_at k x c) ts ∧ order (flush_at k x c) front lg ∧ flushed c (flush_at k x c).
Proof.
  intros Hk Hp Ho. unfold flush_at. destruct (flush_slot x (queue c)) as [x1 q1] eqn:E.
  split; [by eapply flush_at_places|]. split; [by eapply flush_at_order|].
  destruct (flush_at_keeps c k x x1 q1 Hk E (pl_wf _ _ Hp)) as (G1 & G2 & G3 & G4 & G5 & G6 & G7).
  split_and!.
  - unfold same_but_paused. simpl. by rewrite G3.
  - unfold count_buffers. simpl. rewrite G2. pose proof (sum_held_insert (slots c) k x x1 Hk). lia.
  - simpl. rewrite list_fmap_insert. apply list_insert_id. by rewrite list_lookup_fmap, Hk, G6.
  - intros Hn. destruct G7 as [-> ->]; [by eapply (Forall_lookup_1 (λ x, buffer x = None))|].
    simpl. split; [by apply list_insert_id|done].
Qed.

Lemma flushed_inv s c' :
  inv s → places c' (thread <$> producers s) →
  order c' (delivered s ++ hand (wpc s)) (log s) → flushed (col s) c' →
  inv (mkState c' (active s) (producers s) (fin s) (wpc s) (delivered s) (log s)).
Proof.
  intros Hinv Hp Ho ((Hpid & Hep & Hacc & Hcl) & Hc & _ & Hn). apply session_inv; try done.
  - rewrite Hacc. apply Hinv.
  - rewrite Hcl. apply Hinv.
  - apply Hinv.
  - intros Hf. pose proof (i_emptied _ Hinv Hf) as He. destruct (Hn He) as [-> _]. done.
  - intros Hw. destruct (i_finished _ Hinv Hw) as [Hf Hq]. split; [done|].
    destruct (Hn (i_emptied _ Hinv Hf)) as [_ ->]. done.
Qed.

(** ** The writer *)
Lemma writer_inv s c' w d :
  inv s → places c' (thread <$> producers s) →
  order c' (d ++ hand w) (log s) →
  same_but_paused (col s) c' →
  (fin s = Collected → slots c' = slots (col s)) →
  (w = Finished → fin s = Collected ∧ full (queue c') = []) →
  (∀ b, w = Holding b → buffer_ok b ∨ b = mkBuffer [] 0) →
  (count_buffers c' + in_hand w = count_buffers (col s) + in_hand (wpc s))%nat →
  inv (mkState c' (active s) (producers s) (fin s) w d (log s)).
Proof.
  intros [] Hp Ho (Hpid & Hep & Hacc & Hcl) Hsl Hf Hb Hc. split; simpl; try done.
  - by rewrite Hacc.
  - by rewrite Hcl.
  - intros Hfc. rewrite (Hsl Hfc). auto.
  - intros p q Hpp Hpc. eapply request_ok_ext; [done..|by apply i_requests0].
  - by rewrite Hc.
Qed.

Lemma order_front c c' front front' lg :
  front' ++ queue_items (queue c') = front ++ queue_items (queue c) → slots c' = slots c →
  order c front lg → order c' front' lg.
Proof. intros E Hs Ho. unfold order. by rewrite E, Hs. Qed.

Lemma take_buffer_inv s b q :
  inv s → wpc s = Polling → next_full (queue (col s)) = (Ready b, q) →
  inv (mkState (with_queue q (col s)) (active s) (producers s) (fin s) (Holding b) (delivered s) (log s)).
Proof.
  intros Hinv Hw Hn. unfold next_full in Hn.
  destruct (full (queue (col s))) as [|b0 rest] eqn:Ef; [by destruct (closing _)|].
  injection Hn as -> <-. pose proof (i_places _ Hinv) as [[Hw1 Hw2 Hw3] H4 H5 H6].
  rewrite Ef in Hw1. apply Forall_cons in Hw1 as [Hb Hrest].
  assert (Hcap : (capacity b =? 0) = false) by (destruct Hb as (_ & _ & ->); done).
  apply writer_inv; try done.
  - eapply (order_front (col s)); [|done|exact (i_order _ Hinv)]. rewrite Hw. unfold queue_items. simpl.
    rewrite Ef. simpl. by rewrite app_nil_r, <-app_assoc.
  - intros b' [= <-]. by left.
  - unfold count_buffers. simpl. rewrite Hw, Ef, Hcap. simpl. lia.
Qed.

Lemma time_out_inv s b q :
  inv s → wpc s = Polling → next_full (queue (col s)) = (Wait, queue (col s)) →
  after_wait true (queue (col s)) = (Ready b, q) →
  inv (mkState (with_queue q (col s)) (active s) (producers s) (fin s) (Holding b) (delivered s) (log s)).
Proof.
  intros Hinv Hw Hn Ha. unfold after_wait, next_full in *. destruct (full _) eqn:Ef; [|done].
  destruct (closing (queue (col s))) eqn:Ec; [done|]. injection Ha as <- <-.
  apply writer_inv; try done.
  - apply (places_ext (col s)); [done..|apply Hinv].
  - eapply (order_front (col s)); [|done|exact (i_order _ Hinv)]. rewrite Hw. simpl. by rewrite !app_nil_r.
  - intros b [= <-]. by right.
  - by rewrite Hw.
Qed.

Lemma recycle_places b c ts :
  capacity b = BUFFER_BYTES → places c ts → places (with_queue (recycle b (queue c)) c) ts.
Proof.
  intros Hc [[H1 H2 H3] H4 H5 H6]. split; [split|..]; try done. simpl.
  apply Forall_app. split; [done|]. apply Forall_singleton. split; [done|]. by rewrite <-Hc.
Qed.

Lemma deliver_inv s b :
  inv s → wpc s = Holding b →
  inv (mkState (release b (col s)) (active s) (producers s) (fin s) Polling
         (delivered s ++ decode_buffer b) (log s)).
Proof.
  intros Hinv Hw. pose proof (i_order _ Hinv) as Ho. rewrite Hw in Ho. simpl in Ho. unfold release.
  destruct (i_hand _ Hinv b Hw) as [(_ & _ & Hcap)| ->].
  - assert (Hcap0 : (capacity b =? 0) = false) by (rewrite Hcap; done). rewrite Hcap0. cbn [negb].
    apply writer_inv; try done.
    + apply recycle_places; [done|apply Hinv].
    + eapply (order_front (col s)); [|done|exact Ho]. simpl. by rewrite app_nil_r.
    + unfold count_buffers. simpl. rewrite Hw. simpl. unfold vec_push. rewrite Hcap0, length_app. simpl. lia.
  - cbn [capacity negb Z.eqb].
    destruct (flush_slots_spec (col s) _ _ _ (i_places _ Hinv) Ho) as (Hp' & Ho' & Hs & Hc & _ & Hn).
    apply writer_inv; try done.
    + by simpl; rewrite app_nil_r.
    + intros Hf. by destruct (Hn (i_emptied _ Hinv Hf)).
    + rewrite Hc, Hw. simpl. lia.
Qed.

Lemma control_inv s k :
  inv s → inv (mkState (command (col s, mkWriter 0 [] [] [] [] ∅ 0 0) k).1 (active s) (producers s)
                 (fin s) (wpc s) (delivered s) (log s)).
Proof.
  intros Hinv. destruct k; cbn [command fst].
  1-2: apply flushed_inv; [done|apply (places_ext (col s)); [done..|apply Hinv]| |done];
       apply (order_ext (col s)); [done..|apply Hinv].
  destruct (flush_slots_spec (col s) _ _ _ (i_places _ Hinv) (i_order _ Hinv)) as (? & ? & ?).
  by apply flushed_inv.
Qed.

Lemma finished_inv s :
  inv s → wpc s = Polling → next_full (queue (col s)) = (Closed, queue (col s)) →
  inv (mkState (col s) (active s) (producers s) (fin s) Finished (delivered s) (log s)).
Proof.
  intros Hinv Hw Hn. pose proof (i_order _ Hinv) as Ho. rewrite Hw in Ho.
  unfold next_full in Hn. destruct (full _) eqn:Ef; [|done]. destruct (closing _) eqn:Ec; [|done].
  apply writer_inv; try done; [apply Hinv| |by rewrite Hw].
  intros _. split; [by apply Hinv|done].
Qed.

Lemma step_inv s s' : inv s → step s s' → inv s'.
Proof.
  intros Hinv H. destruct H.
  - by apply enter_inv.
  - by apply accept_inv.
  - by eapply refuse_inv.
  - by eapply produce_inv.
  - by apply leave_inv.
  - by apply destroy_inv.
  - by apply stop_inv.
  - by apply collect_inv.
  - by eapply take_buffer_inv.
  - by eapply time_out_inv.
  - by apply deliver_inv.
  - by apply control_inv.
  - destruct (flush_at_spec (col s) k x _ _ _ H (i_places _ Hinv) (i_order _ Hinv)) as (? & ? & ?).
    by apply flushed_inv.
  - by apply finished_inv.
Qed.

Lemma rtc_inv s s' : inv s → rtc step s s' → inv s'.
Proof. intros Hinv H. induction H as [|s s1 s' H _ IH]; [done|]. by eapply IH, step_inv. Qed.

Lemma runs_inv s : reachable s → inv s.
Proof. intros (s0 & Hi & Hr). eapply rtc_inv; [by apply starts_inv|done]. Qed.
End Steps.

(** ** The shutdown can always be completed *)
Module Completion.
Import Codec Room Shutdown Steps.

(** The steps a producer has left in its call. *)
Definition left_ (p : Producer) : nat :=
  match pc p with Idle => 0 | Leaving => 1 | Working _ => 2 | Entered _ => 3 end.
Definition all_left (s : State) : nat := sum_list (left_ <$> producers s).

Lemma left_insert (ps : list Producer) i p p' :
  ps !! i = Some p → (left_ p' < left_ p)%nat →
  (sum_list (left_ <$> <[i := p']> ps) < sum_list (left_ <$> ps))%nat.
Proof.
  intros Hi Hlt. destruct (insert_perm ps i p Hi) as (k & E & Hins). rewrite (Hins p'), E. csimpl. lia.
Qed.

Lemma all_idle_or (ps : list Producer) : (∀ p, p ∈ ps → pc p = Idle) ∨ ∃ i p, ps !! i = Some p ∧ pc p ≠ Idle.
Proof.
  induction ps as [|p ps [IH|(i & p' & Hi & Hp')]].
  - left. set_solver.
  - destruct (pc p) eqn:E; [left; set_solver|right; exists 0%nat, p; simpl; split; congruence..].
  - right. by exists (S i), p'.
Qed.

(** A producer inside a call can go on. *)
Lemma producer_moves s i p :
  inv s → producers s !! i = Some p → pc p ≠ Idle →
  ∃ s', step s s' ∧ (all_left s' < all_left s)%nat ∧ fin s' = fin s ∧ wpc s' = wpc s.
Proof.
  intros Hinv Hi Hne. unfold all_left.
  assert (Hlt : ∀ t k, (left_ (mkProducer t k) < left_ p)%nat →
    (sum_list (left_ <$> <[i := mkProducer t k]> (producers s)) < sum_list (left_ <$> producers s))%nat)
    by (intros t k; by apply left_insert).
  destruct (pc p) as [|q|q|] eqn:Hpc; [done|..].
  - destruct (admitted q (col s)) eqn:Ha;
      (eexists; split; [by first [eapply accept; eassumption|eapply refuse; eassumption]|]; simpl; split; [|done];
       apply Hlt; unfold left_; rewrite Hpc; simpl; lia).
  - assert (Hti : (thread <$> producers s) !! i = Some (thread p)) by by rewrite list_lookup_fmap, Hi.
    assert (Hq : request_ok (col s) (thread p) q)
      by (eapply i_requests; [done|by eapply list_elem_of_lookup_2|auto]).
    destruct (work_spec (col s) _ i (thread p) q _ _ (i_places _ Hinv) Hti Hq (i_order _ Hinv))
      as (c' & t' & Hw & _).
    eexists. split; [by eapply produce|]. simpl. split; [|done]. apply Hlt. unfold left_. rewrite Hpc. simpl. lia.
  - eexists. split; [by eapply leave|]. simpl. split; [|done]. apply Hlt. unfold left_. rewrite Hpc. simpl. lia.
Qed.

Lemma producers_settle s :
  inv s → ∃ s', rtc step s s' ∧ (∀ p, p ∈ producers s' → pc p = Idle) ∧ fin s' = fin s ∧ wpc s' = wpc s.
Proof.
  remember (all_left s) as n eqn:Hn. revert s Hn. induction n as [n IH] using lt_wf_ind. intros s Hn Hinv.
  destruct (all_idle_or (producers s)) as [Hidle|(i & p & Hi & Hp)]; [by exists s|].
  destruct (producer_moves s i p Hinv Hi Hp) as (s1 & Hs & Hlt & Hf & Hw). subst n.
  destruct (IH (all_left s1) Hlt s1 eq_refl (step_inv _ _ Hinv Hs)) as (s' & Hr & Hidle & Hf' & Hw').
  exists s'. split_and!; [by eapply rtc_l|done|congruence..].
Qed.

Lemma idle_count ps : (∀ p, p ∈ ps → pc p = Idle) → busy_count ps = 0.
Proof.
  induction ps as [|p ps IH]; intros H; [done|]. simpl. rewrite IH by set_solver.
  unfold busy. rewrite (H p) by set_solver. done.
Qed.

(** [finish] gets to the collection of the slots. *)
Lemma finish_collects s :
  inv s → ∃ s', rtc step s s' ∧ inv s' ∧ fin s' = Collected ∧ wpc s' = wpc s.
Proof.
  intros Hinv. assert (Hstop : ∃ s1, rtc step s s1 ∧ inv s1 ∧ fin s1 ≠ Running ∧ wpc s1 = wpc s).
  { destruct (fin s) eqn:Ef; [|by exists s; rewrite Ef..].
    assert (Hs := stop s Ef). eexists. split; [by eapply rtc_once|]. split; [by eapply step_inv|done]. }
  destruct Hstop as (s1 & Hr1 & Hinv1 & Hf1 & Hw1).
  destruct (producers_settle s1 Hinv1) as (s2 & Hr2 & Hidle & Hf2 & Hw2).
  pose proof (rtc_inv _ _ Hinv1 Hr2) as Hinv2.
  assert (Hr : rtc step s s2) by by etrans.
  destruct (fin s2) eqn:Ef; [congruence| |by exists s2; rewrite Hw2].
  assert (Ha : active s2 = 0) by (rewrite (i_active _ Hinv2); by apply idle_count).
  assert (Hs := collect_ s2 Ef Ha). eexists. split; [by eapply rtc_r|].
  split; [by eapply step_inv|]. split; [done|]. simpl. congruence.
Qed.

(** The writer empties the closed queue. *)
Lemma writer_drains n s :
  length (full (queue (col s))) = n → inv s → fin s = Collected → wpc s = Polling →
  ∃ s', rtc step s s' ∧ wpc s' = Finished.
Proof.
  revert s; induction n as [|n IH]; intros s Hn Hinv Hf Hw.
  - eexists. split; [apply rtc_once, finished; [done|]|done]. unfold next_full.
    destruct (full _); [|done]. by rewrite (proj2 (i_closing _ Hinv) Hf).
  - destruct (full (queue (col s))) as [|b rest] eqn:Ef; [done|]. simpl in Hn.
    set (s1 := mkState (with_queue (mkQueue rest (pool (queue (col s))) (closing (queue (col s)))) (col s))
                 (active s) (producers s) (fin s) (Holding b) (delivered s) (log s)).
    assert (H1 : step s s1) by (apply take_buffer; [done|]; unfold next_full; by rewrite Ef).
    assert (Hb : buffer_ok b).
    { pose proof (wf_full _ (pl_wf _ _ (i_places _ Hinv))) as Hb. rewrite Ef in Hb. by apply Forall_cons in Hb as [? _]. }
    pose proof (deliver s1 b eq_refl) as H2.
    pose proof (step_inv _ _ (step_inv _ _ Hinv H1) H2) as Hinv2.
    assert (Hlen : length (full (queue (release b (col s1)))) = n).
    { unfold release. destruct Hb as (_ & _ & ->). simpl. lia. }
    match type of H2 with step _ ?s2 =>
      destruct (IH s2 Hlen Hinv2 Hf eq_refl) as (s' & Hr & Hfin) end.
    exists s'. split; [|done]. by eapply rtc_l; [|eapply rtc_l].
Qed.

Lemma completes s : inv s → ∃ s', rtc step s s' ∧ wpc s' = Finished.
Proof.
  intros Hinv. destruct (wpc s) as [|b|] eqn:Hw; [| |by exists s].
  - destruct (finish_collects s Hinv) as (s1 & Hr1 & Hinv1 & Hf & Hw1).
    destruct (writer_drains _ s1 eq_refl Hinv1 Hf) as (s' & Hr & Hfin); [congruence|].
    exists s'. split; [by etrans|done].
  - pose proof (deliver s b Hw) as Hd. pose proof (step_inv _ _ Hinv Hd) as Hinv0.
    destruct (finish_collects _ Hinv0) as (s1 & Hr1 & Hinv1 & Hf & Hw1).
    destruct (writer_drains _ s1 eq_refl Hinv1 Hf Hw1) as (s' & Hr & Hfin).
    exists s'. split; [|done]. eapply rtc_l; [done|]. by etrans.
Qed.
End Completion.

(** ** Losses *)
Module Losses.
Import Codec Room Shutdown Steps.

Definition loss_value (i : Item) : Z :=
  match i with
  | EventItem r _ => if kind r =? kind_code Loss then value r else 0
  | AllocationItem _ => 0
  end.
Definition losses (items : list Item) : Z := foldr (λ i n, loss_value i + n) 0 items.
Definition allocations (items : list Item) : Z := Z.of_nat (length (allocations_of items)).
Definition slot_drops (ss : list ThreadSlot) : Z := foldr (λ s n, dropped s + n) 0 ss.

(** Equal as 64-bit counters. *)
Definition eqm (a b : Z) : Prop := ∃ k, a = b + k * 2 ^ 64.

Lemma eqm_wrapping_add a b : eqm (wrapping_add a b) (a + b).
Proof.
  exists (- ((a + b) / 2 ^ 64)). unfold wrapping_add, wrap64. pose proof (Z.div_mod (a + b) (2 ^ 64)). lia.
Qed.
Lemma eqm_as_i64 a : eqm (as_i64 a) a.
Proof. unfold as_i64. case_match; [exists 0|exists (-1)]; lia. Qed.
Lemma eqm_wrap64 a b : eqm a b → wrap64 a = wrap64 b.
Proof. intros [k ->]. apply Z.mod_add. lia. Qed.

(** Every dropped event is in a loss row or still in its slot's count; every allocation
    number went to a record, a drop or a pause. *)
Record balanced (c : Collector) (lg : list Item) : Prop := {
  bal_events : eqm (total_dropped c) (losses lg + slot_drops (slots c));
  bal_allocations : eqm (allocation_sequence c)
    (allocations lg + allocation_dropped c + allocation_paused c)
}.

Lemma losses_app l k : losses (l ++ k) = losses l + losses k.
Proof. unfold losses. induction l as [|x l IH]; simpl; [done|]. rewrite IH. lia. Qed.
Lemma allocations_app l k : allocations (l ++ k) = allocations l + allocations k.
Proof. unfold allocations, allocations_of. rewrite omap_app, length_app. lia. Qed.

Lemma slot_drops_app l k : slot_drops (l ++ k) = slot_drops l + slot_drops k.
Proof. unfold slot_drops. induction l as [|x l IH]; simpl; [done|]. rewrite IH. lia. Qed.
Lemma slot_drops_insert ss i s s' :
  ss !! i = Some s → slot_drops (<[i := s']> ss) = slot_drops ss - dropped s + dropped s'.
Proof.
  revert i; induction ss as [|x ss IH]; intros [|i] Hi; simpl in *; [done|done| |].
  - injection Hi as ->. unfold slot_drops. lia.
  - specialize (IH i Hi). unfold slot_drops in *. lia.
Qed.
Lemma slot_drops_ext ss ss' : (dropped <$> ss') = (dropped <$> ss) → slot_drops ss' = slot_drops ss.
Proof.
  revert ss'; induction ss as [|x ss IH]; intros [|y ss']; intros H; try done.
  injection H as Hd H. simpl. apply IH in H. unfold slot_drops in *. rewrite Hd. lia.
Qed.

Lemma losses_event r fs d : kind r ≠ kind_code Loss → eqm (losses (loss_items r d ++ [EventItem r fs])) d.
Proof.
  intros Hk%Z.eqb_neq. rewrite losses_app. unfold losses at 2. cbn [foldr loss_value]. rewrite Hk. unfold loss_items. destruct (d =? 0) eqn:E.
  - apply Z.eqb_eq in E as ->. by exists 0.
  - destruct (eqm_as_i64 d) as [k Hkk]. exists k. simpl. lia.
Qed.

Lemma allocations_event r fs d : allocations (loss_items r d ++ [EventItem r fs]) = 0.
Proof. rewrite allocations_app. unfold loss_items. by destruct (d =? 0). Qed.

Lemma slot_balanced c t k c1 t1 lg :
  thread_slot c t = (k, c1, t1) → balanced c lg → balanced c1 lg.
Proof.
  unfold thread_slot. intros H [H1 H2]. destruct (destroyed t); [by injection H as <- <- <-|].
  destruct (slot t); injection H as <- <- <-; [done|]. split; [|done]. simpl.
  rewrite slot_drops_app. simpl. by rewrite Z.add_0_r.
Qed.

Lemma event_balanced k r frames c c' lg s :
  wf c → slots c !! k = Some s → event_ok r (take (Z.to_nat (nframes r)) frames) → kind r ≠ kind_code Loss →
  record_locked k r frames c = Done c' → balanced c lg → balanced c' (lg ++ appended_event k r frames c).
Proof.
  intros Hwf Hs Hok Hk Hrec [[k1 H1] [k2 H2]].
  destruct (record_locked_spec k r frames c s Hwf Hs Hok) as
    (c1 & s' & new & Hr & Heff & <- & Has & Had & Hap & Hcase).
  rewrite Hrec in Hr. injection Hr as <-.
  pose proof (slot_drops_insert (slots c) k s s' Hs) as Hsum. rewrite <-(eff_new _ _ _ _ _ _ Heff) in Hsum.
  destruct Hcase as [(-> & Hd & Ht)|(-> & Hd & Ht)].
  - rewrite app_nil_r. destruct (eqm_wrapping_add (dropped s) 1) as [a Ha], (eqm_wrapping_add (total_dropped c) 1) as [b Hb].
    split; [exists (k1 + b - a)|exists k2]; rewrite ?Hsum, ?Hd, ?Ht, ?Has, ?Had, ?Hap; lia.
  - destruct (losses_event r (take (Z.to_nat (nframes r)) frames) (dropped s) Hk) as [a Ha].
    split; [exists (k1 - a); rewrite losses_app, Hsum, Hd, Ht, Ha; lia|].
    exists k2. rewrite allocations_app, allocations_event, Has, Had, Hap. lia.
Qed.

Lemma allocation_balanced k a c c' lg s :
  wf c → slots c !! k = Some s → Allocation.allocation_ok a → allocation_locked k a c = Done c' →
  eqm (total_dropped c) (losses lg + slot_drops (slots c)) →
  eqm (allocation_sequence c) (allocations lg + allocation_dropped c + allocation_paused c + 1) →
  balanced c' (lg ++ appended_allocation k a c).
Proof.
  intros Hwf Hs Hok Hrec [k1 H1] [k2 H2].
  destruct (allocation_locked_spec k a c s Hwf Hs Hok) as
    (c1 & s' & new & Hr & Heff & <- & Hd & Ht & Has & Hap & Hcase).
  rewrite Hrec in Hr. injection Hr as <-.
  pose proof (slot_drops_insert (slots c) k s s' Hs) as Hsum. rewrite <-(eff_new _ _ _ _ _ _ Heff) in Hsum.
  destruct Hcase as [(-> & Had)|(-> & Had)].
  - rewrite app_nil_r. destruct (eqm_wrapping_add (allocation_dropped c) 1) as [b Hb].
    split; [exists k1; rewrite Hsum, Hd, Ht; lia|]. exists (k2 - b). rewrite Has, Had, Hap. lia.
  - split; [exists k1; rewrite losses_app, Hsum, Hd, Ht; simpl; lia|].
    exists k2. rewrite allocations_app, Has, Had, Hap. simpl. unfold allocations at 2. simpl. lia.
Qed.

Lemma work_balanced c ts (i : nat) t q c' t' front lg lg' :
  places c ts → ts !! i = Some t → request_ok c t q → order c front lg' →
  work q c t = Done (c', t') → balanced c lg → balanced c' (lg ++ appended q c t).
Proof.
  intros Hp Hi Hq Ho Hw Hb. destruct q as [r frames|now a]; cbn [work appended] in *.
  - unfold record_accepted in Hw. fold (framed r frames) in Hw.
    destruct (thread_slot c t) as [[k c1] t1] eqn:Hts. apply (slot_balanced _ _ _ _ _ _ Hts) in Hb.
    destruct (thread_slot_spec _ _ _ _ _ _ _ _ _ Hp Hi Hts Ho) as (_ & _ & _ & [s Hs] & Hp1 & _).
    destruct Hq as (Hok & _ & Hk). simpl in Hw.
    destruct (record_locked k (framed r frames) frames c1) as [c2|] eqn:Hrec; simplify_eq/=.
    eapply event_balanced; [apply Hp1|done| |done|done|done]. unfold framed. simpl. by rewrite Nat2Z.id.
  - unfold allocation_accepted in Hw. set (sequence := wrapping_add (allocation_sequence c) 1) in *.
    set (c0 := with_allocation sequence (allocation_dropped c) (allocation_paused c) c) in *.
    destruct Hb as [Hb1 [k2 Hb2]]. destruct (eqm_wrapping_add (allocation_sequence c) 1) as [b Hb].
    fold sequence in Hb. destruct (paused c0) eqn:Hpa.
    { injection Hw as <- <-. rewrite app_nil_r. split; [done|]. simpl.
      destruct (eqm_wrapping_add (allocation_paused c) 1) as [d Hd]. exists (k2 + b - d). lia. }
    assert (Hp0 : places c0 ts) by by apply (places_ext c).
    assert (Ho0 : order c0 front lg') by by apply (order_ext c).
    destruct (thread_slot c0 t) as [[k c1] t1] eqn:Hts.
    destruct (thread_slot_spec _ _ _ _ _ _ _ _ _ Hp0 Hi Hts Ho0) as (_ & _ & _ & [s Hs] & Hp1 & _ & _ & _ & Hc1 & Hsl).
    simpl in Hw. destruct (allocation_locked k _ c1) as [c2|] eqn:Hrec; [|done]. injection Hw as <- <-.
    assert (Hdr : slot_drops (slots c1) = slot_drops (slots c)).
    { destruct Hsl as [-> | ->]; [done|]. rewrite slot_drops_app. simpl. lia. }
    eapply allocation_balanced; [apply Hp1|done|apply (Hq sequence), wrap64_range|done|..].
    + rewrite Hdr, Hc1. done.
    + exists (k2 + b). rewrite Hc1. simpl. lia.
Qed.

Lemma flushed_balanced c c' lg :
  flushed c c' → total_dropped c' = total_dropped c → allocation_sequence c' = allocation_sequence c →
  allocation_dropped c' = allocation_dropped c → allocation_paused c' = allocation_paused c →
  balanced c lg → balanced c' lg.
Proof.
  intros (_ & _ & Hd & _) H1 H2 H3 H4 [Hb1 Hb2]. split; [rewrite H1, (slot_drops_ext _ _ Hd)|rewrite H2, H3, H4]; done.
Qed.

Lemma over_balanced f c ts front lg lg' :
  hands_over f → places c ts → order c front lg → balanced c lg' → balanced (over f c) lg'.
Proof.
  intros Hf Hp Ho [H1 H2]. destruct (over_spec f c ts front lg Hf Hp Ho) as (_ & _ & _ & _ & Hd).
  split.
  - rewrite (slot_drops_ext _ _ Hd). unfold over. by destruct (each_slot f (slots c) (queue c)).
  - unfold over. by destruct (each_slot f (slots c) (queue c)).
Qed.

Lemma step_balanced s s' : inv s → step s s' → balanced (col s) (snd <$> log s) → balanced (col s') (snd <$> log s').
Proof.
  intros Hinv Hs Hb. pose proof (i_places _ Hinv) as Hp. pose proof (i_order _ Hinv) as Ho.
  destruct Hs; try (destruct Hb; by split); simpl.
  - unfold entries. rewrite (tags_snoc _ _ _ _ eq_refl). eapply work_balanced; [done| | |done|done|done]; [by rewrite list_lookup_fmap, H|].
    eapply i_requests; [done|by eapply list_elem_of_lookup_2|auto].
  - rewrite finish_collect_over. destruct (over_balanced take_slot _ _ _ _ _ take_slot_over Hp Ho Hb). by split.
  - unfold release. destruct (negb _); [destruct Hb; by split|].
    by apply (over_balanced flush_slot _ _ _ _ _ flush_slot_over Hp Ho).
  - destruct k; [destruct Hb; by split..|]. by apply (over_balanced flush_slot _ _ _ _ _ flush_slot_over Hp Ho).
  - destruct (flush_at_spec _ _ _ _ _ _ H Hp Ho) as (_ & _ & Hf).
    apply (flushed_balanced (col s)); [done|..|done]; unfold flush_at; by destruct (flush_slot _ _).
Qed.

Lemma initial_balanced s : initial s → balanced (col s) (snd <$> log s).
Proof.
  intros Hi. rewrite (init_log _ Hi). destruct (init_collector _ Hi) as (h & p & n & _ & _ & ->).
  unfold start. destruct (intern _ _ _). by split; exists 0.
Qed.

Lemma reachable_balanced s : reachable s → balanced (col s) (snd <$> log s).
Proof.
  intros (s0 & Hi & Hr). pose proof (starts_inv _ Hi) as Hinv. pose proof (initial_balanced _ Hi) as Hb.
  clear Hi. induction Hr as [|s s1 s2 Hs _ IH]; [done|].
  apply IH; [by eapply step_inv|by eapply step_balanced].
Qed.
End Losses.

(** ** What the runs show *)
Import Room Shutdown Losses.

(** What a producer appended, to its own slot and, once its thread-local variables were
    destroyed, to the late slot; and what the writer was given of it. *)
Definition recorded (s : State) (p : Producer) : list Item := of_thread (thread_id (thread p)) (log s).*2.
Definition own_records (s : State) (p : Producer) : list Item := (own_part (thread_id (thread p)) (log s)).*2.
Definition late_records (s : State) (p : Producer) : list Item := (late_part (thread_id (thread p)) (log s)).*2.
Definition received (s : State) (p : Producer) : list Item := of_thread (thread_id (thread p)) (delivered s).

(** Everything that was recorded was delivered, once; a producer's records in the order in
    which it made them, except that those its late destructors made may overtake others. *)
Record delivered_all (s : State) : Prop := {
  da_once : delivered s ≡ₚ (log s).*2;
  da_split p : p ∈ producers s → recorded s p = own_records s p ++ late_records s p;
  da_shuffled p : p ∈ producers s → interleaved (own_records s p) (late_records s p) (received s p);
  da_in_order p : p ∈ producers s → destroyed (thread p) = false → received s p = recorded s p
}.

(** ** Equal slot by slot *)
Lemma at_slot_perm tags lg : (∀ k, at_slot k tags = at_slot k lg) → tags ≡ₚ lg.
Proof.
  revert lg; induction tags as [|[k x] tags IH]; intros lg H.
  - destruct lg as [|[j y] lg]; [done|]. specialize (H j). unfold at_slot in H. simpl in H.
    by rewrite Nat.eqb_refl in H.
  - assert (Hx : (k, x) ∈ lg).
    { apply elem_of_at_slot. rewrite <-H. apply elem_of_at_slot. set_solver. }
    assert (∃ l1 l2, lg = l1 ++ (k, x) :: l2 ∧ at_slot k l1 = []) as (l1 & l2 & -> & Hl1).
    { specialize (H k). unfold at_slot in H at 1. simpl in H. rewrite Nat.eqb_refl in H.
      clear -H. induction lg as [|[j y] lg IH]; [done|]. unfold at_slot in H. simpl in H.
      destruct (Nat.eqb_spec j k) as [->|Hne].
      - injection H as <- _. by exists [], lg.
      - destruct (IH H) as (l1 & l2 & -> & Hl1). exists ((j, y) :: l1), l2. split; [done|].
        unfold at_slot. simpl. apply Nat.eqb_neq in Hne. by rewrite Hne. }
    rewrite <-Permutation_middle. f_equiv. apply IH. intros j. specialize (H j).
    change ((k, x) :: tags) with ((pair k <$> [x]) ++ tags) in H. change ((k, x) :: l2) with ((pair k <$> [x]) ++ l2) in H.
    rewrite !at_slot_app in *. destruct (decide (j = k)) as [->|Hne].
    + rewrite at_slot_same, Hl1 in *. simpl in H. injection H as ->. done.
    + by rewrite at_slot_other in H by done.
Qed.

(** A part of a list that lies in one slot. *)
Lemma part_at_slot (q : nat * Item → bool) t k l :
  (∀ e, e ∈ l → entry_tid t e = true → q e = (e.1 =? k)%nat) →
  (List.filter q (List.filter (entry_tid t) l)).*2 = of_thread t (at_slot k l).
Proof.
  unfold at_slot, of_thread. induction l as [|[j x] l IH]; intros H; [done|].
  specialize (IH ltac:(set_solver)). specialize (H (j, x) ltac:(set_solver)). simpl. unfold entry_tid in *. simpl in *.
  destruct (item_tid x =? t) eqn:Ht.
  - simpl. rewrite H by done. destruct (j =? k)%nat; csimpl; [rewrite Ht; f_equal|]; exact IH.
  - destruct (j =? k)%nat; csimpl; [rewrite Ht|]; exact IH.
Qed.

Lemma of_thread_entries t (l : list (nat * Item)) : of_thread t l.*2 = (List.filter (entry_tid t) l).*2.
Proof.
  unfold of_thread. induction l as [|[j x] l IH]; [done|]. csimpl. unfold entry_tid at 1. simpl.
  destruct (item_tid x =? t); csimpl; by rewrite IH.
Qed.

Section same_slots.
Context (ts : list Thread) (t : Thread) (lg tags : list (nat * Item)).
Context (Hnm : named ts lg) (Ht : t ∈ ts) (Hk : ∀ k, at_slot k tags = at_slot k lg).

(** Outside the late slot the thread's entries lie in its own slot. *)
Lemma own_slot e : e ∈ lg → entry_tid (thread_id t) e = true → late e = false → slot t = Some e.1.
Proof. by apply (nm_slot _ _ Hnm). Qed.

Lemma own_part_at l :
  (∀ e, e ∈ l → e ∈ lg) →
  (own_part (thread_id t) l).*2 = match slot t with Some (S k) => of_thread (thread_id t) (at_slot (S k) l) | _ => [] end.
Proof.
  intros Hl. assert (Hown : ∀ e, e ∈ l → entry_tid (thread_id t) e = true → late e = false → slot t = Some e.1)
    by (intros e He; apply own_slot; auto).
  assert (Hnone : (∀ k, slot t ≠ Some (S k)) → own_part (thread_id t) l = []).
  { intros Hn. apply filter_none. intros e [He Hen]%list_elem_of_In%filter_In. apply list_elem_of_In in He.
    destruct (late e) eqn:Hle; [done|]. pose proof (Hown e He Hen Hle) as Hs. unfold late in Hle.
    destruct (e.1) as [|k]; [done|]. by destruct (Hn k). }
  destruct (slot t) as [[|k]|] eqn:Hs; [by rewrite Hnone| |by rewrite Hnone].
  apply part_at_slot. intros e He Hen. destruct (late e) eqn:Hle.
  - unfold late in Hle. apply Nat.eqb_eq in Hle as ->. done.
  - pose proof (Hown e He Hen Hle) as [= <-]. by rewrite Nat.eqb_refl.
Qed.

Lemma same_own : (own_part (thread_id t) tags).*2 = (own_part (thread_id t) lg).*2.
Proof.
  rewrite !own_part_at; [|auto|intros [k x]; rewrite <-!elem_of_at_slot; by rewrite Hk].
  destruct (slot t) as [[|k]|]; by rewrite ?Hk.
Qed.

Lemma same_late : (late_part (thread_id t) tags).*2 = (late_part (thread_id t) lg).*2.
Proof. unfold late_part. by rewrite !(part_at_slot _ _ 0), Hk. Qed.
End same_slots.

Lemma finished_tags s :
  inv s → wpc s = Finished → ∃ tags, tags.*2 = delivered s ∧ ∀ k, at_slot k tags = at_slot k (log s).
Proof.
  intros Hinv Hw. destruct (i_finished _ Hinv Hw) as [Hf Hq]. destruct (i_order _ Hinv) as (tags & Htags & Ho).
  exists tags. unfold queue_items in Htags. rewrite Hw, Hq in Htags. simpl in Htags. rewrite !app_nil_r in Htags.
  split; [done|]. intros k. rewrite <-Ho. pose proof (i_emptied _ Hinv Hf) as He. unfold items_at.
  destruct (slots (col s) !! k) as [x|] eqn:Hk; [|by rewrite app_nil_r].
  rewrite Forall_lookup in He. unfold slot_items. by rewrite (He k x Hk), app_nil_r.
Qed.

Lemma finished_delivered s : inv s → wpc s = Finished → delivered_all s.
Proof.
  intros Hinv Hw. destruct (finished_tags s Hinv Hw) as (tags & Htags & Hk).
  pose proof (i_named _ Hinv) as Hnm.
  assert (Hin : ∀ p, p ∈ producers s → thread p ∈ thread <$> producers s) by (intros; by apply list_elem_of_fmap_2).
  assert (Hsplit : ∀ p, p ∈ producers s → recorded s p = own_records s p ++ late_records s p).
  { intros p Hp. unfold recorded, own_records, late_records. rewrite of_thread_entries, <-fmap_app.
    by rewrite <-(nm_split _ _ Hnm) by auto. }
  assert (Hsh : ∀ p, p ∈ producers s → interleaved (own_records s p) (late_records s p) (received s p)).
  { intros p Hp. unfold received, own_records, late_records. rewrite <-Htags, of_thread_entries.
    rewrite <-(same_own _ _ _ _ Hnm (Hin p Hp) Hk), <-(same_late (thread p) _ _ Hk).
    apply interleaved_fmap, interleaved_swap, interleaved_filter. }
  split; [|done|done|].
  - rewrite <-Htags. by apply fmap_Permutation, at_slot_perm.
  - intros p Hp Hd. specialize (Hsplit p Hp). specialize (Hsh p Hp). unfold late_records in *.
    rewrite (nm_late _ _ Hnm) in * by auto. simpl in *. rewrite app_nil_r in Hsplit.
    rewrite Hsplit. by apply interleaved_nil_r in Hsh.
Qed.

(** C4: whenever the writer thread of the collector has ended, it has been given exactly the
    records the producers appended, each of them once.  A producer's records come in the
    order in which it appended them, however the threads interleave and through full
    buffers, flushes, pauses and the shutdown, as long as its thread-local variables live.
    What a thread records after their destruction goes to the late slot that such threads
    share; of such a thread the records are a shuffle of those before and those after, each
    in their own order. *)
Theorem shutdown_delivers_all s : reachable s → wpc s = Finished → delivered_all s.
Proof. intros Hr. apply finished_delivered. by apply Steps.runs_inv. Qed.

(** C36: from every reachable state of the collector the shutdown can be completed: the
    producers inside a call return without a panic, the count of producers reaches zero, the
    slots are collected, and the writer empties the queue and ends with every record, in
    order as in C4. *)
Theorem shutdown_completes s :
  reachable s →
  ∃ s', rtc step s s' ∧ wpc s' = Finished ∧ delivered_all s'.
Proof.
  intros Hinv%Steps.runs_inv. destruct (Completion.completes s Hinv) as (s' & Hr & Hw).
  exists s'. split_and!; [done..|]. apply finished_delivered; [by eapply Steps.rtc_inv|done].
Qed.

(** In every reachable state the 64-bit counters balance: the events dropped for want of
    a buffer are the values of the loss rows plus what the slots have still to report, and
    every allocation number handed out went to a record, a counted drop or a counted
    pause. *)
Theorem losses_accounted s :
  reachable s →
  wrap64 (total_dropped (col s)) = wrap64 (losses (log s).*2 + slot_drops (slots (col s))) ∧
  wrap64 (allocation_sequence (col s)) =
    wrap64 (allocations (log s).*2 + allocation_dropped (col s) + allocation_paused (col s)).
Proof. intros [H1 H2]%reachable_balanced. by split; apply eqm_wrap64. Qed.

Definition bounded (b : Buffer) : Prop := Z.of_nat (length (data b)) ≤ BUFFER_BYTES.

(** The collector's memory is bounded: the 64 buffers of the pool are never lost nor
    duplicated, and no buffer, queued or being filled, outgrows its 256 KiB. *)
Theorem buffers_conserved s :
  reachable s →
  (count_buffers (col s) + in_hand (wpc s))%nat = POOL_BUFFERS ∧
  Forall bounded (full (queue (col s))) ∧
  ∀ x b, x ∈ slots (col s) → buffer x = Some b → bounded b.
Proof.
  intros Hinv%Steps.runs_inv. split; [apply Hinv|].
  pose proof (pl_wf _ _ (i_places _ Hinv)) as [H1 _ H3]. split.
  - eapply Forall_impl; [done|]. by intros b (_ & Hb & _).
  - intros x b Hx Hb. rewrite Forall_forall in H3. destruct (H3 x Hx) as [_ Hs]. rewrite Hb in Hs. apply Hs.
Qed.

(** ** Running the system *)
Inductive Label := Go (i : nat) | Destroy (i : nat) | Finish | Write.

(** One step of the producer, of [finish] or of the writer that is named. *)
Definition next (s : State) (l : Label) : option State :=
  match l with
  | Go i =>
      p ← producers s !! i;
      match pc p with
      | Idle => None
      | Entered q =>
          Some (mkState (col s) (active s) (set_pc s i p (if admitted q (col s) then Working q else Leaving))
                  (fin s) (wpc s) (delivered s) (log s))
      | Working q =>
          match work q (col s) (thread p) with
          | Done (c', t') =>
              Some (mkState c' (active s) (<[i := mkProducer t' Leaving]> (producers s)) (fin s) (wpc s)
                      (delivered s) (log s ++ entries q (col s) (thread p)))
          | _ => None
          end
      | Leaving =>
          Some (mkState (col s) (active s - 1) (set_pc s i p Idle) (fin s) (wpc s) (delivered s) (log s))
      end
  | Destroy i =>
      p ← producers s !! i;
      match pc p with
      | Idle =>
          Some (mkState (col s) (active s) (<[i := mkProducer (destroy_locals (thread p)) Idle]> (producers s))
                  (fin s) (wpc s) (delivered s) (log s))
      | _ => None
      end
  | Finish =>
      match fin s with
      | Running =>
          Some (mkState (stop_accepting (col s)) (active s) (producers s) Stopping (wpc s) (delivered s) (log s))
      | Stopping =>
          if active s =? 0
          then Some (mkState (finish_collect (col s)) (active s) (producers s) Collected (wpc s)
                       (delivered s) (log s))
          else None
      | Collected => None
      end
  | Write =>
      match wpc s with
      | Polling =>
          match next_full (queue (col s)) with
          | (Ready b, q) =>
              Some (mkState (with_queue q (col s)) (active s) (producers s) (fin s) (Holding b)
                      (delivered s) (log s))
          | (Closed, _) =>
              Some (mkState (col s) (active s) (producers s) (fin s) Finished (delivered s) (log s))
          | (Wait, _) => None
          end
      | Holding b =>
          Some (mkState (release b (col s)) (active s) (producers s) (fin s) Polling
                  (delivered s ++ decode_buffer b) (log s))
      | Finished => None
      end
  end.

Fixpoint run (s : State) (ls : list Label) : option State :=
  match ls with [] => Some s | l :: ls => s ← next s l; run s ls end.

Lemma next_step s l s' : next s l = Some s' → step s s'.
Proof.
  destruct l as [i|i| |]; simpl; intros H.
  - destruct (producers s !! i) as [p|] eqn:Hi; [|done]. simpl in H.
    destruct (pc p) as [|q|q|] eqn:Hp; [done|..].
    + injection H as <-. destruct (admitted q (col s)) eqn:Ha; [by eapply accept|by eapply refuse].
    + destruct (work q (col s) (thread p)) as [[c' t']|] eqn:Hw; [|done]. injection H as <-. by eapply produce.
    + injection H as <-. by eapply leave.
  - destruct (producers s !! i) as [p|] eqn:Hi; [|done]. simpl in H.
    destruct (pc p) eqn:Hp; [|done..]. injection H as <-. by eapply destroy.
  - destruct (fin s) eqn:Hf; [|destruct (active s =? 0) eqn:Ha; [|done]|done]; injection H as <-.
    + by apply stop.
    + apply collect_; [done|]. by apply Z.eqb_eq.
  - destruct (wpc s) as [|b|] eqn:Hw; [|injection H as <-; by apply deliver|done].
    destruct (next_full _) as [[b| |] q] eqn:Hn; [| |done]; injection H as <-.
    + by apply take_buffer.
    + apply finished; [done|]. rewrite Hn. unfold next_full in Hn. repeat case_match; congruence.
Qed.

Lemma run_rtc s ls s' : run s ls = Some s' → rtc step s s'.
Proof.
  revert s; induction ls as [|l ls IH]; intros s; simpl; [by intros [= <-]|].
  destruct (next s l) as [s1|] eqn:Hn; [|done]. intros H. eapply rtc_l; [by eapply next_step|by apply IH].
Qed.

(** ** A run: a thread records an event, loses its local variables, records another, and
    the session ends *)
Definition demo_thread : Thread := mkThread 7 None 0 false false.
Definition demo_event (value_ : Z) : EventRecord := mkEvent 10 20 30 0 0 value_ 7 (kind_code Begin) 0.
Definition demo_start : State :=
  mkState (start (λ _, 1) 3 4).2 0 [mkProducer demo_thread Idle] Running Polling [] [].

Lemma demo_initial : initial demo_start.
Proof.
  split; try done.
  - exists (λ _, 1), 3, 4. unfold in_u32, in_u64. rewrite u32_max_val, u64_max_val. split_and!; [lia..|done].
  - by repeat constructor.
  - apply NoDup_singleton.
Qed.

Lemma demo_request c t value_ :
  thread_id t = 7 → 0 ≤ value_ < 100 → request_ok c t (Event (demo_event value_) [64; 65]).
Proof.
  intros Ht Hv. split; [|by rewrite Ht]. split; unfold in_u64, in_u32, MAX_FRAMES; rewrite ?u64_max_val, ?u32_max_val; simpl; try lia.
  by repeat (apply Forall_cons; split; [lia|]).
Qed.

(** The call of the only producer. *)
Definition demo_call (value_ : Z) (s : State) : State :=
  match producers s with
  | p :: _ => mkState (col s) (active s + 1) (set_pc s 0 p (Entered (Event (demo_event value_) [64; 65]))) (fin s)
                (wpc s) (delivered s) (log s)
  | [] => s
  end.
Definition demo_before : list Label := [Go 0; Go 0; Go 0; Destroy 0].
Definition demo_labels : list Label := [Go 0; Go 0; Go 0; Finish; Finish; Write; Write; Write; Write; Write].
Definition demo_mid : State := default demo_start (run (demo_call 5 demo_start) demo_before).
Definition demo_end : State := default demo_start (run (demo_call 6 demo_mid) demo_labels).

Lemma run_default s0 s ls :
  match run s ls with Some _ => true | None => false end = true → rtc step s (default s0 (run s ls)).
Proof. intros H. destruct (run s ls) as [s'|] eqn:E; [|done]. by apply run_rtc in E. Qed.

Lemma demo_call_step s p ps value_ :
  producers s = p :: ps → pc p = Idle → thread_id (thread p) = 7 → 0 ≤ value_ < 100 → step s (demo_call value_ s).
Proof.
  intros Hp Hpc Hid Hv. unfold demo_call. rewrite Hp. apply enter; [by rewrite Hp|done|by apply demo_request].
Qed.

Lemma demo_reachable : reachable demo_end.
Proof.
  exists demo_start. split; [apply demo_initial|].
  eapply rtc_l; [by apply (demo_call_step _ (mkProducer demo_thread Idle) [] 5)|].
  transitivity demo_mid; [apply run_default; vm_compute; reflexivity|].
  eapply rtc_l; [|apply run_default; vm_compute; reflexivity].
  apply (demo_call_step _ (mkProducer (mkThread 7 (Some 1%nat) 0 false true) Idle) [] 6); [vm_compute; reflexivity|done..].
Qed.

Definition demo_producer : Producer := mkProducer (mkThread 7 (Some 1%nat) 0 false true) Idle.

Lemma demo_producers : demo_producer ∈ producers demo_end.
Proof. apply list_elem_of_In. vm_compute. by left. Qed.

(** The late slot is the first of the session's list: here its record overtakes the other. *)
Lemma shutdown_delivers_all_witness :
  interleaved (own_records demo_end demo_producer) (late_records demo_end demo_producer)
    (received demo_end demo_producer) ∧
  length (own_records demo_end demo_producer) = 1%nat ∧ length (late_records demo_end demo_producer) = 1%nat ∧
  received demo_end demo_producer = reverse (recorded demo_end demo_producer).
Proof.
  split; [apply (da_shuffled _ (shutdown_delivers_all demo_end demo_reachable eq_refl) _ demo_producers)|].
  vm_compute. done.
Defined.

Lemma shutdown_completes_witness : ∃ s', rtc step demo_start s' ∧ wpc s' = Finished.
Proof.
  destruct (shutdown_completes demo_start) as (s' & H1 & H2 & _).
  - exists demo_start. split; [apply demo_initial|apply rtc_refl].
  - exists s'. by split.
Defined.

Lemma losses_accounted_witness :
  wrap64 (total_dropped (col demo_end)) = wrap64 (losses (log demo_end).*2 + slot_drops (slots (col demo_end))) ∧
  length (log demo_end) = 2%nat.
Proof. split; [apply (losses_accounted demo_end demo_reachable)|vm_compute; reflexivity]. Defined.

Lemma buffers_conserved_witness :
  (count_buffers (col demo_end) + in_hand (wpc demo_end))%nat = POOL_BUFFERS ∧ wpc demo_end = Finished.
Proof. split; [apply (buffers_conserved demo_end demo_reachable)|vm_compute; reflexivity]. Defined.
