(* ===== verification/AllocationSource.v ===== *)
(** * The allocation source

    The receiving end of the allocation channel ([libprof/src/source/allocations.rs] and
    [libprof/src/allocation.rs]): the worker that decodes the batches of the collector,
    checks their numbering and passes the records on, and the verdict of [stop] on whether
    every operation of the target was observed.

    [Module AllocationSource] has the worker's state, a turn of its loop and [stop]; the
    records are stored by the dispatcher, [Dispatcher.v]. *)

From S2P Require Import Prelude Words Sendable Allocation Channel.
Open Scope Z_scope.

Module AllocationSource.

(** ** Records of the domain ([libprof/src/allocation.rs]) *)
Inductive Attribution :=
| NotSelected
| Captured (frames : list Z)
| Unavailable
| Truncated (frames : list Z)
| UnwindError (frames : list Z).

Definition frames_of (a : Attribution) : list Z :=
  match a with Captured fs | Truncated fs | UnwindError fs => fs | NotSelected | Unavailable => [] end.

Definition attribution_code (a : Attribution) : Z :=
  match a with
  | NotSelected => 0 | Captured _ => 1 | Unavailable => 2 | Truncated _ => 3 | UnwindError _ => 4
  end.

Record DomainAllocation := mkDomain {
  d_pid : Z;
  d_process_epoch : Z;
  d_sequence : Z;
  d_timestamp_ns : Z;
  d_tid : Z;
  d_operation : Allocation.Operation;
  d_operation_id : Z;
  d_old_address : Z;
  d_address : Z;
  d_requested_bytes : Z;
  d_retires_old : bool;
  d_attribution : Attribution
}.

(** [domain_record]; the slice of the frames panics past their end. *)
Definition domain_record (a : Allocation.Allocation) : outcome DomainAllocation :=
  if Z.of_nat (length (Allocation.frames a)) <? Allocation.frame_count a then Panicked
  else
    let frames := take (Z.to_nat (Allocation.frame_count a)) (Allocation.frames a) in
    let status := Allocation.stack_status a in
    let attribution :=
      if status =? 0 then NotSelected
      else if status =? 1 then Captured frames
      else if status =? 2 then Unavailable
      else if status =? 3 then Truncated frames
      else UnwindError frames in
    Done (mkDomain (as_u32 (Allocation.pid a)) (Allocation.process_epoch a) (Allocation.sequence a)
            (Allocation.timestamp_ns a) (as_u32 (Allocation.tid a)) (Allocation.operation a)
            (Allocation.operation_id a) (Allocation.old_address a) (Allocation.address a)
            (Allocation.requested_bytes a) (Allocation.retires_old a) attribution).

(** ** The worker *)
Record Outcome := mkOutcome {
  o_footer : bool;
  o_records : Z;
  o_produced : Z;
  o_producer_dropped : Z;
  o_channel_dropped : Z;
  o_packets_dropped : Z;
  o_paused : Z;
  o_invalid : bool
}.

Definition default_outcome : Outcome := mkOutcome false 0 0 0 0 0 0 false.

(** The locals of the worker thread and what it gave to the sink. *)
Record Worker := mkWorker {
  result : Outcome;
  expected : Z;
  missing_packets : Z;
  sink : list DomainAllocation
}.

Definition new_worker : Worker := mkWorker default_outcome 1 0 [].

Definition set_invalid (o : Outcome) : Outcome :=
  mkOutcome (o_footer o) (o_records o) (o_produced o) (o_producer_dropped o) (o_channel_dropped o)
    (o_packets_dropped o) (o_paused o) true.
Definition count_record (o : Outcome) : Outcome :=
  mkOutcome (o_footer o) (wrapping_add (o_records o) 1) (o_produced o) (o_producer_dropped o)
    (o_channel_dropped o) (o_packets_dropped o) (o_paused o) (o_invalid o).

(** The loop over the records of a batch. *)
Definition take_record (root : Z) (w : Worker) (a : Allocation.Allocation) : outcome Worker :=
  if negb (Allocation.pid a =? root)
  then Done (mkWorker (set_invalid (result w)) (expected w) (missing_packets w) (sink w))
  else
    d ← domain_record a;
    Done (mkWorker (count_record (result w)) (expected w) (missing_packets w) (sink w ++ [d])).

(** The fields a batch overwrites. *)
Definition take_header (b : Allocation.Batch) (w : Worker) : Worker :=
  let o := result w in
  let bad := (Allocation.b_sequence b <? expected w) || o_footer o in
  mkWorker
    (mkOutcome (Allocation.footer b) (o_records o) (Allocation.produced b) (Allocation.producer_dropped b)
       (Allocation.channel_dropped_operations b) (o_packets_dropped o) (Allocation.paused b)
       (o_invalid o || bad))
    (wrapping_add (Allocation.b_sequence b) 1)
    (wrapping_add (missing_packets w) (saturating_sub (Allocation.b_sequence b) (expected w)))
    (sink w).

(** One packet. *)
Definition receive (root : Z) (w : Worker) (p : Allocation.Packet) : outcome Worker :=
  match Allocation.decode_batch p with
  | None => Done (mkWorker (set_invalid (result w)) (expected w) (missing_packets w) (sink w))
  | Some b => fold_outcome (take_record root) (Allocation.records b) (take_header b w)
  end.

Section channel.
Context {S : Type} `{Semaphore S}.
#[local] Existing Instance Allocation.packet_sendable.

(** One turn of [while let Some(packet) = receiver.try_recv()]; [None] when it ends. *)
Definition poll (size root : Z) (w : Worker) (r : Channel.Shared S)
    : outcome (option Worker * Channel.Shared S) :=
  '(p, r) ← Channel.try_recv size r;
  match p with
  | None => Done (None, r)
  | Some p => w ← receive root w p; Done (Some w, r)
  end.

(** After the last drain: what the channel has lost is compared with the gaps. *)
Definition conclude (w : Worker) (r : Channel.Shared S) : Outcome :=
  let o := result w in
  let dropped := Channel.dropped_count r in
  mkOutcome (o_footer o) (o_records o) (o_produced o) (o_producer_dropped o) (o_channel_dropped o) dropped
    (o_paused o) (o_invalid o || (dropped <? missing_packets w)).
End channel.

(** The verdict of [stop]. *)
Definition complete (o : Outcome) : bool :=
  o_footer o && negb (o_invalid o) && (o_producer_dropped o =? 0) && (o_channel_dropped o =? 0) &&
  (o_packets_dropped o =? 0) && (o_paused o =? 0) && (o_produced o =? o_records o).

Record Coverage := mkCoverage {
  c_pid : Z;
  c_complete : bool;
  c_footer : bool;
  c_produced : Z;
  c_observed_operations : Z;
  c_producer_dropped : Z;
  c_channel_dropped_operations : Z;
  c_channel_dropped_packets : Z;
  c_paused_operations : Z;
  c_invalid_protocol : bool;
  c_stack_every : Z
}.

(** The coverage record [stop] gives to the sink. *)
Definition coverage (root stack_every : Z) (o : Outcome) : Coverage :=
  mkCoverage root (complete o) (o_footer o) (o_produced o) (o_records o) (o_producer_dropped o)
    (o_channel_dropped o) (o_packets_dropped o) (o_paused o) (o_invalid o) stack_every.

End AllocationSource.
