(* ===== verification/AllocationSourceSpec.v ===== *)
(** * The verdict of the allocation source

    The writer of the collector, the channel and the worker of the source run together;
    the source calls a recording complete exactly when every operation reached it.

    - [Module Stream]: the worker over a stream of numbered batches;
    - [Module Pipeline]: the writer, the channel and the worker. *)

From S2P Require Import Prelude Words Sendable Allocation Channel ChannelSpec Collector AllocationSource.
Open Scope Z_scope.
Import Collector AllocationSource.

Module Stream.
Import Allocation.

Section stream.
Context (root : Z).

(** The worker on a decoded batch. *)
Definition accept (w : Worker) (b : Batch) : outcome Worker :=
  fold_outcome (take_record root) (records b) (take_header b w).

Lemma receive_encoded w b : batch_ok b → receive root w (encode_batch b) = accept w b.
Proof. intros Hb. unfold receive. by rewrite (decode_encode_batch b Hb). Qed.

Lemma domain_done a : allocation_ok a → ∃ d, domain_record a = Done d.
Proof.
  intros Ha. unfold domain_record. rewrite (ok_length _ Ha).
  rewrite (proj2 (Z.ltb_ge _ _)) by apply Ha. eauto.
Qed.

Definition passes (a : Allocation) (d : DomainAllocation) : Prop := domain_record a = Done d.
Definition own (rs : list Allocation) : list Allocation := List.filter (λ a, pid a =? root) rs.
Definition foreign (rs : list Allocation) : bool := existsb (λ a, negb (pid a =? root)) rs.

Lemma own_cons a rs : own (a :: rs) = if pid a =? root then a :: own rs else own rs.
Proof. done. Qed.
Lemma foreign_cons a rs : foreign (a :: rs) = negb (pid a =? root) || foreign rs.
Proof. done. Qed.

(** What the records of a batch do to the worker. *)
Record took (rs : list Allocation) (w w' : Worker) : Prop := {
  tk_sink : ∃ ds, Forall2 passes (own rs) ds ∧ sink w' = sink w ++ ds;
  tk_records : o_records (result w') =
    wrap64 (o_records (result w) + Z.of_nat (length (own rs)));
  tk_invalid : o_invalid (result w') = o_invalid (result w) || foreign rs;
  tk_expected : expected w' = expected w;
  tk_missing : missing_packets w' = missing_packets w;
  tk_header : o_footer (result w') = o_footer (result w) ∧
    o_produced (result w') = o_produced (result w) ∧
    o_producer_dropped (result w') = o_producer_dropped (result w) ∧
    o_channel_dropped (result w') = o_channel_dropped (result w) ∧
    o_paused (result w') = o_paused (result w)
}.

Lemma take_records rs w :
  Forall allocation_ok rs → in_u64 (o_records (result w)) →
  ∃ w', fold_outcome (take_record root) rs w = Done w' ∧ took rs w w'.
Proof.
  intros H. revert w. induction H as [|a rs Ha _ IH]; intros w Hw; cbn [fold_outcome].
  { exists w. split; [done|]. split; simpl; [|by rewrite Z.add_0_r, wrap64_small|by rewrite orb_false_r|done..].
    exists []. by rewrite app_nil_r. }
  unfold take_record at 1. destruct (Z.eqb_spec (pid a) root) as [Hp|Hp]; cbn [negb].
  - destruct (domain_done a Ha) as [d Hd]. rewrite Hd. cbn [mbind outcome_bind].
    destruct (IH (mkWorker (count_record (result w)) (expected w) (missing_packets w) (sink w ++ [d])))
      as (w' & -> & [(ds & Hds & Hs) Hr Hi He Hm Hh]); [apply wrap64_range|].
    exists w'. split; [done|]. split; rewrite ?own_cons, ?foreign_cons, ?(proj2 (Z.eqb_eq _ _) Hp); try done.
    + exists (d :: ds). split; [by constructor|]. rewrite Hs. simpl. by rewrite <-app_assoc.
    + rewrite Hr. simpl. unfold wrapping_add, wrap64. rewrite Zplus_mod_idemp_l. f_equal. lia.
  - destruct (IH (mkWorker (set_invalid (result w)) (expected w) (missing_packets w) (sink w)))
      as (w' & -> & [(ds & Hds & Hs) Hr Hi He Hm Hh]); [done|].
    exists w'. split; [done|]. split; rewrite ?own_cons, ?foreign_cons, ?(proj2 (Z.eqb_neq _ _) Hp); try done.
    + by exists ds.
    + rewrite Hi. simpl. by rewrite orb_true_r.
Qed.

Lemma accept_done w b :
  batch_ok b → in_u64 (o_records (result w)) →
  ∃ w', accept w b = Done w' ∧ took (records b) (take_header b w) w' ∧ in_u64 (o_records (result w')).
Proof.
  intros Hb Hw. destruct (take_records (records b) (take_header b w)) as (w' & E & Ht); [apply Hb|done|].
  exists w'. split_and!; [done..|]. rewrite (tk_records _ _ _ Ht). apply wrap64_range.
Qed.

Definition all_records (bs : list Batch) : list Allocation := concat (records <$> bs).

Lemma all_records_snoc bs b : all_records (bs ++ [b]) = all_records bs ++ records b.
Proof. unfold all_records. rewrite fmap_app, concat_app. simpl. by rewrite app_nil_r. Qed.

Lemma own_app rs rs' : own (rs ++ rs') = own rs ++ own rs'.
Proof. apply List.filter_app. Qed.
Lemma foreign_app rs rs' : foreign (rs ++ rs') = foreign rs || foreign rs'.
Proof. apply existsb_app. Qed.

(** Batches as a writer numbers them: from 1, the footer last. *)
Record numbered (bs : list Batch) : Prop := {
  nb_ok : Forall batch_ok bs;
  nb_sequence i b : bs !! i = Some b → b_sequence b = Z.of_nat i + 1;
  nb_footer i b : bs !! i = Some b → footer b = true → S i = length bs
}.

Lemma numbered_prefix bs bs' : numbered (bs ++ bs') → numbered bs.
Proof.
  intros [Hok Hseq Hf]. split.
  - by apply Forall_app in Hok as [? _].
  - intros i b Hi. apply Hseq. by apply lookup_app_l_Some.
  - intros i b Hi Hb. pose proof (lookup_lt_Some _ _ _ Hi).
    assert (Hl : S i = length (bs ++ bs')) by (eapply Hf; [by apply lookup_app_l_Some|done]).
    rewrite length_app in Hl. lia.
Qed.

(** The worker after it has seen all of [bs]. *)
Record summary (bs : list Batch) (w : Worker) : Prop := {
  sm_sink : Forall2 passes (own (all_records bs)) (sink w);
  sm_records : o_records (result w) = wrap64 (Z.of_nat (length (own (all_records bs))));
  sm_invalid : o_invalid (result w) = foreign (all_records bs);
  sm_expected : expected w = 1 + Z.of_nat (length bs);
  sm_missing : missing_packets w = 0;
  sm_header :
    match last bs with
    | None => o_footer (result w) = false
    | Some b =>
        o_footer (result w) = footer b ∧ o_produced (result w) = produced b ∧
        o_producer_dropped (result w) = producer_dropped b ∧
        o_channel_dropped (result w) = channel_dropped_operations b ∧
        o_paused (result w) = paused b
    end
}.

Lemma summary_snoc bs b w w' :
  numbered (bs ++ [b]) → Z.of_nat (length bs) < u64_max - 1 → summary bs w →
  took (records b) (take_header b w) w' → summary (bs ++ [b]) w'.
Proof.
  intros [_ Hseq Hfoot] Hlen [Hs Hr Hi He Hm Hh] [(ds & Hds & Tsink) Tr Ti Te Tm Th].
  assert (Hb : b_sequence b = Z.of_nat (length bs) + 1) by (apply Hseq, list_lookup_middle; done).
  assert (Hnf : o_footer (result w) = false).
  { destruct (last bs) as [b0|] eqn:Hl; [|done]. destruct Hh as (-> & _). destruct (footer b0) eqn:Hf; [|done].
    rewrite last_lookup in Hl. pose proof (lookup_lt_Some _ _ _ Hl). apply (lookup_app_l_Some _ [b]) in Hl. apply Hfoot in Hl; [|done].
    rewrite length_app in Hl. simpl in Hl. lia. }
  split; rewrite ?all_records_snoc, ?own_app, ?foreign_app.
  - rewrite Tsink. by apply Forall2_app.
  - rewrite Tr. simpl. rewrite Hr, length_app. unfold wrap64. rewrite Zplus_mod_idemp_l. f_equal. lia.
  - rewrite Ti. simpl. rewrite Hi, Hnf, He, Hb. rewrite (proj2 (Z.ltb_ge _ _)) by lia. by rewrite orb_false_r.
  - rewrite Te. simpl. rewrite Hb, length_app. simpl. unfold wrapping_add. rewrite wrap64_small; unfold in_u64; lia.
  - rewrite Tm. simpl. rewrite Hm, He, Hb. unfold saturating_sub.
    replace (Z.max _ 0) with 0 by lia. done.
  - rewrite last_snoc. destruct Th as (-> & -> & -> & -> & ->). done.
Qed.

Lemma accept_numbered bs :
  numbered bs → Z.of_nat (length bs) < u64_max →
  ∃ w, fold_outcome accept bs new_worker = Done w ∧ summary bs w.
Proof.
  induction bs as [|b bs IH] using rev_ind; intros Hn Hl.
  { exists new_worker. split; [done|]. by split. }
  rewrite length_app in Hl. simpl in Hl.
  destruct IH as (w & E & Hw); [by eapply numbered_prefix|lia|].
  assert (Hb : batch_ok b) by (destruct Hn as [Hok _ _]; apply Forall_app in Hok as [_ Hok]; by apply Forall_cons in Hok as [? _]).
  destruct (accept_done w b Hb) as (w' & E' & Ht & _); [rewrite (sm_records _ _ Hw); apply wrap64_range|].
  exists w'. rewrite fold_outcome_app, E. cbn [fold_outcome]. rewrite E'. split; [done|].
  eapply summary_snoc; [done|lia|done|done].
Qed.
End stream.
End Stream.

(** ** The writer, the channel and the worker *)
Module Pipeline.
Import Allocation Stream Queue.

Section pipeline.
Context {S : Type} `{Semaphore S} `{!SemaphoreLaws S}.
Context (size root : Z).

(** [sent] is a ghost variable: the batches the writer has handed to the channel. *)
Record System := mkSystem {
  writer : Writer;
  channel : Channel.Shared S;
  worker : Worker;
  sent : list Batch
}.

(** A batch for a chunk of records, the footer, or a turn of the worker; the collector's
    counters are those of the moment. *)
Inductive Act := SendBatch (c : Collector) (rs : list Allocation) | SendFooter (c : Collector) | Poll.

Definition act (s : System) (a : Act) : outcome System :=
  match a with
  | SendBatch c rs =>
      '(w, r) ← send_batch size c (writer s, channel s) rs;
      Done (mkSystem w r (worker s) (sent s ++ [batch_of c (writer s) false rs]))
  | SendFooter c =>
      '(w, r) ← send_footer size c (writer s, channel s);
      Done (mkSystem w r (worker s) (sent s ++ [batch_of c (writer s) true []]))
  | Poll =>
      '(w, r) ← poll size root (worker s) (channel s);
      Done (mkSystem (writer s) r (default (worker s) w) (sent s))
  end.

Definition counters_ok (c : Collector) : Prop :=
  in_u64 (allocation_sequence c) ∧ in_u64 (allocation_dropped c) ∧ in_u64 (allocation_paused c).

Definition act_ok (a : Act) : Prop :=
  match a with
  | SendBatch c rs => counters_ok c ∧ Forall allocation_ok rs ∧ (length rs ≤ 512)%nat
  | SendFooter c => counters_ok c
  | Poll => True
  end.

Definition is_send (a : Act) : bool := match a with Poll => false | _ => true end.
Definition is_footer (a : Act) : bool := match a with SendFooter _ => true | _ => false end.

(** The writer sends the footer once, at its end. *)
Fixpoint footer_last (acts : list Act) : Prop :=
  match acts with
  | [] => True
  | a :: acts => (if is_footer a then forallb (λ a, negb (is_send a)) acts = true else True) ∧ footer_last acts
  end.

Definition fresh_writer : Writer := mkWriter 0 [] [] [] [] ∅ 0 0.
Definition start_system (r : Channel.Shared S) : System := mkSystem fresh_writer r new_worker [].

(** ** Sending *)
Lemma send_outcome (r : Channel.Shared S) (qs : queue_state Packet) p :
  reliable (S := S) → represents size r qs →
  ∃ r', Channel.send_sync size p r = Done (true, r') ∧
    represents size r' (queue_step size qs (Send p)).2.
Proof.
  intros HR Hrep. destruct (send_step size r qs p HR Hrep) as (r' & E & Hr'). simpl in E.
  destruct (Channel.send_sync size p r) as [[ok r1]|] eqn:Es; [|done]. cbn in E. injection E as <-.
  exists r1. split; [|done]. f_equal. f_equal. unfold Channel.send_sync, Channel.send_bytes in Es.
  destruct (Channel.record_length _); [|by injection Es].
  case_match; [by injection Es|]. destruct (Channel.write_wrapped _ _ _ _); [|done]. cbn in Es.
  destruct (Channel.write_wrapped _ _ _ _); [|done]. cbn in Es. injection Es as Es. unfold Channel.post_sem in Es.
  match type of Es with context [sem_post ?x] => destruct (proj1 HR x) as [s' Hs'] end.
  rewrite Hs' in Es. by injection Es as <- _.
Qed.

(** What has been sent is in the worker, in the queue, or counted as lost. *)
Record carried (s : System) (qs : queue_state Packet) (rb qb : list Batch) (nd : nat) : Prop := {
  ca_channel : represents size (channel s) qs;
  ca_queue : queue qs = encode_batch <$> qb;
  ca_ok : Forall batch_ok qb;
  ca_lost : lost qs = Z.of_nat nd;
  ca_bound : (nd ≤ length (sent s))%nat;
  ca_sent : nd = 0%nat → rb ++ qb = sent s;
  ca_dropped : nd = 0%nat → Collector.channel_dropped_operations (writer s) = 0;
  ca_clean : nd = 0%nat → Forall (λ b, channel_dropped_operations b = 0) (sent s);
  ca_worker : fold_outcome (accept root) rb new_worker = Done (worker s);
  ca_records : in_u64 (o_records (result (worker s)))
}.

Record inv (s : System) : Prop := {
  iv_carried : ∃ qs rb qb nd, carried s qs rb qb nd;
  iv_sequence : batch_sequence (writer s) = Z.of_nat (length (sent s));
  iv_range : in_u64 (Collector.channel_dropped_operations (writer s));
  iv_numbered : numbered (sent s)
}.

Definition open_ (s : System) : Prop := Forall (λ b, footer b = false) (sent s).

Lemma numbered_snoc bs b :
  numbered bs → Forall (λ b, footer b = false) bs → batch_ok b → b_sequence b = Z.of_nat (length bs) + 1 →
  numbered (bs ++ [b]).
Proof.
  intros [Hok Hseq Hf] Hopen Hb Hs. rewrite Forall_lookup in Hopen. split.
  - apply Forall_app. split; [done|]. by apply Forall_singleton.
  - intros i b' [Hi|[Hge Hi]]%lookup_app_Some; [by apply Hseq|].
    apply list_lookup_singleton_Some in Hi as [Hi <-]. rewrite Hs. lia.
  - intros i b' [Hi|[Hge Hi]]%lookup_app_Some; [intros Hft; apply Hopen in Hi; congruence|].
    apply list_lookup_singleton_Some in Hi as [Hi _]. rewrite length_app. simpl. lia.
Qed.

(** A send keeps the invariant, whether the packet fits or not. *)
Lemma send_inv s b w' r' :
  inv s → open_ s → batch_ok b → b_sequence b = Z.of_nat (length (sent s)) + 1 →
  channel_dropped_operations b = Collector.channel_dropped_operations (writer s) →
  Z.of_nat (length (sent s)) + 1 < u64_max →
  (∀ qs, represents size (channel s) qs → represents size r' (queue_step size qs (Send (encode_batch b))).2) →
  batch_sequence w' = Z.of_nat (length (sent s)) + 1 →
  in_u64 (Collector.channel_dropped_operations w') →
  (Channel.dropped_count r' = Channel.dropped_count (channel s) →
   Collector.channel_dropped_operations w' = Collector.channel_dropped_operations (writer s)) →
  inv (mkSystem w' r' (worker s) (sent s ++ [b])).
Proof.
  intros [(qs & rb & qb & nd & [Hrep Hq Hqb Hl Hb Hs Hd Hcl Hw Hr]) Hseq Hrange Hnum] Hopen Hok Hbs Hbd Hlen Hsend Hw' Hcr Hcd.
  specialize (Hsend qs Hrep). split; simpl; [|by rewrite length_app; simpl; lia|done|by apply numbered_snoc].
  pose proof (rep_lost _ _ _ Hrep) as Hl0. pose proof (rep_lost _ _ _ Hsend) as Hl1. unfold Channel.dropped_count in Hcd.
  cbn [queue_step snd] in Hsend, Hl1.
  match type of Hsend with context [if ?x then _ else _] => destruct x eqn:Hfit end.
  - eexists _, rb, (qb ++ [b]), nd. split; [exact Hsend|..]; simpl; [|..|done|done].
    + by rewrite Hq, fmap_app.
    + apply Forall_app. by split; [|apply Forall_singleton].
    + done.
    + rewrite length_app. lia.
    + intros ->. by rewrite app_assoc, Hs.
    + intros Hnd. rewrite Hcd; [auto|]. simpl in Hl1. congruence.
    + intros Hnd. apply Forall_app. split; [auto|]. apply Forall_singleton. rewrite Hbd. auto.
  - eexists _, rb, qb, (Datatypes.S nd). split; [exact Hsend|..]; simpl; try done.
    + rewrite Hl. unfold wrapping_add. rewrite wrap64_small; unfold in_u64; lia.
    + rewrite length_app. simpl. lia.
Qed.

Lemma batch_of_ok c w ft rs :
  counters_ok c → in_u64 (Collector.channel_dropped_operations w) → Forall allocation_ok rs →
  (length rs ≤ 512)%nat → batch_ok (batch_of c w ft rs).
Proof.
  intros (H1 & H2 & H3) Hd Hrs Hl. split; simpl; [|done|].
  - repeat (apply Forall_cons; split); [apply wrap64_range|done..|by apply Forall_nil].
  - change (Z.of_nat RECORD_BYTES) with 360. rewrite u64_max_val. lia.
Qed.

Lemma batch_of_sequence s c ft rs :
  inv s → Z.of_nat (length (sent s)) + 1 < u64_max →
  b_sequence (batch_of c (writer s) ft rs) = Z.of_nat (length (sent s)) + 1 ∧
  wrapping_add (batch_sequence (writer s)) 1 = Z.of_nat (length (sent s)) + 1.
Proof.
  intros Hinv Hl. cbn [batch_of b_sequence]. rewrite (iv_sequence _ Hinv). unfold wrapping_add.
  rewrite wrap64_small; [done|]. unfold in_u64. lia.
Qed.

Lemma send_batch_act s c rs :
  reliable (S := S) → inv s → open_ s → act_ok (SendBatch c rs) → Z.of_nat (length (sent s)) + 1 < u64_max →
  ∃ s', act s (SendBatch c rs) = Done s' ∧ inv s' ∧ sent s' = sent s ++ [batch_of c (writer s) false rs].
Proof.
  intros HR Hinv Hopen (Hc & Hrs & Hl) Hlen. cbn [act]. unfold send_batch.
  pose proof Hinv as [(qs & rb & qb & nd & Hca) _ Hrange _].
  destruct (send_outcome _ _ (encode_batch (batch_of c (writer s) false rs)) HR (ca_channel _ _ _ _ _ Hca)) as (r' & E & _).
  destruct (batch_of_sequence s c false rs Hinv Hlen) as [Hb1 Hb2].
  rewrite E. cbn [mbind outcome_bind negb orb]. eexists. split; [reflexivity|]. split; [|done].
  apply send_inv; [done|done|by apply batch_of_ok|done|done|done| |done| |].
  - intros qs' Hrep. destruct (send_outcome _ _ (encode_batch (batch_of c (writer s) false rs)) HR Hrep) as (r1 & E1 & Hr1).
    rewrite E in E1. by injection E1 as <-.
  - simpl. destruct (negb _); [apply wrap64_range|done].
  - intros Hd. simpl. rewrite Hd, Z.eqb_refl. done.
Qed.

Lemma send_footer_act s c :
  reliable (S := S) → inv s → open_ s → counters_ok c → Z.of_nat (length (sent s)) + 1 < u64_max →
  ∃ s', act s (SendFooter c) = Done s' ∧ inv s' ∧ sent s' = sent s ++ [batch_of c (writer s) true []].
Proof.
  intros HR Hinv Hopen Hc Hlen. cbn [act]. unfold send_footer.
  pose proof Hinv as [(qs & rb & qb & nd & Hca) _ Hrange _].
  destruct (send_outcome _ _ (encode_batch (batch_of c (writer s) true [])) HR (ca_channel _ _ _ _ _ Hca)) as (r' & E & _).
  destruct (batch_of_sequence s c true [] Hinv Hlen) as [Hb1 Hb2].
  rewrite E. cbn [mbind outcome_bind]. eexists. split; [reflexivity|]. split; [|done].
  apply send_inv; [done|done|apply batch_of_ok; [done|done|done|simpl; lia]|done|done|done| |done|done|done].
  intros qs' Hrep. destruct (send_outcome _ _ (encode_batch (batch_of c (writer s) true [])) HR Hrep) as (r1 & E1 & Hr1).
  rewrite E in E1. by injection E1 as <-.
Qed.

(** A turn of the worker takes the oldest packet. *)
Lemma poll_act s :
  reliable (S := S) → inv s → ∃ s', act s Poll = Done s' ∧ inv s' ∧ sent s' = sent s.
Proof.
  intros HR [(qs & rb & qb & nd & [Hrep Hq Hqb Hl Hb Hs Hd Hcl Hw Hr]) Hseq Hrange Hnum].
  destruct (try_step size (channel s) qs HR Hrep) as (o & r' & E & Ho & Hrep'). simpl in E.
  cbn [act]. unfold poll. destruct (Channel.try_recv size (channel s)) as [[m r1]|] eqn:Et; [|done].
  cbn in E. injection E as <- <-. cbn [mbind outcome_bind]. cbn [queue_step fst snd] in Ho, Hrep'. rewrite Hq in Ho, Hrep'.
  destruct qb as [|b qb]; cbn [fmap list_fmap fst snd] in Ho, Hrep'; injection Ho as <-.
  - eexists. split; [reflexivity|]. split; [|done]. split; [|done..]. exists qs, rb, [], nd. by split.
  - apply Forall_cons in Hqb as [Hb0 Hqb]. rewrite (receive_encoded root _ b Hb0).
    destruct (accept_done root (worker s) b Hb0 Hr) as (w' & Ew & _ & Hr'). rewrite Ew. cbn [mbind outcome_bind].
    eexists. split; [reflexivity|]. split; [|done]. split; [|done..]. simpl.
    eexists _, (rb ++ [b]), qb, nd. split; [exact Hrep'|done|done|done|done|..]; simpl; [|done|done| |done].
    + intros Hnd. by rewrite <-app_assoc, <-Hs.
    + rewrite fold_outcome_app, Hw. cbn [fold_outcome]. by rewrite Ew.
Qed.

(** ** Runs *)
Definition act_records (a : Act) : list Allocation := match a with SendBatch _ rs => rs | _ => [] end.
Definition records_of (acts : list Act) : list Allocation := concat (act_records <$> acts).

Fixpoint footer_of (acts : list Act) : option Collector :=
  match acts with
  | [] => None
  | SendFooter c :: _ => Some c
  | _ :: acts => footer_of acts
  end.

(** No send is left once the footer has been sent. *)
Definition ready (s : System) (acts : list Act) : Prop :=
  open_ s ∨ forallb (λ a, negb (is_send a)) acts = true.

(** What the acts have sent: their records, and the footer last. *)
Record sends (acts : list Act) (new : list Batch) : Prop := {
  se_records : all_records new = records_of acts;
  se_length : (length new ≤ length acts)%nat;
  se_none : forallb (λ a, negb (is_send a)) acts = true → new = [];
  se_footer :
    match footer_of acts with
    | Some c => ∃ bs w, new = bs ++ [batch_of c w true []]
    | None => Forall (λ b, footer b = false) new
    end
}.

Lemma sends_batch c w rs acts new :
  sends acts new → sends (SendBatch c rs :: acts) (batch_of c w false rs :: new).
Proof.
  intros [Hr Hl Hn Hf]. split; [|simpl; lia|done|].
  - unfold all_records, records_of in *. cbn. by rewrite Hr.
  - cbn [footer_of]. destruct (footer_of acts) as [c'|]; [|by constructor].
    destruct Hf as (bs & w' & ->). by exists (batch_of c w false rs :: bs), w'.
Qed.

Lemma sends_footer c w acts new :
  forallb (λ a, negb (is_send a)) acts = true → sends acts new →
  sends (SendFooter c :: acts) (batch_of c w true [] :: new).
Proof.
  intros Hno [Hr Hl Hn Hf]. rewrite (Hn Hno) in *. split; [|simpl; lia|done|by exists [], w].
  unfold all_records, records_of in *. cbn in *. by rewrite <-Hr.
Qed.

Lemma open_snoc s s' b : sent s' = sent s ++ [b] → open_ s → footer b = false → open_ s'.
Proof. unfold open_. intros -> Ho Hb. apply Forall_app. split; [done|]. by apply Forall_singleton. Qed.

Lemma run_spec acts : ∀ s,
  reliable (S := S) → inv s → Forall act_ok acts → footer_last acts → ready s acts →
  Z.of_nat (length (sent s) + length acts) < u64_max →
  ∃ s' new, fold_outcome act acts s = Done s' ∧ inv s' ∧ sent s' = sent s ++ new ∧ sends acts new.
Proof.
  induction acts as [|a acts IH]; intros s HR Hinv Hok Hfl Hready Hlen.
  { exists s, []. rewrite app_nil_r. split_and!; [done..|]. split; [done|done|done|constructor]. }
  apply Forall_cons in Hok as [Ha Hok]. destruct Hfl as [Hf Hfl]. simpl in Hlen.
  assert (Hopen : is_send a = true → open_ s).
  { intros Hsend. destruct Hready as [|Hno]; [done|]. simpl in Hno. by rewrite Hsend in Hno. }
  destruct a as [c rs|c|]; cbn [is_send is_footer] in Hopen, Hf.
  - specialize (Hopen eq_refl). destruct (send_batch_act s c rs HR Hinv Hopen Ha) as (s1 & E & Hinv1 & Hs1); [lia|].
    destruct (IH s1) as (s' & new & E' & Hinv' & Hnew & Hse);
      [done..|left; by eapply open_snoc|rewrite Hs1, length_app; simpl; lia|].
    exists s', (batch_of c (writer s) false rs :: new). cbn [fold_outcome]. rewrite E.
    split_and!; [done|done|by rewrite Hnew, Hs1, <-app_assoc|by apply sends_batch].
  - specialize (Hopen eq_refl). destruct (send_footer_act s c HR Hinv Hopen Ha) as (s1 & E & Hinv1 & Hs1); [lia|].
    destruct (IH s1) as (s' & new & E' & Hinv' & Hnew & Hse);
      [done..|by right|rewrite Hs1, length_app; simpl; lia|].
    exists s', (batch_of c (writer s) true [] :: new). cbn [fold_outcome]. rewrite E.
    split_and!; [done|done|by rewrite Hnew, Hs1, <-app_assoc|by apply sends_footer].
  - destruct (poll_act s HR Hinv) as (s1 & E & Hinv1 & Hs1).
    destruct (IH s1) as (s' & new & E' & Hinv' & Hnew & [Hr Hsl Hn Hft]); [done..| |rewrite Hs1; lia|].
    { destruct Hready as [Ho|Hno]; [left; unfold open_ in *; by rewrite Hs1|by right]. }
    exists s', new. cbn [fold_outcome]. rewrite E. split_and!; [done|done|by rewrite Hnew, Hs1|]. split; [done|simpl; lia|done|done].
Qed.

(** ** The verdict *)

(** Every packet arrived, the last one was the footer, and its counters are clean. *)
Definition everything (acts : list Act) (s : System) : Prop :=
  Channel.dropped_count (channel s) = 0 ∧ Channel.empty (channel s) = true ∧
  Forall (λ a, pid a = root) (records_of acts) ∧
  ∃ c, footer_of acts = Some c ∧ allocation_dropped c = 0 ∧ allocation_paused c = 0 ∧
       allocation_sequence c = Z.of_nat (length (records_of acts)).

Lemma foreign_false rs : foreign root rs = false ↔ Forall (λ a, pid a = root) rs.
Proof.
  induction rs as [|a rs IH]; [done|]. rewrite foreign_cons, orb_false_iff, Forall_cons, IH.
  destruct (Z.eqb_spec (pid a) root); simpl; naive_solver.
Qed.
Lemma own_all rs : Forall (λ a, pid a = root) rs → own root rs = rs.
Proof. induction 1 as [|a rs Ha _ IH]; [done|]. by rewrite own_cons, (proj2 (Z.eqb_eq _ _) Ha), IH. Qed.

Lemma start_system_inv r : represents size r (empty_queue (T := Packet)) → inv (start_system r).
Proof.
  intros Hrep. split; [|done|unfold in_u64; simpl; rewrite u64_max_val; lia|split; [done|by intros ? ?..]].
  by exists empty_queue, [], [], 0%nat.
Qed.

Lemma channel_empty s qs rb qb nd : carried s qs rb qb nd → Channel.empty (channel s) = true ↔ qb = [].
Proof.
  intros Hca. destruct (rep_holds _ _ _ (ca_channel _ _ _ _ _ Hca)) as (h & t & Hh).
  rewrite (Fifo.holds_empty _ _ _ _ _ Hh), bool_decide_eq_true, (ca_queue _ _ _ _ _ Hca). by destruct qb.
Qed.

(** The verdict on a worker that has seen all the batches [new]. *)
Lemma verdict_all acts new w (r : Channel.Shared S) c bs w0 :
  summary root new w → sends acts new → new = bs ++ [batch_of c w0 true []] → footer_of acts = Some c →
  Collector.channel_dropped_operations w0 = 0 → Channel.dropped_count r = 0 →
  counters_ok c → Z.of_nat (length (records_of acts)) ≤ u64_max →
  complete (conclude w r) = true ↔
  Forall (λ a, pid a = root) (records_of acts) ∧ allocation_dropped c = 0 ∧ allocation_paused c = 0 ∧
  allocation_sequence c = Z.of_nat (length (records_of acts)).
Proof.
  intros [Hs Hr Hi He Hm Hh] [Hrec _ _ _] Hnew Hf Hd Hdc Hc Hlen.
  rewrite Hnew, last_snoc in Hh. destruct Hh as (Hft & Hpr & Hpd & Hcd & Hpa). simpl in *.
  rewrite Hrec in Hi, Hr. unfold complete, conclude. simpl.
  rewrite Hft, Hpr, Hpd, Hcd, Hpa, Hd, Hdc, Hm, Hi, Hr. simpl.
  rewrite orb_false_r, <-foreign_false. destruct (foreign root (records_of acts)) eqn:Hfo; simpl; [naive_solver|].
  rewrite own_all, wrap64_small by (first [by apply foreign_false|unfold in_u64; lia]).
  rewrite !andb_true_iff, !Z.eqb_eq. naive_solver.
Qed.

Lemma footer_counters acts c : Forall act_ok acts → footer_of acts = Some c → counters_ok c.
Proof.
  induction 1 as [|a acts Ha _ IH]; [done|]. destruct a; simpl in *; [done| |done]. by intros [= <-].
Qed.

(** The footer the worker has seen is the last batch sent. *)
Lemma footer_seen s qs rb qb :
  carried s qs rb qb 0 → numbered (sent s) → Z.of_nat (length (sent s)) < u64_max →
  summary root rb (worker s) ∧ (o_footer (result (worker s)) = true → qb = []).
Proof.
  intros Hca Hn Hl. pose proof (ca_sent _ _ _ _ _ Hca eq_refl) as Hs. rewrite <-Hs in Hn, Hl.
  rewrite length_app in Hl.
  destruct (accept_numbered root rb) as (w & E & Hw); [by eapply numbered_prefix|lia|].
  rewrite (ca_worker _ _ _ _ _ Hca) in E. injection E as <-. split; [done|].
  pose proof (sm_header _ _ _ Hw) as Hh. destruct (last rb) as [b|] eqn:Hlast; [|congruence].
  destruct Hh as (-> & _). intros Hf. rewrite last_lookup in Hlast. pose proof (lookup_lt_Some _ _ _ Hlast).
  assert (Hi : (Datatypes.S (pred (length rb)) = length (rb ++ qb))%nat)
    by (eapply nb_footer; [done|by apply lookup_app_l_Some|done]).
  rewrite length_app in Hi. apply length_zero_iff_nil. lia.
Qed.

Lemma last_footer acts s qs rb qb :
  carried s qs rb qb 0 → summary root rb (worker s) → sends acts (sent s) → qb = [] →
  (o_footer (result (worker s)) = true ∨ ∃ c, footer_of acts = Some c) →
  ∃ c bs w0, footer_of acts = Some c ∧ sent s = bs ++ [batch_of c w0 true []] ∧
    Collector.channel_dropped_operations w0 = 0.
Proof.
  intros Hca Hsum Hse -> Hc. pose proof (ca_sent _ _ _ _ _ Hca eq_refl) as Hs.
  pose proof (ca_clean _ _ _ _ _ Hca eq_refl) as Hcl. rewrite app_nil_r in Hs. subst rb.
  pose proof (se_footer _ _ Hse) as Hf. destruct (footer_of acts) as [c|].
  - destruct Hf as (bs & w0 & E). exists c, bs, w0. split_and!; [done..|].
    rewrite E in Hcl. apply Forall_app in Hcl as [_ Hcl]. by apply Forall_cons in Hcl as [? _].
  - exfalso. destruct Hc as [Hc|[? [=]]]. pose proof (sm_header _ _ _ Hsum) as Hh.
    destruct (last (sent s)) as [b|] eqn:Hl; [|congruence]. destruct Hh as (Hh & _).
    rewrite Forall_lookup in Hf. rewrite last_lookup in Hl. apply Hf in Hl. congruence.
Qed.

Lemma verdict acts s :
  inv s → sends acts (sent s) → Forall act_ok acts → Z.of_nat (length (sent s)) < u64_max →
  Z.of_nat (length (records_of acts)) ≤ u64_max →
  (complete (conclude (worker s) (channel s)) = true ↔ everything acts s) ∧
  (everything acts s → Forall2 passes (records_of acts) (sink (worker s))).
Proof.
  intros [(qs & rb & qb & nd & Hca) _ _ Hnum] Hse Hok Hlen Hrec.
  pose proof (channel_empty _ _ _ _ _ Hca) as Hempty.
  assert (Hd : Channel.dropped_count (channel s) = Z.of_nat nd).
  { unfold Channel.dropped_count. by rewrite (rep_lost _ _ _ (ca_channel _ _ _ _ _ Hca)), (ca_lost _ _ _ _ _ Hca). }
  destruct nd as [|nd]; cycle 1.
  { split; [|intros [E _]; lia]. split; [|intros [E _]; lia].
    unfold complete, conclude. simpl. rewrite !andb_true_iff, !Z.eqb_eq. lia. }
  destruct (footer_seen _ _ _ _ Hca Hnum Hlen) as [Hsum Hfoot].
  pose proof (ca_sent _ _ _ _ _ Hca eq_refl) as Hs.
  assert (Hlast := λ Hq Hc, last_footer acts s qs rb qb Hca Hsum Hse Hq Hc).
  assert (Hall : qb = [] → rb = sent s) by (intros ->; by rewrite app_nil_r in Hs).
  split; [split|].
  - intros Hc. assert (Hq : qb = []).
    { apply Hfoot. unfold complete in Hc. rewrite !andb_true_iff in Hc. apply Hc. }
    destruct (Hlast Hq) as (c & bs & w0 & Hfc & Hbs & Hz).
    { left. unfold complete in Hc. rewrite !andb_true_iff in Hc. apply Hc. }
    rewrite (Hall Hq) in Hsum.
    apply (verdict_all acts (sent s) (worker s) (channel s) c bs w0 Hsum Hse Hbs Hfc Hz Hd
             (footer_counters _ _ Hok Hfc) Hrec) in Hc as (H1 & H2 & H3 & H4).
    split_and!; [by rewrite Hd|by apply Hempty|done|by exists c].
  - intros (_ & He & Hpid & c & Hfc & H2 & H3 & H4). apply Hempty in He.
    destruct (Hlast He) as (c' & bs & w0 & Hfc' & Hbs & Hz); [by right; exists c|].
    rewrite Hfc in Hfc'. injection Hfc' as <-. rewrite (Hall He) in Hsum.
    by apply (verdict_all acts (sent s) (worker s) (channel s) c bs w0 Hsum Hse Hbs Hfc Hz Hd
                (footer_counters _ _ Hok Hfc) Hrec).
  - intros (_ & He & Hpid & _). apply Hempty in He. rewrite (Hall He) in Hsum.
    pose proof (sm_sink _ _ _ Hsum) as Hsink. rewrite (se_records _ _ Hse), own_all in Hsink; done.
Qed.
End pipeline.
End Pipeline.

Import Stream Pipeline.
#[local] Existing Instance Allocation.packet_sendable.
#[local] Existing Instance Allocation.packet_sendable_laws.

(** C19: the source reports a recording as complete exactly when every batch of the
    collector's writer went through the channel, the last one was its footer, nothing was
    dropped or paused, and the collector had numbered as many operations as were sent, all
    of the root process; then the sink holds exactly these records, in order.  Whatever the
    interleaving of the writer with the source and whatever packets a full channel lost, the
    pipeline never panics. *)
Theorem complete_exact {S} `{SemaphoreLaws S} (mapped r : Channel.Shared S) (size root : Z) (acts : list Act) :
  Queue.reliable (S := S) → Channel.inner_new mapped size true = Some r →
  length (Channel.data mapped) = Z.to_nat size → size ≤ u64_max →
  Forall act_ok acts → footer_last acts → Z.of_nat (length acts) < u64_max →
  Z.of_nat (length (records_of acts)) ≤ u64_max →
  ∃ s, fold_outcome (act size root) acts (start_system r) = Done s ∧
    (complete (conclude (worker s) (channel s)) = true ↔ everything root acts s) ∧
    (everything root acts s → Forall2 passes (records_of acts) (sink (worker s))).
Proof.
  intros HR Hnew Hl Hsz Hok Hfl Hn Hrec.
  pose proof (Queue.new_represents (T := Allocation.Packet) mapped r size Hnew Hl Hsz) as Hrep.
  destruct (run_spec size root acts (start_system r)) as (s & new & E & Hinv & Hs & Hse);
    [done|by apply start_system_inv|done|done|left; by apply Forall_nil|done|].
  exists s. split; [done|]. rewrite app_nil_l in Hs. subst new.
  apply (verdict size root); [done|done|done|pose proof (se_length _ _ Hse); lia|done].
Qed.

(** ** A recording of two operations *)
Definition demo_collector (n : Z) : Collector :=
  with_allocation n 0 0 (start (λ _, 1) 3 4).2.
Definition demo_acts : list Act :=
  [Poll; SendBatch (demo_collector 2) [Allocation.sample_allocation 3; Allocation.sample_allocation 4];
   Poll; SendFooter (demo_collector 2); Poll].
Definition demo_channel : Channel.Shared nat := Channel.mkShared (replicate 2048 7) 9 9 9 0%nat 0%nat.

Definition demo_ring : Channel.Shared nat := default demo_channel (Channel.inner_new demo_channel 2048 true).

Lemma demo_verdict :
  match fold_outcome (act 2048 4242) demo_acts (start_system demo_ring) with
  | Done s => complete (conclude (worker s) (channel s))
  | Panicked => false
  end = true.
Proof. vm_compute. reflexivity. Qed.

Lemma demo_acts_ok : Forall act_ok demo_acts.
Proof.
  repeat (apply Forall_cons; split); try done; simpl; unfold counters_ok, in_u64; simpl; rewrite u64_max_val;
    split_and!; try lia.
  repeat (apply Forall_cons; split); [apply Allocation.sample_allocation_ok; lia..|done].
Qed.

Lemma complete_exact_witness :
  ∃ s, fold_outcome (act 2048 4242) demo_acts (start_system demo_ring) = Done s ∧
    everything 4242 demo_acts s ∧ length (sink (worker s)) = 2%nat.
Proof.
  destruct (complete_exact demo_channel demo_ring 2048 4242 demo_acts nat_reliable) as (s & E & Hiff & Hsink);
    [reflexivity|reflexivity|vm_compute; discriminate|apply demo_acts_ok|done|by vm_compute|by vm_compute|].
  exists s. split; [done|].
  assert (Hc : complete (conclude (worker s) (channel s)) = true) by (pose proof demo_verdict as Hv; by rewrite E in Hv).
  apply Hiff in Hc. split; [done|]. apply Hsink in Hc. apply Forall2_length in Hc. by rewrite <-Hc.
Defined.
