(* ===== verification/Lifetimes.v ===== *)
(** * Allocation lifetimes

    The replay of the recorded allocator operations ([mperf/src/postprocess/allocations.rs]):
    from the boundaries of one or more processes, in time order, the lifetime of every
    allocation and the timeline of live bytes.  Reading the operations from the store and
    writing the tables back are left out: the replay is a function of the rows. *)

From S2P Require Import Prelude Words Allocation.
From stdpp Require Import sorting.
Open Scope Z_scope.

Module Lifetimes.
Import Allocation.

Record Boundary := mkBoundary {
  pid : Z;
  process_epoch : Z;
  sequence : Z;
  timestamp_ns : Z;
  tid : Z;
  operation : Operation;
  operation_id : Z;
  old_address : Z;
  address : Z;
  requested_bytes : Z;
  retires_old : bool;
  stack_id : Z
}.

Record Lifetime := mkLifetime {
  allocation_id : Z;
  l_pid : Z;
  l_process_epoch : Z;
  l_tid : Z;
  l_address : Z;
  l_requested_bytes : Z;
  allocated_ns : Z;
  freed_ns : option Z;
  freed_sequence : option Z;
  l_stack_id : Z;
  realloc_growth_bytes : Z;
  reallocated : bool
}.

(** The keys of the hash maps: a process and an address or a sequence number. *)
Definition Key : Type := Z * Z * Z.
Definition old_key (r : Boundary) : Key := (pid r, process_epoch r, old_address r).
Definition new_key (r : Boundary) : Key := (pid r, process_epoch r, address r).
Definition sequence_key (r : Boundary) : Key := (pid r, process_epoch r, sequence r).
Definition operation_key (r : Boundary) : Key := (pid r, process_epoch r, operation_id r).

Definition has_op (o : Operation) (r : Boundary) : bool := bool_decide (operation r = o).

(** The outcomes of the reallocs, by the number of their begin; a later row wins. *)
Definition outcomes (records : list Boundary) : gmap Key bool :=
  foldl (λ m r, if has_op ReallocEnd r then <[operation_key r := retires_old r]> m else m) ∅ records.

Record Replay := mkReplay {
  live : gmap Key nat;
  old_sizes : gmap Key Z;
  lifetimes : list Lifetime;
  uncertain : Z;
  conflicts : Z
}.

Definition new_replay : Replay := mkReplay ∅ ∅ [] 0 0.

Section replay.
Context (out : gmap Key bool).

Definition retires (r : Boundary) : bool :=
  has_op Freed r || has_op ReallocBegin r && bool_decide (out !! sequence_key r = Some true).

Definition introduces (r : Boundary) : bool :=
  (has_op Allocated r || has_op ReallocEnd r) && negb (address r =? 0).

Definition end_lifetime (r : Boundary) (l : Lifetime) : Lifetime :=
  mkLifetime (allocation_id l) (l_pid l) (l_process_epoch l) (l_tid l) (l_address l)
    (l_requested_bytes l) (allocated_ns l) (Some (timestamp_ns r)) (Some (sequence r))
    (l_stack_id l) (realloc_growth_bytes l) (reallocated l).

Definition count_uncertain (r : Boundary) (s : Replay) : Replay :=
  if has_op ReallocBegin r && bool_decide (out !! sequence_key r = None)
  then mkReplay (live s) (old_sizes s) (lifetimes s) (uncertain s + 1) (conflicts s)
  else s.

(** The generation that owned the old address ends. *)
Definition retire (r : Boundary) (s : Replay) : outcome Replay :=
  if retires r then
    match live s !! old_key r with
    | None => Done s
    | Some index =>
        l ← unwrap (lifetimes s !! index);
        Done (mkReplay (delete (old_key r) (live s))
                (if has_op ReallocBegin r then <[sequence_key r := l_requested_bytes l]> (old_sizes s)
                 else old_sizes s)
                (<[index := end_lifetime r l]> (lifetimes s)) (uncertain s) (conflicts s))
    end
  else Done s.

(** A generation begins at the new address. *)
Definition introduce (r : Boundary) (s : Replay) : Replay :=
  if introduces r then
    let old_size := default 0 (old_sizes s !! operation_key r) in
    mkReplay (<[new_key r := length (lifetimes s)]> (live s)) (old_sizes s)
      (lifetimes s ++
       [mkLifetime (sequence r) (pid r) (process_epoch r) (tid r) (address r) (requested_bytes r)
          (timestamp_ns r) None None (stack_id r)
          (if has_op ReallocEnd r then saturating_sub (requested_bytes r) old_size else 0)
          (has_op ReallocEnd r)])
      (uncertain s)
      (conflicts s + match live s !! new_key r with Some _ => 1 | None => 0 end)
  else s.

Definition replay_step (s : Replay) (r : Boundary) : outcome Replay :=
  s ← retire r (count_uncertain r s);
  Done (introduce r s).
End replay.

Definition replay (records : list Boundary) : outcome Replay :=
  fold_outcome (replay_step (outcomes records)) records new_replay.

(** ** The timeline *)
Record Point := mkPoint { p_ns : Z; p_sequence : Z; delta : Z; p_stack : Z }.

(** The number of the end is set together with its time. *)
Definition lifetime_points (l : Lifetime) : list Point :=
  mkPoint (allocated_ns l) (allocation_id l) (as_i64 (l_requested_bytes l)) (l_stack_id l) ::
  match freed_ns l with
  | Some ns => [mkPoint ns (default 0 (freed_sequence l)) (- as_i64 (l_requested_bytes l)) (l_stack_id l)]
  | None => []
  end.

Definition point_le (p q : Point) : Prop :=
  p_ns p < p_ns q ∨ p_ns p = p_ns q ∧ p_sequence p ≤ p_sequence q.
#[export] Instance point_le_dec p q : Decision (point_le p q).
Proof. unfold point_le. apply _. Defined.

(** [sort_unstable_by_key]; the keys of the points of a recording differ. *)
Definition points (ls : list Lifetime) : list Point :=
  merge_sort point_le (concat (map lifetime_points ls)).

(** [observed_live_bytes]: the running total, at 64 bits. *)
Fixpoint running (total : Z) (ps : list Point) : list Z :=
  match ps with
  | [] => []
  | p :: ps => let total := as_i64 (wrap64 (total + delta p)) in total :: running total ps
  end.

Definition observed_live_bytes (ls : list Lifetime) : list Z := running 0 (points ls).

(** The column [lifetime_ns]. *)
Definition lifetime_ns (l : Lifetime) : option Z :=
  (λ ns, as_i64 (saturating_sub ns (allocated_ns l))) <$> freed_ns l.

End Lifetimes.
