(* ===== verification/LifetimesSpec.v ===== *)
(** * The replay of allocation lifetimes is exact

    - [Module History]: what a history of boundaries says about an allocation: who owns an
      address, what ends a generation, how much a realloc grew;
    - [Module Exact]: the replay computes exactly that;
    - [Module Timeline]: the running total of the timeline is the size of what is live. *)

From S2P Require Import Prelude Words Allocation Lifetimes.
From stdpp Require Import sorting.
Open Scope Z_scope.
Import Lifetimes.

Module History.
Section history.
Context (out : gmap Key bool).
Notation retires := (retires out).

Definition retires_key (key : Key) (r : Boundary) : bool := retires r && bool_decide (old_key r = key).
Definition introduces_key (key : Key) (r : Boundary) : bool := introduces r && bool_decide (new_key r = key).

(** The first operation on the address of a generation, after its introduction. *)
Definition first_touch (key : Key) (later : list Boundary) : option Boundary :=
  List.find (λ r, retires_key key r || introduces_key key r) later.

(** What ends it: that operation, if it retires the address. *)
Definition ended (key : Key) (later : list Boundary) : option Boundary :=
  match first_touch key later with
  | Some r => if retires_key key r then Some r else None
  | None => None
  end.

(** Who owns an address after [past], the latest operation first. *)
Fixpoint owner (key : Key) (past : list Boundary) : option Boundary :=
  match past with
  | [] => None
  | r :: past =>
      if introduces_key key r then Some r
      else if retires_key key r then None
      else owner key past
  end.

(** The size of the generation a realloc retired, by the number of its begin. *)
Fixpoint old_size (id : Key) (past : list Boundary) : option Z :=
  match past with
  | [] => None
  | r :: past =>
      match (if has_op Allocation.ReallocBegin r && retires r && bool_decide (sequence_key r = id)
             then owner (old_key r) past else None) with
      | Some x => Some (requested_bytes x)
      | None => old_size id past
      end
  end.

Definition growth (r : Boundary) (past : list Boundary) : Z :=
  if has_op Allocation.ReallocEnd r
  then saturating_sub (requested_bytes r) (default 0 (old_size (operation_key r) past)) else 0.

(** The lifetime of the generation that the [i]-th boundary [r] introduces. *)
Definition lifetime_of (h : list Boundary) (i : nat) (r : Boundary) : Lifetime :=
  let e := ended (new_key r) (drop (S i) h) in
  mkLifetime (sequence r) (pid r) (process_epoch r) (tid r) (address r) (requested_bytes r)
    (timestamp_ns r) (timestamp_ns <$> e) (sequence <$> e) (stack_id r)
    (growth r (reverse (take i h))) (has_op Allocation.ReallocEnd r).

Definition introductions (h : list Boundary) : list (nat * Boundary) :=
  List.filter (λ p, introduces p.2) (imap pair h).

Definition lifetimes_of (h : list Boundary) : list Lifetime :=
  (λ p, lifetime_of h p.1 p.2) <$> introductions h.

Fixpoint conflicts_of (past : list Boundary) : Z :=
  match past with
  | [] => 0
  | r :: past =>
      conflicts_of past +
      (if introduces r then match owner (new_key r) past with Some _ => 1 | None => 0 end else 0)
  end.

Definition uncertain_of (h : list Boundary) : Z :=
  Z.of_nat (length (List.filter
    (λ r, has_op Allocation.ReallocBegin r && bool_decide (out !! sequence_key r = None)) h)).

(** ** Facts *)
Lemma exclusive r : introduces r = true → retires r = false.
Proof.
  unfold introduces, Lifetimes.retires, has_op. intros [H _]%andb_true_iff.
  destruct (operation r); repeat case_bool_decide; done.
Qed.

Lemma introductions_snoc h r :
  introductions (h ++ [r]) = introductions h ++ (if introduces r then [(length h, r)] else []).
Proof.
  unfold introductions. rewrite imap_app, List.filter_app. f_equal. cbn. rewrite Nat.add_0_r.
  by destruct (introduces r).
Qed.

Lemma introduction_lookup h n i r :
  introductions h !! n = Some (i, r) → h !! i = Some r ∧ (i < length h)%nat ∧ introduces r = true.
Proof.
  intros H%list_elem_of_lookup_2. unfold introductions in H.
  apply list_elem_of_In, List.filter_In in H as [H Hr]. apply list_elem_of_In in H. simpl in Hr.
  apply elem_of_lookup_imap in H as (j & x & E & Hj). injection E as -> ->.
  split_and!; [done|by eapply lookup_lt_Some|done].
Qed.

Lemma first_touch_snoc key l r :
  first_touch key (l ++ [r]) =
  match first_touch key l with
  | Some e => Some e
  | None => if retires_key key r || introduces_key key r then Some r else None
  end.
Proof.
  unfold first_touch. induction l as [|x l IH]; simpl; [done|]. by destruct (retires_key key x || introduces_key key x).
Qed.

Lemma ended_snoc key l r :
  ended key (l ++ [r]) =
  match first_touch key l with
  | Some _ => ended key l
  | None => if retires_key key r then Some r else None
  end.
Proof.
  unfold ended. rewrite first_touch_snoc. destruct (first_touch key l); [done|].
  destruct (retires_key key r) eqn:E; simpl; [by rewrite E|]. destruct (introduces_key key r); [by rewrite E|done].
Qed.

Lemma lifetime_snoc h r i x :
  (i < length h)%nat →
  lifetime_of (h ++ [r]) i x =
  match first_touch (new_key x) (drop (S i) h) with
  | None => if retires_key (new_key x) r then end_lifetime r (lifetime_of h i x) else lifetime_of h i x
  | Some _ => lifetime_of h i x
  end.
Proof.
  intros Hi. unfold lifetime_of. rewrite drop_app_le, take_app_le by lia. rewrite ended_snoc.
  destruct (first_touch _ _) eqn:Hf; [done|]. assert (He : ended (new_key x) (drop (S i) h) = None)
    by (unfold ended; by rewrite Hf). rewrite He. by destruct (retires_key _ _).
Qed.
End history.
End History.

Module Exact.
Import History.
Section exact.
Context (out : gmap Key bool).
Notation retires := (retires out).
Notation retires_key := (retires_key out).
Notation first_touch := (first_touch out).
Notation lifetime_of := (lifetime_of out).
Notation lifetimes_of := (lifetimes_of out).
Notation owner := (owner out).
Notation old_size := (old_size out).
Notation conflicts_of := (conflicts_of out).
Notation uncertain_of := (uncertain_of out).

(** The [n]-th generation owns [key] and nothing has touched the address since. *)
Definition owns (h : list Boundary) (key : Key) (n : nat) : Prop :=
  ∃ i x, introductions h !! n = Some (i, x) ∧ new_key x = key ∧ first_touch key (drop (S i) h) = None.

(** The state of the replay after [h]. *)
Record tracks (h : list Boundary) (s : Replay) : Prop := {
  tr_lifetimes : lifetimes s = lifetimes_of h;
  tr_live key n : live s !! key = Some n ↔ owns h key n;
  tr_owner key : owner key (reverse h) = live s !! key ≫= λ n, snd <$> introductions h !! n;
  tr_sizes id : old_sizes s !! id = old_size id (reverse h);
  tr_uncertain : uncertain s = uncertain_of h;
  tr_conflicts : conflicts s = conflicts_of (reverse h)
}.

Lemma owns_snoc h r key n :
  owns (h ++ [r]) key n ↔
  (owns h key n ∧ retires_key key r = false ∧ introduces_key key r = false) ∨
  (introduces_key key r = true ∧ n = length (introductions h)).
Proof.
  unfold owns. rewrite introductions_snoc. split.
  - intros (i & x & Hn & Hk & Hf). apply lookup_app_Some in Hn as [Hn|[Hge Hn]].
    + left. pose proof (introduction_lookup _ _ _ _ Hn) as (_ & Hi & _).
      rewrite drop_app_le, first_touch_snoc in Hf by lia. destruct (first_touch key _) eqn:E; [done|].
      destruct (retires_key key r), (introduces_key key r); try done. split; [by exists i, x|done].
    + right. destruct (introduces r) eqn:Hr; [|done]. apply list_lookup_singleton_Some in Hn as [Hn E].
      injection E as <- <-. unfold introduces_key. rewrite Hr, bool_decide_true by done. split; [done|lia].
  - intros [[(i & x & Hn & Hk & Hf) [Hr Hi]]|[Hi ->]].
    + exists i, x. pose proof (introduction_lookup _ _ _ _ Hn) as (_ & Hlt & _).
      split; [by apply lookup_app_l_Some|]. split; [done|].
      by rewrite drop_app_le, first_touch_snoc, Hf, Hr, Hi by lia.
    + unfold introduces_key in Hi. apply andb_true_iff in Hi as [Hr Hk%bool_decide_eq_true].
      exists (length h), r. rewrite Hr. split; [by rewrite lookup_app_r, Nat.sub_diag by lia|].
      split; [done|]. rewrite drop_ge; [done|]. rewrite length_app. simpl. lia.
Qed.

Lemma owns_unique h key n m : owns h key n → owns h key m → (∀ s, tracks h s → n = m).
Proof.
  intros Hn Hm s Ht. apply (tr_live _ _ Ht) in Hn, Hm. congruence.
Qed.

(** The lifetimes after one more boundary. *)
Lemma lifetimes_snoc h r :
  lifetimes_of (h ++ [r]) =
  ((λ p, match first_touch (new_key p.2) (drop (S p.1) h) with
         | None => if retires_key (new_key p.2) r then end_lifetime r (lifetime_of h p.1 p.2)
                   else lifetime_of h p.1 p.2
         | Some _ => lifetime_of h p.1 p.2
         end) <$> introductions h) ++
  (if introduces r then [lifetime_of (h ++ [r]) (length h) r] else []).
Proof.
  unfold History.lifetimes_of. rewrite introductions_snoc, fmap_app. f_equal.
  - apply list_eq. intros n. rewrite !list_lookup_fmap.
    destruct (introductions h !! n) as [[i x]|] eqn:Hn; [|done]. simpl. f_equal.
    apply lifetime_snoc. by apply introduction_lookup in Hn as (_ & ? & _).
  - by destruct (introduces r).
Qed.

(** No live generation is retired: the lifetimes stay. *)
Lemma lifetimes_stay h r s :
  tracks h s → (∀ key, retires_key key r = true → live s !! key = None) →
  ((λ p, match first_touch (new_key p.2) (drop (S p.1) h) with
         | None => if retires_key (new_key p.2) r then end_lifetime r (lifetime_of h p.1 p.2)
                   else lifetime_of h p.1 p.2
         | Some _ => lifetime_of h p.1 p.2
         end) <$> introductions h) = lifetimes_of h.
Proof.
  intros Ht Hnone. apply list_eq. intros n. unfold History.lifetimes_of. rewrite !list_lookup_fmap.
  destruct (introductions h !! n) as [[i x]|] eqn:Hn; [|done]. simpl. f_equal.
  destruct (first_touch _ _) eqn:Hf; [done|]. destruct (retires_key (new_key x) r) eqn:Hr; [|done].
  assert (Ho : live s !! new_key x = Some n) by (apply (tr_live _ _ Ht); by exists i, x).
  rewrite Hnone in Ho; done.
Qed.

Lemma last_lifetime h r s :
  tracks h s →
  lifetime_of (h ++ [r]) (length h) r =
  mkLifetime (sequence r) (pid r) (process_epoch r) (tid r) (address r) (requested_bytes r)
    (timestamp_ns r) None None (stack_id r)
    (if has_op Allocation.ReallocEnd r
     then saturating_sub (requested_bytes r) (default 0 (old_sizes s !! operation_key r)) else 0)
    (has_op Allocation.ReallocEnd r).
Proof.
  intros Ht. unfold History.lifetime_of. rewrite take_app_length, drop_ge by (rewrite length_app; simpl; lia).
  unfold growth. by rewrite (tr_sizes _ _ Ht).
Qed.

Lemma uncertain_snoc h r :
  uncertain_of (h ++ [r]) =
  uncertain_of h + (if has_op Allocation.ReallocBegin r && bool_decide (out !! sequence_key r = None) then 1 else 0).
Proof.
  unfold History.uncertain_of. rewrite List.filter_app, length_app. simpl.
  destruct (_ && _); simpl; lia.
Qed.

Lemma certain r :
  retires r = true ∨ introduces r = true →
  has_op Allocation.ReallocBegin r && bool_decide (out !! sequence_key r = None) = false.
Proof.
  unfold Lifetimes.retires, introduces, has_op. intros [H|H].
  - apply orb_true_iff in H as [H|H]; [by case_bool_decide as E; [rewrite E|]|].
    apply andb_true_iff in H as [-> H%bool_decide_eq_true]. by rewrite H.
  - apply andb_true_iff in H as [H _]. destruct (operation r); repeat case_bool_decide; done.
Qed.

(** Which keys a boundary touches. *)
Lemma no_retire key r : retires r = false → retires_key key r = false.
Proof. unfold History.retires_key. by intros ->. Qed.
Lemma no_introduce key r : introduces r = false → introduces_key key r = false.
Proof. unfold introduces_key. by intros ->. Qed.
Lemma retires_key_old r key : retires r = true → retires_key key r = bool_decide (old_key r = key).
Proof. unfold History.retires_key. by intros ->. Qed.
Lemma introduces_key_new r key : introduces r = true → introduces_key key r = bool_decide (new_key r = key).
Proof. unfold introduces_key. by intros ->. Qed.

Lemma length_lifetimes h s : tracks h s → length (lifetimes s) = length (introductions h).
Proof. intros Ht. rewrite (tr_lifetimes _ _ Ht). apply length_fmap. Qed.

Lemma live_lookup h s key n : tracks h s → live s !! key = Some n → is_Some (introductions h !! n).
Proof. intros Ht (i & x & Hn & _)%(tr_live _ _ Ht). by rewrite Hn. Qed.

Lemma tracks_introduce h r s :
  tracks h s → introduces r = true → tracks (h ++ [r]) (introduce r s).
Proof.
  intros Ht Hr. pose proof (exclusive out r Hr) as Hnr. unfold introduce. rewrite Hr. split; simpl.
  - rewrite lifetimes_snoc, Hr, (lifetimes_stay h r s Ht), (last_lifetime h r s Ht), (tr_lifetimes _ _ Ht); [done|].
    intros key. by rewrite no_retire.
  - intros key n. rewrite owns_snoc, (no_retire key r Hnr), (introduces_key_new r key Hr), (length_lifetimes h s Ht).
    case_bool_decide as Hk.
    + subst key. rewrite lookup_insert_eq. naive_solver.
    + rewrite lookup_insert_ne, (tr_live _ _ Ht) by done. naive_solver.
  - intros key. rewrite reverse_snoc, introductions_snoc, Hr. cbn [History.owner].
    rewrite (introduces_key_new r key Hr), (no_retire key r Hnr), (length_lifetimes h s Ht).
    case_bool_decide as Hk.
    + subst key. rewrite lookup_insert_eq. simpl. by rewrite lookup_app_r, Nat.sub_diag by lia.
    + rewrite lookup_insert_ne, (tr_owner _ _ Ht) by done. destruct (live s !! key) as [n|] eqn:Hn; [|done]. simpl.
      destruct (live_lookup _ _ _ _ Ht Hn) as [p Hp]. by rewrite Hp, (lookup_app_l_Some _ _ _ _ Hp).
  - intros id. rewrite reverse_snoc. cbn [History.old_size]. rewrite Hnr, andb_false_r. apply Ht.
  - by rewrite uncertain_snoc, certain, Z.add_0_r, (tr_uncertain _ _ Ht) by auto.
  - rewrite reverse_snoc. cbn [History.conflicts_of]. rewrite Hr, (tr_conflicts _ _ Ht), (tr_owner _ _ Ht).
    destruct (live s !! new_key r) as [n|] eqn:Hn; [|done]. simpl.
    destruct (live_lookup _ _ _ _ Ht Hn) as [p ->]. done.
Qed.

(** The replay's state when a boundary retires nothing that is live. *)
Lemma tracks_nothing h r s :
  tracks h s → introduces r = false → (∀ key, retires_key key r = true → live s !! key = None) →
  tracks (h ++ [r]) (mkReplay (live s) (old_sizes s) (lifetimes s) (uncertain_of (h ++ [r])) (conflicts s)).
Proof.
  intros Ht Hi Hnone. split; simpl.
  - by rewrite lifetimes_snoc, Hi, app_nil_r, (lifetimes_stay h r s Ht Hnone), (tr_lifetimes _ _ Ht).
  - intros key n. rewrite owns_snoc, (no_introduce key r Hi), <-(tr_live _ _ Ht).
    destruct (retires_key key r) eqn:Hr; [rewrite Hnone by done|]; naive_solver.
  - intros key. rewrite reverse_snoc, introductions_snoc, Hi, app_nil_r. cbn [History.owner].
    rewrite (no_introduce key r Hi). destruct (retires_key key r) eqn:Hr; [by rewrite Hnone|apply Ht].
  - intros id. rewrite reverse_snoc. cbn [History.old_size]. rewrite (tr_sizes _ _ Ht).
    destruct (retires r) eqn:Hr; [|by rewrite andb_false_r].
    rewrite (tr_owner _ _ Ht), Hnone by (rewrite retires_key_old, bool_decide_true; done).
    simpl. by destruct (_ && _).
  - done.
  - rewrite reverse_snoc. cbn [History.conflicts_of]. rewrite Hi, Z.add_0_r. apply Ht.
Qed.

Lemma tracks_retire h r s n i x :
  tracks h s → retires r = true → live s !! old_key r = Some n → introductions h !! n = Some (i, x) →
  tracks (h ++ [r])
    (mkReplay (delete (old_key r) (live s))
       (if has_op Allocation.ReallocBegin r then <[sequence_key r := requested_bytes x]> (old_sizes s) else old_sizes s)
       (<[n := end_lifetime r (lifetime_of h i x)]> (lifetimes s)) (uncertain s) (conflicts s)).
Proof.
  intros Ht Hr Hl Hn. assert (Hi : introduces r = false) by (destruct (introduces r) eqn:E; [by apply (exclusive out) in E; congruence|done]).
  assert (Ho : owns h (old_key r) n) by by apply (tr_live _ _ Ht).
  split; simpl.
  - rewrite lifetimes_snoc, Hi, app_nil_r, (tr_lifetimes _ _ Ht). apply list_eq. intros m.
    rewrite list_lookup_fmap. unfold History.lifetimes_of.
    destruct (decide (m = n)) as [->|Hne].
    + rewrite list_lookup_insert_eq by (rewrite length_fmap; by eapply lookup_lt_Some). rewrite Hn. simpl.
      destruct Ho as (i' & x' & Hn' & Hk & Hf). rewrite Hn in Hn'. injection Hn' as <- <-.
      by rewrite Hk, Hf, retires_key_old, bool_decide_true by done.
    + rewrite list_lookup_insert_ne, list_lookup_fmap by done.
      destruct (introductions h !! m) as [[j y]|] eqn:Hm; [|done]. simpl. f_equal.
      destruct (first_touch _ _) eqn:Hf; [done|]. rewrite retires_key_old by done. case_bool_decide as Hk; [|done].
      exfalso. apply Hne. eapply owns_unique; [|exact Ho|exact Ht]. exists j, y. by rewrite Hk.
  - intros key m. rewrite owns_snoc, (no_introduce key r Hi), retires_key_old by done. case_bool_decide as Hk.
    + subst key. rewrite lookup_delete_eq. naive_solver.
    + rewrite lookup_delete_ne, (tr_live _ _ Ht) by done. naive_solver.
  - intros key. rewrite reverse_snoc, introductions_snoc, Hi, app_nil_r. cbn [History.owner].
    rewrite (no_introduce key r Hi), retires_key_old by done. case_bool_decide as Hk.
    + subst key. by rewrite lookup_delete_eq.
    + rewrite lookup_delete_ne by done. apply Ht.
  - intros id. rewrite reverse_snoc. cbn [History.old_size]. rewrite Hr, andb_true_r, (tr_owner _ _ Ht), Hl. simpl.
    rewrite Hn. simpl. destruct (has_op _ r); simpl; [|apply Ht]. case_bool_decide as Hk.
    + subst id. by rewrite lookup_insert_eq.
    + rewrite lookup_insert_ne by done. apply Ht.
  - by rewrite uncertain_snoc, certain, Z.add_0_r, (tr_uncertain _ _ Ht) by auto.
  - rewrite reverse_snoc. cbn [History.conflicts_of]. rewrite Hi, Z.add_0_r. apply Ht.
Qed.

Lemma step_tracks h r s : tracks h s → ∃ s', replay_step out s r = Done s' ∧ tracks (h ++ [r]) s'.
Proof.
  intros Ht. unfold replay_step.
  destruct (introduces r) eqn:Hi.
  { assert (Hc : count_uncertain out r s = s) by (unfold count_uncertain; rewrite certain; auto).
    assert (Hre : retire out r s = Done s) by (unfold retire; by rewrite (exclusive out)).
    rewrite Hc, Hre. eexists. split; [done|]. by apply tracks_introduce. }
  assert (Hin : ∀ s', introduce r s' = s') by (intros s'; unfold introduce; by rewrite Hi).
  assert (Hun : uncertain (count_uncertain out r s) = uncertain_of (h ++ [r])).
  { rewrite uncertain_snoc, <-(tr_uncertain _ _ Ht). unfold count_uncertain. destruct (_ && _); simpl; lia. }
  assert (Hsame : count_uncertain out r s =
    mkReplay (live s) (old_sizes s) (lifetimes s) (uncertain_of (h ++ [r])) (conflicts s)).
  { rewrite <-Hun. unfold count_uncertain. destruct s, (_ && _); done. }
  destruct (retires r) eqn:Hr; cycle 1.
  { eexists. unfold retire. rewrite Hr, Hsame. split; [done|]. rewrite Hin.
    apply tracks_nothing; [done|done|]. intros key. by rewrite no_retire. }
  destruct (live s !! old_key r) as [n|] eqn:Hl; cycle 1.
  { eexists. unfold retire. rewrite Hr, Hsame. cbn [live]. rewrite Hl. split; [done|]. rewrite Hin.
    apply tracks_nothing; [done|done|]. intros key. rewrite retires_key_old by done.
    by intros <-%bool_decide_eq_true. }
  assert (Hc : count_uncertain out r s = s) by (unfold count_uncertain; rewrite certain; auto).
  destruct (live_lookup _ _ _ _ Ht Hl) as [[i x] Hn].
  eexists. unfold retire. rewrite Hc, Hr, Hl.
  assert (Hlt : lifetimes s !! n = Some (lifetime_of h i x)).
  { rewrite (tr_lifetimes _ _ Ht). unfold History.lifetimes_of. by rewrite list_lookup_fmap, Hn. }
  rewrite Hlt. cbn [unwrap mbind outcome_bind]. split; [done|]. rewrite Hin. by apply tracks_retire.
Qed.

Lemma tracks_nil : tracks [] new_replay.
Proof.
  split; try done. intros key n. simpl. rewrite lookup_empty. split; [done|]. by intros (i & x & Hn & _).
Qed.

Lemma replay_tracks records : ∀ h s, tracks h s →
  ∃ s', fold_outcome (replay_step out) records s = Done s' ∧ tracks (h ++ records) s'.
Proof.
  induction records as [|r records IH]; intros h s Ht; cbn [fold_outcome].
  { exists s. by rewrite app_nil_r. }
  destruct (step_tracks h r s Ht) as (s1 & -> & Ht1). destruct (IH _ _ Ht1) as (s' & -> & Ht').
  exists s'. by rewrite <-app_assoc in Ht'.
Qed.
End exact.
End Exact.

(** C20: the replay of any recorded history is total and exact: one lifetime per boundary that
    hands out an address, in order, with its fields; it ends at the first later boundary that
    retires its address, provided the address is not handed out again before (an unseen
    free), where a realloc retires the old address at its begin, and only if its outcome says
    so; a realloc grew by the excess over the size it retired.  The counts of unresolved
    reallocs and of address conflicts are those of the history. *)
Theorem replay_exact (records : list Boundary) :
  let out := outcomes records in
  ∃ s, replay records = Done s ∧
    lifetimes s = History.lifetimes_of out records ∧
    uncertain s = History.uncertain_of out records ∧
    conflicts s = History.conflicts_of out (reverse records) ∧
    ∀ key, is_Some (live s !! key) ↔ is_Some (History.owner out key (reverse records)).
Proof.
  intros out. destruct (Exact.replay_tracks out records [] new_replay (Exact.tracks_nil out)) as (s & E & Ht).
  change ([] ++ records) with records in Ht.
  exists s. split_and!; [done|apply Ht|apply Ht|apply Ht|]. intros key.
  rewrite (Exact.tr_owner _ _ _ Ht). destruct (live s !! key) as [n|] eqn:Hl; simpl; [|by split; intros [? [=]]].
  destruct (Exact.live_lookup _ _ _ _ _ Ht Hl) as [p ->]. simpl. split; eauto.
Qed.
