(* ===== verification/LifetimesTimeline.v ===== *)
(** * The timeline of live bytes

    The points of the timeline are sorted by time and number after the replay; when the
    boundaries came in that order, the points are theirs, one by one, and the running total
    at each is the size of the generations that are live after it. *)

From S2P Require Import Prelude Words Allocation Lifetimes LifetimesSpec.
From stdpp Require Import sorting.
Open Scope Z_scope.
Import Lifetimes.

Module Timeline.
Import History Exact.

Section timeline.
Context (out : gmap Key bool).
Notation retires := (retires out).
Notation lifetimes_of := (lifetimes_of out).
Notation owner := (owner out).
Notation tracks := (tracks out).

(** The point of a boundary, after [past], the latest boundary first. *)
Definition record_point (past : list Boundary) (r : Boundary) : list Point :=
  if introduces r then [mkPoint (timestamp_ns r) (sequence r) (as_i64 (requested_bytes r)) (stack_id r)]
  else if retires r then
    match owner (old_key r) past with
    | Some x => [mkPoint (timestamp_ns r) (sequence r) (- as_i64 (requested_bytes x)) (stack_id x)]
    | None => []
    end
  else [].

Fixpoint record_points (past : list Boundary) : list Point :=
  match past with [] => [] | r :: past => record_points past ++ record_point past r end.

Definition all_points (ls : list Lifetime) : list Point := concat (map lifetime_points ls).

(** The bytes of the generations that have not ended. *)
Definition live_bytes (ls : list Lifetime) : Z :=
  foldr (λ l n, match freed_ns l with Some _ => 0 | None => l_requested_bytes l end + n) 0 ls.

Lemma all_points_snoc ls l : all_points (ls ++ [l]) = all_points ls ++ lifetime_points l.
Proof. unfold all_points. rewrite map_app, concat_app. simpl. by rewrite app_nil_r. Qed.

Lemma all_points_insert ls n l l' p :
  ls !! n = Some l → lifetime_points l' = lifetime_points l ++ [p] →
  all_points (<[n := l']> ls) ≡ₚ all_points ls ++ [p].
Proof.
  intros Hn Hp. rewrite insert_take_drop by (by eapply lookup_lt_Some).
  rewrite <-(take_drop_middle ls n l Hn) at 3. unfold all_points.
  rewrite !map_app, !concat_app. cbn [map concat]. rewrite Hp. solve_Permutation.
Qed.

Lemma live_bytes_app ls ls' : live_bytes (ls ++ ls') = live_bytes ls + live_bytes ls'.
Proof. unfold live_bytes. induction ls as [|l ls IH]; simpl; [done|]. rewrite IH. lia. Qed.

Lemma live_bytes_insert ls n l l' :
  ls !! n = Some l → freed_ns l = None → freed_ns l' ≠ None →
  live_bytes (<[n := l']> ls) = live_bytes ls - l_requested_bytes l.
Proof.
  intros Hn Hl Hl'. rewrite insert_take_drop by (by eapply lookup_lt_Some).
  rewrite <-(take_drop_middle ls n l Hn) at 3. rewrite !live_bytes_app. simpl. rewrite Hl.
  destruct (freed_ns l'); [|done]. lia.
Qed.

(** One boundary adds its point, and moves the live bytes by its delta. *)
Definition moved (h : list Boundary) (r : Boundary) (ls ls' : list Lifetime) : Prop :=
  all_points ls' ≡ₚ all_points ls ++ record_point (reverse h) r ∧
  live_bytes ls' = live_bytes ls +
    (if introduces r then requested_bytes r
     else if retires r then match owner (old_key r) (reverse h) with Some x => - requested_bytes x | None => 0 end
     else 0).

Lemma lifetimes_move h r s : tracks h s → moved h r (lifetimes_of h) (lifetimes_of (h ++ [r])).
Proof.
  intros Ht. unfold moved, record_point. rewrite lifetimes_snoc. destruct (introduces r) eqn:Hi.
  { rewrite (lifetimes_stay out h r s Ht) by (intros key; rewrite no_retire; [done|by apply exclusive]).
    rewrite (last_lifetime out h r s Ht), all_points_snoc, live_bytes_app. simpl. split; [done|lia]. }
  rewrite app_nil_r. destruct (retires r) eqn:Hr; cycle 1.
  { rewrite (lifetimes_stay out h r s Ht) by (intros key; by rewrite no_retire).
    rewrite app_nil_r. split; [done|lia]. }
  rewrite (tr_owner _ _ _ Ht). destruct (live s !! old_key r) as [n|] eqn:Hl; cycle 1.
  { rewrite (lifetimes_stay out h r s Ht).
    - simpl. rewrite app_nil_r. split; [done|lia].
    - intros key. rewrite retires_key_old by done. by intros <-%bool_decide_eq_true. }
  pose proof Hl as Hl'. apply (tr_live _ _ _ Ht) in Hl' as (i & x & Hn & Hk & Hf).
  pose proof (tracks_retire out h r s n i x Ht Hr Hl Hn) as Ht'.
  pose proof (tr_lifetimes _ _ _ Ht') as Hls. rewrite lifetimes_snoc, Hi, app_nil_r in Hls. rewrite <-Hls. simpl.
  rewrite Hn. simpl. rewrite (tr_lifetimes _ _ _ Ht).
  assert (Hlt : lifetimes_of h !! n = Some (lifetime_of out h i x)).
  { unfold History.lifetimes_of. by rewrite list_lookup_fmap, Hn. }
  assert (He : ended out (new_key x) (drop (S i) h) = None) by (unfold ended; by rewrite Hk, Hf).
  split.
  - rewrite (all_points_insert _ _ _ _ (mkPoint (timestamp_ns r) (sequence r) (- as_i64 (requested_bytes x)) (stack_id x)) Hlt); [done|].
    unfold lifetime_points, lifetime_of. simpl. by rewrite He.
  - rewrite (live_bytes_insert _ _ _ _ Hlt); [simpl; lia| |done]. unfold lifetime_of. simpl. by rewrite He.
Qed.

Lemma tracks_any h : ∃ s, tracks h s.
Proof. destruct (replay_tracks out h [] new_replay (tracks_nil out)) as (s & _ & Ht). by exists s. Qed.

Lemma points_perm h : all_points (lifetimes_of h) ≡ₚ record_points (reverse h).
Proof.
  induction h as [|r h IH] using rev_ind; [done|]. destruct (tracks_any h) as [s Ht].
  destruct (lifetimes_move h r s Ht) as [-> _]. rewrite reverse_snoc. cbn [record_points]. by rewrite IH.
Qed.

(** ** The order of the points *)
Definition boundary_lt (a b : Boundary) : Prop :=
  timestamp_ns a < timestamp_ns b ∨ timestamp_ns a = timestamp_ns b ∧ sequence a < sequence b.
Definition point_lt (p q : Point) : Prop :=
  p_ns p < p_ns q ∨ p_ns p = p_ns q ∧ p_sequence p < p_sequence q.

Lemma record_point_key past r p :
  p ∈ record_point past r → p_ns p = timestamp_ns r ∧ p_sequence p = sequence r.
Proof. unfold record_point. repeat case_match; rewrite ?list_elem_of_singleton; set_solver. Qed.

Lemma points_of past p :
  p ∈ record_points past → ∃ r, r ∈ past ∧ p_ns p = timestamp_ns r ∧ p_sequence p = sequence r.
Proof.
  induction past as [|r past IH]; simpl; [set_solver|].
  intros [Hp|Hp]%elem_of_app; [destruct (IH Hp) as (x & ? & ?); exists x; set_solver|].
  exists r. split; [set_solver|]. by eapply record_point_key.
Qed.

Lemma sorted_points h :
  StronglySorted boundary_lt h → StronglySorted point_lt (record_points (reverse h)).
Proof.
  induction h as [|r h IH] using rev_ind; [constructor|]. rewrite reverse_snoc. cbn [record_points].
  intros Hs. apply StronglySorted_app in Hs as (Hlt & Hh & _). apply StronglySorted_app.
  split_and!; [|by apply IH|].
  - intros p q Hp Hq. apply points_of in Hp as (x & Hx & H1 & H2). apply record_point_key in Hq as [H3 H4].
    rewrite elem_of_reverse in Hx. specialize (Hlt x r Hx ltac:(set_solver)).
    unfold boundary_lt, point_lt in *. lia.
  - unfold record_point. repeat case_match; repeat constructor.
Qed.

#[local] Instance point_le_total : Total point_le.
Proof. intros p q. unfold point_le. lia. Qed.
#[local] Instance point_le_trans : Transitive point_le.
Proof. intros p q r. unfold point_le. lia. Qed.

Lemma lt_sorted_le l : StronglySorted point_lt l → StronglySorted point_le l.
Proof.
  induction 1 as [|p l _ IH Hf]; constructor; [done|]. eapply Forall_impl; [done|].
  intros q. unfold point_lt, point_le. lia.
Qed.

Lemma lt_sorted_inj l p q : StronglySorted point_lt l → p ∈ l → q ∈ l → point_le p q → point_le q p → p = q.
Proof.
  induction 1 as [|x l _ IH Hf]; [set_solver|]. rewrite Forall_forall in Hf.
  intros [->|Hp]%elem_of_cons [->|Hq]%elem_of_cons H1 H2; [done| | |by apply IH].
  - specialize (Hf q Hq). unfold point_lt, point_le in *. lia.
  - specialize (Hf p Hp). unfold point_lt, point_le in *. lia.
Qed.

(** Sorting puts the points in the order of their boundaries. *)
Lemma points_eq h :
  StronglySorted boundary_lt h → points (lifetimes_of h) = record_points (reverse h).
Proof.
  intros Hs%sorted_points. unfold points. pose proof (points_perm h) as Hp.
  eapply StronglySorted_unique_strong; [|apply (StronglySorted_merge_sort point_le)|by apply lt_sorted_le|].
  - intros p q Hp1 Hq. rewrite merge_sort_Permutation in Hp1. unfold all_points in Hp. rewrite Hp in Hp1.
    by apply (lt_sorted_inj (record_points (reverse h))).
  - rewrite merge_sort_Permutation. exact Hp.
Qed.

(** ** The running total *)
Definition requested_total (h : list Boundary) : Z :=
  foldr (λ r n, (if introduces r then requested_bytes r else 0) + n) 0 h.

Lemma requested_total_app h h' : requested_total (h ++ h') = requested_total h + requested_total h'.
Proof. unfold requested_total. induction h as [|r h IH]; simpl; [done|]. rewrite IH. lia. Qed.

Lemma requested_nonneg h : Forall (λ r, 0 ≤ requested_bytes r) h → 0 ≤ requested_total h.
Proof.
  unfold requested_total. induction 1 as [|r h Hr _ IH]; simpl; [done|]. destruct (introduces r); lia.
Qed.

Lemma owner_in h s key x : tracks h s → owner key (reverse h) = Some x → x ∈ h ∧ introduces x = true.
Proof.
  intros Ht. rewrite (tr_owner _ _ _ Ht). destruct (live s !! key) as [n|] eqn:Hl; [|done]. simpl.
  destruct (introductions h !! n) as [[i y]|] eqn:Hn; [|done]. simpl. intros [= <-].
  apply introduction_lookup in Hn as (Hi & _ & Hy). split; [by eapply list_elem_of_lookup_2|done].
Qed.

Lemma live_range h :
  Forall (λ r, 0 ≤ requested_bytes r) h → 0 ≤ live_bytes (lifetimes_of h) ≤ requested_total h.
Proof.
  intros Hh. split.
  - assert (Hl : Forall (λ l, 0 ≤ l_requested_bytes l) (lifetimes_of h)).
    { apply Forall_fmap, Forall_forall. intros [i x] Hx. simpl.
      apply list_elem_of_lookup in Hx as [n Hn]. apply introduction_lookup in Hn as (Hi & _).
      rewrite Forall_lookup in Hh. by eapply Hh. }
    unfold live_bytes. induction Hl as [|l ls Hl _ IH]; simpl; [done|]. case_match; lia.
  - induction h as [|r h IH] using rev_ind; [done|]. apply Forall_app in Hh as [Hh Hr].
    destruct (tracks_any h) as [s Ht]. destruct (lifetimes_move h r s Ht) as [_ ->].
    rewrite requested_total_app. simpl. specialize (IH Hh). destruct (introduces r); [lia|].
    destruct (retires r); [|lia]. destruct (owner (old_key r) (reverse h)) as [x|] eqn:Ho; [|lia].
    destruct (owner_in _ _ _ _ Ht Ho) as [Hx _]. rewrite Forall_forall in Hh. specialize (Hh x Hx). lia.
Qed.

Definition total (t : Z) (ps : list Point) : Z := foldl (λ t p, as_i64 (wrap64 (t + delta p))) t ps.

Lemma running_app t ps qs : running t (ps ++ qs) = running t ps ++ running (total t ps) qs.
Proof. revert t; induction ps as [|p ps IH]; intros t; simpl; [done|]. by rewrite IH. Qed.
Lemma length_running t ps : length (running t ps) = length ps.
Proof. revert t; induction ps as [|p ps IH]; intros t; simpl; [done|]. by rewrite IH. Qed.

(** A boundary's delta is the change of the live bytes. *)
Lemma delta_moves h r s :
  tracks h s → Forall (λ r, 0 ≤ requested_bytes r) (h ++ [r]) → requested_total (h ++ [r]) < 2 ^ 63 →
  live_bytes (lifetimes_of (h ++ [r])) =
  live_bytes (lifetimes_of h) + foldr (λ p n, delta p + n) 0 (record_point (reverse h) r).
Proof.
  intros Ht Hnn Hlt. destruct (lifetimes_move h r s Ht) as [_ ->]. f_equal.
  rewrite requested_total_app in Hlt. apply Forall_app in Hnn as [Hh Hr]. apply Forall_cons in Hr as [Hr _].
  pose proof (requested_nonneg h Hh) as Hn. unfold record_point. simpl in Hlt.
  revert Hlt. destruct (introduces r); intros Hlt; simpl.
  { unfold as_i64. rewrite (proj2 (Z.ltb_lt _ _)) by lia. lia. }
  destruct (retires r); [|done]. destruct (owner (old_key r) (reverse h)) as [x|] eqn:Ho; [|done]. simpl.
  destruct (owner_in _ _ _ _ Ht Ho) as [Hx Hi]. apply list_elem_of_split in Hx as (h1 & h2 & ->).
  rewrite requested_total_app in Hlt. simpl in Hlt. rewrite Hi in Hlt.
  apply Forall_app in Hh as [Hh1 Hh2]. apply Forall_cons in Hh2 as [Hx Hh2].
  apply requested_nonneg in Hh1, Hh2. unfold as_i64. rewrite (proj2 (Z.ltb_lt _ _)) by lia. lia.
Qed.

Lemma total_live h :
  Forall (λ r, 0 ≤ requested_bytes r) h → requested_total h < 2 ^ 63 →
  total 0 (record_points (reverse h)) = live_bytes (lifetimes_of h).
Proof.
  induction h as [|r h IH] using rev_ind; [done|]. intros Hnn Hlt.
  pose proof (live_range _ Hnn) as Hrange. destruct (tracks_any h) as [s Ht].
  rewrite (delta_moves h r s Ht Hnn Hlt) in *. rewrite requested_total_app in Hlt, Hrange.
  apply Forall_app in Hnn as [Hh Hr]. pose proof (requested_nonneg _ Hr) as Hr0.
  rewrite reverse_snoc. cbn [record_points]. unfold total in *. rewrite foldl_app, IH by (done || lia).
  assert (Hsingle : record_point (reverse h) r = [] ∨ ∃ p, record_point (reverse h) r = [p])
    by (unfold record_point; repeat case_match; eauto).
  destruct Hsingle as [Hp|[p Hp]]; rewrite Hp in *; simpl in *; [lia|]. rewrite as_i64_wrap; lia.
Qed.
End timeline.
End Timeline.

Import Timeline.

Lemma record_points_prefix out h r t :
  ∃ qs, record_points out (reverse (h ++ r :: t)) =
        (record_points out (reverse h) ++ record_point out (reverse h) r) ++ qs.
Proof.
  induction t as [|x t [qs IH]] using rev_ind.
  - exists []. rewrite reverse_snoc. cbn [record_points]. by rewrite app_nil_r.
  - assert (E : h ++ r :: t ++ [x] = (h ++ r :: t) ++ [x]) by by rewrite <-app_assoc.
    rewrite E, reverse_snoc. cbn [record_points]. rewrite IH, <-app_assoc. eauto.
Qed.

(** For boundaries in time order, the timeline has one point per boundary that begins or
    ends a generation, in the order of the boundaries; and the observed live bytes at each
    point are the requested bytes of the generations that are live after it, as long as the
    total fits 63 bits. *)
Theorem timeline_exact (records : list Boundary) :
  let out := outcomes records in
  StronglySorted boundary_lt records → Forall (λ r, 0 ≤ requested_bytes r) records →
  requested_total records < 2 ^ 63 →
  ∃ s, replay records = Done s ∧ points (lifetimes s) = record_points out (reverse records) ∧
    ∀ h r t p, records = h ++ r :: t → record_point out (reverse h) r = [p] →
      let k := length (record_points out (reverse h)) in
      points (lifetimes s) !! k = Some p ∧
      observed_live_bytes (lifetimes s) !! k = Some (live_bytes (History.lifetimes_of out (h ++ [r]))).
Proof.
  intros out Hs Hnn Hlt.
  destruct (Exact.replay_tracks out records [] new_replay (Exact.tracks_nil out)) as (s & E & Ht).
  change ([] ++ records) with records in Ht. exists s. split; [done|].
  rewrite (Exact.tr_lifetimes _ _ _ Ht). pose proof (points_eq out records Hs) as Hp. split; [done|].
  intros h r t p Hr Hpt k. unfold observed_live_bytes. rewrite Hp.
  destruct (record_points_prefix out h r t) as [qs Hq]. rewrite <-Hr, Hpt in Hq. rewrite Hq.
  split; [by rewrite <-app_assoc, lookup_app_r, Nat.sub_diag by done|].
  rewrite running_app, lookup_app_l by (rewrite length_running, length_app; simpl; lia).
  rewrite running_app, lookup_app_r by (rewrite length_running; done). rewrite length_running, Nat.sub_diag. simpl.
  f_equal. rewrite Hr, (cons_middle r h t), app_assoc in Hnn, Hlt. apply Forall_app in Hnn as [Hnn Hnt].
  rewrite requested_total_app in Hlt. pose proof (requested_nonneg _ Hnt).
  rewrite <-(total_live out (h ++ [r])) by (done || lia). rewrite reverse_snoc. cbn [record_points].
  rewrite Hpt. unfold total. by rewrite foldl_app.
Qed.

(** A realloc whose old address another thread takes over before the call returns. *)
Definition demo_records : list Boundary :=
  let b seq op id old new size ret := mkBoundary 7 1 seq (100 + seq) 7 op id old new size ret 0 in
  [b 1 Allocation.Allocated 0 0 4096 64 false; b 2 Allocation.ReallocBegin 0 4096 0 0 false;
   b 3 Allocation.Allocated 0 0 4096 16 false; b 4 Allocation.ReallocEnd 2 4096 8192 100 true;
   b 5 Allocation.Freed 0 4096 0 0 false].

Lemma timeline_exact_witness :
  ∃ s, replay demo_records = Done s ∧
    points (lifetimes s) = record_points (outcomes demo_records) (reverse demo_records) ∧
    match replay demo_records with Done s => observed_live_bytes (lifetimes s) | Panicked => [] end =
      [64; 0; 16; 116; 100].
Proof.
  destruct (timeline_exact demo_records) as (s & E & Hp & _).
  - repeat (apply SSorted_cons; [|repeat (apply Forall_cons; split; [left; done|]); constructor]). constructor.
  - repeat constructor; simpl; lia.
  - vm_compute. reflexivity.
  - exists s. split_and!; [done..|]. vm_compute. reflexivity.
Defined.
