(* ===== verification/AllocationTrace.v ===== *)
(** * Allocation traces of the memory mode

    [parse_allocation_samples] and [unmap_range] of [mperf/src/postprocess/memory.rs]: the
    text that the allocation preload writes, replayed into live heap and mapped bytes.
    A file is its contents, if it could be read. *)

From S2P Require Import Prelude Words Text.
From stdpp Require Import sorting.
Open Scope Z_scope.

Module AllocationTrace.

Record AllocationPoint := mkPoint { timestamp : Z; p_live_allocated : Z; p_live_mapped : option Z }.

(** The variables of the loop. *)
Record Trace := mkTrace {
  heap : gmap Z Z;
  mappings : gmap Z Z;
  live_allocated : Z;
  peak_allocated : Z;
  live_mapped : Z;
  points : list AllocationPoint;
  child_seen : bool
}.

Definition new_trace : Trace := mkTrace ∅ ∅ 0 0 0 [] false.

(** The fields of a line: the first byte of the operation, the time in decimal, two
    hexadecimal addresses and the size in decimal. *)
Record Event := mkEvent { operation : Z; e_timestamp : Z; first : Z; second : Z; e_size : Z }.

Definition parse_event (line : list Z) : option Event :=
  match split_whitespace line with
  | (operation :: _) :: timestamp :: first :: second :: size :: _ =>
      timestamp ← parse_u64 timestamp;
      first ← from_str_radix 16 first;
      second ← from_str_radix 16 second;
      size ← parse_u64 size;
      Some (mkEvent operation timestamp first second size)
  | _ => None
  end.

(** The entries below [end_], in the order of their keys. *)
Definition entry_le (a b : Z * Z) : Prop := a.1 ≤ b.1.
#[export] Instance entry_le_dec a b : Decision (entry_le a b).
Proof. unfold entry_le. apply _. Defined.

Definition range_to (end_ : Z) (m : gmap Z Z) : list (Z * Z) :=
  merge_sort entry_le (List.filter (λ e, e.1 <? end_) (map_to_list m)).

(** The body of the loop over the overlapping mappings. *)
Definition cut (start end_ : Z) (st : gmap Z Z * Z) (entry : Z * Z) : gmap Z Z * Z :=
  let '(m, live) := st in
  let '(base, length) := entry in
  let m := delete base m in
  let mapping_end := saturating_add base length in
  let removed_start := Z.max base start in
  let removed_end := Z.min mapping_end end_ in
  let live := saturating_sub live (saturating_sub removed_end removed_start) in
  let m := if base <? start then <[base := start - base]> m else m in
  let m := if end_ <? mapping_end then <[end_ := mapping_end - end_]> m else m in
  (m, live).

Definition unmap_range (start size : Z) (st : gmap Z Z * Z) : gmap Z Z * Z :=
  let end_ := saturating_add start size in
  let overlaps := List.filter (λ e, start <? saturating_add e.1 e.2) (range_to end_ st.1) in
  foldl (cut start end_) st overlaps.

(** [insert] returns the value it replaces, [remove] the value it removes. *)
Definition sub_old (old : option Z) (live : Z) : Z :=
  match old with Some old => saturating_sub live old | None => live end.

Definition apply_event (t : Trace) (e : Event) : Trace :=
  let op := operation e in
  let with_heap h live := mkTrace h (mappings t) live (peak_allocated t) (live_mapped t) (points t) (child_seen t) in
  let with_mappings m live := mkTrace (heap t) m (live_allocated t) (peak_allocated t) live (points t) (child_seen t) in
  if (op =? 65) && negb (first e =? 0) then
    with_heap (<[first e := e_size e]> (heap t))
      (saturating_add (sub_old (heap t !! first e) (live_allocated t)) (e_size e))
  else if op =? 70 then
    with_heap (delete (first e) (heap t)) (sub_old (heap t !! first e) (live_allocated t))
  else if (op =? 82) && negb (second e =? 0) then
    let live := sub_old (heap t !! first e) (live_allocated t) in
    let h := delete (first e) (heap t) in
    with_heap (<[second e := e_size e]> h) (saturating_add (sub_old (h !! second e) live) (e_size e))
  else if (op =? 77) && negb (first e =? 0) then
    with_mappings (<[first e := e_size e]> (mappings t))
      (saturating_add (sub_old (mappings t !! first e) (live_mapped t)) (e_size e))
  else if op =? 85 then
    let '(m, live) := unmap_range (first e) (e_size e) (mappings t, live_mapped t) in with_mappings m live
  else if op =? 67 then
    mkTrace (heap t) (mappings t) (live_allocated t) (peak_allocated t) (live_mapped t) (points t) true
  else t.

(** The end of the loop's body: the peak and a point. *)
Definition observe (e : Event) (t : Trace) : Trace :=
  mkTrace (heap t) (mappings t) (live_allocated t) (Z.max (peak_allocated t) (live_allocated t))
    (live_mapped t)
    (points t ++ [mkPoint (e_timestamp e) (live_allocated t) (Some (live_mapped t))]) (child_seen t).

Definition step (t : Trace) (e : Event) : Trace := observe e (apply_event t e).

Record AllocationSummary := mkSummary {
  s_live_allocated : Z; s_peak_allocated : Z; s_live_mapped : option Z;
  s_points : list AllocationPoint; s_child_seen : bool
}.

Definition summary_of (t : Trace) : AllocationSummary :=
  mkSummary (live_allocated t) (peak_allocated t) (Some (live_mapped t)) (points t) (child_seen t).

(** A file that cannot be read leaves no summary; a line that does not parse is an error. *)
Definition parse_allocation_samples (contents : option (list Z)) : option (option AllocationSummary) :=
  match contents with
  | None => Some None
  | Some contents =>
      events ← mapM parse_event (lines contents);
      Some (Some (summary_of (foldl step new_trace events)))
  end.

End AllocationTrace.
