(* ===== verification/AllocationTraceSpec.v ===== *)
(** * What the memory mode's allocation replay computes

    - [Module Intervals]: mappings as disjoint intervals; cutting a range out of them removes
      exactly its addresses and keeps their total length;
    - [Module Replay]: after any trace the maps and the totals of the replay are those that a
      direct reading of the trace gives. *)

From S2P Require Import Prelude Words Text AllocationTrace.
From stdpp Require Import sorting.
Open Scope Z_scope.

Import AllocationTrace.

(** ** Totals of maps *)
Definition total (m : gmap Z Z) : Z := map_fold (λ _ l acc, l + acc) 0 m.

Lemma total_empty : total ∅ = 0.
Proof. apply map_fold_empty. Qed.

Lemma held_insert m k l : m !! k = None → total (<[k := l]> m) = l + total m.
Proof.
  intros H. unfold total. rewrite map_fold_insert_L; [done| |done]. intros; lia.
Qed.

Lemma total_delete m k l : m !! k = Some l → total (delete k m) = total m - l.
Proof.
  intros H. pose proof (held_insert (delete k m) k l (lookup_delete_eq _ _)) as E.
  rewrite insert_delete_id in E by done. lia.
Qed.

Module Intervals.

Record wf (m : gmap Z Z) : Prop := {
  wf_range b l : m !! b = Some l → 0 ≤ b ∧ 0 < l ∧ b + l ≤ u64_max;
  wf_disjoint b l b' l' : m !! b = Some l → m !! b' = Some l' → b < b' → b + l ≤ b'
}.

(** The addresses of the mappings. *)
Definition covered (m : gmap Z Z) (a : Z) : Prop := ∃ b l, m !! b = Some l ∧ b ≤ a < b + l.

Lemma wf_empty : wf ∅.
Proof. split; intros b l *; intros []%lookup_empty_Some. Qed.

Lemma wf_delete m b : wf m → wf (delete b m).
Proof.
  intros [Hr Hd]. split.
  - intros c l Hc. apply lookup_delete_Some in Hc as [_ Hc]. by apply Hr.
  - intros c l c' l' Hc Hc'. apply lookup_delete_Some in Hc as [_ Hc], Hc' as [_ Hc']. by apply (Hd c l c' l').
Qed.

Lemma covered_delete m b l a : wf m → m !! b = Some l → covered (delete b m) a ↔ covered m a ∧ ¬ (b ≤ a < b + l).
Proof.
  intros Hw Hb. split.
  - intros (c & k & Hc & Ha). rewrite lookup_delete_Some in Hc. destruct Hc as [Hne Hc]. split; [by exists c, k|].
    intros Ha'. destruct (Z.lt_trichotomy b c) as [Hlt|[->|Hlt]]; [|done|].
    + pose proof (wf_disjoint _ Hw _ _ _ _ Hb Hc Hlt). lia.
    + pose proof (wf_disjoint _ Hw _ _ _ _ Hc Hb Hlt). lia.
  - intros [(c & k & Hc & Ha) Hn]. exists c, k. split; [|done]. rewrite lookup_delete_Some. split; [|done].
    intros ->. rewrite Hb in Hc. injection Hc as ->. done.
Qed.

(** A new interval none of whose addresses is covered. *)
Definition free (m : gmap Z Z) (b l : Z) : Prop := ∀ a, b ≤ a < b + l → ¬ covered m a.

Lemma free_key m b l : wf m → 0 < l → free m b l → m !! b = None.
Proof.
  intros Hw Hl Hf. destruct (m !! b) as [k|] eqn:E; [|done]. exfalso.
  destruct (wf_range _ Hw _ _ E) as (_ & Hk & _). apply (Hf b); [lia|]. exists b, k. split; [done|lia].
Qed.

Lemma free_apart m b l c k :
  wf m → 0 < l → free m b l → m !! c = Some k → (c < b → c + k ≤ b) ∧ (b < c → b + l ≤ c).
Proof.
  intros Hw Hl Hf Hc. destruct (wf_range _ Hw _ _ Hc) as (_ & Hk & _). split; intros Hlt.
  - destruct (decide (c + k ≤ b)); [done|]. exfalso. apply (Hf b); [lia|]. exists c, k. split; [done|lia].
  - destruct (decide (b + l ≤ c)); [done|]. exfalso. apply (Hf c); [lia|]. exists c, k. split; [done|lia].
Qed.

Lemma wf_insert m b l : wf m → 0 ≤ b → 0 < l → b + l ≤ u64_max → free m b l → wf (<[b := l]> m).
Proof.
  intros Hw Hb Hl Hu Hf. split.
  - intros c k Hc. apply lookup_insert_Some in Hc as [[<- <-]|[_ Hc]]; [done|by apply (wf_range _ Hw)].
  - intros c k c' k' Hc Hc' Hlt.
    apply lookup_insert_Some in Hc as [[<- <-]|[Hne Hc]]; apply lookup_insert_Some in Hc' as [[<- <-]|[Hne' Hc']].
    + lia.
    + by apply (free_apart m b l c' k').
    + by apply (free_apart m b l c k).
    + by apply (wf_disjoint _ Hw c k c' k').
Qed.

Lemma covered_insert m b l a :
  m !! b = None → covered (<[b := l]> m) a ↔ covered m a ∨ b ≤ a < b + l.
Proof.
  intros Hb. split.
  - intros (c & k & Hc & Ha). apply lookup_insert_Some in Hc as [[<- <-]|[_ Hc]]; [by right|]. left. by exists c, k.
  - intros [(c & k & Hc & Ha)|Ha].
    + exists c, k. split; [|done]. rewrite lookup_insert_ne; [done|]. intros ->. by rewrite Hb in Hc.
    + exists b, l. by rewrite lookup_insert_eq.
Qed.

Lemma held_nonneg m : wf m → 0 ≤ total m.
Proof.
  induction m as [|k v m Hk IH] using map_ind; [by rewrite total_empty|].
  intros Hw. rewrite held_insert by done. destruct (wf_range _ Hw k v) as (? & ? & ?); [by rewrite lookup_insert_eq|].
  apply wf_delete with (b := k) in Hw. rewrite delete_insert_id in Hw by done. pose proof (IH Hw). lia.
Qed.

(** *** Keeping a part of an interval: insertion guarded by its length *)
Definition insert_if (c : bool) (b l : Z) (m : gmap Z Z) : gmap Z Z := if c then <[b := l]> m else m.

Lemma insert_if_spec (c : bool) b l m :
  wf m → (c = true → 0 ≤ b ∧ 0 < l ∧ b + l ≤ u64_max ∧ free m b l) →
  let m' := insert_if c b l m in
  wf m' ∧ total m' = total m + (if c then l else 0) ∧
  (∀ a, covered m' a ↔ covered m a ∨ c = true ∧ b ≤ a < b + l) ∧
  (∀ k v, m !! k = Some v → m' !! k = Some v).
Proof.
  intros Hw Hc. destruct c; simpl; [|split_and!; [done|lia|intros a; split; [by left|by intros [?|[? _]]]|done]].
  destruct (Hc eq_refl) as (Hb & Hl & Hu & Hf). pose proof (free_key _ _ _ Hw Hl Hf) as Hk. split_and!.
  - by apply wf_insert.
  - rewrite held_insert by done. lia.
  - intros a. rewrite covered_insert by done. tauto.
  - intros k v Hv. rewrite lookup_insert_ne; [done|]. intros ->. by rewrite Hk in Hv.
Qed.

Section cut.
Context (start end_ : Z) (Hrange : 0 ≤ start ≤ end_) (Hend : end_ ≤ u64_max).

(** One turn of the loop. *)
Lemma cut_spec m b l :
  wf m → m !! b = Some l → b < end_ → start < b + l →
  ∃ m', cut start end_ (m, total m) (b, l) = (m', total m') ∧ wf m' ∧
    (∀ a, covered m' a ↔ covered m a ∧ ¬ (b ≤ a < b + l ∧ start ≤ a < end_)) ∧
    (∀ k v, k ≠ b → m !! k = Some v → m' !! k = Some v).
Proof.
  intros Hw Hb Hbe Hsb. destruct (wf_range _ Hw _ _ Hb) as (Hb0 & Hl & Hu).
  pose proof (wf_delete _ b Hw) as Hwd. pose proof (covered_delete m b l) as Hcd.
  destruct (insert_if_spec (b <? start) b (start - b) (delete b m)) as (Hw1 & Ht1 & Hc1 & Hk1); [done| |].
  { intros Hlt%Z.ltb_lt. split_and!; [lia..|]. intros a Ha (Hca & Hn)%Hcd; [lia|done..]. }
  set (m1 := insert_if _ _ _ _) in *.
  destruct (insert_if_spec (end_ <? b + l) end_ (b + l - end_) m1) as (Hw2 & Ht2 & Hc2 & Hk2); [done| |].
  { intros Hlt%Z.ltb_lt. split_and!; [lia..|]. intros a Ha [(Hca & Hn)%Hcd|[_ ?]]%Hc1; [lia|done..|lia]. }
  eexists. split; [|split; [exact Hw2|split]].
  - unfold cut. replace (saturating_add b l) with (b + l) by word_lia. fold (insert_if (b <? start) b (start - b) (delete b m)).
    fold m1. fold (insert_if (end_ <? b + l) end_ (b + l - end_) m1). f_equal. rewrite Ht2, Ht1, (total_delete _ _ _ Hb).
    pose proof (held_nonneg _ Hw1) as Hm1.
    rewrite Ht1, (total_delete _ _ _ Hb) in Hm1.
    destruct (Z.ltb_spec b start), (Z.ltb_spec end_ (b + l)); word_lia.
  - intros a. rewrite Hc2, Hc1, Hcd by done. rewrite !Z.ltb_lt. split.
    + intros [[[? ?]|[? ?]]|[? ?]]; [tauto|..]; (split; [exists b, l; split; [done|lia]|lia]).
    + intros [Hca Hn]. destruct (decide (b ≤ a < b + l)); [|tauto].
      destruct (decide (a < start)); [left; right; lia|right; lia].
  - intros k v Hne Hv. apply Hk2, Hk1. by rewrite lookup_delete_ne.
Qed.

Lemma cuts_spec entries m :
  wf m → NoDup entries.*1 → Forall (λ e, m !! e.1 = Some e.2 ∧ e.1 < end_ ∧ start < e.1 + e.2) entries →
  ∃ m', foldl (cut start end_) (m, total m) entries = (m', total m') ∧ wf m' ∧
    ∀ a, covered m' a ↔ covered m a ∧ ∀ e, e ∈ entries → ¬ (e.1 ≤ a < e.1 + e.2 ∧ start ≤ a < end_).
Proof.
  revert m. induction entries as [|[b l] es IH]; intros m Hw Hnd Hes; cbn [foldl].
  - exists m. split_and!; [done..|]. intros a. split; [intros ?; split; [done|by intros e ?%elem_of_nil]|by intros [? _]].
  - inversion_clear Hnd as [|?? Hni Hnd']. inversion_clear Hes as [|?? (Hb & Hbe & Hsb) Hes'].
    destruct (cut_spec m b l Hw Hb Hbe Hsb) as (m1 & -> & Hw1 & Hc1 & Hk1).
    destruct (IH m1 Hw1 Hnd') as (m2 & E & Hw2 & Hc2).
    { rewrite Forall_forall in Hes' |- *. intros e He. destruct (Hes' e He) as (Hm & ?). split; [|done].
      apply Hk1; [|done]. intros Heq. apply Hni. rewrite <-Heq. by apply list_elem_of_fmap_2. }
    exists m2. split_and!; [done..|]. intros a. rewrite Hc2, Hc1. split.
    + intros [[Hca Hn] Hr]. split; [done|]. intros e [->|He]%elem_of_cons; [done|by apply Hr].
    + intros [Hca Hr]. split; [split; [done|apply (Hr (b, l)); by left]|]. intros e He. apply Hr. by right.
Qed.
End cut.

(** The entries that [unmap_range] visits. *)
Lemma elem_of_range_to end_ m b l : (b, l) ∈ range_to end_ m ↔ m !! b = Some l ∧ b < end_.
Proof.
  unfold range_to. rewrite merge_sort_Permutation, list_elem_of_In, filter_In, <-list_elem_of_In, elem_of_map_to_list, Z.ltb_lt. done.
Qed.

Lemma NoDup_filter_fst (p : Z * Z → bool) (l : list (Z * Z)) : NoDup l.*1 → NoDup (List.filter p l).*1.
Proof.
  induction l as [|x l IH]; [done|]. rewrite fmap_cons, NoDup_cons. intros [Hni Hnd]. simpl.
  destruct (p x); [|by apply IH]. rewrite fmap_cons, NoDup_cons. split; [|by apply IH].
  intros (y & E & Hy)%list_elem_of_fmap. apply Hni. rewrite E.
  apply list_elem_of_In, filter_In in Hy as [Hy%list_elem_of_In _]. by apply list_elem_of_fmap_2.
Qed.

Lemma range_to_NoDup end_ m : NoDup (range_to end_ m).*1.
Proof.
  unfold range_to. rewrite merge_sort_Permutation. apply NoDup_filter_fst, NoDup_fst_map_to_list.
Qed.

Lemma unmap_range_spec m start size :
  wf m → 0 ≤ start ≤ u64_max → 0 ≤ size →
  ∃ m', unmap_range start size (m, total m) = (m', total m') ∧ wf m' ∧
    ∀ a, covered m' a ↔ covered m a ∧ ¬ (start ≤ a < start + size).
Proof.
  intros Hw Hs Hz. unfold unmap_range. set (end_ := saturating_add start size). cbn [fst].
  set (es := List.filter _ _).
  assert (Hes : ∀ b l, (b, l) ∈ es ↔ m !! b = Some l ∧ b < end_ ∧ start < b + l).
  { intros b l. unfold es. rewrite list_elem_of_In, filter_In, <-list_elem_of_In, elem_of_range_to. cbn [fst snd].
    rewrite Z.ltb_lt. split; intros H; destruct_and!; (split_and!; [done..|]); destruct (wf_range _ Hw b l) as (? & ? & ?); word_lia || done. }
  destruct (cuts_spec start end_ ltac:(unfold end_; word_lia) ltac:(unfold end_; word_lia) es m Hw) as (m' & E & Hw' & Hc).
  - apply NoDup_filter_fst, range_to_NoDup.
  - apply Forall_forall. intros [b l] He. by apply Hes.
  - exists m'. split_and!; [done..|]. intros a. rewrite Hc. split; intros [Hca Hn]; (split; [done|]).
    + intros Ha. destruct Hca as (b & l & Hb & Hab). destruct (wf_range _ Hw _ _ Hb) as (? & ? & ?).
      assert (a < end_) by (unfold end_; word_lia).
      apply (Hn (b, l)); [apply Hes; split_and!; [done|lia..]|simpl; lia].
    + intros [b l] (Hb & _)%Hes [? ?]. apply Hn. unfold end_ in *. word_lia.
Qed.

End Intervals.

(** ** The whole replay *)
Module Replay.
Import Intervals.

Definition is_map (e : Event) : bool := (operation e =? 77) && negb (first e =? 0).
Definition is_alloc (e : Event) : bool := (operation e =? 65) && negb (first e =? 0).
Definition is_realloc (e : Event) : bool := (operation e =? 82) && negb (second e =? 0).
Definition is_free (e : Event) : bool := operation e =? 70.
Definition is_unmap (e : Event) : bool := operation e =? 85.
Definition within (e : Event) (a : Z) : bool := (first e <=? a) && (a <? first e + e_size e).

(** The size of the block at [p] and whether [a] is mapped, read off the events, the latest
    first. *)
Fixpoint block (h : list Event) (p : Z) : option Z :=
  match h with
  | [] => None
  | e :: h =>
      if is_alloc e && (p =? first e) || is_realloc e && (p =? second e) then Some (e_size e)
      else if (is_free e || is_realloc e) && (p =? first e) then None
      else block h p
  end.

Fixpoint mapped (h : list Event) (a : Z) : bool :=
  match h with
  | [] => false
  | e :: h =>
      if is_map e && within e a then true
      else if is_unmap e && within e a then false
      else mapped h a
  end.

(** A mapping call returns a range of the address space that is free. *)
Definition map_ok (e : Event) : Prop := is_map e = true → 0 < e_size e ∧ first e + e_size e ≤ u64_max.
Definition fresh (h : list Event) (e : Event) : Prop :=
  is_map e = true → ∀ a, within e a = true → mapped h a = false.
Fixpoint all_fresh (h evs : list Event) : Prop :=
  match evs with [] => True | e :: evs => fresh h e ∧ all_fresh (e :: h) evs end.

(** The bytes ever handed out by the heap. *)
Definition allotted (e : Event) : Z := if is_alloc e || is_realloc e then e_size e else 0.
Definition allotted_all (evs : list Event) : Z := foldr (λ e acc, allotted e + acc) 0 evs.

Lemma allotted_cons e h : allotted_all (e :: h) = (if is_alloc e || is_realloc e then e_size e else 0) + allotted_all h.
Proof. done. Qed.

Definition in_range (e : Event) : Prop := in_u64 (first e) ∧ in_u64 (second e) ∧ in_u64 (e_size e).

(** *** Addresses of disjoint intervals *)
Lemma addresses m : wf m →
  ∃ addrs, NoDup addrs ∧ (∀ a, a ∈ addrs ↔ covered m a) ∧ total m = Z.of_nat (length addrs).
Proof.
  induction m as [|k v m Hk IH] using map_ind; intros Hw.
  - exists []. split_and!; [by apply NoDup_nil| |by rewrite total_empty]. intros a.
    split; [by intros ?%elem_of_nil|by intros (? & ? & []%lookup_empty_Some & _)].
  - pose proof (wf_range _ Hw k v ltac:(by rewrite lookup_insert_eq)) as (? & ? & ?).
    pose proof (covered_delete (<[k := v]> m) k v) as Hcd. pose proof (wf_delete _ k Hw) as Hwm.
    rewrite delete_insert_id in Hwm by done.
    destruct (IH Hwm) as (addrs & Hnd & Hin & Ht). exists (seqZ k v ++ addrs). split_and!.
    + apply NoDup_app. split_and!; [apply NoDup_seqZ| |done]. intros a Ha Hc%Hin.
      rewrite <-(delete_insert_id m k v Hk) in Hc. apply Hcd in Hc; [|done|by rewrite lookup_insert_eq].
      apply elem_of_seqZ in Ha. lia.
    + intros a. rewrite elem_of_app, Hin, elem_of_seqZ, covered_insert by done. tauto.
    + rewrite held_insert, Ht, length_app, length_seqZ by done. lia.
Qed.

Lemma total_bounded m : wf m → total m ≤ u64_max.
Proof.
  intros Hw. destruct (addresses m Hw) as (addrs & Hnd & Hin & ->).
  assert (H : addrs ⊆+ seqZ 0 u64_max).
  { apply NoDup_submseteq; [done|]. intros a (b & l & Hb & Ha)%Hin. apply elem_of_seqZ.
    destruct (wf_range _ Hw _ _ Hb) as (? & ? & ?). lia. }
  apply submseteq_length in H. rewrite length_seqZ in H. word_lia.
Qed.

(** *** The heap *)
Definition heap_ok (m : gmap Z Z) : Prop := ∀ p l, m !! p = Some l → 0 ≤ l.

Lemma heap_total m : heap_ok m → 0 ≤ total m ∧ ∀ p l, m !! p = Some l → l ≤ total m.
Proof.
  induction m as [|k v m Hk IH] using map_ind; intros Hok.
  - rewrite total_empty. split; [done|by intros p l []%lookup_empty_Some].
  - rewrite held_insert by done. pose proof (Hok k v ltac:(by rewrite lookup_insert_eq)).
    destruct IH as [IH1 IH2].
    { intros p l Hp. apply (Hok p). rewrite lookup_insert_ne; [done|]. intros ->. by rewrite Hk in Hp. }
    split; [lia|]. intros p l [[<- <-]|[_ Hp]]%lookup_insert_Some; [lia|]. apply IH2 in Hp. lia.
Qed.

Lemma total_remove m p : heap_ok m → sub_old (m !! p) (total m) = total (delete p m).
Proof.
  intros Hok. destruct (m !! p) as [l|] eqn:E; simpl; [|by rewrite delete_id].
  destruct (heap_total _ Hok) as [_ Hl]. apply Hl in E as Hle. rewrite (total_delete _ _ _ E). word_lia.
Qed.

Lemma total_replace m p l : heap_ok m → total (<[p := l]> m) = l + total (delete p m).
Proof. intros Hok. rewrite <-insert_delete_eq. apply held_insert, lookup_delete_eq. Qed.

Lemma heap_ok_delete m p : heap_ok m → heap_ok (delete p m).
Proof. intros H q l [_ Hq]%lookup_delete_Some. by apply (H q). Qed.

Lemma heap_ok_insert m p l : heap_ok m → 0 ≤ l → heap_ok (<[p := l]> m).
Proof. intros H Hl q k [[_ <-]|[_ Hq]]%lookup_insert_Some; [done|by apply (H q)]. Qed.

Lemma total_delete_le m p : heap_ok m → total (delete p m) ≤ total m.
Proof.
  intros Hok. rewrite <-total_remove by done. destruct (heap_total m Hok) as [H0 _].
  destruct (m !! p) as [l|] eqn:E; simpl; [apply Hok in E|]; word_lia.
Qed.

(** *** The invariant of the loop; [h] are the events so far, the latest first *)
Record tracks (h : list Event) (t : Trace) : Prop := {
  tr_heap p : heap t !! p = block h p;
  tr_heap_ok : heap_ok (heap t);
  tr_allocated : live_allocated t = total (heap t);
  tr_bounded : total (heap t) ≤ allotted_all h;
  tr_wf : wf (mappings t);
  tr_mapped : live_mapped t = total (mappings t);
  tr_covered a : covered (mappings t) a ↔ mapped h a = true
}.

Lemma tracks_new : tracks [] new_trace.
Proof.
  split; try done; try apply wf_empty.
  intros a. split; [|done]. intros (b & l & Hb & _). by destruct (lookup_empty_Some b l).
Qed.

(** An event that concerns the heap only, or the mappings only. *)
Lemma tracks_heap h t e m :
  tracks h t → heap_ok m → (∀ p, m !! p = block (e :: h) p) → total m ≤ allotted_all (e :: h) →
  is_map e = false → is_unmap e = false →
  tracks (e :: h) (mkTrace m (mappings t) (total m) (peak_allocated t) (live_mapped t) (points t) (child_seen t)).
Proof.
  intros [] Hok Hm Hb Hmap Hun. split; try done. intros a. cbn [mapped mappings]. by rewrite Hmap, Hun.
Qed.

Lemma tracks_mappings h t e m :
  tracks h t → wf m → (∀ a, covered m a ↔ mapped (e :: h) a = true) →
  is_alloc e = false → is_realloc e = false → is_free e = false →
  tracks (e :: h) (mkTrace (heap t) m (live_allocated t) (peak_allocated t) (total m) (points t) (child_seen t)).
Proof.
  intros [] Hw Hm Ha Hr Hf. split; try done.
  - intros p. cbn [block heap]. by rewrite Ha, Hr, Hf.
  - rewrite allotted_cons, Ha, Hr. done.
Qed.

Lemma tracks_other h t e (c : bool) :
  tracks h t → is_alloc e = false → is_realloc e = false → is_free e = false →
  is_map e = false → is_unmap e = false →
  tracks (e :: h) (mkTrace (heap t) (mappings t) (live_allocated t) (peak_allocated t) (live_mapped t) (points t) c).
Proof.
  intros [] Ha Hr Hf Hmap Hun. split; try done.
  - intros p. cbn [block heap]. by rewrite Ha, Hr, Hf.
  - rewrite allotted_cons, Ha, Hr. done.
  - intros a. cbn [mapped mappings]. by rewrite Hmap, Hun.
Qed.

Lemma within_spec e a : within e a = true ↔ first e ≤ a < first e + e_size e.
Proof. unfold within. rewrite andb_true_iff, Z.leb_le, Z.ltb_lt. done. Qed.

(** The five kinds of events exclude each other. *)
Ltac kinds e := unfold is_alloc, is_realloc, is_map, is_free, is_unmap in *;
  repeat match goal with
  | H : (_ && _) = true |- _ => apply andb_true_iff in H as [? ?]
  | H : (operation e =? _) = true |- _ => apply Z.eqb_eq in H
  end; rewrite ?andb_false_iff, ?Z.eqb_neq; lia.

Section apply.
Context (h : list Event) (t : Trace) (e : Event).
Context (Ht : tracks h t) (He : in_range e) (Hsum : allotted_all (e :: h) ≤ u64_max).

Lemma total_heap_bounds : 0 ≤ total (heap t) ≤ allotted_all h.
Proof. destruct Ht. split; [by apply heap_total|done]. Qed.

Lemma apply_alloc : is_alloc e = true → tracks (e :: h) (apply_event t e).
Proof.
  intros Ha. pose proof (tr_heap_ok _ _ Ht) as Hok. pose proof total_heap_bounds. pose proof (total_delete_le _ (first e) Hok).
  assert (0 ≤ total (delete (first e) (heap t))) by (apply heap_total; by apply heap_ok_delete).
  destruct He as (_ & _ & [Hs _]). rewrite allotted_cons, Ha in Hsum. cbn [orb] in Hsum.
  unfold apply_event. fold (is_alloc e) (is_free e). rewrite Ha, (tr_allocated _ _ Ht), total_remove by done.
  replace (saturating_add _ _) with (total (<[first e:=e_size e]> (heap t))) by (rewrite total_replace by done; word_lia).
  apply tracks_heap; [done|by apply heap_ok_insert| | |kinds e|kinds e].
  - intros p. cbn [block]. rewrite Ha. replace (is_realloc e) with false by (symmetry; kinds e).
    replace (is_free e) with false by (symmetry; kinds e). cbn [andb orb]. rewrite orb_false_r.
    destruct (Z.eqb_spec p (first e)) as [->|Hne]; [by rewrite lookup_insert_eq|].
    rewrite lookup_insert_ne by done. apply Ht.
  - rewrite allotted_cons, Ha, total_replace by done. cbn [orb]. lia.
Qed.

Lemma apply_free : is_free e = true → tracks (e :: h) (apply_event t e).
Proof.
  intros Hf. pose proof (tr_heap_ok _ _ Ht) as Hok. pose proof total_heap_bounds. pose proof (total_delete_le _ (first e) Hok).
  assert (Ha : is_alloc e = false) by kinds e. assert (Hr : is_realloc e = false) by kinds e.
  unfold apply_event. fold (is_alloc e) (is_free e). rewrite Ha, Hf, (tr_allocated _ _ Ht), total_remove by done.
  apply tracks_heap; [done|by apply heap_ok_delete| | |kinds e|kinds e].
  - intros p. cbn [block]. rewrite Ha, Hr, Hf. cbn [andb orb].
    destruct (Z.eqb_spec p (first e)) as [->|Hne]; [by rewrite lookup_delete_eq|].
    rewrite lookup_delete_ne by done. apply Ht.
  - rewrite allotted_cons, Ha, Hr. cbn [orb]. lia.
Qed.

Lemma apply_realloc : is_realloc e = true → tracks (e :: h) (apply_event t e).
Proof.
  intros Hr. pose proof (tr_heap_ok _ _ Ht) as Hok. pose proof (heap_ok_delete _ (first e) Hok) as Hok1.
  pose proof (heap_ok_delete _ (second e) Hok1) as Hok2.
  pose proof total_heap_bounds. pose proof (total_delete_le _ (first e) Hok). pose proof (total_delete_le _ (second e) Hok1).
  pose proof (proj1 (heap_total _ Hok2)). destruct He as (_ & _ & [Hs _]).
  assert (Ha : is_alloc e = false) by kinds e. assert (Hf : is_free e = false) by kinds e.
  rewrite allotted_cons, Ha, Hr in Hsum. cbn [orb] in Hsum.
  unfold apply_event. fold (is_alloc e) (is_free e) (is_realloc e). rewrite Ha, Hf, Hr, (tr_allocated _ _ Ht), !total_remove by done.
  replace (saturating_add _ _) with (total (<[second e:=e_size e]> (delete (first e) (heap t))))
    by (rewrite total_replace by done; word_lia).
  apply tracks_heap; [done|by apply heap_ok_insert| | |kinds e|kinds e].
  - intros p. cbn [block]. rewrite Ha, Hr, Hf. cbn [andb orb].
    destruct (Z.eqb_spec p (second e)) as [->|Hne]; [by rewrite lookup_insert_eq|].
    rewrite lookup_insert_ne by done. destruct (Z.eqb_spec p (first e)) as [->|Hne']; [by rewrite lookup_delete_eq|].
    rewrite lookup_delete_ne by done. apply Ht.
  - rewrite allotted_cons, Ha, Hr, total_replace by done. cbn [orb]. lia.
Qed.

Lemma apply_map : is_map e = true → map_ok e → fresh h e → tracks (e :: h) (apply_event t e).
Proof.
  intros Hm [Hs Hu]%(λ H, H Hm) Hfr. destruct He as ([Hf0 _] & _).
  assert (Hfree : free (mappings t) (first e) (e_size e)).
  { intros a Ha%within_spec Hc%(tr_covered _ _ Ht). by rewrite Hfr in Hc. }
  pose proof (tr_wf _ _ Ht) as Hw. pose proof (free_key _ _ _ Hw Hs Hfree) as Hk.
  assert (Hw' : wf (<[first e:=e_size e]> (mappings t))) by by apply wf_insert.
  pose proof (total_bounded _ Hw') as Hb. pose proof (held_nonneg _ Hw).
  assert (Ha : is_alloc e = false) by kinds e. assert (Hr : is_realloc e = false) by kinds e. assert (Hf : is_free e = false) by kinds e.
  unfold apply_event. fold (is_alloc e) (is_free e) (is_realloc e) (is_map e) (is_unmap e). rewrite Ha, Hf, Hr, Hm, (tr_mapped _ _ Ht), Hk.
  cbn [sub_old]. rewrite held_insert in Hb by done.
  replace (saturating_add _ _) with (total (<[first e:=e_size e]> (mappings t))) by (rewrite held_insert by done; word_lia).
  apply tracks_mappings; try done. intros a. rewrite covered_insert, (tr_covered _ _ Ht), <-within_spec by done.
  cbn [mapped]. rewrite Hm. replace (is_unmap e) with false by (symmetry; kinds e). cbn [andb].
  destruct (within e a); [split; [done|by right]|]. split; [by intros [?|?]|by left].
Qed.

Lemma apply_unmap : is_unmap e = true → tracks (e :: h) (apply_event t e).
Proof.
  intros Hu. destruct He as (Hf & _ & [Hs _]).
  assert (Ha : is_alloc e = false) by kinds e. assert (Hr : is_realloc e = false) by kinds e.
  assert (Hfr : is_free e = false) by kinds e. assert (Hm : is_map e = false) by kinds e.
  unfold apply_event. fold (is_alloc e) (is_free e) (is_realloc e) (is_map e) (is_unmap e). rewrite Ha, Hfr, Hr, Hm, Hu, (tr_mapped _ _ Ht).
  destruct (unmap_range_spec (mappings t) (first e) (e_size e)) as (m & -> & Hw & Hc); [apply Ht|word_lia|done|].
  apply tracks_mappings; try done. intros a. rewrite Hc, (tr_covered _ _ Ht), <-within_spec. cbn [mapped].
  rewrite Hm, Hu. cbn [andb]. destruct (within e a); split; try done; [by intros [_ []]|by intros [? _]].
Qed.

Lemma apply_spec : map_ok e → fresh h e → tracks (e :: h) (apply_event t e).
Proof.
  intros Hok Hfr. destruct (is_alloc e) eqn:Ha; [by apply apply_alloc|].
  destruct (is_free e) eqn:Hf; [by apply apply_free|]. destruct (is_realloc e) eqn:Hr; [by apply apply_realloc|].
  destruct (is_map e) eqn:Hm; [by apply apply_map|]. destruct (is_unmap e) eqn:Hu; [by apply apply_unmap|].
  unfold apply_event. fold (is_alloc e) (is_free e) (is_realloc e) (is_map e) (is_unmap e). rewrite Ha, Hf, Hr, Hm, Hu.
  destruct (operation e =? 67); [by apply tracks_other|].
  pose proof (tracks_other h t e (child_seen t) Ht Ha Hr Hf Hm Hu) as Ho. by destruct t.
Qed.
End apply.

(** *** The points *)
Lemma tracks_observe h t e : tracks h t → tracks h (observe e t).
Proof. by intros []. Qed.

Lemma step_points t e :
  points (step t e) = points t ++ [mkPoint (e_timestamp e) (live_allocated (step t e)) (Some (live_mapped (step t e)))] ∧
  peak_allocated (step t e) = Z.max (peak_allocated t) (live_allocated (step t e)).
Proof.
  unfold step, observe. cbn. unfold apply_event, unmap_range. repeat case_match; done.
Qed.

Lemma steps_points evs t :
  let t' := foldl step t evs in
  ∃ ps, points t' = points t ++ ps ∧ length ps = length evs ∧
    peak_allocated t' = foldl Z.max (peak_allocated t) (p_live_allocated <$> ps) ∧
    ∀ h e tl, evs = h ++ e :: tl →
      let t1 := foldl step t (h ++ [e]) in ps !! length h = Some (mkPoint (e_timestamp e) (live_allocated t1) (Some (live_mapped t1))).
Proof.
  revert t. induction evs as [|e evs IH]; intros t; cbn [foldl].
  - exists []. rewrite app_nil_r. split_and!; [done..|]. by intros [|? ?] ? ? [=].
  - destruct (step_points t e) as [Hp Hm]. destruct (IH (step t e)) as (ps & Hps & Hl & Hpk & Hn).
    eexists (_ :: ps). rewrite Hps, Hp, <-app_assoc. split_and!; [done|cbn; by rewrite Hl| |].
    + rewrite Hpk, Hm. done.
    + intros [|x h] e' tl [= <- Htl]; cbn; [done|]. by apply (Hn h e' tl).
Qed.

Lemma run_tracks evs h t :
  tracks h t → Forall in_range evs → Forall map_ok evs → all_fresh h evs →
  allotted_all h + allotted_all evs ≤ u64_max → tracks (reverse evs ++ h) (foldl step t evs).
Proof.
  revert h t. induction evs as [|e evs IH]; intros h t Ht Hr Hm Hf Hs; [done|]. cbn [foldl].
  inversion_clear Hr as [|?? Hr1 Hr2]. inversion_clear Hm as [|?? Hm1 Hm2]. destruct Hf as [Hf1 Hf2].
  rewrite reverse_cons, <-app_assoc. cbn [app]. rewrite (allotted_cons e evs) in Hs.
  assert (0 ≤ allotted_all evs).
  { clear -Hr2. induction Hr2 as [|x l (_ & _ & [? _]) _ IH]; [done|]. rewrite allotted_cons. case_match; lia. }
  apply IH; [|done..|rewrite allotted_cons; lia].
  apply tracks_observe, apply_spec; try done. rewrite allotted_cons. lia.
Qed.

(** *** What the parser gives *)
Lemma parse_digits_range radix acc s n : in_u64 acc → parse_digits radix acc s = Some n → in_u64 n.
Proof.
  revert acc. induction s as [|c s IH]; intros acc Ha; cbn [parse_digits]; [by intros [= <-]|].
  destruct (to_digit radix c) as [d|] eqn:Hd; [|done]. cbn. unfold checked_mul, checked_add.
  destruct (Z.leb_spec (acc * radix) u64_max); [|done]. cbn. destruct (Z.leb_spec (acc * radix + d) u64_max); [|done]. cbn.
  apply IH. assert (0 ≤ d < radix).
  { unfold to_digit in Hd. repeat case_match; simplify_eq; try lia.
    all: repeat match goal with H : _ && _ = true |- _ => apply andb_true_iff in H as [?%Z.leb_le ?%Z.leb_le] end; lia. }
  split; [|done]. destruct Ha. nia.
Qed.

Lemma from_str_radix_range radix s n : from_str_radix radix s = Some n → in_u64 n.
Proof.
  assert (in_u64 0) by word_lia. unfold from_str_radix. repeat case_match; try done; by apply parse_digits_range.
Qed.

Lemma parse_event_range line e : parse_event line = Some e → in_range e.
Proof.
  unfold parse_event. destruct (split_whitespace line) as [|[|op ?] [|ts [|f [|g [|sz ?]]]]]; try done.
  intros (x1 & _ & H)%bind_Some. apply bind_Some in H as (x2 & H2 & H). apply bind_Some in H as (x3 & H3 & H).
  apply bind_Some in H as (x4 & H4 & [= <-]). split_and!; by eapply from_str_radix_range.
Qed.

Lemma parse_events_range ls evs : mapM parse_event ls = Some evs → Forall in_range evs.
Proof.
  intros H%mapM_Some. induction H as [|l e ls evs He _ IH]; [done|]. constructor; [by eapply parse_event_range|done].
Qed.
End Replay.

(** C29: the replay of an allocation trace whose lines parse is exact.  The heap holds, at
    every address, the block that the last event for it left, and the live bytes are their
    sum; the mapped bytes are the number of addresses that some mapping call handed out and
    no later unmapping call took back, however the ranges of the unmappings cut the mappings.
    There is one point per line with the totals after it, and the peak is their maximum.
    (Mapping calls return free ranges, and the heap does not hand out 2^64 bytes.) *)
Theorem trace_exact (contents : list Z) (evs : list Event) :
  mapM parse_event (lines contents) = Some evs →
  Forall Replay.map_ok evs → Replay.all_fresh [] evs → Replay.allotted_all evs ≤ u64_max →
  ∃ t, parse_allocation_samples (Some contents) = Some (Some (summary_of t)) ∧ t = foldl step new_trace evs ∧
    (∀ p, heap t !! p = Replay.block (reverse evs) p) ∧ live_allocated t = total (heap t) ∧
    (∃ addresses, NoDup addresses ∧ (∀ a, a ∈ addresses ↔ Replay.mapped (reverse evs) a = true) ∧
       live_mapped t = Z.of_nat (length addresses)) ∧
    length (points t) = length evs ∧
    (∀ h e tl, evs = h ++ e :: tl → let t1 := foldl step new_trace (h ++ [e]) in
       points t !! length h = Some (mkPoint (e_timestamp e) (live_allocated t1) (Some (live_mapped t1)))) ∧
    peak_allocated t = foldl Z.max 0 (p_live_allocated <$> points t).
Proof.
  intros Hp Hm Hf Hs. unfold parse_allocation_samples. rewrite Hp. cbn.
  exists (foldl step new_trace evs). split; [done|]. split; [done|].
  pose proof (Replay.run_tracks evs [] new_trace Replay.tracks_new (Replay.parse_events_range _ _ Hp) Hm Hf Hs) as Ht.
  rewrite app_nil_r in Ht. destruct (Replay.steps_points evs new_trace) as (ps & Hps & Hl & Hpk & Hn). cbn in Hps.
  split_and!; [apply Ht..| |by rewrite Hps|rewrite Hps; exact Hn|by rewrite Hpk, Hps].
  destruct (Replay.addresses _ (Replay.tr_wf _ _ Ht)) as (addrs & Hnd & Hin & Htot).
  exists addrs. split_and!; [done| |by rewrite (Replay.tr_mapped _ _ Ht)].
  intros a. by rewrite Hin, (Replay.tr_covered _ _ Ht).
Qed.

Definition demo : list Z :=
  unlines [chars "A 1 10 0 64"; chars "M 2 1000 0 4096"; chars "U 3 1400 0 256"; chars "R 4 10 20 128"].

Definition demo_events : list Event :=
  [mkEvent 65 1 16 0 64; mkEvent 77 2 4096 0 4096; mkEvent 85 3 5120 0 256; mkEvent 82 4 16 32 128].

Lemma trace_exact_witness :
  mapM parse_event (lines demo) = Some demo_events ∧
  ∃ t, parse_allocation_samples (Some demo) = Some (Some (summary_of t)) ∧
    (∀ p, heap t !! p = Replay.block (reverse demo_events) p) ∧
    (∃ addresses, NoDup addresses ∧ (∀ a, a ∈ addresses ↔ Replay.mapped (reverse demo_events) a = true) ∧
       live_mapped t = Z.of_nat (length addresses)).
Proof.
  assert (Hp : mapM parse_event (lines demo) = Some demo_events) by reflexivity. split; [done|].
  destruct (trace_exact demo demo_events Hp) as (t & E & _ & Hh & _ & Hm & _).
  - repeat constructor; intros [=].
  - repeat split; intros [=]; done.
  - done.
  - by exists t.
Defined.
