(* ===== verification/MemSamples.v ===== *)
(** * Precise memory samples

    - [Module MemSource]: the decoding of the kernel's data-source word
      ([mperf-data/src/mem.rs]);
    - [Module AllocationJoin]: samples matched with the allocation they touched, and the
      figures per allocation site ([mperf/src/postprocess/mem_samples.rs]).

    Reading the raw samples and the tables, the resolution of stacks and the derived
    floating-point figures are left out. *)

From S2P Require Import Prelude Words Lifetimes.
From stdpp Require Import sorting strings.
Open Scope Z_scope.

Module MemSource.

Inductive MemOp := Load | Store | Prefetch | Exec | OpUnknown.
Inductive MemLevel := L1 | Lfb | L2 | L3 | L4 | Ram | Pmem | Cxl | Io | Uncached | LevelUnknown.
Inductive MemSnoop := SnoopNone | SnoopHit | SnoopMiss | Hitm | Fwd | Peer | SnoopUnknown.
Inductive MemTlb := TlbHit | TlbMiss | TlbUnknown.

#[export] Instance MemLevel_eq_dec : EqDecision MemLevel.
Proof. solve_decision. Defined.
#[export] Instance MemSnoop_eq_dec : EqDecision MemSnoop.
Proof. solve_decision. Defined.

Record MemDataSource := mkSource {
  op : MemOp;
  level : MemLevel;
  hit : option bool;
  snoop : MemSnoop;
  remote : bool;
  tlb : MemTlb;
  locked : bool
}.

Definition PERF_MEM_OP_SHIFT : Z := 0.
Definition PERF_MEM_LVL_SHIFT : Z := 5.
Definition PERF_MEM_SNOOP_SHIFT : Z := 19.
Definition PERF_MEM_LOCK_SHIFT : Z := 24.
Definition PERF_MEM_TLB_SHIFT : Z := 26.
Definition PERF_MEM_LVLNUM_SHIFT : Z := 33.
Definition PERF_MEM_REMOTE_SHIFT : Z := 37.
Definition PERF_MEM_SNOOPX_SHIFT : Z := 38.

Definition field (data_src shift bits : Z) : Z := Z.land (Z.shiftr data_src shift) (Z.shiftl 1 bits - 1).

(** [x & mask != 0]. *)
Definition has (x mask : Z) : bool := negb (Z.land x mask =? 0).

(** The level number is authoritative, the older mask of levels the fallback. *)
Definition level_of (lvl_num lvl : Z) : MemLevel :=
  if lvl_num =? 1 then L1 else if lvl_num =? 2 then L2 else if lvl_num =? 3 then L3
  else if lvl_num =? 4 then L4 else if lvl_num =? 8 then Uncached else if lvl_num =? 9 then Cxl
  else if lvl_num =? 10 then Io else if lvl_num =? 12 then Lfb else if lvl_num =? 13 then Ram
  else if lvl_num =? 14 then Pmem
  else if has lvl 8 then L1 else if has lvl 16 then Lfb else if has lvl 32 then L2
  else if has lvl 64 then L3 else if has lvl 896 then Ram else if has lvl 3072 then L3
  else if has lvl 4096 then Io else if has lvl 8192 then Uncached else LevelUnknown.

Definition from_perf (data_src : Z) : MemDataSource :=
  let field := field data_src in
  let op := field PERF_MEM_OP_SHIFT 5 in
  let lvl := field PERF_MEM_LVL_SHIFT 14 in
  let snoop := field PERF_MEM_SNOOP_SHIFT 5 in
  let lock := field PERF_MEM_LOCK_SHIFT 2 in
  let tlb := field PERF_MEM_TLB_SHIFT 7 in
  let lvl_num := field PERF_MEM_LVLNUM_SHIFT 4 in
  let remote := field PERF_MEM_REMOTE_SHIFT 1 in
  let snoopx := field PERF_MEM_SNOOPX_SHIFT 2 in
  mkSource
    (if has op 2 then Load else if has op 4 then Store else if has op 8 then Prefetch
     else if has op 16 then Exec else OpUnknown)
    (level_of lvl_num lvl)
    (match has lvl 2, has lvl 4 with
     | true, false => Some true
     | false, true => Some false
     | _, _ => None
     end)
    (if has snoop 16 then Hitm else if has snoopx 2 then Peer else if has snoopx 1 then Fwd
     else if has snoop 4 then SnoopHit else if has snoop 8 then SnoopMiss
     else if has snoop 2 then SnoopNone else SnoopUnknown)
    (negb (remote =? 0))
    (if has tlb 4 then TlbMiss else if has tlb 2 then TlbHit else TlbUnknown)
    (has lock 2).

Definition level_as_str (l : MemLevel) : string :=
  match l with
  | L1 => "l1" | Lfb => "lfb" | L2 => "l2" | L3 => "l3" | L4 => "l4" | Ram => "ram" | Pmem => "pmem"
  | Cxl => "cxl" | Io => "io" | Uncached => "uncached" | LevelUnknown => "unknown"
  end%string.

End MemSource.

Module AllocationJoin.
Import MemSource.

(** A live range: addresses over a window of time. *)
Record Allocation := mkAllocation {
  a_pid : Z;
  a_start : Z;
  a_end : Z;
  from_ns : Z;
  to_ns : Z;
  site : Z
}.

Definition Probe : Type := Z * Z * Z.
Definition Key : Type := Z * Z.
Definition key (a : Allocation) : Key := (a_pid a, a_start a).

(** The order of pairs. *)
Definition key_le (a b : Key) : bool := (a.1 <? b.1) || (a.1 =? b.1) && (a.2 <=? b.2).
Definition ending_le (a b : Z * nat) : bool := (a.1 <? b.1) || (a.1 =? b.1) && bool_decide (a.2 <= b.2)%nat.

(** [BinaryHeap<Reverse<_>>]: the elements in the order in which they are popped. *)
Fixpoint push_ending (x : Z * nat) (h : list (Z * nat)) : list (Z * nat) :=
  match h with
  | [] => [x]
  | y :: h' => if ending_le x y then x :: h else y :: push_ending x h'
  end.

(** [range(..=k).next_back()]: the entry with the greatest key up to [k]. *)
Definition better (k : Key) (best : option (Key * nat)) (e : Key * nat) : option (Key * nat) :=
  if key_le e.1 k then
    match best with
    | Some b => if key_le b.1 e.1 then Some e else best
    | None => Some e
    end
  else best.
Definition last_up_to (k : Key) (m : gmap Key nat) : option (Key * nat) :=
  foldl (better k) None (map_to_list m).

Section sweep.
Context (allocations : list Allocation).

(** [introductions[next..]], the live generations and the pending ends. *)
Record Sweep := mkSweep {
  upcoming : list nat;
  live : gmap Key nat;
  endings : list (Z * nat)
}.

(** The first inner loop. *)
Fixpoint introduce (time : Z) (upcoming : list nat) (live : gmap Key nat) (endings : list (Z * nat)) : outcome Sweep :=
  match upcoming with
  | [] => Done (mkSweep [] live endings)
  | index :: rest =>
      a ← unwrap (allocations !! index);
      if from_ns a <=? time
      then introduce time rest (<[key a := index]> live) (push_ending (to_ns a, index) endings)
      else Done (mkSweep upcoming live endings)
  end.

(** The second inner loop. *)
Fixpoint expire (time : Z) (live : gmap Key nat) (endings : list (Z * nat))
    : outcome (gmap Key nat * list (Z * nat)) :=
  match endings with
  | [] => Done (live, [])
  | (end_, index) :: rest =>
      if end_ <=? time then
        a ← unwrap (allocations !! index);
        expire time (if bool_decide (live !! key a = Some index) then delete (key a) live else live) rest
      else Done (live, endings)
  end.

(** The generation of the nearest start at or below the address, if it holds the probe. *)
Definition lookup (pid address time : Z) (live : gmap Key nat) : outcome (option nat) :=
  match last_up_to (pid, address) live with
  | None => Done None
  | Some (_, index) =>
      a ← unwrap (allocations !! index);
      Done (if (a_pid a =? pid) && (a_start a <=? address) && (address <? a_end a) && (time <? to_ns a)
            then Some index else None)
  end.

Definition visit (probes : list Probe) (st : Sweep * list (option nat)) (probe : nat)
    : outcome (Sweep * list (option nat)) :=
  let '(s, matches) := st in
  '(pid, address, time) ← unwrap (probes !! probe);
  s ← introduce time (upcoming s) (live s) (endings s);
  '(l, e) ← expire time (live s) (endings s);
  found ← lookup pid address time l;
  Done (mkSweep (upcoming s) l e, <[probe := found]> matches).

(** The sweep for given orders of the introductions and of the probes. *)
Definition join_ordered (introductions probes_by_time : list nat) (probes : list Probe)
    : outcome (list (option nat)) :=
  '(_, matches) ← fold_outcome (visit probes) probes_by_time
     (mkSweep introductions ∅ [], replicate (length probes) None);
  Done matches.
End sweep.

(** [sort_unstable_by_key] on indices; equal keys may come in any order. *)
Definition by_key (f : nat → Z) (i j : nat) : Prop := f i ≤ f j.
#[export] Instance by_key_dec f i j : Decision (by_key f i j).
Proof. unfold by_key. apply _. Defined.

Definition from_of (allocations : list Allocation) (i : nat) : Z :=
  match allocations !! i with Some a => from_ns a | None => 0 end.
Definition time_of (probes : list Probe) (i : nat) : Z :=
  match probes !! i with Some p => p.2 | None => 0 end.

Definition join_allocations (allocations : list Allocation) (probes : list Probe) : outcome (list (option nat)) :=
  join_ordered allocations (merge_sort (by_key (from_of allocations)) (seq 0 (length allocations)))
    (merge_sort (by_key (time_of probes)) (seq 0 (length probes))) probes.

(** ** Where the allocations come from *)

(** [typed_allocations]: the rows of the table of lifetimes, if the capture is complete.
    Times are below 2^63: the reader takes them as signed. *)
Definition I64_MAX : Z := 2 ^ 63 - 1.
Definition typed_allocation (l : Lifetimes.Lifetime) : Allocation :=
  mkAllocation (as_u32 (Lifetimes.l_pid l)) (Lifetimes.l_address l)
    (saturating_add (Lifetimes.l_address l) (Lifetimes.l_requested_bytes l))
    (as_i64 (Lifetimes.allocated_ns l)) (default I64_MAX (as_i64 <$> Lifetimes.freed_ns l)) (Lifetimes.l_stack_id l).
Definition typed_allocations (complete : bool) (ls : list Lifetimes.Lifetime) : list Allocation :=
  if complete then typed_allocation <$> ls else [].

(** The fallback for older recordings: the events of [malloc] and [free] in time order. *)
Record Row := mkRow { r_timestamp : Z; pointer : Z; r_size : Z; is_malloc : bool; r_stack_id : Z; r_pid : Z }.

Definition close_open (pid pointer to : Z) (o : Z * Z * Z) : Allocation :=
  let '(start, size, site) := o in
  mkAllocation pid pointer (saturating_add pointer (Z.max size 0)) start to site.

Definition load_row (st : gmap Key (Z * Z * Z) * list Allocation) (r : Row) : gmap Key (Z * Z * Z) * list Allocation :=
  let '(opened, allocations) := st in
  let k := (r_pid r, pointer r) in
  let closed := match opened !! k with
                | Some o => allocations ++ [close_open (r_pid r) (pointer r) (r_timestamp r) o]
                | None => allocations
                end in
  if is_malloc r then (<[k := (r_timestamp r, r_size r, wrap64 (r_stack_id r))]> opened, closed)
  else (delete k opened, closed).

Definition load_allocations (rows : list Row) : list Allocation :=
  let '(opened, allocations) := foldl load_row (∅, []) rows in
  allocations ++ ((λ '((pid, pointer), o), close_open pid pointer I64_MAX o) <$> map_to_list opened).

(** ** Figures per site *)
Record Sample := mkSample {
  s_timestamp : Z;
  s_pid : Z;
  s_tid : Z;
  s_cpu : Z;
  s_ip : Z;
  data_addr : Z;
  latency : Z;
  source : MemDataSource
}.

Definition probe_of (s : Sample) : Probe := (s_pid s, data_addr s, s_timestamp s).

Record SiteStats := mkStats {
  st_allocations : Z;
  allocated_bytes : Z;
  samples : Z;
  misses : Z;
  hitm : Z;
  levels : gmap string Z;
  latencies : list Z
}.

Definition default_stats : SiteStats := mkStats 0 0 0 0 0 ∅ [].

Definition site_key (a : Allocation) : Key := (a_pid a, site a).

Definition entry (stats : gmap Key SiteStats) (k : Key) : SiteStats := default default_stats (stats !! k).

Definition count_allocation (stats : gmap Key SiteStats) (a : Allocation) : gmap Key SiteStats :=
  let e := entry stats (site_key a) in
  <[site_key a := mkStats (st_allocations e + 1)
      (as_i64 (wrap64 (allocated_bytes e + as_i64 (saturating_sub (a_end a) (a_start a)))))
      (samples e) (misses e) (hitm e) (levels e) (latencies e)]> stats.

Definition count_sample (allocations : list Allocation) (stats : gmap Key SiteStats) (m : Sample * option nat)
    : outcome (gmap Key SiteStats) :=
  let '(s, matched) := m in
  match matched with
  | None => Done stats
  | Some index =>
      a ← unwrap (allocations !! index);
      let e := entry stats (site_key a) in
      let name := level_as_str (level (source s)) in
      Done (<[site_key a := mkStats (st_allocations e) (allocated_bytes e) (samples e + 1)
                (misses e + match hit (source s) with Some false => 1 | _ => 0 end)
                (hitm e + if bool_decide (snoop (source s) = Hitm) then 1 else 0)
                (<[name := default 0 (levels e !! name) + 1]> (levels e))
                (latencies e ++ [latency s])]> stats)
  end.

(** The body of [write_alloc_site_memory] up to the rows. *)
Definition site_stats (allocations : list Allocation) (samples : list Sample) : outcome (gmap Key SiteStats) :=
  matches ← join_allocations allocations (probe_of <$> samples);
  fold_outcome (count_sample allocations) (zip samples matches) (foldl count_allocation ∅ allocations).

Definition level_count (e : SiteStats) (l : MemLevel) : Z := default 0 (levels e !! level_as_str l).

End AllocationJoin.
