(* ===== verification/MemSamplesSpec.v ===== *)
(** * What the decoding and the join of memory samples compute

    - [Module Decoded]: the data source of an SPE record, through the word it is stored in;
    - [Module Sweep]: the invariant of the time sweep and the nearest start;
    - [Module Sites]: the counts per allocation site. *)

From S2P Require Import Prelude Words Spe MemSamples.
From stdpp Require Import sorting strings.
Open Scope Z_scope.

Import MemSource AllocationJoin.

Module Decoded.
Import Spe.

(** What the events of a record say, in the words of the decoded form. *)
Definition spe_level (r : SpeRecord) : MemLevel * option bool :=
  if has_event r EV_LLC_MISS then (Ram, Some false)
  else if has_event r EV_L1D_REFILL
       then if has_event r EV_LLC_ACCESS then (L3, Some true) else (L1, Some false)
  else if has_event r EV_L1D_ACCESS then (L1, Some true)
  else (LevelUnknown, None).

Definition spe_tlb (r : SpeRecord) : MemTlb :=
  if has_event r EV_TLB_WALK then TlbMiss else if has_event r EV_TLB_ACCESS then TlbHit else TlbUnknown.

Definition spe_source (r : SpeRecord) : MemDataSource :=
  mkSource (if is_store r then Store else Load) (spe_level r).1 (spe_level r).2 SnoopUnknown
    (has_event r EV_REMOTE_ACCESS) (spe_tlb r) false.
End Decoded.

(** The data-source word that the SPE decoder composes is read back, after the recording
    has been stored, as what the events of the packet stream said: the operation, the level
    that served it and whether it hit, the address translation and the remote access. *)
Theorem spe_source_exact (r : Spe.SpeRecord) : from_perf (Spe.data_src r) = Decoded.spe_source r.
Proof.
  unfold Decoded.spe_source, Decoded.spe_level, Decoded.spe_tlb, Spe.data_src, Spe.memory_level, Spe.tlb_level.
  destruct (Spe.has_event r Spe.EV_LLC_MISS), (Spe.has_event r Spe.EV_LLC_ACCESS), (Spe.has_event r Spe.EV_L1D_REFILL),
    (Spe.has_event r Spe.EV_L1D_ACCESS), (Spe.has_event r Spe.EV_TLB_WALK), (Spe.has_event r Spe.EV_TLB_ACCESS),
    (Spe.has_event r Spe.EV_REMOTE_ACCESS), (Spe.is_store r); reflexivity.
Qed.

Module Sweep.

(** ** The nearest start *)
Definition key_lt (a b : Key) : Prop := a.1 < b.1 ∨ a.1 = b.1 ∧ a.2 < b.2.

Lemma key_le_spec a b : key_le a b = true ↔ a.1 < b.1 ∨ a.1 = b.1 ∧ a.2 ≤ b.2.
Proof. unfold key_le. rewrite orb_true_iff, andb_true_iff, Z.ltb_lt, Z.eqb_eq, Z.leb_le. done. Qed.

Definition is_best (k : Key) (l : list (Key * nat)) (best : option (Key * nat)) : Prop :=
  match best with
  | None => ∀ e, e ∈ l → key_le e.1 k = false
  | Some b => b ∈ l ∧ key_le b.1 k = true ∧ ∀ e, e ∈ l → key_le e.1 k = true → key_le e.1 b.1 = true
  end.

Lemma better_best k l best e : is_best k l best → is_best k (l ++ [e]) (better k best e).
Proof.
  intros H. unfold better. destruct (key_le e.1 k) eqn:E.
  - destruct best as [b|].
    + destruct H as (Hin & Hb & Hmax). destruct (key_le b.1 e.1) eqn:Ebe.
      * split_and!; [set_solver|done|]. intros x [Hx| ->%list_elem_of_singleton]%elem_of_app Hk; [|apply key_le_spec; lia].
        specialize (Hmax x Hx Hk). rewrite key_le_spec in Hmax, Ebe |- *. lia.
      * split_and!; [set_solver|done|]. intros x [Hx| ->%list_elem_of_singleton]%elem_of_app Hk; [by apply Hmax|].
        assert (¬ (key_le b.1 e.1 = true)) as Hn by (by rewrite Ebe). rewrite key_le_spec in Hn |- *. lia.
    + split_and!; [set_solver|done|]. intros x [Hx| ->%list_elem_of_singleton]%elem_of_app Hk; [by rewrite (H x Hx) in Hk|].
      apply key_le_spec; lia.
  - destruct best as [b|].
    + destruct H as (Hin & Hb & Hmax). split_and!; [set_solver|done|].
      intros x [Hx| ->%list_elem_of_singleton]%elem_of_app Hk; [by apply Hmax|by rewrite E in Hk].
    + intros x [Hx| ->%list_elem_of_singleton]%elem_of_app; [by apply H|done].
Qed.

Lemma last_up_to_best k m : is_best k (map_to_list m) (last_up_to k m).
Proof.
  unfold last_up_to. assert (G : ∀ l l0 best, is_best k l0 best → is_best k (l0 ++ l) (foldl (better k) best l)).
  { induction l as [|e l IH]; intros l0 best H; [by rewrite app_nil_r|]. cbn [foldl].
    replace (l0 ++ e :: l) with ((l0 ++ [e]) ++ l) by by rewrite <-app_assoc. by apply IH, better_best. }
  apply (G (map_to_list m) [] None). intros e []%elem_of_nil.
Qed.

(** ** The ends, in order *)
Definition ending_le_prop (a b : Z * nat) : Prop := a.1 ≤ b.1.

Lemma elem_of_push x y h : y ∈ push_ending x h ↔ y = x ∨ y ∈ h.
Proof.
  induction h as [|z h IH]; cbn [push_ending]; [set_solver|]. case_match; [set_solver|]. rewrite !elem_of_cons, IH. tauto.
Qed.

Lemma push_sorted x h : StronglySorted ending_le_prop h → StronglySorted ending_le_prop (push_ending x h).
Proof.
  induction 1 as [|y h Hs IH Hy]; cbn [push_ending]; [repeat constructor|].
  destruct (ending_le x y) eqn:E.
  - assert (x.1 ≤ y.1). { unfold ending_le in E. apply orb_true_iff in E as [?|[? _]%andb_true_iff]; lia. }
    constructor; [by constructor|]. constructor; [done|]. eapply Forall_impl; [exact Hy|]. unfold ending_le_prop. intros; lia.
  - assert (y.1 ≤ x.1). { unfold ending_le in E. apply orb_false_iff in E as [?%Z.ltb_ge _]. lia. }
    constructor; [done|]. apply Forall_forall. intros z [->|Hz]%elem_of_push; [done|]. rewrite Forall_forall in Hy. by apply Hy.
Qed.

(** ** What a match means *)
Section sweep.
Context (allocations : list Allocation).

Definition holds (a : Allocation) (p : Probe) : Prop :=
  let '(pid, address, time) := p in
  a_pid a = pid ∧ a_start a ≤ address < a_end a ∧ from_ns a ≤ time < to_ns a.

(** Ranges that lie one after the other, with different starts. *)
Definition apart (a b : Allocation) : Prop :=
  a_start a < a_start b ∧ a_end a ≤ a_start b ∨ a_start b < a_start a ∧ a_end b ≤ a_start a.

(** An allocator gives out ranges that are apart from the live ones. *)
Definition exclusive : Prop :=
  ∀ i j a b, allocations !! i = Some a → allocations !! j = Some b → i ≠ j → a_pid a = a_pid b →
    from_ns a ≤ from_ns b < to_ns a → apart a b.

Context (Hex : exclusive).

Lemma exclusive_at i j a b time :
  allocations !! i = Some a → allocations !! j = Some b → i ≠ j → a_pid a = a_pid b →
  from_ns a ≤ time < to_ns a → from_ns b ≤ time < to_ns b → apart a b.
Proof.
  intros Ha Hb Hne Hp Hta Htb. destruct (decide (from_ns a ≤ from_ns b)).
  - apply (Hex i j); try done. lia.
  - assert (apart b a) as H by (apply (Hex j i); [done..|congruence|lia]). unfold apart in *. tauto.
Qed.

(** ** The invariant; [seen] are the introduced generations *)
Record swept (time : Z) (seen : list nat) (live : gmap Key nat) (endings : list (Z * nat)) : Prop := {
  sw_live k i : live !! k = Some i → i ∈ seen ∧ ∃ a, allocations !! i = Some a ∧ k = key a ∧ (to_ns a, i) ∈ endings;
  sw_present i a : i ∈ seen → allocations !! i = Some a → time < to_ns a → live !! key a = Some i;
  sw_sorted : StronglySorted ending_le_prop endings;
  sw_endings e i : (e, i) ∈ endings → ∃ a, allocations !! i = Some a ∧ to_ns a = e
}.

Lemma swept_later time time' seen live endings :
  time ≤ time' → swept time seen live endings → swept time' seen live endings.
Proof. intros Hle [Hl Hp Hs He]. split; [done| |done..]. intros i a Hi Ha Ht. apply Hp; [done..|lia]. Qed.

Lemma swept_introduce time seen live endings i a :
  swept time seen live endings → i ∉ seen → allocations !! i = Some a → from_ns a ≤ time →
  (∀ j b, j ∈ seen → allocations !! j = Some b → from_ns b ≤ from_ns a) →
  swept time (i :: seen) (<[key a := i]> live) (push_ending (to_ns a, i) endings).
Proof.
  intros [Hl Hp Hs He] Hni Ha Ht Hord. split.
  - intros k j [[<- <-]|[Hne Hj]]%lookup_insert_Some.
    + split; [by left|]. exists a. split_and!; [done..|]. apply elem_of_push. by left.
    + destruct (Hl _ _ Hj) as (Hin & b & Hb & Hk & Hend). split; [by right|]. exists b. split_and!; [done..|].
      apply elem_of_push. by right.
  - intros j b [->|Hj]%elem_of_cons Hb Htb.
    + rewrite Ha in Hb. injection Hb as <-. by rewrite lookup_insert_eq.
    + rewrite lookup_insert_ne; [by apply Hp|]. intros Hk.
      assert (i ≠ j) as Hij by (by intros ->). specialize (Hord j b Hj Hb).
      destruct (Hex j i b a Hb Ha) as [[? _]|[? _]]; [done|unfold key in Hk; congruence|lia| |];
        unfold key in Hk; injection Hk as _ Hk; lia.
  - by apply push_sorted.
  - intros e j [[= -> ->]|Hj]%elem_of_push; [by exists a|by apply He].
Qed.

(** The introductions are in the order of their times, each once. *)
Definition ordered (order : list nat) : Prop :=
  NoDup order ∧ Forall (λ i, i < length allocations)%nat order ∧
  StronglySorted (λ i j, from_of allocations i ≤ from_of allocations j) order.

Lemma from_of_lookup i a : allocations !! i = Some a → from_of allocations i = from_ns a.
Proof. unfold from_of. by intros ->. Qed.

Lemma introduce_spec time upcoming seen live endings :
  ordered (reverse seen ++ upcoming) → swept time seen live endings →
  ∃ s, introduce allocations time upcoming live endings = Done s ∧
    ∃ more, upcoming = more ++ AllocationJoin.upcoming s ∧
      swept time (reverse more ++ seen) (AllocationJoin.live s) (AllocationJoin.endings s) ∧
      Forall (λ i, from_of allocations i ≤ time) more ∧
      Forall (λ i, time < from_of allocations i) (AllocationJoin.upcoming s).
Proof.
  revert seen live endings. induction upcoming as [|i rest IH]; intros seen live endings Hord Hsw; cbn [introduce].
  - eexists. split; [done|]. exists []. split_and!; [done..|by constructor|by constructor].
  - destruct Hord as (Hnd & Hlt & Hsorted).
    assert (i < length allocations)%nat as Hi. { rewrite Forall_app, Forall_cons in Hlt. tauto. }
    apply lookup_lt_is_Some in Hi as [a Ha]. rewrite Ha. cbn.
    pose proof (from_of_lookup _ _ Ha) as Hfa. rewrite <-Hfa. destruct (Z.leb_spec (from_of allocations i) time).
    + destruct (IH (i :: seen) (<[key a := i]> live) (push_ending (to_ns a, i) endings)) as (s & E & more & Hup & Hsw' & Hm & Hr).
      * rewrite reverse_cons, <-app_assoc. done.
      * apply swept_introduce; try done; [|lia|].
        -- apply NoDup_app in Hnd as (_ & Hnd & _). intros Hi. apply (Hnd i); [by apply elem_of_reverse|by left].
        -- intros j b Hj Hb. rewrite <-(from_of_lookup _ _ Hb), <-Hfa.
           apply (StronglySorted_app_1_elem_of _ _ _ j i Hsorted); [by apply elem_of_reverse|by left].
      * exists s. split; [done|]. exists (i :: more). rewrite reverse_cons, <-app_assoc. split_and!; [by rewrite Hup|done| |done].
        by constructor.
    + eexists. split; [done|]. exists []. split_and!; [done..|by constructor|]. cbn [AllocationJoin.upcoming].
      constructor; [lia|]. apply StronglySorted_app_1_r, StronglySorted_inv in Hsorted as [_ Hs].
      eapply Forall_impl; [exact Hs|]. cbn. intros; lia.
Qed.

Lemma swept_expire time seen live endings i a :
  swept time seen live ((to_ns a, i) :: endings) → allocations !! i = Some a → to_ns a ≤ time →
  swept time seen (if bool_decide (live !! key a = Some i) then delete (key a) live else live) endings.
Proof.
  intros [Hl Hp Hs He] Ha Ht.
  assert (Hgone : ∀ k, (if bool_decide (live !! key a = Some i) then delete (key a) live else live) !! k ≠ Some i).
  { intros k. case_bool_decide as Hd.
    - intros [Hne Hk]%lookup_delete_Some. destruct (Hl _ _ Hk) as (_ & b & Hb & -> & _). rewrite Ha in Hb. by injection Hb as <-.
    - intros Hk. destruct (Hl _ _ Hk) as (_ & b & Hb & -> & _). rewrite Ha in Hb. injection Hb as <-. done. }
  split.
  - intros k j Hj. assert (j ≠ i) by (intros ->; by apply Hgone in Hj).
    assert (live !! k = Some j) as Hk. { case_bool_decide; [by apply lookup_delete_Some in Hj as [_ ?]|done]. }
    destruct (Hl _ _ Hk) as (Hin & b & Hb & Hkb & Hend). split; [done|]. exists b. split_and!; [done..|].
    apply elem_of_cons in Hend as [[=]|?]; done.
  - intros j b Hj Hb Htb. assert (j ≠ i) by (intros ->; rewrite Ha in Hb; injection Hb as <-; lia).
    specialize (Hp j b Hj Hb Htb). case_bool_decide as Hd; [|done]. rewrite lookup_delete_ne; [done|]. congruence.
  - by apply StronglySorted_inv in Hs as [Hs _].
  - intros e j Hj. apply He. by right.
Qed.

Lemma expire_spec time seen live endings :
  swept time seen live endings →
  ∃ live' endings', expire allocations time live endings = Done (live', endings') ∧
    swept time seen live' endings' ∧ Forall (λ e, time < e.1) endings'.
Proof.
  revert live. induction endings as [|[e i] rest IH]; intros live Hsw; cbn [expire]; [by exists live, []|].
  destruct (sw_endings _ _ _ _ Hsw e i) as (a & Ha & <-); [by left|]. destruct (Z.leb_spec (to_ns a) time).
  - rewrite Ha. cbn. apply IH. by apply swept_expire.
  - eexists _, _. split_and!; [done..|]. pose proof (sw_sorted _ _ _ _ Hsw) as [_ Hs]%StronglySorted_inv.
    constructor; [done|]. eapply Forall_impl; [exact Hs|]. unfold ending_le_prop. cbn. intros; lia.
Qed.

(** After both loops the map holds the generations that are live at [time]. *)
Lemma live_exact time seen live endings k i :
  swept time seen live endings → Forall (λ e, time < e.1) endings →
  live !! k = Some i ↔ i ∈ seen ∧ ∃ a, allocations !! i = Some a ∧ k = key a ∧ time < to_ns a.
Proof.
  intros [Hl Hp _ _] Hend. split.
  - intros Hk. destruct (Hl _ _ Hk) as (Hi & a & Ha & -> & He). split; [done|]. exists a. split_and!; [done..|].
    rewrite Forall_forall in Hend. by apply (Hend _ He).
  - intros (Hi & a & Ha & -> & Ht). by apply Hp.
Qed.

Lemma lookup_spec pid address time seen live endings :
  swept time seen live endings → Forall (λ e, time < e.1) endings →
  (∀ i a, allocations !! i = Some a → i ∈ seen ↔ from_ns a ≤ time) →
  ∃ found, lookup allocations pid address time live = Done found ∧
    ∀ i, found = Some i ↔ ∃ a, allocations !! i = Some a ∧ holds a (pid, address, time).
Proof.
  intros Hsw Hend Hseen. pose proof (live_exact time seen live endings) as Hlive.
  unfold lookup. pose proof (last_up_to_best (pid, address) live) as Hbest. destruct (last_up_to _ live) as [[k j]|].
  - destruct Hbest as (Hkj%elem_of_map_to_list & Hle & Hmax). apply (Hlive k j Hsw Hend) in Hkj as (Hj & b & Hb & -> & Htb).
    rewrite Hb. cbn. eexists. split; [done|]. intros i. split.
    + intros H. case_match eqn:E; [|done]. injection H as <-. exists b. split; [done|].
      apply andb_true_iff in E as [E ?]. apply andb_true_iff in E as [E ?]. apply andb_true_iff in E as [E ?].
      apply (Hseen _ _ Hb) in Hj. unfold holds. split_and!; lia.
    + intros (a & Ha & Hp & Hrange & Ht).
      assert (live !! key a = Some i) as Hi. { apply (Hlive _ _ Hsw Hend). split; [apply (Hseen i a Ha); lia|]. exists a. split_and!; [done..|lia]. }
      assert (key_le (key a) (key b) = true) as Hab.
      { apply (Hmax (key a, i)); [by apply elem_of_map_to_list|]. apply key_le_spec. cbn. lia. }
      apply key_le_spec in Hab, Hle. cbn in Hab, Hle. apply (Hseen _ _ Hb) in Hj.
      assert (i = j) as ->.
      { destruct (decide (i = j)) as [|Hne]; [done|]. exfalso.
        destruct (exclusive_at i j a b time Ha Hb Hne) as [[? ?]|[? ?]]; lia. }
      rewrite Ha in Hb. injection Hb as ->.
      replace (a_pid b =? pid) with true by lia. replace (a_start b <=? address) with true by lia.
      replace (address <? a_end b) with true by lia. replace (time <? to_ns b) with true by lia. done.
  - exists None. split; [done|]. intros i. split; [done|]. intros (a & Ha & Hp & Hrange & Ht). exfalso.
    assert (live !! key a = Some i) as Hi. { apply (Hlive _ _ Hsw Hend). split; [apply (Hseen i a Ha); lia|]. exists a. split_and!; [done..|lia]. }
    specialize (Hbest (key a, i) ltac:(by apply elem_of_map_to_list)).
    assert (key_le (key a) (pid, address) = true) as H by (apply key_le_spec; cbn; lia). cbn in Hbest. by rewrite H in Hbest.
Qed.

(** ** The loop over the probes *)
Definition exact (p : Probe) (found : option nat) : Prop :=
  ∀ i, found = Some i ↔ ∃ a, allocations !! i = Some a ∧ holds a p.

Context (order : list nat) (Horder : order ≡ₚ seq 0 (length allocations))
  (Hsorted : StronglySorted (by_key (from_of allocations)) order).
Context (probes : list Probe).

Record sweeping (time : Z) (done : list nat) (st : Sweep * list (option nat)) : Prop := {
  sg_seen : ∃ seen, order = reverse seen ++ upcoming st.1 ∧ swept time seen (live st.1) (endings st.1) ∧
              Forall (λ i, from_of allocations i ≤ time) seen;
  sg_length : length st.2 = length probes;
  sg_done k p : k ∈ done → probes !! k = Some p → ∃ found, st.2 !! k = Some found ∧ exact p found
}.

Lemma order_ordered : ordered order.
Proof.
  split_and!; [rewrite Horder; apply NoDup_seq| |done].
  apply Forall_forall. intros i. rewrite Horder, elem_of_seq. lia.
Qed.

Lemma probe_spec time done st k pid address time' :
  sweeping time done st → probes !! k = Some (pid, address, time') → time ≤ time' →
  ∃ st', visit allocations probes st k = Done st' ∧ sweeping time' (k :: done) st'.
Proof.
  intros [(seen & Hup & Hsw & Hfrom) Hlen Hdone] Hk Hle. destruct st as [s ms]. cbn [fst snd] in *.
  unfold visit. rewrite Hk. cbn. apply (swept_later _ time') in Hsw; [|done].
  pose proof order_ordered as Hord. rewrite Hup in Hord.
  destruct (introduce_spec time' (upcoming s) seen (live s) (endings s) Hord Hsw) as (s1 & -> & more & Hmore & Hsw1 & Hm & Hr). cbn.
  destruct (expire_spec _ _ _ _ Hsw1) as (l & e & -> & Hsw2 & Hend). cbn.
  assert (Hfrom' : Forall (λ i, from_of allocations i ≤ time') (reverse more ++ seen)).
  { apply Forall_app. split; [by apply Forall_reverse|]. eapply Forall_impl; [exact Hfrom|]. cbn. intros; lia. }
  assert (Hall : order = reverse (reverse more ++ seen) ++ upcoming s1).
  { rewrite Hup, Hmore, reverse_app, reverse_involutive, <-app_assoc. done. }
  destruct (lookup_spec pid address time' (reverse more ++ seen) l e Hsw2 Hend) as (found & -> & Hf).
  { intros i a Ha. rewrite <-(from_of_lookup _ _ Ha). split; [intros Hi; rewrite Forall_forall in Hfrom'; by apply Hfrom'|].
    intros Hi. assert (i ∈ order) as Hin. { rewrite Horder, elem_of_seq. apply lookup_lt_Some in Ha. lia. }
    rewrite Hall, elem_of_app, elem_of_reverse in Hin. destruct Hin as [?|Hin]; [done|].
    rewrite Forall_forall in Hr. apply Hr in Hin. lia. }
  cbn. eexists. split; [done|]. split; cbn [fst snd upcoming live endings].
  - by exists (reverse more ++ seen).
  - by rewrite length_insert.
  - intros j p Hj Hp. destruct (decide (j = k)) as [Hjk|Hne].
    + rewrite Hjk in Hp |- *. pose proof (eq_trans (eq_sym Hp) Hk) as [= ->]. exists found. split; [|done]. apply list_lookup_insert_eq.
      rewrite Hlen. by eapply lookup_lt_Some.
    + apply elem_of_cons in Hj as [?|Hj]; [done|]. rewrite list_lookup_insert_ne by done. by apply Hdone.
Qed.

Lemma visits_spec ks time done st :
  sweeping time done st → Forall (λ k, (k < length probes)%nat ∧ time ≤ time_of probes k) ks →
  StronglySorted (by_key (time_of probes)) ks →
  ∃ st' time', fold_outcome (visit allocations probes) ks st = Done st' ∧ sweeping time' (reverse ks ++ done) st'.
Proof.
  revert time done st. induction ks as [|k ks IH]; intros time done st Hs Hks Hso; cbn [fold_outcome]; [by exists st, time|].
  inversion_clear Hks as [|?? [Hk Ht] Hks']. apply StronglySorted_inv in Hso as [Hso Hge].
  apply lookup_lt_is_Some in Hk as [p Hp].
  assert (Htk : time_of probes k = p.2) by (unfold time_of, Probe in *; by rewrite Hp). rewrite Htk in Ht.
  destruct p as [[pid address] time']. cbn [snd] in Htk, Ht.
  destruct (probe_spec time done st k pid address time' Hs Hp Ht) as (st1 & -> & Hs1). cbn.
  destruct (IH time' (k :: done) st1 Hs1) as (st2 & t2 & E & Hs2); [|done|].
  - apply Forall_and. split; [eapply Forall_impl; [exact Hks'|]; by intros ? [? _]|].
    eapply Forall_impl; [exact Hge|]. unfold by_key. cbn. intros; lia.
  - exists st2, t2. split; [done|]. change (rev_append ks [k]) with (reverse (k :: ks)). by rewrite reverse_cons, <-app_assoc.
Qed.

Lemma join_ordered_spec probe_order :
  probe_order ≡ₚ seq 0 (length probes) → StronglySorted (by_key (time_of probes)) probe_order →
  ∃ matches, join_ordered allocations order probe_order probes = Done matches ∧
    Forall2 exact probes matches.
Proof.
  intros Hperm Hso. unfold join_ordered.
  set (time := match probe_order with k :: _ => time_of probes k | [] => 0 end).
  destruct (visits_spec probe_order time [] (mkSweep order ∅ [], replicate (length probes) None)) as (st & t & -> & Hs).
  - split; cbn [fst snd].
    + exists []. split_and!; [done| |by constructor]. split; cbn [live endings].
      * by intros k i []%lookup_empty_Some.
      * by intros i a []%elem_of_nil.
      * constructor.
      * by intros e i []%elem_of_nil.
    + by rewrite length_replicate.
    + by intros k p []%elem_of_nil.
  - apply Forall_and. split.
    + apply Forall_forall. intros k. rewrite Hperm, elem_of_seq. lia.
    + subst time. destruct probe_order as [|k ks]; [by constructor|]. apply StronglySorted_inv in Hso as [_ Hk].
      constructor; [lia|done].
  - done.
  - destruct st as [s ms]. cbn. exists ms. split; [done|]. destruct Hs as [_ Hlen Hdone]. cbn [fst snd] in *.
    apply Forall2_same_length_lookup. split; [done|]. intros k p found Hp Hf.
    destruct (Hdone k p) as (f & Hf' & He); [|done|].
    + rewrite app_nil_r, elem_of_reverse, Hperm, elem_of_seq. apply lookup_lt_Some in Hp. lia.
    + rewrite Hf in Hf'. by injection Hf' as ->.
Qed.
End sweep.

Lemma by_key_total f : Total (by_key f).
Proof. intros x y. unfold by_key. lia. Qed.
Lemma by_key_trans f : Transitive (by_key f).
Proof. intros x y z. unfold by_key. lia. Qed.

Lemma sort_indices f n : merge_sort (by_key f) (seq 0 n) ≡ₚ seq 0 n ∧ StronglySorted (by_key f) (merge_sort (by_key f) (seq 0 n)).
Proof.
  split; [apply merge_sort_Permutation|]. pose proof (by_key_total f). pose proof (by_key_trans f).
  apply StronglySorted_merge_sort; apply _.
Qed.

Lemma join_allocations_spec allocations probes :
  exclusive allocations →
  ∃ matches, join_allocations allocations probes = Done matches ∧ Forall2 (exact allocations) probes matches.
Proof.
  intros Hex. destruct (sort_indices (from_of allocations) (length allocations)) as [Hp1 Hs1].
  destruct (sort_indices (time_of probes) (length probes)) as [Hp2 Hs2].
  by apply join_ordered_spec.
Qed.
End Sweep.

(** C21: the time sweep finds, for every memory sample, the allocation that held the sampled
    address at the time of the sample, whatever the order among equal times: a match is
    reported exactly when the process agrees, the address is in the half-open range and the
    time in the half-open lifetime.  It never panics.  The allocations are those of an
    allocator: a range given out while another of the process is live lies apart from it. *)
Theorem join_exact (allocations : list Allocation) (introductions probe_order : list nat) (probes : list Probe) :
  Sweep.exclusive allocations →
  introductions ≡ₚ seq 0 (length allocations) → StronglySorted (by_key (from_of allocations)) introductions →
  probe_order ≡ₚ seq 0 (length probes) → StronglySorted (by_key (time_of probes)) probe_order →
  ∃ matches, join_ordered allocations introductions probe_order probes = Done matches ∧
    length matches = length probes ∧
    ∀ k p, probes !! k = Some p → ∃ found, matches !! k = Some found ∧
      ∀ i, found = Some i ↔ ∃ a, allocations !! i = Some a ∧ Sweep.holds a p.
Proof.
  intros Hex Hp1 Hs1 Hp2 Hs2.
  destruct (Sweep.join_ordered_spec allocations Hex introductions Hp1 Hs1 probes probe_order Hp2 Hs2) as (ms & E & Hms).
  exists ms. split_and!; [done|by rewrite (Forall2_length _ _ _ Hms)|]. intros k p Hk.
  destruct (Forall2_lookup_l _ _ _ _ _ Hms Hk) as (f & Hf & He). by exists f.
Qed.

(** Two generations at the same address and a block behind them. *)
Definition demo_allocations : list Allocation :=
  [mkAllocation 1 100 120 5 10 7; mkAllocation 1 100 140 10 30 8; mkAllocation 1 140 150 2 40 7].
Definition demo_probes : list Probe := [(1, 145, 12); (1, 110, 9); (1, 139, 10); (1, 110, 30); (2, 110, 9)].

Lemma demo_exclusive : Sweep.exclusive demo_allocations.
Proof.
  intros i j a b Hi Hj Hne _.
  destruct i as [|[|[|i]]], j as [|[|[|j]]]; cbn in Hi; cbn in Hj; simplify_eq; unfold Sweep.apart; cbn; lia.
Defined.

Lemma join_exact_witness :
  ∃ matches, join_ordered demo_allocations [2; 0; 1]%nat [1; 4; 2; 0; 3]%nat demo_probes = Done matches ∧
    ∀ k p, demo_probes !! k = Some p → ∃ found, matches !! k = Some found ∧
      ∀ i, found = Some i ↔ ∃ a, demo_allocations !! i = Some a ∧ Sweep.holds a p.
Proof.
  destruct (join_exact demo_allocations [2; 0; 1]%nat [1; 4; 2; 0; 3]%nat demo_probes demo_exclusive) as (ms & E & _ & H).
  - by apply (bool_decide_unpack _).
  - repeat constructor; done.
  - by apply (bool_decide_unpack _).
  - repeat constructor; done.
  - by exists ms.
Defined.

Module Sites.
Import Sweep.

Definition holdsb (a : Allocation) (p : Probe) : bool :=
  let '(pid, address, time) := p in
  (a_pid a =? pid) && (a_start a <=? address) && (address <? a_end a) && (from_ns a <=? time) && (time <? to_ns a).

Lemma holdsb_spec a p : holdsb a p = true ↔ holds a p.
Proof. destruct p as [[pid address] time]. unfold holdsb, holds. rewrite !andb_true_iff. lia. Qed.

(** The samples that touch an allocation of a site. *)
Definition touches (allocations : list Allocation) (k : Key) (s : Sample) : bool :=
  existsb (λ a, bool_decide (site_key a = k) && holdsb a (probe_of s)) allocations.
Definition touching (allocations : list Allocation) (k : Key) (samples : list Sample) : list Sample :=
  List.filter (touches allocations k) samples.

Definition is_miss (s : Sample) : bool := bool_decide (hit (source s) = Some false).
Definition is_hitm (s : Sample) : bool := bool_decide (snoop (source s) = Hitm).
Definition at_level (l : MemLevel) (s : Sample) : bool := bool_decide (level (source s) = l).
Definition count (p : Sample → bool) (ss : list Sample) : Z := Z.of_nat (length (List.filter p ss)).

(** The update of an entry by a sample. *)
Definition add_sample (e : SiteStats) (s : Sample) : SiteStats :=
  let name := level_as_str (level (source s)) in
  mkStats (st_allocations e) (allocated_bytes e) (samples e + 1)
    (misses e + match hit (source s) with Some false => 1 | _ => 0 end)
    (hitm e + if bool_decide (snoop (source s) = Hitm) then 1 else 0)
    (<[name := default 0 (levels e !! name) + 1]> (levels e)) (latencies e ++ [latency s]).

Lemma level_as_str_inj l l' : level_as_str l = level_as_str l' → l = l'.
Proof. by destruct l, l'. Qed.

Lemma count_cons p s ss : count p (s :: ss) = (if p s then 1 else 0) + count p ss.
Proof. unfold count. cbn [List.filter]. destruct (p s); cbn [length]; lia. Qed.

Lemma add_samples_fields ss e :
  let e' := foldl add_sample e ss in
  st_allocations e' = st_allocations e ∧ allocated_bytes e' = allocated_bytes e ∧
  samples e' = samples e + Z.of_nat (length ss) ∧
  misses e' = misses e + count is_miss ss ∧ hitm e' = hitm e + count is_hitm ss ∧
  (∀ l, level_count e' l = level_count e l + count (at_level l) ss) ∧
  latencies e' = latencies e ++ (latency <$> ss).
Proof.
  revert e. induction ss as [|s ss IH]; intros e; cbn [foldl].
  - unfold count. cbn. rewrite app_nil_r. split_and!; try done; intros; lia.
  - destruct (IH (add_sample e s)) as (-> & -> & -> & -> & -> & Hl & ->). cbn [add_sample st_allocations allocated_bytes samples misses hitm latencies].
    rewrite !count_cons, fmap_cons, <-app_assoc. split_and!; try done.
    + cbn [length]. lia.
    + unfold is_miss. destruct (hit (source s)) as [[]|]; simpl; lia.
    + unfold is_hitm. lia.
    + intros l. rewrite Hl, count_cons. unfold level_count, at_level. cbn [add_sample levels].
      case_bool_decide as E; [subst l; rewrite lookup_insert_eq; simpl; lia|].
      rewrite lookup_insert_ne; [lia|]. intros H%level_as_str_inj. done.
Qed.

Lemma entry_insert k e stats : entry (<[k := e]> stats) k = e.
Proof. unfold entry. by rewrite lookup_insert_eq. Qed.

Section counts.
Context (allocations : list Allocation).

Definition matched_to (k : Key) (m : Sample * option nat) : bool :=
  match m.2 with
  | Some i => match allocations !! i with Some a => bool_decide (site_key a = k) | None => false end
  | None => false
  end.

Lemma count_samples ms stats :
  Forall (λ m, ∀ i, m.2 = Some i → is_Some (allocations !! i)) ms →
  ∃ stats', fold_outcome (count_sample allocations) ms stats = Done stats' ∧
    ∀ k, entry stats' k = foldl add_sample (entry stats k) (List.filter (matched_to k) ms).*1.
Proof.
  revert stats. induction ms as [|[s [i|]] ms IH]; intros stats Hms; cbn [fold_outcome count_sample]; [by exists stats| |].
  - inversion_clear Hms as [|?? Hi Hms']. destruct (Hi i eq_refl) as [a Ha]. rewrite Ha. cbn.
    destruct (IH (<[site_key a := add_sample (entry stats (site_key a)) s]> stats) Hms') as (stats' & E & Hk).
    exists stats'. split; [done|]. intros k. rewrite Hk. cbn [List.filter]. unfold matched_to at 2. cbn [snd]. rewrite Ha.
    unfold entry at 1. case_bool_decide as Heq; [subst k; by rewrite lookup_insert_eq|]. by rewrite lookup_insert_ne.
  - inversion_clear Hms as [|?? Hi Hms']. destruct (IH stats Hms') as (stats' & E & Hk). exists stats'. by split.
Qed.

Lemma count_allocations als stats k :
  let e := entry (foldl count_allocation stats als) k in
  st_allocations e = st_allocations (entry stats k) + Z.of_nat (length (List.filter (λ a, bool_decide (site_key a = k)) als)) ∧
  samples e = samples (entry stats k) ∧ misses e = misses (entry stats k) ∧ hitm e = hitm (entry stats k) ∧
  levels e = levels (entry stats k) ∧ latencies e = latencies (entry stats k).
Proof.
  revert stats. induction als as [|a als IH]; intros stats; cbn [foldl List.filter length]; [split_and!; [lia|done..]|].
  destruct (IH (count_allocation stats a)) as (-> & -> & -> & -> & -> & ->).
  assert (He : entry (count_allocation stats a) k =
    if bool_decide (site_key a = k) then entry (count_allocation stats a) (site_key a) else entry stats k).
  { case_bool_decide as E; [by rewrite E|]. unfold count_allocation, entry at 1. by rewrite lookup_insert_ne. }
  rewrite He. case_bool_decide as E; [|split_and!; [done..|done]]. rewrite <-E.
  unfold count_allocation. rewrite entry_insert. cbn [st_allocations samples misses hitm levels latencies length]. split_and!; [lia|done..].
Qed.

(** A match names the site that the sample touches. *)
Lemma matched_touches k s found : exact allocations (probe_of s) found → matched_to k (s, found) = touches allocations k s.
Proof.
  intros He. apply eq_true_iff_eq. unfold touches. rewrite existsb_exists. split.
  - unfold matched_to. cbn. destruct found as [i|]; [|done]. destruct (He i) as [(a & Ha & Hh) _]; [done|]. rewrite Ha.
    intros Hs. exists a. split; [apply list_elem_of_In; by eapply list_elem_of_lookup_2|]. apply andb_true_iff. split; [done|by apply (holdsb_spec a (probe_of s))].
  - intros (a & Hin & [Hs Hh]%andb_true_iff). apply (holdsb_spec a (probe_of s)) in Hh. apply list_elem_of_In, list_elem_of_lookup in Hin as [i Hi].
    unfold matched_to. cbn. rewrite (proj2 (He i)); [by rewrite Hi|]. by exists a.
Qed.

Lemma filter_zip k ss ms : Forall2 (exact allocations) (probe_of <$> ss) ms →
  (List.filter (matched_to k) (zip ss ms)).*1 = touching allocations k ss.
Proof.
  revert ms. induction ss as [|s ss IH]; intros ms H; [done|].
  rewrite fmap_cons in H. apply Forall2_cons_inv_l in H as (m & ms' & He & Hr & ->).
  cbn [zip zip_with List.filter]. rewrite (matched_touches k s m He). unfold touching. cbn [List.filter].
  destruct (touches allocations k s); [rewrite fmap_cons; f_equal|]; by apply IH.
Qed.
End counts.
End Sites.

(** The figures per allocation site are exact: an entry counts the allocations of the
    site and the samples whose address one of them held at that time, with their misses, their
    hits in a modified line and their levels, and keeps their latencies in order. *)
Theorem site_stats_exact (allocations : list Allocation) (ss : list Sample) :
  Sweep.exclusive allocations →
  ∃ stats, site_stats allocations ss = Done stats ∧
    ∀ k, let e := entry stats k in let touching := Sites.touching allocations k ss in
      st_allocations e = Z.of_nat (length (List.filter (λ a, bool_decide (site_key a = k)) allocations)) ∧
      samples e = Z.of_nat (length touching) ∧ misses e = Sites.count Sites.is_miss touching ∧
      hitm e = Sites.count Sites.is_hitm touching ∧
      (∀ l, level_count e l = Sites.count (Sites.at_level l) touching) ∧ latencies e = latency <$> touching.
Proof.
  intros Hex. unfold site_stats. destruct (Sweep.join_allocations_spec allocations (probe_of <$> ss) Hex) as (ms & -> & Hms). cbn.
  destruct (Sites.count_samples allocations (zip ss ms) (foldl count_allocation ∅ allocations)) as (stats & E & Hk).
  { apply Forall_forall. intros [s m] Hin i Hm. cbn in Hm. apply list_elem_of_lookup in Hin as [j Hj].
    apply lookup_zip_with_Some in Hj as (s' & m' & [= <- <-] & Hs & Hm').
    destruct (Forall2_lookup_r _ _ _ _ _ Hms Hm') as (p & _ & He). destruct (proj1 (He i) Hm) as (a & Ha & _). by exists a. }
  exists stats. split; [done|]. intros k. cbn zeta. rewrite Hk, (Sites.filter_zip allocations k ss ms Hms).
  destruct (Sites.count_allocations allocations ∅ k) as (Ha & Hs & Hmi & Hh & Hl & Hla).
  destruct (Sites.add_samples_fields (Sites.touching allocations k ss) (entry (foldl count_allocation ∅ allocations) k))
    as (-> & _ & -> & -> & -> & Hlv & ->).
  rewrite Ha, Hs, Hmi, Hh, Hla. split_and!; try done. intros l. rewrite Hlv. unfold level_count at 1. by rewrite Hl.
Qed.

Lemma site_stats_exact_witness :
  ∃ stats, site_stats demo_allocations [mkSample 9 1 1 0 77 110 33 (from_perf 0); mkSample 12 1 1 0 77 145 44 (from_perf 0)] = Done stats ∧
    samples (entry stats (1, 7)) = 2.
Proof.
  destruct (site_stats_exact demo_allocations [mkSample 9 1 1 0 77 110 33 (from_perf 0); mkSample 12 1 1 0 77 145 44 (from_perf 0)] demo_exclusive)
    as (stats & E & H).
  exists stats. split; [done|]. destruct (H (1, 7)) as (_ & -> & _). reflexivity.
Defined.
