(* ===== verification/Regions.v ===== *)
(** * Trace regions

    Named regions of a recording and their invocation hierarchy
    ([mperf-gui/src/regions.rs]): begin and end events are paired into spans, the spans are
    nested, and every node of the hierarchy gets its inclusive and its own time.

    - [Module RegionIntervals]: merged half-open ranges per thread;
    - [Module RegionData]: [load_regions] as a function of the rows of the event table, and
      the intervals of a selection.

    The SQL queries and the label of a selection are left out; the names of the events are an
    argument. *)

From S2P Require Import Prelude Words Text.
From stdpp Require Import sorting.
Open Scope Z_scope.

(** A half-open interval ([mperf-gui/src/profile.rs]). *)
Record TimeRange := mkRange { start_ns : Z; end_ns : Z }.
#[export] Instance TimeRange_eq_dec : EqDecision TimeRange.
Proof. solve_decision. Defined.

(** [slice::partition_point]: the length of the prefix on which the test holds. *)
Fixpoint partition_point {A} (p : A → bool) (l : list A) : nat :=
  match l with
  | [] => O
  | x :: l => if p x then S (partition_point p l) else O
  end.

Fixpoint take_while {A} (p : A → bool) (l : list A) : list A :=
  match l with
  | [] => []
  | x :: l => if p x then x :: take_while p l else []
  end.

Module RegionIntervals.

(** A process and a thread. *)
Definition Thread : Type := Z * Z.
Definition RegionIntervals : Type := gmap Thread (list TimeRange).

Definition contains (by_thread : RegionIntervals) (process_id thread_id timestamp : Z) : outcome bool :=
  match by_thread !! (process_id, thread_id) with
  | None => Done false
  | Some ranges =>
      let end_ := partition_point (λ r, start_ns r <=? timestamp) ranges in
      if bool_decide (end_ = O) then Done false
      else r ← unwrap (ranges !! (end_ - 1)%nat); Done (timestamp <? end_ns r)
  end.

Definition clip (range item : TimeRange) : TimeRange :=
  mkRange (Z.max (start_ns item) (start_ns range)) (Z.min (end_ns item) (end_ns range)).

Definition intersections (by_thread : RegionIntervals) (process_id thread_id : Z) (range : TimeRange) : list TimeRange :=
  match by_thread !! (process_id, thread_id) with
  | None => []
  | Some ranges =>
      let first := partition_point (λ item, end_ns item <=? start_ns range) ranges in
      clip range <$> take_while (λ item, start_ns item <? end_ns range) (drop first ranges)
  end.

Definition range_le (a b : TimeRange) : Prop :=
  start_ns a < start_ns b ∨ start_ns a = start_ns b ∧ end_ns a ≤ end_ns b.
#[export] Instance range_le_dec a b : Decision (range_le a b).
Proof. unfold range_le. apply _. Defined.

(** The loop of [merge]; the last range of [merged] grows or a new one is appended. *)
Definition merge_range (merged : list TimeRange) (range : TimeRange) : list TimeRange :=
  let append := if start_ns range <? end_ns range then merged ++ [range] else merged in
  match last merged with
  | Some l =>
      if start_ns range <=? end_ns l
      then <[(length merged - 1)%nat := mkRange (start_ns l) (Z.max (end_ns l) (end_ns range))]> merged
      else append
  | None => append
  end.

Definition merge_ranges (ranges : list TimeRange) : list TimeRange :=
  foldl merge_range [] (merge_sort range_le ranges).

Definition merge (by_thread : RegionIntervals) : RegionIntervals := merge_ranges <$> by_thread.

(** [by_thread.entry(key).or_default().push(range)]. *)
Definition push (key : Thread) (range : TimeRange) (by_thread : RegionIntervals) : RegionIntervals :=
  <[key := default [] (by_thread !! key) ++ [range]]> by_thread.

(** [by_thread.values().flatten()], in the order of the keys. *)
Definition thread_le (a b : Thread * list TimeRange) : Prop :=
  a.1.1 < b.1.1 ∨ a.1.1 = b.1.1 ∧ a.1.2 ≤ b.1.2.
#[export] Instance thread_le_dec a b : Decision (thread_le a b).
Proof. unfold thread_le. apply _. Defined.
Definition flattened (by_thread : RegionIntervals) : list TimeRange :=
  concat (merge_sort thread_le (map_to_list by_thread)).*2.

End RegionIntervals.

Module RegionData.
Import RegionIntervals.

Inductive SpanBoundary := Complete | MissingBegin | MissingEnd | CrossThread.
#[export] Instance SpanBoundary_eq_dec : EqDecision SpanBoundary.
Proof. solve_decision. Defined.

Inductive RegionSelection := Node (id : nat) | Invocation (id : nat).

Record RegionSpan := mkSpan {
  node : nat;
  s_process_id : Z;
  s_thread_id : Z;
  s_instance : Z;
  s_range : TimeRange;
  depth : nat;
  s_boundary : SpanBoundary;
  self_ranges : list TimeRange
}.

Record RegionNode := mkNode {
  name : list Z;
  context : list Z;
  n_parent : option nat;
  children : list nat;
  spans_of : list nat;
  count : Z;
  incomplete : Z;
  inclusive_ns : Z;
  self_ns : Z
}.

Record RegionData := mkData {
  nodes : list RegionNode;
  roots : list nat;
  spans : list RegionSpan;
  data_range : option TimeRange
}.

Definition default_data : RegionData := mkData [] [] [] None.

(** ** Spans from events *)

(** A row of the table of events. *)
Record Event := mkEvent {
  timestamp : Z;
  e_event : Z;
  e_instance : Z;
  e_parent : Z;
  flow : Z;
  kind : Z;
  pid : Z;
  tid : Z
}.

Record RawSpan := mkRaw {
  event : Z;
  instance : Z;
  parent : Z;
  process_id : Z;
  thread_id : Z;
  range : TimeRange;
  boundary : SpanBoundary
}.

(** One turn of the pairing loop. *)
Definition pair_event (start end_ : Z) (st : list RawSpan * gmap (Z * Z) nat) (e : Event)
    : outcome (list RawSpan * gmap (Z * Z) nat) :=
  let '(raw, opened) := st in
  if kind e =? 0 then
    Done (raw ++ [mkRaw (e_event e) (e_instance e) (e_parent e) (pid e) (tid e)
                    (mkRange (timestamp e) end_) MissingEnd],
          <[(pid e, e_instance e) := length raw]> opened)
  else if kind e =? 1 then
    match opened !! (pid e, flow e) with
    | Some index =>
        s ← unwrap (raw !! index);
        Done (<[index := mkRaw (event s) (instance s) (parent s) (process_id s) (thread_id s)
                  (mkRange (start_ns (range s)) (Z.max (timestamp e) (start_ns (range s))))
                  (if thread_id s =? tid e then Complete else CrossThread)]> raw,
              delete (pid e, flow e) opened)
    | None =>
        Done (raw ++ [mkRaw (e_event e) (flow e) 0 (pid e) (tid e)
                        (mkRange start (timestamp e)) MissingBegin], opened)
    end
  else Done st.

(** The sort key: the start, the end from the latest, the process, thread and instance. *)
Definition span_key (s : RawSpan) : list Z :=
  [start_ns (range s); - end_ns (range s); process_id s; thread_id s; instance s].
Fixpoint lex_le (a b : list Z) : Prop :=
  match a, b with
  | [], _ => True
  | _, [] => False
  | x :: a, y :: b => x < y ∨ x = y ∧ lex_le a b
  end.
#[export] Instance lex_le_dec a b : Decision (lex_le a b).
Proof. revert b. induction a as [|x a IH]; intros [|y b]; cbn; apply _. Defined.
Definition span_le (a b : RawSpan) : Prop := lex_le (span_key a) (span_key b).
#[export] Instance span_le_dec a b : Decision (span_le a b).
Proof. unfold span_le. apply _. Defined.

(** ** Nesting *)
Section nesting.
Context (raw : list RawSpan).

Definition identities : gmap (Z * Z) nat :=
  foldl (λ m '(i, s), <[(process_id s, instance s) := i]> m) ∅ (zip (seq 0 (length raw)) raw).

Definition end_of (i : nat) : outcome Z := s ← unwrap (raw !! i); Done (end_ns (range s)).

Record Nesting := mkNesting {
  parents : list (option nat);
  active : gmap Thread (list nat);
  depths : list nat
}.

(** [stack.retain(|&parent| raw[parent].range.end_ns > start)]. *)
Fixpoint retain (start : Z) (stack : list nat) : outcome (list nat) :=
  match stack with
  | [] => Done []
  | i :: stack =>
      e ← end_of i;
      rest ← retain start stack;
      Done (if start <? e then i :: rest else rest)
  end.

(** The innermost open complete span that reaches the end of this one; [stack] from its top. *)
Fixpoint find_container (s : RawSpan) (stack : list nat) : outcome (option nat) :=
  match stack with
  | [] => Done None
  | i :: stack =>
      p ← unwrap (raw !! i);
      if (end_ns (range s) <=? end_ns (range p)) && bool_decide (boundary p = Complete)
      then Done (Some i) else find_container s stack
  end.

Fixpoint depths_of (depths stack : list nat) : outcome (list nat) :=
  match stack with
  | [] => Done []
  | i :: stack => d ← unwrap (depths !! i); ds ← depths_of depths stack; Done (d :: ds)
  end.

(** [while stack.iter().any(|&other| depths[other] == depth) { depth += 1; }]; a turn per
    depth in use at most. *)
Fixpoint free_depth (fuel : nat) (used : list nat) (depth : nat) : outcome nat :=
  if bool_decide (depth ∈ used) then
    match fuel with O => Panicked | S fuel => free_depth fuel used (S depth) end
  else Done depth.

(** The recorded parent, if it precedes the span and, on the same thread, encloses it. *)
Definition recorded_parent (index : nat) (s : RawSpan) : outcome (option nat) :=
  match identities !! (process_id s, parent s) with
  | None => Done None
  | Some i =>
      p ← unwrap (raw !! i);
      Done (if negb (parent s =? 0) && bool_decide (i < index)%nat &&
               (negb (thread_id p =? thread_id s) ||
                (start_ns (range p) <=? start_ns (range s)) && (end_ns (range s) <=? end_ns (range p)))
            then Some i else None)
  end.

Definition nest_span (n : Nesting) (item : nat * RawSpan) : outcome Nesting :=
  let '(index, s) := item in
  let key := (process_id s, thread_id s) in
  stack ← retain (start_ns (range s)) (default [] (active n !! key));
  container ← find_container s (reverse stack);
  base ← match container with
         | None => Done O
         | Some i => d ← unwrap (depths n !! i); Done (S d)
         end;
  used ← depths_of (depths n) stack;
  depth ← free_depth (length used) used base;
  recorded ← recorded_parent index s;
  Done (mkNesting (parents n ++ [match recorded with Some i => Some i | None => container end])
          (<[key := stack ++ [index]]> (active n)) (depths n ++ [depth])).

Definition nest : outcome Nesting :=
  fold_outcome nest_span (zip (seq 0 (length raw)) raw) (mkNesting [] ∅ []).

(** ** Time of the children *)
Definition add_child (crs : list RegionIntervals) (item : nat * option nat) : outcome (list RegionIntervals) :=
  let '(index, p) := item in
  match p with
  | None => Done crs
  | Some p =>
      child ← unwrap (raw !! index);
      ancestor ← unwrap (raw !! p);
      if (thread_id child =? thread_id ancestor) && bool_decide (boundary child = Complete) then
        cr ← unwrap (crs !! p);
        Done (<[p := push (process_id child, thread_id child)
                 (clip (range ancestor) (range child)) cr]> crs)
      else Done crs
  end.

Definition child_ranges (parents : list (option nat)) : outcome (list RegionIntervals) :=
  crs ← fold_outcome add_child (zip (seq 0 (length raw)) parents) (replicate (length raw) ∅);
  Done (map merge crs).
End nesting.

(** The gaps that the merged ranges of the children leave. *)
Fixpoint gaps (cursor end_ : Z) (cs : list TimeRange) : list TimeRange :=
  match cs with
  | [] => if cursor <? end_ then [mkRange cursor end_] else []
  | c :: cs =>
      (if cursor <? start_ns c then [mkRange cursor (start_ns c)] else []) ++ gaps (Z.max cursor (end_ns c)) end_ cs
  end.

Definition length_ns (r : TimeRange) : Z := wrapping_sub (end_ns r) (start_ns r).
Definition sum_lengths (rs : list TimeRange) : Z := foldl (λ acc r, wrapping_add acc (length_ns r)) 0 rs.

(** ** The hierarchy *)
Section build.
Context (names : gmap Z (list Z * list Z)).

Definition new_node (ev : Z) (p : option nat) : RegionNode :=
  let '(name, context) := default (chars "event " ++ show ev, []) (names !! ev) in
  mkNode name context p [] [] 0 0 0 0.

Definition add_to_children (id : nat) (n : RegionNode) : RegionNode :=
  mkNode (name n) (context n) (n_parent n) (children n ++ [id]) (spans_of n) (count n) (incomplete n)
    (inclusive_ns n) (self_ns n).

(** [node_ids.entry((parent, event)).or_insert_with(...)]. *)
Definition node_for (st : RegionData * gmap (option nat * Z) nat) (p : option nat) (ev : Z)
    : outcome (nat * RegionData * gmap (option nat * Z) nat) :=
  let '(d, ids) := st in
  match ids !! (p, ev) with
  | Some id => Done (id, d, ids)
  | None =>
      let id := length (nodes d) in
      let ns := nodes d ++ [new_node ev p] in
      let ids := <[(p, ev) := id]> ids in
      match p with
      | Some q =>
          n ← unwrap (ns !! q);
          Done (id, mkData (<[q := add_to_children id n]> ns) (roots d) (spans d) (data_range d), ids)
      | None => Done (id, mkData ns (roots d ++ [id]) (spans d) (data_range d), ids)
      end
  end.

(** The update of the node by a span. *)
Definition account (index : nat) (s : RawSpan) (cr : RegionIntervals) (n : RegionNode) : RegionNode :=
  let spans := spans_of n ++ [index] in
  if bool_decide (boundary s = Complete) then
    let own := length_ns (range s) in
    mkNode (name n) (context n) (n_parent n) (children n) spans (count n + 1) (incomplete n)
      (wrapping_add (inclusive_ns n) own)
      (wrapping_add (self_ns n) (saturating_sub own (sum_lengths (flattened cr))))
  else
    mkNode (name n) (context n) (n_parent n) (children n) spans (count n) (incomplete n + 1)
      (inclusive_ns n) (self_ns n).

Definition build_span (st : RegionData * gmap (option nat * Z) nat)
    (item : nat * RawSpan * option nat * nat * RegionIntervals)
    : outcome (RegionData * gmap (option nat * Z) nat) :=
  let '(index, s, p, d, cr) := item in
  q ← match p with
      | None => Done None
      | Some p => sp ← unwrap (spans st.1 !! p); Done (Some (node sp))
      end;
  '(id, data, ids) ← node_for st q (event s);
  n ← unwrap (nodes data !! id);
  Done (mkData (<[id := account index s cr n]> (nodes data)) (roots data)
          (spans data ++ [mkSpan id (process_id s) (thread_id s) (instance s) (range s) d (boundary s)
             (gaps (start_ns (range s)) (end_ns (range s)) (flattened cr))])
          (data_range data), ids).

(** The items of the loop: the vectors all have the length of [raw]. *)
Definition items (raw : list RawSpan) (n : Nesting) (crs : list RegionIntervals)
    : list (nat * RawSpan * option nat * nat * RegionIntervals) :=
  zip (zip (zip (zip (seq 0 (length raw)) raw) (parents n)) (depths n)) crs.

(** The bounds of the recording: the profile's, widened to the events. *)
Definition bounds (profile_range : option TimeRange) (first last : Z) : TimeRange :=
  match profile_range with
  | None => mkRange first (saturating_add last 1)
  | Some r => mkRange (Z.min (start_ns r) first) (Z.max (end_ns r) (saturating_add last 1))
  end.

Definition load_regions (profile_range : option TimeRange) (events : list Event) : outcome RegionData :=
  match head events, last events with
  | Some first, Some last =>
      let b := bounds profile_range (timestamp first) (timestamp last) in
      '(raw, _) ← fold_outcome (pair_event (start_ns b) (end_ns b)) events ([], ∅);
      let raw := merge_sort span_le raw in
      n ← nest raw;
      crs ← child_ranges raw (parents n);
      '(data, _) ← fold_outcome build_span (items raw n crs) (mkData [] [] [] (Some b), ∅);
      Done data
  | _, _ => Done default_data
  end.
End build.

(** ** The intervals of a selection *)
Definition push_span (d : RegionData) (m : RegionIntervals) (id : nat) : outcome RegionIntervals :=
  s ← unwrap (spans d !! id);
  Done (if bool_decide (s_boundary s = Complete) then push (s_process_id s, s_thread_id s) (s_range s) m else m).

Definition selected (d : RegionData) (selection : RegionSelection) : outcome (list nat) :=
  match selection with
  | Node id => n ← unwrap (nodes d !! id); Done (spans_of n)
  | Invocation id => Done [id]
  end.

Definition intervals (d : RegionData) (selection : RegionSelection) : outcome RegionIntervals :=
  ids ← selected d selection;
  m ← fold_outcome (push_span d) ids ∅;
  Done (merge m).

End RegionData.
