(* ===== verification/RegionsSpec.v ===== *)
(** * Region intervals and time: what they cover

    - [Module Ranges]: sets of times as lists of ranges; merging, searching and clipping;
    - [Module Gaps]: the own time of a span beside the time of its children. *)

From S2P Require Import Prelude Words Regions.
From stdpp Require Import sorting.
Open Scope Z_scope.

Import RegionIntervals.

Module Ranges.

Definition in_range (t : Z) (r : TimeRange) : Prop := start_ns r ≤ t < end_ns r.
Definition covers (rs : list TimeRange) (t : Z) : Prop := ∃ r, r ∈ rs ∧ in_range t r.

(** Non-empty ranges in order, with gaps between them. *)
Definition before (a b : TimeRange) : Prop := end_ns a < start_ns b.
Definition separated (rs : list TimeRange) : Prop :=
  StronglySorted before rs ∧ Forall (λ r, start_ns r < end_ns r) rs.

Lemma covers_nil t : ¬ covers [] t.
Proof. by intros (r & []%elem_of_nil & _). Qed.

Lemma covers_app rs qs t : covers (rs ++ qs) t ↔ covers rs t ∨ covers qs t.
Proof.
  split.
  - intros (r & [Hr|Hr]%elem_of_app & Ht); [left|right]; by exists r.
  - intros [(r & Hr & Ht)|(r & Hr & Ht)]; exists r; rewrite elem_of_app; auto.
Qed.

Lemma covers_cons r rs t : covers (r :: rs) t ↔ in_range t r ∨ covers rs t.
Proof.
  rewrite (covers_app [r] rs). split; (intros [H|H]; [left|by right]).
  - by destruct H as (q & ->%list_elem_of_singleton & Ht).
  - exists r. split; [by apply list_elem_of_singleton|done].
Qed.

Lemma covers_perm rs qs t : rs ≡ₚ qs → covers rs t ↔ covers qs t.
Proof. intros H. unfold covers. by setoid_rewrite H. Qed.

Lemma separated_nil : separated [].
Proof. split; constructor. Qed.

Lemma separated_cons r rs : separated (r :: rs) ↔ start_ns r < end_ns r ∧ Forall (before r) rs ∧ separated rs.
Proof.
  unfold separated. rewrite Forall_cons. split.
  - intros [[Hs Hf]%StronglySorted_inv [Hr Hrs]]. done.
  - intros (Hr & Hf & Hs & Hrs). split; [by constructor|done].
Qed.

Lemma separated_app rs qs :
  separated (rs ++ qs) ↔ separated rs ∧ separated qs ∧ ∀ r q, r ∈ rs → q ∈ qs → before r q.
Proof.
  induction rs as [|r rs IH]; cbn [app].
  - split; [intros H; split_and!; [apply separated_nil|done|by intros ? ? []%elem_of_nil]|by intros (_ & ? & _)].
  - rewrite !separated_cons, IH, Forall_app, !Forall_forall. split.
    + intros (Hr & [Hf1 Hf2] & Hs1 & Hs2 & Hb). split_and!; [done..|].
      intros x y [->|Hx]%elem_of_cons Hy; [by apply Hf2|by apply Hb].
    + intros ((Hr & Hf1 & Hs1) & Hs2 & Hb). split_and!; [done|done|intros y Hy; apply Hb; [by left|done]|done|done|].
      intros x y Hx. apply Hb. by right.
Qed.

(** ** Merging *)
Lemma last_snoc_cases {A} (l : list A) : l = [] ∨ ∃ i x, l = i ++ [x].
Proof. destruct l using rev_ind; [by left|right; eauto]. Qed.

Lemma merge_range_spec merged r :
  separated merged → (∀ m, m ∈ merged → start_ns m ≤ start_ns r) →
  separated (merge_range merged r) ∧ (∀ t, covers (merge_range merged r) t ↔ covers merged t ∨ in_range t r) ∧
  (∀ m, m ∈ merge_range merged r → start_ns m ≤ start_ns r).
Proof.
  intros Hs Hle.
  assert (Happ : (∀ m, m ∈ merged → before m r) →
    let a := if start_ns r <? end_ns r then merged ++ [r] else merged in
    separated a ∧ (∀ t, covers a t ↔ covers merged t ∨ in_range t r) ∧ (∀ m, m ∈ a → start_ns m ≤ start_ns r)).
  { intros Hb. cbn zeta. destruct (Z.ltb_spec (start_ns r) (end_ns r)) as [Hr|Hr]; split_and!; try done.
    - apply separated_app. split_and!; [done| |].
      + apply separated_cons. split_and!; [done|by constructor|apply separated_nil].
      + intros m q Hm ->%list_elem_of_singleton. by apply Hb.
    - intros t. rewrite covers_app, covers_cons. pose proof (covers_nil t). tauto.
    - intros m [Hm| ->%list_elem_of_singleton]%elem_of_app; [by apply Hle|lia].
    - intros t. unfold in_range. split; [by left|intros [?|?]; [done|lia]]. }
  unfold merge_range. destruct (last_snoc_cases merged) as [->|(i & l & ->)]; cbn [last].
  { apply Happ. by intros m []%elem_of_nil. }
  rewrite last_snoc. apply separated_app in Hs as (Hsi & Hsl & Hb). apply separated_cons in Hsl as (Hl & _ & _).
  assert (Hll : start_ns l ≤ start_ns r) by (apply Hle; set_solver).
  destruct (Z.leb_spec (start_ns r) (end_ns l)) as [Hrl|Hrl].
  - replace (length (i ++ [l]) - 1)%nat with (length i) by (rewrite length_app; cbn; lia).
    rewrite insert_app_r_alt, Nat.sub_diag by lia. cbn [insert list_insert]. set (l' := mkRange _ _). split_and!.
    + apply separated_app. split_and!; [done| |].
      * apply separated_cons. split_and!; [cbn; lia|by constructor|apply separated_nil].
      * intros x y Hx ->%list_elem_of_singleton. specialize (Hb x l Hx). unfold before in *. cbn. apply Hb. set_solver.
    + intros t. rewrite !covers_app, !covers_cons. pose proof (covers_nil t). unfold in_range. cbn.
      destruct (decide (t < end_ns l)).
      * split; [intros [?|[?|?]]; [tauto|left; right; left; lia|tauto]|]. intros [[?|[?|?]]|?]; [tauto|right; left; lia|tauto|right; left; lia].
      * split; [intros [?|[?|?]]; [tauto|right; lia|tauto]|]. intros [[?|[?|?]]|?]; [tauto|lia|tauto|right; left; lia].
    + intros m [Hm| ->%list_elem_of_singleton]%elem_of_app; [apply Hle; set_solver|cbn; lia].
  - apply Happ. intros m [Hm| ->%list_elem_of_singleton]%elem_of_app; [|done].
    specialize (Hb m l Hm ltac:(set_solver)). unfold before in *. lia.
Qed.

Lemma merge_fold l merged :
  separated merged → (∀ m r, m ∈ merged → r ∈ l → start_ns m ≤ start_ns r) → StronglySorted range_le l →
  separated (foldl merge_range merged l) ∧ ∀ t, covers (foldl merge_range merged l) t ↔ covers merged t ∨ covers l t.
Proof.
  revert merged. induction l as [|r l IH]; intros merged Hs Hle Hso; cbn [foldl].
  - split; [done|]. intros t. pose proof (covers_nil t). tauto.
  - apply StronglySorted_inv in Hso as [Hso Hr]. rewrite Forall_forall in Hr.
    destruct (merge_range_spec merged r Hs) as (Hs1 & Hc1 & Hle1). { intros m Hm. apply Hle; [done|by left]. }
    destruct (IH (merge_range merged r) Hs1) as [Hs2 Hc2]; [|done|].
    + intros m x Hm Hx. apply Hle1 in Hm. apply Hr in Hx. unfold range_le in Hx. lia.
    + split; [done|]. intros t. rewrite Hc2, Hc1, covers_cons. tauto.
Qed.

#[export] Instance range_le_total : Total range_le.
Proof. intros a b. unfold range_le. lia. Qed.
#[export] Instance range_le_trans : Transitive range_le.
Proof. intros a b c. unfold range_le. lia. Qed.

Lemma merge_ranges_spec rs : separated (merge_ranges rs) ∧ ∀ t, covers (merge_ranges rs) t ↔ covers rs t.
Proof.
  unfold merge_ranges. destruct (merge_fold (merge_sort range_le rs) []) as [Hs Hc].
  - apply separated_nil.
  - by intros m r []%elem_of_nil.
  - apply StronglySorted_merge_sort; apply _.
  - split; [done|]. intros t. rewrite Hc, (covers_perm (merge_sort range_le rs) rs) by apply merge_sort_Permutation.
    pose proof (covers_nil t). tauto.
Qed.

(** ** Searching *)
Lemma partition_split {A} (p : A → bool) l : ∃ a b, l = a ++ b ∧ partition_point p l = length a ∧
  Forall (λ x, p x = true) a ∧ match b with [] => True | x :: _ => p x = false end.
Proof.
  induction l as [|x l (a & b & -> & Hn & Ha & Hb)]; [by exists [], []|]. cbn. destruct (p x) eqn:E.
  - exists (x :: a), b. cbn. rewrite Hn. split_and!; [done..|by constructor|done].
  - by exists [], (x :: a ++ b).
Qed.

Lemma take_while_split {A} (p : A → bool) l : ∃ a b, l = a ++ b ∧ take_while p l = a ∧
  Forall (λ x, p x = true) a ∧ match b with [] => True | x :: _ => p x = false end.
Proof.
  induction l as [|x l (a & b & -> & Hn & Ha & Hb)]; [by exists [], []|]. cbn. destruct (p x) eqn:E.
  - exists (x :: a), b. cbn. rewrite Hn. split_and!; [done..|by constructor|done].
  - by exists [], (x :: a ++ b).
Qed.

(** The range found holds the time exactly when some range does. *)
Lemma contains_spec m process_id thread_id t rs :
  m !! (process_id, thread_id) = Some rs → separated rs →
  ∃ b, contains m process_id thread_id t = Done b ∧ (b = true ↔ covers rs t).
Proof.
  intros Hm Hs. unfold contains. rewrite Hm.
  destruct (partition_split (λ r, start_ns r <=? t) rs) as (a & b & -> & -> & Ha & Hb).
  apply separated_app in Hs as (Hsa & Hsb & Hab).
  assert (Hnb : ¬ covers b t).
  { intros (q & Hq & Ht). destruct b as [|x b]; [by apply elem_of_nil in Hq|]. apply Z.leb_gt in Hb. unfold in_range in Ht.
    apply elem_of_cons in Hq as [->|Hq]; [lia|]. apply separated_cons in Hsb as (Hx & Hf & _).
    rewrite Forall_forall in Hf. specialize (Hf q Hq). unfold before in Hf. lia. }
  destruct (last_snoc_cases a) as [->|(i & l & ->)].
  - rewrite bool_decide_true by done. exists false. split; [done|]. split; [done|]. rewrite covers_app. pose proof (covers_nil t). tauto.
  - rewrite bool_decide_false by (rewrite length_app; cbn; lia). rewrite <-app_assoc. change ([l] ++ b) with (l :: b).
    replace (length (i ++ [l]) - 1)%nat with (length i) by (rewrite length_app; cbn; lia).
    rewrite list_lookup_middle by done. cbn. eexists. split; [done|]. rewrite Z.ltb_lt.
    apply Forall_app in Ha as [_ Ha]. apply Forall_cons in Ha as [Hl%Z.leb_le _].
    apply separated_app in Hsa as (_ & _ & Hil). rewrite covers_app, covers_cons. split; [intros; right; left; unfold in_range; lia|].
    intros [(q & Hq & Ht)|[Ht|?]]; [|unfold in_range in Ht; lia|done].
    specialize (Hil q l Hq ltac:(set_solver)). unfold before, in_range in *. lia.
Qed.

Lemma clip_covers range rs t : covers (clip range <$> rs) t ↔ covers rs t ∧ in_range t range.
Proof.
  unfold covers, in_range. split.
  - intros (r & (q & -> & Hq)%list_elem_of_fmap & Ht). cbn in Ht. split; [exists q|]; lia || (split; [done|lia]).
  - intros [(r & Hr & Ht) Hin]. exists (clip range r). split; [by apply list_elem_of_fmap_2|]. cbn. lia.
Qed.

Lemma intersections_covers m process_id thread_id range rs t :
  m !! (process_id, thread_id) = Some rs → separated rs →
  covers (intersections m process_id thread_id range) t ↔ covers rs t ∧ in_range t range.
Proof.
  intros Hm Hs. unfold intersections. rewrite Hm.
  destruct (partition_split (λ item, end_ns item <=? start_ns range) rs) as (a & b & -> & -> & Ha & Hb).
  rewrite drop_app_length. destruct (take_while_split (λ item, start_ns item <? end_ns range) b) as (c & d & -> & -> & Hc & Hd).
  rewrite clip_covers, !covers_app. split; [tauto|]. intros [[H|[H|H]] Ht]; [|done|].
  - destruct H as (q & Hq & Hq'). rewrite Forall_forall in Ha. apply Ha, Z.leb_le in Hq. unfold in_range in *. lia.
  - destruct H as (q & Hq & Hq'). destruct d as [|x d]; [by apply elem_of_nil in Hq|]. apply Z.ltb_ge in Hd.
    apply separated_app in Hs as (_ & Hs & _). apply separated_app in Hs as (_ & Hs & _). apply separated_cons in Hs as (Hx & Hf & _).
    unfold in_range in *. apply elem_of_cons in Hq as [->|Hq]; [lia|].
    rewrite Forall_forall in Hf. specialize (Hf q Hq). unfold before in Hf. lia.
Qed.

(** The clipped ranges stay in order and, in a range that is not empty, not empty. *)
Lemma intersections_separated m process_id thread_id range rs :
  m !! (process_id, thread_id) = Some rs → separated rs → start_ns range < end_ns range →
  separated (intersections m process_id thread_id range).
Proof.
  intros Hm Hs Hr. unfold intersections. rewrite Hm.
  destruct (partition_split (λ item, end_ns item <=? start_ns range) rs) as (a & b & -> & -> & Ha & Hb).
  rewrite drop_app_length. destruct (take_while_split (λ item, start_ns item <? end_ns range) b) as (c & d & -> & -> & Hc & Hd).
  apply separated_app in Hs as (_ & Hs & _).
  assert (Hgt : Forall (λ x, start_ns range < end_ns x) (c ++ d)).
  { destruct (c ++ d) as [|x l]; [constructor|]. apply Z.leb_gt in Hb. apply separated_cons in Hs as (Hx & Hf & [_ Hl]).
    constructor; [done|]. rewrite Forall_forall in Hf, Hl |- *. intros q Hq. specialize (Hf q Hq). specialize (Hl q Hq).
    unfold before in Hf. lia. }
  apply separated_app in Hs as (Hs & _ & _). apply Forall_app in Hgt as [Hgt _]. clear Ha Hb Hd Hm.
  induction c as [|x c IH]; [apply separated_nil|]. rewrite fmap_cons. apply separated_cons in Hs as (Hx & Hf & Hs).
  apply Forall_cons in Hc as [Hc%Z.ltb_lt Hcs], Hgt as [Hg Hgs]. apply separated_cons. split_and!; [cbn; lia| |by apply IH].
  rewrite Forall_forall in Hf, Hcs |- *. intros q (y & -> & Hy)%list_elem_of_fmap. specialize (Hf y Hy). specialize (Hcs y Hy). cbn in Hcs.
  apply Z.ltb_lt in Hcs. unfold before in *. cbn. lia.
Qed.

(** ** Pushing and merging by thread *)
Lemma merge_lookup m k : merge m !! k = merge_ranges <$> m !! k.
Proof. unfold merge. apply lookup_fmap. Qed.

Lemma push_lookup k k' r m : push k r m !! k' = if decide (k = k') then Some (default [] (m !! k') ++ [r]) else m !! k'.
Proof. unfold push. destruct (decide (k = k')) as [->|Hne]; [apply lookup_insert_eq|by apply lookup_insert_ne]. Qed.

End Ranges.

Module Gaps.
Import Ranges RegionData.

(** The time that ranges take, without machine arithmetic. *)
Definition total (rs : list TimeRange) : Z := foldr (λ r acc, (end_ns r - start_ns r) + acc) 0 rs.

Lemma total_nil : total [] = 0.
Proof. done. Qed.
Lemma total_cons r rs : total (r :: rs) = (end_ns r - start_ns r) + total rs.
Proof. done. Qed.

(** Ranges between two times, in order. *)
Definition inside (lo hi : Z) (rs : list TimeRange) : Prop := Forall (λ r, lo ≤ start_ns r ∧ end_ns r ≤ hi) rs.

Lemma total_inside lo hi rs : separated rs → inside lo hi rs → lo ≤ hi → 0 ≤ total rs ≤ hi - lo.
Proof.
  revert lo. induction rs as [|r rs IH]; intros lo Hs Hi Hle; [rewrite total_nil; lia|]. rewrite total_cons.
  apply separated_cons in Hs as (Hr & Hf & Hs). apply Forall_cons in Hi as [[Hlo Hhi] Hi].
  assert (0 ≤ total rs ≤ hi - end_ns r); [|lia]. apply IH; [done| |lia].
  unfold inside. rewrite Forall_forall in Hf, Hi |- *. intros q Hq. specialize (Hf q Hq). destruct (Hi q Hq). unfold before in Hf. lia.
Qed.

Lemma sum_lengths_exact rs : separated rs → inside 0 u64_max rs → sum_lengths rs = total rs.
Proof.
  intros Hs Hi. assert (G : ∀ rs acc lo, separated rs → inside lo u64_max rs → 0 ≤ acc ≤ lo →
    foldl (λ acc r, wrapping_add acc (length_ns r)) acc rs = acc + total rs).
  { clear. induction rs as [|r rs IH]; intros acc lo Hs Hi Ha; cbn [foldl]; [rewrite total_nil; lia|].
    apply separated_cons in Hs as (Hr & Hf & Hs). apply Forall_cons in Hi as [[Hlo Hhi] Hi].
    assert (E : wrapping_add acc (length_ns r) = acc + (end_ns r - start_ns r)) by (unfold length_ns, wrapping_sub, wrapping_add; rewrite (wrap64_small (_ - _)), wrap64_small; unfold in_u64; lia).
    rewrite E, (IH _ (end_ns r)).
    - rewrite total_cons. lia.
    - done.
    - unfold inside. rewrite Forall_forall in Hf, Hi |- *. intros q Hq. specialize (Hf q Hq). destruct (Hi q Hq). unfold before in Hf. lia.
    - lia. }
  unfold sum_lengths. rewrite (G rs 0 0); [lia|done..|lia].
Qed.

(** The gaps are the rest of the span. *)
Lemma gaps_spec cs cursor hi :
  separated cs → inside cursor hi cs → cursor ≤ hi →
  separated (gaps cursor hi cs) ∧ inside cursor hi (gaps cursor hi cs) ∧
  (∀ t, covers (gaps cursor hi cs) t ↔ cursor ≤ t < hi ∧ ¬ covers cs t) ∧
  total (gaps cursor hi cs) + total cs = hi - cursor.
Proof.
  revert cursor. induction cs as [|c cs IH]; intros cursor Hs Hi Hle; cbn [gaps].
  - destruct (Z.ltb_spec cursor hi); cbn.
    + split_and!; [apply separated_cons; split_and!; [done|by constructor|apply separated_nil]| | |lia].
      * constructor; [cbn; lia|constructor].
      * intros t. rewrite covers_cons. pose proof (covers_nil t). unfold in_range. cbn. tauto.
    + split_and!; [apply separated_nil|constructor| |lia]. intros t. pose proof (covers_nil t). split; [done|lia].
  - apply separated_cons in Hs as (Hc & Hf & Hs). apply Forall_cons in Hi as [[Hlo Hhi] Hi].
    replace (Z.max cursor (end_ns c)) with (end_ns c) by lia.
    destruct (IH (end_ns c) Hs) as (Hs1 & Hi1 & Hc1 & Ht1); [|lia|].
    { unfold inside. rewrite Forall_forall in Hf, Hi |- *. intros q Hq. specialize (Hf q Hq). destruct (Hi q Hq). unfold before in Hf. lia. }
    assert (Hi2 : inside cursor hi (gaps (end_ns c) hi cs)).
    { eapply Forall_impl; [exact Hi1|]. cbn. intros; lia. }
    assert (Hncs : ∀ t, t < end_ns c → ¬ covers cs t).
    { intros t Ht (q & Hq & Hq'). rewrite Forall_forall in Hf. specialize (Hf q Hq). unfold before, in_range in *. lia. }
    destruct (Z.ltb_spec cursor (start_ns c)); cbn [app]; split_and!; try done.
    + apply separated_cons. split_and!; [done| |done]. eapply Forall_impl; [exact Hi1|]. unfold before. cbn. intros; lia.
    + constructor; [cbn; lia|done].
    + intros t. rewrite !covers_cons, Hc1. unfold in_range. cbn. specialize (Hncs t).
      split; [intros [?|[? ?]]; (split; [lia|]); intros [?|?]; lia || tauto || (apply Hncs; [lia|done])|].
      intros [? Hn]. destruct (decide (t < start_ns c)); [left; lia|]. right. split; [|tauto].
      destruct (decide (t < end_ns c)); [|lia]. exfalso. apply Hn. left. lia.
    + rewrite ?total_cons. cbn [start_ns end_ns]. lia.
    + intros t. rewrite Hc1, covers_cons. unfold in_range. specialize (Hncs t).
      split; [intros [? ?]; (split; [lia|]); intros [?|?]; lia || tauto|].
      intros [? Hn]. split; [|tauto]. destruct (decide (t < end_ns c)); [|lia]. exfalso. apply Hn. left. lia.
    + rewrite ?total_cons. cbn [start_ns end_ns]. lia.
Qed.
End Gaps.
