(* ===== verification/RegionsNest.v ===== *)
(** * The nesting of region spans

    - [Module Pairing]: pairing begin and end events never fails and gives proper ranges;
    - [Module Nesting]: the nesting loop is total; a parent precedes its child, belongs to the
      same process and encloses it on the same thread; spans of a thread that overlap get
      different depths;
    - [Module Children]: the time of the children of a span. *)

From S2P Require Import Prelude Words Regions RegionsSpec.
From stdpp Require Import sorting.
Open Scope Z_scope.

Import RegionIntervals RegionData.

(** A loop over a list with its indices. *)
Lemma fold_indexed {St A} (I : nat → St → Prop) (f : St → nat * A → outcome St) (l : list A) k s :
  I k s →
  (∀ i x s, l !! i = Some x → I (k + i)%nat s → ∃ s', f s ((k + i)%nat, x) = Done s' ∧ I (k + i + 1)%nat s') →
  ∃ s', fold_outcome f (zip (seq k (length l)) l) s = Done s' ∧ I (k + length l)%nat s'.
Proof.
  revert k s. induction l as [|x l IH]; intros k s HI Hstep; cbn [length seq zip zip_with fold_outcome].
  - exists s. by rewrite Nat.add_0_r.
  - destruct (Hstep O x s eq_refl) as (s1 & E1 & HI1); [by rewrite Nat.add_0_r|]. rewrite Nat.add_0_r in E1. rewrite E1. cbn.
    destruct (IH (S k) s1) as (s2 & E2 & HI2).
    + by replace (S k) with (k + 0 + 1)%nat by lia.
    + intros i y t Hy HIt. destruct (Hstep (S i) y t Hy) as (t' & Et & HIt').
      * by replace (k + S i)%nat with (S k + i)%nat by lia.
      * exists t'. replace (S k + i)%nat with (k + S i)%nat by lia. done.
    + exists s2. split; [done|]. by replace (k + S (length l))%nat with (S k + length l)%nat by lia.
Qed.

Module Pairing.

Definition span_ok (s : RawSpan) : Prop :=
  in_u64 (start_ns (range s)) ∧ (boundary s = Complete → start_ns (range s) ≤ end_ns (range s) ≤ u64_max).

Record paired_ok (st : list RawSpan * gmap (Z * Z) nat) : Prop := {
  po_open k i : st.2 !! k = Some i → (i < length st.1)%nat;
  po_spans : Forall span_ok st.1
}.

Lemma pair_event_spec start end_ st e :
  in_u64 start → in_u64 (timestamp e) → paired_ok st →
  ∃ st', pair_event start end_ st e = Done st' ∧ paired_ok st'.
Proof.
  intros Hst Ht [Ho Hs]. destruct st as [raw opened]. cbn [fst snd] in *. unfold pair_event.
  destruct (kind e =? 0).
  { eexists. split; [done|]. split; cbn [fst snd].
    - intros k i [[_ <-]|[_ Hi]]%lookup_insert_Some; rewrite length_app; cbn; [lia|]. apply Ho in Hi. lia.
    - apply Forall_app. split; [done|]. repeat constructor; cbn; [apply Ht..|done|done]. }
  destruct (kind e =? 1); [|by exists (raw, opened)].
  destruct (opened !! (pid e, flow e)) as [i|] eqn:Hi.
  - apply Ho in Hi as Hlt. apply lookup_lt_is_Some in Hlt as [s Hlk]. rewrite Hlk. cbn. eexists. split; [done|]. split; cbn [fst snd].
    + intros k j [_ Hj]%lookup_delete_Some. rewrite length_insert. by apply Ho in Hj.
    + apply Forall_insert; [done|]. rewrite Forall_forall in Hs. destruct (Hs s) as [Hstart _]; [by eapply list_elem_of_lookup_2|].
      split; cbn; [done|]. unfold in_u64 in *. lia.
  - eexists. split; [done|]. split; cbn [fst snd].
    + intros k j Hj. rewrite length_app. cbn. apply Ho in Hj. lia.
    + apply Forall_app. split; [done|]. repeat constructor; cbn; [apply Hst..|done|done].
Qed.

Lemma pair_events_spec start end_ events :
  in_u64 start → Forall (λ e, in_u64 (timestamp e)) events →
  ∃ raw opened, fold_outcome (pair_event start end_) events ([], ∅) = Done (raw, opened) ∧ Forall span_ok raw.
Proof.
  intros Hst Hev. assert (G : ∀ st, paired_ok st → ∃ st', fold_outcome (pair_event start end_) events st = Done st' ∧ paired_ok st').
  { induction Hev as [|e events He _ IH]; intros st Hs; cbn [fold_outcome]; [by exists st|].
    destruct (pair_event_spec start end_ st e Hst He Hs) as (st1 & -> & Hs1). cbn. by apply IH. }
  destruct (G ([], ∅)) as ([raw opened] & E & [_ Hs]).
  - split; cbn [fst snd]; [by intros k i []%lookup_empty_Some|by constructor].
  - by exists raw, opened.
Qed.
End Pairing.

(** ** The order of the spans *)
Lemma lex_le_trans a b c : lex_le a b → lex_le b c → lex_le a c.
Proof.
  revert b c. induction a as [|x a IH]; intros [|y b] [|z c]; cbn; try done. intros [?|[-> ?]] [?|[-> ?]]; [left; lia|auto..].
  right. split; [done|]. by apply (IH b).
Qed.
Lemma lex_le_total a b : lex_le a b ∨ lex_le b a.
Proof.
  revert b. induction a as [|x a IH]; intros [|y b]; cbn; [by left|by left|by right|].
  destruct (Z.lt_trichotomy x y) as [?|[->|?]]; [auto| |auto]. destruct (IH b); auto.
Qed.
#[export] Instance span_le_trans : Transitive span_le.
Proof. intros a b c. apply lex_le_trans. Qed.
#[export] Instance span_le_total : Total span_le.
Proof. intros a b. apply lex_le_total. Qed.

Lemma span_le_start a b : span_le a b → start_ns (range a) ≤ start_ns (range b).
Proof. unfold span_le. cbn. lia. Qed.

Module Nest.
Section nest.
Context (raw : list RawSpan) (Hsorted : StronglySorted span_le raw).

Definition key_of (s : RawSpan) : Thread := (process_id s, thread_id s).

Lemma start_mono i j si sj : (i ≤ j)%nat → raw !! i = Some si → raw !! j = Some sj →
  start_ns (range si) ≤ start_ns (range sj).
Proof.
  intros Hij Hi Hj. destruct (decide (i = j)) as [->|Hne]; [rewrite Hi in Hj; injection Hj as ->; lia|].
  apply span_le_start. apply (StronglySorted_lookup _ raw i j); [done|lia|done..].
Qed.

(** *** The tables the loop consults *)
Lemma identities_spec p n i : identities raw !! (p, n) = Some i →
  ∃ s, raw !! i = Some s ∧ process_id s = p ∧ instance s = n.
Proof.
  unfold identities. assert (G : ∀ l k (m : gmap (Z * Z) nat),
    (∀ j s, l !! j = Some s → raw !! (k + j)%nat = Some s) →
    (∀ q i, m !! q = Some i → ∃ s, raw !! i = Some s ∧ (process_id s, instance s) = q) →
    ∀ q i, foldl (λ m '(i, s), <[(process_id s, instance s) := i]> m) m (zip (seq k (length l)) l) !! q = Some i →
      ∃ s, raw !! i = Some s ∧ (process_id s, instance s) = q).
  { induction l as [|s l IH]; intros k m Hl Hm q j; cbn; [apply Hm|].
    apply (IH (S k)).
    - intros j' s' Hj'. replace (S k + j')%nat with (k + S j')%nat by lia. by apply Hl.
    - intros q' j' [[<- <-]|[_ Hj']]%lookup_insert_Some; [|by apply Hm]. exists s. split; [|done].
      rewrite <-(Nat.add_0_r k). by apply Hl. }
  intros Hi. destruct (G raw O ∅ ltac:(done) ltac:(by intros q j []%lookup_empty_Some) _ _ Hi) as (s & Hs & [= <- <-]).
  by exists s.
Qed.

Lemma end_of_spec i s : raw !! i = Some s → end_of raw i = Done (end_ns (range s)).
Proof. unfold end_of. by intros ->. Qed.

Definition live_at (start : Z) (i : nat) : Prop := ∃ s, raw !! i = Some s ∧ start < end_ns (range s).

Lemma retain_spec start stack : Forall (λ i, i < length raw)%nat stack →
  ∃ kept, retain raw start stack = Done kept ∧ ∀ i, i ∈ kept ↔ i ∈ stack ∧ live_at start i.
Proof.
  induction stack as [|i stack IH]; intros Hf; cbn [retain]; [exists []; split; [done|]; set_solver|].
  apply Forall_cons in Hf as [[s Hs]%lookup_lt_is_Some Hf]. rewrite (end_of_spec _ _ Hs). cbn.
  destruct (IH Hf) as (kept & -> & Hk). cbn. eexists. split; [done|]. intros j.
  assert (Hlive : live_at start i ↔ start < end_ns (range s)).
  { unfold live_at. split; [intros (s' & Hs' & ?); rewrite Hs in Hs'; by injection Hs' as ->|by exists s]. }
  destruct (Z.ltb_spec start (end_ns (range s))); rewrite !elem_of_cons, ?Hk; split.
  - intros [->|[? ?]]; [split; [by left|by apply Hlive]|tauto].
  - intros [[->|?] ?]; tauto.
  - tauto.
  - intros [[->|?] ?]; [|tauto]. exfalso. apply Hlive in H0. lia.
Qed.

Lemma find_container_spec s stack : Forall (λ i, i < length raw)%nat stack →
  ∃ c, find_container raw s stack = Done c ∧
    ∀ i, c = Some i → i ∈ stack ∧ ∃ p, raw !! i = Some p ∧ end_ns (range s) ≤ end_ns (range p).
Proof.
  induction stack as [|i stack IH]; intros Hf; cbn [find_container]; [by exists None|].
  apply Forall_cons in Hf as [[p Hp]%lookup_lt_is_Some Hf]. rewrite Hp. cbn. case_match eqn:E.
  - eexists. split; [done|]. intros ? [= <-]. split; [by left|]. exists p. apply andb_true_iff in E as [E _]. split; [done|lia].
  - destruct (IH Hf) as (c & -> & Hc). exists c. split; [done|]. intros j Hj. destruct (Hc j Hj). split; [by right|done].
Qed.

Lemma depths_of_spec ds stack : Forall (λ i, i < length ds)%nat stack →
  ∃ used, depths_of ds stack = Done used ∧ ∀ i d, i ∈ stack → ds !! i = Some d → d ∈ used.
Proof.
  induction stack as [|i stack IH]; intros Hf; cbn [depths_of]; [exists []; split; [done|]; by intros i d []%elem_of_nil|].
  apply Forall_cons in Hf as [[d Hd]%lookup_lt_is_Some Hf]. rewrite Hd. cbn. destruct (IH Hf) as (used & -> & Hu). cbn.
  eexists. split; [done|]. intros j e [->|Hj]%elem_of_cons He; [rewrite Hd in He; injection He as ->; by left|]. right. by eapply Hu.
Qed.

(** There are more depths from any one on than depths in use. *)
Lemma free_depth_spec fuel used d :
  (length (List.filter (λ x, Nat.leb d x) used) ≤ fuel)%nat →
  ∃ d', free_depth fuel used d = Done d' ∧ d' ∉ used.
Proof.
  revert d. induction fuel as [|fuel IH]; intros d Hl; cbn [free_depth]; case_bool_decide as Hd; try (by exists d).
  - exfalso. assert (d ∈ List.filter (λ x, Nat.leb d x) used) as H.
    { apply list_elem_of_In, filter_In. split; [by apply list_elem_of_In|]. by apply Nat.leb_le. }
    destruct (List.filter _ used); [by apply elem_of_nil in H|cbn in Hl; lia].
  - apply IH. enough (length (List.filter (λ x, Nat.leb (S d) x) used) < length (List.filter (λ x, Nat.leb d x) used))%nat by lia.
    clear -Hd. apply list_elem_of_split in Hd as (l1 & l2 & ->). rewrite !List.filter_app, !length_app. cbn [List.filter].
    replace (Nat.leb (S d) d) with false by (symmetry; apply Nat.leb_gt; lia). rewrite Nat.leb_refl. cbn [length].
    assert (G : ∀ l, (length (List.filter (λ x, Nat.leb (S d) x) l) <= length (List.filter (λ x, Nat.leb d x) l))%nat).
    { induction l as [|x l IHl]; cbn [List.filter]; [lia|]. destruct (Nat.leb_spec (S d) x), (Nat.leb_spec d x); cbn [length]; lia. }
    pose proof (G l1). pose proof (G l2). lia.
Qed.

(** *** Parents *)
Record parent_ok (i p : nat) : Prop := {
  pk_before : (p < i)%nat;
  pk_spans s q : raw !! i = Some s → raw !! p = Some q → process_id q = process_id s ∧
    (thread_id q = thread_id s → start_ns (range q) ≤ start_ns (range s) ∧ end_ns (range s) ≤ end_ns (range q))
}.

Lemma recorded_parent_spec index s : raw !! index = Some s →
  ∃ r, recorded_parent raw index s = Done r ∧ ∀ i, r = Some i → parent_ok index i.
Proof.
  intros Hs. unfold recorded_parent. destruct (identities raw !! _) as [i|] eqn:E; [|by exists None].
  destruct (identities_spec _ _ _ E) as (p & Hp & Hpid & _). rewrite Hp. cbn. eexists. split; [done|].
  intros j Hj. case_match eqn:Ec; [|done]. injection Hj as <-.
  apply andb_true_iff in Ec as [Ec Hr]. apply andb_true_iff in Ec as [_ Hlt%bool_decide_eq_true].
  split; [done|]. intros s' q Hs' Hq. rewrite Hs in Hs'. injection Hs' as <-. rewrite Hp in Hq. injection Hq as <-. split; [done|].
  intros Ht. apply orb_true_iff in Hr as [Hn|Hr]; [rewrite negb_true_iff in Hn; lia|]. apply andb_true_iff in Hr. lia.
Qed.

(** *** The invariant; the first [k] spans are placed *)
Definition overlapping (i j : nat) : Prop :=
  ∃ si sj, raw !! i = Some si ∧ raw !! j = Some sj ∧ key_of si = key_of sj ∧ start_ns (range sj) < end_ns (range si).

Record nested (k : nat) (n : Nesting) : Prop := {
  ne_parents : length (parents n) = k;
  ne_depths : length (depths n) = k;
  ne_ok i p : parents n !! i = Some (Some p) → parent_ok i p;
  ne_active key i : i ∈ default [] (active n !! key) → (i < k)%nat ∧ ∃ s, raw !! i = Some s ∧ key_of s = key;
  ne_gone i s : (i < k)%nat → raw !! i = Some s → i ∈ default [] (active n !! key_of s) ∨
    ∃ j q, (j < k)%nat ∧ raw !! j = Some q ∧ end_ns (range s) ≤ start_ns (range q);
  ne_lanes i j : (i < j)%nat → (j < k)%nat → overlapping i j → depths n !! i ≠ depths n !! j
}.

Lemma nested_start : nested O (mkNesting [] ∅ []).
Proof.
  split; cbn [parents depths active]; try done.
  - intros key i. rewrite lookup_empty. by intros []%elem_of_nil.
  - lia.
  - lia.
Qed.

Lemma nest_span_spec k s n : raw !! k = Some s → nested k n → ∃ n', nest_span raw n (k, s) = Done n' ∧ nested (k + 1) n'.
Proof.
  intros Hs [Hlp Hld Hok Hact Hgone Hlanes]. unfold nest_span. set (key := (process_id s, thread_id s)).
  assert (Hk : (k < length raw)%nat) by (by eapply lookup_lt_Some).
  destruct (retain_spec (start_ns (range s)) (default [] (active n !! key))) as (stack & -> & Hst).
  { apply Forall_forall. intros i Hi. destruct (Hact _ _ Hi). lia. }
  assert (Hbelow : Forall (λ i, i < k)%nat stack). { apply Forall_forall. intros i [Hi _]%Hst. by apply Hact in Hi as [? _]. }
  cbn. destruct (find_container_spec s (reverse stack)) as (container & -> & Hcont).
  { apply Forall_reverse. eapply Forall_impl; [exact Hbelow|]. cbn. lia. }
  cbn. assert (Hcok : ∀ i, container = Some i → parent_ok k i ∧ (i < k)%nat).
  { intros i Hi. destruct (Hcont i Hi) as (Hin & p & Hp & Hend). rewrite elem_of_reverse in Hin.
    apply Hst in Hin as [Hin _]. destruct (Hact _ _ Hin) as (Hlt & q & Hq & Hkey). rewrite Hp in Hq. injection Hq as <-.
    split; [|done]. split; [done|]. intros s' q Hs' Hq. rewrite Hs in Hs'. injection Hs' as <-. rewrite Hp in Hq. injection Hq as <-.
    injection Hkey as Hpid Htid. split; [done|]. intros _. split; [|done]. apply (start_mono i k); [lia|done..]. }
  assert (Hbase : ∃ base, (match container with None => Done O | Some i => d ← unwrap (depths n !! i); Done (S d) end) = Done base).
  { destruct container as [i|]; [|by exists O]. destruct (Hcok i eq_refl) as [_ Hlt]. rewrite <-Hld in Hlt.
    apply lookup_lt_is_Some in Hlt as [d ->]. by exists (S d). }
  destruct Hbase as [base Hbase]. rewrite Hbase. cbn.
  destruct (depths_of_spec (depths n) stack) as (used & -> & Hused). { by rewrite Hld. }
  cbn. destruct (free_depth_spec (length used) used base) as (d & -> & Hd). { apply List.filter_length_le. }
  cbn. destruct (recorded_parent_spec k s Hs) as (rec & -> & Hrec). cbn. eexists. split; [done|].
  assert (Hstart : ∀ i q, (i < k)%nat → raw !! i = Some q → start_ns (range q) ≤ start_ns (range s)).
  { intros i q Hi Hq. apply (start_mono i k); [lia|done..]. }
  split; cbn [parents depths active].
  - rewrite length_app, Hlp. cbn. lia.
  - rewrite length_app, Hld. cbn. lia.
  - intros i p [Hi|[Hi1 Hi2]]%lookup_app_Some; [by apply Hok|]. rewrite Hlp in Hi2.
    apply list_lookup_singleton_Some in Hi2 as [Hi0 Hp]. replace i with k by lia. destruct rec as [r|].
    + apply Hrec. congruence.
    + apply Hcok. congruence.
  - intros key' i. destruct (decide (key' = key)) as [->|Hne].
    + rewrite lookup_insert_eq. cbn. intros [Hi| ->%list_elem_of_singleton]%elem_of_app.
      * apply Hst in Hi as [Hi _]. destruct (Hact _ _ Hi). split; [lia|done].
      * split; [lia|]. by exists s.
    + rewrite lookup_insert_ne by done. intros Hi. destruct (Hact _ _ Hi). split; [lia|done].
  - intros i q Hi Hq. destruct (decide (i = k)) as [->|Hne].
    { left. rewrite Hs in Hq. injection Hq as <-. unfold key_of. fold key. rewrite lookup_insert_eq. cbn. set_solver. }
    destruct (Hgone i q) as [Hin|(j & p & Hj & Hp & Hle)]; [lia|done| |right; exists j, p; split_and!; [lia|done..]].
    destruct (decide (key_of q = key)) as [Hkq|Hkq]; [|left; by rewrite lookup_insert_ne].
    rewrite Hkq in Hin |- *. rewrite lookup_insert_eq. cbn.
    destruct (decide (start_ns (range s) < end_ns (range q))) as [Hlt|Hge].
    + left. apply elem_of_app. left. apply Hst. split; [done|]. by exists q.
    + right. exists k, s. split_and!; [lia|done|lia].
  - intros i j Hij Hj (si & sj & Hi & Hsj & Hkey & Hov). destruct (decide (j = k)) as [->|Hne].
    + rewrite Hs in Hsj. injection Hsj as <-. rewrite (lookup_app_r _ _ k), Hld, Nat.sub_diag by lia. cbn.
      rewrite lookup_app_l by lia. intros Hdi. apply Hd. apply (Hused i); [|done]. apply Hst. split.
      * destruct (Hgone i si) as [Hin|(j & p & Hjk & Hp & Hle)]; [lia|done|by rewrite Hkey in Hin|].
        exfalso. specialize (Hstart j p Hjk Hp). lia.
      * by exists si.
    + rewrite !lookup_app_l by lia. apply Hlanes; [done|lia|]. by exists si, sj.
Qed.

Lemma nest_spec : ∃ n, nest raw = Done n ∧ nested (length raw) n.
Proof.
  unfold nest. apply (fold_indexed nested (nest_span raw) raw O (mkNesting [] ∅ [])); [apply nested_start|].
  intros i s n Hs Hn. cbn in *. by apply nest_span_spec.
Qed.
End nest.
End Nest.

Module Children.
Import Ranges Gaps Nest.

(** A map with one key at most. *)
Lemma flattened_single (m : RegionIntervals) κ :
  (∀ k rs, m !! k = Some rs → k = κ) → flattened (merge m) = default [] (merge_ranges <$> m !! κ).
Proof.
  unfold RegionIntervals, Thread in *. intros Hone. destruct (m !! κ) as [rs|] eqn:E.
  - assert (m = {[ κ := rs ]}) as ->.
    { apply map_eq. intros k. destruct (decide (k = κ)) as [->|Hne]; [by rewrite lookup_singleton_eq|].
      rewrite lookup_singleton_ne by done. destruct (m !! k) eqn:Ek; [|done]. by apply Hone in Ek. }
    unfold merge, flattened, RegionIntervals, Thread. rewrite map_fmap_singleton, map_to_list_singleton. cbn. by rewrite app_nil_r.
  - assert (m = ∅) as ->.
    { apply map_eq. intros k. rewrite lookup_empty. destruct (m !! k) eqn:Ek; [|done]. apply Hone in Ek as Hk. subst k. by rewrite E in Ek. }
    unfold merge, flattened, RegionIntervals, Thread. by rewrite fmap_empty, map_to_list_empty.
Qed.

(** Merged ranges stay within the bounds of what they merge. *)
Lemma inside_covers lo hi rs qs :
  separated rs → (∀ t, covers rs t → covers qs t) → inside lo hi qs → inside lo hi rs.
Proof.
  intros [_ Hne] Hc Hi. unfold inside in *. rewrite Forall_forall in Hne, Hi |- *. intros r Hr. specialize (Hne r Hr). cbn in Hne.
  destruct (Hc (start_ns r)) as (q & Hq & Hq'); [exists r; split; [done|unfold in_range; lia]|].
  destruct (Hc (end_ns r - 1)) as (q' & Hq2 & Hq2'); [exists r; split; [done|unfold in_range; lia]|].
  destruct (Hi q Hq), (Hi q' Hq2). unfold in_range in *. lia.
Qed.

Section children.
Context (raw : list RawSpan) (n : Nesting) (Hn : nested raw (length raw) n).

(** The complete children of a span on its own thread. *)
Definition child_at (k p : nat) (q : RawSpan) (t : Z) : Prop :=
  ∃ i c, (i < k)%nat ∧ parents n !! i = Some (Some p) ∧ raw !! i = Some c ∧ thread_id c = thread_id q ∧
    boundary c = Complete ∧ in_range t (range c).

Record gathered (k : nat) (crs : list RegionIntervals) : Prop := {
  ga_length : length crs = length raw;
  ga_key p q m κ rs : raw !! p = Some q → crs !! p = Some m → m !! κ = Some rs → κ = key_of q;
  ga_inside p q m : raw !! p = Some q → crs !! p = Some m →
    inside (start_ns (range q)) (end_ns (range q)) (default [] (m !! key_of q));
  ga_covers p q m t : raw !! p = Some q → crs !! p = Some m → covers (default [] (m !! key_of q)) t ↔ child_at k p q t
}.

Lemma empty_lookup κ : (∅ : RegionIntervals) !! κ = None.
Proof. done. Qed.

Lemma gathered_start : gathered O (replicate (length raw) ∅).
Proof.
  split.
  - apply length_replicate.
  - intros p q m κ rs _ [-> _]%lookup_replicate []%lookup_empty_Some.
  - intros p q m _ [-> _]%lookup_replicate. rewrite empty_lookup. constructor.
  - intros p q m t _ [-> _]%lookup_replicate. rewrite empty_lookup. split; [by intros []%covers_nil|]. intros (i & c & ? & _). lia.
Qed.

Lemma child_at_S k p q t c o : parents n !! k = Some o → raw !! k = Some c →
  child_at (k + 1) p q t ↔ child_at k p q t ∨
    o = Some p ∧ thread_id c = thread_id q ∧ boundary c = Complete ∧ in_range t (range c).
Proof.
  intros Ho Hc. split.
  - intros (i & d & Hi & Hp & Hd & H). destruct (decide (i = k)) as [->|Hne].
    + right. rewrite Hc in Hd. injection Hd as <-. rewrite Ho in Hp. injection Hp as ->. done.
    + left. exists i, d. split; [lia|done].
  - intros [(i & d & Hi & H)|(-> & H)]; [exists i, d; split; [lia|done]|]. exists k, c. split; [lia|done].
Qed.

Lemma add_child_spec k o crs : parents n !! k = Some o → gathered k crs →
  ∃ crs', add_child raw crs (k, o) = Done crs' ∧ gathered (k + 1) crs'.
Proof.
  intros Ho [Hl Hk Hi Hc]. assert (Hlt : (k < length raw)%nat).
  { rewrite <-(ne_parents _ _ _ Hn). by eapply lookup_lt_Some. }
  apply lookup_lt_is_Some in Hlt as [child Hchild]. pose proof (λ p q t, child_at_S k p q t child o Ho Hchild) as HS.
  assert (Hsame : (∀ p q, o = Some p → raw !! p = Some q → ¬ (thread_id child = thread_id q ∧ boundary child = Complete)) → gathered (k + 1) crs).
  { intros Hno. split; [done..|]. intros p q m t Hq Hm. rewrite (Hc p q m t Hq Hm), HS. split; [by left|].
    intros [?|(Hop & Ht & Hb & _)]; [done|]. by destruct (Hno p q Hop Hq). }
  unfold add_child. destruct o as [p|]; [|exists crs; split; [done|by apply Hsame]].
  pose proof (ne_ok _ _ _ Hn k p Ho) as [Hpk Hps]. apply lookup_lt_Some in Hchild as Hlt.
  assert (p < length raw)%nat as [q Hq]%lookup_lt_is_Some by lia. rewrite Hchild, Hq. cbn.
  destruct (Hps child q Hchild Hq) as [Hpid Henc].
  destruct ((thread_id child =? thread_id q) && bool_decide (boundary child = Complete)) eqn:Ec.
  - apply andb_true_iff in Ec as [Ht%Z.eqb_eq Hb%bool_decide_eq_true]. symmetry in Ht. destruct (Henc Ht) as [Hs1 He1].
    assert (p < length crs)%nat as [m Hm]%lookup_lt_is_Some by (rewrite Hl; lia). rewrite Hm. cbn. eexists. split; [done|].
    assert (Hkey : (process_id child, thread_id child) = key_of q) by (unfold key_of; congruence). rewrite Hkey.
    assert (Hclip : clip (range q) (range child) = range child).
    { unfold clip. destruct (range child) as [a b]. cbn in *. f_equal; lia. }
    rewrite Hclip. assert (Hlm : (p < length crs)%nat) by (by eapply lookup_lt_Some).
    split.
    + by rewrite length_insert.
    + intros p' q' m' κ rs Hq' Hm' Hrs. destruct (decide (p' = p)) as [->|Hne]; [|rewrite list_lookup_insert_ne in Hm' by done; by eapply Hk].
      rewrite list_lookup_insert_eq in Hm' by done. injection Hm' as <-. rewrite Hq in Hq'. injection Hq' as <-.
      rewrite push_lookup in Hrs. destruct (decide (key_of q = κ)); [done|]. by eapply (Hk p q m).
    + intros p' q' m' Hq' Hm'. destruct (decide (p' = p)) as [->|Hne]; [|rewrite list_lookup_insert_ne in Hm' by done; by eapply Hi].
      rewrite list_lookup_insert_eq in Hm' by done. injection Hm' as <-. rewrite Hq in Hq'. injection Hq' as <-.
      rewrite push_lookup, decide_True by done. cbn. apply Forall_app. split; [by apply (Hi p q m)|]. repeat constructor; lia.
    + intros p' q' m' t Hq' Hm'. rewrite HS. destruct (decide (p' = p)) as [->|Hne].
      * rewrite list_lookup_insert_eq in Hm' by done. injection Hm' as <-. rewrite Hq in Hq'. injection Hq' as <-.
        rewrite push_lookup, decide_True by done. cbn. rewrite covers_app, covers_cons, (Hc p q m t Hq Hm).
        pose proof (covers_nil t). split; [intros [?|[?|?]]; [by left| |done]; right; done|intros [?|(_ & _ & _ & ?)]; auto].
      * rewrite list_lookup_insert_ne in Hm' by done. rewrite (Hc p' q' m' t Hq' Hm'). split; [by left|intros [?|([= ->] & _)]; done].
  - exists crs. split; [done|]. apply Hsame. intros p' q' [= <-] Hq' [Ht Hb]. rewrite Hq in Hq'. injection Hq' as <-.
    apply andb_false_iff in Ec as [Ec%Z.eqb_neq|Ec%bool_decide_eq_false]; done.
Qed.

(** The merged ranges of the children of every span. *)
Lemma child_ranges_spec :
  ∃ crs, child_ranges raw (parents n) = Done crs ∧ length crs = length raw ∧
    ∀ p q cr, raw !! p = Some q → crs !! p = Some cr →
      separated (flattened cr) ∧ inside (start_ns (range q)) (end_ns (range q)) (flattened cr) ∧
      ∀ t, covers (flattened cr) t ↔ child_at (length raw) p q t.
Proof.
  unfold child_ranges. pose proof (ne_parents _ _ _ Hn) as Hlen.
  replace (zip (seq 0 (length raw)) (parents n)) with (zip (seq 0 (length (parents n))) (parents n)) by by rewrite Hlen.
  destruct (fold_indexed gathered (add_child raw) (parents n) O (replicate (length raw) ∅)) as (crs & -> & Hg).
  - apply gathered_start.
  - intros i o crs Ho Hg. cbn in *. by apply add_child_spec.
  - cbn in *. rewrite (ne_parents _ _ _ Hn) in Hg. destruct Hg as [Hl Hk Hi Hc]. eexists. split; [done|]. split; [by rewrite length_map|].
    intros p q cr Hq Hcr. change (map merge crs) with (merge <$> crs) in Hcr. apply list_lookup_fmap_Some in Hcr as (m & -> & Hm).
    rewrite (flattened_single m (key_of q)) by (intros κ rs; by eapply Hk).
    destruct (m !! key_of q) as [rs|] eqn:E; cbn.
    + specialize (Hi p q m Hq Hm). pose proof (λ t, Hc p q m t Hq Hm) as Hc'. rewrite E in Hi, Hc'. cbn in Hi, Hc'.
      destruct (merge_ranges_spec rs) as [Hs Hcov]. split_and!; [done| |].
      * eapply inside_covers; [done| |exact Hi]. intros t. apply Hcov.
      * intros t. by rewrite Hcov, Hc'.
    + pose proof (λ t, Hc p q m t Hq Hm) as Hc'. rewrite E in Hc'. cbn in Hc'.
      split_and!; [apply separated_nil|constructor|done].
Qed.
End children.
End Children.
