(* ===== verification/RegionsTree.v ===== *)
(** * The hierarchy of regions

    - [Module Shape]: the links between nodes;
    - [Module Figures]: spans, counts and times of nodes;
    - [Module Build]: the loop that builds the hierarchy, and the theorems on [load_regions]. *)

From S2P Require Import Prelude Words Text Regions RegionsSpec RegionsNest.
From stdpp Require Import sorting.
Open Scope Z_scope.

Import RegionIntervals RegionData.

Module Shape.

(** The parent and the children of every node. *)
Definition shape (ns : list RegionNode) : list (option nat * list nat) := (λ n, (n_parent n, children n)) <$> ns.

Record tree (sh : list (option nat * list nat)) (roots : list nat) : Prop := {
  tr_parent i q cs : sh !! i = Some (Some q, cs) → (q < i)%nat;
  tr_children q p cs : sh !! q = Some (p, cs) → NoDup cs ∧ ∀ c, c ∈ cs ↔ ∃ cs', sh !! c = Some (Some q, cs');
  tr_roots : NoDup roots ∧ ∀ c, c ∈ roots ↔ ∃ cs', sh !! c = Some (None, cs')
}.

Lemma tree_empty : tree [] [].
Proof.
  split.
  - intros i q cs H. by rewrite lookup_nil in H.
  - intros q p cs H. by rewrite lookup_nil in H.
  - split; [constructor|]. intros c. split; [by intros []%elem_of_nil|]. intros [cs H]. by rewrite lookup_nil in H.
Qed.

Lemma lookup_snoc {A} (l : list A) x i y : (l ++ [x]) !! i = Some y ↔ l !! i = Some y ∨ i = length l ∧ y = x.
Proof.
  rewrite lookup_app_Some, list_lookup_singleton_Some. split; (intros [H|H]; [by left|right]).
  - split; [lia|by destruct H as (_ & _ & ?)].
  - destruct H as [-> ->]. split_and!; [done|lia|done].
Qed.

Lemma tree_root sh roots : tree sh roots → tree (sh ++ [(None, [])]) (roots ++ [length sh]).
Proof.
  intros [Hp Hc [Hnd Hr]]. split.
  - intros i q cs [H|[_ [=]]]%lookup_snoc. by eapply Hp.
  - intros q p cs Hq. assert (Hs : ∀ c, (∃ cs', (sh ++ [(None, [])]) !! c = Some (Some q, cs')) ↔ ∃ cs', sh !! c = Some (Some q, cs')).
    { intros c. split; intros [cs' H]; exists cs'; [apply lookup_snoc in H as [?|[_ [=]]]; done|apply lookup_snoc; by left]. }
    setoid_rewrite Hs. apply lookup_snoc in Hq as [Hq|[-> [= _ ->]]]; [by eapply Hc|]. split; [constructor|].
    intros c. split; [by intros []%elem_of_nil|]. intros [cs' H]. apply lookup_lt_Some in H as Hlt. apply Hp in H. lia.
  - split.
    + apply NoDup_app. split_and!; [done| |apply NoDup_singleton]. intros c [cs' H]%Hr ->%list_elem_of_singleton. apply lookup_lt_Some in H. lia.
    + intros c. rewrite elem_of_app, list_elem_of_singleton, Hr. split.
      * intros [[cs' H]| ->]; [exists cs'; apply lookup_snoc; by left|exists []; apply lookup_snoc; by right].
      * intros [cs' [H|[-> _]]%lookup_snoc]; [left; by exists cs'|by right].
Qed.

Lemma tree_child sh roots q p cs : tree sh roots → sh !! q = Some (p, cs) →
  tree (<[q := (p, cs ++ [length sh])]> (sh ++ [(Some q, [])])) roots.
Proof.
  intros [Hp Hc [Hnd Hr]] Hq. assert (Hql : (q < length sh)%nat) by (by eapply lookup_lt_Some).
  set (sh' := <[q := _]> _).
  (* the parents of the new shape *)
  assert (Hpar : ∀ i o, (∃ cs', sh' !! i = Some (o, cs')) ↔ (∃ cs', sh !! i = Some (o, cs')) ∨ i = length sh ∧ o = Some q).
  { intros i o. unfold sh'. destruct (decide (i = q)) as [->|Hne].
    - rewrite list_lookup_insert_eq by (rewrite length_app; lia). split.
      + intros [cs' [= <- _]]. left. by exists cs.
      + intros [[cs' H]|[? _]]; [|lia]. rewrite Hq in H. injection H as -> ->. by eexists.
    - rewrite list_lookup_insert_ne by done. split.
      + intros [cs' [H|[-> [= <- _]]]%lookup_snoc]; [left; by exists cs'|by right].
      + intros [[cs' H]|[-> ->]]; [exists cs'|exists []]; apply lookup_snoc; auto. }
  split.
  - intros i r cs' H. destruct (proj1 (Hpar i (Some r)) (ex_intro _ cs' H)) as [[cs2 H2]|[-> [= ->]]]; [by eapply Hp|done].
  - intros r o cs' H. assert (Hnew : r ≠ q → NoDup cs' ∧ ∀ c, c ∈ cs' ↔ ∃ cs2, sh !! c = Some (Some r, cs2)).
    { intros Hne. unfold sh' in H. rewrite list_lookup_insert_ne in H by done. apply lookup_snoc in H as [H|[-> [= _ ->]]]; [by eapply Hc|].
      split; [constructor|]. intros c. split; [by intros []%elem_of_nil|]. intros [cs2 H2]. apply lookup_lt_Some in H2 as Hlt. apply Hp in H2. lia. }
    destruct (decide (r = q)) as [->|Hne].
    + unfold sh' in H. rewrite list_lookup_insert_eq in H by (rewrite length_app; lia). injection H as <- <-.
      destruct (Hc q p cs Hq) as [Hnc Hcc]. split.
      * apply NoDup_app. split_and!; [done| |apply NoDup_singleton]. intros c [cs2 H2]%Hcc ->%list_elem_of_singleton. apply lookup_lt_Some in H2. lia.
      * intros c. rewrite elem_of_app, list_elem_of_singleton, Hcc, Hpar. tauto.
    + destruct (Hnew Hne) as [Hnc Hcc]. split; [done|]. intros c. rewrite Hcc, Hpar. split; [by left|]. intros [?|[_ [= ->]]]; done.
  - split; [done|]. intros c. rewrite Hr, Hpar. split; [by left|]. intros [?|[_ [=]]]; done.
Qed.
End Shape.

Module Figures.
Import Gaps.

Section sums.
Context (ss : list RegionSpan).

(** Sum over the complete spans among some. *)
Definition value (f : RegionSpan → Z) (i : nat) : Z :=
  match ss !! i with Some sp => if bool_decide (s_boundary sp = Complete) then f sp else 0 | None => 0 end.
Definition span_sum (f : RegionSpan → Z) (ids : list nat) : Z := foldr (λ i acc, value f i + acc) 0 ids.

Lemma span_sum_app f a b : span_sum f (a ++ b) = span_sum f a + span_sum f b.
Proof. unfold span_sum. induction a as [|i a IH]; cbn; [done|]. rewrite IH. lia. Qed.
End sums.

Lemma span_sum_stable ss sp f ids : Forall (λ i, i < length ss)%nat ids → span_sum (ss ++ [sp]) f ids = span_sum ss f ids.
Proof.
  induction 1 as [|i ids Hi _ IH]; cbn; [done|]. fold (span_sum (ss ++ [sp]) f ids) (span_sum ss f ids). rewrite IH. f_equal.
  unfold value. by rewrite lookup_app_l.
Qed.

(** The time of a range. *)
Definition duration (r : TimeRange) : Z := end_ns r - start_ns r.
Definition own_time (sp : RegionSpan) : Z := total (self_ranges sp).

(** The figures of the node [id] are those of its spans. *)
Record figures (ss : list RegionSpan) (id : nat) (n : RegionNode) : Prop := {
  fg_nodup : NoDup (spans_of n);
  fg_spans i : i ∈ spans_of n ↔ ∃ sp, ss !! i = Some sp ∧ node sp = id;
  fg_count : count n = span_sum ss (λ _, 1) (spans_of n);
  fg_incomplete : count n + incomplete n = Z.of_nat (length (spans_of n));
  fg_inclusive : inclusive_ns n = wrap64 (span_sum ss (λ sp, duration (s_range sp)) (spans_of n));
  fg_self : self_ns n = wrap64 (span_sum ss own_time (spans_of n))
}.

Lemma figures_below ss id n : figures ss id n → Forall (λ i, i < length ss)%nat (spans_of n).
Proof. intros H. apply Forall_forall. intros i (sp & Hi & _)%(fg_spans _ _ _ H). by eapply lookup_lt_Some. Qed.

Lemma figures_new ss id name ctx p : (∀ i sp, ss !! i = Some sp → node sp ≠ id) → figures ss id (mkNode name ctx p [] [] 0 0 0 0).
Proof.
  intros Hno. split; cbn; try done; [constructor|]. intros i. split; [by intros []%elem_of_nil|]. intros (sp & Hi & Hid). by destruct (Hno i sp).
Qed.

Lemma figures_children ss id n c : figures ss id n → figures ss id (add_to_children c n).
Proof. by intros []. Qed.

(** A span of another node changes nothing. *)
Lemma figures_other ss sp id n : node sp ≠ id → figures ss id n → figures (ss ++ [sp]) id n.
Proof.
  intros Hne H. pose proof (figures_below _ _ _ H) as Hb. destruct H as [Hnd Hsp Hc Hi Hincl Hself].
  split; rewrite ?span_sum_stable; try done. intros i. rewrite Hsp. split; intros (q & Hq & Hid); exists q.
  - split; [|done]. apply Shape.lookup_snoc. by left.
  - apply Shape.lookup_snoc in Hq as [?|[_ ->]]; done.
Qed.

(** The node that a span is accounted to. *)
Lemma figures_account ss sp s cr id n :
  figures ss id n → node sp = id → s_range sp = range s → s_boundary sp = boundary s → Pairing.span_ok s →
  Ranges.separated (flattened cr) → inside (start_ns (range s)) (end_ns (range s)) (flattened cr) →
  self_ranges sp = gaps (start_ns (range s)) (end_ns (range s)) (flattened cr) →
  figures (ss ++ [sp]) id (account (length ss) s cr n).
Proof.
  intros H Hid Hr Hbd [Hst Hend] Hsep Hin Hself'. pose proof (figures_below _ _ _ H) as Hb. destruct H as [Hnd Hsp Hc Hi Hincl Hself].
  assert (Hval : ∀ f, span_sum (ss ++ [sp]) f (spans_of n ++ [length ss]) =
     span_sum ss f (spans_of n) + if bool_decide (boundary s = Complete) then f sp else 0).
  { intros f. rewrite span_sum_app, span_sum_stable by done. f_equal. cbn. unfold value.
    rewrite list_lookup_middle by done. rewrite Hbd. lia. }
  assert (Hspans : ∀ i, i ∈ spans_of n ++ [length ss] ↔ ∃ q, (ss ++ [sp]) !! i = Some q ∧ node q = id).
  { intros i. rewrite elem_of_app, list_elem_of_singleton, Hsp. split.
    - intros [(q & Hq & Hqid)| ->]; [exists q; rewrite Shape.lookup_snoc; auto|exists sp; rewrite Shape.lookup_snoc; auto].
    - intros (q & [Hq|[-> ->]]%Shape.lookup_snoc & Hqid); [left; by exists q|by right]. }
  assert (Hnd' : NoDup (spans_of n ++ [length ss])).
  { apply NoDup_app. split_and!; [done| |apply NoDup_singleton]. intros i Hi' ->%list_elem_of_singleton.
    rewrite Forall_forall in Hb. apply Hb in Hi'. lia. }
  assert (Hlen : Z.of_nat (length (spans_of n ++ [length ss])) = Z.of_nat (length (spans_of n)) + 1) by (rewrite length_app; cbn; lia).
  unfold account. case_bool_decide as Hcomp.
  - destruct (Hend Hcomp) as [Hle Hmax]. unfold in_u64 in Hst.
    destruct (gaps_spec (flattened cr) (start_ns (range s)) (end_ns (range s)) Hsep Hin Hle) as (_ & _ & _ & Ht).
    assert (Hin0 : inside 0 u64_max (flattened cr)). { eapply Forall_impl; [exact Hin|]. cbn. intros; lia. }
    pose proof (total_inside _ _ _ Hsep Hin Hle) as Htot.
    assert (Hown : length_ns (range s) = duration (range s)).
    { unfold length_ns, wrapping_sub, duration. rewrite wrap64_small; [done|]. unfold in_u64. lia. }
    split; cbn [spans_of count incomplete inclusive_ns self_ns]; rewrite ?Hval; try done.
    + by rewrite Hc.
    + lia.
    + rewrite Hincl, Hown, Hr. unfold wrapping_add. apply wrap64_add_l.
    + rewrite Hself, sum_lengths_exact, Hown by done. unfold wrapping_add. rewrite wrap64_add_l. f_equal. f_equal.
      unfold own_time. rewrite Hself'. unfold saturating_sub, duration. lia.
  - split; cbn [spans_of count incomplete inclusive_ns self_ns]; rewrite ?Hval, ?Z.add_0_r; try done. lia.
Qed.
End Figures.

Module Build.
Import Ranges Gaps Nest Children Shape Figures.

Lemma fold_lookup {St A} (I : nat → St → Prop) (f : St → A → outcome St) (l : list A) s :
  I O s → (∀ i x s, l !! i = Some x → I i s → ∃ s', f s x = Done s' ∧ I (i + 1)%nat s') →
  ∃ s', fold_outcome f l s = Done s' ∧ I (length l) s'.
Proof.
  revert I s. induction l as [|x l IH]; intros I s HI Hstep; cbn [fold_outcome length]; [by exists s|].
  destruct (Hstep O x s eq_refl HI) as (s1 & -> & HI1). cbn.
  destruct (IH (λ i, I (S i)) s1 HI1) as (s2 & E & HI2); [|by exists s2].
  intros i y t Hy HIt. destruct (Hstep (S i) y t Hy HIt) as (t' & Et & HIt'). by exists t'.
Qed.

Section build.
Context (names : gmap Z (list Z * list Z)) (raw : list RawSpan) (n : Nesting) (crs : list RegionIntervals).
Context (Hn : nested raw (length raw) n) (Hok : Forall Pairing.span_ok raw) (Hcl : length crs = length raw).
Context (Hcrs : ∀ p q cr, raw !! p = Some q → crs !! p = Some cr →
  separated (flattened cr) ∧ inside (start_ns (range q)) (end_ns (range q)) (flattened cr) ∧
  ∀ t, covers (flattened cr) t ↔ child_at raw n (length raw) p q t).

Lemma items_lookup i index s p d cr : items raw n crs !! i = Some (index, s, p, d, cr) →
  index = i ∧ raw !! i = Some s ∧ parents n !! i = Some p ∧ depths n !! i = Some d ∧ crs !! i = Some cr.
Proof.
  unfold items. intros (a & b & [= <- <-] & H & ?)%lookup_zip_with_Some.
  apply lookup_zip_with_Some in H as (a & b & [= <- <-] & H & ?).
  apply lookup_zip_with_Some in H as (a & b & [= <- <-] & H & ?).
  apply lookup_zip_with_Some in H as (a & b & [= <- <-] & H & ?).
  apply lookup_seq in H as [-> _]. split_and!; [lia|done..].
Qed.

Lemma items_length : length (items raw n crs) = length raw.
Proof.
  unfold items. rewrite !length_zip_with, length_seq, (ne_parents _ _ _ Hn), (ne_depths _ _ _ Hn), Hcl. lia.
Qed.

(** What a stored span says of its raw form. *)
Record stored (i : nat) (s : RawSpan) (sp : RegionSpan) : Prop := {
  so_process : s_process_id sp = process_id s;
  so_thread : s_thread_id sp = thread_id s;
  so_instance : s_instance sp = instance s;
  so_range : s_range sp = range s;
  so_boundary : s_boundary sp = boundary s;
  so_depth : depths n !! i = Some (depth sp);
  so_self cr : crs !! i = Some cr → self_ranges sp = gaps (start_ns (range s)) (end_ns (range s)) (flattened cr)
}.

(** What an event is called. *)
Definition label (ev : Z) : list Z * list Z := default (chars "event " ++ show ev, []) (names !! ev).

(** The node of the parent span. *)
Definition parent_node (ss : list RegionSpan) (p : option nat) : option nat := p ← p; node <$> ss !! p.

Record built (k : nat) (st : RegionData * gmap (option nat * Z) nat) : Prop := {
  bu_length : length (spans st.1) = k;
  bu_stored i s sp : raw !! i = Some s → spans st.1 !! i = Some sp → stored i s sp;
  bu_node i sp : spans st.1 !! i = Some sp → (node sp < length (nodes st.1))%nat;
  bu_ids p ev id : st.2 !! (p, ev) = Some id →
    ∃ nd, nodes st.1 !! id = Some nd ∧ n_parent nd = p ∧ (name nd, context nd) = label ev;
  bu_inj key key' id : st.2 !! key = Some id → st.2 !! key' = Some id → key = key';
  bu_link i s p sp : raw !! i = Some s → parents n !! i = Some p → spans st.1 !! i = Some sp →
    st.2 !! (parent_node (spans st.1) p, event s) = Some (node sp);
  bu_tree : tree (shape (nodes st.1)) (roots st.1);
  bu_figures id nd : nodes st.1 !! id = Some nd → figures (spans st.1) id nd
}.

Lemma shape_lookup ns i nd : ns !! i = Some nd → shape ns !! i = Some (n_parent nd, children nd).
Proof. intros H. unfold shape. by rewrite list_lookup_fmap, H. Qed.

Lemma length_shape ns : length (shape ns) = length ns.
Proof. apply length_fmap. Qed.

Lemma node_for_spec k st p ev :
  built k st → (∀ q, p = Some q → (q < length (nodes st.1))%nat) →
  ∃ id d ids, node_for names st p ev = Done (id, d, ids) ∧ built k (d, ids) ∧ (id < length (nodes d))%nat ∧
    spans d = spans st.1 ∧ ids !! (p, ev) = Some id.
Proof.
  intros Hb Hp. destruct st as [d ids]. cbn [fst snd] in *. unfold node_for.
  destruct (ids !! (p, ev)) as [id|] eqn:E; [exists id, d, ids; destruct (bu_ids _ _ Hb _ _ _ E) as (nd & Hnd & _); split_and!; [done..|by eapply lookup_lt_Some|done|done]|].
  destruct Hb as [Hl Hst Hnode Hids Hinj Hlink Htree Hfig]. cbn [fst snd] in *.
  assert (Hnew : figures (spans d) (length (nodes d)) (new_node names ev p)).
  { unfold new_node. destruct (default _ _) as [nm ctx]. apply figures_new. intros i sp Hi. apply Hnode in Hi. lia. }
  assert (Hpar : n_parent (new_node names ev p) = p ∧ children (new_node names ev p) = [] ∧
    (name (new_node names ev p), context (new_node names ev p)) = label ev).
  { unfold new_node, label. by destruct (default _ _) as [nm ctx]. }
  destruct Hpar as (Hpar & Hch & Hlab).
  assert (Hlt : ∀ key id, ids !! key = Some id → (id < length (nodes d))%nat).
  { intros [p' ev'] id (nd & Hnd & _)%Hids. by eapply lookup_lt_Some. }
  assert (Hinj' : ∀ key key' id, <[(p, ev) := length (nodes d)]> ids !! key = Some id →
    <[(p, ev) := length (nodes d)]> ids !! key' = Some id → key = key').
  { intros key key' id [[<- <-]|[_ H]]%lookup_insert_Some [[<- H']|[_ H']]%lookup_insert_Some; [done| |subst|by eapply Hinj];
      [apply Hlt in H'|apply Hlt in H]; lia. }
  assert (Hlink' : ∀ i s p0 sp, raw !! i = Some s → parents n !! i = Some p0 → spans d !! i = Some sp →
    <[(p, ev) := length (nodes d)]> ids !! (parent_node (spans d) p0, event s) = Some (node sp)).
  { intros i s p0 sp H1 H2 H3. pose proof (Hlink i s p0 sp H1 H2 H3) as H. rewrite lookup_insert_ne; [done|]. congruence. }
  destruct p as [q|].
  - specialize (Hp q eq_refl). apply lookup_lt_is_Some in Hp as [nq Hq].
    rewrite lookup_app_l by (by eapply lookup_lt_Some). rewrite Hq. cbn.
    assert (Hlq : (q < length (nodes d))%nat) by (by eapply lookup_lt_Some).
    eexists _, _, _. split; [done|]. cbn [spans nodes]. rewrite length_insert, length_app. cbn.
    split_and!; [|lia|done|by rewrite lookup_insert_eq]. split; cbn [fst snd spans nodes roots]; rewrite ?length_insert, ?length_app; try done.
    + intros i sp Hi. apply Hnode in Hi. cbn. lia.
    + intros p' ev' id' [[[= <- <-] <-]|[_ (nd & Hnd & Hnp & Hnl)%Hids]]%lookup_insert_Some.
      * exists (new_node names ev (Some q)). split; [|done]. rewrite list_lookup_insert_ne by lia. apply lookup_snoc. by right.
      * apply lookup_lt_Some in Hnd as Hndl. destruct (decide (id' = q)) as [->|Hne].
        -- rewrite list_lookup_insert_eq by (rewrite length_app; cbn; lia). rewrite Hq in Hnd. injection Hnd as <-. by eexists.
        -- rewrite list_lookup_insert_ne by done. exists nd. split; [|done]. apply lookup_snoc. by left.
    + unfold shape. rewrite list_fmap_insert, fmap_app. cbn. rewrite Hpar, Hch. fold (shape (nodes d)). rewrite <-(length_shape (nodes d)).
      apply tree_child; [done|by apply shape_lookup].
    + intros id nd H. destruct (decide (id = q)) as [->|Hne].
      * rewrite list_lookup_insert_eq in H by (rewrite length_app; cbn; lia). injection H as <-. by apply figures_children, Hfig.
      * rewrite list_lookup_insert_ne in H by done. apply lookup_snoc in H as [H|[-> ->]]; [by apply Hfig|done].
  - eexists _, _, _. split; [done|]. cbn [spans nodes]. rewrite length_app. cbn. split_and!; [|lia|done|by rewrite lookup_insert_eq].
    split; cbn [fst snd spans nodes roots]; rewrite ?length_app; try done.
    + intros i sp Hi. apply Hnode in Hi. cbn. lia.
    + intros p' ev' id' [[[= <- <-] <-]|[_ (nd & Hnd & Hnp & Hnl)%Hids]]%lookup_insert_Some.
      * exists (new_node names ev None). split; [|done]. apply lookup_snoc. by right.
      * exists nd. split; [|done]. apply lookup_snoc. by left.
    + unfold shape. rewrite fmap_app. cbn. rewrite Hpar, Hch. fold (shape (nodes d)). rewrite <-(length_shape (nodes d)). by apply tree_root.
    + intros id nd [H|[-> ->]]%lookup_snoc; [by apply Hfig|done].
Qed.

Lemma build_span_spec k st item : items raw n crs !! k = Some item → built k st →
  ∃ st', build_span names st item = Done st' ∧ built (k + 1) st'.
Proof.
  destruct item as [[[[index s] p] dp] cr]. intros (-> & Hs & Hp & Hd & Hcr)%items_lookup Hb. unfold build_span.
  assert (Hq : ∃ q, (match p with None => Done None | Some p => sp ← unwrap (spans st.1 !! p); Done (Some (node sp)) end) = Done q ∧
    (∀ x, q = Some x → (x < length (nodes st.1))%nat) ∧ q = parent_node (spans st.1) p).
  { destruct p as [p|]; [|by exists None]. pose proof (pk_before _ _ _ (ne_ok _ _ _ Hn k p Hp)) as Hlt.
    rewrite <-(bu_length _ _ Hb) in Hlt. apply lookup_lt_is_Some in Hlt as [sp Hsp]. rewrite Hsp. cbn. eexists. split; [done|]. rewrite Hsp.
    split; [|done]. intros x [= <-]. by apply (bu_node _ _ Hb _ _ Hsp). }
  destruct Hq as (q & -> & Hq & Hqp). cbn.
  destruct (node_for_spec k st q (event s) Hb Hq) as (id & d & ids & -> & Hb' & Hid & Hsp & Hkey). cbn.
  apply lookup_lt_is_Some in Hid as [nd Hnd]. rewrite Hnd. cbn. eexists. split; [done|].
  destruct Hb' as [Hl Hst Hnode Hids Hinj Hlink Htree Hfig]. cbn [fst snd] in *.
  assert (Hidl : (id < length (nodes d))%nat) by (by eapply lookup_lt_Some).
  set (sp := mkSpan _ _ _ _ _ _ _ _). split; cbn [fst snd spans nodes roots].
  - rewrite length_app, Hl. cbn. lia.
  - intros i s' sp' Hs' [H|[-> ->]]%lookup_snoc; [by eapply Hst|]. rewrite Hl in Hs'. rewrite Hs in Hs'. injection Hs' as <-.
    split; cbn; try done; [by rewrite Hl|]. intros cr'. rewrite Hl, Hcr. by intros [= <-].
  - intros i sp' [H|[_ ->]]%lookup_snoc; rewrite length_insert; [by eapply Hnode|done].
  - intros p' ev' id' (nd' & Hnd' & Hnp & Hnl)%Hids. destruct (decide (id' = id)) as [->|Hne].
    + rewrite list_lookup_insert_eq by done. rewrite Hnd in Hnd'. injection Hnd' as <-. eexists. split; [done|].
      unfold account. by case_bool_decide.
    + rewrite list_lookup_insert_ne by done. by exists nd'.
  - done.
  - assert (Hsame : ∀ i p0, parents n !! i = Some p0 → (i ≤ k)%nat → parent_node (spans d ++ [sp]) p0 = parent_node (spans d) p0).
    { intros i [p0|] Hp0 Hi; [|done]. cbn. pose proof (pk_before _ _ _ (ne_ok _ _ _ Hn i p0 Hp0)). by rewrite lookup_app_l by lia. }
    intros i s' p0 sp' Hs' Hp0 [H|[-> ->]]%lookup_snoc.
    + rewrite (Hsame i p0 Hp0) by (apply lookup_lt_Some in H; lia). by eapply Hlink.
    + rewrite Hl in Hs', Hp0. rewrite Hs in Hs'. rewrite Hp in Hp0. injection Hs' as <-. injection Hp0 as <-.
      rewrite (Hsame k p Hp) by lia. rewrite Hsp, <-Hqp. done.
  - replace (shape (<[id:=account k s cr nd]> (nodes d))) with (shape (nodes d)); [done|].
    unfold shape. rewrite list_fmap_insert. symmetry. apply list_insert_id. rewrite list_lookup_fmap, Hnd. cbn. f_equal.
    unfold account. by case_bool_decide.
  - intros id' nd' H. destruct (decide (id' = id)) as [->|Hne].
    + rewrite list_lookup_insert_eq in H by done. injection H as <-. destruct (Hcrs k s cr Hs Hcr) as (Hsep & Hin & _).
      rewrite <-Hl. apply figures_account; try done; [by apply Hfig|]. rewrite Forall_forall in Hok. apply Hok.
      by eapply list_elem_of_lookup_2.
    + rewrite list_lookup_insert_ne in H by done. apply figures_other; [done|by apply Hfig].
Qed.

Lemma build_spec b : ∃ d ids, fold_outcome (build_span names) (items raw n crs) (mkData [] [] [] (Some b), ∅) = Done (d, ids) ∧
  built (length raw) (d, ids).
Proof.
  destruct (fold_lookup built (build_span names) (items raw n crs) (mkData [] [] [] (Some b), ∅)) as ([d ids] & E & H).
  - split; cbn [fst snd spans nodes roots]; try done. apply tree_empty.
  - intros i item st. apply build_span_spec.
  - rewrite items_length in H. by exists d, ids.
Qed.
End build.
End Build.

Import Ranges Gaps Nest Children Shape Figures.

(** The spans of a recording, in the order of the hierarchy. *)
Definition region_spans (profile_range : option TimeRange) (events : list Event) : outcome (list RawSpan) :=
  match head events, last events with
  | Some first, Some last =>
      let b := bounds profile_range (timestamp first) (timestamp last) in
      '(raw, _) ← fold_outcome (pair_event (start_ns b) (end_ns b)) events ([], ∅);
      Done (merge_sort span_le raw)
  | _, _ => Done []
  end.

(** The rows of the table and the profile's range hold 64-bit times. *)
Definition times_ok (profile_range : option TimeRange) (events : list Event) : Prop :=
  Forall (λ e, in_u64 (timestamp e)) events ∧ ∀ r, profile_range = Some r → in_u64 (start_ns r).

Record loaded (names : gmap Z (list Z * list Z)) (raw : list RawSpan) (n : Nesting) (d : RegionData) : Prop := {
  ld_nest : nest raw = Done n;
  ld_nested : nested raw (length raw) n;
  ld_ok : Forall Pairing.span_ok raw;
  ld_built : ∃ crs ids, Build.built names raw n crs (length raw) (d, ids) ∧ length crs = length raw ∧
    ∀ p q cr, raw !! p = Some q → crs !! p = Some cr →
      separated (flattened cr) ∧ inside (start_ns (range q)) (end_ns (range q)) (flattened cr) ∧
      ∀ t, covers (flattened cr) t ↔ child_at raw n (length raw) p q t
}.

Lemma load_spec names profile_range events : times_ok profile_range events →
  ∃ raw n d, region_spans profile_range events = Done raw ∧ load_regions names profile_range events = Done d ∧ loaded names raw n d.
Proof.
  intros [Hev Hpr]. unfold region_spans, load_regions. destruct events as [|first events].
  { exists [], (mkNesting [] ∅ []), default_data. split_and!; [done..|]. split; [done|apply nested_start|constructor|].
    exists [], ∅. split_and!; [|done..]. split; cbn [fst snd spans nodes roots default_data]; try done. apply tree_empty. }
  destruct (last (first :: events)) as [l|] eqn:El; [|by apply last_None in El]. cbn [head].
  set (b := bounds _ _ _). assert (Hb : in_u64 (start_ns b)).
  { apply Forall_cons in Hev as [Hf _]. unfold b, bounds. destruct profile_range as [r|]; cbn; [|done].
    specialize (Hpr r eq_refl). unfold in_u64 in *. lia. }
  destruct (Pairing.pair_events_spec (start_ns b) (end_ns b) (first :: events) Hb Hev) as (raw & opened & -> & Hraw). cbn.
  set (sorted := merge_sort span_le raw).
  assert (Hs : StronglySorted span_le sorted) by (apply StronglySorted_merge_sort; apply _).
  assert (Hok : Forall Pairing.span_ok sorted) by (unfold sorted; by rewrite merge_sort_Permutation).
  destruct (nest_spec sorted Hs) as (n & En & Hn). rewrite En. cbn.
  destruct (child_ranges_spec sorted n Hn) as (crs & -> & Hcl & Hcrs). cbn.
  destruct (Build.build_spec names sorted n crs Hn Hok Hcl Hcrs b) as (d & ids & -> & Hbuilt). cbn.
  exists sorted, n, d. split_and!; [done..|]. split; [done..|]. by exists crs, ids.
Qed.

(** C35: loading the trace regions never fails and gives a proper forest: a node's parent has a
    smaller number, the children of a node and the roots are listed once each and are exactly
    the nodes with that parent or none.  Every span belongs to one node, is listed there once,
    and the node's parent is the node of the span's parent (none for a span without one),
    which came before it and, on the same thread, encloses it; the node bears the name of
    the span's event, and two spans share a node exactly when their events and their parents'
    nodes are the same.  Two spans of one thread that overlap in time have different depths,
    so that the lanes they are drawn in never collide. *)
Theorem regions_forest (names : gmap Z (list Z * list Z)) (profile_range : option TimeRange) (events : list Event) :
  times_ok profile_range events →
  ∃ raw n d, region_spans profile_range events = Done raw ∧ nest raw = Done n ∧ length (spans d) = length raw ∧
    load_regions names profile_range events = Done d ∧ tree (shape (nodes d)) (roots d) ∧
    (∀ i p, parents n !! i = Some (Some p) → parent_ok raw i p) ∧
    (∀ i s p sp nd, raw !! i = Some s → parents n !! i = Some p → spans d !! i = Some sp → nodes d !! node sp = Some nd →
       n_parent nd = Build.parent_node (spans d) p ∧ (name nd, context nd) = Build.label names (event s)) ∧
    (∀ i j s s' p p' sp sp', raw !! i = Some s → raw !! j = Some s' → parents n !! i = Some p → parents n !! j = Some p' →
       spans d !! i = Some sp → spans d !! j = Some sp' →
       node sp = node sp' ↔ event s = event s' ∧ Build.parent_node (spans d) p = Build.parent_node (spans d) p') ∧
    (∀ i sp, spans d !! i = Some sp → ∃ nd, nodes d !! node sp = Some nd ∧ i ∈ spans_of nd) ∧
    (∀ id nd, nodes d !! id = Some nd → NoDup (spans_of nd) ∧
       ∀ i, i ∈ spans_of nd → ∃ sp, spans d !! i = Some sp ∧ node sp = id) ∧
    ∀ i j si sj, i ≠ j → spans d !! i = Some si → spans d !! j = Some sj →
      s_process_id si = s_process_id sj → s_thread_id si = s_thread_id sj →
      start_ns (s_range si) < end_ns (s_range sj) → start_ns (s_range sj) < end_ns (s_range si) →
      depth si ≠ depth sj.
Proof.
  intros Hok. destruct (load_spec names profile_range events Hok) as (raw & n & d & Er & E & Hld).
  exists raw, n, d. destruct Hld as [En Hn _ (crs & ids & [Hl Hst Hnode Hids Hinj Hlink Htree Hfig] & _)]. cbn [fst snd] in *.
  split_and!; [done..|apply Hn| | | | |].
  - intros i s p sp nd Hs Hp Hsp Hnd. destruct (Hids _ _ _ (Hlink i s p sp Hs Hp Hsp)) as (nd' & Hnd' & H). by simplify_eq.
  - intros i j s s' p p' sp sp' Hs Hs' Hp Hp' Hsp Hsp'. pose proof (Hlink i s p sp Hs Hp Hsp) as H1.
    pose proof (Hlink j s' p' sp' Hs' Hp' Hsp') as H2. split.
    + intros E'. rewrite E' in H1. pose proof (Hinj _ _ _ H1 H2) as [= ? ?]. done.
    + intros [E1 E2]. rewrite E1, E2 in H1. congruence.
  - intros i sp Hi. destruct (lookup_lt_is_Some_2 _ _ (Hnode i sp Hi)) as [nd Hnd]. exists nd. split; [done|].
    apply (fg_spans _ _ _ (Hfig _ _ Hnd)). by exists sp.
  - intros id nd Hnd. destruct (Hfig id nd Hnd) as [Hnd' Hsp _ _ _ _]. split; [done|]. intros i. apply Hsp.
  - assert (Hlt : ∀ i j si sj, (i < j)%nat → spans d !! i = Some si → spans d !! j = Some sj →
      s_process_id si = s_process_id sj → s_thread_id si = s_thread_id sj →
      start_ns (s_range sj) < end_ns (s_range si) → depth si ≠ depth sj).
    { intros i j si sj Hij Hi Hj Hp Ht Hov Hd. apply lookup_lt_Some in Hi as Hi', Hj as Hj'. rewrite Hl in Hi', Hj'.
      apply lookup_lt_is_Some in Hi' as [ri Hri], Hj' as [rj Hrj].
      destruct (Hst i ri si Hri Hi) as [Hpi Hti _ Hrgi _ Hdi _], (Hst j rj sj Hrj Hj) as [Hpj Htj _ Hrgj _ Hdj _].
      apply (ne_lanes _ _ _ Hn i j Hij); [by eapply lookup_lt_Some| |by rewrite Hdi, Hdj, Hd].
      exists ri, rj. split_and!; [done..|unfold key_of; congruence|congruence]. }
    intros i j si sj Hne Hi Hj Hp Ht H1 H2. destruct (Nat.lt_trichotomy i j) as [Hij|[Hij|Hij]]; [by eapply (Hlt i j)|done|].
    intros Hd. by eapply (Hlt j i sj si Hij).
Qed.

(** C24: own and inclusive times of regions are exact.  The own ranges of a complete span are
    disjoint and cover exactly the times of the span at which none of its complete children on
    the same thread runs; a node's inclusive time is the sum of its complete spans, its own
    time the sum of their own ranges (at 64 bits), and its counts are those of its spans. *)
Theorem region_times_exact (names : gmap Z (list Z * list Z)) (profile_range : option TimeRange) (events : list Event) :
  times_ok profile_range events →
  ∃ raw n d, region_spans profile_range events = Done raw ∧ nest raw = Done n ∧
    load_regions names profile_range events = Done d ∧ length (spans d) = length raw ∧
    (∀ i s sp, raw !! i = Some s → spans d !! i = Some sp →
       s_range sp = range s ∧ s_boundary sp = boundary s ∧
       (boundary s = Complete → separated (self_ranges sp) ∧
          ∀ t, covers (self_ranges sp) t ↔ in_range t (range s) ∧ ¬ child_at raw n (length raw) i s t)) ∧
    (∀ id nd, nodes d !! id = Some nd → figures (spans d) id nd).
Proof.
  intros Hok. destruct (load_spec names profile_range events Hok) as (raw & n & d & Er & E & Hld).
  exists raw, n, d. destruct Hld as [En Hn Hspans (crs & ids & [Hl Hst _ _ _ _ _ Hfig] & Hcl & Hcrs)]. cbn [fst snd] in *.
  split_and!; [done..| |done]. intros i s sp Hi Hsp. destruct (Hst i s sp Hi Hsp) as [_ _ _ Hr Hb _ Hself].
  split_and!; [done..|]. intros Hc. assert (i < length crs)%nat as [cr Hcr]%lookup_lt_is_Some.
  { rewrite Hcl. by eapply lookup_lt_Some. }
  destruct (Hcrs i s cr Hi Hcr) as (Hsep & Hin & Hcov). rewrite (Hself cr Hcr).
  rewrite Forall_forall in Hspans. destruct (Hspans s) as [_ Hend]; [by eapply list_elem_of_lookup_2|].
  destruct (gaps_spec (flattened cr) (start_ns (range s)) (end_ns (range s)) Hsep Hin) as (Hs & _ & Hg & _); [by destruct (Hend Hc)|].
  split; [done|]. intros t. by rewrite Hg, Hcov.
Qed.

(** A complete span among [ids] is running on a thread. *)
Definition runs (d : RegionData) (ids : list nat) (p th t : Z) : Prop :=
  ∃ id sp, id ∈ ids ∧ spans d !! id = Some sp ∧ s_boundary sp = Complete ∧
    s_process_id sp = p ∧ s_thread_id sp = th ∧ in_range t (s_range sp).

(** Filtering by a region is exact: a time of a thread passes the filter of a selected
    node or invocation exactly when a complete span of it on that thread is running, and the
    part of an interval that the filter keeps covers exactly those of its times, in disjoint
    pieces. *)
Theorem region_filter_exact (d : RegionData) (selection : RegionSelection) (ids : list nat) :
  selected d selection = Done ids → Forall (λ id, is_Some (spans d !! id)) ids →
  ∃ m, intervals d selection = Done m ∧ ∀ p th,
    (∀ t, ∃ b, contains m p th t = Done b ∧ (b = true ↔ runs d ids p th t)) ∧
    ∀ r, start_ns r < end_ns r → separated (intersections m p th r) ∧
      ∀ t, covers (intersections m p th r) t ↔ in_range t r ∧ runs d ids p th t.
Proof.
  intros Hsel Hids. unfold intervals. rewrite Hsel. cbn.
  assert (G : ∀ ids m, Forall (λ id, is_Some (spans d !! id)) ids →
    ∃ m', fold_outcome (push_span d) ids m = Done m' ∧ ∀ p th t, covers (default [] (m' !! (p, th))) t ↔
      covers (default [] (m !! (p, th))) t ∨ runs d ids p th t).
  { clear. induction ids as [|id ids IH]; intros m Hids; cbn [fold_outcome].
    - exists m. split; [done|]. intros p th t. split; [by left|]. intros [?|(? & ? & []%elem_of_nil & _)]; done.
    - apply Forall_cons in Hids as [[sp Hsp] Hids]. unfold push_span at 1. rewrite Hsp. cbn.
      set (m1 := if bool_decide _ then _ else _). destruct (IH m1 Hids) as (m' & -> & Hm'). exists m'. split; [done|].
      intros p th t. rewrite Hm'. assert (Hm1 : covers (default [] (m1 !! (p, th))) t ↔ covers (default [] (m !! (p, th))) t ∨
        s_boundary sp = Complete ∧ s_process_id sp = p ∧ s_thread_id sp = th ∧ in_range t (s_range sp)).
      { unfold m1. case_bool_decide as Hb; [|tauto]. rewrite push_lookup. case_decide as Hk.
        - injection Hk as -> ->. cbn. rewrite covers_app, covers_cons. pose proof (covers_nil t). tauto.
        - split; [by left|]. intros [?|(_ & <- & <- & _)]; done. }
      rewrite Hm1. split.
      + intros [[?|?]|(i & q & Hi & H)]; [by left|right; exists id, sp; set_solver|right; exists i, q; set_solver].
      + intros [?|(i & q & [->|Hi]%elem_of_cons & Hq & H)]; [by left; left| |right; by exists i, q].
        rewrite Hsp in Hq. injection Hq as <-. left. by right. }
  destruct (G ids ∅ Hids) as (m & -> & Hm). cbn. eexists. split; [done|]. intros p th.
  assert (Hruns : ∀ t, covers (default [] (m !! (p, th))) t ↔ runs d ids p th t).
  { intros t. rewrite Hm, empty_lookup. split; [|by right]. intros [H|?]; [|done]. by apply covers_nil in H. }
  destruct (m !! (p, th)) as [rs|] eqn:Em.
  - assert (Hmm : merge m !! (p, th) = Some (merge_ranges rs)) by (transitivity (merge_ranges <$> m !! (p, th)); [apply merge_lookup|by rewrite Em]).
    destruct (merge_ranges_spec rs) as [Hs Hc]. cbn in Hruns. split.
    + intros t. destruct (contains_spec _ p th t _ Hmm Hs) as (b & Eb & Hb). exists b. split; [done|]. by rewrite Hb, Hc.
    + intros r Hr. split; [by eapply intersections_separated|]. intros t.
      rewrite (intersections_covers _ p th r _ t Hmm Hs), Hc, Hruns. tauto.
  - assert (Hmm : merge m !! (p, th) = None) by (transitivity (merge_ranges <$> m !! (p, th)); [apply merge_lookup|by rewrite Em]). cbn in Hruns.
    assert (Hno : ∀ t, ¬ runs d ids p th t) by (intros t Ht%Hruns; by apply covers_nil in Ht). split.
    + intros t. exists false. unfold contains. rewrite Hmm. split; [done|]. split; [done|]. intros Ht. by apply Hno in Ht.
    + intros r _. unfold intersections. rewrite Hmm. split; [apply separated_nil|]. intros t. pose proof (covers_nil t). specialize (Hno t). tauto.
Qed.

(** A region that calls another one on its thread. *)
Definition demo_events : list Event :=
  [mkEvent 10 5 1 0 0 0 3 7; mkEvent 12 6 2 1 0 0 3 7; mkEvent 15 6 0 0 2 1 3 7; mkEvent 20 5 0 0 1 1 3 7].

Lemma demo_times : times_ok None demo_events.
Proof.
  split; [|done]. apply Forall_forall. intros e He.
  repeat (apply elem_of_cons in He as [->|He]; [cbn; unfold in_u64; rewrite u64_max_val; lia|]). by apply elem_of_nil in He.
Defined.

Lemma regions_forest_witness :
  ∃ d, load_regions ∅ None demo_events = Done d ∧ tree (shape (nodes d)) (roots d).
Proof.
  destruct (regions_forest ∅ None demo_events demo_times) as (raw & n & d & _ & _ & _ & E & Ht & _). by exists d.
Defined.

Lemma region_times_exact_witness :
  ∃ d, load_regions ∅ None demo_events = Done d ∧ ∀ id nd, nodes d !! id = Some nd → figures (spans d) id nd.
Proof. destruct (region_times_exact ∅ None demo_events demo_times) as (raw & n & d & _ & _ & E & _ & _ & H). by exists d. Defined.

Definition demo_data : RegionData :=
  mkData [mkNode [] [] None [] [0%nat; 1%nat] 2 0 14 14] [0%nat]
    [mkSpan 0 3 7 1 (mkRange 10 20) 0 Complete []; mkSpan 0 3 7 2 (mkRange 18 22) 1 Complete []] None.

Lemma region_filter_exact_witness :
  ∃ m, intervals demo_data (Node 0) = Done m ∧ ∃ b, contains m 3 7 21 = Done b ∧ (b = true ↔ runs demo_data [0; 1]%nat 3 7 21).
Proof.
  destruct (region_filter_exact demo_data (Node 0) [0; 1]%nat) as (m & E & H).
  - reflexivity.
  - repeat constructor; by eexists.
  - exists m. split; [done|]. apply (H 3 7).
Defined.
