(* ===== verification/Floats.v ===== *)
(** * Double-precision numbers

    [f64] as the [spec_float]s of the Standard Library at 53 bits: the operations on them
    that the sources use, all executable. *)

From S2P Require Import Prelude Words.
From Corelib Require Import SpecFloat.
Open Scope Z_scope.

Definition f64 : Type := spec_float.

Definition f64_zero : f64 := S754_zero false.
Definition f64_is_finite (x : f64) : bool :=
  match x with S754_zero _ | S754_finite _ _ _ => true | S754_infinity _ | S754_nan => false end.

(** [x as f64] of an unsigned integer, rounded to the nearest even. *)
Definition u64_as_f64 (n : Z) : f64 := binary_normalize 53 1024 n 0 false.
Definition f64_one : f64 := u64_as_f64 1.

Definition f64_add : f64 → f64 → f64 := SFadd 53 1024.
Definition f64_mul : f64 → f64 → f64 := SFmul 53 1024.
Definition f64_div : f64 → f64 → f64 := SFdiv 53 1024.

(** [x > 0.0] and [x != 0.0]; a NaN is neither positive nor equal to zero. *)
Definition f64_positive (x : f64) : bool := SFltb f64_zero x.
Definition f64_nonzero (x : f64) : bool := negb (SFeqb x f64_zero).

(** [x as u64]: towards zero, saturating; a NaN gives 0. *)
Definition f64_as_u64 (x : f64) : Z :=
  match x with
  | S754_finite false m e => Z.min (Z.shiftl (Zpos m) e) u64_max
  | S754_infinity false => u64_max
  | _ => 0
  end.

Definition f64_ltb : f64 → f64 → bool := SFltb.
Definition f64_leb : f64 → f64 → bool := SFleb.

(** [x.clamp(0.0, 1.0)]; a NaN stays. *)
Definition f64_clamp01 (x : f64) : f64 :=
  if f64_ltb x f64_zero then f64_zero else if f64_ltb f64_one x then f64_one else x.

(** [x.max(0.0)]; a NaN gives 0. *)
Definition f64_max0 (x : f64) : f64 := if f64_ltb f64_zero x then x else f64_zero.

(** [x.round()]: to the nearest integer, halves away from zero. *)
Definition f64_round (x : f64) : f64 :=
  match x with
  | S754_finite s m e =>
      if 0 <=? e then x
      else
        let q := (Zpos m * 2 + 2 ^ (- e)) / (2 * 2 ^ (- e)) in
        if q =? 0 then S754_zero s else binary_normalize 53 1024 (if s then - q else q) 0 false
  | _ => x
  end.

(** ** Rounding does not lose the whole number *)
Lemma digits2_lower m : 2 ^ (Zpos (digits2_pos m) - 1) ≤ Zpos m.
Proof.
  assert (Hstep : ∀ d, 2 ^ (Zpos (Pos.succ d) - 1) = 2 * 2 ^ (Zpos d - 1)).
  { intros d. replace (Zpos (Pos.succ d) - 1) with ((Zpos d - 1) + 1) by lia. rewrite Z.pow_add_r by lia. lia. }
  induction m as [m IH|m IH|]; cbn [digits2_pos]; rewrite ?Hstep; cbn; lia.
Qed.

Lemma shr_1_half x : 0 ≤ shr_m x → shr_m (shr_1 x) = shr_m x / 2.
Proof.
  destruct x as [[|[p|p|]|p] sr ss]; cbn; intros H; [done| | |done|lia].
  - apply Z.div_unique with 1; lia.
  - apply Z.div_unique with 0; lia.
Qed.

Lemma shr_iter p x : 0 ≤ shr_m x → shr_m (iter_pos shr_1 p x) = shr_m x / 2 ^ Zpos p.
Proof.
  revert x. induction p as [p IH|p IH|]; intros x Hx; cbn [iter_pos].
  - pose proof (shr_1_half x Hx) as E. assert (0 ≤ shr_m (shr_1 x)) by (rewrite E; apply Z.div_pos; lia).
    rewrite IH by (rewrite IH by done; apply Z.div_pos; [done|apply Z.pow_pos_nonneg; lia]). rewrite IH, E, !Z.div_div by (done || lia || (apply Z.pow_pos_nonneg; lia) || (apply Z.pow_nonzero; lia)).
    f_equal. replace (Zpos p~1) with (1 + Zpos p + Zpos p) by lia. rewrite !Z.pow_add_r by lia. lia.
  - rewrite IH by (rewrite IH by done; apply Z.div_pos; [done|apply Z.pow_pos_nonneg; lia]).
    rewrite IH, Z.div_div by (done || lia || (apply Z.pow_pos_nonneg; lia) || (apply Z.pow_nonzero; lia)). f_equal. replace (Zpos p~0) with (Zpos p + Zpos p) by lia. rewrite Z.pow_add_r by lia. lia.
  - by apply shr_1_half.
Qed.

(** A shift to 53 digits leaves a positive mantissa. *)
Lemma shr_fexp_pos m e l : 0 < m → -1074 ≤ e → let s := shr_fexp 53 1024 m e l in 0 < shr_m s.1 ∧ -1074 ≤ s.2.
Proof.
  intros Hm He. unfold shr_fexp. destruct m as [|m|]; [lia| |lia]. cbn [Zdigits2]. pose proof (digits2_lower m) as Hd.
  unfold fexp, SpecFloat.emin. set (d := Zpos (digits2_pos m)) in *.
  assert (Hr : shr_m (shr_record_of_loc (Zpos m) l) = Zpos m) by by destruct l as [|[]].
  assert (Hk : Z.max (d + e - 53) (3 - 1024 - 53) - e ≤ d - 1) by (unfold d; lia).
  destruct (Z.max (d + e - 53) (3 - 1024 - 53) - e) as [|k|k]; cbn [shr fst snd]; [rewrite Hr; lia| |rewrite Hr; lia].
  rewrite shr_iter, Hr by (rewrite Hr; lia). split; [|lia]. apply Z.div_str_pos. split; [apply Z.pow_pos_nonneg; lia|].
  etransitivity; [|exact Hd]. apply Z.pow_le_mono_r; lia.
Qed.

Lemma u64_as_f64_positive n : 0 < n → f64_leb (u64_as_f64 n) f64_zero = false.
Proof.
  intros Hn. unfold u64_as_f64, binary_normalize. destruct n as [|n|]; [lia| |lia]. unfold binary_round.
  destruct (shl_align n 0 _) as [m e] eqn:E. assert (He : -1074 ≤ e).
  { unfold shl_align, fexp, SpecFloat.emin in E. destruct (Z.max _ _ - 0) eqn:Ez in E; injection E as _ <-; lia. }
  unfold binary_round_aux. destruct (shr_fexp_pos (Zpos m) e loc_Exact ltac:(lia) He) as [H1 H2].
  destruct (shr_fexp 53 1024 (Zpos m) e loc_Exact) as [s1 e1]. cbn [fst snd] in H1, H2.
  assert (H3 : 0 < round_nearest_even (shr_m s1) (loc_of_shr_record s1)).
  { unfold round_nearest_even. destruct (loc_of_shr_record s1) as [|[]]; try lia. destruct (Z.even _); lia. }
  destruct (shr_fexp_pos _ e1 loc_Exact H3 H2) as [H4 _]. destruct (shr_fexp 53 1024 _ e1 loc_Exact) as [s2 e2]. cbn [fst] in H4.
  destruct (shr_m s2); [lia| |lia]. by destruct (e2 <=? 1024 - 53).
Qed.
