(* ===== verification/CallTree.v ===== *)
(** * Call trees of a profile

    The analyses of the profile views ([mperf-gui/src/profile_analysis.rs]) that build on
    stacks: the sample filter, the top-down and bottom-up call tree and the layout of its
    icicles.

    Frame numbers are integers, node numbers positions in the vector of nodes; a label is
    the list of its characters. *)

From S2P Require Import Prelude Words Text Floats Regions.
From stdpp Require Import sorting.
Open Scope Z_scope.

(** ** Samples and their filter *)
Record ProfileSample := mkSample {
  timestamp_ns : Z;
  process_id : Z;
  thread_id : Z;
  cpu : option Z;
  confidence : f64;
  stack : list Z;
  counters : list (option f64)
}.

Record SampleFilter := mkFilter {
  f_range : option TimeRange;
  f_regions : option RegionIntervals.RegionIntervals;
  f_process_id : option Z;
  f_thread_id : option Z;
  f_threads : option (gset Z);
  f_cpu : option Z;
  required_counter : option nat;
  frame_ids : option (gset Z);
  leaf_frames : option (gset Z)
}.

Definition no_filter : SampleFilter := mkFilter None None None None None None None None None.

(** [option.is_some_and(test)]. *)
Definition is_some_and {A} (o : option A) (p : A → bool) : bool := match o with Some x => p x | None => false end.

(** The counter of a sample: absent columns and absent values are the same. *)
Definition counter_at (s : ProfileSample) (index : nat) : option f64 := default None (counters s !! index).

Definition in_regions (f : SampleFilter) (s : ProfileSample) : outcome bool :=
  match f_regions f with
  | None => Done true
  | Some regions => RegionIntervals.contains regions (process_id s) (thread_id s) (timestamp_ns s)
  end.

Definition matches_without_time (f : SampleFilter) (s : ProfileSample) : outcome bool :=
  inside ← in_regions f s;
  Done (if negb inside then false
        else if is_some_and (f_process_id f) (λ p, negb (process_id s =? p)) then false
        else if is_some_and (f_thread_id f) (λ t, negb (thread_id s =? t)) then false
        else if is_some_and (f_threads f) (λ ts, negb (bool_decide (thread_id s ∈ ts))) then false
        else if is_some_and (f_cpu f) (λ c, negb (bool_decide (cpu s = Some c))) then false
        else if is_some_and (frame_ids f) (λ ids, negb (existsb (λ x, bool_decide (x ∈ ids)) (stack s))) then false
        else if is_some_and (leaf_frames f)
                  (λ ids, negb (is_some_and (last (stack s)) (λ x, bool_decide (x ∈ ids)))) then false
        else match required_counter f with
             | Some counter => is_some_and (counter_at s counter) (λ v, f64_is_finite v && f64_nonzero v)
             | None => true
             end).

Definition outside_time (f : SampleFilter) (s : ProfileSample) : bool :=
  is_some_and (f_range f) (λ r, (timestamp_ns s <? start_ns r) || (end_ns r <=? timestamp_ns s)).

Definition matches (f : SampleFilter) (s : ProfileSample) : outcome bool :=
  if outside_time f s then Done false else matches_without_time f s.

(** [samples.iter().filter(|sample| filter.matches(sample))]. *)
Fixpoint accepted (f : SampleFilter) (samples : list ProfileSample) : outcome (list ProfileSample) :=
  match samples with
  | [] => Done []
  | s :: samples =>
      m ← matches f s;
      rest ← accepted f samples;
      Done (if m : bool then s :: rest else rest)
  end.

(** ** Weights *)
Inductive StackWeight := Samples | Counter (index : nat).

Definition weight_of (w : StackWeight) (s : ProfileSample) : Z :=
  match w with
  | Samples => 1
  | Counter index =>
      match counter_at s index with
      | Some v => if f64_is_finite v && f64_positive v then f64_as_u64 v else 0
      | None => 0
      end
  end.

(** ** The tree *)
Record CallTreeNode := mkNode {
  id : nat;
  frame_id : option Z;
  label : list Z;
  parent : option nat;
  children : list nat;
  depth : nat;
  inclusive_samples : Z;
  self_samples : Z
}.

Record CallTree := mkTree { nodes : list CallTreeNode; root : nat; total_samples : Z }.

(** The sort key of a sample; an absent processor comes first. *)
Definition sample_key (s : ProfileSample) : list Z :=
  [timestamp_ns s; process_id s; thread_id s; match cpu s with Some c => c | None => -1 end] ++ stack s.
Definition sample_le (a b : ProfileSample) : Prop := RegionData.lex_le (sample_key a) (sample_key b).
#[export] Instance sample_le_dec a b : Decision (sample_le a b).
Proof. apply RegionData.lex_le_dec. Defined.

Definition root_node : CallTreeNode := mkNode 0 None (chars "All samples") None [] 0 0 0.

Definition with_children (cs : list nat) (n : CallTreeNode) : CallTreeNode :=
  mkNode (id n) (frame_id n) (label n) (parent n) cs (depth n) (inclusive_samples n) (self_samples n).
Definition add_inclusive (v : Z) (n : CallTreeNode) : CallTreeNode :=
  mkNode (id n) (frame_id n) (label n) (parent n) (children n) (depth n) (saturating_add (inclusive_samples n) v) (self_samples n).
Definition add_self (v : Z) (n : CallTreeNode) : CallTreeNode :=
  mkNode (id n) (frame_id n) (label n) (parent n) (children n) (depth n) (inclusive_samples n) (saturating_add (self_samples n) v).

(** [nodes[i]] changed in place; an index out of range panics. *)
Definition update (i : nat) (f : CallTreeNode → CallTreeNode) (ns : list CallTreeNode) : outcome (list CallTreeNode) :=
  n ← unwrap (ns !! i); Done (<[i := f n]> ns).

Definition frame_label (labels : gmap Z (list Z)) (frame : Z) : list Z :=
  default (chars "Unknown frame " ++ show frame) (labels !! frame).

(** The nodes, the lookup of children and the node reached so far. *)
Record Walk := mkWalk { w_nodes : list CallTreeNode; child_lookup : gmap (nat * Z) nat; current : nat }.

(** The child of the current node for a frame, made if there is none. *)
Definition child_for (labels : gmap Z (list Z)) (w : Walk) (at_depth : nat) (frame : Z) : outcome (nat * Walk) :=
  match child_lookup w !! (current w, frame) with
  | Some node_id => Done (node_id, w)
  | None =>
      let node_id := length (w_nodes w) in
      let ns := w_nodes w ++ [mkNode node_id (Some frame) (frame_label labels frame) (Some (current w)) [] (S at_depth) 0 0] in
      ns ← update (current w) (λ n, with_children (children n ++ [node_id]) n) ns;
      Done (node_id, mkWalk ns (<[(current w, frame) := node_id]> (child_lookup w)) (current w))
  end.

Fixpoint walk_frames (labels : gmap Z (list Z)) (value : Z) (w : Walk) (at_depth : nat) (frames : list Z) : outcome Walk :=
  match frames with
  | [] => Done w
  | frame :: frames =>
      '(node_id, w) ← child_for labels w at_depth frame;
      ns ← update node_id (add_inclusive value) (w_nodes w);
      walk_frames labels value (mkWalk ns (child_lookup w) node_id) (S at_depth) frames
  end.

(** One sample. *)
Definition add_sample (labels : gmap Z (list Z)) (inverted : bool) (weight : StackWeight)
    (st : list CallTreeNode * gmap (nat * Z) nat) (s : ProfileSample) : outcome (list CallTreeNode * gmap (nat * Z) nat) :=
  let value := weight_of weight s in
  if value =? 0 then Done st
  else
    ns ← update 0 (add_inclusive value) st.1;
    w ← walk_frames labels value (mkWalk ns st.2 0) 0 (if inverted then reverse (stack s) else stack s);
    ns ← update (current w) (add_self value) (w_nodes w);
    Done (ns, child_lookup w).

(** The order of siblings: by weight from the heaviest, by label, by frame. *)
Definition child_le (a b : CallTreeNode) : Prop :=
  inclusive_samples b < inclusive_samples a ∨
  inclusive_samples a = inclusive_samples b ∧
    (label a ≠ label b ∧ RegionData.lex_le (label a) (label b) ∨
     label a = label b ∧ default (-1) (frame_id a) ≤ default (-1) (frame_id b)).
#[export] Instance child_le_dec a b : Decision (child_le a b).
Proof. unfold child_le. pose proof RegionData.lex_le_dec. apply _. Defined.

Definition node_le (ns : list CallTreeNode) (i j : nat) : Prop :=
  match ns !! i, ns !! j with
  | Some a, Some b => child_le a b
  | _, _ => True
  end.
#[export] Instance node_le_dec ns i j : Decision (node_le ns i j).
Proof. unfold node_le. destruct (ns !! i), (ns !! j); apply _. Defined.

Definition sort_children (ns : list CallTreeNode) : list CallTreeNode :=
  (λ n, with_children (merge_sort (node_le ns) (children n)) n) <$> ns.

(** [frame_labels]: a later frame with the same number wins. *)
Definition frame_labels (frames : list (Z * list Z)) : gmap Z (list Z) :=
  foldl (λ m '(i, name), <[i := name]> m) ∅ frames.

Definition build_weighted (frames : list (Z * list Z)) (samples : list ProfileSample) (filter : SampleFilter)
    (inverted : bool) (weight : StackWeight) : outcome CallTree :=
  let labels := frame_labels frames in
  samples ← accepted filter samples;
  '(ns, _) ← fold_outcome (add_sample labels inverted weight) (merge_sort sample_le samples) ([root_node], ∅);
  let ns := sort_children ns in
  r ← unwrap (ns !! 0%nat);
  Done (mkTree ns 0 (inclusive_samples r)).

(** ** Paths and icicles *)

(** [while let Some(node_id) = current]; a parent precedes its child. *)
Fixpoint ancestors (fuel : nat) (ns : list CallTreeNode) (cur : option nat) : outcome (list nat) :=
  match cur with
  | None => Done []
  | Some i =>
      match fuel with
      | O => Panicked
      | S fuel => n ← unwrap (ns !! i); rest ← ancestors fuel ns (parent n); Done (i :: rest)
      end
  end.

Definition focus_path (t : CallTree) (focus_node : nat) : outcome (list nat) :=
  path ← ancestors (length (nodes t)) (nodes t) (id <$> nodes t !! focus_node);
  Done (reverse path).

Record IcicleFrame := mkIcicle {
  ic_node : nat;
  ic_frame : option Z;
  ic_label : list Z;
  ic_x : f64;
  ic_width : f64;
  ic_depth : nat;
  ic_inclusive : Z;
  ic_self : Z
}.

Record IcicleLayout := mkLayout {
  focus : nat;
  path : list nat;
  layout_total : Z;
  max_depth : nat;
  icicles : list IcicleFrame
}.

(** [layout_node] and its loop over the children; the fuel is the height of the tree. *)
Fixpoint layout_node (fuel : nat) (ns : list CallTreeNode) (node_id : nat) (x width : f64) (at_depth : nat)
    (st : nat * list IcicleFrame) : outcome (nat * list IcicleFrame) :=
  match fuel with
  | O => Panicked
  | S fuel =>
      n ← unwrap (ns !! node_id);
      let st := (Nat.max st.1 at_depth,
                 st.2 ++ [mkIcicle node_id (frame_id n) (label n) x width at_depth (inclusive_samples n) (self_samples n)]) in
      if inclusive_samples n =? 0 then Done st
      else
        '(_, st) ← fold_outcome (λ '(child_x, st) child_id,
            c ← unwrap (ns !! child_id);
            let child_width := f64_div (f64_mul width (u64_as_f64 (inclusive_samples c))) (u64_as_f64 (inclusive_samples n)) in
            st ← layout_node fuel ns child_id child_x child_width (S at_depth) st;
            Done (f64_add child_x child_width, st)) (children n) (x, st);
        Done st
  end.

Definition icicle_layout (t : CallTree) (focus_node : option nat) : outcome IcicleLayout :=
  let focus := match focus_node with
               | Some i => if bool_decide (i < length (nodes t))%nat then i else root t
               | None => root t
               end in
  n ← unwrap (nodes t !! focus);
  '(depth, frames) ← (if 0 <? inclusive_samples n
                      then layout_node (length (nodes t)) (nodes t) focus f64_zero f64_one 0 (0%nat, [])
                      else Done (0%nat, []));
  path ← focus_path t focus;
  Done (mkLayout focus path (inclusive_samples n) depth frames).
