(* ===== verification/CallTreeSpec.v ===== *)
(** * What the call tree counts

    - [Module Weights]: the weight that samples put on a path of frames;
    - [Module Represents]: a vector of nodes as a set of paths with weights, and what walking
      a stack does to it. *)

From S2P Require Import Prelude Words Text Floats Regions RegionsSpec RegionsNest CallTree.
From stdpp Require Import sorting.
Open Scope Z_scope.

Module Weights.

(** Stacks, from the root of the tree, with their weights. *)
Definition Row : Type := list Z * Z.

(** The weight of the samples that go through a path, and of those that end there. *)
Definition under (rows : list Row) (π : list Z) : Z :=
  foldr (λ r acc, (if bool_decide (π `prefix_of` r.1) then r.2 else 0) + acc) 0 rows.
Definition at_leaf (rows : list Row) (π : list Z) : Z :=
  foldr (λ r acc, (if bool_decide (π = r.1) then r.2 else 0) + acc) 0 rows.
Definition total (rows : list Row) : Z := foldr (λ r acc, r.2 + acc) 0 rows.

Lemma under_snoc rows r π : under (rows ++ [r]) π = under rows π + if bool_decide (π `prefix_of` r.1) then r.2 else 0.
Proof. unfold under. induction rows as [|x rows IH]; cbn; [lia|]. rewrite IH. lia. Qed.
Lemma at_leaf_snoc rows r π : at_leaf (rows ++ [r]) π = at_leaf rows π + if bool_decide (π = r.1) then r.2 else 0.
Proof. unfold at_leaf. induction rows as [|x rows IH]; cbn; [lia|]. rewrite IH. lia. Qed.
Lemma total_snoc rows r : total (rows ++ [r]) = total rows + r.2.
Proof. unfold total. induction rows as [|x rows IH]; cbn; [lia|]. rewrite IH. lia. Qed.

Lemma under_nil rows : under rows [] = total rows.
Proof. unfold under, total. induction rows as [|x rows IH]; cbn; [done|]. rewrite bool_decide_true by apply prefix_nil. by rewrite IH. Qed.

(** A function from paths to weights, raised at one path. *)
Definition bump (W : list Z → Z) (π : list Z) (v : Z) (σ : list Z) : Z := if bool_decide (σ = π) then W σ + v else W σ.
Fixpoint walked (W : list Z → Z) (π fs : list Z) (v : Z) : list Z → Z :=
  match fs with
  | [] => W
  | f :: fs => walked (bump W (π ++ [f]) v) (π ++ [f]) fs v
  end.

(** The proper extensions of [π] along a stack. *)
Lemma prefix_step (π : list Z) f fs σ :
  π `prefix_of` σ ∧ σ ≠ π ∧ σ `prefix_of` (π ++ [f]) ++ fs ↔
  σ = π ++ [f] ∨ (π ++ [f]) `prefix_of` σ ∧ σ ≠ π ++ [f] ∧ σ `prefix_of` (π ++ [f]) ++ fs.
Proof.
  split.
  - intros ([τ ->] & Hne & H2). destruct τ as [|g τ]; [by rewrite app_nil_r in Hne|].
    assert (g = f) as ->. { rewrite <-app_assoc in H2. apply prefix_app_inv in H2. destruct H2 as [x Hx]. cbn in Hx. by injection Hx as <- _. }
    destruct τ as [|h τ]; [by left|]. right. split_and!; [|intros E; by apply (f_equal length) in E; rewrite !length_app in E; cbn in E; lia|done].
    exists (h :: τ). by rewrite <-app_assoc.
  - intros [->|(H1 & Hne & H2)].
    + split_and!; [by apply prefix_app_r|intros E; apply (f_equal length) in E; rewrite length_app in E; cbn in E; lia|by apply prefix_app_r].
    + split_and!; [etrans; [|exact H1]; by apply prefix_app_r| |done]. intros ->. apply prefix_length in H1. rewrite length_app in H1. cbn in H1. lia.
Qed.

Lemma walked_spec fs W π v σ :
  walked W π fs v σ = W σ + if bool_decide (π `prefix_of` σ ∧ σ ≠ π ∧ σ `prefix_of` π ++ fs) then v else 0.
Proof.
  revert W π. induction fs as [|f fs IH]; intros W π; cbn [walked].
  - rewrite app_nil_r, bool_decide_false; [lia|]. intros (H1 & Hne & H2). apply Hne. by apply (anti_symm prefix).
  - rewrite IH. unfold bump. replace (π ++ f :: fs) with ((π ++ [f]) ++ fs) by by rewrite <-app_assoc.
    rewrite (bool_decide_ext _ _ (prefix_step π f fs σ)). destruct (decide (σ = π ++ [f])) as [->|Hne].
    + rewrite bool_decide_true by done. rewrite bool_decide_false by (by intros (_ & ? & _)). rewrite bool_decide_true by by left. lia.
    + rewrite bool_decide_false by done. f_equal.
      destruct (decide ((π ++ [f]) `prefix_of` σ ∧ σ ≠ π ++ [f] ∧ σ `prefix_of` (π ++ [f]) ++ fs)).
      * rewrite bool_decide_true by done. rewrite bool_decide_true by by right. done.
      * rewrite bool_decide_false by done. rewrite bool_decide_false by tauto. done.
Qed.

(** A whole stack raises its prefixes. *)
Lemma walked_stack W fs v σ : walked (bump W [] v) [] fs v σ = W σ + if bool_decide (σ `prefix_of` fs) then v else 0.
Proof.
  rewrite walked_spec. unfold bump. cbn [app]. destruct (decide (σ = [])) as [->|Hne].
  - rewrite bool_decide_true by done. rewrite bool_decide_false by (by intros (_ & ? & _)).
    rewrite bool_decide_true by apply prefix_nil. lia.
  - rewrite bool_decide_false by done. f_equal. destruct (decide (σ `prefix_of` fs)).
    + rewrite !bool_decide_true; [done..|]. split_and!; [apply prefix_nil|done..].
    + rewrite !bool_decide_false; [done..|]. by intros (_ & _ & ?).
Qed.
End Weights.

Module Represents.
Import Weights.

Section labels.
Context (labels : gmap Z (list Z)).

(** The node number [i] stands for the path [π]; [P] has the paths of all nodes. *)
Record node_at (P : list (list Z)) (i : nat) (n : CallTreeNode) (π : list Z) : Prop := {
  na_id : id n = i;
  na_depth : depth n = length π;
  na_parent : parent n = None ∧ frame_id n = None ∧ label n = label root_node ∧ π = [] ∧ i = O ∨
    ∃ p f π', parent n = Some p ∧ frame_id n = Some f ∧ label n = frame_label labels f ∧
      (p < i)%nat ∧ P !! p = Some π' ∧ π = π' ++ [f];
  na_nodup : NoDup (children n);
  na_children c : c ∈ children n ↔ ∃ f, P !! c = Some (π ++ [f])
}.

Record represents (P : list (list Z)) (W L : list Z → Z) (ns : list CallTreeNode) (lk : gmap (nat * Z) nat) : Prop := {
  re_length : length P = length ns;
  re_nodup : NoDup P;
  re_root : P !! 0%nat = Some [];
  re_nodes i n π : ns !! i = Some n → P !! i = Some π → node_at P i n π ∧ inclusive_samples n = W π ∧ self_samples n = L π;
  re_lookup p f c : lk !! (p, f) = Some c ↔ ∃ π, P !! p = Some π ∧ P !! c = Some (π ++ [f]);
  re_absent π : π ∉ P → W π = 0 ∧ L π = 0
}.

Lemma represents_ext P W W' L L' ns lk :
  (∀ π, W π = W' π) → (∀ π, L π = L' π) → represents P W L ns lk → represents P W' L' ns lk.
Proof.
  intros HW HL [Hl Hnd Hr Hn Hlk Ha]. split; [done..| |done|].
  - intros i n π Hi Hp. rewrite <-HW, <-HL. by apply Hn.
  - intros π. rewrite <-HW, <-HL. apply Ha.
Qed.

Lemma represents_start : represents [[]] (λ _, 0) (λ _, 0) [root_node] ∅.
Proof.
  split; [done|apply NoDup_singleton|done| | |done].
  - intros [|i] n π; cbn; [|done]. intros [= <-] [= <-]. split; [|done]. split; cbn; [done..|by left|constructor|].
    intros c. split; [by intros []%elem_of_nil|]. intros [f H]. destruct c as [|c]; cbn in H; [by destruct f|done].
  - intros p f c. rewrite lookup_empty. split; [done|]. intros (π & _ & H). destruct c as [|c]; cbn in H; [|done].
    injection H as H. by destruct π.
Qed.

Lemma node_of P W L ns lk i π : represents P W L ns lk → P !! i = Some π → ∃ n, ns !! i = Some n.
Proof. intros H Hi. apply lookup_lt_is_Some. rewrite <-(re_length _ _ _ _ _ H). by eapply lookup_lt_Some. Qed.

Lemma path_of P W L ns lk i n : represents P W L ns lk → ns !! i = Some n → ∃ π, P !! i = Some π.
Proof. intros H Hi. apply lookup_lt_is_Some. rewrite (re_length _ _ _ _ _ H). by eapply lookup_lt_Some. Qed.

(** The path of a node without its last frame is the path of a node. *)
Lemma parent_present P W L ns lk c σ g : represents P W L ns lk → P !! c = Some (σ ++ [g]) → σ ∈ P.
Proof.
  intros Hr Hc. destruct (node_of _ _ _ _ _ _ _ Hr Hc) as [m Hm].
  destruct (re_nodes _ _ _ _ _ Hr c m _ Hm Hc) as ([_ _ H3 _ _] & _).
  destruct H3 as [(_ & _ & _ & H & _)|(q & h & π' & _ & _ & _ & _ & Hq & H)]; [by destruct σ|].
  apply app_inj_2 in H as [<- _]; [|done]. by eapply list_elem_of_lookup_2.
Qed.

(** A node changed in its weights only. *)
Lemma update_weights P W L W' L' ns lk i π g :
  represents P W L ns lk → P !! i = Some π →
  (∀ σ, σ ≠ π → W' σ = W σ ∧ L' σ = L σ) →
  (∀ n, inclusive_samples n = W π → self_samples n = L π → inclusive_samples (g n) = W' π ∧ self_samples (g n) = L' π) →
  (∀ n, id (g n) = id n ∧ frame_id (g n) = frame_id n ∧ label (g n) = label n ∧ parent (g n) = parent n ∧
     children (g n) = children n ∧ depth (g n) = depth n) →
  ∃ ns', update i g ns = Done ns' ∧ represents P W' L' ns' lk.
Proof.
  intros Hr Hi Hother Hg Hsame. destruct (node_of _ _ _ _ _ _ _ Hr Hi) as [n Hn]. unfold update. rewrite Hn. cbn.
  eexists. split; [done|]. destruct Hr as [Hl Hnd Hroot Hnodes Hlk Ha]. split; [by rewrite length_insert|done..| |done|].
  - intros j m σ Hj Hσ. destruct (decide (j = i)) as [->|Hne].
    + rewrite list_lookup_insert_eq in Hj by (by eapply lookup_lt_Some). injection Hj as <-. rewrite Hi in Hσ. injection Hσ as <-.
      destruct (Hnodes i n π Hn Hi) as ([H1 H2 H3 H4 H5] & HW & HL). split; [|by apply Hg].
      destruct (Hsame n) as (E1 & E2 & E3 & E4 & E5 & E6). split; rewrite ?E1, ?E2, ?E3, ?E4, ?E5, ?E6; done.
    + rewrite list_lookup_insert_ne in Hj by done. destruct (Hother σ) as [-> ->]; [|by apply Hnodes].
      intros ->. apply Hne. by eapply NoDup_lookup.
  - intros σ Hσ. destruct (Hother σ) as [-> ->]; [|by apply Ha]. intros ->. apply Hσ. by eapply list_elem_of_lookup_2.
Qed.

Lemma update_inclusive P W L ns lk i π v :
  represents P W L ns lk → P !! i = Some π → W π + v ≤ u64_max →
  ∃ ns', update i (add_inclusive v) ns = Done ns' ∧ represents P (bump W π v) L ns' lk.
Proof.
  intros Hr Hi Hb. apply (update_weights P W L _ _ ns lk i π); try done.
  - intros σ Hne. unfold bump. by rewrite bool_decide_false.
  - intros n HW HL. cbn. unfold bump. rewrite bool_decide_true by done. split; [|done]. rewrite HW. word_lia.
Qed.

Lemma update_self P W L ns lk i π v :
  represents P W L ns lk → P !! i = Some π → L π + v ≤ u64_max →
  ∃ ns', update i (add_self v) ns = Done ns' ∧ represents P W (bump L π v) ns' lk.
Proof.
  intros Hr Hi Hb. apply (update_weights P W L _ _ ns lk i π); try done.
  - intros σ Hne. unfold bump. by rewrite bool_decide_false.
  - intros n HW HL. cbn. unfold bump. rewrite bool_decide_true by done. split; [done|]. rewrite HL. word_lia.
Qed.

(** The nodes when a path is added. *)
Lemma node_at_grow P i n π σ p f :
  P !! p = Some σ → node_at P i n π → (i = p → False) → π ≠ σ → node_at (P ++ [σ ++ [f]]) i n π.
Proof.
  intros Hp [H1 H2 H3 H4 H5] Hne Hps. split; [done..| |done|].
  - destruct H3 as [?|(q & g & π' & ? & ? & ? & ? & Hq & ?)]; [by left|]. right. exists q, g, π'. split_and!; [done..| |done].
    rewrite lookup_app_l; [done|by eapply lookup_lt_Some].
  - intros c. rewrite H5. split; intros [g Hg]; exists g.
    + rewrite lookup_app_l; [done|by eapply lookup_lt_Some].
    + apply lookup_app_Some in Hg as [?|[_ Hg]]; [done|]. apply list_lookup_singleton_Some in Hg as [_ Hg].
      apply app_inj_2 in Hg as [-> _]; done.
Qed.

Lemma child_for_spec P W L w π f :
  represents P W L (w_nodes w) (child_lookup w) → P !! current w = Some π →
  ∃ c w' P', child_for labels w (length π) f = Done (c, w') ∧ represents P' W L (w_nodes w') (child_lookup w') ∧
    P' !! c = Some (π ++ [f]) ∧ ∀ σ, σ ∈ P' ↔ σ ∈ P ∨ σ = π ++ [f].
Proof.
  intros Hr Hcur. unfold child_for. destruct (child_lookup w !! (current w, f)) as [c|] eqn:E.
  { apply (re_lookup _ _ _ _ _ Hr) in E as (π' & Hπ' & Hc). rewrite Hcur in Hπ'. injection Hπ' as <-.
    exists c, w, P. split_and!; [done..|]. intros σ. split; [by left|]. intros [?| ->]; [done|]. by eapply list_elem_of_lookup_2. }
  assert (Hnew : π ++ [f] ∉ P).
  { intros [c Hc]%list_elem_of_lookup. assert (child_lookup w !! (current w, f) = Some c) as H; [|by rewrite E in H].
    apply (re_lookup _ _ _ _ _ Hr). by exists π. }
  destruct (node_of _ _ _ _ _ _ _ Hr Hcur) as [n Hn]. pose proof Hr as Hr'. destruct Hr' as [Hl Hnd Hroot Hnodes Hlk Ha].
  assert (Hcl : (current w < length (w_nodes w))%nat) by (by eapply lookup_lt_Some).
  unfold update. rewrite lookup_app_l, Hn by done. cbn. eexists _, _, (P ++ [π ++ [f]]). split; [done|]. cbn [w_nodes child_lookup].
  assert (Hlast : (P ++ [π ++ [f]]) !! length (w_nodes w) = Some (π ++ [f])) by (apply list_lookup_middle; lia).
  split_and!; [split| |].
  - rewrite length_insert, !length_app, Hl. done.
  - apply NoDup_app. split_and!; [done| |apply NoDup_singleton]. by intros σ Hσ ->%list_elem_of_singleton.
  - rewrite lookup_app_l; [done|]. by eapply lookup_lt_Some.
  - intros i m σ Hi Hσ. destruct (decide (i = current w)) as [->|Hne].
    + rewrite list_lookup_insert_eq in Hi by (rewrite length_app; lia). injection Hi as <-.
      rewrite lookup_app_l, Hcur in Hσ by lia. injection Hσ as <-. destruct (Hnodes _ _ _ Hn Hcur) as ([H1 H2 H3 H4 H5] & HW & HL).
      split; [|done]. split; cbn; [done..| | |].
      * destruct H3 as [?|(q & g & π' & ? & ? & ? & ? & Hq & ?)]; [by left|]. right. exists q, g, π'. split_and!; [done..| |done].
        rewrite lookup_app_l; [done|by eapply lookup_lt_Some].
      * apply NoDup_app. split_and!; [done| |apply NoDup_singleton]. intros c [g Hg]%H5 ->%list_elem_of_singleton.
        apply lookup_lt_Some in Hg. lia.
      * intros c. rewrite elem_of_app, list_elem_of_singleton, H5. split.
        -- intros [[g Hg]| ->]; [exists g; rewrite lookup_app_l; [done|by eapply lookup_lt_Some]|by exists f].
        -- intros [g Hg]. apply lookup_app_Some in Hg as [Hg|[Hge Hg]]; [left; by exists g|]. right.
           apply list_lookup_singleton_Some in Hg as [? _]. lia.
    + rewrite list_lookup_insert_ne in Hi by done. apply lookup_app_Some in Hi as [Hi|[Hge Hi]].
      * rewrite lookup_app_l in Hσ by (rewrite Hl; by eapply lookup_lt_Some). destruct (Hnodes i m σ Hi Hσ) as (Hna & HW & HL). split; [|done].
        apply (node_at_grow P i m σ π (current w)); try done. intros ->. apply Hne. by eapply NoDup_lookup.
      * apply list_lookup_singleton_Some in Hi as [Hi0 <-]. replace i with (length (w_nodes w)) in * by lia.
        rewrite Hlast in Hσ. injection Hσ as <-. cbn. destruct (Ha _ Hnew) as [-> ->]. split; [|done]. split; cbn; [done| |right| |].
        -- rewrite length_app. cbn. lia.
        -- exists (current w), f, π. split_and!; [done..| |done]. rewrite lookup_app_l; [done|lia].
        -- constructor.
        -- intros c. split; [by intros []%elem_of_nil|]. intros [g Hg]. exfalso. apply lookup_app_Some in Hg as [Hg|[_ Hg]].
           ++ by apply Hnew, (parent_present P W L (w_nodes w) (child_lookup w) c _ g).
           ++ apply list_lookup_singleton_Some in Hg as [_ Hg]. apply (f_equal length) in Hg. rewrite !length_app in Hg. cbn in Hg. lia.
  - intros p g c. split.
    + intros [[[= <- <-] <-]|[Hne H]]%lookup_insert_Some.
      * exists π. split; [|done]. rewrite lookup_app_l; [done|lia].
      * apply Hlk in H as (σ & Hp & Hc). exists σ. split; (rewrite lookup_app_l; [done|by eapply lookup_lt_Some]).
    + intros (σ & Hp & Hc). apply lookup_app_Some in Hc as [Hc|[Hge Hc]].
      * rewrite lookup_insert_ne.
        -- apply Hlk. exists σ. split; [|done]. apply lookup_app_Some in Hp as [?|[_ Hp]]; [done|]. exfalso.
           apply list_lookup_singleton_Some in Hp as [_ <-]. by apply Hnew, (parent_present P W L (w_nodes w) (child_lookup w) c _ g).
        -- intros [= <- <-]. rewrite lookup_app_l, Hcur in Hp by lia. injection Hp as <-. apply Hnew. by eapply list_elem_of_lookup_2.
      * apply list_lookup_singleton_Some in Hc as [Hc0 Hc]. apply app_inj_2 in Hc as [<- [= <-]]; [|done].
        assert (p = current w) as ->.
        { apply lookup_app_Some in Hp as [Hp|[_ Hp]]; [by eapply NoDup_lookup|]. apply list_lookup_singleton_Some in Hp as [_ Hp].
          exfalso. apply (f_equal length) in Hp. rewrite length_app in Hp. cbn in Hp. lia. }
        replace c with (length (w_nodes w)) by lia. by rewrite lookup_insert_eq.
  - intros σ Hσ. apply Ha. intros H. apply Hσ, elem_of_app. by left.
  - done.
  - intros σ. by rewrite elem_of_app, list_elem_of_singleton.
Qed.

Lemma bump_far W π v σ : σ ≠ π → bump W π v σ = W σ.
Proof. intros H. unfold bump. by rewrite bool_decide_false. Qed.

Lemma walk_frames_spec fs P W L w π v :
  represents P W L (w_nodes w) (child_lookup w) → P !! current w = Some π →
  (∀ σ, (length π < length σ)%nat → W σ + v ≤ u64_max) →
  ∃ w' P', walk_frames labels v w (length π) fs = Done w' ∧
    represents P' (walked W π fs v) L (w_nodes w') (child_lookup w') ∧ P' !! current w' = Some (π ++ fs) ∧
    ∀ σ, σ ∈ P' ↔ σ ∈ P ∨ π `prefix_of` σ ∧ σ ≠ π ∧ σ `prefix_of` π ++ fs.
Proof.
  revert P W w π. induction fs as [|f fs IH]; intros P W w π Hr Hcur Hb; cbn [walk_frames walked].
  { exists w, P. rewrite app_nil_r. split_and!; [done..|]. intros σ. split; [by left|]. intros [?|(H1 & Hne & H2)]; [done|].
    exfalso. apply Hne. by apply (anti_symm prefix). }
  destruct (child_for_spec P W L w π f Hr Hcur) as (c & w1 & P1 & -> & Hr1 & Hc & Hin1). cbn.
  destruct (update_inclusive P1 W L (w_nodes w1) (child_lookup w1) c (π ++ [f]) v Hr1 Hc) as (ns & -> & Hr2).
  { apply Hb. rewrite length_app. cbn. lia. }
  cbn. destruct (IH P1 (bump W (π ++ [f]) v) (mkWalk ns (child_lookup w1) c) (π ++ [f])) as (w' & P' & E & Hr' & Hcur' & Hin'); [done|done| |].
  { intros σ Hσ. rewrite length_app in Hσ. cbn in Hσ. rewrite bump_far; [apply Hb; lia|]. intros ->. rewrite length_app in Hσ. cbn in Hσ. lia. }
  replace (length (π ++ [f])) with (S (length π)) in E by (rewrite length_app; cbn; lia).
  exists w', P'. split_and!; [done..|by rewrite <-app_assoc in Hcur'|]. intros σ. rewrite Hin', Hin1.
  replace (π ++ f :: fs) with ((π ++ [f]) ++ fs) by by rewrite <-app_assoc. rewrite (prefix_step π f fs σ). tauto.
Qed.

(** *** A whole sample *)
Record counted (rows : list Row) (st : list CallTreeNode * gmap (nat * Z) nat) (P : list (list Z)) : Prop := {
  co_represents : represents P (under rows) (at_leaf rows) st.1 st.2;
  co_paths σ : σ ∈ P ↔ σ = [] ∨ ∃ r, r ∈ rows ∧ σ `prefix_of` r.1
}.

Definition row_of (inverted : bool) (weight : StackWeight) (s : ProfileSample) : Row :=
  (if inverted then reverse (stack s) else stack s, weight_of weight s).

Lemma row_bounds rows π : Forall (λ r, 0 ≤ r.2) rows → 0 ≤ at_leaf rows π ≤ under rows π ∧ under rows π ≤ total rows.
Proof.
  induction 1 as [|r rows Hr _ IH]; [done|]. unfold at_leaf, under, total in *. cbn.
  destruct (decide (π = r.1)) as [->|Hne].
  - rewrite !bool_decide_true by done. lia.
  - rewrite (bool_decide_false (π = r.1)) by done. case_bool_decide; lia.
Qed.

Lemma add_sample_spec rows st P inverted weight s :
  counted rows st P → Forall (λ r, 0 ≤ r.2) rows → 0 < weight_of weight s → total rows + weight_of weight s ≤ u64_max →
  ∃ st' P', add_sample labels inverted weight st s = Done st' ∧ counted (rows ++ [row_of inverted weight s]) st' P'.
Proof.
  intros [Hr Hp] Hnn Hpos Hmax. unfold add_sample. set (v := weight_of weight s) in *. set (fs := if inverted then _ else _).
  rewrite (proj2 (Z.eqb_neq v 0)) by lia. pose proof (λ π, row_bounds rows π Hnn) as Hb.
  destruct (update_inclusive P _ _ _ _ 0 [] v Hr (re_root _ _ _ _ _ Hr)) as (ns & -> & Hr1). { destruct (Hb []). lia. }
  cbn. destruct (walk_frames_spec fs P _ _ (mkWalk ns st.2 0) [] v Hr1) as (w & P' & Ew & Hr2 & Hcur & Hin).
  { apply (re_root _ _ _ _ _ Hr). }
  { intros σ Hσ. rewrite bump_far by (intros ->; cbn in Hσ; lia). destruct (Hb σ). lia. }
  cbn [length] in Ew. rewrite Ew. cbn [app] in Hcur. cbn. destruct (update_self P' _ _ _ _ _ fs v Hr2 Hcur) as (ns' & -> & Hr3). { destruct (Hb fs). lia. }
  cbn. exists (ns', child_lookup w), P'. split; [done|]. split; cbn [fst snd].
  - eapply represents_ext; [..|exact Hr3].
    + intros π. rewrite walked_stack, under_snoc. done.
    + intros π. rewrite at_leaf_snoc. unfold bump, row_of. cbn. fold fs v. case_bool_decide; lia.
  - intros σ. rewrite Hin, Hp. cbn [app]. split.
    + intros [[->|(r & Hr' & Hσ)]|(_ & _ & Hσ)]; [by left|right; exists r; set_solver|right]. exists (row_of inverted weight s). set_solver.
    + intros [->|(r & [Hr'| ->%list_elem_of_singleton]%elem_of_app & Hσ)]; [by left; left|left; right; by exists r|].
      destruct (decide (σ = [])) as [->|Hne]; [by left; left|]. right. split_and!; [apply prefix_nil|done|done].
Qed.

Definition rows_of (inverted : bool) (weight : StackWeight) (samples : list ProfileSample) : list Row :=
  row_of inverted weight <$> List.filter (λ s, negb (weight_of weight s =? 0)) samples.

Lemma weight_nonneg weight s : 0 ≤ weight_of weight s.
Proof.
  destruct weight as [|i]; cbn; [lia|]. destruct (counter_at s i) as [v|]; [|lia]. case_match; [|lia].
  unfold f64_as_u64. destruct v as [[]|[]| |[] m e]; try (rewrite ?u64_max_val; lia). pose proof u64_max_val.
  assert (0 ≤ Z.shiftl (Zpos m) e) by (apply Z.shiftl_nonneg; lia). lia.
Qed.

Lemma rows_nonneg inverted weight samples : Forall (λ r, 0 ≤ r.2) (row_of inverted weight <$> samples).
Proof. apply Forall_fmap, Forall_forall. intros x _. apply weight_nonneg. Qed.

Lemma total_nonneg rows : Forall (λ r, 0 ≤ r.2) rows → 0 ≤ total rows.
Proof. intros H. destruct (row_bounds rows [] H). lia. Qed.

Lemma add_samples_spec inverted weight samples rows st P :
  counted rows st P → Forall (λ r, 0 ≤ r.2) rows → total rows + total (rows_of inverted weight samples) ≤ u64_max →
  ∃ st' P', fold_outcome (add_sample labels inverted weight) samples st = Done st' ∧
    counted (rows ++ rows_of inverted weight samples) st' P'.
Proof.
  revert rows st P. induction samples as [|s samples IH]; intros rows st P Hc Hnn Hmax; cbn [fold_outcome].
  { exists st, P. split; [done|]. by rewrite app_nil_r. }
  pose proof (weight_nonneg weight s) as Hw. unfold rows_of in *. cbn [List.filter] in *.
  destruct (Z.eqb_spec (weight_of weight s) 0) as [Hz|Hnz]; cbn [negb] in *.
  - unfold add_sample at 1. rewrite (proj2 (Z.eqb_eq _ 0)) by done. cbn. by apply IH with (P := P).
  - rewrite fmap_cons in Hmax |- *. unfold total in Hmax at 2. cbn [foldr] in Hmax. cbn [row_of snd] in Hmax.
    fold (total (row_of inverted weight <$> List.filter (λ s, negb (weight_of weight s =? 0)) samples)) in Hmax.
    assert (0 ≤ total (row_of inverted weight <$> List.filter (λ s, negb (weight_of weight s =? 0)) samples)).
    { apply total_nonneg, rows_nonneg. }
    destruct (add_sample_spec rows st P inverted weight s Hc Hnn) as (st1 & P1 & -> & Hc1); [lia|lia|]. cbn.
    destruct (IH (rows ++ [row_of inverted weight s]) st1 P1 Hc1) as (st2 & P2 & E & Hc2).
    + apply Forall_app. split; [done|]. repeat constructor. done.
    + rewrite total_snoc. cbn [row_of snd]. lia.
    + exists st2, P2. split; [done|]. by rewrite <-app_assoc in Hc2.
Qed.
End labels.
End Represents.

(** ** The finished tree *)
Module Tree.
Import Weights Represents.

Lemma contains_total m p th t : ∃ b, RegionIntervals.contains m p th t = Done b.
Proof.
  unfold RegionIntervals.contains. destruct (m !! (p, th)) as [rs|]; [|by exists false].
  destruct (Ranges.partition_split (λ r, start_ns r <=? t) rs) as (a & b & -> & -> & _).
  case_bool_decide as Ha; [by exists false|]. assert (length a - 1 < length (a ++ b))%nat as [r ->]%lookup_lt_is_Some; [|by eexists].
  rewrite length_app. lia.
Qed.

Lemma accepted_total f samples : ∃ acc, accepted f samples = Done acc.
Proof.
  induction samples as [|s samples [acc IH]]; cbn [accepted]; [by exists []|].
  assert (∃ m, matches f s = Done m) as [m ->].
  { unfold matches, matches_without_time, in_regions. case_match; [by eexists|]. destruct (f_regions f) as [m|]; [|by eexists].
    destruct (contains_total m (process_id s) (thread_id s) (timestamp_ns s)) as [b ->]. by eexists. }
  cbn. rewrite IH. by eexists.
Qed.

Lemma rows_perm inverted weight a b : a ≡ₚ b → rows_of inverted weight a ≡ₚ rows_of inverted weight b.
Proof. intros H. unfold rows_of. apply fmap_Permutation. by apply filter_perm. Qed.

Lemma under_perm a b π : a ≡ₚ b → under a π = under b π.
Proof. unfold under. induction 1; cbn; lia. Qed.
Lemma at_leaf_perm a b π : a ≡ₚ b → at_leaf a π = at_leaf b π.
Proof. unfold at_leaf. induction 1; cbn; lia. Qed.
Lemma total_perm a b : a ≡ₚ b → total a = total b.
Proof. unfold total. induction 1; cbn; lia. Qed.

(** The finished tree: the nodes are the paths of the samples, with siblings in order. *)
Record exact (labels : gmap Z (list Z)) (rows : list Row) (ns : list CallTreeNode) (P : list (list Z)) : Prop := {
  ex_length : length P = length ns;
  ex_nodup : NoDup P;
  ex_paths σ : σ ∈ P ↔ σ = [] ∨ ∃ r, r ∈ rows ∧ σ `prefix_of` r.1;
  ex_nodes i n π : ns !! i = Some n → P !! i = Some π →
    node_at labels P i n π ∧ inclusive_samples n = under rows π ∧ self_samples n = at_leaf rows π ∧
    Sorted (node_le ns) (children n)
}.

Lemma child_le_total a b : child_le a b ∨ child_le b a.
Proof.
  unfold child_le. destruct (Z.lt_trichotomy (inclusive_samples a) (inclusive_samples b)) as [?|[?|?]]; [right; by left| |left; by left].
  destruct (decide (label a = label b)) as [Hl|Hl].
  - destruct (Z.le_total (default (-1) (frame_id a)) (default (-1) (frame_id b))); [left|right]; right; auto.
  - destruct (lex_le_total (label a) (label b)); [left|right]; right; auto.
Qed.

Lemma node_le_same ns ns' i j : (λ n, with_children [] n) <$> ns = (λ n, with_children [] n) <$> ns' → node_le ns i j → node_le ns' i j.
Proof.
  intros H. unfold node_le. assert (Hk : ∀ k, (λ n, with_children [] n) <$> ns !! k = (λ n, with_children [] n) <$> ns' !! k).
  { intros k. rewrite <-!list_lookup_fmap. by rewrite H. }
  pose proof (Hk i) as Hi. pose proof (Hk j) as Hj. destruct (ns !! i) as [a|], (ns' !! i) as [a'|]; try done.
  destruct (ns !! j) as [b|], (ns' !! j) as [b'|]; try done. cbn in Hi, Hj. injection Hi as _ Ha1 Ha2 _ _ Ha3 _. injection Hj as _ Hb1 Hb2 _ _ Hb3 _.
  unfold child_le. by rewrite Ha1, Ha2, Ha3, Hb1, Hb2, Hb3.
Qed.

Lemma sort_children_exact labels rows ns lk P : counted labels rows (ns, lk) P → exact labels rows (sort_children ns) P.
Proof.
  intros [Hr Hp]. cbn [fst snd] in Hr. split.
  - unfold sort_children. rewrite length_fmap. apply Hr.
  - apply Hr.
  - done.
  - intros i n π Hi Hπ. unfold sort_children in Hi. apply list_lookup_fmap_Some in Hi as (m & -> & Hm).
    destruct (re_nodes _ _ _ _ _ _ Hr i m π Hm Hπ) as ([H1 H2 H3 H4 H5] & HW & HL). split_and!; [split; cbn; [done..| |]|done..|].
    + by rewrite merge_sort_Permutation.
    + intros c. by rewrite merge_sort_Permutation.
    + cbn [children with_children]. assert (Total (node_le ns)).
      { intros x y. unfold node_le. destruct (ns !! x), (ns !! y); auto. apply child_le_total. }
      eapply Sorted_ind with (R := node_le ns) (l := merge_sort (node_le ns) (children m)); [constructor| |apply Sorted_merge_sort; apply _].
      intros x l _ IH Hd. constructor; [done|]. destruct Hd; constructor. eapply node_le_same; [|done].
      unfold sort_children. rewrite <-list_fmap_compose. apply list_fmap_ext. done.
Qed.
(** The body of the theorem below. *)
Lemma tree_spec (frames : list (Z * list Z)) (samples : list ProfileSample) (filter : SampleFilter)
    (inverted : bool) (weight : StackWeight) (acc : list ProfileSample) :
  accepted filter samples = Done acc →
  let rows := rows_of inverted weight acc in
  total rows ≤ u64_max →
  ∃ t P, build_weighted frames samples filter inverted weight = Done t ∧
    root t = 0%nat ∧ total_samples t = total rows ∧ exact (frame_labels frames) rows (nodes t) P.
Proof.
  intros Hacc rows Hmax. unfold build_weighted. rewrite Hacc. cbn. set (sorted := merge_sort sample_le acc).
  assert (Hperm : rows_of inverted weight sorted ≡ₚ rows) by (apply rows_perm, merge_sort_Permutation).
  destruct (add_samples_spec (frame_labels frames) inverted weight sorted [] ([root_node], ∅) [[]]) as ([ns lk] & P & -> & Hc).
  - split; [|intros σ; rewrite list_elem_of_singleton; split; [by left|by intros [?|(? & []%elem_of_nil & _)]]].
    apply represents_start.
  - constructor.
  - rewrite (total_perm _ _ Hperm). done.
  - cbn. cbn [app] in Hc.
    assert (Hc' : counted (frame_labels frames) rows (ns, lk) P).
    { destruct Hc as [Hr Hp]. split.
      - eapply represents_ext; [..|exact Hr]; intros π; [by apply under_perm|by apply at_leaf_perm].
      - intros σ. rewrite Hp. by setoid_rewrite Hperm. }
    pose proof (sort_children_exact _ _ _ _ _ Hc') as He.
    assert (HP0 : P !! 0%nat = Some []) by apply Hc'.
    assert (∃ r, sort_children ns !! 0%nat = Some r) as [r Hr].
    { apply lookup_lt_is_Some. rewrite <-(ex_length _ _ _ _ He). by eapply lookup_lt_Some. }
    rewrite Hr. cbn. eexists _, P. split; [done|]. cbn. split_and!; [done| |done].
    destruct (ex_nodes _ _ _ _ He 0%nat r [] Hr HP0) as (_ & -> & _). apply under_nil.
Qed.
End Tree.

(** C22: the call tree is exact.  Its nodes are the paths that the accepted samples of non-zero
    weight take, each once, linked to the node of the path without the last frame; a node's
    inclusive weight is the sum over the samples that go through its path, its self weight the
    sum over those that end there, and siblings are in order.  This holds for both directions
    of the stacks and both kinds of weight, as long as the total fits 64 bits. *)
Theorem call_tree_exact (frames : list (Z * list Z)) (samples : list ProfileSample) (filter : SampleFilter)
    (inverted : bool) (weight : StackWeight) (acc : list ProfileSample) :
  accepted filter samples = Done acc →
  let rows := Represents.rows_of inverted weight acc in
  Weights.total rows ≤ u64_max →
  ∃ t P, build_weighted frames samples filter inverted weight = Done t ∧
    root t = 0%nat ∧ total_samples t = Weights.total rows ∧ Tree.exact (frame_labels frames) rows (nodes t) P.
Proof. apply Tree.tree_spec. Qed.

(** ** The layout *)
Module Layout.
Import Weights Represents Tree.

Section layout.
Context (labels : gmap Z (list Z)) (rows : list Row) (ns : list CallTreeNode) (P : list (list Z)).
Context (He : exact labels rows ns P) (Hpos : Forall (λ r, 0 < r.2) rows).

Lemma node_for_path i π : P !! i = Some π → ∃ n, ns !! i = Some n.
Proof. intros H. apply lookup_lt_is_Some. rewrite <-(ex_length _ _ _ _ He). by eapply lookup_lt_Some. Qed.

(** A node of depth [d] has at least [d] predecessors. *)
Lemma depth_le_index i π : P !! i = Some π → (length π ≤ i)%nat.
Proof.
  revert π. induction (lt_wf i) as [i _ IH]. intros π Hi. destruct (node_for_path i π Hi) as [n Hn].
  destruct (ex_nodes _ _ _ _ He i n π Hn Hi) as ([_ _ H3 _ _] & _).
  destruct H3 as [(_ & _ & _ & -> & _)|(p & f & π' & _ & _ & _ & Hp & Hπ' & ->)]; [cbn; lia|].
  specialize (IH p Hp π' Hπ'). rewrite length_app. cbn. lia.
Qed.

(** *** The path to the focus *)
Definition prefixes (π : list Z) : list (list Z) := (λ k, take k π) <$> seq 0 (S (length π)).

Lemma prefixes_snoc π f : prefixes (π ++ [f]) = prefixes π ++ [π ++ [f]].
Proof.
  unfold prefixes. rewrite length_app. cbn [length]. rewrite Nat.add_1_r, (seq_S (S (length π))), fmap_app. cbn [fmap list_fmap]. f_equal.
  - apply list_fmap_ext. intros k x [-> Hk]%lookup_seq. cbn. rewrite take_app_le by lia. done.
  - rewrite firstn_all2; [done|]. rewrite length_app. cbn. lia.
Qed.

#[local] Arguments prefixes : simpl never.

Lemma ancestors_spec fuel i π : P !! i = Some π → (length π < fuel)%nat →
  ∃ ids, ancestors fuel ns (Some i) = Done ids ∧ Forall2 (λ j σ, P !! j = Some σ) (reverse ids) (prefixes π).
Proof.
  revert i π. induction fuel as [|fuel IH]; intros i π Hi Hf; [lia|]. cbn [ancestors].
  destruct (node_for_path i π Hi) as [n Hn]. rewrite Hn. cbn. destruct (ex_nodes _ _ _ _ He i n π Hn Hi) as ([_ _ H3 _ _] & _).
  destruct H3 as [(-> & _ & _ & -> & _)|(p & f & π' & -> & _ & _ & Hp & Hπ' & ->)].
  - exists [i]. split; [destruct fuel; done|]. repeat constructor. done.
  - rewrite length_app in Hf. cbn in Hf. destruct (IH p π' Hπ') as (ids & -> & Hids); [lia|]. cbn. eexists. split; [done|].
    rewrite reverse_cons, prefixes_snoc. apply Forall2_app; [done|]. by repeat constructor.
Qed.

(** *** The icicles *)
Lemma weight_of_path i n π : ns !! i = Some n → P !! i = Some π → inclusive_samples n = 0 → π = [] ∧ P = [[]].
Proof.
  intros Hn Hi Hz. destruct (ex_nodes _ _ _ _ He i n π Hn Hi) as (_ & Hw & _). rewrite Hz in Hw.
  assert (Hno : ∀ r, r ∈ rows → ¬ π `prefix_of` r.1).
  { intros r Hr Hpre. clear -Hw Hpos Hr Hpre. induction rows as [|x rs IH]; [by apply elem_of_nil in Hr|].
    apply Forall_cons in Hpos as [Hx Hxs]. unfold under in Hw. cbn in Hw. fold (under rs π) in Hw.
    assert (0 ≤ under rs π). { destruct (row_bounds rs π); [|lia]. eapply Forall_impl; [exact Hxs|]. cbn. lia. }
    apply elem_of_cons in Hr as [->|Hr]; [rewrite bool_decide_true in Hw by done; lia|]. apply IH; [done| |done]. case_bool_decide; lia. }
  assert (rows = []) as Hrows.
  { destruct (proj1 (ex_paths _ _ _ _ He π) ltac:(by eapply list_elem_of_lookup_2)) as [->|(r & Hr & Hpre)]; [|by destruct (Hno r)].
    destruct rows as [|r rs]; [done|]. exfalso. apply (Hno r); [by left|apply prefix_nil]. }
  assert (Hall : ∀ σ, σ ∈ P → σ = []). { intros σ [?|(r & Hr & _)]%(ex_paths _ _ _ _ He); [done|]. rewrite Hrows in Hr. by apply elem_of_nil in Hr. }
  split; [apply Hall; by eapply list_elem_of_lookup_2|]. pose proof (ex_nodup _ _ _ _ He) as Hnd.
  destruct P as [|a [|b l]]; [done| |].
  - f_equal. apply Hall. by left.
  - exfalso. apply NoDup_cons in Hnd as [Hni _]. apply Hni. rewrite (Hall a), (Hall b) by set_solver. by left.
Qed.

(** What is drawn for a set of nodes given by their paths. *)
Definition drawn (shown : list Z → Prop) (base : nat) (d : nat) (new : list IcicleFrame) : Prop :=
  NoDup (ic_node <$> new) ∧ (∀ j, j ∈ ic_node <$> new ↔ ∃ σ, P !! j = Some σ ∧ shown σ) ∧
  ∀ fr σ, fr ∈ new → P !! ic_node fr = Some σ → (ic_depth fr + base = d + length σ)%nat.

Lemma drawn_app A B base d new1 new2 :
  drawn A base d new1 → drawn B base d new2 → (∀ σ, A σ → ¬ B σ) → drawn (λ σ, A σ ∨ B σ) base d (new1 ++ new2).
Proof.
  intros (Hn1 & Hi1 & Hd1) (Hn2 & Hi2 & Hd2) Hdis. split_and!.
  - rewrite fmap_app. apply NoDup_app. split_and!; [done| |done]. intros j (σ & Hj & Ha)%Hi1 (σ' & Hj' & Hb)%Hi2.
    rewrite Hj in Hj'. injection Hj' as <-. by apply (Hdis σ).
  - intros j. rewrite fmap_app, elem_of_app, Hi1, Hi2. split; [intros [(σ & ? & ?)|(σ & ? & ?)]; exists σ; auto|].
    intros (σ & ? & [?|?]); [left|right]; by exists σ.
  - intros fr σ [?|?]%elem_of_app; auto.
Qed.

(** The loop over children, for any way to draw a child. *)
Lemma draw_children (lay : nat → f64 → f64 → nat * list IcicleFrame → outcome (nat * list IcicleFrame)) width_of base d cs :
  NoDup cs →
  (∀ c x w st, c ∈ cs → ∃ σ md new, P !! c = Some σ ∧ lay c x w st = Done (md, st.2 ++ new) ∧ drawn (λ τ, σ `prefix_of` τ) base d new) →
  (∀ c c' σ σ' τ, c ∈ cs → c' ∈ cs → P !! c = Some σ → P !! c' = Some σ' → σ `prefix_of` τ → σ' `prefix_of` τ → c = c') →
  ∀ x st, ∃ x' md new,
    fold_outcome (λ '(child_x, st) child_id,
      c ← unwrap (ns !! child_id);
      st ← lay child_id child_x (width_of c) st;
      Done (f64_add child_x (width_of c), st)) cs (x, st) = Done (x', (md, st.2 ++ new)) ∧
    drawn (λ τ, ∃ c σ, c ∈ cs ∧ P !! c = Some σ ∧ σ `prefix_of` τ) base d new.
Proof.
  intros Hnd Hlay Hdis. induction cs as [|c cs IH]; intros x st; cbn [fold_outcome].
  { exists x, st.1, []. rewrite app_nil_r. split; [by destruct st|]. split_and!; [constructor| |by intros fr σ []%elem_of_nil].
    intros j. split; [by intros []%elem_of_nil|]. by intros (σ & _ & c & _ & []%elem_of_nil & _). }
  apply NoDup_cons in Hnd as [Hni Hnd]. destruct (Hlay c x f64_zero st ltac:(by left)) as (σ & _ & _ & Hc & _).
  destruct (node_for_path c σ Hc) as [n Hn]. rewrite Hn. cbn.
  destruct (Hlay c x (width_of n) st ltac:(by left)) as (σ' & md & new & Hc' & -> & Hdraw). rewrite Hc in Hc'. injection Hc' as <-. cbn.
  destruct (IH Hnd) with (x := f64_add x (width_of n)) (st := (md, st.2 ++ new)) as (x' & md' & new' & E & Hdraw').
  { intros c' x0 w0 st0 Hin. apply Hlay. by right. }
  { intros c1 c2 σ1 σ2 τ H1 H2. apply Hdis; by right. }
  exists x', md', (new ++ new'). cbn [snd] in E. rewrite E, app_assoc. split; [done|].
  destruct (drawn_app _ _ _ _ _ _ Hdraw Hdraw') as (Hn1 & Hi1 & Hd1).
  { intros τ Hτ (c' & σ'' & Hin & Hc' & Hτ'). apply Hni. rewrite (Hdis c c' σ σ'' τ); [done|by left|by right|done..]. }
  split_and!; [done| |done]. intros j. rewrite Hi1. split; intros (τ & Hj & H); exists τ; (split; [done|]).
  - destruct H as [H|(c' & σ' & Hin & H)]; [exists c, σ; set_solver|exists c', σ'; set_solver].
  - destruct H as (c' & σ' & [->|Hin]%elem_of_cons & Hc' & H); [rewrite Hc in Hc'; injection Hc' as <-; by left|right; by exists c', σ'].
Qed.

Lemma layout_node_spec fuel i π x width d st :
  P !! i = Some π → (length ns ≤ fuel + length π)%nat →
  ∃ md new, layout_node fuel ns i x width d st = Done (md, st.2 ++ new) ∧ drawn (λ σ, π `prefix_of` σ) (length π) d new.
Proof.
  revert i π x width d st. induction fuel as [|fuel IH]; intros i π x width d st Hi Hf.
  { pose proof (depth_le_index i π Hi). apply lookup_lt_Some in Hi. rewrite (ex_length _ _ _ _ He) in Hi. lia. }
  cbn [layout_node]. destruct (node_for_path i π Hi) as [n Hn]. rewrite Hn. cbn.
  destruct (ex_nodes _ _ _ _ He i n π Hn Hi) as ([_ _ _ Hcn Hcc] & _).
  set (fr := mkIcicle _ _ _ _ _ _ _ _).
  assert (Hself : drawn (λ σ, σ = π) (length π) d [fr]).
  { split_and!; [apply NoDup_singleton| |].
    - intros j. cbn. rewrite list_elem_of_singleton. split; [intros ->; by exists π|]. intros (σ & Hj & ->).
      eapply NoDup_lookup; [apply (ex_nodup _ _ _ _ He)|done|done].
    - intros fr' σ ->%list_elem_of_singleton. cbn. rewrite Hi. intros [= <-]. lia. }
  destruct (Z.eqb_spec (inclusive_samples n) 0) as [Hz|Hnz].
  { eexists _, [fr]. split; [done|]. destruct (weight_of_path i n π Hn Hi Hz) as [-> HP]. destruct Hself as (H1 & H2 & H3). split_and!; [done| |done].
    intros j. rewrite H2. split; intros (σ & Hj & H); exists σ; (split; [done|]); [apply prefix_nil|].
    rewrite HP in Hj. destruct j; cbn in Hj; [by injection Hj|done]. }
  edestruct (draw_children (λ c x w st, layout_node fuel ns c x w (S d) st)
    (λ c, f64_div (f64_mul width (u64_as_f64 (inclusive_samples c))) (u64_as_f64 (inclusive_samples n)))
    (length π) d (children n) Hcn) as (x' & md & new & E & Hdraw); [| |rewrite E].
  - intros c x0 w0 st0 [f Hc]%Hcc. destruct (IH c (π ++ [f]) x0 w0 (S d) st0 Hc) as (md & new & E & Hn1 & Hi1 & Hd1).
    { rewrite length_app. cbn. lia. }
    exists (π ++ [f]), md, new. split_and!; [done..|]. split_and!; [done..|]. intros fr' σ Hin Hσ. specialize (Hd1 fr' σ Hin Hσ).
    rewrite length_app in Hd1. cbn in Hd1. lia.
  - intros c c' σ σ' τ [f Hc]%Hcc [f' Hc']%Hcc Hσ Hσ' Hp Hp'. rewrite Hc in Hσ. injection Hσ as <-. rewrite Hc' in Hσ'. injection Hσ' as <-.
    destruct Hp as [a ->], Hp' as [b Hb]. rewrite <-!app_assoc in Hb. apply app_inv_head in Hb. injection Hb as <- _.
    eapply NoDup_lookup; [apply (ex_nodup _ _ _ _ He)|done|done].
  - cbn. eexists md, (fr :: new). cbn [snd]. rewrite <-app_assoc. split; [done|].
    destruct (drawn_app _ _ _ _ _ _ Hself Hdraw) as (H1 & H2 & H3).
    { intros τ -> (c & σ & [f Hc]%Hcc & Hσ & Hp). rewrite Hc in Hσ. injection Hσ as <-. apply prefix_length in Hp. rewrite length_app in Hp. cbn in Hp. lia. }
    split_and!; [done| |done]. intros j. change (fr :: new) with ([fr] ++ new). rewrite H2. split; intros (σ & Hj & H); exists σ; (split; [done|]).
    + destruct H as [->|(c & σ' & [f Hc]%Hcc & Hσ & Hp)]; [done|]. rewrite Hc in Hσ. injection Hσ as <-. etrans; [|done]. by apply prefix_app_r.
    + destruct H as [[|f τ] ->]; [left; by rewrite app_nil_r|right].
      assert (π ++ [f] ∈ P) as [c Hc]%list_elem_of_lookup.
      { apply (ex_paths _ _ _ _ He). right. destruct (proj1 (ex_paths _ _ _ _ He (π ++ f :: τ)) ltac:(by eapply list_elem_of_lookup_2)) as [Hnil|(r & Hr & Hpre)].
        - by destruct π.
        - exists r. split; [done|]. etrans; [|done]. exists τ. by rewrite <-app_assoc. }
      exists c, (π ++ [f]). split_and!; [apply Hcc; by exists f|done|]. exists τ. by rewrite <-app_assoc.
Qed.
End layout.
End Layout.

#[local] Arguments layout_node : simpl never.
#[local] Arguments f64_one : simpl never.
#[local] Arguments f64_zero : simpl never.

(** The icicle view of a call tree is total and shows what it should: for every focus (an
    invalid one means the root) the breadcrumb lists the nodes of the prefixes of its path from
    the root on, and, unless the tree is empty, the icicles are exactly the nodes whose path
    extends that of the focus, each once, at the row given by the difference of the depths. *)
Theorem icicles_exact (frames : list (Z * list Z)) (samples : list ProfileSample) (filter : SampleFilter)
    (inverted : bool) (weight : StackWeight) (acc : list ProfileSample) :
  accepted filter samples = Done acc →
  let rows := Represents.rows_of inverted weight acc in
  Weights.total rows ≤ u64_max →
  ∃ t P, build_weighted frames samples filter inverted weight = Done t ∧ Tree.exact (frame_labels frames) rows (nodes t) P ∧
    ∀ focus_node, ∃ layout π, icicle_layout t focus_node = Done layout ∧
      focus layout = match focus_node with
                     | Some i => if bool_decide (i < length (nodes t))%nat then i else O
                     | None => O
                     end ∧
      P !! focus layout = Some π ∧
      Forall2 (λ j σ, P !! j = Some σ) (path layout) (Layout.prefixes π) ∧
      layout_total layout = Weights.under rows π ∧
      (0 < Weights.under rows π → Layout.drawn P (λ σ, π `prefix_of` σ) (length π) 0 (icicles layout)) ∧
      (Weights.under rows π = 0 → icicles layout = []).
Proof.
  intros Hacc rows Hmax. destruct (Tree.tree_spec frames samples filter inverted weight acc Hacc Hmax) as (t & P & E & Hroot & _ & He).
  exists t, P. split_and!; [done..|]. fold rows in He. intros focus_node.
  assert (Hpos : Forall (λ r, 0 < r.2) rows).
  { apply Forall_fmap, Forall_forall. intros s [_ Hs]%list_elem_of_In%filter_In. cbn. pose proof (Represents.weight_nonneg weight s).
    apply negb_true_iff, Z.eqb_neq in Hs. lia. }
  unfold icicle_layout. rewrite Hroot. set (i := match focus_node with Some i => _ | None => _ end).
  assert (Hlen : (0 < length (nodes t))%nat).
  { rewrite <-(Tree.ex_length _ _ _ _ He). destruct P; cbn; [|lia]. assert ([] ∈ ([] : list (list Z))) as H by (apply (Tree.ex_paths _ _ _ _ He); by left).
    by apply elem_of_nil in H. }
  assert (Hi : (i < length (nodes t))%nat). { unfold i. destruct focus_node; [case_bool_decide|]; done. }
  assert (∃ π, P !! i = Some π) as [π Hπ]. { apply lookup_lt_is_Some. by rewrite (Tree.ex_length _ _ _ _ He). }
  destruct (lookup_lt_is_Some_2 _ _ Hi) as [n Hn]. rewrite Hn. cbn.
  destruct (Tree.ex_nodes _ _ _ _ He i n π Hn Hπ) as ([Hid _ _ _ _] & Hw & _).
  destruct (Layout.ancestors_spec _ _ _ _ He (length (nodes t)) i π Hπ) as (ids & Ea & Hids).
  { pose proof (Layout.depth_le_index _ _ _ _ He i π Hπ). lia. }
  assert (Hfp : focus_path t i = Done (reverse ids)). { unfold focus_path. rewrite Hn. cbn. by rewrite Hid, Ea. }
  destruct (Layout.layout_node_spec _ _ _ _ He Hpos (length (nodes t)) i π f64_zero f64_one 0 (0%nat, []) Hπ ltac:(lia)) as (md & new & El & Hd).
  destruct (Z.ltb_spec 0 (inclusive_samples n)); [rewrite El|]; cbn; rewrite Hfp; cbn; eexists _, π; (split; [done|]); cbn;
    rewrite <-Hw; (split_and!; [done..|lia || done|lia || done]).
Qed.

(** Three samples of two functions called from one. *)
Definition demo_samples : list ProfileSample :=
  [mkSample 1 1 1 None f64_one [1; 2; 3] []; mkSample 2 1 1 (Some 0) f64_one [1; 2] []; mkSample 3 1 1 None f64_one [1; 4] []].

Lemma call_tree_exact_witness :
  ∃ t P, build_weighted [] demo_samples no_filter false Samples = Done t ∧ total_samples t = 3 ∧
    Tree.exact (frame_labels []) (Represents.rows_of false Samples demo_samples) (nodes t) P.
Proof.
  destruct (call_tree_exact [] demo_samples no_filter false Samples demo_samples) as (t & P & E & _ & Ht & He).
  - reflexivity.
  - rewrite u64_max_val. cbn. lia.
  - exists t, P. split_and!; [done|by rewrite Ht|done].
Defined.

Lemma icicles_exact_witness :
  ∃ t (P : list (list Z)), build_weighted [] demo_samples no_filter true Samples = Done t ∧
    ∃ layout π, icicle_layout t (Some 1%nat) = Done layout ∧ P !! focus layout = Some π ∧
      Forall2 (λ j σ, P !! j = Some σ) (path layout) (Layout.prefixes π).
Proof.
  destruct (icicles_exact [] demo_samples no_filter true Samples demo_samples) as (t & P & E & _ & H).
  - reflexivity.
  - rewrite u64_max_val. cbn. lia.
  - exists t, P. split; [done|]. destruct (H (Some 1%nat)) as (l & π & El & _ & Hp & Hf & _).
    exists l, π. exact (conj El (conj Hp Hf)).
Defined.
