(* ===== verification/ProfileAnalysis.v ===== *)
(** * Density analyses of a profile

    The profile of [mperf-gui/src/profile.rs] and the integer analyses of
    [mperf-gui/src/profile_analysis.rs]: bin widths, the range of an analysis, the folded
    heatmap of sample density and migrations between processors.

    A frame is its number and its name; the error text and the other columns of frames are
    not used by the analyses. *)

From S2P Require Import Prelude Words Text Floats Regions CallTree.
From stdpp Require Import sorting.
Open Scope Z_scope.

(** ** Bin widths *)
Definition div_ceil (value divisor : Z) : Z :=
  if divisor =? 0 then u64_max
  else value / divisor + (if value mod divisor =? 0 then 0 else 1).

(** The loop to the power of ten; a turn multiplies by ten, so twenty turns exceed 64 bits. *)
Fixpoint magnitude_loop (fuel : nat) (minimum magnitude : Z) : outcome Z :=
  if magnitude <=? minimum / 10 then
    match fuel with
    | O => Panicked
    | S fuel =>
        let next := saturating_mul magnitude 10 in
        if next =? magnitude then Done magnitude else magnitude_loop fuel minimum next
    end
  else Done magnitude.

Definition first_multiple (minimum magnitude : Z) : option Z :=
  list_find (λ c, minimum ≤ c) (saturating_mul magnitude <$> [1; 2; 5; 10]) ≫= λ p, Some p.2.

Definition nice_bin_width (minimum : Z) : outcome Z :=
  let minimum := Z.max minimum 1 in
  magnitude ← magnitude_loop 20 minimum 1;
  Done (default u64_max (first_multiple minimum magnitude)).

Definition fold_period (duration_ns : Z) : outcome Z := nice_bin_width (Z.max (div_ceil duration_ns 60) 1).

(** ** The profile ([mperf-gui/src/profile.rs]) *)
Inductive CpuObservationSource := CounterDelta | SampledOccupancy | LegacyUnknown.

Record CpuObservation := mkObservation {
  ob_timestamp_ns : Z;
  ob_process_id : Z;
  ob_thread_id : Z;
  ob_cpu : option Z;
  interval_start_ns : option Z;
  ob_stack : list Z;
  weight_ns : Z;
  ob_source : CpuObservationSource
}.

Definition wall_interval_start_ns (o : CpuObservation) : option Z :=
  match ob_source o with
  | CounterDelta => interval_start_ns o
  | LegacyUnknown => Some (saturating_sub (ob_timestamp_ns o) (weight_ns o))
  | SampledOccupancy => None
  end.

Record CounterMetric := mkMetric { m_key : list Z; m_label : list Z }.

Record ProfileData := mkProfile {
  frames : list (Z * list Z);
  samples : list ProfileSample;
  cpu_observations : list CpuObservation;
  logical_cpu_count : option Z;
  counter_metrics : list CounterMetric;
  recording_range : option TimeRange
}.

Definition min_of (l : list Z) : option Z := match l with [] => None | x :: l => Some (foldl Z.min x l) end.
Definition max_of (l : list Z) : option Z := match l with [] => None | x :: l => Some (foldl Z.max x l) end.

Definition full_range (p : ProfileData) : option TimeRange :=
  match recording_range p with
  | Some r => Some r
  | None =>
      let points := (timestamp_ns <$> samples p) ++ (ob_timestamp_ns <$> cpu_observations p) in
      start ← min_of (points ++ omap wall_interval_start_ns (cpu_observations p));
      latest ← max_of points;
      Some (mkRange start (saturating_add latest 1))
  end.

Definition analysis_range (p : ProfileData) (f : SampleFilter) : option TimeRange :=
  full ← full_range p;
  let range := match f_range f with
               | Some r => mkRange (Z.max (start_ns full) (start_ns r)) (Z.min (end_ns full) (end_ns r))
               | None => full
               end in
  if start_ns range <? end_ns range then Some range else None.

(** ** The folded heatmap *)
Definition MIN_FOLD_BINS : Z := 12.

Record FlameScopeHeatmap := mkHeatmap {
  h_range : TimeRange;
  fold_ns : Z;
  bin_width_ns : Z;
  rows : Z;
  columns : Z;
  bins : list Z;
  h_total_samples : Z;
  max_samples : Z
}.

Definition in_time (r : TimeRange) (s : ProfileSample) : bool :=
  (start_ns r <=? timestamp_ns s) && (timestamp_ns s <? end_ns r).

(** [x.clamp(lo, hi)]. *)
Definition clamp (x lo hi : Z) : Z := Z.min (Z.max x lo) hi.

(** The cell of a sample: its bin is raised, if the index is in range. *)
Definition add_to_bin (r : TimeRange) (fold width columns : Z) (st : list Z * Z) (s : ProfileSample) : list Z * Z :=
  let '(bins, total) := st in
  if negb (in_time r s) then st
  else
    let relative := timestamp_ns s - start_ns r in
    let row := relative / fold in
    let column := (relative mod fold) / width in
    match index ← checked_mul row columns; index ← checked_add index column; n ← bins !! Z.to_nat index; Some (index, n) with
    | Some (index, n) => (<[Z.to_nat index := saturating_add n 1]> bins, saturating_add total 1)
    | None => st
    end.

Definition build_heatmap (p : ProfileData) (f : SampleFilter) (max_bins : Z) : outcome (option FlameScopeHeatmap) :=
  match analysis_range p f with
  | None => Done None
  | Some range =>
      let duration := saturating_sub (end_ns range) (start_ns range) in
      if duration =? 0 then Done None
      else
        fold ← fold_period duration;
        let rows := Z.max (div_ceil duration fold) 1 in
        acc ← accepted f (samples p);
        let count := Z.of_nat (length (List.filter (in_time range) acc)) in
        let cap := Z.max max_bins 1 in
        let target := clamp (count / rows / 2) (Z.min MIN_FOLD_BINS cap) cap in
        width ← nice_bin_width (div_ceil fold target);
        let width := Z.max (Z.min width fold) 1 in
        let columns := Z.max (div_ceil fold width) 1 in
        match checked_mul rows columns with
        | None => Done None
        | Some cells =>
            let '(bins, total) := foldl (add_to_bin range fold width columns) (replicate (Z.to_nat cells) 0, 0) acc in
            Done (Some (mkHeatmap range fold width rows columns bins total (default 0 (max_of bins))))
        end
  end.

Definition bin (h : FlameScopeHeatmap) (row column : Z) : option Z :=
  index ← checked_mul row (columns h);
  index ← checked_add index column;
  bins h !! Z.to_nat index.

(** ** Migrations *)

(** The order of pairs. *)
Definition edge_le (a b : Z * Z) : Prop := a.1 < b.1 ∨ a.1 = b.1 ∧ a.2 ≤ b.2.
#[export] Instance edge_le_dec a b : Decision (edge_le a b).
Proof. unfold edge_le. apply _. Defined.

(** [slice.windows(2)]. *)
Fixpoint pairs {A} (st : list A) : list (A * A) :=
  match st with
  | x :: (y :: _) as rest => (x, y) :: pairs rest
  | _ => []
  end.

Definition migrations (trail : option (list (Z * Z))) : Z :=
  match trail with
  | None => 0
  | Some trail =>
      let cpus := snd <$> merge_sort edge_le trail in
      Z.of_nat (length (List.filter (λ e, negb (e.1 =? e.2)) (pairs cpus)))
  end.
