(* ===== verification/ProfileAnalysisSpec.v ===== *)
(** * What the folded heatmap counts

    - [Module Bins]: bin widths are the least nice numbers; every sample has a cell. *)

From S2P Require Import Prelude Words Floats Regions CallTree CallTreeSpec ProfileAnalysis.
From stdpp Require Import sorting.
Open Scope Z_scope.

(** Numbers of list elements with a property. *)
Definition count_if {A} (p : A → bool) (l : list A) : Z := Z.of_nat (length (List.filter p l)).

Lemma count_if_snoc {A} (p : A → bool) l x : count_if p (l ++ [x]) = count_if p l + if p x then 1 else 0.
Proof. unfold count_if. rewrite List.filter_app, length_app. cbn. destruct (p x); cbn; lia. Qed.

Lemma count_if_bounds {A} (p : A → bool) l : 0 ≤ count_if p l ≤ Z.of_nat (length l).
Proof. unfold count_if. pose proof (List.filter_length_le p l). lia. Qed.

Lemma count_if_ext {A} (p q : A → bool) l : (∀ x, p x = q x) → count_if p l = count_if q l.
Proof. intros H. unfold count_if. by rewrite (List.filter_ext p q). Qed.

(** A left fold whose invariant speaks of the elements so far. *)
Lemma foldl_prefix {A St} (I : list A → St → Prop) (f : St → A → St) l s :
  I [] s → (∀ done x s, I done s → I (done ++ [x]) (f s x)) → I l (foldl f s l).
Proof.
  intros H0 Hstep. assert (G : ∀ l done s, I done s → I (done ++ l) (foldl f s l)).
  { clear -Hstep. induction l as [|x l IH]; intros done s H; [by rewrite app_nil_r|]. cbn.
    replace (done ++ x :: l) with ((done ++ [x]) ++ l) by by rewrite <-app_assoc. by apply IH, Hstep. }
  by apply (G l []).
Qed.

Module Bins.

(** ** Nice widths *)
Definition nice (w : Z) : Prop := ∃ c k, (c = 1 ∨ c = 2 ∨ c = 5) ∧ 0 ≤ k ∧ w = c * 10 ^ k.

Lemma pow10_step j : 0 ≤ j → 10 ^ (j + 1) = 10 * 10 ^ j.
Proof. intros H. rewrite Z.pow_add_r by lia. lia. Qed.

Lemma pow10_le j k : 0 ≤ j ≤ k → 10 ^ j ≤ 10 ^ k.
Proof. intros H. apply Z.pow_le_mono_r; lia. Qed.

Lemma pow10_19 : 10 ^ 19 = 10000000000000000000.
Proof. reflexivity. Qed.

(** The power of ten at or below a number. *)
Lemma magnitude_spec fuel m j :
  1 ≤ m ≤ u64_max → 0 ≤ j ≤ 19 → 10 ^ j ≤ m → 20 ≤ j + Z.of_nat fuel →
  ∃ k, magnitude_loop fuel m (10 ^ j) = Done (10 ^ k) ∧ 0 ≤ k ≤ 19 ∧ 10 ^ k ≤ m < 10 ^ (k + 1).
Proof.
  revert j. induction fuel as [|fuel IH]; intros j Hm Hj Hle Hf; [lia|]. cbn [magnitude_loop].
  pose proof pow10_19 as H19. pose proof u64_max_val as Hu. pose proof (pow10_le j 19 ltac:(lia)) as Hj19.
  pose proof (pow10_step j ltac:(lia)) as Hs. set (p := 10 ^ j) in *. set (q := 10 ^ (j + 1)) in *.
  pose proof (Z.div_mod m 10 ltac:(lia)) as Hdm. pose proof (Z.mod_pos_bound m 10 ltac:(lia)) as Hmb.
  destruct (Z.leb_spec p (m / 10)) as [Hgo|Hstop].
  - assert (Hq : q ≤ m) by (clearbody p q; lia).
    assert (Hj1 : j + 1 ≤ 19).
    { destruct (decide (j + 1 ≤ 19)); [done|]. exfalso. assert (p = 10 ^ 19) as Hp by (unfold p; f_equal; lia). clearbody p q; lia. }
    assert (Hp0 : 0 < p) by (apply Z.pow_pos_nonneg; lia).
    assert (E : saturating_mul p 10 = q) by (unfold saturating_mul; clearbody p q; lia).
    rewrite E, (proj2 (Z.eqb_neq _ _)) by (clearbody p q; lia). apply IH; [lia|lia|exact Hq|lia].
  - exists j. fold p q. split; [reflexivity|]. clearbody p q. lia.
Qed.

Lemma nice_bin_width_total m : m ≤ u64_max → ∃ w, nice_bin_width m = Done w ∧ Z.max m 1 ≤ w ≤ u64_max.
Proof.
  intros Hm. unfold nice_bin_width. destruct (magnitude_spec 20 (Z.max m 1) 0) as (k & E & _ & _).
  { rewrite u64_max_val in *. lia. } { lia. } { cbn. lia. } { lia. }
  change (10 ^ 0) with 1 in E. rewrite E. cbn [mbind outcome_bind]. eexists. split; [done|]. unfold first_multiple.
  destruct (list_find _ _) as [[i c]|] eqn:Ef; cbn.
  - apply list_find_Some in Ef as (Hi & Hc & _). split; [done|]. apply list_lookup_fmap_Some in Hi as (x & -> & _).
    unfold saturating_mul. lia.
  - rewrite u64_max_val in *. lia.
Qed.

(** The width is the least nice number at or above the minimum. *)
Lemma nice_bin_width_least m : 1 ≤ m ≤ 10 ^ 19 →
  ∃ w, nice_bin_width m = Done w ∧ nice w ∧ m ≤ w ∧ ∀ w', nice w' → m ≤ w' → w ≤ w'.
Proof.
  intros Hm. unfold nice_bin_width. replace (Z.max m 1) with m by lia. pose proof pow10_19 as H19. pose proof u64_max_val as Hu.
  destruct (magnitude_spec 20 m 0) as (k & E & Hk & Hlo & Hhi); [lia|lia|cbn; lia|lia|].
  change (10 ^ 0) with 1 in E. rewrite E. cbn [mbind outcome_bind].
  assert (Hk19 : 10 ^ (k + 1) ≤ 10 ^ 19 ∨ m = 10 ^ k).
  { destruct (decide (k ≤ 18)); [left; apply pow10_le; lia|right]. replace k with 19 in * by lia. lia. }
  pose proof (pow10_step k ltac:(lia)) as Hs.
  (* a nice number at or above [m] is 10^k times 1, 2, 5 or at least 10 *)
  assert (Hcmp : ∀ w', nice w' → m ≤ w' → w' = 10 ^ k ∨ w' = 2 * 10 ^ k ∨ w' = 5 * 10 ^ k ∨ 10 ^ (k + 1) ≤ w').
  { intros w' (c & k' & Hc & Hk' & ->) Hle. destruct (Z.lt_trichotomy k' k) as [Hlt|[->|Hgt]].
    - exfalso. pose proof (pow10_le (k' + 1) k ltac:(lia)). rewrite pow10_step in * by lia. lia.
    - destruct Hc as [->|[->| ->]]; lia.
    - right. right. right. pose proof (pow10_le (k + 1) k' ltac:(lia)). lia. }
  assert (Hnice : ∀ c, c = 1 ∨ c = 2 ∨ c = 5 → nice (c * 10 ^ k)) by (intros c Hc; exists c, k; split_and!; [done|lia|done]).
  assert (Hnext : nice (10 ^ (k + 1))) by (exists 1, (k + 1); split_and!; [by left|lia|lia]).
  set (p := 10 ^ k) in *. set (q := 10 ^ (k + 1)) in *. assert (0 < p) by (apply Z.pow_pos_nonneg; lia).
  unfold first_multiple. cbn [fmap list_fmap list_find]. unfold saturating_mul.
  destruct (decide (m ≤ Z.min (p * 1) u64_max)) as [H1|H1]; cbn.
  { eexists. split; [reflexivity|]. replace (Z.min (p * 1) u64_max) with (1 * p) by lia. split_and!; [by apply Hnice; left|lia|].
    intros w' Hw Hle. destruct (Hcmp w' Hw Hle); lia. }
  destruct (decide (m ≤ Z.min (p * 2) u64_max)) as [H2|H2]; cbn.
  { eexists. split; [reflexivity|]. replace (Z.min (p * 2) u64_max) with (2 * p) by lia. split_and!; [apply Hnice; auto|lia|].
    intros w' Hw Hle. destruct (Hcmp w' Hw Hle); lia. }
  destruct (decide (m ≤ Z.min (p * 5) u64_max)) as [H5|H5]; cbn.
  { eexists. split; [reflexivity|]. replace (Z.min (p * 5) u64_max) with (5 * p) by lia. split_and!; [apply Hnice; auto|lia|].
    intros w' Hw Hle. destruct (Hcmp w' Hw Hle); lia. }
  destruct (decide (m ≤ Z.min (p * 10) u64_max)) as [H10|H10]; cbn; [|lia].
  eexists. split; [reflexivity|]. replace (Z.min (p * 10) u64_max) with q by lia. split_and!; [done|lia|].
  intros w' Hw Hle. destruct (Hcmp w' Hw Hle); lia.
Qed.

(** ** Cells *)
Lemma div_ceil_spec a b : 0 ≤ a → 0 < b → a ≤ div_ceil a b * b ∧ 0 ≤ div_ceil a b ∧ (0 < a → 1 ≤ div_ceil a b).
Proof.
  intros Ha Hb. unfold div_ceil. rewrite (proj2 (Z.eqb_neq b 0)) by lia.
  pose proof (Z.div_mod a b ltac:(lia)). pose proof (Z.mod_pos_bound a b Hb). pose proof (Z.div_pos a b Ha Hb).
  destruct (Z.eqb_spec (a mod b) 0); split_and!; try nia.
Qed.

Section cells.
Context (r : TimeRange) (fold width rows columns cells : Z).
Context (Hfold : 0 < fold) (Hwidth : 0 < width) (Hrows : end_ns r - start_ns r ≤ rows * fold) (Hcols : fold ≤ columns * width).
Context (Hcells : rows * columns = cells) (Hmax : cells ≤ u64_max) (Hr0 : 0 < rows) (Hc0 : 0 < columns).

Definition row_of (s : ProfileSample) : Z := (timestamp_ns s - start_ns r) / fold.
Definition column_of (s : ProfileSample) : Z := ((timestamp_ns s - start_ns r) mod fold) / width.
Definition index_of (s : ProfileSample) : Z := row_of s * columns + column_of s.

Lemma cell_bounds s : in_time r s = true → 0 ≤ row_of s < rows ∧ 0 ≤ column_of s < columns.
Proof.
  intros [H1%Z.leb_le H2%Z.ltb_lt]%andb_true_iff. unfold row_of, column_of.
  set (rel := timestamp_ns s - start_ns r) in *. assert (0 ≤ rel < rows * fold) by lia.
  pose proof (Z.mod_pos_bound rel fold Hfold). split; split.
  - apply Z.div_pos; lia.
  - apply Z.div_lt_upper_bound; lia.
  - apply Z.div_pos; lia.
  - apply Z.div_lt_upper_bound; lia.
Qed.

Lemma index_bounds s : in_time r s = true → 0 ≤ index_of s < cells.
Proof. intros H. destruct (cell_bounds s H). unfold index_of. nia. Qed.

Lemma index_cell s row column : in_time r s = true → 0 ≤ row → 0 ≤ column < columns →
  index_of s = row * columns + column ↔ row_of s = row ∧ column_of s = column.
Proof.
  intros H Hr Hc. destruct (cell_bounds s H) as [? ?]. unfold index_of. split; [|by intros [-> ->]].
  intros E. assert (row_of s = row); [|split; [done|nia]].
  destruct (Z.lt_trichotomy (row_of s) row) as [?|[?|?]]; [|done|]; exfalso; nia.
Qed.

(** The bins count the samples of their cells. *)
Definition in_bin (i : Z) (s : ProfileSample) : bool := in_time r s && (index_of s =? i).

Lemma bins_spec acc :
  Z.of_nat (length acc) ≤ u64_max →
  let st := foldl (add_to_bin r fold width columns) (replicate (Z.to_nat cells) 0, 0) acc in
  length st.1 = Z.to_nat cells ∧ (∀ i, 0 ≤ i < cells → st.1 !! Z.to_nat i = Some (count_if (in_bin i) acc)) ∧
  st.2 = count_if (in_time r) acc.
Proof.
  intros Hlen. apply (foldl_prefix (λ done st, Z.of_nat (length done) ≤ u64_max →
    length st.1 = Z.to_nat cells ∧ (∀ i, 0 ≤ i < cells → st.1 !! Z.to_nat i = Some (count_if (in_bin i) done)) ∧
    st.2 = count_if (in_time r) done)); [| |done].
  - intros _. cbn. split_and!; [apply length_replicate| |done]. intros i Hi. apply lookup_replicate. split; [done|lia].
  - intros done s [bins total] IH Hd. rewrite length_app in Hd. cbn in Hd. destruct (IH ltac:(lia)) as (Hl & Hb & Ht). cbn [fst snd] in *.
    unfold add_to_bin. rewrite count_if_snoc. destruct (in_time r s) eqn:Es; cbn [negb].
    + pose proof (index_bounds s Es) as Hi. destruct (cell_bounds s Es) as [Hrow Hcol].
      fold (row_of s) (column_of s). unfold checked_mul. rewrite (proj2 (Z.leb_le _ _)) by nia. cbn. unfold checked_add.
      fold (index_of s). rewrite (proj2 (Z.leb_le _ _)) by lia. cbn. rewrite (Hb _ Hi). cbn [mbind option_bind fst snd].
      pose proof (count_if_bounds (in_bin (index_of s)) done). pose proof (count_if_bounds (in_time r) done).
      split_and!; [by rewrite length_insert| |rewrite Ht; word_lia].
      intros i Hi'. rewrite count_if_snoc.
      replace (in_bin i s) with (index_of s =? i) by (unfold in_bin; by rewrite Es). destruct (Z.eqb_spec (index_of s) i) as [<-|Hne].
      * rewrite list_lookup_insert_eq by lia. f_equal. word_lia.
      * rewrite list_lookup_insert_ne by lia. rewrite (Hb i Hi'). f_equal. lia.
    + cbn [fst snd]. rewrite Z.add_0_r. split_and!; [done| |done]. intros i Hi'. rewrite count_if_snoc.
      replace (in_bin i s) with false by (unfold in_bin; by rewrite Es). rewrite (Hb i Hi'). f_equal. lia.
Qed.
End cells.

(** The cell of a sample, by row and column. *)
Definition in_cell (r : TimeRange) (fold width row column : Z) (s : ProfileSample) : bool :=
  in_time r s && (row_of r fold s =? row) && (column_of r fold width s =? column).

Lemma fold_period_spec d : 0 < d ≤ u64_max →
  ∃ fold, fold_period d = Done fold ∧ 0 < fold ≤ u64_max ∧ 1 ≤ div_ceil d fold ≤ 60.
Proof.
  intros Hd. unfold fold_period.
  destruct (div_ceil_spec d 60 ltac:(lia) ltac:(lia)) as (H1 & H2 & H3).
  assert (Hle : div_ceil d 60 ≤ d).
  { unfold div_ceil. cbn [Z.eqb]. pose proof (Z.div_mod d 60 ltac:(lia)). pose proof (Z.mod_pos_bound d 60 ltac:(lia)).
    destruct (Z.eqb_spec (d mod 60) 0); lia. }
  destruct (nice_bin_width_total (Z.max (div_ceil d 60) 1)) as (w & Ew & Hw); [lia|].
  exists w. rewrite Ew. split_and!; [done|lia|lia|apply (div_ceil_spec d w); lia|].
  unfold div_ceil. rewrite (proj2 (Z.eqb_neq w 0)) by lia.
  pose proof (Z.div_mod d w ltac:(lia)). pose proof (Z.mod_pos_bound d w ltac:(lia)).
  destruct (Z.eqb_spec (d mod w) 0); nia.
Qed.

(** With bins no narrower than a share of the period, there are no more bins than shares. *)
Lemma columns_bound fold target : 0 < fold ≤ u64_max → 0 < target →
  ∃ w, nice_bin_width (div_ceil fold target) = Done w ∧
    let width := Z.max (Z.min w fold) 1 in 0 < width ∧ 1 ≤ div_ceil fold width ≤ target.
Proof.
  intros Hf Ht. destruct (div_ceil_spec fold target ltac:(lia) Ht) as (H1 & H2 & H3).
  assert (Hle : div_ceil fold target ≤ fold).
  { unfold div_ceil. rewrite (proj2 (Z.eqb_neq target 0)) by lia. pose proof (Z.div_mod fold target ltac:(lia)).
    pose proof (Z.mod_pos_bound fold target ltac:(lia)). pose proof (Z.div_pos fold target ltac:(lia) Ht).
    destruct (Z.eqb_spec (fold mod target) 0); nia. }
  destruct (nice_bin_width_total (div_ceil fold target)) as (w & Ew & Hw); [lia|].
  exists w. split; [done|]. cbv zeta. set (width := Z.max (Z.min w fold) 1).
  assert (Hwd : 0 < width ∧ fold ≤ target * width ∧ width ≤ fold) by (unfold width; nia). clearbody width.
  split; [lia|]. split; [apply (div_ceil_spec fold width); lia|].
  unfold div_ceil. rewrite (proj2 (Z.eqb_neq width 0)) by lia.
  pose proof (Z.div_mod fold width ltac:(lia)). pose proof (Z.mod_pos_bound fold width ltac:(lia)).
  destruct (Z.eqb_spec (fold mod width) 0); nia.
Qed.

Lemma max_of_spec l m : max_of l = Some m → m ∈ l ∧ ∀ x, x ∈ l → x ≤ m.
Proof.
  destruct l as [|x l]; [done|]. intros [= <-]. revert x. induction l as [|y l IH]; intros x; cbn.
  - split; [set_solver|]. intros z Hz. apply list_elem_of_singleton in Hz. lia.
  - destruct (IH (Z.max x y)) as [Hin Hle]. split.
    + apply elem_of_cons in Hin as [Hin|Hin]; [|set_solver]. destruct (Z.max_spec x y) as [[_ E]|[_ E]]; rewrite Hin, E; set_solver.
    + pose proof (Hle (Z.max x y) ltac:(set_solver)). intros z [->|[->|Hz]%elem_of_cons]%elem_of_cons; [lia|lia|].
      apply Hle. set_solver.
Qed.

Lemma accepted_length f l acc : accepted f l = Done acc → (length acc ≤ length l)%nat.
Proof.
  revert acc. induction l as [|s l IH]; intros acc; cbn [accepted]; [by intros [= <-]|].
  destruct (matches f s) as [m|]; [|done]. cbn. destruct (accepted f l) as [rest|]; [|done]. cbn.
  pose proof (IH rest eq_refl). intros [= <-]. destruct m; cbn; lia.
Qed.

Lemma bin_count r fold width rws cols cells acc total mx b row column :
  0 < fold → 0 < width → end_ns r - start_ns r ≤ rws * fold → fold ≤ cols * width →
  rws * cols = cells → cells ≤ u64_max → 0 < rws → 0 < cols →
  (∀ i, 0 ≤ i < cells → b !! Z.to_nat i = Some (count_if (in_bin r fold width cols i) acc)) →
  0 ≤ row < rws → 0 ≤ column < cols →
  bin (mkHeatmap r fold width rws cols b total mx) row column = Some (count_if (in_cell r fold width row column) acc).
Proof.
  intros Hf Hw Hr Hc He Hm Hr0 Hc0 Hb Hrow Hcol. unfold bin. cbn [columns bins].
  assert (Hi : 0 ≤ row * cols + column < cells) by nia. unfold checked_mul. rewrite (proj2 (Z.leb_le _ _)) by nia. cbn.
  unfold checked_add. rewrite (proj2 (Z.leb_le _ _)) by lia. cbn. rewrite (Hb _ Hi). f_equal. apply count_if_ext.
  intros s. unfold in_bin, in_cell. destruct (in_time r s) eqn:Es; [|done]. cbn [andb]. apply eq_bool_prop_intro.
  pose proof (index_cell r fold width rws cols Hf Hw Hr Hc Hr0 Hc0 s row column Es ltac:(lia) ltac:(lia)) as Hcell.
  rewrite !Is_true_true, andb_true_iff, !Z.eqb_eq. exact Hcell.
Qed.
End Bins.

(** The folded heatmap of a profile is built whenever its analysis has a range and the
    limit on columns fits: it has at most sixty rows and at most as many columns as asked
    for, each bin holds the number of accepted samples whose time falls in its cell, the
    total is the number of accepted samples in the range, so no sample is dropped, and the
    maximum is the fullest bin. *)
Theorem heatmap_exact (p : ProfileData) (f : SampleFilter) (max_bins : Z) (r : TimeRange) :
  analysis_range p f = Some r → 0 ≤ start_ns r → end_ns r ≤ u64_max →
  0 ≤ max_bins → 60 * max_bins ≤ u64_max → Z.of_nat (length (samples p)) ≤ u64_max →
  ∃ acc h, accepted f (samples p) = Done acc ∧ build_heatmap p f max_bins = Done (Some h) ∧
    h_range h = r ∧ 1 ≤ rows h ≤ 60 ∧ 1 ≤ columns h ≤ Z.max max_bins 1 ∧
    h_total_samples h = count_if (in_time r) acc ∧
    (∀ row column, 0 ≤ row < rows h → 0 ≤ column < columns h →
       bin h row column = Some (count_if (Bins.in_cell r (fold_ns h) (bin_width_ns h) row column) acc)) ∧
    max_samples h ∈ bins h ∧ (∀ n, n ∈ bins h → n ≤ max_samples h).
Proof.
  intros Hr Hs He Hm0 Hm Hlen. destruct (Tree.accepted_total f (samples p)) as [acc Ea]. pose proof (Bins.accepted_length _ _ _ Ea).
  assert (Hlt : start_ns r < end_ns r).
  { revert Hr. unfold analysis_range. destruct (full_range p) as [full|]; [|done]. cbn. case_match eqn:E; [|done].
    intros [= <-]. by apply Z.ltb_lt. }
  unfold build_heatmap. rewrite Hr, Ea. assert (Ed : saturating_sub (end_ns r) (start_ns r) = end_ns r - start_ns r) by word_lia.
  rewrite Ed, (proj2 (Z.eqb_neq _ _)) by lia. destruct (Bins.fold_period_spec (end_ns r - start_ns r)) as (fold & Ef & Hf & Hrows); [lia|].
  rewrite Ef. cbn [mbind outcome_bind].
  replace (Z.max (div_ceil (end_ns r - start_ns r) fold) 1) with (div_ceil (end_ns r - start_ns r) fold) by lia.
  set (rws := div_ceil (end_ns r - start_ns r) fold) in *. unfold clamp.
  set (target := Z.min _ (Z.max max_bins 1)).
  assert (Ht : 1 ≤ target ≤ Z.max max_bins 1) by (unfold target, MIN_FOLD_BINS; lia). clearbody target.
  destruct (Bins.columns_bound fold target) as (w & Ew & Hw & Hcols); [lia|lia|]. rewrite Ew. cbn [mbind outcome_bind].
  set (width := Z.max (Z.min w fold) 1) in *. replace (Z.max (div_ceil fold width) 1) with (div_ceil fold width) by lia.
  set (cols := div_ceil fold width) in *.
  assert (Hcells : rws * cols ≤ u64_max) by (rewrite u64_max_val in *; nia). unfold checked_mul. rewrite (proj2 (Z.leb_le _ _) Hcells).
  assert (Hcover : end_ns r - start_ns r ≤ rws * fold) by (apply Bins.div_ceil_spec; lia).
  assert (Hfill : fold ≤ cols * width) by (apply Bins.div_ceil_spec; lia). clearbody rws cols width.
  destruct (Bins.bins_spec r fold width rws cols (rws * cols) ltac:(lia) Hw Hcover Hfill eq_refl Hcells ltac:(lia) ltac:(lia) acc ltac:(lia)) as (Hl & Hb & Ht').
  destruct (foldl _ _ acc) as [b total]. cbn [fst snd] in *. assert (b ≠ []) as Hne by (destruct b; [cbn in Hl; nia|done]).
  destruct (max_of b) as [mx|] eqn:Emx; [|by destruct b].
  exists acc. eexists. split_and!; [done|reflexivity|..]; cbn [h_range rows columns h_total_samples fold_ns bin_width_ns bins max_samples];
    [done|lia|lia|lia|lia|done| |by apply Bins.max_of_spec|by apply Bins.max_of_spec].
  intros row column Hrow Hcol. apply (Bins.bin_count r fold width rws cols (rws * cols)); [lia|done..|lia|lia|exact Hb|done|done].
Qed.

Lemma heatmap_exact_witness :
  let s t := mkSample t 1 1 None (u64_as_f64 1) [7] [] in
  let p := mkProfile [] [s 100; s 130; s 130; s 219] [] None [] None in
  analysis_range p no_filter = Some (mkRange 100 220) ∧
  ∃ acc h, accepted no_filter (samples p) = Done acc ∧ build_heatmap p no_filter 24 = Done (Some h) ∧ h_total_samples h = count_if (in_time (mkRange 100 220)) acc.
Proof.
  intros s p. split; [reflexivity|].
  destruct (heatmap_exact p no_filter 24 (mkRange 100 220)) as (acc & h & Ha & Hh & _ & _ & _ & Ht & _);
    [reflexivity|cbn; lia|vm_compute; discriminate|lia|vm_compute; discriminate|vm_compute; discriminate|].
  exists acc, h. split; [exact Ha|]. split; [exact Hh|exact Ht].
Defined.

(** A recording of two minutes is folded by two seconds, not by one. *)
Lemma fold_period_exceeds_second : fold_period (120 * 10 ^ 9) = Done (2 * 10 ^ 9).
Proof. vm_compute. reflexivity. Qed.
