(* ===== verification/FunctionAnalysis.v ===== *)
(** * The function view of a profile

    [FunctionAnalysis] of [mperf-gui/src/profile_analysis.rs]: inclusive, self and call-edge
    counts of the accepted samples, the sums of their counters, the metrics derived from
    those, and the details of one function. *)

From S2P Require Import Prelude Words Text Floats Regions CallTree ProfileAnalysis.
From stdpp Require Import sorting.
Open Scope Z_scope.

(** ** Keys of counters *)
Definition is_ascii_alphanumeric (c : Z) : bool :=
  (48 <=? c) && (c <=? 57) || (65 <=? c) && (c <=? 90) || (97 <=? c) && (c <=? 122).

(** [char::to_lowercase] of an ASCII character. *)
Definition to_lowercase (c : Z) : Z := if (65 <=? c) && (c <=? 90) then c + 32 else c.

Definition normalized_metric_key (key : list Z) : list Z := to_lowercase <$> List.filter is_ascii_alphanumeric key.

Definition confidence_scaled_metric (key : list Z) : bool :=
  let key := normalized_metric_key key in
  str_contains (chars "llc") key || str_contains (chars "branch") key ||
  str_contains (chars "stalledcycles") key || str_contains (chars "cachemiss") key.

Definition find_metric (metrics : list CounterMetric) (candidates : list string) : option nat :=
  position (λ metric, let key := normalized_metric_key (m_key metric) in
    existsb (λ c, bool_decide (key = normalized_metric_key (chars c))) candidates) metrics.

Definition instructions_metric (metrics : list CounterMetric) : option nat :=
  find_metric metrics ["instructions"; "pmu_instructions"]%string.

Record MetricIndices := mkIndices {
  i_cpu_time : option nat;
  i_cycles : option nat;
  i_instructions : option nat;
  i_llc_misses : option nat;
  i_llc_references : option nat;
  i_backend_stalls : option nat;
  i_branch_misses : option nat
}.

Definition resolve (metrics : list CounterMetric) : MetricIndices :=
  mkIndices (find_metric metrics ["os_cpu_clock"; "cpu_clock"]%string)
    (find_metric metrics ["cycles"; "pmu_cycles"]%string)
    (find_metric metrics ["instructions"; "pmu_instructions"]%string)
    (find_metric metrics ["llc_misses"; "pmu_llc_misses"]%string)
    (find_metric metrics ["llc_references"; "pmu_llc_references"]%string)
    (find_metric metrics ["stalled_cycles_backend"; "pmu_stalled_cycles_backend"]%string)
    (find_metric metrics ["branch_misses"; "pmu_branch_misses"]%string).

(** ** Metrics *)
Record FunctionMetrics := mkMetrics {
  cpu_time_ns : option f64;
  cycles : option f64;
  instructions : option f64;
  ipc : option f64;
  llc_miss_rate : option f64;
  llc_mpki : option f64;
  backend_stall_fraction : option f64;
  branch_mpki : option f64
}.

Definition default_metrics : FunctionMetrics := mkMetrics None None None None None None None None.

Definition ratio (numerator denominator : option f64) : option f64 :=
  n ← numerator;
  d ← denominator;
  if f64_positive d then let q := f64_div n d in if f64_is_finite q then Some q else None else None.

Definition function_metrics (sums : option (list (option f64))) (indices : MetricIndices) : FunctionMetrics :=
  match sums with
  | None => default_metrics
  | Some sums =>
      let value index := i ← index; default None (sums !! i) in
      let cycles := value (i_cycles indices) in
      let instructions := value (i_instructions indices) in
      let llc_misses := value (i_llc_misses indices) in
      let llc_references := value (i_llc_references indices) in
      let backend_stalls := value (i_backend_stalls indices) in
      let branch_misses := value (i_branch_misses indices) in
      let per_mille x := f64_mul x (u64_as_f64 1000) in
      mkMetrics (value (i_cpu_time indices)) cycles instructions (ratio instructions cycles)
        (ratio llc_misses (misses ← llc_misses; references ← llc_references; Some (f64_add misses references)))
        (ratio (per_mille <$> llc_misses) instructions) (ratio backend_stalls cycles)
        (ratio (per_mille <$> branch_misses) instructions)
  end.

(** ** Counting *)
Record FunctionCounts := mkCounts {
  fc_total : Z;
  inclusive : gmap Z Z;
  self_counts : gmap Z Z;
  counter_sums : gmap Z (list (option f64));
  edges : gmap (Z * Z) Z
}.

(** [*map.entry(key).or_default() += 1]. *)
Definition bump_count `{Countable K} (m : gmap K Z) (k : K) : gmap K Z := <[k := default 0 (m !! k) + 1]> m.

(** [Vec::dedup]: runs of equal elements become one. *)
Fixpoint dedup `{EqDecision A} (l : list A) : list A :=
  match l with
  | [] => []
  | x :: l => match dedup l with
              | [] => [x]
              | y :: k => if bool_decide (x = y) then y :: k else x :: y :: k
              end
  end.

Definition unique_frames (st : list Z) : list Z := dedup (merge_sort Z.le st).
Definition unique_edges (st : list Z) : list (Z * Z) := dedup (merge_sort edge_le (pairs st)).

(** The value that a counter adds to a sum. *)
Definition counter_value (confidence : f64) (value : option f64) (scaled : bool) : option f64 :=
  v ← value;
  if f64_is_finite v then Some (if scaled then f64_div v confidence else v) else None.

Definition add_value (sum value : option f64) : option f64 :=
  match value with
  | Some v => Some (f64_add (default f64_zero sum) v)
  | None => sum
  end.

(** [sums.iter_mut().zip(&sample.counters).zip(&confidence_scaled)]: the rest is left as it is. *)
Fixpoint add_counters (confidence : f64) (sums counters : list (option f64)) (scaled : list bool) : list (option f64) :=
  match sums, counters, scaled with
  | sum :: sums, value :: counters, sc :: scaled =>
      add_value sum (counter_value confidence value sc) :: add_counters confidence sums counters scaled
  | _, _, _ => sums
  end.

Definition add_leaf (scaled : list bool) (s : ProfileSample) (m : gmap Z (list (option f64))) (leaf : Z)
    : gmap Z (list (option f64)) :=
  <[leaf := add_counters (confidence s) (default (replicate (length scaled) None) (m !! leaf)) (counters s) scaled]> m.

Definition count_sample (scaled : list bool) (c : FunctionCounts) (s : ProfileSample) : FunctionCounts :=
  mkCounts (saturating_add (fc_total c) 1)
    (foldl bump_count (inclusive c) (unique_frames (stack s)))
    (match last (stack s) with Some f => bump_count (self_counts c) f | None => self_counts c end)
    (match last (stack s) with Some f => add_leaf scaled s (counter_sums c) f | None => counter_sums c end)
    (foldl bump_count (edges c) (unique_edges (stack s))).

(** ** The analysis *)
Record FunctionStat := mkStat {
  fs_frame_id : Z;
  fs_label : list Z;
  fs_inclusive_samples : Z;
  fs_self_samples : Z;
  inclusive_fraction : f64;
  self_fraction : f64;
  metrics : FunctionMetrics
}.

Record FunctionAnalysis := mkAnalysis {
  fa_total_samples : Z;
  functions : list FunctionStat;
  labels : gmap Z (list Z);
  fa_edges : gmap (Z * Z) Z
}.

Definition fraction (numerator denominator : Z) : f64 :=
  if denominator =? 0 then f64_zero else f64_div (u64_as_f64 numerator) (u64_as_f64 denominator).

(** By label, then by frame; frames are distinct, so the order in which the map is walked
    does not show. *)
Definition label_le (la lb : list Z) (fa fb : Z) : Prop :=
  la ≠ lb ∧ RegionData.lex_le la lb ∨ la = lb ∧ fa ≤ fb.
Definition stat_le (a b : FunctionStat) : Prop :=
  fs_inclusive_samples b < fs_inclusive_samples a ∨
  fs_inclusive_samples a = fs_inclusive_samples b ∧
    (fs_self_samples b < fs_self_samples a ∨
     fs_self_samples a = fs_self_samples b ∧ label_le (fs_label a) (fs_label b) (fs_frame_id a) (fs_frame_id b)).
#[export] Instance stat_le_dec a b : Decision (stat_le a b).
Proof. unfold stat_le, label_le. pose proof RegionData.lex_le_dec. apply _. Defined.

Definition stat_of (ls : gmap Z (list Z)) (indices : MetricIndices) (c : FunctionCounts) (e : Z * Z) : FunctionStat :=
  let '(frame_id, inclusive_samples) := e in
  let self_samples := default 0 (self_counts c !! frame_id) in
  mkStat frame_id (frame_label ls frame_id) inclusive_samples self_samples
    (fraction inclusive_samples (fc_total c)) (fraction self_samples (fc_total c))
    (function_metrics (counter_sums c !! frame_id) indices).

(** [confidence_scaled]: which counters are divided by the confidence of a sample. *)
Definition scaled_metrics (p : ProfileData) : list bool := (λ m, confidence_scaled_metric (m_key m)) <$> counter_metrics p.

Definition build (p : ProfileData) (f : SampleFilter) : outcome FunctionAnalysis :=
  let ls := frame_labels (frames p) in
  let scaled := scaled_metrics p in
  acc ← accepted f (samples p);
  let c := foldl (count_sample scaled) (mkCounts 0 ∅ ∅ ∅ ∅) acc in
  let indices := resolve (counter_metrics p) in
  Done (mkAnalysis (fc_total c) (merge_sort stat_le (stat_of ls indices c <$> map_to_list (inclusive c))) ls (edges c)).

(** ** Details of a function *)
Record FunctionRelation := mkRelation {
  fr_frame_id : Z;
  fr_label : list Z;
  fr_samples : Z;
  fraction_of_function : f64
}.

Record FunctionDetails := mkDetails {
  function : FunctionStat;
  callers : list FunctionRelation;
  callees : list FunctionRelation
}.

Definition relation (fa : FunctionAnalysis) (frame_id samples denominator : Z) : FunctionRelation :=
  mkRelation frame_id (frame_label (labels fa) frame_id) samples (fraction samples denominator).

Definition relation_le (a b : FunctionRelation) : Prop :=
  fr_samples b < fr_samples a ∨
  fr_samples a = fr_samples b ∧ label_le (fr_label a) (fr_label b) (fr_frame_id a) (fr_frame_id b).
#[export] Instance relation_le_dec a b : Decision (relation_le a b).
Proof. unfold relation_le, label_le. pose proof RegionData.lex_le_dec. apply _. Defined.

Definition sort_relations (rs : list FunctionRelation) : list FunctionRelation := merge_sort relation_le rs.

Definition details (fa : FunctionAnalysis) (frame_id : Z) : option FunctionDetails :=
  '(_, st) ← list_find (λ st, fs_frame_id st = frame_id) (functions fa);
  let denominator := fs_inclusive_samples st in
  let callers := (λ e : Z * Z * Z, relation fa e.1.1 e.2 denominator) <$>
    List.filter (λ e, e.1.2 =? frame_id) (map_to_list (fa_edges fa)) in
  let callees := (λ e : Z * Z * Z, relation fa e.1.2 e.2 denominator) <$>
    List.filter (λ e, e.1.1 =? frame_id) (map_to_list (fa_edges fa)) in
  Some (mkDetails st (sort_relations callers) (sort_relations callees)).
