(* ===== verification/FunctionAnalysisSpec.v ===== *)
(** * What the function view shows

    - [Module Functions]: each accepted sample counts once per function and per call edge;
    - [Module Sums]: the counter columns of a function are the sums over its samples. *)

From S2P Require Import Prelude Words Floats Regions RegionsNest CallTree CallTreeSpec ProfileAnalysis ProfileAnalysisSpec FunctionAnalysis.
From stdpp Require Import sorting.
Open Scope Z_scope.

(** The samples whose stack has a frame, ends in it, and has a frame called directly by another. *)
Definition has_frame (x : Z) (s : ProfileSample) : bool := bool_decide (x ∈ stack s).
Definition ends_in (x : Z) (s : ProfileSample) : bool := bool_decide (last (stack s) = Some x).
Definition calls (caller callee : Z) (s : ProfileSample) : bool := bool_decide ((caller, callee) ∈ pairs (stack s)).

(** A column of the counters, summed over the samples that end in a frame. *)
Definition column_value (scaled : list bool) (s : ProfileSample) (j : nat) : option f64 :=
  counter_value (confidence s) (counter_at s j) (default false (scaled !! j)).
Definition column_sum (scaled : list bool) (acc : list ProfileSample) (x : Z) (j : nat) : option f64 :=
  foldl (λ sum s, add_value sum (column_value scaled s j)) None (List.filter (ends_in x) acc).
Definition sums_of (scaled : list bool) (acc : list ProfileSample) (x : Z) : option (list (option f64)) :=
  if count_if (ends_in x) acc =? 0 then None else Some (column_sum scaled acc x <$> seq 0 (length scaled)).

Module Sums.

Lemma add_counters_lookup conf sums cs scaled j : length scaled = length sums →
  add_counters conf sums cs scaled !! j =
  (λ sum, add_value sum (counter_value conf (default None (cs !! j)) (default false (scaled !! j)))) <$> sums !! j.
Proof.
  revert cs scaled j. induction sums as [|sum sums IH]; intros cs [|sc scaled] j Hl; [done|done|done|].
  destruct cs as [|v cs]; cbn [add_counters].
  - by destruct ((sum :: sums) !! j).
  - destruct j as [|j]; [done|]. cbn. apply IH. by injection Hl.
Qed.

Lemma add_counters_sums scaled acc s x : ends_in x s = true →
  add_counters (confidence s) (column_sum scaled acc x <$> seq 0 (length scaled)) (counters s) scaled =
  column_sum scaled (acc ++ [s]) x <$> seq 0 (length scaled).
Proof.
  intros Hx. apply list_eq. intros j. rewrite add_counters_lookup by by rewrite length_fmap, length_seq.
  rewrite !list_lookup_fmap. destruct (seq 0 (length scaled) !! j) as [i|] eqn:E; [|done]. apply lookup_seq in E as [-> _]. cbn.
  f_equal. unfold column_sum. rewrite List.filter_app. cbn. rewrite Hx, foldl_app. done.
Qed.

Lemma column_sum_skip scaled acc s x j : ends_in x s = false → column_sum scaled (acc ++ [s]) x j = column_sum scaled acc x j.
Proof. intros Hx. unfold column_sum. rewrite List.filter_app. cbn. by rewrite Hx, app_nil_r. Qed.

(** With no sample that ends in the frame, the columns are empty. *)
Lemma column_sum_none scaled acc x j : count_if (ends_in x) acc = 0 → column_sum scaled acc x j = None.
Proof. unfold count_if, column_sum. destruct (List.filter (ends_in x) acc); [done|]. cbn. lia. Qed.

Lemma sums_of_snoc scaled acc s x :
  sums_of scaled (acc ++ [s]) x =
  if ends_in x s
  then Some (add_counters (confidence s) (default (replicate (length scaled) None) (sums_of scaled acc x)) (counters s) scaled)
  else sums_of scaled acc x.
Proof.
  unfold sums_of. rewrite count_if_snoc. pose proof (count_if_bounds (ends_in x) acc) as Hb. destruct (ends_in x s) eqn:Ex.
  - rewrite (proj2 (Z.eqb_neq _ 0)) by lia. f_equal. rewrite <-add_counters_sums by done. f_equal.
    destruct (Z.eqb_spec (count_if (ends_in x) acc) 0) as [E|E]; [|done]. cbn. apply list_eq. intros j.
    rewrite list_lookup_fmap. destruct (seq 0 (length scaled) !! j) as [i|] eqn:Ej.
    + apply lookup_seq in Ej as [-> Hj]. cbn. rewrite column_sum_none by done. symmetry. by apply lookup_replicate.
    + apply lookup_ge_None in Ej. rewrite length_seq in Ej. symmetry. apply lookup_ge_None. by rewrite length_replicate.
  - rewrite Z.add_0_r. destruct (_ =? 0); [done|]. f_equal. apply list_fmap_ext. intros j i _. by apply column_sum_skip.
Qed.
End Sums.

Module Functions.

(** ** Elements once *)
Section dedup.
Context {A : Type} `{EqDecision A} (R : relation A) (Hanti : ∀ x y, R x y → R y x → x = y).

Lemma elem_of_dedup (l : list A) x : x ∈ dedup l ↔ x ∈ l.
Proof.
  induction l as [|y l IH]; [done|]. cbn [dedup]. rewrite elem_of_cons, <-IH.
  destruct (dedup l) as [|z k]; [set_solver|]. case_bool_decide as E; [subst z|]; set_solver.
Qed.

Lemma dedup_nodup (l : list A) : StronglySorted R l → NoDup (dedup l) ∧ StronglySorted R (dedup l).
Proof.
  induction l as [|x l IH]; intros Hs; [split; constructor|]. apply StronglySorted_inv in Hs as [Hs Hx].
  destruct (IH Hs) as [Hnd Hso]. cbn [dedup]. assert (Hx' : Forall (R x) (dedup l)).
  { apply Forall_forall. intros y Hy. rewrite elem_of_dedup in Hy. by apply (proj1 (Forall_forall _ _) Hx). }
  destruct (dedup l) as [|y k]; [by repeat constructor; set_solver|]. case_bool_decide as E; [done|].
  split; [|by constructor]. constructor; [|done]. intros [->|Hin]%elem_of_cons; [done|]. apply E. apply Hanti.
  - exact (Forall_inv Hx').
  - apply StronglySorted_inv in Hso as [_ Hy]. by apply (proj1 (Forall_forall _ _) Hy).
Qed.
End dedup.

Lemma edge_le_anti x y : edge_le x y → edge_le y x → x = y.
Proof. unfold edge_le. destruct x, y; cbn. intros. f_equal; lia. Qed.
#[export] Instance edge_le_total : Total edge_le.
Proof. intros x y. unfold edge_le. lia. Qed.
#[export] Instance edge_le_trans : Transitive edge_le.
Proof. intros x y z. unfold edge_le. lia. Qed.

Lemma unique_frames_spec st : NoDup (unique_frames st) ∧ ∀ x, x ∈ unique_frames st ↔ x ∈ st.
Proof.
  split; [|intros x; unfold unique_frames; by rewrite elem_of_dedup, (merge_sort_Permutation Z.le)].
  apply (dedup_nodup Z.le); [lia|]. apply StronglySorted_merge_sort; apply _.
Qed.
Lemma unique_edges_spec st : NoDup (unique_edges st) ∧ ∀ e, e ∈ unique_edges st ↔ e ∈ pairs st.
Proof.
  split; [|intros x; unfold unique_edges; by rewrite elem_of_dedup, (merge_sort_Permutation edge_le)].
  apply (dedup_nodup edge_le); [apply edge_le_anti|]. apply StronglySorted_merge_sort; apply _.
Qed.

(** The pairs of a stack are its consecutive frames. *)
Lemma elem_of_pairs (st : list Z) x y : (x, y) ∈ pairs st ↔ ∃ i, st !! i = Some x ∧ st !! S i = Some y.
Proof.
  induction st as [|a [|b st] IH].
  - split; [by intros ?%elem_of_nil|by intros (i & Hi & _)].
  - split; [by intros ?%elem_of_nil|by intros ([|i] & _ & Hi)].
  - change (pairs (a :: b :: st)) with ((a, b) :: pairs (b :: st)). rewrite elem_of_cons, IH. split.
    + intros [[= -> ->]|(i & H)]; [by exists O|by exists (S i)].
    + intros ([|i] & H1 & H2); [left; cbn in *; congruence|right; by exists i].
Qed.

(** ** Counting *)
Lemma bump_count_lookup `{Countable K} (m : gmap K Z) k x :
  default 0 (bump_count m k !! x) = default 0 (m !! x) + if bool_decide (x = k) then 1 else 0.
Proof.
  unfold bump_count. case_bool_decide as E; [subst x|].
  - by rewrite lookup_insert_eq.
  - rewrite lookup_insert_ne by done. lia.
Qed.

Lemma bump_all `{Countable K} (l : list K) (m : gmap K Z) x : NoDup l →
  default 0 (foldl bump_count m l !! x) = default 0 (m !! x) + if bool_decide (x ∈ l) then 1 else 0.
Proof.
  revert m. induction l as [|k l IH]; intros m Hnd; cbn [foldl].
  - rewrite bool_decide_false by set_solver. lia.
  - apply NoDup_cons in Hnd as [Hk Hnd]. rewrite IH, bump_count_lookup by done. repeat case_bool_decide; set_solver by lia.
Qed.

(** Every entry of the map is a count of at least one. *)
Definition positive `{Countable K} (m : gmap K Z) : Prop := ∀ k n, m !! k = Some n → 1 ≤ n.

Lemma bump_positive `{Countable K} (l : list K) (m : gmap K Z) : positive m → positive (foldl bump_count m l).
Proof.
  revert m. induction l as [|k l IH]; intros m Hm; [done|]. cbn. apply IH. intros x n. unfold bump_count.
  rewrite lookup_insert_Some. intros [[<- <-]|[_ Hx]]; [|by eapply Hm].
  destruct (m !! k) as [v|] eqn:E; cbn; [|lia]. pose proof (Hm k v E). lia.
Qed.


Definition counted (scaled : list bool) (acc : list ProfileSample) (c : FunctionCounts) : Prop :=
  fc_total c = Z.of_nat (length acc) ∧
  (∀ x, default 0 (inclusive c !! x) = count_if (has_frame x) acc) ∧ positive (inclusive c) ∧
  (∀ x, default 0 (self_counts c !! x) = count_if (ends_in x) acc) ∧
  (∀ x, counter_sums c !! x = sums_of scaled acc x) ∧
  (∀ e, default 0 (edges c !! e) = count_if (calls e.1 e.2) acc) ∧ positive (edges c).

Lemma count_sample_spec scaled acc c s : Z.of_nat (S (length acc)) ≤ u64_max →
  counted scaled acc c → counted scaled (acc ++ [s]) (count_sample scaled c s).
Proof.
  intros Hl (Ht & Hi & Hpi & Hs & Hm & He & Hp). unfold count_sample, counted. cbn [fc_total inclusive self_counts counter_sums edges].
  rewrite length_app. cbn [length]. split_and!.
  - rewrite Ht. word_lia.
  - intros x. destruct (unique_frames_spec (stack s)) as [Hnd Hel]. rewrite bump_all, count_if_snoc, Hi by done.
    unfold has_frame. by rewrite (bool_decide_ext _ _ (Hel x)).
  - by apply bump_positive.
  - intros x. rewrite count_if_snoc, <-Hs. unfold ends_in. destruct (last (stack s)) as [y|].
    + rewrite bump_count_lookup. repeat case_bool_decide; (congruence || lia).
    + rewrite bool_decide_false by done. lia.
  - intros x. rewrite Sums.sums_of_snoc, <-Hm. unfold ends_in. destruct (last (stack s)) as [y|].
    + unfold add_leaf. case_bool_decide as E; [injection E as ->; by rewrite lookup_insert_eq|by rewrite lookup_insert_ne by congruence].
    + by rewrite bool_decide_false.
  - intros e. destruct (unique_edges_spec (stack s)) as [Hnd Hel]. rewrite bump_all, count_if_snoc, He by done.
    unfold calls. rewrite <-surjective_pairing. by rewrite (bool_decide_ext _ _ (Hel e)).
  - by apply bump_positive.
Qed.

Lemma counts_spec scaled acc : Z.of_nat (length acc) ≤ u64_max → counted scaled acc (foldl (count_sample scaled) (mkCounts 0 ∅ ∅ ∅ ∅) acc).
Proof.
  apply (foldl_prefix (λ done c, Z.of_nat (length done) ≤ u64_max → counted scaled done c)).
  - intros _. unfold counted. cbn. split_and!; try done; try (by intros x; rewrite lookup_empty); intros k n Hk; by rewrite lookup_empty in Hk.
  - intros done s c IH. rewrite length_app. cbn. intros Hl. apply count_sample_spec; [lia|]. apply IH. lia.
Qed.

(** ** Orders *)
Lemma label_le_total la lb fa fb : label_le la lb fa fb ∨ label_le lb la fb fa.
Proof.
  unfold label_le. destruct (decide (la = lb)) as [->|Hl]; [destruct (Z.le_total fa fb); [left|right]; auto|].
  destruct (lex_le_total la lb); [left|right]; left; auto.
Qed.
#[export] Instance stat_le_total : Total stat_le.
Proof.
  intros a b. unfold stat_le.
  destruct (Z.lt_trichotomy (fs_inclusive_samples a) (fs_inclusive_samples b)) as [?|[?|?]]; [right; by left| |left; by left].
  destruct (Z.lt_trichotomy (fs_self_samples a) (fs_self_samples b)) as [?|[?|?]]; [right; right; auto| |left; right; auto].
  destruct (label_le_total (fs_label a) (fs_label b) (fs_frame_id a) (fs_frame_id b)); [left|right]; right; auto.
Qed.
#[export] Instance relation_le_total : Total relation_le.
Proof.
  intros a b. unfold relation_le.
  destruct (Z.lt_trichotomy (fr_samples a) (fr_samples b)) as [?|[?|?]]; [right; by left| |left; by left].
  destruct (label_le_total (fr_label a) (fr_label b) (fr_frame_id a) (fr_frame_id b)); [left|right]; right; auto.
Qed.

(** ** Entries of maps of counts *)
Lemma entry_count {K} `{Countable K} (m : gmap K Z) k n : positive m → m !! k = Some n ↔ 1 ≤ n ∧ n = default 0 (m !! k).
Proof.
  intros Hp. split; [intros E; rewrite E; split; [by eapply Hp|done]|]. intros [Hn ->].
  destruct (m !! k); [done|]. cbn in Hn. lia.
Qed.

Lemma count_if_pos {A} (q : A → bool) l : 1 ≤ count_if q l ↔ ∃ x, x ∈ l ∧ q x = true.
Proof.
  unfold count_if. split.
  - intros Hl. destruct (List.filter q l) as [|x k] eqn:E; [cbn in Hl; lia|]. exists x. rewrite list_elem_of_In, <-filter_In, E. by left.
  - intros (x & Hx & Hq). assert (In x (List.filter q l)) as Hin by (apply filter_In; by rewrite <-list_elem_of_In).
    destruct (List.filter q l); [done|cbn; lia].
Qed.
End Functions.

(** What the figures of a function are, for the accepted samples. *)
Record stat_exact (p : ProfileData) (acc : list ProfileSample) (st : FunctionStat) : Prop := {
  se_label : fs_label st = frame_label (frame_labels (frames p)) (fs_frame_id st);
  se_inclusive : fs_inclusive_samples st = count_if (has_frame (fs_frame_id st)) acc;
  se_self : fs_self_samples st = count_if (ends_in (fs_frame_id st)) acc;
  se_fractions : inclusive_fraction st = fraction (fs_inclusive_samples st) (Z.of_nat (length acc)) ∧
                 self_fraction st = fraction (fs_self_samples st) (Z.of_nat (length acc));
  se_metrics : metrics st = function_metrics
    (sums_of (scaled_metrics p) acc (fs_frame_id st)) (resolve (counter_metrics p))
}.

(** What the details of a function are. *)
Record details_exact (p : ProfileData) (acc : list ProfileSample) (d : FunctionDetails) : Prop := {
  de_callers r : r ∈ callers d ↔ 1 ≤ fr_samples r ∧ fr_samples r = count_if (calls (fr_frame_id r) (fs_frame_id (function d))) acc ∧
    fr_label r = frame_label (frame_labels (frames p)) (fr_frame_id r) ∧
    fraction_of_function r = fraction (fr_samples r) (fs_inclusive_samples (function d));
  de_callees r : r ∈ callees d ↔ 1 ≤ fr_samples r ∧ fr_samples r = count_if (calls (fs_frame_id (function d)) (fr_frame_id r)) acc ∧
    fr_label r = frame_label (frame_labels (frames p)) (fr_frame_id r) ∧
    fraction_of_function r = fraction (fr_samples r) (fs_inclusive_samples (function d));
  de_sorted : Sorted relation_le (callers d) ∧ Sorted relation_le (callees d)
}.

Module View.
Import Functions.
Section view.
Context (p : ProfileData) (acc : list ProfileSample) (c : FunctionCounts).
Notation scaled := (scaled_metrics p).
Notation ls := (frame_labels (frames p)).
Context (Hc : counted scaled acc c).
Notation stats := (stat_of ls (resolve (counter_metrics p)) c <$> map_to_list (inclusive c)).
Definition view : FunctionAnalysis := mkAnalysis (fc_total c) (merge_sort stat_le stats) ls (edges c).

Lemma elem_of_functions st : st ∈ functions view ↔
  1 ≤ count_if (has_frame (fs_frame_id st)) acc ∧ st = stat_of ls (resolve (counter_metrics p)) c (fs_frame_id st, count_if (has_frame (fs_frame_id st)) acc).
Proof.
  destruct Hc as (_ & Hi & Hp & _). unfold view. cbn [functions]. rewrite merge_sort_Permutation, list_elem_of_fmap. split.
  - intros ([x n] & -> & Hin). apply elem_of_map_to_list, (entry_count _ _ _ Hp) in Hin as [Hn E]. rewrite Hi in E. cbn. by rewrite <-E.
  - intros [Hn ->]. eexists. split; [done|]. apply elem_of_map_to_list, (entry_count _ _ _ Hp). rewrite Hi. cbn. done.
Qed.

Lemma functions_are_exact st : st ∈ functions view → stat_exact p acc st.
Proof.
  intros [Hn E]%elem_of_functions. destruct Hc as (Ht & Hi & _ & Hs & Hm & _). set (x := fs_frame_id st) in *. clearbody x. subst st.
  split; cbn; [done|done|apply Hs|split; by rewrite Ht|by rewrite Hm].
Qed.

Lemma frame_ids_functions : (fs_frame_id <$> functions view) ≡ₚ (map_to_list (inclusive c)).*1.
Proof.
  unfold view. cbn [functions]. rewrite merge_sort_Permutation, <-list_fmap_compose. apply reflexive_eq.
  apply list_fmap_ext. by intros i [x n] _.
Qed.

Lemma frames_nodup : NoDup (fs_frame_id <$> functions view).
Proof. rewrite frame_ids_functions. apply NoDup_fst_map_to_list. Qed.

Lemma frames_shown x : x ∈ fs_frame_id <$> functions view ↔ ∃ s, s ∈ acc ∧ x ∈ stack s.
Proof.
  destruct Hc as (_ & Hi & Hp & _). rewrite frame_ids_functions, list_elem_of_fmap. split.
  - intros ([y n] & -> & Hin). apply elem_of_map_to_list, (entry_count _ _ _ Hp) in Hin as [Hn E]. rewrite Hi in E. cbn.
    assert (H1 : 1 ≤ count_if (has_frame y) acc) by lia. apply count_if_pos in H1 as (s & Hs & Hb). exists s. split; [done|].
    by apply bool_decide_eq_true in Hb.
  - intros (s & Hs & Hx). exists (x, count_if (has_frame x) acc). split; [done|]. apply elem_of_map_to_list, (entry_count _ _ _ Hp).
    rewrite Hi. split; [|done]. apply count_if_pos. exists s. split; [done|]. by apply bool_decide_eq_true.
Qed.

Lemma details_are_exact x : x ∈ fs_frame_id <$> functions view →
  ∃ d, details view x = Some d ∧ function d ∈ functions view ∧ fs_frame_id (function d) = x ∧ details_exact p acc d.
Proof.
  intros (st0 & E0 & Hst0)%list_elem_of_fmap. unfold details.
  destruct (list_find (λ st, fs_frame_id st = x) (functions view)) as [[i st]|] eqn:Ef.
  2: { apply list_find_None in Ef. by eapply Forall_forall in Ef; [|done]. }
  apply list_find_Some in Ef as (Hi & Ex & _). cbn [mbind option_bind]. eexists. split; [reflexivity|]. cbn [function].
  split; [by eapply list_elem_of_lookup_2|]. split; [done|]. destruct Hc as (_ & _ & _ & _ & _ & He & Hp).
  split; cbn [callers callees function]; [| |split; apply Sorted_merge_sort; apply _].
  - intros r. unfold sort_relations. rewrite merge_sort_Permutation, list_elem_of_fmap. split.
    + intros ([[a b] n] & -> & Hin). rewrite list_elem_of_In, filter_In, <-list_elem_of_In, elem_of_map_to_list in Hin. destruct Hin as [Hin Eb].
      apply Z.eqb_eq in Eb. cbn in Eb. subst b. apply (entry_count _ _ _ Hp) in Hin as [Hn E]. rewrite He in E. cbn in *. by rewrite Ex.
    + intros (Hn & E & El & Efr). exists (fr_frame_id r, x, fr_samples r). split; [destruct r; cbn in *; unfold FunctionAnalysis.relation; cbn; by f_equal|].
      rewrite list_elem_of_In, filter_In, <-list_elem_of_In, elem_of_map_to_list. split; [|apply Z.eqb_refl].
      apply (entry_count _ _ _ Hp). rewrite He. cbn. by rewrite <-Ex.
  - intros r. unfold sort_relations. rewrite merge_sort_Permutation, list_elem_of_fmap. split.
    + intros ([[a b] n] & -> & Hin). rewrite list_elem_of_In, filter_In, <-list_elem_of_In, elem_of_map_to_list in Hin. destruct Hin as [Hin Eb].
      apply Z.eqb_eq in Eb. cbn in Eb. subst a. apply (entry_count _ _ _ Hp) in Hin as [Hn E]. rewrite He in E. cbn in *. by rewrite Ex.
    + intros (Hn & E & El & Efr). exists (x, fr_frame_id r, fr_samples r). split; [destruct r; cbn in *; unfold FunctionAnalysis.relation; cbn; by f_equal|].
      rewrite list_elem_of_In, filter_In, <-list_elem_of_In, elem_of_map_to_list. split; [|apply Z.eqb_refl].
      apply (entry_count _ _ _ Hp). rewrite He. cbn. by rewrite <-Ex.
Qed.
End view.
End View.

(** The function view counts every accepted sample once per function, recursion
    included.  The functions shown are the frames of the accepted samples, each once and in
    order; a function's inclusive count is the number of samples whose stack has it, its own
    count the number whose stack ends in it, and its metrics come from the counters summed
    over the latter.  Its details list as callers and callees exactly the frames next to it
    in some stack, with the number of such samples. *)
Theorem functions_exact (p : ProfileData) (f : SampleFilter) :
  Z.of_nat (length (samples p)) ≤ u64_max →
  ∃ acc fa, accepted f (samples p) = Done acc ∧ build p f = Done fa ∧
    fa_total_samples fa = Z.of_nat (length acc) ∧
    Sorted stat_le (functions fa) ∧ NoDup (fs_frame_id <$> functions fa) ∧
    (∀ x, x ∈ fs_frame_id <$> functions fa ↔ ∃ s, s ∈ acc ∧ x ∈ stack s) ∧
    (∀ st, st ∈ functions fa → stat_exact p acc st) ∧
    (∀ x, x ∈ fs_frame_id <$> functions fa →
       ∃ d, details fa x = Some d ∧ function d ∈ functions fa ∧ fs_frame_id (function d) = x ∧ details_exact p acc d) ∧
    (∀ x y s, calls x y s = true ↔ ∃ i, stack s !! i = Some x ∧ stack s !! S i = Some y).
Proof.
  intros Hlen. destruct (Tree.accepted_total f (samples p)) as [acc Ea]. pose proof (Bins.accepted_length _ _ _ Ea).
  pose proof (Functions.counts_spec (scaled_metrics p) acc ltac:(lia)) as Hc.
  exists acc. unfold build. rewrite Ea. cbn [mbind outcome_bind]. eexists. split_and!; [done|reflexivity|apply Hc|..].
  - apply Sorted_merge_sort, Functions.stat_le_total.
  - apply (View.frames_nodup p).
  - by apply View.frames_shown.
  - by apply View.functions_are_exact.
  - by apply View.details_are_exact.
  - intros x y s. unfold calls. rewrite bool_decide_eq_true. apply Functions.elem_of_pairs.
Qed.

Lemma functions_exact_witness :
  let s st := mkSample 5 1 1 None (u64_as_f64 1) st [] in
  let p := mkProfile [] [s [1; 2; 1; 2]; s [1; 3]] [] None [] None in
  ∃ acc fa, accepted no_filter (samples p) = Done acc ∧ build p no_filter = Done fa ∧
    (fs_frame_id <$> functions fa) = [1; 2; 3] ∧ fa_total_samples fa = Z.of_nat (length acc).
Proof.
  intros s p. destruct (functions_exact p no_filter) as (acc & fa & Ha & Hfa & Ht & _); [vm_compute; discriminate|].
  exists acc, fa. split; [exact Ha|]. split; [exact Hfa|]. split; [|exact Ht].
  vm_compute in Hfa. injection Hfa as <-. reflexivity.
Defined.
