(* ===== verification/Timelines.v ===== *)
(** * Time lines of a profile

    The analyses of [mperf-gui/src/profile_analysis.rs] over wall time:
    - [Module Observations]: the filter of processor observations;
    - [Module CpuLanes]: utilization per processor or thread and bucket of time, and the
      histogram of busy processors;
    - [Module Threads]: the balance of busy time, waiting and migrations per thread;
    - [Module Tracks]: counters per bin of time.

    The order of additions of doubles is that of the source. *)

From S2P Require Import Prelude Words Text Floats Regions CallTree ProfileAnalysis FunctionAnalysis.
From stdpp Require Import sorting.
Open Scope Z_scope.

Module Observations.

Definition in_regions (f : SampleFilter) (o : CpuObservation) : outcome bool :=
  match f_regions f with
  | None => Done true
  | Some regions =>
      match wall_interval_start_ns o with
      | Some start =>
          Done (negb (bool_decide (RegionIntervals.intersections regions (ob_process_id o) (ob_thread_id o)
            (mkRange start (ob_timestamp_ns o)) = [])))
      | None => RegionIntervals.contains regions (ob_process_id o) (ob_thread_id o) (ob_timestamp_ns o)
      end
  end.

Definition matches_cpu_observation_without_time (f : SampleFilter) (o : CpuObservation) : outcome bool :=
  inside ← in_regions f o;
  Done (if negb inside then false
        else if is_some_and (f_process_id f) (λ p, negb (ob_process_id o =? p)) then false
        else if is_some_and (f_thread_id f) (λ t, negb (ob_thread_id o =? t)) then false
        else if is_some_and (f_threads f) (λ ts, negb (bool_decide (ob_thread_id o ∈ ts))) then false
        else if is_some_and (f_cpu f) (λ c, negb (bool_decide (ob_cpu o = Some c))) then false
        else if is_some_and (frame_ids f) (λ ids, negb (existsb (λ x, bool_decide (x ∈ ids)) (ob_stack o))) then false
        else if is_some_and (leaf_frames f)
                  (λ ids, negb (is_some_and (last (ob_stack o)) (λ x, bool_decide (x ∈ ids)))) then false
        else true).

(** [observations.iter().filter(...)]. *)
Fixpoint matched (f : SampleFilter) (l : list CpuObservation) : outcome (list CpuObservation) :=
  match l with
  | [] => Done []
  | o :: l =>
      m ← matches_cpu_observation_without_time f o;
      rest ← matched f l;
      Done (if m : bool then o :: rest else rest)
  end.

Definition observation_ranges (f : SampleFilter) (o : CpuObservation) (range : TimeRange) : list TimeRange :=
  if end_ns range <=? start_ns range then []
  else match f_regions f with
       | Some regions => RegionIntervals.intersections regions (ob_process_id o) (ob_thread_id o) range
       | None => [range]
       end.
End Observations.

Module CpuLanes.
Import Observations.

Inductive TimelineLaneKey := Cpu (cpu : option Z) | Thread (thread_id : Z).
#[export] Instance lane_key_eq_dec : EqDecision TimelineLaneKey.
Proof. solve_decision. Defined.
#[export] Instance lane_key_countable : Countable TimelineLaneKey.
Proof.
  refine (inj_countable' (λ k, match k with Cpu c => inl c | Thread t => inr t end)
    (λ x, match x with inl c => Cpu c | inr t => Thread t end) _). by intros [].
Defined.

(** The derived order: processors first, an unknown one before the others. *)
Definition lane_rank (k : TimelineLaneKey) : Z * Z :=
  match k with Cpu None => (0, 0) | Cpu (Some c) => (1, c) | Thread t => (2, t) end.
Definition lane_le (a b : TimelineLaneKey * list f64) : Prop := edge_le (lane_rank a.1) (lane_rank b.1).
#[export] Instance lane_le_dec a b : Decision (lane_le a b).
Proof. unfold lane_le. apply _. Defined.

Definition lane_label (k : TimelineLaneKey) : list Z :=
  match k with
  | Cpu (Some c) => chars "CPU " ++ show c
  | Cpu None => chars "CPU unknown"
  | Thread t => chars "Thread " ++ show t
  end.

Record CpuUtilizationBucket := mkBucket { cpu_time : f64; utilization : f64 }.
Record CpuUtilizationLane := mkLane { lane_key : TimelineLaneKey; lane_name : list Z; lane_buckets : list CpuUtilizationBucket }.
Record CpuUtilizationHeatmap := mkLanes {
  c_range : TimeRange;
  bucket_duration_ns : Z;
  buckets : nat;
  uses_cpu_lanes : bool;
  c_source : CpuObservationSource;
  lanes : list CpuUtilizationLane
}.

#[export] Instance source_eq_dec : EqDecision CpuObservationSource.
Proof. solve_decision. Defined.

(** An observation has weight and touches the range. *)
Definition eligible (range : TimeRange) (o : CpuObservation) : bool :=
  if weight_ns o =? 0 then false
  else match ob_source o with
       | SampledOccupancy => (start_ns range <=? ob_timestamp_ns o) && (ob_timestamp_ns o <? end_ns range)
       | CounterDelta | LegacyUnknown =>
           is_some_and (wall_interval_start_ns o)
             (λ start, (start <? ob_timestamp_ns o) && (start <? end_ns range) && (start_ns range <? ob_timestamp_ns o))
       end.

Definition common_source (l : list CpuObservation) : CpuObservationSource :=
  match ob_source <$> l with
  | [] => LegacyUnknown
  | s :: l => foldl (λ a b, if bool_decide (a = b) then a else LegacyUnknown) s l
  end.

(** The part of bucket [b] inside the range. *)
Definition bucket_range (range : TimeRange) (width : Z) (b : nat) : TimeRange :=
  let start := saturating_add (start_ns range) (saturating_mul (Z.of_nat b) width) in
  mkRange start (Z.min (saturating_add start width) (end_ns range)).

(** [usize::try_from((t - range.start_ns) / width).unwrap_or(usize::MAX).min(buckets - 1)]. *)
Definition bucket_of (range : TimeRange) (width : Z) (buckets : nat) (t : Z) : nat :=
  Nat.min (Z.to_nat (wrapping_sub t (start_ns range) / width)) (buckets - 1).

(** What a bucket receives of a clipped interval. *)
Definition share (range : TimeRange) (width : Z) (o : CpuObservation) (duration : Z) (clipped : TimeRange) (b : nat) (value : f64) : f64 :=
  let br := bucket_range range width b in
  let overlap_start := Z.max (start_ns clipped) (start_ns br) in
  let overlap_end := Z.min (end_ns clipped) (end_ns br) in
  if overlap_start <? overlap_end then
    f64_add value (f64_div (f64_mul (u64_as_f64 (weight_ns o)) (u64_as_f64 (overlap_end - overlap_start))) (u64_as_f64 duration))
  else value.

Definition spread (range : TimeRange) (width : Z) (buckets : nat) (o : CpuObservation) (duration : Z)
    (attributed : list f64) (clipped : TimeRange) : list f64 :=
  if end_ns clipped <=? start_ns clipped then attributed
  else
    let first := bucket_of range width buckets (start_ns clipped) in
    let last := bucket_of range width buckets (end_ns clipped - 1) in
    imap (λ b value, if bool_decide (first ≤ b ≤ last)%nat then share range width o duration clipped b value else value) attributed.

Definition attribute (f : SampleFilter) (range : TimeRange) (width : Z) (buckets : nat) (o : CpuObservation) (attributed : list f64)
    : outcome (list f64) :=
  if bool_decide (ob_source o = SampledOccupancy) then
    let b := bucket_of range width buckets (ob_timestamp_ns o) in
    value ← unwrap (attributed !! b);
    Done (<[b := f64_add value (u64_as_f64 (weight_ns o))]> attributed)
  else
    match wall_interval_start_ns o with
    | None => Done attributed
    | Some interval_start =>
        let duration := saturating_sub (ob_timestamp_ns o) interval_start in
        if duration =? 0 then Done attributed
        else
          let clipped := mkRange (Z.max interval_start (start_ns range)) (Z.min (ob_timestamp_ns o) (end_ns range)) in
          Done (foldl (spread range width buckets o duration) attributed (observation_ranges f o clipped))
    end.

Definition key_of (uses_cpu : bool) (o : CpuObservation) : TimelineLaneKey :=
  if uses_cpu then Cpu (ob_cpu o) else Thread (ob_thread_id o).

Definition add_observation (f : SampleFilter) (range : TimeRange) (width : Z) (buckets : nat) (uses_cpu : bool)
    (m : gmap TimelineLaneKey (list f64)) (o : CpuObservation) : outcome (gmap TimelineLaneKey (list f64)) :=
  let key := key_of uses_cpu o in
  attributed ← attribute f range width buckets o (default (replicate buckets f64_zero) (m !! key));
  Done (<[key := attributed]> m).

(** The lanes of the processors of the host, before any observation. *)
Definition host_lanes (uses_cpu : bool) (count : option Z) (buckets : nat) : gmap TimelineLaneKey (list f64) :=
  match count with
  | Some n => if uses_cpu
              then foldl (λ m c, <[Cpu (Some (Z.of_nat c)) := replicate buckets f64_zero]> m) ∅ (seq 0 (Z.to_nat n))
              else ∅
  | None => ∅
  end.

Definition finish_bucket (range : TimeRange) (width : Z) (b : nat) (cpu_time : f64) : CpuUtilizationBucket :=
  let br := bucket_range range width b in
  let wall := saturating_sub (end_ns br) (start_ns br) in
  mkBucket cpu_time (if wall =? 0 then f64_zero else f64_clamp01 (f64_div cpu_time (u64_as_f64 wall))).

Definition finish_lane (range : TimeRange) (width : Z) (e : TimelineLaneKey * list f64) : CpuUtilizationLane :=
  mkLane e.1 (lane_label e.1) (imap (finish_bucket range width) e.2).

Definition build_with_bucket_duration (p : ProfileData) (f : SampleFilter) (max_buckets : Z) (bucket_duration : option Z)
    : outcome (option CpuUtilizationHeatmap) :=
  match analysis_range p f with
  | None => Done None
  | Some range =>
      let duration := saturating_sub (end_ns range) (start_ns range) in
      if duration =? 0 then Done None
      else if bool_decide (bucket_duration = Some 0) then Done None
      else
        width ← match bucket_duration with
                | Some d => Done d
                | None => w ← nice_bin_width (div_ceil duration (Z.max max_buckets 1)); Done (Z.max w 1)
                end;
        let buckets := Z.to_nat (Z.max (div_ceil duration width) 1) in
        matching ← matched f (cpu_observations p);
        let chosen := List.filter (eligible range) matching in
        if bool_decide (length chosen = 0%nat) then Done None
        else
          let uses_cpu := forallb (λ o, bool_decide (is_Some (ob_cpu o))) chosen in
          m ← fold_outcome (add_observation f range width buckets uses_cpu) chosen (host_lanes uses_cpu (logical_cpu_count p) buckets);
          if bool_decide (m = ∅) then Done None
          else Done (Some (mkLanes range width buckets uses_cpu (common_source chosen)
                 (finish_lane range width <$> merge_sort lane_le (map_to_list m))))
  end.

(** ** The histogram of busy processors *)
Record ConcurrencyHistogram := mkHistogram { slots : list f64; average_busy : f64; total_seconds : f64 }.

Definition NANOS_PER_SECOND : Z := 1000000000.

Record Tally := mkTally { t_slots : list f64; weighted : f64; t_seconds : f64 }.

(** One bucket; the sign of an empty sum does not show. *)
Definition tally_bucket (h : CpuUtilizationHeatmap) (cpus : nat) (t : Tally) (b : nat) : outcome Tally :=
  let br := bucket_range (c_range h) (bucket_duration_ns h) b in
  let seconds := f64_div (u64_as_f64 (saturating_sub (end_ns br) (start_ns br))) (u64_as_f64 NANOS_PER_SECOND) in
  if f64_leb seconds f64_zero then Done t
  else
    let busy := foldl f64_add f64_zero (utilization <$> omap (λ l, lane_buckets l !! b) (lanes h)) in
    let slot := Nat.min (Z.to_nat (f64_as_u64 (f64_max0 (f64_round busy)))) cpus in
    v ← unwrap (t_slots t !! slot);
    Done (mkTally (<[slot := f64_add v seconds]> (t_slots t))
            (f64_add (weighted t) (f64_mul (u64_as_f64 (Z.of_nat slot)) seconds)) (f64_add (t_seconds t) seconds)).

Definition build_concurrency (h : CpuUtilizationHeatmap) (count : option Z) : outcome ConcurrencyHistogram :=
  let cpus := Nat.max (Nat.max (Z.to_nat (default 0 count)) (length (lanes h))) 1 in
  t ← fold_outcome (tally_bucket h cpus) (seq 0 (buckets h)) (mkTally (replicate (S cpus) f64_zero) f64_zero f64_zero);
  Done (mkHistogram (t_slots t) (if f64_positive (t_seconds t) then f64_div (weighted t) (t_seconds t) else f64_zero) (t_seconds t)).
End CpuLanes.

Module Threads.
Import Observations.

Definition SYNC_FRAME_MARKERS : list string :=
  ["futex"; "barrier"; "pthread_cond"; "pthread_join"; "lll_lock"; "sem_wait"; "psynch"; "ulock_wait"; "cond_wait";
   "sched_yield"; "nanosleep"; "mutex_lock"]%string.

(** [str::to_lowercase], as far as a search for ASCII text sees it: the Kelvin sign and the
    dotted capital I are the characters outside ASCII whose lower case has an ASCII letter,
    and the others are left as they are. *)
Definition lower_char (c : Z) : list Z :=
  if c =? 8490 then [107] else if c =? 304 then [105; 775] else [to_lowercase c].
Definition lower (s : list Z) : list Z := concat (lower_char <$> s).

Definition is_sync_name (name : list Z) : bool :=
  existsb (λ marker, str_contains (chars marker) (lower name)) SYNC_FRAME_MARKERS.

Definition sync_frames (frames : list (Z * list Z)) : gset Z :=
  list_to_set (fst <$> List.filter (λ fr, is_sync_name fr.2) frames).

(** Wall time of the selected regions per thread. *)
Definition region_time (range item : TimeRange) : Z :=
  saturating_sub (Z.min (end_ns item) (end_ns range)) (Z.max (start_ns item) (start_ns range)).
Definition add_region (f : SampleFilter) (range : TimeRange) (m : gmap Z Z) (e : (Z * Z) * list TimeRange) : gmap Z Z :=
  let '((process, thread), ranges) := e in
  if is_some_and (f_process_id f) (λ pid, negb (pid =? process)) then m
  else <[thread := wrapping_add (default 0 (m !! thread)) (foldl (λ acc item, wrapping_add acc (region_time range item)) 0 ranges)]> m.
Definition region_wall (f : SampleFilter) (range : TimeRange) : option (gmap Z Z) :=
  (λ regions, foldl (add_region f range) ∅ (map_to_list regions)) <$> f_regions f.

Record ThreadBalanceRow := mkBalanceRow {
  b_thread_id : Z;
  busy_fraction : f64;
  sync_fraction : f64;
  b_migrations : Z;
  b_samples : Z
}.
Record ThreadBalance := mkBalance { b_rows : list ThreadBalanceRow; has_cpu_ids : bool }.

(** Samples and waiting samples, processor time, and processors over time, per thread. *)
Record Tallies := mkTallies {
  t_samples : gmap Z (Z * Z);
  t_cpu_time : gmap Z f64;
  trails : gmap Z (list (Z * Z));
  t_has_cpu_ids : bool
}.

Definition add_trail (thread time : Z) (cpu : option Z) (t : Tallies) : Tallies :=
  match cpu with
  | Some c => mkTallies (t_samples t) (t_cpu_time t) (<[thread := default [] (trails t !! thread) ++ [(time, c)]]> (trails t)) true
  | None => t
  end.

Definition tally_sample (sync : gset Z) (t : Tallies) (s : ProfileSample) : Tallies :=
  let '(total, waiting) := default (0, 0) (t_samples t !! thread_id s) in
  let waits := existsb (λ x, bool_decide (x ∈ sync)) (stack s) in
  add_trail (thread_id s) (timestamp_ns s) (cpu s)
    (mkTallies (<[thread_id s := (total + 1, waiting + if waits then 1 else 0)]> (t_samples t)) (t_cpu_time t) (trails t) (t_has_cpu_ids t)).

Definition overlaps (range : TimeRange) (o : CpuObservation) : bool :=
  match wall_interval_start_ns o with
  | Some start => (start <? end_ns range) && (start_ns range <? ob_timestamp_ns o)
  | None => (start_ns range <=? ob_timestamp_ns o) && (ob_timestamp_ns o <? end_ns range)
  end.

Definition weight_in (f : SampleFilter) (range : TimeRange) (o : CpuObservation) : f64 :=
  match wall_interval_start_ns o with
  | None => u64_as_f64 (weight_ns o)
  | Some start =>
      let full := saturating_sub (ob_timestamp_ns o) start in
      let clipped := mkRange (Z.max start (start_ns range)) (Z.min (ob_timestamp_ns o) (end_ns range)) in
      let overlap := RegionData.sum_lengths (observation_ranges f o clipped) in
      if full =? 0 then f64_zero
      else f64_div (f64_mul (u64_as_f64 (weight_ns o)) (u64_as_f64 overlap)) (u64_as_f64 full)
  end.

Definition tally_observation (f : SampleFilter) (range : TimeRange) (t : Tallies) (o : CpuObservation) : Tallies :=
  let thread := ob_thread_id o in
  add_trail thread (ob_timestamp_ns o) (ob_cpu o)
    (mkTallies (t_samples t) (<[thread := f64_add (default f64_zero (t_cpu_time t !! thread)) (weight_in f range o)]> (t_cpu_time t))
       (trails t) (t_has_cpu_ids t)).

Definition balance_row (wall : f64) (region : option (gmap Z Z)) (t : Tallies) (thread : Z) : ThreadBalanceRow :=
  let '(total, waiting) := default (0, 0) (t_samples t !! thread) in
  let wall := match region with None => wall | Some m => u64_as_f64 (default 0 (m !! thread)) end in
  let busy := if f64_positive wall then f64_clamp01 (f64_div (default f64_zero (t_cpu_time t !! thread)) wall) else f64_zero in
  mkBalanceRow thread busy (fraction waiting total) (migrations (trails t !! thread)) total.

Definition build_balance (p : ProfileData) (f : SampleFilter) : outcome (option ThreadBalance) :=
  match analysis_range p f with
  | None => Done None
  | Some range =>
      let wall := u64_as_f64 (saturating_sub (end_ns range) (start_ns range)) in
      if f64_leb wall f64_zero then Done None
      else
        acc ← accepted f (samples p);
        matching ← matched f (cpu_observations p);
        let t := foldl (tally_sample (sync_frames (frames p))) (mkTallies ∅ ∅ ∅ false) acc in
        let t := foldl (tally_observation f range) t (List.filter (overlaps range) matching) in
        let threads := merge_sort Z.le (elements (dom (t_samples t) ∪ dom (t_cpu_time t))) in
        Done (Some (mkBalance (balance_row wall (region_wall f range) t <$> threads) (t_has_cpu_ids t)))
  end.
End Threads.

Module Tracks.

Inductive CounterAggregation := Sum | Ratio.
Record CounterTrack := mkTrack {
  tr_key : list Z;
  tr_label : list Z;
  aggregation : CounterAggregation;
  values : list (option f64)
}.
Record CounterTracks := mkTracks {
  k_range : TimeRange;
  k_bin_width_ns : Z;
  k_bins : nat;
  sample_counts : list Z;
  tracks : list CounterTrack
}.

(** Sums, presence and counts: a row per counter, a column per bin. *)
Record Grid := mkGrid { sums : list (list f64); present : list (list bool); g_counts : list Z }.

(** [table[i][j]] changed in place; an index out of range panics. *)
Definition update2 {A} (i j : nat) (f : A → A) (table : list (list A)) : outcome (list (list A)) :=
  row ← unwrap (table !! i); x ← unwrap (row !! j); Done (<[i := <[j := f x]> row]> table).

Definition add_metric (b : nat) (g : Grid) (e : nat * option f64) : outcome Grid :=
  match e.2 with
  | Some v =>
      if f64_is_finite v then
        sums ← update2 e.1 b (λ x, f64_add x v) (sums g);
        present ← update2 e.1 b (λ _, true) (present g);
        Done (mkGrid sums present (g_counts g))
      else Done g
  | None => Done g
  end.

Definition add_sample (range : TimeRange) (width : Z) (bins metric_count : nat) (g : Grid) (s : ProfileSample) : outcome Grid :=
  if negb (in_time range s) then Done g
  else
    let b := Nat.min (Z.to_nat ((timestamp_ns s - start_ns range) / width)) (bins - 1) in
    n ← unwrap (g_counts g !! b);
    fold_outcome (add_metric b) (take metric_count (imap pair (counters s)))
      (mkGrid (sums g) (present g) (<[b := saturating_add n 1]> (g_counts g))).

(** [table[i][j]]. *)
Definition at2 {A} (table : list (list A)) (i j : nat) : outcome A :=
  row ← unwrap (table !! i); unwrap (row !! j).

Fixpoint collect {A B} (f : A → outcome B) (l : list A) : outcome (list B) :=
  match l with
  | [] => Done []
  | x :: l => y ← f x; ys ← collect f l; Done (y :: ys)
  end.

Definition sum_value (g : Grid) (index bin : nat) : outcome (option f64) :=
  here ← at2 (present g) index bin;
  sum ← at2 (sums g) index bin;
  Done (if here : bool then Some sum else None).

Definition sum_track (g : Grid) (bins : nat) (e : nat * CounterMetric) : outcome CounterTrack :=
  values ← collect (sum_value g e.1) (seq 0 bins);
  Done (mkTrack (m_key e.2) (m_label e.2) Sum values).

Definition ipc_value (g : Grid) (cycles instructions bin : nat) : outcome (option f64) :=
  pc ← at2 (present g) cycles bin;
  pi ← at2 (present g) instructions bin;
  c ← at2 (sums g) cycles bin;
  i ← at2 (sums g) instructions bin;
  let q := f64_div i c in
  Done (if (pc : bool) && (pi : bool) && f64_nonzero c && f64_is_finite q then Some q else None).

Definition ipc_track (g : Grid) (bins cycles instructions : nat) : outcome CounterTrack :=
  values ← collect (ipc_value g cycles instructions) (seq 0 bins);
  Done (mkTrack (chars "derived.ipc") (chars "IPC (derived)") Ratio values).

Definition build_tracks (p : ProfileData) (f : SampleFilter) (max_bins : Z) : outcome (option CounterTracks) :=
  match analysis_range p f with
  | None => Done None
  | Some range =>
      let duration := saturating_sub (end_ns range) (start_ns range) in
      if duration =? 0 then Done None
      else
        w ← nice_bin_width (div_ceil duration (Z.max max_bins 1));
        let width := Z.max w 1 in
        let bins := Z.to_nat (Z.max (div_ceil duration width) 1) in
        let n := length (counter_metrics p) in
        acc ← accepted f (samples p);
        g ← fold_outcome (add_sample range width bins n) acc
              (mkGrid (replicate n (replicate bins f64_zero)) (replicate n (replicate bins false)) (replicate bins 0));
        tracks ← collect (sum_track g bins) (imap pair (counter_metrics p));
        derived ← match find_metric (counter_metrics p) ["cycles"; "pmu_cycles"]%string,
                        find_metric (counter_metrics p) ["instructions"; "pmu_instructions"]%string with
                  | Some cycles, Some instructions => t ← ipc_track g bins cycles instructions; Done [t]
                  | _, _ => Done []
                  end;
        Done (Some (mkTracks range width bins (g_counts g) (tracks ++ derived)))
  end.
End Tracks.
