(* ===== verification/TimelinesSpec.v ===== *)
(** * What the time lines show

    - [Module TrackCells]: every counter track has, bin by bin, the sum of its samples;
    - [Module TrackViews]: the tracks of the view, read off those cells.

    Lanes and the thread balance are the subject of [LanesSpec.v]. *)

From S2P Require Import Prelude Words Floats Regions RegionsSpec RegionsNest CallTree CallTreeSpec ProfileAnalysis ProfileAnalysisSpec FunctionAnalysis Timelines.
From stdpp Require Import sorting.
Open Scope Z_scope.

(** A fold that returns, with an invariant on the elements so far. *)
Lemma fold_outcome_prefix {A St} (I : list A → St → Prop) (f : St → A → outcome St) l s :
  I [] s →
  (∀ done x rest s, l = done ++ x :: rest → I done s → ∃ s', f s x = Done s' ∧ I (done ++ [x]) s') →
  ∃ s', fold_outcome f l s = Done s' ∧ I l s'.
Proof.
  intros H0 Hstep. assert (G : ∀ rest done s, l = done ++ rest → I done s → ∃ s', fold_outcome f rest s = Done s' ∧ I l s').
  { induction rest as [|x rest IH]; intros done s' El Hd; cbn.
    - exists s'. by rewrite app_nil_r in El; subst.
    - destruct (Hstep done x rest s' El Hd) as (s1 & -> & H1). cbn. apply (IH (done ++ [x])); [by rewrite <-app_assoc|done]. }
  by apply (G l []).
Qed.

Module TrackCells.
Import Tracks.

Definition cell {A} (table : list (list A)) (i j : nat) : option A := row ← table !! i; row !! j.

Lemma at2_cell {A} (table : list (list A)) i j x : cell table i j = Some x → at2 table i j = Done x.
Proof. unfold cell, at2. destruct (table !! i); [|done]. cbn. by intros ->. Qed.

Lemma update2_cell {A} (table : list (list A)) i j f x : cell table i j = Some x →
  ∃ table', update2 i j f table = Done table' ∧
    ∀ i' j', cell table' i' j' = if bool_decide (i' = i ∧ j' = j) then Some (f x) else cell table i' j'.
Proof.
  unfold cell, update2. destruct (table !! i) as [row|] eqn:Ei; [|done]. cbn. intros Ej. rewrite Ej. cbn. eexists. split; [done|].
  intros i' j'. destruct (decide (i' = i)) as [->|Hi].
  - rewrite list_lookup_insert_eq by by eapply lookup_lt_Some. cbn. rewrite Ei. cbn. case_bool_decide as E.
    + destruct E as [_ ->]. apply list_lookup_insert_eq. by eapply lookup_lt_Some.
    + apply list_lookup_insert_ne. intros ->. by apply E.
  - rewrite list_lookup_insert_ne by done. rewrite bool_decide_false by tauto. done.
Qed.

Lemma cell_replicate {A} n m (x : A) i j : (i < n)%nat → (j < m)%nat → cell (replicate n (replicate m x)) i j = Some x.
Proof. intros Hi Hj. unfold cell. rewrite (proj2 (lookup_replicate _ _ _ _)) by done. cbn. by apply lookup_replicate. Qed.

Lemma collect_seq {B} (f : nat → outcome B) (g : nat → B) k n :
  (∀ i, (k ≤ i < k + n)%nat → f i = Done (g i)) → collect f (seq k n) = Done (g <$> seq k n).
Proof.
  revert k. induction n as [|n IH]; intros k H; [done|]. cbn. rewrite H by lia. cbn. rewrite IH; [done|]. intros i Hi. apply H. lia.
Qed.

Lemma collect_imap {A B} (f : nat * A → outcome B) (g : nat → A → B) k (l : list A) :
  (∀ i x, l !! i = Some x → f ((k + i)%nat, x) = Done (g (k + i)%nat x)) →
  collect f (imap (λ i x, ((k + i)%nat, x)) l) = Done (imap (λ i x, g (k + i)%nat x) l).
Proof.
  revert k. induction l as [|x l IH]; intros k H; [done|]. cbn [imap collect]. rewrite (H 0%nat x) by done. cbn [mbind outcome_bind].
  rewrite (imap_ext _ (λ i x, ((S k + i)%nat, x))) by (intros; unfold compose; f_equal; lia).
  rewrite (IH (S k)).
  - cbn. do 2 f_equal. apply imap_ext. intros. unfold compose. f_equal. lia.
  - intros i y Hi. replace (S k + i)%nat with (k + S i)%nat by lia. by apply H.
Qed.

(** ** What a cell holds *)
Section cells.
Context (range : TimeRange) (width : Z) (bins n : nat).

Definition bin_of (s : ProfileSample) : nat := Z.to_nat ((timestamp_ns s - start_ns range) / width).
Definition in_bin (b : nat) (s : ProfileSample) : bool := in_time range s && bool_decide (bin_of s = b).

Definition finite (v : option f64) : option f64 := v ← v; if f64_is_finite v then Some v else None.

(** The values of a counter in a bin, in the order of the samples. *)
Definition bin_values (acc : list ProfileSample) (i b : nat) : list f64 :=
  omap (λ s, if in_bin b s then finite (counter_at s i) else None) acc.
Definition bin_total (acc : list ProfileSample) (i b : nat) : f64 := foldl f64_add f64_zero (bin_values acc i b).
Definition bin_present (acc : list ProfileSample) (i b : nat) : bool := negb (bool_decide (length (bin_values acc i b) = 0%nat)).

Definition filled (acc : list ProfileSample) (g : Grid) : Prop :=
  (∀ i b, (i < n)%nat → (b < bins)%nat → cell (sums g) i b = Some (bin_total acc i b) ∧ cell (present g) i b = Some (bin_present acc i b)) ∧
  (∀ b, (b < bins)%nat → g_counts g !! b = Some (count_if (in_bin b) acc)).

(** The grid during one sample: the first [k] counters are in. *)
Definition adding (acc : list ProfileSample) (s : ProfileSample) (k : nat) (g : Grid) : Prop :=
  ∀ i b, (i < n)%nat → (b < bins)%nat →
    let acc' := if bool_decide (i < k)%nat then acc ++ [s] else acc in
    cell (sums g) i b = Some (bin_total acc' i b) ∧ cell (present g) i b = Some (bin_present acc' i b).

Lemma bin_values_snoc acc s i b : bin_values (acc ++ [s]) i b =
  bin_values acc i b ++ match (if in_bin b s then finite (counter_at s i) else None) with Some v => [v] | None => [] end.
Proof. unfold bin_values. rewrite omap_app. cbn. by destruct (if in_bin b s then _ else _). Qed.

Lemma bin_unchanged acc s i b : (in_bin b s = true → finite (counter_at s i) = None) →
  bin_total (acc ++ [s]) i b = bin_total acc i b ∧ bin_present (acc ++ [s]) i b = bin_present acc i b.
Proof.
  intros H. unfold bin_total, bin_present. rewrite bin_values_snoc.
  replace (if in_bin b s then finite (counter_at s i) else None) with (@None f64) by (destruct (in_bin b s); [by rewrite H|done]).
  by rewrite app_nil_r.
Qed.

Lemma bin_added acc s i b v : in_bin b s = true → finite (counter_at s i) = Some v →
  bin_total (acc ++ [s]) i b = f64_add (bin_total acc i b) v ∧ bin_present (acc ++ [s]) i b = true.
Proof.
  intros Hb Hv. unfold bin_total, bin_present. rewrite bin_values_snoc, Hb, Hv, foldl_app. cbn. split; [done|].
  rewrite length_app. cbn. rewrite bool_decide_false by lia. done.
Qed.

(** One counter of the sample. *)
Lemma add_metric_spec acc s k v g b : (k < n)%nat → (b < bins)%nat → (∀ b', in_bin b' s = bool_decide (b' = b)) →
  counters s !! k = Some v → adding acc s k g →
  ∃ g', add_metric b g (k, v) = Done g' ∧ adding acc s (S k) g' ∧ g_counts g' = g_counts g.
Proof.
  intros Hk Hb Hin Hv Ha. unfold add_metric. cbn [fst snd].
  assert (Ev : finite (counter_at s k) = finite v) by (unfold counter_at; by rewrite Hv).
  (* the other counters are as they were *)
  assert (Hother : ∀ i, i ≠ k → bool_decide (i < S k)%nat = bool_decide (i < k)%nat) by (intros i Hi; apply bool_decide_ext; lia).
  destruct (finite v) as [x|] eqn:Ex.
  - destruct v as [y|]; [|done]. cbn in Ex. destruct (f64_is_finite y); [injection Ex as ->|done].
    destruct (Ha k b Hk Hb) as [Hs Hp]. cbv zeta in Hs, Hp. rewrite bool_decide_false in Hs, Hp by lia.
    destruct (update2_cell _ _ _ (λ z, f64_add z x) _ Hs) as (ts & -> & Hts).
    destruct (update2_cell _ _ _ (λ _, true) _ Hp) as (tp & -> & Htp). cbn [mbind outcome_bind]. eexists. split; [done|]. split; [|done].
    intros i b' Hi Hb'. cbv zeta. cbn [sums present]. rewrite Hts, Htp. destruct (Ha i b' Hi Hb') as [H1 H2]. cbv zeta in H1, H2.
    destruct (decide (i = k)) as [->|Hik].
    + rewrite (bool_decide_true (k < S k)%nat) by lia. rewrite bool_decide_false in H1, H2 by lia. destruct (decide (b' = b)) as [->|Hbb].
      * rewrite !bool_decide_true by done. destruct (bin_added acc s k b x) as [-> ->]; [by rewrite Hin, bool_decide_true|done|done].
      * rewrite !bool_decide_false by tauto. destruct (bin_unchanged acc s k b') as [-> ->]; [by rewrite Hin, bool_decide_false|done].
    + rewrite !(bool_decide_false (i = k ∧ _)) by tauto. by rewrite Hother.
  - exists g. split; [destruct v as [y|]; cbn in Ex |- *; [by destruct (f64_is_finite y)|done]|]. split; [|done].
    intros i b' Hi Hb'. cbv zeta. destruct (Ha i b' Hi Hb') as [H1 H2]. cbv zeta in H1, H2. destruct (decide (i = k)) as [->|Hik].
    + rewrite (bool_decide_true (k < S k)%nat) by lia. rewrite bool_decide_false in H1, H2 by lia.
      by destruct (bin_unchanged acc s k b') as [-> ->].
    + by rewrite Hother.
Qed.

(** All counters of the sample. *)
Lemma add_metrics_spec acc s g b : (b < bins)%nat → (∀ b', in_bin b' s = bool_decide (b' = b)) → adding acc s 0 g →
  ∃ g', fold_outcome (add_metric b) (take n (imap pair (counters s))) g = Done g' ∧ adding acc s n g' ∧ g_counts g' = g_counts g.
Proof.
  intros Hb Hin Ha. set (l := take n (imap pair (counters s))).
  destruct (fold_outcome_prefix (λ done g', adding acc s (length done) g' ∧ g_counts g' = g_counts g) (add_metric b) l g) as (g' & -> & Hg' & Hc).
  - done.
  - intros done x rest g1 El [H1 H2]. assert (Hx : l !! length done = Some x) by (rewrite El; by apply list_lookup_middle).
    apply lookup_take_Some in Hx as [Hx Hlt]. rewrite list_lookup_imap in Hx. destruct (counters s !! length done) as [v|] eqn:Ev; [|done].
    injection Hx as <-. destruct (add_metric_spec acc s _ v g1 b Hlt Hb Hin Ev H1) as (g2 & -> & H3 & H4). eexists. split; [done|].
    rewrite length_app, Nat.add_1_r. split; [done|congruence].
  - exists g'. split; [done|]. split; [|done]. intros i b' Hi Hb'. destruct (Hg' i b' Hi Hb') as [H1 H2]. cbv zeta in *.
    rewrite (bool_decide_true (i < n)%nat) by done. case_bool_decide as Hl; [done|].
    assert (Hnone : counters s !! i = None).
    { apply lookup_ge_None. unfold l in Hl. rewrite length_take, length_imap in Hl. lia. }
    destruct (bin_unchanged acc s i b') as [-> ->]; [|done]. intros _. unfold counter_at. by rewrite Hnone.
Qed.

Lemma adding_start acc s g : filled acc g → adding acc s 0 g.
Proof. intros [H _] i b Hi Hb. cbv zeta. rewrite bool_decide_false by lia. by apply H. Qed.

Lemma count_unchanged acc s g : in_time range s = false → filled acc g → filled (acc ++ [s]) g.
Proof.
  intros Hs [H1 H2]. split.
  - intros i b Hi Hb. destruct (bin_unchanged acc s i b) as [-> ->]; [unfold in_bin; by rewrite Hs|by apply H1].
  - intros b Hb. rewrite (H2 b Hb), count_if_snoc. unfold in_bin at 3. rewrite Hs. cbn. f_equal. lia.
Qed.

Context (Hwidth : 0 < width) (Hbins : end_ns range - start_ns range ≤ Z.of_nat bins * width).

Lemma bin_of_bound s : in_time range s = true → (bin_of s < bins)%nat.
Proof.
  intros [H1%Z.leb_le H2%Z.ltb_lt]%andb_true_iff. unfold bin_of.
  assert ((timestamp_ns s - start_ns range) / width < Z.of_nat bins) by (apply Z.div_lt_upper_bound; lia).
  pose proof (Z.div_pos (timestamp_ns s - start_ns range) width ltac:(lia) Hwidth). lia.
Qed.

Lemma add_sample_cells acc s g : Z.of_nat (S (length acc)) ≤ u64_max → filled acc g →
  ∃ g', add_sample range width bins n g s = Done g' ∧ filled (acc ++ [s]) g'.
Proof.
  intros Hl Hf. unfold add_sample. destruct (in_time range s) eqn:Es; cbn [negb]; [|exists g; split; [done|by apply count_unchanged]].
  pose proof (bin_of_bound s Es) as Hb. fold (bin_of s). rewrite Nat.min_l by lia.
  assert (Hin : ∀ b', in_bin b' s = bool_decide (b' = bin_of s)) by (intros b'; unfold in_bin; rewrite Es; cbn; apply bool_decide_ext; done).
  destruct Hf as [Hcells Hcounts]. rewrite (Hcounts _ Hb). cbn [mbind outcome_bind unwrap].
  destruct (add_metrics_spec acc s (mkGrid (sums g) (present g) (<[bin_of s := saturating_add (count_if (in_bin (bin_of s)) acc) 1]> (g_counts g)))
    (bin_of s) Hb Hin) as (g' & -> & Hg' & Ec); [by apply (adding_start acc s g)|].
  exists g'. split; [done|]. split.
  - intros i b Hi Hb'. pose proof (Hg' i b Hi Hb') as H. cbv zeta in H. by rewrite bool_decide_true in H.
  - intros b Hb'. rewrite Ec, count_if_snoc, Hin. cbn [g_counts]. pose proof (count_if_bounds (in_bin (bin_of s)) acc).
    destruct (decide (b = bin_of s)) as [->|Hne].
    + rewrite bool_decide_true by done. rewrite list_lookup_insert_eq by (eapply lookup_lt_Some; by apply Hcounts). f_equal. word_lia.
    + rewrite bool_decide_false by done. rewrite list_lookup_insert_ne by done. rewrite (Hcounts b Hb'). f_equal. lia.
Qed.

Lemma grid_spec acc : Z.of_nat (length acc) ≤ u64_max →
  ∃ g, fold_outcome (add_sample range width bins n) acc
         (mkGrid (replicate n (replicate bins f64_zero)) (replicate n (replicate bins false)) (replicate bins 0)) = Done g ∧ filled acc g.
Proof.
  intros Hl. apply (fold_outcome_prefix filled).
  - split; [intros i b Hi Hb; split; by apply cell_replicate|]. intros b Hb. by apply lookup_replicate.
  - intros done s rest g El Hf. apply add_sample_cells; [|done]. subst acc. rewrite length_app in Hl. cbn in Hl. lia.
Qed.
End cells.
End TrackCells.

(** Bins no narrower than a share of the time: there are no more bins than shares, and they
    cover the time. *)
Lemma bins_bound d target : 0 < d ≤ u64_max → 0 < target →
  ∃ w, nice_bin_width (div_ceil d target) = Done w ∧ 0 < Z.max w 1 ≤ u64_max ∧
    1 ≤ div_ceil d (Z.max w 1) ≤ target ∧ d ≤ div_ceil d (Z.max w 1) * Z.max w 1.
Proof.
  intros Hd Ht. destruct (Bins.div_ceil_spec d target ltac:(lia) Ht) as (H1 & H2 & H3).
  assert (Hle : div_ceil d target ≤ d).
  { unfold div_ceil. rewrite (proj2 (Z.eqb_neq target 0)) by lia. pose proof (Z.div_mod d target ltac:(lia)).
    pose proof (Z.mod_pos_bound d target ltac:(lia)). pose proof (Z.div_pos d target ltac:(lia) Ht).
    destruct (Z.eqb_spec (d mod target) 0); nia. }
  destruct (Bins.nice_bin_width_total (div_ceil d target)) as (w & Ew & Hw); [lia|]. exists w. split; [done|].
  replace (Z.max w 1) with w by lia. destruct (Bins.div_ceil_spec d w ltac:(lia) ltac:(lia)) as (H4 & H5 & H6).
  split; [lia|]. split; [|lia]. split; [lia|]. unfold div_ceil. rewrite (proj2 (Z.eqb_neq w 0)) by lia.
  pose proof (Z.div_mod d w ltac:(lia)). pose proof (Z.mod_pos_bound d w ltac:(lia)).
  destruct (Z.eqb_spec (d mod w) 0); nia.
Qed.

Lemma analysis_range_order p f r : analysis_range p f = Some r → start_ns r < end_ns r.
Proof.
  unfold analysis_range. destruct (full_range p) as [full|]; [|done]. cbn. case_match eqn:E; [|done].
  intros [= <-]. by apply Z.ltb_lt.
Qed.

(** The value of a counter in a bin: the sum, or none without a finite value. *)
Definition track_value (r : TimeRange) (width : Z) (acc : list ProfileSample) (i b : nat) : option f64 :=
  if TrackCells.bin_present r width acc i b then Some (TrackCells.bin_total r width acc i b) else None.

(** Instructions per cycle, from the sums. *)
Definition ipc_of (instructions cycles : option f64) : option f64 :=
  i ← instructions; c ← cycles;
  if f64_nonzero c && f64_is_finite (f64_div i c) then Some (f64_div i c) else None.

Definition derived_tracks (r : TimeRange) (width : Z) (bins : nat) (metrics : list CounterMetric) (acc : list ProfileSample)
    : list Tracks.CounterTrack :=
  match find_metric metrics ["cycles"; "pmu_cycles"]%string, find_metric metrics ["instructions"; "pmu_instructions"]%string with
  | Some c, Some i =>
      [Tracks.mkTrack (Text.chars "derived.ipc") (Text.chars "IPC (derived)") Tracks.Ratio
         ((λ b, ipc_of (track_value r width acc i b) (track_value r width acc c b)) <$> seq 0 bins)]
  | _, _ => []
  end.

Module TrackViews.
Import Tracks TrackCells.
Section views.
Context (r : TimeRange) (width : Z) (bins : nat) (metrics : list CounterMetric) (acc : list ProfileSample) (g : Grid).
Context (Hg : filled r width bins (length metrics) acc g).

Lemma sum_value_spec i b : (i < length metrics)%nat → (b < bins)%nat → sum_value g i b = Done (track_value r width acc i b).
Proof.
  intros Hi Hb. destruct (proj1 Hg i b Hi Hb) as [Hs Hp]. unfold sum_value.
  rewrite (at2_cell _ _ _ _ Hp), (at2_cell _ _ _ _ Hs). done.
Qed.

Lemma sum_tracks_spec : collect (sum_track g bins) (imap pair metrics) =
  Done (imap (λ i m, mkTrack (m_key m) (m_label m) Sum (track_value r width acc i <$> seq 0 bins)) metrics).
Proof.
  apply (collect_imap (sum_track g bins) (λ i m, mkTrack (m_key m) (m_label m) Sum (track_value r width acc i <$> seq 0 bins)) 0).
  intros i m Hi. unfold sum_track. cbn [fst snd]. rewrite (collect_seq _ (track_value r width acc (0 + i))); [done|].
  intros b Hb. apply sum_value_spec; [by eapply lookup_lt_Some|lia].
Qed.

Lemma ipc_track_spec c i : (c < length metrics)%nat → (i < length metrics)%nat →
  ipc_track g bins c i = Done (mkTrack (Text.chars "derived.ipc") (Text.chars "IPC (derived)") Ratio
    ((λ b, ipc_of (track_value r width acc i b) (track_value r width acc c b)) <$> seq 0 bins)).
Proof.
  intros Hc Hi. unfold ipc_track. rewrite (collect_seq _ (λ b, ipc_of (track_value r width acc i b) (track_value r width acc c b))); [done|].
  intros b Hb. destruct (proj1 Hg c b Hc ltac:(lia)) as [Hs Hp]. destruct (proj1 Hg i b Hi ltac:(lia)) as [Hs' Hp']. unfold ipc_value.
  rewrite (at2_cell _ _ _ _ Hp), (at2_cell _ _ _ _ Hs), (at2_cell _ _ _ _ Hp'), (at2_cell _ _ _ _ Hs'). cbn. f_equal.
  unfold track_value. destruct (bin_present r width acc c b), (bin_present r width acc i b); cbn; done.
Qed.

Lemma derived_spec :
  match find_metric metrics ["cycles"; "pmu_cycles"]%string, find_metric metrics ["instructions"; "pmu_instructions"]%string with
  | Some cycles, Some instructions => t ← ipc_track g bins cycles instructions; Done [t]
  | _, _ => Done []
  end = Done (derived_tracks r width bins metrics acc).
Proof.
  unfold derived_tracks. destruct (find_metric metrics ["cycles"; _]%string) as [c|] eqn:Ec; [|done].
  destruct (find_metric metrics ["instructions"; _]%string) as [i|] eqn:Ei; [|done].
  apply position_lt in Ec, Ei. by rewrite ipc_track_spec.
Qed.
End views.
End TrackViews.

(** The counter tracks of a profile are built whenever its analysis has a range: at
    most as many bins as asked for, which cover the range; each bin counts the accepted
    samples of its time and shows for every counter the sum of their finite values in the
    order of the samples, or nothing when there are none; the derived track is the quotient
    of the sums of instructions and cycles. *)
Theorem tracks_exact (p : ProfileData) (f : SampleFilter) (max_bins : Z) (r : TimeRange) :
  analysis_range p f = Some r → 0 ≤ start_ns r → end_ns r ≤ u64_max → Z.of_nat (length (samples p)) ≤ u64_max →
  ∃ acc t, accepted f (samples p) = Done acc ∧ Tracks.build_tracks p f max_bins = Done (Some t) ∧ Tracks.k_range t = r ∧
    1 ≤ Z.of_nat (Tracks.k_bins t) ≤ Z.max max_bins 1 ∧
    end_ns r - start_ns r ≤ Z.of_nat (Tracks.k_bins t) * Tracks.k_bin_width_ns t ∧
    (∀ b, (b < Tracks.k_bins t)%nat →
       Tracks.sample_counts t !! b = Some (count_if (TrackCells.in_bin r (Tracks.k_bin_width_ns t) b) acc)) ∧
    Tracks.tracks t =
      imap (λ i m, Tracks.mkTrack (m_key m) (m_label m) Tracks.Sum
        (track_value r (Tracks.k_bin_width_ns t) acc i <$> seq 0 (Tracks.k_bins t))) (counter_metrics p) ++
      derived_tracks r (Tracks.k_bin_width_ns t) (Tracks.k_bins t) (counter_metrics p) acc.
Proof.
  intros Hr Hs He Hlen. destruct (Tree.accepted_total f (samples p)) as [acc Ea]. pose proof (Bins.accepted_length _ _ _ Ea).
  pose proof (analysis_range_order _ _ _ Hr) as Hlt. unfold Tracks.build_tracks. rewrite Hr, Ea.
  assert (Ed : saturating_sub (end_ns r) (start_ns r) = end_ns r - start_ns r) by word_lia.
  rewrite Ed, (proj2 (Z.eqb_neq _ _)) by lia.
  destruct (bins_bound (end_ns r - start_ns r) (Z.max max_bins 1)) as (w & -> & Hw & Hb & Hcover); [lia|lia|]. cbn [mbind outcome_bind].
  set (width := Z.max w 1) in *. replace (Z.max (div_ceil (end_ns r - start_ns r) width) 1) with (div_ceil (end_ns r - start_ns r) width) by lia.
  set (n := div_ceil (end_ns r - start_ns r) width) in *.
  destruct (TrackCells.grid_spec r width (Z.to_nat n) (length (counter_metrics p)) ltac:(lia) ltac:(lia) acc ltac:(lia)) as (g & -> & Hg).
  cbn [mbind outcome_bind]. rewrite (TrackViews.sum_tracks_spec _ _ _ _ _ _ Hg). cbn [mbind outcome_bind].
  rewrite (TrackViews.derived_spec _ _ _ _ _ _ Hg). cbn [mbind outcome_bind].
  exists acc. eexists. split_and!; [done|reflexivity|..]; cbn [Tracks.k_range Tracks.k_bins Tracks.k_bin_width_ns Tracks.sample_counts Tracks.tracks];
    [done|lia|lia|lia|apply Hg|done].
Qed.

Lemma tracks_exact_witness :
  let s t v := mkSample t 1 1 None (u64_as_f64 1) [7] [Some (u64_as_f64 v); Some (u64_as_f64 5)] in
  let p := mkProfile [] [s 100 8; s 130 6; s 130 1; s 219 2] [] None [mkMetric (Text.chars "cycles") []; mkMetric (Text.chars "instructions") []] None in
  ∃ acc t, accepted no_filter (samples p) = Done acc ∧ Tracks.build_tracks p no_filter 24 = Done (Some t) ∧
    length (Tracks.tracks t) = 3%nat ∧ Tracks.k_range t = mkRange 100 220.
Proof.
  intros s p. destruct (tracks_exact p no_filter 24 (mkRange 100 220)) as (acc & t & Ha & Ht & Hk & _ & _ & _ & Hts);
    [reflexivity|cbn; lia|vm_compute; discriminate|vm_compute; discriminate|].
  exists acc, t. split; [exact Ha|]. split; [exact Ht|]. split; [|exact Hk]. rewrite Hts. reflexivity.
Defined.
