(* ===== verification/LanesSpec.v ===== *)
(** * What the processor lanes and the thread balance show

    - [Module Buckets]: the buckets share an interval without gap or overlap, and the loop
      over its buckets misses none that it touches;
    - [Module Lanes]: every bucket of a lane has the time attributed to it;
    - [Module Tally]: samples, waiting samples, processor time and the trail of processors of
      every thread, and the rows of the balance read off them. *)

From S2P Require Import Prelude Words Floats Regions CallTree CallTreeSpec ProfileAnalysis ProfileAnalysisSpec FunctionAnalysis FunctionAnalysisSpec Timelines TimelinesSpec.
From stdpp Require Import sorting.
Open Scope Z_scope.
Import Observations CpuLanes.

Module Buckets.
Section buckets.
Context (r : TimeRange) (width : Z) (n : nat).
Context (Hs : 0 ≤ start_ns r) (He : end_ns r ≤ u64_max) (Hr : start_ns r < end_ns r) (Hw : 0 < width).
Context (Hn : end_ns r - start_ns r ≤ Z.of_nat n * width) (Hn' : (Z.of_nat n - 1) * width < end_ns r - start_ns r) (Hn0 : (0 < n)%nat).

(** The part of a time range that falls into a bucket. *)
Definition overlap (q : TimeRange) (b : nat) : Z :=
  let lo := start_ns r + Z.of_nat b * width in
  Z.max 0 (Z.min (end_ns q) (Z.min (lo + width) (end_ns r)) - Z.max (start_ns q) lo).

Lemma bucket_start b : (b < n)%nat → start_ns r + Z.of_nat b * width < end_ns r.
Proof. intros Hb. assert (Z.of_nat b * width ≤ (Z.of_nat n - 1) * width) by nia. lia. Qed.

Lemma bucket_range_exact b : (b < n)%nat →
  bucket_range r width b = mkRange (start_ns r + Z.of_nat b * width) (Z.min (start_ns r + Z.of_nat b * width + width) (end_ns r)).
Proof.
  intros Hb. pose proof (bucket_start b Hb). assert (0 ≤ Z.of_nat b * width) by nia. unfold bucket_range.
  assert (E : saturating_add (start_ns r) (saturating_mul (Z.of_nat b) width) = start_ns r + Z.of_nat b * width) by word_lia.
  rewrite E. f_equal. word_lia.
Qed.

(** The buckets partition a range: the time before bucket [k] is shared by those before it. *)
Lemma overlap_prefix q k : start_ns r ≤ start_ns q → end_ns q ≤ end_ns r → (k ≤ n)%nat →
  foldr (λ b acc, overlap q b + acc) 0 (seq 0 k) = Z.max 0 (Z.min (end_ns q) (start_ns r + Z.of_nat k * width) - start_ns q).
Proof.
  intros H1 H2. induction k as [|k IH]; intros Hk; [cbn; lia|]. rewrite seq_S, foldr_app. cbn [foldr].
  assert (Hacc : ∀ l x, foldr (λ b acc, overlap q b + acc) x l = foldr (λ b acc, overlap q b + acc) 0 l + x).
  { clear. induction l as [|b l IH]; intros x; cbn; [lia|]. rewrite IH. lia. }
  rewrite Hacc, IH by lia. pose proof (bucket_start k ltac:(lia)). unfold overlap. cbn [Nat.add].
  replace (Z.of_nat (S k) * width) with (Z.of_nat k * width + width) by lia.
  set (m := Z.of_nat k * width) in *. assert (0 ≤ m) by (unfold m; nia). clearbody m. lia.
Qed.

Lemma overlap_total q : start_ns r ≤ start_ns q ≤ end_ns q → end_ns q ≤ end_ns r →
  foldr (λ b acc, overlap q b + acc) 0 (seq 0 n) = end_ns q - start_ns q.
Proof. intros H1 H2. rewrite overlap_prefix by (done || lia). lia. Qed.

(** ** Bucket numbers *)
Lemma bucket_of_exact t : start_ns r ≤ t < end_ns r →
  bucket_of r width n t = Z.to_nat ((t - start_ns r) / width) ∧
  start_ns r + Z.of_nat (bucket_of r width n t) * width ≤ t < start_ns r + (Z.of_nat (bucket_of r width n t) + 1) * width ∧
  (bucket_of r width n t < n)%nat.
Proof.
  intros Ht. unfold bucket_of. unfold wrapping_sub. rewrite wrap64_small by (unfold in_u64; lia).
  set (x := t - start_ns r) in *. assert (Hx : 0 ≤ x < Z.of_nat n * width) by lia.
  pose proof (Z.div_pos x width ltac:(lia) Hw) as Hd0. assert (Hd : x / width < Z.of_nat n) by (apply Z.div_lt_upper_bound; lia).
  rewrite Nat.min_l by lia. split; [done|]. rewrite Z2Nat.id by done.
  pose proof (Z.div_mod x width ltac:(lia)). pose proof (Z.mod_pos_bound x width Hw). split; [nia|lia].
Qed.

(** What a bucket receives from an interval. *)
Definition pieces (o : CpuObservation) (duration : Z) (b : nat) (q : TimeRange) : list f64 :=
  if 0 <? overlap q b
  then [f64_div (f64_mul (u64_as_f64 (weight_ns o)) (u64_as_f64 (overlap q b))) (u64_as_f64 duration)] else [].

Lemma share_exact o duration q b v : (b < n)%nat → end_ns q ≤ end_ns r →
  share r width o duration q b v = foldl f64_add v (pieces o duration b q).
Proof.
  intros Hb Hq. unfold share, pieces. rewrite (bucket_range_exact b Hb). cbn [start_ns end_ns]. unfold overlap.
  set (lo := start_ns r + Z.of_nat b * width).
  destruct (Z.ltb_spec (Z.max (start_ns q) lo) (Z.min (end_ns q) (Z.min (lo + width) (end_ns r)))).
  - rewrite (proj2 (Z.ltb_lt 0 _)) by lia. cbn. do 3 f_equal. f_equal. lia.
  - rewrite (proj2 (Z.ltb_ge 0 _)) by lia. done.
Qed.

(** The loop over the buckets of an interval misses none that it touches. *)
Lemma spread_exact o duration attributed q : length attributed = n → start_ns r ≤ start_ns q → end_ns q ≤ end_ns r →
  length (spread r width n o duration attributed q) = n ∧
  ∀ b, spread r width n o duration attributed q !! b = (λ v, foldl f64_add v (pieces o duration b q)) <$> attributed !! b.
Proof.
  intros Hl H1 H2. unfold spread. destruct (Z.leb_spec (end_ns q) (start_ns q)) as [Hq|Hq].
  - split; [done|]. intros b. destruct (attributed !! b) as [v|]; [|done]. cbn. unfold pieces, overlap.
    rewrite (proj2 (Z.ltb_ge 0 _)); [done|]. lia.
  - split; [by rewrite length_imap|]. intros b. rewrite list_lookup_imap. destruct (attributed !! b) as [v|] eqn:Eb; [|done]. cbn.
    assert (Hb : (b < n)%nat) by (rewrite <-Hl; by eapply lookup_lt_Some). f_equal.
    destruct (bucket_of_exact (start_ns q)) as (_ & Hf & _); [lia|]. destruct (bucket_of_exact (end_ns q - 1)) as (_ & Hlast & _); [lia|].
    set (fb := bucket_of r width n (start_ns q)) in *. set (lb := bucket_of r width n (end_ns q - 1)) in *. clearbody fb lb.
    case_bool_decide as Hin; [by apply share_exact|]. unfold pieces. rewrite (proj2 (Z.ltb_ge 0 _)); [done|]. unfold overlap.
    destruct (decide (fb ≤ b)%nat) as [Hfb|Hfb].
    + assert ((Z.of_nat lb + 1) * width ≤ Z.of_nat b * width) by nia. lia.
    + assert ((Z.of_nat b + 1) * width ≤ Z.of_nat fb * width) by nia. lia.
Qed.

Lemma spreads_exact o duration qs attributed : length attributed = n →
  Forall (λ q, start_ns r ≤ start_ns q ∧ end_ns q ≤ end_ns r) qs →
  length (foldl (spread r width n o duration) attributed qs) = n ∧
  ∀ b, foldl (spread r width n o duration) attributed qs !! b = (λ v, foldl f64_add v (qs ≫= pieces o duration b)) <$> attributed !! b.
Proof.
  revert attributed. induction qs as [|q qs IH]; intros attributed Hl Hq; cbn [foldl].
  - split; [done|]. intros b. cbn. by destruct (attributed !! b).
  - apply Forall_cons in Hq as [[H1 H2] Hq]. destruct (spread_exact o duration attributed q Hl H1 H2) as [Hl' Hc].
    destruct (IH _ Hl' Hq) as [Hl'' Hc']. split; [done|]. intros b. rewrite Hc', Hc. destruct (attributed !! b); [|done]. cbn.
    by rewrite foldl_app.
Qed.
End buckets.
End Buckets.

Module Lanes.
Import Buckets.

Lemma matched_total f l : ∃ m, matched f l = Done m.
Proof.
  induction l as [|o l [m IH]]; cbn [matched]; [by exists []|].
  assert (∃ b, matches_cpu_observation_without_time f o = Done b) as [b ->].
  { unfold matches_cpu_observation_without_time, in_regions. destruct (f_regions f) as [regions|]; [|by eexists].
    destruct (wall_interval_start_ns o); [by eexists|].
    destruct (Tree.contains_total regions (ob_process_id o) (ob_thread_id o) (ob_timestamp_ns o)) as [b ->]. by eexists. }
  cbn. rewrite IH. by eexists.
Qed.

Lemma observation_ranges_inside f o q : Forall (λ x, start_ns q ≤ start_ns x ∧ end_ns x ≤ end_ns q) (observation_ranges f o q).
Proof.
  unfold observation_ranges. destruct (end_ns q <=? start_ns q); [constructor|]. destruct (f_regions f) as [m|].
  - unfold RegionIntervals.intersections. destruct (m !! _); [|constructor]. apply Forall_fmap, Forall_true. intros x. cbn. lia.
  - constructor; [lia|constructor].
Qed.

Section lanes.
Context (f : SampleFilter) (r : TimeRange) (width : Z) (n : nat) (uses_cpu : bool).
Context (Hs : 0 ≤ start_ns r) (He : end_ns r ≤ u64_max) (Hr : start_ns r < end_ns r) (Hw : 0 < width).
Context (Hn : end_ns r - start_ns r ≤ Z.of_nat n * width) (Hn' : (Z.of_nat n - 1) * width < end_ns r - start_ns r) (Hn0 : (0 < n)%nat).

(** The wall time of an observation inside the range. *)
Definition clipped (o : CpuObservation) (start : Z) : TimeRange :=
  mkRange (Z.max start (start_ns r)) (Z.min (ob_timestamp_ns o) (end_ns r)).

(** What an observation adds to a bucket: a sampled one its weight at its time, an interval
    its weight in proportion to the time that the bucket has of it, regions applied. *)
Definition additions (b : nat) (o : CpuObservation) : list f64 :=
  if bool_decide (ob_source o = SampledOccupancy) then
    if bool_decide (Z.to_nat ((ob_timestamp_ns o - start_ns r) / width) = b) then [u64_as_f64 (weight_ns o)] else []
  else match wall_interval_start_ns o with
       | None => []
       | Some start =>
           let duration := saturating_sub (ob_timestamp_ns o) start in
           if duration =? 0 then []
           else observation_ranges f o (clipped o start) ≫= pieces r width o duration b
       end.

Lemma attribute_exact o attributed : eligible r o = true → length attributed = n →
  ∃ a, attribute f r width n o attributed = Done a ∧ length a = n ∧
    ∀ b, a !! b = (λ v, foldl f64_add v (additions b o)) <$> attributed !! b.
Proof.
  intros Hel Hl. unfold attribute, additions. case_bool_decide as Es.
  - unfold eligible in Hel. destruct (weight_ns o =? 0); [done|]. rewrite Es in Hel. apply andb_true_iff in Hel as [H1%Z.leb_le H2%Z.ltb_lt].
    destruct (bucket_of_exact r width n Hs He Hw Hn Hn0 (ob_timestamp_ns o)) as (E & _ & Hlt); [lia|]. rewrite E in *.
    destruct (lookup_lt_is_Some_2 attributed (Z.to_nat ((ob_timestamp_ns o - start_ns r) / width))) as [v Ev]; [lia|].
    rewrite Ev. cbn [unwrap mbind outcome_bind]. eexists. split; [done|]. split; [by rewrite length_insert|]. intros b. case_bool_decide as Eb.
    + subst b. rewrite list_lookup_insert_eq by lia. by rewrite Ev.
    + rewrite list_lookup_insert_ne by done. by destruct (attributed !! b).
  - destruct (wall_interval_start_ns o) as [start|]; [|exists attributed; split_and!; [done|done|by intros b; destruct (attributed !! b)]].
    cbv zeta. destruct (_ =? 0); [exists attributed; split_and!; [done|done|by intros b; destruct (attributed !! b)]|].
    eexists. split; [done|]. fold (clipped o start).
    apply (spreads_exact r width n Hs He Hr Hw Hn Hn' Hn0); [done|]. eapply Forall_impl; [apply observation_ranges_inside|].
    unfold clipped. cbn. intros x. lia.
Qed.

(** The total of a lane and a bucket. *)
Definition bucket_total (chosen : list CpuObservation) (k : TimelineLaneKey) (b : nat) : f64 :=
  foldl f64_add f64_zero (List.filter (λ o, bool_decide (key_of uses_cpu o = k)) chosen ≫= additions b).

Definition is_host (count : option Z) (k : TimelineLaneKey) : Prop :=
  ∃ c, k = Cpu (Some c) ∧ 0 ≤ c ∧ is_some_and count (λ n, c <? n) = true ∧ uses_cpu = true.

Definition laned (count : option Z) (chosen : list CpuObservation) (m : gmap TimelineLaneKey (list f64)) : Prop :=
  (∀ k a, m !! k = Some a → a = bucket_total chosen k <$> seq 0 n) ∧
  (∀ k, is_Some (m !! k) ↔ is_host count k ∨ ∃ o, o ∈ chosen ∧ key_of uses_cpu o = k).

Lemma bucket_total_none chosen k b : (∀ o, o ∈ chosen → key_of uses_cpu o ≠ k) → bucket_total chosen k b = f64_zero.
Proof.
  intros H. unfold bucket_total. rewrite filter_none; [done|]. intros o Ho. apply bool_decide_eq_false. by apply H.
Qed.

Lemma host_lanes_spec count : laned count [] (host_lanes uses_cpu count n).
Proof.
  assert (Hz : ∀ k, replicate n f64_zero = bucket_total [] k <$> seq 0 n).
  { intros k. symmetry. apply list_eq. intros b. rewrite list_lookup_fmap. destruct (seq 0 n !! b) as [x|] eqn:E.
    - apply lookup_seq in E as [_ Hb]. symmetry. by apply lookup_replicate.
    - apply lookup_ge_None in E. rewrite length_seq in E. symmetry. apply lookup_ge_None. by rewrite length_replicate. }
  assert (Hfold : ∀ cs, let m := foldl (λ m c, <[Cpu (Some (Z.of_nat c)) := replicate n f64_zero]> m) (∅ : gmap TimelineLaneKey (list f64)) cs in
    (∀ k a, m !! k = Some a → a = replicate n f64_zero) ∧ (∀ k, is_Some (m !! k) ↔ ∃ c, c ∈ cs ∧ k = Cpu (Some (Z.of_nat c)))).
  { intros cs. apply (foldl_prefix (λ done (m : gmap TimelineLaneKey (list f64)), (∀ k a, m !! k = Some a → a = replicate n f64_zero) ∧
      (∀ k, is_Some (m !! k) ↔ ∃ c, c ∈ done ∧ k = Cpu (Some (Z.of_nat c))))).
    - split; [by intros k a; rewrite lookup_empty|]. intros k. rewrite lookup_empty. split; [by intros []|by intros (c & []%elem_of_nil & _)].
    - intros done c m [IH1 IH2]. split.
      + intros k a. rewrite lookup_insert_Some. intros [[_ <-]|[_ Hk]]; [done|by eapply IH1].
      + intros k. rewrite lookup_insert_is_Some', IH2. split.
        * intros [<-|(x & Hx & ->)]; [exists c|exists x]; split; set_solver.
        * intros (x & [Hx|Hx%list_elem_of_singleton]%elem_of_app & ->); [right; by exists x|left; by subst]. }
  assert (Hempty : ∀ count', (∀ k, ¬ is_host count' k) → laned count' [] ∅).
  { intros c Hno. split; [by intros k a; rewrite lookup_empty|]. intros k. rewrite lookup_empty. split; [by intros []|].
    intros [H|(o & []%elem_of_nil & _)]; by apply Hno in H. }
  unfold host_lanes. destruct count as [z|]; [|apply Hempty; by intros k (c & _ & _ & ? & _)]. destruct uses_cpu eqn:Eu; [|apply Hempty; intros k (c & _ & _ & _ & ?); congruence].
  destruct (Hfold (seq 0 (Z.to_nat z))) as [H1 H2]. split.
  - intros k a Hk. rewrite <-Hz. by eapply H1.
  - intros k. rewrite H2. split.
    + intros (c & Hc & ->). left. apply elem_of_seq in Hc. exists (Z.of_nat c). split_and!; [done|lia| |done]. cbn. apply Z.ltb_lt. lia.
    + intros [(c & -> & Hc & Hlt & _)|(o & []%elem_of_nil & _)]. cbn in Hlt. apply Z.ltb_lt in Hlt. exists (Z.to_nat c).
      split; [apply elem_of_seq; lia|]. by rewrite Z2Nat.id.
Qed.

Lemma bucket_total_snoc chosen o k b :
  bucket_total (chosen ++ [o]) k b =
  if bool_decide (key_of uses_cpu o = k) then foldl f64_add (bucket_total chosen k b) (additions b o) else bucket_total chosen k b.
Proof.
  unfold bucket_total. rewrite List.filter_app, bind_app, foldl_app. cbn [List.filter]. case_bool_decide; cbn; [by rewrite app_nil_r|done].
Qed.

Lemma add_observation_spec count chosen o m : eligible r o = true → laned count chosen m →
  ∃ m', add_observation f r width n uses_cpu m o = Done m' ∧ laned count (chosen ++ [o]) m'.
Proof.
  intros Hel [H1 H2]. unfold add_observation. set (k := key_of uses_cpu o).
  set (a0 := default (replicate n f64_zero) (m !! k)).
  assert (Ha0 : a0 = bucket_total chosen k <$> seq 0 n).
  { unfold a0. destruct (m !! k) as [a|] eqn:Ek; [by apply H1|]. cbn. apply list_eq. intros b. rewrite list_lookup_fmap.
    destruct (seq 0 n !! b) as [x|] eqn:E.
    - apply lookup_seq in E as [-> Hb]. cbn. rewrite bucket_total_none; [by apply lookup_replicate|].
      intros o' Ho' Ek'. assert (Hsome : is_Some (m !! k)) by (apply H2; right; by exists o'). rewrite Ek in Hsome. by destruct Hsome.
    - apply lookup_ge_None in E. rewrite length_seq in E. apply lookup_ge_None. by rewrite length_replicate. }
  destruct (attribute_exact o a0 Hel) as (a & -> & Hla & Ha); [rewrite Ha0, length_fmap, length_seq; done|]. cbn [mbind outcome_bind].
  eexists. split; [done|]. split.
  - intros k' a'. rewrite lookup_insert_Some. intros [[<- <-]|[Hne Hk']].
    + apply list_eq. intros b. rewrite Ha, Ha0, !list_lookup_fmap. destruct (seq 0 n !! b) as [x|] eqn:E; [|done].
      apply lookup_seq in E as [-> Hb]. cbn. f_equal. by rewrite bucket_total_snoc, bool_decide_true.
    + rewrite (H1 _ _ Hk'). apply list_fmap_ext. intros b x _. by rewrite bucket_total_snoc, bool_decide_false.
  - intros k'. rewrite lookup_insert_is_Some', H2. split.
    + intros [<-|[?|(o' & Ho' & ?)]]; [right; exists o; split; [set_solver|done]|by left|right; exists o'; split; [set_solver|done]].
    + intros [?|(o' & [?|Ho'%list_elem_of_singleton]%elem_of_app & ?)]; [auto|right; right; eauto|left; by subst].
Qed.

Lemma lanes_spec count chosen : Forall (λ o, eligible r o = true) chosen →
  ∃ m, fold_outcome (add_observation f r width n uses_cpu) chosen (host_lanes uses_cpu count n) = Done m ∧ laned count chosen m.
Proof.
  intros Hel. apply (fold_outcome_prefix (laned count)); [apply host_lanes_spec|].
  intros done o rest m -> Hm. apply add_observation_spec; [|done]. apply Forall_app in Hel as [_ Hel]. by apply Forall_inv in Hel.
Qed.
End lanes.
End Lanes.

(** The bucket width that is asked for, or that follows from the number of buckets. *)
Lemma width_spec d max_buckets bucket_duration : 0 < d ≤ u64_max → (∀ w, bucket_duration = Some w → 0 < w) →
  ∃ width, match bucket_duration with
           | Some w => Done w
           | None => w ← nice_bin_width (div_ceil d (Z.max max_buckets 1)); Done (Z.max w 1)
           end = Done width ∧ 0 < width ∧ (∀ w, bucket_duration = Some w → width = w).
Proof.
  intros Hd Hw. destruct bucket_duration as [w|]; [exists w; split_and!; [done|by apply Hw|by intros ? [= ->]]|].
  destruct (bins_bound d (Z.max max_buckets 1) Hd ltac:(lia)) as (w & -> & ? & _). exists (Z.max w 1). cbn. split_and!; [done|lia|done].
Qed.

Lemma div_ceil_least d w : 0 < d → 0 < w → d ≤ div_ceil d w * w ∧ (div_ceil d w - 1) * w < d ∧ 0 < div_ceil d w.
Proof.
  intros Hd Hw. unfold div_ceil. rewrite (proj2 (Z.eqb_neq w 0)) by lia.
  pose proof (Z.div_mod d w ltac:(lia)). pose proof (Z.mod_pos_bound d w Hw). pose proof (Z.div_pos d w ltac:(lia) Hw).
  destruct (Z.eqb_spec (d mod w) 0); nia.
Qed.

(** What the processor lanes are, for the observations that count. *)
Record lanes_exact_for (p : ProfileData) (f : SampleFilter) (r : TimeRange) (chosen : list CpuObservation) (h : CpuUtilizationHeatmap) : Prop := {
  le_range : c_range h = r;
  le_width : 0 < bucket_duration_ns h;
  le_cover : end_ns r - start_ns r ≤ Z.of_nat (buckets h) * bucket_duration_ns h ∧
             (Z.of_nat (buckets h) - 1) * bucket_duration_ns h < end_ns r - start_ns r;
  le_cpu : uses_cpu_lanes h = true ↔ ∀ o, o ∈ chosen → is_Some (ob_cpu o);
  le_sorted : Sorted lane_le ((λ l, (lane_key l, [])) <$> lanes h);
  le_nodup : NoDup (lane_key <$> lanes h);
  le_keys k : k ∈ lane_key <$> lanes h ↔
    Lanes.is_host (uses_cpu_lanes h) (logical_cpu_count p) k ∨ ∃ o, o ∈ chosen ∧ key_of (uses_cpu_lanes h) o = k;
  le_buckets l : l ∈ lanes h → lane_name l = lane_label (lane_key l) ∧
    lane_buckets l = (λ b, finish_bucket r (bucket_duration_ns h) b
      (Lanes.bucket_total f r (bucket_duration_ns h) (uses_cpu_lanes h) chosen (lane_key l) b)) <$> seq 0 (buckets h);
  le_shared q : start_ns r ≤ start_ns q ≤ end_ns q → end_ns q ≤ end_ns r →
    foldr (λ b acc, Buckets.overlap r (bucket_duration_ns h) q b + acc) 0 (seq 0 (buckets h)) = end_ns q - start_ns q
}.

Module Shown.
Section shown.
Context (p : ProfileData) (f : SampleFilter) (r : TimeRange) (width : Z) (n : nat) (chosen : list CpuObservation).
Context (Hs : 0 ≤ start_ns r) (He : end_ns r ≤ u64_max) (Hr : start_ns r < end_ns r) (Hw : 0 < width).
Context (Hn : end_ns r - start_ns r ≤ Z.of_nat n * width) (Hn' : (Z.of_nat n - 1) * width < end_ns r - start_ns r) (Hn0 : (0 < n)%nat).
Notation cpus := (forallb (λ o, bool_decide (is_Some (ob_cpu o))) chosen).
Context (m : gmap TimelineLaneKey (list f64)) (Hm : Lanes.laned f r width n cpus (logical_cpu_count p) chosen m).
Notation shown := (mkLanes r width n cpus (common_source chosen) (finish_lane r width <$> merge_sort lane_le (map_to_list m))).

Lemma lane_le_total' : Total lane_le.
Proof. intros [a x] [b y]. unfold lane_le, edge_le. cbn. lia. Qed.

Lemma keys_perm : lane_key <$> lanes shown ≡ₚ (map_to_list m).*1.
Proof. cbn [lanes]. rewrite <-list_fmap_compose, merge_sort_Permutation. by apply reflexive_eq, list_fmap_ext. Qed.

Lemma shown_exact : lanes_exact_for p f r chosen shown.
Proof.
  split; try done.
  - cbn [uses_cpu_lanes]. rewrite forallb_forall. setoid_rewrite <-list_elem_of_In. setoid_rewrite bool_decide_eq_true. done.
  - cbn [lanes]. rewrite <-list_fmap_compose. assert (Hso : Sorted lane_le (merge_sort lane_le (map_to_list m))) by apply Sorted_merge_sort, lane_le_total'.
    induction Hso as [|x l _ IH Hd]; constructor; [done|]. destruct Hd; constructor; done.
  - rewrite keys_perm. apply NoDup_fst_map_to_list.
  - intros k. rewrite keys_perm, list_elem_of_fmap. cbn [uses_cpu_lanes]. rewrite <-(proj2 Hm). split.
    + intros ([k' a] & -> & Hin). apply elem_of_map_to_list in Hin. by exists a.
    + intros [a Ha]. exists (k, a). split; [done|]. by apply elem_of_map_to_list.
  - intros l. cbn [lanes]. rewrite list_elem_of_fmap. intros ([k a] & -> & Hin). rewrite merge_sort_Permutation in Hin.
    apply elem_of_map_to_list, (proj1 Hm) in Hin as ->. cbn. split; [done|]. apply list_eq. intros b.
    rewrite list_lookup_imap, !list_lookup_fmap. destruct (seq 0 n !! b) as [x|] eqn:E; [|done]. by apply lookup_seq in E as [-> _].
  - intros q H1 H2. apply Buckets.overlap_total; done.
Qed.
End shown.
End Shown.

(** The processor lanes are exact.  With no observation of weight in the range there are
    none; else there is a lane per processor (or per thread, when some observation has no
    processor), in order and once, with the idle processors of the host.  A bucket's time is
    the sum, in the order of the observations, of what each adds: a sampled observation its
    weight at its time, an interval its weight in proportion to the time the bucket has of
    it; and the buckets share every interval without gap or overlap. *)
Theorem cpu_lanes_exact (p : ProfileData) (f : SampleFilter) (max_buckets : Z) (bucket_duration : option Z) (r : TimeRange) :
  analysis_range p f = Some r → 0 ≤ start_ns r → end_ns r ≤ u64_max → (∀ w, bucket_duration = Some w → 0 < w) →
  ∃ matching, matched f (cpu_observations p) = Done matching ∧
    let chosen := List.filter (eligible r) matching in
    (chosen = [] → build_with_bucket_duration p f max_buckets bucket_duration = Done None) ∧
    (chosen ≠ [] → ∃ h, build_with_bucket_duration p f max_buckets bucket_duration = Done (Some h) ∧
       (∀ w, bucket_duration = Some w → bucket_duration_ns h = w) ∧ lanes_exact_for p f r chosen h).
Proof.
  intros Hr Hs He Hb. destruct (Lanes.matched_total f (cpu_observations p)) as [matching Em]. exists matching. split; [done|]. intros chosen.
  pose proof (analysis_range_order _ _ _ Hr) as Hlt. unfold build_with_bucket_duration. rewrite Hr, Em.
  assert (Ed : saturating_sub (end_ns r) (start_ns r) = end_ns r - start_ns r) by word_lia.
  rewrite Ed, (proj2 (Z.eqb_neq _ _)) by lia. rewrite (bool_decide_false (bucket_duration = Some 0)) by (intros E0; specialize (Hb 0 E0); lia).
  destruct (width_spec (end_ns r - start_ns r) max_buckets bucket_duration) as (width & -> & Hw & Hwd); [lia|done|]. cbn [mbind outcome_bind].
  fold chosen. destruct (div_ceil_least (end_ns r - start_ns r) width ltac:(lia) Hw) as (Hn1 & Hn2 & Hn3).
  replace (Z.max (div_ceil (end_ns r - start_ns r) width) 1) with (div_ceil (end_ns r - start_ns r) width) by lia.
  set (n := Z.to_nat (div_ceil (end_ns r - start_ns r) width)). split; [by intros ->|]. intros Hne.
  rewrite bool_decide_false by (by intros ?%nil_length_inv).
  assert (Hel : Forall (λ o, eligible r o = true) chosen).
  { apply Forall_forall. intros o Ho. unfold chosen in Ho. rewrite list_elem_of_In, filter_In in Ho. apply Ho. }
  destruct (Lanes.lanes_spec f r width n (forallb (λ o, bool_decide (is_Some (ob_cpu o))) chosen) Hs He Hlt Hw ltac:(lia) ltac:(lia) ltac:(lia)
    (logical_cpu_count p) chosen Hel) as (m & -> & Hm).
  cbn [mbind outcome_bind]. rewrite bool_decide_false.
  2: { intros ->. destruct chosen as [|o l]; [done|]. destruct (proj2 (proj2 Hm (key_of (forallb (λ o, bool_decide (is_Some (ob_cpu o))) (o :: l)) o))) as [a Ha].
       - right. exists o. split; [by left|done].
       - by rewrite lookup_empty in Ha. }
  eexists. split; [reflexivity|]. split; [done|]. apply (Shown.shown_exact p f r width n chosen); (lia || done).
Qed.

Lemma cpu_lanes_exact_witness :
  let o t w := mkObservation t 1 1 (Some 0) (Some (t - 30)) [] w CounterDelta in
  let p := mkProfile [] [] [o 130 20; o 160 30] (Some 2) [] (Some (mkRange 100 160)) in
  ∃ h, build_with_bucket_duration p no_filter 10 (Some 20) = Done (Some h) ∧ bucket_duration_ns h = 20 ∧
    (lane_key <$> lanes h) = [Cpu (Some 0); Cpu (Some 1)].
Proof.
  intros o p. destruct (cpu_lanes_exact p no_filter 10 (Some 20) (mkRange 100 160)) as (matching & Em & _ & Hsome);
    [reflexivity|cbn; lia|vm_compute; discriminate|intros w [= <-]; lia|].
  vm_compute in Em. injection Em as <-. destruct (Hsome ltac:(vm_compute; discriminate)) as (h & Hh & Hw & _).
  exists h. split; [exact Hh|]. split; [exact (Hw 20 eq_refl)|]. vm_compute in Hh. injection Hh as <-. reflexivity.
Defined.

(** The histogram has a slot for every number of busy processors, and none is missed. *)
Lemma concurrency_total h count :
  ∃ c, build_concurrency h count = Done c ∧ length (slots c) = S (Nat.max (Nat.max (Z.to_nat (default 0 count)) (length (lanes h))) 1).
Proof.
  unfold build_concurrency. set (cpus := Nat.max _ 1).
  destruct (fold_outcome_inv (λ t, length (t_slots t) = S cpus) (tally_bucket h cpus) (seq 0 (buckets h))
    (mkTally (replicate (S cpus) f64_zero) f64_zero f64_zero)) as (t & -> & Ht).
  - apply length_replicate.
  - intros t b _ Ht. unfold tally_bucket. cbv zeta. destruct (f64_leb _ _); [by exists t|].
    destruct (lookup_lt_is_Some_2 (t_slots t) (Nat.min (Z.to_nat (f64_as_u64 (f64_max0 (f64_round
      (foldl f64_add f64_zero (utilization <$> omap (λ l, lane_buckets l !! b) (lanes h))))))) cpus)) as [v ->]; [lia|].
    eexists. split; [reflexivity|]. cbn [t_slots]. by rewrite length_insert.
  - cbn. eexists. split; [reflexivity|done].
Qed.

(** ** The balance of threads *)
Import Observations Threads.

Module Tally.
Section tally.
Context (f : SampleFilter) (r : TimeRange) (sync : gset Z).

(** A sample of a thread, and one with a synchronization frame in its stack. *)
Definition of_thread (x : Z) (s : ProfileSample) : bool := thread_id s =? x.
Definition waits (s : ProfileSample) : bool := existsb (λ fr, bool_decide (fr ∈ sync)) (stack s).
Definition waiting (x : Z) (s : ProfileSample) : bool := of_thread x s && waits s.

(** The processor time of a thread: its observations' weights, in order. *)
Definition busy_time (obs : list CpuObservation) (x : Z) : f64 :=
  foldl f64_add f64_zero (weight_in f r <$> List.filter (λ o, ob_thread_id o =? x) obs).

(** Where and when a thread was seen: first by the samples, then by the observations. *)
Definition seen (thread x time : Z) (cpu : option Z) : option (Z * Z) := if thread =? x then (λ c, (time, c)) <$> cpu else None.
Definition trail (acc : list ProfileSample) (obs : list CpuObservation) (x : Z) : list (Z * Z) :=
  omap (λ s, seen (thread_id s) x (timestamp_ns s) (cpu s)) acc ++
  omap (λ o, seen (ob_thread_id o) x (ob_timestamp_ns o) (ob_cpu o)) obs.

Definition any_cpu (acc : list ProfileSample) (obs : list CpuObservation) : bool :=
  existsb (λ s, bool_decide (is_Some (cpu s))) acc || existsb (λ o, bool_decide (is_Some (ob_cpu o))) obs.

Record tallied (acc : list ProfileSample) (obs : list CpuObservation) (t : Tallies) : Prop := {
  ta_samples x : default (0, 0) (t_samples t !! x) = (count_if (of_thread x) acc, count_if (waiting x) acc);
  ta_sampled x : x ∈ dom (t_samples t) ↔ ∃ s, s ∈ acc ∧ thread_id s = x;
  ta_time x : default f64_zero (t_cpu_time t !! x) = busy_time obs x;
  ta_timed x : x ∈ dom (t_cpu_time t) ↔ ∃ o, o ∈ obs ∧ ob_thread_id o = x;
  ta_trail x : default [] (trails t !! x) = trail acc obs x;
  ta_cpu : t_has_cpu_ids t = any_cpu acc obs
}.

Lemma add_trail_spec thread time cpu t x :
  default [] (trails (add_trail thread time cpu t) !! x) =
  default [] (trails t !! x) ++ match seen thread x time cpu with Some e => [e] | None => [] end.
Proof.
  unfold add_trail, seen. destruct cpu as [c|]; [|by destruct (thread =? x); rewrite app_nil_r]. cbn [trails fmap option_fmap option_map].
  destruct (Z.eqb_spec thread x) as [->|Hne]; [by rewrite lookup_insert_eq|]. by rewrite lookup_insert_ne, app_nil_r.
Qed.

Lemma add_trail_rest thread time cpu t :
  t_samples (add_trail thread time cpu t) = t_samples t ∧ t_cpu_time (add_trail thread time cpu t) = t_cpu_time t ∧
  t_has_cpu_ids (add_trail thread time cpu t) = t_has_cpu_ids t || bool_decide (is_Some cpu).
Proof.
  unfold add_trail. destruct cpu as [c|]; (split; [done|]; split; [done|]).
  - rewrite bool_decide_true by by eexists. by rewrite orb_true_r.
  - rewrite bool_decide_false by by intros []. by rewrite orb_false_r.
Qed.

Lemma existsb_snoc {A} (q : A → bool) l x : existsb q (l ++ [x]) = existsb q l || q x.
Proof. rewrite existsb_app. cbn. by rewrite orb_false_r. Qed.

Lemma omap_snoc {A B} (g : A → option B) l x : omap g (l ++ [x]) = omap g l ++ match g x with Some y => [y] | None => [] end.
Proof. rewrite omap_app. cbn. by destruct (g x). Qed.

Lemma tally_sample_spec acc t s : tallied acc [] t → tallied (acc ++ [s]) [] (tally_sample sync t s).
Proof.
  intros [H1 H2 H3 H4 H5 H6]. unfold tally_sample. rewrite (H1 (thread_id s)). fold (waits s).
  set (t1 := mkTallies _ _ _ _). destruct (add_trail_rest (thread_id s) (timestamp_ns s) (cpu s) t1) as (E1 & E2 & E3).
  split; rewrite ?E1, ?E2, ?E3; cbn [t1 t_samples t_cpu_time t_has_cpu_ids].
  - intros x. rewrite !count_if_snoc. change (waiting x s) with ((thread_id s =? x) && waits s). change (of_thread x s) with (thread_id s =? x). destruct (Z.eqb_spec (thread_id s) x) as [<-|Hne].
    + by rewrite lookup_insert_eq.
    + rewrite lookup_insert_ne, H1 by done. cbn [andb]. f_equal; lia.
  - intros x. rewrite dom_insert, elem_of_union, elem_of_singleton, H2. split.
    + intros [->|(s' & ? & ?)]; [exists s|exists s']; split; set_solver.
    + intros (s' & [?|Hs'%list_elem_of_singleton]%elem_of_app & <-); [right; by exists s'|left; by subst].
  - done.
  - done.
  - intros x. rewrite add_trail_spec. cbn [t1 trails]. rewrite H5. unfold trail. rewrite omap_snoc. cbn [omap list_omap]. by rewrite !app_nil_r.
  - rewrite H6. unfold any_cpu. rewrite existsb_snoc. cbn [existsb]. by rewrite !orb_false_r.
Qed.

Lemma tally_observation_spec acc obs t o : tallied acc obs t → tallied acc (obs ++ [o]) (tally_observation f r t o).
Proof.
  intros [H1 H2 H3 H4 H5 H6]. unfold tally_observation.
  set (t1 := mkTallies _ _ _ _). destruct (add_trail_rest (ob_thread_id o) (ob_timestamp_ns o) (ob_cpu o) t1) as (E1 & E2 & E3).
  split; rewrite ?E1, ?E2, ?E3; cbn [t1 t_samples t_cpu_time t_has_cpu_ids].
  - done.
  - done.
  - intros x. unfold busy_time. rewrite List.filter_app, fmap_app, foldl_app. cbn [List.filter]. fold (busy_time obs x).
    destruct (Z.eqb_spec (ob_thread_id o) x) as [<-|Hne]; cbn [fmap list_fmap foldl].
    + rewrite lookup_insert_eq. cbn. by rewrite H3.
    + by rewrite lookup_insert_ne, H3.
  - intros x. rewrite dom_insert, elem_of_union, elem_of_singleton, H4. split.
    + intros [->|(o' & ? & ?)]; [exists o|exists o']; split; set_solver.
    + intros (o' & [?|Ho'%list_elem_of_singleton]%elem_of_app & <-); [right; by exists o'|left; by subst].
  - intros x. rewrite add_trail_spec. cbn [t1 trails]. rewrite H5. unfold trail. by rewrite omap_snoc, app_assoc.
  - rewrite H6. unfold any_cpu. by rewrite existsb_snoc, orb_assoc.
Qed.

Lemma tallies_spec acc obs :
  tallied acc obs (foldl (tally_observation f r) (foldl (tally_sample sync) (mkTallies ∅ ∅ ∅ false) acc) obs).
Proof.
  apply (foldl_prefix (λ done t, tallied acc done t)).
  - apply (foldl_prefix (λ done t, tallied done [] t)); [|intros; by apply tally_sample_spec].
    split; [done|intros x; split; [set_solver|by intros (s & []%elem_of_nil & _)]|done| |done|done].
    intros x; split; [set_solver|by intros (o & []%elem_of_nil & _)].
  - intros. by apply tally_observation_spec.
Qed.
End tally.
End Tally.

(** A row of the balance, for the samples and observations that count. *)
Definition row_exact (p : ProfileData) (f : SampleFilter) (r : TimeRange) (acc : list ProfileSample) (obs : list CpuObservation)
    (row : ThreadBalanceRow) : Prop :=
  let x := b_thread_id row in
  let wall := match region_wall f r with
              | None => u64_as_f64 (end_ns r - start_ns r)
              | Some m => u64_as_f64 (default 0 (m !! x))
              end in
  b_samples row = count_if (Tally.of_thread x) acc ∧
  sync_fraction row = fraction (count_if (Tally.waiting (sync_frames (frames p)) x) acc) (b_samples row) ∧
  b_migrations row = migrations (Some (Tally.trail acc obs x)) ∧
  busy_fraction row = (if f64_positive wall then f64_clamp01 (f64_div (Tally.busy_time f r obs x) wall) else f64_zero).

Lemma balance_row_exact p f r acc obs t x : Tally.tallied f r (sync_frames (frames p)) acc obs t →
  row_exact p f r acc obs (balance_row (u64_as_f64 (end_ns r - start_ns r)) (region_wall f r) t x) ∧
  b_thread_id (balance_row (u64_as_f64 (end_ns r - start_ns r)) (region_wall f r) t x) = x.
Proof.
  intros [H1 _ H3 _ H5 _]. unfold balance_row. rewrite (H1 x). split; [|done]. unfold row_exact. cbn.
  split_and!; [done|done| |].
  - rewrite <-H5. by destruct (trails t !! x).
  - rewrite H3. by destruct (region_wall f r).
Qed.

(** The thread balance has a row for every thread with an accepted sample or an
    observation in the range, in order and once.  The row counts the samples of the thread,
    gives the share of them that have a synchronization frame, the changes of processor
    along its time-ordered trail, and its processor time over the wall time, both limited to
    the range and the selected regions. *)
Theorem balance_exact (p : ProfileData) (f : SampleFilter) (r : TimeRange) :
  analysis_range p f = Some r → 0 ≤ start_ns r → end_ns r ≤ u64_max →
  ∃ acc matching b, accepted f (samples p) = Done acc ∧ matched f (cpu_observations p) = Done matching ∧
    build_balance p f = Done (Some b) ∧
    let obs := List.filter (overlaps r) matching in
    has_cpu_ids b = Tally.any_cpu acc obs ∧
    Sorted Z.le (b_thread_id <$> b_rows b) ∧ NoDup (b_thread_id <$> b_rows b) ∧
    (∀ x, x ∈ b_thread_id <$> b_rows b ↔ (∃ s, s ∈ acc ∧ thread_id s = x) ∨ ∃ o, o ∈ obs ∧ ob_thread_id o = x) ∧
    Forall (row_exact p f r acc obs) (b_rows b).
Proof.
  intros Hr Hs He. pose proof (analysis_range_order _ _ _ Hr) as Hlt.
  destruct (Tree.accepted_total f (samples p)) as [acc Ea]. destruct (Lanes.matched_total f (cpu_observations p)) as [matching Em].
  exists acc, matching. unfold build_balance. rewrite Hr, Ea, Em.
  assert (Ed : saturating_sub (end_ns r) (start_ns r) = end_ns r - start_ns r) by word_lia.
  rewrite Ed, u64_as_f64_positive by lia. cbn [mbind outcome_bind].
  pose proof (Tally.tallies_spec f r (sync_frames (frames p)) acc (List.filter (overlaps r) matching)) as Ht.
  set (t := foldl _ _ (List.filter (overlaps r) matching)) in *. eexists. split; [done|]. split; [done|]. split; [reflexivity|].
  cbv zeta. cbn [has_cpu_ids b_rows].
  assert (Eids : ∀ l : list Z, b_thread_id <$> (balance_row (u64_as_f64 (end_ns r - start_ns r)) (region_wall f r) t <$> l) = l).
  { intros l. rewrite <-list_fmap_compose. etransitivity; [|apply list_fmap_id]. apply list_fmap_ext. intros i x _.
    apply (balance_row_exact p f r _ _ _ x Ht). }
  rewrite !Eids. pose proof (Tally.ta_sampled _ _ _ _ _ _ Ht) as H2. pose proof (Tally.ta_timed _ _ _ _ _ _ Ht) as H4. pose proof (Tally.ta_cpu _ _ _ _ _ _ Ht) as H6. split_and!.
  - done.
  - apply Sorted_merge_sort; apply _.
  - rewrite merge_sort_Permutation. apply NoDup_elements.
  - intros x. rewrite merge_sort_Permutation, elem_of_elements, elem_of_union, H2, H4. done.
  - apply Forall_fmap, Forall_true. intros x. by apply balance_row_exact.
Qed.

Lemma balance_exact_witness :
  let s t c := mkSample t 1 9 (Some c) (u64_as_f64 1) [7] [] in
  let p := mkProfile [(7, Text.chars "__lll_lock_wait")] [s 110 0; s 130 1; s 120 1] [] None [] (Some (mkRange 100 160)) in
  ∃ b, build_balance p no_filter = Done (Some b) ∧ (b_migrations <$> b_rows b) = [1] ∧ (b_thread_id <$> b_rows b) = [9].
Proof.
  intros s p. destruct (balance_exact p no_filter (mkRange 100 160)) as (acc & matching & b & _ & _ & Hb & _);
    [reflexivity|cbn; lia|vm_compute; discriminate|].
  exists b. split; [exact Hb|]. vm_compute in Hb. injection Hb as <-. split; reflexivity.
Defined.
