(* ===== verification/TextInput.v ===== *)
(** * The text input

    The single-line editor of the graphical interface ([mperf-gui/src/ui/text_input.rs]):
    its state, the actions bound to keys and the mouse, and the platform's input method.

    The content is the list of its characters; an offset counts bytes of UTF-8, as in the
    source, and a slice at an offset inside a character or past the end panics.  The shaped
    line of the toolkit stands behind [MouseHit]: where the mouse is, and for a position on
    the line the index that the toolkit finds. *)

From S2P Require Import Prelude.
From Stdlib Require Import ZArith.
Open Scope nat_scope.

(** [char::len_utf8] and [char::len_utf16]. *)
Definition len_utf8 (c : Z) : nat :=
  if (c <? 128)%Z then 1 else if (c <? 2048)%Z then 2 else if (c <? 65536)%Z then 3 else 4.
Definition len_utf16 (c : Z) : nat := if (c <? 65536)%Z then 1 else 2.

(** [str::len]. *)
Definition str_len (s : list Z) : nat := sum_list (len_utf8 <$> s).

(** [(&s[..offset], &s[offset..])]. *)
Fixpoint split_at (s : list Z) (offset : nat) : outcome (list Z * list Z) :=
  match offset, s with
  | O, _ => Done ([], s)
  | S _, [] => Panicked
  | S _, c :: s =>
      if bool_decide (offset < len_utf8 c) then Panicked
      else '(a, b) ← split_at s (offset - len_utf8 c); Done (c :: a, b)
  end.

(** [&s[start..end]]. *)
Definition slice_str (s : list Z) (range : nat * nat) : outcome (list Z) :=
  if bool_decide (range.2 < range.1) then Panicked
  else '(a, _) ← split_at s range.2; '(_, b) ← split_at a range.1; Done b.

Inductive InputEvent := Changed | Escaped.

Record TextInput := mkInput {
  content : list Z;
  selected_range : nat * nat;
  selection_reversed : bool;
  marked_range : option (nat * nat);
  is_selecting : bool;
  clipboard : option (list Z);
  emitted : list InputEvent
}.

Definition new (clipboard : option (list Z)) : TextInput := mkInput [] (0, 0) false None false clipboard [].

Definition emit (e : InputEvent) (t : TextInput) : TextInput :=
  mkInput (content t) (selected_range t) (selection_reversed t) (marked_range t) (is_selecting t) (clipboard t) (emitted t ++ [e]).
Definition set_selecting (b : bool) (t : TextInput) : TextInput :=
  mkInput (content t) (selected_range t) (selection_reversed t) (marked_range t) b (clipboard t) (emitted t).

Definition is_empty (range : nat * nat) : bool := bool_decide (range.2 <= range.1).

Definition clear (t : TextInput) : TextInput :=
  emit Changed (mkInput [] (0, 0) false None (is_selecting t) (clipboard t) (emitted t)).

Definition escape (t : TextInput) : TextInput := emit Escaped t.

(** ** Moving and selecting *)
Definition move_to (offset : nat) (t : TextInput) : TextInput :=
  mkInput (content t) (offset, offset) (selection_reversed t) (marked_range t) (is_selecting t) (clipboard t) (emitted t).

Definition cursor_offset (t : TextInput) : nat :=
  if selection_reversed t then (selected_range t).1 else (selected_range t).2.

Definition select_to (offset : nat) (t : TextInput) : TextInput :=
  let range := if selection_reversed t then (offset, (selected_range t).2) else ((selected_range t).1, offset) in
  let '(range, reversed) := if bool_decide (range.2 < range.1) then ((range.2, range.1), negb (selection_reversed t))
                            else (range, selection_reversed t) in
  mkInput (content t) range reversed (marked_range t) (is_selecting t) (clipboard t) (emitted t).

(** The offset of the last character before, and of the end of the first character after. *)
Definition previous_boundary (t : TextInput) (offset : nat) : outcome nat :=
  '(a, _) ← split_at (content t) offset;
  Done (match last a with Some c => str_len a - len_utf8 c | None => 0 end).

Definition next_boundary (t : TextInput) (offset : nat) : outcome nat :=
  '(_, b) ← split_at (content t) offset;
  Done (match head b with Some c => offset + len_utf8 c | None => str_len (content t) end).

Definition left (t : TextInput) : outcome TextInput :=
  if is_empty (selected_range t)
  then o ← previous_boundary t (cursor_offset t); Done (move_to o t)
  else Done (move_to (selected_range t).1 t).

Definition right (t : TextInput) : outcome TextInput :=
  if is_empty (selected_range t)
  then o ← next_boundary t (selected_range t).2; Done (move_to o t)
  else Done (move_to (selected_range t).2 t).

Definition select_left (t : TextInput) : outcome TextInput :=
  o ← previous_boundary t (cursor_offset t); Done (select_to o t).
Definition select_right (t : TextInput) : outcome TextInput :=
  o ← next_boundary t (cursor_offset t); Done (select_to o t).
Definition select_all (t : TextInput) : TextInput := select_to (str_len (content t)) (move_to 0 t).
Definition home (t : TextInput) : TextInput := move_to 0 t.
Definition end_ (t : TextInput) : TextInput := move_to (str_len (content t)) t.

(** ** The mouse *)
Inductive MouseHit := NoLayout | Above | Below | OnLine (index : nat).

Definition index_for_mouse_position (t : TextInput) (hit : MouseHit) : nat :=
  if bool_decide (content t = []) then 0
  else match hit with
       | NoLayout | Above => 0
       | Below => str_len (content t)
       | OnLine index => index
       end.

Definition on_mouse_down (shift : bool) (hit : MouseHit) (t : TextInput) : TextInput :=
  let t := set_selecting true t in
  if shift then select_to (index_for_mouse_position t hit) t else move_to (index_for_mouse_position t hit) t.
Definition on_mouse_up (t : TextInput) : TextInput := set_selecting false t.
Definition on_mouse_move (hit : MouseHit) (t : TextInput) : TextInput :=
  if is_selecting t then select_to (index_for_mouse_position t hit) t else t.

(** ** UTF-16 offsets of the platform *)
Fixpoint from_utf16 (s : list Z) (count utf8 offset : nat) : nat :=
  match s with
  | [] => utf8
  | c :: s => if bool_decide (offset <= count) then utf8 else from_utf16 s (count + len_utf16 c) (utf8 + len_utf8 c) offset
  end.
Definition offset_from_utf16 (t : TextInput) (offset : nat) : nat := from_utf16 (content t) 0 0 offset.

Fixpoint to_utf16 (s : list Z) (count utf16 offset : nat) : nat :=
  match s with
  | [] => utf16
  | c :: s => if bool_decide (offset <= count) then utf16 else to_utf16 s (count + len_utf8 c) (utf16 + len_utf16 c) offset
  end.
Definition offset_to_utf16 (t : TextInput) (offset : nat) : nat := to_utf16 (content t) 0 0 offset.

Definition range_to_utf16 (t : TextInput) (r : nat * nat) : nat * nat := (offset_to_utf16 t r.1, offset_to_utf16 t r.2).
Definition range_from_utf16 (t : TextInput) (r : nat * nat) : nat * nat := (offset_from_utf16 t r.1, offset_from_utf16 t r.2).

(** ** The input handler *)
Definition text_for_range (t : TextInput) (r : nat * nat) : outcome (list Z * (nat * nat)) :=
  let range := range_from_utf16 t r in
  text ← slice_str (content t) range;
  Done (text, range_to_utf16 t range).
Definition selected_text_range (t : TextInput) : (nat * nat) * bool := (range_to_utf16 t (selected_range t), selection_reversed t).
Definition marked_text_range (t : TextInput) : option (nat * nat) := range_to_utf16 t <$> marked_range t.

Definition unmark_text (t : TextInput) : TextInput :=
  mkInput (content t) (selected_range t) (selection_reversed t) None (is_selecting t) (clipboard t) (emitted t).

(** The range an edit replaces: the one given, else the marked text, else the selection. *)
Definition target_range (t : TextInput) (range_utf16 : option (nat * nat)) : nat * nat :=
  match range_utf16 with
  | Some r => range_from_utf16 t r
  | None => default (selected_range t) (marked_range t)
  end.

(** [content[0..range.start] + new_text + &content[range.end..]]. *)
Definition replaced (t : TextInput) (range : nat * nat) (new_text : list Z) : outcome (list Z) :=
  '(before, _) ← split_at (content t) range.1;
  '(_, after) ← split_at (content t) range.2;
  Done (before ++ new_text ++ after).

Definition replace_text_in_range (range_utf16 : option (nat * nat)) (new_text : list Z) (t : TextInput) : outcome TextInput :=
  let range := target_range t range_utf16 in
  text ← replaced t range new_text;
  let cursor := range.1 + str_len new_text in
  Done (emit Changed (mkInput text (cursor, cursor) (selection_reversed t) None (is_selecting t) (clipboard t) (emitted t))).

Definition replace_and_mark_text_in_range (range_utf16 : option (nat * nat)) (new_text : list Z)
    (new_selected_range_utf16 : option (nat * nat)) (t : TextInput) : outcome TextInput :=
  let range := target_range t range_utf16 in
  text ← replaced t range new_text;
  let cursor := range.1 + str_len new_text in
  let marked := if bool_decide (new_text = []) then None else Some (range.1, cursor) in
  let t := mkInput text (selected_range t) (selection_reversed t) marked (is_selecting t) (clipboard t) (emitted t) in
  let selected := match new_selected_range_utf16 with
                  | Some r => let new_range := range_from_utf16 t r in (new_range.1 + range.1, new_range.2 + range.2)
                  | None => (cursor, cursor)
                  end in
  Done (emit Changed (mkInput text selected (selection_reversed t) marked (is_selecting t) (clipboard t) (emitted t))).

(** ** Editing *)
Definition backspace (t : TextInput) : outcome TextInput :=
  t ← (if is_empty (selected_range t) then select_left t else Done t);
  replace_text_in_range None [] t.

Definition delete (t : TextInput) : outcome TextInput :=
  t ← (if is_empty (selected_range t) then select_right t else Done t);
  replace_text_in_range None [] t.

Definition newline_to_space (c : Z) : Z := if (c =? 10)%Z then 32%Z else c.

Definition paste (t : TextInput) : outcome TextInput :=
  match clipboard t with
  | Some text => replace_text_in_range None (newline_to_space <$> text) t
  | None => Done t
  end.

Definition copy (t : TextInput) : outcome TextInput :=
  if is_empty (selected_range t) then Done t
  else
    text ← slice_str (content t) (selected_range t);
    Done (mkInput (content t) (selected_range t) (selection_reversed t) (marked_range t) (is_selecting t) (Some text) (emitted t)).

Definition cut (t : TextInput) : outcome TextInput :=
  if is_empty (selected_range t) then Done t
  else t ← copy t; replace_text_in_range None [] t.

(** ** The actions *)
Inductive Action :=
| Backspace | Delete | Left | Right | SelectLeft | SelectRight | SelectAll | Home | End | Paste | Cut | Copy | Escape
| Clear | MouseDown (shift : bool) (hit : MouseHit) | MouseUp | MouseMove (hit : MouseHit)
| Unmark | Replace (range_utf16 : option (nat * nat)) (text : list Z)
| ReplaceAndMark (range_utf16 : option (nat * nat)) (text : list Z) (selected : option (nat * nat)).

Definition perform (a : Action) (t : TextInput) : outcome TextInput :=
  match a with
  | Backspace => backspace t
  | Delete => delete t
  | Left => left t
  | Right => right t
  | SelectLeft => select_left t
  | SelectRight => select_right t
  | SelectAll => Done (select_all t)
  | Home => Done (home t)
  | End => Done (end_ t)
  | Paste => paste t
  | Cut => cut t
  | Copy => copy t
  | Escape => Done (escape t)
  | Clear => Done (clear t)
  | MouseDown shift hit => Done (on_mouse_down shift hit t)
  | MouseUp => Done (on_mouse_up t)
  | MouseMove hit => Done (on_mouse_move hit t)
  | Unmark => Done (unmark_text t)
  | Replace r text => replace_text_in_range r text t
  | ReplaceAndMark r text selected => replace_and_mark_text_in_range r text selected t
  end.
