(* ===== verification/TextInputSpec.v ===== *)
(** * The text input is an editor of characters

    - [Module Editor]: the abstract editor: a list of characters, an anchor and a cursor
      between them, the text marked by the input method;
    - [Module Offsets]: byte offsets of characters;
    - [Module Simulation]: every action of the text input is that of the editor. *)

From S2P Require Import Prelude TextInput.
From Stdlib Require Import ZArith.
Open Scope nat_scope.

Module Editor.

Record Editor := mkEditor {
  chars : list Z;
  anchor : nat;
  cursor : nat;
  marks : option (nat * nat);
  selecting : bool;
  clip : option (list Z);
  events : list InputEvent
}.

Definition lo (e : Editor) : nat := Nat.min (anchor e) (cursor e).
Definition hi (e : Editor) : nat := Nat.max (anchor e) (cursor e).

Definition go (i : nat) (e : Editor) : Editor := mkEditor (chars e) i i (marks e) (selecting e) (clip e) (events e).
Definition extend (i : nat) (e : Editor) : Editor := mkEditor (chars e) (anchor e) i (marks e) (selecting e) (clip e) (events e).
Definition after (e : Editor) (i : nat) : nat := Nat.min (S i) (length (chars e)).

(** The character at a UTF-16 offset, and the one at a byte offset. *)
Fixpoint utf16_index (s : list Z) (count x : nat) : nat :=
  match s with
  | [] => 0
  | c :: s => if bool_decide (x <= count) then 0 else S (utf16_index s (count + len_utf16 c) x)
  end.
Fixpoint byte_index (s : list Z) (offset : nat) : nat :=
  match s with
  | [] => 0
  | c :: s => if bool_decide (offset < len_utf8 c) then 0 else S (byte_index s (offset - len_utf8 c))
  end.

Definition hit_index (e : Editor) (hit : MouseHit) : nat :=
  match hit with
  | NoLayout | Above => 0
  | Below => length (chars e)
  | OnLine i => if bool_decide (chars e = []) then 0 else byte_index (chars e) i
  end.

Definition target (e : Editor) (r : option (nat * nat)) : nat * nat :=
  match r with
  | Some (x, y) => (utf16_index (chars e) 0 x, utf16_index (chars e) 0 y)
  | None => default (lo e, hi e) (marks e)
  end.

(** Replace the characters of a range, leaving the cursor after the new text. *)
Definition insert (mark : bool) (range : nat * nat) (text : list Z) (e : Editor) : Editor :=
  let i := range.1 + length text in
  mkEditor (take range.1 (chars e) ++ text ++ drop range.2 (chars e)) i i
    (if mark && negb (bool_decide (text = [])) then Some (range.1, i) else None) (selecting e) (clip e) (events e ++ [Changed]).

Definition selection (e : Editor) : list Z := drop (lo e) (take (hi e) (chars e)).
Definition keep (e : Editor) : Editor :=
  if bool_decide (anchor e = cursor e) then e
  else mkEditor (chars e) (anchor e) (cursor e) (marks e) (selecting e) (Some (selection e)) (events e).

Definition edit (e : Editor) (a : Action) : Editor :=
  match a with
  | Left => go (if bool_decide (anchor e = cursor e) then cursor e - 1 else lo e) e
  | Right => go (if bool_decide (anchor e = cursor e) then after e (cursor e) else hi e) e
  | SelectLeft => extend (cursor e - 1) e
  | SelectRight => extend (after e (cursor e)) e
  | SelectAll => extend (length (chars e)) (go 0 e)
  | Home => go 0 e
  | End => go (length (chars e)) e
  | Backspace =>
      let e := if bool_decide (anchor e = cursor e) then extend (cursor e - 1) e else e in
      insert false (target e None) [] e
  | Delete =>
      let e := if bool_decide (anchor e = cursor e) then extend (after e (cursor e)) e else e in
      insert false (target e None) [] e
  | Paste => match clip e with Some text => insert false (target e None) (newline_to_space <$> text) e | None => e end
  | Copy => keep e
  | Cut => if bool_decide (anchor e = cursor e) then e else insert false (target e None) [] (keep e)
  | Escape => mkEditor (chars e) (anchor e) (cursor e) (marks e) (selecting e) (clip e) (events e ++ [Escaped])
  | Clear => mkEditor [] 0 0 None (selecting e) (clip e) (events e ++ [Changed])
  | MouseDown shift hit =>
      let i := hit_index e hit in
      let e := mkEditor (chars e) (anchor e) (cursor e) (marks e) true (clip e) (events e) in
      if shift then extend i e else go i e
  | MouseUp => mkEditor (chars e) (anchor e) (cursor e) (marks e) false (clip e) (events e)
  | MouseMove hit => if selecting e then extend (hit_index e hit) e else e
  | Unmark => mkEditor (chars e) (anchor e) (cursor e) None (selecting e) (clip e) (events e)
  | Replace r text => insert false (target e r) text e
  | ReplaceAndMark r text _ => insert true (target e r) text e
  end.

Definition start (clip : option (list Z)) : Editor := mkEditor [] 0 0 None false clip [].
End Editor.

Module Offsets.

(** The byte offset of the [i]-th character. *)
Definition offset (s : list Z) (i : nat) : nat := str_len (take i s).

Lemma len_utf8_pos c : 1 <= len_utf8 c.
Proof. unfold len_utf8. repeat case_match; lia. Qed.

Lemma str_len_cons c s : str_len (c :: s) = len_utf8 c + str_len s.
Proof. done. Qed.

Lemma str_len_one c : str_len [c] = len_utf8 c.
Proof. unfold str_len. cbn. lia. Qed.

Lemma str_len_app s s' : str_len (s ++ s') = str_len s + str_len s'.
Proof. unfold str_len. rewrite fmap_app. induction (len_utf8 <$> s); cbn; lia. Qed.

Lemma offset_S c s i : offset (c :: s) (S i) = len_utf8 c + offset s i.
Proof. done. Qed.

Lemma offset_full s : offset s (length s) = str_len s.
Proof. unfold offset. by rewrite firstn_all. Qed.

Lemma offset_app s s' i : i <= length s -> offset (s ++ s') i = offset s i.
Proof. intros Hi. unfold offset. by rewrite take_app_le. Qed.

Lemma offset_lt s i j : i < j -> j <= length s -> offset s i < offset s j.
Proof.
  revert i j. induction s as [|c s IH]; intros i j Hij Hj; cbn in Hj; [lia|]. destruct j as [|j]; [lia|].
  pose proof (len_utf8_pos c). unfold offset in *. destruct i as [|i]; cbn [take]; rewrite !str_len_cons; [cbn; lia|].
  pose proof (IH i j ltac:(lia) ltac:(lia)). lia.
Qed.

Lemma offset_le s i j : i <= j -> j <= length s -> offset s i <= offset s j.
Proof. intros H1 H2. destruct (decide (i = j)) as [->|]; [done|]. pose proof (offset_lt s i j ltac:(lia) H2). lia. Qed.

Lemma offset_inj s i j : i <= length s -> j <= length s -> offset s i = offset s j -> i = j.
Proof.
  intros Hi Hj E. destruct (Nat.lt_trichotomy i j) as [H|[H|H]]; [|done|].
  - pose proof (offset_lt s i j H Hj). lia.
  - pose proof (offset_lt s j i H Hi). lia.
Qed.

Lemma split_at_offset s i : i <= length s -> split_at s (offset s i) = Done (take i s, drop i s).
Proof.
  revert i. induction s as [|c s IH]; intros [|i] Hi; cbn in Hi; [done|lia|done|].
  unfold offset. cbn [take]. rewrite str_len_cons. pose proof (len_utf8_pos c). cbn [split_at].
  destruct (len_utf8 c + str_len (take i s)) as [|n] eqn:E; [lia|]. rewrite <-E. rewrite bool_decide_false by lia.
  replace (len_utf8 c + str_len (take i s) - len_utf8 c) with (offset s i) by (unfold offset; lia).
  rewrite IH by lia. done.
Qed.

Lemma slice_offset s i j : i <= j -> j <= length s -> slice_str s (offset s i, offset s j) = Done (drop i (take j s)).
Proof.
  intros Hij Hj. unfold slice_str. cbn [fst snd]. pose proof (offset_le s i j Hij Hj). rewrite bool_decide_false by lia.
  rewrite split_at_offset by done. cbn [mbind outcome_bind]. assert (E : offset s i = offset (take j s) i).
  { unfold offset. by rewrite take_take, Nat.min_l. }
  rewrite E, split_at_offset by (rewrite length_take; lia). done.
Qed.

Lemma from_utf16_offset s count utf8 x : from_utf16 s count utf8 x = utf8 + offset s (Editor.utf16_index s count x).
Proof.
  revert count utf8. induction s as [|c s IH]; intros count utf8; cbn [from_utf16 Editor.utf16_index]; [cbn; lia|].
  case_bool_decide; [cbn; lia|]. rewrite IH, offset_S. lia.
Qed.

Lemma utf16_index_le s count x : Editor.utf16_index s count x <= length s.
Proof. revert count. induction s as [|c s IH]; intros count; cbn; [done|]. case_bool_decide; [lia|]. pose proof (IH (count + len_utf16 c)). lia. Qed.

Lemma byte_index_offset s i : i <= length s -> Editor.byte_index s (offset s i) = i.
Proof.
  revert i. induction s as [|c s IH]; intros [|i] Hi; cbn in Hi; [done|lia| |].
  - cbn. pose proof (len_utf8_pos c). by rewrite bool_decide_true.
  - unfold offset. cbn [take]. rewrite str_len_cons. cbn [Editor.byte_index]. rewrite bool_decide_false by lia.
    replace (len_utf8 c + str_len (take i s) - len_utf8 c) with (offset s i) by (unfold offset; lia). by rewrite IH by lia.
Qed.
End Offsets.

Module Simulation.
Import Editor Offsets.
#[local] Arguments offset : simpl never.
#[local] Arguments str_len : simpl never.

(** The text input shows an editor: its offsets are those of the editor's characters. *)
Record shows (e : Editor) (t : TextInput) : Prop := {
  sh_content : content t = chars e;
  sh_bounds : anchor e <= length (chars e) /\ cursor e <= length (chars e);
  sh_selected : selected_range t = (offset (chars e) (lo e), offset (chars e) (hi e));
  sh_reversed : (anchor e < cursor e -> selection_reversed t = false) /\ (cursor e < anchor e -> selection_reversed t = true);
  sh_marks : match marks e with
             | Some (i, j) => i <= j <= length (chars e) /\ marked_range t = Some (offset (chars e) i, offset (chars e) j)
             | None => marked_range t = None
             end;
  sh_rest : is_selecting t = selecting e /\ clipboard t = clip e /\ emitted t = events e
}.

Lemma shows_start c : shows (start c) (new c).
Proof. split; cbn; auto; lia. Qed.

Section steps.
Context (e : Editor) (t : TextInput) (H : shows e t).

Lemma cursor_shown : cursor_offset t = offset (chars e) (cursor e).
Proof.
  destruct H as [_ _ Hs [H1 H2] _ _]. unfold cursor_offset. rewrite Hs. cbn [fst snd]. unfold lo, hi.
  destruct (Nat.lt_trichotomy (anchor e) (cursor e)) as [Hlt|[->|Hlt]].
  - rewrite H1 by done. by rewrite Nat.max_r by lia.
  - rewrite Nat.min_id, Nat.max_id. by destruct (selection_reversed t).
  - rewrite H2 by done. by rewrite Nat.min_r by lia.
Qed.

Lemma empty_shown : is_empty (selected_range t) = bool_decide (anchor e = cursor e).
Proof.
  destruct H as [_ Hb Hs _ _ _]. unfold is_empty. rewrite Hs. cbn [fst snd]. apply bool_decide_ext. unfold lo, hi. split.
  - intros Hle. destruct (decide (anchor e = cursor e)); [done|]. exfalso.
    pose proof (offset_lt (chars e) (Nat.min (anchor e) (cursor e)) (Nat.max (anchor e) (cursor e)) ltac:(lia) ltac:(lia)). lia.
  - intros ->. by rewrite Nat.min_id, Nat.max_id.
Qed.

Lemma go_shown i : i <= length (chars e) -> shows (go i e) (move_to (offset (chars e) i) t).
Proof.
  intros Hi. destruct H. split; cbn; auto; [|lia]. unfold lo, hi, go. cbn. by rewrite Nat.min_id, Nat.max_id.
Qed.

Lemma extend_shown i : i <= length (chars e) -> shows (extend i e) (select_to (offset (chars e) i) t).
Proof.
  intros Hi. destruct H as [Hc Hb Hs Hr Hm Hrest]. unfold select_to.
  assert (Hcmp : ∀ j k, j <= length (chars e) -> k <= length (chars e) -> bool_decide (offset (chars e) j < offset (chars e) k) = bool_decide (j < k)).
  { intros j k Hj Hk. apply bool_decide_ext. split; [|by intros; apply offset_lt].
    intros Hlt. destruct (decide (j < k)); [done|]. pose proof (offset_le (chars e) k j ltac:(lia) Hj). lia. }
  rewrite Hs. cbn [fst snd]. set (a := anchor e) in *. set (c := cursor e) in *.
  (* the end that stays is the anchor *)
  assert (Ha : (if selection_reversed t then (offset (chars e) i, offset (chars e) (hi e)) else (offset (chars e) (lo e), offset (chars e) i)) =
    (if selection_reversed t then (offset (chars e) i, offset (chars e) a) else (offset (chars e) a, offset (chars e) i))).
  { unfold lo, hi. fold a c. destruct (Nat.lt_trichotomy a c) as [Hlt|[Heq|Hlt]].
    - rewrite (proj1 Hr Hlt). by rewrite Nat.min_l by lia.
    - rewrite Heq, Nat.min_id, Nat.max_id. done.
    - rewrite (proj2 Hr Hlt). by rewrite Nat.max_l by lia. }
  rewrite Ha. destruct (selection_reversed t) eqn:Er; cbn [fst snd]; rewrite Hcmp by lia; case_bool_decide as Hd; cbn.
  all: split; cbn; [done|fold a; lia|unfold lo, hi, extend; cbn; fold a|fold a; split; intros; (done || lia)|done|done].
  - by rewrite Nat.min_l, Nat.max_r by lia.
  - by rewrite Nat.min_r, Nat.max_l by lia.
  - by rewrite Nat.min_r, Nat.max_l by lia.
  - by rewrite Nat.min_l, Nat.max_r by lia.
Qed.

Lemma previous_shown i : i <= length (chars e) -> previous_boundary t (offset (chars e) i) = Done (offset (chars e) (i - 1)).
Proof.
  intros Hi. unfold previous_boundary. rewrite (sh_content _ _ H), split_at_offset by done. cbn [mbind outcome_bind]. f_equal.
  destruct i as [|i]; [done|]. destruct (lookup_lt_is_Some_2 (chars e) i ltac:(lia)) as [c Hc].
  rewrite (take_S_r _ _ _ Hc), last_snoc, str_len_app, str_len_one. replace (S i - 1) with i by lia. unfold offset. lia.
Qed.

Lemma next_shown i : i <= length (chars e) -> next_boundary t (offset (chars e) i) = Done (offset (chars e) (after e i)).
Proof.
  intros Hi. unfold next_boundary, after. rewrite (sh_content _ _ H), split_at_offset by done. cbn [mbind outcome_bind]. f_equal.
  destruct (decide (i = length (chars e))) as [->|Hne].
  - rewrite drop_all. cbn [head]. by rewrite Nat.min_r, offset_full by lia.
  - destruct (lookup_lt_is_Some_2 (chars e) i ltac:(lia)) as [c Hc]. rewrite (drop_S _ _ _ Hc). cbn [head].
    rewrite Nat.min_l by lia. unfold offset. rewrite (take_S_r _ _ _ Hc), str_len_app, str_len_one. lia.
Qed.

Lemma target_bounds r : (target e r).1 <= length (chars e) /\ (target e r).2 <= length (chars e).
Proof.
  destruct H as [_ Hb _ _ Hm _]. destruct r as [[x y]|]; cbn; [split; apply utf16_index_le|].
  destruct (marks e) as [[i j]|]; cbn; [lia|]. unfold lo, hi. lia.
Qed.

Lemma target_shown r : target_range t r = (offset (chars e) (target e r).1, offset (chars e) (target e r).2).
Proof.
  destruct H as [Hc _ Hs _ Hm _]. destruct r as [[x y]|]; cbn.
  - unfold range_from_utf16, offset_from_utf16. by rewrite Hc, !from_utf16_offset.
  - destruct (marks e) as [[i j]|]; [destruct Hm as [_ ->]|rewrite Hm]; cbn; done.
Qed.

Lemma replaced_shown i j text : i <= length (chars e) -> j <= length (chars e) ->
  replaced t (offset (chars e) i, offset (chars e) j) text = Done (take i (chars e) ++ text ++ drop j (chars e)).
Proof. intros Hi Hj. unfold replaced. cbn. rewrite (sh_content _ _ H), !split_at_offset by done. done. Qed.

(** The offset after the new text. *)
Lemma offset_after i j text : i <= length (chars e) ->
  offset (take i (chars e) ++ text ++ drop j (chars e)) (i + length text) = offset (chars e) i + str_len text.
Proof.
  intros Hi. unfold offset. rewrite app_assoc, take_app_le by (rewrite length_app, length_take; lia).
  rewrite firstn_all2 by (rewrite length_app, length_take; lia). apply str_len_app.
Qed.

Lemma offset_before i j text : i <= length (chars e) -> offset (take i (chars e) ++ text ++ drop j (chars e)) i = offset (chars e) i.
Proof. intros Hi. unfold offset. by rewrite take_app_le, take_take, Nat.min_id by (rewrite length_take; lia). Qed.

Lemma replace_shown r text :
  exists t', replace_text_in_range r text t = Done t' /\ shows (insert false (target e r) text e) t'.
Proof.
  destruct (target_bounds r) as [H1 H2]. unfold replace_text_in_range. rewrite target_shown, replaced_shown by done. cbn [mbind outcome_bind fst].
  eexists. split; [done|]. set (i := (target e r).1) in *. set (j := (target e r).2) in *. destruct H as [Hc Hb Hs Hr Hm (Hx & Hy & Hz)].
  split; cbn; fold i j.
  - done.
  - rewrite !length_app, length_take. lia.
  - unfold lo, hi. cbn. fold i j. by rewrite Nat.min_id, Nat.max_id, offset_after.
  - lia.
  - done.
  - by rewrite Hz.
Qed.

Lemma mark_shown r text :
  exists t', replace_and_mark_text_in_range r text None t = Done t' /\ shows (insert true (target e r) text e) t'.
Proof.
  destruct (target_bounds r) as [H1 H2]. unfold replace_and_mark_text_in_range. rewrite target_shown, replaced_shown by done. cbn [mbind outcome_bind fst].
  eexists. split; [done|]. set (i := (target e r).1) in *. set (j := (target e r).2) in *. destruct H as [Hc Hb Hs Hr Hm (Hx & Hy & Hz)].
  split; cbn; fold i j.
  - done.
  - rewrite !length_app, length_take. lia.
  - unfold lo, hi. cbn. fold i j. by rewrite Nat.min_id, Nat.max_id, offset_after.
  - lia.
  - case_bool_decide; cbn; [done|]. rewrite !length_app, length_take, offset_after, offset_before by done. split; [lia|done].
  - by rewrite Hz.
Qed.

Lemma selection_shown : slice_str (content t) (selected_range t) = Done (selection e).
Proof.
  destruct H as [Hc Hb Hs _ _ _]. rewrite Hc, Hs. apply slice_offset; unfold lo, hi; lia.
Qed.

Lemma copy_shown : exists t', copy t = Done t' /\ shows (keep e) t'.
Proof.
  unfold copy, keep. rewrite empty_shown. case_bool_decide; [by exists t|]. rewrite selection_shown. cbn. eexists. split; [done|].
  destruct H as [Hc Hb Hs Hr Hm (Hx & Hy & Hz)]. split; cbn; auto.
Qed.

Lemma hit_shown hit : (forall i, hit = OnLine i -> exists k, k <= length (chars e) /\ i = offset (chars e) k) ->
  index_for_mouse_position t hit = offset (chars e) (hit_index e hit) /\ hit_index e hit <= length (chars e).
Proof.
  intros Hhit. unfold index_for_mouse_position. rewrite (sh_content _ _ H). destruct hit as [| | |i]; cbn.
  - split; [by case_bool_decide|lia].
  - split; [by case_bool_decide|lia].
  - rewrite offset_full. split; [|lia]. case_bool_decide as E; [by rewrite E|done].
  - destruct (Hhit i eq_refl) as (k & Hk & ->). case_bool_decide as E; [split; [done|lia]|]. by rewrite byte_index_offset.
Qed.
End steps.

(** The actions the refinement covers: the toolkit's index is that of a character of the
    line it shows, and the input method gives no selection of its own. *)
Definition on_boundary (s : list Z) (hit : MouseHit) : Prop := forall i, hit = OnLine i -> exists k, k <= length s /\ i = offset s k.
Definition covered (s : list Z) (a : Action) : Prop :=
  match a with
  | MouseDown _ hit | MouseMove hit => on_boundary s hit
  | ReplaceAndMark _ _ (Some _) => False
  | _ => True
  end.

Lemma after_bound e i : after e i <= length (chars e).
Proof. unfold after. lia. Qed.

Ltac shown := eexists; split; [reflexivity|].

(** Moves and selections. *)
Lemma moves_shown e t a : shows e t -> a ∈ [Left; Right; SelectLeft; SelectRight; SelectAll; Home; End] ->
  exists t', perform a t = Done t' /\ shows (edit e a) t'.
Proof.
  intros H Ha. pose proof (sh_bounds _ _ H) as Hb. pose proof (after_bound e (cursor e)) as Haf.
  assert (Hlo : lo e <= length (chars e) /\ hi e <= length (chars e)) by (unfold lo, hi; lia).
  assert (Hend : (selected_range t).2 = offset (chars e) (hi e)) by by rewrite (sh_selected _ _ H).
  repeat (apply elem_of_cons in Ha as [->|Ha]); [..|by apply elem_of_nil in Ha]; cbn [perform edit].
  - unfold left. rewrite (empty_shown _ _ H), (cursor_shown _ _ H), (previous_shown _ _ H), (sh_selected _ _ H) by lia.
    case_bool_decide; shown; apply go_shown; (done || lia).
  - unfold right. rewrite (empty_shown _ _ H), Hend. case_bool_decide as E.
    + replace (hi e) with (cursor e) by (unfold hi; lia). rewrite (next_shown _ _ H) by lia. shown. by apply go_shown.
    + shown. apply go_shown; (done || lia).
  - unfold select_left. rewrite (cursor_shown _ _ H), (previous_shown _ _ H) by lia. shown. apply extend_shown; (done || lia).
  - unfold select_right. rewrite (cursor_shown _ _ H), (next_shown _ _ H) by lia. shown. by apply extend_shown.
  - shown. unfold select_all. rewrite (sh_content _ _ H), <-offset_full.
    apply (extend_shown (go 0 e)); [|done]. apply (go_shown e t H 0). lia.
  - shown. apply (go_shown e t H 0). lia.
  - shown. unfold end_. rewrite (sh_content _ _ H), <-offset_full. by apply go_shown.
Qed.

(** Edits of the text. *)
Lemma edits_shown e t a : shows e t -> covered (chars e) a ->
  match a with
  | Backspace | Delete | Paste | Cut | Copy | Replace _ _ | ReplaceAndMark _ _ _ => True
  | _ => False
  end ->
  exists t', perform a t = Done t' /\ shows (edit e a) t'.
Proof.
  intros H Hc Ha. destruct a; try done; cbn [perform edit].
  - unfold backspace. rewrite (empty_shown _ _ H). case_bool_decide.
    + destruct (moves_shown e t SelectLeft H) as (t' & E & H'); [set_solver|]. cbn [perform edit] in E, H'. rewrite E. cbn [mbind outcome_bind]. by apply replace_shown.
    + cbn [mbind outcome_bind]. by apply replace_shown.
  - unfold delete. rewrite (empty_shown _ _ H). case_bool_decide.
    + destruct (moves_shown e t SelectRight H) as (t' & E & H'); [set_solver|]. cbn [perform edit] in E, H'. rewrite E. cbn [mbind outcome_bind]. by apply replace_shown.
    + cbn [mbind outcome_bind]. by apply replace_shown.
  - unfold paste. destruct (sh_rest _ _ H) as (_ & -> & _). destruct (clip e); [by apply replace_shown|by exists t].
  - unfold cut. rewrite (empty_shown _ _ H). case_bool_decide as E; [by exists t|].
    destruct (copy_shown e t H) as (t' & -> & H'). cbn [mbind outcome_bind]. destruct (replace_shown _ _ H' None []) as (t'' & -> & H''). exists t''. split; [done|].
    unfold keep in *. by rewrite bool_decide_false in *.
  - by apply copy_shown.
  - by apply replace_shown.
  - destruct selected; [done|]. by apply mark_shown.
Qed.

Lemma perform_shown e t a : shows e t -> covered (chars e) a -> exists t', perform a t = Done t' /\ shows (edit e a) t'.
Proof.
  intros H Hc. destruct a; try (apply moves_shown; [done|set_solver]); try (by apply edits_shown); cbn [perform edit].
  - shown. destruct H as [? ? ? ? ? (? & ? & Hz)]. split; cbn; auto. by rewrite Hz.
  - shown. destruct H as [? ? ? ? ? (? & ? & Hz)]. split; cbn; auto; [lia|by rewrite Hz].
  - set (e' := mkEditor (chars e) (anchor e) (cursor e) (marks e) true (clip e) (events e)).
    assert (H' : shows e' (set_selecting true t)) by (destruct H as [? ? ? ? ? (? & ? & ?)]; split; cbn; auto).
    destruct (hit_shown e' (set_selecting true t) H' hit Hc) as [E Hi]. change (hit_index e' hit) with (hit_index e hit) in *. unfold on_mouse_down. rewrite E.
    destruct shift; shown; [by apply extend_shown|by apply go_shown].
  - shown. destruct H as [? ? ? ? ? (? & ? & ?)]. split; cbn; auto.
  - destruct (hit_shown e t H hit Hc) as [E Hi]. unfold on_mouse_move. destruct (sh_rest _ _ H) as (-> & _ & _). rewrite E.
    destruct (selecting e); shown; [by apply extend_shown|done].
  - shown. destruct H as [? ? ? ? ? (? & ? & ?)]. split; cbn; auto.
Qed.
End Simulation.

(** A sequence of actions that the refinement covers, each in the state it meets. *)
Fixpoint covered_run (e : Editor.Editor) (actions : list Action) : Prop :=
  match actions with
  | [] => True
  | a :: actions => Simulation.covered (Editor.chars e) a /\ covered_run (Editor.edit e a) actions
  end.

(** C18: the text input refines an editor of characters.  Under any sequence of its actions,
    with the clipboard, the mouse and the input method, it never slices inside a character
    or past the end, and its content, selection, direction of selection, marked text,
    clipboard and events are those of the editor. *)
Theorem text_input_refines_editor (clipboard : option (list Z)) (actions : list Action) :
  covered_run (Editor.start clipboard) actions ->
  exists t, fold_outcome (fun t a => perform a t) actions (new clipboard) = Done t /\
    Simulation.shows (foldl Editor.edit (Editor.start clipboard) actions) t.
Proof.
  generalize (Simulation.shows_start clipboard). generalize (new clipboard), (Editor.start clipboard).
  induction actions as [|a actions IH]; intros t e H Hrun; cbn; [by exists t|]. destruct Hrun as [Hc Hrun].
  destruct (Simulation.perform_shown e t a H Hc) as (t' & -> & H'). by apply IH.
Qed.

Lemma text_input_refines_editor_witness :
  let actions := [Replace None [233; 97; 128512]; Left; SelectLeft; Cut; Home; Paste; SelectAll; Copy; Backspace]%Z in
  exists t, fold_outcome (fun t a => perform a t) actions (new None) = Done t /\
    Simulation.shows (foldl Editor.edit (Editor.start None) actions) t /\ clipboard t = Some [97; 233; 128512]%Z.
Proof.
  intros actions. destruct (text_input_refines_editor None actions) as (t & E & H); [repeat split|].
  exists t. split; [exact E|]. split; [exact H|]. vm_compute in E. injection E as <-. reflexivity.
Defined.

(** ** The selection that the input method reports *)
Module Composition.
Import Offsets.

Definition str_len16 (s : list Z) : nat := sum_list (len_utf16 <$> s).
Definition is_ascii (s : list Z) : Prop := Forall (fun c => (c < 128)%Z) s.

Lemma units_le_bytes c : len_utf16 c <= len_utf8 c.
Proof. unfold len_utf16, len_utf8. repeat case_match; lia. Qed.

Lemma ascii_len s : is_ascii s -> str_len16 s = str_len s.
Proof.
  induction 1 as [|c s Hc _ IH]; [done|]. unfold str_len16, str_len in *. cbn. rewrite IH.
  unfold len_utf16, len_utf8. repeat case_match; lia.
Qed.

(** As many bytes as units are passed, as long as the text has them. *)
Lemma from_utf16_ge s count utf8 x : x <= count + str_len16 s -> utf8 + (x - count) <= from_utf16 s count utf8 x.
Proof.
  revert count utf8. induction s as [|c s IH]; intros count utf8; cbn; [lia|]. intros Hx. case_bool_decide; [lia|].
  specialize (IH (count + len_utf16 c) (utf8 + len_utf8 c)). unfold str_len16 in *. pose proof (units_le_bytes c). lia.
Qed.

Lemma from_utf16_all s count utf8 : from_utf16 s count utf8 (count + str_len16 s) = utf8 + str_len s.
Proof.
  revert count utf8. induction s as [|c s IH]; intros count utf8; [cbn; lia|].
  unfold str_len16, str_len in *. cbn. rewrite bool_decide_false by (unfold len_utf16; case_match; lia).
  rewrite Nat.add_assoc, IH. lia.
Qed.

Lemma str_len16_app s s' : str_len16 (s ++ s') = str_len16 s + str_len16 s'.
Proof. unfold str_len16. rewrite fmap_app. induction (len_utf16 <$> s); cbn; lia. Qed.

Lemma split_at_past s o : str_len s < o -> split_at s o = Panicked.
Proof.
  revert o. induction s as [|c s IH]; intros [|o] H; [cbn in H; lia|done|lia|].
  rewrite str_len_cons in H. cbn [split_at]. case_bool_decide; [done|]. by rewrite IH by lia.
Qed.

Lemma copy_past t :
  (selected_range t).1 < (selected_range t).2 -> str_len (content t) < (selected_range t).2 ->
  copy t = Panicked /\ cut t = Panicked.
Proof.
  intros Hne Hp. assert (Hc : copy t = Panicked).
  { unfold copy, is_empty, slice_str. rewrite !bool_decide_false by lia. by rewrite split_at_past. }
  split; [done|]. unfold cut. rewrite Hc. unfold is_empty. by rewrite bool_decide_false by lia.
Qed.

Lemma split_at_app s s' : split_at (s ++ s') (str_len s) = Done (s, s').
Proof.
  replace (str_len s) with (offset (s ++ s') (length s)).
  - rewrite split_at_offset by (rewrite length_app; lia). by rewrite take_app_length, drop_app_length.
  - by rewrite offset_app, offset_full.
Qed.

(** What the report of a cursor at [c] selects: as many bytes as were replaced. *)
Lemma mark_selects t range pre old rest new_text c :
  content t = pre ++ old ++ rest -> target_range t range = (str_len pre, str_len (pre ++ old)) ->
  exists t', replace_and_mark_text_in_range range new_text (Some (c, c)) t = Done t' /\
    content t' = pre ++ new_text ++ rest /\
    selected_range t' = (from_utf16 (pre ++ new_text ++ rest) 0 0 c + str_len pre,
                         from_utf16 (pre ++ new_text ++ rest) 0 0 c + (str_len pre + str_len old)).
Proof.
  intros Hc Ht. unfold replace_and_mark_text_in_range. rewrite Ht. unfold replaced. rewrite Hc. cbn [fst snd].
  rewrite split_at_app. cbn [mbind outcome_bind]. rewrite (app_assoc pre), split_at_app. cbn [mbind outcome_bind].
  eexists. split; [reflexivity|]. split; [done|]. cbn. by rewrite str_len_app.
Qed.
End Composition.

(** C38: the end of the selection that an input method gives with a composition is moved by
    the end of the replaced text instead of its start.  Whenever text at the end of the
    content, be it selected, marked or given by its range, is replaced by a composition
    whose cursor is reported at its end (anywhere in the content when the composition is
    ASCII, at its beginning for any composition), the selection has the length of the
    replaced text and ends past the content, and both copying and cutting it panic. *)
Theorem composition_selects_past_end (t : TextInput) (range : option (nat * nat)) (pre old new_text : list Z) :
  content t = pre ++ old -> old <> [] -> target_range t range = (str_len pre, str_len (pre ++ old)) ->
  pre = [] \/ Composition.is_ascii new_text ->
  let n := Composition.str_len16 new_text in
  exists t', perform (ReplaceAndMark range new_text (Some (n, n))) t = Done t' /\ content t' = pre ++ new_text /\
    (selected_range t').2 = (selected_range t').1 + str_len old /\ str_len (content t') < (selected_range t').2 /\
    perform Copy t' = Panicked /\ perform Cut t' = Panicked.
Proof.
  intros Hc Ho Ht Hp n. destruct (Composition.mark_selects t range pre old [] new_text n) as (t' & E & Hc' & Hs);
    [by rewrite app_nil_r|done|]. rewrite app_nil_r in *.
  assert (Hold : 0 < str_len old).
  { destruct old as [|c old]; [done|]. rewrite Offsets.str_len_cons. pose proof (Offsets.len_utf8_pos c). lia. }
  assert (Hn : str_len new_text <= from_utf16 (pre ++ new_text) 0 0 n).
  { destruct Hp as [->|Ha].
    - cbn [app]. pose proof (Composition.from_utf16_all new_text 0 0) as H. cbn in H. fold n in H. lia.
    - rewrite <-(Composition.ascii_len _ Ha). fold n.
      pose proof (Composition.from_utf16_ge (pre ++ new_text) 0 0 n) as H. rewrite Composition.str_len16_app in H. lia. }
  assert (Hpast : str_len (content t') < (selected_range t').2).
  { rewrite Hs, Hc', Offsets.str_len_app. cbn. lia. }
  exists t'. split; [exact E|]. split; [done|]. split; [rewrite Hs; cbn; lia|]. split; [done|].
  apply Composition.copy_past; [rewrite Hs; cbn; lia|done].
Qed.

(** The letter k, marked, replaced by the syllable it begins. *)
Lemma composition_selects_past_end_witness :
  exists t t', fold_outcome (fun t a => perform a t) [ReplaceAndMark None [107]%Z (Some (1, 1))] (new None) = Done t /\
    perform (ReplaceAndMark None [12363]%Z (Some (1, 1))) t = Done t' /\ perform Copy t' = Panicked.
Proof.
  eexists. destruct (composition_selects_past_end
    (emit Changed (mkInput [107]%Z (1, 1) false (Some (0, 1)) false None [])) None [] [107]%Z [12363]%Z)
    as (t' & E & _ & _ & _ & Hcopy & _); [done|done|done|by left|].
  exists t'. split; [reflexivity|]. split; [exact E|exact Hcopy].
Defined.
