(* ===== verification/Classify.v ===== *)
(** * Instruction text classifier

    [utils/roofline-core/src/classify.rs]: operation counts and control flow of an instruction
    from its disassembly text, and the entry points of the C interface that use them
    ([rc_classify], [rc_flow_kind] in [capi.rs]).

    The table of RISC-V operations is generated at build time from the vendored
    specification ([utils/roofline-core/tmdl_spec.rs], [Module Generator]).  The classes of
    the single instructions, which the generator computes from their behaviour, are its
    input here; how their variants are merged into the table is the model. *)

From S2P Require Import Prelude Words Text Cfg.
Open Scope Z_scope.

(** ** Text *)
Definition ascii_lower (c : Z) : Z := if (65 <=? c) && (c <=? 90) then c + 32 else c.
Definition to_ascii_lowercase (s : list Z) : list Z := ascii_lower <$> s.

Definition is_ascii_alphabetic (c : Z) : bool := (65 <=? c) && (c <=? 90) || (97 <=? c) && (c <=? 122).
Definition is_ascii_digit (c : Z) : bool := (48 <=? c) && (c <=? 57).
Definition is_ascii_alphanumeric (c : Z) : bool := is_ascii_alphabetic c || is_ascii_digit c.

Definition starts_with (p s : list Z) : bool := bool_decide (is_Some (Text.strip_prefix p s)).
Definition ends_with (p s : list Z) : bool := starts_with (reverse p) (reverse s).

(** [trim_start_matches] and [trim_end_matches] of a set of characters. *)
Fixpoint trim_start_of (p : Z → bool) (s : list Z) : list Z :=
  match s with
  | [] => []
  | c :: s' => if p c then trim_start_of p s' else s
  end.
Definition trim_end_of (p : Z → bool) (s : list Z) : list Z := reverse (trim_start_of p (reverse s)).

(** [str::split_once] of a string: what follows its first occurrence. *)
Fixpoint after_first (pat s : list Z) : option (list Z) :=
  match Text.strip_prefix pat s with
  | Some rest => Some rest
  | None => match s with [] => None | _ :: s => after_first pat s end
  end.

Definition one_of (names : list string) (s : list Z) : bool := existsb (λ n, bool_decide (chars n = s)) names.
Definition any_prefix (names : list string) (s : list Z) : bool := existsb (λ n, starts_with (chars n) s) names.
Definition any_suffix (names : list string) (s : list Z) : bool := existsb (λ n, ends_with (chars n) s) names.

(** ** The mnemonic *)
Definition is_colon (c : Z) : bool := c =? 58.
Definition is_mnemonic (part : list Z) : bool :=
  existsb is_ascii_alphabetic part && negb (starts_with (chars "0x") (trim_end_of is_colon part)).

Definition mnemonic (disassembly : list Z) : list Z :=
  let part := default [] (List.find is_mnemonic (split_whitespace disassembly)) in
  let p c := (c =? 58) || (c =? 44) in
  to_ascii_lowercase (trim_end_of p (trim_start_of p part)).

(** ** Control flow *)
Inductive Target := Riscv | X86 | Aarch64.

Definition remove_spaces (s : list Z) : list Z := List.filter (λ c, negb (c =? 32)) s.

Definition operands (disassembly : list Z) : list Z :=
  match after_first (mnemonic disassembly) (to_ascii_lowercase disassembly) with
  | Some rest => remove_spaces (trim rest)
  | None => []
  end.

Definition riscv_flow (operation operands : list Z) : Cfg.FlowKind :=
  if one_of ["ret"; "c.ret"]%string operation ||
     one_of ["jr"; "c.jr"]%string operation && one_of ["ra"; "x1"]%string operands ||
     one_of ["jalr"]%string operation && any_prefix ["zero,ra"; "x0,x1"]%string operands
  then Cfg.Return
  else if one_of ["call"]%string operation ||
     one_of ["jal"; "jalr"]%string operation && any_prefix ["ra,"; "x1,"]%string operands ||
     one_of ["c.jal"]%string operation || one_of ["c.jalr"]%string operation
  then Cfg.Call
  else Cfg.Normal.

Definition classify_flow (target : option Target) (disassembly : list Z) : Cfg.FlowKind :=
  let operation := mnemonic disassembly in
  match target with
  | Some Riscv => riscv_flow operation (operands disassembly)
  | Some X86 =>
      if starts_with (chars "ret") operation then Cfg.Return
      else if starts_with (chars "call") operation then Cfg.Call
      else Cfg.Normal
  | Some Aarch64 =>
      if one_of ["ret"]%string operation then Cfg.Return
      else if one_of ["bl"; "blr"]%string operation then Cfg.Call
      else Cfg.Normal
  | None => Cfg.Normal
  end.

(** ** RISC-V operations *)
Inductive RiscvKind := ScalarInteger | ScalarFloat | ScalarDouble | VectorInteger | VectorFloat.
#[export] Instance RiscvKind_eq_dec : EqDecision RiscvKind.
Proof. solve_decision. Defined.
Record RiscvCost := mkRiscvCost { r_kind : RiscvKind; factor : Z; sew_scale : Z }.
#[export] Instance RiscvCost_eq_dec : EqDecision RiscvCost.
Proof. solve_decision. Defined.
Inductive RiscvClassification := Counted (cost : RiscvCost) | NonCompute | Unclassified.
#[export] Instance RiscvClassification_eq_dec : EqDecision RiscvClassification.
Proof. solve_decision. Defined.
Record RiscvOperationSpec := mkSpec { s_mnemonic : list Z; s_masked : bool; classification : RiscvClassification }.

(** [str::cmp], then [bool::cmp]. *)
Fixpoint compare_str (a b : list Z) : comparison :=
  match a, b with
  | [], [] => Eq
  | [], _ => Lt
  | _, [] => Gt
  | x :: a, y :: b => match x ?= y with Eq => compare_str a b | o => o end
  end.
Definition compare_bool (a b : bool) : comparison :=
  match a, b with false, true => Lt | true, false => Gt | _, _ => Eq end.
Definition compare_key (op : RiscvOperationSpec) (name : list Z) (masked : bool) : comparison :=
  match compare_str (s_mnemonic op) name with Eq => compare_bool (s_masked op) masked | o => o end.

(** [binary_search_by]: halving between the bounds; fuel for the length suffices. *)
Fixpoint binary_search (fuel : nat) (ops : list RiscvOperationSpec) (f : RiscvOperationSpec → comparison) (left right : nat)
    : outcome (option nat) :=
  if bool_decide (left < right)%nat then
    match fuel with
    | O => Panicked
    | S fuel =>
        let mid := (left + (right - left) / 2)%nat in
        op ← unwrap (ops !! mid);
        match f op with
        | Lt => binary_search fuel ops f (S mid) right
        | Gt => binary_search fuel ops f left mid
        | Eq => Done (Some mid)
        end
    end
  else Done None.

Definition is_masked (disassembly : list Z) : bool := str_contains (chars "v0.t") (to_ascii_lowercase disassembly).

Definition classify_riscv (ops : list RiscvOperationSpec) (disassembly : list Z) : outcome RiscvClassification :=
  let name := mnemonic disassembly in
  let masked := is_masked disassembly in
  found ← binary_search (S (length ops)) ops (λ op, compare_key op name masked) 0 (length ops);
  match found with
  | Some index => op ← unwrap (ops !! index); Done (classification op)
  | None => Done Unclassified
  end.

(** ** The generated table *)
Module Generator.

(** An instruction of the specification: its own [MNEMONIC] parameter and that of its
    template, its [OPNAME], and the class of its behaviour. *)
Record Instruction := mkInstruction {
  own_mnemonic : option (list Z); template_mnemonic : option (list Z); opname : option (list Z);
  behavior : RiscvClassification
}.

Record Entry := mkEntry {
  e_mnemonic : list Z; e_masked : bool; operation_name : list Z; e_classification : RiscvClassification
}.

Inductive Error := NoMnemonic | DuplicateOperation (name : list Z) | NoPartner (operation mnemonic : list Z).

(** The first loop of [generate]: an entry per instruction, operation names used once. *)
Fixpoint collect_entries (operation_names : list (list Z)) (items : list Instruction) : sum Error (list Entry) :=
  match items with
  | [] => inr []
  | item :: items =>
      match (match own_mnemonic item with Some m => Some m | None => template_mnemonic item end) with
      | None => inl NoMnemonic
      | Some m =>
          let name := default m (opname item) in
          if bool_decide (name ∈ operation_names) then inl (DuplicateOperation name)
          else
            let masked := match opname item with Some n => ends_with (chars ".m") n | None => false end in
            match collect_entries (name :: operation_names) items with
            | inl e => inl e
            | inr entries => inr (mkEntry m masked name (behavior item) :: entries)
            end
      end
  end.

Definition compare_entry (a : Entry) (mnemonic : list Z) (masked : bool) : comparison :=
  match compare_str (e_mnemonic a) mnemonic with Eq => compare_bool (e_masked a) masked | o => o end.

(** [get_mut] or [insert] in the ordered map [unique]. *)
Fixpoint merge_entry (entry : Entry) (unique : list Entry) : list Entry :=
  match unique with
  | [] => [entry]
  | previous :: rest =>
      match compare_entry previous (e_mnemonic entry) (e_masked entry) with
      | Lt => previous :: merge_entry entry rest
      | Gt => entry :: previous :: rest
      | Eq =>
          (if bool_decide (e_classification previous = e_classification entry) then previous
           else mkEntry (e_mnemonic previous) (e_masked previous) (operation_name previous) Unclassified) :: rest
      end
  end.

Fixpoint validate_keys (all entries : list Entry) : option Error :=
  match entries with
  | [] => None
  | entry :: entries =>
      if e_masked entry && negb (existsb (λ e, bool_decide (e_mnemonic e = e_mnemonic entry) && negb (e_masked e)) all)
      then Some (NoPartner (operation_name entry) (e_mnemonic entry))
      else validate_keys all entries
  end.

(** [generate]: the table that is rendered. *)
Definition generate (items : list Instruction) : sum Error (list RiscvOperationSpec) :=
  match collect_entries [] items with
  | inl e => inl e
  | inr entries =>
      let unique := foldl (λ u e, merge_entry e u) [] entries in
      match validate_keys unique unique with
      | Some e => inl e
      | None => inr ((λ e, mkSpec (e_mnemonic e) (e_masked e) (e_classification e)) <$> unique)
      end
  end.
End Generator.

(** ** x86 *)
Definition no_cost : Cfg.BlockCost := Cfg.mkCost 0 0 Cfg.Normal 0 0 0 0 0 0 0.
Definition cost_of (si sf sd vi vf vd : Z) : Cfg.BlockCost := Cfg.mkCost 0 0 Cfg.Normal si sf sd vi vf vd 0.

Definition is_x86_fused (opcode : list Z) : bool := any_prefix ["fmadd"; "fmsub"; "fnmadd"; "fnmsub"]%string opcode.

Definition is_x86_float_arithmetic (opcode : list Z) : bool :=
  any_prefix ["add"; "sub"; "mul"; "div"; "sqrt"; "min"; "max"; "cmp"; "comi"; "ucomi"; "fmadd"; "fmsub"; "fnmadd"; "fnmsub"]%string opcode &&
  any_suffix ["ss"; "sd"; "ps"; "pd"]%string opcode ||
  one_of ["fadd"; "faddp"; "fsub"; "fsubp"; "fsubr"; "fmul"; "fdiv"; "fdivp"; "fdivr"; "fsqrt"; "fcom"; "fcomp"; "fucom"; "fucomp"]%string opcode.

Definition x86_vector_bits (disassembly : list Z) : Z :=
  if str_contains (chars "zmm") disassembly then 512 else if str_contains (chars "ymm") disassembly then 256 else 128.

Definition x86_vector_integer_element_bits (opcode : list Z) : option Z :=
  if negb (any_prefix ["padd"; "psub"; "pmul"; "pmadd"; "pavg"; "pmin"; "pmax"; "pcmpeq"; "pcmpgt"; "psll"; "psrl"; "psra"]%string opcode) then None
  else c ← last opcode;
       if c =? 98 then Some 8 else if c =? 119 then Some 16 else if c =? 100 then Some 32 else if c =? 113 then Some 64 else None.

Definition x86_scalar_opcodes : list string :=
  ["add"; "adc"; "sub"; "sbb"; "imul"; "mul"; "idiv"; "div"; "inc"; "dec"; "neg"; "shl"; "shr"; "sar"; "sal"; "and"; "or"; "xor"; "cmp"; "test"]%string.
Definition is_x86_scalar_integer (opcode : list Z) : bool :=
  one_of x86_scalar_opcodes opcode ||
  match last opcode with
  | Some c => ((c =? 98) || (c =? 119) || (c =? 108) || (c =? 113)) && one_of x86_scalar_opcodes (removelast opcode)
  | None => false
  end.

Definition classify_x86 (mnemonic disassembly : list Z) : Cfg.BlockCost :=
  let opcode := default mnemonic (Text.strip_prefix (chars "v") mnemonic) in
  let operations := if is_x86_fused opcode then 2 else 1 in
  if is_x86_float_arithmetic opcode then
    if ends_with (chars "ss") opcode then cost_of 0 operations 0 0 0 0
    else if ends_with (chars "sd") opcode then cost_of 0 0 operations 0 0 0
    else if ends_with (chars "ps") opcode then cost_of 0 0 0 0 (operations * x86_vector_bits disassembly / 32) 0
    else if ends_with (chars "pd") opcode then cost_of 0 0 0 0 0 (operations * x86_vector_bits disassembly / 64)
    else if starts_with (chars "f") opcode then cost_of 0 0 operations 0 0 0
    else no_cost
  else match x86_vector_integer_element_bits opcode with
       | Some element_bits => cost_of 0 0 0 (operations * x86_vector_bits disassembly / element_bits) 0 0
       | None => if is_x86_scalar_integer opcode then cost_of 1 0 0 0 0 0 else no_cost
       end.

(** ** Arm *)
Definition arrangements : list (string * Z * Z) :=
  [(".2d"%string, 2, 64); (".4s"%string, 4, 32); (".2s"%string, 2, 32); (".8h"%string, 8, 16); (".4h"%string, 4, 16); (".16b"%string, 16, 8); (".8b"%string, 8, 8)].

Definition from_str_radix_u32 (radix : Z) (s : list Z) : option Z :=
  v ← from_str_radix radix s; if v <=? u32_max then Some v else None.

Definition aarch64_arrangement (disassembly : list Z) : option (Z * Z) :=
  let lower := to_ascii_lowercase disassembly in
  match List.find (λ a, str_contains (chars a.1.1) lower) arrangements with
  | Some (_, elements, bits) => Some (elements, bits)
  | None =>
      if str_contains (chars "%q") lower then
        value ← last (omap (Text.strip_prefix (chars "$0x")) (split_whitespace lower));
        size ← from_str_radix_u32 16 value;
        if size <=? 3 then let bits := Z.shiftl 8 size in Some (128 / bits, bits) else None
      else None
  end.

(** [str::split] at the characters with a property. *)
Fixpoint split_on (p : Z → bool) (cur s : list Z) : list (list Z) :=
  match s with
  | [] => [cur]
  | c :: s => if p c then cur :: split_on p [] s else split_on p (cur ++ [c]) s
  end.

Definition is_d_register (part : list Z) : bool :=
  match trim_start_of (λ c, c =? 37) part with
  | c :: (_ :: _) as digits => (c =? 100) && forallb is_ascii_digit digits
  | _ => false
  end.

Definition aarch64_scalar_fp_bits (disassembly : list Z) : Z :=
  if existsb is_d_register (split_on (λ c, negb (is_ascii_alphanumeric c) && negb (c =? 37)) [] (to_ascii_lowercase disassembly))
  then 64 else 32.

Definition aarch64_fused : list string :=
  ["fmla"; "fmls"; "fmadd"; "fmsub"; "fnmadd"; "fnmsub"; "fmlal"; "fmlsl"; "mla"; "mls"; "madd"; "msub"]%string.
Definition aarch64_float : list string :=
  ["fadd"; "fsub"; "fmul"; "fdiv"; "fsqrt"; "fmin"; "fmax"; "fmla"; "fmls"; "fmadd"; "fmsub"; "fnmadd"; "fnmsub"; "fnmul"; "fabd"; "faddp"; "fmulx"]%string.
Definition aarch64_int : list string :=
  ["add"; "sub"; "mul"; "mla"; "mls"; "madd"; "msub"; "smull"; "umull"; "sdiv"; "udiv"; "neg"; "and"; "orr"; "eor"; "lsl"; "lsr"; "asr"; "adc"; "sbc"; "addp"]%string.

Definition classify_aarch64 (mnemonic disassembly : list Z) : Cfg.BlockCost :=
  let operations := if one_of aarch64_fused mnemonic then 2 else 1 in
  if one_of aarch64_float mnemonic then
    match aarch64_arrangement disassembly with
    | Some (elements, bits) =>
        if bits =? 64 then cost_of 0 0 0 0 0 (operations * elements) else cost_of 0 0 0 0 (operations * elements) 0
    | None => if aarch64_scalar_fp_bits disassembly =? 64 then cost_of 0 0 operations 0 0 0 else cost_of 0 operations 0 0 0 0
    end
  else if one_of aarch64_int mnemonic then
    match aarch64_arrangement disassembly with
    | Some (elements, _) => cost_of 0 0 0 (operations * elements) 0 0
    | None => cost_of 1 0 0 0 0 0
    end
  else no_cost.

(** ** The C interface *)
Definition target_from (target : Z) : option Target :=
  if target =? 0 then Some X86 else if target =? 1 then Some Riscv else if target =? 2 then Some Aarch64 else None.

Definition RC_KIND_NONE : Z := 0.
Definition RC_KIND_STATIC : Z := 1.
Definition RC_KIND_RVV : Z := 2.
Definition RC_KIND_UNCLASSIFIED : Z := 3.

Record RcCost := mkRcCost { x_scalar_int : Z; x_scalar_float : Z; x_scalar_double : Z; x_vector_int : Z; x_vector_float : Z; x_vector_double : Z }.
Record RcClassification := mkRc {
  rc_kind : Z;
  rc_cost : RcCost;
  rvv_is_float : Z;
  rvv_masked : Z;
  rvv_factor : Z;
  rvv_sew_scale : Z
}.

Definition default_classification : RcClassification := mkRc RC_KIND_NONE (mkRcCost 0 0 0 0 0 0) 0 0 0 0.

Definition fill_static (cost : Cfg.BlockCost) : RcClassification :=
  mkRc RC_KIND_STATIC (mkRcCost (Cfg.c_scalar_int cost) (Cfg.c_scalar_float cost) (Cfg.c_scalar_double cost)
    (Cfg.c_vector_int cost) (Cfg.c_vector_float cost) (Cfg.c_vector_double cost)) 0 0 0 0.

(** The classification of a RISC-V operation as the interface reports it. *)
Definition fill_riscv (masked : bool) (c : RiscvClassification) : RcClassification :=
  match c with
  | Counted cost =>
      match r_kind cost with
      | VectorInteger | VectorFloat =>
          mkRc RC_KIND_RVV (mkRcCost 0 0 0 0 0 0) (if bool_decide (r_kind cost = VectorFloat) then 1 else 0)
            (if masked then 1 else 0) (factor cost) (sew_scale cost)
      | ScalarInteger => mkRc RC_KIND_STATIC (mkRcCost (factor cost) 0 0 0 0 0) 0 0 0 0
      | ScalarFloat => mkRc RC_KIND_STATIC (mkRcCost 0 (factor cost) 0 0 0 0) 0 0 0 0
      | ScalarDouble => mkRc RC_KIND_STATIC (mkRcCost 0 0 (factor cost) 0 0 0) 0 0 0 0
      end
  | NonCompute => default_classification
  | Unclassified => mkRc RC_KIND_UNCLASSIFIED (mkRcCost 0 0 0 0 0 0) 0 0 0 0
  end.

(** What [rc_classify] leaves behind its output pointer. *)
Definition rc_classify (ops : list RiscvOperationSpec) (target : Z) (disassembly : option (list Z)) : outcome RcClassification :=
  match disassembly with
  | None => Done default_classification
  | Some text =>
      match target_from target with
      | Some Riscv => c ← classify_riscv ops text; Done (fill_riscv (is_masked text) c)
      | Some X86 => Done (fill_static (classify_x86 (mnemonic text) text))
      | Some Aarch64 => Done (fill_static (classify_aarch64 (mnemonic text) text))
      | None => Done default_classification
      end
  end.

Definition rc_flow_kind (target : Z) (disassembly : option (list Z)) : Z :=
  match disassembly with
  | None => 0
  | Some text =>
      match classify_flow (target_from target) text with
      | Cfg.Normal => 0
      | Cfg.Call => 1
      | Cfg.Return => 2
      end
  end.
