(* ===== verification/ClassifySpec.v ===== *)
(** * What the classifier reports

    - [Module Search]: the binary search of a sorted table finds an operation if it is there;
    - [Module Table]: the generated table is sorted and holds the class that the variants of
      an instruction agree on;
    - [Module Line]: the mnemonic and the mask of a line of disassembly;
    - [Module Costs]: an instruction counts in at most one category, a bounded number. *)

From S2P Require Import Prelude Words Text Cfg Classify.
Open Scope Z_scope.

Module Search.

(** The order of the table: no two operations compare equal. *)
Definition key_lt (a b : RiscvOperationSpec) : Prop := compare_key a (s_mnemonic b) (s_masked b) = Lt.

Lemma compare_str_refl a : compare_str a a = Eq.
Proof. induction a as [|x a IH]; cbn; [done|]. by rewrite Z.compare_refl. Qed.

Lemma compare_str_eq a b : compare_str a b = Eq → a = b.
Proof.
  revert b. induction a as [|x a IH]; intros [|y b]; cbn; try done. destruct (Z.compare_spec x y); try done. intros E. subst. f_equal. by apply IH.
Qed.

Lemma compare_str_trans a b c : compare_str a b = Lt → compare_str b c = Lt → compare_str a c = Lt.
Proof.
  revert b c. induction a as [|x a IH]; intros [|y b] [|z c]; cbn; try done.
  destruct (Z.compare_spec x y), (Z.compare_spec y z), (Z.compare_spec x z); subst; try done; try lia. apply IH.
Qed.

Lemma compare_str_anti a b : compare_str b a = CompOpp (compare_str a b).
Proof.
  revert b. induction a as [|x a IH]; intros [|y b]; cbn; try done. rewrite (Z.compare_antisym x y). by destruct (x ?= y); cbn.
Qed.

Lemma compare_key_eq op name masked : compare_key op name masked = Eq ↔ s_mnemonic op = name ∧ s_masked op = masked.
Proof.
  unfold compare_key. split.
  - destruct (compare_str _ _) eqn:E; try done. apply compare_str_eq in E. by destruct (s_masked op), masked.
  - intros [-> ->]. rewrite compare_str_refl. by destruct masked.
Qed.

Lemma compare_key_trans a b name masked : key_lt a b → compare_key b name masked ≠ Gt → compare_key a name masked = Lt.
Proof.
  unfold key_lt, compare_key. intros H1 H2. destruct (compare_str (s_mnemonic a) (s_mnemonic b)) eqn:E1; [| |done].
  - apply compare_str_eq in E1. rewrite E1. destruct (compare_str (s_mnemonic b) name); [|done|done].
    destruct (s_masked a), (s_masked b), masked; done.
  - destruct (compare_str (s_mnemonic b) name) eqn:E2; [|by rewrite (compare_str_trans _ _ _ E1 E2)|done].
    apply compare_str_eq in E2. by rewrite <-E2, E1.
Qed.

Lemma compare_key_up a b name masked : key_lt a b → compare_key a name masked ≠ Lt → compare_key b name masked = Gt.
Proof.
  intros H1 H2. destruct (compare_key b name masked) eqn:E; [exfalso; apply H2; by apply (compare_key_trans a b); [|rewrite E]..|done].
Qed.

Section search.
Context (ops : list RiscvOperationSpec) (name : list Z) (masked : bool) (Hs : StronglySorted key_lt ops).
Notation f := (λ op, compare_key op name masked).

(** The search keeps the key between its bounds. *)
Lemma binary_search_spec fuel left right : (right ≤ length ops)%nat → (right - left < fuel)%nat →
  (∀ i op, ops !! i = Some op → f op = Eq → (left ≤ i < right)%nat) →
  ∃ r, binary_search fuel ops f left right = Done r ∧
    match r with
    | Some i => ∃ op, ops !! i = Some op ∧ f op = Eq
    | None => ∀ i op, ops !! i = Some op → f op ≠ Eq
    end.
Proof.
  revert left right. induction fuel as [|fuel IH]; intros left right Hr Hf Hin; [lia|]. cbn [binary_search]. case_bool_decide as Hlt.
  2: { exists None. split; [done|]. intros i op Ho E. specialize (Hin i op Ho E). lia. }
  assert (Hmid : (left ≤ left + (right - left) / 2 < right)%nat) by (pose proof (Nat.div_lt (right - left) 2); lia).
  set (mid := (left + (right - left) / 2)%nat) in *. destruct (lookup_lt_is_Some_2 ops mid ltac:(lia)) as [op Hop]. rewrite Hop. cbn.
  destruct (compare_key op name masked) eqn:E.
  - exists (Some mid). split; [done|]. by exists op.
  - apply IH; [done|lia|]. intros i op' Ho' E'. specialize (Hin i op' Ho' E'). split; [|lia].
    destruct (decide (i ≤ mid)%nat) as [Hle|]; [|lia]. exfalso. destruct (decide (i = mid)) as [->|]; [congruence|].
    assert (compare_key op' name masked = Lt); [|congruence].
    apply (compare_key_trans op' op); [by apply (StronglySorted_lookup key_lt ops i mid); [|lia|..]|by rewrite E].
  - apply IH; [lia|lia|]. intros i op' Ho' E'. specialize (Hin i op' Ho' E'). split; [lia|].
    destruct (decide (mid ≤ i)%nat) as [Hle|]; [|lia]. exfalso. destruct (decide (i = mid)) as [->|]; [congruence|].
    assert (compare_key op' name masked = Gt); [|congruence].
    apply (compare_key_up op op'); [by apply (StronglySorted_lookup key_lt ops mid i); [|lia|..]|by rewrite E].
Qed.
End search.
End Search.

(** ** The table of the generator *)
Module Table.
Import Generator Search.

Definition spec_of (e : Entry) : RiscvOperationSpec := mkSpec (e_mnemonic e) (e_masked e) (e_classification e).

(** The class that the table gives a mnemonic with or without a mask. *)
Definition at_key (u : list Entry) (name : list Z) (masked : bool) : option RiscvClassification :=
  e_classification <$> List.find (λ e, bool_decide (e_mnemonic e = name ∧ e_masked e = masked)) u.

(** The class of all the variants, when they agree. *)
Definition agreed (cs : list RiscvClassification) : option RiscvClassification :=
  match cs with
  | [] => None
  | c :: cs => Some (if forallb (λ d, bool_decide (d = c)) cs then c else Unclassified)
  end.

Definition entry_lt (a b : Entry) : Prop := key_lt (spec_of a) (spec_of b).

Lemma compare_entry_key a name masked : compare_entry a name masked = compare_key (spec_of a) name masked.
Proof. done. Qed.

Lemma entry_lt_not a b name masked :
  entry_lt a b → e_mnemonic a = name → e_masked a = masked → ¬ (e_mnemonic b = name ∧ e_masked b = masked).
Proof.
  intros H <- <- [E1 E2]. unfold entry_lt, key_lt in H. cbn in H. rewrite E1, E2 in H.
  rewrite (proj2 (compare_key_eq (spec_of a) _ _)) in H by done. done.
Qed.

Lemma at_key_none u name masked : (∀ e, e ∈ u → ¬ (e_mnemonic e = name ∧ e_masked e = masked)) → at_key u name masked = None.
Proof.
  unfold at_key. induction u as [|e u IH]; intros H; cbn; [done|]. rewrite bool_decide_false by (apply H; set_solver).
  apply IH. intros e' He'. apply H. set_solver.
Qed.

Lemma gt_lt a b : compare_key (spec_of a) (e_mnemonic b) (e_masked b) = Gt → entry_lt b a.
Proof.
  unfold entry_lt, key_lt, compare_key. cbn. rewrite (compare_str_anti (e_mnemonic a) (e_mnemonic b)).
  destruct (compare_str (e_mnemonic a) (e_mnemonic b)); cbn; try done. by destruct (e_masked a), (e_masked b).
Qed.

Lemma entry_lt_trans a b c : entry_lt a b → entry_lt b c → entry_lt a c.
Proof. intros H1 H2. apply (compare_key_trans _ (spec_of b)); [done|]. unfold entry_lt, key_lt in H2. by rewrite H2. Qed.

Lemma merge_entry_keys e u x : x ∈ merge_entry e u → x = e ∨ ∃ y, y ∈ u ∧ e_mnemonic x = e_mnemonic y ∧ e_masked x = e_masked y.
Proof.
  induction u as [|p u IH]; cbn; [set_solver|]. destruct (compare_entry p _ _).
  - intros [->|Hx]%elem_of_cons; right; [exists p|exists x; set_solver]. case_bool_decide; set_solver.
  - intros [->|Hx]%elem_of_cons; [right; exists p; set_solver|]. destruct (IH Hx) as [->|(y & Hy & H)]; [by left|right; exists y; set_solver].
  - intros [->|Hx]%elem_of_cons; [by left|right; exists x; set_solver].
Qed.

Lemma entry_lt_same a b c : entry_lt a b → e_mnemonic c = e_mnemonic b → e_masked c = e_masked b → entry_lt a c.
Proof. unfold entry_lt, key_lt. cbn. by intros H -> ->. Qed.

Lemma merge_entry_sorted e u : StronglySorted entry_lt u → StronglySorted entry_lt (merge_entry e u).
Proof.
  induction 1 as [|p u Hs IH Hp]; cbn; [repeat constructor|]. rewrite compare_entry_key.
  rewrite Forall_forall in Hp. destruct (compare_key _ _ _) eqn:E.
  - constructor; [done|]. apply Forall_forall. intros x Hx. case_bool_decide; [by apply Hp|]. by apply (Hp x).
  - constructor; [done|]. apply Forall_forall. intros x [->|(y & Hy & H1 & H2)]%merge_entry_keys; [done|].
    apply (entry_lt_same p y); [by apply Hp|done..].
  - apply gt_lt in E. constructor; [constructor; [done|by apply Forall_forall]|].
    apply Forall_cons. split; [done|]. apply Forall_forall. intros x Hx. eapply entry_lt_trans; [done|by apply Hp].
Qed.

Lemma merge_entry_at e u name masked : StronglySorted entry_lt u →
  at_key (merge_entry e u) name masked =
  if bool_decide (e_mnemonic e = name ∧ e_masked e = masked)
  then Some (match at_key u name masked with
             | None => e_classification e
             | Some c => if bool_decide (c = e_classification e) then c else Unclassified
             end)
  else at_key u name masked.
Proof.
  induction 1 as [|p u Hs IH Hp]; [unfold at_key; cbn; by case_bool_decide|].
  rewrite Forall_forall in Hp. cbn [merge_entry]. rewrite compare_entry_key. destruct (compare_key _ _ _) eqn:E.
  - apply compare_key_eq in E as [E1 E2]. cbn in E1, E2. unfold at_key. cbn [List.find].
    set (p' := if bool_decide (e_classification p = _) then p else _).
    assert (Hp' : e_mnemonic p' = e_mnemonic p ∧ e_masked p' = e_masked p) by (unfold p'; destruct (bool_decide (e_classification p = e_classification e)); split; reflexivity).
    destruct Hp' as [-> ->]. rewrite <-E1, <-E2.
    destruct (bool_decide (e_mnemonic p = name ∧ e_masked p = masked)); [|done]. cbn. unfold p'. by destruct (bool_decide (e_classification p = e_classification e)).
  - unfold at_key in *. cbn [List.find].
    destruct (bool_decide (e_mnemonic p = name ∧ e_masked p = masked)) eqn:Ek; [|exact IH].
    apply bool_decide_eq_true in Ek as [Ek1 Ek2]. rewrite bool_decide_false; [done|].
    apply (entry_lt_not p e); [exact E|done..].
  - apply gt_lt in E. unfold at_key at 1. cbn [List.find]. case_bool_decide as Hk; [|done].
    rewrite at_key_none; [done|]. destruct Hk as [H1 H2]. intros x [->|Hx]%elem_of_cons; eapply entry_lt_not; try done.
    eapply entry_lt_trans; [done|by apply Hp].
Qed.

(** The variants of a mnemonic among the entries. *)
Definition variants (entries : list Entry) (name : list Z) (masked : bool) : list RiscvClassification :=
  e_classification <$> List.filter (λ e, bool_decide (e_mnemonic e = name ∧ e_masked e = masked)) entries.

Lemma agreed_snoc cs c :
  agreed (cs ++ [c]) = Some (match agreed cs with None => c | Some d => if bool_decide (d = c) then d else Unclassified end).
Proof.
  destruct cs as [|d cs]; [done|]. cbn. rewrite forallb_app. cbn. rewrite andb_true_r. f_equal.
  destruct (forallb _ cs) eqn:E; cbn; repeat case_bool_decide; subst; try done.
Qed.

Lemma unique_spec entries :
  let u := foldl (λ u e, merge_entry e u) [] entries in
  StronglySorted entry_lt u ∧ ∀ name masked, at_key u name masked = agreed (variants entries name masked).
Proof.
  induction entries as [|e entries IH] using rev_ind; [split; [constructor|done]|].
  cbn zeta in *. rewrite foldl_app. cbn [foldl]. destruct IH as [Hs Ha]. split; [by apply merge_entry_sorted|].
  intros name masked. rewrite merge_entry_at by done. unfold variants. rewrite List.filter_app, fmap_app. cbn [List.filter].
  case_bool_decide; cbn; [|by rewrite app_nil_r]. rewrite agreed_snoc, Ha. done.
Qed.

Lemma specs_sorted u : StronglySorted entry_lt u → StronglySorted key_lt (spec_of <$> u).
Proof. induction 1 as [|e u _ IH He]; cbn; constructor; [done|]. by apply Forall_fmap. Qed.

Lemma at_key_in u op :
  StronglySorted entry_lt u → op ∈ spec_of <$> u → at_key u (s_mnemonic op) (s_masked op) = Some (classification op).
Proof.
  intros Hs (e & -> & He)%list_elem_of_fmap. cbn. induction Hs as [|p u Hs IH Hp]; [set_solver|].
  unfold at_key. cbn [List.find]. apply elem_of_cons in He as [->|He]; [by rewrite bool_decide_true|].
  rewrite bool_decide_false; [by apply IH|]. rewrite Forall_forall in Hp. intros [E1 E2].
  by apply (entry_lt_not p e _ _ (Hp e He) E1 E2).
Qed.

(** Looking up the table: the variants' class. *)
Lemma lookup_table items ops entries text :
  collect_entries [] items = inr entries → generate items = inr ops →
  classify_riscv ops text = Done (default Unclassified (agreed (variants entries (mnemonic text) (is_masked text)))).
Proof.
  intros Hc Hg. unfold generate in Hg. rewrite Hc in Hg. destruct (validate_keys _ _); [done|]. injection Hg as <-.
  destruct (unique_spec entries) as [Hs Ha]. set (u := foldl _ _ entries) in *. fold spec_of. unfold classify_riscv.
  destruct (binary_search_spec (spec_of <$> u) (mnemonic text) (is_masked text) (specs_sorted u Hs)
    (S (length (spec_of <$> u))) 0 (length (spec_of <$> u))) as (r & -> & Hr); [lia|lia| |].
  { intros i op Hi _. apply lookup_lt_Some in Hi. lia. }
  rewrite <-Ha. cbn. destruct r as [i|].
  - destruct Hr as (op & Hi & [E1 E2]%compare_key_eq). rewrite Hi. cbn. rewrite <-E1, <-E2.
    rewrite at_key_in; [done|done|by eapply list_elem_of_lookup_2].
  - rewrite at_key_none; [done|]. intros e He [E1 E2]. destruct (list_elem_of_lookup_1 (spec_of <$> u) (spec_of e)) as [i Hi].
    { by apply list_elem_of_fmap_2. }
    apply (Hr i _ Hi). by apply compare_key_eq.
Qed.
End Table.

(** ** Lines of disassembly *)
Module Line.

Definition spaces (g : list Z) : Prop := Forall (λ c, is_whitespace c = true) g.
Definition is_sep (c : Z) : bool := is_whitespace c || (c =? 44).
Definition gap (g : list Z) : Prop := g ≠ [] ∧ Forall (λ c, is_sep c = true) g.

(** What may stand before the mnemonic: a word without letters, or a hexadecimal address. *)
Definition is_hex_or_colon (c : Z) : bool :=
  is_ascii_digit c || (97 <=? c) && (c <=? 102) || (65 <=? c) && (c <=? 70) || (c =? 58).
Definition address (w : list Z) : Prop :=
  w ≠ [] ∧ (Forall (λ c, is_ascii_alphabetic c = false ∧ is_whitespace c = false) w ∨
            ∃ digits, w = chars "0x" ++ digits ∧ Forall (λ c, is_hex_or_colon c = true) digits).

Definition mask : list Z := chars "v0.t".

(** A mnemonic, in upper or lower case. *)
Record name_ok (w : list Z) : Prop := {
  nk_chars : Forall (λ c, is_sep c = false ∧ c ≠ 58) w;
  nk_letter : existsb is_ascii_alphabetic w = true;
  nk_prefix : starts_with (chars "0x") w = false;
  nk_mask : str_contains mask (to_ascii_lowercase w) = false
}.

(** An operand is the mask register, or does not look like it. *)
Definition operand_ok (o : list Z) : Prop :=
  to_ascii_lowercase o = mask ∨ str_contains mask (to_ascii_lowercase o) = false.

(** Addresses each followed by white space, the mnemonic, the operands each after a gap. *)
Definition line (lead : list Z) (pre : list (list Z * list Z)) (name : list Z) (operands : list (list Z * list Z))
    (trail : list Z) : list Z :=
  lead ++ concat ((λ p, p.1 ++ p.2) <$> pre) ++ name ++ concat ((λ p, p.1 ++ p.2) <$> operands) ++ trail.

Record line_ok (lead : list Z) (pre : list (list Z * list Z)) (name : list Z) (operands : list (list Z * list Z))
    (trail : list Z) : Prop := {
  lk_lead : spaces lead;
  lk_pre : Forall (λ p, address p.1 ∧ p.2 ≠ [] ∧ spaces p.2) pre;
  lk_name : name_ok name;
  lk_operands : Forall (λ p, gap p.1 ∧ operand_ok p.2) operands;
  lk_first : ∀ p c, head operands = Some p → head p.1 = Some c → is_whitespace c = true;
  lk_trail : spaces trail
}.

(** *** Words *)
Lemma split_spaces g s : spaces g → split_words [] (g ++ s) = split_words [] s.
Proof. induction 1 as [|c g Hc _ IH]; cbn; [done|]. by rewrite Hc. Qed.

Lemma split_word_spaces w g s :
  is_word w → g ≠ [] → spaces g → split_words [] (w ++ g ++ s) = w :: split_words [] s.
Proof.
  intros [Hne Hw] Hg Hs. rewrite split_words_word by done. cbn [app]. destruct Hs as [|c g Hc Hs]; [done|].
  cbn. rewrite Hc. unfold flush_word. rewrite bool_decide_false by done. cbn. by rewrite split_spaces.
Qed.

Lemma split_pre pre s :
  Forall (λ p, is_word p.1 ∧ p.2 ≠ [] ∧ spaces p.2) pre →
  split_words [] (concat ((λ p, p.1 ++ p.2) <$> pre) ++ s) = pre.*1 ++ split_words [] s.
Proof.
  induction 1 as [|[w g] pre (Hw & Hg & Hs) _ IH]; [done|]. cbn -[split_words]. rewrite <-!app_assoc.
  cbn in Hw, Hg, Hs. rewrite split_word_spaces by done. by rewrite IH.
Qed.

Lemma hex_not_space c : is_hex_or_colon c = true → is_whitespace c = false ∧ c ≠ 118 ∧ c ≠ 86.
Proof. unfold is_hex_or_colon, is_ascii_digit, is_whitespace. lia. Qed.

Lemma address_word w : address w → is_word w.
Proof.
  intros [Hne [H|(d & -> & H)]]; (split; [done|]).
  - eapply Forall_impl; [exact H|]. by intros c [_ ?].
  - apply Forall_app. split; [by repeat constructor|]. eapply Forall_impl; [exact H|]. intros c Hc. by apply hex_not_space in Hc as [? _].
Qed.

Lemma trim_start_none p w : Forall (λ c, p c = false) w → trim_start_of p w = w.
Proof. intros [|c w' Hc _]; [done|]. cbn. by rewrite Hc. Qed.
Lemma trim_end_none p w : Forall (λ c, p c = false) w → trim_end_of p w = w.
Proof. intros H. unfold trim_end_of. rewrite trim_start_none by by apply Forall_reverse. apply reverse_involutive. Qed.

(** Trimming colons at the end leaves the prefix of an address. *)
Lemma trim_start_suffix p w k : Forall (λ c, p c = false) k → k ≠ [] → ∃ w', trim_start_of p (w ++ k) = w' ++ k.
Proof.
  intros Hk Hne. induction w as [|c w IH]; cbn; [exists []; by apply trim_start_none|].
  destruct (p c); [exact IH|by exists (c :: w)].
Qed.

Lemma address_not_mnemonic w : address w → is_mnemonic w = false.
Proof.
  intros [_ [H|(d & -> & _)]]; unfold is_mnemonic.
  - replace (existsb is_ascii_alphabetic w) with false; [done|]. symmetry. apply not_true_is_false.
    intros (c & Hc%list_elem_of_In & Ha)%existsb_exists. rewrite Forall_forall in H. destruct (H c Hc). congruence.
  - apply andb_false_intro2. unfold trim_end_of. rewrite reverse_app.
    destruct (trim_start_suffix is_colon (reverse d) (reverse (chars "0x"))) as [w' ->]; [by repeat constructor|done|].
    rewrite reverse_app, reverse_involutive. unfold starts_with. by rewrite bool_decide_true by (cbn; by eexists).
Qed.

Lemma name_word w : name_ok w → is_word w.
Proof.
  intros [Hc Hl _ _]. split; [by intros ->|]. eapply Forall_impl; [exact Hc|]. intros c [Hs _].
  unfold is_sep in Hs. by apply orb_false_iff in Hs as [? _].
Qed.

Lemma name_mnemonic w : name_ok w → is_mnemonic w = true.
Proof.
  intros [Hc Hl Hp _]. unfold is_mnemonic. rewrite Hl, trim_end_none, Hp; [done|].
  eapply Forall_impl; [exact Hc|]. intros c [_ Hne]. by apply Z.eqb_neq.
Qed.

Lemma split_name w s :
  is_word w → (∀ c, head s = Some c → is_whitespace c = true) → ∃ rest, split_words [] (w ++ s) = w :: rest.
Proof.
  intros [Hne Hw] Hs. rewrite split_words_word by done. cbn [app].
  destruct s as [|c s]; cbn; [|rewrite (Hs c eq_refl)]; unfold flush_word; rewrite bool_decide_false by done; by eexists.
Qed.

Lemma find_first l w rest : Forall (λ x, is_mnemonic x = false) l → is_mnemonic w = true →
  List.find is_mnemonic (l ++ w :: rest) = Some w.
Proof. induction 1 as [|x l Hx _ IH]; intros Hw; cbn; [by rewrite Hw|]. rewrite Hx. by apply IH. Qed.

Lemma line_mnemonic lead pre name operands trail :
  line_ok lead pre name operands trail → mnemonic (line lead pre name operands trail) = to_ascii_lowercase name.
Proof.
  intros [H1 H2 H3 H4 H5 H6]. unfold mnemonic, line, split_whitespace.
  rewrite split_spaces by done. rewrite split_pre.
  2:{ eapply Forall_impl; [exact H2|]. intros p (Ha & ? & ?). split; [by apply address_word|done]. }
  destruct (split_name name (concat ((λ p, p.1 ++ p.2) <$> operands) ++ trail)) as [rest ->]; [by apply name_word| |].
  { intros c Hc. destruct operands as [|[g o] operands]; cbn in Hc.
    - destruct H6 as [|d trail Hd _]; [done|]. cbn in Hc. by injection Hc as <-.
    - apply Forall_cons in H4 as [[[Hg _] _] _]. destruct g as [|d g]; [done|]. cbn in Hc. injection Hc as ->.
      by apply (H5 (c :: g, o) c). }
  rewrite find_first; [|apply Forall_fmap; eapply Forall_impl; [exact H2|]; intros p (Ha & _); by apply address_not_mnemonic|by apply name_mnemonic].
  cbn [default]. rewrite trim_start_none, trim_end_none; [done|..];
    (eapply Forall_impl; [exact (nk_chars _ H3)|]; intros c [Hs Hne]; unfold is_sep in Hs; apply orb_false_iff in Hs as [_ Hs];
     rewrite Hs; apply orb_false_iff; split; [by apply Z.eqb_neq|done]).
Qed.

(** *** The mask *)
Lemma strip_prefix_sep p a c b :
  c ∉ p → p ≠ [] → is_Some (Text.strip_prefix p (a ++ c :: b)) ↔ is_Some (Text.strip_prefix p a).
Proof.
  revert p. induction a as [|x a IH]; intros [|y p] Hc Hne; try done; cbn.
  - destruct (Z.eqb_spec y c) as [->|]; [set_solver|done].
  - destruct (y =? x); [|done]. destruct p as [|z p]; [by destruct a|]. apply IH; [set_solver|done].
Qed.

Lemma contains_sep p a c b :
  c ∉ p → p ≠ [] → str_contains p (a ++ c :: b) = str_contains p a || str_contains p b.
Proof.
  intros Hc Hne. induction a as [|x a IH].
  - cbn. destruct p as [|y p]; [done|]. cbn. destruct (Z.eqb_spec y c) as [->|]; [set_solver|done].
  - cbn [app str_contains]. pose proof (strip_prefix_sep p (x :: a) c b Hc Hne) as Hsp. cbn [app] in Hsp.
    destruct (Text.strip_prefix p (x :: a ++ c :: b)), (Text.strip_prefix p (x :: a)); [done| | |exact IH].
    + exfalso. by destruct (proj1 Hsp (mk_is_Some _ _ eq_refl)).
    + exfalso. by destruct (proj2 Hsp (mk_is_Some _ _ eq_refl)).
Qed.

Lemma contains_nil p : p ≠ [] → str_contains p [] = false.
Proof. by destruct p. Qed.

Lemma contains_gap p a g b :
  p ≠ [] → g ≠ [] → Forall (λ c, c ∉ p) g → str_contains p (a ++ g ++ b) = str_contains p a || str_contains p b.
Proof.
  intros Hne Hg Hp. destruct Hp as [|c g Hc Hp]; [done|]. cbn [app]. rewrite contains_sep by done. f_equal.
  clear Hg. induction Hp as [|d g Hd _ IH]; [done|]. change ((d :: g) ++ b) with ([] ++ d :: (g ++ b)).
  rewrite contains_sep, contains_nil by done. exact IH.
Qed.

Lemma contains_gap_l p g b : p ≠ [] → Forall (λ c, c ∉ p) g → str_contains p (g ++ b) = str_contains p b.
Proof.
  intros Hne Hp. destruct g as [|c g]; [done|]. change ((c :: g) ++ b) with ([] ++ (c :: g) ++ b).
  by rewrite contains_gap, contains_nil by done.
Qed.

Lemma contains_gap_r p a g : p ≠ [] → Forall (λ c, c ∉ p) g → str_contains p (a ++ g) = str_contains p a.
Proof.
  intros Hne Hp. destruct g as [|c g]; [by rewrite app_nil_r|]. rewrite <-(app_nil_r (c :: g)).
  by rewrite contains_gap, contains_nil, orb_false_r by done.
Qed.

Lemma lower_sep c : is_sep c = true → ascii_lower c = c ∧ c ∉ mask.
Proof.
  intros H. assert (Hc : c ∈ mask → is_sep c = false).
  { intros Hc. repeat (apply elem_of_cons in Hc as [->|Hc]; [done|]). by apply elem_of_nil in Hc. }
  split; [|intros Hm%Hc; congruence]. unfold ascii_lower. unfold is_sep, is_whitespace in H. case_match; [lia|done].
Qed.

Lemma lower_gap g : Forall (λ c, is_sep c = true) g → to_ascii_lowercase g = g ∧ Forall (λ c, c ∉ mask) g.
Proof.
  induction 1 as [|c g Hc _ [IH1 IH2]]; [done|]. destruct (lower_sep c Hc) as [H1 H2].
  split; [|by constructor]. unfold to_ascii_lowercase in *. cbn. by rewrite H1, IH1.
Qed.

Lemma spaces_sep g : spaces g → Forall (λ c, is_sep c = true) g.
Proof. intros H. eapply Forall_impl; [exact H|]. intros c Hc. unfold is_sep. by rewrite Hc. Qed.

Lemma contains_no_v s : 118 ∉ s → str_contains mask s = false.
Proof.
  induction s as [|c s IH]; intros H; [done|]. cbn [str_contains].
  assert (E : Text.strip_prefix mask (c :: s) = None).
  { change mask with [118; 48; 46; 116]. cbn [Text.strip_prefix]. destruct (Z.eqb_spec 118 c) as [<-|]; [set_solver|done]. }
  rewrite E. apply IH. set_solver.
Qed.

Lemma lower_v c : ascii_lower c = 118 → c = 118 ∨ c = 86.
Proof. unfold ascii_lower. case_match; lia. Qed.

Lemma address_unmasked w : address w → str_contains mask (to_ascii_lowercase w) = false.
Proof.
  intros [_ H]. apply contains_no_v. intros (c & Hc & Hin)%list_elem_of_fmap. symmetry in Hc. apply lower_v in Hc.
  destruct H as [H|(d & -> & H)].
  - rewrite Forall_forall in H. destruct (H c Hin) as [Ha _]. destruct Hc as [-> | ->]; done.
  - apply elem_of_app in Hin as [Hin|Hin].
    + change (chars "0x") with [48; 120] in Hin. repeat (apply elem_of_cons in Hin as [->|Hin]; [lia|]). by apply elem_of_nil in Hin.
    + rewrite Forall_forall in H. apply H, hex_not_space in Hin. lia.
Qed.

Definition masked_operand (p : list Z * list Z) : bool := bool_decide (to_ascii_lowercase p.2 = mask).

Lemma operands_masked a operands :
  Forall (λ p, gap p.1 ∧ operand_ok p.2) operands →
  str_contains mask (to_ascii_lowercase (a ++ concat ((λ p, p.1 ++ p.2) <$> operands))) =
  str_contains mask (to_ascii_lowercase a) || existsb masked_operand operands.
Proof.
  intros H. revert a. induction H as [|[g o] operands [[Hg Hs] Ho] _ IH]; intros a.
  { cbn. by rewrite app_nil_r, orb_false_r. }
  cbn [fmap list_fmap concat existsb fst snd]. cbn in Hg, Hs, Ho.
  destruct (lower_gap g Hs) as [Hl Hm]. rewrite app_assoc. rewrite IH. rewrite orb_assoc. f_equal. rewrite app_assoc.
  unfold to_ascii_lowercase in *. rewrite !fmap_app, Hl, <-app_assoc, contains_gap by done. f_equal.
  unfold masked_operand, operand_ok in *. cbn. case_bool_decide as E; [unfold to_ascii_lowercase in E; by rewrite E|].
  by destruct Ho as [Ho|Ho].
Qed.

Lemma line_masked lead pre name operands trail :
  line_ok lead pre name operands trail →
  is_masked (line lead pre name operands trail) = existsb masked_operand operands.
Proof.
  intros [H1 H2 H3 H4 _ H6]. unfold is_masked, line. change (chars "v0.t") with mask.
  apply spaces_sep, lower_gap in H1 as [L1 M1], H6 as [L6 M6].
  unfold to_ascii_lowercase in *. rewrite fmap_app, L1, contains_gap_l by done.
  rewrite !app_assoc, fmap_app, L6, contains_gap_r, <-app_assoc by done.
  assert (Hpre : ∀ s, str_contains mask (ascii_lower <$> concat ((λ p, p.1 ++ p.2) <$> pre) ++ s) = str_contains mask (ascii_lower <$> s)).
  { intros s. induction H2 as [|[w g] pre (Ha & Hg & Hs) _ IH]; [done|]. cbn [fmap list_fmap concat fst snd].
    cbn in Ha, Hg, Hs. apply spaces_sep, lower_gap in Hs as [L M]. unfold to_ascii_lowercase in L.
    rewrite <-!app_assoc, !(fmap_app _ w), (fmap_app _ g), L, contains_gap by done.
    pose proof (address_unmasked w Ha) as Hw. unfold to_ascii_lowercase in Hw. rewrite Hw. exact IH. }
  rewrite Hpre. pose proof (operands_masked name operands H4) as Ho. unfold to_ascii_lowercase in Ho. rewrite Ho.
  pose proof (nk_mask _ H3) as Hn. unfold to_ascii_lowercase in Hn. by rewrite Hn.
Qed.
End Line.

(** C23: the class of a line of RISC-V disassembly is read off the specification.  Whatever
    white space, addresses and capitals the line has, when the build generates a table from
    the instructions of the specification, the class is the one that all instructions with
    that mnemonic share, those whose operation name ends in [.m] if and only if one of the
    operands is the mask register [v0.t]; without such an instruction, or if they disagree,
    the line is unclassified.  The search of the table ends and never leaves it. *)
Theorem riscv_class_exact (items : list Generator.Instruction) (entries : list Generator.Entry)
    (ops : list RiscvOperationSpec) (lead name trail : list Z) (pre operands : list (list Z * list Z)) :
  Generator.collect_entries [] items = inr entries → Generator.generate items = inr ops →
  Line.line_ok lead pre name operands trail →
  classify_riscv ops (Line.line lead pre name operands trail) =
  Done (default Unclassified (Table.agreed (Table.variants entries (to_ascii_lowercase name) (existsb Line.masked_operand operands)))).
Proof.
  intros Hc Hg Hl. by rewrite (Table.lookup_table items ops entries _ Hc Hg), Line.line_mnemonic, Line.line_masked.
Qed.

(** Two unmasked variants that disagree, a masked one, and a scalar instruction. *)
Definition sample_items : list Generator.Instruction :=
  [Generator.mkInstruction (Some (chars "vadd.vv")) None None (Counted (mkRiscvCost VectorInteger 1 1));
   Generator.mkInstruction (Some (chars "vadd.vv")) None (Some (chars "vadd.vv.m")) (Counted (mkRiscvCost VectorInteger 1 1));
   Generator.mkInstruction None (Some (chars "add")) (Some (chars "add.a")) (Counted (mkRiscvCost ScalarInteger 1 1));
   Generator.mkInstruction (Some (chars "add")) None None NonCompute].
Definition sample_table : list RiscvOperationSpec :=
  [mkSpec (chars "add") false Unclassified; mkSpec (chars "vadd.vv") false (Counted (mkRiscvCost VectorInteger 1 1));
   mkSpec (chars "vadd.vv") true (Counted (mkRiscvCost VectorInteger 1 1))].
Definition sample_operands : list (list Z * list Z) :=
  [([32], chars "v1"); (chars ", ", chars "v2"); (chars ", ", chars "v3"); (chars ", ", chars "V0.t")].

Lemma riscv_class_exact_witness :
  chars "0x1f0: VADD.vv v1, v2, v3, V0.t" = Line.line [] [(chars "0x1f0:", [32])] (chars "VADD.vv") sample_operands [] ∧
  classify_riscv sample_table (Line.line [] [(chars "0x1f0:", [32])] (chars "VADD.vv") sample_operands []) =
    Done (Counted (mkRiscvCost VectorInteger 1 1)).
Proof.
  split; [reflexivity|]. rewrite (riscv_class_exact sample_items
    [Generator.mkEntry (chars "vadd.vv") false (chars "vadd.vv") (Counted (mkRiscvCost VectorInteger 1 1));
     Generator.mkEntry (chars "vadd.vv") true (chars "vadd.vv.m") (Counted (mkRiscvCost VectorInteger 1 1));
     Generator.mkEntry (chars "add") false (chars "add.a") (Counted (mkRiscvCost ScalarInteger 1 1));
     Generator.mkEntry (chars "add") false (chars "add") NonCompute]
    sample_table [] (chars "VADD.vv") [] [(chars "0x1f0:", [32])] sample_operands); [reflexivity|reflexivity|reflexivity|].
  split.
  - constructor.
  - apply Forall_singleton. split; [|split; [done|by repeat constructor]]. split; [done|right].
    exists (chars "1f0:"). split; [done|]. by repeat constructor.
  - split; [|reflexivity..]. apply Forall_forall. intros c Hc. repeat (apply elem_of_cons in Hc as [->|Hc]; [done|]). by apply elem_of_nil in Hc.
  - repeat (apply Forall_cons; split; [split; [split; [done|by repeat constructor]|first [by left|by right]]|]). constructor.
  - intros p c [= <-] [= <-]. reflexivity.
  - constructor.
Defined.

Module Costs.

(** The categories of a cost; at most one has operations, and at most [n]. *)
Definition categories (c : Cfg.BlockCost) : list Z :=
  [Cfg.c_scalar_int c; Cfg.c_scalar_float c; Cfg.c_scalar_double c; Cfg.c_vector_int c; Cfg.c_vector_float c; Cfg.c_vector_double c].
Definition used (c : Cfg.BlockCost) : nat := length (List.filter (λ x, negb (x =? 0)) (categories c)).
Definition single (n : Z) (c : Cfg.BlockCost) : Prop :=
  (∀ x, x ∈ categories c → 0 ≤ x ≤ n) ∧ (used c ≤ 1)%nat.
Definition singleb (n : Z) (c : Cfg.BlockCost) : bool :=
  forallb (λ x, (0 <=? x) && (x <=? n)) (categories c) && Nat.leb (used c) 1.

Lemma singleb_spec n c : singleb n c = true → single n c.
Proof.
  intros [H1 H2]%andb_true_iff. split; [|by apply Nat.leb_le]. intros x Hx. rewrite forallb_forall in H1. rewrite list_elem_of_In in Hx.
  apply H1, andb_true_iff in Hx as [?%Z.leb_le ?%Z.leb_le]. lia.
Qed.

Ltac single := apply singleb_spec; reflexivity.

Lemma starts_with_head p c s : starts_with (c :: p) s = true → head s = Some c.
Proof.
  unfold starts_with. rewrite bool_decide_eq_true. destruct s as [|d s]; [by intros []|]. cbn. destruct (Z.eqb_spec c d) as [->|]; [done|by intros []].
Qed.

Lemma any_prefix_head names c s : (∀ n, n ∈ names → head (chars n) = Some c) → any_prefix names s = true → head s = Some c.
Proof.
  intros Hn Hp. apply existsb_exists in Hp as (n & Hin & Hs). rewrite <-list_elem_of_In in Hin. specialize (Hn n Hin).
  destruct (chars n) as [|d p] eqn:E; [done|]. injection Hn as ->. by eapply starts_with_head.
Qed.

Lemma fused_head opcode : is_x86_fused opcode = true → head opcode = Some 102.
Proof. apply any_prefix_head. intros n Hn. repeat (apply elem_of_cons in Hn as [->|Hn]; [done|]). by apply elem_of_nil in Hn. Qed.

Lemma vector_bits_cases d : x86_vector_bits d = 512 ∨ x86_vector_bits d = 256 ∨ x86_vector_bits d = 128.
Proof. unfold x86_vector_bits. repeat case_match; auto. Qed.

Lemma element_bits_cases opcode b : x86_vector_integer_element_bits opcode = Some b →
  head opcode = Some 112 ∧ (b = 8 ∨ b = 16 ∨ b = 32 ∨ b = 64).
Proof.
  unfold x86_vector_integer_element_bits. destruct (any_prefix _ opcode) eqn:E; [|done]. cbn [negb]. intros H. split.
  - revert E. apply any_prefix_head. intros n Hn. repeat (apply elem_of_cons in Hn as [->|Hn]; [done|]). by apply elem_of_nil in Hn.
  - destruct (last opcode) as [c|]; [|done]. cbn in H. repeat case_match; simplify_eq; auto.
Qed.

Lemma x86_float_single opcode k bits : k = 1 ∨ k = 2 → bits = 512 ∨ bits = 256 ∨ bits = 128 →
  single 64 (if ends_with (chars "ss") opcode then cost_of 0 k 0 0 0 0
    else if ends_with (chars "sd") opcode then cost_of 0 0 k 0 0 0
    else if ends_with (chars "ps") opcode then cost_of 0 0 0 0 (k * bits / 32) 0
    else if ends_with (chars "pd") opcode then cost_of 0 0 0 0 0 (k * bits / 64)
    else if starts_with (chars "f") opcode then cost_of 0 0 k 0 0 0 else no_cost).
Proof.
  intros Hk Hb. destruct (ends_with (chars "ss") opcode); [destruct Hk as [-> | ->]; single|].
  destruct (ends_with (chars "sd") opcode); [destruct Hk as [-> | ->]; single|].
  destruct (ends_with (chars "ps") opcode); [destruct Hk as [-> | ->], Hb as [->|[->| ->]]; single|].
  destruct (ends_with (chars "pd") opcode); [destruct Hk as [-> | ->], Hb as [->|[->| ->]]; single|].
  destruct (starts_with (chars "f") opcode); [destruct Hk as [-> | ->]; single|single].
Qed.

Lemma x86_single m d : single 64 (classify_x86 m d).
Proof.
  unfold classify_x86. cbv zeta. set (opcode := default m _). pose proof (vector_bits_cases d) as Hb.
  destruct (is_x86_float_arithmetic opcode).
  - apply x86_float_single; [|done]. destruct (is_x86_fused opcode); auto.
  - destruct (x86_vector_integer_element_bits opcode) as [b|] eqn:Ee.
    + apply element_bits_cases in Ee as [Hp Hbits]. destruct (is_x86_fused opcode) eqn:Ef; [apply fused_head in Ef; congruence|].
      destruct Hb as [->|[->| ->]], Hbits as [->|[->|[->| ->]]]; single.
    + destruct (is_x86_scalar_integer opcode); [single|single].
Qed.

Lemma single_vector x : 0 ≤ x ≤ 64 →
  single 64 (cost_of 0 0 0 x 0 0) ∧ single 64 (cost_of 0 0 0 0 x 0) ∧ single 64 (cost_of 0 0 0 0 0 x).
Proof.
  intros Hx. unfold single, used, categories, cost_of. cbn. split_and!; try (intros y Hy; set_solver by lia).
  all: destruct (x =? 0); cbn; lia.
Qed.

Lemma parse_digits_nonneg radix acc s v : 0 ≤ radix → 0 ≤ acc → parse_digits radix acc s = Some v → 0 ≤ v.
Proof.
  intros Hr. revert acc. induction s as [|c s IH]; intros acc Ha; cbn [parse_digits]; [by intros [= <-]|].
  destruct (to_digit radix c) as [x|] eqn:Ed; [|done]. cbn [mbind option_bind]. unfold checked_mul. destruct (acc * radix <=? _); [|done].
  cbn [mbind option_bind]. unfold checked_add. destruct (acc * radix + x <=? _); [|done]. cbn [mbind option_bind]. apply IH.
  assert (0 ≤ x); [|nia]. unfold to_digit in Ed. repeat case_match; simplify_eq; try lia.
  all: repeat match goal with H : (_ && _) = true |- _ => apply andb_true_iff in H as [?%Z.leb_le ?%Z.leb_le] end; lia.
Qed.

Lemma from_str_radix_nonneg radix s v : 0 ≤ radix → from_str_radix_u32 radix s = Some v → 0 ≤ v.
Proof.
  intros Hr. unfold from_str_radix_u32. destruct (from_str_radix radix s) as [x|] eqn:E; [|done]. cbn. destruct (x <=? u32_max); [|done].
  intros [= <-]. unfold from_str_radix in E. repeat case_match; simplify_eq; eapply parse_digits_nonneg in E; (done || lia).
Qed.

Lemma arrangement_bound d e b : aarch64_arrangement d = Some (e, b) → 0 ≤ e ≤ 16.
Proof.
  unfold aarch64_arrangement. cbv zeta. destruct (List.find _ arrangements) as [[[n x] y]|] eqn:Ef.
  - intros [= <- <-]. apply List.find_some in Ef as [Hin _]. rewrite <-list_elem_of_In in Hin.
    repeat (apply elem_of_cons in Hin as [[= -> -> ->]|Hin]; [lia|]). by apply elem_of_nil in Hin.
  - destruct (str_contains _ _); [|done]. destruct (last _) as [v|]; [|done]. cbn [mbind option_bind].
    destruct (from_str_radix_u32 16 v) as [size|] eqn:Es; [|done]. cbn [mbind option_bind].
    destruct (Z.leb_spec size 3); [|done]. intros [= <- _]. apply from_str_radix_nonneg in Es; [|lia].
    assert (Hs : size = 0 ∨ size = 1 ∨ size = 2 ∨ size = 3) by lia.
    destruct Hs as [->|[->|[->| ->]]]; vm_compute; split; discriminate.
Qed.

Lemma aarch64_single m d : single 64 (classify_aarch64 m d).
Proof.
  unfold classify_aarch64. cbv zeta. set (k := if one_of aarch64_fused m then 2 else 1).
  assert (Hk : k = 1 ∨ k = 2) by (unfold k; destruct (one_of aarch64_fused m); auto). clearbody k.
  destruct (aarch64_arrangement d) as [[e b]|] eqn:Ea; [apply arrangement_bound in Ea|].
  - destruct (single_vector (k * e) ltac:(lia)) as (H1 & H2 & H3).
    destruct (one_of aarch64_float m); [by destruct (b =? 64)|]. destruct (one_of aarch64_int m); [done|single].
  - destruct (one_of aarch64_float m); [destruct (_ =? 64), Hk as [-> | ->]; single|]. destruct (one_of aarch64_int m); single.
Qed.
End Costs.

(** The cost that the C interface reports, as a block cost. *)
Definition reported (x : RcCost) : Cfg.BlockCost :=
  cost_of (x_scalar_int x) (x_scalar_float x) (x_scalar_double x) (x_vector_int x) (x_vector_float x) (x_vector_double x).

(** Classifying an x86 or Arm instruction always ends, and whatever the text, reports
    operations in at most one category, at most 64 of them; so the cost is one that the
    control-flow graph can account without overflow. *)
Theorem rc_classify_single (ops : list RiscvOperationSpec) (target : Z) (text : option (list Z)) :
  target_from target ≠ Some Riscv →
  ∃ c, rc_classify ops target text = Done c ∧ (rc_kind c = RC_KIND_NONE ∨ rc_kind c = RC_KIND_STATIC) ∧
    Costs.single 64 (reported (rc_cost c)) ∧ Cfg.cost_ok (reported (rc_cost c)).
Proof.
  intros Ht. assert (Hok : ∀ x, Costs.single 64 (reported x) → Cfg.cost_ok (reported x)).
  { intros x [H _]. unfold Costs.categories, reported, cost_of in H. cbn in H.
    split; cbn; unfold in_u64; rewrite ?u64_max_val; [lia|lia|..]; match goal with |- 0 ≤ ?y ≤ _ => specialize (H y ltac:(set_solver)) end; lia. }
  assert (Hz : Costs.single 64 (reported (mkRcCost 0 0 0 0 0 0))) by (apply Costs.singleb_spec; reflexivity).
  assert (Hfill : ∀ k, Costs.single 64 k → Costs.single 64 (reported (rc_cost (fill_static k)))) by (intros [] [H1 H2]; by split).
  unfold rc_classify. destruct text as [text|]; [|eexists; split; [done|]; auto].
  destruct (target_from target) as [[]|]; [done| | |eexists; split; [done|]; auto].
  - eexists. split; [done|]. split; [by right|]. pose proof (Hfill _ (Costs.x86_single (mnemonic text) text)). auto.
  - eexists. split; [done|]. split; [by right|]. pose proof (Hfill _ (Costs.aarch64_single (mnemonic text) text)). auto.
Qed.

Lemma rc_classify_single_witness :
  ∃ c, rc_classify [] 0 (Some (chars "vfmadd213ps zmm0, zmm1, zmm2")) = Done c ∧ x_vector_float (rc_cost c) = 32 ∧
    Costs.single 64 (reported (rc_cost c)).
Proof.
  destruct (rc_classify_single [] 0 (Some (chars "vfmadd213ps zmm0, zmm1, zmm2"))) as (c & E & _ & H & _); [discriminate|].
  exists c. split; [exact E|]. split; [vm_compute in E; injection E as <-; reflexivity|exact H].
Defined.
