(* ===== verification/EventTimer.v ===== *)
(** * Counter measurements

    [libprof/src/event_timer.rs]: scoped measurements of a group of counters.
    - [Module Arithmetic]: counter values and times from the kernel's metadata page;
    - [Module Metadata]: the lock-free read of the page as steps of a reader beside the
      kernel, which may change the page at any point;
    - [Module Measure]: snapshots, scaled deltas and statistics.

    A counter is an element of a type with decidable equality: the measurements only compare
    counters.  The registers (time stamp, counters) and the memory of other machines are
    read as they are; the loads of a reader happen in program order. *)

From S2P Require Import Prelude Words Floats.
From stdpp Require Import sorting.
Open Scope Z_scope.

Module Arithmetic.

(** [((value << (64 - width)) as i64) >> (64 - width)]. *)
Definition sign_extend_counter (value width : Z) : Z :=
  if (width =? 0) || (64 <=? width) then as_i64 value
  else Z.shiftr (as_i64 (wrap64 (Z.shiftl value (64 - width)))) (64 - width).

(** [offset.wrapping_add(...) as u64]; wrapping and the cast agree modulo 2^64. *)
Definition metadata_counter_value (offset raw width : Z) : Z := wrap64 (offset + sign_extend_counter raw width).

Definition perf_time_delta (cycles shift mult offset : Z) : Z :=
  let quotient := if 64 <=? shift then 0 else Z.shiftr cycles shift in
  let mask := if shift =? 0 then 0 else if 64 <=? shift then u64_max else Z.shiftl 1 shift - 1 in
  let remainder := Z.land cycles mask in
  let fractional := if 64 <=? shift then 0 else Z.shiftr (wrapping_mul remainder mult) shift in
  wrapping_add (wrapping_add offset (wrapping_mul quotient mult)) fractional.

Definition normalize_short_time (cycles time_cycles time_mask : Z) : Z :=
  wrapping_add time_cycles (Z.land (wrapping_sub cycles time_cycles) time_mask).

Inductive ArmCounterKind := Event (index : Z) | Cycles.
Definition arm_counter_kind (perf_index : Z) : option ArmCounterKind :=
  if perf_index <? 1 then None
  else let index := perf_index - 1 in
       if index <=? 30 then Some (Event index) else if index =? 31 then Some Cycles else None.
End Arithmetic.

Module Metadata.
Import Arithmetic.

(** The metadata page; the lock is a 32-bit sequence number. *)
Record Page := mkPage {
  lock : Z;
  index : Z;
  offset : Z;
  pmc_width : Z;
  time_enabled : Z;
  time_running : Z;
  cap_user_time : bool;
  cap_user_time_short : bool;
  time_shift : Z;
  time_mult : Z;
  time_offset : Z;
  time_cycles : Z;
  time_mask : Z
}.

Definition with_lock (l : Z) (p : Page) : Page :=
  mkPage l (index p) (offset p) (pmc_width p) (time_enabled p) (time_running p) (cap_user_time p) (cap_user_time_short p)
    (time_shift p) (time_mult p) (time_offset p) (time_cycles p) (time_mask p).

Record MetadataReading := mkReading { value : Z; r_enabled : Z; r_running : Z }.

(** Where the reader is: before the load named. *)
Inductive Pc :=
| Sequence | Index | Offset | Width | Enabled | Running | Capabilities | Shift | Mult | TimeOffset | TimeCounter
| ShortCycles | ShortMask | Counter | Check | Returned.
#[export] Instance Pc_eq_dec : EqDecision Pc.
Proof. solve_decision. Defined.

(** The locals of the loop body: what has been loaded. *)
Record Reader := mkReader { pc : Pc; sequence : Z; loaded : Page; cycles : Z; pmc : Z }.

(** The two times from what has been loaded. *)
Definition uses_time (p : Page) : bool := cap_user_time p && negb (time_enabled p =? time_running p).
Definition time_delta (p : Page) (cycles : Z) : Z :=
  let cycles := if cap_user_time_short p then normalize_short_time cycles (time_cycles p) (time_mask p) else cycles in
  perf_time_delta cycles (time_shift p) (time_mult p) (time_offset p).
Definition times (p : Page) (cycles : Z) : Z * Z :=
  if uses_time p then
    let delta := time_delta p cycles in
    (wrapping_add (time_enabled p) delta, if index p =? 0 then time_running p else wrapping_add (time_running p) delta)
  else (time_enabled p, time_running p).
Definition counter_of (p : Page) (pmc : Z) : Z :=
  if index p =? 0 then wrap64 (offset p) else metadata_counter_value (offset p) pmc (pmc_width p).

Definition reading_of (p : Page) (cycles pmc : Z) : MetadataReading :=
  mkReading (counter_of p pmc) (times p cycles).1 (times p cycles).2.

(** One load of the reader from the page; [hw] is what a register read gives. *)
Definition after_times (p : Page) : Pc := if index p =? 0 then Check else Counter.

Definition load (p : Page) (hw : Z) (r : Reader) : Reader :=
  let l := loaded r in
  let next pc l := mkReader pc (sequence r) l (cycles r) (pmc r) in
  match pc r with
  | Sequence => if Z.odd (lock p) then r else mkReader Index (lock p) l (cycles r) (pmc r)
  | Index => next Offset (mkPage (lock l) (index p) (offset l) (pmc_width l) (time_enabled l) (time_running l) (cap_user_time l) (cap_user_time_short l) (time_shift l) (time_mult l) (time_offset l) (time_cycles l) (time_mask l))
  | Offset => next Width (mkPage (lock l) (index l) (offset p) (pmc_width l) (time_enabled l) (time_running l) (cap_user_time l) (cap_user_time_short l) (time_shift l) (time_mult l) (time_offset l) (time_cycles l) (time_mask l))
  | Width => next Enabled (mkPage (lock l) (index l) (offset l) (pmc_width p) (time_enabled l) (time_running l) (cap_user_time l) (cap_user_time_short l) (time_shift l) (time_mult l) (time_offset l) (time_cycles l) (time_mask l))
  | Enabled => next Running (mkPage (lock l) (index l) (offset l) (pmc_width l) (time_enabled p) (time_running l) (cap_user_time l) (cap_user_time_short l) (time_shift l) (time_mult l) (time_offset l) (time_cycles l) (time_mask l))
  | Running => next Capabilities (mkPage (lock l) (index l) (offset l) (pmc_width l) (time_enabled l) (time_running p) (cap_user_time l) (cap_user_time_short l) (time_shift l) (time_mult l) (time_offset l) (time_cycles l) (time_mask l))
  | Capabilities =>
      let l := mkPage (lock l) (index l) (offset l) (pmc_width l) (time_enabled l) (time_running l) (cap_user_time p) (cap_user_time_short p) (time_shift l) (time_mult l) (time_offset l) (time_cycles l) (time_mask l) in
      next (if uses_time l then Shift else after_times l) l
  | Shift => next Mult (mkPage (lock l) (index l) (offset l) (pmc_width l) (time_enabled l) (time_running l) (cap_user_time l) (cap_user_time_short l) (time_shift p) (time_mult l) (time_offset l) (time_cycles l) (time_mask l))
  | Mult => next TimeOffset (mkPage (lock l) (index l) (offset l) (pmc_width l) (time_enabled l) (time_running l) (cap_user_time l) (cap_user_time_short l) (time_shift l) (time_mult p) (time_offset l) (time_cycles l) (time_mask l))
  | TimeOffset => next TimeCounter (mkPage (lock l) (index l) (offset l) (pmc_width l) (time_enabled l) (time_running l) (cap_user_time l) (cap_user_time_short l) (time_shift l) (time_mult l) (time_offset p) (time_cycles l) (time_mask l))
  | TimeCounter => mkReader (if cap_user_time_short l then ShortCycles else after_times l) (sequence r) l hw (pmc r)
  | ShortCycles => next ShortMask (mkPage (lock l) (index l) (offset l) (pmc_width l) (time_enabled l) (time_running l) (cap_user_time l) (cap_user_time_short l) (time_shift l) (time_mult l) (time_offset l) (time_cycles p) (time_mask l))
  | ShortMask => next (after_times l) (mkPage (lock l) (index l) (offset l) (pmc_width l) (time_enabled l) (time_running l) (cap_user_time l) (cap_user_time_short l) (time_shift l) (time_mult l) (time_offset l) (time_cycles l) (time_mask p))
  | Counter => mkReader Check (sequence r) l (cycles r) hw
  | Check => if lock p =? sequence r then next Returned l else next Sequence l
  | Returned => r
  end.

(** What [read_metadata] returns. *)
Definition result (r : Reader) : MetadataReading := reading_of (loaded r) (cycles r) (pmc r).

(** ** The reader beside the kernel *)

(** The page, the reader, and for the proof the page as it was when the reader took its
    sequence number, with the number of changes of the lock since. *)
Record State := mkState { page : Page; reader : Reader; taken : Page; bumps : Z }.

(** The kernel makes the lock odd, changes the page at will, and makes the lock even. *)
Inductive step : State → State → Prop :=
| step_lock s : step s (mkState (with_lock ((lock (page s) + 1) mod 2 ^ 32) (page s)) (reader s) (taken s) (bumps s + 1))
| step_write s p : Z.odd (lock (page s)) = true → lock p = lock (page s) →
    step s (mkState p (reader s) (taken s) (bumps s))
| step_read s hw :
    let restart := match pc (reader s) with Sequence => true | _ => false end in
    step s (mkState (page s) (load (page s) hw (reader s)) (if restart then page s else taken s) (if restart then 0 else bumps s)).
End Metadata.

Module Measure.
Import Metadata.

Record Snapshot := mkSnapshot { values : list Z; s_enabled : Z; s_running : Z }.

(** [snapshot_user]: one reading per event, the group's times from the first. *)
Definition snapshot_user (readings : list MetadataReading) : Snapshot :=
  let first := match readings with [] => (0, 0) | r :: _ => (r_enabled r, r_running r) end in
  mkSnapshot (value <$> readings) first.1 first.2.

Inductive Error := InvalidConfiguration | PerfReadFailed | ShortRead | WrongCount.

(** An answer of [read(2)] on the group leader: an error, or the words it stored and how
    many bytes. *)
Inductive ReadAnswer := Interrupted | ReadFailed | ReadBytes (bytes : Z) (data : list Z).

(** The loop over interrupted reads; [None] while every answer so far was an interruption. *)
Fixpoint first_answer (answers : list ReadAnswer) : option ReadAnswer :=
  match answers with [] => None | Interrupted :: rest => first_answer rest | a :: _ => Some a end.

(** [data] is the buffer of [3 + 2 * events] words, zero where the kernel stored nothing. *)
Definition word (data : list Z) (i : nat) : Z := default 0 (data !! i).

Definition snapshot_read (events : nat) (answers : list ReadAnswer) : option (Error + Snapshot) :=
  let bytes := Z.of_nat (3 + events * 2) * 8 in
  a ← first_answer answers;
  Some match a with
       | ReadBytes read data =>
           if negb (read =? bytes) then inl ShortRead
           else if negb (word data 0 =? Z.of_nat events) then inl WrongCount
           else inr (mkSnapshot ((λ i, word data (3 + i * 2)%nat) <$> seq 0 events) (word data 1) (word data 2))
       | _ => inl PerfReadFailed
       end.

Definition multiplex_scaling (enabled running : Z) : f64 :=
  if 0 <? running then f64_div (u64_as_f64 enabled) (u64_as_f64 running) else f64_one.

Section measure.
Context {Counter : Type} `{EqDecision Counter}.

Record Measurement := mkMeasurement { m_counter : Counter; raw : Z; m_value : Z; scaling : f64 }.
Record Measurements := mkMeasurements { entries : list Measurement; wall_ns : Z }.

(** [wall_elapsed] is in nanoseconds. *)
Definition finish_measurement (counters : list Counter) (start end_ : Snapshot) (wall_elapsed : Z) : Measurements :=
  let enabled := saturating_sub (s_enabled end_) (s_enabled start) in
  let running := saturating_sub (s_running end_) (s_running start) in
  let wall := if 0 <? enabled then enabled else Z.min wall_elapsed u64_max in
  let scaling := multiplex_scaling enabled running in
  mkMeasurements
    ((λ '(counter, (e, s)),
        let raw := wrapping_sub e s in
        mkMeasurement counter raw (f64_as_u64 (f64_round (f64_mul (u64_as_f64 raw) scaling))) scaling)
       <$> zip counters (zip (values end_) (values start)))
    wall.

Definition get (counter : Counter) (m : Measurements) : option Measurement :=
  List.find (λ e, bool_decide (m_counter e = counter)) (entries m).

(** [f64::NAN] is [None]. *)
Definition ipc (Instructions Cycles : Counter) (m : Measurements) : option f64 :=
  instructions ← get Instructions m;
  cycles ← get Cycles m;
  if m_value cycles =? 0 then None
  else Some (f64_div (u64_as_f64 (m_value instructions)) (u64_as_f64 (m_value cycles))).

(** [EventTimer::open]: what it asks of the counters. *)
Fixpoint repeated (earlier counters : list Counter) : bool :=
  match counters with
  | [] => false
  | c :: rest => existsb (λ e, bool_decide (e = c)) earlier || repeated (earlier ++ [c]) rest
  end.
Definition open_check (counters : list Counter) : Error + unit :=
  match counters with
  | [] => inl InvalidConfiguration
  | _ => if repeated [] counters then inl InvalidConfiguration else inr tt
  end.

(** [sorted[rank - 1]]; an index out of range panics. *)
Definition percentile (sorted : list Z) (percentile : Z) : option Z :=
  let rank := (percentile * Z.of_nat (length sorted) + 99) / 100 in
  sorted !! Z.to_nat (saturating_sub rank 1).

Record CounterStatistics := mkStatistics { c_counter : Counter; min : Z; mean : f64; p50 : Z; p99 : Z }.

Definition statistics (counter : Counter) (samples : list Z) : option CounterStatistics :=
  let samples := merge_sort Z.le samples in
  let sum := foldl Z.add 0 samples in
  min ← samples !! 0%nat;
  p50 ← percentile samples 50;
  p99 ← percentile samples 99;
  Some (mkStatistics counter min (f64_div (u64_as_f64 sum) (u64_as_f64 (Z.of_nat (length samples)))) p50 p99).

(** The loop of [measure_n]: [span i] is what the [i]th start, work and stop give. *)
Definition push_values (slots : list (list Z)) (m : Measurements) : list (list Z) :=
  let measured := m_value <$> entries m in
  zip_with (λ slot v, slot ++ [v]) slots measured ++ drop (length measured) slots.

Fixpoint collect (spans : list (Error + Measurements)) (slots : list (list Z)) : Error + list (list Z) :=
  match spans with
  | [] => inr slots
  | inl e :: _ => inl e
  | inr m :: rest => collect rest (push_values slots m)
  end.

(** The outer option is a panic. *)
Definition measure_n (counters : list Counter) (iterations : nat) (span : nat → Error + Measurements)
    : option (Error + list CounterStatistics) :=
  if (iterations =? 0)%nat then Some (inl InvalidConfiguration)
  else match collect (span <$> seq 0 iterations) (replicate (length counters) []) with
       | inl e => Some (inl e)
       | inr slots => l ← mapM (λ '(c, samples), statistics c samples) (zip counters slots); Some (inr l)
       end.
End measure.
End Measure.
