(* ===== verification/EventTimerSpec.v ===== *)
(** * Counter measurements: what they promise

    The lock-free reader of [EventTimer.v] returns values of one instant at which the kernel
    was not writing, whatever the kernel does meanwhile, and returns when the kernel leaves it
    alone for one pass; counts and times are exact within the widths the kernel documents;
    the statistics are the nearest-rank ones. *)

From S2P Require Import Prelude Words Floats EventTimer.
From stdpp Require Import sorting.
Open Scope Z_scope.

(** ** The reader beside the kernel *)
Module Reading.
Import Arithmetic Metadata.

Definition rank (p : Pc) : nat :=
  match p with
  | Sequence => 0 | Index => 1 | Offset => 2 | Width => 3 | Enabled => 4 | Running => 5 | Capabilities => 6
  | Shift => 7 | Mult => 8 | TimeOffset => 9 | TimeCounter => 10 | ShortCycles => 11 | ShortMask => 12
  | Counter => 13 | Check => 14 | Returned => 15
  end.

(** What has been loaded before a program point is what the page [t] had. *)
Record agrees (n : nat) (l t : Page) : Prop := mkAgrees {
  a_index : (1 < n)%nat → index l = index t;
  a_offset : (2 < n)%nat → offset l = offset t;
  a_width : (3 < n)%nat → pmc_width l = pmc_width t;
  a_enabled : (4 < n)%nat → time_enabled l = time_enabled t;
  a_running : (5 < n)%nat → time_running l = time_running t;
  a_time : (6 < n)%nat → cap_user_time l = cap_user_time t;
  a_short : (6 < n)%nat → cap_user_time_short l = cap_user_time_short t;
  a_shift : (7 < n)%nat → uses_time t = true → time_shift l = time_shift t;
  a_mult : (8 < n)%nat → uses_time t = true → time_mult l = time_mult t;
  a_toffset : (9 < n)%nat → uses_time t = true → time_offset l = time_offset t;
  a_cycles : (11 < n)%nat → uses_time t = true → cap_user_time_short t = true → time_cycles l = time_cycles t;
  a_mask : (12 < n)%nat → uses_time t = true → cap_user_time_short t = true → time_mask l = time_mask t
}.

Lemma agrees_uses n l t : (6 < n)%nat → agrees n l t → uses_time l = uses_time t.
Proof.
  intros Hn H. unfold uses_time.
  rewrite (a_time _ _ _ H), (a_enabled _ _ _ H), (a_running _ _ _ H) by lia. done.
Qed.

Lemma agrees_reading n l t c v : (12 < n)%nat → agrees n l t → reading_of l c v = reading_of t c v.
Proof.
  intros Hn H. pose proof (agrees_uses n l t ltac:(lia) H) as Hu.
  assert (Ht : times l c = times t c).
  { unfold times. rewrite Hu. destruct (uses_time t) eqn:E.
    - unfold time_delta. rewrite (a_enabled _ _ _ H), (a_running _ _ _ H), (a_index _ _ _ H), (a_short _ _ _ H) by lia.
      rewrite (a_shift _ _ _ H), (a_mult _ _ _ H), (a_toffset _ _ _ H) by (lia || done).
      destruct (cap_user_time_short t) eqn:S; [|done].
      rewrite (a_cycles _ _ _ H), (a_mask _ _ _ H) by (lia || done). done.
    - rewrite (a_enabled _ _ _ H), (a_running _ _ _ H) by lia. done. }
  unfold reading_of, counter_of. rewrite Ht, (a_index _ _ _ H), (a_offset _ _ _ H), (a_width _ _ _ H) by lia. done.
Qed.

(** A load from the page that was taken keeps the agreement. *)
Lemma load_agrees t hw r :
  pc r ≠ Sequence → pc r ≠ Check → agrees (rank (pc r)) (loaded r) t →
  agrees (rank (pc (load t hw r))) (loaded (load t hw r)) t.
Proof.
  intros Hs Hc H. destruct r as [p sq l cy pm]. cbn [pc loaded] in *. unfold load. cbn [pc loaded sequence cycles pmc].
  destruct p; try done; cbn [rank pc loaded] in *; try (destruct H; split; cbn; intros; first [done | lia | eauto with lia]; fail).
  - set (l' := mkPage _ _ _ _ _ _ _ _ _ _ _ _ _).
    assert (H' : agrees 7 l' t) by (destruct H; subst l'; split; cbn; intros; first [done | lia | eauto with lia]).
    pose proof (agrees_uses 7 l' t ltac:(lia) H') as Hu.
    destruct (uses_time l') eqn:E; [exact H'|].
    assert (Hf : ∀ P : Prop, uses_time t = true → P) by (intros P; rewrite <- Hu; done).
    unfold after_times. destruct (index l' =? 0); destruct H'; split; intros; first [by apply Hf | eauto with lia].
  - destruct (cap_user_time_short l) eqn:E; [destruct H; split; cbn; intros; eauto with lia|].
    assert (Hf : ∀ P : Prop, cap_user_time_short t = true → P).
    { intros P. rewrite <- (a_short _ _ _ H), E by lia. done. }
    unfold after_times. destruct (index l =? 0); destruct H; split; intros; first [by apply Hf | eauto with lia].
Qed.

(** Past the last load nothing more is asked. *)
Lemma agrees_end l t : agrees 14 l t → agrees 15 l t.
Proof. intros []. split; intros; eauto with lia. Qed.

Lemma load_sequence p hw r : pc r ≠ Sequence → sequence (load p hw r) = sequence r.
Proof. intros H. unfold load. destruct (pc r); try done. by destruct (lock p =? sequence r). Qed.

Lemma load_started p hw r : pc r ≠ Sequence → pc r ≠ Check → pc (load p hw r) ≠ Sequence.
Proof.
  intros Hs Hc. unfold load, after_times.
  destruct (pc r) eqn:E; try done; cbn; try (rewrite E; done); repeat case_match; done.
Qed.

Record invariant (s : State) : Prop := mkInv {
  i_lock : 0 ≤ lock (page s) < 2 ^ 32;
  i_bumps : pc (reader s) ≠ Sequence → 0 ≤ bumps s;
  i_seq : pc (reader s) ≠ Sequence →
    sequence (reader s) = lock (taken s) ∧ Z.odd (lock (taken s)) = false ∧ 0 ≤ lock (taken s) < 2 ^ 32 ∧
    lock (page s) = (lock (taken s) + bumps s) mod 2 ^ 32;
  i_same : pc (reader s) ≠ Sequence → bumps s = 0 → page s = taken s;
  i_agrees : pc (reader s) ≠ Sequence → bumps s = 0 → agrees (rank (pc (reader s))) (loaded (reader s)) (taken s);
  i_returned : pc (reader s) = Returned → bumps s < 2 ^ 32 → agrees 15 (loaded (reader s)) (taken s)
}.

(** A change of the lock by the kernel. *)
Lemma invariant_lock s :
  invariant s → invariant (mkState (with_lock ((lock (page s) + 1) mod 2 ^ 32) (page s)) (reader s) (taken s) (bumps s + 1)).
Proof.
  intros [Hl Hb Hq Hs Ha Hr]. split; cbn [page reader taken bumps lock with_lock].
  - apply Z.mod_pos_bound. lia.
  - intros H. pose proof (Hb H). lia.
  - intros H. destruct (Hq H) as (? & ? & ? & E). do 3 (split; [done|]).
    rewrite E, Zplus_mod_idemp_l. f_equal. lia.
  - intros H H0. pose proof (Hb H). lia.
  - intros H H0. pose proof (Hb H). lia.
  - intros H H0. apply Hr; [done|lia].
Qed.

(** A write of the kernel while the lock is odd. *)
Lemma invariant_write s p :
  Z.odd (lock (page s)) = true → lock p = lock (page s) → invariant s → invariant (mkState p (reader s) (taken s) (bumps s)).
Proof.
  intros Ho Hp [Hl Hb Hq Hs Ha Hr].
  assert (Hn : pc (reader s) ≠ Sequence → bumps s ≠ 0).
  { intros H E. destruct (Hq H) as (_ & He & _). rewrite <- (Hs H E), Ho in He. done. }
  split; cbn [page reader taken bumps]; rewrite ?Hp; try done.
  intros H E. by destruct (Hn H).
Qed.

(** A load of the reader. *)
Lemma invariant_load s hw :
  pc (reader s) ≠ Sequence → invariant s → invariant (mkState (page s) (load (page s) hw (reader s)) (taken s) (bumps s)).
Proof.
  intros Hn [Hl Hb Hq Hs Ha Hr]. destruct (Hq Hn) as (Hsq & Hev & Hrg & Hlk). specialize (Hb Hn).
  destruct (decide (pc (reader s) = Check)) as [Ec|Ec].
  - unfold load. rewrite Ec. destruct (lock (page s) =? sequence (reader s)) eqn:E.
    2:{ split; cbn [page reader taken bumps pc]; try done. }
    apply Z.eqb_eq in E. rewrite Hsq, Hlk in E.
    split; cbn [page reader taken bumps pc loaded sequence]; try done; try (intros _; done).
    + intros _. by apply Hs.
    + intros _ H0. rewrite Ec in Ha. by apply agrees_end, Ha.
    + intros _ Hlt. assert (H0 : bumps s = 0).
      { destruct (Z.eq_dec (bumps s) 0) as [|Hne]; [done|].
        destruct (Z_lt_ge_dec (lock (taken s) + bumps s) (2 ^ 32)).
        - rewrite Z.mod_small in E by lia. lia.
        - rewrite <- (Z_mod_plus_full _ (-1)), Z.mod_small in E by lia. lia. }
      rewrite Ec in Ha. by apply agrees_end, Ha.
  - split; cbn [page reader taken bumps]; try done.
    + intros _. by rewrite load_sequence.
    + intros _. by apply Hs.
    + intros _ H0. rewrite (Hs Hn H0). apply load_agrees; [done|done|by apply Ha].
    + intros HR Hlt. destruct (decide (pc (reader s) = Returned)) as [ER|ER].
      * unfold load in *. rewrite ER in *. by apply Hr.
      * exfalso. revert HR. unfold load, after_times. destruct (pc (reader s)); try done; cbn; repeat case_match; done.
Qed.

(** Taking the sequence number. *)
Lemma invariant_take s hw :
  pc (reader s) = Sequence → invariant s → invariant (mkState (page s) (load (page s) hw (reader s)) (page s) 0).
Proof.
  intros Hn [Hl _ _ _ _ _]. unfold load. rewrite Hn.
  destruct (Z.odd (lock (page s))) eqn:E; split; cbn [page reader taken bumps pc loaded sequence rank];
    rewrite ?Hn; try done; try lia.
  - intros _. do 3 (split; [done|]). rewrite Z.add_0_r, Z.mod_small by lia. done.
  - intros _ _. split; intros; lia.
Qed.

Lemma step_invariant s s' : step s s' → invariant s → invariant s'.
Proof.
  intros [s0|s0 p Ho Hp|s0 hw restart] Hi.
  - by apply invariant_lock.
  - by apply invariant_write.
  - subst restart. destruct (pc (reader s0)) eqn:E; first [by apply invariant_take | by apply invariant_load; [rewrite E|]].
Qed.

(** The reader at the head of its loop. *)
Definition started (s : State) : Prop := pc (reader s) = Sequence ∧ 0 ≤ lock (page s) < 2 ^ 32.

Lemma started_invariant s : started s → invariant s.
Proof. intros [H1 H2]. split; rewrite ?H1; done. Qed.

Lemma steps_invariant s s' : rtc step s s' → invariant s → invariant s'.
Proof. induction 1 as [|s1 s2 s3 H _ IH]; [done|]. intros. by apply IH, (step_invariant s1). Qed.

(** The page taken is the page of a state passed on the way. *)
Lemma taken_passed s0 s :
  rtc step s0 s → pc (reader s0) = Sequence → pc (reader s) ≠ Sequence →
  ∃ s1, rtc step s0 s1 ∧ rtc step s1 s ∧ page s1 = taken s.
Proof.
  intros H H0. revert s H. apply (rtc_ind_r (λ s, pc (reader s) ≠ Sequence → _)); [done|]. intros s s' Hr Hs IH Hn.
  destruct (decide (pc (reader s) = Sequence)) as [E|E].
  - inversion Hs as [x Hx|x p Ho Hp|x hw restart]; subst; cbn [reader] in Hn; [done|done|].
    exists s. split; [done|]. subst restart. rewrite E in *. split; [by apply rtc_once|done].
  - destruct (IH E) as (s1 & ? & ? & Hp). exists s1. split; [done|]. split; [by eapply rtc_r|].
    rewrite Hp. inversion Hs as [x Hx|x p Ho Hq|x hw restart]; subst; try done.
    subst restart. cbn [taken]. by destruct (pc (reader s)).
Qed.

(** ** A quiet kernel *)

(** At the head of the loop, or with the sequence number of the page. *)
Definition ready (p : Page) (r : Reader) : Prop := pc r = Sequence ∨ sequence r = lock p.

Lemma load_progress p hw r :
  Z.odd (lock p) = false → pc r ≠ Returned →
  (pc r ≠ Check ∨ ready p r) → (rank (pc r) < rank (pc (load p hw r)))%nat.
Proof.
  intros Ho Hr H. unfold load, after_times. destruct (pc r) eqn:E; try done; cbn; rewrite ?Ho; repeat case_match; cbn; try lia.
  exfalso. destruct H as [|[H|H]]; [done|congruence|]. rewrite H, Z.eqb_refl in *. done.
Qed.

Lemma load_ready p hw r : Z.odd (lock p) = false → ready p r → ready p (load p hw r).
Proof.
  intros Ho [H|H]; unfold load.
  - rewrite H, Ho. by right.
  - destruct (pc r) eqn:E; rewrite ?Ho; try (by right). case_match; by right.
Qed.

Lemma rank_max p : (rank p ≤ 15)%nat ∧ (rank p = 15%nat → p = Returned).
Proof. destruct p; cbn; (split; [lia|done]). Qed.

Lemma load_returned p hws r : pc r = Returned → pc (foldl (λ r hw, load p hw r) r hws) = Returned.
Proof. revert r. induction hws as [|hw hws IH]; intros r H; [done|]. cbn. apply IH. unfold load. by rewrite H. Qed.

Lemma quiet_ready p hws r :
  Z.odd (lock p) = false → ready p r → (15 ≤ rank (pc r) + length hws)%nat →
  pc (foldl (λ r hw, load p hw r) r hws) = Returned.
Proof.
  intros Ho. revert r. induction hws as [|hw hws IH]; intros r H Hl.
  - apply rank_max. cbn in *. pose proof (proj1 (rank_max (pc r))). lia.
  - destruct (decide (pc r = Returned)); [by apply load_returned|]. cbn. apply IH; [by apply load_ready|].
    pose proof (load_progress p hw r Ho ltac:(done) ltac:(by right)). cbn in Hl. lia.
Qed.

Lemma quiet p hws r :
  Z.odd (lock p) = false → (30 ≤ rank (pc r) + length hws)%nat →
  pc (foldl (λ r hw, load p hw r) r hws) = Returned.
Proof.
  intros Ho. revert r. induction hws as [|hw hws IH]; intros r Hl.
  - pose proof (proj1 (rank_max (pc r))). cbn in *. lia.
  - destruct (decide (pc r = Returned)); [by apply load_returned|]. cbn in *.
    destruct (decide (pc r = Check)) as [E|E].
    + apply quiet_ready; [done| |rewrite E in Hl; cbn in Hl; lia].
      unfold load. rewrite E. case_match; [right|by left]. cbn. symmetry. by apply Z.eqb_eq.
    + apply IH. pose proof (load_progress p hw r Ho ltac:(done) (or_introl E)). lia.
Qed.

(** C17: A reader that starts at the head of its loop beside a kernel that changes the page at
    any point and any number of times: when it returns, and the lock changed fewer than
    2^32 times since the reader took its sequence number, what it returns is the count and
    the times of the page as it was in one state on the way in which the kernel was not
    writing, never a mixture of two; and from any point, 30 loads beside a kernel that
    leaves the page alone with an even lock make it return. *)
Theorem metadata_read_consistent s0 s :
  started s0 → rtc step s0 s →
  (pc (reader s) = Returned → bumps s < 2 ^ 32 →
    ∃ s1, rtc step s0 s1 ∧ rtc step s1 s ∧ Z.odd (lock (page s1)) = false ∧
      result (reader s) = reading_of (page s1) (cycles (reader s)) (pmc (reader s))) ∧
  (Z.odd (lock (page s)) = false → ∀ hws, (30 ≤ length hws)%nat →
    pc (foldl (λ r hw, load (page s) hw r) (reader s) hws) = Returned).
Proof.
  intros H0 Hs. pose proof (steps_invariant _ _ Hs (started_invariant _ H0)) as Hi. split.
  - intros Hr Hb. assert (Hn : pc (reader s) ≠ Sequence) by (by rewrite Hr).
    destruct (taken_passed s0 s Hs (proj1 H0) Hn) as (s1 & H1 & H2 & E). exists s1.
    destruct (i_seq _ Hi Hn) as (_ & He & _). rewrite E. do 3 (split; [done|]).
    apply (agrees_reading 15); [lia|]. by apply (i_returned _ Hi).
  - intros Ho hws Hl. apply quiet; [done|]. lia.
Qed.

(** The kernel swaps the counter while the reader is at work: the reader starts over. *)
Definition page_before : Page := mkPage 0 1 1000 8 40 40 false false 0 0 0 0 0.
Definition page_during : Page := mkPage 1 2 5000 8 70 70 false false 0 0 0 0 0.
Definition state_before : State := mkState page_before (mkReader Sequence 0 page_before 0 0) page_before 0.

Definition read_step (hw : Z) (s : State) : State :=
  let restart := match pc (reader s) with Sequence => true | _ => false end in
  mkState (page s) (load (page s) hw (reader s)) (if restart then page s else taken s) (if restart then 0 else bumps s).
Definition lock_step (s : State) : State :=
  mkState (with_lock ((lock (page s) + 1) mod 2 ^ 32) (page s)) (reader s) (taken s) (bumps s + 1).
Definition write_step (p : Page) (s : State) : State := mkState p (reader s) (taken s) (bumps s).

Lemma read_steps n hw s : rtc step s (Nat.iter n (read_step hw) s).
Proof. induction n as [|n IH]; [done|]. eapply rtc_r; [exact IH|]. apply step_read. Qed.

Definition state_locked : State := lock_step (Nat.iter 2 (read_step 255) state_before).
Definition state_after : State := Nat.iter 16 (read_step 255) (lock_step (write_step page_during state_locked)).

Lemma state_after_reached : rtc step state_before state_after.
Proof.
  etrans; [apply (read_steps 2 255)|]. eapply rtc_l; [apply step_lock|].
  eapply rtc_l; [by apply (step_write state_locked page_during)|]. eapply rtc_l; [apply step_lock|]. apply read_steps.
Qed.

Lemma metadata_read_consistent_witness :
  started state_before ∧ result (reader state_after) = mkReading 4999 70 70 ∧
  ∃ s1, rtc step state_before s1 ∧ rtc step s1 state_after ∧ Z.odd (lock (page s1)) = false ∧
    result (reader state_after) = reading_of (page s1) (cycles (reader state_after)) (pmc (reader state_after)).
Proof.
  assert (H0 : started state_before) by (split; [done|cbn; lia]).
  split; [exact H0|]. split; [vm_compute; done|].
  apply (metadata_read_consistent _ _ H0 state_after_reached); vm_compute; done.
Defined.
End Reading.

(** ** Counts and times *)
Module Clock.
Import Arithmetic.

Lemma sign_extend_exact v w :
  0 < w ≤ 64 → - 2 ^ (w - 1) ≤ v < 2 ^ (w - 1) → sign_extend_counter (v mod 2 ^ w) w = v.
Proof.
  intros Hw Hv. unfold sign_extend_counter. replace (w =? 0) with false by lia. cbn [orb].
  destruct (64 <=? w) eqn:E.
  - assert (w = 64) as -> by lia. by apply as_i64_wrap.
  - apply Z.leb_gt in E. set (k := 64 - w).
    assert (Hk : 2 ^ 64 = 2 ^ w * 2 ^ k) by (rewrite <- Z.pow_add_r by lia; f_equal; lia).
    rewrite Z.shiftl_mul_pow2 by lia. unfold wrap64.
    replace ((v mod 2 ^ w * 2 ^ k) mod 2 ^ 64) with (wrap64 (v * 2 ^ k)).
    2:{ unfold wrap64. rewrite Hk, !Zmult_mod_distr_r, Zmod_mod. done. }
    rewrite as_i64_wrap.
    + rewrite Z.shiftr_div_pow2 by lia. by apply Z.div_mul, Z.pow_nonzero; lia.
    + assert (Hh : 2 ^ 63 = 2 ^ (w - 1) * 2 ^ k) by (rewrite <- Z.pow_add_r by lia; f_equal; lia).
      assert (0 < 2 ^ k) by (apply Z.pow_pos_nonneg; lia). nia.
Qed.

Lemma time_delta_exact cycles shift mult offset :
  in_u64 cycles → 0 ≤ shift ≤ 32 → in_u32 mult →
  perf_time_delta cycles shift mult offset = wrap64 (offset + cycles * mult / 2 ^ shift).
Proof.
  intros Hc Hs Hm. unfold perf_time_delta. replace (64 <=? shift) with false by lia.
  assert (Hp : 0 < 2 ^ shift) by (apply Z.pow_pos_nonneg; lia).
  assert (Hp' : 2 ^ shift ≤ 2 ^ 32) by (apply Z.pow_le_mono_r; lia).
  assert (Hr : Z.land cycles (if shift =? 0 then 0 else Z.shiftl 1 shift - 1) = cycles mod 2 ^ shift).
  { destruct (shift =? 0) eqn:E; [|apply land_mask; lia].
    apply Z.eqb_eq in E. subst. rewrite Z.land_0_r, Z.mod_1_r. done. }
  cbv zeta. rewrite Hr, !Z.shiftr_div_pow2 by lia.
  pose proof (Z.mod_pos_bound cycles (2 ^ shift) Hp) as Hb.
  assert (Hmul : wrapping_mul (cycles mod 2 ^ shift) mult = cycles mod 2 ^ shift * mult).
  { apply wrap64_small. unfold in_u64, in_u32, u64_max, u32_max in *. nia. }
  rewrite Hmul. unfold wrapping_add, wrapping_mul. rewrite wrap64_add_l, <- Z.add_assoc.
  replace (offset + (wrap64 (cycles / 2 ^ shift * mult) + cycles mod 2 ^ shift * mult / 2 ^ shift))
    with (wrap64 (cycles / 2 ^ shift * mult) + (offset + cycles mod 2 ^ shift * mult / 2 ^ shift)) by lia.
  rewrite wrap64_add_l. f_equal.
  replace (cycles * mult) with (cycles mod 2 ^ shift * mult + cycles / 2 ^ shift * mult * 2 ^ shift).
  - rewrite Z.div_add by lia. lia.
  - rewrite (Z.div_mod cycles (2 ^ shift)) at 3 by lia. lia.
Qed.

Lemma short_time_exact now before k :
  0 ≤ k ≤ 64 → in_u64 now → 0 ≤ before ≤ now → now < before + 2 ^ k →
  normalize_short_time (now mod 2 ^ k) before (Z.shiftl 1 k - 1) = now.
Proof.
  intros Hk Hn Hb Hl. unfold normalize_short_time. rewrite land_mask by lia. unfold wrapping_sub, wrap64.
  assert (Hp : 0 < 2 ^ k) by (apply Z.pow_pos_nonneg; lia).
  replace (((now mod 2 ^ k - before) mod 2 ^ 64) mod 2 ^ k) with (now - before).
  - unfold wrapping_add. rewrite wrap64_small; [lia|]. replace (before + (now - before)) with now by lia. done.
  - replace (2 ^ 64) with (2 ^ k * 2 ^ (64 - k)) by (rewrite <- Z.pow_add_r by lia; f_equal; lia).
    rewrite Z.rem_mul_r by (try lia; apply Z.pow_nonzero; lia).
    rewrite (Z.mul_comm (2 ^ k)), Z_mod_plus_full, Zmod_mod, Zminus_mod_idemp_l, Z.mod_small; lia.
Qed.
Import Metadata.

(** C34: The counts and the clock of a page: with a counter [width] bits wide that moved by
    [v] since the page was written, a scale the kernel may publish (shift at most 32, a
    32-bit multiplier) and, where the clock is short, at most one turn of it since
    [time_cycles], the reading is the kernel's offset plus [v], and the two times advanced
    by [time_offset + now * mult / 2^shift], all modulo 2^64, with no bit lost to the split
    multiplication, the sign extension or the mask. *)
Theorem reading_exact p v now k :
  index p ≠ 0 → 0 < pmc_width p ≤ 64 → - 2 ^ (pmc_width p - 1) ≤ v < 2 ^ (pmc_width p - 1) →
  in_u64 now → 0 ≤ time_shift p ≤ 32 → in_u32 (time_mult p) →
  (cap_user_time_short p = true →
    0 ≤ k ≤ 64 ∧ time_mask p = Z.shiftl 1 k - 1 ∧ 0 ≤ time_cycles p ≤ now ∧ now < time_cycles p + 2 ^ k) →
  let delta := time_offset p + now * time_mult p / 2 ^ time_shift p in
  let clock := if cap_user_time_short p then now mod 2 ^ k else now in
  reading_of p clock (v mod 2 ^ pmc_width p) =
  mkReading (wrap64 (offset p + v))
    (if uses_time p then wrap64 (time_enabled p + delta) else time_enabled p)
    (if uses_time p then wrap64 (time_running p + delta) else time_running p).
Proof.
  intros Hi Hw Hv Hn Hs Hm Hk delta clock.
  unfold reading_of, counter_of, metadata_counter_value, times. replace (index p =? 0) with false by lia.
  rewrite sign_extend_exact by done.
  assert (Hd : time_delta p clock = wrap64 delta).
  { unfold time_delta, clock. destruct (cap_user_time_short p).
    - destruct (Hk eq_refl) as (? & -> & ? & ?). rewrite short_time_exact by done. by apply time_delta_exact.
    - by apply time_delta_exact. }
  rewrite Hd. destruct (uses_time p); cbn [fst snd]; unfold wrapping_add; rewrite ?wrap64_add_r; done.
Qed.

Lemma reading_exact_witness :
  let p := mkPage 4 3 1000000 48 5000 4000 true true 10 4096 100 (2 ^ 40 - 5) (Z.shiftl 1 40 - 1) in
  reading_of p 7 (2 ^ 48 - 20) = mkReading 999980 (wrap64 (5100 + (2 ^ 40 + 7) * 4)) (wrap64 (4100 + (2 ^ 40 + 7) * 4)).
Proof.
  intros p.
  assert (H := reading_exact p (- 20) (2 ^ 40 + 7) 40 ltac:(done) ltac:(cbn; lia) ltac:(cbn; lia)
    ltac:(unfold in_u64, u64_max; lia) ltac:(cbn; lia) ltac:(unfold in_u32, u32_max; cbn; lia)
    ltac:(intros _; cbn; repeat split; done || lia)).
  exact H.
Defined.
End Clock.

(** ** Statistics *)
Module Statistics.
Import Measure.

Definition count_if (f : Z → bool) (l : list Z) : nat := length (List.filter f l).

(** [v] is the nearest-rank [p]th percentile of [l]: a sample such that at least [p] in a
    hundred samples are at most [v] and fewer than [p] in a hundred are below it. *)
Definition nearest_rank (p : Z) (l : list Z) (v : Z) : Prop :=
  v ∈ l ∧ p * Z.of_nat (length l) ≤ 100 * Z.of_nat (count_if (λ x, x <=? v) l) ∧
  100 * Z.of_nat (count_if (λ x, x <? v) l) < p * Z.of_nat (length l).

Lemma count_if_perm f l k : l ≡ₚ k → count_if f l = count_if f k.
Proof. intros H. unfold count_if. by rewrite (filter_perm f l k H). Qed.

Lemma count_if_app f l k : count_if f (l ++ k) = (count_if f l + count_if f k)%nat.
Proof. unfold count_if. by rewrite List.filter_app, length_app. Qed.

Lemma nearest_rank_perm p l k v : l ≡ₚ k → nearest_rank p l v → nearest_rank p k v.
Proof.
  intros H (? & ? & ?). unfold nearest_rank.
  rewrite <- !(count_if_perm _ _ _ H), <- H. done.
Qed.

(** The sample at a position of a sorted list. *)
Lemma sorted_counts l i v :
  StronglySorted Z.le l → l !! i = Some v →
  Z.of_nat i < Z.of_nat (count_if (λ x, x <=? v) l) ∧ Z.of_nat (count_if (λ x, x <? v) l) ≤ Z.of_nat i.
Proof.
  intros Hs Hi. rewrite <- (take_drop_middle l i v Hi) in Hs |- *.
  pose proof (lookup_lt_Some _ _ _ Hi) as Hl. rewrite !count_if_app.
  apply StronglySorted_app in Hs as (Hlt & _ & Hr). apply StronglySorted_inv in Hr as [_ Hr].
  assert (Hn : length (take i l) = i) by (rewrite length_take; lia). split.
  - unfold count_if at 1. rewrite filter_all; [cbn; unfold count_if; cbn; rewrite Z.leb_refl; cbn; lia|].
    intros x Hx. apply Z.leb_le. apply Hlt; [done|set_solver].
  - unfold count_if at 2. rewrite filter_none.
    + pose proof (List.filter_length_le (λ x, x <? v) (take i l)). unfold count_if. cbn. lia.
    + intros x Hx. apply Z.ltb_ge. apply elem_of_cons in Hx as [->|Hx]; [lia|]. rewrite Forall_forall in Hr. by apply Hr.
Qed.

(** The [p]th percentile of sorted samples, [1 <= p <= 100], is there and is the nearest
    rank. *)
Lemma percentile_spec l p :
  StronglySorted Z.le l → l ≠ [] → 1 ≤ p ≤ 100 → ∃ v, percentile l p = Some v ∧ nearest_rank p l v.
Proof.
  intros Hs Hn Hp. unfold percentile.
  assert (Hl : 0 < Z.of_nat (length l)) by (destruct l; cbn; [done|lia]).
  set (n := Z.of_nat (length l)) in *. set (rank := (p * n + 99) / 100).
  assert (Hr : 100 * rank ≤ p * n + 99 < 100 * rank + 100).
  { unfold rank. pose proof (Z.div_mod (p * n + 99) 100). pose proof (Z.mod_pos_bound (p * n + 99) 100). lia. }
  assert (1 ≤ rank ≤ n) by nia. unfold saturating_sub. rewrite Z.max_l by lia.
  destruct (lookup_lt_is_Some_2 l (Z.to_nat (rank - 1))) as [v Hv]; [lia|]. rewrite Hv. exists v. split; [done|].
  destruct (sorted_counts l _ v Hs Hv) as [H1 H2]. split; [by eapply list_elem_of_lookup_2|].
  change (Z.of_nat (length l)) with n. lia.
Qed.

Lemma percentile_mono l p q v w :
  StronglySorted Z.le l → p ≤ q → percentile l p = Some v → percentile l q = Some w → v ≤ w.
Proof.
  intros Hs Hpq Hv Hw. unfold percentile, saturating_sub in *.
  assert ((p * Z.of_nat (length l) + 99) / 100 ≤ (q * Z.of_nat (length l) + 99) / 100) by (apply Z.div_le_mono; nia).
  destruct (Nat.lt_trichotomy (Z.to_nat (Z.max ((p * Z.of_nat (length l) + 99) / 100 - 1) 0))
    (Z.to_nat (Z.max ((q * Z.of_nat (length l) + 99) / 100 - 1) 0))) as [Hlt|[E|Hgt]]; [| |lia].
  - by apply (StronglySorted_lookup Z.le l _ _ v w Hs Hlt).
  - rewrite E, Hw in Hv. by injection Hv as ->.
Qed.

Section statistics.
Context {Counter : Type} `{EqDecision Counter}.

(** What the statistics of a counter say of its samples. *)
Definition summarises (samples : list Z) (st : @CounterStatistics Counter) : Prop :=
  min st ∈ samples ∧ (∀ x, x ∈ samples → min st ≤ x) ∧
  mean st = f64_div (u64_as_f64 (foldr Z.add 0 samples)) (u64_as_f64 (Z.of_nat (length samples))) ∧
  nearest_rank 50 samples (p50 st) ∧ nearest_rank 99 samples (p99 st) ∧ min st ≤ p50 st ≤ p99 st.

Lemma foldl_sum l a : foldl Z.add a l = a + foldr Z.add 0 l.
Proof. revert a. induction l as [|x l IH]; intros a; cbn; [lia|]. rewrite IH. lia. Qed.

Lemma sum_perm l k : l ≡ₚ k → foldr Z.add 0 l = foldr Z.add 0 k.
Proof. induction 1; cbn; lia. Qed.

Lemma statistics_spec (c : Counter) samples :
  samples ≠ [] → ∃ st, statistics c samples = Some st ∧ c_counter st = c ∧ summarises samples st.
Proof.
  intros Hn. unfold statistics. set (l := merge_sort Z.le samples).
  assert (Hp : l ≡ₚ samples) by apply merge_sort_Permutation.
  assert (Hs : StronglySorted Z.le l) by (apply StronglySorted_merge_sort; apply _).
  assert (Hl : l ≠ []) by (intros E; rewrite E in Hp; by apply Permutation_nil in Hp).
  destruct (percentile_spec l 50 Hs Hl ltac:(lia)) as (v50 & E50 & H50).
  destruct (percentile_spec l 99 Hs Hl ltac:(lia)) as (v99 & E99 & H99).
  destruct (l !! 0%nat) as [m|] eqn:Em; [|by destruct l].
  assert (Hmin : m ∈ l ∧ ∀ x, x ∈ l → m ≤ x).
  { destruct l as [|m' rest]; [done|]. cbn in Em. injection Em as ->. apply StronglySorted_inv in Hs as [_ Hf].
    rewrite Forall_forall in Hf. split; [set_solver|]. intros x [->|Hx]%elem_of_cons; [lia|by apply Hf]. }
  cbn [mbind option_bind]. rewrite E50, E99. cbn [mbind option_bind]. eexists. split; [done|]. split; [done|].
  unfold summarises; cbn [min mean p50 p99]. rewrite foldl_sum, (sum_perm _ _ Hp), (Permutation_length Hp).
  split; [rewrite <- Hp; apply Hmin|]. split; [intros x; rewrite <- Hp; apply Hmin|]. split; [by rewrite Z.add_0_l|].
  split; [by apply (nearest_rank_perm _ l)|]. split; [by apply (nearest_rank_perm _ l)|]. split; [apply Hmin, H50|].
  by apply (percentile_mono l 50 99).
Qed.

(** ** The loop *)

(** The samples of the [j]th counter. *)
Definition column (j : nat) (ms : list (@Measurements Counter)) : list Z :=
  omap (λ m, m_value <$> entries m !! j) ms.

Lemma push_values_spec slots (m : @Measurements Counter) :
  length (entries m) = length slots →
  push_values slots m = imap (λ j slot, slot ++ column j [m]) slots.
Proof.
  intros Hl. unfold push_values. rewrite drop_ge, app_nil_r by (rewrite length_fmap; lia).
  apply list_eq. intros j. rewrite lookup_zip_with, list_lookup_imap.
  destruct (slots !! j) as [slot|] eqn:Es; cbn; [|done]. rewrite list_lookup_fmap.
  destruct (lookup_lt_is_Some_2 (entries m) j) as [e Ee]; [rewrite Hl; by eapply lookup_lt_Some|]. rewrite Ee. done.
Qed.

Lemma collect_spec (ms : list (@Measurements Counter)) slots :
  Forall (λ m, length (entries m) = length slots) ms →
  collect (inr <$> ms) slots = inr (imap (λ j slot, slot ++ column j ms) slots).
Proof.
  revert slots. induction ms as [|m ms IH]; intros slots Hf; cbn.
  - f_equal. apply list_eq. intros j. rewrite list_lookup_imap. destruct (slots !! j); cbn; by rewrite ?app_nil_r.
  - apply Forall_cons in Hf as [Hm Hf]. rewrite push_values_spec, IH by (done || by rewrite length_imap).
    f_equal. apply list_eq. intros j. rewrite !list_lookup_imap. destruct (slots !! j) as [slot|]; [|done].
    cbn. rewrite <- app_assoc. by destruct (m_value <$> entries m !! j).
Qed.

Lemma collect_error (ms : list (@Measurements Counter)) e rest slots :
  collect ((inr <$> ms) ++ inl e :: rest) slots = inl e.
Proof. revert slots. induction ms as [|m ms IH]; intros slots; cbn; [done|apply IH]. Qed.

Lemma length_column (ms : list (@Measurements Counter)) n j :
  Forall (λ m, length (entries m) = n) ms → (j < n)%nat → length (column j ms) = length ms.
Proof.
  intros Hf Hj. induction Hf as [|m ms Hm _ IH]; [done|]. unfold column in *. cbn.
  destruct (lookup_lt_is_Some_2 (entries m) j) as [x Hx]; [lia|]. rewrite Hx. cbn. by rewrite IH.
Qed.

(** The entries of a measurement are the counters, one each. *)
Lemma finish_entries (counters : list Counter) start end_ wall :
  length (values start) = length counters → length (values end_) = length counters →
  length (entries (finish_measurement counters start end_ wall)) = length counters.
Proof. intros H1 H2. cbn. rewrite length_fmap, !length_zip_with. lia. Qed.

Lemma mapM_statistics (counters : list Counter) slots :
  length slots = length counters → Forall (λ s, s ≠ []) slots →
  ∃ l, mapM (λ '(c, samples), statistics c samples) (zip counters slots) = Some l ∧
    c_counter <$> l = counters ∧ ∀ j st, l !! j = Some st → ∃ samples, slots !! j = Some samples ∧ summarises samples st.
Proof.
  revert slots. induction counters as [|c counters IH]; intros [|s slots] Hl Hf; try done.
  - exists []. split; [done|]. split; [done|]. intros j st. by rewrite lookup_nil.
  - apply Forall_cons in Hf as [Hs Hf]. destruct (IH slots ltac:(cbn in Hl; lia) Hf) as (l & El & Ec & Hd).
    destruct (statistics_spec c s Hs) as (st & Est & Hc & Hsum). exists (st :: l). cbn. rewrite Est. cbn. rewrite El. cbn.
    split; [done|]. split; [by rewrite Hc, Ec|]. intros [|j] st'; cbn; [intros [= <-]; by exists s|apply Hd].
Qed.

(** The statistics of spans that all ended. *)
Lemma measure_spec (counters : list Counter) iterations (m : nat → Measurements) :
  (0 < iterations)%nat → (∀ i, length (entries (m i)) = length counters) →
  ∃ l, measure_n counters iterations (λ i, inr (m i)) = Some (inr l) ∧ c_counter <$> l = counters ∧
    ∀ j st, l !! j = Some st → summarises (column j (m <$> seq 0 iterations)) st.
Proof.
  intros Hi Hm. unfold measure_n. replace (iterations =? 0)%nat with false by (symmetry; apply Nat.eqb_neq; lia).
  set (ms := m <$> seq 0 iterations). replace ((λ i, inr (m i)) <$> seq 0 iterations) with (inr (A := Error) <$> ms)
    by (unfold ms; by rewrite <- list_fmap_compose).
  assert (Hf : Forall (λ x, length (entries x) = length counters) ms).
  { unfold ms. apply Forall_fmap, Forall_true. done. }
  rewrite collect_spec by (eapply Forall_impl; [exact Hf|]; intros; by rewrite length_replicate).
  match goal with |- context [zip counters ?s] => set (slots := s) end.
  assert (Hs : ∀ j samples, slots !! j = Some samples → samples = column j ms ∧ (j < length counters)%nat).
  { intros j samples. unfold slots. rewrite list_lookup_imap. intros (x & [-> Hj]%lookup_replicate & ->)%fmap_Some. done. }
  destruct (mapM_statistics counters slots) as (l & El & Ec & Hd).
  - unfold slots. by rewrite length_imap, length_replicate.
  - apply Forall_lookup. intros j x Hx. destruct (Hs j x Hx) as [-> Hj].
    pose proof (length_column ms _ j Hf Hj) as E. unfold ms in E at 2. rewrite length_fmap, length_seq in E.
    intros Hn. rewrite Hn in E. cbn in E. lia.
  - rewrite El. cbn. exists l. split; [done|]. split; [done|]. intros j st Hst.
    destruct (Hd j st Hst) as (samples & Hsl & H). by destruct (Hs j samples Hsl) as [-> _].
Qed.

(** Repeated measurements whose snapshots hold one value per counter always give
    statistics (no index panics), one per counter in the order asked, and those of the
    [j]th counter summarise exactly its scaled counts: a minimum, their mean, and the
    nearest-rank 50th and 99th percentiles, with minimum <= p50 <= p99. *)
Theorem measure_n_exact (counters : list Counter) iterations (start end_ : nat → Snapshot) (wall : nat → Z) :
  (0 < iterations)%nat →
  (∀ i, length (values (start i)) = length counters ∧ length (values (end_ i)) = length counters) →
  let m i := finish_measurement counters (start i) (end_ i) (wall i) in
  ∃ l, measure_n counters iterations (λ i, inr (m i)) = Some (inr l) ∧ c_counter <$> l = counters ∧
    ∀ j st, l !! j = Some st → summarises (column j (m <$> seq 0 iterations)) st.
Proof. intros Hi Hl m. apply measure_spec; [done|]. intros i. by apply finish_entries; apply Hl. Qed.
End statistics.

Lemma measure_n_exact_witness :
  let snap i v := mkSnapshot [v; i] i i in
  ∃ l, measure_n [7%nat; 8%nat] 3
         (λ i, inr (finish_measurement [7%nat; 8%nat] (snap 1 10) (snap 3 (20 + Z.of_nat i)) 0)) = Some (inr l) ∧
       c_counter <$> l = [7%nat; 8%nat] ∧ p50 <$> l = [11; 2].
Proof.
  intros snap.
  destruct (measure_n_exact [7%nat; 8%nat] 3 (λ _, snap 1 10) (λ i, snap 3 (20 + Z.of_nat i)) (λ _, 0)
    ltac:(lia) ltac:(done)) as (l & El & Hc & _).
  exists l. split; [exact El|]. split; [exact Hc|]. revert El. vm_compute. intros [= <-]. done.
Defined.
End Statistics.
