(* ===== verification/ProcessTree.v ===== *)
(** * The process tree

    Process-tree telemetry: reading [/proc] ([libprof/src/platform/linux.rs]) and the running
    totals of the once-per-second scan ([libprof/src/source/procfs.rs]).
    - [Module Proc]: the status line of a process, key-value files, the tree under a root;
    - [Module Totals]: the scan loop with its totals, the list of processes and the samples.

    A text is the list of its characters.  The order in which a hash map is walked is an
    argument ([shuffle]); what a scan reads of the kernel is its input. *)

From Stdlib Require Import String.
From S2P Require Import Prelude Words Text Floats.
From stdpp Require Import sorting strings.
Open Scope Z_scope.

Module Proc.

Record ProcessStat := mkStat {
  pid : Z; ppid : Z; state : Z; command : list Z; start_ticks : Z; user_ticks : Z; system_ticks : Z;
  minor_faults : Z; major_faults : Z; rss_pages : Z
}.

(** [str::parse] at the other widths. *)
Definition parse_u32 (s : list Z) : option Z := v ← parse_u64 s; if v <=? u32_max then Some v else None.
Definition parse_i64 (s : list Z) : option Z :=
  match s with
  | c :: _ :: _ =>
      if c =? 45 then v ← parse_digits 10 0 (tail s); if v <=? 2 ^ 63 then Some (- v) else None
      else v ← parse_u64 s; if v <? 2 ^ 63 then Some v else None
  | _ => v ← parse_u64 s; if v <? 2 ^ 63 then Some v else None
  end.

(** The first byte of a character in UTF-8. *)
Definition first_byte (c : Z) : Z :=
  if c <? 128 then c else if c <? 2048 then 192 + c / 64 else if c <? 65536 then 224 + c / 4096 else 240 + c / 262144.

(** [str::find] and [str::rfind] of a character: its position in characters. *)
Definition find_char (c : Z) (s : list Z) : option nat := position (λ x, x =? c) s.
Definition rfind_char (c : Z) (s : list Z) : option nat :=
  i ← position (λ x, x =? c) (reverse s); Some (length s - 1 - i)%nat.

(** [value[close + 2..]]: the byte after the parenthesis has to be a character. *)
Definition after_close (value : list Z) (close : nat) : outcome (list Z) :=
  match drop (S close) value with
  | c :: rest => if c <? 128 then Done rest else Panicked
  | [] => Panicked
  end.

(** [value[open + 1..close]]. *)
Definition between (value : list Z) (open_ close : nat) : outcome (list Z) :=
  if bool_decide (close < S open_)%nat then Panicked else Done (take (close - S open_) (drop (S open_) value)).

Definition stat_fields (pid : Z) (command : list Z) (fields : list (list Z)) : option ProcessStat :=
  state ← fields !! 0%nat ≫= head;
  ppid ← fields !! 1%nat ≫= parse_u32;
  minor_faults ← fields !! 7%nat ≫= parse_u64;
  major_faults ← fields !! 9%nat ≫= parse_u64;
  user_ticks ← fields !! 11%nat ≫= parse_u64;
  system_ticks ← fields !! 12%nat ≫= parse_u64;
  start_ticks ← fields !! 19%nat ≫= parse_u64;
  rss_pages ← fields !! 21%nat ≫= parse_i64;
  Some (mkStat pid ppid (first_byte state) command start_ticks user_ticks system_ticks minor_faults major_faults rss_pages).

(** [value] is the file, when it can be read. *)
Definition read_proc_stat (pid : Z) (value : option (list Z)) : outcome (option ProcessStat) :=
  match value with
  | None => Done None
  | Some value =>
      match find_char 40 value, rfind_char 41 value with
      | Some open_, Some close =>
          command ← between value open_ close;
          rest ← after_close value close;
          Done (stat_fields pid command (split_whitespace rest))
      | _, _ => Done None
      end
  end.

(** ** Key-value files *)
Definition key_values (value : option (list Z)) : gmap (list Z) (list Z) :=
  foldl (λ m line, match split_once 58 line with Some (key, v) => <[key := trim v]> m | None => m end) ∅
    (lines (default [] value)).

Definition get_u64 (values : gmap (list Z) (list Z)) (key : list Z) : Z :=
  default 0 (v ← values !! key; w ← head (split_whitespace v); parse_u64 w).

Record ProcessIo := mkIo { read_bytes : Z; write_bytes : Z; read_calls : Z; write_calls : Z }.
Record ProcessContext := mkContext { voluntary : Z; involuntary : Z }.

Definition process_io (io : option (list Z)) : ProcessIo :=
  let values := key_values io in
  mkIo (get_u64 values (chars "read_bytes")) (get_u64 values (chars "write_bytes")) (get_u64 values (chars "syscr"))
    (get_u64 values (chars "syscw")).
Definition process_context (status : option (list Z)) : ProcessContext :=
  let values := key_values status in
  mkContext (get_u64 values (chars "voluntary_ctxt_switches")) (get_u64 values (chars "nonvoluntary_ctxt_switches")).

(** ** The tree *)

(** The entries of [/proc] whose name is a number, with their status. *)
Definition add_entry (all : gmap Z ProcessStat) (e : Z * option ProcessStat) : gmap Z ProcessStat :=
  match e.2 with Some s => <[e.1 := s]> all | None => all end.
Definition collect_all (entries : list (Z * option ProcessStat)) : gmap Z ProcessStat := foldl add_entry ∅ entries.

Definition add_child (children : gmap Z (list Z)) (stat : ProcessStat) : gmap Z (list Z) :=
  <[ppid stat := default [] (children !! ppid stat) ++ [pid stat]]> children.

(** The breadth-first walk; a run out of fuel is [None]. *)
Fixpoint walk (fuel : nat) (all : gmap Z ProcessStat) (children : gmap Z (list Z)) (queue : list Z) (seen : gset Z)
    (result : list ProcessStat) : option (list ProcessStat) :=
  match queue with
  | [] => Some result
  | p :: queue =>
      match fuel with
      | O => None
      | S fuel =>
          if bool_decide (p ∈ seen) then walk fuel all children queue seen result
          else match all !! p with
               | Some stat => walk fuel all children (queue ++ default [] (children !! p)) ({[p]} ∪ seen) (result ++ [stat])
               | None => walk fuel all children queue ({[p]} ∪ seen) result
               end
      end
  end.

Section tree.
Context (shuffle : list ProcessStat → list ProcessStat).

Definition values_of (all : gmap Z ProcessStat) : list ProcessStat := shuffle (snd <$> map_to_list all).

Definition process_tree (root_pid : Z) (entries : list (Z * option ProcessStat)) : option (list ProcessStat) :=
  let all := collect_all entries in
  match all !! root_pid with
  | None => Some []
  | Some _ =>
      let children := foldl add_child ∅ (values_of all) in
      walk (S (length (values_of all))) all children [root_pid] ∅ []
  end.
End tree.
End Proc.

Module Totals.
Import Proc.

Record ProcessTotals := mkTotals {
  t_user : Z; t_system : Z; t_minor : Z; t_major : Z; t_io : ProcessIo; t_context : ProcessContext
}.
Definition default_totals : ProcessTotals := mkTotals 0 0 0 0 (mkIo 0 0 0 0) (mkContext 0 0).

Definition fold_delta (total after before : Z) : Z := saturating_add total (saturating_sub after before).
Definition add_delta (c after before : ProcessTotals) : ProcessTotals :=
  mkTotals
    (fold_delta (t_user c) (t_user after) (t_user before))
    (fold_delta (t_system c) (t_system after) (t_system before))
    (fold_delta (t_minor c) (t_minor after) (t_minor before))
    (fold_delta (t_major c) (t_major after) (t_major before))
    (mkIo (fold_delta (read_bytes (t_io c)) (read_bytes (t_io after)) (read_bytes (t_io before)))
          (fold_delta (write_bytes (t_io c)) (write_bytes (t_io after)) (write_bytes (t_io before)))
          (fold_delta (read_calls (t_io c)) (read_calls (t_io after)) (read_calls (t_io before)))
          (fold_delta (write_calls (t_io c)) (write_calls (t_io after)) (write_calls (t_io before))))
    (mkContext (fold_delta (voluntary (t_context c)) (voluntary (t_context after)) (voluntary (t_context before)))
               (fold_delta (involuntary (t_context c)) (involuntary (t_context after)) (involuntary (t_context before)))).

Record ProcessInfo := mkInfo {
  i_pid : Z; i_ppid : Z; i_start_ticks : Z; first_seen_ns : Z; last_seen_ns : Z; i_command : list Z
}.

(** A process as one scan reads it; [pss] is its proportional set size in bytes. *)
Record Reading := mkReading { stat : ProcessStat; io : ProcessIo; context : ProcessContext; pss : f64 }.

Definition Key : Type := Z * Z.
Definition key (r : Reading) : Key := (pid (stat r), start_ticks (stat r)).
Definition totals (r : Reading) : ProcessTotals :=
  mkTotals (user_ticks (stat r)) (system_ticks (stat r)) (minor_faults (stat r)) (major_faults (stat r)) (io r) (context r).

Record Scan := mkScan {
  previous : gmap Key ProcessTotals;
  cumulative : ProcessTotals;
  processes : gmap Key ProcessInfo;
  initial_scan : bool
}.
Definition new_scan : Scan := mkScan ∅ default_totals ∅ true.

(** The locals of one pass. *)
Record Pass := mkPass {
  rss_bytes : f64; pss_bytes : f64; current : gmap Key ProcessTotals; p_cumulative : ProcessTotals;
  p_processes : gmap Key ProcessInfo
}.

Section scan.
Context (launched : bool) (page_size : f64).

Definition baseline (s : Scan) (k : Key) : option ProcessTotals :=
  match previous s !! k with
  | Some before => Some before
  | None => if launched || negb (initial_scan s) then Some default_totals else None
  end.

Definition visit (s : Scan) (timestamp_ns : Z) (p : Pass) (r : Reading) : Pass :=
  let st := stat r in
  let info := default (mkInfo (pid st) (ppid st) (start_ticks st) timestamp_ns timestamp_ns (command st)) (p_processes p !! key r) in
  mkPass
    (f64_add (rss_bytes p) (f64_mul (u64_as_f64 (Z.max (rss_pages st) 0)) page_size))
    (f64_add (pss_bytes p) (pss r))
    (<[key r := totals r]> (current p))
    (match baseline s (key r) with Some before => add_delta (p_cumulative p) (totals r) before | None => p_cumulative p end)
    (<[key r := mkInfo (i_pid info) (i_ppid info) (i_start_ticks info) (first_seen_ns info) timestamp_ns (i_command info)]> (p_processes p)).

Definition pass (s : Scan) (timestamp_ns : Z) (tree : list Reading) : Pass :=
  foldl (visit s timestamp_ns) (mkPass f64_zero f64_zero ∅ (cumulative s) (processes s)) tree.

(** One turn of the loop; [tree] is what [process_tree(..).unwrap_or_default()] gives. *)
Definition scan (s : Scan) (timestamp_ns : Z) (tree : list Reading) : Scan :=
  let p := pass s timestamp_ns tree in
  mkScan (current p) (p_cumulative p) (p_processes p) false.

Definition scans (s : Scan) (history : list (Z * list Reading)) : Scan :=
  foldl (λ s '(t, tree), scan s t tree) s history.
End scan.

(** The rows recorded at the end. *)
Definition info_le (a b : ProcessInfo) : Prop :=
  first_seen_ns a < first_seen_ns b ∨ (first_seen_ns a = first_seen_ns b ∧ i_pid a ≤ i_pid b).
#[export] Instance info_le_dec a b : Decision (info_le a b).
Proof. unfold info_le. apply _. Defined.
Definition process_rows (s : Scan) : list ProcessInfo := merge_sort info_le (snd <$> map_to_list (processes s)).

(** ** Samples *)
Record ResourceSample := mkSample {
  timestamp_ns : Z; resource : string; resource_id : string; category : string; metric : string; value : f64;
  unit_ : string; scope : string; source : string; quality : string
}.
Definition tree_sample (timestamp_ns : Z) (resource category metric : string) (value : f64) (unit_ source : string) : ResourceSample :=
  mkSample timestamp_ns resource "process_tree" category metric value unit_ "process_tree" source "best_effort".

Definition tree_samples (timestamp_ns : Z) (ticks_per_second : f64) (p : Pass) : list ResourceSample :=
  let c := p_cumulative p in
  let s := tree_sample timestamp_ns in
  [ s "cpu" "utilization" "user_time" (f64_div (u64_as_f64 (t_user c)) ticks_per_second) "seconds" "procfs";
    s "cpu" "utilization" "system_time" (f64_div (u64_as_f64 (t_system c)) ticks_per_second) "seconds" "procfs";
    s "cpu" "errors" "minor_faults" (u64_as_f64 (t_minor c)) "faults" "procfs";
    s "memory" "errors" "major_faults" (u64_as_f64 (t_major c)) "faults" "procfs";
    s "memory" "utilization" "pss" (pss_bytes p) "bytes" "procfs_smaps_rollup";
    s "memory" "utilization" "rss" (rss_bytes p) "bytes" "procfs";
    s "disk" "utilization" "read_bytes" (u64_as_f64 (read_bytes (t_io c))) "bytes" "procfs";
    s "disk" "utilization" "write_bytes" (u64_as_f64 (write_bytes (t_io c))) "bytes" "procfs";
    s "disk" "utilization" "read_calls" (u64_as_f64 (read_calls (t_io c))) "operations" "procfs";
    s "disk" "utilization" "write_calls" (u64_as_f64 (write_calls (t_io c))) "operations" "procfs";
    s "cpu" "saturation" "voluntary_context_switches" (u64_as_f64 (voluntary (t_context c))) "switches" "procfs";
    s "cpu" "saturation" "involuntary_context_switches" (u64_as_f64 (involuntary (t_context c))) "switches" "procfs" ]%string.
End Totals.
