(* ===== verification/ProcessTreeSpec.v ===== *)
(** * The process tree: what it promises

    The walk of [ProcessTree.v] finds exactly the descendants of the root, the status line is
    read whatever the command's name is, and the totals are those of the processes seen, as
    long as no process goes missing and comes back. *)

From S2P Require Import Prelude Words Text Floats ProcessTree.
From stdpp Require Import sorting.
Open Scope Z_scope.

(** ** The tree *)
Module Tree.
Import Proc.

(** [b] is a child of [a] among the processes listed. *)
Definition child (all : gmap Z ProcessStat) (a b : Z) : Prop := ∃ s, all !! b = Some s ∧ ppid s = a.
Definition descends (all : gmap Z ProcessStat) (root p : Z) : Prop := rtc (child all) root p.

(** Every entry is the status of its own process. *)
Definition listed (entries : list (Z * option ProcessStat)) : Prop :=
  Forall (λ e, ∀ s, e.2 = Some s → pid s = e.1) entries.

Lemma collect_all_pid entries m :
  listed entries → (∀ p s, m !! p = Some s → pid s = p) →
  ∀ p s, foldl add_entry m entries !! p = Some s → pid s = p.
Proof.
  intros Hl. revert m. induction Hl as [|[q [s'|]] entries He _ IH]; intros m Hm; cbn; [done|apply IH|by apply IH].
  unfold add_entry; cbn. intros p s. destruct (decide (p = q)) as [->|].
  - rewrite lookup_insert_eq. intros [= <-]. by apply He.
  - rewrite lookup_insert_ne by done. apply Hm.
Qed.

Lemma children_spec vs m p :
  default [] (foldl add_child m vs !! p) = default [] (m !! p) ++ (pid <$> filter (λ s, ppid s = p) vs).
Proof.
  revert m. induction vs as [|v vs IH]; intros m; [cbn; by rewrite app_nil_r|].
  cbn [foldl]. rewrite IH, filter_cons. unfold add_child. case_decide as E.
  - rewrite E, lookup_insert_eq. cbn. by rewrite <- app_assoc.
  - by rewrite lookup_insert_ne.
Qed.

Section walk.
Context (all : gmap Z ProcessStat) (vs : list ProcessStat) (children : gmap Z (list Z)) (root : Z).
Context (Hpid : ∀ p s, all !! p = Some s → pid s = p).
Context (Hvs : ∀ s, s ∈ vs ↔ all !! pid s = Some s).
Context (Hch : ∀ p, default [] (children !! p) = pid <$> filter (λ s, ppid s = p) vs).

Lemma children_child p q : q ∈ default [] (children !! p) ↔ child all p q.
Proof.
  rewrite Hch, list_elem_of_fmap. unfold child. split.
  - intros (s & -> & [Hp Hs]%list_elem_of_filter). exists s. split; [by apply Hvs|done].
  - intros (s & Hs & Hp). pose proof (Hpid _ _ Hs) as E. exists s. split; [done|].
    apply list_elem_of_filter. split; [done|]. apply Hvs. by rewrite E.
Qed.

(** The processes whose parent has not been visited. *)
Definition waiting (seen : gset Z) : nat := length (filter (λ s, ppid s ∉ seen) vs).

Lemma waiting_visit seen p :
  p ∉ seen → (length (default [] (children !! p)) + waiting ({[p]} ∪ seen) = waiting seen)%nat.
Proof.
  intros Hp. rewrite Hch, length_fmap. unfold waiting. clear Hvs Hch. induction vs as [|v l IH]; [done|].
  rewrite !filter_cons. repeat case_decide; cbn; set_solver by lia.
Qed.

Lemma waiting_le seen p : (waiting ({[p]} ∪ seen) ≤ waiting seen)%nat.
Proof.
  unfold waiting. clear Hvs Hch. induction vs as [|v l IH]; [done|].
  rewrite !filter_cons. repeat case_decide; cbn; set_solver by lia.
Qed.

(** The root comes first, and everyone else after its parent. *)
Definition parents_first (l : list ProcessStat) : Prop :=
  ∀ i s, l !! i = Some s →
    (i = 0%nat ∧ pid s = root) ∨ ∃ j s', (j < i)%nat ∧ l !! j = Some s' ∧ pid s' = ppid s.

(** What waits is the root, or a child of what was found. *)
Definition announced (queue : list Z) (seen : gset Z) (result : list ProcessStat) : Prop :=
  (queue = [root] ∧ seen = ∅ ∧ result = []) ∨
  ∀ q, q ∈ queue → ∃ s', s' ∈ result ∧ child all (pid s') q.

Record walking (queue : list Z) (seen : gset Z) (result : list ProcessStat) : Prop := mkWalking {
  w_result : ∀ s, s ∈ result ↔ pid s ∈ seen ∧ all !! pid s = Some s;
  w_nodup : NoDup (pid <$> result);
  w_sound : ∀ p, p ∈ queue ∨ p ∈ seen → descends all root p;
  w_root : root ∈ queue ∨ root ∈ seen;
  w_closed : ∀ p q, p ∈ seen → is_Some (all !! p) → child all p q → q ∈ queue ∨ q ∈ seen;
  w_parents : parents_first result;
  w_announced : announced queue seen result
}.

Lemma walking_skip p queue seen result : p ∈ seen → walking (p :: queue) seen result → walking queue seen result.
Proof.
  intros Hp []. split; [done|done| | | |done|].
  - intros q Hq. apply w_sound0. set_solver.
  - set_solver.
  - intros a b Ha Hs Hc. destruct (w_closed0 a b Ha Hs Hc); set_solver.
  - destruct w_announced0 as [(_ & -> & _)|Ha]; [set_solver|]. right. intros q Hq. apply Ha. set_solver.
Qed.

Lemma walking_missing p queue seen result :
  all !! p = None → walking (p :: queue) seen result → walking queue ({[p]} ∪ seen) result.
Proof.
  intros Hp []. split; [|done| | | |done|].
  - intros s. rewrite w_result0. split; [set_solver|]. intros [[->%elem_of_singleton|?]%elem_of_union Hs]; [|done].
    by rewrite Hs in Hp.
  - intros q Hq. apply w_sound0. set_solver.
  - set_solver.
  - intros a b Ha Hs Hc. apply elem_of_union in Ha as [->%elem_of_singleton|Ha]; [by rewrite Hp in Hs; destruct Hs|].
    destruct (w_closed0 a b Ha Hs Hc); set_solver.
  - right. destruct w_announced0 as [([= -> ->] & _)|Ha]; [set_solver|]. intros q Hq. apply Ha. set_solver.
Qed.

Lemma visit_parents p s queue seen result :
  all !! p = Some s → announced (p :: queue) seen result → parents_first result → parents_first (result ++ [s]).
Proof.
  intros Hp Ha Hpar i s' [Hi|[Hi Hs']]%lookup_app_Some.
  - destruct (Hpar i s' Hi) as [?|(j & s0 & Hj & Hs0 & E)]; [by left|]. right. exists j, s0.
    split_and!; [done|by apply lookup_app_l_Some|done].
  - apply list_lookup_singleton_Some in Hs' as [Hi' <-]. destruct Ha as [([= -> _] & _ & ->)|Ha].
    + left. cbn in *. split; [lia|]. by apply Hpid.
    + right. destruct (Ha p) as (s0 & [j Hj]%list_elem_of_lookup & (s1 & Hs1 & E)); [set_solver|].
      exists j, s0. pose proof (lookup_lt_Some _ _ _ Hj). split_and!; [lia|by apply lookup_app_l_Some|congruence].
Qed.

Lemma visit_announced p s queue seen seen' result :
  all !! p = Some s → announced (p :: queue) seen result →
  announced (queue ++ default [] (children !! p)) seen' (result ++ [s]).
Proof.
  intros Hp Ha. right. intros q [Hq|Hq%children_child]%elem_of_app.
  - destruct Ha as [([= -> ->] & _)|Ha]; [set_solver|]. destruct (Ha q) as (s0 & Hs0 & Hc); [set_solver|].
    exists s0. split; [set_solver|done].
  - exists s. split; [set_solver|]. by rewrite (Hpid _ _ Hp).
Qed.

Lemma walking_visit p s queue seen result :
  p ∉ seen → all !! p = Some s → walking (p :: queue) seen result →
  walking (queue ++ default [] (children !! p)) ({[p]} ∪ seen) (result ++ [s]).
Proof.
  intros Hn Hp []. pose proof (Hpid _ _ Hp) as Ep. split.
  - intros s'. rewrite elem_of_app, w_result0, list_elem_of_singleton. split.
    + intros [[? ?]| ->]; [set_solver|]. rewrite Ep. set_solver.
    + intros [[Hs|Hs]%elem_of_union H]; [|by left]. right. apply elem_of_singleton in Hs. rewrite Hs in H. congruence.
  - rewrite fmap_app. apply NoDup_app. split; [done|]. split; [|apply NoDup_singleton].
    intros x (s' & -> & Hs')%list_elem_of_fmap. apply w_result0 in Hs' as [Hs' _]. cbn. rewrite Ep.
    intros E%list_elem_of_singleton. congruence.
  - intros q Hq. rewrite elem_of_app, children_child in Hq. destruct Hq as [[Hq|Hq]|Hq].
    + apply w_sound0. set_solver.
    + eapply rtc_r; [apply (w_sound0 p); set_solver|done].
    + apply w_sound0. set_solver.
  - set_solver.
  - intros a b Ha Hs Hc. rewrite elem_of_app, children_child.
    apply elem_of_union in Ha as [->%elem_of_singleton|Ha]; [by left; right|].
    destruct (w_closed0 a b Ha Hs Hc); set_solver.
  - by eapply visit_parents.
  - by eapply visit_announced.
Qed.

Lemma walk_spec fuel queue seen result :
  walking queue seen result → (length queue + waiting seen ≤ fuel)%nat →
  ∃ l seen', walk fuel all children queue seen result = Some l ∧ walking [] seen' l.
Proof.
  revert queue seen result. induction fuel as [|fuel IH]; intros [|p queue] seen result Hw Hf;
    [by exists result, seen|cbn in Hf; lia|by exists result, seen|]. cbn [walk].
  case_bool_decide as Hs.
  - apply IH; [by eapply walking_skip|cbn in Hf; lia].
  - destruct (all !! p) as [s|] eqn:E; cbn in Hf.
    + apply IH; [by apply walking_visit|]. rewrite length_app. pose proof (waiting_visit seen p Hs). lia.
    + apply IH; [by apply walking_missing|]. pose proof (waiting_le seen p). lia.
Qed.
End walk.

Lemma values_of_spec shuffle all :
  (∀ l, shuffle l ≡ₚ l) → (∀ p s, all !! p = Some s → pid s = p) →
  ∀ s, s ∈ values_of shuffle all ↔ all !! pid s = Some s.
Proof.
  intros Hsh Hpid s. unfold values_of. rewrite Hsh, list_elem_of_fmap. split.
  - intros ([p s'] & -> & H%elem_of_map_to_list). cbn. by rewrite (Hpid _ _ H).
  - intros H. exists (pid s, s). split; [done|]. by apply elem_of_map_to_list.
Qed.

(** C32: Whatever the order in which the listing and the hash maps give the processes, the
    walk ends, and it returns every process that descends from the root (the root itself
    when it is listed), each once, with its own status, and nothing else, the root first and
    every other process after its parent; an absent root gives the empty tree. *)
Theorem process_tree_exact shuffle root entries :
  (∀ l, shuffle l ≡ₚ l) → listed entries →
  ∃ l, process_tree shuffle root entries = Some l ∧ NoDup (pid <$> l) ∧ parents_first root l ∧
    ∀ s, s ∈ l ↔ collect_all entries !! pid s = Some s ∧ is_Some (collect_all entries !! root) ∧
                  descends (collect_all entries) root (pid s).
Proof.
  intros Hsh Hl. unfold process_tree. set (all := collect_all entries).
  assert (Hpid : ∀ p s, all !! p = Some s → pid s = p) by (apply (collect_all_pid entries ∅); done).
  destruct (all !! root) as [r|] eqn:E.
  2:{ exists []. split; [done|]. split; [apply NoDup_nil_2|]. split; [done|]. intros s.
      split; [by intros ?%elem_of_nil|]. by intros (_ & [? ?] & _). }
  pose proof (values_of_spec shuffle all Hsh Hpid) as Hvs.
  assert (Hch := λ p, children_spec (values_of shuffle all) ∅ p). setoid_rewrite lookup_empty in Hch. cbn in Hch.
  destruct (walk_spec all (values_of shuffle all) (foldl add_child ∅ (values_of shuffle all)) root Hpid Hvs Hch
    (S (length (values_of shuffle all))) [root] ∅ []) as (l & seen & El & Hw).
  - split; [set_solver|apply NoDup_nil_2| |set_solver|set_solver|done|by left].
    intros p [->%list_elem_of_singleton|?%not_elem_of_empty]; [apply rtc_refl|done].
  - apply le_n_S, length_filter.
  - exists l. split; [exact El|]. destruct Hw. split; [done|]. split; [done|]. intros s. rewrite w_result0.
    assert (Hc : ∀ p, descends all root p → is_Some (all !! p) ∧ p ∈ seen).
    { apply (rtc_ind_r (λ p, is_Some (all !! p) ∧ p ∈ seen)).
      - split; [by eexists|]. destruct w_root0 as [?%elem_of_nil|]; done.
      - intros a b _ Hab [Ha Hs]. split; [destruct Hab as (? & ? & _); by eexists|].
        destruct (w_closed0 a b Hs Ha Hab) as [?%elem_of_nil|]; done. }
    split.
    + intros [Hs Ha]. split; [done|]. split; [by eexists|]. apply w_sound0. by right.
    + intros (Ha & _ & Hd). split; [|done]. by apply Hc.
Qed.

(** A shell with a pipeline, beside an unrelated process. *)
Definition sample_stat (p parent : Z) : ProcessStat := mkStat p parent 83 [] 0 0 0 0 0 0.
Definition sample_entries : list (Z * option ProcessStat) :=
  [(30, Some (sample_stat 30 20)); (1, Some (sample_stat 1 0)); (20, Some (sample_stat 20 10)); (25, None);
   (10, Some (sample_stat 10 1)); (40, Some (sample_stat 40 25))].

Lemma process_tree_exact_witness :
  process_tree (@reverse ProcessStat) 10 sample_entries = Some [sample_stat 10 1; sample_stat 20 10; sample_stat 30 20] ∧
  ∃ l, process_tree (@reverse ProcessStat) 10 sample_entries = Some l ∧ NoDup (pid <$> l) ∧ parents_first 10 l.
Proof.
  split; [vm_compute; done|].
  destruct (process_tree_exact (@reverse ProcessStat) 10 sample_entries (reverse_Permutation)) as (l & El & Hn & Hpf & _).
  - repeat constructor; cbn; intros s [= <-]; done.
  - by exists l.
Defined.
End Tree.

(** ** The status line *)
Module Status.
Import Proc.

(** The line as the kernel writes it: the number, the command between parentheses, and the
    words of the rest. *)
Definition status_line (pid : Z) (command : list Z) (fields : list (list Z)) : list Z :=
  (show pid ++ [32; 40] ++ command) ++ 41 :: 32 :: Text.join fields ++ [10].

Lemma position_app_none {A} (p : A → bool) l k :
  Forall (λ x, p x = false) l → position p (l ++ k) = (λ i, length l + i)%nat <$> position p k.
Proof.
  induction 1 as [|x l Hx _ IH]; cbn; [by destruct (position p k)|]. rewrite Hx, IH. by destruct (position p k).
Qed.

Lemma rfind_split c l r : Forall (λ x, x ≠ c) r → rfind_char c (l ++ c :: r) = Some (length l).
Proof.
  intros Hr. unfold rfind_char. rewrite reverse_app, reverse_cons, <- app_assoc. rewrite position_app_none.
  - cbn [app position]. rewrite Z.eqb_refl. cbn. rewrite length_app, length_reverse. cbn. f_equal. lia.
  - apply Forall_reverse. eapply Forall_impl; [exact Hr|]. intros x Hx. by apply Z.eqb_neq.
Qed.

Lemma split_join_line ws : Forall is_word ws → split_whitespace (Text.join ws ++ [10]) = ws.
Proof.
  unfold split_whitespace. induction 1 as [|w ws [Hne Hw] Hws IH]; [done|]. destruct ws as [|w' ws].
  - cbn [Text.join]. rewrite split_words_word by done. cbn [split_words app]. change (is_whitespace 10) with true. cbn iota.
    unfold flush_word. by rewrite bool_decide_false.
  - change (Text.join (w :: w' :: ws)) with (w ++ 32 :: Text.join (w' :: ws)). rewrite <- app_assoc, split_words_word by done.
    cbn [app split_words]. change (is_whitespace 32) with true. cbn iota.
    unfold flush_word at 1. rewrite bool_decide_false by done. cbn [app]. by rewrite IH.
Qed.

Lemma join_free c ws : c ≠ 32 → Forall (Forall (λ x, x ≠ c)) ws → Forall (λ x, x ≠ c) (Text.join ws).
Proof.
  intros Hc. induction 1 as [|w ws Hw Hws IH]; [done|]. destruct ws as [|w' ws]; [done|].
  change (Text.join (w :: w' :: ws)) with (w ++ 32 :: Text.join (w' :: ws)). apply Forall_app. split; [done|].
  apply Forall_cons. split; [congruence|done].
Qed.

Lemma show_digits n c : c ∈ show n → 48 ≤ c ≤ 57 ∨ 97 ≤ c ≤ 102.
Proof.
  intros Hc. assert (H : Forall is_digit_char (show n)) by (apply digits_of_chars; lia || done).
  rewrite Forall_forall in H. apply H in Hc. unfold is_digit_char in Hc. lia.
Qed.

(** The fields that are read, where the kernel puts them. *)
Definition field_words (s : ProcessStat) (fields : list (list Z)) : Prop :=
  fields !! 0%nat = Some [state s] ∧ fields !! 1%nat = Some (show (ppid s)) ∧ fields !! 7%nat = Some (show (minor_faults s)) ∧
  fields !! 9%nat = Some (show (major_faults s)) ∧ fields !! 11%nat = Some (show (user_ticks s)) ∧
  fields !! 12%nat = Some (show (system_ticks s)) ∧ fields !! 19%nat = Some (show (start_ticks s)) ∧
  fields !! 21%nat = Some (show (rss_pages s)).

Definition in_range (s : ProcessStat) : Prop :=
  0 ≤ state s < 128 ∧ in_u32 (ppid s) ∧ in_u64 (minor_faults s) ∧ in_u64 (major_faults s) ∧ in_u64 (user_ticks s) ∧
  in_u64 (system_ticks s) ∧ in_u64 (start_ticks s) ∧ 0 ≤ rss_pages s < 2 ^ 63.

Lemma parse_u32_show n : in_u32 n → parse_u32 (show n) = Some n.
Proof.
  intros H. unfold parse_u32. rewrite parse_show by (unfold in_u32, in_u64, u32_max, u64_max in *; lia). cbn.
  unfold in_u32 in H. by rewrite (proj2 (Z.leb_le _ _)) by lia.
Qed.

Lemma parse_i64_show n : 0 ≤ n < 2 ^ 63 → parse_i64 (show n) = Some n.
Proof.
  intros H. assert (E : (v ← parse_u64 (show n); if v <? 2 ^ 63 then Some v else None) = Some n).
  { rewrite parse_show by (unfold in_u64, u64_max; lia). cbn. by rewrite (proj2 (Z.ltb_lt _ _)) by lia. }
  unfold parse_i64. destruct (show n) as [|c [|d w]] eqn:Es; [done|done|].
  assert (Hc : c ∈ show n) by (rewrite Es; set_solver). apply show_digits in Hc.
  replace (c =? 45) with false by lia. done.
Qed.

Lemma stat_fields_spec s fields :
  in_range s → field_words s fields → stat_fields (pid s) (command s) fields = Some s.
Proof.
  intros (R0 & R1 & R2 & R3 & R4 & R5 & R6 & R7) (F0 & F1 & F2 & F3 & F4 & F5 & F6 & F7).
  unfold stat_fields. rewrite F0, F1, F2, F3, F4, F5, F6, F7. cbn [mbind option_bind head].
  rewrite parse_u32_show, !parse_show, parse_i64_show by done. cbn [mbind option_bind].
  unfold first_byte. rewrite (proj2 (Z.ltb_lt _ _)) by lia. by destruct s.
Qed.

(** A status line is read back whatever the command is called, with parentheses, spaces
    or line ends in its name: the command is what stands between the first opening and the
    last closing parenthesis, every field comes from its place behind it, and no slice is
    out of range. *)
Theorem status_roundtrip s fields :
  in_range s → field_words s fields → Forall is_word fields → Forall (Forall (λ c, c ≠ 41)) fields →
  read_proc_stat (pid s) (Some (status_line (pid s) (command s) fields)) = Done (Some s).
Proof.
  intros Hr Hf Hw Hp. unfold read_proc_stat, status_line.
  set (pre := show (pid s) ++ [32; 40] ++ command s). set (rest := Text.join fields ++ [10]).
  assert (Ho : find_char 40 (pre ++ 41 :: 32 :: rest) = Some (S (length (show (pid s))))).
  { unfold find_char, pre. rewrite <- app_assoc, position_app_none.
    - cbn. f_equal. lia.
    - apply Forall_forall. intros c Hc%show_digits. lia. }
  assert (Hl : length pre = (S (S (length (show (pid s)))) + length (command s))%nat).
  { unfold pre. rewrite !length_app. cbn. lia. }
  rewrite Ho, rfind_split.
  2:{ apply Forall_cons. split; [done|]. apply Forall_app. split; [by apply join_free|by repeat constructor]. }
  unfold between. rewrite bool_decide_false by lia. cbn [mbind outcome_bind].
  unfold after_close.
  replace (drop (S (length pre)) (pre ++ 41 :: 32 :: rest)) with (32 :: rest).
  2:{ rewrite (drop_app_ge pre) by lia. replace (S (length pre) - length pre)%nat with 1%nat by lia. done. }
  change (32 <? 128) with true. cbn iota. cbn [mbind outcome_bind].
  unfold rest. rewrite split_join_line by done.
  replace (take _ _) with (command s).
  - by rewrite stat_fields_spec.
  - rewrite Hl. unfold pre. rewrite <- !app_assoc. rewrite (drop_app_ge (show (pid s))) by lia.
    replace (S (S (length (show (pid s)))) - length (show (pid s)))%nat with 2%nat by lia. cbn [app drop].
    replace (_ - _)%nat with (length (command s)) by lia. by rewrite drop_0, take_app_length.
Qed.

Definition sample_fields : list (list Z) :=
  split_whitespace (chars "R 7 1 1 0 0 0 13 0 14 0 11 12 0 0 0 0 0 0 900 0 15").

Lemma status_roundtrip_witness :
  let s := mkStat 4242 7 82 (chars "a) S (b") 900 11 12 13 14 15 in
  let line := chars "4242 (a) S (b) R 7 1 1 0 0 0 13 0 14 0 11 12 0 0 0 0 0 0 900 0 15" ++ [10] in
  line = status_line 4242 (chars "a) S (b") sample_fields ∧
  read_proc_stat (pid s) (Some (status_line (pid s) (command s) sample_fields)) = Done (Some s).
Proof.
  split; [vm_compute; done|]. apply status_roundtrip.
  - unfold in_range, in_u32, in_u64, u32_max, u64_max. cbn. lia.
  - unfold field_words. vm_compute. done.
  - apply (bool_decide_unpack _). vm_compute. done.
  - apply (bool_decide_unpack _). vm_compute. done.
Defined.
End Status.

(** ** The running totals *)
Module Sums.
Import Proc Totals.

(** The ten totals. *)
Definition fields : list (ProcessTotals → Z) :=
  [t_user; t_system; t_minor; t_major; λ t, read_bytes (t_io t); λ t, write_bytes (t_io t); λ t, read_calls (t_io t);
   λ t, write_calls (t_io t); λ t, voluntary (t_context t); λ t, involuntary (t_context t)].

Lemma add_delta_field f c a b : f ∈ fields → f (add_delta c a b) = fold_delta (f c) (f a) (f b).
Proof. unfold fields. intros H. repeat (apply elem_of_cons in H as [->|H]; [done|]). by apply elem_of_nil in H. Qed.

Lemma default_field f : f ∈ fields → f default_totals = 0.
Proof. unfold fields. intros H. repeat (apply elem_of_cons in H as [->|H]; [done|]). by apply elem_of_nil in H. Qed.

(** What is known of every process seen: where its counting starts, and its last reading. *)
Notation ledger := (gmap Key (ProcessTotals * ProcessTotals)).

Section spec.
Context (launched : bool).

Definition note (first : bool) (m : ledger) (r : Reading) : ledger :=
  <[key r := (match m !! key r with
              | Some (b, _) => b
              | None => if launched || negb first then default_totals else totals r
              end, totals r)]> m.
Fixpoint notes (first : bool) (m : ledger) (history : list (Z * list Reading)) : ledger :=
  match history with [] => m | (_, tree) :: history => notes false (foldl (note first) m tree) history end.

(** What the processes of a ledger spent while they were watched. *)
Definition spent (f : ProcessTotals → Z) (m : ledger) : Z :=
  foldr (λ e acc, f e.2.2 - f e.2.1 + acc) 0 (map_to_list m).

Lemma spent_perm (f : ProcessTotals → Z) l k : l ≡ₚ k →
  foldr (λ e acc, f e.2.2 - f e.2.1 + acc) 0 (l : list (Key * (ProcessTotals * ProcessTotals))) =
  foldr (λ e acc, f e.2.2 - f e.2.1 + acc) 0 k.
Proof. induction 1; cbn; lia. Qed.

Lemma spent_new (f : ProcessTotals → Z) (m : ledger) k b l : m !! k = None → spent f (<[k := (b, l)]> m) = spent f m + (f l - f b).
Proof. intros H. unfold spent. rewrite (spent_perm f _ _ (map_to_list_insert m k (b, l) H)). cbn. lia. Qed.

Lemma spent_old (f : ProcessTotals → Z) (m : ledger) k b l l' : m !! k = Some (b, l) → spent f (<[k := (b, l')]> m) = spent f m + (f l' - f l).
Proof.
  intros H. rewrite <- (insert_delete_id m k (b, l) H) at 2. rewrite <- (insert_delete_eq m k (b, l')).
  rewrite !spent_new by apply lookup_delete_eq. lia.
Qed.

(** Every process is read once a scan, its counters never fall, and a process that was seen
    and is seen again was seen in the scan before. *)
Fixpoint steady (f : ProcessTotals → Z) (first : bool) (m : ledger) (last : gset Key) (history : list (Z * list Reading)) : Prop :=
  match history with
  | [] => True
  | (_, tree) :: history =>
      NoDup (key <$> tree) ∧
      Forall (λ r, 0 ≤ f (totals r) ∧ ∀ b l, m !! key r = Some (b, l) → key r ∈ last ∧ f l ≤ f (totals r)) tree ∧
      steady f false (foldl (note first) m tree) (list_to_set (key <$> tree)) history
  end.

(** The state of the scan and the ledger. *)
Record tracks (f : ProcessTotals → Z) (first : bool) (m : ledger) (last : gset Key) (s : Scan) : Prop := mkTracks {
  k_sum : f (cumulative s) = Z.min (spent f m) u64_max;
  k_spent : 0 ≤ spent f m;
  k_first : initial_scan s = first;
  k_previous : ∀ k : Key, previous s !! k = if decide (k ∈ last) then snd <$> m !! k else None;
  k_last : ∀ k : Key, k ∈ last → is_Some (m !! k)
}.

Lemma fold_delta_min total after before a :
  total = Z.min a u64_max → before ≤ after → fold_delta total after before = Z.min (a + (after - before)) u64_max.
Proof. intros -> H. unfold fold_delta, saturating_add, saturating_sub. lia. Qed.

(** What a scan counts a second time: the last readings of the processes that were seen
    earlier but not in the scan before. *)
Definition again (f : ProcessTotals → Z) (m : ledger) (last : gset Key) (r : Reading) : Z :=
  match m !! key r with Some (_, l) => if decide (key r ∈ last) then 0 else f l | None => 0 end.
Definition recounted (f : ProcessTotals → Z) (m : ledger) (last : gset Key) (tree : list Reading) : Z :=
  foldr (λ r acc, again f m last r + acc) 0 tree.

(** In the middle of a pass, after the readings with the keys [past], [x] counted again. *)
Record during (f : ProcessTotals → Z) (m m' : ledger) (x : Z) (past : list Key) (p : Pass) : Prop := mkDuring {
  d_sum : f (p_cumulative p) = Z.min (spent f m' + x) u64_max;
  d_spent : 0 ≤ spent f m';
  d_current : ∀ k : Key, current p !! k = if decide (k ∈ past) then snd <$> m' !! k else None;
  d_done : ∀ k : Key, k ∈ past → is_Some (m' !! k);
  d_rest : ∀ k : Key, k ∉ past → m' !! k = m !! k
}.

Context (page_size : f64).

(** Every process is read once, and no counter has fallen. *)
Definition readable (f : ProcessTotals → Z) (m : ledger) (tree : list Reading) : Prop :=
  NoDup (key <$> tree) ∧ Forall (λ r, 0 ≤ f (totals r) ∧ ∀ b l, m !! key r = Some (b, l) → f l ≤ f (totals r)) tree.

Lemma visit_during (f : ProcessTotals → Z) m m' x last s t past p r first :
  f ∈ fields → tracks f first m last s → first = false ∨ m = ∅ → during f m m' x past p → key r ∉ past →
  0 ≤ f (totals r) → (∀ b l, m !! key r = Some (b, l) → f l ≤ f (totals r)) →
  during f m (note first m' r) (x + again f m last r) (key r :: past) (visit launched page_size s t p r).
Proof.
  intros Hf Hs Hfm [Hd1 Hd2 Hd3 Hd4 Hd5] Hn H0 Hm. set (k := key r) in *.
  assert (Hsum : f (p_cumulative (visit launched page_size s t p r)) =
                   Z.min (spent f (note first m' r) + (x + again f m last r)) u64_max ∧
                 0 ≤ spent f (note first m' r)).
  { unfold visit, note, baseline, again. cbn [p_cumulative]. fold k.
    rewrite (k_previous _ _ _ _ _ Hs), (k_first _ _ _ _ _ Hs), (Hd5 k Hn).
    destruct (m !! k) as [[b l]|] eqn:E.
    - specialize (Hm b l eq_refl). rewrite (spent_old f m' k b l) by (by rewrite Hd5).
      destruct Hfm as [->|Hfm]; [|by rewrite Hfm, lookup_empty in E].
      rewrite orb_true_r. split; [|lia]. case_decide; cbn; rewrite add_delta_field, ?default_field by done.
      + erewrite fold_delta_min; [|exact Hd1|done]. f_equal. lia.
      + erewrite fold_delta_min; [|exact Hd1|done]. f_equal. lia.
    - destruct (decide (k ∈ last)) as [Hl|_]; [destruct (k_last _ _ _ _ _ Hs k Hl) as [? ?]; congruence|].
      rewrite spent_new by (by rewrite Hd5). rewrite Z.add_0_r. destruct (launched || negb first).
      + rewrite add_delta_field, default_field by done. split; [|lia].
        erewrite fold_delta_min; [|exact Hd1|done]. f_equal. lia.
      + rewrite Z.sub_diag, Z.add_0_r. done. }
  destruct Hsum as [Hs1 Hs2]. split; [done|done| | |].
  - intros k'. unfold visit, note. cbn [current]. fold k. destruct (decide (k' = k)) as [->|Hne].
    + rewrite !lookup_insert_eq, decide_True by set_solver. done.
    + rewrite !lookup_insert_ne by done. rewrite Hd3. destruct (decide (k' ∈ past)), (decide (k' ∈ k :: past)); done || set_solver.
  - intros k'. unfold note. fold k. destruct (decide (k' = k)) as [->|Hne]; [rewrite lookup_insert_eq; by eexists|].
    rewrite lookup_insert_ne by done. intros [->|?]%elem_of_cons; [done|by apply Hd4].
  - intros k' [Hk' ?]%not_elem_of_cons. unfold note. fold k. rewrite lookup_insert_ne by done. by apply Hd5.
Qed.

Lemma pass_during (f : ProcessTotals → Z) first m m' x last s t past p tree :
  f ∈ fields → tracks f first m last s → first = false ∨ m = ∅ → during f m m' x past p →
  (∀ k : Key, k ∈ past → k ∉ key <$> tree) → readable f m tree →
  during f m (foldl (note first) m' tree) (x + recounted f m last tree) (reverse (key <$> tree) ++ past)
    (foldl (visit launched page_size s t) p tree).
Proof.
  intros Hf Hs Hfm. revert m' x past p. induction tree as [|r tree IH]; intros m' x past p Hd Hdis [Hn Hr].
  { cbn. by rewrite Z.add_0_r. }
  cbn [foldl fmap list_fmap recounted foldr]. apply Forall_cons in Hr as [[H0 Hm] Hr]. cbn in Hn. apply NoDup_cons in Hn as [Hn1 Hn2].
  rewrite reverse_cons, <- app_assoc, Z.add_assoc. cbn [app]. apply IH; [| |by split].
  - apply visit_during; [done..| |done|done]. intros Hin. apply (Hdis _ Hin). cbn. set_solver.
  - intros k [->|Hk]%elem_of_cons; [done|]. intros Hin. apply (Hdis _ Hk). cbn. set_solver.
Qed.

Lemma scan_during (f : ProcessTotals → Z) first m last s t tree :
  f ∈ fields → tracks f first m last s → first = false ∨ m = ∅ → readable f m tree →
  during f m (foldl (note first) m tree) (recounted f m last tree) (reverse (key <$> tree) ++ []) (pass launched page_size s t tree).
Proof.
  intros Hf Hs Hfm Hr. unfold pass. rewrite <- (Z.add_0_l (recounted _ _ _ _)). apply pass_during; [done..| |set_solver|done].
  split; cbn; [rewrite Z.add_0_r; apply Hs|apply Hs|intros k; by rewrite lookup_empty|set_solver|done].
Qed.

Lemma recounted_none f m last tree :
  Forall (λ r, 0 ≤ f (totals r) ∧ ∀ b l, m !! key r = Some (b, l) → key r ∈ last ∧ f l ≤ f (totals r)) tree →
  recounted f m last tree = 0.
Proof.
  induction 1 as [|r tree [_ Hr] _ IH]; [done|].
  change (recounted f m last (r :: tree)) with (again f m last r + recounted f m last tree). rewrite IH. unfold again.
  destruct (m !! key r) as [[b l]|]; [|done]. destruct (Hr b l eq_refl) as [Hl _]. by rewrite decide_True.
Qed.

Lemma scan_tracks (f : ProcessTotals → Z) first m last s t tree :
  f ∈ fields → tracks f first m last s → first = false ∨ m = ∅ → NoDup (key <$> tree) →
  Forall (λ r, 0 ≤ f (totals r) ∧ ∀ b l, m !! key r = Some (b, l) → key r ∈ last ∧ f l ≤ f (totals r)) tree →
  tracks f false (foldl (note first) m tree) (list_to_set (key <$> tree)) (scan launched page_size s t tree).
Proof.
  intros Hf Hs Hfm Hn Hr.
  assert (Hrd : readable f m tree).
  { split; [done|]. eapply Forall_impl; [exact Hr|]. intros r [H1 H2]. split; [done|]. intros b l Hl. by apply (H2 b l). }
  destruct (scan_during f first m last s t tree Hf Hs Hfm Hrd) as [H1 H2 H3 H4 _].
  rewrite (recounted_none f m last tree Hr), Z.add_0_r in H1. split; [done|done|done| |].
  - intros k. unfold scan. cbn [previous]. rewrite H3.
    destruct (decide (k ∈ reverse (key <$> tree) ++ [])) as [E|E]; [rewrite decide_True|rewrite decide_False]; set_solver.
  - intros k Hk. apply H4. set_solver.
Qed.

(** The keys of the last scan. *)
Definition last_keys (history : list (Z * list Reading)) (last0 : gset Key) : gset Key :=
  match last history with Some (_, tree) => list_to_set (key <$> tree) | None => last0 end.
Definition no_more (first : bool) (history : list (Z * list Reading)) : bool :=
  match history with [] => first | _ => false end.

Lemma scans_track (f : ProcessTotals → Z) first m last s history :
  f ∈ fields → tracks f first m last s → first = false ∨ m = ∅ → steady f first m last history →
  tracks f (no_more first history) (notes first m history) (last_keys history last) (scans launched page_size s history).
Proof.
  intros Hf. revert first m last s. induction history as [|[t tree] history IH]; intros first m last s Hs Hfm Hst.
  - apply Hs.
  - destruct Hst as (Hn & Hr & Hst). cbn [notes].
    pose proof (IH false _ _ _ (scan_tracks f first m last s t tree Hf Hs Hfm Hn Hr) (or_introl eq_refl) Hst) as H.
    unfold last_keys in *. destruct history as [|e history]; [exact H|]. rewrite last_cons_cons.
    destruct (list.last (e :: history)) as [[t' tree']|] eqn:E; [exact H|]. by apply last_None in E.
Qed.

Lemma tracks_start (f : ProcessTotals → Z) : f ∈ fields → tracks f true ∅ ∅ new_scan.
Proof.
  intros Hf. split; cbn.
  - rewrite default_field by done. unfold spent. rewrite map_to_list_empty. done.
  - unfold spent. rewrite map_to_list_empty. done.
  - done.
  - intros k. rewrite lookup_empty. by case_decide.
  - set_solver.
Qed.

(** C33: After any number of scans in which every process is read once, no counter falls and
    no process goes missing and comes back, each of the ten totals is the sum, over all the
    processes ever seen, of what the process spent while it was watched: its last reading
    less its start, which is zero, or its first reading when it was there at the first scan
    of a tree the profiler attached to; the sum stops at the largest 64-bit value. *)
Theorem totals_exact (f : ProcessTotals → Z) history :
  f ∈ fields → steady f true ∅ ∅ history →
  f (cumulative (scans launched page_size new_scan history)) = Z.min (spent f (notes true ∅ history)) u64_max.
Proof.
  intros Hf Hst. by apply (k_sum _ _ _ _ _ (scans_track f true ∅ ∅ new_scan history Hf (tracks_start f Hf) (or_intror eq_refl) Hst)).
Qed.

Lemma notes_snoc m first history t tree :
  notes first m (history ++ [(t, tree)]) = foldl (note (no_more first history)) (notes first m history) tree.
Proof.
  revert m first. induction history as [|[t' tree'] history IH]; intros m first; [done|]. cbn [app notes].
  rewrite IH. by destruct history.
Qed.

(** C39: A scan that misses a process (the list of processes cannot be read, or a parent exits
    while it is read) makes the next scan that finds it count it from zero.  After any scans
    as in C33, of a launched or an attached tree, one more scan gives each of the ten totals
    as the sum C33 promises plus, for every process it finds that was seen before but not in
    the scan just before, the whole last reading of that process a second time. *)
Theorem missed_scan_counts_again (f : ProcessTotals → Z) history t tree :
  f ∈ fields → steady f true ∅ ∅ history → readable f (notes true ∅ history) tree →
  f (cumulative (scans launched page_size new_scan (history ++ [(t, tree)]))) =
  Z.min (spent f (notes true ∅ (history ++ [(t, tree)])) +
         recounted f (notes true ∅ history) (last_keys history ∅) tree) u64_max.
Proof.
  intros Hf Hst Hr.
  pose proof (scans_track f true ∅ ∅ new_scan history Hf (tracks_start f Hf) (or_intror eq_refl) Hst) as Ht.
  unfold scans. rewrite foldl_app. cbn [foldl]. fold (scans launched page_size new_scan history).
  rewrite notes_snoc. refine (d_sum _ _ _ _ _ _ (scan_during f _ _ _ _ t tree Hf Ht _ Hr)).
  destruct history; [by right|by left].
Qed.
End spec.

Definition sample_reading (p ticks : Z) : Reading :=
  Totals.mkReading (mkStat p 1 83 [] 5 ticks 1 2 3 4) (mkIo 0 0 0 0) (mkContext 0 0) f64_zero.

(** Two processes of an attached tree, one of which ends, and a third that starts. *)
Definition sample_history : list (Z * list Reading) :=
  [(0, [sample_reading 10 100; sample_reading 11 50]); (1, [sample_reading 10 130; sample_reading 11 60]);
   (2, [sample_reading 12 7; sample_reading 10 150])].

Lemma totals_exact_witness :
  t_user (cumulative (scans false f64_one new_scan sample_history)) = 50 + 10 + 7.
Proof.
  assert (H := totals_exact false f64_one t_user sample_history).
  rewrite H.
  - vm_compute. done.
  - unfold fields. set_solver.
  - cbn. repeat split; try (repeat (apply NoDup_cons; split; [set_solver|]); apply NoDup_nil_2);
      repeat (apply Forall_cons; split; [split; [cbn; lia|]|]); try apply Forall_nil_2; vm_compute; intros ? ? ?; simplify_eq; done.
Defined.

(** The process 11 of the attached tree is missed once and read again at 80. *)
Definition gap_history : list (Z * list Reading) :=
  [(0, [sample_reading 10 100; sample_reading 11 50]); (1, [sample_reading 10 130; sample_reading 11 60]);
   (2, [sample_reading 10 150])].
Definition gap_tree : list Reading := [sample_reading 10 170; sample_reading 11 80].

Lemma missed_scan_counts_again_witness :
  t_user (cumulative (scans false f64_one new_scan (gap_history ++ [(3, gap_tree)]))) = (70 + 30) + 60.
Proof.
  rewrite (missed_scan_counts_again false f64_one t_user gap_history 3 gap_tree).
  - vm_compute. done.
  - unfold fields. set_solver.
  - cbn. repeat split; try (repeat (apply NoDup_cons; split; [set_solver|]); apply NoDup_nil_2);
      repeat (apply Forall_cons; split; [split; [cbn; lia|]|]); try apply Forall_nil_2; vm_compute; intros ? ? ?; simplify_eq; done.
  - split; [repeat (apply NoDup_cons; split; [set_solver|]); apply NoDup_nil_2|].
    repeat (apply Forall_cons; split; [split; [cbn; lia|]|]); try apply Forall_nil_2; vm_compute; intros ? ? ?; simplify_eq; done.
Defined.
End Sums.
