(* ===== verification/Dispatcher.v ===== *)
(** * The event dispatcher

    How a recording reaches its tables: the worker that batches what the sources send
    ([mperf/src/event_dispatcher.rs]) over segmented table files
    ([store/writer/src/writer.rs]).
    - [Module Segments]: a table as a sequence of files, and rows buffered in front of it;
    - [Module Events]: event types, their names, and counters ([mperf-data/src/event.rs],
      [mperf/src/utils.rs]);
    - [Module Allocations]: the allocation records, their stacks and the capture tables
      ([mperf/src/event_dispatcher/allocations.rs]);
    - [Module Dispatch]: messages, the worker, the interner it shares with the threads that
      send, and the tables it leaves.

    The columns of a table grow by whole rows, so a table is the list of its rows.  What the
    columnar library and the file system do is an answer per call ([Io]); the rows of a batch
    whose write failed are not counted as stored.  The hash of the store is a parameter. *)

From Stdlib Require Import String.
From S2P Require Import FunctionAnalysis Classify.
From S2P Require Import Prelude Words Text Floats Plan Collector Sendable Allocation Channel AllocationSource.
From stdpp Require Import sorting strings.
Open Scope Z_scope.

Module Segments.

(** The answers to the calls of one write: creating the file, writing and flushing the
    batch, closing the segment, and how many bytes the open file has. *)
Record Io := mkIo { create_ok : bool; write_ok : bool; flush_ok : bool; close_ok : bool; bytes_written : Z }.
Definition io_ok (bytes : Z) : Io := mkIo true true true true bytes.

Section segments.
Context {Row : Type}.

(** A segment is its batches, each with whether it was written. *)
Definition Segment : Type := list (list Row * bool).

(** [closed] are the segments closed so far, by sequence number. *)
Record SegmentWriter := mkWriter { max_bytes : Z; seq : nat; current : option Segment; closed : list (nat * Segment) }.

Definition DEFAULT_SEGMENT_BYTES : Z := 64 * 1024 * 1024.
Definition new : SegmentWriter := mkWriter DEFAULT_SEGMENT_BYTES 0 None [].
Definition with_segment_bytes (max_bytes : Z) (w : SegmentWriter) : SegmentWriter :=
  mkWriter max_bytes (seq w) (current w) (closed w).

(** The result is whether the call succeeded. *)
Definition roll (close_ok : bool) (w : SegmentWriter) : bool * SegmentWriter :=
  match current w with
  | Some s => if close_ok then (true, mkWriter (max_bytes w) (S (seq w)) None (closed w ++ [(seq w, s)]))
              else (false, mkWriter (max_bytes w) (seq w) None (closed w))
  | None => (true, w)
  end.

Definition append (batch : list Row) (ok : bool) (s : Segment) (w : SegmentWriter) : SegmentWriter :=
  mkWriter (max_bytes w) (seq w) (Some (s ++ [(batch, ok)])) (closed w).

Definition write (io : Io) (batch : list Row) (w : SegmentWriter) : bool * SegmentWriter :=
  if bool_decide (length batch = 0%nat) then (true, w)
  else
    match (match current w with Some s => Some s | None => if create_ok io then Some [] else None end) with
    | None => (false, w)
    | Some s =>
        if write_ok io && flush_ok io then
          let w := append batch true s w in
          if max_bytes w <=? bytes_written io then roll (close_ok io) w else (true, w)
        else (false, append batch false s w)
    end.

(** [finish] also returns the paths. *)
Definition finish (close_ok : bool) (w : SegmentWriter) : bool * SegmentWriter := roll close_ok w.

(** ** Buffered rows in front of a writer *)
Record Table := mkTable { rows : list Row; writer : SegmentWriter }.
Definition new_table : Table := mkTable [] new.

Definition push (r : Row) (t : Table) : Table := mkTable (rows t ++ [r]) (writer t).
(** [to_batch] takes the rows out before the write; a failure is only reported. *)
Definition flush (io : Io) (t : Table) : Table :=
  if bool_decide (length (rows t) = 0%nat) then t else mkTable [] (write io (rows t) (writer t)).2.
Definition close (close_ok : bool) (t : Table) : Table := mkTable (rows t) (finish close_ok (writer t)).2.
End segments.
Arguments SegmentWriter Row : clear implicits.
Arguments Table Row : clear implicits.
End Segments.

Module Events.
Import Plan.

Inductive EventType :=
| PmuCycles | PmuInstructions | PmuLlcReferences | PmuLlcMisses | PmuBranchInstructions | PmuBranchMisses
| PmuStalledCyclesFrontend | PmuStalledCyclesBackend | PmuCustom | OsCpuClock | OsCpuMigrations | OsPageFaults
| OsContextSwitches | OsTotalTime | OsUserTime | OsSystemTime | RooflineBytesLoad | RooflineBytesStore
| RooflineScalarIntOps | RooflineScalarFloatOps | RooflineScalarDoubleOps | RooflineVectorIntOps
| RooflineVectorFloatOps | RooflineVectorDoubleOps | RooflineLoopStart | RooflineLoopEnd.
#[export] Instance EventType_eq_dec : EqDecision EventType.
Proof. solve_decision. Defined.

Definition to_string (ty : EventType) : list Z :=
  chars match ty with
  | PmuCycles => "pmu_cycles" | PmuInstructions => "pmu_instructions" | PmuLlcReferences => "pmu_llc_references"
  | PmuLlcMisses => "pmu_llc_misses" | PmuBranchInstructions => "pmu_branch_instructions"
  | PmuBranchMisses => "pmu_branch_misses" | PmuStalledCyclesFrontend => "pmu_stalled_cycles_frontend"
  | PmuStalledCyclesBackend => "pmu_stalled_cycles_backend" | PmuCustom => "pmu_unknown" | OsCpuClock => "os_cpu_clock"
  | OsCpuMigrations => "os_cpu_migrations" | OsPageFaults => "os_page_faults" | OsContextSwitches => "os_context_switches"
  | OsTotalTime => "os_total_time" | OsUserTime => "os_user_time" | OsSystemTime => "os_system_time"
  | RooflineBytesLoad => "roofline_bytes_load" | RooflineBytesStore => "roofline_bytes_store"
  | RooflineScalarIntOps => "roofline_scalar_int_ops" | RooflineScalarFloatOps => "roofline_scalar_float_ops"
  | RooflineScalarDoubleOps => "roofline_scalar_double_ops" | RooflineVectorIntOps => "roofline_vector_int_ops"
  | RooflineVectorFloatOps => "roofline_vector_float_ops" | RooflineVectorDoubleOps => "roofline_vector_double_ops"
  | RooflineLoopStart => "roofline_loop_start" | RooflineLoopEnd => "roofline_loop_end"
  end%string.

Definition counter_to_event_ty (counter : Counter) : EventType :=
  match counter with
  | Cycles => PmuCycles
  | Instructions => PmuInstructions
  | LLCReferences => PmuLlcReferences
  | LLCMisses => PmuLlcMisses
  | BranchInstructions => PmuBranchInstructions
  | BranchMisses => PmuBranchMisses
  | StalledCyclesFrontend => PmuStalledCyclesFrontend
  | StalledCyclesBackend => PmuStalledCyclesBackend
  | CpuClock => OsCpuClock
  | PageFaults => OsPageFaults
  | CpuMigrations => OsCpuMigrations
  | ContextSwitches => OsContextSwitches
  | Custom _ | Internal _ _ _ => PmuCustom
  end.

Definition TYPES : list EventType :=
  [PmuCycles; PmuInstructions; PmuLlcReferences; PmuLlcMisses; PmuBranchInstructions; PmuBranchMisses;
   PmuStalledCyclesFrontend; PmuStalledCyclesBackend; PmuCustom; OsCpuClock; OsCpuMigrations; OsPageFaults;
   OsContextSwitches; OsTotalTime; OsUserTime; OsSystemTime; RooflineBytesLoad; RooflineBytesStore;
   RooflineScalarIntOps; RooflineScalarFloatOps; RooflineScalarDoubleOps; RooflineVectorIntOps;
   RooflineVectorFloatOps; RooflineVectorDoubleOps; RooflineLoopStart; RooflineLoopEnd].

(** [str::eq_ignore_ascii_case]. *)
Definition lower (c : Z) : Z := if (65 <=? c) && (c <=? 90) then c + 32 else c.
Definition event_type_from_name (name : list Z) : option EventType :=
  List.find (λ ty, bool_decide (lower <$> to_string ty = lower <$> name)) TYPES.

Record Location := mkLocation { function_name : Z; file_name : Z; line : Z }.
Inductive CallFrame := LocationFrame (l : Location) | IP (ip : Z).
(** [as_loc] is unreachable on an instruction pointer. *)
Definition as_loc (f : CallFrame) : outcome Location := match f with LocationFrame l => Done l | IP _ => Panicked end.
End Events.

(** The allocation records ([event_dispatcher/allocations.rs]). *)
Module Allocations.
Import AllocationSource Segments.

(** A row of [allocation_operations], from a record and the number of its stack. *)
Record OperationRow := mkOperation {
  or_pid : Z; or_process_epoch : Z; or_sequence : Z; or_timestamp_ns : Z; or_tid : Z; or_operation_id : Z; or_old_address : Z;
  or_address : Z; or_requested_bytes : Z; or_stack_status : Z; or_operation : Z; or_disposition : Z; or_stack_id : Z
}.
Definition operation_row (o : DomainAllocation * Z) : OperationRow :=
  let '(r, stack) := o in
  mkOperation (d_pid r) (d_process_epoch r) (d_sequence r) (d_timestamp_ns r) (d_tid r) (d_operation_id r) (d_old_address r)
    (d_address r) (d_requested_bytes r) (attribution_code (d_attribution r)) (Allocation.op_code (d_operation r))
    (Z.b2z (d_retires_old r)) stack.
Definition operations_batch (records : list (DomainAllocation * Z)) : list OperationRow := operation_row <$> records.

Record Writer := mkAllocations {
  operations : list (DomainAllocation * Z);
  failure : bool;
  stacks : gmap (Z * list Z) Z;
  coverages : list Coverage;
  writer : SegmentWriter OperationRow
}.

Definition new : Writer := mkAllocations [] false ∅ [] Segments.new.

(** A failed write is remembered; the records are dropped. *)
Definition flush (io : Io) (w : Writer) : Writer :=
  if bool_decide (length (operations w) = 0%nat) then w
  else
    let '(ok, segments) := write io (operations_batch (operations w)) (writer w) in
    mkAllocations [] (failure w || negb ok) (stacks w) (coverages w) segments.

Definition stack_key (r : DomainAllocation) : Z * list Z := (d_pid r, frames_of (d_attribution r)).

(** The number of a stack: 0 without frames, else the one it got first. *)
Definition stack_of (r : DomainAllocation) (stacks : gmap (Z * list Z) Z) : Z * gmap (Z * list Z) Z :=
  if bool_decide (length (frames_of (d_attribution r)) = 0%nat) then (0, stacks)
  else
    let next := Z.of_nat (size stacks) + 1 in
    match stacks !! stack_key r with
    | Some id => (id, stacks)
    | None => (next, <[stack_key r := next]> stacks)
    end.

Definition push (io : Io) (r : DomainAllocation) (w : Writer) : Writer :=
  let '(id, stacks) := stack_of r (stacks w) in
  let w := mkAllocations (operations w ++ [(r, id)]) (failure w) stacks (coverages w) (writer w) in
  if 8192 <=? Z.of_nat (length (operations w)) then flush io w else w.

Definition coverage (c : Coverage) (w : Writer) : Writer :=
  mkAllocations (operations w) (failure w) (stacks w) (coverages w ++ [c]) (writer w).

(** A row of [allocation_capture]. *)
Definition scope : list Z := chars "root_process_libc_interposable".
Definition capture_row (c : Coverage) : Coverage * list Z := (c, scope).

(** The rows of [allocation_stack_raw]: process, stack, frame and address; the order of the
    stacks is that of the hash table, here that of the finite map. *)
Definition frame_rows (e : (Z * list Z) * Z) : list (Z * Z * Z * Z) :=
  let '((pid, frames), stack) := e in imap (λ index pc, (pid, stack, Z.of_nat index, pc)) frames.
Definition stack_rows (m : gmap (Z * list Z) Z) : list (Z * Z * Z * Z) := concat (frame_rows <$> map_to_list m).

(** The answers to the calls of the end: the last batch and the close, the empty table, the
    capture table, the stack table. *)
Record EndIo := mkEndIo { e_batch : Io; e_empty : bool; e_capture : bool; e_stacks : bool }.

(** The files of the end; [empty_table] is the operations table written when there is no
    segment, [result] whether the call succeeded. *)
Record Files := mkFiles {
  segments : SegmentWriter OperationRow;
  empty_table : bool;
  capture_table : option (list (Coverage * list Z));
  stack_table : option (list (Z * Z * Z * Z));
  result : bool
}.

Definition finish (io : EndIo) (w : Writer) : Files :=
  let w := flush (e_batch io) w in
  let '(closed_ok, s) := Segments.finish (close_ok (e_batch io)) (writer w) in
  if negb closed_ok || failure w then mkFiles s false None None false
  else if bool_decide (length (coverages w) = 0%nat) then mkFiles s false None None true
  else
    let none := bool_decide (length (closed s) = 0%nat) in
    if none && negb (e_empty io) then mkFiles s false None None false
    else if negb (e_capture io) then mkFiles s none None None false
    else if negb (e_stacks io) then mkFiles s none (Some (capture_row <$> coverages w)) None false
    else mkFiles s none (Some (capture_row <$> coverages w)) (Some (stack_rows (stacks w))) true.
End Allocations.

Module Dispatch.
Import Plan Segments Events.

Record UserRegs := mkRegs { abi : Z; mask : Z; reg_values : list Z }.
Definition no_regs : UserRegs := mkRegs 0 0 [].

Record Sample := mkSample {
  event_id : Z; ip : Z; pid : Z; tid : Z; cpu : Z; time : Z; time_enabled : Z; time_running : Z; counter : Counter; value : Z;
  callstack : list Z; lbr_callstack : list Z; user_regs : option UserRegs; user_stack : list Z
}.
Record SampleRow := mkSampleRow {
  sr_timestamp : Z; sr_pid : Z; sr_tid : Z; sr_cpu : Z; sr_group_id : Z; sr_event_id : Z; sr_value : Z; sr_time_enabled : Z;
  sr_time_running : Z; sr_ip : Z; sr_callchain : list Z; sr_lbr_callchain : list Z; sr_regs : UserRegs; sr_user_stack : list Z
}.
Record MemSample := mkMemSample {
  ms_ip : Z; ms_pid : Z; ms_tid : Z; ms_cpu : Z; ms_time : Z; data_addr : Z; latency : Z; data_src : Z; ms_callstack : list Z;
  ms_lbr_callstack : list Z; ms_user_regs : option UserRegs; ms_user_stack : list Z
}.
Record MemSampleRow := mkMemRow {
  mr_timestamp : Z; mr_pid : Z; mr_tid : Z; mr_cpu : Z; mr_ip : Z; mr_data_addr : Z; mr_latency : Z; mr_data_src : Z;
  mr_callchain : list Z; mr_lbr_callchain : list Z; mr_regs : UserRegs; mr_user_stack : list Z
}.
Record Event := mkEvent {
  unique_id : Z; correlation_id : Z; parent_id : Z; ty : EventType; thread_id : Z; process_id : Z; ev_value : Z;
  timestamp : Z; ev_callstack : list CallFrame
}.
Record EventRow := mkEventRow {
  er_timestamp : Z; er_event_id : Z; er_instance : Z; er_parent_id : Z; er_flow_id : Z; er_kind : Z; er_pid : Z; er_tid : Z; er_value : Z
}.
(** [EventKind]. *)
Definition Begin : Z := 0.
Definition End_ : Z := 1.
Definition CounterKind : Z := 3.

Definition ProcMapEntry : Type := Z * list Z * Z * Z * Z.
Definition Metric : Type := list Z * list Z * f64.

(** [Resource] and [ProcessInfo] are only passed on. *)
Section dispatch.
Context {Resource ProcessInfo : Type} (xxh3 : list Z → Z).

Inductive Msg :=
| MsgEvent (e : Event)
| MsgSample (s : Sample)
| MsgAllocation (a : AllocationSource.DomainAllocation)
| MsgCoverage (c : AllocationSource.Coverage)
| MsgMemSample (s : MemSample)
| MsgModule (m : ProcMapEntry)
(** with whether a second has passed since the last flush *)
| MsgResource (r : Resource) (elapsed : bool)
| MsgProcess (p : ProcessInfo)
| MsgMetric (m : Metric).

Definition BATCH_ROWS : Z := 8192.
Definition BATCH_STACK_BYTES : Z := 1024 * 1024.
Definition RESOURCE_BATCH_ROWS : Z := 4096.

Record Worker := mkWorker {
  allocations : Allocations.Writer;
  interner : Collector.Interner;
  samples : Table SampleRow;
  mem_samples : Table MemSampleRow;
  events : Table EventRow;
  payloads : list Collector.Payload;
  payload_seen : gset Z;
  modules : gset ProcMapEntry;
  clock : list (list Z);
  resources : Table Resource;
  sample_bytes : Z;
  mem_sample_bytes : Z;
  processes : list ProcessInfo;
  metrics : list Metric
}.

Definition new_worker : Worker :=
  mkWorker Allocations.new (Collector.mkInterner ∅ []) new_table new_table new_table [] ∅ ∅ [chars "start"]
    (mkTable [] (with_segment_bytes (256 * 1024) new)) 0 0 [] [].

Definition set_samples (i : Collector.Interner) (t : Table SampleRow) (bytes : Z) (w : Worker) : Worker :=
  mkWorker (allocations w) i t (mem_samples w) (events w) (payloads w) (payload_seen w) (modules w) (clock w) (resources w) bytes
    (mem_sample_bytes w) (processes w) (metrics w).
Definition set_mem_samples (t : Table MemSampleRow) (bytes : Z) (w : Worker) : Worker :=
  mkWorker (allocations w) (interner w) (samples w) t (events w) (payloads w) (payload_seen w) (modules w) (clock w) (resources w)
    (sample_bytes w) bytes (processes w) (metrics w).
Definition set_events (t : Table EventRow) (w : Worker) : Worker :=
  mkWorker (allocations w) (interner w) (samples w) (mem_samples w) t (payloads w) (payload_seen w) (modules w) (clock w) (resources w)
    (sample_bytes w) (mem_sample_bytes w) (processes w) (metrics w).
Definition set_interner (i : Collector.Interner) (w : Worker) : Worker := set_samples i (samples w) (sample_bytes w) w.
Definition set_payloads (p : list Collector.Payload) (seen : gset Z) (w : Worker) : Worker :=
  mkWorker (allocations w) (interner w) (samples w) (mem_samples w) (events w) p seen (modules w) (clock w) (resources w)
    (sample_bytes w) (mem_sample_bytes w) (processes w) (metrics w).
Definition set_resources (t : Table Resource) (w : Worker) : Worker :=
  mkWorker (allocations w) (interner w) (samples w) (mem_samples w) (events w) (payloads w) (payload_seen w) (modules w) (clock w) t
    (sample_bytes w) (mem_sample_bytes w) (processes w) (metrics w).
Definition set_allocations (a : Allocations.Writer) (w : Worker) : Worker :=
  mkWorker a (interner w) (samples w) (mem_samples w) (events w) (payloads w) (payload_seen w) (modules w) (clock w) (resources w)
    (sample_bytes w) (mem_sample_bytes w) (processes w) (metrics w).
Definition set_lists (m : gset ProcMapEntry) (c : list (list Z)) (p : list ProcessInfo) (ms : list Metric) (w : Worker) : Worker :=
  mkWorker (allocations w) (interner w) (samples w) (mem_samples w) (events w) (payloads w) (payload_seen w) m c (resources w)
    (sample_bytes w) (mem_sample_bytes w) p ms.

(** ** Samples *)

(** The leaf, and the frames that are not it. *)
Definition callchain (ip : Z) (frames : list Z) : list Z := ip :: List.filter (λ x, negb (x =? ip)) frames.

Definition event_name (c : Counter) : list Z :=
  match c with Custom name => chars name | _ => to_string (counter_to_event_ty c) end.

Definition sample_row (s : Sample) (id : Z) : SampleRow :=
  mkSampleRow (as_i64 (time s)) (pid s) (tid s) (cpu s) (wrap64 (event_id s)) id (as_i64 (value s)) (time_enabled s) (time_running s)
    (ip s) (callchain (ip s) (callstack s)) (lbr_callstack s) (default no_regs (user_regs s)) (user_stack s).

Definition flush_samples (io : Io) (w : Worker) : Worker := set_samples (interner w) (flush io (samples w)) 0 w.

Definition consume_sample (io : Io) (s : Sample) (w : Worker) : Worker :=
  let '(id, i) := Collector.intern xxh3 (event_name (counter s)) (interner w) in
  let w := set_samples i (push (sample_row s id) (samples w)) (sample_bytes w + Z.of_nat (length (user_stack s))) w in
  if (BATCH_ROWS <=? Z.of_nat (length (rows (samples w)))) || (BATCH_STACK_BYTES <=? sample_bytes w) then flush_samples io w else w.

Definition mem_row (s : MemSample) : MemSampleRow :=
  mkMemRow (as_i64 (ms_time s)) (ms_pid s) (ms_tid s) (ms_cpu s) (ms_ip s) (data_addr s) (latency s) (data_src s)
    (callchain (ms_ip s) (ms_callstack s)) (ms_lbr_callstack s) (default no_regs (ms_user_regs s)) (ms_user_stack s).

Definition flush_mem_samples (io : Io) (w : Worker) : Worker := set_mem_samples (flush io (mem_samples w)) 0 w.

Definition consume_mem_sample (io : Io) (s : MemSample) (w : Worker) : Worker :=
  let w := set_mem_samples (push (mem_row s) (mem_samples w)) (mem_sample_bytes w + Z.of_nat (length (ms_user_stack s))) w in
  if (BATCH_ROWS <=? Z.of_nat (length (rows (mem_samples w)))) || (BATCH_STACK_BYTES <=? mem_sample_bytes w)
  then flush_mem_samples io w else w.

(** ** Events *)
Definition location_bytes (l : Location) : list Z :=
  le_bytes 8 (function_name l) ++ le_bytes 8 (file_name l) ++ le_bytes 4 (line l) ++ [0; 0; 0; 0].

Definition payload_id (location : option Location) (w : Worker) : Z * Worker :=
  match location with
  | None => (0, w)
  | Some l =>
      let id := xxh3 (location_bytes l) in
      (id, if decide (id ∈ payload_seen w) then w
           else set_payloads (payloads w ++ [Collector.mkPayload id (function_name l) (function_name l) (file_name l) (line l) 0])
                  ({[id]} ∪ payload_seen w) w)
  end.

Definition event_row (e : Event) (kind id : Z) : EventRow :=
  mkEventRow (as_i64 (timestamp e)) id (unique_id e) (parent_id e) (correlation_id e) kind (process_id e) (thread_id e) (as_i64 (ev_value e)).

(** The location of the first frame. *)
Definition first_location (e : Event) : outcome (option Location) :=
  match ev_callstack e with [] => Done None | f :: _ => l ← as_loc f; Done (Some l) end.

Definition event_identity (e : Event) (w : Worker) : outcome (Z * Z * Worker) :=
  match ty e with
  | RooflineLoopStart => l ← first_location e; let '(id, w) := payload_id l w in Done (Begin, id, w)
  | RooflineLoopEnd => Done (End_, 0, w)
  | t => let '(id, i) := Collector.intern xxh3 (to_string t) (interner w) in Done (CounterKind, id, set_interner i w)
  end.

Definition flush_events (io : Io) (w : Worker) : Worker := set_events (flush io (events w)) w.

Definition consume_trace (io : Io) (e : Event) (w : Worker) : outcome Worker :=
  '(kind, id, w) ← event_identity e w;
  let w := set_events (push (event_row e kind id) (events w)) w in
  Done (if BATCH_ROWS <=? Z.of_nat (length (rows (events w))) then flush_events io w else w).

(** ** Resources *)
Definition flush_resources (io : Io) (w : Worker) : Worker := set_resources (flush io (resources w)) w.
Definition consume_resource (io : Io) (r : Resource) (elapsed : bool) (w : Worker) : Worker :=
  let w := set_resources (push r (resources w)) w in
  if (RESOURCE_BATCH_ROWS <=? Z.of_nat (length (rows (resources w)))) || elapsed then flush_resources io w else w.

(** ** The loop *)
Definition consume (io : Io) (m : Msg) (w : Worker) : outcome Worker :=
  match m with
  | MsgEvent e => consume_trace io e w
  | MsgSample s => Done (consume_sample io s w)
  | MsgAllocation a => Done (set_allocations (Allocations.push io a (allocations w)) w)
  | MsgCoverage c => Done (set_allocations (Allocations.coverage c (allocations w)) w)
  | MsgMemSample s => Done (consume_mem_sample io s w)
  | MsgModule m => Done (set_lists ({[m]} ∪ modules w) (clock w) (processes w) (metrics w) w)
  | MsgResource r elapsed => Done (consume_resource io r elapsed w)
  | MsgProcess p => Done (set_lists (modules w) (clock w) (processes w ++ [p]) (metrics w) w)
  | MsgMetric m => Done (set_lists (modules w) (clock w) (processes w) (metrics w ++ [m]) w)
  end.

(** The worker receives a message, with the answers to its calls, or another thread interns a
    string through the shared interner ([string_id]).  A message interns at most one string, so
    every interleaving of the threads is a sequence of these. *)
Inductive Input := Received (m : Msg) (io : Io) | StringId (s : list Z).

Definition string_id (s : list Z) (w : Worker) : Z * Worker :=
  let '(id, i) := Collector.intern xxh3 s (interner w) in (id, set_interner i w).

Definition input (w : Worker) (i : Input) : outcome Worker :=
  match i with Received m io => consume io m w | StringId s => Done (string_id s w).2 end.

Definition run (inputs : list Input) (w : Worker) : outcome Worker := fold_outcome input inputs w.

(** ** The end *)

(** The groups of the metrics in order, each with its metrics. *)
Definition str_le (a b : list Z) : Prop := compare_str a b ≠ Gt.
#[export] Instance str_le_dec a b : Decision (str_le a b).
Proof. unfold str_le. destruct (compare_str a b); [left|left|right]; congruence. Defined.
Definition groups (ms : list Metric) : list (list Z) := FunctionAnalysis.dedup (merge_sort str_le ((λ m, m.1.1) <$> ms)).
Definition metric_batches (ms : list Metric) : list (list Z * list (list Z * f64)) :=
  (λ g, (g, (λ m, (m.1.2, m.2)) <$> List.filter (λ m, bool_decide (m.1.1 = g)) ms)) <$> groups ms.

(** The answers to the writes of the end, by table. *)
Record FinishIo := mkFinish {
  f_allocations : Allocations.EndIo; f_samples : Io; f_mem : Io; f_events : Io; f_resources : Io; f_payloads : bool; f_modules : bool; f_clock : bool;
  f_processes : bool; f_strings : bool; f_metrics : list Z → bool
}.

(** What the session directory holds; a table that was not written is empty.  The result of
    the worker is that of the allocation tables. *)
Record Session := mkSession {
  t_allocations : Allocations.Files;
  t_samples : SegmentWriter SampleRow;
  t_mem_samples : SegmentWriter MemSampleRow;
  t_events : SegmentWriter EventRow;
  t_resources : SegmentWriter Resource;
  t_payloads : list Collector.Payload;
  t_modules : gset ProcMapEntry;
  t_clock : list (list Z);
  t_processes : list ProcessInfo;
  t_strings : list (Z * list Z);
  t_metrics : list (list Z * list (list Z * f64))
}.

Definition end_table {Row} (io : Io) (t : Table Row) : SegmentWriter Row := writer (close (close_ok io) (flush io t)).

Definition finish (io : FinishIo) (w : Worker) : Session :=
  mkSession (Allocations.finish (f_allocations io) (allocations w))
    (end_table (f_samples io) (samples w)) (end_table (f_mem io) (mem_samples w)) (end_table (f_events io) (events w))
    (end_table (f_resources io) (resources w))
    (if f_payloads io then payloads w else [])
    (if f_modules io then modules w else ∅)
    (if f_clock io then clock w ++ [chars "end"] else [])
    (if f_processes io then processes w else [])
    (if f_strings io then Collector.i_rows (interner w) else [])
    (List.filter (λ b, f_metrics io b.1) (metric_batches (metrics w))).
End dispatch.
End Dispatch.
