(* ===== verification/DispatcherSpec.v ===== *)
(** * The event dispatcher: what it promises

    Every row that a source sends is stored in its table, once and in the order sent, however
    the rows were batched and the tables cut into segments; a failed call loses exactly its
    batch or its segment; identities are stored once; the capture table of the allocations
    only exists if every operation was stored; and what is held in memory is bounded.

    - [Module Stored]: what a segmented table holds;
    - [Module Fates]: which batches survive the calls that failed;
    - [Module Numbered]: the numbers of the allocation stacks;
    - [Module Operations]: the allocation tables;
    - [Module Delivered]: the worker. *)

From S2P Require Import FunctionAnalysis FunctionAnalysisSpec Classify ClassifySpec.
From S2P Require Import Prelude Words Text Floats Plan Collector Sendable Allocation Channel AllocationSource Dispatcher.
From stdpp Require Import sorting.
Open Scope Z_scope.

(** ** Segments *)
Module Stored.
Import Segments.

Section stored.
Context {Row : Type}.

(** The rows of a segment that were written. *)
Definition written (s : list (list Row * bool)) : list Row := concat (fst <$> filter (λ b : list Row * bool, b.2 = true) s).
(** The rows in closed segments, and with the open one. *)
Definition durable (w : SegmentWriter Row) : list Row := concat ((λ c, written c.2) <$> closed w).
Definition stored (w : SegmentWriter Row) : list Row := durable w ++ default [] (written <$> current w).
Definition content (t : Table Row) : list Row := stored (writer t) ++ rows t.

Definition all_ok (io : Io) : bool := create_ok io && write_ok io && flush_ok io && close_ok io.

Lemma written_app s batch ok : written (s ++ [(batch, ok)]) = written s ++ (if ok then batch else []).
Proof.
  unfold written. rewrite filter_app, fmap_app, concat_app. f_equal.
  destruct ok; [rewrite filter_cons_True by done|by rewrite filter_cons_False by done]. apply app_nil_r.
Qed.

Lemma durable_snoc w n s ms q : durable (mkWriter ms q None (closed w ++ [(n, s)])) = durable w ++ written s.
Proof. unfold durable. cbn. rewrite fmap_app, concat_app. cbn. by rewrite app_nil_r. Qed.

Lemma roll_stored ok (w : SegmentWriter Row) :
  stored (roll ok w).2 `sublist_of` stored w ∧ (ok = true → stored (roll ok w).2 = stored w).
Proof.
  unfold roll. destruct (current w) as [s|] eqn:E; [|done]. destruct ok; unfold stored at 1 3; cbn [current snd].
  - rewrite durable_snoc. cbn. rewrite app_nil_r. unfold stored. rewrite E. done.
  - cbn. rewrite app_nil_r. unfold stored. split; [|done]. apply sublist_inserts_r. done.
Qed.

Lemma roll_closed (w : SegmentWriter Row) : stored (roll true w).2 = durable (roll true w).2.
Proof. unfold roll. destruct (current w) eqn:E; unfold stored; cbn; [|rewrite E]; by rewrite app_nil_r. Qed.

Lemma append_stored batch ok s (w : SegmentWriter Row) :
  default [] (current w) = s → stored (append batch ok s w) = stored w ++ (if ok then batch else []).
Proof.
  intros Hs. unfold stored, append. cbn [current]. rewrite <- app_assoc. unfold durable at 1. cbn [closed]. f_equal. cbn.
  rewrite written_app. f_equal. subst s. by destruct (current w).
Qed.

Lemma write_stored io batch (w : SegmentWriter Row) :
  stored (write io batch w).2 `sublist_of` stored w ++ batch ∧
  (all_ok io = true → stored (write io batch w).2 = stored w ++ batch).
Proof.
  unfold write. case_bool_decide as Hb.
  { apply nil_length_inv in Hb. subst. rewrite app_nil_r. done. }
  set (opened := match current w with Some s => Some s | None => _ end).
  assert (Ho : ∀ s, opened = Some s → default [] (current w) = s).
  { unfold opened. destruct (current w) as [s'|]; [by intros s [= <-]|]. destruct (create_ok io); [by intros s [= <-]|done]. }
  destruct opened as [s|] eqn:Eo.
  2:{ cbn. split; [by apply sublist_inserts_r|]. intros Ha. exfalso. revert Eo. unfold opened, all_ok in *.
      destruct (current w); [done|]. by destruct (create_ok io). }
  specialize (Ho s eq_refl). destruct (write_ok io && flush_ok io) eqn:E.
  - pose proof (append_stored batch true s w Ho) as Ha. cbn zeta.
    destruct (max_bytes (append batch true s w) <=? bytes_written io).
    + destruct (roll_stored (close_ok io) (append batch true s w)) as [H1 H2]. rewrite Ha in H1, H2. split; [done|].
      intros Hk. apply H2. unfold all_ok in Hk. by destruct (create_ok io), (write_ok io), (flush_ok io), (close_ok io).
    + cbn [snd]. by rewrite Ha.
  - cbn [snd]. rewrite (append_stored batch false s w Ho), app_nil_r. split; [by apply sublist_inserts_r|].
    intros Hk. unfold all_ok in Hk. by destruct (create_ok io), (write_ok io), (flush_ok io).
Qed.

Lemma push_content r (t : Table Row) : content (push r t) = content t ++ [r].
Proof. unfold content, push. cbn. by rewrite app_assoc. Qed.

Lemma flush_content io (t : Table Row) :
  content (flush io t) `sublist_of` content t ∧ (all_ok io = true → content (flush io t) = content t).
Proof.
  unfold flush. case_bool_decide; [done|]. unfold content. cbn [rows writer]. rewrite app_nil_r. apply write_stored.
Qed.

Lemma flush_rows io (t : Table Row) : rows (flush io t) = [].
Proof. unfold flush. case_bool_decide as E; [by apply nil_length_inv|done]. Qed.

(** The end of a table. *)
Lemma end_content io (t : Table Row) :
  durable (Dispatch.end_table io t) `sublist_of` content t ∧
  (all_ok io = true → durable (Dispatch.end_table io t) = content t).
Proof.
  unfold Dispatch.end_table, close. cbn [writer]. destruct (flush_content io t) as [H1 H2].
  assert (Hc : content (flush io t) = stored (writer (flush io t))) by (unfold content; by rewrite flush_rows, app_nil_r).
  rewrite Hc in H1, H2. destruct (roll_stored (close_ok io) (writer (flush io t))) as [H3 H4]. unfold finish.
  assert (Hd : durable (roll (close_ok io) (writer (flush io t))).2 `sublist_of` stored (roll (close_ok io) (writer (flush io t))).2)
    by (unfold stored; by apply sublist_inserts_r). split; [by do 2 (etrans; [eassumption|])|].
  intros Ha. assert (Hk : close_ok io = true) by (unfold all_ok in Ha; by destruct (create_ok io), (write_ok io), (flush_ok io)).
  rewrite <- (H2 Ha), <- (H4 Hk), Hk. symmetry. apply roll_closed.
Qed.
End stored.
End Stored.

(** ** What failures lose *)
Module Fates.
Import Segments Stored.

Section fates.
Context {Row : Type} (max : Z).

(** One write of a batch, with the answers it got. *)
Record Attempt := mkAttempt { batch : list Row; answers : Io }.
Definition writes (a : Attempt) : bool := write_ok (answers a) && flush_ok (answers a).
(** The write that fills the file. *)
Definition cuts (a : Attempt) : bool := writes a && (max <=? bytes_written (answers a)).

(** A file that was created and not filled. *)
Definition opened (seg : list Attempt) : Prop :=
  match seg with [] => False | a :: _ => create_ok (answers a) = true end ∧ Forall (λ a, cuts a = false) seg.

(** The batches of a file, each with whether it can be read when the file was closed or not:
    if it was written and the file was closed. *)
Definition of_file (close : bool) (seg : list Attempt) : list (list Row * bool) := (λ a, (batch a, writes a && close)) <$> seg.

(** The batches of a run of writes up to a filled file, or of a write that could not create one. *)
Inductive closed_fates : list Attempt → list (list Row * bool) → Prop :=
| fates_nil : closed_fates [] []
| fates_refused l fs a :
    closed_fates l fs → create_ok (answers a) = false → closed_fates (l ++ [a]) (fs ++ [(batch a, false)])
| fates_filled l fs seg z :
    closed_fates l fs → create_ok (answers (hd z seg)) = true → Forall (λ a, cuts a = false) seg → cuts z = true →
    closed_fates (l ++ seg ++ [z]) (fs ++ of_file (close_ok (answers z)) (seg ++ [z])).

(** All writes of a recording; the last file, if one is open, is closed at the end. *)
Inductive fates (last : bool) : list Attempt → list (list Row * bool) → Prop :=
| fates_end l fs seg : closed_fates l fs → seg = [] ∨ opened seg → fates last (l ++ seg) (fs ++ of_file last seg).

Definition kept (fs : list (list Row * bool)) : list Row := written fs.

Lemma kept_app fs fs' : kept (fs ++ fs') = kept fs ++ kept fs'.
Proof. unfold kept, written. by rewrite filter_app, fmap_app, concat_app. Qed.

Lemma kept_lost seg : kept (of_file false seg) = [].
Proof. unfold kept, written, of_file. induction seg as [|a seg IH]; [done|]. cbn [fmap list_fmap]. rewrite andb_false_r, filter_cons_False; done. Qed.

Definition marked (seg : list Attempt) : list (list Row * bool) := (λ a, (batch a, writes a)) <$> seg.

Lemma kept_file seg : kept (of_file true seg) = written (marked seg).
Proof. unfold kept, of_file, marked. f_equal. apply list_fmap_ext. intros ? a _. by rewrite andb_true_r. Qed.

Lemma of_file_batches b seg : fst <$> of_file b seg = batch <$> seg.
Proof. unfold of_file. rewrite <- list_fmap_compose. by apply list_fmap_ext. Qed.

Lemma closed_batches l fs : closed_fates l fs → fst <$> fs = batch <$> l.
Proof. induction 1; [done|..]; rewrite !fmap_app, IHclosed_fates, ?of_file_batches, ?fmap_app; done. Qed.

Lemma fates_batches last l fs : fates last l fs → fst <$> fs = batch <$> l.
Proof. intros []. by rewrite !fmap_app, of_file_batches, (closed_batches l0 fs0). Qed.
End fates.

Section history.
Context {Row : Type}.

(** What a table went through: the writes so far, those of the open file last. *)
Definition history (t : Table Row) (ios : list Io) (sent : list Row) : Prop :=
  ∃ l fs seg, closed_fates (max_bytes (writer t)) l fs ∧ durable (writer t) = kept fs ∧
    (seg = [] ∨ opened (max_bytes (writer t)) seg) ∧
    current (writer t) = (if bool_decide (length seg = 0%nat) then None else Some (marked seg)) ∧
    concat (batch <$> l ++ seg) ++ rows t = sent ∧ answers <$> (l ++ seg) `sublist_of` ios.

Lemma history_push t ios sent r : history t ios sent → history (push r t) ios (sent ++ [r]).
Proof. intros (l & fs & seg & H1 & H2 & H3 & H4 & H5 & H6). exists l, fs, seg. cbn. by rewrite app_assoc, H5. Qed.

Lemma history_weaken t ios io sent : history t ios sent → history t (ios ++ [io]) sent.
Proof.
  intros (l & fs & seg & H1 & H2 & H3 & H4 & H5 & H6). exists l, fs, seg. do 5 (split; [done|]). by apply sublist_inserts_r.
Qed.

Lemma opened_app max seg (a : @Attempt Row) :
  seg = [] ∧ create_ok (answers a) = true ∨ opened max seg → cuts max a = false → opened max (seg ++ [a]).
Proof.
  intros [[-> Hc]|[Hh Hf]] Ha.
  - split; [done|]. by apply Forall_singleton.
  - split; [by destruct seg|]. apply Forall_app. split; [done|]. by apply Forall_singleton.
Qed.

(** A batch that found a file, or created one. *)
Lemma history_write (w : SegmentWriter Row) io rows l fs seg :
  let a := mkAttempt rows io in
  closed_fates (max_bytes w) l fs → durable w = kept fs →
  seg = [] ∧ create_ok io = true ∨ opened (max_bytes w) seg →
  ∀ w', w' = (if write_ok io && flush_ok io then
               let w := append rows true (marked seg) w in
               if max_bytes w <=? bytes_written io then roll (close_ok io) w else (true, w)
             else (false, append rows false (marked seg) w)).2 →
  max_bytes w' = max_bytes w ∧ ∃ l' fs' seg', closed_fates (max_bytes w) l' fs' ∧ durable w' = kept fs' ∧
    (seg' = [] ∨ opened (max_bytes w) seg') ∧
    current w' = (if bool_decide (length seg' = 0%nat) then None else Some (marked seg')) ∧ l' ++ seg' = l ++ seg ++ [a].
Proof.
  intros a Hc Hd Ho w' ->. cbn zeta.
  assert (Hm : ∀ ok, writes a = ok → marked seg ++ [(rows, ok)] = marked (seg ++ [a])) by (intros ok <-; unfold marked; by rewrite fmap_app).
  assert (Hne : bool_decide (length (seg ++ [a]) = 0%nat) = false) by (apply bool_decide_eq_false; rewrite length_app; cbn; lia).
  assert (Hhd : create_ok (answers (hd a seg)) = true) by (destruct Ho as [[-> ?]|[Hh _]]; [done|by destruct seg]).
  assert (Hseg : Forall (λ a, cuts (max_bytes w) a = false) seg) by (destruct Ho as [[-> _]|[_ ?]]; [constructor|done]).
  destruct (write_ok io && flush_ok io) eqn:Ew.
  - destruct (max_bytes w <=? bytes_written io) eqn:Ez; cbn [append max_bytes]; rewrite Ez.
    + assert (Hz : cuts (max_bytes w) a = true) by (unfold cuts, writes; cbn; by rewrite Ew, Ez).
      pose proof (fates_filled _ _ _ _ _ Hc Hhd Hseg Hz) as Hf. change (answers a) with io in Hf.
      unfold roll, append. cbn [current max_bytes seq closed]. destruct (close_ok io); cbn [snd max_bytes]; (split; [done|]);
        (eexists _, _, []; split; [exact Hf|]; split; [|split; [by left|split; [done|by rewrite app_nil_r]]]).
      * rewrite (durable_snoc w), (kept_app fs), (kept_file (seg ++ [a])), Hd, <- (Hm true) by done. done.
      * rewrite kept_app, kept_lost, app_nil_r. exact Hd.
    + cbn [snd append max_bytes]. split; [done|]. exists l, fs, (seg ++ [a]). split; [done|]. split; [exact Hd|]. rewrite Hne. cbn [current].
      rewrite <- (Hm true) by done. split; [|done]. right. apply opened_app; [done|]. unfold cuts. cbn. by rewrite Ez, andb_false_r.
  - cbn [snd append max_bytes]. split; [done|]. exists l, fs, (seg ++ [a]). split; [done|]. split; [exact Hd|]. rewrite Hne. cbn [current].
    rewrite <- (Hm false) by done. split; [|done]. right. apply opened_app; [done|]. unfold cuts, writes. cbn. by rewrite Ew.
Qed.

Lemma history_flush t ios io sent : history t ios sent → history (flush io t) (ios ++ [io]) sent.
Proof.
  intros H. pose proof (history_weaken t ios io sent H) as Hweak. unfold flush. case_bool_decide as Hr; [done|]. clear Hweak.
  destruct H as (l & fs & seg & H1 & H2 & H3 & H4 & H5 & H6). unfold write. rewrite bool_decide_false by done.
  set (a := mkAttempt (rows t) io).
  assert (Hsub : answers <$> (l ++ seg ++ [a]) `sublist_of` ios ++ [io]).
  { rewrite app_assoc, fmap_app. apply sublist_app; [done|]. done. }
  assert (Hsent : concat (batch <$> (l ++ seg ++ [a])) ++ [] = sent).
  { rewrite app_nil_r, app_assoc, fmap_app, concat_app. cbn. by rewrite app_nil_r. }
  assert (Hfile : ∀ w', seg = [] ∧ create_ok io = true ∨ opened (max_bytes (writer t)) seg →
    w' = (if write_ok io && flush_ok io then
            let w := append (rows t) true (marked seg) (writer t) in
            if max_bytes w <=? bytes_written io then roll (close_ok io) w else (true, w)
          else (false, append (rows t) false (marked seg) (writer t))).2 → history (mkTable [] w') (ios ++ [io]) sent).
  { intros w' Ho Hw. destruct (history_write (writer t) io (rows t) l fs seg H1 H2 Ho w' Hw) as (E & l' & fs' & seg' & K1 & K2 & K3 & K4 & K5).
    exists l', fs', seg'. cbn [writer rows]. rewrite E, K5. done. }
  destruct H3 as [-> |Ho].
  - rewrite H4, bool_decide_true by done. destruct (create_ok io) eqn:Ec; [apply Hfile; [by left|reflexivity]|].
    exists (l ++ [a]), (fs ++ [(rows t, false)]), []. cbn [writer rows snd]. split; [by apply fates_refused|].
    split; [rewrite kept_app; cbn; by rewrite app_nil_r|]. split; [by left|]. split; [done|].
    rewrite (app_nil_r (l ++ [a])). by split.
  - assert (Hne : bool_decide (length seg = 0%nat) = false) by (apply bool_decide_eq_false; destruct seg; [by destruct Ho|done]).
    rewrite H4, Hne. apply Hfile; [by right|reflexivity].
Qed.

(** What is left at the end, from the writes and their answers. *)
Definition survives (max : Z) (ios : list Io) (last : Io) (sent stored : list Row) : Prop :=
  ∃ l fs, fates max (close_ok last) l fs ∧ fst <$> fs = batch <$> l ∧ concat (batch <$> l) = sent ∧
    answers <$> l `sublist_of` ios ++ [last] ∧ stored = kept fs.

Lemma history_end t ios io sent :
  history t ios sent → survives (max_bytes (writer t)) ios io sent (durable (Dispatch.end_table io t)).
Proof.
  intros Hh. assert (Em : max_bytes (writer (flush io t)) = max_bytes (writer t)).
  { unfold flush, write, roll, append. repeat case_match; done. }
  pose proof (history_flush _ _ io _ Hh) as (l & fs & seg & H1 & H2 & H3 & H4 & H5 & H6).
  rewrite flush_rows, app_nil_r in H5. rewrite Em in *.
  exists (l ++ seg), (fs ++ of_file (close_ok io) seg). split; [by apply fates_end|].
  split; [rewrite !fmap_app, of_file_batches; f_equal; by eapply closed_batches|]. do 2 (split; [done|]).
  rewrite kept_app, <- H2. unfold Dispatch.end_table, close, finish, roll. cbn [writer]. rewrite H4.
  destruct seg as [|a seg']; [by rewrite app_nil_r|]. rewrite bool_decide_false by done.
  destruct (close_ok io); cbn [snd]; [by rewrite (durable_snoc (writer (flush io t))), kept_file|by rewrite kept_lost, app_nil_r].
Qed.

(** A table that takes a row, with or without writing the batch, or none. *)
Definition fed (io : Io) (t t' : Table Row) (new : list Row) : Prop :=
  (t' = t ∧ new = []) ∨ ∃ r (b : bool), new = [r] ∧ t' = if b then flush io (push r t) else push r t.

Lemma fed_history io t t' new ios sent : fed io t t' new → history t ios sent → history t' (ios ++ [io]) (sent ++ new).
Proof.
  intros [[-> ->]|(r & b & -> & ->)] H; [rewrite app_nil_r; by apply history_weaken|].
  apply (history_push _ _ _ r) in H. destruct b; [by apply history_flush|by apply history_weaken].
Qed.

Lemma fed_content io t t' new : fed io t t' new → all_ok io = true → content t' = content t ++ new.
Proof.
  intros [[-> ->]|(r & b & -> & ->)] Hio; [by rewrite app_nil_r|]. rewrite <- push_content. destruct b; [|done].
  by apply flush_content.
Qed.

Lemma new_history max : history (mkTable [] (with_segment_bytes max new)) [] [].
Proof. exists [], [], []. repeat split; try done; [constructor|by left]. Qed.
End history.
End Fates.

(** ** The stacks of the allocation records *)
Module Numbered.
Import AllocationSource Allocations.

(** The stacks in the order of their first record, and the number of a record's stack: its
    place in that order, from 1, or 0 without frames. *)
Definition add_key (ks : list (Z * list Z)) (r : DomainAllocation) : list (Z * list Z) :=
  if decide (frames_of (d_attribution r) = [] ∨ stack_key r ∈ ks) then ks else ks ++ [stack_key r].
Definition keys (rs : list DomainAllocation) : list (Z * list Z) := foldl add_key [] rs.
Definition number (ks : list (Z * list Z)) (r : DomainAllocation) : Z :=
  if decide (frames_of (d_attribution r) = []) then 0
  else match list_find (λ k, k = stack_key r) ks with Some (i, _) => Z.of_nat i + 1 | None => 0 end.
Definition operation_rows (rs : list DomainAllocation) : list OperationRow :=
  (λ r, operation_row (r, number (keys rs) r)) <$> rs.
Definition entries (ks : list (Z * list Z)) : list ((Z * list Z) * Z) := imap (λ i k, (k, Z.of_nat i + 1)) ks.
Definition stack_listing (rs : list DomainAllocation) : list (Z * Z * Z * Z) := concat (frame_rows <$> entries (keys rs)).

(** The table of the writer. *)
Definition numbered (m : gmap (Z * list Z) Z) (ks : list (Z * list Z)) : Prop := NoDup ks ∧ m = list_to_map (entries ks).

Lemma stack_entries_keys ks : (entries ks).*1 = ks.
Proof.
  unfold entries. induction ks as [|k ks IH] using rev_ind; [done|]. rewrite imap_app, fmap_app, IH. done.
Qed.

Lemma entries_snoc ks k : entries (ks ++ [k]) = entries ks ++ [(k, Z.of_nat (length ks) + 1)].
Proof. unfold entries. rewrite imap_app. cbn. by rewrite Nat.add_0_r. Qed.

Lemma numbered_size m ks : numbered m ks → size m = length ks.
Proof.
  intros [Hn ->]. rewrite <- length_map_to_list.
  rewrite (Permutation_length (map_to_list_to_map (M := gmap (Z * list Z)) (entries ks) ltac:(by rewrite stack_entries_keys))).
  unfold entries. by rewrite length_imap.
Qed.

Lemma numbered_lookup m ks k n : numbered m ks → m !! k = Some n ↔ ∃ i, ks !! i = Some k ∧ n = Z.of_nat i + 1.
Proof.
  intros [Hn ->]. rewrite <- elem_of_list_to_map by (by rewrite stack_entries_keys). unfold entries. rewrite elem_of_lookup_imap.
  split; [intros (i & k' & [= -> ->] & Hi); by exists i|intros (i & Hi & ->); by exists i, k].
Qed.

Lemma number_lookup ks r i : NoDup ks → frames_of (d_attribution r) ≠ [] → ks !! i = Some (stack_key r) → number ks r = Z.of_nat i + 1.
Proof.
  intros Hn Hf Hi. unfold number. rewrite decide_False by done.
  assert (E : list_find (λ k, k = stack_key r) ks = Some (i, stack_key r)); [|by rewrite E].
  apply list_find_Some. split_and!; [done|done|]. intros j y Hj Hlt ->. pose proof (NoDup_lookup _ _ _ _ Hn Hj Hi). lia.
Qed.

Lemma stack_of_numbered r m ks :
  numbered m ks → (stack_of r m).1 = number (add_key ks r) r ∧ numbered (stack_of r m).2 (add_key ks r).
Proof.
  intros Hm. unfold stack_of, add_key. case_bool_decide as Hf.
  { apply length_zero_iff_nil in Hf. rewrite decide_True by (by left). split; [|done]. unfold number. by rewrite decide_True. }
  assert (Hne : frames_of (d_attribution r) ≠ []) by (by intros E; rewrite E in Hf).
  destruct (m !! stack_key r) as [n|] eqn:E.
  - destruct (proj1 (numbered_lookup _ _ _ _ Hm) E) as (i & Hi & ->). rewrite decide_True by (right; by eapply list_elem_of_lookup_2).
    split; [|done]. symmetry. by apply number_lookup; [apply Hm|..].
  - assert (Hk : stack_key r ∉ ks).
    { intros [i Hi]%list_elem_of_lookup. assert (m !! stack_key r = Some (Z.of_nat i + 1)) by (apply (numbered_lookup _ _ _ _ Hm); by exists i).
      congruence. }
    rewrite decide_False by (by intros [?|?]). cbn [fst snd]. rewrite (numbered_size m ks Hm). destruct Hm as [Hn ->].
    assert (Hn' : NoDup (ks ++ [stack_key r])).
    { apply NoDup_app. split_and!; [done| |apply NoDup_singleton]. intros x Hx ->%list_elem_of_singleton. done. }
    split.
    + symmetry. apply number_lookup; [done|done|]. by apply list_lookup_middle.
    + split; [done|]. rewrite entries_snoc, list_to_map_snoc; [done|]. by rewrite stack_entries_keys.
Qed.

(** A new record leaves the numbers of the others. *)
Lemma keys_snoc rs r : keys (rs ++ [r]) = add_key (keys rs) r.
Proof. unfold keys. by rewrite foldl_app. Qed.

Lemma keys_has rs r : r ∈ rs → frames_of (d_attribution r) = [] ∨ stack_key r ∈ keys rs.
Proof.
  induction rs as [|r' rs IH] using rev_ind; [by intros ?%elem_of_nil|]. rewrite keys_snoc. unfold add_key.
  intros [H| ->%list_elem_of_singleton]%elem_of_app.
  - destruct (IH H) as [?|?]; [by left|right]. case_decide; [done|]. apply elem_of_app. by left.
  - case_decide; [done|]. right. apply elem_of_app. right. by apply list_elem_of_singleton.
Qed.

Lemma number_stable ks r r' : frames_of (d_attribution r) = [] ∨ stack_key r ∈ ks → number (add_key ks r') r = number ks r.
Proof.
  intros H. unfold number. case_decide as Hf; [done|]. destruct H as [?|Hin]; [done|]. unfold add_key. case_decide; [done|].
  destruct (list_find (λ k, k = stack_key r) ks) as [[i k]|] eqn:E.
  - by rewrite (list_find_app_l _ _ _ _ _ E).
  - apply list_find_None in E. rewrite Forall_forall in E. by destruct (E _ Hin).
Qed.

Lemma operation_rows_snoc rs r :
  operation_rows (rs ++ [r]) = operation_rows rs ++ [operation_row (r, number (keys (rs ++ [r])) r)].
Proof.
  unfold operation_rows. rewrite fmap_app. f_equal. apply list_fmap_ext. intros i r' Hi. f_equal. f_equal.
  rewrite keys_snoc. apply number_stable, keys_has. by eapply list_elem_of_lookup_2.
Qed.

Lemma stack_rows_numbered m rs : numbered m (keys rs) → stack_rows m ≡ₚ stack_listing rs.
Proof.
  intros [Hn ->]. unfold stack_rows, stack_listing.
  assert (H : map_to_list (list_to_map (entries (keys rs)) : gmap (Z * list Z) Z) ≡ₚ entries (keys rs))
    by (apply map_to_list_to_map; by rewrite stack_entries_keys).
  revert H. generalize (map_to_list (list_to_map (entries (keys rs)) : gmap (Z * list Z) Z)) (entries (keys rs)). intros l1 l2 H.
  induction H as [|x l k _ IH|x y l|k1 k2 k3 _ IH1 _ IH2]; cbn; [done|by f_equiv| |by etrans].
  rewrite !app_assoc. f_equiv. apply Permutation_app_comm.
Qed.
End Numbered.

(** ** The allocation tables *)
Module Operations.
Import AllocationSource Allocations Segments Stored Fates Numbered.

Definition operations_table (w : Writer) : Table OperationRow := mkTable (operations_batch (operations w)) (Allocations.writer w).

Lemma flush_table io w : operations_table (Allocations.flush io w) = Segments.flush io (operations_table w).
Proof.
  unfold Allocations.flush, Segments.flush, operations_table, operations_batch. cbn [rows Segments.writer]. rewrite length_fmap.
  case_bool_decide; [done|]. by destruct (write io _ _).
Qed.

Lemma push_table io r w :
  fed io (operations_table w) (operations_table (Allocations.push io r w)) [operation_row (r, (stack_of r (stacks w)).1)].
Proof.
  right. unfold Allocations.push. destruct (stack_of r (stacks w)) as [id m]. cbn zeta. set (w1 := mkAllocations _ _ _ _ _).
  exists (operation_row (r, id)), (8192 <=? Z.of_nat (length (operations w1))). split; [done|].
  assert (E : Segments.push (operation_row (r, id)) (operations_table w) = operations_table w1).
  { unfold operations_table, Segments.push, operations_batch. cbn. by rewrite fmap_app. }
  rewrite E. destruct (8192 <=? _); [apply flush_table|done].
Qed.

Lemma push_rest io r w :
  stacks (Allocations.push io r w) = (stack_of r (stacks w)).2 ∧ coverages (Allocations.push io r w) = coverages w.
Proof.
  unfold Allocations.push, Allocations.flush. destruct (stack_of r (stacks w)) as [id m]. cbn.
  repeat case_match; done.
Qed.

(** A write that succeeded stored its batch, a close that succeeded its file. *)
Lemma roll_true {Row} ok (w : SegmentWriter Row) : (roll ok w).1 = true → durable (roll ok w).2 = stored w.
Proof.
  unfold roll. destruct (current w) as [s|] eqn:E.
  - destruct ok; [|done]. intros _. cbn [snd]. rewrite (durable_snoc w). unfold stored. by rewrite E.
  - intros _. cbn. unfold stored. rewrite E. cbn. by rewrite app_nil_r.
Qed.

Lemma write_true {Row} io batch (w : SegmentWriter Row) :
  (write io batch w).1 = true → stored (write io batch w).2 = stored w ++ batch.
Proof.
  unfold write. case_bool_decide as Hb; [apply nil_length_inv in Hb; subst; by rewrite app_nil_r|].
  destruct (match current w with Some s => Some s | None => _ end) as [s|] eqn:Eo; [|done].
  assert (Hs : default [] (current w) = s).
  { destruct (current w) as [s'|]; [by injection Eo|]. destruct (create_ok io); [by injection Eo|done]. }
  destruct (write_ok io && flush_ok io); [|done]. cbn zeta. destruct (_ <=? _).
  - destruct (close_ok io); [|by unfold roll]. intros _. rewrite (proj2 (roll_stored true _) eq_refl). by apply append_stored.
  - intros _. cbn [snd]. by apply append_stored.
Qed.

Lemma write_all_ok {Row} io batch (w : SegmentWriter Row) : all_ok io = true → (write io batch w).1 = true.
Proof.
  unfold all_ok, write, roll, append. destruct (create_ok io), (write_ok io), (flush_ok io), (close_ok io); try done. intros _.
  case_bool_decide; [done|]. destruct (current w); cbn; by destruct (_ <=? _).
Qed.

Lemma flush_failure io w :
  failure (Allocations.flush io w) = false → failure w = false ∧ content (operations_table (Allocations.flush io w)) = content (operations_table w).
Proof.
  unfold Allocations.flush. case_bool_decide as Hl; [done|].
  pose proof (write_true io (operations_batch (operations w)) (Allocations.writer w)) as Hw.
  destruct (write io _ _) as [ok s]. cbn. intros [Hf Hok]%orb_false_iff. apply negb_false_iff in Hok. split; [done|].
  unfold content, operations_table. cbn [rows Segments.writer operations_batch Allocations.writer operations]. cbn in Hw.
  by rewrite (Hw Hok), app_nil_r.
Qed.

Lemma flush_all_ok io w : all_ok io = true → failure w = false → failure (Allocations.flush io w) = false.
Proof.
  intros Hio Hf. unfold Allocations.flush. case_bool_decide; [done|].
  pose proof (write_all_ok io (operations_batch (operations w)) (Allocations.writer w) Hio) as Hw.
  destruct (write io _ _) as [ok s]. cbn in *. by rewrite Hf, Hw.
Qed.

Lemma push_failure io r w :
  failure (Allocations.push io r w) = false → failure w = false ∧
  content (operations_table (Allocations.push io r w)) = content (operations_table w) ++ [operation_row (r, (stack_of r (stacks w)).1)].
Proof.
  unfold Allocations.push. destruct (stack_of r (stacks w)) as [id m]. cbn zeta. set (w1 := mkAllocations _ _ _ _ _).
  assert (E : content (operations_table w1) = content (operations_table w) ++ [operation_row (r, id)]).
  { unfold content, operations_table, operations_batch. cbn. by rewrite fmap_app, app_assoc. }
  destruct (8192 <=? _); [|done]. intros [Hf ->]%flush_failure. done.
Qed.

Lemma push_all_ok io r w : all_ok io = true → failure w = false → failure (Allocations.push io r w) = false.
Proof.
  intros Hio Hf. unfold Allocations.push. destruct (stack_of r (stacks w)) as [id m]. cbn zeta.
  destruct (8192 <=? _); [by apply flush_all_ok|done].
Qed.

Lemma push_bounded io r w : Z.of_nat (length (operations (Allocations.push io r w))) < 8192.
Proof.
  unfold Allocations.push. destruct (stack_of r (stacks w)) as [id m]. cbn zeta. destruct (8192 <=? _) eqn:E; [|by apply Z.leb_gt].
  unfold Allocations.flush. case_bool_decide as H; [by rewrite H|]. by destruct (write io _ _).
Qed.

(** *** The end *)
Lemma finish_segments io w : segments (Allocations.finish io w) = Dispatch.end_table (e_batch io) (operations_table w).
Proof.
  unfold Dispatch.end_table. rewrite <- flush_table. unfold close, Allocations.finish. cbn [Segments.writer operations_table].
  destruct (Segments.finish _ _) as [ok s]. repeat case_match; done.
Qed.

(** What is vouched for was stored. *)
Lemma finish_sound io w :
  result (Allocations.finish io w) = true ∨ is_Some (capture_table (Allocations.finish io w)) →
  failure w = false ∧ durable (segments (Allocations.finish io w)) = content (operations_table w).
Proof.
  unfold Allocations.finish. cbn zeta.
  pose proof (flush_failure (e_batch io) w) as Hff.
  pose proof (roll_true (close_ok (e_batch io)) (Allocations.writer (Allocations.flush (e_batch io) w))) as Hr.
  unfold Segments.finish. destruct (roll _ _) as [ok s]. cbn in Hr.
  destruct (negb ok || failure (Allocations.flush (e_batch io) w)) eqn:E; [cbn; intros [?|[? ?]]; done|].
  apply orb_false_iff in E as [Ho%negb_false_iff Hf]. destruct (Hff Hf) as [Hw Hc]. intros _. split; [done|].
  assert (Hd : durable s = content (operations_table w)).
  { rewrite (Hr Ho), <- Hc. rewrite flush_table. unfold content. rewrite flush_rows, app_nil_r, <- flush_table. done. }
  repeat case_match; done.
Qed.

Lemma finish_tables io w :
  (∀ rows, capture_table (Allocations.finish io w) = Some rows → rows = capture_row <$> coverages w) ∧
  (∀ rows, stack_table (Allocations.finish io w) = Some rows → rows = stack_rows (stacks w)).
Proof.
  assert (E : coverages (Allocations.flush (e_batch io) w) = coverages w ∧ stacks (Allocations.flush (e_batch io) w) = stacks w).
  { unfold Allocations.flush. case_bool_decide; [done|]. by destruct (write _ _ _). }
  destruct E as [E1 E2]. unfold Allocations.finish. cbn zeta. rewrite E1, E2. destruct (Segments.finish _ _) as [ok s].
  split; intros rows; repeat case_match; cbn; congruence.
Qed.

Definition end_ok (io : EndIo) : Prop := all_ok (e_batch io) = true ∧ e_empty io = true ∧ e_capture io = true ∧ e_stacks io = true.

Lemma finish_complete io w :
  end_ok io → failure w = false →
  let f := Allocations.finish io w in
  result f = true ∧ (coverages w = [] → capture_table f = None ∧ stack_table f = None) ∧
  (coverages w ≠ [] → capture_table f = Some (capture_row <$> coverages w) ∧ stack_table f = Some (stack_rows (stacks w))).
Proof.
  intros (H1 & H2 & H3 & H4) Hf. cbn zeta.
  assert (E : coverages (Allocations.flush (e_batch io) w) = coverages w ∧ stacks (Allocations.flush (e_batch io) w) = stacks w).
  { unfold Allocations.flush. case_bool_decide; [done|]. by destruct (write _ _ _). }
  destruct E as [E1 E2]. unfold Allocations.finish. cbn zeta. rewrite E1, E2, H2, H3, H4, (flush_all_ok _ _ H1 Hf).
  assert (Hc : close_ok (e_batch io) = true) by (unfold all_ok in H1; by destruct (create_ok _), (write_ok _), (flush_ok _)).
  rewrite Hc. unfold Segments.finish. assert (Hr : ∀ v : SegmentWriter OperationRow, (roll true v).1 = true) by (intros v; unfold roll; by destruct (current v)).
  specialize (Hr (Allocations.writer (Allocations.flush (e_batch io) w))). destruct (roll true _) as [ok s]. cbn in Hr. rewrite Hr. cbn [negb orb].
  destruct (coverages w) as [|c cs]; [rewrite bool_decide_true by done; done|]. rewrite bool_decide_false by done. rewrite andb_false_r. done.
Qed.
End Operations.

(** ** The worker *)
Module Delivered.
Import Plan Segments Events Dispatch Stored Fates Numbered Operations.

Section delivered.
Context {Resource ProcessInfo : Type} (xxh3 : list Z → Z).
Notation Msg := (@Msg Resource ProcessInfo).
Notation Worker := (@Worker Resource ProcessInfo).
Notation consume := (@consume Resource ProcessInfo xxh3).
Notation Input := (@Input Resource ProcessInfo).
Notation input := (@input Resource ProcessInfo xxh3).
Notation run := (@run Resource ProcessInfo xxh3).

(** *** What a message is to leave in each table *)
Definition identity_of (e : Event) : option (Z * Z) :=
  match ty e with
  | RooflineLoopStart =>
      match first_location e with
      | Done None => Some (Begin, 0)
      | Done (Some l) => Some (Begin, xxh3 (location_bytes l))
      | Panicked => None
      end
  | RooflineLoopEnd => Some (End_, 0)
  | t => Some (CounterKind, xxh3 (to_string t))
  end.

Definition sample_rows (m : Msg) : list SampleRow :=
  match m with MsgSample s => [sample_row s (xxh3 (event_name (counter s)))] | _ => [] end.
Definition mem_rows (m : Msg) : list MemSampleRow := match m with MsgMemSample s => [mem_row s] | _ => [] end.
Definition event_rows (m : Msg) : list EventRow :=
  match m with MsgEvent e => match identity_of e with Some (k, id) => [event_row e k id] | None => [] end | _ => [] end.
Definition resource_rows (m : Msg) : list Resource := match m with MsgResource r _ => [r] | _ => [] end.
Definition module_of (m : Msg) : option ProcMapEntry := match m with MsgModule e => Some e | _ => None end.
Definition process_of (m : Msg) : option ProcessInfo := match m with MsgProcess p => Some p | _ => None end.
Definition metric_of (m : Msg) : option Metric := match m with MsgMetric x => Some x | _ => None end.
Definition location_of (m : Msg) : option Location :=
  match m with
  | MsgEvent e => match ty e, first_location e with RooflineLoopStart, Done l => l | _, _ => None end
  | _ => None
  end.
Definition name_of (m : Msg) : option (list Z) :=
  match m with
  | MsgSample s => Some (event_name (counter s))
  | MsgEvent e => match ty e with RooflineLoopStart | RooflineLoopEnd => None | t => Some (to_string t) end
  | _ => None
  end.

Definition allocation_of (m : Msg) : option AllocationSource.DomainAllocation := match m with MsgAllocation a => Some a | _ => None end.
Definition coverage_of (m : Msg) : option AllocationSource.Coverage := match m with MsgCoverage c => Some c | _ => None end.

(** The messages received, the answers they got, and the strings interned by the worker and
    by the other threads. *)
Definition message (i : Input) : option Msg := match i with Received m _ => Some m | StringId _ => None end.
Definition answer (i : Input) : option Io := match i with Received _ io => Some io | StringId _ => None end.
Definition interned (i : Input) : option (list Z) := match i with Received m _ => name_of m | StringId s => Some s end.
Definition sent {Row} (emit : Msg → list Row) (past : list Input) : list Row := concat (emit <$> omap message past).

(** An event that begins a loop has a location as its first frame, if any. *)
Definition traced (m : Msg) : Prop :=
  match m with MsgEvent e => ty e = RooflineLoopStart → is_Some (match first_location e with Done _ => Some () | Panicked => None end)
             | _ => True end.

(** *** The identities of an event *)
Lemma event_identity_spec e (w w' : Worker) k id :
  event_identity xxh3 e w = Done (k, id, w') →
  identity_of e = Some (k, id) ∧ samples w' = samples w ∧ mem_samples w' = mem_samples w ∧ events w' = events w ∧
  resources w' = resources w ∧ modules w' = modules w ∧ processes w' = processes w ∧ metrics w' = metrics w ∧ clock w' = clock w ∧
  sample_bytes w' = sample_bytes w ∧ mem_sample_bytes w' = mem_sample_bytes w ∧ allocations w' = allocations w.
Proof.
  unfold event_identity, identity_of. destruct (ty e); try (intros [= <- <- <-]; repeat split; done).
  destruct (first_location e) as [[l|]|]; cbn; [| |done].
  - destruct (decide _); intros [= <- <- <-]; repeat split; done.
  - intros [= <- <- <-]. repeat split; done.
Qed.

(** *** The whole run, by the inputs so far *)
Lemma run_history (I : Worker → list Input → Prop) inputs w w' past :
  (∀ past i w w', input w i = Done w' → I w past → I w' (past ++ [i])) →
  run inputs w = Done w' → I w past → I w' (past ++ inputs).
Proof.
  intros Hstep. unfold Dispatch.run. revert w past. induction inputs as [|i inputs IH]; intros w past; cbn.
  - intros [= <-]. by rewrite app_nil_r.
  - destruct (input w i) as [w1|] eqn:E; [|done]. intros H Hi.
    pose proof (IH w1 _ H (Hstep past i w w1 E Hi)) as HI. by rewrite <- app_assoc in HI.
Qed.

(** What a message adds to a table. *)
Definition delivers {Row} (table : Worker → Table Row) (emit : Msg → list Row) : Prop :=
  (∀ io m w w', consume io m w = Done w' → fed io (table w) (table w') (emit m)) ∧
  ∀ i w, table (set_interner i w) = table w.

Lemma fed_same {Row} io (t t' : Table Row) : t' = t → fed io t t' [].
Proof. by left. Qed.

Lemma fed_pushed {Row} (t : Table Row) r io (b : bool) : fed io t (if b then flush io (push r t) else push r t) [r].
Proof. right. by exists r, b. Qed.

Lemma sent_step {Row} (emit : Msg → list Row) past i :
  sent emit (past ++ [i]) = sent emit past ++ match message i with Some m => emit m | None => [] end.
Proof. unfold sent. rewrite omap_app, fmap_app, concat_app. f_equal. cbn. destruct (message i); cbn; by rewrite ?app_nil_r. Qed.

Lemma omap_last {A B} (f : A → option B) l x : omap f (l ++ [x]) = omap f l ++ option_list (f x).
Proof. rewrite omap_app. cbn. by destruct (f x). Qed.

Lemma omap_message {B} (f : Msg → option B) past i :
  omap f (omap message (past ++ [i])) = omap f (omap message past) ++ match message i with Some m => option_list (f m) | None => [] end.
Proof. rewrite omap_app, omap_app. f_equal. cbn. destruct (message i) as [m|]; [|done]. cbn. by destruct (f m). Qed.

Section table.
Context {Row : Type} (table : Worker → Table Row) (emit : Msg → list Row) (Hd : delivers table emit).

Lemma input_history past i w w' :
  input w i = Done w' → history (table w) (omap answer past) (sent emit past) →
  history (table w') (omap answer (past ++ [i])) (sent emit (past ++ [i])).
Proof.
  rewrite sent_step, omap_last. destruct i as [m io|s]; cbn.
  - intros H. apply fed_history. by apply Hd.
  - intros [= <-]. rewrite !app_nil_r. by rewrite (proj2 Hd).
Qed.

Lemma input_content past i w w' :
  input w i = Done w' → (Forall (λ io, all_ok io = true) (omap answer past) → content (table w) = sent emit past) →
  Forall (λ io, all_ok io = true) (omap answer (past ++ [i])) → content (table w') = sent emit (past ++ [i]).
Proof.
  rewrite sent_step, omap_last, Forall_app. destruct i as [m io|s]; cbn.
  - intros H Hc [Hp [Hio _]%Forall_cons]. rewrite (fed_content io (table w) (table w') (emit m)); [by rewrite Hc|by apply Hd|done].
  - intros [= <-] Hc [Hp _]. rewrite app_nil_r, (proj2 Hd). auto.
Qed.

(** The table of a session from what a worker was sent. *)
Lemma table_survives inputs w io max :
  table new_worker = mkTable [] (with_segment_bytes max Segments.new) → run inputs new_worker = Done w →
  max_bytes (writer (table w)) = max → survives max (omap answer inputs) io (sent emit inputs) (durable (end_table io (table w))).
Proof.
  intros H0 Hr <-. apply history_end.
  apply (run_history (λ w past, history (table w) (omap answer past) (sent emit past)) inputs new_worker w []);
    [apply input_history|done|]. rewrite H0. apply new_history.
Qed.

Lemma table_complete inputs w io max :
  table new_worker = mkTable [] (with_segment_bytes max Segments.new) → run inputs new_worker = Done w →
  Forall (λ io, all_ok io = true) (omap answer inputs) → all_ok io = true → durable (end_table io (table w)) = sent emit inputs.
Proof.
  intros H0 Hr Hm Hio. rewrite (proj2 (end_content io (table w)) Hio).
  apply (run_history (λ w past, Forall (λ io, all_ok io = true) (omap answer past) → content (table w) = sent emit past)
    inputs new_worker w []); [apply input_content|done| |done]. by rewrite H0.
Qed.

Lemma table_max inputs w : run inputs new_worker = Done w → max_bytes (writer (table w)) = max_bytes (writer (table new_worker)).
Proof.
  intros Hr. apply (run_history (λ w _, max_bytes (writer (table w)) = max_bytes (writer (table new_worker))) inputs new_worker w []);
    [|done|done]. intros _ [m io|s] w1 w2 H <-; [|injection H as <-; by rewrite (proj2 Hd)].
  destruct (proj1 Hd io m w1 w2 H) as [[-> _]|(r & b & _ & ->)]; [done|]. destruct b; [|done].
  unfold flush, write, roll, append. repeat case_match; done.
Qed.
End table.

(** A choice pushed into a projection. *)
Lemma project_if {A B} (f : A → B) (b : bool) x y : f (if b then x else y) = if b then f x else f y.
Proof. by destruct b. Qed.

Lemma consume_trace_inv io e (w w' : Worker) :
  consume_trace xxh3 io e w = Done w' →
  ∃ k id w1 (b : bool), event_identity xxh3 e w = Done (k, id, w1) ∧
    b = (BATCH_ROWS <=? Z.of_nat (length (rows (push (event_row e k id) (events w1))))) ∧
    w' = if b then flush_events io (set_events (push (event_row e k id) (events w1)) w1)
         else set_events (push (event_row e k id) (events w1)) w1.
Proof.
  unfold consume_trace. destruct (event_identity xxh3 e w) as [[[k id] w1]|]; cbn; [|done].
  intros [= <-]. by eexists k, id, w1, _.
Qed.

(** The parts of the state that a message leaves alone. *)
Ltac consume_cases :=
  let io := fresh "io" in let m := fresh "m" in let w := fresh "w" in let w' := fresh "w'" in let H := fresh "H" in
  intros io m w w' H; destruct m as [e|s|a|c|s|x|r el|p|x]; cbn in H;
  [apply consume_trace_inv in H as (k & id & w1 & b & Hid & Hb & ->); pose proof (event_identity_spec _ _ _ _ _ Hid) as
     (Hi & Es & Em & Ee & Er & Emo & Ep & Eme & Ecl & Esb & Emb & Eal)
  |injection H as <-..].

Lemma samples_delivered : delivers samples sample_rows.
Proof.
  split; [|done]. consume_cases; try (apply fed_same; first [done | by destruct b]).
  - cbn [sample_rows]. unfold consume_sample, Collector.intern. cbv zeta. rewrite (project_if samples). apply fed_pushed.
  - apply fed_same. unfold consume_mem_sample. by rewrite (project_if samples); case_match.
  - apply fed_same. unfold consume_resource. by rewrite (project_if samples); case_match.
Qed.

Lemma mem_delivered : delivers mem_samples mem_rows.
Proof.
  split; [|done]. consume_cases; try (apply fed_same; first [done | by destruct b]).
  - apply fed_same. unfold consume_sample, Collector.intern. cbv zeta. by rewrite (project_if mem_samples); case_match.
  - cbn [mem_rows]. unfold consume_mem_sample. cbv zeta. rewrite (project_if mem_samples). apply fed_pushed.
  - apply fed_same. unfold consume_resource. by rewrite (project_if mem_samples); case_match.
Qed.

Lemma resources_delivered : delivers resources resource_rows.
Proof.
  split; [|done]. consume_cases; try (apply fed_same; first [done | by destruct b]).
  - apply fed_same. unfold consume_sample, Collector.intern. cbv zeta. by rewrite (project_if resources); case_match.
  - apply fed_same. unfold consume_mem_sample. by rewrite (project_if resources); case_match.
  - cbn [resource_rows]. unfold consume_resource. cbv zeta. rewrite (project_if resources). apply fed_pushed.
Qed.

Lemma events_delivered : delivers events event_rows.
Proof.
  split; [|done]. consume_cases; try (apply fed_same; done).
  - cbn [event_rows]. rewrite Hi, (project_if events), <- Ee. apply fed_pushed.
  - apply fed_same. unfold consume_sample, Collector.intern. cbv zeta. by rewrite (project_if events); case_match.
  - apply fed_same. unfold consume_mem_sample. by rewrite (project_if events); case_match.
  - apply fed_same. unfold consume_resource. by rewrite (project_if events); case_match.
Qed.

(** *** Lists, and identities stored once *)

(** Tables of identities: [rows] has one row for every identity of [seen], which are those of
    the things [past], and a row describes one of them. *)
Definition journal {T R : Type} (hash : T → Z) (row : T → R) (id : R → Z) (seen : gset Z) (rows : list R) (past : list T) : Prop :=
  (∀ i, i ∈ seen ↔ ∃ t, t ∈ past ∧ i = hash t) ∧ NoDup (id <$> rows) ∧ (∀ i, i ∈ id <$> rows ↔ i ∈ seen) ∧
  (∀ r, r ∈ rows → ∃ t, t ∈ past ∧ r = row t).

Lemma journal_add {T R : Type} (hash : T → Z) (row : T → R) (id : R → Z) seen rows past t :
  (∀ t, id (row t) = hash t) → journal hash row id seen rows past →
  journal hash row id (if decide (hash t ∈ seen) then seen else {[hash t]} ∪ seen)
    (if decide (hash t ∈ seen) then rows else rows ++ [row t]) (past ++ [t]).
Proof.
  intros Hid (H1 & H2 & H3 & H4). destruct (decide (hash t ∈ seen)) as [E|E].
  - split; [|split; [done|split; [done|]]].
    + intros i. rewrite H1. split; [intros (t' & ? & ?); exists t'; set_solver|].
      intros (t' & [Ht| ->%list_elem_of_singleton]%elem_of_app & ->); [by exists t'|by apply H1].
    + intros r Hr. destruct (H4 r Hr) as (t' & ? & ?). exists t'. set_solver.
  - split; [|split; [|split]].
    + intros i. rewrite elem_of_union, elem_of_singleton, H1. split.
      * intros [->|(t' & ? & ?)]; [exists t; set_solver|exists t'; set_solver].
      * intros (t' & [Ht| ->%list_elem_of_singleton]%elem_of_app & ->); [right; by exists t'|by left].
    + rewrite fmap_app. apply NoDup_app. split; [done|]. split; [|apply NoDup_singleton].
      intros i Hi. apply H3 in Hi. cbn. rewrite Hid. intros ->%list_elem_of_singleton. done.
    + intros i. rewrite fmap_app, elem_of_app, H3. cbn. rewrite Hid. set_solver.
    + intros r [Hr| ->%list_elem_of_singleton]%elem_of_app; [|exists t; set_solver].
      destruct (H4 r Hr) as (t' & ? & ?). exists t'. set_solver.
Qed.

Definition string_row (s : list Z) : Z * list Z := (xxh3 s, s).
Definition payload_row (l : Location) : Collector.Payload :=
  Collector.mkPayload (xxh3 (location_bytes l)) (function_name l) (function_name l) (file_name l) (line l) 0.

Definition strings_kept (w : Worker) (past : list (list Z)) : Prop :=
  journal xxh3 string_row fst (Collector.i_seen (interner w)) (Collector.i_rows (interner w)) past.
Definition payloads_kept (w : Worker) (past : list Location) : Prop :=
  journal (λ l, xxh3 (location_bytes l)) payload_row Collector.p_event_id (payload_seen w) (payloads w) past.

Lemma intern_kept i s past :
  journal xxh3 string_row fst (Collector.i_seen i) (Collector.i_rows i) past →
  let i' := (Collector.intern xxh3 s i).2 in
  journal xxh3 string_row fst (Collector.i_seen i') (Collector.i_rows i') (past ++ [s]).
Proof.
  intros H. pose proof (journal_add xxh3 string_row fst _ _ past s ltac:(done) H) as Hj.
  unfold Collector.intern. cbn. by destruct (decide _).
Qed.

Lemma event_strings e (w w' : Worker) k id past :
  event_identity xxh3 e w = Done (k, id, w') → strings_kept w past → strings_kept w' (past ++ option_list (name_of (MsgEvent e))).
Proof.
  intros H Hk. unfold event_identity in H. unfold name_of, strings_kept in *.
  destruct (ty e); try (injection H as <- <- <-; cbn [option_list]; apply (intern_kept (interner w) _ past Hk));
    cbn [option_list]; rewrite app_nil_r.
  - destruct (first_location e) as [[l|]|]; cbn in H; [|by injection H as <- <- <-|done].
    destruct (decide _); by injection H as <- <- <-.
  - by injection H as <- <- <-.
Qed.

Lemma event_payloads e (w w' : Worker) k id past :
  event_identity xxh3 e w = Done (k, id, w') → payloads_kept w past → payloads_kept w' (past ++ option_list (location_of (MsgEvent e))).
Proof.
  intros H Hk. unfold event_identity in H. unfold location_of, payloads_kept in *.
  destruct (ty e); try (injection H as <- <- <-; destruct (first_location e); cbn [option_list]; by rewrite app_nil_r).
  destruct (first_location e) as [[l|]|]; cbn in H; [| |done].
  - pose proof (journal_add _ _ _ _ _ past l ltac:(done) Hk) as Hj. cbn [option_list].
    destruct (decide _); by injection H as <- <- <-.
  - injection H as <- <- <-. cbn. by rewrite app_nil_r.
Qed.

Lemma strings_step io m (w w' : Worker) past :
  consume io m w = Done w' → strings_kept w past → strings_kept w' (past ++ option_list (name_of m)).
Proof.
  revert io m w w'. consume_cases; intros Hk; try (cbn [name_of option_list]; rewrite app_nil_r; done).
  - pose proof (event_strings _ _ _ _ _ _ Hid Hk). by destruct b.
  - pose proof (intern_kept (interner w) (event_name (counter s)) past Hk) as Hi.
    unfold consume_sample, strings_kept. rewrite (project_if interner). cbn. by destruct (_ || _).
  - cbn [name_of option_list]. rewrite app_nil_r. unfold consume_mem_sample, strings_kept. rewrite (project_if interner). by destruct (_ || _).
  - cbn [name_of option_list]. rewrite app_nil_r. unfold consume_resource, strings_kept. rewrite (project_if interner). by destruct (_ || _).
Qed.

Lemma payloads_step io m (w w' : Worker) past :
  consume io m w = Done w' → payloads_kept w past → payloads_kept w' (past ++ option_list (location_of m)).
Proof.
  revert io m w w'. consume_cases; intros Hk; try (cbn [location_of option_list]; rewrite app_nil_r; done).
  - pose proof (event_payloads _ _ _ _ _ _ Hid Hk). by destruct b.
  - cbn [location_of option_list]. rewrite app_nil_r. unfold consume_sample, Collector.intern, payloads_kept. cbv zeta. by destruct (_ || _).
  - cbn [location_of option_list]. rewrite app_nil_r. unfold consume_mem_sample, payloads_kept. cbv zeta. by destruct (_ || _).
  - cbn [location_of option_list]. rewrite app_nil_r. unfold consume_resource, payloads_kept. cbv zeta. by destruct (_ || _).
Qed.

(** Modules, processes and metrics. *)
Definition lists_kept (w : Worker) (past : list Msg) : Prop :=
  modules w = list_to_set (omap module_of past) ∧ processes w = omap process_of past ∧ metrics w = omap metric_of past ∧
  clock w = [chars "start"].

Lemma lists_step io m (w w' : Worker) past : consume io m w = Done w' → lists_kept w past → lists_kept w' (past ++ [m]).
Proof.
  revert io m w w'. consume_cases; intros (H1 & H2 & H3 & H4); unfold lists_kept; rewrite !omap_app; cbn [omap list_omap module_of process_of metric_of];
    rewrite ?app_nil_r.
  - rewrite (project_if modules), (project_if processes), (project_if metrics), (project_if clock).
    cbn. destruct b; rewrite Emo, Ep, Eme, Ecl; done.
  - unfold consume_sample, Collector.intern. cbv zeta. by destruct (_ || _).
  - done.
  - done.
  - unfold consume_mem_sample. cbv zeta. by destruct (_ || _).
  - cbn. rewrite H1, H2, H3, H4. split; [|done]. rewrite list_to_set_app_L. cbn. set_solver.
  - unfold consume_resource. cbv zeta. by destruct (_ || _).
  - cbn. rewrite H2. done.
  - cbn. rewrite H3. done.
Qed.

(** *** What is held in memory *)
Record bounded (w : Worker) : Prop := mkBounded {
  b_samples : Z.of_nat (length (rows (samples w))) < BATCH_ROWS;
  b_sample_bytes : sample_bytes w < BATCH_STACK_BYTES;
  b_mem : Z.of_nat (length (rows (mem_samples w))) < BATCH_ROWS;
  b_mem_bytes : mem_sample_bytes w < BATCH_STACK_BYTES;
  b_events : Z.of_nat (length (rows (events w))) < BATCH_ROWS;
  b_resources : Z.of_nat (length (rows (resources w))) < RESOURCE_BATCH_ROWS;
  b_allocations : Z.of_nat (length (Allocations.operations (allocations w))) < BATCH_ROWS
}.

Lemma flush_length {Row} io (t : Table Row) n : 0 < n → Z.of_nat (length (rows (flush io t))) < n.
Proof. rewrite flush_rows. done. Qed.

Lemma bounded_step io m (w w' : Worker) : consume io m w = Done w' → bounded w → bounded w'.
Proof.
  revert io m w w'. consume_cases; intros []; try (split; done).
  - destruct b; (split; cbn [samples mem_samples events resources sample_bytes mem_sample_bytes allocations set_events flush_events];
      rewrite ?Es, ?Esb, ?Em, ?Emb, ?Er, ?Eal; try done); [by apply flush_length|].
    symmetry in Hb. by apply Z.leb_gt in Hb.
  - unfold consume_sample, Collector.intern. cbv zeta. destruct (_ || _) eqn:E.
    + split; try done. by apply flush_length.
    + apply orb_false_iff in E as [E1%Z.leb_gt E2%Z.leb_gt]. split; done.
  - split; try done. apply push_bounded.
  - unfold consume_mem_sample. cbv zeta. destruct (_ || _) eqn:E.
    + split; try done. by apply flush_length.
    + apply orb_false_iff in E as [E1%Z.leb_gt E2%Z.leb_gt]. split; done.
  - unfold consume_resource. cbv zeta. destruct (_ || _) eqn:E.
    + split; try done. by apply flush_length.
    + apply orb_false_iff in E as [E1%Z.leb_gt E2]. split; done.
Qed.

(** *** No message stops the worker *)
Lemma traced_step io m (w : Worker) : traced m → ∃ w', consume io m w = Done w'.
Proof.
  destruct m as [e| | | | | | | |]; cbn; try (intros _; eexists; reflexivity).
  intros Ht. unfold consume_trace, event_identity. destruct (ty e); try (by eexists).
  destruct (Ht eq_refl) as [u Hu]. destruct (first_location e) as [l|]; [|done]. cbn.
  destruct (payload_id xxh3 l w) as [id w1]. by eexists.
Qed.

Lemma run_total inputs (w : Worker) :
  Forall traced (omap message inputs) → bounded w → ∃ w', run inputs w = Done w' ∧ bounded w'.
Proof.
  unfold Dispatch.run. revert w. induction inputs as [|i inputs IH]; intros w Ht Hb; cbn; [by exists w|].
  destruct i as [m io|s]; cbn in *.
  - apply Forall_cons in Ht as [Hm Ht]. destruct (traced_step io m w Hm) as [w1 E]. rewrite E. apply IH; [done|].
    by apply (bounded_step io m w).
  - apply IH; [done|]. by destruct Hb.
Qed.

(** *** Allocations *)
Lemma allocations_same io m (w w' : Worker) :
  consume io m w = Done w' → allocation_of m = None → coverage_of m = None → allocations w' = allocations w.
Proof.
  revert io m w w'. consume_cases; try done; intros _ _.
  - by destruct b.
  - unfold consume_sample, Collector.intern. cbv zeta. by rewrite (project_if allocations); case_match.
  - unfold consume_mem_sample. by rewrite (project_if allocations); case_match.
  - unfold consume_resource. by rewrite (project_if allocations); case_match.
Qed.

Definition allocs (past : list Input) : list AllocationSource.DomainAllocation := omap allocation_of (omap message past).
Definition covs (past : list Input) : list AllocationSource.Coverage := omap coverage_of (omap message past).

Record allocations_kept (w : Worker) (past : list Input) : Prop := mkKept {
  k_stacks : numbered (Allocations.stacks (allocations w)) (keys (allocs past));
  k_coverages : Allocations.coverages (allocations w) = covs past;
  k_history : history (operations_table (allocations w)) (omap answer past) (operation_rows (allocs past));
  k_failure : Allocations.failure (allocations w) = false → content (operations_table (allocations w)) = operation_rows (allocs past);
  k_fine : Forall (λ io, all_ok io = true) (omap answer past) → Allocations.failure (allocations w) = false
}.

(** An input that leaves the allocations alone, but for the answers seen. *)
Lemma allocations_idle (w w' : Worker) past i :
  allocations w' = allocations w → allocs (past ++ [i]) = allocs past → covs (past ++ [i]) = covs past →
  allocations_kept w past → allocations_kept w' (past ++ [i]).
Proof.
  intros E1 E2 E3 []. split; rewrite ?E1, ?E2, ?E3; try done.
  - rewrite omap_last. destruct (answer i); cbn; [by apply history_weaken|by rewrite app_nil_r].
  - rewrite omap_last, Forall_app. intros [? _]. auto.
Qed.

Lemma allocations_step past i (w w' : Worker) :
  input w i = Done w' → allocations_kept w past → allocations_kept w' (past ++ [i]).
Proof.
  intros H Hk. destruct i as [m io|s].
  2:{ injection H as <-. apply (allocations_idle w); [done|..|done]; unfold allocs, covs;
        rewrite omap_message; apply app_nil_r. }
  cbn in H. destruct (allocation_of m) as [a|] eqn:Ea; [|destruct (coverage_of m) as [c|] eqn:Ec].
  - destruct m; try done. injection Ea as ->. injection H as <-. destruct Hk as [H1 H2 H3 H4 H5].
    assert (Ep : allocs (past ++ [Received (MsgAllocation a) io]) = allocs past ++ [a])
      by (unfold allocs; by rewrite omap_message).
    assert (Eq : covs (past ++ [Received (MsgAllocation a) io]) = covs past)
      by (unfold covs; rewrite omap_message; apply app_nil_r).
    destruct (stack_of_numbered a _ _ H1) as [En Hn]. destruct (push_rest io a (allocations w)) as [Es Ecv].
    split; cbn [allocations set_allocations]; rewrite ?Ep, ?Eq.
    + by rewrite Es, keys_snoc.
    + by rewrite Ecv.
    + rewrite omap_last, operation_rows_snoc, keys_snoc, <- En. cbn [answer option_list].
      apply (fed_history io _ _ _ _ _ (push_table io a (allocations w))). done.
    + intros Hf. destruct (push_failure io a (allocations w) Hf) as [Hw ->]. by rewrite (H4 Hw), operation_rows_snoc, keys_snoc, En.
    + rewrite omap_last, Forall_app. intros [Hp [Hio _]%Forall_cons]. apply push_all_ok; auto.
  - destruct m; try done. injection Ec as ->. injection H as <-. destruct Hk as [H1 H2 H3 H4 H5].
    assert (Ep : allocs (past ++ [Received (MsgCoverage c) io]) = allocs past)
      by (unfold allocs; rewrite omap_message; apply app_nil_r).
    assert (Eq : covs (past ++ [Received (MsgCoverage c) io]) = covs past ++ [c])
      by (unfold covs; by rewrite omap_message).
    split; cbn [allocations set_allocations]; rewrite ?Ep, ?Eq; [done|cbn; by rewrite H2| |done|].
    + rewrite omap_last. cbn [answer option_list]. by apply history_weaken.
    + rewrite omap_last, Forall_app. intros [? _]. auto.
  - apply (allocations_idle w); [by eapply allocations_same|..|done]; unfold allocs, covs; rewrite omap_message; cbn [message];
      rewrite ?Ea, ?Ec; apply app_nil_r.
Qed.

Lemma allocations_max inputs w :
  run inputs new_worker = Done w → max_bytes (writer (operations_table (allocations w))) = DEFAULT_SEGMENT_BYTES.
Proof.
  intros Hr. apply (run_history (λ w _, max_bytes (writer (operations_table (allocations w))) = DEFAULT_SEGMENT_BYTES) inputs new_worker w []);
    [|done|done]. intros _ [m io|s] w1 w2 H <-; [|injection H as <-; done]. cbn in H.
  destruct (allocation_of m) as [a|] eqn:Ea; [|destruct (coverage_of m) as [c|] eqn:Ec].
  - destruct m; try done. injection Ea as ->. injection H as <-. cbn [allocations set_allocations].
    destruct (push_table io a (allocations w1)) as [[-> _]|(r & b & _ & ->)]; [done|]. destruct b; [|done].
    unfold flush, write, roll, append. repeat case_match; done.
  - destruct m; try done. by injection H as <-.
  - by rewrite (allocations_same io m w1 w2).
Qed.

Lemma allocations_end inputs w : run inputs new_worker = Done w → allocations_kept w inputs.
Proof.
  intros Hr. apply (run_history allocations_kept inputs new_worker w [] allocations_step Hr).
  split; try done; [split; [constructor|done]|]. apply (new_history DEFAULT_SEGMENT_BYTES).
Qed.

(** *** Metrics by group *)
#[export] Instance str_le_transitive : Transitive str_le.
Proof.
  intros a b c Hab Hbc. unfold str_le in *.
  destruct (compare_str a b) eqn:E1; [apply ClassifySpec.Search.compare_str_eq in E1; by subst| |done].
  destruct (compare_str b c) eqn:E2; [apply ClassifySpec.Search.compare_str_eq in E2; subst; by rewrite E1| |done].
  by rewrite (ClassifySpec.Search.compare_str_trans a b c).
Qed.
#[export] Instance str_le_total : Total str_le.
Proof. intros a b. unfold str_le. rewrite (ClassifySpec.Search.compare_str_anti a b). destruct (compare_str a b); [left|left|right]; done. Qed.
#[local] Instance str_le_antisymm : AntiSymm (=) str_le.
Proof.
  intros a b. unfold str_le. rewrite (ClassifySpec.Search.compare_str_anti a b). destruct (compare_str a b) eqn:E; try done.
  intros _ _. by apply ClassifySpec.Search.compare_str_eq.
Qed.

Definition grouped (ms : list Metric) (batches : list (list Z * list (list Z * f64))) : Prop :=
  StronglySorted str_le (fst <$> batches) ∧ NoDup (fst <$> batches) ∧
  (∀ g, g ∈ fst <$> batches ↔ g ∈ (λ m, m.1.1) <$> ms) ∧
  ∀ g rows, (g, rows) ∈ batches → rows = (λ m, (m.1.2, m.2)) <$> List.filter (λ m, bool_decide (m.1.1 = g)) ms.

Lemma metric_batches_spec ms : grouped ms (metric_batches ms).
Proof.
  unfold grouped, metric_batches. rewrite <- list_fmap_compose. unfold compose. cbn. rewrite list_fmap_id.
  assert (Hs := StronglySorted_merge_sort str_le ((λ m : Metric, m.1.1) <$> ms)).
  destruct (Functions.dedup_nodup str_le ltac:(intros x y; apply str_le_antisymm) _ Hs) as [Hn Hso]. split; [done|]. split; [done|]. split.
  - intros g. unfold groups. by rewrite Functions.elem_of_dedup, merge_sort_Permutation.
  - intros g rows (g' & [= -> ->] & _)%list_elem_of_fmap. done.
Qed.

(** *** The session *)
Lemma journal_empty {T R : Type} (hash : T → Z) (row : T → R) (id : R → Z) : journal hash row id ∅ [] [].
Proof.
  split; [|split; [constructor|split; set_solver]]. intros i. split; [set_solver|]. intros (t & ?%elem_of_nil & _). done.
Qed.

Lemma lists_end inputs w : run inputs new_worker = Done w → lists_kept w (omap message inputs).
Proof.
  intros Hr. apply (run_history (λ w past, lists_kept w (omap message past)) inputs new_worker w []); [|done|done].
  intros past [m io|s] w1 w2 H Hk; rewrite omap_last; cbn [message].
  - by apply (lists_step io m w1 w2).
  - injection H as <-. cbn. by rewrite app_nil_r.
Qed.

Lemma strings_end inputs w : run inputs new_worker = Done w → strings_kept w (omap interned inputs).
Proof.
  intros Hr. apply (run_history (λ w past, strings_kept w (omap interned past)) inputs new_worker w []); [|done|apply journal_empty].
  intros past [m io|s] w1 w2 H Hk; rewrite omap_last; cbn [interned].
  - by apply (strings_step io m w1 w2).
  - injection H as <-. apply (intern_kept (interner w1) s _ Hk).
Qed.

Lemma payloads_end inputs w : run inputs new_worker = Done w → payloads_kept w (omap location_of (omap message inputs)).
Proof.
  intros Hr. apply (run_history (λ w past, payloads_kept w (omap location_of (omap message past))) inputs new_worker w []);
    [|done|apply journal_empty].
  intros past [m io|s] w1 w2 H Hk; rewrite omap_message; cbn [message].
  - by apply (payloads_step io m w1 w2).
  - injection H as <-. by rewrite app_nil_r.
Qed.

Definition finish_ok (io : FinishIo) : Prop :=
  end_ok (f_allocations io) ∧
  all_ok (f_samples io) = true ∧ all_ok (f_mem io) = true ∧ all_ok (f_events io) = true ∧ all_ok (f_resources io) = true ∧
  f_payloads io = true ∧ f_modules io = true ∧ f_clock io = true ∧ f_processes io = true ∧ f_strings io = true ∧
  ∀ g, f_metrics io g = true.

(** The allocation tables of a complete session: the operations with the numbers of their
    stacks; and, if a source reported its coverage, the reports and the frames of every
    stack, in any order of the stacks. *)
Record allocations_stored (f : Allocations.Files) (rs : list AllocationSource.DomainAllocation) (cs : list AllocationSource.Coverage) : Prop := {
  as_operations : durable (Allocations.segments f) = operation_rows rs;
  as_result : Allocations.result f = true;
  as_none : cs = [] → Allocations.capture_table f = None ∧ Allocations.stack_table f = None;
  as_capture : cs ≠ [] → Allocations.capture_table f = Some (Allocations.capture_row <$> cs) ∧
    ∃ rows, Allocations.stack_table f = Some rows ∧ rows ≡ₚ stack_listing rs
}.

Lemma allocations_complete inputs w io :
  run inputs new_worker = Done w → Forall (λ io, all_ok io = true) (omap answer inputs) → end_ok io →
  allocations_stored (Allocations.finish io (allocations w)) (allocs inputs) (covs inputs).
Proof.
  intros Hr Hm Hio. destruct (allocations_end inputs w Hr) as [H1 H2 _ H4 H5]. specialize (H5 Hm).
  destruct (finish_complete io (allocations w) Hio H5) as (F1 & F2 & F3). rewrite H2 in F2, F3.
  split; [|done|done|].
  - rewrite finish_segments, <- (H4 H5). by apply end_content, Hio.
  - intros Hc. destruct (F3 Hc) as [F4 F5]. split; [done|]. eexists. split; [done|]. by apply stack_rows_numbered.
Qed.

(** C6: When no write fails, a recording whose loop events carry their location ends with
    exactly what the worker received: the sample, memory-sample, event and resource tables
    hold one row per message of their kind, in the order sent and across all segments; the
    allocation table holds one row per allocation record, in order, with the number of its
    stack (0 without frames, else the place of its process and frames in the order of their
    first records), and if a source reported its coverage, the capture table holds the
    reports in order and the stack table the frames of every numbered stack; the string
    table holds every string that a row uses or that another thread interned in between,
    once, and the payload table every location, once; modules, processes and metrics (by
    group, the groups in order) are those sent. *)
Theorem dispatcher_stores_all inputs io :
  Forall traced (omap message inputs) → Forall (λ io, all_ok io = true) (omap answer inputs) → finish_ok io →
  ∃ w, run inputs new_worker = Done w ∧
    let s := finish io w in
    durable (t_samples s) = sent sample_rows inputs ∧ durable (t_mem_samples s) = sent mem_rows inputs ∧
    durable (t_events s) = sent event_rows inputs ∧ durable (t_resources s) = sent resource_rows inputs ∧
    allocations_stored (t_allocations s) (allocs inputs) (covs inputs) ∧
    (∃ seen, journal xxh3 string_row fst seen (t_strings s) (omap interned inputs)) ∧
    (∃ seen, journal (λ l, xxh3 (location_bytes l)) payload_row Collector.p_event_id seen (t_payloads s)
       (omap location_of (omap message inputs))) ∧
    t_modules s = list_to_set (omap module_of (omap message inputs)) ∧ t_processes s = omap process_of (omap message inputs) ∧
    grouped (omap metric_of (omap message inputs)) (t_metrics s) ∧ t_clock s = [chars "start"; chars "end"].
Proof.
  intros Ht Hm (F0 & F1 & F2 & F3 & F4 & F5 & F6 & F7 & F8 & F9 & F10).
  destruct (run_total inputs new_worker Ht ltac:(done)) as (w & Hr & _). exists w. split; [done|].
  destruct (lists_end inputs w Hr) as (L1 & L2 & L3 & L4). unfold finish.
  cbn [t_allocations t_samples t_mem_samples t_events t_resources t_strings t_payloads t_modules t_processes t_metrics t_clock].
  rewrite F5, F6, F7, F8, F9, L1, L2, L3, L4.
  split; [by apply (table_complete samples sample_rows samples_delivered _ _ _ DEFAULT_SEGMENT_BYTES)|].
  split; [by apply (table_complete mem_samples mem_rows mem_delivered _ _ _ DEFAULT_SEGMENT_BYTES)|].
  split; [by apply (table_complete events event_rows events_delivered _ _ _ DEFAULT_SEGMENT_BYTES)|].
  split; [by apply (table_complete resources resource_rows resources_delivered _ _ _ (256 * 1024))|].
  split; [by apply allocations_complete|].
  split; [eexists; by apply strings_end|]. split; [eexists; by apply payloads_end|].
  split; [done|]. split; [done|]. split; [|done].
  rewrite filter_all by (intros [g rs] _; apply F10). apply metric_batches_spec.
Qed.

(** C31: Whatever calls fail, the worker never stops on a message and holds fewer than 8192
    rows and less than a megabyte of stacks of each kind (4096 resource rows) between
    messages.  The rows of each table, in the order sent, are cut into the batches that were
    written, and a batch is missing at the end exactly when no file could be created for it,
    when its own write or flush failed, or when closing the file it was written to failed;
    all other batches are there, in order.  The allocation tables are reported as written,
    and the capture table exists, only if every allocation row was stored. *)
Theorem dispatcher_loses_only inputs io :
  Forall traced (omap message inputs) →
  ∃ w, run inputs new_worker = Done w ∧ bounded w ∧
    let s := finish io w in let ios := omap answer inputs in let f := t_allocations s in
    survives DEFAULT_SEGMENT_BYTES ios (f_samples io) (sent sample_rows inputs) (durable (t_samples s)) ∧
    survives DEFAULT_SEGMENT_BYTES ios (f_mem io) (sent mem_rows inputs) (durable (t_mem_samples s)) ∧
    survives DEFAULT_SEGMENT_BYTES ios (f_events io) (sent event_rows inputs) (durable (t_events s)) ∧
    survives (256 * 1024) ios (f_resources io) (sent resource_rows inputs) (durable (t_resources s)) ∧
    survives DEFAULT_SEGMENT_BYTES ios (Allocations.e_batch (f_allocations io)) (operation_rows (allocs inputs))
      (durable (Allocations.segments f)) ∧
    (Allocations.result f = true ∨ is_Some (Allocations.capture_table f) →
     durable (Allocations.segments f) = operation_rows (allocs inputs)) ∧
    (∀ rows, Allocations.capture_table f = Some rows → rows = Allocations.capture_row <$> covs inputs).
Proof.
  intros Ht. destruct (run_total inputs new_worker Ht ltac:(done)) as (w & Hr & Hb). exists w. split; [done|]. split; [done|].
  destruct (allocations_end inputs w Hr) as [_ K2 K3 K4 _]. cbn zeta. unfold finish.
  cbn [t_allocations t_samples t_mem_samples t_events t_resources].
  split; [apply (table_survives samples sample_rows samples_delivered); [done|done|by eapply table_max, Hr; apply samples_delivered]|].
  split; [apply (table_survives mem_samples mem_rows mem_delivered); [done|done|by eapply table_max, Hr; apply mem_delivered]|].
  split; [apply (table_survives events event_rows events_delivered); [done|done|by eapply table_max, Hr; apply events_delivered]|].
  split; [apply (table_survives resources resource_rows resources_delivered); [done|done|by eapply table_max, Hr; apply resources_delivered]|].
  split; [|split].
  - rewrite finish_segments. pose proof (history_end _ _ (Allocations.e_batch (f_allocations io)) _ K3) as H.
    by rewrite (allocations_max inputs w Hr) in H.
  - intros H. destruct (finish_sound _ _ H) as [Hf ->]. by apply K4.
  - intros rows H. apply finish_tables in H. by rewrite H, K2.
Qed.
End delivered.

(** Samples, a loop, allocations with a shared stack, a metric, and a string interned by
    another thread. *)
Definition sample_hash (s : list Z) : Z := foldl (λ h c, (h * 31 + c) mod 2 ^ 64) 7 s.
Definition a_sample (t : Z) : Sample := mkSample 3 100 1 2 0 t 10 10 Cycles 5 [100; 200] [] None [].
Definition a_loop : Event := mkEvent 9 0 0 RooflineLoopStart 2 1 0 50 [LocationFrame (mkLocation 11 12 13)].
Definition an_allocation (n : Z) (frames : list Z) : AllocationSource.DomainAllocation :=
  AllocationSource.mkDomain 7 1 n (10 * n) 7 Allocation.Allocated 0 0 (4096 * n) 64 false (AllocationSource.Captured frames).
Definition a_coverage : AllocationSource.Coverage := AllocationSource.mkCoverage 7 true true 3 3 0 0 0 0 false 1.
Definition received (m : @Msg () ()) : @Input () () := Received m (io_ok 0).
Definition some_inputs : list (@Input () ()) :=
  [received (MsgSample (a_sample 1)); received (MsgEvent a_loop); received (MsgAllocation (an_allocation 1 [500; 600]));
   StringId (chars "libm.so"); received (MsgResource () true); received (MsgAllocation (an_allocation 2 []));
   received (MsgSample (a_sample 2)); received (MsgAllocation (an_allocation 3 [500; 600])); received (MsgCoverage a_coverage);
   received (MsgMetric (chars "host", chars "cores", f64_one)); received (MsgEvent a_loop)].
Definition end_all : Allocations.EndIo := Allocations.mkEndIo (io_ok 0) true true true.
Definition finish_all : FinishIo :=
  mkFinish end_all (io_ok 0) (io_ok 0) (io_ok 0) (io_ok 0) true true true true true (λ _, true).

Lemma inputs_traced : Forall traced (omap message some_inputs).
Proof. repeat (apply Forall_cons; split; [cbn; intros; by eexists|]). apply Forall_nil_2. Qed.

Lemma dispatcher_stores_all_witness :
  ∃ w, run sample_hash some_inputs new_worker = Done w ∧
    let s := finish finish_all w in
    sr_timestamp <$> durable (t_samples s) = [1; 2] ∧ length (t_payloads s) = 1%nat ∧
    durable (t_samples s) = sent (sample_rows sample_hash) some_inputs ∧
    Allocations.or_stack_id <$> durable (Allocations.segments (t_allocations s)) = [1; 0; 1] ∧
    Allocations.capture_table (t_allocations s) = Some [Allocations.capture_row a_coverage] ∧
    (sample_hash (chars "libm.so"), chars "libm.so") ∈ t_strings s.
Proof.
  destruct (dispatcher_stores_all sample_hash some_inputs finish_all inputs_traced) as (w & Hr & Hs & _ & _ & _ & Ha & _).
  - repeat (apply Forall_cons; split; [done|]). apply Forall_nil_2.
  - repeat split.
  - exists w. split; [exact Hr|]. cbv zeta. split; [rewrite Hs; vm_compute; done|].
    split; [revert Hr; vm_compute; intros [= <-]; done|]. split; [exact Hs|].
    split; [rewrite (as_operations _ _ _ Ha); vm_compute; done|]. split; [by apply (as_capture _ _ _ Ha)|].
    revert Hr. intros Hr. assert (E : t_strings (finish finish_all w) = [string_row sample_hash (chars "pmu_cycles"); string_row sample_hash (chars "libm.so")]).
    { revert Hr. vm_compute. intros [= <-]. done. }
    rewrite E. right. left.
Defined.

(** The same recording on a full disk: nothing of the samples and allocations is stored, no
    capture table vouches for them, and nothing else goes wrong. *)
Definition full : FinishIo :=
  mkFinish (Allocations.mkEndIo (mkIo true false false true 0) true true true) (mkIo true false false true 0) (io_ok 0) (io_ok 0)
    (io_ok 0) true true true true true (λ _, true).

Lemma dispatcher_loses_only_witness :
  ∃ w, run sample_hash some_inputs new_worker = Done w ∧ bounded w ∧
    survives DEFAULT_SEGMENT_BYTES (omap answer some_inputs) (f_events full) (sent (event_rows sample_hash) some_inputs)
      (durable (t_events (finish full w))) ∧
    length (durable (t_events (finish full w))) = 2%nat ∧ durable (t_samples (finish full w)) = [] ∧
    Allocations.capture_table (t_allocations (finish full w)) = None.
Proof.
  destruct (dispatcher_loses_only sample_hash some_inputs full inputs_traced) as (w & Hr & Hb & _ & _ & He & _).
  exists w. split; [exact Hr|]. split; [exact Hb|]. split; [exact He|]. revert Hr. vm_compute. intros [= <-]. done.
Defined.
End Delivered.
