(* ===== verification/Shim.v ===== *)
(** * The libc shim

    The interposed allocator functions ([shims/libc/src/lib.rs]).
    - [Module Arena]: the arena that serves requests while the real functions are looked up;
    - [Module Emit]: the gate in front of the collector, its re-entrance guard and the
      sampling of stacks;
    - [Module Calls]: every interposed function as the sequence of its atomic parts, the call
      of the real function and the emissions before and after it;
    - [Module Threads]: any number of threads running such calls beside each other and beside
      the allocations of the collector itself, over one real heap.

    The real allocator is only known by its answers: an address that is not in use, or null.
    The real functions and the collector were found and recording is on, no row is lost on
    its way.  An emission is one step: rows are ordered by their time stamps, taken one after the
    other, and a sequence number is a number not used before.  An address is an integer, null
    is 0. *)

From S2P Require Import Prelude Words Allocation Lifetimes.
Open Scope Z_scope.

Module Arena.
Definition ARENA_BYTES : Z := 64 * 1024.

(** [(size.max(1) + 15) & !15], at the width of [usize]. *)
Definition rounded (size : Z) : Z := Z.land (wrap64 (Z.max size 1 + 15)) (u64_max - 15).

(** [start] is the address of the arena; the offset is not taken back on failure. *)
Definition arena_alloc (start size offset : Z) : Z * Z :=
  let size := rounded size in
  let next := wrapping_add offset size in
  (if ARENA_BYTES <? wrapping_add offset size then 0 else wrapping_add start offset, next).

Definition is_arena (start p : Z) : bool := (start <=? p) && (p <? start + ARENA_BYTES).
End Arena.

Module Emit.

(** The process: whether the collector is active, whether it takes allocations, whether this
    is the child of a fork, and how often a stack is taken. *)
Record Process := mkProcess { core_active : bool; takes_allocations : bool; fork_child : bool; stack_every : Z }.
(** A thread: inside the shim or the collector, and the allocations counted. *)
Record Local := mkLocal { inside : bool; alloc_tick : Z }.

Record Emission := mkEmission {
  kind : Z; operation_id : Z; old : Z; address : Z; size : Z; retires : bool; stack : bool
}.

(** The stack is taken of every [stack_every]th allocation of the thread. *)
Definition sample_stack (p : Process) (kind address : Z) (l : Local) : bool * Local :=
  if ((kind =? 1) || (kind =? 4)) && negb (address =? 0) && negb (stack_every p =? 0) then
    let next := alloc_tick l + 1 in (next mod stack_every p =? 0, mkLocal (inside l) next)
  else (false, l).

(** What reaches the collector, if anything. *)
Definition allocation_emit (p : Process) (kind operation_id old address size : Z) (retires : bool) (l : Local)
    : option Emission * Local :=
  if inside l || fork_child p || negb (core_active p) || negb (takes_allocations p) then (None, l)
  else
    let '(stack, l) := sample_stack p kind address l in
    (Some (mkEmission kind operation_id old address size retires stack), l).

(** [guarded]: the body runs inside; the flag is what it was afterwards. *)
Definition guarded {A} (body : Local → A * Local) (l : Local) : A * Local :=
  let '(a, l') := body (mkLocal true (alloc_tick l)) in (a, mkLocal (inside l) (alloc_tick l')).
End Emit.

Module Calls.
Import Allocation.

Inductive Call :=
| malloc (size : Z)
| calloc (count size : Z)
| aligned_alloc (alignment size : Z)
| posix_memalign (alignment size : Z)
| free (pointer : Z)
| realloc (pointer size : Z).

(** The bytes recorded for a request. *)
Definition requested (c : Call) : Z :=
  match c with
  | malloc size | aligned_alloc _ size | posix_memalign _ size | realloc _ size => size
  | calloc count size => saturating_mul count size
  | free _ => 0
  end.

(** Where a thread is in a call, before the part named: the real allocation, the emission
    after it; the emission of a free, the real free; the emission of a begin, the real
    realloc, the emission of its end. *)
Inductive Pc :=
| Idle
| Allocate (bytes : Z)
| EmitAllocated (address bytes : Z)
| EmitFreed (pointer : Z)
| Release (pointer : Z)
| EmitBegin (pointer bytes : Z)
| Replace (operation pointer bytes : Z)
| EmitEnd (operation pointer bytes replacement : Z).

(** A pointer of the arena is never passed on. *)
Definition start_call (arena : Z) (c : Call) : Pc :=
  match c with
  | malloc _ | calloc _ _ | aligned_alloc _ _ | posix_memalign _ _ => Allocate (requested c)
  | free p => if (p =? 0) || Arena.is_arena arena p then Idle else EmitFreed p
  | realloc p size => if Arena.is_arena arena p then Allocate size else EmitBegin p size
  end.

(** The real function returned: [result] is the address, or null. *)
Definition returned (pc : Pc) (result : Z) : Pc :=
  match pc with
  | Allocate bytes => if result =? 0 then Idle else EmitAllocated result bytes
  | Release _ => Idle
  | Replace operation pointer bytes =>
      if operation =? 0 then Idle else EmitEnd operation pointer bytes result
  | pc => pc
  end.

(** [realloc(p, 0)] frees [p] and returns null (the C library is glibc). *)
Definition retires_old (pointer bytes replacement : Z) : bool :=
  negb (pointer =? 0) && (negb (replacement =? 0) || (bytes =? 0)).

(** The arguments of the emission a thread is at. *)
Definition emission (pc : Pc) : option (Operation * Z * Z * Z * Z * bool) :=
  match pc with
  | EmitAllocated address bytes => Some (Allocated, 0, 0, address, bytes, false)
  | EmitFreed p => Some (Freed, 0, p, 0, 0, false)
  | EmitBegin p bytes => Some (ReallocBegin, 0, p, 0, bytes, false)
  | EmitEnd operation p bytes replacement => Some (ReallocEnd, operation, p, replacement, bytes, retires_old p bytes replacement)
  | _ => None
  end.

(** The emission returned the number of its record. *)
Definition emitted (pc : Pc) (sequence : Z) : Pc :=
  match pc with
  | EmitFreed p => Release p
  | EmitBegin p bytes => Replace sequence p bytes
  | _ => Idle
  end.

(** What the program holds after the emission: the address returned to it. *)
Definition given (pc : Pc) : option Z :=
  match pc with
  | EmitAllocated address _ => Some address
  | EmitEnd _ p bytes replacement =>
      if negb (replacement =? 0) then Some replacement
      else if negb (p =? 0) && negb (bytes =? 0) then Some p else None
  | _ => None
  end.
End Calls.

Module Threads.
Import Allocation Calls.

(** The threads by number, the addresses in use by the allocator, those the program holds and
    those the collector holds, and the rows recorded. *)
Record System := mkSystem {
  threads : Z → Pc;
  in_use : gset Z;
  held : gset Z;
  internal : gset Z;
  log : list Lifetimes.Boundary
}.
Definition initial : System := mkSystem (λ _, Idle) ∅ ∅ ∅ [].

Definition set_pc (t : Z) (pc : Pc) (f : Z → Pc) : Z → Pc := λ t', if t' =? t then pc else f t'.

(** The block of the allocator that a call takes from the program; a pointer of the arena is
    not one, and its bytes are never given back. *)
Definition taken (arena : Z) (c : Call) : option Z :=
  match c with
  | free p | realloc p _ => if (p =? 0) || Arena.is_arena arena p then None else Some p
  | _ => None
  end.

Section system.
Context (pid epoch arena : Z).

Definition row (t sequence now : Z) (e : Operation * Z * Z * Z * Z * bool) : Lifetimes.Boundary :=
  let '(op, operation, old, address, bytes, retires) := e in
  Lifetimes.mkBoundary pid epoch sequence now t op operation old address bytes retires 0.

Definition opt_set (o : option Z) : gset Z := match o with Some a => {[a]} | None => ∅ end.

(** The allocator's side of a realloc: it takes the block back when it moved it, gave it
    out again in place, or was asked for no bytes. *)
Definition block_gone (p bytes result : Z) : bool :=
  if p =? 0 then false else if result =? 0 then bytes =? 0 else true.

(** The addresses the allocator takes back with the answer [result]. *)
Definition freed_by (pc : Pc) (result : Z) : gset Z :=
  match pc with
  | Release p => {[p]}
  | Replace _ p bytes => if block_gone p bytes result then {[p]} else ∅
  | _ => ∅
  end.

Inductive step : System → System → Prop :=
(** A thread calls a function; the program gives up the block it passes, which it held.
    Pointers of the arena, from the calls before the real functions were found, and null
    are passed as well. *)
| step_call s t c :
    threads s t = Idle → (∀ p, taken arena c = Some p → p ∈ held s) →
    step s (mkSystem (set_pc t (start_call arena c) (threads s)) (in_use s) (held s ∖ opt_set (taken arena c)) (internal s) (log s))
(** The real allocator answers with an address that is not in use and not in the arena, or
    null; a realloc may also stay in place. *)
| step_real s t result :
    match threads s t with Allocate _ | Replace _ _ _ => True | Release _ => result = 0 | _ => False end →
    (result ≠ 0 → result ∉ in_use s ∖ freed_by (threads s t) result ∧ Arena.is_arena arena result = false) →
    step s (mkSystem (set_pc t (returned (threads s t) result) (threads s))
              ((in_use s ∖ freed_by (threads s t) result) ∪ opt_set (if result =? 0 then None else Some result))
              (held s) (internal s) (log s))
(** An emission takes a fresh number. *)
| step_emit s t e sequence now :
    emission (threads s t) = Some e → 0 < sequence → Forall (λ r, Lifetimes.sequence r ≠ sequence) (log s) →
    step s (mkSystem (set_pc t (emitted (threads s t) sequence) (threads s)) (in_use s) (held s ∪ opt_set (given (threads s t)))
              (internal s) (log s ++ [row t sequence now e]))
(** The collector allocates and frees for itself, inside. *)
| step_internal_alloc s a : a ≠ 0 → a ∉ in_use s →
    step s (mkSystem (threads s) ({[a]} ∪ in_use s) (held s) ({[a]} ∪ internal s) (log s))
| step_internal_free s a : a ∈ internal s →
    step s (mkSystem (threads s) (in_use s ∖ {[a]}) (held s) (internal s ∖ {[a]}) (log s)).
End system.
End Threads.
