(* ===== verification/ShimSpec.v ===== *)
(** * The libc shim: what it promises

    However threads interleave their calls and whatever the allocator answers, the rows that
    the shim of [Shim.v] records, replayed by [Lifetimes.v], account for the heap of the
    program: every address alternates between beginning and ending, and what is live in the
    replay is what the program holds. *)

From S2P Require Import Prelude Words Allocation Lifetimes Shim.
Open Scope Z_scope.

(** ** Beginnings and endings of addresses *)
Module Ledger.

Inductive Ev := Begins (a : Z) | Ends (a : Z).
Definition addr (e : Ev) : Z := match e with Begins a | Ends a => a end.

(** The addresses open after a history; [None] if an open address begins or another ends. *)
Fixpoint play (open_ : gset Z) (es : list Ev) : option (gset Z) :=
  match es with
  | [] => Some open_
  | Begins a :: es => if decide (a ∈ open_) then None else play ({[a]} ∪ open_) es
  | Ends a :: es => if decide (a ∈ open_) then play (open_ ∖ {[a]}) es else None
  end.

Definition avoids (p : Z) (es : list Ev) : Prop := Forall (λ e, addr e ≠ p) es.

Lemma play_app s es es' : play s (es ++ es') = play s es ≫= λ o, play o es'.
Proof.
  revert s. induction es as [|[a|a] es IH]; intros s; cbn; [done|..]; case_decide; done.
Qed.

Lemma play_avoids p s es o : avoids p es → play s es = Some o → p ∈ o ↔ p ∈ s.
Proof.
  intros Ha. revert s. induction Ha as [|[a|a] es He _ IH]; intros s; cbn in *; [by intros [= ->]|..].
  - case_decide; [done|]. intros Hp. rewrite (IH _ Hp). set_solver.
  - case_decide; [|done]. intros Hp. rewrite (IH _ Hp). set_solver.
Qed.

Lemma play_without p s es o : avoids p es → play s es = Some o → play (s ∖ {[p]}) es = Some (o ∖ {[p]}).
Proof.
  intros Ha. revert s. induction Ha as [|[a|a] es He _ IH]; intros s; cbn in *; [by intros [= ->]|..].
  - case_decide; [done|]. rewrite decide_False by set_solver. intros Hp%IH. rewrite <- Hp. f_equal. set_solver.
  - case_decide; [|done]. rewrite decide_True by set_solver. intros Hp%IH. rewrite <- Hp. f_equal. set_solver.
Qed.

(** An ending that turns out to have been there. *)
Lemma play_insert p es1 es2 o :
  play ∅ (es1 ++ es2) = Some o → avoids p es2 → p ∈ o → play ∅ (es1 ++ Ends p :: es2) = Some (o ∖ {[p]}).
Proof.
  rewrite !play_app. destruct (play ∅ es1) as [s|]; [|done]. cbn. intros H Ha Hp.
  rewrite decide_True by (by apply (play_avoids p s es2 o)). by apply play_without.
Qed.

Lemma play_begins es a o : play ∅ es = Some o → a ∉ o → play ∅ (es ++ [Begins a]) = Some ({[a]} ∪ o).
Proof. intros H Ha. rewrite play_app, H. cbn. by rewrite decide_False. Qed.

Lemma play_ends es a o : play ∅ es = Some o → a ∈ o → play ∅ (es ++ [Ends a]) = Some (o ∖ {[a]}).
Proof. intros H Ha. rewrite play_app, H. cbn. by rewrite decide_True. Qed.
End Ledger.

(** ** Who has an address *)
Module Heap.
Import Allocation Calls Threads.

(** The address a call in progress is about, and whether it is open in the records. *)
Definition owned (pc : Pc) : option (Z * bool) :=
  match pc with
  | Idle | Allocate _ => None
  | EmitAllocated a _ => Some (a, false)
  | EmitFreed p => Some (p, true)
  | Release p => Some (p, false)
  | EmitBegin p _ | Replace _ p _ => if p =? 0 then None else Some (p, true)
  | EmitEnd _ p bytes new =>
      if negb (new =? 0) then Some (new, false)
      else if negb (p =? 0) && negb (bytes =? 0) then Some (p, true) else None
  end.

Definition owns (s : System) (t a : Z) (b : bool) : Prop := owned (threads s t) = Some (a, b).

(** Every address in use has at most one role. *)
Record separate (s : System) : Prop := mkSeparate {
  s_own : ∀ t a b, owns s t a b → a ∈ in_use s ∧ a ∉ held s ∧ a ∉ internal s ∧ a ≠ 0;
  s_unique : ∀ t t' a b b', owns s t a b → owns s t' a b' → t = t';
  s_held : ∀ a, a ∈ held s → a ∈ in_use s ∧ a ∉ internal s ∧ a ≠ 0;
  s_internal : ∀ a, a ∈ internal s → a ∈ in_use s
}.

(** One thread moves: what it owned goes to what it owns, to the program or back. *)
Lemma owns_set_pc s t pc iu h i l t' a b :
  owns (mkSystem (set_pc t pc (threads s)) iu h i l) t' a b ↔ if t' =? t then owned pc = Some (a, b) else owns s t' a b.
Proof. unfold owns, set_pc. cbn. by destruct (t' =? t). Qed.

Lemma separate_move s t pc iu h l :
  separate s →
  (∀ a b, owned pc = Some (a, b) → a ∈ iu ∧ a ∉ h ∧ a ∉ internal s ∧ a ≠ 0 ∧ (∀ t' b', t' ≠ t → ¬ owns s t' a b')) →
  (∀ a, a ∈ h → a ∈ iu ∧ a ∉ internal s ∧ a ≠ 0 ∧ (∀ t' b', t' ≠ t → ¬ owns s t' a b')) →
  (∀ a, a ∈ internal s → a ∈ iu) → (∀ t' a b, t' ≠ t → owns s t' a b → a ∈ iu) →
  separate (mkSystem (set_pc t pc (threads s)) iu h (internal s) l).
Proof.
  intros [Ho Hu Hh Hi] Hp Hh' Hi' Hk. split; cbn.
  - intros t' a b. rewrite owns_set_pc. destruct (Z.eqb_spec t' t) as [->|Hne].
    + intros H. destruct (Hp a b H) as (? & ? & ? & ? & _). done.
    + intros H. destruct (Ho t' a b H) as (? & ? & ? & ?). split; [by eapply Hk|]. split; [|done].
      intros Ha. destruct (Hh' a Ha) as (_ & _ & _ & Hx). by eapply Hx.
  - intros t1 t2 a b b'. rewrite !owns_set_pc. destruct (Z.eqb_spec t1 t) as [->|H1], (Z.eqb_spec t2 t) as [->|H2]; try done.
    + intros Ha Hb. destruct (Hp a b Ha) as (_ & _ & _ & _ & Hx). by destruct (Hx t2 b' H2).
    + intros Ha Hb. destruct (Hp a b' Hb) as (_ & _ & _ & _ & Hx). by destruct (Hx t1 b H1).
    + apply Hu.
  - intros a Ha. destruct (Hh' a Ha) as (? & ? & ? & _). done.
  - done.
Qed.

Lemma taken_zero arena c p : taken arena c = Some p → p ≠ 0.
Proof.
  destruct c; cbn; try done; destruct (Z.eqb_spec pointer 0); cbn; try done; destruct (Arena.is_arena arena pointer); try done; by intros [= <-].
Qed.

(** The call takes over the pointer it was passed. *)
Lemma start_owned arena c a b :
  owned (start_call arena c) = Some (a, b) → taken arena c = Some a ∧ b = true.
Proof.
  destruct c as [| | | |p|p bytes]; cbn; try done; destruct (Z.eqb_spec p 0) as [->|Hp]; cbn; try done;
    destruct (Arena.is_arena arena _); cbn; try done; [by intros [= <- <-]|].
  rewrite (proj2 (Z.eqb_neq p 0)) by done. by intros [= <- <-].
Qed.

Lemma elem_of_opt_set a o : a ∈ opt_set o ↔ o = Some a.
Proof. destruct o; cbn; set_solver. Qed.

Lemma separate_call arena s t c :
  threads s t = Idle → (∀ p, taken arena c = Some p → p ∈ held s) → separate s →
  separate (mkSystem (set_pc t (start_call arena c) (threads s)) (in_use s) (held s ∖ opt_set (taken arena c)) (internal s) (log s)).
Proof.
  intros Ht Hc Hs. apply separate_move; [done| | | |].
  - intros a b H. apply start_owned in H as [Ha ->]. pose proof (Hc a Ha) as Hh. destruct (s_held _ Hs a Hh) as (? & ? & ?).
    split; [done|]. split; [rewrite elem_of_difference, elem_of_opt_set; by intros [_ ?]|]. split; [done|]. split; [done|].
    intros t' b' _ Ho. by destruct (s_own _ Hs t' a b' Ho) as (_ & ? & _).
  - intros a [Ha _]%elem_of_difference. destruct (s_held _ Hs a Ha) as (? & ? & ?). do 3 (split; [done|]).
    intros t' b' _ Ho. by destruct (s_own _ Hs t' a b' Ho) as (_ & ? & _).
  - apply Hs.
  - intros t' a b _ Ho. apply (s_own _ Hs t' a b Ho).
Qed.

(** What the allocator takes back was owned by the thread, and what it gives is new. *)
Lemma freed_owned pc result a : a ∈ freed_by pc result → ∃ b, owned pc = Some (a, b).
Proof.
  destruct pc; cbn; try (intros ->%elem_of_singleton; by eexists); try (by intros ?%elem_of_empty).
  - unfold block_gone. destruct (Z.eqb_spec pointer 0); cbn; [set_solver|]. destruct (if result =? 0 then bytes =? 0 else true); [|set_solver].
    intros ->%elem_of_singleton. by eexists.
Qed.

Lemma returned_owned pc result a b :
  match pc with Allocate _ | Replace _ _ _ => True | Release _ => result = 0 | _ => False end →
  owned (returned pc result) = Some (a, b) →
  (result = a ∧ result ≠ 0 ∧ b = false) ∨
  (result = 0 ∧ b = true ∧ owned pc = Some (a, true) ∧ freed_by pc result = ∅).
Proof.
  destruct pc as [|bytes|a' bytes|p|p|p bytes|op p bytes|op p bytes new]; cbn; try done.
  - intros _. destruct (Z.eqb_spec result 0); cbn; [done|]. intros [= <- <-]. by left.
  - intros _. destruct (op =? 0); [done|]. cbn. unfold block_gone.
    destruct (Z.eqb_spec result 0), (Z.eqb_spec p 0), (Z.eqb_spec bytes 0); cbn; try done; intros [= <- <-];
      first [by left | by right].
Qed.

Lemma separate_real s t result :
  match threads s t with Allocate _ | Replace _ _ _ => True | Release _ => result = 0 | _ => False end →
  (result ≠ 0 → result ∉ in_use s ∖ freed_by (threads s t) result) → separate s →
  separate (mkSystem (set_pc t (returned (threads s t) result) (threads s))
              ((in_use s ∖ freed_by (threads s t) result) ∪ opt_set (if result =? 0 then None else Some result))
              (held s) (internal s) (log s)).
Proof.
  intros Hpc Hr Hs.
  assert (Hfreed : ∀ a, a ∈ freed_by (threads s t) result → a ∉ held s ∧ a ∉ internal s ∧ ∀ t' b', t' ≠ t → ¬ owns s t' a b').
  { intros a Ha. destruct (freed_owned _ _ _ Ha) as [b Hb]. destruct (s_own _ Hs t a b Hb) as (_ & ? & ? & _).
    split; [done|]. split; [done|]. intros t' b' Hne Ho. apply Hne. by eapply (s_unique _ Hs). }
  assert (Hnew : result ≠ 0 → result ∉ held s ∧ result ∉ internal s ∧ ∀ t' b', t' ≠ t → ¬ owns s t' result b').
  { intros H0. specialize (Hr H0). destruct (decide (result ∈ freed_by (threads s t) result)) as [Hf|Hf]; [by apply Hfreed|].
    assert (Hu : result ∉ in_use s) by set_solver. split; [intros Hh; apply Hu, (s_held _ Hs), Hh|].
    split; [intros Hi; by apply Hu, (s_internal _ Hs)|]. intros t' b' _ Ho. by destruct (s_own _ Hs t' result b' Ho) as (? & _). }
  apply separate_move; [done| | | |].
  - intros a b Ho. destruct (returned_owned _ _ _ _ Hpc Ho) as [(-> & H0 & ->)|(-> & -> & Ho' & Hf)].
    + destruct (Hnew H0) as (? & ? & ?). split; [|done]. rewrite (proj2 (Z.eqb_neq a 0)) by done. set_solver.
    + rewrite Hf. destruct (s_own _ Hs t a true Ho') as (? & ? & ? & ?). split; [set_solver|]. do 3 (split; [done|]).
      intros t' b' Hne Hx. apply Hne. by eapply (s_unique _ Hs).
  - intros a Ha. destruct (s_held _ Hs a Ha) as (? & ? & ?). split; [|split; [done|split; [done|]]].
    + apply elem_of_union. left. apply elem_of_difference. split; [done|]. intros Hf. by destruct (Hfreed a Hf).
    + intros t' b' _ Ho. by destruct (s_own _ Hs t' a b' Ho) as (_ & ? & _).
  - intros a Ha. apply elem_of_union. left. apply elem_of_difference. split; [by apply (s_internal _ Hs)|]. intros Hf. by destruct (Hfreed a Hf) as (_ & ? & _).
  - intros t' a b Hne Ho. apply elem_of_union. left. apply elem_of_difference. split; [by destruct (s_own _ Hs t' a b Ho)|].
    intros Hf. destruct (Hfreed a Hf) as (_ & _ & Hx). by apply (Hx t' b).
Qed.

(** The emission keeps the address with the thread, or gives it to the program. *)
Lemma given_owned pc a : given pc = Some a → ∃ b, owned pc = Some (a, b).
Proof.
  destruct pc; cbn; try done; [intros [= <-]; by eexists|].
  destruct (negb (replacement =? 0)); [intros [= <-]; by eexists|].
  destruct (negb (pointer =? 0) && negb (bytes =? 0)); [intros [= <-]; by eexists|done].
Qed.

Lemma emitted_owned pc e sequence a b :
  emission pc = Some e → owned (emitted pc sequence) = Some (a, b) → given pc = None ∧ ∃ b', owned pc = Some (a, b').
Proof. destruct pc; cbn; try done; intros _ H; split; try done; [injection H as <- <-; by eexists|by exists b]. Qed.

Lemma separate_emit s t e sequence l :
  emission (threads s t) = Some e → separate s →
  separate (mkSystem (set_pc t (emitted (threads s t) sequence) (threads s)) (in_use s)
              (held s ∪ opt_set (given (threads s t))) (internal s) l).
Proof.
  intros He Hs.
  assert (Hown : ∀ a b, owned (threads s t) = Some (a, b) →
    a ∈ in_use s ∧ a ∉ held s ∧ a ∉ internal s ∧ a ≠ 0 ∧ ∀ t' b', t' ≠ t → ¬ owns s t' a b').
  { intros a b Ho. destruct (s_own _ Hs t a b Ho) as (? & ? & ? & ?). do 4 (split; [done|]).
    intros t' b' Hne Hx. apply Hne. by eapply (s_unique _ Hs). }
  apply separate_move; [done| | | |].
  - intros a b Ho. destruct (emitted_owned _ _ _ _ _ He Ho) as (Hg & b' & Ho'). destruct (Hown a b' Ho') as (? & ? & ? & ? & ?).
    rewrite Hg. cbn. set_solver.
  - intros a [Ha|Ha%elem_of_opt_set]%elem_of_union.
    + destruct (s_held _ Hs a Ha) as (? & ? & ?). do 3 (split; [done|]).
      intros t' b' _ Ho. by destruct (s_own _ Hs t' a b' Ho) as (_ & ? & _).
    + destruct (given_owned _ _ Ha) as [b Ho]. destruct (Hown a b Ho) as (? & ? & ? & ? & ?). done.
  - apply Hs.
  - intros t' a b _ Ho. apply (s_own _ Hs t' a b Ho).
Qed.
End Heap.

(** ** The records *)
Module Records.
Import Allocation Calls Threads Heap Ledger.
Notation sequence := Lifetimes.sequence.
Notation op := Lifetimes.operation.
Notation op_id := Lifetimes.operation_id.

(** What a row says of the addresses, given which reallocs ended their old address. *)
Definition ev (out : Z → bool) (r : Lifetimes.Boundary) : list Ev :=
  match op r with
  | Allocated => if Lifetimes.address r =? 0 then [] else [Begins (Lifetimes.address r)]
  | Freed => [Ends (Lifetimes.old_address r)]
  | ReallocBegin => if out (sequence r) then [Ends (Lifetimes.old_address r)] else []
  | ReallocEnd => if Lifetimes.address r =? 0 then [] else [Begins (Lifetimes.address r)]
  end.
Definition history (out : Z → bool) (l : list Lifetimes.Boundary) : list Ev := concat (ev out <$> l).

Lemma history_app out l k : history out (l ++ k) = history out l ++ history out k.
Proof. unfold history. by rewrite fmap_app, concat_app. Qed.

Lemma history_one out r : history out [r] = ev out r.
Proof. unfold history. cbn. by rewrite app_nil_r. Qed.

(** The answers for numbers that no row has do not matter. *)
Lemma history_ext out out' l : (∀ r, r ∈ l → out (sequence r) = out' (sequence r)) → history out l = history out' l.
Proof.
  unfold history. induction l as [|r l IH]; intros H; [done|]. cbn. rewrite IH by (intros; apply H; set_solver). f_equal.
  unfold ev. rewrite (H r) by set_solver. done.
Qed.

Definition answer (out : Z → bool) (n : Z) (b : bool) : Z → bool := λ m, if m =? n then b else out m.
Lemma answer_eq out n b : answer out n b n = b.
Proof. unfold answer. by rewrite Z.eqb_refl. Qed.
Lemma answer_ne out n b m : m ≠ n → answer out n b m = out m.
Proof. intros H. unfold answer. by rewrite (proj2 (Z.eqb_neq _ _)). Qed.

(** The realloc a thread is in, by the number of its begin. *)
Definition op_of (pc : Pc) : option Z := match pc with Replace n _ _ | EmitEnd n _ _ _ => Some n | _ => None end.

(** Numbers are used once, begins and ends belong together. *)
Record numbered (pid epoch : Z) (s : System) : Prop := mkNumbered {
  n_nodup : NoDup (sequence <$> log s);
  n_unique : ∀ t t' n, op_of (threads s t) = Some n → op_of (threads s t') = Some n → t = t';
  n_begun : ∀ t n, op_of (threads s t) = Some n → 0 < n ∧ (∃ b, b ∈ log s ∧ op b = ReallocBegin ∧ sequence b = n) ∧
    (∀ e, e ∈ log s → op e = ReallocEnd → op_id e ≠ n);
  n_ends : ∀ e, e ∈ log s → op e = ReallocEnd → ∃ b, b ∈ log s ∧ op b = ReallocBegin ∧ sequence b = op_id e;
  n_begins : ∀ b, b ∈ log s → op b = ReallocBegin →
    (∃ e, e ∈ log s ∧ op e = ReallocEnd ∧ op_id e = sequence b) ∨ ∃ t, op_of (threads s t) = Some (sequence b);
  n_process : ∀ r, r ∈ log s → Lifetimes.pid r = pid ∧ Lifetimes.process_epoch r = epoch
}.

(** The begin of a realloc that is not through, and nothing of its pointer after it. *)
Definition pending (out : Z → bool) (n p : Z) (l : list Lifetimes.Boundary) : Prop :=
  ∃ l1 b l2, l = l1 ++ b :: l2 ∧ sequence b = n ∧ op b = ReallocBegin ∧ Lifetimes.old_address b = p ∧ avoids p (history out l2).

Definition answered (out : Z → bool) (pc : Pc) (l : list Lifetimes.Boundary) : Prop :=
  match pc with
  | Replace n p _ => out n = false ∧ (p ≠ 0 → pending out n p l)
  | EmitEnd n p bytes new => out n = retires_old p bytes new
  | _ => True
  end.

(** The records tell the heap. *)
Record told (s : System) (out : Z → bool) (o : gset Z) : Prop := mkTold {
  t_play : play ∅ (history out (log s)) = Some o;
  t_open : ∀ a, a ∈ o ↔ a ∈ held s ∨ ∃ t, owns s t a true;
  t_ends : ∀ e, e ∈ log s → op e = ReallocEnd → out (op_id e) = Lifetimes.retires_old e;
  t_pc : ∀ t, answered out (threads s t) (log s)
}.

Lemma op_of_set_pc t pc f t' n :
  op_of (set_pc t pc f t') = Some n ↔ if t' =? t then op_of pc = Some n else op_of (f t') = Some n.
Proof. unfold set_pc. by destruct (t' =? t). Qed.

(** A thread moves without a record: its realloc stays the same. *)
Lemma numbered_move pid epoch s t pc iu h i :
  op_of pc = op_of (threads s t) → numbered pid epoch s → numbered pid epoch (mkSystem (set_pc t pc (threads s)) iu h i (log s)).
Proof.
  intros Hop [H1 H2 H3 H4 H5 H6].
  assert (E : ∀ t', op_of (set_pc t pc (threads s) t') = op_of (threads s t')).
  { intros t'. unfold set_pc. destruct (Z.eqb_spec t' t) as [->|]; done. }
  split; cbn [log threads]; try done.
  - intros t1 t2 n. rewrite !E. apply H2.
  - intros t1 n. rewrite E. apply H3.
  - intros b Hb Ho. destruct (H5 b Hb Ho) as [?|[t' Ht]]; [by left|]. right. exists t'. by rewrite E.
Qed.

Section emit.
Context (pid epoch : Z) (s : System) (t n now : Z) (Hn : 0 < n).
Context (Hfresh : Forall (λ r, sequence r ≠ n) (log s)).

Lemma fresh_row r : r ∈ log s → sequence r ≠ n.
Proof. rewrite Forall_forall in Hfresh. apply Hfresh. Qed.

Lemma numbered_plain r pc h :
  numbered pid epoch s → op_of pc = None → op_of (threads s t) = None → sequence r = n →
  Lifetimes.pid r = pid → Lifetimes.process_epoch r = epoch → op r ≠ ReallocBegin → op r ≠ ReallocEnd →
  numbered pid epoch (mkSystem (set_pc t pc (threads s)) (in_use s) h (internal s) (log s ++ [r])).
Proof.
  intros Hs Hp Ht Hr Hpid Hep Hb He. pose proof (numbered_move pid epoch s t pc (in_use s) h (internal s) ltac:(congruence) Hs) as Hm.
  destruct Hm as [H1 H2 H3 H4 H5 H6]. cbn [log threads] in *. split; cbn [log threads].
  - rewrite fmap_app. apply NoDup_app. split; [done|]. split; [|apply NoDup_singleton].
    intros x (r' & -> & Hr')%list_elem_of_fmap. cbn. rewrite Hr. intros E%list_elem_of_singleton. by apply (fresh_row r').
  - done.
  - intros t1 m Hm. destruct (H3 t1 m Hm) as (? & (b & ? & ?) & He'). split; [done|]. split; [exists b; set_solver|].
    intros e [Hx| ->%list_elem_of_singleton]%elem_of_app; [by apply He'|done].
  - intros e [Hx| ->%list_elem_of_singleton]%elem_of_app Ho; [|done]. destruct (H4 e Hx Ho) as (b & ? & ?). exists b. set_solver.
  - intros b [Hx| ->%list_elem_of_singleton]%elem_of_app Ho; [|done].
    destruct (H5 b Hx Ho) as [(e & ? & ?)|?]; [left; exists e; set_solver|by right].
  - intros x [Hx| ->%list_elem_of_singleton]%elem_of_app; [by apply H6|done].
Qed.

Lemma numbered_begin r p bytes h :
  numbered pid epoch s → op_of (threads s t) = None → sequence r = n →
  Lifetimes.pid r = pid → Lifetimes.process_epoch r = epoch → op r = ReallocBegin →
  numbered pid epoch (mkSystem (set_pc t (Replace n p bytes) (threads s)) (in_use s) h (internal s) (log s ++ [r])).
Proof.
  intros [H1 H2 H3 H4 H5 H6] Ht Hr Hpid Hep Hb.
  assert (Hold : ∀ t1 m, op_of (threads s t1) = Some m → m ≠ n).
  { intros t1 m Hm E. subst m. destruct (H3 t1 n Hm) as (_ & (b & Hx & _ & E) & _). by apply (fresh_row b). }
  split; cbn [log threads].
  - rewrite fmap_app. apply NoDup_app. split; [done|]. split; [|apply NoDup_singleton].
    intros x (r' & -> & Hr')%list_elem_of_fmap. cbn. rewrite Hr. intros E%list_elem_of_singleton. by apply (fresh_row r').
  - intros t1 t2 m. rewrite !op_of_set_pc. destruct (Z.eqb_spec t1 t), (Z.eqb_spec t2 t); cbn; subst; try done.
    + intros [= E] Hx. by destruct (Hold t2 m Hx).
    + intros Hx [= E]. by destruct (Hold t1 m Hx).
    + apply H2.
  - intros t1 m. rewrite op_of_set_pc. destruct (Z.eqb_spec t1 t) as [Et|Et]; cbn.
    + intros [= E]. split; [lia|]. split; [exists r; split; [set_solver|split; [done|congruence]]|].
      intros e [Hx| ->%list_elem_of_singleton]%elem_of_app Ho; [|congruence].
      destruct (H4 e Hx Ho) as (b & Hy & _ & <-). rewrite <- E. by apply fresh_row.
    + intros Hm. destruct (H3 t1 m Hm) as (? & (b & ? & ?) & He'). split; [done|]. split; [exists b; set_solver|].
      intros e [Hx| ->%list_elem_of_singleton]%elem_of_app; [by apply He'|congruence].
  - intros e [Hx| ->%list_elem_of_singleton]%elem_of_app Ho; [|congruence]. destruct (H4 e Hx Ho) as (b & ? & ?). exists b. set_solver.
  - intros b [Hx| ->%list_elem_of_singleton]%elem_of_app Ho.
    + destruct (H5 b Hx Ho) as [(e & ? & ?)|[t' Ht']]; [left; exists e; set_solver|]. right. exists t'.
      rewrite op_of_set_pc. destruct (Z.eqb_spec t' t); [subst; congruence|done].
    + right. exists t. rewrite op_of_set_pc, Z.eqb_refl. cbn. congruence.
  - intros x [Hx| ->%list_elem_of_singleton]%elem_of_app; [by apply H6|done].
Qed.

Lemma numbered_end r m h :
  numbered pid epoch s → op_of (threads s t) = Some m → sequence r = n →
  Lifetimes.pid r = pid → Lifetimes.process_epoch r = epoch → op r = ReallocEnd → op_id r = m →
  numbered pid epoch (mkSystem (set_pc t Idle (threads s)) (in_use s) h (internal s) (log s ++ [r])).
Proof.
  intros [H1 H2 H3 H4 H5 H6] Ht Hr Hpid Hep He Hid. destruct (H3 t m Ht) as (_ & (b0 & Hb0 & Hb1 & Hb2) & _).
  split; cbn [log threads].
  - rewrite fmap_app. apply NoDup_app. split; [done|]. split; [|apply NoDup_singleton].
    intros x (r' & -> & Hr')%list_elem_of_fmap. cbn. rewrite Hr. intros E%list_elem_of_singleton. by apply (fresh_row r').
  - intros t1 t2 k. rewrite !op_of_set_pc. destruct (t1 =? t), (t2 =? t); try done. apply H2.
  - intros t1 k. rewrite op_of_set_pc. destruct (Z.eqb_spec t1 t) as [|Hne]; [done|]. intros Hk.
    destruct (H3 t1 k Hk) as (? & (b & ? & ?) & He'). split; [done|]. split; [exists b; set_solver|].
    intros e [Hx| ->%list_elem_of_singleton]%elem_of_app Ho; [by apply He'|]. rewrite Hid. intros ->. by apply Hne, (H2 t1 t k).
  - intros e [Hx| ->%list_elem_of_singleton]%elem_of_app Ho.
    + destruct (H4 e Hx Ho) as (b & ? & ?). exists b. set_solver.
    + exists b0. rewrite Hid. set_solver.
  - intros b [Hx| ->%list_elem_of_singleton]%elem_of_app Ho; [|congruence].
    destruct (H5 b Hx Ho) as [(e & ? & ?)|[t' Ht']]; [left; exists e; set_solver|].
    destruct (Z.eqb_spec t' t) as [->|Hne]; [left; exists r; split; [set_solver|]; split; [done|congruence]|].
    right. exists t'. rewrite op_of_set_pc. by rewrite (proj2 (Z.eqb_neq _ _)).
  - intros x [Hx| ->%list_elem_of_singleton]%elem_of_app; [by apply H6|done].
Qed.
End emit.

(** *** The records stay true to the heap *)
Lemma answered_plain out pc l : op_of pc = None → answered out pc l.
Proof. by destruct pc. Qed.

Lemma answered_ext out out' pc l :
  (∀ n, op_of pc = Some n → out' n = out n) →
  (∀ n p bytes, pc = Replace n p bytes → p ≠ 0 → ∀ l2, avoids p (history out l2) → sublist l2 l → avoids p (history out' l2)) →
  answered out pc l → answered out' pc l.
Proof.
  intros H1 H2. destruct pc as [| | | | | |n p bytes|n p bytes new]; cbn; try done.
  - intros [Ho Hp]. split; [by rewrite H1|]. intros H0. destruct (Hp H0) as (l1 & b & l2 & -> & Hb & Hob & Hop & Ha).
    exists l1, b, l2. do 4 (split; [done|]). apply (H2 n p bytes); [done..|]. apply sublist_inserts_l. by apply sublist_cons.
  - intros <-. by apply H1.
Qed.

Lemma answered_snoc out pc l r :
  (∀ n p bytes, pc = Replace n p bytes → p ≠ 0 → avoids p (ev out r)) → answered out pc l → answered out pc (l ++ [r]).
Proof.
  intros Hr. destruct pc as [| | | | | |n p bytes|n p bytes new]; cbn; try done.
  intros [Ho Hp]. split; [done|]. intros H0. destruct (Hp H0) as (l1 & b & l2 & -> & Hb & Hob & Hop & Ha).
  exists l1, b, (l2 ++ [r]). split; [by rewrite <- app_assoc|]. do 3 (split; [done|]).
  rewrite history_app, history_one. apply Forall_app. split; [done|]. by apply (Hr n p bytes).
Qed.

Lemma replace_owns s t n p bytes : threads s t = Replace n p bytes → p ≠ 0 → owns s t p true.
Proof. intros E H. unfold owns. rewrite E. cbn. by rewrite (proj2 (Z.eqb_neq _ _)). Qed.

(** A thread moves without a record and keeps what is open. *)
Lemma told_move s out o t pc iu h :
  told s out o → answered out pc (log s) →
  (∀ a, (a ∈ held s ∨ owned (threads s t) = Some (a, true)) ↔ (a ∈ h ∨ owned pc = Some (a, true))) →
  told (mkSystem (set_pc t pc (threads s)) iu h (internal s) (log s)) out o.
Proof.
  intros [H1 H2 H3 H4] Ha Ho. split; cbn [log threads held]; [done| |done|].
  - intros a. rewrite H2. specialize (Ho a). split.
    + intros [Hh|[t' Ht]]; [|destruct (Z.eq_dec t' t) as [->|Hne]].
      * destruct (proj1 Ho (or_introl Hh)) as [?|?]; [by left|]. right. exists t. rewrite owns_set_pc, Z.eqb_refl. done.
      * destruct (proj1 Ho (or_intror Ht)) as [?|?]; [by left|]. right. exists t. rewrite owns_set_pc, Z.eqb_refl. done.
      * right. exists t'. rewrite owns_set_pc. by rewrite (proj2 (Z.eqb_neq _ _)).
    + intros [Hh|[t' Ht]].
      * destruct (proj2 Ho (or_introl Hh)) as [?|?]; [by left|]. right. by exists t.
      * rewrite owns_set_pc in Ht. destruct (Z.eqb_spec t' t) as [E|Hne]; [|right; by exists t'].
        destruct (proj2 Ho (or_intror Ht)) as [?|?]; [by left|]. right. by exists t.
  - intros t'. unfold set_pc. destruct (Z.eqb_spec t' t); [done|apply H4].
Qed.

Lemma start_owns arena c p :
  taken arena c = Some p → owned (start_call arena c) = Some (p, true).
Proof.
  destruct c as [| | | |q|q bytes]; cbn; try done; destruct (Z.eqb_spec q 0) as [->|Hq]; cbn; try done;
    destruct (Arena.is_arena arena q); cbn; try done; intros [= <-]; [done|]. by rewrite (proj2 (Z.eqb_neq q 0)).
Qed.

Lemma start_op arena c : op_of (start_call arena c) = None.
Proof. destruct c; cbn; try done; by repeat case_match. Qed.

Lemma told_call arena s out o t c :
  threads s t = Idle → (∀ p, taken arena c = Some p → p ∈ held s) → told s out o →
  told (mkSystem (set_pc t (start_call arena c) (threads s)) (in_use s) (held s ∖ opt_set (taken arena c)) (internal s) (log s)) out o.
Proof.
  intros Ht Hc Hs. apply told_move; [done|by apply answered_plain, start_op|]. intros a. rewrite Ht. cbn.
  rewrite elem_of_difference, elem_of_opt_set. split.
  - intros [Hh|?]; [|done]. destruct (taken arena c) as [p|] eqn:E; [|by left].
    destruct (decide (p = a)) as [->|Hne]; [right; by apply start_owns|left; split; [done|congruence]].
  - intros [[? _]|Ho]; [by left|]. apply start_owned in Ho as [Hp _]. left. by apply Hc.
Qed.

(** A realloc keeps its pointer. *)
Lemma told_kept pid epoch s out o t result iu :
  separate s → numbered pid epoch s → told s out o →
  match threads s t with Allocate _ => True | Release _ => True | Replace _ p bytes => retires_old p bytes result = false | _ => False end →
  told (mkSystem (set_pc t (returned (threads s t) result) (threads s)) iu (held s) (internal s) (log s)) out o.
Proof.
  intros Hsep Hnum Hs Hpc. pose proof (t_pc _ _ _ Hs t) as Ha. destruct (threads s t) as [|bytes| | |p| |n p bytes|] eqn:E; try done.
  - apply told_move; [done|apply answered_plain; cbn; by case_match|]. intros a. rewrite E. cbn. case_match; cbn; intuition congruence.
  - apply told_move; [done|done|]. intros a. rewrite E. cbn. intuition congruence.
  - destruct (n_begun _ _ _ Hnum t n ltac:(by rewrite E)) as [Hn _]. cbn in Ha. destruct Ha as [Ha _].
    apply told_move; [done| |]; cbn [returned]; rewrite (proj2 (Z.eqb_neq n 0)) by lia.
    + cbn. by rewrite Hpc.
    + intros a. rewrite E. cbn. revert Hpc. unfold retires_old.
      destruct (Z.eqb_spec p 0), (Z.eqb_spec result 0), (Z.eqb_spec bytes 0); cbn; try done; intuition congruence.
Qed.

(** The answer true for the begin [n], whose pointer is [p], adds only the end of [p]. *)
Lemma history_answer out n p l e :
  (∀ b, b ∈ l → sequence b = n → op b = ReallocBegin → Lifetimes.old_address b = p) →
  e ∈ history (answer out n true) l → e ∈ history out l ∨ e = Ends p.
Proof.
  unfold history. induction l as [|r l IH]; intros Hb; cbn; [by intros ?%elem_of_nil|]. rewrite !elem_of_app.
  intros [He|He]; [|destruct (IH (λ b Hx, Hb b ltac:(set_solver)) He); [by left; right|by right]].
  unfold ev in *. destruct (op r) eqn:E; try (by left; left). unfold answer in He.
  destruct (Z.eqb_spec (sequence r) n) as [En|]; [|by left; left]. right. apply list_elem_of_singleton in He. subst e. f_equal.
  apply (Hb r); [set_solver|done|done].
Qed.

(** A realloc that took its pointer away: the ending stands where the begin is. *)
Lemma told_retired pid epoch s out o t n p bytes result iu :
  separate s → numbered pid epoch s → told s out o → threads s t = Replace n p bytes → retires_old p bytes result = true →
  told (mkSystem (set_pc t (returned (threads s t) result) (threads s)) iu (held s) (internal s) (log s))
    (answer out n true) (o ∖ {[p]}).
Proof.
  intros Hsep Hnum Hs E Hr. assert (Hp : p ≠ 0) by (intros ->; done).
  destruct (n_begun _ _ _ Hnum t n ltac:(by rewrite E)) as (Hn & _ & Hne).
  pose proof (t_pc _ _ _ Hs t) as Ha. rewrite E in Ha. destruct Ha as [Hout Hpend]. destruct (Hpend Hp) as (l1 & b & l2 & El & Eb & Ob & Ab & Hav).
  pose proof (replace_owns s t n p bytes E Hp) as Hown. destruct (s_own _ Hsep t p true Hown) as (_ & Hheld & _ & _).
  assert (Hseq : ∀ r, r ∈ log s → sequence r = n → r = b).
  { intros r Hx Hy. pose proof (n_nodup _ _ _ Hnum) as Hnd. apply list_elem_of_lookup in Hx as [i Hi].
    assert (Hb : log s !! length l1 = Some b) by (rewrite El; apply list_lookup_middle; done).
    assert (i = length l1) as ->; [|congruence].
    eapply NoDup_lookup; [exact Hnd|rewrite list_lookup_fmap, Hi; done|rewrite list_lookup_fmap, Hb; cbn; congruence]. }
  assert (Hl : (∀ r, r ∈ l1 → sequence r ≠ n) ∧ (∀ r, r ∈ l2 → sequence r ≠ n)).
  { pose proof (n_nodup _ _ _ Hnum) as Hnd. rewrite El, fmap_app in Hnd. cbn in Hnd. apply NoDup_app in Hnd as (_ & Hd & [Hb2 _]%NoDup_cons).
    split; intros r Hx Hy.
    - apply (Hd (sequence r)); [by apply list_elem_of_fmap_2|]. rewrite Hy, <- Eb. set_solver.
    - apply Hb2. rewrite Eb, <- Hy. by apply list_elem_of_fmap_2. }
  destruct Hs as [H1 H2 H3 H4]. split; cbn [log threads held].
  - assert (Hh : ∀ l, (∀ r, r ∈ l → sequence r ≠ n) → history (answer out n true) l = history out l).
    { intros l Hx. apply history_ext. intros r Hy. by rewrite answer_ne by (by apply Hx). }
    rewrite El, history_app in H1 |- *. change (b :: l2) with ([b] ++ l2) in *. rewrite history_app, history_one in H1 |- *.
    rewrite !Hh by apply Hl. unfold ev in H1 |- *. rewrite Ob, Eb, answer_eq, Ab in *. rewrite Hout in H1. cbn [app] in H1 |- *.
    apply play_insert; [done|done|]. apply H2. right. by exists t.
  - intros a. rewrite elem_of_difference, H2, elem_of_singleton. split.
    + intros [[Hh|[t' Ht]] Hne']; [by left|]. right. exists t'. rewrite owns_set_pc. destruct (Z.eqb_spec t' t) as [->|]; [|done].
      exfalso. apply Hne'. unfold owns in *. congruence.
    + intros [Hh|[t' Ht]]; [split; [by left|congruence]|]. rewrite owns_set_pc in Ht. destruct (Z.eqb_spec t' t) as [Et|Et].
      * exfalso. rewrite E in Ht. cbn in Ht. rewrite (proj2 (Z.eqb_neq n 0)) in Ht by lia. cbn in Ht. unfold retires_old in Hr.
        destruct (result =? 0), (p =? 0), (bytes =? 0); cbn in *; done.
      * split; [right; by exists t'|]. intros ->. apply Et. by eapply (s_unique _ Hsep).
  - intros e Hx Hy. rewrite answer_ne by (by apply Hne). by apply H3.
  - intros t'. unfold set_pc. destruct (Z.eqb_spec t' t) as [->|Et].
    + rewrite E. cbn. rewrite (proj2 (Z.eqb_neq n 0)) by lia. cbn. by rewrite answer_eq.
    + apply (answered_ext out); [| |apply H4].
      * intros m Hm. apply answer_ne. intros ->. apply Et. apply (n_unique _ _ _ Hnum t' t n Hm). by rewrite E.
      * intros m q bs Eq Hq l Hav' Hsub. pose proof (replace_owns s t' m q bs Eq Hq) as Hown'.
        apply Forall_forall. intros x Hx. unfold avoids in Hav'. rewrite Forall_forall in Hav'.
        destruct (history_answer out n p l x) as [Hy| ->]; [|done|by apply Hav'|].
        -- intros r Hr' Hs' Ho'. assert (r = b) as ->; [|done]. apply Hseq; [|done]. eapply elem_of_submseteq; [exact Hr'|by apply sublist_submseteq].
        -- cbn. intros ->. apply Et. by eapply (s_unique _ Hsep).
Qed.

(** *** A row is added *)
Section row.
Context (pid epoch : Z) (s : System) (t n now : Z) (Hn : 0 < n).
Context (Hfresh : Forall (λ r, sequence r ≠ n) (log s)).
Context (out : Z → bool) (o : gset Z) (Hsep : separate s) (Hnum : numbered pid epoch s) (Hs : told s out o).

Lemma fresh_op t' m : op_of (threads s t') = Some m → m ≠ n.
Proof.
  intros H. destruct (n_begun _ _ _ Hnum t' m H) as (_ & (b & Hb & _ & <-) & _). rewrite Forall_forall in Hfresh. by apply Hfresh.
Qed.

Lemma fresh_end e : e ∈ log s → op e = ReallocEnd → op_id e ≠ n.
Proof. intros H Ho. destruct (n_ends _ _ _ Hnum e H Ho) as (b & Hb & _ & <-). rewrite Forall_forall in Hfresh. by apply Hfresh. Qed.

(** The row is about the address of its thread; the answer to a new number is free. *)
Lemma told_row out' o' pc h r :
  (∀ m, m ≠ n → out' m = out m) → play o (ev out' r) = Some o' →
  (∀ a, a ∈ o' ↔ a ∈ h ∨ owned pc = Some (a, true) ∨ ∃ t', t' ≠ t ∧ owns s t' a true) →
  (op r = ReallocEnd → out' (op_id r) = Lifetimes.retires_old r) →
  Forall (λ e, ∃ b, owned (threads s t) = Some (addr e, b)) (ev out' r) →
  answered out' pc (log s ++ [r]) →
  told (mkSystem (set_pc t pc (threads s)) (in_use s) h (internal s) (log s ++ [r])) out' o'.
Proof.
  intros Hout Hplay Hopen Hend Hev Hpc.
  assert (Hh : ∀ l, sublist l (log s) → history out' l = history out l).
  { intros l Hl. apply history_ext. intros x Hx. apply Hout. rewrite Forall_forall in Hfresh. apply Hfresh.
    eapply elem_of_submseteq; [exact Hx|by apply sublist_submseteq]. }
  split; cbn [log threads held].
  - by rewrite history_app, history_one, play_app, Hh, (t_play _ _ _ Hs).
  - intros a. rewrite Hopen. split.
    + intros [?|[?|(t' & Hne & ?)]]; [by left|..]; right.
      * exists t. by rewrite owns_set_pc, Z.eqb_refl.
      * exists t'. by rewrite owns_set_pc, (proj2 (Z.eqb_neq _ _)).
    + intros [?|[t' Ht]]; [by left|]. rewrite owns_set_pc in Ht. right. destruct (Z.eqb_spec t' t); [by left|]. right. by exists t'.
  - intros e [Hx| ->%list_elem_of_singleton]%elem_of_app Ho; [|by apply Hend].
    rewrite Hout by (by apply fresh_end). by apply (t_ends _ _ _ Hs).
  - intros t'. unfold set_pc. destruct (Z.eqb_spec t' t) as [|Hne]; [done|].
    apply answered_snoc.
    + intros m p bytes E Hp. eapply Forall_impl; [exact Hev|]. intros e [b Hb] Ee. apply Hne.
      apply (s_unique _ Hsep t' t p true b); [by eapply replace_owns|]. unfold owns. by rewrite Hb, Ee.
    + apply (answered_ext out); [intros m Hm; apply Hout; by eapply fresh_op| |apply (t_pc _ _ _ Hs)].
      intros _ p _ _ _ l Ha Hl. by rewrite Hh.
Qed.

(** What is open, but for the thread. *)
Lemma open_others a b : owned (threads s t) = Some (a, b) →
  a ∉ held s ∧ ∀ t', t' ≠ t → ¬ owns s t' a true.
Proof.
  intros H. destruct (s_own _ Hsep t a b H) as (_ & ? & _). split; [done|]. intros t' Hne H'. apply Hne.
  by apply (s_unique _ Hsep t' t a true b).
Qed.

Lemma open_split a : a ∈ o ↔ a ∈ held s ∨ owned (threads s t) = Some (a, true) ∨ ∃ t', t' ≠ t ∧ owns s t' a true.
Proof.
  rewrite (t_open _ _ _ Hs a). split.
  - intros [?|[t' Ht]]; [by left|]. right. destruct (Z.eq_dec t' t) as [->|]; [by left|]. right. by exists t'.
  - intros [?|[?|(t' & _ & ?)]]; [by left|..]; right; [by exists t|by exists t'].
Qed.

Lemma told_allocated a bytes r :
  threads s t = EmitAllocated a bytes → op r = Allocated → Lifetimes.address r = a →
  told (mkSystem (set_pc t Idle (threads s)) (in_use s) (held s ∪ {[a]}) (internal s) (log s ++ [r])) out ({[a]} ∪ o).
Proof.
  intros E Hr Ha. assert (Ho : owned (threads s t) = Some (a, false)) by by rewrite E.
  destruct (open_others a false Ho) as [Hh Hx].
  assert (Hn' : a ∉ o) by (rewrite open_split, Ho; intros [?|[?|(t' & ? & ?)]]; [done|done|by apply (Hx t')]).
  destruct (s_own _ Hsep t a false Ho) as (_ & _ & _ & H0%Z.eqb_neq).
  apply told_row; unfold ev; rewrite ?Hr, ?Ha, ?H0; try done.
  - cbn. by rewrite decide_False.
  - intros b. rewrite !elem_of_union, elem_of_singleton, open_split, Ho. cbn. intuition congruence.
  - apply Forall_singleton. by exists false.
Qed.

Lemma told_freed p r :
  threads s t = EmitFreed p → op r = Freed → Lifetimes.old_address r = p →
  told (mkSystem (set_pc t (Release p) (threads s)) (in_use s) (held s) (internal s) (log s ++ [r])) out (o ∖ {[p]}).
Proof.
  intros E Hr Ha. assert (Ho : owned (threads s t) = Some (p, true)) by by rewrite E.
  destruct (open_others p true Ho) as [Hh Hx].
  assert (Hn' : p ∈ o) by (apply open_split; right; by left).
  apply told_row; unfold ev; rewrite ?Hr, ?Ha; try done.
  - cbn. by rewrite decide_True.
  - intros b. rewrite elem_of_difference, elem_of_singleton, open_split, Ho. cbn. split.
    + intros [[?|[[= <-]|?]] ?]; [by left|done|by right; right].
    + intros [?|[?|(t' & ? & ?)]]; [|done|]; (split; [|intros ->]); [by left|done|right; right; by exists t'|by apply (Hx t')].
  - apply Forall_singleton. by exists true.
Qed.

Lemma told_begin p bytes r :
  threads s t = EmitBegin p bytes → op r = ReallocBegin → Lifetimes.old_address r = p → sequence r = n →
  told (mkSystem (set_pc t (Replace n p bytes) (threads s)) (in_use s) (held s) (internal s) (log s ++ [r]))
    (answer out n false) o.
Proof.
  intros E Hr Ha Hq. apply told_row; unfold ev; rewrite ?Hr, ?Ha, ?Hq, ?answer_eq; try done.
  - intros m Hm. by apply answer_ne.
  - intros b. by rewrite open_split, E.
  - cbn. split; [by apply answer_eq|]. intros _. exists (log s), r, []. do 4 (split; [done|]). apply Forall_nil. done.
Qed.

Lemma told_end m p bytes new r :
  threads s t = EmitEnd m p bytes new → op r = ReallocEnd → Lifetimes.address r = new → op_id r = m →
  Lifetimes.retires_old r = Calls.retires_old p bytes new →
  told (mkSystem (set_pc t Idle (threads s)) (in_use s) (held s ∪ opt_set (given (threads s t))) (internal s) (log s ++ [r]))
    out (if new =? 0 then o else {[new]} ∪ o).
Proof.
  intros E Hr Ha Hi Hret. pose proof (t_pc _ _ _ Hs t) as Hpc. rewrite E in Hpc. cbn in Hpc.
  pose proof (open_others) as Hx. pose proof open_split as Hop. rewrite E in Hx, Hop |- *. cbn [owned given] in Hx, Hop |- *.
  apply told_row; unfold ev; rewrite ?Hr, ?Ha, ?Hi, ?E; try done; try congruence; cbn [owned];
    destruct (Z.eqb_spec new 0) as [H0|H0]; cbn [negb] in *; try done.
  - cbn. destruct (Hx new false eq_refl) as [Hh Ht]. rewrite decide_False; [done|]. rewrite Hop.
    intros [?|[?|(t' & ? & ?)]]; [done|done|by apply (Ht t')].
  - intros b. rewrite Hop, elem_of_union, elem_of_opt_set. destruct (negb (p =? 0) && negb (bytes =? 0)); intuition congruence.
  - intros b. rewrite !elem_of_union, Hop, elem_of_singleton. cbn. rewrite elem_of_singleton. intuition congruence.
  - apply Forall_singleton. by exists false.
Qed.
End row.

(** *** Every step keeps the account *)
Definition accounted (pid epoch : Z) (s : System) : Prop := separate s ∧ numbered pid epoch s ∧ ∃ out o, told s out o.

Lemma accounted_initial pid epoch : accounted pid epoch initial.
Proof.
  split; [|split].
  - split; cbn; try done; set_solver.
  - split; cbn; try done; [apply NoDup_nil_2|set_solver..].
  - exists (λ _, false), ∅. split; cbn; try done; [|set_solver]. intros a. split; [set_solver|]. intros [?|[t Ht]]; [set_solver|done].
Qed.

Lemma real_op pc result :
  match pc with Allocate _ | Replace _ _ _ => True | Release _ => result = 0 | _ => False end →
  (∀ n, op_of pc = Some n → 0 < n) → op_of (returned pc result) = op_of pc.
Proof.
  destruct pc; cbn; try done; intros _ Hn; [by case_match|]. rewrite (proj2 (Z.eqb_neq _ _)); [done|].
  specialize (Hn _ eq_refl). lia.
Qed.

Lemma accounted_call pid epoch arena s t c :
  threads s t = Idle → (∀ p, taken arena c = Some p → p ∈ held s) → accounted pid epoch s →
  accounted pid epoch (mkSystem (set_pc t (start_call arena c) (threads s)) (in_use s) (held s ∖ opt_set (taken arena c)) (internal s) (log s)).
Proof.
  intros Ht Hc (Hsep & Hnum & out & o & Hs). split; [by apply separate_call|]. split.
  - apply numbered_move; [|done]. by rewrite start_op, Ht.
  - exists out, o. by apply told_call.
Qed.

Lemma accounted_real pid epoch s t result :
  match threads s t with Allocate _ | Replace _ _ _ => True | Release _ => result = 0 | _ => False end →
  (result ≠ 0 → result ∉ in_use s ∖ freed_by (threads s t) result) → accounted pid epoch s →
  accounted pid epoch (mkSystem (set_pc t (returned (threads s t) result) (threads s))
    ((in_use s ∖ freed_by (threads s t) result) ∪ opt_set (if result =? 0 then None else Some result)) (held s) (internal s) (log s)).
Proof.
  intros Hpc Hr (Hsep & Hnum & out & o & Hs). split; [by apply separate_real|]. split.
  - apply numbered_move; [|done]. apply real_op; [done|]. intros n Hn. by apply (n_begun _ _ _ Hnum t n).
  - destruct (threads s t) as [| | | | | |n p bytes|] eqn:E; try done.
    + exists out, o. rewrite <- E. apply (told_kept pid epoch); [done..|by rewrite E].
    + exists out, o. rewrite <- E. apply (told_kept pid epoch); [done..|by rewrite E].
    + destruct (retires_old p bytes result) eqn:Hret; rewrite <- E.
      * exists (answer out n true), (o ∖ {[p]}). by apply (told_retired pid epoch _ _ _ _ _ _ bytes).
      * exists out, o. apply (told_kept pid epoch); [done..|by rewrite E].
Qed.

Lemma accounted_emit pid epoch s t e n now :
  emission (threads s t) = Some e → 0 < n → Forall (λ r, sequence r ≠ n) (log s) → accounted pid epoch s →
  accounted pid epoch (mkSystem (set_pc t (emitted (threads s t) n) (threads s)) (in_use s) (held s ∪ opt_set (given (threads s t)))
    (internal s) (log s ++ [row pid epoch t n now e])).
Proof.
  intros He Hn Hf (Hsep & Hnum & out & o & Hs). split; [by eapply separate_emit|].
  destruct (threads s t) as [| |a bytes|p| |p bytes| |m p bytes new] eqn:E; try done; injection He as <-; cbn [emitted given opt_set].
  - split; [by apply (numbered_plain pid epoch s t n); rewrite ?E|]. eexists _, _. by eapply (told_allocated pid epoch).
  - split; [by apply (numbered_plain pid epoch s t n); rewrite ?E|]. rewrite union_empty_r_L. eexists _, _. by eapply (told_freed pid epoch).
  - split; [by apply (numbered_begin pid epoch s t n); rewrite ?E|]. rewrite union_empty_r_L. eexists _, _. by eapply (told_begin pid epoch).
  - split; [by apply (numbered_end pid epoch s t n) with (m := m); rewrite ?E|]. eexists _, _.
    pose proof (told_end pid epoch s t n) as H. rewrite E in H. by eapply H.
Qed.

Lemma accounted_internal pid epoch s iu i :
  (∀ a, a ∈ in_use s → a ∉ internal s → a ∈ iu ∧ a ∉ i) → (∀ a, a ∈ i → a ∈ iu) → accounted pid epoch s →
  accounted pid epoch (mkSystem (threads s) iu (held s) i (log s)).
Proof.
  intros Hk Hi ([Ho Hu Hh _] & [] & out & o & []). split; [|split].
  - split; cbn; [|done| |done].
    + intros t a b H. destruct (Ho t a b H) as (H1 & ? & H3 & ?). destruct (Hk a H1 H3). done.
    + intros a H. destruct (Hh a H) as (H1 & H3 & ?). destruct (Hk a H1 H3). done.
  - by split.
  - exists out, o. by split.
Qed.

Lemma step_accounted pid epoch arena s s' : step pid epoch arena s s' → accounted pid epoch s → accounted pid epoch s'.
Proof.
  intros Hstep Hs. destruct Hstep as [s t c|s t result|s t e n now|s a|s a].
  - by apply accounted_call.
  - apply accounted_real; [done| |done]. naive_solver.
  - by apply accounted_emit.
  - apply accounted_internal; [intros b; split; set_solver| |done]. pose proof (s_internal _ (proj1 Hs)). set_solver.
  - apply accounted_internal; [set_solver| |done]. intros b [Hb Hne]%elem_of_difference. apply elem_of_difference.
    split; [|done]. by apply (s_internal _ (proj1 Hs)).
Qed.

Lemma shim_accounted pid epoch arena s : rtc (step pid epoch arena) initial s → accounted pid epoch s.
Proof.
  intros H. eapply rtc_ind_l with (P := λ s, accounted pid epoch s → accounted pid epoch _) in H; [exact (H (accounted_initial _ _))|done|].
  intros x y Hxy _ IH Hx. by eapply IH, step_accounted.
Qed.
End Records.

(** ** The rows, replayed *)
Module Replayed.
Import Allocation Calls Threads Heap Ledger Records.
Import Lifetimes(Replay, live, lifetimes, conflicts, uncertain, outcomes, replay, replay_step, new_replay).

(** The outcomes found in the rows are the answers. *)
Lemma outcomes_answer out pid epoch m l :
  (∀ r, r ∈ l → Lifetimes.pid r = pid ∧ Lifetimes.process_epoch r = epoch) →
  (∀ e, e ∈ l → op e = ReallocEnd → out (op_id e) = Lifetimes.retires_old e) →
  (∃ e, e ∈ l ∧ op e = ReallocEnd ∧ op_id e = m) → outcomes l !! (pid, epoch, m) = Some (out m).
Proof.
  intros Hp Ho. induction l as [|r l IH] using rev_ind; [intros (e & ?%elem_of_nil & _); done|].
  intros (e & He & Hop & Hid). unfold outcomes. rewrite foldl_app. cbn. fold (outcomes l). unfold Lifetimes.has_op. destruct (Hp r) as [Hr1 Hr2]; [set_solver|].
  assert (IH' : e ∈ l → outcomes l !! (pid, epoch, m) = Some (out m)).
  { intros Hl. apply IH; [intros; apply Hp; set_solver|intros; apply Ho; set_solver|by exists e]. }
  case_bool_decide as Hend.
  - unfold Lifetimes.operation_key. rewrite Hr1, Hr2. destruct (Z.eq_dec (op_id r) m) as [<-|Hne].
    + rewrite lookup_insert_eq. f_equal. symmetry. apply Ho; [set_solver|done].
    + rewrite lookup_insert_ne by congruence. apply IH'. apply elem_of_app in He as [?| ->%list_elem_of_singleton]; [done|congruence].
  - apply IH'. apply elem_of_app in He as [?| ->%list_elem_of_singleton]; [done|congruence].
Qed.

Section simulation.
Context (pid epoch : Z) (out : Z → bool) (m : gmap Lifetimes.Key bool).

Definition at_ (a : Z) : Lifetimes.Key := (pid, epoch, a).
Lemma at_address_inj a b : at_ a = at_ b → a = b.
Proof. unfold at_. congruence. Qed.

(** The replay against the open addresses. *)
Record agrees (o : gset Z) (r : Replay) : Prop := mkAgrees {
  a_conflicts : conflicts r = 0;
  a_uncertain : uncertain r = 0;
  a_index : ∀ k i, live r !! k = Some i → (i < length (lifetimes r))%nat;
  a_live : ∀ a, is_Some (live r !! at_ a) ↔ a ∈ o
}.

(** A row whose outcome is known. *)
Definition known (x : Lifetimes.Boundary) : Prop :=
  Lifetimes.pid x = pid ∧ Lifetimes.process_epoch x = epoch ∧
  (op x = ReallocBegin → m !! Lifetimes.sequence_key x = Some (out (sequence x))).

Lemma has_op_true q x : op x = q → Lifetimes.has_op q x = true.
Proof. intros H. by apply bool_decide_eq_true. Qed.
Lemma has_op_false q x : op x ≠ q → Lifetimes.has_op q x = false.
Proof. intros H. by apply bool_decide_eq_false. Qed.

Lemma count_known x r : known x → Lifetimes.count_uncertain m x r = r.
Proof.
  intros (Hp & He & Hk). unfold Lifetimes.count_uncertain. destruct (decide (op x = ReallocBegin)) as [Hb|Hb].
  - rewrite (has_op_true _ _ Hb), (Hk Hb). done.
  - by rewrite (has_op_false _ _ Hb).
Qed.

(** An ending finds its address. *)
Lemma retire_ends x o r :
  known x → agrees o r → Lifetimes.retires m x = true → Lifetimes.old_address x ∈ o →
  ∃ r', Lifetimes.retire m x r = Done r' ∧ agrees (o ∖ {[Lifetimes.old_address x]}) r'.
Proof.
  intros (Hp & He & _) [H1 H2 H3 H4] Hr Ho. unfold Lifetimes.retire. rewrite Hr.
  destruct (proj2 (H4 _) Ho) as [i Hi]. assert (Ek : Lifetimes.old_key x = at_ (Lifetimes.old_address x)) by (unfold Lifetimes.old_key; by rewrite Hp, He). rewrite Ek, Hi. destruct (lookup_lt_is_Some_2 _ _ (H3 _ _ Hi)) as [l Hl].
  rewrite Hl. cbn. eexists. split; [done|]. split; cbn; [done|done| |].
  - intros k j [_ Hj]%lookup_delete_Some. rewrite length_insert. by apply (H3 k).
  - intros a. rewrite elem_of_difference, elem_of_singleton, <- H4. split.
    + intros [j [Hne Hj]%lookup_delete_Some]. split; [by exists j|]. congruence.
    + intros [[j Hj] Hne]. exists j. apply lookup_delete_Some. split; [by intros ?%at_address_inj|done].
Qed.

(** A beginning finds its address free. *)
Lemma introduce_begins x o r :
  known x → agrees o r → Lifetimes.introduces x = true → Lifetimes.address x ∉ o →
  agrees ({[Lifetimes.address x]} ∪ o) (Lifetimes.introduce x r).
Proof.
  intros (Hp & He & _) [H1 H2 H3 H4] Hi Ho. unfold Lifetimes.introduce. rewrite Hi. 
  assert (Ek : Lifetimes.new_key x = at_ (Lifetimes.address x)) by (unfold Lifetimes.new_key; by rewrite Hp, He). rewrite Ek.
  assert (Hn : live r !! at_ (Lifetimes.address x) = None).
  { apply eq_None_not_Some. by rewrite H4. }
  split; cbn.
  - by rewrite Hn, H1.
  - done.
  - intros k j. rewrite length_app. cbn. intros [[_ <-]|[_ Hj]]%lookup_insert_Some; [lia|]. specialize (H3 k j Hj). lia.
  - intros a. rewrite elem_of_union, elem_of_singleton, <- H4. destruct (Z.eq_dec a (Lifetimes.address x)) as [->|Hne].
    + rewrite lookup_insert_eq. split; [by left|by eexists].
    + rewrite lookup_insert_ne by (by intros ?%at_address_inj). split; [by right|by intros [?|?]].
Qed.

Lemma step_agrees x o o' r :
  known x → agrees o r → play o (ev out x) = Some o' → ∃ r', replay_step m r x = Done r' ∧ agrees o' r'.
Proof.
  intros Hk Hr. unfold replay_step, ev. rewrite (count_known x r Hk).
  assert (Hret : Lifetimes.retires m x = match op x with Freed => true | ReallocBegin => out (sequence x) | _ => false end).
  { unfold Lifetimes.retires. destruct Hk as (Hp & He & Hb). destruct (op x) eqn:E; unfold Lifetimes.has_op; rewrite E; cbn; try done.
    rewrite (Hb eq_refl). by destruct (out (sequence x)). }
  assert (Hint : Lifetimes.introduces x = match op x with Allocated | ReallocEnd => negb (Lifetimes.address x =? 0) | _ => false end).
  { unfold Lifetimes.introduces, Lifetimes.has_op. by destruct (op x). }
  assert (Hkeep : Lifetimes.retires m x = false → Lifetimes.retire m x r = Done r) by (intros H; unfold Lifetimes.retire; by rewrite H).
  assert (Hsame : ∀ r', Lifetimes.introduces x = false → Lifetimes.introduce x r' = r') by (intros r' H; unfold Lifetimes.introduce; by rewrite H).
  assert (Hdown : Lifetimes.retires m x = true → Lifetimes.introduces x = false → play o [Ends (Lifetimes.old_address x)] = Some o' →
    ∃ r', (s ← Lifetimes.retire m x r; Done (Lifetimes.introduce x s)) = Done r' ∧ agrees o' r').
  { cbn. case_decide; [|done]. intros Hx Hy [= <-]. destruct (retire_ends x o r Hk Hr Hx) as (r' & -> & Ha); [done|]. exists r'. cbn. by rewrite Hsame. }
  assert (Hup : Lifetimes.retires m x = false → Lifetimes.introduces x = true → play o [Begins (Lifetimes.address x)] = Some o' →
    ∃ r', (s ← Lifetimes.retire m x r; Done (Lifetimes.introduce x s)) = Done r' ∧ agrees o' r').
  { cbn. case_decide; [done|]. intros Hx Hy [= <-]. rewrite (Hkeep Hx). eexists. split; [done|]. by apply introduce_begins. }
  assert (Hnone : Lifetimes.retires m x = false → Lifetimes.introduces x = false → play o [] = Some o' →
    ∃ r', (s ← Lifetimes.retire m x r; Done (Lifetimes.introduce x s)) = Done r' ∧ agrees o' r').
  { intros Hx Hy [= <-]. rewrite (Hkeep Hx). exists r. cbn. by rewrite Hsame. }
  destruct (op x); [destruct (Lifetimes.address x =? 0)|..|destruct (out (sequence x))|destruct (Lifetimes.address x =? 0)]; auto.
Qed.

Lemma replay_agrees l : ∀ o o' r,
  Forall known l → agrees o r → play o (history out l) = Some o' → ∃ r', fold_outcome (replay_step m) l r = Done r' ∧ agrees o' r'.
Proof.
  induction l as [|x l IH]; intros o o' r Hk Hr; [intros [= <-]; by exists r|].
  apply Forall_cons in Hk as [Hx Hl]. change (history out (x :: l)) with (ev out x ++ history out l).
  rewrite play_app. destruct (play o (ev out x)) as [o1|] eqn:E; [|done]. cbn. intros Hp.
  destruct (step_agrees x o o1 r Hx Hr E) as (r1 & -> & Hr1). cbn. by apply (IH o1 o').
Qed.

Lemma new_agrees : agrees ∅ new_replay.
Proof. split; cbn; try done. intros a. rewrite lookup_empty. split; [by intros []|set_solver]. Qed.
End simulation.

(** No thread is inside a realloc. *)
Definition no_realloc (s : System) : Prop := ∀ t, op_of (threads s t) = None.

(** The block passed to a [free] or a [realloc] that has not recorded it yet. *)
Definition passing (pc : Pc) : option Z :=
  match pc with
  | EmitFreed p => Some p
  | EmitBegin p _ => if p =? 0 then None else Some p
  | _ => None
  end.

Lemma owned_passing pc a : op_of pc = None → owned pc = Some (a, true) ↔ passing pc = Some a.
Proof. destruct pc; cbn; try done; intros _; repeat case_match; naive_solver. Qed.

(** C5: let any number of threads call [malloc], [calloc], [aligned_alloc], [posix_memalign],
    [free] and [realloc] through the shim, interleaved in any way with each other and with
    the allocations of the collector, over an allocator that answers with any address not in
    use (an address freed in the middle of one call may be given to another thread before
    that call records anything), fails, or moves a block or not; pointers of the arena are
    passed to [free] and [realloc] as well.  Whenever no thread is inside a [realloc], that is
    between the row of its begin and the row of its end, the replay of the rows recorded so
    far returns without a conflict and without an uncertain realloc, and the addresses live in
    it are exactly those the program holds and those it has just passed to a [free] or a
    [realloc] that has not written its first row.  When every call has returned they are exactly
    those the program holds. *)
Theorem shim_lifetimes_exact (pid epoch arena : Z) (s : System) :
  rtc (step pid epoch arena) initial s → no_realloc s →
  ∃ r, replay (log s) = Done r ∧ conflicts r = 0 ∧ uncertain r = 0 ∧
    (∀ a, is_Some (live r !! (pid, epoch, a)) ↔ a ∈ held s ∨ ∃ t, passing (threads s t) = Some a) ∧
    ((∀ t, threads s t = Idle) → ∀ a, is_Some (live r !! (pid, epoch, a)) ↔ a ∈ held s).
Proof.
  intros Hr Hq. destruct (shim_accounted _ _ _ _ Hr) as (_ & Hnum & out & o & Hs).
  destruct (replay_agrees pid epoch out (outcomes (log s)) (log s) ∅ o new_replay) as (r & E & []); [|apply new_agrees|apply Hs|].
  - apply Forall_forall. intros x Hx. destruct (n_process _ _ _ Hnum x Hx) as [Hp He]. split; [done|]. split; [done|]. intros Hb.
    unfold Lifetimes.sequence_key. rewrite Hp, He. apply outcomes_answer; [apply Hnum|apply Hs|]. destruct (n_begins _ _ _ Hnum x Hx Hb) as [?|[t Ht]]; [done|]. by rewrite Hq in Ht.
  - assert (Hlive : ∀ a, is_Some (live r !! (pid, epoch, a)) ↔ a ∈ held s ∨ ∃ t, passing (threads s t) = Some a).
    { intros a. etrans; [apply (a_live0 a)|]. etrans; [apply Hs|]. unfold owns. by setoid_rewrite (owned_passing _ a (Hq _)). }
    exists r. do 3 (split; [done|]). split; [done|]. intros Hidle a. rewrite Hlive. split; [|by left].
    intros [?|[t Ht]]; [done|]. by rewrite Hidle in Ht.
Qed.

(** A run, step by step. *)
Definition called (t : Z) (c : Call) (s : System) : System :=
  mkSystem (set_pc t (start_call 4096 c) (threads s)) (in_use s) (held s ∖ opt_set (taken 4096 c)) (internal s) (log s).
Definition answers (t result : Z) (s : System) : System :=
  mkSystem (set_pc t (returned (threads s t) result) (threads s))
    ((in_use s ∖ freed_by (threads s t) result) ∪ opt_set (if result =? 0 then None else Some result)) (held s) (internal s) (log s).
Definition recorded (t n : Z) (s : System) : System :=
  match emission (threads s t) with
  | Some e => mkSystem (set_pc t (emitted (threads s t) n) (threads s)) (in_use s) (held s ∪ opt_set (given (threads s t)))
      (internal s) (log s ++ [row 7 1 t n (10 * n) e])
  | None => s
  end.
Inductive Act := ACall (t : Z) (c : Call) | AReal (t result : Z) | AEmit (t n : Z).
Definition act (s : System) (a : Act) : System :=
  match a with ACall t c => called t c s | AReal t result => answers t result s | AEmit t n => recorded t n s end.
Definition allowed (s : System) (a : Act) : bool :=
  match a with
  | ACall t c => match threads s t with Idle => true | _ => false end &&
      match taken 4096 c with Some p => bool_decide (p ∈ held s) | None => true end
  | AReal t result =>
      match threads s t with Allocate _ | Replace _ _ _ => true | Release _ => result =? 0 | _ => false end &&
      ((result =? 0) || bool_decide (result ∉ in_use s ∖ freed_by (threads s t) result) && negb (Arena.is_arena 4096 result))
  | AEmit t n => (0 <? n) && forallb (λ r, negb (sequence r =? n)) (log s)
  end.

Lemma allowed_step s a : allowed s a = true → rtc (step 7 1 4096) s (act s a).
Proof.
  destruct a as [t c|t result|t n]; cbn; intros [H1 H2]%andb_true_iff.
  - apply rtc_once, step_call; [by destruct (threads s t)|]. intros p Hp. rewrite Hp in H2.
    by apply bool_decide_eq_true in H2.
  - apply rtc_once. apply step_real; [destruct (threads s t); try done; lia|]. intros Hne.
    rewrite (proj2 (Z.eqb_neq result 0) Hne) in H2.
    apply andb_true_iff in H2 as [H2 H3]. split; [by apply bool_decide_eq_true in H2|]. by destruct (Arena.is_arena 4096 result).
  - unfold recorded. destruct (emission (threads s t)) as [e|] eqn:E; [|done]. apply rtc_once, step_emit; [done|lia|].
    apply Forall_forall. intros r Hr. rewrite forallb_forall in H2. specialize (H2 r). rewrite <- list_elem_of_In in H2. specialize (H2 Hr). lia.
Qed.

Fixpoint allowed_all (s : System) (l : list Act) : bool :=
  match l with [] => true | a :: l => allowed s a && allowed_all (act s a) l end.

Lemma run_reachable l : ∀ s, allowed_all s l = true → rtc (step 7 1 4096) s (foldl act s l).
Proof.
  induction l as [|a l IH]; intros s; cbn; [done|]. intros [Ha Hl]%andb_true_iff. etrans; [by apply allowed_step|by apply IH].
Qed.

(** While one thread is inside a realloc, another is given the address it left and frees it;
    a pointer of the arena is freed and another one reallocated. *)
Definition reuse : list Act :=
  [ACall 1 (malloc 10); AReal 1 100000; AEmit 1 1; ACall 1 (realloc 100000 20); AEmit 1 2; AReal 1 200000;
   ACall 2 (malloc 5); AReal 2 100000; AEmit 2 3; AEmit 1 4; ACall 3 (free 4112); ACall 3 (realloc 4128 64);
   AReal 3 300000; AEmit 3 5; ACall 2 (free 100000); AEmit 2 6; AReal 2 0].

Lemma shim_lifetimes_exact_witness :
  held (foldl act initial reuse) = {[200000; 300000]} ∧
  ∃ r, replay (log (foldl act initial reuse)) = Done r ∧ conflicts r = 0 ∧ uncertain r = 0 ∧
    ∀ a, is_Some (live r !! (7, 1, a)) ↔ a ∈ held (foldl act initial reuse).
Proof.
  split; [vm_compute; reflexivity|].
  assert (Hidle : ∀ t, threads (foldl act initial reuse) t = Idle) by (intros t; vm_compute; by repeat case_match).
  destruct (shim_lifetimes_exact 7 1 4096 (foldl act initial reuse)) as (r & H1 & H2 & H3 & _ & H4).
  - apply run_reachable. vm_compute. reflexivity.
  - intros t. by rewrite Hidle.
  - exists r. split; [exact H1|]. split; [exact H2|]. split; [exact H3|]. by apply H4.
Defined.
End Replayed.
