(* ===== verification/SampleTables.v ===== *)
(** * Tables of samples

    From the rows of [samples_raw] to the tables and folded stacks of a recording
    ([mperf/src/postprocess/samples.rs], [libprof/src/unwind.rs]).
    - [Module Unwind]: registers of a capture and the choice of a stack;
    - [Module Columns]: the names of the counter columns;
    - [Module Cores]: processor masks and the cluster of a processor;
    - [Module Tables]: the loop over the rows, with its caches, groups and batches.

    The walk of a stack dump, the symbols of an address and the hash are parameters.  The rows
    are those that [Dispatcher.v] stores. *)

From S2P Require Import Prelude Words Text Floats Names Classify ProcessTree Dispatcher.
From stdpp Require Import sorting.
Open Scope Z_scope.

Module Unwind.
Import Dispatch.

(** The registers the walk needs and the one with the instruction pointer. *)
Record Arch := mkArch { needed : list Z; pc_register : Z }.
Definition x86_64 : Arch := mkArch [8; 7; 6] 8.
Definition aarch64 : Arch := mkArch [30; 31; 29; 32] 32.

(** [StackSample::register]: the values are ordered by the set bits of the mask. *)
Definition register (r : UserRegs) (index : Z) : option Z :=
  if 64 <=? index then None
  else
    let bit := Z.shiftl 1 index in
    if Z.land (mask r) bit =? 0 then None
    else reg_values r !! Z.to_nat (count_ones (Z.land (mask r) (wrapping_sub bit 1))).

Section unwind.
Context (arch : Arch).
(** The frames the unwinding library yields until it ends or fails; none without tables. *)
Context (walk : SampleRow → option (list Z)).

Definition MAX_FRAMES : nat := 512.

(** [dwarf::Unwinder::unwind]. *)
Definition unwind (s : SampleRow) : option (list Z) :=
  if bool_decide (sr_user_stack s = []) then None
  else if forallb (λ i, bool_decide (is_Some (register (sr_regs s) i))) (needed arch) then
    frames ← walk s;
    let frames := take MAX_FRAMES frames in
    if (1 <? length frames)%nat then Some frames else None
  else None.

(** The group and the stack of the last capture. *)
Definition LastStack : Type := option (Z * list Z).

(** [PostHocUnwinder::resolve]. *)
Definition resolve (s : SampleRow) (last_stack : LastStack) : list Z * LastStack :=
  let frames := sr_callchain s in
  if mask (sr_regs s) =? 0 then
    (match last_stack with
     | Some (group_id, stack) => if group_id =? sr_group_id s then stack else frames
     | None => frames
     end, last_stack)
  else
    let kept := if bool_decide (frames = []) then option_list (register (sr_regs s) (pc_register arch)) else frames in
    let frames :=
      match unwind s with
      | Some stack => if (length frames <? length stack)%nat then stack else kept
      | None => kept
      end in
    (frames, Some (sr_group_id s, frames)).
End unwind.

(** A call instruction is at most 15 bytes before its return address. *)
Definition is_call_site (site ret : Z) : bool := wrapping_sub ret site <=? 15.

Definition merge_lbr_stack (frames lbr : list Z) : list Z :=
  if (length lbr <=? length frames)%nat then frames
  else
    match last frames with
    | Some outermost => if existsb (λ site, is_call_site site outermost) lbr then lbr else frames
    | None => lbr
    end.
End Unwind.

Module Columns.
Import Events.

Definition event_column_name (event : EventType * list Z) : list Z :=
  match event.1 with
  | PmuCustom => chars "pmu_" ++ Names.replace_char 46 [95] event.2
  | ty => to_string ty
  end.

(** The names that the kernel gives to some events. *)
Definition canonical (name : list Z) : list Z :=
  let lower := to_ascii_lowercase name in
  if bool_decide (lower = chars "branches") then chars "pmu_branch_instructions"
  else if bool_decide (lower = chars "cache_references") then chars "pmu_llc_references"
  else if bool_decide (lower = chars "cache_misses") then chars "pmu_llc_misses"
  else name.

Definition event_column_name_for (name : list Z) : list Z :=
  let name := canonical name in
  let column := chars "pmu_" ++ Names.replace_char 46 [95] name in
  match event_type_from_name name with
  | Some ty => to_string ty
  | None => match event_type_from_name column with Some ty => to_string ty | None => column end
  end.

(** The columns of a scenario, each once. *)
Fixpoint unseen (seen : gset (list Z)) (names : list (list Z)) : list (list Z) :=
  match names with
  | [] => []
  | n :: names =>
      if bool_decide (n = chars "pmu_unknown") then unseen seen names
      else if bool_decide (n ∈ seen) then unseen seen names else n :: unseen ({[n]} ∪ seen) names
  end.
Definition event_columns (events : list (EventType * list Z)) : list (list Z) := unseen ∅ (event_column_name <$> events).
End Columns.

Module Cores.

(** A part of a mask such as [0,5-11]; a part that does not parse is left out. *)
Definition parse_part (part : list Z) : option (Z * Z) :=
  let part := trim part in
  if bool_decide (part = []) then None
  else
    match Text.split_once 45 part with
    | Some (a, b) => a ← Proc.parse_u32 (trim a); b ← Proc.parse_u32 (trim b); Some (a, b)
    | None => v ← Proc.parse_u32 part; Some (v, v)
    end.
Definition parse_cpumask (m : list Z) : list (Z * Z) := omap parse_part (Classify.split_on (λ c, c =? 44) [] (trim m)).

(** The identifier, the name and the processors of a cluster. *)
Definition ClusterRanges : Type := list Z * list Z * list (Z * Z).

Definition cluster_of (clusters : list ClusterRanges) (cpu : Z) : option (list Z * list Z) :=
  if cpu =? u32_max then None
  else fst <$> List.find (λ c : ClusterRanges, existsb (λ r, (r.1 <=? cpu) && (cpu <=? r.2)) c.2) clusters.
End Cores.

Module Tables.
Import Segments Dispatch Unwind Columns Cores.

(** A frame of the resolver; the first is the innermost. *)
Record Symbol := mkSymbol {
  function_ : list Z; linkage_name : option (list Z); file : option (list Z); line_ : option Z; module_ : option (list Z)
}.
Record ResolvedIp := mkResolved {
  functions : list (list Z); function : list Z; symbol_name : option (list Z); r_file : list Z; r_line : Z;
  r_module_path : option (list Z)
}.
Record CounterLead := mkLead {
  group_id : Z; process_id : Z; thread_id : Z; l_cpu : Z; l_time_enabled : Z; l_time_running : Z; l_timestamp : Z; frames : list Z
}.

(** A row of [samples], of [pmu_counters] and of [cpu_observations]. *)
Record SampleOut := mkOut {
  so_timestamp : Z; so_pid : Z; so_tid : Z; so_cpu : Z; so_group_id : Z; so_event_id : Z; so_value : Z; so_time_enabled : Z;
  so_time_running : Z; so_ip : Z; so_stack_id : Z
}.
Record CounterRow := mkCounterRow {
  cr_unique_id : Z; cr_process_id : Z; cr_thread_id : Z; cr_cpu : option Z; cr_time_enabled : Z; cr_time_running : Z;
  cr_confidence : f64; cr_timestamp : Z; cr_ip : Z; cr_call_stack : list Z; cr_events : list (option Z)
}.
Record Observation := mkObservation {
  ob_process_id : Z; ob_thread_id : Z; ob_cpu : option Z; ob_timestamp : Z; ob_interval_start_ns : option Z; ob_weight_ns : Z;
  ob_source : list Z; ob_call_stack : list Z
}.

Fixpoint join_with (sep : list Z) (l : list (list Z)) : list Z :=
  match l with [] => [] | [x] => x | x :: l => x ++ sep ++ join_with sep l end.
Definition serialized_call_stack (fs : list Z) : list Z := chars "[" ++ join_with (chars ", ") (show <$> fs) ++ chars "]".

Definition flamegraph_sample_weight (counter_delta : Z) : option Z := if counter_delta =? 0 then None else Some 1.

(** [saturating_sub] of an [i64]. *)
Definition i64_saturating_sub (a b : Z) : Z := Z.max (- 2 ^ 63) (Z.min (a - b) (2 ^ 63 - 1)).

(** Addresses of a process resolved before, and the weights of folded stacks. *)
Notation Cache := (gmap (Z * Z) ResolvedIp).
Notation Graph := (gmap (list Z) Z).

Section tables.
Context (xxh3 : list Z → Z) (has_process : Z → bool) (symbols : Z → Z → list Symbol) (module_path : Z → Z → option (list Z)).
Context (arch : Arch) (walk : SampleRow → option (list Z)).
Context (strings : gmap Z (list Z)) (clusters : list ClusterRanges) (event_columns : list (list Z)) (missing_is_null : bool)
  (cpu_clock_source : list Z).

Definition stack_hash (fs : list Z) : Z := xxh3 (concat (le_bytes 8 <$> fs)).
Definition sample_identity (l : CounterLead) : Z :=
  xxh3 (le_bytes 8 (l_timestamp l) ++ le_bytes 4 (process_id l) ++ le_bytes 4 (thread_id l) ++ le_bytes 8 (group_id l)).

Definition cpu_column (cpu : Z) : option Z := if cpu =? u32_max then None else Some cpu.

(** [PmuCounters::push]. *)
Definition counter_row (l : CounterLead) (counters : gmap (list Z) Z) : option CounterRow :=
  if bool_decide (frames l = []) || negb (existsb (λ e, negb (e.2 =? 0)) (map_to_list counters)) then None
  else if negb (existsb (λ c, bool_decide (is_Some (counters !! c))) event_columns) then None
  else Some (mkCounterRow (sample_identity l) (process_id l) (thread_id l) (cpu_column (l_cpu l))
    (as_i64 (l_time_enabled l)) (as_i64 (l_time_running l))
    (if 0 <? l_time_enabled l then f64_div (u64_as_f64 (l_time_running l)) (u64_as_f64 (l_time_enabled l)) else f64_zero)
    (l_timestamp l) (default 0 (head (frames l))) (serialized_call_stack (frames l))
    ((λ c, match counters !! c with Some v => Some v | None => if missing_is_null then None else Some 0 end) <$> event_columns)).

(** [CpuObservations::push]. *)
Definition observation (l : CounterLead) (counters : gmap (list Z) Z) : option Observation :=
  match counters !! chars "os_cpu_clock" with
  | Some weight =>
      if 0 <? weight then
        Some (mkObservation (process_id l) (thread_id l) (cpu_column (l_cpu l)) (l_timestamp l)
          (if bool_decide (cpu_clock_source = chars "counter_delta") && (0 <? l_time_enabled l)
           then Some (i64_saturating_sub (l_timestamp l) (as_i64 (l_time_enabled l))) else None)
          weight cpu_clock_source (serialized_call_stack (frames l)))
      else None
  | None => None
  end.

(** ** Symbols, through a cache *)
Definition resolved (pid ip : Z) : ResolvedIp :=
  let fs := symbols pid ip in
  let primary := head fs in
  mkResolved (if bool_decide (fs = []) then [chars "[unknown]"] else function_ <$> fs)
    (default (chars "[unknown]") (function_ <$> primary)) (primary ≫= linkage_name)
    (default (chars "unknown") (primary ≫= file)) (default 0 (primary ≫= line_))
    (match primary ≫= module_ with Some p => Some p | None => module_path pid ip end).

Definition resolve_ip (cache : Cache) (pid ip : Z) : ResolvedIp * Cache :=
  match cache !! (pid, ip) with
  | Some r => (r, cache)
  | None => let r := resolved pid ip in (r, <[(pid, ip) := r]> cache)
  end.

Definition folded_frame (pid : Z) (acc : list (list Z) * Cache) (ip : Z) : list (list Z) * Cache :=
  let '(r, cache) := resolve_ip acc.2 pid ip in (acc.1 ++ (Names.encode_folded_name <$> reverse (functions r)), cache).
Definition resolve_folded_stack (cache : Cache) (pid : Z) (fs : list Z) : list Z * Cache :=
  let '(names, cache) := foldl (folded_frame pid) ([], cache) (reverse fs) in (join_with (chars ";") names, cache).

(** ** The state of the loop *)
Record Capture := mkCapture { last_stack : LastStack; stack_rows : list (Z * list Z); stack_seen : gset Z; samples : Table SampleOut }.
Record Groups := mkGroups {
  lead : option CounterLead; group : gmap (list Z) Z; folded_stack : list Z; counters : list CounterRow;
  observations : list Observation; known_ips : gset Z; resolved_ips : Cache; proc_map : list (Z * ResolvedIp);
  column_names : gmap Z (list Z)
}.
Record Graphs := mkGraphs {
  cycles : Graph; instructions : Graph; core_cycles : gmap (list Z) (list Z * Graph); core_instructions : gmap (list Z) (list Z * Graph)
}.
Record State := mkState { capture : Capture; groups : Groups; graphs : Graphs }.
Definition new_state : State :=
  mkState (mkCapture None [] ∅ new_table) (mkGroups None ∅ [] [] [] ∅ ∅ [] ∅) (mkGraphs ∅ ∅ ∅ ∅).

(** *** Every row: its stack and its sample *)
Definition intern (fs : list Z) (c : Capture) : Z * Capture :=
  let id := stack_hash fs in
  (id, if bool_decide (id ∈ stack_seen c) then c
       else mkCapture (last_stack c) (stack_rows c ++ [(id, fs)]) ({[id]} ∪ stack_seen c) (samples c)).

Definition sample_out (s : SampleRow) (id : Z) : SampleOut :=
  mkOut (sr_timestamp s) (sr_pid s) (sr_tid s) (sr_cpu s) (sr_group_id s) (sr_event_id s) (sr_value s) (sr_time_enabled s)
    (sr_time_running s) (sr_ip s) id.

(** A batch is written when it is full; an error ends the processing. *)
Definition write_full (io : Io) (t : Table SampleOut) : option (Table SampleOut) :=
  if BATCH_ROWS <=? Z.of_nat (length (rows t)) then
    let '(ok, w) := write io (rows t) (writer t) in if ok then Some (mkTable [] w) else None
  else Some t.

Definition capture_row (io : Io) (s : SampleRow) (c : Capture) : option (list Z * Capture) :=
  let '(fs, last) := Unwind.resolve arch walk s (last_stack c) in
  let fs := merge_lbr_stack fs (sr_lbr_callchain s) in
  let '(id, c) := intern fs (mkCapture last (stack_rows c) (stack_seen c) (samples c)) in
  t ← write_full io (push (sample_out s id) (samples c));
  Some (fs, mkCapture (last_stack c) (stack_rows c) (stack_seen c) t).

(** *** Rows of known processes: groups *)
Definition end_group (g : Groups) : Groups :=
  match lead g with
  | None => g
  | Some l =>
      mkGroups (lead g) ∅ (folded_stack g) (counters g ++ option_list (counter_row l (group g)))
        (observations g ++ option_list (observation l (group g))) (known_ips g) (resolved_ips g) (proc_map g) (column_names g)
  end.

Definition note_ip (pid : Z) (acc : gset Z * Cache * list (Z * ResolvedIp)) (ip : Z) : gset Z * Cache * list (Z * ResolvedIp) :=
  let '(known, cache, rows) := acc in
  if bool_decide (ip ∈ known) then acc
  else let '(r, cache) := resolve_ip cache pid ip in ({[ip]} ∪ known, cache, rows ++ [(ip, r)]).

Definition lead_of (s : SampleRow) (fs : list Z) : CounterLead :=
  mkLead (sr_group_id s) (sr_pid s) (sr_tid s) (sr_cpu s) (sr_time_enabled s) (sr_time_running s) (sr_timestamp s) fs.

Definition same_group (s : SampleRow) (g : Groups) : bool :=
  match lead g with Some l => sr_group_id s =? group_id l | None => false end.

Definition start_group (s : SampleRow) (fs : list Z) (g : Groups) : Groups :=
  if same_group s g then g
  else
    let g := end_group g in
    let '(folded, cache) := resolve_folded_stack (resolved_ips g) (sr_pid s) fs in
    let '(known, cache, rows) := foldl (note_ip (sr_pid s)) (known_ips g, cache, proc_map g) fs in
    mkGroups (Some (lead_of s fs)) (group g) folded (counters g) (observations g) known cache rows (column_names g).

Definition event_column (id : Z) : list Z := event_column_name_for (default [] (strings !! id)).
Definition column_of (s : SampleRow) (g : Groups) : list Z * gmap Z (list Z) :=
  match column_names g !! sr_event_id s with
  | Some c => (c, column_names g)
  | None => let c := event_column (sr_event_id s) in (c, <[sr_event_id s := c]> (column_names g))
  end.

(** *** Folded stacks *)
Definition add_weight (k : list Z) (w : Z) (m : Graph) : Graph := <[k := default 0 (m !! k) + w]> m.
Definition add_core (c : option (list Z * list Z)) (k : list Z) (w : Z) (m : gmap (list Z) (list Z * Graph)) : gmap (list Z) (list Z * Graph) :=
  match c with
  | None => m
  | Some (family, name) =>
      let '(name, graph) := default (name, ∅) (m !! family) in <[family := (name, add_weight k w graph)]> m
  end.

Definition fold_sample (s : SampleRow) (column folded : list Z) (g : Graphs) : Graphs :=
  match flamegraph_sample_weight (sr_value s) with
  | None => g
  | Some w =>
      if bool_decide (folded = []) then g
      else
        let cluster := cluster_of clusters (sr_cpu s) in
        if bool_decide (column = chars "pmu_cycles") then
          mkGraphs (add_weight folded w (cycles g)) (instructions g) (add_core cluster folded w (core_cycles g)) (core_instructions g)
        else if bool_decide (column = chars "pmu_instructions") then
          mkGraphs (cycles g) (add_weight folded w (instructions g)) (core_cycles g) (add_core cluster folded w (core_instructions g))
        else g
  end.

(** *** One row, and all of them *)
Definition step (st : State) (r : SampleRow * Io) : option State :=
  let '(s, io) := r in
  '(fs, c) ← capture_row io s (capture st);
  if has_process (sr_pid s) then
    let g := start_group s fs (groups st) in
    let '(column, names) := column_of s g in
    let graphs := fold_sample s column (folded_stack g) (graphs st) in
    Some (mkState c
      (mkGroups (lead g) (<[column := sr_value s]> (group g)) (folded_stack g) (counters g) (observations g) (known_ips g)
         (resolved_ips g) (proc_map g) names) graphs)
  else Some (mkState c (groups st) (graphs st)).

Fixpoint steps (st : State) (rs : list (SampleRow * Io)) : option State :=
  match rs with [] => Some st | r :: rs => st ← step st r; steps st rs end.

Record Output := mkOutput {
  o_samples : SegmentWriter SampleOut; o_stacks : list (Z * list Z); o_proc_map : list (Z * ResolvedIp);
  o_counters : list CounterRow; o_observations : list Observation; o_graphs : Graphs
}.

Definition process (rs : list (SampleRow * Io)) (io : Io) : option Output :=
  st ← steps new_state rs;
  let g := end_group (groups st) in
  let t := samples (capture st) in
  w ← (if bool_decide (rows t = []) then Some (writer t)
       else let '(ok, w) := write io (rows t) (writer t) in if ok then Some w else None);
  let '(ok, w) := Segments.finish (close_ok io) w in
  if ok then Some (mkOutput w (stack_rows (capture st)) (proc_map g) (counters g) (observations g) (graphs st)) else None.

(** *** Folded files *)
Definition folded_lines (header : list Z) (graph : Graph) : list (list Z) :=
  header :: ((λ e, e.1 ++ chars " " ++ show e.2) <$> map_to_list graph).
End tables.

(** ** The files with the rows *)
Definition segment_path (table : list Z) (seq : nat) : list Z := table ++ chars "-" ++ show (Z.of_nat seq) ++ chars ".parquet".
Definition is_segment (name : list Z) : bool := starts_with (chars "samples_raw-") name && ends_with (chars ".parquet") name.
Definition raw_segments (names : list (list Z)) : list (list Z) := merge_sort str_le (List.filter is_segment names).
End Tables.
