(* ===== verification/SampleTablesSpec.v ===== *)
(** * Tables of samples: what they hold

    The loop of [SampleTables.v] visits the rows once, with caches, batches and the group in
    progress; its tables are those of the plain definitions here: the rows cut into runs of
    one group, one row of counters and at most one observation per run, one count per sample
    in the folded stacks. *)

From S2P Require Import Prelude Words Text Floats Names FunctionAnalysis Classify ClassifySpec ProcessTree Dispatcher DispatcherSpec SampleTables.
From stdpp Require Import sorting.
Open Scope Z_scope.

(** ** Lists by key *)
Module Lists.

(** The elements whose key was not there before. *)
Fixpoint first_by {B} (key : B → Z) (seen : gset Z) (l : list B) : list B :=
  match l with
  | [] => []
  | x :: l => if bool_decide (key x ∈ seen) then first_by key seen l else x :: first_by key ({[key x]} ∪ seen) l
  end.

Lemma first_by_app {B} (key : B → Z) seen l k :
  first_by key seen (l ++ k) = first_by key seen l ++ first_by key (list_to_set (key <$> l) ∪ seen) k.
Proof.
  revert seen. induction l as [|x l IH]; intros seen; cbn.
  - f_equal. set_solver.
  - case_bool_decide; rewrite IH; cbn; [f_equal; f_equal; set_solver|]. do 3 f_equal. set_solver.
Qed.

Lemma omap_cons_list {B C} (f : B → option C) x l : omap f (x :: l) = option_list (f x) ++ omap f l.
Proof. cbn. by destruct (f x). Qed.

(** How often a key occurs. *)
Definition occurrences {B} `{EqDecision B} (k : B) (l : list B) : Z := Z.of_nat (length (filter (.= k) l)).

Lemma occurrences_app {B} `{EqDecision B} (k : B) l l' : occurrences k (l ++ l') = occurrences k l + occurrences k l'.
Proof. unfold occurrences. rewrite filter_app, length_app. lia. Qed.

Lemma occurrences_one {B} `{EqDecision B} (k x : B) : occurrences k [x] = if bool_decide (x = k) then 1 else 0.
Proof. unfold occurrences. rewrite filter_cons, filter_nil. case_bool_decide; by case_decide. Qed.
End Lists.

(** ** The plain definitions *)
Module Plain.
Import Segments Dispatch Unwind Columns Cores Tables Lists.

(** A row and its stack. *)
Definition Item : Type := SampleRow * list Z.

(** The stack of every row; only the last captured stack is carried on. *)
Fixpoint stacks_of (arch : Arch) (walk : SampleRow → option (list Z)) (last : LastStack) (rows : list SampleRow) : list Item :=
  match rows with
  | [] => []
  | s :: rows =>
      let '(fs, last) := Unwind.resolve arch walk s last in
      (s, merge_lbr_stack fs (sr_lbr_callchain s)) :: stacks_of arch walk last rows
  end.

Definition gid (x : Item) : Z := sr_group_id x.1.

(** The rows cut where the group changes; [cur] is a run that may go on. *)
Fixpoint runs_from (cur : list Item) (l : list Item) : list (list Item) :=
  match l with
  | [] => match cur with [] => [] | _ => [cur] end
  | x :: l =>
      match cur with
      | [] => runs_from [x] l
      | y :: _ => if gid x =? gid y then runs_from (cur ++ [x]) l else cur :: runs_from [x] l
      end
  end.
Definition runs : list Item → list (list Item) := runs_from [].

(** Every row with the first of its run. *)
Definition paired (r : list Item) : list (Item * Item) := match r with [] => [] | y :: _ => pair y <$> r end.
Fixpoint with_leads (cur : option Item) (l : list Item) : list (Item * Item) :=
  match l with
  | [] => []
  | x :: l =>
      let y := match cur with Some y => if gid x =? gid y then y else x | None => x end in
      (y, x) :: with_leads (Some y) l
  end.

Lemma runs_pairs l : ∀ cur, concat (paired <$> runs_from cur l) = paired cur ++ with_leads (head cur) l.
Proof.
  induction l as [|x l IH]; intros cur; cbn.
  - by destruct cur.
  - destruct cur as [|y cur]; cbn; [by rewrite IH|]. case_match; cbn.
    + rewrite IH. cbn. rewrite fmap_app. cbn. by rewrite <- app_assoc.
    + rewrite IH. done.
Qed.

(** The runs are the rows, no run is empty, a run has one group and the next another. *)
Definition one_group (r : list Item) : Prop := ∃ y t, r = y :: t ∧ Forall (λ x, gid x = gid y) t.
Definition cut (r r' : list Item) : Prop := ∀ x y, head r = Some x → head r' = Some y → gid x ≠ gid y.
Fixpoint cuts (rs : list (list Item)) : Prop :=
  match rs with [] => True | r :: rs => match rs with [] => True | r' :: _ => cut r r' end ∧ cuts rs end.

Lemma runs_from_head l : ∀ y t, ∃ k rs, runs_from (y :: t) l = (y :: t ++ k) :: rs.
Proof.
  induction l as [|x l IH]; intros y t; cbn; [exists [], []; by rewrite app_nil_r|]. case_match.
  - destruct (IH y (t ++ [x])) as (k & rs & E). rewrite E. exists (x :: k), rs. by rewrite <- app_assoc.
  - exists [], (runs_from [x] l). by rewrite app_nil_r.
Qed.

Lemma runs_from_ok l : ∀ y t, one_group (y :: t) →
  concat (runs_from (y :: t) l) = (y :: t) ++ l ∧ Forall one_group (runs_from (y :: t) l) ∧ cuts (runs_from (y :: t) l).
Proof.
  induction l as [|x l IH]; intros y t Hg; cbn.
  - split; [by rewrite !app_nil_r|]. split; [by apply Forall_singleton|done].
  - destruct (Z.eqb_spec (gid x) (gid y)) as [E|E].
    + destruct (IH y (t ++ [x])) as (H1 & H2 & H3).
      { destruct Hg as (y' & t' & [= <- <-] & Hg). exists y, (t ++ [x]). split; [done|]. apply Forall_app. split; [done|by apply Forall_singleton]. }
      split; [|done]. rewrite H1. cbn. by rewrite <- app_assoc.
    + destruct (IH x []) as (H1 & H2 & H3); [by exists x, []|]. cbn. rewrite H1. split; [done|]. split; [by constructor|].
      destruct (runs_from_head l x []) as (k & rs & Er). rewrite Er in *. split; [|done]. intros a b [= <-] [= <-]. congruence.
Qed.

Lemma runs_ok l : concat (runs l) = l ∧ Forall one_group (runs l) ∧ cuts (runs l).
Proof. destruct l as [|x l]; [by split|]. apply (runs_from_ok l x []). by exists x, []. Qed.
End Plain.

(** ** The loop *)
Module Loop.
Import Segments Dispatch Unwind Columns Cores Tables Lists Plain Stored.

Section loop.
Context (xxh3 : list Z → Z) (has_process : Z → bool) (symbols : Z → Z → list Symbol) (module_path : Z → Z → option (list Z)).
Context (arch : Arch) (walk : SampleRow → option (list Z)).
Context (strings : gmap Z (list Z)) (clusters : list ClusterRanges) (event_columns : list (list Z)) (missing_is_null : bool)
  (cpu_clock_source : list Z).
Notation step := (step xxh3 has_process symbols module_path arch walk strings clusters event_columns missing_is_null cpu_clock_source).
Notation steps := (steps xxh3 has_process symbols module_path arch walk strings clusters event_columns missing_is_null cpu_clock_source).
Notation capture_row := (capture_row xxh3 arch walk).
Notation start_group := (start_group xxh3 symbols module_path event_columns missing_is_null cpu_clock_source).
Notation end_group := (end_group xxh3 event_columns missing_is_null cpu_clock_source).
Notation counter_row := (counter_row xxh3 event_columns missing_is_null).
Notation observation := (observation cpu_clock_source).
Notation column_of := (column_of strings).
Notation event_column := (event_column strings).
Notation resolved := (resolved symbols module_path).
Notation resolve_ip := (resolve_ip symbols module_path).
Notation resolve_folded_stack := (resolve_folded_stack symbols module_path).
Notation note_ip := (note_ip symbols module_path).
Notation stack_hash := (stack_hash xxh3).
Notation stacks_of := (stacks_of arch walk).
Notation fold_sample := (fold_sample clusters).

(** *** The parts of a step *)
Definition known (x : Item) : bool := has_process (sr_pid x.1).

(** What a row of a known process does to the groups and the graphs. *)
Definition visit (gg : Groups * Graphs) (x : Item) : Groups * Graphs :=
  let g := start_group x.1 x.2 gg.1 in
  let '(column, names) := column_of x.1 g in
  (mkGroups (lead g) (<[column := sr_value x.1]> (group g)) (folded_stack g) (counters g) (observations g) (known_ips g)
     (resolved_ips g) (proc_map g) names, fold_sample x.1 column (folded_stack g) gg.2).

(** What every row does to the stacks and samples. *)
Definition out_of (x : Item) : SampleOut := sample_out x.1 (stack_hash x.2).

Lemma write_answers {Row} io (batch : list Row) w : all_ok io = true → (write io batch w).1 = true.
Proof.
  intros Hio. unfold write. case_bool_decide; [done|]. unfold all_ok in Hio.
  destruct (create_ok io), (write_ok io), (flush_ok io), (close_ok io) eqn:E; try done.
  destruct (current w); cbn; case_match; unfold roll; cbn; by rewrite ?E.
Qed.

Lemma write_full_ok io t : all_ok io = true → ∃ t', write_full io t = Some t' ∧ content t' = content t.
Proof.
  intros Hio. unfold write_full. case_match; [|by exists t].
  pose proof (write_answers io (rows t) (writer t) Hio) as Hw.
  pose proof (proj2 (write_stored io (rows t) (writer t)) Hio) as Hs. destruct (write io (rows t) (writer t)) as [ok w]. cbn in *. subst ok.
  eexists. split; [done|]. unfold content at 1. cbn. by rewrite app_nil_r, Hs.
Qed.

Lemma capture_row_ok io s c : all_ok io = true →
  let '(fs, last) := Unwind.resolve arch walk s (last_stack c) in
  let x := (s, merge_lbr_stack fs (sr_lbr_callchain s)) in
  ∃ c', capture_row io s c = Some (x.2, c') ∧ last_stack c' = last ∧ content (samples c') = content (samples c) ++ [out_of x] ∧
    stack_seen c' = {[stack_hash x.2]} ∪ stack_seen c ∧
    stack_rows c' = stack_rows c ++ first_by fst (stack_seen c) [(stack_hash x.2, x.2)].
Proof.
  intros Hio. unfold Tables.capture_row. destruct (Unwind.resolve arch walk s (last_stack c)) as [fs last]. cbn zeta.
  set (fs' := merge_lbr_stack fs (sr_lbr_callchain s)). cbn [fst snd].
  destruct (intern xxh3 fs' (mkCapture last (stack_rows c) (stack_seen c) (samples c))) as [id c1] eqn:E.
  unfold intern in E. cbn [stack_seen stack_rows last_stack samples] in E. injection E as <- <-.
  destruct (write_full_ok io (push (sample_out s (stack_hash fs')) (samples c)) Hio) as (t & Et & Ht).
  rewrite push_content in Ht. cbn [first_by fst].
  destruct (decide (stack_hash fs' ∈ stack_seen c)) as [Hin|Hin].
  - rewrite (bool_decide_eq_true_2 _ Hin). cbn [samples last_stack stack_rows stack_seen]. rewrite Et. cbn. eexists. split; [done|].
    cbn. split; [done|]. split; [done|]. split; [set_solver|by rewrite app_nil_r].
  - rewrite (bool_decide_eq_false_2 _ Hin). cbn [samples last_stack stack_rows stack_seen]. rewrite Et. cbn. by eexists.
Qed.

(** One row. *)
Lemma step_ok st s io : all_ok io = true →
  let '(fs, last) := Unwind.resolve arch walk s (last_stack (capture st)) in
  let x := (s, merge_lbr_stack fs (sr_lbr_callchain s)) in
  ∃ st', step st (s, io) = Some st' ∧ last_stack (capture st') = last ∧
    content (samples (capture st')) = content (samples (capture st)) ++ [out_of x] ∧
    stack_seen (capture st') = {[stack_hash x.2]} ∪ stack_seen (capture st) ∧
    stack_rows (capture st') = stack_rows (capture st) ++ first_by fst (stack_seen (capture st)) [(stack_hash x.2, x.2)] ∧
    (groups st', graphs st') = if known x then visit (groups st, graphs st) x else (groups st, graphs st).
Proof.
  intros Hio. pose proof (capture_row_ok io s (capture st) Hio) as Hc. unfold Tables.step.
  destruct (Unwind.resolve arch walk s (last_stack (capture st))) as [fs last]. cbn zeta in *.
  set (x := (s, merge_lbr_stack fs (sr_lbr_callchain s))) in *. destruct Hc as (c' & Ec & El & Es & Eseen & Erows).
  rewrite Ec. cbn [mbind option_bind]. unfold known, visit. cbn [fst]. change x.1 with s.
  destruct (has_process (sr_pid s)); [|by eexists]. destruct (column_of s (start_group s x.2 (groups st))). by eexists.
Qed.

(** All the rows. *)
Lemma steps_ok rs : ∀ st, Forall (λ r, all_ok r.2 = true) rs →
  let A := stacks_of (last_stack (capture st)) (fst <$> rs) in
  ∃ st', steps st rs = Some st' ∧
    content (samples (capture st')) = content (samples (capture st)) ++ (out_of <$> A) ∧
    stack_rows (capture st') = stack_rows (capture st) ++ first_by fst (stack_seen (capture st)) ((λ x, (stack_hash x.2, x.2)) <$> A) ∧
    (groups st', graphs st') = foldl visit (groups st, graphs st) (List.filter known A).
Proof.
  induction rs as [|[s io] rs IH]; intros st Hio.
  - exists st. cbn. by rewrite !app_nil_r.
  - apply Forall_cons in Hio as [Hio Hrs]. pose proof (step_ok st s io Hio) as Hc. rewrite fmap_cons. cbn [fst Plain.stacks_of].
    destruct (Unwind.resolve arch walk s (last_stack (capture st))) as [fs last]. cbn zeta in *.
    set (x := (s, merge_lbr_stack fs (sr_lbr_callchain s))) in *. destruct Hc as (st1 & E1 & El & Es & Eseen & Erows & Eg).
    destruct (IH st1 Hrs) as (st' & E' & Hs & Hr & Hg). rewrite El in *. exists st'. split; [|split; [|split]].
    + cbn [Tables.steps]. by rewrite E1.
    + by rewrite Hs, Es, <- app_assoc.
    + rewrite Hr, Erows, Eseen, <- app_assoc. f_equal. rewrite fmap_cons. cbn [first_by fst].
      case_bool_decide; [cbn; f_equal; set_solver|done].
    + rewrite Hg. cbn [List.filter]. by destruct (known x); rewrite Eg.
Qed.

(** *** The caches hold what they stand for *)
Definition cache_ok (c : Cache) : Prop := ∀ pid ip r, c !! (pid, ip) = Some r → r = resolved pid ip.

Lemma resolve_ip_ok c pid ip : cache_ok c → (resolve_ip c pid ip).1 = resolved pid ip ∧ cache_ok (resolve_ip c pid ip).2.
Proof.
  intros Hc. unfold Tables.resolve_ip. destruct (c !! (pid, ip)) as [r|] eqn:E; cbn; [split; [by apply Hc|done]|]. split; [done|].
  intros p i r. rewrite lookup_insert_Some. intros [[[= <- <-] <-]|[_ H]]; [done|by apply Hc].
Qed.

Definition folded_names (pid : Z) (fs : list Z) : list (list Z) :=
  concat ((λ ip, Names.encode_folded_name <$> reverse (functions (resolved pid ip))) <$> fs).
(** The stack of a lead, outermost function first. *)
Definition folded (pid : Z) (fs : list Z) : list Z := join_with (chars ";") (folded_names pid (reverse fs)).

Lemma folded_fold pid fs : ∀ acc c, cache_ok c →
  let r := foldl (folded_frame symbols module_path pid) (acc, c) fs in r.1 = acc ++ folded_names pid fs ∧ cache_ok r.2.
Proof.
  induction fs as [|ip fs IH]; intros acc c Hc; cbn [foldl]; [unfold folded_names; cbn; by rewrite app_nil_r|].
  unfold folded_frame at 2 4. cbn [fst snd]. destruct (resolve_ip_ok c pid ip Hc) as [H1 H2]. destruct (resolve_ip c pid ip) as [r c'].
  cbn [fst snd] in *. subst r. destruct (IH (acc ++ (Names.encode_folded_name <$> reverse (functions (resolved pid ip)))) c' H2) as [H3 H4].
  split; [|done]. cbn zeta in H3. rewrite H3, <- app_assoc. done.
Qed.

Lemma folded_ok c pid fs : cache_ok c →
  (resolve_folded_stack c pid fs).1 = folded pid fs ∧ cache_ok (resolve_folded_stack c pid fs).2.
Proof.
  intros Hc. unfold Tables.resolve_folded_stack. pose proof (folded_fold pid (reverse fs) [] c Hc) as H. cbn zeta in H.
  destruct (foldl _ _ _) as [names c']. cbn in *. destruct H as [-> H]. done.
Qed.

Definition noted (e : Z * Z) : Z * ResolvedIp := (e.2, resolved e.1 e.2).

Lemma note_ok pid fs : ∀ kn c rows, cache_ok c →
  let '(kn', c', rows') := foldl (note_ip pid) (kn, c, rows) fs in
  cache_ok c' ∧ kn' = list_to_set fs ∪ kn ∧ rows' = rows ++ (noted <$> first_by snd kn (pair pid <$> fs)).
Proof.
  induction fs as [|ip fs IH]; intros kn c rows Hc; cbn [foldl]; [cbn; rewrite app_nil_r; split; [done|split; [set_solver|done]]|].
  unfold Tables.note_ip at 2. rewrite fmap_cons. cbn [first_by snd]. case_bool_decide as Hin.
  - specialize (IH kn c rows Hc). destruct (foldl _ _ _) as [[kn' c'] rows']. destruct IH as (? & -> & ->). split; [done|]. split; [set_solver|done].
  - destruct (resolve_ip_ok c pid ip Hc) as [H1 H2]. destruct (resolve_ip c pid ip) as [r c1]. cbn in H1, H2. subst r.
    specialize (IH ({[ip]} ∪ kn) c1 (rows ++ [(ip, resolved pid ip)]) H2). destruct (foldl _ _ _) as [[kn' c'] rows'].
    destruct IH as (? & -> & ->). split; [done|]. split; [set_solver|]. rewrite <- app_assoc. done.
Qed.

(** *** Groups *)
Definition column (x : Item) : list Z := event_column (sr_event_id x.1).
Definition lead_item (x : Item) : CounterLead := lead_of x.1 x.2.
(** The counters of a run: the last value of a column. *)
Definition run_counters (r : list Item) : gmap (list Z) Z := foldl (λ m x, <[column x := sr_value x.1]> m) ∅ r.
Definition counter_of_run (r : list Item) : option CounterRow := y ← head r; counter_row (lead_item y) (run_counters r).
Definition observation_of_run (r : list Item) : option Observation := y ← head r; observation (lead_item y) (run_counters r).
(** The addresses of the lead of a run, with its process. *)
Definition lead_ips (y : Item) : list (Z * Z) := pair (sr_pid y.1) <$> y.2.
Lemma lead_ips_snd y : snd <$> lead_ips y = y.2.
Proof. unfold lead_ips. induction y.2 as [|ip l IH]; [done|]. rewrite !fmap_cons, IH. done. Qed.
Definition run_ips (r : list Item) : list (Z * Z) := match r with [] => [] | y :: _ => lead_ips y end.
Definition lead_folded (y : Item) : list Z := folded (sr_pid y.1) y.2.
Definition fold_pair (gr : Graphs) (p : Item * Item) : Graphs := fold_sample p.2.1 (column p.2) (lead_folded p.1) gr.

Record open_run (g : Groups) (cur : list Item) : Prop := mkOpen {
  o_cache : cache_ok (resolved_ips g);
  o_names : ∀ id c, column_names g !! id = Some c → c = event_column id;
  o_lead : lead g = lead_item <$> head cur;
  o_group : group g = run_counters cur;
  o_folded : folded_stack g = default [] (lead_folded <$> head cur);
  o_known : ∀ e, e ∈ run_ips cur → e.2 ∈ known_ips g
}.

(** The group of [cur] ends and that of [x] begins. *)
Lemma start_other g cur x :
  open_run g cur → (∀ y, head cur = Some y → gid x ≠ gid y) →
  let g' := start_group x.1 x.2 g in
  open_run (mkGroups (lead g') (run_counters [x]) (folded_stack g') (counters g') (observations g') (known_ips g') (resolved_ips g')
    (proc_map g') (column_names g')) [x] ∧
  group g' = ∅ ∧
  counters g' = counters g ++ option_list (counter_of_run cur) ∧ observations g' = observations g ++ option_list (observation_of_run cur) ∧
  proc_map g' = proc_map g ++ (noted <$> first_by snd (known_ips g) (lead_ips x)) ∧ known_ips g' = list_to_set x.2 ∪ known_ips g ∧
  column_names g' = column_names g.
Proof.
  intros [H1 H2 H3 H4 H5 H6] Hx. cbn zeta. unfold Tables.start_group.
  assert (same_group x.1 g = false) as ->.
  { unfold same_group. rewrite H3. destruct (head cur) as [y|] eqn:E; [|done]. cbn. apply Z.eqb_neq. by apply Hx. }
  assert (Hend : resolved_ips (end_group g) = resolved_ips g ∧ known_ips (end_group g) = known_ips g ∧ proc_map (end_group g) = proc_map g ∧
    column_names (end_group g) = column_names g ∧ group (end_group g) = ∅ ∧
    counters (end_group g) = counters g ++ option_list (counter_of_run cur) ∧
    observations (end_group g) = observations g ++ option_list (observation_of_run cur)).
  { unfold Tables.end_group, counter_of_run, observation_of_run. rewrite H3. destruct cur as [|y cur]; cbn; [|by rewrite H4].
    rewrite H4, !app_nil_r. done. }
  destruct Hend as (E1 & E2 & E3 & E4 & E5 & E6 & E7). cbn zeta. rewrite E1, E2, E3, E4, E5, E6, E7.
  destruct (folded_ok (resolved_ips g) (sr_pid x.1) x.2 H1) as [F1 F2]. destruct (resolve_folded_stack (resolved_ips g) (sr_pid x.1) x.2) as [fl c1].
  cbn in F1, F2. subst fl. pose proof (note_ok (sr_pid x.1) x.2 (known_ips g) c1 (proc_map g) F2) as N.
  destruct (foldl (note_ip (sr_pid x.1)) (known_ips g, c1, proc_map g) x.2) as [[kn c2] rows]. destruct N as (N1 & -> & ->). cbn.
  split; [|done]. split; cbn; try done. unfold lead_ips. intros e (ip & -> & Hip)%list_elem_of_fmap. cbn. set_solver.
Qed.

Lemma column_ok g x : (∀ id c, column_names g !! id = Some c → c = event_column id) →
  (column_of x.1 g).1 = column x ∧ (∀ id c, (column_of x.1 g).2 !! id = Some c → c = event_column id).
Proof.
  intros Hn. unfold Tables.column_of, column. destruct (column_names g !! sr_event_id x.1) as [c|] eqn:E; cbn; [split; [by apply Hn|done]|].
  split; [done|]. intros id c. rewrite lookup_insert_Some. intros [[<- <-]|[_ H]]; [done|by apply Hn].
Qed.

(** A row goes on with the run, or starts one. *)
Lemma visit_same g gr y cur x :
  open_run g (y :: cur) → gid x = gid y →
  let '(g', gr') := visit (g, gr) x in
  open_run g' ((y :: cur) ++ [x]) ∧ counters g' = counters g ∧ observations g' = observations g ∧ proc_map g' = proc_map g ∧
  known_ips g' = known_ips g ∧ gr' = fold_pair gr (y, x).
Proof.
  intros [H1 H2 H3 H4 H5 H6] Hx. unfold visit. cbn [fst snd].
  assert (start_group x.1 x.2 g = g) as ->.
  { unfold Tables.start_group, same_group. rewrite H3. cbn. unfold gid in Hx. by rewrite Hx, Z.eqb_refl. }
  destruct (column_ok g x H2) as [C1 C2]. destruct (column_of x.1 g) as [c names]. cbn in C1, C2. subst c. cbn.
  split; [|by rewrite H5]. split; cbn; try done. unfold run_counters. rewrite H4. change (y :: cur ++ [x]) with ((y :: cur) ++ [x]).
  by rewrite foldl_app.
Qed.

Lemma visit_other g gr cur x :
  open_run g cur → (∀ y, head cur = Some y → gid x ≠ gid y) →
  let '(g', gr') := visit (g, gr) x in
  open_run g' [x] ∧ counters g' = counters g ++ option_list (counter_of_run cur) ∧
  observations g' = observations g ++ option_list (observation_of_run cur) ∧
  proc_map g' = proc_map g ++ (noted <$> first_by snd (known_ips g) (lead_ips x)) ∧
  known_ips g' = list_to_set x.2 ∪ known_ips g ∧ gr' = fold_pair gr (x, x).
Proof.
  intros Ho Hx. destruct (start_other g cur x Ho Hx) as ([S1 S2 S3 S4 S5 S6] & G1 & G2 & G3 & G4 & G5 & G6). unfold visit. cbn [fst snd].
  set (g1 := start_group x.1 x.2 g) in *. cbn in S1, S2, S3, S4, S5, S6. destruct (column_ok g1 x S2) as [C1 C2].
  destruct (column_of x.1 g1) as [c names]. cbn in C1, C2. subst c. cbn. split; [|by rewrite S5]. split; cbn; try done.
  by rewrite G1.
Qed.

Lemma first_by_seen {B} (key : B → Z) seen l k : (∀ e, e ∈ l → key e ∈ seen) → first_by key seen (l ++ k) = first_by key seen k.
Proof.
  intros H. induction l as [|x l IH]; cbn; [done|]. rewrite bool_decide_eq_true_2 by (apply H; set_solver).
  apply IH. intros e He. apply H. set_solver.
Qed.

Definition all_ips (rs : list (list Item)) : list (Z * Z) := concat (run_ips <$> rs).

Lemma groups_ok l : ∀ g gr cur, open_run g cur →
  let '(g', gr') := foldl visit (g, gr) l in
  counters (end_group g') = counters g ++ omap counter_of_run (runs_from cur l) ∧
  observations (end_group g') = observations g ++ omap observation_of_run (runs_from cur l) ∧
  proc_map (end_group g') = proc_map g ++ (noted <$> first_by snd (known_ips g) (all_ips (runs_from cur l))) ∧
  gr' = foldl fold_pair gr (with_leads (head cur) l).
Proof.
  induction l as [|x l IH]; intros g gr cur Ho.
  - cbn [foldl with_leads runs_from]. unfold Tables.end_group. rewrite (o_lead _ _ Ho), (o_group _ _ Ho).
    destruct cur as [|y cur]; cbn [head fmap option_fmap option_map]; [cbn; rewrite ?app_nil_r; done|]. cbn [counters observations proc_map].
    rewrite !omap_cons_list. cbn [omap list_omap]. rewrite !app_nil_r.
    split; [done|]. split; [done|]. split; [|done]. unfold all_ips. rewrite fmap_cons. cbn [fmap list_fmap concat].
    rewrite first_by_seen by apply Ho. by rewrite app_nil_r.
  - cbn [foldl with_leads]. assert (Hc : (∃ y t, cur = y :: t ∧ gid x = gid y) ∨ (∀ y, head cur = Some y → gid x ≠ gid y)).
    { destruct cur as [|y t]; [by right|]. destruct (decide (gid x = gid y)); [left; by exists y, t|right; by intros ? [= <-]]. }
    destruct Hc as [(y & t & -> & E)|Hne].
    + pose proof (visit_same g gr y t x Ho E) as Hv. destruct (visit (g, gr) x) as [g1 gr1]. destruct Hv as (O1 & V1 & V2 & V3 & V4 & ->).
      specialize (IH g1 (fold_pair gr (y, x)) _ O1). cbn [runs_from head]. rewrite (proj2 (Z.eqb_eq _ _) E).
      destruct (foldl visit _ l) as [g' gr']. rewrite V1, V2, V3, V4 in IH. done.
    + pose proof (visit_other g gr cur x Ho Hne) as Hv. destruct (visit (g, gr) x) as [g1 gr1]. destruct Hv as (O1 & V1 & V2 & V3 & V4 & ->).
      specialize (IH g1 (fold_pair gr (x, x)) _ O1). destruct (foldl visit _ l) as [g' gr']. destruct IH as (I1 & I2 & I3 & I4).
      rewrite V1 in I1. rewrite V2 in I2. rewrite V3, V4 in I3. cbn [head] in I4.
      assert (Hr : runs_from cur (x :: l) = match cur with [] => [] | _ => [cur] end ++ runs_from [x] l).
      { destruct cur as [|y t]; [done|]. cbn. by rewrite (proj2 (Z.eqb_neq _ _) (Hne y eq_refl)). }
      assert (Hl : (match head cur with Some y => if gid x =? gid y then y else x | None => x end) = x).
      { destruct cur as [|y t]; [done|]. cbn. by rewrite (proj2 (Z.eqb_neq _ _) (Hne y eq_refl)). }
      rewrite Hr, Hl. rewrite I1, I2, I3, I4. split; [|split; [|split; [|done]]].
      * rewrite <- app_assoc. f_equal. destruct cur as [|y t]; [done|]. by rewrite <- omap_cons_list.
      * rewrite <- app_assoc. f_equal. destruct cur as [|y t]; [done|]. by rewrite <- omap_cons_list.
      * rewrite <- app_assoc, <- fmap_app. do 2 f_equal. destruct (runs_from_head l x []) as (k & rs & Er). rewrite Er.
        unfold all_ips. rewrite fmap_app, concat_app. rewrite first_by_seen.
        -- rewrite fmap_cons. cbn [concat run_ips]. rewrite (first_by_app snd (known_ips g)), lead_ips_snd. f_equal. apply first_by_seen.
           unfold lead_ips. intros e (ip & -> & Hip)%list_elem_of_fmap. cbn. set_solver.
        -- destruct cur as [|y t]; cbn; [by intros e ?%elem_of_nil|]. rewrite app_nil_r. apply (o_known _ _ Ho).
Qed.

(** *** Folded stacks *)
Definition weight (k : list Z) (m : Graph) : Z := default 0 (m !! k).
Definition core_weight (family k : list Z) (m : gmap (list Z) (list Z * Graph)) : Z := default 0 (m !! family ≫= λ p, p.2 !! k).

(** A sample that counts: its counter moved and the lead has a stack. *)
Definition counts (c : list Z) (p : Item * Item) : bool :=
  negb (sr_value p.2.1 =? 0) && negb (bool_decide (lead_folded p.1 = [])) && bool_decide (column p.2 = c).
Definition graph_key (c : list Z) (p : Item * Item) : option (list Z) := if counts c p then Some (lead_folded p.1) else None.
Definition core_key (c : list Z) (p : Item * Item) : option (list Z * list Z) :=
  if counts c p then (λ cl, (cl.1, lead_folded p.1)) <$> cluster_of clusters (sr_cpu p.2.1) else None.

Lemma add_weight_ok k k' w m : weight k (add_weight k' w m) = weight k m + if bool_decide (k' = k) then w else 0.
Proof.
  unfold weight, add_weight. case_bool_decide as E; [subst; by rewrite lookup_insert_eq|]. rewrite lookup_insert_ne by done. lia.
Qed.

Lemma add_core_ok family k c k' w m :
  core_weight family k (add_core c k' w m) = core_weight family k m + if bool_decide ((λ cl, (cl.1, k')) <$> c = Some (family, k)) then w else 0.
Proof.
  unfold add_core. destruct c as [[f n]|]; cbn; [|rewrite bool_decide_eq_false_2 by done; lia]. destruct (default (n, ∅) (m !! f)) as [name graph] eqn:E. unfold core_weight.
  destruct (decide (f = family)) as [->|Hf].
  - rewrite lookup_insert_eq. cbn. pose proof (add_weight_ok k k' w graph) as Ha. unfold weight in Ha. rewrite Ha.
    assert (default 0 (graph !! k) = default 0 (m !! family ≫= λ p, p.2 !! k)) as ->.
    { destruct (m !! family) as [[? ?]|]; cbn in *; injection E as <- <-; [done|by rewrite lookup_empty]. }
    repeat case_bool_decide; congruence || lia.
  - rewrite lookup_insert_ne by done. case_bool_decide; [congruence|lia].
Qed.

Lemma occurrences_option {B} `{EqDecision B} (k : B) (o : option B) : occurrences k (option_list o) = if bool_decide (o = Some k) then 1 else 0.
Proof.
  destruct o as [x|]; [|by rewrite bool_decide_eq_false_2]. change (option_list (Some x)) with [x]. rewrite occurrences_one.
  repeat case_bool_decide; congruence.
Qed.

(** One sample moves one stack by one, and only in the graphs of its counter. *)
Lemma fold_pair_ok gr p k family :
  weight k (cycles (fold_pair gr p)) = weight k (cycles gr) + occurrences k (option_list (graph_key (chars "pmu_cycles") p)) ∧
  weight k (instructions (fold_pair gr p)) = weight k (instructions gr) + occurrences k (option_list (graph_key (chars "pmu_instructions") p)) ∧
  core_weight family k (core_cycles (fold_pair gr p)) =
    core_weight family k (core_cycles gr) + occurrences (family, k) (option_list (core_key (chars "pmu_cycles") p)) ∧
  core_weight family k (core_instructions (fold_pair gr p)) =
    core_weight family k (core_instructions gr) + occurrences (family, k) (option_list (core_key (chars "pmu_instructions") p)).
Proof.
  rewrite !occurrences_option. unfold fold_pair, Tables.fold_sample, graph_key, core_key, counts, flamegraph_sample_weight.
  destruct (sr_value p.2.1 =? 0); cbn [negb andb]; [cbn; rewrite !bool_decide_eq_false_2 by done; split_and!; lia|].
  destruct (decide (lead_folded p.1 = [])) as [E|E]; [rewrite (bool_decide_eq_true_2 _ E); cbn; rewrite !bool_decide_eq_false_2 by done; split_and!; lia|].
  rewrite (bool_decide_eq_false_2 _ E). cbn [negb andb].
  destruct (decide (column p.2 = chars "pmu_cycles")) as [Ec|Ec].
  - rewrite (bool_decide_eq_true_2 _ Ec), (bool_decide_eq_false_2 (column p.2 = chars "pmu_instructions")) by (rewrite Ec; done).
    cbn [cycles instructions core_cycles core_instructions]. rewrite add_weight_ok, add_core_ok.
    rewrite !(bool_decide_eq_false_2 (None = _)) by done. split_and!; [|lia|done|lia]. repeat case_bool_decide; congruence || lia.
  - rewrite (bool_decide_eq_false_2 _ Ec). destruct (decide (column p.2 = chars "pmu_instructions")) as [Ei|Ei].
    + rewrite (bool_decide_eq_true_2 _ Ei). cbn [cycles instructions core_cycles core_instructions]. rewrite add_weight_ok, add_core_ok.
      rewrite !(bool_decide_eq_false_2 (None = _)) by done. split_and!; [lia| |lia|done]. repeat case_bool_decide; congruence || lia.
    + rewrite (bool_decide_eq_false_2 _ Ei). cbn. rewrite !bool_decide_eq_false_2 by done. split_and!; lia.
Qed.

Lemma graphs_ok l k family : ∀ gr,
  let gr' := foldl fold_pair gr l in
  weight k (cycles gr') = weight k (cycles gr) + occurrences k (omap (graph_key (chars "pmu_cycles")) l) ∧
  weight k (instructions gr') = weight k (instructions gr) + occurrences k (omap (graph_key (chars "pmu_instructions")) l) ∧
  core_weight family k (core_cycles gr') = core_weight family k (core_cycles gr) + occurrences (family, k) (omap (core_key (chars "pmu_cycles")) l) ∧
  core_weight family k (core_instructions gr') =
    core_weight family k (core_instructions gr) + occurrences (family, k) (omap (core_key (chars "pmu_instructions")) l).
Proof.
  induction l as [|p l IH]; intros gr; cbn zeta; cbn [foldl]; [unfold occurrences; cbn; split_and!; lia|].
  destruct (IH (fold_pair gr p)) as (-> & -> & -> & ->). destruct (fold_pair_ok gr p k family) as (-> & -> & -> & ->).
  rewrite !omap_cons_list, !occurrences_app. split_and!; lia.
Qed.

(** *** All of it *)
Definition stack_of (x : Item) : Z * list Z := (stack_hash x.2, x.2).
(** The stacks to count for a counter: one for every sample that counts, that of its lead. *)
Definition graph_keys (c : list Z) (R : list (list Item)) : list (list Z) := omap (graph_key c) (concat (paired <$> R)).
Definition core_keys (c : list Z) (R : list (list Item)) : list (list Z * list Z) := omap (core_key c) (concat (paired <$> R)).

Lemma open_new : open_run (groups new_state) [].
Proof.
  split; cbn; try done.
  intros e ?%elem_of_nil. done.
Qed.

Lemma write_end io (t : Table SampleOut) : all_ok io = true →
  ∃ w, (if bool_decide (rows t = []) then Some (writer t) else let '(ok, w) := write io (rows t) (writer t) in if ok then Some w else None) = Some w ∧
    (Segments.finish (close_ok io) w).1 = true ∧ durable (Segments.finish (close_ok io) w).2 = content t.
Proof.
  intros Hio. assert (Hk : close_ok io = true) by (unfold all_ok in Hio; by destruct (create_ok io), (write_ok io), (flush_ok io)).
  assert (Hend : ∀ w : SegmentWriter SampleOut, (Segments.finish true w).1 = true ∧ durable (Segments.finish true w).2 = stored w).
  { intros w. split; [unfold Segments.finish, roll; by destruct (current w)|]. unfold Segments.finish.
    rewrite <- roll_closed. by apply (roll_stored true w). }
  rewrite Hk. case_bool_decide as E.
  - exists (writer t). split; [done|]. unfold content. rewrite E, app_nil_r. apply Hend.
  - assert (Hw : (write io (rows t) (writer t)).1 = true) by (by apply write_answers).
    pose proof (proj2 (write_stored io (rows t) (writer t)) Hio) as Hs. destruct (write io (rows t) (writer t)) as [ok w]. cbn in *. subst ok.
    exists w. split; [done|]. unfold content. rewrite <- Hs. apply Hend.
Qed.

(** C7: for rows read in any batches, with input and output that succeed, the processing
    ends and its tables are exactly those of the plain definitions: [samples] has every row
    in order with the identity of its stack, [stacks] every identity once with the stack that
    had it first; the rows of processes with a map, cut into runs of one counter group, give
    one row of [pmu_counters] per run (its lead, the last value of every counter) and one of
    [cpu_observations] where the clock moved, [proc_map] has every address of a lead once;
    and in the folded graphs a stack weighs as many samples of the counter as moved it under
    a lead with that stack, in all and for every cluster of cores. *)
Theorem sample_tables_exact (rs : list (SampleRow * Io)) (io : Io) :
  Forall (λ r, all_ok r.2 = true) rs → all_ok io = true →
  let A := stacks_of None (fst <$> rs) in
  let R := runs (List.filter known A) in
  ∃ out,
    process xxh3 has_process symbols module_path arch walk strings clusters event_columns missing_is_null cpu_clock_source rs io = Some out ∧
    durable (o_samples out) = out_of <$> A ∧
    o_stacks out = first_by fst ∅ (stack_of <$> A) ∧
    o_counters out = omap counter_of_run R ∧
    o_observations out = omap observation_of_run R ∧
    o_proc_map out = noted <$> first_by snd ∅ (all_ips R) ∧
    ∀ k family,
      weight k (cycles (o_graphs out)) = occurrences k (graph_keys (chars "pmu_cycles") R) ∧
      weight k (instructions (o_graphs out)) = occurrences k (graph_keys (chars "pmu_instructions") R) ∧
      core_weight family k (core_cycles (o_graphs out)) = occurrences (family, k) (core_keys (chars "pmu_cycles") R) ∧
      core_weight family k (core_instructions (o_graphs out)) = occurrences (family, k) (core_keys (chars "pmu_instructions") R).
Proof.
  intros Hrs Hio A R. destruct (steps_ok rs new_state Hrs) as (st & Est & Hs & Hst & Hg).
  pose proof (groups_ok (List.filter known A) (groups new_state) (graphs new_state) [] open_new) as HG.
  change (last_stack (capture new_state)) with (None : LastStack) in *. fold A in Hg, Hs, Hst. rewrite <- Hg in HG.
  destruct HG as (G1 & G2 & G3 & G4). destruct (write_end io (samples (capture st)) Hio) as (w & Ew & Ef & Ed).
  unfold process. rewrite Est. cbn [mbind option_bind]. rewrite Ew. cbn [mbind option_bind].
  destruct (Segments.finish (close_ok io) w) as [ok w']. cbn in Ef, Ed. subst ok. eexists. split; [done|].
  cbn [o_samples o_stacks o_counters o_observations o_proc_map o_graphs]. rewrite Ed, Hs. split; [done|]. split; [exact Hst|].
  split; [exact G1|]. split; [exact G2|]. split; [exact G3|]. intros k family. rewrite G4.
  unfold graph_keys, core_keys, R, runs. rewrite (runs_pairs (List.filter known A) []). apply (graphs_ok _ k family (graphs new_state)).
Qed.
End loop.

(** Two groups of a known process, the second with one counter only, and a row of another. *)
Definition sample_row_of (pid group event value : Z) (chain : list Z) : SampleRow :=
  mkSampleRow 1000 pid 7 0 group event value 100 50 (default 0 (head chain)) chain [] no_regs [].
Definition sample_strings : gmap Z (list Z) := list_to_map [(1, chars "pmu_cycles"); (2, chars "pmu_instructions")].
Definition sample_input : list (SampleRow * Io) :=
  (λ s, (s, io_ok 0)) <$>
  [sample_row_of 5 10 1 300 [4096; 8192]; sample_row_of 5 10 2 200 [4096; 8192]; sample_row_of 6 11 1 9 [4096];
   sample_row_of 5 12 1 400 [4096; 8192]].

Lemma sample_tables_exact_witness :
  ∃ out,
    process (λ b, Z.of_nat (length b)) (λ pid, pid =? 5) (λ _ ip, [mkSymbol (show ip) None None None None]) (λ _ _, None) x86_64 (λ _, None)
      sample_strings [] [chars "pmu_cycles"] false (chars "sampled") sample_input (io_ok 0) = Some out ∧
    length (o_counters out) = 2%nat ∧ weight (chars "8192;4096") (cycles (o_graphs out)) = 2.
Proof.
  destruct (sample_tables_exact (λ b, Z.of_nat (length b)) (λ pid, pid =? 5) (λ _ ip, [mkSymbol (show ip) None None None None]) (λ _ _, None)
    x86_64 (λ _, None) sample_strings [] [chars "pmu_cycles"] false (chars "sampled") sample_input (io_ok 0))
    as (out & E & _ & _ & Hc & _ & _ & Hg).
  - unfold sample_input. repeat (apply Forall_cons; split; [done|]). by apply Forall_nil.
  - done.
  - exists out. split; [done|]. split; [rewrite Hc; vm_compute; done|]. destruct (Hg (chars "8192;4096") []) as (-> & _). vm_compute. done.
Defined.
End Loop.

(** ** The order of the segments *)
Module Order.
Import Segments Dispatch Tables Delivered.

Definition names (n : nat) : list (list Z) := segment_path (chars "samples_raw") <$> List.seq 0 n.

(** C40: the processing reads the segments of the recording in the order they were written
    exactly if there are at most ten of them: the names are sorted as text, in which segment 10
    comes before segment 2. *)
Theorem raw_segments_order (n : nat) : raw_segments (names n) = names n ↔ (n ≤ 10)%nat.
Proof.
  split.
  - intros H. destruct (decide (n ≤ 10)%nat) as [|Hn]; [done|exfalso].
    assert (Hs : StronglySorted str_le (names n)).
    { rewrite <- H. unfold raw_segments. apply (StronglySorted_merge_sort str_le). }
    assert (Hl : ∀ i, (i < n)%nat → names n !! i = Some (segment_path (chars "samples_raw") i)).
    { intros i Hi. unfold names. rewrite list_lookup_fmap, lookup_seq_lt by done. done. }
    assert (Hle : str_le (segment_path (chars "samples_raw") 2) (segment_path (chars "samples_raw") 10)).
    { apply (StronglySorted_app_1_elem_of str_le (take 3 (names n)) (drop 3 (names n))).
      - by rewrite take_drop.
      - apply list_elem_of_lookup. exists 2%nat. rewrite lookup_take_lt by lia. apply Hl. lia.
      - apply list_elem_of_lookup. exists 7%nat. rewrite lookup_drop. apply Hl. lia. }
    revert Hle. unfold str_le. vm_compute. done.
  - intros H. do 11 (destruct n as [|n]; [vm_compute; done|]). lia.
Qed.
End Order.

(** ** Captured registers and shared stacks *)
Module Captures.
Import Dispatch Unwind.

(** The set bits of a mask below [n], in order. *)
Definition bits (m : Z) (n : nat) : list nat := List.filter (λ i, Z.testbit m (Z.of_nat i)) (List.seq 0 n).

Lemma filter_shift (p : nat → bool) l : List.filter p (S <$> l) = S <$> List.filter (λ i, p (S i)) l.
Proof. induction l as [|i l IH]; [done|]. cbn. case_match; cbn; by rewrite IH. Qed.

Lemma bits_S m n : bits m (S n) = (if Z.odd m then [0%nat] else []) ++ (S <$> bits (m / 2) n).
Proof.
  unfold bits. cbn [List.seq]. rewrite <- (List.seq_shift n 0). change (List.map S (List.seq 0 n)) with (S <$> List.seq 0 n).
  cbn [List.filter]. rewrite <- Z.bit0_odd. change (Z.of_nat 0) with 0.
  assert (Hf : List.filter (λ i, Z.testbit m (Z.of_nat i)) (S <$> List.seq 0 n) = S <$> List.filter (λ i, Z.testbit (m / 2) (Z.of_nat i)) (List.seq 0 n)).
  { rewrite filter_shift. f_equal. apply List.filter_ext. intros i. rewrite Nat2Z.inj_succ. symmetry. apply Z.div2_bits. lia. }
  rewrite Hf. by destruct (Z.testbit m 0).
Qed.

Lemma count_ones_double a b : 0 ≤ a → count_ones (2 * a + Z.b2z b) = count_ones a + Z.b2z b.
Proof.
  intros Ha. destruct a as [|p|p]; [by destruct b| |lia]. destruct b.
  - change (2 * Z.pos p + Z.b2z true) with (Z.pos p~1). unfold count_ones. cbn [pos_ones Z.b2z]. lia.
  - change (2 * Z.pos p + Z.b2z false) with (Z.pos p~0). unfold count_ones. cbn [pos_ones Z.b2z]. lia.
Qed.

Lemma count_ones_bits n : ∀ m, 0 ≤ m → count_ones (m mod 2 ^ Z.of_nat n) = Z.of_nat (length (bits m n)).
Proof.
  induction n as [|n IH]; intros m Hm; [by rewrite Z.mod_1_r|].
  assert (E : m mod 2 ^ Z.of_nat (S n) = 2 * ((m / 2) mod 2 ^ Z.of_nat n) + Z.b2z (Z.odd m)).
  { rewrite Nat2Z.inj_succ, Z.pow_succ_r by lia. rewrite Z.rem_mul_r by lia. rewrite Zmod_odd. destruct (Z.odd m); cbn; lia. }
  rewrite E, count_ones_double by (apply Z.mod_pos_bound; lia). rewrite IH by (apply Z.div_pos; lia).
  rewrite bits_S, length_app, length_fmap. destruct (Z.odd m); cbn; lia.
Qed.

(** The capture of a register file: the values of the registers in the mask. *)
Definition captured (file : nat → Z) (m : Z) : UserRegs := mkRegs 1 m (file <$> bits m 64).

(** A register of the mask is read back, another is not there. *)
Theorem register_captured (file : nat → Z) (m : Z) (i : nat) : 0 ≤ m →
  register (captured file m) (Z.of_nat i) = if (i <? 64)%nat && Z.testbit m (Z.of_nat i) then Some (file i) else None.
Proof.
  intros Hm. unfold register. cbn [mask captured reg_values]. destruct (Nat.ltb_spec i 64) as [Hi|Hi]; cbn [andb].
  2:{ by rewrite (proj2 (Z.leb_le _ _)) by lia. }
  rewrite (proj2 (Z.leb_gt _ _)) by lia. rewrite Z.shiftl_1_l.
  assert (Hb : (Z.land m (2 ^ Z.of_nat i) =? 0) = negb (Z.testbit m (Z.of_nat i))).
  { destruct (Z.testbit m (Z.of_nat i)) eqn:E; cbn.
    - apply Z.eqb_neq. intros H. assert (Z.testbit (Z.land m (2 ^ Z.of_nat i)) (Z.of_nat i) = false) as Hx by by rewrite H, Z.bits_0.
      rewrite Z.land_spec, E, Z.pow2_bits_true in Hx by lia. done.
    - apply Z.eqb_eq. apply Z.bits_inj'. intros k Hk. rewrite Z.land_spec, Z.bits_0, Z.pow2_bits_eqb by lia.
      destruct (Z.eqb_spec (Z.of_nat i) k) as [<-|]; [by rewrite E|apply andb_false_r]. }
  rewrite Hb. destruct (Z.testbit m (Z.of_nat i)) eqn:E; cbn [negb]; [|done].
  assert (Hw : wrapping_sub (2 ^ Z.of_nat i) 1 = Z.ones (Z.of_nat i)).
  { rewrite Z.ones_equiv. unfold wrapping_sub, wrap64. apply Z.mod_small.
    pose proof (Z.pow_lt_mono_r 2 (Z.of_nat i) 64 ltac:(lia) ltac:(lia) ltac:(lia)). pose proof (Z.pow_pos_nonneg 2 (Z.of_nat i)). lia. }
  rewrite Hw, Z.land_ones, count_ones_bits, Nat2Z.id by lia.
  assert (Hs : bits m 64 = bits m i ++ i :: List.filter (λ k, Z.testbit m (Z.of_nat k)) (List.seq (S i) (63 - i))).
  { unfold bits. replace 64%nat with (i + S (63 - i))%nat at 1 by lia. rewrite List.seq_app, List.filter_app. cbn. by rewrite E. }
  rewrite Hs, fmap_app. cbn. rewrite <- (length_fmap file (bits m i)). apply list_lookup_middle. done.
Qed.
End Captures.
