(* ===== verification/MemoryReport.v ===== *)
(** * The memory report

    [mperf/src/postprocess/memory.rs]: the tables of a memory recording, from the artifact
    of the instrumentation session, its counters and the side files of the native run.
    - [Module Files]: the parsers of the side files;
    - [Module Report]: summary, timeline, working sets and the miss-ratio curve.

    Live bytes come from the replay of [AllocationTrace.v].  The artifact travels as JSON
    through a library: what is read is the record that [MemoryAnalysis.v] makes. *)

From S2P Require Import Prelude Words Text Floats MemoryAnalysis AllocationTrace.
From Corelib Require Import SpecFloat.
From stdpp Require Import sorting.
Open Scope Z_scope.

Module Files.

(** [collect] of results: the first error wins. *)
Fixpoint collect {A B} (f : A → option B) (l : list A) : option (list B) :=
  match l with [] => Some [] | x :: l => y ← f x; ys ← collect f l; Some (y :: ys) end.

(** One [name=value] line. *)
Definition counter_line (line : list Z) : option (list Z * Z) :=
  match Text.split_once 61 line with
  | Some (name, value) => v ← parse_u64 value; Some (name, v)
  | None => None
  end.
(** A later line wins. *)
Definition parse_counter_file (contents : list Z) : option (gmap (list Z) Z) :=
  (λ l, foldl (λ m e, <[e.1 := e.2]> m) ∅ l) <$> collect counter_line (lines contents).

Definition rss_line (line : list Z) : option (Z * Z) :=
  let fields := split_whitespace line in
  timestamp ← fields !! 0%nat ≫= parse_u64;
  rss ← fields !! 1%nat ≫= parse_u64;
  Some (timestamp, rss).
(** A file that cannot be read has no samples. *)
Definition parse_rss_samples (contents : option (list Z)) : option (list (Z * Z)) :=
  match contents with None => Some [] | Some c => collect rss_line (lines c) end.

Record BandwidthSample := mkBandwidth { b_timestamp : Z; read_bytes : Z; write_bytes : Z }.
Definition bandwidth_line (line : list Z) : option BandwidthSample :=
  let fields := split_whitespace line in
  timestamp ← fields !! 0%nat ≫= parse_u64;
  read ← fields !! 1%nat ≫= parse_u64;
  written ← fields !! 2%nat ≫= parse_u64;
  Some (mkBandwidth timestamp read written).
Definition parse_bandwidth_samples (contents : option (list Z)) : option (list BandwidthSample) :=
  match contents with None => Some [] | Some c => collect bandwidth_line (lines c) end.
End Files.

Module Report.
Import MemoryAnalysis Files AllocationTrace.

Definition f64_sub : f64 → f64 → f64 := SFsub 53 1024.
Definition quotient (a b : Z) : f64 := Floats.f64_div (u64_as_f64 a) (u64_as_f64 b).

(** ** The summary *)
Record Bandwidth := mkTraffic { total_bytes : Z; source_ : string; scope : string }.

(** The memory controller's counters, or the traffic of the cache model. *)
Definition primary (counts : gmap (list Z) Z) (samples : list BandwidthSample) : Bandwidth :=
  match last samples with
  | Some s => mkTraffic (saturating_add (read_bytes s) (write_bytes s)) "hardware_memory_controller" "system_during_target"
  | None =>
      mkTraffic (saturating_add (default 0 (counts !! chars "dram_bytes_load")) (default 0 (counts !! chars "dram_bytes_store")))
        "process_modeled" "process"
  end.
Definition achieved (b : Bandwidth) (start_ns end_ns : Z) : option f64 :=
  let duration := saturating_sub end_ns start_ns in if duration =? 0 then None else Some (quotient (total_bytes b) duration).
Definition bandwidth_utilization (achieved peak : option f64) : option f64 :=
  match achieved, peak with
  | Some a, Some p => if f64_ltb f64_zero p then Some (Floats.f64_div a p) else None
  | _, _ => None
  end.
Definition cold_fraction (a : MemoryArtifact) : option f64 :=
  if a_references a =? 0 then None else Some (quotient (a_cold_references a) (a_references a)).
(** [Iterator::max]. *)
Definition peak_rss (samples : list (Z * Z)) : option Z :=
  match samples with [] => None | s :: rest => Some (foldl Z.max s.2 (snd <$> rest)) end.
Definition report_quality (method : list Z) (allocations : option AllocationSummary) : list Z :=
  match allocations with
  | Some a => if s_child_seen a then method ++ chars "+children-excluded" else method
  | None => method
  end.

(** ** The timeline *)
Record TimelinePoint := mkTimeline {
  t_timestamp : Z; allocated : option Z; mapped : option Z; rss : option Z; read : option f64; write : option f64; t_source : option string
}.
Definition rss_point (s : Z * Z) : TimelinePoint := mkTimeline (as_i64 s.1) None None (Some (as_i64 s.2)) None None None.
(** Two samples of the controller; none if no time passed. *)
Definition bandwidth_point (a b : BandwidthSample) : option TimelinePoint :=
  let elapsed := saturating_sub (b_timestamp b) (b_timestamp a) in
  if elapsed =? 0 then None
  else Some (mkTimeline (as_i64 (b_timestamp b)) None None None
    (Some (quotient (saturating_sub (read_bytes b) (read_bytes a)) elapsed))
    (Some (quotient (saturating_sub (write_bytes b) (write_bytes a)) elapsed)) (Some "hardware_memory_controller"%string)).
(** [windows(2)]. *)
Fixpoint windows {A} (l : list A) : list (A * A) :=
  match l with a :: l' => match l' with b :: _ => (a, b) :: windows l' | [] => [] end | [] => [] end.
Definition allocation_point (p : AllocationPoint) : TimelinePoint :=
  mkTimeline (as_i64 (timestamp p)) (Some (as_i64 (p_live_allocated p))) (as_i64 <$> p_live_mapped p) None None None None.
Definition timeline (rss : list (Z * Z)) (bandwidth : list BandwidthSample) (allocations : option AllocationSummary) : list TimelinePoint :=
  (rss_point <$> rss) ++ omap (λ w, bandwidth_point w.1 w.2) (windows bandwidth) ++
  match allocations with Some a => allocation_point <$> s_points a | None => [] end.

(** ** Working sets and histograms *)
Definition working_set_row (line_size : Z) (w : WorkingSetArtifact) : Z * f64 * Z * Z :=
  (as_i64 (window_references w), f64_mul (mean_lines w) (u64_as_f64 line_size), as_i64 (saturating_mul (p95_lines w) line_size),
   as_i64 (saturating_mul (max_lines w) line_size)).
Definition histogram_rows (values : gmap Z Z) : list (Z * Z) := (λ e, (e.1, as_i64 e.2)) <$> merge_sort entry_le (map_to_list values).

(** ** The miss-ratio curve *)
Definition powers : list Z := seqZ 0 31.
(** The references that hit in a cache of [2 ^ power] lines. *)
Definition hits (distances : gmap Z Z) (power : Z) : Z :=
  foldl wrapping_add 0 (snd <$> List.filter (λ e, e.1 <=? power) (merge_sort entry_le (map_to_list distances))).
Definition miss_ratio (a : MemoryArtifact) (power : Z) : f64 :=
  if a_references a =? 0 then f64_zero else f64_sub f64_one (quotient (hits (reuse_distance_log2 a) power) (a_references a)).
(** Lines, bytes and ratio. *)
Definition miss_rows (a : MemoryArtifact) : list (Z * Z * f64) :=
  (λ p, (Z.shiftl 1 p, as_i64 (saturating_mul (Z.shiftl 1 p) (a_line_size a)), miss_ratio a p)) <$> powers.

(** ** All tables *)
Record Tables := mkTables {
  r_bandwidth : Bandwidth; r_achieved : option f64; r_utilization : option f64; r_cold : option f64; r_peak_rss : option Z;
  r_quality : list Z; r_allocations : option AllocationSummary; r_timeline : list TimelinePoint; r_working_set : list (Z * f64 * Z * Z);
  r_spatial : list (Z * Z); r_strides : list (Z * Z); r_reuse : list (Z * Z); r_miss : list (Z * Z * f64)
}.

(** The allocations come from the table of a traced recording ([typed]) or from the log. *)
Definition process (a : MemoryArtifact) (start_ns end_ns : Z) (counts : list Z) (bandwidth rss allocation_log : option (list Z))
    (typed : option (option AllocationSummary)) (peak : option f64) (method : list Z) : option Tables :=
  if negb (format_version a =? 1) then None
  else
    counts ← parse_counter_file counts;
    samples ← parse_bandwidth_samples bandwidth;
    rss ← parse_rss_samples rss;
    allocations ← match typed with Some t => Some t | None => parse_allocation_samples allocation_log end;
    let b := primary counts samples in
    Some (mkTables b (achieved b start_ns end_ns) (bandwidth_utilization (achieved b start_ns end_ns) peak) (cold_fraction a)
      (peak_rss rss) (report_quality method allocations) allocations (timeline rss samples allocations)
      (working_set_row (a_line_size a) <$> working_set a) (histogram_rows (spatial_utilization_percent a))
      (histogram_rows (stride_lines_log2 a)) (histogram_rows (reuse_distance_log2 a)) (miss_rows a)).
End Report.
