(* ===== verification/MemoryReportSpec.v ===== *)
(** * The memory report: what it shows

    The miss-ratio curve computed from the histogram of reuse distances is the curve of a
    fully associative least-recently-used cache run on the same references; the report of a
    session is made from the counters it wrote.  The live bytes of the log are the subject of
    [AllocationTraceSpec.v]. *)

From S2P Require Import Prelude Words Text Floats OrderTree MemoryAnalysis MemorySpec Capi CapiSpec Artifacts ArtifactsSpec AllocationTrace MemoryReport.
From stdpp Require Import sorting.
Open Scope Z_scope.

(** ** The curve *)
Module Curve.
Import MemoryAnalysis TraceSpec Report AllocationTrace.
Notation total := MemorySpec.total.

(** A fully associative cache with [n] lines after the references [past] (the last first): its
    lines, the most recently used first. *)
Fixpoint lru (n : nat) (past : list Z) : list Z :=
  match past with [] => [] | l :: past => take n (l :: filter (λ x, x ≠ l) (lru n past)) end.
(** The references that find their line in it. *)
Fixpoint lru_hits (n : nat) (past : list Z) : Z :=
  match past with [] => 0 | l :: past => lru_hits n past + Z.b2z (bool_decide (l ∈ lru n past)) end.

(** *** The cache holds the most recent distinct lines *)
Fixpoint recent (past : list Z) : list Z :=
  match past with [] => [] | l :: past => l :: filter (λ x, x ≠ l) (recent past) end.

Lemma elem_of_recent past l : l ∈ recent past ↔ l ∈ past.
Proof.
  induction past as [|x past IH]; cbn; [done|]. rewrite !elem_of_cons, list_elem_of_filter, IH.
  destruct (decide (l = x)); naive_solver.
Qed.

Lemma NoDup_recent past : NoDup (recent past).
Proof.
  induction past as [|x past IH]; cbn; [apply NoDup_nil_2|]. apply NoDup_cons. split; [|by apply NoDup_filter].
  rewrite list_elem_of_filter. naive_solver.
Qed.

Lemma filter_fresh (l : Z) (xs : list Z) : l ∉ xs → filter (λ x, x ≠ l) xs = xs.
Proof.
  intros H. induction xs as [|x xs IH]; [done|]. rewrite filter_cons_True by set_solver. f_equal. apply IH. set_solver.
Qed.

Lemma take_filter_take n (l : Z) (xs : list Z) : NoDup xs →
  take n (l :: filter (λ x, x ≠ l) (take n xs)) = take n (l :: filter (λ x, x ≠ l) xs).
Proof.
  intros Hn. destruct n as [|n]; [done|]. cbn [take]. f_equal. revert n. induction Hn as [|x xs Hx Hn IH]; intros n; [by rewrite take_nil|].
  destruct (decide (x = l)) as [->|Hne].
  - cbn [take]. rewrite !filter_cons_False by naive_solver. rewrite filter_fresh by (intros H; by apply Hx, (subseteq_take n xs)).
    rewrite filter_fresh by done. by rewrite take_take, Nat.min_id.
  - cbn [take]. rewrite !filter_cons_True by done. destruct n as [|n]; [done|]. cbn [take]. f_equal. apply IH.
Qed.

Lemma lru_recent n past : lru n past = take n (recent past).
Proof.
  induction past as [|l past IH]; cbn [lru recent]; [by rewrite take_nil|]. rewrite IH. apply take_filter_take, NoDup_recent.
Qed.

(** *** Stack distance is depth *)
Lemma filter_filter_ne (a b : Z) (xs : list Z) : filter (λ x, x ≠ a) (filter (λ x, x ≠ b) xs) = filter (λ x, x ≠ b) (filter (λ x, x ≠ a) xs).
Proof.
  induction xs as [|x xs IH]; [done|]. rewrite !filter_cons. repeat case_decide; rewrite ?filter_cons; repeat case_decide; try done; by rewrite IH.
Qed.

Lemma filter_recent l past : filter (λ x, x ≠ l) (recent past) = recent (filter (λ x, x ≠ l) past).
Proof.
  induction past as [|x past IH]; [done|]. cbn [recent]. rewrite !filter_cons. case_decide; cbn [recent]; [|].
  - by rewrite filter_filter_ne, IH.
  - assert (x = l) as -> by (by destruct (decide (x = l))). rewrite <- IH. apply filter_fresh. rewrite list_elem_of_filter. naive_solver.
Qed.

(** The lines before the last use of [l] are on top of it. *)
Lemma recent_since past l since_ : since past l = Some since_ → ∃ rest, recent past = recent since_ ++ l :: rest.
Proof.
  revert since_. induction past as [|x past IH]; intros since_; cbn; [done|]. destruct (Z.eqb_spec x l) as [->|Hne].
  - intros [= <-]. by eexists.
  - destruct (since past l) as [s|] eqn:E; [|done]. intros [= <-]. destruct (IH s eq_refl) as [rest Er]. cbn [recent]. rewrite Er.
    rewrite filter_app, filter_cons_True by done. by eexists.
Qed.

Lemma since_None past l : since past l = None → l ∉ past.
Proof.
  induction past as [|x past IH]; cbn; [set_solver|]. destruct (Z.eqb_spec x l); [done|]. destruct (since past l); [done|]. set_solver.
Qed.

Lemma length_recent past : Z.of_nat (length (recent past)) = distinct past.
Proof.
  unfold distinct. f_equal. apply Permutation_length. apply NoDup_Permutation; [apply NoDup_recent|apply NoDup_remove_dups|].
  intros l. by rewrite elem_of_recent, elem_of_remove_dups.
Qed.

Lemma lru_distance n past l : l ∈ lru n past ↔ ∃ d, stack_distance past l = Some d ∧ d < Z.of_nat n.
Proof.
  rewrite lru_recent. unfold stack_distance. destruct (since past l) as [s|] eqn:E; cbn.
  - destruct (recent_since past l s E) as [rest Er]. rewrite <- length_recent. pose proof (NoDup_recent past) as Hn. rewrite Er in Hn |- *.
    apply NoDup_app in Hn as (_ & Hd & _). split.
    + intros Hl. eexists. split; [done|]. destruct (decide (length (recent s) < n)%nat) as [|Hge]; [lia|]. exfalso.
      rewrite take_app_le in Hl by lia. apply (Hd l); [by apply (subseteq_take n (recent s))|set_solver].
    + intros (d & [= <-] & Hlt). rewrite take_app_ge by lia. apply elem_of_app. right.
      destruct (n - length (recent s))%nat eqn:Ek; [lia|]. cbn. set_solver.
  - split; [|by intros (? & ? & _)]. intros Hl. exfalso. apply (since_None past l E). apply elem_of_recent. by apply (subseteq_take n (recent past)).
Qed.

(** *** The histogram up to a bucket *)
Lemma bucket_le d p : 0 ≤ d → 0 ≤ p → distance_bucket d ≤ p ↔ d < 2 ^ p.
Proof.
  intros Hd Hp. unfold distance_bucket, leading_zeros. destruct (Z.eqb_spec d 0) as [->|Hne].
  - pose proof (Z.pow_pos_nonneg 2 p). lia.
  - rewrite (Z.log2_lt_pow2 d p) by lia. lia.
Qed.

Lemma distinct_bound past l d : stack_distance past l = Some d → 0 ≤ d ≤ Z.of_nat (length past).
Proof.
  unfold stack_distance. destruct (since past l) as [s|] eqn:E; [|done]. intros [= <-]. pose proof (distinct_range s).
  assert (length s ≤ length past)%nat; [|lia].
  revert s E H. induction past as [|x past IH]; cbn; intros s E H; [done|]. case_match; [simplify_eq; cbn; lia|].
  apply fmap_Some in E as (s' & E & ->). cbn. assert (length s' ≤ length past)%nat; [|lia]. apply IH; [done|apply distinct_range].
Qed.

Lemma total_take_bump n i h : 0 ≤ i → (Z.to_nat i < length h)%nat → Forall (λ x, 0 ≤ x < u64_max) h →
  total (take n (bump i h)) = total (take n h) + Z.b2z (bool_decide (Z.to_nat i < n)%nat).
Proof.
  intros H0 Hi Hh. unfold bump. case_bool_decide as Hn.
  - rewrite take_alter_lt by done. change (alter _ (Z.to_nat i) (take n h)) with (bump i (take n h)). rewrite total_bump; [cbn; lia| |].
    + rewrite length_take. lia.
    + by apply Forall_take.
  - rewrite take_alter_ge by lia. cbn. lia.
Qed.

(** The references whose distance falls below [2 ^ p] are the hits. *)
Lemma histogram_hits p past : 0 ≤ p → Z.of_nat (length past) ≤ u64_max →
  total (take (S (Z.to_nat p)) (distance_histogram past)) = lru_hits (Z.to_nat (2 ^ p)) past.
Proof.
  intros Hp. induction past as [|l past IH]; intros Hlen.
  { cbn [distance_histogram lru_hits]. rewrite take_replicate. induction (_ `min` _)%nat as [|k IHk]; [done|]. cbn. unfold MemorySpec.total in IHk. lia. }
  cbn [distance_histogram lru_hits length] in *. rewrite <- IH by lia. destruct (histogram_total past) as (H1 & H2 & _); [lia|].
  assert (H3 : Forall (λ x, 0 ≤ x < u64_max) (distance_histogram past)) by (eapply Forall_impl; [exact H2|]; cbn; lia).
  pose proof (lru_distance (Z.to_nat (2 ^ p)) past l) as Hl. pose proof (Z.pow_pos_nonneg 2 p).
  destruct (stack_distance past l) as [d|] eqn:E.
  - pose proof (distinct_bound past l d E) as Hd. pose proof (bucket_range d ltac:(lia)) as Hb. pose proof (bucket_le d p ltac:(lia) Hp) as Hbp.
    rewrite total_take_bump by (try done; lia). f_equal. f_equal. apply bool_decide_ext. rewrite Hl. split.
    + intros Hx. exists d. split; [done|]. rewrite Z2Nat.id by lia. apply Hbp. lia.
    + intros (d' & [= <-] & Hx). rewrite Z2Nat.id in Hx by lia. apply Hbp in Hx. lia.
  - rewrite bool_decide_eq_false_2 by (rewrite Hl; by intros (? & ? & _)). cbn. lia.
Qed.

(** *** The sum over the buckets *)
Lemma foldl_wrapping l : ∀ a, foldl wrapping_add (wrap64 a) l = wrap64 (a + total l).
Proof.
  induction l as [|x l IH]; intros a; cbn [foldl].
  - unfold MemorySpec.total. cbn. f_equal. lia.
  - replace (wrapping_add (wrap64 a) x) with (wrap64 (a + x)) by (unfold wrapping_add, wrap64; by rewrite Zplus_mod_idemp_l).
    rewrite IH. f_equal. unfold MemorySpec.total. cbn. lia.
Qed.

Lemma histogram_perm l k : l ≡ₚ k → total l = total k.
Proof. induction 1; cbn in *; unfold MemorySpec.total in *; lia. Qed.

Lemma kept_sublist {A} (p : A → bool) (l : list A) : List.filter p l `sublist_of` l.
Proof. induction l as [|x l IH]; [done|]. cbn. case_match; [by apply sublist_skip|by apply sublist_cons]. Qed.

Definition entries (i : Z) (h : list Z) : list (Z * Z) := imap (λ j n, (i + Z.of_nat j, n)) h.

Lemma entries_cons i x h : entries i (x :: h) = (i, x) :: entries (i + 1) h.
Proof. unfold entries. cbn. f_equal; [f_equal; lia|]. apply imap_ext. intros j n _. cbn. f_equal. lia. Qed.

Lemma entries_keys i h e : e ∈ entries i h → i ≤ e.1.
Proof.
  revert i. induction h as [|x h IH]; intros i; [by intros ?%elem_of_nil|]. rewrite entries_cons, elem_of_cons.
  intros [->|He%IH]; cbn; lia.
Qed.

Lemma entries_nodup i h : NoDup (entries i h).*1.
Proof.
  revert i. induction h as [|x h IH]; intros i; [apply NoDup_nil_2|]. rewrite entries_cons, fmap_cons. apply NoDup_cons. split; [|apply IH].
  intros (e & E & He%entries_keys)%list_elem_of_fmap. cbn in E. lia.
Qed.

Lemma total_entries p h : ∀ i,
  total (snd <$> List.filter (λ e, e.1 <=? p) (List.filter (λ e, negb (e.2 =? 0)) (entries i h))) = total (take (Z.to_nat (p - i + 1)) h).
Proof.
  induction h as [|x h IH]; intros i; [by rewrite take_nil|]. rewrite entries_cons. cbn [List.filter].
  assert (Hn : p < i → total (snd <$> List.filter (λ e, e.1 <=? p) (List.filter (λ e, negb (e.2 =? 0)) (entries (i + 1) h))) = 0).
  { intros Hlt. rewrite IH. replace (Z.to_nat (p - (i + 1) + 1)) with 0%nat by lia. done. }
  destruct (Z.leb_spec i p) as [Hip|Hip].
  - replace (Z.to_nat (p - i + 1)) with (S (Z.to_nat (p - (i + 1) + 1))) by lia. cbn [take]. change (total (x :: ?l)) with (x + total l).
    rewrite <- IH. cbn [snd]. destruct (Z.eqb_spec x 0) as [->|]; cbn [negb]; [lia|]. cbn [List.filter fst]. rewrite (proj2 (Z.leb_le i p)) by lia.
    rewrite fmap_cons. done.
  - replace (Z.to_nat (p - i + 1)) with 0%nat by lia. rewrite take_0. cbn [snd]. destruct (negb (x =? 0)); [|by apply Hn].
    cbn [List.filter fst]. rewrite (proj2 (Z.leb_gt i p)) by lia. by apply Hn.
Qed.

Lemma hits_total p h : 0 ≤ p → 0 ≤ total (take (S (Z.to_nat p)) h) ≤ u64_max →
  hits (nonzero_buckets 0 h) p = total (take (S (Z.to_nat p)) h).
Proof.
  intros Hp Ht. unfold hits. change 0 with (wrap64 0) at 1. rewrite foldl_wrapping.
  assert (E : merge_sort entry_le (map_to_list (nonzero_buckets 0 h)) ≡ₚ List.filter (λ e, negb (e.2 =? 0)) (entries 0 h)).
  { rewrite merge_sort_Permutation. unfold nonzero_buckets. apply map_to_list_to_map.
    eapply sublist_NoDup; [apply (entries_nodup 0 h)|]. apply fmap_sublist, kept_sublist. }
  assert (Ef : snd <$> List.filter (λ e : Z * Z, e.1 <=? p) (merge_sort entry_le (map_to_list (nonzero_buckets 0 h))) ≡ₚ
    snd <$> List.filter (λ e : Z * Z, e.1 <=? p) (List.filter (λ e, negb (e.2 =? 0)) (entries 0 h))).
  { apply fmap_Permutation, filter_perm, E. }
  rewrite (histogram_perm _ _ Ef), total_entries. replace (Z.to_nat (p - 0 + 1)) with (S (Z.to_nat p)) by lia. apply wrap64_small. word_lia.
Qed.

Lemma references_run ls ops : Z.of_nat (length (trace ls ops)) ≤ u64_max → a_references (artifact (run ls ops)) = Z.of_nat (length (trace ls ops)).
Proof. intros H. by destruct (run_inv ls ops H). Qed.

Lemma hits_run ls ops p : Z.of_nat (length (trace ls ops)) ≤ u64_max → 0 ≤ p →
  hits (reuse_distance_log2 (artifact (run ls ops))) p = lru_hits (Z.to_nat (2 ^ p)) (trace ls ops).
Proof.
  intros H Hp. destruct (run_inv ls ops H) as [_ _ _ Hh _ _]. cbn [artifact reuse_distance_log2]. rewrite Hh.
  destruct (histogram_total _ H) as (_ & Hr & Ht). rewrite hits_total, histogram_hits; try done.
  pose proof (distinct_range (trace ls ops)). set (h := distance_histogram (trace ls ops)) in *.
  assert (Hpos : ∀ l, Forall (λ n, 0 ≤ n ≤ Z.of_nat (length (trace ls ops))) l → 0 ≤ total l).
  { intros l Hl. unfold MemorySpec.total. induction Hl; cbn; lia. }
  assert (Hs : total h = total (take (S (Z.to_nat p)) h) + total (drop (S (Z.to_nat p)) h)).
  { rewrite <- (take_drop (S (Z.to_nat p)) h) at 1. generalize (take (S (Z.to_nat p)) h), (drop (S (Z.to_nat p)) h). intros l k.
    unfold MemorySpec.total. induction l; cbn; lia. }
  pose proof (Hpos _ (Forall_take _ (S (Z.to_nat p)) _ Hr)). pose proof (Hpos _ (Forall_drop _ (S (Z.to_nat p)) _ Hr)). lia.
Qed.

(** The curve of a cache of [2 ^ p] lines run on the references of the program. *)
Definition lru_miss_ratio (refs : list Z) (p : Z) : f64 :=
  if bool_decide (refs = []) then f64_zero
  else f64_sub f64_one (quotient (lru_hits (Z.to_nat (2 ^ p)) refs) (Z.of_nat (length refs))).

(** C8: the miss-ratio curve of a memory recording is exact. For every sequence of memory
    accesses that the instrumentation reports, the table made from the artifact has, for
    every power of two up to 2^30, the fraction of the program's line references that miss in
    a fully associative least-recently-used cache of that many lines started empty and run on
    those references: nothing is lost in the logarithmic buckets of the reuse distances. *)
Theorem miss_curve_exact (ls : Z) (ops : list op) :
  Z.of_nat (length (trace ls ops)) ≤ u64_max →
  miss_rows (artifact (run ls ops)) =
    (λ p, (2 ^ p, as_i64 (saturating_mul (2 ^ p) (a_line_size (artifact (run ls ops)))), lru_miss_ratio (trace ls ops) p)) <$> seqZ 0 31.
Proof.
  intros H. unfold miss_rows, powers. apply list_fmap_ext. intros i p Hp. apply lookup_seqZ in Hp as [-> Hi].
  rewrite !Z.shiftl_1_l. f_equal. unfold miss_ratio, lru_miss_ratio. rewrite references_run, hits_run by (try done; lia).
  destruct (trace ls ops) as [|l past] eqn:E; [done|]. rewrite bool_decide_eq_false_2 by done. rewrite (proj2 (Z.eqb_neq _ 0)); [done|].
  cbn [length]. lia.
Qed.

Lemma miss_curve_exact_witness :
  miss_rows (artifact (run 64 sample_ops)) =
    (λ p, (2 ^ p, as_i64 (saturating_mul (2 ^ p) (a_line_size (artifact (run 64 sample_ops)))), lru_miss_ratio (trace 64 sample_ops) p)) <$> seqZ 0 31.
Proof. apply (miss_curve_exact 64 sample_ops). vm_compute. congruence. Defined.
End Curve.

(** ** From a session to its report *)
Module Whole.
Import MemoryAnalysis Files Report Artifacts Counts_file.

Lemma collect_counts vs : Forall (λ v, is_name v.1 ∧ in_u64 v.2) vs → collect counter_line (count_line <$> vs) = Some vs.
Proof.
  assert (Hl : ∀ v, is_name v.1 → in_u64 v.2 → counter_line (count_line v) = Some v).
  { intros [n x] [_ Hn] Hx. unfold counter_line, count_line. cbn [app fst snd] in *. rewrite split_once_app, parse_show by done. done. }
  induction 1 as [|v vs [Hn Hx] _ IH]; [done|]. rewrite fmap_cons. cbn [collect]. rewrite Hl by done. cbn [mbind option_bind].
  by rewrite IH.
Qed.

Lemma counts_read c : CapiSpec.counters_ok c →
  parse_counter_file (write_counts c) = Some (foldl (λ m e, <[e.1 := e.2]> m) ∅ (count_values c)).
Proof.
  intros Hc. pose proof (count_values_ok c Hc) as Hv. unfold parse_counter_file, write_counts. rewrite lines_unlines.
  - by rewrite collect_counts.
  - apply Forall_fmap. eapply Forall_impl; [exact Hv|]. intros v [Hn _].
    apply (join_line [count_line v]). constructor; [by apply count_line_word|constructor].
Qed.

(** The report of a session without side files: it is made, and its traffic is the modelled
    traffic of the session's counters. *)
Theorem session_report (a : MemoryAnalysis) (c : Capi.CounterSnapshot) start_ns end_ns peak method :
  CapiSpec.counters_ok c →
  ∃ t, process (artifact a) start_ns end_ns (write_counts c) None None None None peak method = Some t ∧
    total_bytes (r_bandwidth t) = saturating_add (Capi.dram_bytes_load c) (Capi.dram_bytes_store c) ∧
    source_ (r_bandwidth t) = "process_modeled"%string ∧ r_allocations t = None ∧ r_timeline t = [] ∧ r_miss t = miss_rows (artifact a).
Proof.
  intros Hc. unfold process. cbn [format_version artifact]. rewrite counts_read by done. eexists. split; [done|]. split; [|done]. cbn.
  unfold primary. cbn [last total_bytes].
  assert (H : ∀ k v, (k, v) ∈ count_values c → foldl (λ (m : gmap (list Z) Z) e, <[e.1 := e.2]> m) ∅ (count_values c) !! k = Some v);
    [|rewrite (H _ (Capi.dram_bytes_load c)) by (apply list_elem_of_lookup; by exists 8%nat);
      rewrite (H _ (Capi.dram_bytes_store c)) by (apply list_elem_of_lookup; by exists 9%nat); done].
  intros k v Hk. unfold count_values in *. cbn [foldl fst snd].
  repeat (apply elem_of_cons in Hk as [[= -> ->]|Hk]; [repeat (rewrite lookup_insert_ne by done); by rewrite lookup_insert_eq|]).
  by apply elem_of_nil in Hk.
Qed.
End Whole.
