(* ===== verification/LoopArtifact.v ===== *)
(** * The loop artifact

    [write_loop_artifact] of [mperf/src/roofline/qemu.rs]: the graph that the instrumentation
    left ([Artifacts.v]) is cut to the main executable, its loops are found ([Loops.v]), and
    every loop gets its addresses, its trip count and the work of its blocks.
    - [Module Source]: the source position of an address;
    - [Module Work]: sums over blocks and shares of threads;
    - [Module LoopFile]: the artifact.

    The object file and the debug information are read through libraries: the segments, the
    entry and the answers of the loader are arguments.  Writing the file is left out. *)

From S2P Require Import Prelude Words Text Floats Artifacts Loops.
Open Scope Z_scope.

Module Source.

(** A frame of the loader: the function's name if it can be read, the file and the line. *)
Record Frame := mkFrame { raw_name : option (list Z); location : option (option (list Z) * option Z) }.
(** [find_frames] gives the frames up to the first error, or fails. *)
Record Loader := mkLoader { find_symbol : Z → option (list Z); find_frames : Z → option (list Frame) }.

Section resolve.
Context (demangle_full : list Z → list Z).

Definition found : Type := option (list Z) * option (list Z) * option Z.
Definition or_else {A} (a b : option A) : option A := match a with Some _ => a | None => b end.

Fixpoint read_frames (frames : list Frame) (st : found) : found :=
  match frames with
  | [] => st
  | frame :: frames =>
      let '(function, file, line) := st in
      let function := or_else function (demangle_full <$> raw_name frame) in
      let file := or_else file (location frame ≫= fst) in
      let line := or_else line (location frame ≫= snd) in
      match function, file, line with
      | Some _, Some _, Some _ => (function, file, line)
      | _, _, _ => read_frames frames (function, file, line)
      end
  end.

Definition resolve_source (loader : option Loader) (address : Z) : found :=
  match loader with
  | None => (None, None, None)
  | Some l =>
      let st := (demangle_full <$> find_symbol l address, None, None) in
      match find_frames l address with Some frames => read_frames frames st | None => st end
  end.
End resolve.
End Source.

Module Work.
Import Artifacts.

(** One block more; [end] and [threads] stay at their defaults. *)
Definition add_block (total block : BlockCounts) : BlockCounts :=
  mkBlock (end_ total) (saturating_add (executions total) (executions block))
    (saturating_add (scalar_int_ops total) (scalar_int_ops block))
    (saturating_add (scalar_float_ops total) (scalar_float_ops block))
    (saturating_add (scalar_double_ops total) (scalar_double_ops block))
    (saturating_add (vector_int_ops total) (vector_int_ops block))
    (saturating_add (vector_float_ops total) (vector_float_ops block))
    (saturating_add (vector_double_ops total) (vector_double_ops block))
    (saturating_add (bytes_load total) (bytes_load block))
    (saturating_add (bytes_store total) (bytes_store block))
    (saturating_add (arch_bytes_load total) (arch_bytes_load block))
    (saturating_add (arch_bytes_store total) (arch_bytes_store block))
    (saturating_add (unclassified_instructions total) (unclassified_instructions block))
    (threads total).
Definition sum_blocks (blocks : list BlockCounts) : BlockCounts := foldl add_block default_block blocks.

Record LoopThreadArtifact := mkThread {
  thread : Z; t_executions : Z; t_scalar_int_ops : Z; t_scalar_float_ops : Z; t_scalar_double_ops : Z; t_vector_int_ops : Z;
  t_vector_float_ops : Z; t_vector_double_ops : Z; t_arch_bytes_load : Z; t_arch_bytes_store : Z
}.
Definition default_thread : LoopThreadArtifact := mkThread 0 0 0 0 0 0 0 0 0 0.

(** [(count as f64 * share).round() as u64]. *)
Definition apportion (share : f64) (count : Z) : Z := f64_as_u64 (f64_round (f64_mul (u64_as_f64 count) share)).
Definition share_of (block : BlockCounts) (n : Z) : f64 :=
  f64_div (u64_as_f64 n) (u64_as_f64 (Z.max (executions block) 1)).

Definition add_share (block : BlockCounts) (by_thread : gmap Z LoopThreadArtifact) (t : Z * Z) : gmap Z LoopThreadArtifact :=
  let share := share_of block t.2 in
  let entry := default default_thread (by_thread !! t.1) in
  <[t.1 := mkThread t.1 (saturating_add (t_executions entry) t.2)
      (wrapping_add (t_scalar_int_ops entry) (apportion share (scalar_int_ops block)))
      (wrapping_add (t_scalar_float_ops entry) (apportion share (scalar_float_ops block)))
      (wrapping_add (t_scalar_double_ops entry) (apportion share (scalar_double_ops block)))
      (wrapping_add (t_vector_int_ops entry) (apportion share (vector_int_ops block)))
      (wrapping_add (t_vector_float_ops entry) (apportion share (vector_float_ops block)))
      (wrapping_add (t_vector_double_ops entry) (apportion share (vector_double_ops block)))
      (wrapping_add (t_arch_bytes_load entry) (apportion share (arch_bytes_load block)))
      (wrapping_add (t_arch_bytes_store entry) (apportion share (arch_bytes_store block)))]> by_thread.
Definition add_shares (by_thread : gmap Z LoopThreadArtifact) (block : BlockCounts) : gmap Z LoopThreadArtifact :=
  foldl (add_share block) by_thread (threads block).
(** [into_values] of the ordered map. *)
Definition loop_threads (blocks : list BlockCounts) : list LoopThreadArtifact :=
  snd <$> merge_sort key_le (map_to_list (foldl add_shares ∅ blocks)).
End Work.

Module LoopFile.
Import Artifacts Work.

(** A load segment: its address and whether it is executable. *)
Record Segment := mkSegment { address : Z; executable : bool }.
(** [Iterator::min]. *)
Definition min_of (l : list Z) : option Z := match l with [] => None | x :: l => Some (foldl Z.min x l) end.
Definition executable_segment_start (segments : list Segment) : option Z :=
  min_of (address <$> List.filter executable segments).

Record BlockRangeArtifact := mkRange { runtime_start : list Z; runtime_end : list Z; module_start : list Z; module_end : list Z }.
Record LoopArtifact := mkLoopArtifact {
  header : list Z; module_offset : list Z; function : option (list Z); file : option (list Z); line : option Z; latches : list (list Z);
  loop_blocks : list (list Z); block_ranges : list BlockRangeArtifact; parent_header : option (list Z); trip_count : Z;
  inclusive : BlockCounts; self_counts : BlockCounts; loop_threads_ : list LoopThreadArtifact
}.
Record DynamicCfgArtifact := mkArtifact {
  format_version : Z; model : string; executable_path : list Z; warnings : list string; cache_line_size : Z; llc_capacity : Z; llc_associativity : Z; traffic_model : string;
  image_start : list Z; image_end_ : list Z; image_entry : list Z; a_load_bias : list Z; artifact_entries : list (list Z);
  artifact_loops : list LoopArtifact; artifact_cycles : list (list (list Z))
}.

(** [u64::checked_sub]. *)
Definition checked_sub (a b : Z) : option Z := if b <=? a then Some (a - b) else None.

Inductive LoopError :=
| NoImage | NoExecutableSegment | ImagePrecedesSegment | EntryOverflow | EntryOutsideImage | NoMainBlocks | NoCacheMetadata.

Definition hex (a : Z) : list Z := show_hex a.

Section graph.
Context (capture : DynamicCfgCapture) (image : ImageInfo).

Definition in_main_image (a : Z) : bool := (start image <=? a) && (a <? image_end image).
Definition main_blocks : gset Z := filter (λ a, in_main_image a = true) (dom (blocks capture)).
Definition has_main_predecessor (block : Z) : bool :=
  existsb (λ e, (e.1.2 =? block) && bool_decide (e.1.1 ∈ main_blocks)) (sorted_edges (edges capture)).
Definition main_entries : gset Z :=
  filter (λ a, in_main_image a = true) (entries capture) ∪
  filter (λ b, has_main_predecessor b = false) main_blocks.
Definition add_main_edge (g : Loops.ControlFlowGraph) (e : Z * Z * Z) : Loops.ControlFlowGraph :=
  if bool_decide (e.1.1 ∈ main_blocks ∧ e.1.2 ∈ main_blocks) then Loops.add_edge e.1.1 e.1.2 g else g.
Definition main_graph : Loops.ControlFlowGraph :=
  foldl add_main_edge (foldl (λ g e, Loops.add_entry e g) (Loops.mkGraph ∅ ∅) (Loops.asc main_entries)) (sorted_edges (edges capture)).
End graph.

Section artifact.
Context (demangle_full : list Z → list Z) (loader : option Source.Loader).
Context (capture : DynamicCfgCapture) (load_bias : Z) (loops : list Loops.NaturalLoop).

Definition counts_of (addresses : list Z) : list BlockCounts := omap (λ a, blocks capture !! a) addresses.

(** A block of a smaller loop inside [l] is not its own. *)
Definition inner_loop (l candidate : Loops.NaturalLoop) : bool :=
  negb (Loops.header candidate =? Loops.header l) &&
  bool_decide (size (Loops.blocks candidate) < size (Loops.blocks l))%nat &&
  bool_decide (Loops.blocks candidate ⊆ Loops.blocks l).
Definition own_block (l : Loops.NaturalLoop) (block : Z) : bool :=
  negb (existsb (λ candidate, inner_loop l candidate && bool_decide (block ∈ Loops.blocks candidate)) loops).
Definition self_blocks (l : Loops.NaturalLoop) : list Z := List.filter (own_block l) (Loops.asc (Loops.blocks l)).

Definition range_of (start : Z) : option BlockRangeArtifact :=
  (λ counts, mkRange (hex start) (hex (end_ counts)) (hex (saturating_sub start load_bias))
               (hex (saturating_sub (end_ counts) load_bias))) <$> blocks capture !! start.
Definition trips (l : Loops.NaturalLoop) : Z :=
  foldl wrapping_add 0 (omap (λ latch, edges capture !! (latch, Loops.header l)) (Loops.asc (Loops.latches l))).

(** [natural_loops[parent]] panics out of range. *)
Definition parent_hex (p : option nat) : outcome (option (list Z)) :=
  match p with Some i => l ← unwrap (loops !! i); Done (Some (hex (Loops.header l))) | None => Done None end.

Definition loop_artifact (l : Loops.NaturalLoop) : outcome LoopArtifact :=
  let offset := saturating_sub (Loops.header l) load_bias in
  let '(function, file, line) := Source.resolve_source demangle_full loader offset in
  let all := Loops.asc (Loops.blocks l) in
  parent ← parent_hex (Loops.parent l);
  Done (mkLoopArtifact (hex (Loops.header l)) (hex offset) function file line (hex <$> Loops.asc (Loops.latches l)) (hex <$> all)
    (omap range_of all) parent (trips l) (sum_blocks (counts_of all)) (sum_blocks (counts_of (self_blocks l)))
    (loop_threads (counts_of all))).
End artifact.

Definition aggregate_warnings : list string :=
  ["Direct successor topology is static; conditional edge weights are approximate.";
   "Loop bytes are exact architectural operand traffic; modeled DRAM traffic is not collected.";
   "Source locations require debug information; optimized code may map multiple loops to one line."]%string.
Definition observed_warnings : list string :=
  ["Only control-flow edges executed during the accounting run are present.";
   "Call/return pairs are summarized; non-local control transfers can split a region.";
   "Loop bytes are deterministic shared-LLC model traffic, not hardware memory-controller measurements.";
   "The cache model uses write allocation/RFO and dirty writeback; non-temporal stores are conservative.";
   "Source locations require debug information; optimized code may map multiple loops to one line."]%string.

(** The artifact, or the error; [aggregate_blocks] when the blocks were counted in total. *)
Definition write_loop_artifact (demangle_full : list Z → list Z) (loader : option Source.Loader) (segments : list Segment)
    (object_entry : Z) (executable : list Z) (capture : DynamicCfgCapture) (aggregate_blocks : bool) : outcome (LoopError + DynamicCfgArtifact) :=
  match image capture with
  | None => Done (inl NoImage)
  | Some image =>
  match executable_segment_start segments with
  | None => Done (inl NoExecutableSegment)
  | Some link_text_start =>
  match checked_sub (start image) link_text_start with
  | None => Done (inl ImagePrecedesSegment)
  | Some load_bias =>
  match checked_add object_entry load_bias with
  | None => Done (inl EntryOverflow)
  | Some runtime_entry =>
  if negb (in_main_image image runtime_entry) then Done (inl EntryOutsideImage)
  else if bool_decide (main_blocks capture image = ∅) then Done (inl NoMainBlocks)
  else
    analysis ← Loops.analyze (main_graph capture image);
    loops ← fold_outcome (λ acc l, a ← loop_artifact demangle_full loader capture load_bias (Loops.natural_loops analysis) l; Done (acc ++ [a]))
              (Loops.natural_loops analysis) [];
    match cache capture with
    | None => Done (inl NoCacheMetadata)
    | Some cache =>
        let '(model, warnings, traffic_model) :=
          if aggregate_blocks then
            ("static-successor CFG with exact aggregate block counts"%string, aggregate_warnings, "architectural-operands"%string)
          else
            ("observed translation-block CFG with summarized calls"%string, observed_warnings, "shared-llc-write-back-write-allocate"%string) in
        Done (inr (mkArtifact 4 model executable warnings (line_size cache) (capacity cache) (associativity cache) traffic_model (hex (start image))
          (hex (image_end image)) (hex runtime_entry) (hex load_bias) (hex <$> Loops.asc (main_entries capture image)) loops
          ((λ c, hex <$> Loops.asc c) <$> Loops.irreducible_cycles analysis)))
    end
  end end end end.
End LoopFile.
