(* ===== verification/LoopArtifactSpec.v ===== *)
(** * The loop artifact: what it accounts for

    - [Module SetSums]: sums over sets of addresses;
    - [Module Forest]: the own blocks of nested loops;
    - [Module Sums]: the sums of [LoopArtifact.v] over blocks and threads;
    - [Module Artifact]: the artifact of a capture. *)

From S2P Require Import Prelude Words Text Floats Artifacts Loops LoopsReach LoopsSpec MemoryReportSpec LoopArtifact.
Open Scope Z_scope.

(** ** Sums over sets *)
Module SetSums.

Definition sum (l : list Z) : Z := foldr Z.add 0 l.
Definition sum_on (w : Z → Z) (s : gset Z) : Z := sum (w <$> elements s).

Lemma sum_app l k : sum (l ++ k) = sum l + sum k.
Proof. induction l; cbn; [done|]. unfold sum in *. lia. Qed.
Lemma set_sum_perm l k : l ≡ₚ k → sum l = sum k.
Proof. induction 1; cbn in *; unfold sum in *; lia. Qed.
Lemma sum_nonneg l : Forall (λ x, 0 ≤ x) l → 0 ≤ sum l.
Proof. induction 1; cbn in *; unfold sum in *; lia. Qed.

Lemma sum_on_empty w : sum_on w ∅ = 0.
Proof. unfold sum_on. by rewrite elements_empty. Qed.
Lemma sum_on_union w s t : s ## t → sum_on w (s ∪ t) = sum_on w s + sum_on w t.
Proof. intros H. unfold sum_on. rewrite (set_sum_perm _ (w <$> (elements s ++ elements t))), fmap_app, sum_app; [done|]. by rewrite elements_disj_union. Qed.
Lemma sum_on_nonneg w s : (∀ x, 0 ≤ w x) → 0 ≤ sum_on w s.
Proof. intros H. apply sum_nonneg, Forall_fmap, Forall_forall. intros x _. apply H. Qed.
Lemma sum_on_subset w s t : (∀ x, 0 ≤ w x) → s ⊆ t → sum_on w s ≤ sum_on w t.
Proof.
  intros Hw Hs. rewrite (union_difference_L s t Hs), sum_on_union by set_solver. pose proof (sum_on_nonneg w (t ∖ s) Hw). lia.
Qed.

Lemma disjoint_unions (s : gset Z) ss : (∀ t, t ∈ ss → s ## t) → s ## ⋃ ss.
Proof. intros H x Hx (t & Ht & Hxt)%elem_of_union_list. by apply (H t Ht x). Qed.

(** Sets that do not meet. *)
Lemma sum_on_unions w (ss : list (gset Z)) :
  (∀ i j s t, i ≠ j → ss !! i = Some s → ss !! j = Some t → s ## t) → sum_on w (⋃ ss) = sum (sum_on w <$> ss).
Proof.
  induction ss as [|s ss IH]; intros Hd; cbn; [apply sum_on_empty|]. rewrite sum_on_union, IH; [done| |].
  - intros i j a b Hne Ha Hb. apply (Hd (S i) (S j) a b); [congruence|done..].
  - apply disjoint_unions. intros t [j Hj]%list_elem_of_lookup. by apply (Hd 0%nat (S j) s t).
Qed.
End SetSums.

(** ** Own blocks *)
Module Forest.
Import LoopFile Loops SetSums.

(** A least element among those that satisfy [P]. *)
Lemma least_in {A} (P : A → Prop) `{!∀ x, Decision (P x)} (m : A → Z) (l : list A) x : x ∈ l → P x → ∃ y, y ∈ l ∧ P y ∧ ∀ z, z ∈ l → P z → m y ≤ m z.
Proof.
  revert x. induction l as [|a l IH]; intros x Hx HP; [by apply elem_of_nil in Hx|].
  destruct (decide (Exists P l)) as [He|He]; cycle 1.
  { assert (Hn : ∀ z, z ∈ l → ¬ P z) by (intros z Hz HPz; apply He, Exists_exists; by exists z).
    apply elem_of_cons in Hx as [->|Hx]; [|by destruct (Hn x)]. exists a. split; [by left|]. split; [done|].
    intros z [->|Hz]%elem_of_cons HPz; [done|by destruct (Hn z)]. }
  apply Exists_exists in He as (b & Hb & HPb). destruct (IH b Hb HPb) as (y & Hy & HPy & Hmin).
  destruct (decide (P a ∧ m a ≤ m y)) as [[HPa Hle]|Hne].
  - exists a. split; [by left|]. split; [done|]. intros z [->|Hz]%elem_of_cons HPz; [done|]. etransitivity; [done|by apply Hmin].
  - exists y. split; [by right|]. split; [done|]. intros z [->|Hz]%elem_of_cons HPz; [|by apply Hmin].
    destruct (Z.le_gt_cases (m a) (m y)); [by destruct Hne|lia].
Qed.

Section forest.
Context (loops : list NaturalLoop).
Context (Hnd : NoDup (header <$> loops)).
Context (Hnest : ∀ l k, l ∈ loops → k ∈ loops → l ≠ k → blocks l ## blocks k ∨ blocks k ⊂ blocks l ∨ blocks l ⊂ blocks k).
Context (Hparent : ∀ l, l ∈ loops → Natural.innermost loops l (parent l)).

Lemma loop_index i j l : loops !! i = Some l → loops !! j = Some l → i = j.
Proof. intros Hi Hj. apply (NoDup_lookup (header <$> loops) i j (header l)); [done| |]; rewrite list_lookup_fmap; [by rewrite Hi|by rewrite Hj]. Qed.

Definition own (l : NaturalLoop) : gset Z := filter (λ x, own_block loops l x = true) (blocks l).

Lemma inner_loop_spec l k : l ∈ loops → k ∈ loops → inner_loop l k = true ↔ blocks k ⊂ blocks l.
Proof.
  intros Hl Hk. unfold inner_loop. rewrite !andb_true_iff, negb_true_iff, Z.eqb_neq, !bool_decide_eq_true. split.
  - intros [[_ Hs] Hb]. split; [done|]. intros Hb'. assert (blocks k = blocks l) as E by set_solver. rewrite E in Hs. lia.
  - intros Hs. split; [split|apply Hs]; [|by apply subset_size]. intros E. pose proof (Natural.header_inj loops k l Hnd Hk Hl E) as ->.
    by apply (irreflexivity (⊂) (blocks l)).
Qed.

Lemma elem_of_own l x : l ∈ loops → x ∈ own l ↔ x ∈ blocks l ∧ ∀ k, k ∈ loops → blocks k ⊂ blocks l → x ∉ blocks k.
Proof.
  intros Hl. unfold own. rewrite elem_of_filter. unfold own_block. rewrite negb_true_iff, <- not_true_iff_false, existsb_exists. split.
  - intros [Hn Hx]. split; [done|]. intros k Hk Hs Hi. apply Hn. exists k. split; [by apply list_elem_of_In|].
    rewrite andb_true_iff, bool_decide_eq_true, inner_loop_spec; done.
  - intros [Hx Hn]. split; [|done]. intros (k & Hk%list_elem_of_In & Hs). rewrite andb_true_iff, bool_decide_eq_true, inner_loop_spec in Hs by done.
    by apply (Hn k Hk); apply Hs.
Qed.

Lemma own_sub l : own l ⊆ blocks l.
Proof. intros x Hx. unfold own in Hx. rewrite elem_of_filter in Hx. apply Hx. Qed.

(** Every block of a loop is the own block of exactly one. *)
Lemma own_disjoint l k : l ∈ loops → k ∈ loops → l ≠ k → own l ## own k.
Proof.
  intros Hl Hk Hne x [Hx Hx']%elem_of_own [Hy Hy']%elem_of_own; [|done..].
  destruct (Hnest l k Hl Hk Hne) as [H|[H|H]]; [by apply (H x)|by apply (Hx' k Hk)|by apply (Hy' l Hl)].
Qed.

Lemma own_cover : ⋃ (own <$> loops) = ⋃ (blocks <$> loops).
Proof.
  apply set_eq. intros x. rewrite !elem_of_union_list. split.
  - intros (s & (l & -> & Hl)%list_elem_of_fmap & Hx). exists (blocks l). split; [apply list_elem_of_fmap; by exists l|by apply own_sub].
  - intros (s & (l & -> & Hl)%list_elem_of_fmap & Hx).
    destruct (least_in (λ k, x ∈ blocks k) (λ k, Z.of_nat (size (blocks k))) loops l Hl Hx) as (k & Hk & Hxk & Hmin).
    exists (own k). split; [apply list_elem_of_fmap; by exists k|]. apply elem_of_own; [done|]. split; [done|].
    intros j Hj Hs Hxj. apply subset_size in Hs. pose proof (Hmin j Hj Hxj). lia.
Qed.

Lemma own_sum w : sum (sum_on w <$> (own <$> loops)) = sum_on w (⋃ (blocks <$> loops)).
Proof.
  rewrite <- own_cover, sum_on_unions; [done|]. intros i j s t Hne Hs Ht.
  apply list_lookup_fmap_Some in Hs as (l & -> & Hl), Ht as (k & -> & Hk). apply own_disjoint; [by eapply list_elem_of_lookup_2..|].
  intros ->. apply Hne. by apply (loop_index i j k).
Qed.

(** The loops directly inside the [i]th. *)
Definition children (i : nat) : list NaturalLoop := filter (λ k, parent k = Some i) loops.

Lemma child_inside i l k : loops !! i = Some l → k ∈ children i → k ∈ loops ∧ blocks k ⊂ blocks l ∧
  ∀ j, j ∈ loops → blocks k ⊂ blocks j → blocks l ⊆ blocks j.
Proof.
  intros Hi [Hp Hk]%list_elem_of_filter. split; [done|]. pose proof (Hparent k Hk) as H. rewrite Hp in H.
  destruct H as (l' & Hl' & Hs & Hm). rewrite Hi in Hl'. injection Hl' as <-. done.
Qed.

Lemma children_cover i l : loops !! i = Some l → blocks l = own l ∪ ⋃ (blocks <$> children i).
Proof.
  intros Hi. pose proof (list_elem_of_lookup_2 _ _ _ Hi) as Hl. apply set_eq. intros x. rewrite elem_of_union, elem_of_union_list. split.
  - intros Hx. destruct (decide (x ∈ own l)) as [|Hn]; [by left|right].
    destruct (decide (Exists (λ k, blocks k ⊂ blocks l ∧ x ∈ blocks k) loops)) as [He|He]; cycle 1.
    { exfalso. apply Hn, elem_of_own; [done|]. split; [done|]. intros k Hk Hs Hxk. apply He, Exists_exists. by exists k. }
    apply Exists_exists in He as (k0 & Hk0 & Hs0).
    destruct (least_in (λ k, blocks k ⊂ blocks l ∧ x ∈ blocks k) (λ k, - Z.of_nat (size (blocks k))) loops k0 Hk0 Hs0) as (k & Hk & [Hs Hxk] & Hmax).
    exists (blocks k). split; [|done]. apply list_elem_of_fmap. exists k. split; [done|]. apply list_elem_of_filter. split; [|done].
    pose proof (Hparent k Hk) as Hp. destruct (parent k) as [p|]; [|by destruct (Hp l Hl)].
    destruct Hp as (q & Hq & Hkq & Hmin). pose proof (list_elem_of_lookup_2 _ _ _ Hq) as Hql.
    destruct (decide (header q = header l)) as [E%(Natural.header_inj loops q l Hnd Hql Hl)|Hne].
    { subst q. f_equal. by apply (loop_index p i l). }
    exfalso.
    pose proof (Hmin l Hl Hs) as Hsub. assert (Hxq : x ∈ blocks q) by (destruct Hkq; set_solver).
    destruct (Hnest l q Hl Hql) as [H|[H|H]]; [congruence|by apply (H x)| |by destruct H].
    pose proof (Hmax q Hql (conj H Hxq)). apply subset_size in Hkq. lia.
  - intros [Hx|(s & (k & -> & Hk)%list_elem_of_fmap & Hx)]; [by apply own_sub|].
    destruct (child_inside i l k Hi Hk) as (_ & [Hs _] & _). by apply Hs.
Qed.

Lemma children_sum w i l : loops !! i = Some l → sum_on w (blocks l) = sum_on w (own l) + sum (sum_on w <$> (blocks <$> children i)).
Proof.
  intros Hi. pose proof (list_elem_of_lookup_2 _ _ _ Hi) as Hl. rewrite (children_cover i l Hi) at 1. rewrite sum_on_union, sum_on_unions; [done| |].
  - intros a b s t Hne Hs Ht. apply list_lookup_fmap_Some in Hs as (c & -> & Hc), Ht as (d & -> & Hd).
    assert (Hcd : c ≠ d).
    { intros ->. apply Hne. eapply (NoDup_lookup (children i) a b d); [|done..]. apply NoDup_filter. by eapply NoDup_fmap_1. }
    destruct (child_inside i l c Hi (list_elem_of_lookup_2 _ _ _ Hc)) as (Hcl & Hc1 & Hc2).
    destruct (child_inside i l d Hi (list_elem_of_lookup_2 _ _ _ Hd)) as (Hdl & Hd1 & Hd2).
    destruct (Hnest c d Hcl Hdl Hcd) as [H|[H|H]]; [done| |].
    + pose proof (Hd2 c Hcl H). by destruct Hc1.
    + pose proof (Hc2 d Hdl H). by destruct Hd1.
  - apply disjoint_unions. intros s (k & -> & Hk)%list_elem_of_fmap x [_ Hx]%elem_of_own Hxk; [|done].
    destruct (child_inside i l k Hi Hk) as (Hkl & Hs & _). by apply (Hx k Hkl).
Qed.
End forest.
End Forest.

(** ** Sums over blocks and threads *)
Module Sums.
Import Artifacts Work SetSums.

(** The counts that are added up. *)
Definition fields : list (BlockCounts → Z) :=
  [executions; scalar_int_ops; scalar_float_ops; scalar_double_ops; vector_int_ops; vector_float_ops; vector_double_ops; bytes_load;
   bytes_store; arch_bytes_load; arch_bytes_store; unclassified_instructions].

Lemma field_cases f : f ∈ fields → f default_block = 0 ∧ ∀ t b, f (add_block t b) = saturating_add (f t) (f b).
Proof. intros Hf. unfold fields in Hf. repeat (apply elem_of_cons in Hf as [->|Hf]; [done|]). by apply elem_of_nil in Hf. Qed.

Lemma sum_field f bs : f ∈ fields → Forall (λ b, 0 ≤ f b) bs → sum (f <$> bs) ≤ u64_max → f (sum_blocks bs) = sum (f <$> bs).
Proof.
  intros [Hz Ha]%field_cases Hn Hs.
  assert (H : ∀ acc, f acc + sum (f <$> bs) ≤ u64_max → f (foldl add_block acc bs) = f acc + sum (f <$> bs));
    [|unfold sum_blocks; rewrite H, Hz; rewrite ?Hz; lia].
  clear Hs. induction Hn as [|b bs Hb Hn IH]; intros acc Hs; cbn in *; [unfold sum; cbn; lia|].
  assert (0 ≤ sum (f <$> bs)) by by apply sum_nonneg, Forall_fmap. unfold sum in *. cbn in *.
  assert (E : f (add_block acc b) = f acc + f b) by (rewrite Ha; unfold saturating_add; lia). rewrite IH; rewrite E; lia.
Qed.

Lemma sum_omap {A} (g : Z → option A) (f : A → Z) l : sum (f <$> omap g l) = sum ((λ a, from_option f 0 (g a)) <$> l).
Proof. induction l as [|a l IH]; [done|]. cbn. destruct (g a); cbn; unfold sum in *; cbn; lia. Qed.

(** *** Threads *)
Definition shares (bs : list BlockCounts) : list (BlockCounts * (Z * Z)) := bs ≫= λ b, (λ t, (b, t)) <$> threads b.

Lemma fold_shares bs : ∀ M, foldl add_shares M bs = foldl (λ M s, add_share s.1 M s.2) M (shares bs).
Proof.
  induction bs as [|b bs IH]; intros M; cbn; [done|]. rewrite foldl_app, IH. f_equal. unfold add_shares.
  revert M. induction (threads b) as [|t ts IHt]; intros M; cbn; [done|apply IHt].
Qed.

(** The executions that the blocks list for a thread. *)
Definition executions_of (t : Z) (ss : list (BlockCounts * (Z * Z))) : Z :=
  sum ((λ s : BlockCounts * (Z * Z), if s.2.1 =? t then s.2.2 else 0) <$> ss).

Lemma executions_of_nonneg t ss : Forall (λ s : BlockCounts * (Z * Z), 0 ≤ s.2.2) ss → 0 ≤ executions_of t ss.
Proof. intros H. apply sum_nonneg, Forall_fmap. eapply Forall_impl; [exact H|]. intros s Hs. cbn. by destruct (s.2.1 =? t). Qed.

Lemma add_share_lookup b M s t :
  add_share b M s !! t = if decide (s.1 = t) then add_share b M s !! t else M !! t.
Proof. destruct (decide (s.1 = t)) as [|Hne]; [done|]. unfold add_share. by rewrite lookup_insert_ne. Qed.

Lemma shares_exact ss : Forall (λ s : BlockCounts * (Z * Z), 0 ≤ s.2.2) ss → ∀ M : gmap Z LoopThreadArtifact,
  (∀ t e, M !! t = Some e → thread e = t ∧ 0 ≤ t_executions e) →
  (∀ t, from_option t_executions 0 (M !! t) + executions_of t ss ≤ u64_max) →
  let M' := foldl (λ M s, add_share s.1 M s.2) M ss in
  (∀ t e, M' !! t = Some e → thread e = t ∧ t_executions e = from_option t_executions 0 (M !! t) + executions_of t ss) ∧
  (∀ t, is_Some (M' !! t) ↔ is_Some (M !! t) ∨ t ∈ (λ s : BlockCounts * (Z * Z), s.2.1) <$> ss).
Proof.
  induction 1 as [|[b [t0 n]] ss Hn Hss IH]; intros M HM Hb; cbn.
  { split; [|intros t; rewrite elem_of_nil; tauto]. intros t e He. destruct (HM t e He). rewrite He. cbn. split; [done|]. unfold executions_of, sum. cbn. lia. }
  cbn [snd] in Hn. assert (Hcons : ∀ t, executions_of t ((b, (t0, n)) :: ss) = (if t0 =? t then n else 0) + executions_of t ss) by done.
  assert (Hge : ∀ t, 0 ≤ executions_of t ss) by (intros t; by apply executions_of_nonneg).
  assert (H0 : ∀ t, 0 ≤ from_option t_executions 0 (M !! t)).
  { intros t. destruct (M !! t) as [e|] eqn:E; [by apply (HM t)|done]. }
  assert (Hnew : from_option t_executions 0 (add_share b M (t0, n) !! t0) = from_option t_executions 0 (M !! t0) + n).
  { unfold add_share. cbn [fst snd]. rewrite lookup_insert_eq. cbn. pose proof (Hb t0) as Hb0. rewrite Hcons, Z.eqb_refl in Hb0.
    pose proof (Hge t0). pose proof (H0 t0). destruct (M !! t0); cbn in *; unfold saturating_add; lia. }
  destruct (IH (add_share b M (t0, n))) as [IH1 IH2].
  - intros t e He. destruct (decide (t0 = t)) as [<-|Hne]; [|rewrite add_share_lookup, decide_False in He by done; by apply HM].
    rewrite He in Hnew. cbn in Hnew. split; [|pose proof (H0 t0); lia]. unfold add_share in He. cbn [fst snd] in He. rewrite lookup_insert_eq in He.
    by injection He as <-.
  - intros t. specialize (Hb t). rewrite Hcons in Hb. destruct (decide (t0 = t)) as [<-|Hne]; [rewrite Hnew; rewrite Z.eqb_refl in Hb; lia|].
    rewrite add_share_lookup, decide_False by done. rewrite (proj2 (Z.eqb_neq _ _) Hne) in Hb. lia.
  - split.
    + intros t e He. destruct (IH1 t e He) as [E1 E2]. split; [done|]. rewrite E2. fold (sum ((λ s : BlockCounts * (Z * Z), if s.2.1 =? t then s.2.2 else 0) <$> ss)). fold (executions_of t ss).
      destruct (decide (t0 = t)) as [<-|Hne].
      * rewrite Hnew, Z.eqb_refl. lia.
      * rewrite add_share_lookup, decide_False, (proj2 (Z.eqb_neq _ _) Hne) by done. lia.
    + intros t. rewrite IH2, elem_of_cons. destruct (decide (t0 = t)) as [<-|Hne]; [|rewrite add_share_lookup, decide_False by done; naive_solver].
      unfold add_share. cbn [fst snd]. rewrite lookup_insert_eq. naive_solver.
Qed.

(** Every thread that a block names has one row, with the executions that the blocks list. *)
Lemma loop_threads_exact bs : Forall (λ s : BlockCounts * (Z * Z), 0 ≤ s.2.2) (shares bs) → (∀ t, executions_of t (shares bs) ≤ u64_max) →
  NoDup (thread <$> loop_threads bs) ∧ (∀ t, t ∈ thread <$> loop_threads bs ↔ ∃ b n, b ∈ bs ∧ (t, n) ∈ threads b) ∧
  ∀ row, row ∈ loop_threads bs → t_executions row = executions_of (thread row) (shares bs).
Proof.
  intros Hn Hb. destruct (shares_exact (shares bs) Hn ∅) as [H1 H2]; [done|intros t; rewrite lookup_empty; apply Hb|].
  rewrite <- fold_shares in H1, H2. unfold loop_threads. set (M := foldl add_shares ∅ bs) in *.
  pose proof (merge_sort_Permutation key_le (map_to_list M)) as Hp. set (rows := merge_sort key_le (map_to_list M)) in *.
  assert (Hin : ∀ t e, (t, e) ∈ rows ↔ M !! t = Some e) by (intros t e; by rewrite Hp, elem_of_map_to_list).
  assert (Hfst : thread <$> (snd <$> rows) = fst <$> rows).
  { rewrite <- list_fmap_compose. apply list_fmap_ext. intros i [t e] Hi. cbn. apply list_elem_of_lookup_2, Hin in Hi. by destruct (H1 t e Hi). }
  split_and!.
  - rewrite Hfst, Hp. apply NoDup_fst_map_to_list.
  - intros t. rewrite Hfst. transitivity (is_Some (M !! t)).
    + rewrite list_elem_of_fmap. split; [intros ([t' e] & -> & He); exists e; by apply Hin|intros [e He]; exists (t, e); by rewrite Hin].
    + rewrite H2, lookup_empty, list_elem_of_fmap. split.
      * intros [[? ?]|([b [t' n]] & -> & (b' & H & Hb')%list_elem_of_bind)]; [done|].
        apply list_elem_of_fmap in H as (? & [= <- <-] & H). by exists b, n.
      * intros (b & n & Hb' & Ht). right. exists (b, (t, n)). split; [done|]. apply list_elem_of_bind. exists b. split; [|done].
        apply list_elem_of_fmap. by exists (t, n).
  - intros row ([t e] & -> & He)%list_elem_of_fmap. cbn. apply Hin in He. destruct (H1 t e He) as [-> ->]. by rewrite lookup_empty.
Qed.
End Sums.

(** ** The artifact of a capture *)
Module Artifact.
Import Artifacts Work LoopFile SetSums Sums.

(** *** The graph of the main image *)
Section graph.
Context (capture : DynamicCfgCapture) (im : ImageInfo).

Lemma add_entries_spec l : ∀ g, let g' := foldl (λ g e, Loops.add_entry e g) g l in
  (∀ x, x ∈ Loops.entries g' ↔ x ∈ Loops.entries g ∨ x ∈ l) ∧
  ∀ k, default ∅ (Loops.successors g' !! k) = default ∅ (Loops.successors g !! k).
Proof.
  induction l as [|e l IH]; intros g; cbn; [set_solver|]. destruct (IH (Loops.add_entry e g)) as [H1 H2]. split.
  - intros x. rewrite H1. cbn. set_solver.
  - intros k. rewrite H2. cbn. rewrite Reach.or_default_extend_spec. case_decide; by rewrite (right_id_L ∅ (∪)).
Qed.

Lemma add_edges_spec l : ∀ g, let g' := foldl (add_main_edge capture im) g l in
  Loops.entries g' = Loops.entries g ∧
  ∀ a b, b ∈ default ∅ (Loops.successors g' !! a) ↔
    b ∈ default ∅ (Loops.successors g !! a) ∨ (a ∈ main_blocks capture im ∧ b ∈ main_blocks capture im ∧ ∃ n, (a, b, n) ∈ l).
Proof.
  induction l as [|[[from to] n] l IH]; intros g; cbn; [set_solver|]. destruct (IH (add_main_edge capture im g (from, to, n))) as [H1 H2]. split.
  - rewrite H1. unfold add_main_edge. by case_bool_decide.
  - intros a b. rewrite H2. unfold add_main_edge. cbn [fst snd]. case_bool_decide as Hd.
    + cbn. rewrite !Reach.or_default_extend_spec. setoid_rewrite elem_of_cons. destruct Hd as [Hd1 Hd2].
      assert (Hin : b ∈ (default ∅ (Loops.successors g !! a) ∪ (if decide (a = from) then {[to]} else ∅)) ∪ (if decide (a = to) then ∅ else ∅) ↔
        b ∈ default ∅ (Loops.successors g !! a) ∨ (a = from ∧ b = to)) by (rewrite !elem_of_union; repeat case_decide; subst; set_solver).
      rewrite Hin. naive_solver.
    + setoid_rewrite elem_of_cons. naive_solver.
Qed.

Lemma elem_of_sorted_edges e n : (e, n) ∈ sorted_edges (edges capture) ↔ edges capture !! e = Some n.
Proof. unfold sorted_edges. by rewrite merge_sort_Permutation, elem_of_map_to_list. Qed.

(** The graph has the edges that were captured between blocks of the image. *)
Lemma main_graph_spec :
  Loops.entries (main_graph capture im) = main_entries capture im ∧
  ∀ a b, b ∈ Loops.targets (Loops.successors (main_graph capture im)) a ↔
    a ∈ main_blocks capture im ∧ b ∈ main_blocks capture im ∧ is_Some (edges capture !! (a, b)).
Proof.
  unfold main_graph. set (g0 := foldl _ _ (Loops.asc _)).
  destruct (add_entries_spec (Loops.asc (main_entries capture im)) (Loops.mkGraph ∅ ∅)) as [E1 E2]. fold g0 in E1, E2.
  destruct (add_edges_spec (sorted_edges (edges capture)) g0) as [H1 H2]. split.
  - rewrite H1. apply set_eq. intros x. rewrite E1, Reach.elem_of_asc. cbn. set_solver.
  - intros a b. rewrite Reach.elem_of_targets, H2, E2. cbn. rewrite lookup_empty. cbn. setoid_rewrite elem_of_sorted_edges. unfold is_Some. set_solver.
Qed.

Lemma main_blocks_image a : a ∈ main_blocks capture im → in_main_image im a = true.
Proof. unfold main_blocks. by rewrite elem_of_filter; intros []. Qed.

Lemma reachable_image a : Reach.reachable (main_graph capture im) a → in_main_image im a = true.
Proof.
  destruct main_graph_spec as [He Ht]. intros (e & H1 & _ & H2). rewrite He in H1.
  assert (H0 : in_main_image im e = true).
  { unfold main_entries in H1. apply elem_of_union in H1 as [H1|H1]; rewrite elem_of_filter in H1; [apply H1|apply main_blocks_image, H1]. }
  clear H1. induction H2 as [|x y z [Hxy _] _ IH]; [done|]. apply IH. apply main_blocks_image, (Ht x y). exact Hxy.
Qed.
End graph.

(** *** The sums of a capture *)
Section capture.
Context (capture : DynamicCfgCapture).

(** What a field counts at an address. *)
Definition work (f : BlockCounts → Z) (a : Z) : Z := from_option f 0 (blocks capture !! a).

(** Counts are not negative and none of the totals reaches the largest 64-bit value. *)
Definition countable : Prop :=
  ∀ f, f ∈ fields → (∀ a c, blocks capture !! a = Some c → 0 ≤ f c) ∧ sum_on (work f) (dom (blocks capture)) ≤ u64_max.

Definition countableb : bool :=
  forallb (λ f : BlockCounts → Z, forallb (λ e : Z * BlockCounts, 0 <=? f e.2) (map_to_list (blocks capture)) &&
                                  (sum_on (work f) (dom (blocks capture)) <=? u64_max)) fields.
Lemma countableb_spec : countableb = true → countable.
Proof.
  unfold countableb. rewrite forallb_forall. intros H f Hf%list_elem_of_In. apply H in Hf. rewrite andb_true_iff, forallb_forall, Z.leb_le in Hf.
  destruct Hf as [H1 H2]. split; [|done]. intros a c Ha. apply Z.leb_le, (H1 (a, c)). by apply list_elem_of_In, elem_of_map_to_list.
Qed.

Context (Hc : countable) (f : BlockCounts → Z) (Hf : f ∈ fields).

Lemma work_nonneg a : 0 ≤ work f a.
Proof. unfold work. destruct (blocks capture !! a) eqn:E; [by apply (Hc f Hf) in E|done]. Qed.

Lemma work_bound s : sum_on (work f) s ≤ u64_max.
Proof.
  set (D := dom (blocks capture)). assert (s = s ∩ D ∪ s ∖ D) as ->.
  { apply set_eq. intros x. destruct (decide (x ∈ D)); set_solver. }
  rewrite sum_on_union by set_solver. assert (sum_on (work f) (s ∖ D) = 0) as ->.
  { unfold sum_on. assert (H : Forall (λ x, x = 0) (work f <$> elements (s ∖ D))).
    { apply Forall_fmap, Forall_forall. intros x [_ Hx]%elem_of_elements%elem_of_difference. cbn. unfold work.
      by rewrite (not_elem_of_dom_1 (blocks capture) x Hx). }
    induction H as [|x l -> _ IH]; [done|]. cbn. exact IH. }
  pose proof (sum_on_subset (work f) (s ∩ D) D work_nonneg ltac:(set_solver)). pose proof (proj2 (Hc f Hf)) as Hb. fold D in Hb. lia.
Qed.

Lemma sum_counts l s : l ≡ₚ elements s → f (sum_blocks (counts_of capture l)) = sum_on (work f) s.
Proof.
  intros Hp. assert (E : sum (f <$> counts_of capture l) = sum_on (work f) s).
  { unfold counts_of. rewrite (sum_omap (λ a, blocks capture !! a)). apply set_sum_perm. by rewrite Hp. }
  rewrite sum_field, E; [done|done| |by rewrite E; apply work_bound].
  apply Forall_forall. intros c (a & _ & Ha)%list_elem_of_omap. by apply (proj1 (Hc f Hf) a).
Qed.

Lemma asc_elements s : Loops.asc s ≡ₚ elements s.
Proof. apply merge_sort_Permutation. Qed.

Lemma self_elements loops l : self_blocks loops l ≡ₚ elements (Forest.own loops l).
Proof.
  apply NoDup_Permutation; [|apply NoDup_elements|].
  - apply NoDup_ListNoDup, List.NoDup_filter, NoDup_ListNoDup, Reach.NoDup_asc.
  - intros x. unfold self_blocks. rewrite list_elem_of_In, filter_In, <- list_elem_of_In, Reach.elem_of_asc, elem_of_elements.
    unfold Forest.own. rewrite elem_of_filter. tauto.
Qed.
End capture.

(** *** From loops to their records *)
Lemma hex_inj a b : in_u64 a → in_u64 b → hex a = hex b → a = b.
Proof.
  intros Ha Hb E. unfold hex, show_hex in E. apply app_inv_head in E. pose proof (parse_show_hex a Ha) as H. rewrite E, parse_show_hex in H by done.
  by injection H.
Qed.

Lemma Forall2_maps {A B C} (g : A → C) (h : B → C) l k : Forall2 (λ a b, h b = g a) l k → h <$> k = g <$> l.
Proof. induction 1; cbn; congruence. Qed.

Section loops.
Context (demangle : list Z → list Z) (loader : option Source.Loader) (capture : DynamicCfgCapture) (bias : Z).
Context (loops : list Loops.NaturalLoop).

Record records (l : Loops.NaturalLoop) (al : LoopArtifact) : Prop := mkRecords {
  r_header : header al = hex (Loops.header l);
  r_parent : parent_header al = Loops.parent l ≫= λ i, (λ p, hex (Loops.header p)) <$> loops !! i;
  r_trips : trip_count al = wrap64 (sum_on (λ t, default 0 (edges capture !! (t, Loops.header l))) (Loops.latches l));
  r_inclusive : inclusive al = sum_blocks (counts_of capture (Loops.asc (Loops.blocks l)));
  r_self : self_counts al = sum_blocks (counts_of capture (self_blocks loops l));
  r_ranges : block_ranges al = omap (range_of capture bias) (Loops.asc (Loops.blocks l));
  r_threads : loop_threads_ al = loop_threads (counts_of capture (Loops.asc (Loops.blocks l)))
}.

Lemma trips_sum l : trips capture l = wrap64 (sum_on (λ t, default 0 (edges capture !! (t, Loops.header l))) (Loops.latches l)).
Proof.
  unfold trips. change 0 with (wrap64 0) at 1. rewrite Curve.foldl_wrapping. f_equal.
  change (MemorySpec.total ?x) with (sum x).
  transitivity (sum ((λ x, x) <$> omap (λ latch, edges capture !! (latch, Loops.header l)) (Loops.asc (Loops.latches l)))); [by rewrite list_fmap_id|].
  rewrite (sum_omap (λ latch, edges capture !! (latch, Loops.header l))). unfold sum_on. apply set_sum_perm. rewrite asc_elements.
  apply reflexive_eq, list_fmap_ext. intros i t _. by destruct (edges capture !! (t, Loops.header l)).
Qed.

Lemma loop_recorded l : l ∈ loops → Natural.innermost loops l (Loops.parent l) →
  ∃ al, loop_artifact demangle loader capture bias loops l = Done al ∧ records l al.
Proof.
  intros Hl Hp. unfold loop_artifact. destruct (Source.resolve_source _ _ _) as [[fn file] line].
  assert (E : parent_hex loops (Loops.parent l) = Done (Loops.parent l ≫= λ i, (λ p, hex (Loops.header p)) <$> loops !! i)).
  { destruct (Loops.parent l) as [i|]; [|done]. destruct Hp as (k & Hk & _). cbn. by rewrite Hk. }
  rewrite E. cbn [mbind outcome_bind]. eexists. split; [done|]. split; try done. cbn. apply trips_sum.
Qed.

Lemma loops_recorded : (∀ l, l ∈ loops → Natural.innermost loops l (Loops.parent l)) → ∃ als,
  fold_outcome (λ acc l, a ← loop_artifact demangle loader capture bias loops l; Done (acc ++ [a])) loops [] = Done als ∧ Forall2 records loops als.
Proof.
  intros Hp. assert (H : ∀ ls acc, (∀ l, l ∈ ls → l ∈ loops) → ∃ als,
    fold_outcome (λ acc l, a ← loop_artifact demangle loader capture bias loops l; Done (acc ++ [a])) ls acc = Done (acc ++ als) ∧
    Forall2 records ls als); [|by destruct (H loops [] (λ l Hl, Hl)) as (als & E & HF); exists als].
  induction ls as [|l ls IH]; intros acc Hin; cbn; [exists []; by rewrite app_nil_r|].
  destruct (loop_recorded l) as (al & -> & Hr); [by apply Hin; left|by apply Hp, Hin; left|]. cbn.
  destruct (IH (acc ++ [al])) as (als & -> & HF); [intros k Hk; apply Hin; by right|]. exists (al :: als). rewrite <- app_assoc. split; [done|by constructor].
Qed.

End loops.

(** Which records are inside the [i]th loop. *)
Lemma child_records f w i h ls als :
  Forall2 (λ l al, (Loops.parent l = Some i ↔ parent_header al = Some h) ∧ f (inclusive al) = sum_on w (Loops.blocks l)) ls als →
  sum ((λ c, f (inclusive c)) <$> filter (λ c, parent_header c = Some h) als) =
  sum (sum_on w <$> (Loops.blocks <$> filter (λ k, Loops.parent k = Some i) ls)).
Proof.
  induction 1 as [|l al ls als [Hp Hw] _ IH]; [done|]. rewrite !filter_cons. repeat case_decide; try tauto. cbn. rewrite Hw. unfold sum in *. lia.
Qed.

(** *** The whole artifact *)

(** The recording can be described: the image is mapped where an executable segment says,
    the entry and some block lie in it, and the cache is known. *)
Record describable (segments : list Segment) (entry : Z) (capture : DynamicCfgCapture) (im : ImageInfo) (text : Z) : Prop := mkDescribable {
  d_image : image capture = Some im;
  d_range : 0 ≤ start im ∧ image_end im ≤ u64_max;
  d_text : executable_segment_start segments = Some text;
  d_bias : text ≤ start im;
  d_entry : in_main_image im (entry + (start im - text)) = true;
  d_blocks : main_blocks capture im ≠ ∅;
  d_cache : is_Some (cache capture)
}.

Lemma artifact_written demangle loader segments entry path capture aggregate im text analysis als :
  describable segments entry capture im text → Loops.analyze (main_graph capture im) = Done analysis →
  fold_outcome (λ acc l, a ← loop_artifact demangle loader capture (start im - text) (Loops.natural_loops analysis) l; Done (acc ++ [a]))
    (Loops.natural_loops analysis) [] = Done als →
  ∃ a, write_loop_artifact demangle loader segments entry path capture aggregate = Done (inr a) ∧ artifact_loops a = als.
Proof.
  intros [H1 [H2 H2'] H3 H4 H5 H6 [c H7]] Ha Hf. unfold write_loop_artifact. rewrite H1, H3. unfold checked_sub, checked_add.
  rewrite (proj2 (Z.leb_le _ _) H4). unfold in_main_image in H5. rewrite andb_true_iff, Z.leb_le, Z.ltb_lt in H5.
  rewrite (proj2 (Z.leb_le _ _)) by lia. unfold in_main_image. rewrite (proj2 (Z.leb_le _ _)), (proj2 (Z.ltb_lt _ _)) by lia. cbn [andb negb].
  rewrite bool_decide_eq_false_2 by done. rewrite Ha. cbn [mbind outcome_bind]. rewrite Hf. cbn [mbind outcome_bind]. rewrite H7.
  destruct aggregate; eexists; by split.
Qed.

(** The loops of an analysis are nested. *)
Lemma analysis_forest g : ∃ a, Loops.analyze g = Done a ∧ NoDup (Loops.header <$> Loops.natural_loops a) ∧
  (∀ l, l ∈ Loops.natural_loops a → Natural.is_loop g l) ∧
  (∀ l k, l ∈ Loops.natural_loops a → k ∈ Loops.natural_loops a → l ≠ k →
     Loops.blocks l ## Loops.blocks k ∨ Loops.blocks k ⊂ Loops.blocks l ∨ Loops.blocks l ⊂ Loops.blocks k) ∧
  ∀ l, l ∈ Loops.natural_loops a → Natural.innermost (Loops.natural_loops a) l (Loops.parent l).
Proof.
  destruct (loop_nest g) as (a & Ha & _ & H1 & H2). exists a. split; [done|].
  destruct (Natural.analyze_spec g) as (loops & cycles & Ha' & Hok & _). rewrite Ha in Ha'. injection Ha' as ->.
  by apply Natural.set_parents_ok in Hok as [Hnd Hs _ _].
Qed.

(** C9: the loop artifact accounts for every block. For a recording that can be described the
    artifact is written, with one record per natural loop of the graph of the main image; the
    trip count of a record adds up the executions of the edges from its latches to its
    header (modulo 2^64); for every count, the inclusive value is the sum over the blocks of the loop and
    equals the loop's own value plus the inclusive values of the records that name it as their
    parent; and the own values of all records add up to the blocks that lie in some loop, so
    that no block is counted twice and none is lost. *)
Theorem loop_work_exact (demangle : list Z → list Z) (loader : option Source.Loader) (segments : list Segment) (entry : Z)
    (path : list Z) (capture : DynamicCfgCapture) (aggregate : bool) (im : ImageInfo) (text : Z) :
  describable segments entry capture im text → countable capture →
  ∃ analysis a, Loops.analyze (main_graph capture im) = Done analysis ∧
    write_loop_artifact demangle loader segments entry path capture aggregate = Done (inr a) ∧
    let loops := Loops.natural_loops analysis in
    length (artifact_loops a) = length loops ∧
    (∀ i l al, loops !! i = Some l → artifact_loops a !! i = Some al →
       header al = hex (Loops.header l) ∧
       trip_count al = wrap64 (sum_on (λ t, default 0 (edges capture !! (t, Loops.header l))) (Loops.latches l)) ∧
       ∀ f, f ∈ fields →
         f (inclusive al) = sum_on (work capture f) (Loops.blocks l) ∧
         f (inclusive al) = f (self_counts al) +
           sum ((λ c, f (inclusive c)) <$> filter (λ c, parent_header c = Some (header al)) (artifact_loops a))) ∧
    ∀ f, f ∈ fields → sum ((λ al, f (self_counts al)) <$> artifact_loops a) = sum_on (work capture f) (⋃ (Loops.blocks <$> loops)).
Proof.
  intros Hd Hc. destruct (analysis_forest (main_graph capture im)) as (analysis & Ha & Hnd & Hloop & Hnest & Hpar). set (loops := Loops.natural_loops analysis) in *.
  destruct (loops_recorded demangle loader capture (start im - text) loops Hpar) as (als & Hf & HR).
  destruct (artifact_written demangle loader segments entry path capture aggregate im text analysis als Hd Ha Hf) as (a & Hw & <-).
  exists analysis, a. split; [done|]. split; [done|]. cbv zeta. fold loops. split; [symmetry; by eapply Forall2_length|].
  assert (Hhd : ∀ l, l ∈ loops → in_u64 (Loops.header l)).
  { intros l Hl. destruct (Natural.loop_header_in _ l (Hloop l Hl)) as [_ Hr]. apply reachable_image in Hr. unfold in_main_image in Hr.
    rewrite andb_true_iff, Z.leb_le, Z.ltb_lt in Hr. pose proof (d_range _ _ _ _ _ Hd). split; lia. }
  assert (Hinc : ∀ f l al, f ∈ fields → records capture (start im - text) loops l al →
    f (inclusive al) = sum_on (work capture f) (Loops.blocks l) ∧ f (self_counts al) = sum_on (work capture f) (Forest.own loops l)).
  { intros f l al Hfi Hr. rewrite (r_inclusive _ _ _ _ _ Hr), (r_self _ _ _ _ _ Hr).
    split; apply sum_counts; try done; [apply asc_elements|apply self_elements]. }
  split.
  - intros i l al Hl Hal. pose proof (Forall2_lookup_lr _ _ _ _ _ _ HR Hl Hal) as Hr. split; [apply Hr|]. split; [apply Hr|].
    intros f Hfi. destruct (Hinc f l al Hfi Hr) as [E1 E2]. split; [done|]. rewrite E1, E2, (Forest.children_sum loops Hnd Hnest Hpar (work capture f) i l Hl). f_equal.
    symmetry. apply child_records. apply Forall2_same_length_lookup. split; [by eapply Forall2_length|].
    intros j k c Hk Hcl. pose proof (Forall2_lookup_lr _ _ _ _ _ _ HR Hk Hcl) as Hrc. split; [|by apply Hinc].
    rewrite (r_parent _ _ _ _ _ Hrc), (r_header _ _ _ _ _ Hr). split; [intros ->; cbn; by rewrite Hl|].
    intros (p & Hp & (q & E & Hq)%fmap_Some)%bind_Some. rewrite Hp. f_equal.
    assert (q = l) as ->; [|by apply (Forest.loop_index loops Hnd p i l)].
    pose proof (list_elem_of_lookup_2 _ _ _ Hl) as Hl'. pose proof (list_elem_of_lookup_2 _ _ _ E) as Hq'.
    apply (Natural.header_inj loops); [done..|]. symmetry. apply hex_inj; [by apply Hhd..|done].
  - intros f Hfi. rewrite <- (Forest.own_sum loops Hnd Hnest Hpar), <- list_fmap_compose. f_equal. apply Forall2_maps.
    eapply Forall2_impl; [exact HR|]. intros l al Hr. by apply Hinc.
Qed.

(** A loop of ten rounds around a loop of nine rounds each. *)
Definition block_of (finish executions work : Z) : BlockCounts := mkBlock finish executions work 0 0 0 0 0 0 0 0 0 0 [(1, executions)].
Definition sample_capture : DynamicCfgCapture :=
  mkCapture (Some (mkImage 4096 8192 4096)) (Some (mkCache 64 1048576 16)) {[4096]}
    (list_to_map [((4096, 4112), 1); ((4112, 4128), 10); ((4128, 4128), 90); ((4128, 4112), 9); ((4128, 4144), 1)])
    (list_to_map [(4096, block_of 4112 1 5); (4112, block_of 4128 10 20); (4128, block_of 4144 100 300); (4144, block_of 4160 1 7)]).

Lemma loop_work_exact_witness :
  ∃ analysis a, Loops.analyze (main_graph sample_capture (mkImage 4096 8192 4096)) = Done analysis ∧
    write_loop_artifact id None [mkSegment 1024 true] 1030 [] sample_capture false = Done (inr a) ∧
    (trip_count <$> artifact_loops a) = [90; 9] ∧ ((λ al, scalar_int_ops (self_counts al)) <$> artifact_loops a) = [300; 20] ∧
    sum ((λ al, scalar_int_ops (self_counts al)) <$> artifact_loops a) =
      sum_on (work sample_capture scalar_int_ops) (⋃ (Loops.blocks <$> Loops.natural_loops analysis)).
Proof.
  destruct (loop_work_exact id None [mkSegment 1024 true] 1030 [] sample_capture false (mkImage 4096 8192 4096) 1024)
    as (analysis & a & H1 & H2 & _ & _ & H3).
  - by split.
  - apply countableb_spec. vm_compute. reflexivity.
  - exists analysis, a. split; [done|]. split; [done|]. assert (E := H2). vm_compute in E. injection E as <-. split; [done|]. split; [done|].
    apply H3. unfold fields. right. left.
Defined.
End Artifact.
