(* ===== verification/RooflineReport.v ===== *)
(** * The roofline report

    [mperf/src/postprocess/roofline.rs]: the rows of the loops of a recording, with the time
    they took and the work they did.
    - [Module LoopEvents]: regions of instrumented loops from the recorded events;
    - [Module Timeline]: bytes of the memory controller as a curve over time;
    - [Module Timing]: wall and processor time of a loop over its threads;
    - [Module Rows]: rows of instrumented loops and of loops found in the binary, and the
      attribution of native samples to the latter.

    What the queries of the store return are lists of rows; the segments of the object file
    and the comparison of paths are arguments.  The artifact of [LoopArtifact.v] travels as
    JSON; what is read is a record with the fields of the same names. *)

From S2P Require Import Prelude Words Text Floats Plan Dispatcher Artifacts LoopArtifact MemoryReport.
From Corelib Require Import SpecFloat.
Open Scope Z_scope.

Module LoopEvents.
Import Events.

Record RooflineLoopInfo := mkInfo {
  id : Z; pid : Z; tid : Z; file_name : Z; func_name : Z; line : Z; start : Z;
  bytes_load : Z; bytes_store : Z; scalar_int_ops : Z; scalar_float_ops : Z; scalar_double_ops : Z;
  vector_int_ops : Z; vector_float_ops : Z; vector_double_ops : Z
}.
Record Payload := mkPayload { function_id : Z; file_id : Z; p_line : Z }.
Record TraceEvent := mkEvent {
  timestamp : Z; event_id : Z; instance : Z; parent_id : Z; flow_id : Z; kind : Z; e_pid : Z; e_tid : Z; value : Z
}.
Record RooflineData := mkData {
  baseline_pid : Z; instrumented_pid : Z; loops : gmap Z RooflineLoopInfo; runs : list (RooflineLoopInfo * Z); ops : list RooflineLoopInfo
}.
Inductive LoopError := NoPayload (event : Z) | UnknownLoop (flow : Z) | UnknownParent (parent : Z).

(** The discriminants of [EventKind]. *)
Definition Begin : Z := 0.
Definition End_ : Z := 1.
Definition CounterKind : Z := 3.

(** [x as i32] of a [u32]. *)
Definition as_i32 (x : Z) : Z := if x <? 2 ^ 31 then x else x - 2 ^ 32.

Definition set_count (ty : EventType) (v : Z) (i : RooflineLoopInfo) : RooflineLoopInfo :=
  let '(mkInfo id pid tid file func line start bl bs si sf sd vi vf vd) := i in
  match ty with
  | RooflineBytesLoad => mkInfo id pid tid file func line start v bs si sf sd vi vf vd
  | RooflineBytesStore => mkInfo id pid tid file func line start bl v si sf sd vi vf vd
  | RooflineScalarIntOps => mkInfo id pid tid file func line start bl bs v sf sd vi vf vd
  | RooflineScalarFloatOps => mkInfo id pid tid file func line start bl bs si v sd vi vf vd
  | RooflineScalarDoubleOps => mkInfo id pid tid file func line start bl bs si sf v vi vf vd
  | RooflineVectorIntOps => mkInfo id pid tid file func line start bl bs si sf sd v vf vd
  | RooflineVectorFloatOps => mkInfo id pid tid file func line start bl bs si sf sd vi v vd
  | RooflineVectorDoubleOps => mkInfo id pid tid file func line start bl bs si sf sd vi vf v
  | _ => i
  end.

Section consume.
Context (payloads : gmap Z Payload) (names : gmap Z (list Z)).

(** The type of a counter event, if its name is that of one. *)
Definition counter_type (e : TraceEvent) : option EventType := event_type_from_name (default [] (names !! event_id e)).

Definition consume (d : RooflineData) (e : TraceEvent) : LoopError + RooflineData :=
  let '(mkData base inst loops runs ops) := d in
  if kind e =? Begin then
    match payloads !! event_id e with
    | None => inl (NoPayload (event_id e))
    | Some p =>
        inr (mkData base inst
          (<[instance e := mkInfo (instance e) (e_pid e) (e_tid e) (file_id p) (function_id p) (p_line p) (timestamp e) 0 0 0 0 0 0 0 0]> loops)
          runs ops)
    end
  else if kind e =? End_ then
    match loops !! flow_id e with
    | None => inl (UnknownLoop (flow_id e))
    | Some info =>
        let loops := delete (flow_id e) loops in
        if as_i32 (e_pid e) =? base then inr (mkData base inst loops (runs ++ [(info, timestamp e)]) ops)
        else if as_i32 (e_pid e) =? inst then inr (mkData base inst loops runs (ops ++ [info]))
        else inr (mkData base inst loops runs ops)
    end
  else if negb (kind e =? CounterKind) then inr d
  else
    match counter_type e with
    | None => inr d
    | Some ty =>
        match loops !! parent_id e with
        | None => inl (UnknownParent (parent_id e))
        | Some info => inr (mkData base inst (<[parent_id e := set_count ty (value e) info]> loops) runs ops)
        end
    end.

Fixpoint consume_all (es : list TraceEvent) (d : RooflineData) : LoopError + RooflineData :=
  match es with
  | [] => inr d
  | e :: es => match consume d e with inl err => inl err | inr d => consume_all es d end
  end.
Definition load_instrumented_loops (perf_pid inst_pid : Z) (events : list TraceEvent) : LoopError + RooflineData :=
  consume_all events (mkData perf_pid inst_pid ∅ [] []).
End consume.
End LoopEvents.

Module Timeline.

(** [binary_search_by_key]: one probe per halving, then the probe of the last candidate. *)
Fixpoint narrow (fuel : nat) (keys : list Z) (k : Z) (base size : nat) : outcome nat :=
  if (size <=? 1)%nat then Done base
  else
    match fuel with
    | O => Panicked
    | S fuel =>
        let half := (size / 2)%nat in
        let mid := (base + half)%nat in
        x ← unwrap (keys !! mid);
        narrow fuel keys k (if k <? x then base else mid) (size - half)
    end.
(** [inl] is [Ok], [inr] is [Err]. *)
Definition binary_search (keys : list Z) (k : Z) : outcome (nat + nat) :=
  match keys with
  | [] => Done (inr 0%nat)
  | _ =>
      base ← narrow (length keys) keys k 0 (length keys);
      x ← unwrap (keys !! base);
      Done (if x =? k then inl base else inr (base + (if Z.ltb x k then 1 else 0))%nat)
  end.

(** Times and cumulative bytes. *)
Definition load (contents : option (list Z)) : option (option (list (Z * Z))) :=
  samples ← Files.parse_bandwidth_samples contents;
  let curve := (λ s, (Files.b_timestamp s, saturating_add (Files.read_bytes s) (Files.write_bytes s))) <$> samples in
  Some (if (2 <=? length curve)%nat then Some curve else None).

Definition between (before after : Z * Z) (timestamp : Z) : f64 :=
  let span := u64_as_f64 (saturating_sub after.1 before.1) in
  let fraction := if f64_nonzero span then f64_div (u64_as_f64 (wrapping_sub timestamp before.1)) span else f64_zero in
  f64_add (u64_as_f64 before.2) (f64_mul (u64_as_f64 (wrapping_sub after.2 before.2)) fraction).

Definition cumulative_at (samples : list (Z * Z)) (timestamp : Z) : outcome f64 :=
  found ← binary_search (fst <$> samples) timestamp;
  match found with
  | inl index => s ← unwrap (samples !! index); Done (u64_as_f64 s.2)
  | inr O => s ← unwrap (samples !! 0%nat); Done (u64_as_f64 s.2)
  | inr (S index) =>
      if (S index =? length samples)%nat then s ← unwrap (samples !! index); Done (u64_as_f64 s.2)
      else before ← unwrap (samples !! index); after ← unwrap (samples !! S index); Done (between before after timestamp)
  end.

(** [x as i64] of a number that is at least one. *)
Definition f64_as_i64 (x : f64) : Z := Z.min (f64_as_u64 x) (2 ^ 63 - 1).

(** The sum of floating-point numbers starts at [-0.0]. *)
Fixpoint sum_bytes (samples : list (Z * Z)) (intervals : list (Z * Z)) (acc : f64) : outcome f64 :=
  match intervals with
  | [] => Done acc
  | (s, e) :: intervals =>
      at_end ← cumulative_at samples e;
      at_start ← cumulative_at samples s;
      sum_bytes samples intervals (f64_add acc (Report.f64_sub at_end at_start))
  end.
Definition bytes_in (samples : list (Z * Z)) (intervals : list (Z * Z)) : outcome (option Z) :=
  bytes ← sum_bytes samples intervals (S754_zero true);
  Done (if f64_leb f64_one bytes then Some (f64_as_i64 bytes) else None).
End Timeline.

Module Timing.

Definition window_le (a b : Z * Z) : Prop := a.1 < b.1 ∨ a.1 = b.1 ∧ a.2 ≤ b.2.
#[export] Instance window_le_dec a b : Decision (window_le a b).
Proof. unfold window_le. apply _. Defined.

(** [merged] with its last element first. *)
Definition merge_window (merged : list (Z * Z)) (w : Z * Z) : list (Z * Z) :=
  match merged with
  | last :: rest => if w.1 <=? last.2 then (last.1, Z.max last.2 w.2) :: rest else w :: merged
  | [] => [w]
  end.
Definition merge_intervals (windows : list (Z * Z)) : list (Z * Z) := reverse (foldl merge_window [] (merge_sort window_le windows)).
Definition total_duration (intervals : list (Z * Z)) : Z :=
  foldl (λ total w, saturating_add total (saturating_sub w.2 w.1)) 0 intervals.

Record LoopTiming := mkTiming { wall : list (Z * Z); cpu_ns : Z; threads : Z }.

#[local] Existing Instance Artifacts.key_le_dec.
Definition push_window (by_thread : gmap Z (list (Z * Z))) (i : Z * Z * Z) : gmap Z (list (Z * Z)) :=
  let '(thread, s, e) := i in <[thread := default [] (by_thread !! thread) ++ [(s, e)]]> by_thread.
Definition group_windows (intervals : list (Z * Z * Z)) : gmap Z (list (Z * Z)) := foldl push_window ∅ intervals.
Definition add_thread (acc : Z * list (Z * Z)) (windows : Z * list (Z * Z)) : Z * list (Z * Z) :=
  let merged := merge_intervals windows.2 in (saturating_add acc.1 (total_duration merged), acc.2 ++ merged).
Definition from_intervals (intervals : list (Z * Z * Z)) : LoopTiming :=
  let by_thread := group_windows intervals in
  let '(cpu, all) := foldl add_thread (0, []) (merge_sort Artifacts.key_le (map_to_list by_thread)) in
  mkTiming (merge_intervals all) cpu (Z.of_nat (size by_thread) mod 2 ^ 32).

Definition wall_ns (t : LoopTiming) : Z := total_duration (wall t).

(** 1.96, 0.10 and 0.20. *)
Definition f64_1_96 : f64 := S754_finite false 8827055269646172 (-52).
Definition f64_0_10 : f64 := S754_finite false 7205759403792794 (-56).
Definition f64_0_20 : f64 := S754_finite false 7205759403792794 (-55).

(** [x.max(1.0)]; a NaN gives 1. *)
Definition f64_max1 (x : f64) : f64 := if f64_ltb f64_one x then x else f64_one.
Definition relative_error (t : LoopTiming) (samples : Z) : option f64 :=
  if (samples =? 0) || (cpu_ns t =? 0) then None
  else
    let observations := f64_max1 (f64_div (f64_mul (u64_as_f64 (wall_ns t)) (u64_as_f64 samples)) (u64_as_f64 (cpu_ns t))) in
    Some (f64_div f64_1_96 (SFsqrt 53 1024 observations)).
End Timing.

Module Rows.
Import Work Timing LoopEvents.

Record LoopCounts := mkCounts {
  c_scalar_int_ops : Z; c_scalar_float_ops : Z; c_scalar_double_ops : Z; c_vector_int_ops : Z; c_vector_float_ops : Z;
  c_vector_double_ops : Z; c_bytes_load : Z; c_bytes_store : Z; c_arch_bytes_load : Z; c_arch_bytes_store : Z; c_unclassified : Z
}.
Definition no_counts : LoopCounts := mkCounts 0 0 0 0 0 0 0 0 0 0 0.

(** A loop of the artifact, as it is read back. *)
Record BinaryLoop := mkBinaryLoop {
  module_offset : list Z; function : option (list Z); file : option (list Z); b_line : option Z; trip_count : Z;
  block_ranges : list (list Z * list Z); inclusive : LoopCounts; loop_threads : list LoopThreadArtifact
}.
Record LoopRow := mkRow {
  r_module_offset : option (list Z); function_name : list Z; r_file_name : list Z; r_line : Z; r_trip_count : option Z; duration_ns : option Z;
  cpu_time_ns : option Z; thread_count : Z; accounting_threads : option Z; timing_samples : Z; timing_relative_error : option f64;
  timing_quality : string; measured_dram_bytes : option Z; counts : LoopCounts; row_threads : list LoopThreadArtifact
}.

Definition measured (bandwidth : option (list (Z * Z))) (intervals : list (Z * Z)) : outcome (option Z) :=
  match bandwidth with Some samples => Timeline.bytes_in samples intervals | None => Done None end.

(** [value.max(0) as u64], added with saturation. *)
Definition add_count (total value : Z) : Z := saturating_add total (Z.max value 0).
(** Only the counts that the events carry change. *)
Definition add_ops (c : LoopCounts) (op : RooflineLoopInfo) : LoopCounts :=
  mkCounts (add_count (c_scalar_int_ops c) (scalar_int_ops op)) (add_count (c_scalar_float_ops c) (scalar_float_ops op))
    (add_count (c_scalar_double_ops c) (scalar_double_ops op)) (add_count (c_vector_int_ops c) (vector_int_ops op))
    (add_count (c_vector_float_ops c) (vector_float_ops op)) (add_count (c_vector_double_ops c) (vector_double_ops op))
    (c_bytes_load c) (c_bytes_store c) (add_count (c_arch_bytes_load c) (bytes_load op)) (add_count (c_arch_bytes_store c) (bytes_store op))
    (c_unclassified c).

(** File, function and line. *)
Definition LoopKey : Type := Z * Z * Z.
Definition loop_key (i : RooflineLoopInfo) : LoopKey := (file_name i, func_name i, line i).
Definition loop_key_le (a b : LoopKey) : Prop :=
  a.1.1 < b.1.1 ∨ a.1.1 = b.1.1 ∧ (a.1.2 < b.1.2 ∨ a.1.2 = b.1.2 ∧ a.2 ≤ b.2).
Definition run_le (a b : LoopKey * list (Z * Z * Z)) : Prop := loop_key_le a.1 b.1.
#[export] Instance run_le_dec a b : Decision (run_le a b).
Proof. unfold run_le, loop_key_le. apply _. Defined.

Definition group_runs (rs : list (RooflineLoopInfo * Z)) : gmap LoopKey (list (Z * Z * Z)) :=
  foldl (λ m r, <[loop_key r.1 := default [] (m !! loop_key r.1) ++ [(tid r.1, Z.max (start r.1) 0, Z.max r.2 0)]]> m) ∅ rs.
Definition group_ops (os : list RooflineLoopInfo) : gmap LoopKey LoopCounts :=
  foldl (λ m o, <[loop_key o := add_ops (default no_counts (m !! loop_key o)) o]> m) ∅ os.

(** A collection whose elements may panic. *)
Fixpoint collect_rows {A B} (f : A → outcome B) (l : list A) : outcome (list B) :=
  match l with [] => Done [] | x :: l => y ← f x; ys ← collect_rows f l; Done (y :: ys) end.

Definition instrumented_row (names : gmap Z (list Z)) (bandwidth : option (list (Z * Z))) (ops : gmap LoopKey LoopCounts)
    (run : LoopKey * list (Z * Z * Z)) : outcome LoopRow :=
  let timing := from_intervals run.2 in
  bytes ← measured bandwidth (wall timing);
  Done (mkRow None (default (chars "[unknown loop]") (names !! run.1.1.2)) (default [] (names !! run.1.1.1)) run.1.2 None
    (Some (wall_ns timing)) (Some (cpu_ns timing)) (threads timing) None (Z.of_nat (length run.2)) None "instrumented" bytes
    (default no_counts (ops !! run.1)) []).
Definition collect_instrumented_loops (d : RooflineData) (names : gmap Z (list Z)) (bandwidth : option (list (Z * Z))) : outcome (list LoopRow) :=
  collect_rows (instrumented_row names bandwidth (group_ops (ops d))) (merge_sort run_le (map_to_list (group_runs (runs d)))).

(** ** Native samples *)
Record ModuleMapping := mkMapping { runtime_start : Z; runtime_end : Z; svma_start : Z }.
(** A mapping of the target and a segment of the object file. *)
Record ProcMapEntry := mkModule { m_pid : Z; filename : list Z; m_address : Z; m_size : Z; m_offset : Z }.
Record Segment := mkSegment { file_offset : Z; file_size : Z; seg_address : Z }.

Definition strip_suffix (suffix s : list Z) : option (list Z) := reverse <$> strip_prefix (reverse suffix) (reverse s).
(** [same_path] compares a path with the executable's, also in canonical form. *)
Definition paths_refer_to_same_file (same_path : list Z → bool) (left : list Z) : bool :=
  same_path (default left (strip_suffix (chars " (deleted)") left)).

(** [min_by_key]: the first of the nearest segments. *)
Definition nearest (offset : Z) (l : list Segment) : option Segment :=
  match l with
  | [] => None
  | s :: l => Some (foldl (λ best s, if Z.abs (file_offset s - offset) <? Z.abs (file_offset best - offset) then s else best) s l)
  end.
Definition holds_offset (offset : Z) (s : Segment) : bool :=
  (Z.ldiff (file_offset s) 4095 <=? offset) && (offset <? saturating_add (file_offset s) (file_size s)).
Definition mapping_of (segments : list Segment) (m : ProcMapEntry) : option ModuleMapping :=
  s ← nearest (m_offset m) (List.filter (holds_offset (m_offset m)) segments);
  Some (mkMapping (m_address m) (saturating_add (m_address m) (m_size m))
    (saturating_sub (saturating_add (seg_address s) (m_offset m)) (file_offset s))).
Definition executable_mappings (same_path : list Z → bool) (modules : list ProcMapEntry) (pid : Z) (segments : list Segment) : list ModuleMapping :=
  omap (mapping_of segments) (List.filter (λ m, (m_pid m =? pid) && paths_refer_to_same_file same_path (filename m)) modules).

Definition normalize_sample_ip (ip : Z) (mappings : list ModuleMapping) : option Z :=
  (λ m, saturating_add (svma_start m) (saturating_sub ip (runtime_start m))) <$>
  List.find (λ m, (runtime_start m <=? ip) && (ip <? runtime_end m)) mappings.

Record BinaryTimingSample := mkSample { s_timestamp : Z; s_thread : Z; s_cpu_ns : Z; module_address : Z }.
(** A row of the counters: time, thread, address, processor time and confidence. *)
Record TimingRow := mkTimingRow { t_timestamp : Z; t_thread : Z; t_ip : Z; t_cpu_ns : Z; t_confidence : option f64 }.

(** The share of time the group was scheduled, if it can be believed. *)
Definition scheduled (confidence : option f64) : f64 :=
  match confidence with
  | Some share => if f64_is_finite share && f64_ltb f64_zero share && f64_leb share f64_one then share else f64_one
  | None => f64_one
  end.
Definition timing_sample (mappings : list ModuleMapping) (t : TimingRow) : option BinaryTimingSample :=
  address ← normalize_sample_ip (t_ip t) mappings;
  Some (mkSample (Z.max (t_timestamp t) 0) (Z.max (t_thread t) 0 mod 2 ^ 32)
    (f64_as_u64 (f64_div (u64_as_f64 (Z.max (t_cpu_ns t) 0)) (scheduled (t_confidence t)))) address).

Definition parse_hex_address (value : list Z) : option Z := strip_prefix (chars "0x") value ≫= from_str_radix 16.
Definition parse_range (r : list Z * list Z) : option (Z * Z) :=
  s ← parse_hex_address r.1; e ← parse_hex_address r.2; Some (s, e).
Definition in_ranges (ranges : list (Z * Z)) (a : Z) : bool := existsb (λ r, (r.1 <=? a) && (a <? r.2)) ranges.
Definition observations (samples : list BinaryTimingSample) (ranges : list (Z * Z)) : list (Z * Z * Z) :=
  (λ s, (s_thread s, saturating_sub (s_timestamp s) (s_cpu_ns s), s_timestamp s)) <$>
  List.filter (λ s, in_ranges ranges (module_address s)) samples.

Definition quality (unclassified : Z) (error : option f64) : string :=
  if negb (unclassified =? 0) then "unclassified-instructions"
  else
    match error with
    | Some e => if f64_leb e f64_0_10 then "high-confidence" else if f64_leb e f64_0_20 then "low-confidence" else "insufficient-samples"
    | None => "insufficient-samples"
    end%string.

Definition binary_row (samples : list BinaryTimingSample) (bandwidth : option (list (Z * Z))) (l : BinaryLoop) : outcome (option LoopRow) :=
  match Files.collect parse_range (block_ranges l) with
  | None => Done None
  | Some ranges =>
      let seen := observations samples ranges in
      let n := Z.of_nat (length seen) in
      let timing := from_intervals seen in
      let error := relative_error timing n in
      bytes ← measured bandwidth (wall timing);
      Done (Some (mkRow (Some (module_offset l)) (default (chars "[unknown loop]") (function l)) (default [] (file l))
        (default 0 (b_line l)) (Some (trip_count l)) (if 0 <? n then Some (wall_ns timing) else None)
        (if 0 <? n then Some (cpu_ns timing) else None) (threads timing)
        (match loop_threads l with [] => None | ts => Some (Z.of_nat (length ts) mod 2 ^ 32) end) n error
        (quality (c_unclassified (inclusive l)) error) bytes (inclusive l) (loop_threads l)))
  end.

Fixpoint binary_rows (samples : list BinaryTimingSample) (bandwidth : option (list (Z * Z))) (loops : list BinaryLoop)
    : outcome (option (list LoopRow)) :=
  match loops with
  | [] => Done (Some [])
  | l :: loops =>
      row ← binary_row samples bandwidth l;
      match row with
      | None => Done None
      | Some row => rows ← binary_rows samples bandwidth loops; Done (option_map (cons row) rows)
      end
  end.

(** [None] is an error: no mapping of the executable, or an address that does not parse. *)
Definition collect_binary_loops (same_path : list Z → bool) (modules : list ProcMapEntry) (pid : Z) (segments : list Segment)
    (timings : list TimingRow) (bandwidth : option (list (Z * Z))) (loops : list BinaryLoop) : outcome (option (list LoopRow)) :=
  match executable_mappings same_path modules pid segments with
  | [] => Done None
  | mappings =>
      binary_rows (omap (timing_sample mappings) timings) bandwidth loops
  end.

(** [roofline_loop_runs]: the bytes observed while a run lasted; [x as u64] of the times. *)
Definition run_row (bandwidth : option (list (Z * Z))) (run : RooflineLoopInfo * Z) : outcome (RooflineLoopInfo * Z * option Z) :=
  bytes ← measured bandwidth [(wrap64 (start run.1), wrap64 run.2)]; Done (run, bytes).
Definition run_rows (bandwidth : option (list (Z * Z))) (d : RooflineData) : outcome (list (RooflineLoopInfo * Z * option Z)) :=
  collect_rows (run_row bandwidth) (runs d).

(** The loops of the binary: only native runs of the two engines have them. *)
Inductive ArtifactError := MissingArtifact | UnsupportedVersion (version : Z).
Definition binary_loop_artifact (method : option (string * string)) (file : option (Z * list BinaryLoop))
    : ArtifactError + option (list BinaryLoop) :=
  match method with
  | None => inr None
  | Some (accounting, performance) =>
      if negb (bool_decide (accounting = "qemu"%string ∨ accounting = "dynamorio"%string)) || negb (bool_decide (performance = "native"%string))
      then inr None
      else
        match file with
        | None => inl MissingArtifact
        | Some (version, loops) => if (version =? 3) || (version =? 4) then inr (Some loops) else inl (UnsupportedVersion version)
        end
  end.

(** The rows of [roofline_loops]; [None] is an error. *)
Definition process (payloads : gmap Z Payload) (names : gmap Z (list Z)) (perf_pid inst_pid : Z) (events : list TraceEvent)
    (bandwidth_file : option (list Z)) (method : option (string * string)) (file : option (Z * list BinaryLoop))
    (same_path : list Z → bool) (modules : list ProcMapEntry) (segments : list Segment) (timings : list TimingRow) : outcome (option (list LoopRow)) :=
  match load_instrumented_loops payloads names perf_pid inst_pid events, Timeline.load bandwidth_file with
  | inr d, Some bandwidth =>
      _ ← run_rows bandwidth d;
      match binary_loop_artifact method file with
      | inl _ => Done None
      | inr (Some loops) => collect_binary_loops same_path modules (perf_pid mod 2 ^ 32) segments timings bandwidth loops
      | inr None => rows ← collect_instrumented_loops d names bandwidth; Done (Some rows)
      end
  | _, _ => Done None
  end.

(** [roofline_loop_threads]: every thread of every row. *)
Definition loop_thread_rows (rows : list LoopRow) : list (LoopRow * LoopThreadArtifact) := rows ≫= λ r, (λ t, (r, t)) <$> row_threads r.
End Rows.
