(* ===== verification/RooflineReportSpec.v ===== *)
(** * The roofline report: what it shows

    - [Module Windows]: merged windows cover what the given ones cover, once;
    - [Module Occupancy]: wall and processor time of a loop;
    - [Module History]: regions of instrumented loops;
    - [Module Native]: the time of a loop of the binary, from native samples. *)

From S2P Require Import Prelude Words Text Floats Plan Dispatcher Artifacts Loops LoopArtifact LoopArtifactSpec MemoryReport RooflineReport.
Open Scope Z_scope.

(** ** Windows *)
Module Windows.
Import Timing SetSums.

Definition covers (ws : list (Z * Z)) (x : Z) : Prop := ∃ w, w ∈ ws ∧ w.1 ≤ x < w.2.
Definition proper (w : Z * Z) : Prop := 0 ≤ w.1 ≤ w.2 ∧ w.2 ≤ u64_max.
(** The newer window begins after the older one ended. *)
Definition apart (newer older : Z * Z) : Prop := older.2 < newer.1.

Lemma window_covers_cons w ws x : covers (w :: ws) x ↔ w.1 ≤ x < w.2 ∨ covers ws x.
Proof. unfold covers. setoid_rewrite elem_of_cons. naive_solver. Qed.
Lemma window_covers_app ws vs x : covers (ws ++ vs) x ↔ covers ws x ∨ covers vs x.
Proof. unfold covers. setoid_rewrite elem_of_app. naive_solver. Qed.
Lemma covers_concat wss x : covers (concat wss) x ↔ ∃ ws, ws ∈ wss ∧ covers ws x.
Proof.
  induction wss as [|ws wss IH]; cbn; [unfold covers; set_solver|]. rewrite window_covers_app, IH. setoid_rewrite elem_of_cons. naive_solver.
Qed.
Lemma window_covers_perm ws vs x : ws ≡ₚ vs → covers ws x ↔ covers vs x.
Proof. intros H. unfold covers. by setoid_rewrite H. Qed.

Record merged_ok (acc ws m : list (Z * Z)) : Prop := mkMerged {
  m_apart : StronglySorted apart m;
  m_proper : Forall proper m;
  m_covers x : covers m x ↔ covers acc x ∨ covers ws x
}.

Lemma merge_windows ws : StronglySorted window_le ws → Forall proper ws → ∀ acc,
  StronglySorted apart acc → Forall proper acc → Forall (λ a, Forall (λ w : Z * Z, a.1 ≤ w.1) ws) acc →
  merged_ok acc ws (foldl merge_window acc ws).
Proof.
  induction 1 as [|w ws Hs IH Hle]; intros Hp acc Ha Hpa Hlow; cbn [foldl].
  { split; [done..|]. intros x. unfold covers. set_solver. }
  inversion_clear Hp as [|?? Hw Hps]. assert (Hwle : Forall (λ v : Z * Z, w.1 ≤ v.1) ws).
  { eapply Forall_impl; [exact Hle|]. unfold window_le. intros v [?|?]; lia. }
  destruct acc as [|[s e] acc]; cbn [merge_window].
  { destruct (IH Hps [w]) as [H1 H2 H3]; [repeat constructor|by constructor|by constructor|]. split; [done..|].
    intros x. rewrite H3, !window_covers_cons. unfold covers. set_solver. }
  inversion_clear Ha as [|?? Ha' Hgap]. inversion_clear Hpa as [|?? Hse Hpa']. inversion_clear Hlow as [|?? Hl1 Hl2]. cbn [fst snd] in *.
  inversion_clear Hl1 as [|?? Hsw _]. cbn in Hsw. destruct Hw as [[Hw0 Hw1] Hw2], Hse as [[Hs0 Hs1] Hs2]. cbn in Hs0, Hs1, Hs2.
  assert (Hl2' : Forall (λ a, Forall (λ v : Z * Z, a.1 ≤ v.1) ws) acc) by (eapply Forall_impl; [exact Hl2|]; intros a Hx; by inversion Hx).
  destruct (Z.leb_spec w.1 e) as [Hle1|Hgt].
  - destruct (IH Hps ((s, Z.max e w.2) :: acc)) as [H1 H2 H3].
    + by constructor.
    + constructor; [|done]. split; cbn; lia.
    + constructor; [|done]. eapply Forall_impl; [exact Hwle|]. intros v. cbn. lia.
    + split; [done..|]. intros x. rewrite H3, !window_covers_cons. cbn.
      assert (Hx : s ≤ x < e `max` w.2 ↔ s ≤ x < e ∨ w.1 ≤ x < w.2) by lia. rewrite Hx. tauto.
  - destruct (IH Hps (w :: (s, e) :: acc)) as [H1 H2 H3].
    + constructor; [by constructor|]. constructor; [unfold apart; cbn; lia|]. eapply Forall_impl; [exact Hgap|]. intros a. unfold apart. cbn. lia.
    + constructor; [by split_and!|]. constructor; [|done]. split; cbn; lia.
    + constructor; [done|]. constructor; [|done]. eapply Forall_impl; [exact Hwle|]. intros v. cbn. lia.
    + split; [done..|]. intros x. rewrite H3, !window_covers_cons. tauto.
Qed.

#[local] Instance window_le_trans : Transitive window_le.
Proof. intros a b c. unfold window_le. lia. Qed.
#[local] Instance window_le_total : Total window_le.
Proof. intros a b. unfold window_le. lia. Qed.

Lemma merge_intervals_exact ws : Forall proper ws →
  StronglySorted (λ a b, a.2 < b.1) (merge_intervals ws) ∧ Forall proper (merge_intervals ws) ∧ ∀ x, covers (merge_intervals ws) x ↔ covers ws x.
Proof.
  intros Hp. pose proof (merge_sort_Permutation window_le ws) as Hperm. pose proof (StronglySorted_merge_sort window_le ws) as Hs.
  assert (Hp' : Forall proper (merge_sort window_le ws)) by by rewrite Hperm.
  destruct (merge_windows _ Hs Hp' []) as [H1 H2 H3]; [constructor..|].
  unfold merge_intervals. set (m := foldl merge_window [] _) in *. split_and!.
  - clear -H1. induction H1 as [|w m Hm IH Hf]; [constructor|]. rewrite reverse_cons. apply StronglySorted_app. split_and!; [|done|repeat constructor].
    intros a b Ha Hb%list_elem_of_singleton. subst b. rewrite elem_of_reverse in Ha. rewrite Forall_forall in Hf. exact (Hf a Ha).
  - by apply Forall_reverse.
  - intros x. rewrite (window_covers_perm _ m) by apply reverse_Permutation. rewrite H3, (window_covers_perm (merge_sort window_le ws) ws) by done. unfold covers. set_solver.
Qed.

(** *** Durations *)
Definition instants (w : Z * Z) : gset Z := list_to_set (seqZ w.1 (w.2 - w.1)).
Definition instants_of (ws : list (Z * Z)) : gset Z := ⋃ (instants <$> ws).

Lemma elem_of_instants w x : x ∈ instants w ↔ w.1 ≤ x < w.2.
Proof. unfold instants. rewrite elem_of_list_to_set, elem_of_seqZ. lia. Qed.
Lemma elem_of_instants_of ws x : x ∈ instants_of ws ↔ covers ws x.
Proof.
  unfold instants_of, covers. rewrite elem_of_union_list. setoid_rewrite list_elem_of_fmap. split.
  - intros (s & (w & -> & Hw) & Hx). exists w. by rewrite elem_of_instants in Hx.
  - intros (w & Hw & Hx). exists (instants w). split; [by exists w|by apply elem_of_instants].
Qed.
Lemma size_instants w : w.1 ≤ w.2 → Z.of_nat (size (instants w)) = w.2 - w.1.
Proof. intros H. unfold instants. rewrite size_list_to_set by apply NoDup_seqZ. rewrite length_seqZ. lia. Qed.

Lemma size_bound (s : gset Z) : (∀ x, x ∈ s → 0 ≤ x < u64_max) → Z.of_nat (size s) ≤ u64_max.
Proof.
  intros H. assert (Hs : s ⊆ list_to_set (seqZ 0 u64_max)).
  { intros x Hx. apply elem_of_list_to_set, elem_of_seqZ. specialize (H x Hx). lia. }
  apply subseteq_size in Hs. rewrite size_list_to_set in Hs by apply NoDup_seqZ. rewrite length_seqZ in Hs. unfold u64_max in *. lia.
Qed.

Lemma covers_range ws x : Forall proper ws → covers ws x → 0 ≤ x < u64_max.
Proof. intros H (w & Hw & Hx). rewrite Forall_forall in H. destruct (H w Hw). lia. Qed.

(** Windows that do not meet: the duration is the number of instants. *)
Lemma duration_instants ws : StronglySorted (λ a b, a.2 < b.1) ws → Forall proper ws →
  total_duration ws = Z.of_nat (size (instants_of ws)).
Proof.
  intros Hs Hp. assert (E : Z.of_nat (size (instants_of ws)) = sum ((λ w : Z * Z, w.2 - w.1) <$> ws)).
  { clear -Hs Hp. induction Hs as [|w ws Hs IH Hf]; [done|]. inversion_clear Hp as [|?? [[Hw0 Hw1] _] Hps]. unfold instants_of. cbn.
    fold (instants_of ws). rewrite size_union.
    - rewrite Nat2Z.inj_add, size_instants, IH by done. done.
    - intros y Hy%elem_of_instants (v & Hv & Hyv)%elem_of_instants_of. rewrite Forall_forall in Hf. pose proof (Hf v Hv). cbn in *. lia. }
  assert (Hb : sum ((λ w : Z * Z, w.2 - w.1) <$> ws) ≤ u64_max).
  { rewrite <- E. apply size_bound. intros x Hx%elem_of_instants_of. by eapply covers_range. }
  rewrite E. clear E Hs. unfold total_duration.
  assert (H : ∀ a, 0 ≤ a → a + sum ((λ w : Z * Z, w.2 - w.1) <$> ws) ≤ u64_max →
    foldl (λ total w, saturating_add total (saturating_sub w.2 w.1)) a ws = a + sum ((λ w : Z * Z, w.2 - w.1) <$> ws)); [|rewrite H; lia].
  clear Hb. induction Hp as [|w ws [[Hw0 Hw1] Hw2] Hp IH]; intros a Ha Hb; cbn in *; [unfold sum; cbn; lia|].
  assert (0 ≤ sum ((λ w : Z * Z, w.2 - w.1) <$> ws)).
  { apply sum_nonneg, Forall_fmap. eapply Forall_impl; [exact Hp|]. intros v [[? ?] ?]. cbn. lia. }
  unfold sum in *. cbn in *. assert (E : saturating_add a (saturating_sub w.2 w.1) = a + (w.2 - w.1)) by (unfold saturating_add, saturating_sub; lia).
  rewrite E, IH; lia.
Qed.

Lemma merged_duration ws : Forall proper ws → total_duration (merge_intervals ws) = Z.of_nat (size (instants_of ws)).
Proof.
  intros Hp. destruct (merge_intervals_exact ws Hp) as (H1 & H2 & H3). rewrite duration_instants by done. do 2 f_equal.
  apply set_eq. intros x. by rewrite !elem_of_instants_of.
Qed.
End Windows.

(** ** Occupancy *)
Module Occupancy.
Import Timing Windows SetSums.

Definition window_of (i : Z * Z * Z) : Z * Z := (i.1.2, i.2).
Definition windows_of (thread : Z) (ivs : list (Z * Z * Z)) : list (Z * Z) := window_of <$> filter (λ i, i.1.1 = thread) ivs.
Definition threads_of (ivs : list (Z * Z * Z)) : gset Z := list_to_set ((λ i : Z * Z * Z, i.1.1) <$> ivs).

Lemma windows_of_snoc t ivs i : windows_of t (ivs ++ [i]) = windows_of t ivs ++ (if decide (i.1.1 = t) then [window_of i] else []).
Proof. unfold windows_of. rewrite filter_app, fmap_app. f_equal. rewrite filter_cons. by case_decide. Qed.

Lemma windows_of_none t ivs : t ∉ threads_of ivs → windows_of t ivs = [].
Proof.
  induction ivs as [|i ivs IH]; [done|]. unfold threads_of, windows_of in *. rewrite fmap_cons, list_to_set_cons, not_elem_of_union, not_elem_of_singleton.
  intros [H1 H2]. rewrite filter_cons, decide_False by done. by apply IH.
Qed.

(** Every thread has its windows, in order. *)
Lemma group_windows_exact ivs t : group_windows ivs !! t = if decide (t ∈ threads_of ivs) then Some (windows_of t ivs) else None.
Proof.
  unfold group_windows. revert t. induction ivs as [|[[t0 s] e] ivs IH] using rev_ind; intros t; [by rewrite decide_False by set_solver|].
  rewrite foldl_snoc, windows_of_snoc. cbn [push_window fst snd]. assert (Ht : threads_of (ivs ++ [(t0, s, e)]) = threads_of ivs ∪ {[t0]}).
  { unfold threads_of. rewrite fmap_app, list_to_set_app_L. cbn. set_solver. }
  rewrite Ht. destruct (decide (t0 = t)) as [->|Hne].
  - rewrite lookup_insert_eq, IH, (decide_True (P := t ∈ _ ∪ _)) by set_solver. do 2 f_equal. case_decide as Hd; [done|]. cbn.
    by rewrite windows_of_none.
  - rewrite lookup_insert_ne, IH, app_nil_r by done. repeat case_decide; set_solver.
Qed.

Section timing.
Context (ivs : list (Z * Z * Z)) (Hp : Forall (λ i : Z * Z * Z, proper (window_of i)) ivs).

Lemma windows_proper t : Forall proper (windows_of t ivs).
Proof.
  unfold windows_of. apply Forall_fmap. rewrite Forall_forall in Hp. apply Forall_forall. intros i [_ Hi]%list_elem_of_filter. by apply Hp.
Qed.

Lemma covers_windows_of t x : covers (windows_of t ivs) x ↔ ∃ s e, (t, s, e) ∈ ivs ∧ s ≤ x < e.
Proof.
  unfold covers, windows_of. setoid_rewrite list_elem_of_fmap. setoid_rewrite list_elem_of_filter. split.
  - intros (w & ([[t' s] e] & -> & <- & Hi) & Hx). by exists s, e.
  - intros (s & e & Hi & Hx). exists (s, e). split; [|done]. by exists (t, s, e).
Qed.

(** The instants at which a thread is in the loop. *)
Definition busy (t : Z) : gset Z := instants_of (windows_of t ivs).

Lemma add_threads ls : (∀ e, e ∈ ls → e.2 = windows_of e.1 ivs) → ∀ acc, 0 ≤ acc.1 ≤ u64_max →
  let r := foldl add_thread acc ls in
  r.1 = Z.min (acc.1 + sum ((λ e : Z * list (Z * Z), Z.of_nat (size (busy e.1))) <$> ls)) u64_max ∧
  r.2 = acc.2 ++ concat ((λ e : Z * list (Z * Z), merge_intervals e.2) <$> ls).
Proof.
  induction ls as [|e ls IH]; intros He acc Ha; cbn.
  { split; [unfold sum; cbn; lia|by rewrite app_nil_r]. }
  assert (Ee : total_duration (merge_intervals e.2) = Z.of_nat (size (busy e.1))).
  { rewrite (He e) by (by left). apply merged_duration, windows_proper. }
  destruct (IH (λ v Hv, He v (list_elem_of_further _ _ _ Hv)) (add_thread acc e)) as [H1 H2].
  { unfold add_thread. cbn. unfold saturating_add. rewrite Ee. lia. }
  rewrite H1, H2. unfold add_thread. cbn. rewrite Ee, <- app_assoc. split; [|done]. unfold saturating_add, sum. cbn.
  assert (0 ≤ sum ((λ e : Z * list (Z * Z), Z.of_nat (size (busy e.1))) <$> ls)) by (apply sum_nonneg, Forall_fmap, Forall_forall; intros; cbn; lia).
  unfold sum in *. lia.
Qed.

#[local] Existing Instance Artifacts.key_le_dec.
Definition entries : list (Z * list (Z * Z)) := merge_sort Artifacts.key_le (map_to_list (group_windows ivs)).

Lemma elem_of_entries e : e ∈ entries ↔ e.1 ∈ threads_of ivs ∧ e.2 = windows_of e.1 ivs.
Proof.
  unfold entries. rewrite merge_sort_Permutation. destruct e as [t ws]. cbn. rewrite elem_of_map_to_list, group_windows_exact. case_decide; naive_solver.
Qed.

Lemma entries_threads : entries.*1 ≡ₚ elements (threads_of ivs).
Proof.
  apply NoDup_Permutation; [unfold entries; rewrite merge_sort_Permutation; apply NoDup_fst_map_to_list|apply NoDup_elements|].
  intros t. rewrite elem_of_elements, list_elem_of_fmap. setoid_rewrite elem_of_entries. split; [by intros (e & -> & H & _)|].
  intros H. by exists (t, windows_of t ivs).
Qed.

Lemma group_size : size (group_windows ivs) = size (threads_of ivs).
Proof.
  rewrite <- size_dom. f_equal. apply set_eq. intros t. rewrite elem_of_dom, group_windows_exact. case_decide; [naive_solver|].
  split; [by intros []|done].
Qed.

(** What one loop's timing says: [wall] is the union of the windows of all threads without
    overlap, [cpu_ns] adds up the instants of each thread. *)
Record occupancy (t : LoopTiming) : Prop := mkOccupancy {
  o_sorted : StronglySorted (λ a b, a.2 < b.1) (wall t);
  o_covers x : covers (wall t) x ↔ ∃ th s e, (th, s, e) ∈ ivs ∧ s ≤ x < e;
  o_wall : ∃ S : gset Z, (∀ x, x ∈ S ↔ ∃ th s e, (th, s, e) ∈ ivs ∧ s ≤ x < e) ∧ wall_ns t = Z.of_nat (size S);
  o_cpu : ∃ B : Z → gset Z, (∀ th x, x ∈ B th ↔ ∃ s e, (th, s, e) ∈ ivs ∧ s ≤ x < e) ∧
    cpu_ns t = Z.min (sum ((λ th, Z.of_nat (size (B th))) <$> elements (threads_of ivs))) u64_max;
  o_threads : threads t = Z.of_nat (size (threads_of ivs)) mod 2 ^ 32;
  o_order : wall_ns t ≤ cpu_ns t
}.

Lemma size_unions (l : list (gset Z)) : Z.of_nat (size (⋃ l)) ≤ sum ((λ s : gset Z, Z.of_nat (size s)) <$> l).
Proof.
  induction l as [|s l IH]; [done|]. cbn. unfold sum in *. cbn. rewrite size_union_alt, Nat2Z.inj_add.
  assert (size (⋃ l ∖ s) ≤ size (⋃ l))%nat by (apply subseteq_size; set_solver). lia.
Qed.

Lemma from_intervals_exact : occupancy (from_intervals ivs).
Proof.
  unfold from_intervals. fold entries. destruct (add_threads entries) with (acc := (0, @nil (Z * Z))) as [H1 H2].
  { intros e He. by apply elem_of_entries in He as [_ ->]. }
  { unfold u64_max. cbn. lia. }
  destruct (foldl add_thread (0, []) entries) as [cpu all]. cbn in H1, H2. subst cpu all.
  set (all := concat _). assert (Hall : Forall proper all).
  { unfold all. apply Forall_concat, Forall_fmap, Forall_forall. intros e [_ He]%elem_of_entries. cbn. rewrite He.
    apply merge_intervals_exact, windows_proper. }
  assert (Hc : ∀ x, covers all x ↔ ∃ th s e, (th, s, e) ∈ ivs ∧ s ≤ x < e).
  { intros x. transitivity (∃ th, th ∈ threads_of ivs ∧ covers (windows_of th ivs) x).
    - unfold all. rewrite covers_concat. split.
      + intros (ws & (e & -> & He)%list_elem_of_fmap & Hx). exists e.1. apply elem_of_entries in He as [Ht He]. split; [done|].
        rewrite He in Hx. by apply (merge_intervals_exact _ (windows_proper e.1)).
      + intros (th & Ht & Hx). apply (merge_intervals_exact _ (windows_proper th)) in Hx. exists (merge_intervals (windows_of th ivs)).
        split; [|done]. apply list_elem_of_fmap. exists (th, windows_of th ivs). split; [done|]. by apply elem_of_entries.
    - setoid_rewrite covers_windows_of. split; [naive_solver|]. intros (th & s & e & Hi & Hx). exists th. split; [|by exists s, e].
      unfold threads_of. apply elem_of_list_to_set, list_elem_of_fmap. by exists (th, s, e). }
  assert (Hb : ∀ th x, x ∈ busy th ↔ ∃ s e, (th, s, e) ∈ ivs ∧ s ≤ x < e) by (intros th x; unfold busy; by rewrite elem_of_instants_of, covers_windows_of).
  assert (Hw : wall_ns (mkTiming (merge_intervals all) 0 0) = Z.of_nat (size (instants_of all))) by (by apply merged_duration).
  assert (Hs : sum ((λ e : Z * list (Z * Z), Z.of_nat (size (busy e.1))) <$> entries) = sum ((λ th, Z.of_nat (size (busy th))) <$> elements (threads_of ivs))).
  { apply set_sum_perm. rewrite <- entries_threads, <- list_fmap_compose. done. }
  destruct (merge_intervals_exact all Hall) as (M1 & M2 & M3). split; cbn.
  - done.
  - intros x. by rewrite M3, Hc.
  - exists (instants_of all). split; [intros x; by rewrite elem_of_instants_of|exact Hw].
  - exists busy. split; [exact Hb|]. by rewrite Hs.
  - by rewrite group_size.
  - unfold wall_ns in *. cbn in *. rewrite Hw, Hs. apply Z.min_glb; [|apply size_bound; intros x Hx%elem_of_instants_of; exact (covers_range all x Hall Hx)].
    change (λ th, Z.of_nat (size (busy th))) with ((λ s : gset Z, Z.of_nat (size s)) ∘ busy). rewrite list_fmap_compose.
    etransitivity; [|apply size_unions]. apply inj_le, subseteq_size.
    intros x Hx. apply elem_of_instants_of, Hc in Hx as (th & s & e & Hi & Hx). apply elem_of_union_list. exists (busy th).
    split; [|apply Hb; by exists s, e]. apply list_elem_of_fmap. exists th. split; [done|]. apply elem_of_elements.
    unfold threads_of. apply elem_of_list_to_set, list_elem_of_fmap. by exists (th, s, e).
Qed.
End timing.
End Occupancy.

(** ** The curve of the memory controller *)
Module Curves.
Import Timeline.

Lemma narrow_done keys k fuel : ∀ base size, (size ≤ fuel)%nat → (0 < size)%nat → (base + size ≤ length keys)%nat →
  ∃ i, narrow fuel keys k base size = Done i ∧ (i < length keys)%nat.
Proof.
  induction fuel as [|fuel IH]; intros base size Hf H0 Hb; [lia|]. cbn [narrow].
  destruct (Nat.leb_spec size 1); [exists base; split; [done|lia]|].
  assert (Hh : (0 < size / 2 < size)%nat) by (split; [apply Nat.div_str_pos; lia|apply Nat.div_lt; lia]).
  destruct (lookup_lt_is_Some_2 keys (base + size / 2)) as [x ->]; [lia|]. cbn [unwrap mbind outcome_bind].
  destruct (k <? x); apply IH; lia.
Qed.

(** Looking up a time in a curve with samples never fails. *)
Lemma search_done keys k : keys ≠ [] → ∃ r, binary_search keys k = Done r ∧
  match r with inl i => (i < length keys)%nat | inr i => (i ≤ length keys)%nat end.
Proof.
  intros Hk. destruct keys as [|x0 keys]; [done|]. unfold binary_search. set (ks := x0 :: keys).
  destruct (narrow_done ks k (length ks) 0 (length ks)) as (i & -> & Hi); [done|cbn; lia|done|]. cbn [mbind outcome_bind].
  destruct (lookup_lt_is_Some_2 ks i Hi) as [x ->]. cbn [unwrap mbind outcome_bind]. destruct (x =? k); eexists; split; try done.
  destruct (x <? k); lia.
Qed.

Lemma cumulative_done samples t : samples ≠ [] → ∃ b, cumulative_at samples t = Done b.
Proof.
  intros Hs. unfold cumulative_at. destruct (search_done (fst <$> samples) t) as (r & -> & Hr); [by destruct samples|]. cbn [mbind outcome_bind].
  rewrite length_fmap in Hr. assert (Hu : ∀ i, (i < length samples)%nat → ∃ s, samples !! i = Some s) by (intros i Hi; by apply lookup_lt_is_Some_2 in Hi).
  destruct r as [i|[|i]].
  - destruct (Hu i Hr) as [s ->]. cbn. eauto.
  - destruct samples as [|s ?]; [done|]. cbn. eauto.
  - destruct (Hu i ltac:(lia)) as [s Es]. destruct (Nat.eqb_spec (S i) (length samples)); [rewrite Es; cbn; eauto|].
    destruct (Hu (S i) ltac:(lia)) as [s' Es']. rewrite Es. cbn [unwrap mbind outcome_bind]. rewrite Es'. cbn. eauto.
Qed.

Lemma bytes_in_done samples ivs : samples ≠ [] → ∃ b, bytes_in samples ivs = Done b.
Proof.
  intros Hs. unfold bytes_in. assert (H : ∀ acc, ∃ x, sum_bytes samples ivs acc = Done x); [|destruct (H (SpecFloat.S754_zero true)) as [x ->]; cbn; eauto].
  induction ivs as [|[s e] ivs IH]; intros acc; cbn; [eauto|]. destruct (cumulative_done samples e Hs) as [b1 ->], (cumulative_done samples s Hs) as [b2 ->].
  cbn. apply IH.
Qed.
End Curves.

(** ** Native samples *)
Module Native.
Import Rows Timing Occupancy Windows.

Definition read_counts (c : Artifacts.BlockCounts) : LoopCounts :=
  mkCounts (Artifacts.scalar_int_ops c) (Artifacts.scalar_float_ops c) (Artifacts.scalar_double_ops c) (Artifacts.vector_int_ops c)
    (Artifacts.vector_float_ops c) (Artifacts.vector_double_ops c) (Artifacts.bytes_load c) (Artifacts.bytes_store c)
    (Artifacts.arch_bytes_load c) (Artifacts.arch_bytes_store c) (Artifacts.unclassified_instructions c).
(** A record of the artifact, read by the report. *)
Definition as_read (al : LoopFile.LoopArtifact) : BinaryLoop :=
  mkBinaryLoop (LoopFile.module_offset al) (LoopFile.function al) (LoopFile.file al) (LoopFile.line al) (LoopFile.trip_count al)
    ((λ r, (LoopFile.module_start r, LoopFile.module_end r)) <$> LoopFile.block_ranges al) (read_counts (LoopFile.inclusive al))
    (LoopFile.loop_threads_ al).

Lemma parse_hex a : in_u64 a → parse_hex_address (LoopFile.hex a) = Some a.
Proof. intros Ha. unfold parse_hex_address, LoopFile.hex, show_hex. cbn [chars app strip_prefix]. cbn. by apply parse_show_hex. Qed.

Lemma parse_range_hex a b : in_u64 a → in_u64 b → parse_range (LoopFile.hex a, LoopFile.hex b) = Some (a, b).
Proof. intros Ha Hb. unfold parse_range. cbn [fst snd]. by rewrite !parse_hex by done. Qed.

Section native.
Context (capture : Artifacts.DynamicCfgCapture) (bias : Z) (l : Loops.NaturalLoop).
Context (Hu : ∀ a c, Artifacts.blocks capture !! a = Some c → in_u64 a ∧ in_u64 (Artifacts.end_ c)).
Context (Hb : 0 ≤ bias ∧ ∀ a, a ∈ Loops.blocks l → bias ≤ a).

(** An address of the accounting run inside the block at [s]. *)
Definition block_at (s a : Z) : Prop := match Artifacts.blocks capture !! s with Some c => s ≤ a < Artifacts.end_ c | None => False end.
#[export] Instance block_at_dec s a : Decision (block_at s a).
Proof. unfold block_at. destruct (Artifacts.blocks capture !! s); apply _. Defined.
Definition in_code (a : Z) : Prop := Exists (λ s, block_at s a) (elements (Loops.blocks l)).

Definition module_range (s : Z) : option (Z * Z) :=
  (λ c, (saturating_sub s bias, saturating_sub (Artifacts.end_ c) bias)) <$> Artifacts.blocks capture !! s.

Lemma ranges_read ss : Files.collect parse_range ((λ r, (LoopFile.module_start r, LoopFile.module_end r)) <$> omap (LoopFile.range_of capture bias) ss) =
  Some (omap module_range ss).
Proof.
  induction ss as [|s ss IH]; [done|]. cbn [omap list_omap].
  destruct (Artifacts.blocks capture !! s) as [c|] eqn:E.
  - assert (Er : LoopFile.range_of capture bias s = Some (LoopFile.mkRange (LoopFile.hex s) (LoopFile.hex (Artifacts.end_ c))
      (LoopFile.hex (saturating_sub s bias)) (LoopFile.hex (saturating_sub (Artifacts.end_ c) bias)))) by (unfold LoopFile.range_of; by rewrite E).
    assert (Em : module_range s = Some (saturating_sub s bias, saturating_sub (Artifacts.end_ c) bias)) by (unfold module_range; by rewrite E).
    rewrite Er, Em, fmap_cons. cbn [Files.collect]. destruct (Hu s c E) as [H1 H2].
    cbn [LoopFile.module_start LoopFile.module_end]. rewrite parse_range_hex by (unfold in_u64, saturating_sub in *; lia).
    cbn [mbind option_bind]. by rewrite IH.
  - assert (Er : LoopFile.range_of capture bias s = None) by (unfold LoopFile.range_of; by rewrite E).
    assert (Em : module_range s = None) by (unfold module_range; by rewrite E). rewrite Er, Em. exact IH.
Qed.

Lemma in_ranges_code a : in_ranges (omap module_range (Loops.asc (Loops.blocks l))) a = true ↔ 0 ≤ a ∧ in_code (a + bias).
Proof.
  unfold in_ranges, in_code. rewrite existsb_exists, Exists_exists. setoid_rewrite elem_of_elements. split.
  - intros (r & Hr%list_elem_of_In & Ha). apply list_elem_of_omap in Hr as (s & Hs%LoopsReach.Reach.elem_of_asc & E).
    unfold module_range in E. destruct (Artifacts.blocks capture !! s) as [c|] eqn:Ec; [|done]. injection E as <-. cbn in Ha.
    rewrite andb_true_iff, Z.leb_le, Z.ltb_lt in Ha. pose proof (proj2 Hb s Hs). unfold saturating_sub in Ha. split; [lia|].
    exists s. split; [done|]. unfold block_at. rewrite Ec. lia.
  - intros [Ha (s & Hs & H)]. unfold block_at in H. destruct (Artifacts.blocks capture !! s) as [c|] eqn:Ec; [|done].
    exists (saturating_sub s bias, saturating_sub (Artifacts.end_ c) bias). split.
    + apply list_elem_of_In, list_elem_of_omap. exists s. rewrite LoopsReach.Reach.elem_of_asc. split; [done|]. unfold module_range. by rewrite Ec.
    + cbn. rewrite andb_true_iff, Z.leb_le, Z.ltb_lt. unfold saturating_sub. pose proof (proj2 Hb s Hs). lia.
Qed.

(** *** The samples of a loop *)

(** The executable is loaded [shift] bytes above its link addresses. *)
Context (shift : Z) (mappings : list ModuleMapping).
Definition loaded : Prop := Forall (λ m, 0 ≤ svma_start m ∧ runtime_start m = svma_start m + shift ∧ runtime_end m - shift ≤ u64_max) mappings.
Context (Hm : loaded).

Definition mapped (ip : Z) : Prop := Exists (λ m, runtime_start m ≤ ip < runtime_end m) mappings.
Definition hit (t : TimingRow) : Prop := mapped (t_ip t) ∧ in_code (t_ip t - shift + bias).
#[export] Instance hit_dec t : Decision (hit t).
Proof. unfold hit, mapped, in_code. apply _. Defined.

(** The time a sample stands for. *)
Definition scaled (t : TimingRow) : Z := f64_as_u64 (f64_div (u64_as_f64 (Z.max (t_cpu_ns t) 0)) (scheduled (t_confidence t))).
Definition window (t : TimingRow) : Z * Z * Z :=
  (Z.max (t_thread t) 0 mod 2 ^ 32, saturating_sub (Z.max (t_timestamp t) 0) (scaled t), Z.max (t_timestamp t) 0).

Lemma normalize_exact ip :
  match normalize_sample_ip ip mappings with Some a => mapped ip ∧ a = ip - shift ∧ 0 ≤ a | None => ¬ mapped ip end.
Proof.
  unfold normalize_sample_ip, mapped. pose proof Hm as Hl. unfold loaded in Hl. clear Hm. revert Hl.
  generalize mappings. intros ms0 Hl. induction Hl as [|m ms (H1 & H2 & H3) _ IH]; cbn; [by intros H%Exists_nil|].
  destruct (Z.leb_spec (runtime_start m) ip) as [Hle|Hgt]; cbn [andb].
  - destruct (Z.ltb_spec ip (runtime_end m)) as [Hlt|Hge]; cbn.
    + split; [by left|]. unfold saturating_add, saturating_sub. lia.
    + destruct (List.find _ ms) as [m'|]; cbn in *; [destruct IH as [IH1 IH2]; split; [by right|done]|]. intros [H|H]%Exists_cons; [lia|done].
  - destruct (List.find _ ms) as [m'|]; cbn in *; [destruct IH as [IH1 IH2]; split; [by right|done]|]. intros [H|H]%Exists_cons; [lia|done].
Qed.

Lemma observed timings :
  observations (omap (timing_sample mappings) timings) (omap module_range (Loops.asc (Loops.blocks l))) = window <$> filter hit timings.
Proof.
  unfold observations. induction timings as [|t ts IH]; [done|]. cbn [omap list_omap].
  pose proof (normalize_exact (t_ip t)) as Hn. unfold timing_sample at 1. destruct (normalize_sample_ip (t_ip t) mappings) as [a|]; cbn [mbind option_bind].
  - destruct Hn as (Hmap & -> & Ha). cbn [List.filter module_address]. pose proof (in_ranges_code (t_ip t - shift)) as Hr.
    rewrite filter_cons. destruct (decide (hit t)) as [[_ Hh]|Hh].
    + rewrite (proj2 Hr (conj Ha Hh)), !fmap_cons. f_equal. exact IH.
    + destruct (in_ranges _ _) eqn:E; [|exact IH]. destruct Hh. split; [done|]. by apply Hr.
  - rewrite filter_cons, decide_False by (by intros [? _]). exact IH.
Qed.

Lemma as_u64_nonneg x : 0 ≤ f64_as_u64 x.
Proof.
  unfold f64_as_u64. destruct x as [|[]| |[]]; try done. assert (0 ≤ Z.shiftl (Zpos m) e) by by apply Z.shiftl_nonneg. unfold u64_max. lia.
Qed.

Lemma windows_ok timings : Forall (λ t, t_timestamp t < 2 ^ 63) timings →
  Forall (λ i : Z * Z * Z, proper (window_of i)) (window <$> filter hit timings).
Proof.
  rewrite Forall_fmap, !Forall_forall. intros H t [_ Ht]%list_elem_of_filter. specialize (H t Ht). cbn in H. unfold proper, window_of, window. cbn.
  pose proof (as_u64_nonneg (f64_div (u64_as_f64 (Z.max (t_cpu_ns t) 0)) (scheduled (t_confidence t)))) as Hs. fold (scaled t) in Hs.
  unfold saturating_sub, u64_max. lia.
Qed.
End native.

Lemma artifact_fields demangle loader capture bias loops l al : LoopFile.loop_artifact demangle loader capture bias loops l = Done al →
  LoopFile.block_ranges al = omap (LoopFile.range_of capture bias) (Loops.asc (Loops.blocks l)) ∧ LoopFile.trip_count al = LoopFile.trips capture l.
Proof.
  unfold LoopFile.loop_artifact. destruct (Source.resolve_source _ _ _) as [[f1 f2] f3]. destruct (LoopFile.parent_hex _ _); [|done].
  cbn [mbind outcome_bind]. by intros [= <-].
Qed.

(** C10: the time of a loop of the binary is the time its threads were seen in it. A loop that
    the accounting run recorded (at one load address, [bias]) is matched with the samples of
    the timed run (at another, [shift]) whose instruction lies in one of its blocks, whatever
    the two addresses are; the duration of its row is the number of nanoseconds covered by the
    window of at least one of these samples (overlapping windows count once), the processor
    time is at least that, and a loop without such samples has neither. *)
Theorem native_time_exact (demangle : list Z → list Z) (loader : option Source.Loader) (capture : Artifacts.DynamicCfgCapture) (bias : Z)
    (loops : list Loops.NaturalLoop) (l : Loops.NaturalLoop) (al : LoopFile.LoopArtifact) (shift : Z) (mappings : list ModuleMapping)
    (timings : list TimingRow) (bandwidth : option (list (Z * Z))) :
  LoopFile.loop_artifact demangle loader capture bias loops l = Done al →
  (∀ a c, Artifacts.blocks capture !! a = Some c → in_u64 a ∧ in_u64 (Artifacts.end_ c)) →
  (0 ≤ bias ∧ ∀ a, a ∈ Loops.blocks l → bias ≤ a) → loaded shift mappings → Forall (λ t, t_timestamp t < 2 ^ 63) timings →
  (∀ curve, bandwidth = Some curve → curve ≠ []) →
  let hits := filter (hit capture bias l shift mappings) timings in
  ∃ row, binary_row (omap (timing_sample mappings) timings) bandwidth (as_read al) = Done (Some row) ∧
    timing_samples row = Z.of_nat (length hits) ∧ r_trip_count row = Some (LoopFile.trips capture l) ∧
    (hits = [] → duration_ns row = None ∧ cpu_time_ns row = None) ∧
    (hits ≠ [] → ∃ wall cpu (S : gset Z), duration_ns row = Some wall ∧ cpu_time_ns row = Some cpu ∧ wall ≤ cpu ∧
       (∀ x, x ∈ S ↔ ∃ t, t ∈ hits ∧ (window t).1.2 ≤ x < (window t).2) ∧ wall = Z.of_nat (size S)).
Proof.
  intros Ha Hu Hb Hm Ht Hc hits. destruct (artifact_fields _ _ _ _ _ _ _ Ha) as [Hr Htr].
  unfold binary_row, as_read. cbn [block_ranges]. rewrite Hr, (ranges_read capture bias l Hu Hb). rewrite (observed capture bias l Hb shift mappings Hm).
  fold hits. set (seen := window <$> hits). assert (Hby : ∃ b, measured bandwidth (wall (from_intervals seen)) = Done b).
  { destruct bandwidth as [curve|]; cbn; [apply Curves.bytes_in_done, (Hc curve eq_refl)|eauto]. }
  destruct Hby as [by_ ->]. cbn [mbind outcome_bind]. eexists. split; [done|]. cbn.
  assert (Hlen : length seen = length hits) by apply length_fmap. rewrite Hlen. split; [done|]. split; [by rewrite Htr|].
  split; [by intros ->|]. intros Hne. assert (Hpos : 0 <? Z.of_nat (length hits) = true) by (apply Z.ltb_lt; destruct hits; [done|]; cbn; lia). rewrite Hpos.
  destruct (from_intervals_exact seen) as [_ _ (S & HS & Hw) _ _ Ho]; [by apply windows_ok|].
  do 2 eexists. exists S. split; [done|]. split; [done|]. split; [done|]. split; [|done]. intros x. rewrite HS. split.
  - intros (th & s & e & (t & E & Hin)%list_elem_of_fmap & Hx). exists t. split; [done|].
    injection E as _ -> ->. exact Hx.
  - intros (t & Hin & Hx). exists (window t).1.1, (window t).1.2, (window t).2. split; [|done]. apply list_elem_of_fmap. exists t.
    split; [by destruct (window t) as [[] ?]|done].
Qed.

(** The loop of [sample_capture] around the inner one, with three samples: two in it that
    overlap, one outside. *)
Definition sample_loop : Loops.NaturalLoop := Loops.mkLoop 4112 {[4128]} {[4112; 4128]} None.
Definition sample_timings : list TimingRow :=
  [mkTimingRow 1000 1 16912 100 None; mkTimingRow 1050 2 16920 100 None; mkTimingRow 2000 1 16944 100 None].

Lemma sample_addresses a c : Artifacts.blocks Artifact.sample_capture !! a = Some c → in_u64 a ∧ in_u64 (Artifacts.end_ c).
Proof.
  intros H%elem_of_map_to_list.
  assert (F : forallb (λ e : Z * Artifacts.BlockCounts, (0 <=? e.1) && (e.1 <=? u64_max) && (0 <=? Artifacts.end_ e.2) && (Artifacts.end_ e.2 <=? u64_max))
    (map_to_list (Artifacts.blocks Artifact.sample_capture)) = true) by (vm_compute; reflexivity).
  rewrite forallb_forall in F. apply list_elem_of_In, F in H. cbn [fst snd] in H. unfold in_u64. lia.
Qed.

Lemma native_time_exact_witness : ∃ al row,
  LoopFile.loop_artifact id None Artifact.sample_capture 3072 [sample_loop] sample_loop = Done al ∧
  binary_row (omap (timing_sample [mkMapping 16384 20480 512]) sample_timings) None (as_read al) = Done (Some row) ∧
  timing_samples row = 2 ∧ r_trip_count row = Some 9 ∧ duration_ns row = Some 150 ∧ ∃ cpu, cpu_time_ns row = Some cpu ∧ 150 ≤ cpu.
Proof.
  destruct (native_time_exact id None Artifact.sample_capture 3072 [sample_loop] sample_loop _ 15872 [mkMapping 16384 20480 512] sample_timings None eq_refl)
    as (row & E & H1 & H2 & _ & H3).
  - apply sample_addresses.
  - split; [lia|]. unfold sample_loop. cbn. intros a Ha. apply elem_of_union in Ha as [Ha%elem_of_singleton|Ha%elem_of_singleton]; lia.
  - repeat constructor; unfold u64_max; cbn; lia.
  - repeat constructor.
  - done.
  - eexists _, row. split; [reflexivity|]. split; [exact E|]. rewrite H1, H2. split; [vm_compute; reflexivity|]. split; [vm_compute; reflexivity|].
    destruct H3 as (wall & cpu & S & Hw & Hc & Hle & _ & _); [vm_compute; congruence|].
    assert (Hw' : wall = 150) by (vm_compute in E; injection E as <-; vm_compute in Hw; congruence). subst wall.
    split; [done|]. by exists cpu.
Defined.
End Native.

(** ** Instrumented loops *)
Module History.
Import Events LoopEvents.

Section history.
Context (payloads : gmap Z Payload) (names : gmap Z (list Z)).

(** The region [id] after a history (latest event first): the event that began it last, if it
    has not ended since, and the events after that one. *)
Fixpoint region (h : list TraceEvent) (id : Z) : option (TraceEvent * list TraceEvent) :=
  match h with
  | [] => None
  | e :: h =>
      if (kind e =? Begin) && (instance e =? id) then Some (e, [])
      else if (kind e =? End_) && (flow_id e =? id) then None
      else (λ r, (r.1, e :: r.2)) <$> region h id
  end.

(** The value last reported for a count of a region. *)
Definition reports (id : Z) (ty : EventType) (e : TraceEvent) : bool :=
  (kind e =? CounterKind) && (parent_id e =? id) && bool_decide (counter_type names e = Some ty).
Definition last_value (id : Z) (es : list TraceEvent) (ty : EventType) : Z := from_option value 0 (List.find (reports id ty) es).

Definition info (r : TraceEvent * list TraceEvent) : option RooflineLoopInfo :=
  let v := last_value (instance r.1) r.2 in
  (λ p, mkInfo (instance r.1) (e_pid r.1) (e_tid r.1) (file_id p) (function_id p) (p_line p) (timestamp r.1)
    (v RooflineBytesLoad) (v RooflineBytesStore) (v RooflineScalarIntOps) (v RooflineScalarFloatOps) (v RooflineScalarDoubleOps)
    (v RooflineVectorIntOps) (v RooflineVectorFloatOps) (v RooflineVectorDoubleOps)) <$> payloads !! event_id r.1.

(** The regions that end, each with the event that ends it, in order. *)
Fixpoint closed (h es : list TraceEvent) : list (RooflineLoopInfo * TraceEvent) :=
  match es with
  | [] => []
  | e :: es =>
      (if kind e =? End_ then match region h (flow_id e) ≫= info with Some i => [(i, e)] | None => [] end else []) ++ closed (e :: h) es
  end.

(** Why an event is refused. *)
Inductive refused (h : list TraceEvent) (e : TraceEvent) : LoopError → Prop :=
| refused_begin : kind e = Begin → payloads !! event_id e = None → refused h e (NoPayload (event_id e))
| refused_end : kind e = End_ → region h (flow_id e) = None → refused h e (UnknownLoop (flow_id e))
| refused_counter ty : kind e = CounterKind → counter_type names e = Some ty → region h (parent_id e) = None → refused h e (UnknownParent (parent_id e)).

Definition accepted (h : list TraceEvent) (e : TraceEvent) : Prop := ∀ err, ¬ refused h e err.

Definition in_process (pid : Z) (c : RooflineLoopInfo * TraceEvent) : bool := as_i32 (e_pid c.2) =? pid.
Definition runs_of (base : Z) (cs : list (RooflineLoopInfo * TraceEvent)) : list (RooflineLoopInfo * Z) :=
  (λ c, (c.1, timestamp c.2)) <$> List.filter (in_process base) cs.
Definition ops_of (base inst : Z) (cs : list (RooflineLoopInfo * TraceEvent)) : list RooflineLoopInfo :=
  fst <$> List.filter (λ c, negb (in_process base c) && in_process inst c) cs.

(** *** The state after a history *)
Definition agrees (o : option (TraceEvent * list TraceEvent)) (v : option RooflineLoopInfo) : Prop :=
  match o with Some r => is_Some (info r) ∧ v = info r | None => v = None end.
Definition tracks (h : list TraceEvent) (loops : gmap Z RooflineLoopInfo) : Prop := ∀ id, agrees (region h id) (loops !! id).

Lemma region_instance h id r : region h id = Some r → instance r.1 = id.
Proof.
  revert r. induction h as [|e h IH]; intros r; cbn; [done|]. destruct ((kind e =? Begin) && (instance e =? id)) eqn:E; [intros [= <-]; cbn; lia|].
  destruct ((kind e =? End_) && (flow_id e =? id)); [done|]. destruct (region h id) as [r'|]; [|done]. intros [= <-]. cbn. by apply IH.
Qed.

(** A report changes one count, another event none. *)
Lemma info_skip b e es : (∀ ty, reports (instance b) ty e = false) → info (b, e :: es) = info (b, es).
Proof. intros H. unfold info, last_value. cbn [fst snd List.find]. by rewrite !H. Qed.

Lemma info_report b e es ty i : kind e = CounterKind → parent_id e = instance b → counter_type names e = Some ty → info (b, es) = Some i →
  info (b, e :: es) = Some (set_count ty (value e) i).
Proof.
  intros Hk Hp Ht Hi. assert (Hr : ∀ t, reports (instance b) t e = bool_decide (ty = t)).
  { intros t. unfold reports. rewrite Hk, Hp, Ht, !Z.eqb_refl. cbn. apply bool_decide_ext. naive_solver. }
  unfold info, last_value in *. cbn [fst snd List.find] in *. rewrite !Hr. destruct (payloads !! event_id b) as [p|]; [|done]. cbn in *. injection Hi as <-.
  by destruct ty.
Qed.

Lemma region_other h e id : (kind e = Begin → instance e ≠ id) → (kind e = End_ → flow_id e ≠ id) →
  region (e :: h) id = (λ r, (r.1, e :: r.2)) <$> region h id.
Proof.
  intros H1 H2. cbn. destruct (Z.eqb_spec (kind e) Begin) as [E|_]; cbn [andb]; [rewrite (proj2 (Z.eqb_neq _ _) (H1 E))|];
    (destruct (Z.eqb_spec (kind e) End_) as [E'|_]; cbn [andb]; [by rewrite (proj2 (Z.eqb_neq _ _) (H2 E'))|done]).
Qed.

Lemma agrees_skip h e id v : (kind e = Begin → instance e ≠ id) → (kind e = End_ → flow_id e ≠ id) →
  (∀ ty, kind e = CounterKind → counter_type names e = Some ty → parent_id e ≠ id) → agrees (region h id) v → agrees (region (e :: h) id) v.
Proof.
  intros H1 H2 H3. rewrite region_other by done. destruct (region h id) as [[b es]|] eqn:Er; [|done]. apply region_instance in Er. cbn in Er. cbn.
  rewrite info_skip; [done|]. intros ty. unfold reports. rewrite Er. destruct (Z.eqb_spec (kind e) CounterKind) as [Ek|]; [|done]. cbn [andb].
  case_bool_decide as Ht; [|by rewrite andb_false_r]. by rewrite (proj2 (Z.eqb_neq _ _) (H3 ty Ek Ht)).
Qed.

Ltac kinds := unfold Begin, End_, CounterKind in *; congruence.

Section step.
Context (h : list TraceEvent) (base inst : Z) (loops : gmap Z RooflineLoopInfo) (runs : list (RooflineLoopInfo * Z)) (ops : list RooflineLoopInfo).
Context (e : TraceEvent) (Ht : tracks h loops).

(** What one event does: it is refused, or the state tracks it and what it ends is listed. *)
Definition handled (r : LoopError + RooflineData) : Prop :=
  match r with
  | inl err => refused h e err
  | inr d => accepted h e ∧ ∃ loops', tracks (e :: h) loops' ∧
      d = mkData base inst loops' (runs ++ runs_of base (closed h [e])) (ops ++ ops_of base inst (closed h [e]))
  end.

Lemma not_ending loops' : kind e ≠ End_ → accepted h e → tracks (e :: h) loops' → handled (inr (mkData base inst loops' runs ops)).
Proof.
  intros Hk Ha Htr. split; [done|]. exists loops'. split; [done|]. unfold closed. rewrite (proj2 (Z.eqb_neq _ _) Hk). cbn. by rewrite !app_nil_r.
Qed.

Lemma step_begin : kind e = Begin → handled (consume payloads names (mkData base inst loops runs ops) e).
Proof.
  intros Hk. unfold consume. rewrite Hk, Z.eqb_refl. destruct (payloads !! event_id e) as [p|] eqn:Ep; [|by constructor].
  apply not_ending; [kinds|intros err; inversion 1; kinds|]. intros id. destruct (decide (instance e = id)) as [<-|Hne].
  - rewrite lookup_insert_eq. cbn. rewrite Hk, !Z.eqb_refl. cbn. unfold info. cbn. rewrite Ep. cbn. eauto.
  - rewrite lookup_insert_ne by done. apply agrees_skip; [done| | |apply Ht]; intros; kinds.
Qed.

Lemma step_end : kind e = End_ → handled (consume payloads names (mkData base inst loops runs ops) e).
Proof.
  intros Hk. unfold consume. rewrite Hk, Z.eqb_refl. change (End_ =? Begin) with false. cbv iota. specialize (Ht (flow_id e)) as Hf.
  destruct (region h (flow_id e)) as [r|] eqn:Er; cbn in Hf; [|rewrite Hf; by constructor]. destruct Hf as [[i Hi] ->]. rewrite Hi.
  assert (Hacc : accepted h e) by (intros err; inversion 1; kinds). assert (Htr : tracks (e :: h) (delete (flow_id e) loops)).
  { intros id. destruct (decide (flow_id e = id)) as [<-|Hne].
    - rewrite lookup_delete_eq. cbn. by rewrite Hk, !Z.eqb_refl.
    - rewrite lookup_delete_ne by done. apply agrees_skip; [|done| |apply Ht]; intros; kinds. }
  assert (Hcl : closed h [e] = [(i, e)]) by (cbn; rewrite Hk, Z.eqb_refl, Er; cbn; by rewrite Hi).
  destruct (as_i32 (e_pid e) =? base) eqn:E1; [|destruct (as_i32 (e_pid e) =? inst) eqn:E2]; (split; [done|]); eexists; (split; [exact Htr|]);
    rewrite Hcl; unfold runs_of, ops_of, in_process; cbn; rewrite E1; cbn; rewrite ?E2; cbn; by rewrite ?app_nil_r.
Qed.

Lemma step_counter : kind e = CounterKind → handled (consume payloads names (mkData base inst loops runs ops) e).
Proof.
  intros Hk. unfold consume. rewrite Hk. change (CounterKind =? Begin) with false. change (CounterKind =? End_) with false.
  change (negb (CounterKind =? CounterKind)) with false. cbv iota. destruct (counter_type names e) as [ty|] eqn:Ety; cycle 1.
  { apply not_ending; [kinds|intros err; inversion 1; kinds|]. intros id. apply agrees_skip; [| | |apply Ht]; intros; kinds. }
  specialize (Ht (parent_id e)) as Hp. destruct (region h (parent_id e)) as [[b es]|] eqn:Er; cbn in Hp; [|rewrite Hp; by eapply refused_counter].
  destruct Hp as [[i Hi] ->]. rewrite Hi. apply not_ending; [kinds|intros err; inversion 1; kinds|].
  intros id. destruct (decide (parent_id e = id)) as [<-|Hne].
  - rewrite lookup_insert_eq, region_other, Er by (intros; kinds). pose proof (region_instance _ _ _ Er) as Hb. cbn in Hb |- *.
    rewrite (info_report b e es ty i) by done. eauto.
  - rewrite lookup_insert_ne by done. apply agrees_skip; [| |done|apply Ht]; intros; kinds.
Qed.

Lemma step_other : kind e ≠ Begin → kind e ≠ End_ → kind e ≠ CounterKind → handled (consume payloads names (mkData base inst loops runs ops) e).
Proof.
  intros H1 H2 H3. unfold consume. rewrite (proj2 (Z.eqb_neq _ _) H1), (proj2 (Z.eqb_neq _ _) H2), (proj2 (Z.eqb_neq _ _) H3).
  apply not_ending; [done|intros err; inversion 1; kinds|]. intros id. by apply agrees_skip.
Qed.

Lemma consume_handled : handled (consume payloads names (mkData base inst loops runs ops) e).
Proof.
  destruct (decide (kind e = Begin)); [by apply step_begin|]. destruct (decide (kind e = End_)); [by apply step_end|].
  destruct (decide (kind e = CounterKind)); [by apply step_counter|by apply step_other].
Qed.
End step.

(** *** All events *)
Fixpoint all_accepted (h es : list TraceEvent) : Prop :=
  match es with [] => True | e :: es => accepted h e ∧ all_accepted (e :: h) es end.

Lemma closed_cons h e es : closed h (e :: es) = closed h [e] ++ closed (e :: h) es.
Proof. cbn. by rewrite app_nil_r. Qed.

Lemma consume_all_exact es : ∀ h base inst loops runs ops, tracks h loops →
  match consume_all payloads names es (mkData base inst loops runs ops) with
  | inr d => all_accepted h es ∧ LoopEvents.runs d = runs ++ runs_of base (closed h es) ∧ LoopEvents.ops d = ops ++ ops_of base inst (closed h es)
  | inl err => ∃ before e after, es = before ++ e :: after ∧ all_accepted h before ∧ refused (reverse before ++ h) e err
  end.
Proof.
  induction es as [|e es IH]; intros h base inst loops runs ops Ht; [cbn; by rewrite !app_nil_r|]. cbn [consume_all].
  pose proof (consume_handled h base inst loops runs ops e Ht) as Hs. destruct (consume payloads names _ e) as [err|d]; cbn in Hs.
  - exists [], e, es. by split_and!.
  - destruct Hs as (Ha & loops' & Ht' & ->). specialize (IH (e :: h) base inst loops' (runs ++ runs_of base (closed h [e])) (ops ++ ops_of base inst (closed h [e])) Ht').
    destruct (consume_all payloads names es _) as [err|d].
    + destruct IH as (before & e' & after & -> & Hb & Hr). exists (e :: before), e', after. split; [done|]. split; [done|].
      by rewrite reverse_cons, <- app_assoc.
    + destruct IH as (H1 & H2 & H3). split; [done|]. rewrite H2, H3, (closed_cons h e es). unfold runs_of, ops_of.
      rewrite !List.filter_app, !fmap_app, !app_assoc. done.
Qed.
End history.

(** C30: the regions of instrumented loops are read exactly. Either every event is accepted,
    and then the runs are, in the order of their ends, the regions that ended in the timed
    process, each with the process, thread, position and start of the event that began it
    last, and the operations are those that ended in the instrumented process with the value
    last reported for each count since their beginning; or loading stops at the first event
    that begins a region without a payload, ends one that is not open or reports a count of
    one that is not open, and the error names it. *)
Theorem loop_regions_exact (payloads : gmap Z Payload) (names : gmap Z (list Z)) (perf_pid inst_pid : Z) (es : list TraceEvent) :
  match load_instrumented_loops payloads names perf_pid inst_pid es with
  | inr d => all_accepted payloads names [] es ∧ runs d = runs_of perf_pid (closed payloads names [] es) ∧
      ops d = ops_of perf_pid inst_pid (closed payloads names [] es)
  | inl err => ∃ before e after, es = before ++ e :: after ∧ all_accepted payloads names [] before ∧ refused payloads names (reverse before) e err
  end.
Proof.
  pose proof (consume_all_exact payloads names es [] perf_pid inst_pid ∅ [] []) as H. unfold load_instrumented_loops.
  destruct (consume_all payloads names es _); [setoid_rewrite app_nil_r in H|]; apply H; intros id; cbn; apply lookup_empty.
Qed.

(** A loop that both processes run, with a count that is reported twice. *)
Example regions_sample :
  let payload := {[7 := mkPayload 70 71 12]} in
  let names := {[8 := chars "roofline_bytes_load"]} in
  load_instrumented_loops payload names 100 200
    [mkEvent 10 7 1 0 0 Begin 100 5 0; mkEvent 30 0 0 0 1 End_ 100 5 0; mkEvent 40 7 2 0 0 Begin 200 6 0;
     mkEvent 41 8 0 2 0 CounterKind 200 6 64; mkEvent 42 8 0 2 0 CounterKind 200 6 96; mkEvent 50 0 0 0 2 End_ 200 6 0] =
  inr (mkData 100 200 ∅ [(mkInfo 1 100 5 71 70 12 10 0 0 0 0 0 0 0 0, 30)] [mkInfo 2 200 6 71 70 12 40 96 0 0 0 0 0 0 0]).
Proof. vm_compute. reflexivity. Qed.
End History.
